(* ===== verification/_CoqProject ===== *)
-Q . S2P
Prelude.v
Slice.v
Tensor.v
Gpu.v
Block.v
Lru.v
PrefixCache.v
PrefixCacheInv.v
PrefixCacheSpec.v
PrefixCacheEvict.v
PrefixCacheInsert.v
Types.v
StateDict.v
Linear.v
LinearInv.v
Stopping.v
Decoder.v
Tiktoken.v
TiktokenInv.v
Sequence.v
SequenceInv.v
BlockManager.v
BlockManagerInv.v
BlockStore.v
Request.v
Sampling.v
Logits.v
Kernels.v
Rotary.v
LogitsInv.v
Batch.v
BatchInv.v
Sampler.v
Rejection.v
Engine.v
ModelRunner.v
Speculative.v
EngineInv.v
ResponseHandler.v
Scheduler.v
RequestInv.v
Handler.v
ChatTemplate.v
Activation.v
Api.v
SchedulerInv.v
SchedulerLoop.v
SchedulerBuild.v
Step.v
HandlerInv.v
Server.v
MemoryProps.v
BlockManagerProps.v
KvCoherence.v
RequestProps.v
ServerProps.v
SchedulerProps.v
HandlerProps.v
EngineProps.v
CallData.v
ApiProps.v
CallDataProps.v
TiktokenProps.v
KernelProps.v
ThreadPool.v
LinearProps.v
FusedProps.v
ModelRunnerProps.v
RotaryProps.v
Attention.v
AttentionProps.v
ActivationProps.v
Norm.v
NormProps.v
Config.v
Models.v
ModelInv.v
ModelProps.v
Quantization.v
QuantProps.v
