(* ===== verification/Prelude.v ===== *)
(** * A verification of the ScaleLLM serving core

    ScaleLLM serves large language models.  A gRPC call becomes a request; a
    scheduler picks, step after step, the sequences that run in the next batch and
    gives them blocks of the KV cache; an engine runs the network on the batch and
    samples one token per sequence; the tokens become text that is streamed back.
    This library models that path, from the handlers of the calls down to the
    reference counts of the blocks, and proves what makes it correct.

    ** How the program is modelled

    Code that changes state is a computation of the monad [M S A] of this file: a
    function from a state to a result and a state, or to a [failure].  A failure is
    a [CHECK] that aborts the process, an access out of bounds or through a bad
    pointer, or an unsigned subtraction that wraps: a theorem that concludes [wp]
    also says that none of them happens.  [DCHECK] counts as [CHECK].  Integers are
    [nat] or [Z] with the truncations of the C++ written out ([u32], [i32], [i64]);
    floats are IEEE numbers ([SpecFloat]).  The clock is a list of readings, an
    unordered set a list whose order does not matter (which is proved), and ties
    in a sort keep their order.  libtorch, the network, the random numbers and the
    tokenizer are type classes with the laws that their documentation gives
    ([Torch], [Model], [Rng], [Tokenizer], [Encoder]).

    ** Files

    - [Slice]: [common/slice.h].  [ThreadPool]: [common/concurrent_queue.h] and
      [common/threadpool.*], a step relation of threads, callers and destructor.
    - [Block]: [memory/block.*] and [memory/block_allocator.*], handles with
      reference counts on a heap of blocks.
    - [Lru], [PrefixCache], [PrefixCacheInv], [PrefixCacheEvict],
      [PrefixCacheSpec], [PrefixCacheInsert]:
      [memory/prefix_cache.*], a radix tree of cached blocks with an intrusive LRU
      list; its abstract content is a map from token prefixes to blocks.
    - [Types], [Stopping], [Decoder]: [request/output.h], [status.h],
      [stopping_criteria.*], [incremental_decoder.*].
    - [Tiktoken], [TiktokenInv]: [tokenizer/tiktoken_tokenizer.*], with RE2
      as a parameter; an instance of the interfaces [Tokenizer] and [Encoder].
    - [Sequence], [SequenceInv]: [request/sequence.*].  [Request], [RequestInv]: [request/request.*].
    - [BlockManager], [BlockManagerInv]: [memory/block_manager.*].  [BlockStore] is
      the interface that the scheduler uses it through: a class of operations with
      their laws and the instance that discharges them.
    - [Sampling], [Logits], [LogitsInv], [Sampler]: [sampling/].
    - [Gpu], [Kernels]: grids of threads whose reads and writes of a flat array
      interleave, as updates of one element or as programs of loads and stores; the
      kernels of [kernels/sampling/penalty_kernels.cu] and
      [kernels/kv_cache_kernels.cu], and [memory/kv_cache.*].
    - [Batch], [BatchInv]: [engine/batch.*], against the interface
      [SeqHeap] of a heap of sequences; the scheduler's instance is in [RequestInv].
    - [Engine], [EngineInv]: [engine/llm_engine.*] and [engine/worker.*] over an
      abstract network.
    - [Rejection], [Speculative]: [speculative/].
    - [ResponseHandler]: [scheduler/response_handler.*].
    - [Scheduler], [SchedulerInv], [SchedulerLoop], [SchedulerBuild], [Step]:
      [scheduler/continuous_scheduler.*].
    - [Handler], [HandlerInv]: [handlers/llm_handler.*].  [Server]: clients,
      handling threads, scheduler thread and response threads as one transition
      system whose steps are the modelled operations.
    - [ChatTemplate]: [chat_template/coded_chat_template.*] and
      [common_chat_template.*].
    - [Api]: [handlers/completion_handler.*], [chat_handler.*], [utils.*].
      [CallData]: [handlers/call_data.h], a step relation over the atomic accesses
      of the two threads of a call.
    - [Tensor]: libtorch's tensors of one and two dimensions, and [model_parallel/],
      programs of ranks that meet at collectives.
      [StateDict]: [model_loader/state_dict.*] and [layers/weight_utils.*].
      [Linear], [LinearInv]: [layers/linear_impl.*], [fused_linear.*],
      [qkv_linear.*] and [embedding.h].
    - [ModelRunner]: [engine/model_runner.*], CUDA graphs over shared buffers.
    - [Rotary]: [layers/pos_embedding.*] and
      [kernels/pos_embedding_kernels.cu].  [Activation]: [layers/activation.*] and
      [kernels/activation_kernels.cu].
    - [Attention]: [layers/attention/attention.*], [handler.*] and [ref_handler.*].
    - [Norm]: [layers/normalization.h], [kernels/layernorm_kernels.cu] and
      [kernels/reduce_kernel_utils.cuh], blocks of threads with shuffles, shared
      memory and barriers.
    - [Config]: from the documents of a model's directory to its arguments:
      [models/model_args.h], [model_registry.*], [common/json_reader.*], the loaders
      that every model registers, [model_loader/args_overrider.cpp] and
      [HFModelLoader::load_model_args].
    - [Models], [ModelInv]: the networks of [models/llama.h], [mistral.h], [aquila.h]
      and [internlm.h], as the code of one rank; the class [AttentionModule] is what
      the layers use of an attention module.
    - [Quantization]: [quantization/pack_utils.*] and [qlinear_impl.*], weights packed
      into words and the parallel layers over them; the choice of a layer in
      [layers/linear.cpp].
    - the files ending in [Props] hold the theorems about these, with a concrete
      example for every theorem that has a hypothesis.

    ** What is shown

    - [ServerProps]: in every reachable state of the whole server the next step of
      every thread succeeds, no request is lost, no block is leaked, and the
      counter of pending requests is right.
    - [SchedulerProps]: batches keep within their budgets and own their blocks,
      every batch makes progress, the scheduling loop ends, and the order of
      service does not depend on the order of arrival.
    - [MemoryProps], [BlockManagerProps]: allocation, sharing, matching, insertion
      and eviction against the abstract content of the cache; nothing leaks.
    - [KvCoherence]: on any number of sequences and in any order of the steps, the
      slots of a sequence hold the keys and values of its own text, so that the
      prefix cache, preemption and eviction are invisible to the network.
    - [RequestProps]: stopping criteria, streaming of text, appending and
      validating tokens, life cycle of a request.
    - [EngineProps], [KernelProps]: the packed input of a batch is the
      concatenation of its sequences, the KV cache fits, the logits processors
      compute their reference definitions, and speculation does not change greedy
      decoding.
    - [HandlerProps], [ApiProps], [CallDataProps]: which requests are refused, what
      a client receives, and that every interleaving of a call delivers its
      messages in order and deletes it.
    - [TiktokenProps]: byte-pair encoding against its reference, the
      round trips of the tokenizer, and who says what in
      the prompt of a chat.
    - [KernelProps], [ThreadPool]: the kernels in every interleaving of their
      threads against the loops on the CPU; the pool runs every task once, in
      order, and shuts down.
    - [LinearProps], [FusedProps]: any number of ranks computes what one would, from
      the shards of a checkpoint in any order of its files.
    - [ModelRunnerProps], [RotaryProps], [ActivationProps]: replayed graphs, the
      rotary kernel and the activation kernels compute what the plain code does.
    - [AttentionProps]: on whole prompts the reference attention is causal attention
      over each sequence alone; a decoding step does not see the cache.
    - [NormProps]: the normalization kernels, in every interleaving between their
      barriers and shuffles, compute what the functions on tensors compute.
    - [Config]: from every configuration with entries of the right types the
      arguments of the registered models are loaded, complete and in range.
    - [ModelProps]: on any number of ranks a model that is loaded from the files of a
      checkpoint computes the logits of the network on one device.  The class
      [AttentionLaws] is what an attention module promises to the layers; the three
      kinds of attention modules are its instances.

    - [Quantization], [QuantProps]: packing and unpacking are inverse; what the packed
      weights stand for, and that quantized layers on any number of ranks compute the
      product with them.

    Loops that are not structural carry fuel.  The scheduling loop gets one
    iteration more than there are requests in its queues, which
    [schedule_loop_ends] proves to be enough; the loops of the prefix cache get a
    bound from the size of the tree, and the lemmas about them show that they never
    return [OutOfFuel].

    The theorems about the whole server assume no speculative decoding, since the
    scheduler's own checks can fail with it, a clock that does not go back and
    different creation times.  The response tasks and the handler's jobs run one at
    a time, between the steps of the scheduler.

    The theorems about layers on several ranks are about exact addition
    ([ScalarLaws]), those about activations about exact products ([ActLaws]), and
    those about attention and normalization about exact sums and roots ([AttnLaws],
    [NormLaws]); the theorem about whole models assumes the first and the third of
    these; the laws of the rotary embeddings ([ArithLaws]) are proved for IEEE numbers, so that
    theorem is about the bits.  A replayed graph has a block table that is padded
    with zeros, which the network is assumed to ignore.

    ** Not modelled

    The networks of the other models, which compose the same layers; the kernels for
    attention, matrix products and the products of the other quantized layers, which
    are CUDA code on tensor instructions; the kernel of the normalization with a residual; the readers
    of model files;
    process start-up, sockets and bindings; the creation of process groups; metrics
    and logging; the tokenizers that wrap SentencePiece and Hugging Face and the jinja templates,
    which are library calls. *)

From stdpp Require Import base tactics list gmap strings.

(** ** Failures and the error-state monad *)

(** What stops the modelled C++ code.  [CheckFailed] is a glog [CHECK] (or
    [DCHECK]) that does not hold, which aborts the process.  The other values
    are the places where the C++ would have undefined behaviour or where an
    unsigned subtraction would wrap: the model stops there instead of inventing
    a value, so that a theorem that concludes [Ok] also shows that they are
    never reached.  [OutOfFuel] only marks the bound of a [while] loop. *)
Inductive failure :=
  | CheckFailed (what : string)
  | OutOfBounds
  | Underflow
  | NullPointer
  | UseAfterFree
  | OutOfFuel.

#[global] Instance failure_eq_dec : EqDecision failure.
Proof. solve_decision. Defined.

Inductive result (A : Type) :=
  | Ok (a : A)
  | Fail (e : failure).
Arguments Ok {A} _.
Arguments Fail {A} _.

(** The value of a result that is known to be [Ok]. *)
Definition is_ok {A} (r : result A) : bool := match r with Ok _ => true | Fail _ => false end.
Definition ok_value {A} (r : result A) : is_ok r = true → A :=
  match r with
  | Ok a => λ _, a
  | Fail _ => λ H, match Bool.diff_false_true H with end
  end.

Lemma ok_value_eq {A} (r : result A) H : r = Ok (ok_value r H).
Proof. by destruct r. Qed.

Lemma ok_value_of {A} (r : result A) H a : r = Ok a → ok_value r H = a.
Proof. by destruct r; intros [= ->]. Qed.

(** A computation over the mutable state [S]: it fails, or returns a value and
    the new state. *)
Definition M (S A : Type) : Type := S → result (A * S).

#[global] Instance M_ret {S} : MRet (M S) := λ A a s, Ok (a, s).
#[global] Instance M_bind {S} : MBind (M S) := λ A B k m s,
  match m s with
  | Ok (a, s') => k a s'
  | Fail e => Fail e
  end.

Definition fail {S A} (e : failure) : M S A := λ _, Fail e.
Definition get {S} : M S S := λ s, Ok (s, s).
Definition gets {S A} (f : S → A) : M S A := λ s, Ok (f s, s).
Definition put {S} (s : S) : M S unit := λ _, Ok (tt, s).
Definition modify {S} (f : S → S) : M S unit := λ s, Ok (tt, f s).

(** [CHECK(b) << msg]. *)
Definition check {S} (b : bool) (msg : string) : M S unit :=
  if b then mret tt else fail (CheckFailed msg).

(** Reading through an option: a pointer or an index that may be bad. *)
Definition from_option_or {S A} (e : failure) (o : option A) : M S A :=
  match o with Some a => mret a | None => fail e end.

(** Unsigned subtraction of sizes that the code relies on not wrapping. *)
Definition sub_size {S} (a b : nat) : M S nat :=
  if decide (b ≤ a) then mret (a - b) else fail Underflow.

(** [for (x : l) f(x)], stopping at the first failure. *)
Fixpoint for_each {S A} (f : A → M S unit) (l : list A) : M S unit :=
  match l with
  | [] => mret tt
  | x :: l' => f x ≫= λ _, for_each f l'
  end.

Fixpoint map_each {S A B} (f : A → M S B) (l : list A) : M S (list B) :=
  match l with
  | [] => mret []
  | x :: l' => f x ≫= λ y, map_each f l' ≫= λ ys, mret (y :: ys)
  end.

(** Run a computation on a part of the state. *)
Definition zoom {S T A} (sel : S → T) (upd : T → S → S) (m : M T A) : M S A :=
  λ s, match m (sel s) with
       | Ok (a, t) => Ok (a, upd t s)
       | Fail e => Fail e
       end.

(** Machine widths.  Sizes ([size_t]) are [nat]; a conversion of a size to
    [uint32_t] keeps the low 32 bits, a conversion to [int32_t] is two's
    complement, and a [size_t] counter that may be decremented below zero wraps
    at 64 bits. *)
Definition u32 (n : nat) : nat := N.to_nat (N.of_nat n `mod` 2 ^ 32)%N.
Definition i32 (z : Z) : Z := ((z + 2 ^ 31) `mod` 2 ^ 32 - 2 ^ 31)%Z.
Definition u64 (z : Z) : Z := (z `mod` 2 ^ 64)%Z.

(** ** Total-correctness reasoning *)

(** [wp m s Q]: from state [s] the computation [m] does not fail, and the value
    and the state it produces satisfy [Q]. *)
Definition wp {S A} (m : M S A) (s : S) (Q : A → S → Prop) : Prop :=
  match m s with
  | Ok (a, s') => Q a s'
  | Fail _ => False
  end.

Section wp.
Context {S : Type}.
Implicit Types s : S.

(** The result of a run that is known to succeed. *)
Lemma wp_value {A} (m : M S A) s Q H :
  wp m s Q → Q (ok_value (m s) H).1 (ok_value (m s) H).2.
Proof. unfold wp. destruct (m s) as [[a s']|] eqn:E; [done|by discriminate]. Qed.

(** The state after a run that is known to succeed. *)
Lemma ok_value_run (m : M S unit) s H : m s = Ok (tt, (ok_value (m s) H).2).
Proof. destruct (m s) as [[[] s']|]; [done|by discriminate]. Qed.

Lemma wp_run {A} (m : M S A) s Q a s' : wp m s Q → m s = Ok (a, s') → Q a s'.
Proof. unfold wp. by intros H E; rewrite E in H. Qed.

Lemma wp_ok {A} (m : M S A) s Q :
  wp m s Q → ∃ a s', m s = Ok (a, s') ∧ Q a s'.
Proof. unfold wp. destruct (m s) as [[a s']|]; [eauto|done]. Qed.

Lemma wp_intro {A} (m : M S A) s Q a s' :
  m s = Ok (a, s') → Q a s' → wp m s Q.
Proof. unfold wp. by intros ->. Qed.

Lemma wp_mono {A} (m : M S A) s (Q Q' : A → S → Prop) :
  wp m s Q → (∀ a s', Q a s' → Q' a s') → wp m s Q'.
Proof. unfold wp. destruct (m s) as [[a s']|]; eauto. Qed.

Lemma wp_mono_ok {A} (m : M S A) s (Q Q' : A → S → Prop) :
  wp m s Q → (∀ a s', m s = Ok (a, s') → Q a s' → Q' a s') → wp m s Q'.
Proof. unfold wp. destruct (m s) as [[a s']|]; eauto. Qed.

Lemma wp_ret {A} (a : A) s (Q : A → S → Prop) : Q a s → wp (mret a) s Q.
Proof. done. Qed.

Lemma wp_bind {A B} (m : M S A) (k : A → M S B) s Q :
  wp m s (λ a s', wp (k a) s' Q) → wp (m ≫= k) s Q.
Proof.
  unfold wp, mbind, M_bind. destruct (m s) as [[a s']|]; done.
Qed.

Lemma wp_bind_inv {A B} (m : M S A) (k : A → M S B) s Q :
  wp (m ≫= k) s Q → wp m s (λ a s', wp (k a) s' Q).
Proof.
  unfold wp, mbind, M_bind. destruct (m s) as [[a s']|]; done.
Qed.

Lemma wp_gets {A} (f : S → A) s Q : Q (f s) s → wp (gets f) s Q.
Proof. done. Qed.

Lemma wp_get s Q : Q s s → wp get s Q.
Proof. done. Qed.

Lemma wp_put s s' Q : Q tt s' → wp (put s') s Q.
Proof. done. Qed.

Lemma wp_modify (f : S → S) s Q : Q tt (f s) → wp (modify f) s Q.
Proof. done. Qed.

Lemma wp_check (b : bool) msg s Q : b = true → Q tt s → wp (check b msg) s Q.
Proof. by intros ->. Qed.

Lemma wp_from_option {A} e (o : option A) a s Q :
  o = Some a → Q a s → wp (from_option_or e o) s Q.
Proof. by intros ->. Qed.

Lemma wp_sub_size (a b : nat) s Q :
  b ≤ a → Q (a - b) s → wp (sub_size a b) s Q.
Proof. intros Hle HQ. unfold sub_size. by case_decide. Qed.

(** A loop over a list keeps an invariant indexed by what is already done. *)
Lemma wp_for_each {A} (I : list A → S → Prop) (f : A → M S unit) l s
    (Q : unit → S → Prop) :
  I [] s →
  (∀ done x todo s', l = done ++ x :: todo → I done s' →
    wp (f x) s' (λ _ s'', I (done ++ [x]) s'')) →
  (∀ s', I l s' → Q tt s') →
  wp (for_each f l) s Q.
Proof.
  intros H0 Hstep HQ.
  assert (∀ todo dn s', l = dn ++ todo → I dn s' →
    wp (for_each f todo) s' (λ _ s'', I l s'')) as Hgen.
  { induction todo as [|x todo IH]; intros dn s' -> HI; simpl.
    - apply wp_ret. by rewrite app_nil_r in *.
    - apply wp_bind. eapply wp_mono; [by eapply Hstep|].
      intros ? s'' HI'. apply (IH (dn ++ [x])); [by rewrite <- app_assoc|done]. }
  eapply wp_mono; [by eapply (Hgen l [])|]. intros [] s' HI. auto.
Qed.

Lemma wp_zoom {T A} (sel : S → T) upd (m : M T A) s Q :
  wp m (sel s) (λ a t, Q a (upd t s)) → wp (zoom sel upd m) s Q.
Proof. unfold wp, zoom. destruct (m (sel s)) as [[a t]|]; done. Qed.
End wp.

(** Inversion of a successful run. *)
Lemma bind_ok {S A B} (m : M S A) (k : A → M S B) s b s'' :
  (m ≫= k) s = Ok (b, s'') ↔ ∃ a s', m s = Ok (a, s') ∧ k a s' = Ok (b, s'').
Proof.
  unfold mbind, M_bind. destruct (m s) as [[a s']|e]; [naive_solver|].
  split; [done|intros (?&?&?&?); done].
Qed.

(** One step of a monadic program under [wp]. *)
Ltac wp_step :=
  lazymatch goal with
  | |- wp (_ ≫= _) _ _ => apply wp_bind
  | |- wp (mret _) _ _ => apply wp_ret
  | |- wp (gets _) _ _ => apply wp_gets
  | |- wp get _ _ => apply wp_get
  | |- wp (put _) _ _ => apply wp_put
  | |- wp (modify _) _ _ => apply wp_modify
  | |- wp (zoom _ _ _) _ _ => apply wp_zoom
  | |- wp (check _ _) _ _ => apply wp_check
  | |- wp (from_option_or _ _) _ _ => eapply wp_from_option
  | |- wp (sub_size _ _) _ _ => apply wp_sub_size
  end.
Ltac wp_steps := repeat (wp_step; cbn beta).

(** ** Generic lemmas *)

Create HintDb serving.
Create Rewrite HintDb serving.

Lemma u32_id n : (N.of_nat n < 2 ^ 32)%N → u32 n = n.
Proof. intros H. unfold u32. rewrite N.mod_small by done. lia. Qed.

Lemma u32_le n : u32 n ≤ n.
Proof.
  unfold u32. pose proof (N.Div0.mod_le (N.of_nat n) (2 ^ 32)). lia.
Qed.

Lemma i32_id z : (- 2 ^ 31 ≤ z < 2 ^ 31)%Z → i32 z = z.
Proof. intros H. unfold i32. rewrite Z.mod_small; lia. Qed.

Lemma u64_id z : (0 ≤ z < 2 ^ 64)%Z → u64 z = z.
Proof. intros H. unfold u64. by rewrite Z.mod_small. Qed.

#[export] Hint Rewrite @length_take @length_drop @length_app @length_insert
  @length_replicate @length_fmap @length_seq : serving.

Section lists.
Context {A : Type}.
Implicit Types l k : list A.

(** Appending to the used part of an array. *)
Lemma take_S_insert l i (x : A) :
  i < length l → take (S i) (<[i:=x]> l) = take i l ++ [x].
Proof.
  intros Hi. rewrite (take_S_r _ _ x) by (by apply list_lookup_insert_eq).
  by rewrite take_insert_ge by lia.
Qed.

Lemma take_take_le l i j : i ≤ j → take i (take j l) = take i l.
Proof. intros ?. rewrite take_take. f_equal. lia. Qed.

Lemma filter_ext_in (P Q : A → Prop) `{∀ x, Decision (P x), ∀ x, Decision (Q x)} l :
  (∀ x, x ∈ l → P x ↔ Q x) → filter P l = filter Q l.
Proof.
  induction l as [|x l IH]; intros H1; [done|]. rewrite !filter_cons.
  rewrite IH by set_solver.
  destruct (H1 x) as [? ?]; [set_solver|]. repeat case_decide; tauto || done.
Qed.

(** Weakening a relation between lists, knowing the left elements. *)
Lemma Forall2_mono_in {B} (P Q : A → B → Prop) l (k : list B) :
  Forall2 P l k → (∀ x y, x ∈ l → P x y → Q x y) → Forall2 Q l k.
Proof.
  intros H. induction H as [|x y l k Hxy _ IH]; intros HPQ; constructor.
  - apply HPQ; [by left|done].
  - apply IH. intros a b Ha. apply HPQ. by right.
Qed.
End lists.

(** Lists of lists of one length, and numbers. *)
Lemma lookup_bind_const {B C} n (f : B → list C) l k i : (∀ x, x ∈ l → length (f x) = n) → i < n →
  (l ≫= f) !! (k * n + i) = l !! k ≫= λ x, f x !! i.
Proof.
  intros Hf Hi. revert k. induction l as [|x l IH]; intros k; [by destruct k|]. cbn [mbind list_bind].
  pose proof (Hf x ltac:(constructor)) as Hx. destruct k as [|k].
  - cbn [Nat.mul Nat.add lookup list_lookup mbind option_bind]. by rewrite lookup_app_l by lia.
  - rewrite lookup_app_r by lia. rewrite Hx. replace (S k * n + i - n) with (k * n + i) by lia. apply IH. intros y Hy. apply Hf. by constructor.
Qed.
Lemma bind_const_length {B C} n (f : B → list C) l : (∀ x, x ∈ l → length (f x) = n) → length (l ≫= f) = length l * n.
Proof.
  intros Hf. induction l as [|x l IH]; [done|]. cbn [mbind list_bind length]. rewrite length_app, (Hf x) by constructor.
  rewrite IH; [lia|]. intros y Hy. apply Hf. by constructor.
Qed.
Lemma seq0_lookup i n : i < n → seq 0 n !! i = Some i.
Proof. intros Hi. by rewrite lookup_seq_lt. Qed.

Lemma mul_div_l k m : k ≠ 0 → k * m / k = m.
Proof. intros Hk. rewrite Nat.mul_comm. by apply Nat.div_mul. Qed.
Lemma mul_mod_l k m : (k * m) `mod` k = 0.
Proof. rewrite Nat.mul_comm. apply Nat.Div0.mod_mul. Qed.
