(* ===== verification/Slice.v ===== *)
(** * Slices

    [src/common/slice.h]: a [Slice<T>] is a pointer and a length into a vector
    that outlives it, so it is modelled by the list of the elements it covers.
    Its [CHECK]s are kept. *)

From stdpp Require Import base tactics list strings.
From S2P Require Import Prelude.

Section slice.
Context {S A : Type}.

(** [Slice(const std::vector<T>& data, size_t size)]. *)
Definition slice_of (data : list A) (size : nat) : M S (list A) :=
  _ ← check (bool_decide (size ≤ length data)) "slice size";
  mret (take size data).

(** [Slice<T> slice(size_t start)]. *)
Definition slice_from (start : nat) (l : list A) : M S (list A) :=
  _ ← check (bool_decide (start ≤ length l)) "slice start";
  mret (drop start l).

(** [Slice<T> slice(size_t start, size_t end)]. *)
Definition slice (start end_ : nat) (l : list A) : M S (list A) :=
  _ ← check (bool_decide (start ≤ end_) && bool_decide (end_ ≤ length l)) "slice range";
  mret (take (end_ - start) (drop start l)).

(** [operator[]], [front] and [back] read the underlying memory unchecked. *)
Definition at_ (l : list A) (i : nat) : M S A := from_option_or OutOfBounds (l !! i).
Definition front (l : list A) : M S A := at_ l 0.
Definition back (l : list A) : M S A := from_option_or OutOfBounds (last l).

Lemma slice_of_wp data n s Q :
  n ≤ length data → Q (take n data) s → wp (slice_of data n) s Q.
Proof. intros. unfold slice_of. wp_steps; [by apply bool_decide_eq_true_2|done]. Qed.

Lemma slice_from_wp n l s Q :
  n ≤ length l → Q (drop n l) s → wp (slice_from n l) s Q.
Proof. intros. unfold slice_from. wp_steps; [by apply bool_decide_eq_true_2|done]. Qed.

Lemma slice_wp i j l s Q :
  i ≤ j ≤ length l → Q (take (j - i) (drop i l)) s → wp (slice i j l) s Q.
Proof.
  intros [??] ?. unfold slice. wp_steps; [|done].
  rewrite !bool_decide_eq_true_2 by done. done.
Qed.
End slice.

(** [operator==]: same length and same elements. *)
Definition slice_eqb {A} `{EqDecision A} (l r : list A) : bool :=
  bool_decide (length l = length r) && forallb (λ p, bool_decide (p.1 = p.2)) (zip l r).

(** The comparison of slices decides equality of the covered elements. *)
Lemma slice_eqb_eq {A} `{EqDecision A} (l r : list A) : slice_eqb l r = true ↔ l = r.
Proof.
  unfold slice_eqb. rewrite andb_true_iff, bool_decide_eq_true, forallb_forall. split.
  - intros [Hlen Hall]. revert r Hlen Hall. induction l as [|x l IH]; intros [|y r] Hlen Hall;
      simplify_eq/=; [done|]. f_equal.
    + specialize (Hall (x, y) (or_introl eq_refl)). by apply bool_decide_eq_true in Hall.
    + apply IH; auto.
  - intros <-. split; [done|]. intros [a b] Hin. apply bool_decide_eq_true_2. simpl.
    induction l as [|x l IH]; simpl in Hin; [done|]. destruct Hin as [[= -> ->]|]; auto.
Qed.
