(* ===== verification/Tensor.v ===== *)
(** * Tensors of one and two dimensions

    What the parallel layers use of libtorch, as its documentation defines it: sizes,
    [chunk], [cat], flattening and [linear].  The scalars are those of exact
    arithmetic: a commutative monoid of sums, without a law for the products. *)

From stdpp Require Import base tactics list strings.
From S2P Require Import Prelude.

Class Scalar (A : Type) := {
  s_zero : A;
  s_add : A → A → A;
  s_mul : A → A → A;
}.

Class ScalarLaws (A : Type) `{Scalar A} := {
  s_add_assoc :: Assoc (=) s_add;
  s_add_comm :: Comm (=) s_add;
  s_add_zero :: LeftId (=) s_zero s_add;
}.

Section tensor.
Context {A : Type}.

Inductive Tensor := Vec (v : list A) | Mat (cols : nat) (rows : list (list A)).

(** The rows of a matrix have its width. *)
Definition tensor_ok (t : Tensor) : Prop :=
  match t with Vec _ => True | Mat c rows => Forall (λ r, length r = c) rows end.

(** [sizes()] and [size(dim)]. *)
Definition sizes (t : Tensor) : list nat :=
  match t with Vec v => [length v] | Mat c rows => [length rows; c] end.
Definition size_of {S} (t : Tensor) (dim : nat) : M S nat := from_option_or OutOfBounds (sizes t !! dim).

(** Piece [i] of the [n] equal pieces of a list. *)
Definition piece {B} (n i : nat) (l : list B) : list B :=
  let k := length l / n in take k (drop (i * k) l).

(** [chunk(n, dim)[i]], for a size that [n] divides. *)
Definition chunk (n dim i : nat) (t : Tensor) : Tensor :=
  match t, dim with
  | Vec v, _ => Vec (piece n i v)
  | Mat c rows, 0 => Mat c (piece n i rows)
  | Mat c rows, _ => Mat (c / n) (piece n i <$> rows)
  end.

(** [torch::cat]: an empty vector is skipped; the others have the same number of
    dimensions and the same sizes but for [dim]. *)
Definition cat2 {S} (dim : nat) (a b : Tensor) : M S Tensor :=
  match a, b, dim with
  | Vec v, Vec w, 0 => mret (Vec (v ++ w))
  | Mat c r, Mat d q, 0 => _ ← check (bool_decide (c = d)) "Sizes of tensors must match"; mret (Mat c (r ++ q))
  | Mat c r, Mat d q, 1 =>
      _ ← check (bool_decide (length r = length q)) "Sizes of tensors must match"; mret (Mat (c + d) (zip_with app r q))
  | _, _, _ => fail (CheckFailed "Tensors must have same number of dimensions")
  end.
Definition is_empty_vec (t : Tensor) : bool := match t with Vec [] => true | _ => false end.
Fixpoint cat_from {S} (dim : nat) (t : Tensor) (ts : list Tensor) : M S Tensor :=
  match ts with
  | [] => mret t
  | u :: us => t' ← cat2 dim t u; cat_from dim t' us
  end.
Definition cat {S} (dim : nat) (ts : list Tensor) : M S Tensor :=
  match filter (λ t, is_empty_vec t = false) ts with
  | [] => match ts with [] => fail (CheckFailed "expected a non-empty list of Tensors") | t :: _ => mret t end
  | t :: us => cat_from dim t us
  end.

(** The memory of a contiguous tensor, and a tensor like [t] over other memory. *)
Definition flatten (t : Tensor) : list A := match t with Vec v => v | Mat _ rows => concat rows end.
Fixpoint unflatten (c n : nat) (l : list A) : list (list A) :=
  match n with 0 => [] | S n => take c l :: unflatten c n (drop c l) end.
Definition like (t : Tensor) (l : list A) : Tensor :=
  match t with Vec _ => Vec l | Mat c rows => Mat c (unflatten c (length rows) l) end.

(** An operation on every element. *)
Definition pointwise (f : A → A) (t : Tensor) : Tensor :=
  match t with Vec v => Vec (map f v) | Mat c rows => Mat c (map (map f) rows) end.

Context `{Scalar A}.

Definition sum (l : list A) : A := foldr s_add s_zero l.
Definition dot (x w : list A) : A := sum (zip_with s_mul x w).

(** [F::linear(x, w, b)] is [x w^T + b]. *)
Definition linear_row (w : list (list A)) (b : option (list A)) (x : list A) : list A :=
  match b with
  | None => dot x <$> w
  | Some b => zip_with s_add (dot x <$> w) b
  end.
Definition linear {S} (x w : Tensor) (b : option Tensor) : M S Tensor :=
  match x, w, b with
  | Mat n xs, Mat m ws, None =>
      _ ← check (bool_decide (n = m)) "mat1 and mat2 shapes cannot be multiplied";
      mret (Mat (length ws) (linear_row ws None <$> xs))
  | Mat n xs, Mat m ws, Some (Vec v) =>
      _ ← check (bool_decide (n = m)) "mat1 and mat2 shapes cannot be multiplied";
      _ ← check (bool_decide (length v = length ws)) "size mismatch";
      mret (Mat (length ws) (linear_row ws (Some v) <$> xs))
  | _, _, _ => fail (CheckFailed "linear")
  end.

(** [add_] of a vector to every row. *)
Definition add_bias {S} (t b : Tensor) : M S Tensor :=
  match t, b with
  | Mat c rows, Vec v =>
      _ ← check (bool_decide (length v = c)) "The size of tensor a must match the size of tensor b";
      mret (Mat c ((λ r, zip_with s_add r v) <$> rows))
  | _, _ => fail (CheckFailed "add_")
  end.

(** [F::embedding(input, weight)]. *)
Definition embedding {S} (input : list nat) (weight : Tensor) : M S Tensor :=
  match weight with
  | Mat c rows => out ← map_each (λ i, from_option_or OutOfBounds (rows !! i)) input; mret (Mat c out)
  | Vec _ => fail (CheckFailed "'weight' must be 2-D")
  end.
End tensor.
Arguments Tensor : clear implicits.

(** ** Collectives and the model-parallel regions

    [src/model_parallel/process_group.*] and [src/model_parallel/model_parallel.*].
    Every rank runs the same code; it stops at a collective until all ranks have
    reached one.  NCCL is outside of the repository: [ncclAllGather] concatenates the
    buffers in the order of the ranks, [ncclAllReduce] with [ncclSum] adds them
    element by element, and both need all ranks to make the same call with the same
    count. *)

(** ** The code of one rank *)
Section spmd.
Context {A : Type}.

Inductive Spmd (B : Type) :=
  | Ret (b : B)
  | Abort (e : failure)
  | AllGather (sendbuff : list A) (k : list A → Spmd B)
  | AllReduce (sendbuff : list A) (k : list A → Spmd B).
Arguments Ret {B} _.
Arguments Abort {B} _.
Arguments AllGather {B} _ _.
Arguments AllReduce {B} _ _.

Fixpoint spmd_bind {B C} (m : Spmd B) (f : B → Spmd C) : Spmd C :=
  match m with
  | Ret b => f b
  | Abort e => Abort e
  | AllGather l k => AllGather l (λ r, spmd_bind (k r) f)
  | AllReduce l k => AllReduce l (λ r, spmd_bind (k r) f)
  end.

(** Code without collectives. *)
Definition local {B} (m : M unit B) : Spmd B :=
  match m tt with Ok (b, _) => Ret b | Fail e => Abort e end.

(** ** All ranks together *)

Definition returned {B} (p : Spmd B) : option B := match p with Ret b => Some b | _ => None end.
Definition gathering {B} (p : Spmd B) : option (list A * (list A → Spmd B)) :=
  match p with AllGather l k => Some (l, k) | _ => None end.
Definition reducing {B} (p : Spmd B) : option (list A * (list A → Spmd B)) :=
  match p with AllReduce l k => Some (l, k) | _ => None end.

Definition same_count (ls : list (list A)) : bool :=
  match ls with [] => true | l :: ls => forallb (λ l', bool_decide (length l' = length l)) ls end.

Context `{Scalar A}.

Definition add_lists (l l' : list A) : list A := zip_with s_add l l'.
Definition reduce (ls : list (list A)) : list A :=
  match ls with [] => [] | l :: ls => foldl add_lists l ls end.

(** The next collective, if all ranks have reached the same one. *)
Definition world_step {B} (ps : list (Spmd B)) : option (list (Spmd B)) :=
  match mapM gathering ps with
  | Some cs => if same_count cs.*1 then Some ((λ c, c.2 (concat cs.*1)) <$> cs) else None
  | None =>
      match mapM reducing ps with
      | Some cs => if same_count cs.*1 then Some ((λ c, c.2 (reduce cs.*1)) <$> cs) else None
      | None => None
      end
  end.

(** The run of all ranks; [None] is a rank that aborted, a collective that some rank
    never reaches, or a run of more than [fuel] collectives. *)
Fixpoint run_world {B} (fuel : nat) (ps : list (Spmd B)) : option (list B) :=
  match mapM returned ps with
  | Some bs => Some bs
  | None =>
      match fuel with
      | 0 => None
      | S fuel => ps' ← world_step ps; run_world fuel ps'
      end
  end.
End spmd.
Arguments Spmd : clear implicits.
Arguments Ret {A B} _.
Arguments Abort {A B} _.
Arguments AllGather {A B} _ _.
Arguments AllReduce {A B} _ _.

#[global] Instance Spmd_ret {A} : MRet (Spmd A) := λ B b, Ret b.
#[global] Instance Spmd_bind {A} : MBind (Spmd A) := λ B C f m, spmd_bind m f.

(** ** ProcessGroupNCCL and the regions *)
Section regions.
Context {A : Type} `{Scalar A}.

(** [ProcessGroupNCCL::allgather]: the outputs are like the input. *)
Definition allgather (world_size : nat) (input : Tensor A) : Spmd A (list (Tensor A)) :=
  AllGather (flatten input) (λ flattened_output,
    Ret ((λ i, like input (piece world_size i flattened_output)) <$> seq 0 world_size)).

(** [ProcessGroupNCCL::allreduce], in place. *)
Definition allreduce (input : Tensor A) : Spmd A (Tensor A) :=
  AllReduce (flatten input) (λ recvbuff, Ret (like input recvbuff)).

(** The last dimension of a tensor. *)
Definition last_dim (t : Tensor A) : nat := length (sizes t) - 1.

(** [gather_from_model_parallel_region]. *)
Definition gather_from_model_parallel_region (world_size : nat) (input : Tensor A) : Spmd A (Tensor A) :=
  if decide (world_size = 1) then mret input
  else tensors ← allgather world_size input; local (cat (last_dim input) tensors).

(** [reduce_from_model_parallel_region]. *)
Definition reduce_from_model_parallel_region (world_size : nat) (input : Tensor A) : Spmd A (Tensor A) :=
  if decide (world_size = 1) then mret input else allreduce input.

(** [scatter_to_model_parallel_region]. *)
Definition scatter_to_model_parallel_region {S} (rank world_size : nat) (input : Tensor A) : M S (Tensor A) :=
  if decide (world_size = 1) then mret input
  else
    last_dim_size ← size_of input (last_dim input);
    _ ← check (bool_decide (last_dim_size `mod` world_size = 0)) "last_dim_size not divisible by world_size";
    mret (chunk world_size (last_dim input) rank input).
End regions.
