(* ===== verification/Gpu.v ===== *)
(** * CUDA kernels that update an array in place

    The model that the kernels of [src/kernels/sampling/penalty_kernels.cu] and
    [src/kernels/kv_cache_kernels.cu] share: a thread is a list of updates of the
    array, each a load and a later store, and the threads interleave in any way.
    If no two updates touch the same element, every execution ends with all of
    them applied. *)

From Stdlib Require Import PeanoNat.
From stdpp Require Import base tactics list relations.
From S2P Require Import Prelude.

(** ** The machine *)

(** A thread: the value that it has computed and not yet stored, and the updates
    that are left. *)
Record Thread (A : Type) := mkThread {
  th_pending : option (nat * A);
  th_updates : list (nat * (A → A));
}.
Arguments mkThread {A} _ _.
Arguments th_pending {A} _.
Arguments th_updates {A} _.

Section machine.
Context {A : Type}.

Definition start_thread (l : list (nat * (A → A))) : Thread A := mkThread None l.

(** A step of one thread on the memory. *)
Inductive thread_step : Thread A * list A → Thread A * list A → Prop :=
  | thread_load i f l m v :
      m !! i = Some v → thread_step (mkThread None ((i, f) :: l), m) (mkThread (Some (i, f v)) l, m)
  | thread_store i v l m :
      thread_step (mkThread (Some (i, v)) l, m) (mkThread None l, <[i:=v]> m).

(** A step of any of the threads. *)
Inductive grid_step : list (Thread A) * list A → list (Thread A) * list A → Prop :=
  | grid_thread ts k t t' m m' :
      ts !! k = Some t → thread_step (t, m) (t', m') → grid_step (ts, m) (<[k:=t']> ts, m').

(** The updates that a thread has still to make; a pending store ignores what is
    in the memory. *)
Definition outstanding (t : Thread A) : list (nat * (A → A)) :=
  match th_pending t with
  | Some (i, v) => (i, λ _, v) :: th_updates t
  | None => th_updates t
  end.

(** All updates, one after the other. *)
Definition apply_updates (l : list (nat * (A → A))) (m : list A) : list A :=
  foldr (λ p m, alter p.2 p.1 m) m l.

Lemma apply_updates_length l m : length (apply_updates l m) = length m.
Proof. induction l as [|p l IH]; [done|]. simpl. by rewrite length_alter. Qed.

Lemma apply_other l m i : i ∉ l.*1 → apply_updates l m !! i = m !! i.
Proof.
  induction l as [|[j f] l IH]; [done|]. intros Hi. apply not_elem_of_cons in Hi as [Hn Hi]. simpl.
  rewrite list_lookup_alter_ne by done. by apply IH.
Qed.

(** With different places, each element gets its own update. *)
Lemma apply_own l m i f : NoDup l.*1 → (i, f) ∈ l → apply_updates l m !! i = f <$> m !! i.
Proof.
  induction l as [|[j g] l IH]; intros Hnd Hin; [by apply not_elem_of_nil in Hin|].
  apply NoDup_cons in Hnd as [Hj Hnd]. simpl. apply elem_of_cons in Hin as [[= <- <-]|Hin].
  - by rewrite list_lookup_alter_eq, apply_other.
  - rewrite list_lookup_alter_ne; [by apply IH|]. intros ->. destruct Hj. by apply (list_elem_of_fmap_2 fst) in Hin.
Qed.

Lemma apply_perm l l' m : NoDup l.*1 → l ≡ₚ l' → apply_updates l m = apply_updates l' m.
Proof.
  intros Hnd Hp. assert (NoDup l'.*1) by (by rewrite <-Hp). apply list_eq. intros i.
  destruct (decide (i ∈ l.*1)) as [Hi|Hi].
  - apply list_elem_of_fmap in Hi as ([j f]&->&Hi). simpl. rewrite (apply_own l _ _ f) by done.
    rewrite (apply_own l' _ _ f); [done|done|by rewrite <-Hp].
  - rewrite !apply_other; [done|by rewrite <-Hp|done].
Qed.

(** ** Executions *)

Definition all_outstanding (ts : list (Thread A)) : list (nat * (A → A)) := concat (outstanding <$> ts).

Lemma outstanding_split ts k t t' : ts !! k = Some t → ∃ rest,
  all_outstanding ts ≡ₚ outstanding t ++ rest ∧ all_outstanding (<[k:=t']> ts) ≡ₚ outstanding t' ++ rest.
Proof.
  intros Hk. exists (concat (outstanding <$> take k ts) ++ concat (outstanding <$> drop (S k) ts)).
  assert (∀ t, all_outstanding (take k ts ++ t :: drop (S k) ts) ≡ₚ
    outstanding t ++ concat (outstanding <$> take k ts) ++ concat (outstanding <$> drop (S k) ts)) as H.
  { intros x. unfold all_outstanding. rewrite fmap_app, concat_app, fmap_cons. simpl. apply Permutation_app_swap_app. }
  rewrite insert_take_drop by (by eapply lookup_lt_Some). rewrite <-!H. by rewrite (take_drop_middle ts k t Hk).
Qed.

(** What the updates will make of the memory does not change. *)
Lemma grid_step_forecast ts m ts' m' : grid_step (ts, m) (ts', m') → NoDup (all_outstanding ts).*1 →
  NoDup (all_outstanding ts').*1 ∧ length m' = length m ∧
  apply_updates (all_outstanding ts') m' = apply_updates (all_outstanding ts) m.
Proof.
  intros Hst Hnd. inversion Hst as [? k t t' ? ? Hk Ht]; subst.
  destruct (outstanding_split ts k t t' Hk) as (rest&E1&E2).
  assert (NoDup (outstanding t ++ rest).*1) as Hnd1 by (by rewrite <-E1).
  inversion Ht as [i f l ? v Hv|i v l ?]; subst; unfold outstanding in E1, E2, Hnd1; simpl in E1, E2, Hnd1.
  - assert (NoDup (all_outstanding (<[k:=mkThread (Some (i, f v)) l]> ts)).*1) as Hnd2 by (by rewrite E2).
    split_and!; [done|done|]. rewrite (apply_perm _ _ _ Hnd2 E2), (apply_perm _ _ _ Hnd E1).
    apply NoDup_cons in Hnd1 as [Hi Hnd1]. simpl. apply list_eq. intros j. destruct (decide (i = j)) as [->|Hj].
    + rewrite !list_lookup_alter_eq, !apply_other by done. by rewrite Hv.
    + by rewrite !list_lookup_alter_ne.
  - apply NoDup_cons in Hnd1 as [Hi Hnd1].
    assert (NoDup (all_outstanding (<[k:=mkThread None l]> ts)).*1) as Hnd2 by (by rewrite E2).
    split_and!; [done|by rewrite length_insert|]. rewrite (apply_perm _ _ _ Hnd2 E2), (apply_perm _ _ _ Hnd E1).
    apply list_eq. intros j. simpl. destruct (decide (i = j)) as [->|Hj].
    + rewrite list_lookup_alter_eq, !apply_other by done. destruct (decide (j < length m)) as [Hl|Hl].
      * rewrite list_lookup_insert_eq by done. by destruct (lookup_lt_is_Some_2 m j Hl) as [? ->].
      * by rewrite !lookup_ge_None_2 by (rewrite ?length_insert; lia).
    + rewrite list_lookup_alter_ne by done. destruct (decide (j ∈ (l ++ rest).*1)) as [Hin|Hin].
      * apply list_elem_of_fmap in Hin as ([j' g]&->&Hin). simpl in *.
        rewrite !(apply_own _ _ _ _ Hnd1 Hin). by rewrite list_lookup_insert_ne.
      * rewrite !apply_other by done. by rewrite list_lookup_insert_ne.
Qed.

(** Every execution of a grid without conflicts ends with all updates applied. *)
Lemma grid_runs (ops : list (list (nat * (A → A)))) m ts m' : NoDup (concat ops).*1 →
  rtc grid_step (start_thread <$> ops, m) (ts, m') → all_outstanding ts = [] →
  m' = apply_updates (concat ops) m.
Proof.
  intros Hnd Hr Hd.
  assert (all_outstanding (start_thread <$> ops) = concat ops) as Ho.
  { unfold all_outstanding. rewrite <-list_fmap_compose. f_equal. apply list_fmap_id. }
  assert (∀ p q, rtc grid_step p q → NoDup (all_outstanding p.1).*1 →
    apply_updates (all_outstanding q.1) q.2 = apply_updates (all_outstanding p.1) p.2) as Hinv.
  { intros p q. induction 1 as [|[ts1 m1] [ts2 m2] q Hst _ IH]; [done|]. intros Hn. simpl in *.
    destruct (grid_step_forecast _ _ _ _ Hst Hn) as (Hn'&_&<-). by apply IH. }
  specialize (Hinv _ _ Hr). simpl in Hinv. rewrite Ho, Hd in Hinv. by apply Hinv.
Qed.

(** Such a grid never hangs: while updates are left, some thread can go on. *)
Lemma grid_progress ts (m : list A) : all_outstanding ts ≠ [] → Forall (λ p, p.1 < length m) (all_outstanding ts) →
  ∃ q, grid_step (ts, m) q.
Proof.
  intros Hne Hb. assert (∃ k t p, ts !! k = Some t ∧ p ∈ outstanding t) as (k&t&p&Hk&Hp).
  { destruct (all_outstanding ts) as [|p l] eqn:E; [done|]. assert (p ∈ all_outstanding ts) as Hin by (rewrite E; constructor).
    unfold all_outstanding in Hin. apply list_elem_of_In, in_concat in Hin as (x&Hx&Hin).
    apply list_elem_of_In in Hx, Hin. apply list_elem_of_fmap in Hx as (t&->&Ht). apply list_elem_of_lookup in Ht as [k Hk].
    by exists k, t, p. }
  destruct t as [[[i v]|] us]; simpl in *.
  - eexists. eapply grid_thread; [done|apply thread_store].
  - destruct us as [|[i f] us]; [by apply not_elem_of_nil in Hp|].
    destruct (lookup_lt_is_Some_2 m i) as [v Hv].
    { rewrite Forall_forall in Hb. apply (Hb (i, f)). unfold all_outstanding. apply list_elem_of_In, in_concat.
      exists ((i, f) :: us). split; [|by left]. apply list_elem_of_In. apply list_elem_of_fmap. exists (mkThread None ((i, f) :: us)).
      split; [done|]. by eapply list_elem_of_lookup_2. }
    eexists. eapply grid_thread; [done|by apply thread_load].
Qed.
(** The steps that a thread has still to make. *)
Definition thread_work (t : Thread A) : nat := 2 * length (th_updates t) + (match th_pending t with Some _ => 1 | None => 0 end).
Definition grid_work (ts : list (Thread A)) : nat := sum_list (thread_work <$> ts).

Lemma grid_work_insert ts k t t' : ts !! k = Some t → thread_work t' < thread_work t →
  grid_work (<[k:=t']> ts) < grid_work ts.
Proof.
  intros Hk Hw. unfold grid_work. rewrite insert_take_drop by (by eapply lookup_lt_Some).
  rewrite <-(take_drop_middle ts k t Hk) at 3. rewrite !fmap_app, !sum_list_with_app, !fmap_cons. simpl. lia.
Qed.

(** A step keeps the updates within the memory and is progress. *)
Lemma grid_step_work ts (m : list A) ts' m' : grid_step (ts, m) (ts', m') →
  Forall (λ p, p.1 < length m) (all_outstanding ts) →
  Forall (λ p, p.1 < length m') (all_outstanding ts') ∧ grid_work ts' < grid_work ts.
Proof.
  intros Hst Hb. inversion Hst as [? k t t' ? ? Hk Ht]; subst.
  destruct (outstanding_split ts k t t' Hk) as (rest&E1&E2). rewrite E1, E2 in *.
  inversion Ht as [i f l ? v Hv|i v l ?]; subst; unfold outstanding in *; simpl in *.
  - split; [by apply Forall_cons in Hb as [??]; constructor|]. eapply grid_work_insert; [done|]. unfold thread_work. simpl. lia.
  - rewrite length_insert. split; [by apply Forall_cons in Hb as [_ ?]|]. eapply grid_work_insert; [done|]. unfold thread_work. simpl. lia.
Qed.

(** A run of a grid to its end. *)
Definition runs (ops : list (list (nat * (A → A)))) (m m' : list A) : Prop :=
  ∃ ts, rtc grid_step (start_thread <$> ops, m) (ts, m') ∧ all_outstanding ts = [].

Lemma grid_completes ops m : Forall (λ p, p.1 < length m) (concat ops) → ∃ m', runs ops m m'.
Proof.
  intros Hb. assert (∀ n ts m, grid_work ts < n → Forall (λ p, p.1 < length m) (all_outstanding ts) →
    ∃ q, rtc grid_step (ts, m) q ∧ all_outstanding q.1 = []) as H.
  { clear ops m Hb. induction n as [|n IH]; intros ts m Hn Hb; [lia|].
    destruct (decide (all_outstanding ts = [])) as [Hd|Hd]; [by exists (ts, m)|].
    - destruct (grid_progress ts m Hd Hb) as [[ts' m'] Hst]. destruct (grid_step_work _ _ _ _ Hst Hb) as [Hb' Hw].
      destruct (IH ts' m') as (q&Hq&Hq'); [lia|done|]. exists q. split; [by eapply rtc_l|done]. }
  destruct (H (S (grid_work (start_thread <$> ops))) (start_thread <$> ops) m) as ([ts m']&Hr&Hd); [lia| |by exists m', ts].
  assert (all_outstanding (start_thread <$> ops) = concat ops) as ->; [|done].
  unfold all_outstanding. rewrite <-list_fmap_compose. f_equal. apply list_fmap_id.
Qed.
End machine.

(** ** Grid-stride loops *)

(** [for (i = start; i < n; i += stride)]. *)
Fixpoint strided (fuel i n stride : nat) : list nat :=
  match fuel with
  | 0 => []
  | S fuel => if decide (i < n) then i :: strided fuel (i + stride) n stride else []
  end.

Lemma elem_of_strided n stride x : 0 < stride → ∀ fuel i, n < i + fuel →
  x ∈ strided fuel i n stride ↔ i ≤ x < n ∧ (x - i) `mod` stride = 0.
Proof.
  intros Hs. induction fuel as [|fuel IH]; intros i Hf; simpl.
  { split; [by intros ?%not_elem_of_nil|lia]. }
  case_decide as Hi; [|split; [by intros ?%not_elem_of_nil|lia]].
  rewrite elem_of_cons, IH by lia. split.
  - intros [->|[H1 H2]]; [rewrite Nat.sub_diag, Nat.Div0.mod_0_l; lia|]. split; [lia|].
    replace (x - i) with (x - (i + stride) + 1 * stride) by lia. by rewrite Nat.Div0.mod_add.
  - intros [H1 H2]. destruct (decide (x = i)) as [->|Hx]; [by left|right].
    apply Nat.Div0.mod_divides in H2 as [c Hc]. destruct c as [|c]; [lia|].
    assert (x = i + stride * c + stride) by lia. split; [lia|].
    replace (x - (i + stride)) with (c * stride) by lia. apply Nat.Div0.mod_mul.
Qed.

Lemma NoDup_strided n stride : 0 < stride → ∀ fuel i, n < i + fuel → NoDup (strided fuel i n stride).
Proof.
  intros Hs. induction fuel as [|fuel IH]; intros i Hf; simpl; [constructor|].
  case_decide; [|constructor]. constructor; [|apply IH; lia]. rewrite elem_of_strided by lia. lia.
Qed.

(** The threads of a grid-stride loop share the range among them. *)
Lemma strided_partition n stride : 0 < stride →
  concat ((λ t, strided (S n) t n stride) <$> seq 0 stride) ≡ₚ seq 0 n.
Proof.
  intros Hs. apply NoDup_Permutation.
  - assert (∀ k a, a + k ≤ stride → NoDup (concat ((λ t, strided (S n) t n stride) <$> seq a k))) as H; [|apply (H stride 0); lia].
    induction k as [|k IH]; intros a Ha; simpl; [constructor|]. apply NoDup_app. split_and!.
    + apply (NoDup_strided n stride Hs (S n)). lia.
    + intros x Hx Hin. apply list_elem_of_In, in_concat in Hin as (l&Hl&Hin). apply list_elem_of_In in Hl, Hin.
      apply list_elem_of_fmap in Hl as (b&->&Hb). apply elem_of_seq in Hb.
      apply (elem_of_strided n stride x Hs (S n)) in Hx; [|lia]. apply (elem_of_strided n stride x Hs (S n)) in Hin; [|lia].
      destruct Hx as [Hx1 Hx2], Hin as [Hy1 Hy2]. apply Nat.Div0.mod_divides in Hx2 as [c Hc], Hy2 as [d Hd].
      assert (x = a + stride * c) by lia. assert (x = b + stride * d) by lia.
      assert (c = d) as -> by nia. lia.
    + apply IH. lia.
  - apply NoDup_seq.
  - intros x. rewrite elem_of_seq. split.
    + intros Hin. apply list_elem_of_In, in_concat in Hin as (l&Hl&Hin). apply list_elem_of_In in Hl, Hin.
      apply list_elem_of_fmap in Hl as (b&->&Hb). apply (elem_of_strided n stride x Hs (S n)) in Hin; lia.
    + intros Hx. apply list_elem_of_In, in_concat. exists (strided (S n) (x `mod` stride) n stride). split.
      * apply list_elem_of_In, list_elem_of_fmap. exists (x `mod` stride). split; [done|]. apply elem_of_seq.
        pose proof (Nat.mod_upper_bound x stride). lia.
      * apply list_elem_of_In, (elem_of_strided n stride x Hs (S n)); [lia|].
        pose proof (Nat.Div0.mod_le x stride). split; [lia|]. pose proof (Nat.div_mod_eq x stride).
        replace (x - x `mod` stride) with (x / stride * stride) by lia. apply Nat.Div0.mod_mul.
Qed.

(** ** CUDA threads with several loads and stores per iteration

    The model of the kernels of [src/kernels/pos_embedding_kernels.cu] and
    [src/kernels/activation_kernels.cu]: a thread is a list of iterations, each a small
    program of loads and stores on the memory of the device, and the threads of a
    grid interleave at every access.  When no two iterations share an address, every
    execution ends as if they had run one after the other. *)

(** The programs of annotated threads. *)
Abbreviation erase gs := (fmap (M := list) (fmap (M := list) (@fst _ (list nat))) gs).

Section machine.
Context {A : Type}.

(** An iteration: what it does next depends on what it has loaded. *)
Inductive Prog :=
  | Done
  | Load (a : nat) (k : A → Prog)
  | Store (a : nat) (v : A) (p : Prog).

(** One access. *)
Inductive prog_step : Prog * list A → Prog * list A → Prop :=
  | step_load a k m v : m !! a = Some v → prog_step (Load a k, m) (k v, m)
  | step_store a v p m : a < length m → prog_step (Store a v p, m) (p, <[a:=v]> m).

Inductive simt_step : list (list Prog) * list A → list (list Prog) * list A → Prop :=
  | simt_access ts i p l p' m m' :
      ts !! i = Some (p :: l) → prog_step (p, m) (p', m') → simt_step (ts, m) (<[i:=p' :: l]> ts, m')
  | simt_next ts i l m : ts !! i = Some (Done :: l) → simt_step (ts, m) (<[i:=l]> ts, m).

(** A run of a grid to its end: no thread has an iteration left. *)
Definition simt_runs (ts : list (list Prog)) (m m' : list A) : Prop :=
  ∃ ts', rtc simt_step (ts, m) (ts', m') ∧ concat ts' = [].

(** An iteration on its own. *)
Fixpoint exec (p : Prog) (m : list A) : list A :=
  match p with
  | Done => m
  | Load a k => match m !! a with Some v => exec (k v) m | None => m end
  | Store a v p => exec p (<[a:=v]> m)
  end.
Definition exec_all (ps : list Prog) (m : list A) : list A := foldr exec m ps.

(** The addresses that an iteration may use. *)
Fixpoint within (F : list nat) (p : Prog) : Prop :=
  match p with
  | Done => True
  | Load a k => a ∈ F ∧ ∀ v, within F (k v)
  | Store a v p => a ∈ F ∧ within F p
  end.

(** ** One iteration *)

Lemma exec_length p : ∀ m, length (exec p m) = length m.
Proof.
  induction p as [|a k IH|a v p IH]; intros m; simpl; [done| |by rewrite IH, length_insert].
  by destruct (m !! a).
Qed.

Lemma exec_frame F p : ∀ m a, within F p → a ∉ F → exec p m !! a = m !! a.
Proof.
  induction p as [|b k IH|b v p IH]; intros m a Hw Ha; simpl in *; [done| |].
  - destruct Hw as [? Hw]. destruct (m !! b); [|done]. by apply IH.
  - destruct Hw as [Hb Hw]. rewrite IH by done. apply list_lookup_insert_ne. by intros ->.
Qed.

(** It depends on its own addresses only. *)
Lemma exec_agree F p : ∀ m m', within F p → length m = length m' → (∀ a, a ∈ F → m !! a = m' !! a) →
  ∀ a, a ∈ F → exec p m !! a = exec p m' !! a.
Proof.
  induction p as [|b k IH|b v p IH]; intros m m' Hw Hl Hm a Ha; simpl in *; [by apply Hm| |].
  - destruct Hw as [Hb Hw]. rewrite <-(Hm b Hb). destruct (m !! b); [|by apply Hm]. by apply IH.
  - destruct Hw as [Hb Hw]. apply IH; [done|by rewrite !length_insert| |done]. intros c Hc.
    destruct (decide (b = c)) as [->|Hn]; [|by rewrite !list_lookup_insert_ne by done; apply Hm].
    destruct (decide (c < length m)) as [Hlt|Hlt]; [by rewrite !list_lookup_insert_eq by lia|].
    by rewrite !lookup_ge_None_2 by (rewrite length_insert; lia).
Qed.

Lemma prog_step_sound F p m p' m' : prog_step (p, m) (p', m') → within F p →
  within F p' ∧ length m' = length m ∧ exec p' m' = exec p m ∧ ∀ a, a ∉ F → m' !! a = m !! a.
Proof.
  intros Hst Hw. inversion Hst as [a k ? v Hv|a v ? ? Ha]; subst; simpl in *; destruct Hw as [HF Hw].
  - by rewrite Hv.
  - split_and!; [done|by rewrite length_insert|done|]. intros b Hb. apply list_lookup_insert_ne. by intros ->.
Qed.

(** ** Iterations without conflicts *)

(** Iterations with their addresses. *)
Definition separate (its : list (Prog * list nat)) : Prop :=
  Forall (λ it, within it.2 it.1) its ∧ NoDup (concat its.*2).

#[global] Instance separate_proper : Proper ((≡ₚ) ==> iff) separate.
Proof.
  intros l l' Hp. unfold separate. by rewrite Hp.
Qed.

Lemma exec_all_length ps m : length (exec_all ps m) = length m.
Proof. induction ps as [|p ps IH]; simpl; [done|]. by rewrite exec_length. Qed.

Lemma exec_all_other its m a : Forall (λ it, within it.2 it.1) its → a ∉ concat its.*2 → exec_all its.*1 m !! a = m !! a.
Proof.
  induction 1 as [|[p F] its Hw _ IH]; intros Ha; simpl in *; [done|]. apply not_elem_of_app in Ha as [? Ha].
  rewrite (exec_frame F) by done. by apply IH.
Qed.

(** Each has the effect on its own addresses that it has alone. *)
Lemma exec_all_own its m p F a : separate its → (p, F) ∈ its → a ∈ F → exec_all its.*1 m !! a = exec p m !! a.
Proof.
  intros [Hw Hnd]. induction its as [|[q G] its IH]; intros Hin Ha; [by apply not_elem_of_nil in Hin|].
  apply Forall_cons in Hw as [Hq Hw]. simpl in Hnd. apply NoDup_app in Hnd as (HG&Hdis&Hnd).
  apply elem_of_cons in Hin as [[= <- <-]|Hin]; simpl.
  - apply (exec_agree F); [done|by rewrite exec_all_length| |done]. intros b Hb. apply exec_all_other; [done|]. by apply Hdis.
  - rewrite (exec_frame G); [by apply IH|done|]. intros HaG. destruct (Hdis a HaG). apply list_elem_of_In, in_concat.
    exists F. split; [|by apply list_elem_of_In]. apply list_elem_of_In. by apply (list_elem_of_fmap_2 snd) in Hin.
Qed.

Lemma in_footprint (its : list (Prog * list nat)) a : a ∈ concat its.*2 → ∃ p F, (p, F) ∈ its ∧ a ∈ F.
Proof.
  intros Ha. apply list_elem_of_In, in_concat in Ha as (F&HF&Ha). apply list_elem_of_In in HF, Ha.
  apply list_elem_of_fmap in HF as ([p F']&->&Hin). by exists p, F'.
Qed.

Lemma exec_all_perm its its' m : separate its → its ≡ₚ its' → exec_all its.*1 m = exec_all its'.*1 m.
Proof.
  intros Hs Hp. assert (separate its') as Hs' by (by rewrite <-Hp). apply list_eq. intros a.
  destruct (decide (a ∈ concat its.*2)) as [Ha|Ha].
  - destruct (in_footprint _ _ Ha) as (p&F&Hin&HF). rewrite (exec_all_own its m p F a) by done.
    rewrite (exec_all_own its' m p F a); [done|done|by rewrite <-Hp|done].
  - assert (a ∉ concat its'.*2). { by rewrite <-Hp. }
    destruct Hs, Hs'. by rewrite !exec_all_other.
Qed.

(** ** Executions *)

Lemma concat_split {B} (ts : list (list B)) i l l' : ts !! i = Some l → ∃ rest,
  concat ts ≡ₚ l ++ rest ∧ concat (<[i:=l']> ts) ≡ₚ l' ++ rest.
Proof.
  intros Hi. exists (concat (take i ts) ++ concat (drop (S i) ts)).
  assert (∀ x, concat (take i ts ++ x :: drop (S i) ts) ≡ₚ x ++ concat (take i ts) ++ concat (drop (S i) ts)) as H.
  { intros x. rewrite concat_app. simpl. apply Permutation_app_swap_app. }
  rewrite insert_take_drop by (by eapply lookup_lt_Some). rewrite <-!H. by rewrite (take_drop_middle ts i l Hi).
Qed.

(** A step of the iteration at the head of a thread does not change what the
    iterations will make of the memory. *)
Lemma access_forecast p p' F rest m m' : prog_step (p, m) (p', m') → separate ((p, F) :: rest) →
  separate ((p', F) :: rest) ∧ length m' = length m ∧ exec_all (p' :: rest.*1) m' = exec_all (p :: rest.*1) m.
Proof.
  intros Hst [Hw Hnd]. pose proof Hw as [Hp Hr]%Forall_cons. simpl in *.
  destruct (prog_step_sound F _ _ _ _ Hst Hp) as (Hp'&Hl&He&Hout).
  assert (separate ((p', F) :: rest)) as Hs' by (by split; [constructor|]). split_and!; [done|done|].
  assert (separate ((p, F) :: rest)) as Hs by (by split; [constructor|]).
  apply list_eq. intros a. change (exec_all ((p', F) :: rest).*1 m' !! a = exec_all ((p, F) :: rest).*1 m !! a).
  destruct (decide (a ∈ F)) as [HF|HF].
  - rewrite !(exec_all_own _ _ _ F a) by (done || constructor). by rewrite He.
  - simpl. rewrite !(exec_frame F) by done. apply NoDup_app in Hnd as (_&Hdis&Hnd).
    destruct (decide (a ∈ concat rest.*2)) as [Ha|Ha]; [|rewrite !exec_all_other by done; by apply Hout].
    destruct (in_footprint _ _ Ha) as (q&G&Hin&HG). assert (separate rest) by done.
    rewrite !(exec_all_own rest _ q G a) by done. apply (exec_agree G); [|done| |done].
    + rewrite Forall_forall in Hr. by apply (Hr (q, G)).
    + intros b Hb. apply Hout. intros HbF. apply (Hdis b HbF), list_elem_of_In, in_concat. exists G.
      split; [|by apply list_elem_of_In]. apply list_elem_of_In. by apply (list_elem_of_fmap_2 snd) in Hin.
Qed.

Lemma erase_concat (gs : list (list (Prog * list nat))) : concat (erase gs) = (concat gs).*1.
Proof. induction gs as [|g gs IH]; [done|]. cbn [fmap list_fmap concat]. by rewrite fmap_app, <-IH. Qed.

Lemma simt_step_forecast gs m ts' m' : simt_step (erase gs, m) (ts', m') → separate (concat gs) → ∃ gs',
  ts' = erase gs' ∧ separate (concat gs') ∧ length m' = length m ∧
  exec_all (concat gs').*1 m' = exec_all (concat gs).*1 m.
Proof.
  intros Hst Hs. inversion Hst as [? i p l p' ? ? Hi Hp|? i l ? Hi]; subst;
    apply list_lookup_fmap_Some in Hi as (g&E&Hi); destruct g as [|[q F] g]; try discriminate; injection E as <- ->.
  - exists (<[i:=(p', F) :: g]> gs). rewrite list_fmap_insert. destruct (concat_split gs i _ ((p', F) :: g) Hi) as (rest&E1&E2).
    rewrite E1 in Hs. destruct (access_forecast _ _ _ _ _ _ Hp Hs) as (Hs'&Hl&He). split_and!; [done|by rewrite E2|done|].
    assert (separate (concat gs)) by (by rewrite E1). rewrite (exec_all_perm _ _ m H E1).
    rewrite (exec_all_perm (concat (<[i:=(p', F) :: g]> gs)) _ m' ltac:(by rewrite E2) E2). apply He.
  - exists (<[i:=g]> gs). rewrite list_fmap_insert. destruct (concat_split gs i _ g Hi) as (rest&E1&E2).
    assert (separate (concat gs)) as Hs0 by done. rewrite E1 in Hs.
    assert (separate (g ++ rest)) as Hs'.
    { destruct Hs as [Hw Hnd]. apply Forall_cons in Hw as [_ Hw]. simpl in Hnd. apply NoDup_app in Hnd as (_&_&Hnd). done. }
    split_and!; [done|by rewrite E2|done|]. rewrite (exec_all_perm _ _ m' Hs0 E1).
    rewrite (exec_all_perm (concat (<[i:=g]> gs)) _ m' ltac:(by rewrite E2) E2). done.
Qed.

(** Every run ends with the effects of all iterations. *)
Lemma simt_runs_exec gs m m' : separate (concat gs) → simt_runs (erase gs) m m' → m' = exec_all (concat gs).*1 m.
Proof.
  intros Hs (ts&Hr&Hd).
  assert (∀ p q, rtc simt_step p q → ∀ gs, p.1 = erase gs → separate (concat gs) →
    ∃ gs', q.1 = erase gs' ∧ exec_all (concat gs').*1 q.2 = exec_all (concat gs).*1 p.2) as Hinv.
  { intros p q. induction 1 as [|[ts1 m1] [ts2 m2] q Hst _ IH]; intros hs E Hh; [by exists hs|]. simpl in *. subst ts1.
    destruct (simt_step_forecast _ _ _ _ Hst Hh) as (hs'&->&Hh'&_&<-). by apply IH. }
  destruct (Hinv _ _ Hr gs eq_refl Hs) as (gs'&E&He). cbn [fst snd] in *.
  rewrite E, erase_concat in Hd. by rewrite <-He, Hd.
Qed.

(** From any state with its addresses in the memory, the grid can finish. *)
Lemma simt_completes (ps : list (list Prog)) m : Forall (within (seq 0 (length m))) (concat ps) → ∃ m', simt_runs ps m m'.
Proof.
  assert (∀ p ts i l m, ts !! i = Some (p :: l) → within (seq 0 (length m)) p →
    rtc simt_step (ts, m) (<[i:=l]> ts, exec p m)) as Hone.
  { induction p as [|a k IH|a v p IH]; intros ts i l m0 Hi Hw; simpl in *.
    - apply rtc_once. by apply simt_next.
    - destruct Hw as [Ha Hw]. apply elem_of_seq in Ha. destruct (lookup_lt_is_Some_2 m0 a) as [v Hv]; [lia|]. rewrite Hv.
      eapply rtc_l; [by eapply simt_access, step_load|].
      rewrite <-(list_insert_insert_eq ts i l (k v :: l)). apply IH; [|done]. apply list_lookup_insert_eq. by eapply lookup_lt_Some.
    - destruct Hw as [Ha Hw]. apply elem_of_seq in Ha. eapply rtc_l; [eapply simt_access; [done|apply step_store; lia]|].
      rewrite <-(list_insert_insert_eq ts i l (p :: l)). apply IH; [|by rewrite length_insert].
      apply list_lookup_insert_eq. by eapply lookup_lt_Some. }
  remember (length (concat ps)) as n eqn:En. revert ps m En. induction n as [|n IH]; intros ps m En Hw.
  { exists m, ps. split; [done|]. by destruct (concat ps). }
  assert (∃ i p l, ps !! i = Some (p :: l)) as (i&p&l&Hi).
  { clear -En. induction ps as [|[|p l] ps IH]; simpl in *; [done| |by exists 0, p, l].
    destruct (IH En) as (i&p&l&Hi). by exists (S i), p, l. }
  destruct (concat_split ps i _ l Hi) as (rest&E1&E2). rewrite E1 in Hw. apply Forall_cons in Hw as [Hp Hw].
  destruct (IH (<[i:=l]> ps) (exec p m)) as (m'&ts&Hr&Hd).
  - rewrite E2. rewrite E1 in En. simpl in En. lia.
  - rewrite E2, exec_length. done.
  - exists m', ts. split; [|done]. etransitivity; [by apply (Hone p ps i l m)|done].
Qed.
End machine.
Arguments Prog : clear implicits.
