(* ===== verification/Block.v ===== *)
(** * Blocks and the block allocator

    [src/memory/block.h], [block.cpp], [block_allocator.h] and
    [block_allocator.cpp].  A [Block] is a reference-counted handle on a slot of
    the KV cache: copying it increments a heap-allocated counter, destroying it
    decrements the counter, and the last handle returns the block id to the
    allocator.  The heap of counters and the allocator form the state [Mem]; the
    handles live in the vectors of the other components, so the invariant
    [mem_ok m hs] is stated for the list [hs] of every handle that is alive, in
    any order. *)

From stdpp Require Import base tactics list gmap strings.
From S2P Require Import Prelude.

(** ** Data *)

(** [class Block].  A null [ref_count_] is [None]; [allocator_] says whether the
    handle belongs to the allocator or was made without one. *)
Record Block := mkBlock {
  id_ : Z;
  size_ : nat;
  ref_count_ : option positive;
  allocator_ : bool;
}.

#[global] Instance Block_eq_dec : EqDecision Block.
Proof. solve_decision. Defined.

(** [Block() = default]. *)
Definition Block_default : Block := mkBlock (-1) 0 None false.

(** [class BlockAllocator]. *)
Record BlockAllocator := mkBlockAllocator {
  num_free_blocks_ : nat;
  block_size_ : nat;
  free_blocks_ : list Z;
}.

(** The counters behind [new uint32_t(1)], and the allocator. *)
Record Mem := mkMem {
  cells : gmap positive nat;
  next_cell : positive;
  allocator : BlockAllocator;
}.

Definition set_cells (c : gmap positive nat) (m : Mem) : Mem :=
  mkMem c (next_cell m) (allocator m).
Definition set_allocator (a : BlockAllocator) (m : Mem) : Mem :=
  mkMem (cells m) (next_cell m) a.

Definition num_free_blocks (m : Mem) : nat := num_free_blocks_ (allocator m).
Definition num_total_blocks (m : Mem) : nat := length (free_blocks_ (allocator m)).

(** ** BlockAllocator *)

(** The lambda [power_of_2] of the constructor, on [int32_t]. *)
Definition power_of_2 (x : Z) : bool :=
  (0 <? x)%Z && (Z.land x (x - 1) =? 0)%Z.

(** [BlockAllocator::BlockAllocator]: ids are pushed from the largest down, so
    that the smallest one is at the back. *)
Definition BlockAllocator_new (total_blocks block_size : nat) : result BlockAllocator :=
  if decide (0 < total_blocks) then
    if power_of_2 (i32 (Z.of_nat block_size)) then
      Ok (mkBlockAllocator total_blocks block_size
            ((λ i, Z.of_nat total_blocks - Z.of_nat i - 1)%Z <$> seq 0 total_blocks))
    else Fail (CheckFailed "Block size must be positive and a power of 2")
  else Fail (CheckFailed "No blocks to allocate").

(** [free_blocks_[--num_free_blocks_]]. *)
Definition pop_free (a : BlockAllocator) : option (Z * BlockAllocator) :=
  match num_free_blocks_ a with
  | 0 => None
  | S n => match free_blocks_ a !! n with
           | Some i => Some (i, mkBlockAllocator n (block_size_ a) (free_blocks_ a))
           | None => None
           end
  end.

(** [Block::Block(int32_t id, BlockAllocator* allocator)], with the allocator. *)
Definition new_block (id : Z) : M Mem Block :=
  m ← get;
  let l := next_cell m in
  _ ← put (mkMem (<[l:=1]> (cells m)) (Pos.succ l) (allocator m));
  mret (mkBlock id (block_size_ (allocator m)) (Some l) true).

(** [Block BlockAllocator::allocate()]. *)
Definition allocate_one : M Mem Block :=
  m ← get;
  _ ← check (bool_decide (0 < num_free_blocks m)) "No more blocks available";
  p ← from_option_or OutOfBounds (pop_free (allocator m));
  _ ← modify (set_allocator p.2);
  new_block p.1.

(** One iteration of the loop of [BlockAllocator::allocate(uint32_t)]. *)
Definition allocate_iter : M Mem Block :=
  m ← get;
  p ← from_option_or OutOfBounds (pop_free (allocator m));
  _ ← modify (set_allocator p.2);
  new_block p.1.

(** [std::vector<Block> BlockAllocator::allocate(uint32_t n_blocks)]. *)
Definition allocate (n_blocks : nat) : M Mem (list Block) :=
  m ← get;
  _ ← check (bool_decide (n_blocks ≤ num_free_blocks m)) "Not enough blocks available";
  map_each (λ _, allocate_iter) (seq 0 n_blocks).

(** [BlockAllocator::free]. *)
Definition free (block_id : Z) : M Mem unit :=
  m ← get;
  let a := allocator m in
  _ ← check (bool_decide (num_free_blocks_ a < length (free_blocks_ a))) "free";
  modify (set_allocator (mkBlockAllocator (S (num_free_blocks_ a)) (block_size_ a)
                           (<[num_free_blocks_ a := block_id]> (free_blocks_ a)))).

(** [BlockAllocator::~BlockAllocator]. *)
Definition BlockAllocator_destroy : M Mem unit :=
  m ← get;
  check (bool_decide (num_free_blocks m = num_total_blocks m))
    "Not all blocks have been freed".

(** ** Block *)

(** [Block::inc_ref_count]. *)
Definition inc_ref_count (b : Block) : M Mem unit :=
  match ref_count_ b with
  | None => mret tt
  | Some l =>
      m ← get;
      c ← from_option_or UseAfterFree (cells m !! l);
      put (set_cells (<[l := S c]> (cells m)) m)
  end.

(** [Block::dec_ref_count]: the last handle deletes the counter and frees the
    id.  The counter of a live handle is never 0, so [--( *ref_count_)] does not
    wrap; the model stops if it would. *)
Definition dec_ref_count (b : Block) : M Mem unit :=
  match ref_count_ b with
  | None => mret tt
  | Some l =>
      m ← get;
      c ← from_option_or UseAfterFree (cells m !! l);
      match c with
      | 0 => fail Underflow
      | S 0 =>
          _ ← put (set_cells (delete l (cells m)) m);
          if allocator_ b then free (id_ b) else mret tt
      | S (S c') => put (set_cells (<[l := S c']> (cells m)) m)
      end
  end.

(** [Block::Block(const Block&)]. *)
Definition block_copy (b : Block) : M Mem Block :=
  _ ← inc_ref_count b; mret b.

(** [Block::~Block]. *)
Definition block_destroy (b : Block) : M Mem unit := dec_ref_count b.

(** [Block& operator=(const Block&)], for two different objects: the new value
    of the left-hand side. *)
Definition block_assign (this other : Block) : M Mem Block :=
  _ ← dec_ref_count this;
  _ ← inc_ref_count other;
  mret other.

(** [Block(Block&&)]: the new handle and what is left in the old one. *)
Definition block_move (other : Block) : Block * Block := (other, Block_default).

(** [Block& operator=(Block&&)], for two different objects. *)
Definition block_move_assign (this other : Block) : M Mem (Block * Block) :=
  _ ← dec_ref_count this;
  mret (other, Block_default).

(** [Block::ref_count], [is_shared], [is_valid]. *)
Definition ref_count (b : Block) : M Mem nat :=
  match ref_count_ b with
  | None => mret 0
  | Some l => m ← get; from_option_or UseAfterFree (cells m !! l)
  end.
Definition is_shared (b : Block) : M Mem bool :=
  c ← ref_count b; mret (bool_decide (1 < c)).
Definition is_valid (b : Block) : bool :=
  (0 <=? id_ b)%Z && bool_decide (is_Some (ref_count_ b)).

(** Copying and destroying a [std::vector<Block>]. *)
Definition blocks_copy (bs : list Block) : M Mem (list Block) := map_each block_copy bs.
Definition blocks_destroy (bs : list Block) : M Mem unit := for_each block_destroy bs.

(** ** The ownership invariant *)

(** How many of the handles [hs] point at counter [l]. *)
Definition refs (l : positive) (hs : list Block) : nat :=
  length (filter (λ b, ref_count_ b = Some l) hs).

(** [live] maps a live counter to the id of its block. *)
Record MemInv (m : Mem) (hs : list Block) (live : gmap positive Z) : Prop := {
  inv_cells : ∀ l c, cells m !! l = Some c → c = refs l hs ∧ 0 < c;
  inv_dom : ∀ l, is_Some (cells m !! l) ↔ is_Some (live !! l);
  inv_fresh : ∀ l, is_Some (cells m !! l) → (l < next_cell m)%positive;
  inv_handle : ∀ b, b ∈ hs → allocator_ b = true ∧ size_ b = block_size_ (allocator m) ∧
      ∃ l, ref_count_ b = Some l ∧ live !! l = Some (id_ b);
  inv_free_le : num_free_blocks m ≤ num_total_blocks m;
  inv_ids : take (num_free_blocks m) (free_blocks_ (allocator m)) ++ (map_to_list live).*2
      ≡ₚ seqZ 0 (Z.of_nat (num_total_blocks m));
}.

Definition mem_ok (m : Mem) (hs : list Block) : Prop := ∃ live, MemInv m hs live.

(** What an operation on handles must leave alone. *)
Definition same_geometry (m m' : Mem) : Prop :=
  num_total_blocks m' = num_total_blocks m ∧
  block_size_ (allocator m') = block_size_ (allocator m).

(** ** Lemmas *)

#[global] Instance same_geometry_preorder : PreOrder same_geometry.
Proof.
  split.
  - by intros m.
  - intros m1 m2 m3 [??] [??]. split; congruence.
Qed.

#[global] Instance refs_proper l : Proper ((≡ₚ) ==> (=)) (refs l).
Proof. intros hs1 hs2 Hp. unfold refs. by rewrite Hp. Qed.

#[global] Instance mem_ok_proper m : Proper ((≡ₚ) ==> iff) (mem_ok m).
Proof.
  assert (∀ hs1 hs2, hs1 ≡ₚ hs2 → mem_ok m hs1 → mem_ok m hs2) as H.
  { intros hs1 hs2 Hp [live []]. exists live. split; auto.
    - intros l c Hl. rewrite <- Hp. auto.
    - intros b Hb. rewrite <- Hp in Hb. auto. }
  intros hs1 hs2 Hp; split; apply H; [done|by symmetry].
Qed.

Lemma refs_cons l b hs :
  refs l (b :: hs) = (if decide (ref_count_ b = Some l) then 1 else 0) + refs l hs.
Proof. unfold refs. rewrite filter_cons. by case_decide. Qed.

Lemma refs_app l hs hs' : refs l (hs ++ hs') = refs l hs + refs l hs'.
Proof. unfold refs. by rewrite filter_app, length_app. Qed.

Lemma refs_pos l b hs : b ∈ hs → ref_count_ b = Some l → 0 < refs l hs.
Proof.
  intros Hb Hl. unfold refs.
  destruct (filter (λ b, ref_count_ b = Some l) hs) eqn:E; simpl; [|lia].
  assert (b ∈ filter (λ b, ref_count_ b = Some l) hs) as Hin
    by (by apply list_elem_of_filter).
  rewrite E in Hin. by apply not_elem_of_nil in Hin.
Qed.

(** The counter of a live handle is alive. *)
Lemma inv_cell_of m hs live b l :
  MemInv m hs live → b ∈ hs → ref_count_ b = Some l →
  cells m !! l = Some (refs l hs) ∧ live !! l = Some (id_ b) ∧ 0 < refs l hs.
Proof.
  intros HI Hb Hl. destruct (inv_handle _ _ _ HI b Hb) as (_&_&l'&Hl'&Hlive).
  simplify_eq. destruct (proj2 (inv_dom _ _ _ HI l)) as [c Hc]; [by eexists|].
  destruct (inv_cells _ _ _ HI l c Hc) as [-> ?]. done.
Qed.

(** Free blocks and live blocks together are all the blocks. *)
Lemma inv_count m hs live :
  MemInv m hs live → num_free_blocks m + size live = num_total_blocks m.
Proof.
  intros HI. pose proof (Permutation_length (inv_ids _ _ _ HI)) as Hlen.
  rewrite length_app, length_take, length_fmap, length_seqZ in Hlen.
  rewrite length_map_to_list in Hlen.
  pose proof (inv_free_le _ _ _ HI).
  unfold num_total_blocks in *. lia.
Qed.

(** The invariant of a fresh allocator. *)
Lemma BlockAllocator_new_ok total bs a :
  BlockAllocator_new total bs = Ok a →
  mem_ok (mkMem ∅ 1 a) [] ∧ num_free_blocks_ a = total ∧
  length (free_blocks_ a) = total ∧ block_size_ a = bs.
Proof.
  unfold BlockAllocator_new. intros H. repeat case_decide; [|done].
  case_match; [|done]. simplify_eq/=. rewrite length_fmap, length_seq.
  split; [|done]. exists ∅. split; simpl.
  - set_solver.
  - intros l. rewrite !lookup_empty. done.
  - intros l []. set_solver.
  - intros b Hb. by apply not_elem_of_nil in Hb.
  - unfold num_free_blocks, num_total_blocks; simpl. by rewrite length_fmap, length_seq.
  - unfold num_free_blocks, num_total_blocks; simpl.
    rewrite length_fmap, length_seq, firstn_all2 by (by rewrite length_fmap, length_seq).
    rewrite map_to_list_empty, app_nil_r. apply NoDup_Permutation.
    + apply NoDup_fmap_2_strong; [|apply NoDup_seq]. intros; lia.
    + apply NoDup_seqZ.
    + intros z. rewrite list_elem_of_fmap, elem_of_seqZ. split.
      * intros (i&->&Hi). apply elem_of_seq in Hi. lia.
      * intros Hz. exists (Z.to_nat (Z.of_nat total - z - 1)).
        rewrite elem_of_seq. lia.
Qed.

(** Copying a live handle adds one handle. *)
Lemma block_copy_wp b m hs :
  mem_ok m hs → b ∈ hs →
  wp (block_copy b) m (λ b' m', b' = b ∧ mem_ok m' (b :: hs) ∧
    allocator m' = allocator m).
Proof.
  intros [live HI] Hb.
  destruct (inv_handle _ _ _ HI b Hb) as (Ha&Hs&l&Hl&Hlive).
  destruct (inv_cell_of _ _ _ _ _ HI Hb Hl) as (Hc&_&Hpos).
  unfold block_copy, inc_ref_count. rewrite Hl. wp_steps; [exact Hc|].
  wp_steps. split; [done|]. split; [|done].
  exists live. destruct HI as [Icells Idom Ifresh Ihandle Ile Iids].
  split; simpl; auto.
  - intros l' c'. rewrite lookup_insert, refs_cons, Hl. case_decide.
    + intros [= <-]. subst. rewrite decide_True by done. lia.
    + intros Hc'. rewrite decide_False by congruence. apply Icells in Hc'. lia.
  - intros l'. rewrite lookup_insert. case_decide; [|apply Idom].
    subst. split; [by eexists|]. intros _. by eexists.
  - intros l'. rewrite lookup_insert. case_decide; [|apply Ifresh].
    subst. intros _. apply Ifresh. by eexists.
  - intros b' [->|Hb']%elem_of_cons; [|by apply Ihandle]. by apply Ihandle.
Qed.

(** Two live counters never carry the same block id. *)
Lemma inv_live_inj m hs live l1 l2 i :
  MemInv m hs live → live !! l1 = Some i → live !! l2 = Some i → l1 = l2.
Proof.
  intros HI H1 H2. destruct (decide (l1 = l2)) as [|Hne]; [done|exfalso].
  pose proof (NoDup_seqZ 0 (Z.of_nat (num_total_blocks m))) as Hnd.
  rewrite <- (inv_ids _ _ _ HI), <- (map_to_list_delete live l1 i H1) in Hnd.
  apply NoDup_app in Hnd as (_&_&Hnd). simpl in Hnd.
  apply NoDup_cons in Hnd as [Hni _]. apply Hni.
  apply list_elem_of_fmap. exists (l2, i). split; [done|].
  apply elem_of_map_to_list. by rewrite lookup_delete_ne.
Qed.

(** A block with a live handle is not on the free list. *)
Lemma inv_not_free m hs live l i :
  MemInv m hs live → live !! l = Some i →
  i ∉ take (num_free_blocks m) (free_blocks_ (allocator m)).
Proof.
  intros HI Hl Hin.
  pose proof (NoDup_seqZ 0 (Z.of_nat (num_total_blocks m))) as Hnd.
  rewrite <- (inv_ids _ _ _ HI) in Hnd.
  apply NoDup_app in Hnd as (_&Hdisj&_). apply (Hdisj i Hin).
  apply list_elem_of_fmap. exists (l, i). by rewrite elem_of_map_to_list.
Qed.

(** Another handle on the same block shares the counter. *)
Lemma inv_same_cell m hs live b b' l :
  MemInv m hs live → b ∈ hs → b' ∈ hs → ref_count_ b = Some l →
  id_ b' = id_ b ↔ ref_count_ b' = Some l.
Proof.
  intros HI Hb Hb' Hl.
  destruct (inv_cell_of _ _ _ _ _ HI Hb Hl) as (_&Hlive&_).
  destruct (inv_handle _ _ _ HI b' Hb') as (_&_&l'&Hl'&Hlive').
  split; [|congruence]. intros Hid. rewrite Hid in Hlive'.
  rewrite Hl'. f_equal. by eapply inv_live_inj.
Qed.

(** The shared part of the two cases below: the handle goes away and the
    counter of another block is not touched. *)
Lemma inv_cells_other m b hs live l l' c :
  MemInv m (b :: hs) live → ref_count_ b = Some l → l' ≠ l →
  cells m !! l' = Some c → c = refs l' hs ∧ 0 < c.
Proof.
  intros HI Hl Hne Hc. destruct (inv_cells _ _ _ HI _ _ Hc) as [-> Hpos].
  rewrite refs_cons, decide_False in * by congruence. done.
Qed.

(** Destroying a handle that is not the last one. *)
Lemma MemInv_dec_shared m b hs live l :
  MemInv m (b :: hs) live → ref_count_ b = Some l → 0 < refs l hs →
  MemInv (set_cells (<[l := refs l hs]> (cells m)) m) hs live.
Proof.
  intros HI Hl Hpos.
  destruct (inv_cell_of _ _ _ b l HI ltac:(set_solver) Hl) as (Hc&Hlive&_).
  split; simpl; try apply HI.
  - intros l' c. rewrite lookup_insert. case_decide; [by intros [= <-]; subst|].
    intros Hc'. eapply inv_cells_other; eauto.
  - intros l'. rewrite lookup_insert. case_decide; [subst|apply HI].
    split; intros _; by eexists.
  - intros l'. rewrite lookup_insert. case_decide; [subst|apply HI].
    intros _. eapply inv_fresh; [done|by eexists].
  - intros b' Hb'. eapply inv_handle; [done|set_solver].
Qed.

(** Destroying the last handle returns the id to the free list. *)
Lemma MemInv_dec_last m b hs live l :
  MemInv m (b :: hs) live → ref_count_ b = Some l → refs l hs = 0 →
  num_free_blocks m < num_total_blocks m ∧
  MemInv (mkMem (delete l (cells m)) (next_cell m)
            (mkBlockAllocator (S (num_free_blocks m)) (block_size_ (allocator m))
               (<[num_free_blocks m := id_ b]> (free_blocks_ (allocator m)))))
         hs (delete l live).
Proof.
  intros HI Hl H0.
  destruct (inv_cell_of _ _ _ b l HI ltac:(set_solver) Hl) as (Hc&Hlive&_).
  pose proof (inv_count _ _ _ HI) as Hcount.
  assert (0 < size live) as Hsz.
  { destruct (decide (size live = 0)) as [Hz|]; [|lia].
    apply map_size_empty_inv in Hz. subst. by rewrite lookup_empty in Hlive. }
  assert (num_free_blocks m < num_total_blocks m) as Hlt by lia.
  split; [done|]. split; simpl.
  - intros l' c. rewrite lookup_delete. case_decide; [done|].
    intros Hc'. eapply inv_cells_other; eauto.
  - intros l'. rewrite !lookup_delete. case_decide; [done|apply HI].
  - intros l'. rewrite lookup_delete. case_decide; [by intros []|apply HI].
  - intros b' Hb'.
    destruct (inv_handle _ _ _ HI b' ltac:(set_solver)) as (?&?&l'&Hl'&?).
    split; [done|]. split; [done|]. exists l'. split; [done|].
    rewrite lookup_delete_ne; [done|]. intros <-.
    pose proof (refs_pos _ _ _ Hb' Hl'). lia.
  - unfold num_free_blocks, num_total_blocks in *; simpl. rewrite length_insert. lia.
  - pose proof (inv_ids _ _ _ HI) as Hids.
    unfold num_free_blocks, num_total_blocks in *; simpl.
    rewrite length_insert, take_S_insert, <- Hids by done.
    rewrite <- (map_to_list_delete live l (id_ b)) by done. simpl.
    by rewrite <- app_assoc.
Qed.

(** Destroying a handle: the block is freed exactly when it was the last one. *)
Lemma block_destroy_wp b m hs :
  mem_ok m (b :: hs) →
  wp (block_destroy b) m (λ _ m', mem_ok m' hs ∧ same_geometry m m' ∧
    num_free_blocks m' = num_free_blocks m +
      (if decide (Exists (λ b', id_ b' = id_ b) hs) then 0 else 1)).
Proof.
  intros [live HI].
  destruct (inv_handle _ _ _ HI b ltac:(set_solver)) as (Ha&Hs&l&Hl&_).
  destruct (inv_cell_of _ _ _ b l HI ltac:(set_solver) Hl) as (Hc&_&_).
  rewrite refs_cons, decide_True in Hc by done.
  unfold block_destroy, dec_ref_count. rewrite Hl. wp_steps; [exact Hc|]. simpl.
  destruct (refs l hs) as [|n] eqn:Hr.
  - destruct (MemInv_dec_last m b hs live l HI Hl Hr) as [Hlt HI'].
    wp_steps. rewrite Ha. unfold free. wp_steps; [by apply bool_decide_eq_true_2|].
    wp_steps. split; [by eexists|].
    rewrite decide_False; [|intros (b'&Hb'&Hid)%Exists_exists].
    + unfold same_geometry, num_total_blocks, num_free_blocks; simpl.
      rewrite length_insert. auto with lia.
    + rewrite (inv_same_cell _ _ _ b b' l HI) in Hid by (set_solver || done).
      pose proof (refs_pos _ _ _ Hb' Hid). lia.
  - wp_steps. split; [|split; [done|]].
    + exists live. rewrite <- Hr. apply MemInv_dec_shared with b; auto. lia.
    + rewrite decide_True; [simpl; unfold num_free_blocks; simpl; lia|].
      apply Exists_exists. destruct (filter (λ b, ref_count_ b = Some l) hs) as [|b' k] eqn:E.
      { unfold refs in Hr. by rewrite E in Hr. }
      assert (b' ∈ filter (λ b, ref_count_ b = Some l) hs) as Hin by (rewrite E; set_solver).
      apply list_elem_of_filter in Hin as [Hl' Hin]. exists b'. split; [done|].
      eapply (inv_same_cell _ _ _ b b' l HI); (set_solver || done).
Qed.

Lemma pop_free_ok a :
  0 < num_free_blocks_ a ≤ length (free_blocks_ a) →
  ∃ i, free_blocks_ a !! (num_free_blocks_ a - 1) = Some i ∧
    take (num_free_blocks_ a) (free_blocks_ a) =
      take (num_free_blocks_ a - 1) (free_blocks_ a) ++ [i] ∧
    pop_free a = Some (i, mkBlockAllocator (num_free_blocks_ a - 1) (block_size_ a) (free_blocks_ a)).
Proof.
  intros [Hpos Hle]. unfold pop_free.
  destruct (num_free_blocks_ a) as [|n]; [lia|].
  destruct (lookup_lt_is_Some_2 (free_blocks_ a) n) as [i Hi]; [lia|].
  replace (S n - 1) with n by lia. exists i. rewrite Hi.
  split; [done|]. split; [by apply take_S_r|done].
Qed.

(** A freshly popped id gets a fresh counter and one handle. *)
Lemma allocate_iter_wp m hs :
  mem_ok m hs → 0 < num_free_blocks m →
  wp allocate_iter m (λ b m', mem_ok m' (b :: hs) ∧ same_geometry m m' ∧
    num_free_blocks m' = num_free_blocks m - 1 ∧ (id_ b ∉ (id_ <$> hs)) ∧
    free_blocks_ (allocator m) !! (num_free_blocks m - 1) = Some (id_ b)).
Proof.
  intros [live HI] Hpos.
  destruct (pop_free_ok (allocator m)) as (i&Hi&Htake&Hpop).
  { split; [done|apply HI]. }
  unfold allocate_iter. wp_steps; [exact Hpop|]. unfold new_block. wp_steps. simpl.
  set (l := next_cell m).
  assert (cells m !! l = None) as Hfresh.
  { apply eq_None_not_Some. intros Hs. apply (inv_fresh _ _ _ HI) in Hs. lia. }
  assert (live !! l = None) as Hfresh'.
  { apply eq_None_not_Some. rewrite <- (inv_dom _ _ _ HI), Hfresh. by intros []. }
  assert (∀ b, b ∈ hs → ref_count_ b ≠ Some l) as Hne.
  { intros b Hb Hl. destruct (inv_cell_of _ _ _ _ _ HI Hb Hl). congruence. }
  assert (refs l hs = 0) as Hr.
  { unfold refs. apply length_zero_iff_nil.
    destruct (filter _ _) as [|b k] eqn:E; [done|].
    assert (b ∈ filter (λ b, ref_count_ b = Some l) hs) as Hin by (rewrite E; set_solver).
    apply list_elem_of_filter in Hin as [Hl Hin]. by apply Hne in Hl. }
  split; [|split; [done|split; [done|split; [|done]]]].
  - exists (<[l:=i]> live). split; simpl.
    + intros l' c. rewrite lookup_insert, refs_cons. simpl. case_decide.
      * intros [= <-]. subst. rewrite decide_True by done. lia.
      * rewrite decide_False by congruence. apply HI.
    + intros l'. rewrite !lookup_insert. case_decide; [|apply HI].
      split; intros _; by eexists.
    + intros l'. rewrite lookup_insert. case_decide; [lia|].
      intros Hs%(inv_fresh _ _ _ HI). lia.
    + intros b [->|Hb]%elem_of_cons; simpl.
      * split; [done|]. split; [done|]. exists l. by rewrite lookup_insert_eq.
      * destruct (inv_handle _ _ _ HI b Hb) as (?&?&l'&Hl'&?).
        do 2 (split; [done|]). exists l'. split; [done|].
        rewrite lookup_insert_ne; [done|]. intros <-. by apply Hne in Hl'.
    + pose proof (inv_free_le _ _ _ HI). unfold num_free_blocks, num_total_blocks in *.
      simpl. lia.
    + pose proof (inv_ids _ _ _ HI) as Hids.
      unfold num_free_blocks, num_total_blocks in *; simpl.
      rewrite map_to_list_insert by done. simpl.
      rewrite <- Hids, Htake, <- app_assoc. done.
  - simpl. intros (b&Heq&Hb)%list_elem_of_fmap.
    destruct (inv_handle _ _ _ HI b Hb) as (_&_&l'&_&Hl').
    rewrite <- Heq in Hl'. apply (inv_not_free _ _ _ _ _ HI Hl').
    unfold num_free_blocks. rewrite Htake. set_solver.
Qed.

Lemma blocks_copy_wp bs m hs :
  mem_ok m hs → bs ⊆ hs →
  wp (blocks_copy bs) m (λ bs' m', bs' = bs ∧ mem_ok m' (bs ++ hs) ∧
    allocator m' = allocator m).
Proof.
  revert m hs. induction bs as [|b bs IH]; intros m hs Hok Hsub; [by apply wp_ret|].
  unfold blocks_copy; simpl. apply wp_bind.
  eapply wp_mono; [apply (block_copy_wp b m hs); [done|set_solver]|].
  intros ? m' (->&Hok'&Ha). apply wp_bind.
  eapply wp_mono; [apply (IH m' (b :: hs)); [done|set_solver]|].
  intros ? m'' (->&Hok''&Ha'). apply wp_ret.
  split; [done|]. split; [|congruence]. simpl. by rewrite Permutation_middle.
Qed.

Lemma blocks_destroy_wp bs m hs :
  mem_ok m (bs ++ hs) →
  wp (blocks_destroy bs) m (λ _ m', mem_ok m' hs ∧ same_geometry m m' ∧
    num_free_blocks m ≤ num_free_blocks m').
Proof.
  revert m. induction bs as [|b bs IH]; intros m Hok; [by apply wp_ret|].
  unfold blocks_destroy; simpl. apply wp_bind.
  eapply wp_mono; [by apply (block_destroy_wp b m (bs ++ hs))|].
  intros ? m' (Hok'&Hg&Hn). eapply wp_mono; [by apply IH|].
  intros ? m'' (?&?&?). split; [done|]. split; [by etrans|]. lia.
Qed.

Lemma allocate_loop_wp {A} (l : list A) m hs :
  mem_ok m hs → length l ≤ num_free_blocks m →
  wp (map_each (λ _, allocate_iter) l) m (λ bs m', length bs = length l ∧
    mem_ok m' (bs ++ hs) ∧ same_geometry m m' ∧
    num_free_blocks m' = num_free_blocks m - length l ∧
    NoDup (id_ <$> bs) ∧ (∀ b, b ∈ bs → id_ b ∉ (id_ <$> hs))).
Proof.
  revert m hs. induction l as [|x l IH]; intros m hs Hok Hle; simpl in *.
  { apply wp_ret. split_and!; try done; [lia|constructor|set_solver]. }
  apply wp_bind. eapply wp_mono; [apply (allocate_iter_wp m hs); [done|lia]|].
  intros b m' (Hok'&Hg&Hn&Hni&_). apply wp_bind.
  eapply wp_mono; [apply (IH m' (b :: hs)); [done|lia]|].
  intros bs m'' (Hlen&Hok''&Hg'&Hn'&Hnd&Hdisj). apply wp_ret. split_and!.
  - simpl. lia.
  - simpl. by rewrite Permutation_middle.
  - by etrans.
  - lia.
  - simpl. constructor; [|done]. intros (b'&Heq&Hb')%list_elem_of_fmap.
    apply (Hdisj _ Hb'). rewrite fmap_cons, <- Heq. set_solver.
  - intros b' [->|Hb']%elem_of_cons; [done|]. specialize (Hdisj _ Hb').
    rewrite fmap_cons in Hdisj. set_solver.
Qed.

(** [allocate] succeeds whenever the free list is long enough. *)
Lemma allocate_wp n m hs :
  mem_ok m hs → n ≤ num_free_blocks m →
  wp (allocate n) m (λ bs m', length bs = n ∧
    mem_ok m' (bs ++ hs) ∧ same_geometry m m' ∧
    num_free_blocks m' = num_free_blocks m - n ∧
    NoDup (id_ <$> bs) ∧ (∀ b, b ∈ bs → id_ b ∉ (id_ <$> hs))).
Proof.
  intros Hok Hle. unfold allocate. wp_step. wp_step. wp_step. wp_step.
  - by apply bool_decide_eq_true_2.
  - eapply wp_mono; [apply (allocate_loop_wp _ m hs); [done|by rewrite length_seq]|].
    intros bs m'. by rewrite length_seq.
Qed.

(** The ids of the live handles, as a set. *)
Definition live_ids (hs : list Block) : gset Z := list_to_set (id_ <$> hs).

Lemma MemInv_live_ids m hs live :
  MemInv m hs live → live_ids hs = list_to_set (map_to_list live).*2.
Proof.
  intros HI. apply set_eq. intros i. unfold live_ids.
  rewrite !elem_of_list_to_set, !list_elem_of_fmap. split.
  - intros (b&->&Hb). destruct (inv_handle _ _ _ HI b Hb) as (_&_&l&_&Hl).
    exists (l, id_ b). by rewrite elem_of_map_to_list.
  - intros ([l i']&->&Hl%elem_of_map_to_list). simpl.
    destruct (proj2 (inv_dom _ _ _ HI l)) as [c Hc]; [by eexists|].
    destruct (inv_cells _ _ _ HI l c Hc) as [-> Hpos]. unfold refs in Hpos.
    destruct (filter _ _) as [|b k] eqn:E; simpl in Hpos; [lia|].
    assert (b ∈ filter (λ b, ref_count_ b = Some l) hs) as Hin by (rewrite E; set_solver).
    apply list_elem_of_filter in Hin as [Hrl Hin]. exists b. split; [|done].
    destruct (inv_handle _ _ _ HI b Hin) as (_&_&l'&?&?). simplify_eq. congruence.
Qed.

(** The free list and the distinct live blocks account for every block. *)
Lemma mem_ok_count m hs :
  mem_ok m hs → num_free_blocks m + size (live_ids hs) = num_total_blocks m.
Proof.
  intros [live HI]. rewrite (MemInv_live_ids _ _ _ HI), size_list_to_set.
  - rewrite length_fmap, length_map_to_list. by eapply inv_count.
  - pose proof (NoDup_seqZ 0 (Z.of_nat (num_total_blocks m))) as Hnd.
    rewrite <- (inv_ids _ _ _ HI) in Hnd. by apply NoDup_app in Hnd as (_&_&Hnd).
Qed.

(** What a live handle looks like. *)
Lemma mem_ok_handle m hs b :
  mem_ok m hs → b ∈ hs →
  size_ b = block_size_ (allocator m) ∧ (0 ≤ id_ b < Z.of_nat (num_total_blocks m))%Z.
Proof.
  intros [live HI] Hb. destruct (inv_handle _ _ _ HI b Hb) as (_&Hs&l&_&Hl).
  split; [done|]. enough (id_ b ∈ seqZ 0 (Z.of_nat (num_total_blocks m))) as H
    by (apply elem_of_seqZ in H; lia).
  rewrite <- (inv_ids _ _ _ HI). apply elem_of_app. right.
  apply list_elem_of_fmap. exists (l, id_ b). by rewrite elem_of_map_to_list.
Qed.

(** [ref_count] of a live handle counts the live handles on the same block. *)
Lemma ref_count_wp m hs b :
  mem_ok m hs → b ∈ hs →
  wp (ref_count b) m (λ c m', m' = m ∧
    c = length (filter (λ b', id_ b' = id_ b) hs)).
Proof.
  intros [live HI] Hb. destruct (inv_handle _ _ _ HI b Hb) as (_&_&l&Hl&_).
  destruct (inv_cell_of _ _ _ _ _ HI Hb Hl) as (Hc&_&_).
  unfold ref_count. rewrite Hl. wp_steps; [exact Hc|]. split; [done|].
  unfold refs. f_equal. apply filter_ext_in.
  intros b' Hb'. symmetry. by eapply inv_same_cell.
Qed.
