(* ===== verification/Lru.v ===== *)
(** * The intrusive LRU list of the prefix cache

    [add_node_to_lru_back], [remove_node_from_lru] and [move_node_to_lru_back]
    of [src/memory/prefix_cache.cpp]: the [prev] and [next] pointers of the
    nodes, between the two sentinels [lru_front_] and [lru_back_].  The pointers
    of all nodes are one map from node to [Link]; the other fields of a node are
    in [PrefixCache].  The theorems refine the pointer operations to operations
    on the list of nodes in access order. *)

From stdpp Require Import base tactics list gmap strings.
From S2P Require Import Prelude.

(** The two pointers of a [Node]; [nullptr] is [None]. *)
Record Link := mkLink {
  prev : option positive;
  next : option positive;
}.

(** The sentinels, which are members of the cache object. *)
Definition lru_front_ : positive := 2.
Definition lru_back_ : positive := 3.

Abbreviation Links := (gmap positive Link).

(** ** Pointer accesses *)

Definition deref (p : option positive) : M Links positive :=
  from_option_or NullPointer p.

Definition load (n : positive) : M Links Link :=
  ls ← get; from_option_or UseAfterFree (ls !! n).

(** [n->prev = v] and [n->next = v]. *)
Definition set_prev (n : positive) (v : option positive) : M Links unit :=
  l ← load n; modify (insert n (mkLink v (next l))).
Definition set_next (n : positive) (v : option positive) : M Links unit :=
  l ← load n; modify (insert n (mkLink (prev l) v)).

(** ** The operations *)

(** [PrefixCache::add_node_to_lru_back]. *)
Definition add_node_to_lru_back (node : positive) : M Links unit :=
  b ← load lru_back_;
  _ ← set_prev node (prev b);
  _ ← set_next node (Some lru_back_);
  b ← load lru_back_;
  p ← deref (prev b);
  _ ← set_next p (Some node);
  set_prev lru_back_ (Some node).

(** [PrefixCache::remove_node_from_lru]. *)
Definition remove_node_from_lru (node : positive) : M Links unit :=
  n ← load node;
  p ← deref (prev n);
  _ ← set_next p (next n);
  n ← load node;
  q ← deref (next n);
  set_prev q (prev n).

(** [PrefixCache::move_node_to_lru_back]. *)
Definition move_node_to_lru_back (node : positive) : M Links unit :=
  _ ← remove_node_from_lru node;
  add_node_to_lru_back node.

(** ** Refinement to a list *)

Definition nextof (ls : Links) (n : positive) : option positive := ls !! n ≫= next.
Definition prevof (ls : Links) (n : positive) : option positive := ls !! n ≫= prev.

(** Consecutive elements point at each other. *)
Fixpoint chain (ls : Links) (l : list positive) : Prop :=
  match l with
  | a :: ((b :: _) as l') => nextof ls a = Some b ∧ prevof ls b = Some a ∧ chain ls l'
  | _ => True
  end.

(** [xs] is the LRU order, the least recently used node first. *)
Definition lru_repr (ls : Links) (xs : list positive) : Prop :=
  NoDup (lru_front_ :: xs ++ [lru_back_]) ∧
  chain ls (lru_front_ :: xs ++ [lru_back_]).

(** ** Lemmas *)

Lemma set_prev_wp ls n v Q :
  is_Some (ls !! n) →
  (∀ ls', dom ls' = dom ls →
     (∀ x, nextof ls' x = nextof ls x) →
     (∀ x, prevof ls' x = if decide (n = x) then v else prevof ls x) → Q tt ls') →
  wp (set_prev n v) ls Q.
Proof.
  intros [l Hl] HQ. unfold set_prev, load. wp_steps; [exact Hl|]. wp_steps. apply HQ.
  - rewrite dom_insert_L. apply elem_of_dom_2 in Hl. set_solver.
  - intros x. unfold nextof. rewrite lookup_insert. case_decide; [|done].
    subst. by rewrite Hl.
  - intros x. unfold prevof. rewrite lookup_insert. by case_decide.
Qed.

Lemma set_next_wp ls n v Q :
  is_Some (ls !! n) →
  (∀ ls', dom ls' = dom ls →
     (∀ x, prevof ls' x = prevof ls x) →
     (∀ x, nextof ls' x = if decide (n = x) then v else nextof ls x) → Q tt ls') →
  wp (set_next n v) ls Q.
Proof.
  intros [l Hl] HQ. unfold set_next, load. wp_steps; [exact Hl|]. wp_steps. apply HQ.
  - rewrite dom_insert_L. apply elem_of_dom_2 in Hl. set_solver.
  - intros x. unfold prevof. rewrite lookup_insert. case_decide; [|done].
    subst. by rewrite Hl.
  - intros x. unfold nextof. rewrite lookup_insert. by case_decide.
Qed.

Lemma chain_mono ls ls' l :
  (∀ a b, a ∈ l → b ∈ l → nextof ls a = Some b → nextof ls' a = Some b) →
  (∀ a b, a ∈ l → b ∈ l → prevof ls a = Some b → prevof ls' a = Some b) →
  chain ls l → chain ls' l.
Proof.
  induction l as [|a [|b l] IH]; simpl; intros Hn Hp; [done..|].
  intros (?&?&?). split_and!; [apply Hn|apply Hp|apply IH]; set_solver.
Qed.

Lemma chain_app ls l1 x l2 :
  chain ls (l1 ++ x :: l2) ↔ chain ls (l1 ++ [x]) ∧ chain ls (x :: l2).
Proof.
  induction l1 as [|a [|b l1] IH]; simpl in *; [tauto| |].
  - destruct l2; simpl; tauto.
  - rewrite IH. tauto.
Qed.

Lemma nextof_dom ls a b : nextof ls a = Some b → is_Some (ls !! a).
Proof. unfold nextof. destruct (ls !! a); [by eexists|done]. Qed.
Lemma prevof_dom ls a b : prevof ls a = Some b → is_Some (ls !! a).
Proof. unfold prevof. destruct (ls !! a); [by eexists|done]. Qed.

Lemma chain_dom ls a b l x :
  chain ls (a :: b :: l) → x ∈ a :: b :: l → is_Some (ls !! x).
Proof.
  revert a b. induction l as [|c l IH]; intros a b (Ha&Hb&Hc) Hx.
  - apply elem_of_cons in Hx as [->|Hx]; [by eapply nextof_dom|].
    apply list_elem_of_singleton in Hx as ->. by eapply prevof_dom.
  - apply elem_of_cons in Hx as [->|Hx]; [by eapply nextof_dom|by eapply IH].
Qed.

Lemma lru_repr_dom ls xs x :
  lru_repr ls xs → x ∈ lru_front_ :: xs ++ [lru_back_] → is_Some (ls !! x).
Proof.
  intros [_ Hc] Hx. destruct xs as [|y xs]; (eapply chain_dom; [exact Hc|exact Hx]).
Qed.

Lemma load_wp ls n (Q : Link → Links → Prop) :
  is_Some (ls !! n) →
  (∀ l, ls !! n = Some l → prevof ls n = prev l → nextof ls n = next l → Q l ls) →
  wp (load n) ls Q.
Proof.
  intros [l Hl] HQ. unfold load. wp_steps; [exact Hl|].
  apply HQ; unfold prevof, nextof; by rewrite ?Hl.
Qed.

(** Between [p] and the back sentinel, with the pointers of [n] set. *)
Lemma chain_add ls ls' l p n :
  chain ls (l ++ [p; lru_back_]) →
  n ∉ l ++ [p; lru_back_] → NoDup (l ++ [p; lru_back_]) →
  (∀ x, nextof ls' x = if decide (p = x) then Some n else
          if decide (n = x) then Some lru_back_ else nextof ls x) →
  (∀ x, prevof ls' x = if decide (lru_back_ = x) then Some n else
          if decide (n = x) then Some p else prevof ls x) →
  chain ls' (l ++ [p; n; lru_back_]).
Proof.
  intros Hc Hn Hnd Hnx Hpv. rewrite chain_app in Hc. destruct Hc as [Hc [Hpb [Hbp _]]].
  assert (n ≠ p ∧ n ≠ lru_back_ ∧ p ≠ lru_back_ ∧ lru_back_ ∉ l) as (?&?&?&?).
  { apply NoDup_app in Hnd as (?&?&Hnd). apply NoDup_cons in Hnd as [? _]. set_solver. }
  apply chain_app. split.
  - eapply chain_mono; [| |exact Hc]; intros a b Ha Hb Hab.
    + rewrite Hnx. repeat case_decide; subst; [|set_solver|done].
      assert (b = lru_back_) as -> by congruence. set_solver.
    + rewrite Hpv. repeat case_decide; subst; [set_solver|set_solver|done].
  - simpl. rewrite !Hnx, !Hpv. repeat case_decide; done || congruence.
Qed.

Lemma add_back_wp ls xs n :
  lru_repr ls xs → n ∉ lru_front_ :: xs ++ [lru_back_] → is_Some (ls !! n) →
  wp (add_node_to_lru_back n) ls (λ _ ls', lru_repr ls' (xs ++ [n]) ∧ dom ls' = dom ls).
Proof.
  intros Hr Hn Hd. pose proof (λ x, lru_repr_dom ls xs x Hr) as Hdom.
  destruct Hr as [Hnd Hc].
  assert (∃ l p, lru_front_ :: xs = l ++ [p]) as (l&p&Hl).
  { destruct xs as [|y ys _] using rev_ind; [by exists [], lru_front_|].
    by exists (lru_front_ :: ys), y. }
  unfold lru_repr. rewrite !app_comm_cons, Hl, <- app_assoc in *. simpl in *.
  assert (nextof ls p = Some lru_back_ ∧ prevof ls lru_back_ = Some p) as [Hpb Hbp]
    by (rewrite chain_app in Hc; simpl in Hc; tauto).
  assert (n ≠ p ∧ n ≠ lru_back_) as [Hnp Hnb] by set_solver.
  assert (is_Some (ls !! p)) as Hpd by (apply Hdom; set_solver).
  assert (is_Some (ls !! lru_back_)) as Hbd by (apply Hdom; set_solver).
  unfold add_node_to_lru_back.
  apply wp_bind, load_wp; [done|]. intros b _ Hb1 _. rewrite Hbp in Hb1.
  apply wp_bind, set_prev_wp; [done|]. intros ls1 Hd1 Hn1 Hp1.
  apply wp_bind, set_next_wp; [by rewrite <- elem_of_dom, Hd1, elem_of_dom|].
  intros ls2 Hd2 Hp2 Hn2.
  apply wp_bind, load_wp; [by rewrite <- elem_of_dom, Hd2, Hd1, elem_of_dom|].
  intros b' _ Hb' _. rewrite Hp2, Hp1, decide_False, Hbp in Hb' by done.
  apply wp_bind. unfold deref. eapply wp_from_option; [by symmetry|].
  apply wp_bind, set_next_wp; [by rewrite <- elem_of_dom, Hd2, Hd1, elem_of_dom|].
  intros ls3 Hd3 Hp3 Hn3.
  apply set_prev_wp; [by rewrite <- elem_of_dom, Hd3, Hd2, Hd1, elem_of_dom|].
  intros ls4 Hd4 Hn4 Hp4. split; [|congruence].
  rewrite <- !app_assoc. simpl. split.
  - assert (l ++ [p; n; lru_back_] ≡ₚ n :: l ++ [p; lru_back_]) as -> by solve_Permutation.
    by constructor.
  - apply (chain_add ls); [done..| |]; intros x.
    + by rewrite Hn4, Hn3, Hn2, Hn1.
    + by rewrite Hp4, Hp3, Hp2, Hp1, <- Hb1.
Qed.

(** Unlinking an element between [p] and [q]. *)
Lemma chain_remove ls ls' l1 p n q l2 :
  chain ls (l1 ++ p :: n :: q :: l2) → NoDup (l1 ++ p :: n :: q :: l2) →
  (∀ x, nextof ls' x = if decide (p = x) then Some q else nextof ls x) →
  (∀ x, prevof ls' x = if decide (q = x) then Some p else prevof ls x) →
  chain ls' (l1 ++ p :: q :: l2).
Proof.
  intros Hc Hnd Hnx Hpv. rewrite chain_app in *.
  destruct Hc as [Hc [Hpn [Hnp [Hnq [Hqn Hc2]]]]].
  assert ((p ∉ q :: l2) ∧ (q ∉ l1 ++ [p]) ∧ (n ∉ l1 ++ [p]) ∧ (n ∉ q :: l2)) as (?&?&?&?).
  { apply NoDup_app in Hnd as (?&?&Hnd). rewrite !NoDup_cons in Hnd. set_solver. }
  split; [|change (nextof ls' p = Some q ∧ prevof ls' q = Some p ∧ chain ls' (q :: l2)); split_and!].
  - eapply chain_mono; [| |exact Hc]; intros a b Ha Hb Hab.
    + rewrite Hnx. case_decide; [|done]. subst. simplify_eq. set_solver.
    + rewrite Hpv. case_decide; [|done]. set_solver.
  - rewrite Hnx. by rewrite decide_True.
  - rewrite Hpv. by rewrite decide_True.
  - eapply chain_mono; [| |exact Hc2]; intros a b Ha Hb Hab.
    + rewrite Hnx. case_decide; [|done]. set_solver.
    + rewrite Hpv. case_decide; [|done]. subst. simplify_eq. set_solver.
Qed.

Lemma remove_wp ls xs1 n xs2 :
  lru_repr ls (xs1 ++ n :: xs2) →
  wp (remove_node_from_lru n) ls (λ _ ls', lru_repr ls' (xs1 ++ xs2) ∧ dom ls' = dom ls).
Proof.
  intros Hr. pose proof (λ x, lru_repr_dom ls _ x Hr) as Hdom.
  destruct Hr as [Hnd Hc].
  assert (∃ l p, lru_front_ :: xs1 = l ++ [p]) as (l1&p&Hl1).
  { destruct xs1 as [|y ys _] using rev_ind; [by exists [], lru_front_|].
    by exists (lru_front_ :: ys), y. }
  assert (∃ q l, xs2 ++ [lru_back_] = q :: l) as (q&l2&Hl2).
  { destruct xs2; simpl; eauto. }
  assert (∀ k, lru_front_ :: (xs1 ++ k ++ xs2) ++ [lru_back_] = l1 ++ p :: k ++ q :: l2) as Hk.
  { intros k. by rewrite <- !app_assoc, Hl2, app_comm_cons, Hl1, <- app_assoc. }
  unfold lru_repr. rewrite (Hk [] : lru_front_ :: (xs1 ++ xs2) ++ [lru_back_] = _).
  rewrite (Hk [n] : lru_front_ :: (xs1 ++ n :: xs2) ++ [lru_back_] = _) in Hnd, Hc, Hdom.
  simpl in Hnd, Hc, Hdom |- *.
  assert (prevof ls n = Some p ∧ nextof ls n = Some q) as [Hnp Hnq]
    by (rewrite chain_app in Hc; simpl in Hc; tauto).
  assert (n ≠ p ∧ n ≠ q) as [??].
  { apply NoDup_app in Hnd as (?&?&Hnd). rewrite !NoDup_cons in Hnd. set_solver. }
  unfold remove_node_from_lru.
  apply wp_bind, load_wp; [apply Hdom; set_solver|]. intros b _ Hb1 Hb2.
  apply wp_bind, (wp_from_option _ _ p); [congruence|].
  apply wp_bind, set_next_wp; [apply Hdom; set_solver|]. intros ls1 Hd1 Hp1 Hn1.
  apply wp_bind, load_wp; [rewrite <- elem_of_dom, Hd1, elem_of_dom; apply Hdom; set_solver|].
  intros b' _ Hb1' Hb2'. rewrite Hp1 in Hb1'. rewrite Hn1, decide_False in Hb2' by done.
  apply wp_bind, (wp_from_option _ _ q); [congruence|].
  apply set_prev_wp; [rewrite <- elem_of_dom, Hd1, elem_of_dom; apply Hdom; set_solver|].
  intros ls2 Hd2 Hn2 Hp2. split; [|congruence]. split.
  - eapply sublist_NoDup; [exact Hnd|].
    apply sublist_app; [done|]. repeat constructor; done.
  - eapply chain_remove; [exact Hc|exact Hnd|..]; intros x.
    + rewrite Hn2, Hn1. case_decide; [congruence|done].
    + rewrite Hp2, Hp1. case_decide; [congruence|done].
Qed.

(** Moving a node to the back, as on the list. *)
Lemma move_wp ls xs1 n xs2 :
  lru_repr ls (xs1 ++ n :: xs2) →
  wp (move_node_to_lru_back n) ls (λ _ ls', lru_repr ls' (xs1 ++ xs2 ++ [n]) ∧ dom ls' = dom ls).
Proof.
  intros Hr. pose proof Hr as [Hnd _]. unfold move_node_to_lru_back. apply wp_bind.
  eapply wp_mono; [by apply remove_wp|]. intros _ ls' [Hr' Hd].
  eapply wp_mono; [apply (add_back_wp ls' (xs1 ++ xs2)); [done|..]|].
  - rewrite !app_comm_cons, <- !app_assoc in *. simpl in *.
    assert (lru_front_ :: xs1 ++ n :: xs2 ++ [lru_back_] ≡ₚ
            n :: lru_front_ :: xs1 ++ xs2 ++ [lru_back_]) as Hp by solve_Permutation.
    rewrite Hp in Hnd. by apply NoDup_cons in Hnd as [? _].
  - rewrite <- elem_of_dom, Hd, elem_of_dom. eapply lru_repr_dom; [done|set_solver].
  - intros _ ls'' [Hr'' Hd']. rewrite <- app_assoc in Hr''. split; [done|congruence].
Qed.
