(* ===== verification/PrefixCache.v ===== *)
(** * The prefix cache: data and operations

    [src/memory/prefix_cache.h] and [prefix_cache.cpp].  The cache is a radix
    tree of nodes in a heap: a node holds the tokens and the blocks of a whole
    number of blocks, its children (a [std::unordered_set<Node*>], here the list
    of its elements in iteration order), its parent and its access time.  The
    LRU pointers of the nodes are in the component [Lru].  The operations work
    on the heap of nodes and on the reference counts of the blocks, [World].
    The wall clock is read once per call and is the argument [now]. *)

From stdpp Require Import base tactics list gmap strings.
From S2P Require Import Prelude Slice Block Lru.

(** ** Data *)

(** [struct PrefixCache::Node], without [prev] and [next]. *)
Record Node := mkNode {
  token_ids : list Z;
  blocks : list Block;
  children : list positive;
  parent : option positive;
  last_access_time : Z;
}.

Definition Node_default : Node := mkNode [] [] [] None 0.

Definition set_time (now : Z) (n : Node) : Node :=
  mkNode (token_ids n) (blocks n) (children n) (parent n) now.
Definition set_children (c : list positive) (n : Node) : Node :=
  mkNode (token_ids n) (blocks n) c (parent n) (last_access_time n).
Definition set_parent (p : option positive) (n : Node) : Node :=
  mkNode (token_ids n) (blocks n) (children n) p (last_access_time n).
Definition set_content (t : list Z) (b : list Block) (n : Node) : Node :=
  mkNode t b (children n) (parent n) (last_access_time n).

(** [class PrefixCache]: [root_] is node 1, the sentinels are 2 and 3. *)
Record PrefixCache := mkPrefixCache {
  nodes : gmap positive Node;
  links : Links;
  next_node : positive;
  cache_block_size : nat;
  num_blocks_ : nat;
  num_nodes_ : nat;
}.

Definition root_ : positive := 1.

(** The state the cache operations work on. *)
Record World := mkWorld {
  mem : Mem;
  cache : PrefixCache;
}.

Definition set_mem (m : Mem) (w : World) : World := mkWorld m (cache w).
Definition set_cache (c : PrefixCache) (w : World) : World := mkWorld (mem w) c.
Definition set_nodes (ns : gmap positive Node) (c : PrefixCache) : PrefixCache :=
  mkPrefixCache ns (links c) (next_node c) (cache_block_size c) (num_blocks_ c) (num_nodes_ c).
Definition set_links (ls : Links) (c : PrefixCache) : PrefixCache :=
  mkPrefixCache (nodes c) ls (next_node c) (cache_block_size c) (num_blocks_ c) (num_nodes_ c).
Definition set_num_blocks (n : nat) (c : PrefixCache) : PrefixCache :=
  mkPrefixCache (nodes c) (links c) (next_node c) (cache_block_size c) n (num_nodes_ c).
Definition set_num_nodes (n : nat) (c : PrefixCache) : PrefixCache :=
  mkPrefixCache (nodes c) (links c) (next_node c) (cache_block_size c) (num_blocks_ c) n.

Definition in_mem {A} (m : M Mem A) : M World A := zoom mem set_mem m.
Definition in_links {A} (m : M Links A) : M World A :=
  zoom (λ w, links (cache w)) (λ ls w, set_cache (set_links ls (cache w)) w) m.

(** Reading and writing a node through a pointer. *)
Definition get_node (n : positive) : M World Node :=
  w ← get; from_option_or UseAfterFree (nodes (cache w) !! n).
Definition put_node (n : positive) (nd : Node) : M World unit :=
  modify (λ w, set_cache (set_nodes (<[n:=nd]> (nodes (cache w))) (cache w)) w).
Definition update_node (n : positive) (f : Node → Node) : M World unit :=
  nd ← get_node n; put_node n (f nd).

(** [new Node()]. *)
Definition new_node : M World positive :=
  w ← get;
  let c := cache w in
  let n := next_node c in
  _ ← put (set_cache (mkPrefixCache (<[n:=Node_default]> (nodes c))
                        (<[n:=mkLink None None]> (links c)) (Pos.succ n)
                        (cache_block_size c) (num_blocks_ c) (num_nodes_ c)) w);
  mret n.

(** [delete node]: the blocks of the node are destroyed with it. *)
Definition delete_node (n : positive) : M World unit :=
  nd ← get_node n;
  _ ← in_mem (blocks_destroy (blocks nd));
  modify (λ w, set_cache (set_links (delete n (links (cache w)))
                            (set_nodes (delete n (nodes (cache w))) (cache w))) w).

(** ** Operations *)

(** [common_prefix_length]: the loop advances while the heads agree. *)
Fixpoint common_prefix_length (token_ids1 token_ids2 : list Z) : nat :=
  match token_ids1, token_ids2 with
  | x :: l1, y :: l2 => if (x =? y)%Z then S (common_prefix_length l1 l2) else 0
  | _, _ => 0
  end.

(** [round_down]. *)
Definition round_down (n multiple : nat) : nat := n / multiple * multiple.

(** [PrefixCache::PrefixCache]. *)
Definition PrefixCache_new (block_size : nat) : result PrefixCache :=
  if decide (0 < block_size) then
    Ok (mkPrefixCache {[root_ := Node_default]}
          (<[lru_front_ := mkLink None (Some lru_back_)]>
             {[lru_back_ := mkLink (Some lru_front_) None]})
          4 block_size 0 0)
  else Fail (CheckFailed "Block size should be greater than 0").

(** [PrefixCache::split_node]. *)
Definition split_node (node : positive) (common_prefix_length : nat) : M World unit :=
  w ← get;
  let bs := cache_block_size (cache w) in
  _ ← check (bool_decide (0 < common_prefix_length) &&
             bool_decide (common_prefix_length `mod` bs = 0))
        "The common prefix length should be greater than 0";
  let n_blocks := common_prefix_length / bs in
  nd ← get_node node;
  _ ← check (bool_decide (common_prefix_length < length (token_ids nd)) &&
             bool_decide (n_blocks < length (blocks nd)))
        "The common prefix length should be less than the token ids length";
  (* split the node at the common prefix *)
  child ← new_node;
  _ ← in_links (add_node_to_lru_back child);
  _ ← modify (λ w, set_cache (set_num_nodes (S (num_nodes_ (cache w))) (cache w)) w);
  child_tokens ← slice_from common_prefix_length (token_ids nd);
  child_slice ← slice_from n_blocks (blocks nd);
  child_blocks ← in_mem (blocks_copy child_slice);
  (* point to parent, take over children *)
  _ ← put_node child (mkNode child_tokens child_blocks (children nd) (Some node)
                        (last_access_time nd));
  _ ← for_each (λ grand_child, update_node grand_child (set_parent (Some child)))
        (children nd);
  (* truncate token_ids and blocks to the common prefix length *)
  _ ← in_mem (blocks_destroy (drop n_blocks (blocks nd)));
  (* put the new child into the (moved-from) children set *)
  put_node node (mkNode (take common_prefix_length (token_ids nd))
                   (take n_blocks (blocks nd)) [child] (parent nd) (last_access_time nd)).

(** [PrefixCache::create_child]. *)
Definition create_child (node : positive) (tokens : list Z) (bs : list Block) (now : Z) :
    M World unit :=
  w ← get;
  _ ← check (bool_decide (tokens ≠ []) &&
             bool_decide (length tokens = length bs * cache_block_size (cache w)))
        "The number of tokens should be equal to the number of blocks times block size";
  child ← new_node;
  _ ← in_links (add_node_to_lru_back child);
  _ ← modify (λ w, set_cache (set_num_nodes (S (num_nodes_ (cache w))) (cache w)) w);
  _ ← modify (λ w, set_cache (set_num_blocks (num_blocks_ (cache w) + length bs) (cache w)) w);
  child_blocks ← in_mem (blocks_copy bs);
  _ ← put_node child (mkNode tokens child_blocks [] (Some node) now);
  update_node node (λ nd, set_children (children nd ++ [child]) nd).

(** The [for] loop over [curr->children]: the first child that shares at least
    one whole block with the tokens, and how many tokens it shares. *)
Fixpoint find_child (tokens : list Z) (cs : list positive) : M World (option (positive * nat)) :=
  match cs with
  | [] => mret None
  | child :: cs' =>
      w ← get;
      nd ← get_node child;
      let prefix_length :=
        round_down (common_prefix_length tokens (token_ids nd)) (cache_block_size (cache w)) in
      if decide (0 < prefix_length) then mret (Some (child, prefix_length))
      else find_child tokens cs'
  end.

(** Update the access time of a node and move it to the back of the LRU. *)
Definition touch (child : positive) (now : Z) : M World unit :=
  _ ← update_node child (set_time now);
  in_links (move_node_to_lru_back child).

(** The [while] loop of [PrefixCache::match]. *)
Fixpoint match_loop (fuel : nat) (now : Z) (curr : positive) (tokens_slice : list Z)
    (acc : list Block) : M World (list Block) :=
  match fuel with
  | 0 => fail OutOfFuel
  | S fuel =>
      match tokens_slice with
      | [] => mret acc
      | _ =>
          cn ← get_node curr;
          r ← find_child tokens_slice (children cn);
          match r with
          | None => mret acc
          | Some (child, prefix_length) =>
              _ ← touch child now;
              w ← get;
              nd ← get_node child;
              let n_blocks := prefix_length / cache_block_size (cache w) in
              (* append the blocks to the result *)
              shared ← slice 0 n_blocks (blocks nd);
              copied ← in_mem (blocks_copy shared);
              rest ← slice_from prefix_length tokens_slice;
              if decide (prefix_length = length (token_ids nd)) then
                (* full match, continue to grand children *)
                match_loop fuel now child rest (acc ++ copied)
              else
                (* partial match, split the child node on the common prefix *)
                _ ← split_node child prefix_length;
                mret (acc ++ copied)
          end
      end
  end.

(** [PrefixCache::match]. *)
Definition match_ (tokens : list Z) (now : Z) : M World (list Block) :=
  w ← get;
  (* align tokens to block boundary *)
  let n_tokens := round_down (length tokens) (cache_block_size (cache w)) in
  tokens_slice ← slice 0 n_tokens tokens;
  match_loop (S (length tokens_slice)) now root_ tokens_slice [].

(** The [while] loop of [PrefixCache::insert]; returns the number of newly
    inserted tokens. *)
Fixpoint insert_loop (fuel : nat) (now : Z) (curr : positive) (tokens_slice : list Z)
    (blocks_slice : list Block) (new_inserted_tokens : nat) : M World nat :=
  match fuel with
  | 0 => fail OutOfFuel
  | S fuel =>
      match tokens_slice with
      | [] => mret new_inserted_tokens
      | _ =>
          cn ← get_node curr;
          r ← find_child tokens_slice (children cn);
          match r with
          | None =>
              (* no child match, create a new child node *)
              _ ← create_child curr tokens_slice blocks_slice now;
              mret (new_inserted_tokens + length tokens_slice)
          | Some (child, prefix_length) =>
              _ ← touch child now;
              w ← get;
              let bs := cache_block_size (cache w) in
              _ ← check (bool_decide (prefix_length `mod` bs = 0))
                    "The prefix length should be multiple of block size";
              let n_blocks := prefix_length / bs in
              rest ← slice_from prefix_length tokens_slice;
              rest_blocks ← slice_from n_blocks blocks_slice;
              nd ← get_node child;
              _ ← (if decide (prefix_length < length (token_ids nd))
                   then split_node child prefix_length else mret tt);
              insert_loop fuel now child rest rest_blocks new_inserted_tokens
          end
      end
  end.

(** [PrefixCache::insert]. *)
Definition insert (tokens : list Z) (bs : list Block) (now : Z) : M World nat :=
  w ← get;
  let bsz := cache_block_size (cache w) in
  (* align tokens to block boundary *)
  let n_blocks := Nat.min (length tokens / bsz) (length bs) in
  let n_tokens := n_blocks * bsz in
  tokens_slice ← slice 0 n_tokens tokens;
  blocks_slice ← slice 0 n_blocks bs;
  insert_loop (S (length tokens_slice)) now root_ tokens_slice blocks_slice 0.

(** [PrefixCache::release_node]. *)
Definition release_node (node : positive) : M World unit :=
  _ ← check (bool_decide (node ≠ root_)) "node != &root_";
  nd ← get_node node;
  _ ← check (bool_decide (children nd = [])) "should only release leaf node";
  p ← from_option_or NullPointer (parent nd);
  pn ← get_node p;
  _ ← check (bool_decide (node ∈ children pn)) "parent->children.count(node) > 0";
  _ ← put_node p (set_children (filter (λ c, c ≠ node) (children pn)) pn);
  _ ← in_links (remove_node_from_lru node);
  _ ← delete_node node;
  w ← get;
  n ← sub_size (num_nodes_ (cache w)) 1;
  put (set_cache (set_num_nodes n (cache w)) w).

(** The index of the first block that no one else holds. *)
Fixpoint find_non_shared (bs : list Block) : M Mem nat :=
  match bs with
  | [] => mret 0
  | b :: bs' =>
      s ← is_shared b;
      if (s : bool) then (n ← find_non_shared bs'; mret (S n)) else mret 0
  end.

(** The loop of [evict_helper] over the LRU list, from [node]: how many blocks
    were evicted, and the nodes to release. *)
Fixpoint evict_scan (fuel n_blocks_to_evict : nat) (node : positive)
    (total_evicted : nat) (pre_access_time : Z) (nodes_to_evict : list positive) :
    M World (nat * list positive) :=
  match fuel with
  | 0 => fail OutOfFuel
  | S fuel =>
      if decide (total_evicted < n_blocks_to_evict ∧ node ≠ lru_back_) then
        nd ← get_node node;
        _ ← check (pre_access_time <=? last_access_time nd)%Z
              "The last access time should be in ascending order";
        ln ← in_links (load node);
        nxt ← from_option_or NullPointer (next ln);
        (* skip non-leaf nodes *)
        if decide (children nd = []) then
          let n_blocks := length (blocks nd) in
          non_shared_start ← in_mem (find_non_shared (blocks nd));
          let n_to_evict :=
            Nat.min (n_blocks_to_evict - total_evicted) (n_blocks - non_shared_start) in
          if decide (n_to_evict = n_blocks) then
            (* mark the node as to be evicted *)
            evict_scan fuel n_blocks_to_evict nxt (total_evicted + n_to_evict)
              (last_access_time nd) (nodes_to_evict ++ [node])
          else if decide (0 < n_to_evict) then
            (* partially evict non-shared blocks *)
            w ← get;
            let n_blocks_left := n_blocks - n_to_evict in
            _ ← check (bool_decide (non_shared_start ≤ n_blocks_left))
                  "n_blocks_left >= non_shared_start";
            _ ← in_mem (blocks_destroy (drop n_blocks_left (blocks nd)));
            _ ← put_node node
                  (set_content (resize (n_blocks_left * cache_block_size (cache w)) 0%Z (token_ids nd))
                     (take n_blocks_left (blocks nd)) nd);
            evict_scan fuel n_blocks_to_evict nxt (total_evicted + n_to_evict)
              (last_access_time nd) nodes_to_evict
          else
            evict_scan fuel n_blocks_to_evict nxt (total_evicted + n_to_evict)
              (last_access_time nd) nodes_to_evict
        else
          evict_scan fuel n_blocks_to_evict nxt total_evicted (last_access_time nd) nodes_to_evict
      else mret (total_evicted, nodes_to_evict)
  end.

(** [PrefixCache::evict_helper]. *)
Definition evict_helper (n_blocks_to_evict : nat) : M World nat :=
  w ← get;
  f ← in_links (load lru_front_);
  first ← from_option_or NullPointer (next f);
  r ← evict_scan (S (num_nodes_ (cache w))) n_blocks_to_evict first 0 0 [];
  _ ← for_each release_node r.2;
  (* update the number of blocks *)
  w ← get;
  n ← sub_size (num_blocks_ (cache w)) r.1;
  _ ← put (set_cache (set_num_blocks n (cache w)) w);
  mret r.1.

(** The loop of [PrefixCache::evict]. *)
Fixpoint evict_loop (fuel n_blocks_to_evict total_evicted : nat) : M World nat :=
  match fuel with
  | 0 => fail OutOfFuel
  | S fuel =>
      if decide (total_evicted < n_blocks_to_evict) then
        evicted ← evict_helper (n_blocks_to_evict - total_evicted);
        if decide (evicted = 0) then mret total_evicted
        else evict_loop fuel n_blocks_to_evict (total_evicted + evicted)
      else mret total_evicted
  end.

(** [PrefixCache::evict]. *)
Definition evict (n_blocks_to_evict : nat) : M World nat :=
  evict_loop (S n_blocks_to_evict) n_blocks_to_evict 0.

(** [PrefixCache::~PrefixCache]: walk the LRU list and delete every node. *)
Fixpoint destroy_loop (fuel : nat) (node : positive) (num_nodes : nat) : M World nat :=
  match fuel with
  | 0 => fail OutOfFuel
  | S fuel =>
      if decide (node = lru_back_) then mret num_nodes
      else
        ln ← in_links (load node);
        nxt ← from_option_or NullPointer (next ln);
        _ ← delete_node node;
        destroy_loop fuel nxt (S num_nodes)
  end.

Definition PrefixCache_destroy : M World unit :=
  w ← get;
  f ← in_links (load lru_front_);
  first ← from_option_or NullPointer (next f);
  n ← destroy_loop (S (num_nodes_ (cache w))) first 0;
  w ← get;
  check (bool_decide (num_nodes_ (cache w) = n)) "detected memory leak".
