(* ===== verification/PrefixCacheInv.v ===== *)
(** * The prefix cache: invariant and the effect of each primitive

    The well-formedness invariant of the radix tree and of its LRU list, the
    handles the cache owns, and the lemmas that show that touching, splitting,
    creating and releasing a node keep the invariant and never trip a [CHECK]. *)

From stdpp Require Import base tactics list gmap strings sorting.
From S2P Require Import Prelude Slice Block Lru PrefixCache.

(** ** Common prefixes and rounding *)

Lemma cpl_le l1 l2 :
  common_prefix_length l1 l2 ≤ length l1 ∧ common_prefix_length l1 l2 ≤ length l2.
Proof.
  revert l2. induction l1 as [|x l1 IH]; intros [|y l2]; simpl; try lia.
  case_match; simpl; [|lia]. specialize (IH l2). lia.
Qed.

(** The common prefix is at least [k] long iff the first [k] elements agree. *)
Lemma cpl_spec k l1 l2 :
  k ≤ common_prefix_length l1 l2 ↔
  k ≤ length l1 ∧ k ≤ length l2 ∧ take k l1 = take k l2.
Proof.
  revert k l2. induction l1 as [|x l1 IH]; intros [|k] l2; try (simpl; intuition lia).
  destruct l2 as [|y l2]; simpl; [intuition lia|].
  destruct (Z.eqb_spec x y) as [->|Hne].
  - rewrite <- !Nat.succ_le_mono, IH. intuition congruence.
  - split; [lia|]. intros (_&_&?). congruence.
Qed.

Section round_down.
Context (bs : nat) (Hbs : 0 < bs).

Lemma round_down_le n : round_down n bs ≤ n.
Proof. unfold round_down. pose proof (Nat.Div0.mul_div_le n bs). lia. Qed.

Lemma round_down_div n : round_down n bs / bs = n / bs.
Proof. unfold round_down. by rewrite Nat.div_mul by lia. Qed.

Lemma round_down_mod n : round_down n bs `mod` bs = 0.
Proof. unfold round_down. apply Nat.Div0.mod_mul. Qed.

Lemma round_down_pos n : 0 < round_down n bs ↔ bs ≤ n.
Proof.
  unfold round_down. split; intros H.
  - destruct (decide (bs ≤ n)); [done|]. rewrite Nat.div_small in H by lia. lia.
  - assert (0 < n / bs) by (apply Nat.div_str_pos; lia). nia.
Qed.

Lemma round_down_mul k : round_down (k * bs) bs = k * bs.
Proof. unfold round_down. by rewrite Nat.div_mul by lia. Qed.

Lemma round_down_ge k n : k * bs ≤ n → k * bs ≤ round_down n bs.
Proof.
  intros. unfold round_down. apply Nat.mul_le_mono_r.
  apply Nat.div_le_lower_bound; lia.
Qed.

Lemma round_down_eq_mul n : round_down n bs = n / bs * bs.
Proof. done. Qed.
End round_down.

(** ** The handles the cache owns *)

Definition cache_handles (ns : gmap positive Node) : list Block :=
  map_to_list ns ≫= λ p, blocks p.2.

Lemma cache_handles_delete ns n nd :
  ns !! n = Some nd → cache_handles ns ≡ₚ blocks nd ++ cache_handles (delete n ns).
Proof.
  intros Hn. unfold cache_handles. by rewrite <- (map_to_list_delete ns n nd Hn).
Qed.

Lemma cache_handles_insert_new ns n nd :
  ns !! n = None → cache_handles (<[n:=nd]> ns) ≡ₚ blocks nd ++ cache_handles ns.
Proof. intros Hn. unfold cache_handles. by rewrite map_to_list_insert. Qed.

Lemma cache_handles_insert ns n nd nd' :
  ns !! n = Some nd →
  cache_handles (<[n:=nd']> ns) ≡ₚ blocks nd' ++ cache_handles (delete n ns).
Proof.
  intros Hn. rewrite <- insert_delete_eq. apply cache_handles_insert_new.
  apply lookup_delete_eq.
Qed.

Lemma cache_handles_insert_same ns n nd nd' :
  ns !! n = Some nd → blocks nd' = blocks nd →
  cache_handles (<[n:=nd']> ns) ≡ₚ cache_handles ns.
Proof.
  intros Hn Hb. by rewrite (cache_handles_insert ns n nd nd' Hn), Hb,
    <- (cache_handles_delete ns n nd Hn).
Qed.

Lemma cache_handles_elem ns n nd :
  ns !! n = Some nd → blocks nd ⊆ cache_handles ns.
Proof.
  intros Hn b Hb. rewrite (cache_handles_delete ns n nd Hn). set_solver.
Qed.

(** ** The invariant *)

(** What the tree needs of the children of a node: they are distinct, they know
    their parent, and no two of them start with the same block of tokens.  The
    last clause rules out cycles. *)
Record TreeInv (bs : nat) (ns : gmap positive Node) : Prop := {
  ti_root : ∃ r, ns !! root_ = Some r ∧ token_ids r = [] ∧ blocks r = [];
  ti_node : ∀ n nd, ns !! n = Some nd → n ≠ root_ →
    length (token_ids nd) = length (blocks nd) * bs ∧ blocks nd ≠ [] ∧
    ∃ p pn, parent nd = Some p ∧ ns !! p = Some pn ∧ n ∈ children pn;
  ti_child : ∀ n nd c, ns !! n = Some nd → c ∈ children nd →
    c ≠ root_ ∧ ∃ cd, ns !! c = Some cd ∧ parent cd = Some n;
  ti_nodup : ∀ n nd, ns !! n = Some nd → NoDup (children nd);
  ti_sibling : ∀ n nd c1 c2 d1 d2, ns !! n = Some nd →
    c1 ∈ children nd → c2 ∈ children nd → ns !! c1 = Some d1 → ns !! c2 = Some d2 →
    take bs (token_ids d1) = take bs (token_ids d2) → c1 = c2;
  ti_rank : ∃ rank : positive → nat, ∀ n nd c, ns !! n = Some nd →
    c ∈ children nd → rank n < rank c;
}.

(** [xs] is the LRU order of the nodes of the tree. *)
Record CacheInv (c : PrefixCache) (xs : list positive) : Prop := {
  ci_bs : 0 < cache_block_size c;
  ci_tree : TreeInv (cache_block_size c) (nodes c);
  ci_lru : lru_repr (links c) xs;
  ci_xs : ∀ n, n ∈ xs ↔ n ≠ root_ ∧ is_Some (nodes c !! n);
  ci_fresh : ∀ n, is_Some (nodes c !! n) ∨ is_Some (links c !! n) → (n < next_node c)%positive;
  ci_num_nodes : num_nodes_ c = length xs;
  ci_num_blocks : num_blocks_ c = length (cache_handles (nodes c));
}.

(** The access times ascend along the LRU list and lie between 0 and [t]. *)
Definition time_of (ns : gmap positive Node) (n : positive) : Z :=
  from_option last_access_time 0%Z (ns !! n).

Record TimeInv (ns : gmap positive Node) (xs : list positive) (t : Z) : Prop := {
  tm_sorted : StronglySorted (λ a b, (time_of ns a ≤ time_of ns b)%Z) xs;
  tm_bounds : ∀ n, n ∈ xs → (0 ≤ time_of ns n ≤ t)%Z;
}.

(** The cache and the heap of counters, when the rest of the program holds the
    handles [F] and the clock has reached [t]. *)
Record world_inv (w : World) (xs : list positive) (t : Z) (F : list Block) : Prop := {
  wi_cache : CacheInv (cache w) xs;
  wi_time : TimeInv (nodes (cache w)) xs t;
  wi_mem : mem_ok (mem w) (cache_handles (nodes (cache w)) ++ F);
  wi_bs : cache_block_size (cache w) = block_size_ (allocator (mem w));
}.

Definition world_ok (w : World) (t : Z) (F : list Block) : Prop :=
  ∃ xs, world_inv w xs t F.

(** What no cache operation changes. *)
Definition same_sizes (w w' : World) : Prop :=
  cache_block_size (cache w') = cache_block_size (cache w) ∧
  same_geometry (mem w) (mem w').

#[global] Instance same_sizes_preorder : PreOrder same_sizes.
Proof.
  split; [by intros w|]. intros w1 w2 w3 [? H12] [? H23].
  split; [congruence|by etrans].
Qed.

#[global] Instance world_ok_proper w t : Proper ((≡ₚ) ==> iff) (world_ok w t).
Proof.
  intros F1 F2 HF. unfold world_ok.
  assert (∀ F1 F2 xs, F1 ≡ₚ F2 → world_inv w xs t F1 → world_inv w xs t F2) as H.
  { intros G1 G2 xs HG [H1 H2 H3 H4]. split; [done..| |done]. by rewrite <- HG. }
  split; intros [xs Hw]; exists xs; by eapply H.
Qed.

(** The clock may move on. *)
Lemma TimeInv_later ns xs t t' : (t ≤ t')%Z → TimeInv ns xs t → TimeInv ns xs t'.
Proof. intros Ht [Hs Hb]. split; [done|]. intros n Hn. specialize (Hb n Hn). lia. Qed.

Lemma world_ok_later w t t' F : (t ≤ t')%Z → world_ok w t F → world_ok w t' F.
Proof.
  intros Ht [xs []]. exists xs. split; [done| |done..]. by eapply TimeInv_later.
Qed.

(** The invariant holds of a new cache. *)
Lemma PrefixCache_new_inv bs c :
  PrefixCache_new bs = Ok c → CacheInv c [] ∧ TimeInv (nodes c) [] 0 ∧
    cache_handles (nodes c) = [] ∧ cache_block_size c = bs.
Proof.
  unfold PrefixCache_new. intros H. case_decide; [|done]. simplify_eq/=.
  assert (cache_handles {[root_ := Node_default]} = []) as Hh.
  { unfold cache_handles. by rewrite map_to_list_singleton. }
  split; [|split; [split; [constructor|set_solver]|done]]. split; simpl; [done|..].
  - split; simpl.
    + exists Node_default. by rewrite lookup_singleton_eq.
    + intros n nd [<- <-]%lookup_singleton_Some. done.
    + intros n nd c [<- <-]%lookup_singleton_Some. simpl. set_solver.
    + intros n nd [<- <-]%lookup_singleton_Some. constructor.
    + intros n nd c1 c2 d1 d2 [<- <-]%lookup_singleton_Some. simpl. set_solver.
    + exists (λ _, 0). intros n nd c [<- <-]%lookup_singleton_Some. simpl. set_solver.
  - split; [vm_compute; repeat constructor; set_solver|]. done.
  - intros n. split; [set_solver|]. intros [Hne [nd Hn]].
    apply lookup_singleton_Some in Hn as [<- _]. done.
  - intros n [[nd Hn]|[l Hl]].
    + apply lookup_singleton_Some in Hn as [<- _]. done.
    + apply lookup_insert_Some in Hl as [[<- _]|[_ Hl]]; [done|].
      apply lookup_singleton_Some in Hl as [<- _]. done.
  - done.
  - by rewrite Hh.
Qed.

(** ** Access times *)

Lemma TimeInv_ext ns ns' xs t :
  (∀ n, n ∈ xs → time_of ns' n = time_of ns n) → TimeInv ns xs t → TimeInv ns' xs t.
Proof.
  intros Heq [Hs Hb]. split; [|intros n Hn; rewrite Heq by done; auto].
  clear Hb. induction Hs as [|a l Hs IH Ha]; [constructor|]. constructor.
  - apply IH. set_solver.
  - rewrite Forall_forall in *. intros x Hx. rewrite !Heq by set_solver. auto.
Qed.

Lemma TimeInv_snoc ns ns' xs c t now :
  TimeInv ns xs t → (t ≤ now)%Z → (0 ≤ now)%Z →
  (∀ n, n ∈ xs → time_of ns' n = time_of ns n) → time_of ns' c = now →
  TimeInv ns' (xs ++ [c]) now.
Proof.
  intros Ht Hle Hnow Heq Hc. apply (TimeInv_ext ns ns') in Ht; [|done].
  apply (TimeInv_later _ _ _ now) in Ht; [|done]. destruct Ht as [Hs Hb]. split.
  - apply StronglySorted_app_2; [|done|repeat constructor].
    intros a b Ha ->%list_elem_of_singleton. rewrite Hc. by apply Hb.
  - intros n [?| ->%list_elem_of_singleton]%elem_of_app; [by apply Hb|]. lia.
Qed.

Lemma TimeInv_sublist ns xs xs' t :
  xs' `sublist_of` xs → TimeInv ns xs t → TimeInv ns xs' t.
Proof.
  intros Hsub [Hs Hb]. split.
  - clear Hb. induction Hsub as [|x l1 l2 Hsub IH|x l1 l2 Hsub IH]; [constructor|..];
      apply StronglySorted_cons in Hs as [Hx Hs]; [|by apply IH].
    constructor; [by apply IH|]. rewrite Forall_forall in *. intros y Hy.
    apply Hx. by eapply elem_of_sublist.
  - intros n Hn. apply Hb. by eapply elem_of_sublist.
Qed.

Lemma time_of_insert ns n nd m :
  time_of (<[n:=nd]> ns) m = if decide (n = m) then last_access_time nd else time_of ns m.
Proof. unfold time_of. rewrite lookup_insert. by case_decide. Qed.

(** ** Trees that differ only in access times *)

Definition strip (ns : gmap positive Node) : gmap positive Node := set_time 0 <$> ns.

Lemma strip_lookup ns ns' n nd :
  strip ns = strip ns' → ns !! n = Some nd →
  ∃ nd', ns' !! n = Some nd' ∧ token_ids nd' = token_ids nd ∧ blocks nd' = blocks nd ∧
    children nd' = children nd ∧ parent nd' = parent nd.
Proof.
  intros Heq Hn. assert (strip ns !! n = Some (set_time 0 nd)) as Hs
    by (unfold strip; by rewrite lookup_fmap, Hn).
  rewrite Heq in Hs. unfold strip in Hs. rewrite lookup_fmap in Hs.
  destruct (ns' !! n) as [nd'|]; simplify_eq/=. exists nd'.
  destruct nd, nd'; simplify_eq/=. done.
Qed.

Lemma strip_insert_time ns n nd now :
  ns !! n = Some nd → strip (<[n := set_time now nd]> ns) = strip ns.
Proof.
  intros Hn. unfold strip. rewrite fmap_insert. apply insert_id.
  by rewrite lookup_fmap, Hn.
Qed.

Lemma strip_is_Some ns ns' n : strip ns = strip ns' → is_Some (ns !! n) → is_Some (ns' !! n).
Proof. intros Heq [nd Hn]. destruct (strip_lookup ns ns' n nd) as (?&?&?); eauto. Qed.

Lemma TreeInv_strip bs ns ns' : strip ns = strip ns' → TreeInv bs ns → TreeInv bs ns'.
Proof.
  intros Heq HT.
  assert (∀ n nd', ns' !! n = Some nd' → ∃ nd, ns !! n = Some nd ∧
    token_ids nd = token_ids nd' ∧ blocks nd = blocks nd' ∧
    children nd = children nd' ∧ parent nd = parent nd') as Hback
    by (intros; by apply strip_lookup with ns').
  split.
  - destruct (ti_root _ _ HT) as (r&Hr&?&?).
    destruct (strip_lookup _ _ _ _ Heq Hr) as (r'&?&?&?&?). exists r'. split_and!; congruence.
  - intros n nd' Hn Hne. destruct (Hback _ _ Hn) as (nd&Hn0&Ht&Hb&Hc&Hp).
    destruct (ti_node _ _ HT n nd Hn0 Hne) as (?&?&p&pn&?&Hpn&?).
    destruct (strip_lookup _ _ _ _ Heq Hpn) as (pn'&?&?&?&Hc'&?).
    rewrite <- Ht, <- Hb, <- Hp. split_and!; [done..|]. exists p, pn'. by rewrite Hc'.
  - intros n nd' c Hn Hc'. destruct (Hback _ _ Hn) as (nd&Hn0&Ht&Hb&Hc&Hp).
    rewrite <- Hc in Hc'. destruct (ti_child _ _ HT n nd c Hn0 Hc') as (?&cd&Hcd&?).
    split; [done|]. destruct (strip_lookup _ _ _ _ Heq Hcd) as (cd'&?&?&?&?&?).
    exists cd'. split; congruence.
  - intros n nd' Hn. destruct (Hback _ _ Hn) as (nd&Hn0&Ht&Hb&Hc&Hp).
    rewrite <- Hc. by eapply ti_nodup.
  - intros n nd' c1 c2 d1' d2' Hn Hc1 Hc2 Hd1 Hd2.
    destruct (Hback _ _ Hn) as (nd&Hn0&_&_&Hc&_). rewrite <- Hc in *.
    destruct (Hback _ _ Hd1) as (d1&?&<-&_). destruct (Hback _ _ Hd2) as (d2&?&<-&_).
    intros Ht. eapply (ti_sibling _ _ HT n nd); eauto.
  - destruct (ti_rank _ _ HT) as [rank Hrank]. exists rank. intros n nd' c Hn Hc'.
    destruct (Hback _ _ Hn) as (nd&?&_&_&Hc&_). rewrite <- Hc in *. eauto.
Qed.

Lemma cache_handles_strip ns ns' : strip ns = strip ns' → cache_handles ns = cache_handles ns'.
Proof.
  assert (∀ ns, cache_handles (strip ns) = cache_handles ns) as H.
  { intros ns1. unfold cache_handles, strip. rewrite map_to_list_fmap.
    induction (map_to_list ns1) as [|[n nd] l IH]; [done|]. simpl. by f_equal. }
  intros Heq. by rewrite <- (H ns), <- (H ns'), Heq.
Qed.

(** ** Touching a node *)

Lemma get_node_wp w n nd (Q : Node → World → Prop) :
  nodes (cache w) !! n = Some nd → Q nd w → wp (get_node n) w Q.
Proof. intros. unfold get_node. wp_steps; [done|]. done. Qed.

Lemma ci_mem c xs n : CacheInv c xs → n ∈ xs → ∃ nd, nodes c !! n = Some nd ∧ n ≠ root_.
Proof. intros HI Hn. apply (ci_xs _ _ HI) in Hn as [? [nd ?]]. eauto. Qed.

Lemma touch_wp w xs t F c now :
  world_inv w xs t F → c ∈ xs → (t ≤ now)%Z →
  wp (touch c now) w (λ _ w', (∃ xs', world_inv w' xs' now F) ∧
    strip (nodes (cache w')) = strip (nodes (cache w)) ∧ mem w' = mem w ∧
    cache_block_size (cache w') = cache_block_size (cache w) ∧
    time_of (nodes (cache w')) c = now).
Proof.
  intros [HC HT HM HB] Hc Hle.
  destruct (ci_mem _ _ _ HC Hc) as (nd&Hn&Hne).
  pose proof (ci_lru _ _ HC) as Hl.
  apply list_elem_of_split in Hc as (xs1&xs2&->).
  unfold touch, update_node. apply wp_bind, wp_bind.
  eapply get_node_wp; [done|]. unfold put_node. wp_steps. apply wp_zoom. simpl.
  eapply wp_mono; [by apply move_wp|]. intros _ ls' [Hl' Hd]. simpl.
  assert (NoDup (xs1 ++ c :: xs2)) as Hnd.
  { destruct Hl as [Hl _]. apply NoDup_cons in Hl as [_ Hl].
    by apply NoDup_app in Hl as (?&_&_). }
  assert (strip (<[c:=set_time now nd]> (nodes (cache w))) = strip (nodes (cache w))) as Hst
    by (by apply strip_insert_time).
  split; [|split; [done|split; [done|split; [done|]]]].
  - exists (xs1 ++ xs2 ++ [c]). split; simpl; [|..|done].
    + split; simpl; try apply HC.
      * by eapply TreeInv_strip, (ci_tree _ _ HC).
      * done.
      * intros n. assert (n ∈ xs1 ++ xs2 ++ [c] ↔ n ∈ xs1 ++ c :: xs2) as -> by set_solver.
        rewrite (ci_xs _ _ HC). split; intros [? Hs]; split; try done;
          (eapply strip_is_Some; [|exact Hs]); congruence.
      * intros n [Hs|Hs]; apply (ci_fresh _ _ HC).
        -- left. eapply strip_is_Some; [|exact Hs]. done.
        -- right. by rewrite <- elem_of_dom, <- Hd, elem_of_dom.
      * rewrite (ci_num_nodes _ _ HC), !length_app. simpl. lia.
      * rewrite (cache_handles_strip _ (nodes (cache w))); [apply HC|done].
    + rewrite app_assoc. eapply TimeInv_snoc; [|done|..].
      * eapply TimeInv_sublist, HT. apply sublist_app; [done|]. by constructor.
      * destruct HT as [_ Hb]. specialize (Hb c). set_solver by lia.
      * intros n Hn'. rewrite time_of_insert, decide_False; [done|]. intros <-.
        apply NoDup_app in Hnd as (?&?&Hnd). apply NoDup_cons in Hnd as [? _]. set_solver.
      * rewrite time_of_insert, decide_True by done. done.
    + by rewrite (cache_handles_strip _ (nodes (cache w))).
  - rewrite time_of_insert, decide_True by done. done.
Qed.

(** ** Splitting a node *)

Definition set_parents (p : positive) (cs : list positive) (ns : gmap positive Node) :
    gmap positive Node :=
  map_imap (λ n nd, Some (if decide (n ∈ cs) then set_parent (Some p) nd else nd)) ns.

Lemma set_parents_lookup p cs ns n :
  set_parents p cs ns !! n =
    (λ nd, if decide (n ∈ cs) then set_parent (Some p) nd else nd) <$> ns !! n.
Proof. unfold set_parents. rewrite map_lookup_imap. by destruct (ns !! n). Qed.

Lemma set_parents_snoc p cs c ns nd :
  ns !! c = Some nd →
  set_parents p (cs ++ [c]) ns =
    <[c := set_parent (Some p) (if decide (c ∈ cs) then set_parent (Some p) nd else nd)]>
      (set_parents p cs ns).
Proof.
  intros Hc. apply map_eq. intros n. rewrite lookup_insert, !set_parents_lookup.
  destruct (decide (c = n)) as [<-|Hne].
  - rewrite Hc. simpl. rewrite decide_True by set_solver. by case_decide.
  - destruct (ns !! n) as [x|]; [simpl|done]. f_equal.
    repeat case_decide; set_solver.
Qed.

Lemma set_parents_nil p ns : set_parents p [] ns = ns.
Proof.
  apply map_eq. intros n. rewrite set_parents_lookup.
  by destruct (ns !! n).
Qed.

Lemma set_parents_handles p cs ns :
  (∀ c, c ∈ cs → is_Some (ns !! c)) → cache_handles (set_parents p cs ns) ≡ₚ cache_handles ns.
Proof.
  induction cs as [|c cs IH] using rev_ind; intros Hcs; [by rewrite set_parents_nil|].
  destruct (Hcs c) as [nd Hc]; [set_solver|]. rewrite (set_parents_snoc p cs c ns nd Hc).
  assert (set_parents p cs ns !! c = Some (if decide (c ∈ cs) then set_parent (Some p) nd else nd))
    as Hl by (by rewrite set_parents_lookup, Hc).
  rewrite (cache_handles_insert_same _ _ _ _ Hl) by done. apply IH. set_solver.
Qed.

(** The loop that points the grand-children at their new parent. *)
Lemma set_parents_wp p cs w (Q : unit → World → Prop) :
  (∀ c, c ∈ cs → is_Some (nodes (cache w) !! c)) →
  Q tt (set_cache (set_nodes (set_parents p cs (nodes (cache w))) (cache w)) w) →
  wp (for_each (λ c, update_node c (set_parent (Some p))) cs) w Q.
Proof.
  intros Hcs HQ.
  apply (wp_for_each (λ dn w', w' =
    set_cache (set_nodes (set_parents p dn (nodes (cache w))) (cache w)) w)).
  - rewrite set_parents_nil. by destruct w as [m []].
  - intros dn c todo w' -> ->. destruct (Hcs c) as [nd Hc]; [set_solver|].
    unfold update_node. apply wp_bind. eapply get_node_wp.
    { simpl. by rewrite set_parents_lookup, Hc. }
    unfold put_node. wp_steps. unfold set_cache, set_nodes. simpl.
    by rewrite (set_parents_snoc p dn c _ nd Hc).
  - intros w' ->. done.
Qed.

(** The tree after [split_node]. *)
Definition split_map (ns : gmap positive Node) (node child : positive) (nd : Node) (k bs : nat) :
    gmap positive Node :=
  <[node := mkNode (take (k * bs) (token_ids nd)) (take k (blocks nd)) [child] (parent nd)
              (last_access_time nd)]>
    (set_parents child (children nd)
       (<[child := mkNode (drop (k * bs) (token_ids nd)) (drop k (blocks nd)) (children nd)
                     (Some node) (last_access_time nd)]> ns)).

Section split.
Context (bs : nat) (ns : gmap positive Node) (node child : positive) (nd : Node) (k : nat).
Context (Hbs : 0 < bs) (HT : TreeInv bs ns) (Hnode : ns !! node = Some nd)
  (Hroot : node ≠ root_) (Hfresh : ns !! child = None)
  (Hk : 0 < k < length (blocks nd)).

Let ns' := split_map ns node child nd k bs.

Lemma split_not_child : (node ∉ children nd) ∧ (child ∉ children nd) ∧ node ≠ child.
Proof using All.
  split_and!.
  - intros Hc. destruct (ti_rank _ _ HT) as [rank Hr]. pose proof (Hr _ _ _ Hnode Hc). lia.
  - intros Hc. destruct (ti_child _ _ HT _ _ _ Hnode Hc) as (_&cd&?&_). congruence.
  - congruence.
Qed.

Lemma split_child_not_root : child ≠ root_.
Proof using All. destruct (ti_root _ _ HT) as (r&?&_). congruence. Qed.

(** Every node of the new tree is the truncated node, the new child, or an old
    node whose parent may have changed. *)
Lemma split_lookup n x : ns' !! n = Some x →
  (n = node ∧ token_ids x = take (k * bs) (token_ids nd) ∧ blocks x = take k (blocks nd) ∧
     children x = [child] ∧ parent x = parent nd) ∨
  (n = child ∧ token_ids x = drop (k * bs) (token_ids nd) ∧ blocks x = drop k (blocks nd) ∧
     children x = children nd ∧ parent x = Some node) ∨
  (n ≠ node ∧ n ≠ child ∧ ∃ y, ns !! n = Some y ∧ token_ids x = token_ids y ∧
     blocks x = blocks y ∧ children x = children y ∧
     parent x = if decide (n ∈ children nd) then Some child else parent y).
Proof using All.
  destruct split_not_child as (Hn1&Hn2&Hn3). unfold ns', split_map.
  rewrite lookup_insert, set_parents_lookup, lookup_insert.
  destruct (decide (node = n)) as [<-|]; [intros [= <-]; left; done|].
  destruct (decide (child = n)) as [<-|]; simpl.
  - rewrite decide_False by done. intros [= <-]. right; left. done.
  - intros (y&Hy&->)%fmap_Some. right; right. split_and!; [done..|].
    exists y. by case_decide.
Qed.

Lemma split_lookup_old n y : ns !! n = Some y → n ≠ node →
  ∃ x, ns' !! n = Some x ∧ token_ids x = token_ids y ∧ blocks x = blocks y ∧
    children x = children y ∧ parent x = if decide (n ∈ children nd) then Some child else parent y.
Proof using All.
  intros Hn Hne. unfold ns', split_map.
  rewrite lookup_insert_ne, set_parents_lookup, lookup_insert_ne, Hn by congruence.
  eexists. split; [done|]. by case_decide.
Qed.

Lemma split_lookup_node : ∃ x, ns' !! node = Some x ∧
  token_ids x = take (k * bs) (token_ids nd) ∧ blocks x = take k (blocks nd) ∧
  children x = [child] ∧ parent x = parent nd ∧ last_access_time x = last_access_time nd.
Proof using All. unfold ns', split_map. rewrite lookup_insert_eq. eexists. done. Qed.

Lemma split_lookup_child : ∃ x, ns' !! child = Some x ∧
  token_ids x = drop (k * bs) (token_ids nd) ∧ blocks x = drop k (blocks nd) ∧
  children x = children nd ∧ parent x = Some node ∧ last_access_time x = last_access_time nd.
Proof using All.
  destruct split_not_child as (_&Hn2&Hn3). unfold ns', split_map.
  rewrite lookup_insert_ne, set_parents_lookup, lookup_insert_eq by done. simpl.
  rewrite decide_False by done. eexists. done.
Qed.

Lemma split_tree_root : ∃ r, ns' !! root_ = Some r ∧ token_ids r = [] ∧ blocks r = [].
Proof using All.
  destruct (ti_root _ _ HT) as (r&Hr&Ht&Hb).
  destruct (split_lookup_old root_ r Hr) as (x&Hx&?&?&_); [done|].
  exists x. split_and!; congruence.
Qed.

Lemma split_tree_node : ∀ n x, ns' !! n = Some x → n ≠ root_ →
  length (token_ids x) = length (blocks x) * bs ∧ blocks x ≠ [] ∧
  ∃ p pn, parent x = Some p ∧ ns' !! p = Some pn ∧ n ∈ children pn.
Proof using All.
  destruct split_not_child as (Hn1&Hn2&Hn3). pose proof split_child_not_root as Hcr.
  destruct (ti_node _ _ HT _ _ Hnode Hroot) as (Hlen&Hbl&p0&pn0&Hp0&Hpn0&Hin0).
  intros n x Hx Hne.
  destruct (split_lookup n x Hx) as [(->&Ht&Hb&_&Hp)|[(->&Ht&Hb&_&Hp)|(Hn&Hn'&y&Hy&Ht&Hb&_&Hp)]].
  + rewrite Ht, Hb, !length_take. split_and!.
    * assert (k * bs ≤ length (token_ids nd)) by nia. lia.
    * intros Hnil. apply (f_equal length) in Hnil. rewrite length_take in Hnil. simpl in Hnil. lia.
    * assert (p0 ≠ node) by (intros ->; congruence).
      destruct (split_lookup_old p0 pn0 Hpn0) as (x'&Hx'&_&_&Hc'&_); [done|].
      exists p0, x'. rewrite Hp, Hc'. done.
  + rewrite Ht, Hb, !length_drop. split_and!.
    * nia.
    * intros Hnil. apply (f_equal length) in Hnil. rewrite length_drop in Hnil. simpl in Hnil. lia.
    * destruct split_lookup_node as (x'&Hx'&_&_&Hc'&_). exists node, x'.
      rewrite Hp, Hc'. set_solver.
  + destruct (ti_node _ _ HT n y Hy Hne) as (?&?&p&pn&Hpp&Hpn&Hin).
    rewrite Ht, Hb, Hp. split_and!; [done..|]. case_decide as Hdec.
    * destruct split_lookup_child as (x'&Hx'&_&_&Hc'&_). exists child, x'. by rewrite Hc'.
    * assert (p ≠ node) by congruence.
      destruct (split_lookup_old p pn Hpn) as (x'&Hx'&_&_&Hc'&_); [done|].
      exists p, x'. by rewrite Hc'.
Qed.

Lemma split_tree_child : ∀ n x c, ns' !! n = Some x → c ∈ children x →
  c ≠ root_ ∧ ∃ cd, ns' !! c = Some cd ∧ parent cd = Some n.
Proof using All.
  destruct split_not_child as (Hn1&Hn2&Hn3). pose proof split_child_not_root as Hcr.
  intros n x c Hx Hc.
  destruct (split_lookup n x Hx) as [(->&_&_&Hcx&_)|[(->&_&_&Hcx&_)|(Hn&Hn'&y&Hy&_&_&Hcx&_)]];
    rewrite Hcx in Hc.
  + apply list_elem_of_singleton in Hc as ->. split; [done|].
    destruct split_lookup_child as (x'&?&_&_&_&?&_). eauto.
  + destruct (ti_child _ _ HT _ _ _ Hnode Hc) as (?&cd&Hcd&_). split; [done|].
    destruct (split_lookup_old c cd Hcd) as (x'&?&_&_&_&Hp'); [congruence|].
    rewrite decide_True in Hp' by done. eauto.
  + destruct (ti_child _ _ HT _ _ _ Hy Hc) as (?&cd&Hcd&Hpc). split; [done|].
    destruct (decide (c = node)) as [->|Hcn].
    * destruct split_lookup_node as (x'&?&_&_&_&?&_). exists x'. split; congruence.
    * destruct (split_lookup_old c cd Hcd Hcn) as (x'&?&_&_&_&Hp').
      rewrite decide_False in Hp'; [exists x'; split; congruence|]. intros Hc'.
      destruct (ti_child _ _ HT _ _ _ Hnode Hc') as (_&cd'&?&?). congruence.
Qed.

Lemma split_tree_nodup : ∀ n x, ns' !! n = Some x → NoDup (children x).
Proof using All.
  intros n x Hx.
  destruct (split_lookup n x Hx) as [(->&_&_&Hcx&_)|[(->&_&_&Hcx&_)|(Hn&Hn'&y&Hy&_&_&Hcx&_)]];
    rewrite Hcx; [apply NoDup_singleton|by eapply ti_nodup..].
Qed.

Lemma split_tree_sibling : ∀ n x c1 c2 d1 d2, ns' !! n = Some x →
  c1 ∈ children x → c2 ∈ children x → ns' !! c1 = Some d1 → ns' !! c2 = Some d2 →
  take bs (token_ids d1) = take bs (token_ids d2) → c1 = c2.
Proof using All.
  destruct split_not_child as (Hn1&Hn2&Hn3). pose proof split_child_not_root as Hcr.
  intros n x c1 c2 d1 d2 Hx Hc1 Hc2 Hd1 Hd2 Heq.
  destruct (split_lookup n x Hx) as [(->&_&_&Hcx&_)|[(->&_&_&Hcx&_)|(Hn&Hn'&y&Hy&_&_&Hcx&_)]];
    rewrite Hcx in Hc1, Hc2; [set_solver|..].
  + assert (∀ c d, c ∈ children nd → ns' !! c = Some d →
      ∃ d0, ns !! c = Some d0 ∧ token_ids d = token_ids d0) as Hold.
    { intros c d Hc Hd. destruct (ti_child _ _ HT _ _ _ Hnode Hc) as (_&d0&Hd0&_).
      destruct (split_lookup_old c d0 Hd0) as (x'&?&?&_); [congruence|].
      exists d0. split; congruence. }
    destruct (Hold _ _ Hc1 Hd1) as (e1&?&He1), (Hold _ _ Hc2 Hd2) as (e2&?&He2).
    rewrite He1, He2 in Heq. eapply (ti_sibling _ _ HT node nd); eauto.
  + assert (∀ c d, c ∈ children y → ns' !! c = Some d →
      ∃ d0, ns !! c = Some d0 ∧ take bs (token_ids d) = take bs (token_ids d0)) as Hold.
    { intros c d Hc Hd. destruct (ti_child _ _ HT _ _ _ Hy Hc) as (_&d0&Hd0&_).
      exists d0. split; [done|]. destruct (decide (c = node)) as [->|Hcn].
      - destruct split_lookup_node as (x'&Hx'&Ht'&_). simplify_eq.
        rewrite Ht'. apply take_take_le. nia.
      - destruct (split_lookup_old c d0 Hd0 Hcn) as (x'&?&?&_). simplify_eq. congruence. }
    destruct (Hold _ _ Hc1 Hd1) as (e1&?&He1), (Hold _ _ Hc2 Hd2) as (e2&?&He2).
    rewrite He1, He2 in Heq. eapply (ti_sibling _ _ HT n y); eauto.
Qed.

Lemma split_tree_rank : ∃ rank : positive → nat, ∀ n x c, ns' !! n = Some x →
  c ∈ children x → rank n < rank c.
Proof using All.
  destruct split_not_child as (Hn1&Hn2&Hn3). pose proof split_child_not_root as Hcr.
  destruct (ti_rank _ _ HT) as [rank Hr].
  exists (λ n, if decide (n = child) then 2 * rank node + 1 else 2 * rank n).
  intros n x c Hx Hc.
  destruct (split_lookup n x Hx) as [(->&_&_&Hcx&_)|[(->&_&_&Hcx&_)|(Hn&Hn'&y&Hy&_&_&Hcx&_)]];
    rewrite Hcx in Hc.
  + apply list_elem_of_singleton in Hc as ->.
    rewrite decide_False, decide_True by done. lia.
  + rewrite decide_True, decide_False by congruence. pose proof (Hr _ _ _ Hnode Hc). lia.
  + destruct (ti_child _ _ HT _ _ _ Hy Hc) as (_&cd&?&_).
    rewrite !decide_False by congruence. pose proof (Hr _ _ _ Hy Hc). lia.
Qed.

Lemma split_tree : TreeInv bs ns'.
Proof using All.
  split; [apply split_tree_root|apply split_tree_node|apply split_tree_child
    |apply split_tree_nodup|apply split_tree_sibling|apply split_tree_rank].
Qed.

Lemma split_handles : cache_handles ns' ≡ₚ cache_handles ns.
Proof using All.
  destruct split_not_child as (Hn1&Hn2&Hn3).
  set (nc := mkNode (drop (k * bs) (token_ids nd)) (drop k (blocks nd)) (children nd)
                   (Some node) (last_access_time nd)).
  assert (set_parents child (children nd) (<[child := nc]> ns) !! node = Some nd) as Hl.
  { rewrite set_parents_lookup, lookup_insert_ne, Hnode by done. simpl.
    by rewrite decide_False. }
  unfold ns', split_map. fold nc. rewrite (cache_handles_insert _ _ _ _ Hl). simpl.
  apply (Permutation_app_inv_l (drop k (blocks nd))). rewrite (assoc_L (++)).
  rewrite (Permutation_app_comm (drop k (blocks nd))), take_drop.
  rewrite <- (cache_handles_delete _ _ _ Hl), set_parents_handles.
  - by rewrite cache_handles_insert_new.
  - intros c Hc. destruct (ti_child _ _ HT _ _ _ Hnode Hc) as (_&cd&Hcd&_).
    rewrite lookup_insert_ne by congruence. by eexists.
Qed.
End split.

(** ** New nodes *)

Lemma ci_fresh_node c xs : CacheInv c xs →
  nodes c !! next_node c = None ∧ links c !! next_node c = None ∧
  (next_node c ∉ lru_front_ :: xs ++ [lru_back_]).
Proof.
  intros HI. assert (links c !! next_node c = None) as Hl.
  { apply eq_None_not_Some. intros Hs.
    pose proof (ci_fresh _ _ HI _ (or_intror Hs)). lia. }
  split_and!; [|done|].
  - apply eq_None_not_Some. intros Hs.
    pose proof (ci_fresh _ _ HI _ (or_introl Hs)). lia.
  - intros Hin. destruct (lru_repr_dom _ _ _ (ci_lru _ _ HI) Hin). congruence.
Qed.

(** Extra pointers do not disturb the list. *)
Lemma lru_repr_insert_fresh ls xs n l :
  lru_repr ls xs → ls !! n = None → lru_repr (<[n:=l]> ls) xs.
Proof.
  intros [Hnd Hc] Hn. split; [done|]. eapply chain_mono; [| |exact Hc];
    intros a b _ _; unfold nextof, prevof; destruct (decide (n = a)) as [->|];
    rewrite ?Hn, ?lookup_insert_ne by done; done.
Qed.

(** Allocating a node and linking it at the back of the LRU list. *)
Lemma link_new_node_wp {A} w xs (k : positive → M World A) Q :
  CacheInv (cache w) xs →
  (∀ ls, lru_repr ls (xs ++ [next_node (cache w)]) →
     dom ls = {[next_node (cache w)]} ∪ dom (links (cache w)) →
     wp (k (next_node (cache w)))
        (mkWorld (mem w) (mkPrefixCache
           (<[next_node (cache w) := Node_default]> (nodes (cache w))) ls
           (Pos.succ (next_node (cache w))) (cache_block_size (cache w))
           (num_blocks_ (cache w)) (S (num_nodes_ (cache w))))) Q) →
  wp (child ← new_node;
      _ ← in_links (add_node_to_lru_back child);
      _ ← modify (λ w, set_cache (set_num_nodes (S (num_nodes_ (cache w))) (cache w)) w);
      k child) w Q.
Proof.
  intros HI HQ. destruct (ci_fresh_node _ _ HI) as (Hn&Hl&Hx).
  unfold new_node. wp_steps. apply wp_zoom. simpl.
  eapply wp_mono.
  - apply (add_back_wp _ xs); [|done|by rewrite lookup_insert_eq; eexists].
    apply lru_repr_insert_fresh; [apply HI|done].
  - intros _ ls [Hr Hd]. wp_steps. simpl. apply (HQ ls); [done|].
    rewrite Hd, dom_insert_L. done.
Qed.

(** The bookkeeping part of the invariant when one node is added. *)
Lemma CacheInv_add c xs ns ls nb :
  CacheInv c xs → let n := next_node c in
  TreeInv (cache_block_size c) ns →
  (∀ m, is_Some (ns !! m) ↔ m = n ∨ is_Some (nodes c !! m)) →
  lru_repr ls (xs ++ [n]) → dom ls = {[n]} ∪ dom (links c) →
  nb = length (cache_handles ns) →
  CacheInv (mkPrefixCache ns ls (Pos.succ n) (cache_block_size c) nb (S (num_nodes_ c)))
    (xs ++ [n]).
Proof.
  intros HI n HT Hdom Hr Hd Hnb. destruct (ci_fresh_node _ _ HI) as (Hn&Hl&Hx).
  assert (n ≠ root_) as Hroot.
  { intros Heq. destruct (ti_root _ _ (ci_tree _ _ HI)) as (r&?&_).
    unfold n in Heq. congruence. }
  split; simpl; try done.
  - apply HI.
  - intros m. rewrite elem_of_app, list_elem_of_singleton, (ci_xs _ _ HI), Hdom. naive_solver.
  - intros m [Hs|Hs].
    + apply Hdom in Hs as [->|Hs]; [lia|].
      pose proof (ci_fresh _ _ HI m (or_introl Hs)). unfold n. lia.
    + rewrite <- elem_of_dom, Hd, elem_of_union, elem_of_singleton, elem_of_dom in Hs.
      destruct Hs as [->|Hs]; [lia|].
      pose proof (ci_fresh _ _ HI m (or_intror Hs)). unfold n. lia.
  - rewrite length_app, (ci_num_nodes _ _ HI). simpl. lia.
Qed.

Lemma split_map_dom bs ns node child nd k m :
  TreeInv bs ns → ns !! node = Some nd → ns !! child = None →
  is_Some (split_map ns node child nd k bs !! m) ↔ m = child ∨ is_Some (ns !! m).
Proof.
  intros HT Hnode Hfresh. unfold split_map.
  rewrite lookup_insert, set_parents_lookup, lookup_insert.
  destruct (decide (node = m)) as [<-|].
  - rewrite Hnode. split; intros _; [right|]; by eexists.
  - rewrite fmap_is_Some. destruct (decide (child = m)) as [<-|]; [|naive_solver].
    split; intros _; [by left|by eexists].
Qed.

Lemma split_map_time bs ns node child nd k m :
  TreeInv bs ns → ns !! node = Some nd → ns !! child = None →
  time_of (split_map ns node child nd k bs) m =
    if decide (m = child) then last_access_time nd else time_of ns m.
Proof.
  intros HT Hnode Hfresh. unfold split_map. rewrite time_of_insert. simpl.
  destruct (decide (node = m)) as [<-|Hne].
  - rewrite decide_False by congruence. unfold time_of. by rewrite Hnode.
  - unfold time_of. rewrite set_parents_lookup, lookup_insert.
    destruct (decide (child = m)) as [<-|]; simpl.
    + repeat case_decide; done.
    + rewrite (decide_False (P:=m = child)) by done.
      destruct (ns !! m); simpl; [by case_decide|done].
Qed.

Lemma split_node_wp w xs t F node nd k :
  world_inv w xs t F → nodes (cache w) !! node = Some nd → node ≠ root_ →
  0 < k < length (blocks nd) → last_access_time nd = t →
  let bs := cache_block_size (cache w) in
  wp (split_node node (k * bs)) w (λ _ w',
    (∃ xs', world_inv w' xs' t F) ∧ same_sizes w w' ∧
    nodes (cache w') = split_map (nodes (cache w)) node (next_node (cache w)) nd k bs).
Proof.
  intros [HC HT HM HB] Hnode Hroot Hk Ht bs.
  pose proof (ci_bs _ _ HC) as Hbs. fold bs in Hbs.
  pose proof (ci_tree _ _ HC) as Htree.
  destruct (ci_fresh_node _ _ HC) as (Hfresh&_&_).
  destruct (ti_node _ _ Htree _ _ Hnode Hroot) as (Hlen&_&_).
  assert (k * bs < length (token_ids nd)) as Hlt by (fold bs in Hlen; nia).
  set (child := next_node (cache w)) in *.
  pose proof (split_tree bs (nodes (cache w)) node child nd k Hbs Htree Hnode Hroot Hfresh Hk) as Htree'.
  pose proof (split_handles bs (nodes (cache w)) node child nd k Hbs Htree Hnode Hroot Hfresh Hk) as Hh'.
  unfold split_node. apply wp_bind, wp_get. fold bs. apply wp_bind, wp_check.
  { rewrite Nat.Div0.mod_mul, !bool_decide_eq_true_2; [done|done|nia]. }
  rewrite Nat.div_mul by lia.
  apply wp_bind. eapply get_node_wp; [done|]. apply wp_bind, wp_check.
  { rewrite !bool_decide_eq_true_2; [done|lia|lia]. }
  apply (link_new_node_wp w xs _ _ HC). fold child. intros ls Hls Hd.
  apply wp_bind, slice_from_wp; [lia|]. apply wp_bind, slice_from_wp; [lia|].
  apply wp_bind, wp_zoom. simpl.
  eapply wp_mono; [apply (blocks_copy_wp (drop k (blocks nd)) _ _ HM)|].
  { intros b Hb. apply elem_of_app. left. apply (cache_handles_elem _ _ _ Hnode).
    by eapply elem_of_sublist, sublist_drop. }
  intros cbs m1 (->&HM1&Ha1). apply wp_bind. unfold put_node at 1. wp_steps.
  apply set_parents_wp; simpl; rewrite insert_insert_eq.
  { intros c Hc. destruct (ti_child _ _ Htree _ _ _ Hnode Hc) as (_&cd&Hcd&_).
    rewrite lookup_insert_ne by congruence. by eexists. }
  wp_steps. apply wp_zoom. simpl.
  eapply wp_mono; [apply (blocks_destroy_wp _ _ _ HM1)|].
  intros _ m2 (HM2&Hg2&_). unfold put_node. wp_steps. unfold set_cache, set_nodes. simpl.
  fold (split_map (nodes (cache w)) node child nd k bs).
  assert (block_size_ (allocator m2) = block_size_ (allocator (mem w))) as Hbs2.
  { destruct Hg2 as [_ ->]. by rewrite Ha1. }
  split; [|split; [|done]].
  - exists (xs ++ [child]). split; simpl; [| |by rewrite Hh'|congruence].
    + apply (CacheInv_add _ _ _ _ _ HC); [done| |done|done|].
      * intros m. by apply (split_map_dom bs).
      * rewrite Hh'. apply HC.
    + eapply TimeInv_snoc; [exact HT|done| | |].
      * destruct HT as [_ Hb]. assert (node ∈ xs) as Hin
          by (apply (ci_xs _ _ HC); split; [done|by eexists]).
        specialize (Hb _ Hin). unfold time_of in Hb. rewrite Hnode in Hb. simpl in Hb. lia.
      * intros n Hn. rewrite (split_map_time bs) by done. rewrite decide_False; [done|].
        intros ->. apply (ci_xs _ _ HC) in Hn as [_ [? ?]]. congruence.
      * rewrite (split_map_time bs), decide_True by done. done.
  - split; [done|]. simpl. destruct Hg2 as [Hg _]. split; [|done].
    rewrite Hg. unfold num_total_blocks. by rewrite Ha1.
Qed.

(** ** Creating a leaf *)

Definition create_map (ns : gmap positive Node) (node child : positive) (nd : Node)
    (tokens : list Z) (bl : list Block) (now : Z) : gmap positive Node :=
  <[node := set_children (children nd ++ [child]) nd]>
    (<[child := mkNode tokens bl [] (Some node) now]> ns).

Section create.
Context (bs : nat) (ns : gmap positive Node) (node child : positive) (nd : Node)
  (tokens : list Z) (bl : list Block) (now : Z).
Context (HT : TreeInv bs ns) (Hnode : ns !! node = Some nd) (Hfresh : ns !! child = None)
  (Hlen : length tokens = length bl * bs) (Hne : tokens ≠ [])
  (Hsib : ∀ c cd, c ∈ children nd → ns !! c = Some cd →
    take bs tokens ≠ take bs (token_ids cd)).

Let ns' := create_map ns node child nd tokens bl now.
Let ndc := mkNode tokens bl [] (Some node) now.
Let nd' := set_children (children nd ++ [child]) nd.

Lemma create_lookup n : ns' !! n =
  if decide (n = node) then Some nd' else if decide (n = child) then Some ndc else ns !! n.
Proof using All.
  unfold ns', create_map. rewrite !lookup_insert.
  repeat case_decide; congruence || done.
Qed.

(** Every node of the new tree is the new leaf or an old node, whose children
    may have grown. *)
Lemma create_lookup_inv n x : ns' !! n = Some x →
  (n = child ∧ x = ndc) ∨
  (n ≠ child ∧ ∃ y, ns !! n = Some y ∧ token_ids x = token_ids y ∧ blocks x = blocks y ∧
     parent x = parent y ∧ children x = children y ++ (if decide (n = node) then [child] else [])).
Proof using All.
  rewrite create_lookup. repeat case_decide; intros Hx; simplify_eq.
  - right. split; [congruence|]. exists nd. done.
  - by left.
  - right. split; [done|]. exists x. by rewrite app_nil_r.
Qed.

Lemma create_lookup_old n y : ns !! n = Some y →
  ∃ x, ns' !! n = Some x ∧ token_ids x = token_ids y ∧ blocks x = blocks y ∧
     parent x = parent y ∧ children x = children y ++ (if decide (n = node) then [child] else []).
Proof using All.
  intros Hn. rewrite create_lookup. repeat case_decide; subst; simplify_eq; eexists;
    (split; [done|]); rewrite ?app_nil_r; done.
Qed.

Lemma create_child_root : child ≠ root_.
Proof using All. destruct (ti_root _ _ HT) as (r&?&_). congruence. Qed.

Lemma create_tree_node n x : ns' !! n = Some x → n ≠ root_ →
  length (token_ids x) = length (blocks x) * bs ∧ blocks x ≠ [] ∧
  ∃ p pn, parent x = Some p ∧ ns' !! p = Some pn ∧ n ∈ children pn.
Proof using All.
  intros Hx Hr. destruct (create_lookup_inv n x Hx) as [[-> ->]|(Hn&y&Hy&Ht&Hb&Hp&_)].
  - split_and!; [done| |].
    + simpl. intros ->. destruct tokens; [done|]. simpl in Hlen. lia.
    + exists node, nd'. rewrite create_lookup, decide_True by done. simpl. set_solver.
  - destruct (ti_node _ _ HT n y Hy Hr) as (?&?&p&pn&?&Hpn&Hin).
    rewrite Ht, Hb, Hp. split_and!; [done..|].
    destruct (create_lookup_old p pn Hpn) as (pn'&?&_&_&_&Hc).
    exists p, pn'. rewrite Hc. set_solver.
Qed.

Lemma create_tree_child n x c : ns' !! n = Some x → c ∈ children x →
  c ≠ root_ ∧ ∃ cd, ns' !! c = Some cd ∧ parent cd = Some n.
Proof using All.
  intros Hx Hc. destruct (create_lookup_inv n x Hx) as [[-> ->]|(Hn&y&Hy&_&_&_&Hcx)];
    [set_solver|]. rewrite Hcx in Hc. apply elem_of_app in Hc as [Hc|Hc].
  - destruct (ti_child _ _ HT n y c Hy Hc) as (?&cd&Hcd&?).
    destruct (create_lookup_old c cd Hcd) as (cd'&?&_&_&?&_).
    split; [done|]. exists cd'. split; congruence.
  - case_decide as Hd; [|set_solver]. apply list_elem_of_singleton in Hc as ->.
    split; [apply create_child_root|]. exists ndc. subst.
    rewrite create_lookup, decide_False, decide_True by congruence. done.
Qed.

Lemma create_tree_nodup n x : ns' !! n = Some x → NoDup (children x).
Proof using All.
  intros Hx. destruct (create_lookup_inv n x Hx) as [[-> ->]|(Hn&y&Hy&_&_&_&Hcx)];
    [constructor|]. rewrite Hcx. pose proof (ti_nodup _ _ HT n y Hy) as Hnd.
  case_decide; [|by rewrite app_nil_r]. apply NoDup_app. split_and!; [done| |apply NoDup_singleton].
  intros c Hc ->%list_elem_of_singleton.
  destruct (ti_child _ _ HT n y child Hy Hc) as (_&cd&?&_). congruence.
Qed.

Lemma create_tree_sibling n x c1 c2 d1 d2 : ns' !! n = Some x →
  c1 ∈ children x → c2 ∈ children x → ns' !! c1 = Some d1 → ns' !! c2 = Some d2 →
  take bs (token_ids d1) = take bs (token_ids d2) → c1 = c2.
Proof using All.
  intros Hx Hc1 Hc2 Hd1 Hd2 Heq.
  destruct (create_lookup_inv n x Hx) as [[-> ->]|(Hn&y&Hy&_&_&_&Hcx)]; [set_solver|].
  assert (∀ c d, c ∈ children x → ns' !! c = Some d →
    (c = child ∧ n = node ∧ token_ids d = tokens) ∨
    (c ∈ children y ∧ ∃ e, ns !! c = Some e ∧ token_ids d = token_ids e)) as Hold.
  { intros c d Hc Hd. rewrite Hcx in Hc. apply elem_of_app in Hc as [Hc|Hc].
    - right. split; [done|]. destruct (ti_child _ _ HT n y c Hy Hc) as (_&e&He&_).
      destruct (create_lookup_old c e He) as (d'&?&?&_). exists e. split; congruence.
    - case_decide; [|set_solver]. apply list_elem_of_singleton in Hc as ->.
      left. rewrite create_lookup, decide_False, decide_True in Hd by congruence.
      by simplify_eq. }
  destruct (Hold _ _ Hc1 Hd1) as [(Hq1&Hm1&Ht1)|(Hi1&e1&He1&Ht1)],
    (Hold _ _ Hc2 Hd2) as [(Hq2&Hm2&Ht2)|(Hi2&e2&He2&Ht2)]; [congruence|..];
    rewrite Ht1, Ht2 in Heq.
  - assert (y = nd) as -> by congruence. exfalso. by eapply Hsib.
  - assert (y = nd) as -> by congruence. exfalso. by eapply Hsib.
  - eapply (ti_sibling _ _ HT n y); eauto.
Qed.

Lemma create_tree : TreeInv bs ns'.
Proof using All.
  split; [|apply create_tree_node|apply create_tree_child|apply create_tree_nodup
          |apply create_tree_sibling|].
  - destruct (ti_root _ _ HT) as (r&Hr&?&?).
    destruct (create_lookup_old _ _ Hr) as (x&?&?&?&_). exists x. split_and!; congruence.
  - destruct (ti_rank _ _ HT) as [rank Hr].
    exists (λ n, if decide (n = child) then S (rank node) else rank n).
    intros n x c Hx Hc.
    destruct (create_lookup_inv n x Hx) as [[-> ->]|(Hn&y&Hy&_&_&_&Hcx)]; [set_solver|].
    rewrite Hcx in Hc. apply elem_of_app in Hc as [Hc|Hc].
    + destruct (ti_child _ _ HT n y c Hy Hc) as (_&cd&?&_).
      rewrite !decide_False by congruence. eauto.
    + case_decide; [|set_solver]. apply list_elem_of_singleton in Hc as ->.
      rewrite decide_False, decide_True by done. subst. lia.
Qed.

Lemma create_handles : cache_handles ns' ≡ₚ bl ++ cache_handles ns.
Proof using All.
  unfold ns', create_map. rewrite (cache_handles_insert_same _ _ nd), cache_handles_insert_new; try done.
  rewrite lookup_insert_ne by congruence. done.
Qed.
End create.

Lemma create_child_wp w xs t F node nd tokens bl now :
  world_inv w xs t F → nodes (cache w) !! node = Some nd →
  let bs := cache_block_size (cache w) in
  length tokens = length bl * bs → tokens ≠ [] → bl ⊆ F →
  (∀ c cd, c ∈ children nd → nodes (cache w) !! c = Some cd →
     take bs tokens ≠ take bs (token_ids cd)) →
  (t ≤ now)%Z → (0 ≤ now)%Z →
  wp (create_child node tokens bl now) w (λ _ w',
    (∃ xs', world_inv w' xs' now F) ∧ same_sizes w w' ∧ allocator (mem w') = allocator (mem w) ∧
    nodes (cache w') = create_map (nodes (cache w)) node (next_node (cache w)) nd tokens bl now).
Proof.
  intros [HC HT HM HB] Hnode bs Hlen Hne Hbl Hsib Hle Hnow.
  pose proof (ci_tree _ _ HC) as Htree.
  destruct (ci_fresh_node _ _ HC) as (Hfresh&_&_).
  set (child := next_node (cache w)) in *.
  pose proof (create_tree bs (nodes (cache w)) node child nd tokens bl now Htree Hnode Hfresh
    Hlen Hne Hsib) as Htree'.
  pose proof (create_handles bs (nodes (cache w)) node child nd tokens bl now Htree Hnode Hfresh
    Hlen Hne Hsib) as Hh'.
  unfold create_child. apply wp_bind, wp_get. fold bs. apply wp_bind, wp_check.
  { by rewrite !bool_decide_eq_true_2. }
  apply (link_new_node_wp w xs _ _ HC). fold child. intros ls Hls Hd.
  wp_steps. apply wp_zoom. simpl.
  eapply wp_mono; [apply (blocks_copy_wp bl _ _ HM); set_solver|].
  intros cbs m1 (->&HM1&Ha1). unfold put_node at 1. wp_steps. simpl.
  unfold update_node. wp_steps. eapply get_node_wp.
  { simpl. rewrite insert_insert_eq, lookup_insert_ne by congruence. done. }
  unfold put_node. wp_steps. unfold set_cache, set_nodes. simpl. rewrite insert_insert_eq.
  fold (create_map (nodes (cache w)) node child nd tokens bl now).
  split; [|split_and!; [split; [done|]|done..]].
  - exists (xs ++ [child]). split; simpl; [| | |by rewrite Ha1].
    + apply (CacheInv_add _ _ _ _ _ HC); [done| |done|done|].
      * intros m. rewrite (create_lookup bs) by done.
        repeat case_decide; subst; [|split; intros _; [by left|by eexists]|naive_solver].
        split; intros _; [|by eexists]. right. by eexists.
      * rewrite Hh', length_app, (ci_num_blocks _ _ HC). lia.
    + eapply TimeInv_snoc; [exact HT|done|done| |].
      * intros n Hn. apply (ci_xs _ _ HC) in Hn as [_ [x Hx]]. unfold time_of.
        rewrite (create_lookup bs) by done. rewrite Hx.
        repeat case_decide; [|congruence|done]. subst. simplify_eq. done.
      * unfold time_of. rewrite (create_lookup bs) by done.
        rewrite decide_False, decide_True by congruence. done.
    + rewrite Hh'. by rewrite <- app_assoc.
  - unfold same_geometry, num_total_blocks; simpl. by rewrite Ha1.
Qed.
