(* ===== verification/PrefixCacheSpec.v ===== *)
(** * The prefix cache: what [match] and [insert] compute

    The abstract content of the cache is the relation [cached]: the block-aligned
    token prefixes the tree holds, with their blocks.  [match] returns the
    blocks of the longest cached prefix and leaves the content as it is;
    [insert] extends it so that the inserted tokens are cached to the last whole
    block.  Neither fails, and neither depends on the order in which the hash
    set of children is iterated. *)

From stdpp Require Import base tactics list gmap strings sorting.
From S2P Require Import Prelude Slice Block Lru PrefixCache PrefixCacheInv.

(** ** The abstract content *)

(** Below node [n] the tree spells the tokens [t], block by block, with blocks
    [b]. *)
Inductive descends (bs : nat) (ns : gmap positive Node) : positive → list Z → list Block → Prop :=
  | descends_nil n : descends bs ns n [] []
  | descends_part n nd c cd k :
      ns !! n = Some nd → c ∈ children nd → ns !! c = Some cd → 0 < k ≤ length (blocks cd) →
      descends bs ns n (take (k * bs) (token_ids cd)) (take k (blocks cd))
  | descends_full n nd c cd t b :
      ns !! n = Some nd → c ∈ children nd → ns !! c = Some cd → descends bs ns c t b →
      descends bs ns n (token_ids cd ++ t) (blocks cd ++ b).

Definition cached (c : PrefixCache) (t : list Z) (b : list Block) : Prop :=
  descends (cache_block_size c) (nodes c) root_ t b.

Lemma descends_strip bs ns ns' n t b :
  strip ns = strip ns' → descends bs ns n t b → descends bs ns' n t b.
Proof.
  intros Heq H. induction H as [n|n nd c cd k Hn Hc Hcd Hk|n nd c cd t b Hn Hc Hcd _ IH];
    [constructor|..];
    destruct (strip_lookup _ _ _ _ Heq Hn) as (nd'&Hn'&_&_&Hcn&_);
    destruct (strip_lookup _ _ _ _ Heq Hcd) as (cd'&Hcd'&Ht&Hb&_);
    rewrite <- Ht, <- Hb in *; rewrite <- Hcn in Hc.
  - by eapply descends_part.
  - by eapply descends_full.
Qed.

(** A node below [n] starts at a whole block, and so does what it spells. *)
Lemma descends_length bs ns n t b :
  TreeInv bs ns → descends bs ns n t b → length t = length b * bs.
Proof.
  intros HT H. induction H as [n|n nd c cd k Hn Hc Hcd Hk|n nd c cd t b Hn Hc Hcd _ IH]; [done|..];
    destruct (ti_child _ _ HT _ _ _ Hn Hc) as (Hr&_);
    destruct (ti_node _ _ HT _ _ Hcd Hr) as (Hlen&_&_).
  - rewrite !length_take. nia.
  - rewrite !length_app. lia.
Qed.

(** ** Searching the children *)

(** The child shares its first block with the tokens. *)
Definition matches (bs : nat) (tokens : list Z) (cd : Node) : Prop :=
  bs ≤ common_prefix_length tokens (token_ids cd).

Lemma find_child_wp w tokens cs (Q : option (positive * nat) → World → Prop) :
  let bs := cache_block_size (cache w) in
  0 < bs →
  (∀ c, c ∈ cs → is_Some (nodes (cache w) !! c)) →
  ((∀ c cd, c ∈ cs → nodes (cache w) !! c = Some cd → ¬ matches bs tokens cd) → Q None w) →
  (∀ c cd, c ∈ cs → nodes (cache w) !! c = Some cd → matches bs tokens cd →
     Q (Some (c, round_down (common_prefix_length tokens (token_ids cd)) bs)) w) →
  wp (find_child tokens cs) w Q.
Proof.
  intros bs Hbs. induction cs as [|c cs IH]; intros Hdom HN HS; simpl.
  { apply wp_ret, HN. set_solver. }
  destruct (Hdom c) as [cd Hcd]; [set_solver|].
  wp_steps. eapply get_node_wp; [done|]. fold bs. case_decide as Hp;
    rewrite round_down_pos in Hp by done.
  - apply wp_ret, HS; [set_solver|done|done].
  - apply IH; [set_solver| |set_solver]. intros Hall. apply HN.
    intros c' cd' [->|Hc']%elem_of_cons Hcd'; [|by eapply Hall]. simplify_eq. done.
Qed.

(** At most one child matches. *)
Lemma matches_unique bs ns tokens n nd c1 c2 d1 d2 :
  TreeInv bs ns → ns !! n = Some nd → c1 ∈ children nd → c2 ∈ children nd →
  ns !! c1 = Some d1 → ns !! c2 = Some d2 →
  matches bs tokens d1 → matches bs tokens d2 → c1 = c2.
Proof.
  unfold matches. rewrite !cpl_spec. intros HT Hn Hc1 Hc2 Hd1 Hd2 (_&_&H1) (_&_&H2).
  eapply (ti_sibling _ _ HT n nd); [done..|congruence].
Qed.

(** The iteration order of the hash set of children does not matter. *)
Lemma find_child_order w n nd tokens cs :
  let bs := cache_block_size (cache w) in
  0 < bs → TreeInv bs (nodes (cache w)) → nodes (cache w) !! n = Some nd → cs ≡ₚ children nd →
  find_child tokens cs w = find_child tokens (children nd) w.
Proof.
  intros bs Hbs HT Hn Hp.
  assert (∀ c, c ∈ children nd → is_Some (nodes (cache w) !! c)) as Hdom.
  { intros c Hc. destruct (ti_child _ _ HT _ _ _ Hn Hc) as (_&cd&?&_). by eexists. }
  assert (wp (find_child tokens cs) w (λ r w1,
    wp (find_child tokens (children nd)) w (λ r' w2, r = r' ∧ w1 = w ∧ w2 = w))) as H.
  { apply find_child_wp; [done|intros c; rewrite Hp; apply Hdom|..].
    - intros HN. apply find_child_wp; [done|done|done|]. intros c cd Hc Hcd Hm.
      exfalso. eapply HN; [by rewrite Hp|done|done].
    - intros c cd Hc Hcd Hm. rewrite Hp in Hc. apply find_child_wp; [done|done|..].
      + intros HN. exfalso. by eapply HN.
      + intros c' cd' Hc' Hcd' Hm'.
        assert (c = c') as <- by (eapply matches_unique; [exact HT|exact Hn|..]; done).
        by simplify_eq. }
  unfold wp in H. destruct (find_child tokens cs w) as [[r w1]|]; [|done].
  destruct (find_child tokens (children nd) w) as [[r' w2]|]; [|done]. naive_solver.
Qed.

(** ** The content survives a split *)

Section split_descends.
Context (bs : nat) (ns : gmap positive Node) (node child : positive) (nd : Node) (k : nat).
Context (Hbs : 0 < bs) (HT : TreeInv bs ns) (Hnode : ns !! node = Some nd)
  (Hroot : node ≠ root_) (Hfresh : ns !! child = None)
  (Hk : 0 < k < length (blocks nd)).
Local Abbreviation ns' := (split_map ns node child nd k bs).

Lemma split_tokens_le : k * bs ≤ length (token_ids nd).
Proof using All. destruct (ti_node _ _ HT _ _ Hnode Hroot) as (->&_). nia. Qed.

(** The three kinds of lookups in the new tree. *)
Let Lnode := split_lookup_node bs ns node child nd k Hbs HT Hnode Hroot Hfresh Hk.
Let Lchild := split_lookup_child bs ns node child nd k Hbs HT Hnode Hroot Hfresh Hk.
Let Lold := split_lookup_old bs ns node child nd k Hbs HT Hnode Hroot Hfresh Hk.
Let Linv := split_lookup bs ns node child nd k Hbs HT Hnode Hroot Hfresh Hk.

(** Where the children of an old node are found in the new tree. *)
Lemma split_children n y : ns !! n = Some y →
  ∃ x, ns' !! (if decide (n = node) then child else n) = Some x ∧ children x = children y.
Proof using All.
  intros Hn. case_decide as Hd.
  - subst. simplify_eq. destruct Lchild as (x&?&_&_&?&_). eauto.
  - destruct (Lold n y Hn Hd) as (x&?&_&_&?&_). eauto.
Qed.

(** The whole old node is spelled by the two halves. *)
Lemma split_descends_node m x t b :
  ns' !! m = Some x → node ∈ children x → descends bs ns' child t b →
  descends bs ns' m (token_ids nd ++ t) (blocks nd ++ b).
Proof using All.
  intros Hm Hin Hd. destruct Lnode as (xn&Hxn&Htn&Hbn&Hcn&_).
  destruct Lchild as (xc&Hxc&Htc&Hbc&_).
  rewrite <- (take_drop (k * bs) (token_ids nd)), <- (take_drop k (blocks nd)), <- !app_assoc.
  rewrite <- Htn, <- Hbn, <- Htc, <- Hbc.
  eapply descends_full; [done..|]. eapply descends_full; [done| |done|done].
  rewrite Hcn. set_solver.
Qed.

Lemma split_descends_fwd n t b :
  descends bs ns n t b → descends bs ns' (if decide (n = node) then child else n) t b.
Proof using All.
  intros H. induction H as [n|n y c cd j Hn Hc Hcd Hj|n y c cd t b Hn Hc Hcd _ IH];
    [constructor|..]; destruct (split_children n y Hn) as (x&Hx&Hcx); rewrite <- Hcx in Hc;
    (destruct (decide (c = node)) as [->|Hcn];
     [assert (cd = nd) as -> by congruence|destruct (Lold c cd Hcd Hcn) as (xc&Hxc&Ht&Hb&_)]).
  - destruct Lnode as (xn&Hxn&Htn&Hbn&Hcn&_). destruct Lchild as (xc&Hxc&Htc&Hbc&_).
    destruct (decide (j ≤ k)).
    + replace (take (j * bs) (token_ids nd)) with (take (j * bs) (token_ids xn))
        by (rewrite Htn; apply take_take_le; nia).
      replace (take j (blocks nd)) with (take j (blocks xn)) by (rewrite Hbn; by apply take_take_le).
      eapply descends_part; [done..|]. rewrite Hbn, length_take. lia.
    + replace (j * bs) with (k * bs + (j - k) * bs) by nia. replace j with (k + (j - k)) at 2 by lia.
      rewrite <- !take_take_drop, <- Htn, <- Hbn, <- Htc, <- Hbc.
      eapply descends_full; [done..|]. eapply descends_part; [done| |done|].
      * rewrite Hcn. set_solver.
      * rewrite Hbc, length_drop. lia.
  - rewrite <- Ht, <- Hb in *. by eapply descends_part.
  - by eapply split_descends_node.
  - rewrite <- Ht, <- Hb. by eapply descends_full.
Qed.

(** What the parent of the split node spells through its two halves. *)
Lemma split_upper p pn j :
  ns !! p = Some pn → node ∈ children pn → j ≤ length (blocks nd) - k →
  descends bs ns p (take (k * bs) (token_ids nd) ++ take (j * bs) (drop (k * bs) (token_ids nd)))
    (take k (blocks nd) ++ take j (drop k (blocks nd))).
Proof using All.
  intros Hp Hin Hj. rewrite !take_take_drop, <- Nat.mul_add_distr_r.
  eapply descends_part; [done..|]. lia.
Qed.

Lemma split_descends_bwd m t b :
  descends bs ns' m t b →
  (m ≠ node → descends bs ns (if decide (m = child) then node else m) t b) ∧
  (m = node → ∀ p pn, ns !! p = Some pn → node ∈ children pn →
     descends bs ns p (take (k * bs) (token_ids nd) ++ t) (take k (blocks nd) ++ b)).
Proof using All.
  destruct (split_not_child bs ns node child nd k Hbs HT Hnode Hroot Hfresh Hk) as (Hn1&Hn2&Hn3).
  destruct Lnode as (xn&Hxn&Htn&Hbn&Hcn&_). destruct Lchild as (xc&Hxc&Htc&Hbc&_).
  intros H. induction H as [m|m x c cd j Hm Hc Hcd Hj|m x c cd t b Hm Hc Hcd _ [IH1 IH2]].
  { split; [constructor|]. intros _ p pn Hp Hin. rewrite !app_nil_r.
    eapply descends_part; [done..|]. lia. }
  all: destruct (Linv m x Hm) as [(->&_&_&Hcx&_)|[(->&_&_&Hcx&_)|(Hn&Hn'&y&Hy&_&_&Hcx&_)]];
    rewrite Hcx in Hc.
  - (* part of the new child *)
    apply list_elem_of_singleton in Hc as ->. assert (cd = xc) as -> by congruence.
    split; [done|]. intros _ p pn Hp Hin. rewrite Htc, Hbc. eapply split_upper; [done..|].
    rewrite Hbc, length_drop in Hj. lia.
  - (* part of a grand-child *)
    split; [intros _|done]. rewrite decide_True by done.
    destruct (ti_child _ _ HT _ _ _ Hnode Hc) as (_&cd0&Hcd0&_).
    destruct (Lold c cd0 Hcd0) as (x'&Hx'&Ht&Hb&_); [congruence|]. simplify_eq.
    rewrite Ht, Hb in *. by eapply descends_part.
  - split; [intros _|done]. rewrite decide_False by done.
    destruct (ti_child _ _ HT _ _ _ Hy Hc) as (_&cd0&Hcd0&_).
    destruct (decide (c = node)) as [->|Hne].
    + simplify_eq. rewrite Htn, Hbn in *. rewrite length_take in Hj.
      rewrite !take_take_le by nia. eapply descends_part; [done..|]. lia.
    + destruct (Lold c cd0 Hcd0 Hne) as (x'&Hx'&Ht&Hb&_). simplify_eq.
      rewrite Ht, Hb in *. by eapply descends_part.
  - apply list_elem_of_singleton in Hc as ->. assert (cd = xc) as -> by congruence.
    split; [done|]. intros _ p pn Hp Hin. rewrite Htc, Hbc, !app_assoc, !take_drop.
    eapply descends_full; [done..|]. specialize (IH1 ltac:(congruence)).
    by rewrite decide_True in IH1.
  - split; [intros _|done]. rewrite decide_True by done.
    destruct (ti_child _ _ HT _ _ _ Hnode Hc) as (_&cd0&Hcd0&_).
    destruct (Lold c cd0 Hcd0) as (x'&Hx'&Ht&Hb&_); [congruence|]. simplify_eq.
    rewrite Ht, Hb in *. eapply descends_full; [done..|].
    specialize (IH1 ltac:(congruence)). by rewrite decide_False in IH1 by congruence.
  - split; [intros _|done]. rewrite decide_False by done.
    destruct (ti_child _ _ HT _ _ _ Hy Hc) as (_&cd0&Hcd0&_).
    destruct (decide (c = node)) as [->|Hne].
    + simplify_eq. rewrite Htn, Hbn in *. by eapply IH2.
    + destruct (Lold c cd0 Hcd0 Hne) as (x'&Hx'&Ht&Hb&_). simplify_eq.
      rewrite Ht, Hb in *. eapply descends_full; [done..|].
      specialize (IH1 Hne). by rewrite decide_False in IH1 by congruence.
Qed.

Lemma split_descends_root t b : descends bs ns' root_ t b ↔ descends bs ns root_ t b.
Proof using All.
  pose proof (split_child_not_root bs ns node child nd k Hbs HT Hnode Hroot Hfresh Hk) as Hcr.
  split; intros H.
  - destruct (split_descends_bwd _ _ _ H) as [H' _]. specialize (H' ltac:(done)).
    by rewrite decide_False in H' by done.
  - pose proof (split_descends_fwd _ _ _ H) as H'. by rewrite decide_False in H' by done.
Qed.
End split_descends.

(** ** One level of the descent *)

Lemma matched_facts bs ns tokens n nd c cd :
  0 < bs → TreeInv bs ns → ns !! n = Some nd → c ∈ children nd → ns !! c = Some cd →
  matches bs tokens cd →
  ∃ k, round_down (common_prefix_length tokens (token_ids cd)) bs = k * bs ∧
    0 < k ≤ length (blocks cd) ∧ k * bs ≤ length tokens ∧
    take (k * bs) tokens = take (k * bs) (token_ids cd) ∧
    length (token_ids cd) = length (blocks cd) * bs ∧
    (∀ j, j * bs ≤ common_prefix_length tokens (token_ids cd) → j ≤ k).
Proof.
  intros Hbs HT Hn Hc Hcd Hm. destruct (ti_child _ _ HT _ _ _ Hn Hc) as (Hr&_).
  destruct (ti_node _ _ HT _ _ Hcd Hr) as (Hlen&_&_). unfold matches in Hm.
  set (p := common_prefix_length tokens (token_ids cd)) in *.
  exists (p / bs). assert (p / bs * bs ≤ p) as Hle by (apply (round_down_le bs Hbs)).
  pose proof Hle as Hspec. apply cpl_spec in Hspec as (Hl1&Hl2&Heq).
  split_and!; try done.
  - apply Nat.div_str_pos. lia.
  - rewrite Hlen in Hl2. nia.
  - intros j Hj. apply Nat.div_le_lower_bound; lia.
Qed.

(** What can be spelled below a node along [tokens] goes through the matching
    child. *)
Lemma descends_step bs ns tokens n nd t b :
  0 < bs → TreeInv bs ns → ns !! n = Some nd →
  descends bs ns n t b → t `prefix_of` tokens →
  b = [] ∨ ∃ c cd, c ∈ children nd ∧ ns !! c = Some cd ∧ matches bs tokens cd ∧
    ((∃ j, b = take j (blocks cd) ∧ j * bs ≤ common_prefix_length tokens (token_ids cd)) ∨
     (∃ t' b', t = token_ids cd ++ t' ∧ b = blocks cd ++ b' ∧ descends bs ns c t' b' ∧
        length (token_ids cd) ≤ common_prefix_length tokens (token_ids cd))).
Proof.
  intros Hbs HT Hn Hd [rest ->].
  inversion Hd as [|n' nd' c cd k Hn' Hc Hcd Hk|n' nd' c cd t' b' Hn' Hc Hcd Hd']; subst;
    [by left|right|right]; simplify_eq;
    destruct (ti_child _ _ HT _ _ _ Hn Hc) as (Hr&_);
    destruct (ti_node _ _ HT _ _ Hcd Hr) as (Hlen&Hne&_); exists c, cd; (split; [done|split; [done|]]).
  - assert (k * bs ≤ common_prefix_length (take (k * bs) (token_ids cd) ++ rest) (token_ids cd)) as Hcpl.
    { apply cpl_spec. rewrite length_app, length_take, take_app_le, take_take_le by (rewrite ?length_take; nia).
      split_and!; [nia|nia|done]. }
    split; [unfold matches; nia|left]. by exists k.
  - assert (length (token_ids cd) ≤ common_prefix_length ((token_ids cd ++ t') ++ rest) (token_ids cd)) as Hcpl.
    { apply cpl_spec. rewrite !length_app, <- app_assoc, take_app_length, take_ge by done.
      split_and!; [lia|lia|done]. }
    split; [|right; by exists t', b'].
    unfold matches. assert (0 < length (blocks cd)) by (destruct (blocks cd); [done|simpl; lia]). nia.
Qed.

(** ** match *)

Lemma in_world w m : set_mem m w = mkWorld m (cache w).
Proof. done. Qed.

Definition match_post (w : World) (curr : positive) (toks : list Z) (acc : list Block) (now : Z)
    (F r : list Block) (w' : World) : Prop :=
  let bs := cache_block_size (cache w) in let ns := nodes (cache w) in
  ∃ found, r = acc ++ found ∧ world_ok w' now (found ++ F) ∧ same_sizes w w' ∧
    length found * bs ≤ length toks ∧
    descends bs ns curr (take (length found * bs) toks) found ∧
    (∀ t' b', descends bs ns curr t' b' → t' `prefix_of` toks → b' `prefix_of` found) ∧
    (∀ t b, cached (cache w') t b ↔ cached (cache w) t b) ∧
    cache_handles (nodes (cache w')) ≡ₚ cache_handles (nodes (cache w)).

(** No child matches: nothing more can be found. *)
Lemma match_post_stop w curr cn toks acc now F :
  let bs := cache_block_size (cache w) in
  0 < bs → TreeInv bs (nodes (cache w)) → nodes (cache w) !! curr = Some cn → world_ok w now F →
  (∀ c cd, c ∈ children cn → nodes (cache w) !! c = Some cd → ¬ matches bs toks cd) →
  match_post w curr toks acc now F acc w.
Proof.
  intros bs Hbs HT Hn Hw Hno. exists []. fold bs. simpl. rewrite app_nil_r.
  split_and!; try done; [lia|constructor|].
  intros t' b' Hd Hp. destruct (descends_step bs _ toks curr cn t' b' Hbs HT Hn Hd Hp) as [->|H]; [done|].
  destruct H as (c&cd&Hc&Hcd&Hm&_). exfalso. by eapply Hno.
Qed.

(** Prepending the blocks of a fully matched child. *)
Lemma match_post_full w w1 curr cn c cd toks acc now F r w' :
  let bs := cache_block_size (cache w) in
  0 < bs → TreeInv bs (nodes (cache w)) → nodes (cache w) !! curr = Some cn →
  c ∈ children cn → nodes (cache w) !! c = Some cd → matches bs toks cd →
  length (token_ids cd) ≤ common_prefix_length toks (token_ids cd) →
  strip (nodes (cache w1)) = strip (nodes (cache w)) → same_sizes w w1 →
  match_post w1 c (drop (length (token_ids cd)) toks) (acc ++ blocks cd) now (blocks cd ++ F) r w' →
  match_post w curr toks acc now F r w'.
Proof.
  intros bs Hbs HT Hn Hc Hcd Hm Hfull Hst Hsz Hpost.
  destruct (ti_child _ _ HT _ _ _ Hn Hc) as (Hr&_).
  destruct (ti_node _ _ HT _ _ Hcd Hr) as (Hlen&_&_).
  pose proof Hfull as Hspec. apply cpl_spec in Hspec as (Hl1&_&Heq). rewrite (take_ge (token_ids cd)) in Heq by done.
  destruct Hpost as (found&->&Hw'&Hs'&Hle&Hd&Hmax&Hcache&Hh).
  assert (cache_block_size (cache w1) = bs) as Hbs1 by apply Hsz.
  rewrite Hbs1, length_drop in *. exists (blocks cd ++ found). fold bs.
  rewrite length_app, Nat.mul_add_distr_r, <- Hlen, <- take_take_drop, Heq. split_and!.
  - by rewrite app_assoc.
  - assert ((blocks cd ++ found) ++ F ≡ₚ found ++ blocks cd ++ F) as -> by solve_Permutation. done.
  - by etrans.
  - lia.
  - eapply descends_full; [done..|]. by eapply descends_strip.
  - intros t' b' Hd' Hp. destruct (descends_step bs _ toks curr cn t' b' Hbs HT Hn Hd' Hp) as [->|H].
    { apply prefix_nil. }
    destruct H as (c'&cd'&Hc'&Hcd'&Hm'&Hor).
    assert (c' = c) as -> by (eapply matches_unique; [exact HT|exact Hn|..]; done). simplify_eq.
    destruct Hor as [(j&->&_)|(t''&b''&->&->&Hd''&_)].
    + eapply prefix_app_r, prefix_take.
    + apply prefix_app. eapply Hmax; [by eapply descends_strip|].
      destruct Hp as [rest ->]. rewrite <- app_assoc, drop_app_length. by apply prefix_app_r.
  - intros t b. rewrite Hcache. unfold cached. rewrite Hbs1.
    split; apply descends_strip; congruence.
  - rewrite Hh. by rewrite (cache_handles_strip _ _ Hst).
Qed.

(** The blocks of a matched child are copied out of the touched cache. *)
Lemma copy_matched_wp w xs t F c cd k Q :
  world_inv w xs t F → nodes (cache w) !! c = Some cd →
  (∀ m1, world_inv (mkWorld m1 (cache w)) xs t (take k (blocks cd) ++ F) →
     same_geometry (mem w) m1 → Q (take k (blocks cd)) (mkWorld m1 (cache w))) →
  wp (in_mem (blocks_copy (take k (blocks cd)))) w Q.
Proof.
  intros [HC HT HM HB] Hcd HQ. apply wp_zoom.
  eapply wp_mono; [apply (blocks_copy_wp _ _ _ HM)|].
  { intros b Hb. apply elem_of_app. left. apply (cache_handles_elem _ _ _ Hcd).
    by eapply elem_of_sublist, sublist_take. }
  intros bs' m1 (->&HM1&Ha). apply HQ.
  - split; simpl; [done|done| |by rewrite Ha].
    assert (cache_handles (nodes (cache w)) ++ take k (blocks cd) ++ F ≡ₚ
      take k (blocks cd) ++ cache_handles (nodes (cache w)) ++ F) as -> by solve_Permutation. done.
  - unfold same_geometry, num_total_blocks. by rewrite Ha.
Qed.

(** A partially matched child is split after its matched blocks. *)
Lemma match_post_split w w1 curr cn c cd cd1 child k toks acc now F w3 :
  let bs := cache_block_size (cache w) in
  0 < bs → TreeInv bs (nodes (cache w)) → nodes (cache w) !! curr = Some cn →
  c ∈ children cn → nodes (cache w) !! c = Some cd → matches bs toks cd →
  take (k * bs) toks = take (k * bs) (token_ids cd) → k * bs ≤ length toks →
  (∀ j, j * bs ≤ common_prefix_length toks (token_ids cd) → j ≤ k) →
  length (token_ids cd) = length (blocks cd) * bs →
  0 < k < length (blocks cd) →
  strip (nodes (cache w1)) = strip (nodes (cache w)) →
  nodes (cache w1) !! c = Some cd1 → nodes (cache w1) !! child = None →
  nodes (cache w3) = split_map (nodes (cache w1)) c child cd1 k bs →
  world_ok w3 now (take k (blocks cd) ++ F) → same_sizes w w3 →
  match_post w curr toks acc now F (acc ++ take k (blocks cd)) w3.
Proof.
  intros bs Hbs HT Hn Hc Hcd Hm Htake Hkt Hmaxk Hlen Hk Hst Hcd1 Hfresh Hns3 Hw3 Hs3.
  destruct (ti_child _ _ HT _ _ _ Hn Hc) as (Hcr&_).
  assert (TreeInv bs (nodes (cache w1))) as HT1 by (by eapply TreeInv_strip, HT).
  destruct (strip_lookup _ _ _ _ Hst Hcd1) as (cd'&Hcd'&_&Hb&_). simplify_eq. rewrite Hb in Hk.
  exists (take k (blocks cd)). fold bs. rewrite !length_take, Nat.min_l by (rewrite Hb; lia).
  rewrite Htake. split_and!; try done.
  - eapply descends_part; [done..|]. rewrite Hb. lia.
  - intros t' b' Hd' Hp.
    destruct (descends_step bs _ toks curr cn t' b' Hbs HT Hn Hd' Hp) as [->|H]; [apply prefix_nil|].
    destruct H as (c'&cd''&Hc'&Hcd''&Hm'&Hor).
    assert (c' = c) as -> by (eapply matches_unique; [exact HT|exact Hn|..]; done). simplify_eq.
    destruct Hor as [(j&->&Hj%Hmaxk)|(_&_&_&_&_&Hj)].
    + rewrite <- (take_take_le _ j k) by done. apply prefix_take.
    + rewrite Hlen in Hj. apply Hmaxk in Hj. rewrite Hb in Hj. lia.
  - intros t b. unfold cached. destruct Hs3 as [-> _]. fold bs. rewrite Hns3.
    rewrite (split_descends_root bs (nodes (cache w1)) c child cd1 k Hbs HT1 Hcd1 Hcr Hfresh Hk).
    split; apply descends_strip; congruence.
  - rewrite Hns3, (split_handles bs (nodes (cache w1)) c child cd1 k Hbs HT1 Hcd1 Hcr Hfresh Hk).
    by rewrite (cache_handles_strip _ _ Hst).
Qed.

Lemma match_loop_wp fuel : ∀ w xs t F now curr cn toks acc,
  world_inv w xs t F → (t ≤ now)%Z → nodes (cache w) !! curr = Some cn → length toks < fuel →
  wp (match_loop fuel now curr toks acc) w (match_post w curr toks acc now F).
Proof.
  induction fuel as [|fuel IH]; intros w xs t F now curr cn toks acc Hw Hle Hcurr Hfuel; [lia|].
  pose proof Hw as [HC _ _ _]. pose proof (ci_bs _ _ HC) as Hbs. pose proof (ci_tree _ _ HC) as HT.
  assert (world_ok w now F) as Hwok by (eapply world_ok_later; [done|by exists xs]).
  cbn [match_loop]. destruct toks as [|tok toks'] eqn:Htoks.
  { apply wp_ret. eapply match_post_stop; [done..|]. intros c cd _ _ Hm.
    unfold matches in Hm. simpl in Hm. lia. }
  rewrite <- Htoks in *. clear tok toks' Htoks.
  apply wp_bind. eapply get_node_wp; [done|]. apply wp_bind.
  apply find_child_wp; [done| | |].
  { intros c Hc. destruct (ti_child _ _ HT _ _ _ Hcurr Hc) as (_&cd&?&_). by eexists. }
  { intros Hno. apply wp_ret. by eapply match_post_stop. }
  intros c cd Hc Hcd Hm.
  destruct (matched_facts _ _ _ _ _ _ _ Hbs HT Hcurr Hc Hcd Hm) as (k&->&Hk&Hkt&Htake&Hlen&Hmaxk).
  destruct (ti_child _ _ HT _ _ _ Hcurr Hc) as (Hcr&_).
  apply wp_bind. eapply wp_mono; [apply (touch_wp w xs t F c now Hw); [|done]|].
  { apply (ci_xs _ _ HC). split; [done|by eexists]. }
  intros _ w1 ((xs1&Hw1)&Hst&Hmem&Hbs1&Htime).
  destruct (strip_lookup _ (nodes (cache w1)) c cd (eq_sym Hst) Hcd) as (cd1&Hcd1&Ht1&Hb1&_&_).
  assert (last_access_time cd1 = now) as Hnow by (unfold time_of in Htime; by rewrite Hcd1 in Htime).
  wp_steps. eapply get_node_wp; [done|]. rewrite Hbs1, Nat.div_mul by lia.
  wp_steps. apply slice_wp; [rewrite Hb1; lia|]. rewrite Nat.sub_0_r, drop_0. wp_steps.
  eapply copy_matched_wp; [exact Hw1|done|]. intros m1 Hw2 Hg. rewrite Ht1, Hb1 in *.
  assert (same_sizes w (mkWorld m1 (cache w1))) as Hsz by (split; [done|by rewrite <- Hmem]).
  wp_steps. apply slice_from_wp; [done|]. case_decide as Hfull.
  - (* the whole child matched: go on below it *)
    assert (k = length (blocks cd)) as -> by nia. rewrite take_ge in * by done.
    eapply wp_mono; [apply (IH _ _ _ _ now c cd1 (drop (length (blocks cd) * cache_block_size (cache w)) toks)
      (acc ++ blocks cd) Hw2)|]; [done|done|rewrite length_drop; nia|].
    intros r w' Hpost. rewrite Hfull in Hpost. eapply (match_post_full w (mkWorld m1 (cache w1)) curr cn c cd); try done.
    apply cpl_spec. rewrite <- Hfull, Htake, Hfull. split_and!; [lia|lia|done].
  - (* the child is split at the matched prefix *)
    wp_steps. rewrite <- Hbs1. eapply wp_mono.
    { apply (split_node_wp _ xs1 now _ c cd1 k Hw2); [done|done|rewrite Hb1; nia|done]. }
    intros _ w3 ((xs3&Hw3)&Hs3&Hns3). wp_steps.
    simpl in Hns3. rewrite Hbs1 in Hns3.
    eapply (match_post_split w w1 curr cn c cd cd1 (next_node (cache w1))); try done;
      [nia| |by exists xs3|by etrans].
    apply (ci_fresh_node _ _ (wi_cache _ _ _ _ Hw1)).
Qed.

(** Cached prefixes are whole numbers of blocks, so cutting the tokens at a
    block boundary loses none of them. *)
Lemma cached_aligned bs ns n t b tokens :
  0 < bs → TreeInv bs ns → descends bs ns n t b → t `prefix_of` tokens →
  t `prefix_of` take (round_down (length tokens) bs) tokens.
Proof.
  intros Hbs HT Hd Hp. pose proof (descends_length _ _ _ _ _ HT Hd) as Hlen.
  pose proof (prefix_length _ _ Hp) as Hle. rewrite Hlen in Hle.
  apply (round_down_ge bs Hbs) in Hle. rewrite <- Hlen in Hle.
  destruct Hp as [rest ->]. rewrite take_app_ge by done. by apply prefix_app_r.
Qed.

(** What [match] promises. *)
Definition match_spec (w : World) (tokens : list Z) (now : Z) (F r : list Block) (w' : World) :
    Prop :=
  let bs := cache_block_size (cache w) in
  world_ok w' now (r ++ F) ∧ same_sizes w w' ∧ length r * bs ≤ length tokens ∧
  cached (cache w) (take (length r * bs) tokens) r ∧
  (∀ t b, cached (cache w) t b → t `prefix_of` tokens → b `prefix_of` r) ∧
  (∀ t b, cached (cache w') t b ↔ cached (cache w) t b) ∧
  cache_handles (nodes (cache w')) ≡ₚ cache_handles (nodes (cache w)).

Lemma match_wp w t F now tokens :
  world_ok w t F → (t ≤ now)%Z →
  wp (match_ tokens now) w (match_spec w tokens now F).
Proof.
  intros (xs&Hw) Hle. pose proof Hw as [HC _ _ _]. pose proof (ci_bs _ _ HC) as Hbs.
  pose proof (ci_tree _ _ HC) as HT. destruct (ti_root _ _ HT) as (rn&Hr&_).
  unfold match_. wp_steps. pose proof (round_down_le _ Hbs (length tokens)) as Hrd.
  apply slice_wp; [lia|]. rewrite Nat.sub_0_r, drop_0.
  eapply wp_mono; [apply (match_loop_wp _ w xs t F now root_ rn _ [] Hw Hle Hr); lia|].
  intros r w' (found&->&Hw'&Hs&Hlen&Hd&Hmax&Hc&Hh). rewrite length_take in Hlen.
  rewrite take_take_le in Hd by lia. simpl. split_and!; try done; [lia|].
  intros t' b' Hc' Hp. eapply Hmax; [exact Hc'|]. by eapply cached_aligned.
Qed.
