(* ===== verification/PrefixCacheEvict.v ===== *)
(** * The prefix cache: eviction

    [evict], [evict_helper] and [release_node] of
    [src/memory/prefix_cache.cpp]: they never trip a [CHECK], they keep the
    cache and the reference counts consistent, they evict at most what was
    asked for, and they evict less only when every block of every leaf is held
    by someone else. *)

From stdpp Require Import base tactics list gmap strings sorting.
From S2P Require Import Prelude Slice Block Lru PrefixCache PrefixCacheInv PrefixCacheSpec.

(** The invariant while [evict_helper] runs: [num_blocks_] is corrected only at
    the end, and [d] blocks have already been destroyed. *)
Record EvictInv (w : World) (xs : list positive) (t : Z) (F : list Block) (d : nat) : Prop := {
  ei_bs : 0 < cache_block_size (cache w);
  ei_tree : TreeInv (cache_block_size (cache w)) (nodes (cache w));
  ei_lru : lru_repr (links (cache w)) xs;
  ei_xs : ∀ n, n ∈ xs ↔ n ≠ root_ ∧ is_Some (nodes (cache w) !! n);
  ei_fresh : ∀ n, is_Some (nodes (cache w) !! n) ∨ is_Some (links (cache w) !! n) →
    (n < next_node (cache w))%positive;
  ei_num_nodes : num_nodes_ (cache w) = length xs;
  ei_num_blocks : num_blocks_ (cache w) = length (cache_handles (nodes (cache w))) + d;
  ei_time : TimeInv (nodes (cache w)) xs t;
  ei_mem : mem_ok (mem w) (cache_handles (nodes (cache w)) ++ F);
  ei_bsz : cache_block_size (cache w) = block_size_ (allocator (mem w));
}.

(** The tree only loses leaves and the tails of leaves. *)
Definition node_shrinks (bs : nat) (nd nd' : Node) : Prop :=
  (∀ c, c ∈ children nd' → c ∈ children nd) ∧
  ((blocks nd' = blocks nd ∧ token_ids nd' = token_ids nd) ∨
   (children nd' = [] ∧ ∃ k, 0 < k ≤ length (blocks nd) ∧ blocks nd' = take k (blocks nd) ∧
      token_ids nd' = take (k * bs) (token_ids nd))).
Definition shrinks (bs : nat) (ns ns' : gmap positive Node) : Prop :=
  ∀ n nd', ns' !! n = Some nd' → ∃ nd, ns !! n = Some nd ∧ node_shrinks bs nd nd'.

Lemma node_shrinks_trans bs n1 n2 n3 : node_shrinks bs n1 n2 → node_shrinks bs n2 n3 → node_shrinks bs n1 n3.
Proof.
  intros [C1 S1] [C2 S2]. split; [by intros c Hc; apply C1, C2|].
  destruct S2 as [[B2 T2]|(E2&k2&Hk2&B2&T2)].
  - destruct S1 as [[B1 T1]|(E1&k1&Hk1&B1&T1)]; [left; split; congruence|]. right. split.
    + destruct (children n3) as [|c cs]; [done|]. specialize (C2 c ltac:(constructor)). rewrite E1 in C2. by apply not_elem_of_nil in C2.
    + exists k1. rewrite B2, T2. done.
  - right. split; [done|]. destruct S1 as [[B1 T1]|(E1&k1&Hk1&B1&T1)]; [exists k2; rewrite B1 in Hk2, B2; rewrite T1 in T2; done|].
    rewrite B1, length_take in Hk2. exists k2. rewrite B2, T2, B1, T1, !take_take_le by nia. split_and!; [lia..|done|done].
Qed.

#[global] Instance shrinks_preorder bs : PreOrder (shrinks bs).
Proof.
  split; [intros ns n nd Hn; exists nd; split; [done|split; [done|by left]]|].
  intros a b c Hab Hbc n nd3 H3. destruct (Hbc n nd3 H3) as (nd2&H2&S2). destruct (Hab n nd2 H2) as (nd1&H1&S1).
  exists nd1. split; [done|]. by eapply node_shrinks_trans.
Qed.

Lemma shrinks_handles bs ns ns' x : shrinks bs ns ns' → x ∈ cache_handles ns' → x ∈ cache_handles ns.
Proof.
  intros Hs Hx. unfold cache_handles in *. apply list_elem_of_bind in Hx as ([n nd']&Hx&Hn). apply elem_of_map_to_list in Hn.
  destruct (Hs n nd' Hn) as (nd&Hnd&_&Hb). apply list_elem_of_bind. exists (n, nd). split; [|by apply elem_of_map_to_list].
  simpl in *. destruct Hb as [[<- _]|(_&k&_&Hb&_)]; [done|]. rewrite Hb in Hx. by eapply elem_of_sublist, sublist_take.
Qed.

(** What the tree still holds, it held before. *)
Lemma descends_shrinks bs ns ns' n t b : shrinks bs ns ns' → descends bs ns' n t b → descends bs ns n t b.
Proof.
  intros Hs H. induction H as [n|n nd c cd k Hn Hc Hcd Hk|n nd c cd t b Hn Hc Hcd Hd IH]; [constructor|..];
    destruct (Hs _ _ Hn) as (nd0&Hn0&Hch&_); destruct (Hs _ _ Hcd) as (cd0&Hcd0&_&Hsh); apply Hch in Hc.
  - destruct Hsh as [[Hb Ht]|(_&j&Hj&Hb&Ht)]; [rewrite Hb, Ht in *; eapply descends_part; [exact Hn0|done..]|].
    rewrite Hb, length_take in Hk. rewrite Hb, Ht, !take_take_le by nia. eapply descends_part; [exact Hn0|done|done|lia].
  - destruct Hsh as [[Hb Ht]|(Hnil&j&Hj&Hb&Ht)]; [rewrite Hb, Ht; eapply descends_full; [exact Hn0|done..]|].
    inversion Hd as [|? cd1 ? ? ? Hc1 Hin|? cd1 ? ? ? ? Hc1 Hin]; subst;
      [|rewrite Hcd in Hc1; injection Hc1 as <-; rewrite Hnil in Hin; by apply not_elem_of_nil in Hin..].
    rewrite !app_nil_r, Hb, Ht. eapply descends_part; [exact Hn0|done..].
Qed.

(** What the steps of [evict_helper] keep: sizes, the recorded number of blocks,
    and every block that was free; the tree shrinks. *)
Definition evict_frame (w w' : World) : Prop :=
  same_sizes w w' ∧ num_blocks_ (cache w') = num_blocks_ (cache w) ∧
  num_free_blocks (mem w) ≤ num_free_blocks (mem w') ∧
  shrinks (cache_block_size (cache w)) (nodes (cache w)) (nodes (cache w')).

#[global] Instance evict_frame_preorder : PreOrder evict_frame.
Proof.
  split; [by intros w|]. intros w1 w2 w3 (H1&H2&H3&H4) (H5&H6&H7&H8).
  split_and!; [by etrans|congruence|lia|]. destruct H1 as [H1 _]. rewrite H1 in H8. by etrans.
Qed.

Lemma EvictInv_world w xs t F : EvictInv w xs t F 0 ↔ world_inv w xs t F.
Proof.
  split.
  - intros []. split; [split|..]; try done. lia.
  - intros [[] ? ? ?]. split; try done. lia.
Qed.

(** ** Dropping the tail of a leaf *)

Definition truncate_map (ns : gmap positive Node) (node : positive) (nd : Node) (k bs : nat) :
    gmap positive Node :=
  <[node := set_content (take (k * bs) (token_ids nd)) (take k (blocks nd)) nd]> ns.

Section truncate.
Context (bs : nat) (ns : gmap positive Node) (node : positive) (nd : Node) (k : nat).
Context (HT : TreeInv bs ns) (Hnode : ns !! node = Some nd) (Hroot : node ≠ root_)
  (Hk : 0 < k ≤ length (blocks nd)).
Let ns' := truncate_map ns node nd k bs.

Lemma truncate_lookup n x : ns' !! n = Some x →
  ∃ y, ns !! n = Some y ∧ children x = children y ∧ parent x = parent y ∧
    take bs (token_ids x) = take bs (token_ids y) ∧
    (length (token_ids y) = length (blocks y) * bs → length (token_ids x) = length (blocks x) * bs) ∧
    (blocks y ≠ [] → blocks x ≠ []) ∧
    (n = root_ → token_ids x = token_ids y ∧ blocks x = blocks y).
Proof using All.
  unfold ns', truncate_map. rewrite lookup_insert. case_decide as Hd.
  - intros [= <-]. subst. exists nd. simpl. split_and!; try done.
    + apply take_take_le. nia.
    + rewrite !length_take. nia.
    + intros _ Hnil. apply (f_equal length) in Hnil. rewrite length_take in Hnil. simpl in Hnil. lia.
  - intros Hx. exists x. done.
Qed.

Lemma truncate_lookup_old n y : ns !! n = Some y →
  ∃ x, ns' !! n = Some x ∧ children x = children y ∧ parent x = parent y ∧
    (n = root_ → token_ids x = token_ids y ∧ blocks x = blocks y).
Proof using All.
  intros Hn. unfold ns', truncate_map. rewrite lookup_insert. case_decide; [|by eexists].
  subst. simplify_eq. by eexists.
Qed.

Lemma truncate_tree : TreeInv bs ns'.
Proof using All.
  split.
  - destruct (ti_root _ _ HT) as (r&Hr&?&?).
    destruct (truncate_lookup_old _ _ Hr) as (x&?&_&_&Heq). exists x.
    destruct (Heq eq_refl). split_and!; congruence.
  - intros n x Hx Hne. destruct (truncate_lookup n x Hx) as (y&Hy&Hc&Hp&_&Hl&Hb&_).
    destruct (ti_node _ _ HT n y Hy Hne) as (?&?&p&pn&?&Hpn&?). split_and!; auto.
    destruct (truncate_lookup_old _ _ Hpn) as (pn'&?&Hc'&_). exists p, pn'.
    rewrite Hp, Hc'. done.
  - intros n x c Hx Hc. destruct (truncate_lookup n x Hx) as (y&Hy&Hcx&_).
    rewrite Hcx in Hc. destruct (ti_child _ _ HT n y c Hy Hc) as (?&cd&Hcd&?). split; [done|].
    destruct (truncate_lookup_old _ _ Hcd) as (cd'&?&_&?&_). exists cd'. split; congruence.
  - intros n x Hx. destruct (truncate_lookup n x Hx) as (y&Hy&Hcx&_). rewrite Hcx.
    by eapply ti_nodup.
  - intros n x c1 c2 d1 d2 Hx Hc1 Hc2 Hd1 Hd2 Heq.
    destruct (truncate_lookup n x Hx) as (y&Hy&Hcx&_). rewrite Hcx in *.
    destruct (truncate_lookup _ _ Hd1) as (e1&?&_&_&He1&_).
    destruct (truncate_lookup _ _ Hd2) as (e2&?&_&_&He2&_).
    rewrite He1, He2 in Heq. eapply (ti_sibling _ _ HT n y); eauto.
  - destruct (ti_rank _ _ HT) as [rank Hr]. exists rank. intros n x c Hx Hc.
    destruct (truncate_lookup n x Hx) as (y&Hy&Hcx&_). rewrite Hcx in Hc. eauto.
Qed.

Lemma truncate_handles : cache_handles ns ≡ₚ drop k (blocks nd) ++ cache_handles ns'.
Proof using All.
  unfold ns', truncate_map. rewrite (cache_handles_insert _ _ _ _ Hnode). simpl.
  rewrite (cache_handles_delete _ _ _ Hnode), (assoc_L (++)).
  by rewrite (Permutation_app_comm (drop _ _)), take_drop.
Qed.

Lemma truncate_shrinks : children nd = [] → shrinks bs ns ns'.
Proof using All.
  intros Hleaf n x. unfold ns', truncate_map. rewrite lookup_insert. case_decide as Hd.
  - intros [= <-]. subst. exists nd. split; [done|]. split; [done|]. right. split; [done|]. by exists k.
  - intros Hx. exists x. split; [done|]. split; [done|by left].
Qed.
End truncate.

(** ** Releasing a leaf *)

Definition release_map (ns : gmap positive Node) (node p : positive) (pn : Node) :
    gmap positive Node :=
  delete node (<[p := set_children (filter (λ c, c ≠ node) (children pn)) pn]> ns).

Section release.
Context (bs : nat) (ns : gmap positive Node) (node p : positive) (nd pn : Node).
Context (HT : TreeInv bs ns) (Hnode : ns !! node = Some nd) (Hroot : node ≠ root_)
  (Hleaf : children nd = []) (Hp : parent nd = Some p) (Hpn : ns !! p = Some pn).
Let ns' := release_map ns node p pn.

Lemma release_parent : p ≠ node ∧ node ∈ children pn.
Proof using All.
  destruct (ti_node _ _ HT _ _ Hnode Hroot) as (_&_&p'&pn'&?&?&Hin). simplify_eq.
  split; [|done]. intros ->. simplify_eq. rewrite Hleaf in Hin. set_solver.
Qed.

Lemma release_lookup n x : ns' !! n = Some x →
  n ≠ node ∧ ∃ y, ns !! n = Some y ∧ token_ids x = token_ids y ∧ blocks x = blocks y ∧
    parent x = parent y ∧ children x `sublist_of` children y ∧
    (∀ c, c ∈ children x ↔ c ∈ children y ∧ c ≠ node).
Proof using All.
  unfold ns', release_map. rewrite lookup_delete. case_decide; [done|].
  rewrite lookup_insert. case_decide.
  - intros [= <-]. subst. split; [done|]. exists pn. simpl. split_and!; try done.
    + apply sublist_filter.
    + intros c. rewrite list_elem_of_filter. naive_solver.
  - intros Hx. split; [done|]. exists x. split_and!; try done.
    intros c. split; [|naive_solver]. intros Hc. split; [done|]. intros ->.
    destruct (ti_child _ _ HT _ _ _ Hx Hc) as (_&cd&?&?). congruence.
Qed.

Lemma release_lookup_old n y : ns !! n = Some y → n ≠ node →
  ∃ x, ns' !! n = Some x ∧ token_ids x = token_ids y ∧ blocks x = blocks y ∧
    parent x = parent y ∧ last_access_time x = last_access_time y.
Proof using All.
  intros Hn Hne. unfold ns', release_map. rewrite lookup_delete_ne, lookup_insert by done.
  case_decide; [subst; simplify_eq|]; by eexists.
Qed.

Lemma release_tree : TreeInv bs ns'.
Proof using All.
  split.
  - destruct (ti_root _ _ HT) as (r&Hr&?&?).
    destruct (release_lookup_old _ _ Hr) as (x&?&?&?&_); [done|].
    exists x. split_and!; congruence.
  - intros n x Hx Hne. destruct (release_lookup n x Hx) as (Hn&y&Hy&Ht&Hb&Hpx&_).
    destruct (ti_node _ _ HT n y Hy Hne) as (?&?&q&qn&Hq&Hqn&Hin).
    rewrite Ht, Hb, Hpx. split_and!; [done..|].
    assert (q ≠ node) by (intros ->; simplify_eq; rewrite Hleaf in Hin; set_solver).
    destruct (release_lookup_old _ _ Hqn) as (qn'&Hqn'&_); [done|]. exists q, qn'.
    split_and!; [done..|].
    destruct (release_lookup _ _ Hqn') as (_&y'&?&_&_&_&_&Hiff). apply Hiff.
    split; congruence.
  - intros n x c Hx Hc. destruct (release_lookup n x Hx) as (Hn&y&Hy&_&_&_&_&Hiff).
    apply Hiff in Hc as [Hc Hcn].
    destruct (ti_child _ _ HT n y c Hy Hc) as (?&cd&Hcd&?). split; [done|].
    destruct (release_lookup_old _ _ Hcd Hcn) as (cd'&?&_&_&?&_). exists cd'. split; congruence.
  - intros n x Hx. destruct (release_lookup n x Hx) as (Hn&y&Hy&_&_&_&Hsub&_).
    eapply sublist_NoDup; [|exact Hsub]. by eapply ti_nodup.
  - intros n x c1 c2 d1 d2 Hx Hc1 Hc2 Hd1 Hd2 Heq.
    destruct (release_lookup n x Hx) as (Hn&y&Hy&_&_&_&_&Hiff).
    apply Hiff in Hc1 as [Hc1 _], Hc2 as [Hc2 _].
    destruct (release_lookup _ _ Hd1) as (_&e1&?&He1&_).
    destruct (release_lookup _ _ Hd2) as (_&e2&?&He2&_).
    rewrite He1, He2 in Heq. eapply (ti_sibling _ _ HT n y); eauto.
  - destruct (ti_rank _ _ HT) as [rank Hr]. exists rank. intros n x c Hx Hc.
    destruct (release_lookup n x Hx) as (Hn&y&Hy&_&_&_&_&Hiff). apply Hiff in Hc as [Hc _]. eauto.
Qed.

Lemma release_handles : cache_handles ns ≡ₚ blocks nd ++ cache_handles ns'.
Proof using All.
  destruct release_parent as [Hpne _]. unfold ns', release_map.
  rewrite delete_insert_ne by done.
  assert (delete node ns !! p = Some pn) as Hl by (by rewrite lookup_delete_ne).
  rewrite (cache_handles_insert_same _ _ _ _ Hl) by done.
  apply cache_handles_delete. done.
Qed.

Lemma release_shrinks : shrinks bs ns ns'.
Proof using All.
  intros n x Hx. destruct (release_lookup n x Hx) as (_&y&Hy&Ht&Hb&_&_&Hiff). exists y. split; [done|].
  split; [by intros c Hc; apply Hiff in Hc as [? _]|by left].
Qed.
End release.

Lemma lru_repr_delete ls xs n :
  lru_repr ls xs → n ∉ lru_front_ :: xs ++ [lru_back_] → lru_repr (delete n ls) xs.
Proof.
  intros [Hnd Hc] Hn. split; [done|]. eapply chain_mono; [| |exact Hc];
    intros a b Ha _; unfold nextof, prevof; (rewrite lookup_delete_ne; [done|]);
    intros ->; set_solver.
Qed.

Lemma release_node_wp w xs t F d node nd :
  EvictInv w xs t F d → node ∈ xs → nodes (cache w) !! node = Some nd → children nd = [] →
  wp (release_node node) w (λ _ w',
    (∃ xs', EvictInv w' xs' t F (d + length (blocks nd)) ∧
       (∀ n, n ∈ xs' ↔ n ∈ xs ∧ n ≠ node)) ∧
    evict_frame w w' ∧
    ∃ p pn, nodes (cache w') = release_map (nodes (cache w)) node p pn ∧
      parent nd = Some p ∧ nodes (cache w) !! p = Some pn).
Proof.
  intros HI Hin Hnode Hleaf.
  pose proof (proj1 (ei_xs _ _ _ _ _ HI node) Hin) as [Hroot _].
  pose proof (ei_tree _ _ _ _ _ HI) as HT.
  destruct (ti_node _ _ HT _ _ Hnode Hroot) as (_&_&p&pn&Hp&Hpn&Hinc).
  destruct (release_parent _ _ _ _ _ _ HT Hnode Hroot Hleaf Hp Hpn) as [Hpne _].
  pose proof (release_tree _ _ _ _ _ _ HT Hnode Hroot Hleaf Hp Hpn) as HT'.
  pose proof (release_handles _ _ _ _ _ _ HT Hnode Hroot Hleaf Hp Hpn) as Hh.
  apply list_elem_of_split in Hin as (xs1&xs2&->).
  pose proof (ei_lru _ _ _ _ _ HI) as Hlru.
  assert (node ∉ lru_front_ :: (xs1 ++ xs2) ++ [lru_back_]) as Hnotin.
  { destruct Hlru as [Hnd _]. rewrite <- !app_assoc in *. simpl in Hnd.
    assert (lru_front_ :: xs1 ++ node :: xs2 ++ [lru_back_] ≡ₚ
            node :: lru_front_ :: xs1 ++ xs2 ++ [lru_back_]) as Hpm by solve_Permutation.
    rewrite Hpm in Hnd. by apply NoDup_cons in Hnd as [? _]. }
  unfold release_node. wp_steps; [by apply bool_decide_eq_true_2|].
  eapply get_node_wp; [done|]. wp_steps; [by apply bool_decide_eq_true_2|exact Hp|].
  eapply get_node_wp; [done|].
  wp_steps; [by apply bool_decide_eq_true_2|]. unfold put_node. wp_steps. apply wp_zoom. simpl.
  eapply wp_mono; [by apply remove_wp|]. intros _ ls' [Hls' Hd']. wp_steps.
  unfold delete_node. wp_steps. eapply get_node_wp.
  { simpl. by rewrite lookup_insert_ne. }
  wp_steps. apply wp_zoom. simpl.
  pose proof (ei_mem _ _ _ _ _ HI) as HM. rewrite Hh, <- (assoc_L (++)) in HM.
  eapply wp_mono; [apply (blocks_destroy_wp _ _ _ HM)|]. intros _ m' (HM'&Hg&Hfree).
  wp_steps. { simpl. rewrite (ei_num_nodes _ _ _ _ _ HI), length_app. simpl. lia. }
  wp_steps. unfold set_cache, set_nodes, set_links, set_num_nodes. simpl.
  fold (release_map (nodes (cache w)) node p pn).
  split; [|split; [split_and!; [split; [done|exact Hg]|done|done|]|by exists p, pn]].
  2:{ by eapply release_shrinks. }
  exists (xs1 ++ xs2). split; [split; simpl|].
  - apply HI.
  - exact HT'.
  - by apply lru_repr_delete.
  - intros n. pose proof (ei_xs _ _ _ _ _ HI n) as Hx.
    unfold release_map. rewrite lookup_delete, lookup_insert.
    destruct (decide (node = n)) as [<-|].
    { split; [set_solver|]. intros [_ [? ?]]. done. }
    assert (n ∈ xs1 ++ xs2 ↔ n ∈ xs1 ++ node :: xs2) as -> by set_solver.
    rewrite Hx. case_decide; [subst|done]. rewrite Hpn.
    split; intros [? _]; (split; [done|by eexists]).
  - intros n Hn. apply (ei_fresh _ _ _ _ _ HI). unfold release_map in Hn.
    rewrite !lookup_delete, lookup_insert in Hn. destruct (decide (node = n)); [by destruct Hn as [[]|[]]|].
    destruct Hn as [Hn|Hn].
    + left. case_decide; [subst; by eexists|done].
    + right. by rewrite <- elem_of_dom, <- Hd', elem_of_dom.
  - rewrite (ei_num_nodes _ _ _ _ _ HI), !length_app. simpl. lia.
  - rewrite (ei_num_blocks _ _ _ _ _ HI), Hh, length_app. lia.
  - eapply TimeInv_ext; [|eapply TimeInv_sublist, (ei_time _ _ _ _ _ HI)].
    + intros n Hn. assert (n ≠ node) as Hne by set_solver. unfold time_of, release_map.
      rewrite lookup_delete_ne, lookup_insert by done. case_decide; [subst; by rewrite Hpn|done].
    + apply sublist_app; [done|]. by constructor.
  - done.
  - rewrite (ei_bsz _ _ _ _ _ HI). by destruct Hg as [_ ->].
  - intros n. set_solver.
Qed.

(** How many blocks a node holds. *)
Definition blocks_of (ns : gmap positive Node) (n : positive) : list Block :=
  from_option blocks [] (ns !! n).

Lemma release_nodes_wp E w xs t F d :
  EvictInv w xs t F d → NoDup E →
  (∀ n, n ∈ E → n ∈ xs ∧ ∃ nd, nodes (cache w) !! n = Some nd ∧ children nd = []) →
  wp (for_each release_node E) w (λ _ w',
    (∃ xs', EvictInv w' xs' t F (d + sum_list_with (λ n, length (blocks_of (nodes (cache w)) n)) E)) ∧
    evict_frame w w').
Proof.
  revert w xs d. induction E as [|n E IH]; intros w xs d HI Hnd HE; simpl.
  { apply wp_ret. rewrite Nat.add_0_r. split; [by exists xs|reflexivity]. }
  apply NoDup_cons in Hnd as [HnE Hnd]. destruct (HE n) as (Hx&nd&Hnode&Hleaf); [set_solver|].
  apply wp_bind. eapply wp_mono; [by apply (release_node_wp w xs t F d n nd)|].
  intros _ w1 ((xs1&HI1&Hxs1)&Hf1&p&pn&Hns1&Hp&Hpn).
  pose proof (proj1 (ei_xs _ _ _ _ _ HI n) Hx) as [Hroot _].
  pose proof (ei_tree _ _ _ _ _ HI) as HT.
  assert (∀ m, m ∈ E → blocks_of (nodes (cache w1)) m = blocks_of (nodes (cache w)) m ∧
    m ∈ xs1 ∧ ∃ md, nodes (cache w1) !! m = Some md ∧ children md = []) as Hrest.
  { intros m Hm. destruct (HE m) as (Hmx&md&Hmd&Hml); [set_solver|].
    assert (m ≠ n) as Hmn by (intros ->; done).
    destruct (release_lookup_old _ _ _ _ _ _ HT Hnode Hroot Hleaf Hp Hpn m md Hmd Hmn)
      as (x&Hx'&_&Hb&_).
    destruct (release_lookup _ _ _ _ _ _ HT Hnode Hroot Hleaf Hp Hpn m x Hx')
      as (_&y&Hy&_&_&_&Hsub&_).
    rewrite <- Hns1 in Hx'. split_and!.
    - unfold blocks_of. rewrite Hx', Hmd. done.
    - apply Hxs1. done.
    - exists x. split; [done|]. simplify_eq. rewrite Hml in Hsub. by apply sublist_nil_r in Hsub. }
  eapply wp_mono; [apply (IH w1 xs1 _ HI1 Hnd); intros m Hm; by apply Hrest|].
  intros _ w2 ((xs2&HI2)&Hf2). split; [|by etrans]. exists xs2.
  assert (∀ E', (∀ m, m ∈ E' → m ∈ E) →
    sum_list_with (λ m, length (blocks_of (nodes (cache w1)) m)) E' =
    sum_list_with (λ m, length (blocks_of (nodes (cache w)) m)) E') as Hsum.
  { induction E' as [|m E' IHE]; intros HE'; [done|]. simpl. rewrite IHE by set_solver.
    destruct (Hrest m) as [-> _]; [set_solver|done]. }
  rewrite Hsum in HI2 by done. unfold blocks_of at 1. rewrite Hnode. simpl.
  by rewrite Nat.add_assoc.
Qed.

(** ** Scanning the LRU list *)

(** Someone besides the handle itself holds the block. *)
Definition shared (hs : list Block) (b : Block) : Prop :=
  1 < length (filter (λ b', id_ b' = id_ b) hs).

Lemma find_non_shared_wp bs m hs :
  mem_ok m hs → bs ⊆ hs →
  wp (find_non_shared bs) m (λ s m', m' = m ∧ s ≤ length bs ∧
    Forall (shared hs) (take s bs) ∧ (∀ b, bs !! s = Some b → ¬ shared hs b)).
Proof.
  intros Hok. induction bs as [|b bs IH]; intros Hsub; simpl; [by apply wp_ret|].
  unfold is_shared. do 2 apply wp_bind.
  eapply wp_mono; [apply (ref_count_wp m hs b); [done|set_solver]|].
  intros c m' [-> ->]. apply wp_ret. case_bool_decide as Hc.
  - apply wp_bind. eapply wp_mono; [apply IH; set_solver|].
    intros s m' (->&?&?&?). apply wp_ret. split_and!; [done|lia| |done].
    simpl. by constructor.
  - apply wp_ret. split_and!; [done|lia|constructor|]. by intros ? [= <-].
Qed.

(** Where the loop pointer is when [ys] is left to scan. *)
Definition cursor (ys : list positive) : positive :=
  match ys with [] => lru_back_ | y :: _ => y end.

Lemma lru_next ls dn y ys :
  lru_repr ls (dn ++ y :: ys) → nextof ls y = Some (cursor ys) ∧ y ≠ lru_back_.
Proof.
  intros [Hnd Hc]. rewrite <- app_assoc in *. cbn [app] in *. split.
  - rewrite app_comm_cons, chain_app in Hc. destruct Hc as [_ Hc].
    by destruct ys; simpl in Hc; destruct Hc as [? _].
  - intros ->. rewrite app_comm_cons in Hnd. apply NoDup_app in Hnd as (_&_&Hnd).
    apply NoDup_cons in Hnd as [Hn _]. set_solver.
Qed.

Lemma lru_first ls xs : lru_repr ls xs → nextof ls lru_front_ = Some (cursor xs).
Proof. intros [_ Hc]. destruct xs; simpl in Hc; by destruct Hc as [? _]. Qed.

(** Partially evicting a leaf. *)
Lemma truncate_wp w xs t F d node nd k :
  EvictInv w xs t F d → nodes (cache w) !! node = Some nd → node ≠ root_ →
  0 < k ≤ length (blocks nd) →
  wp (blocks_destroy (drop k (blocks nd))) (mem w) (λ _ m',
    EvictInv (mkWorld m' (set_nodes (truncate_map (nodes (cache w)) node nd k
                                       (cache_block_size (cache w))) (cache w)))
      xs t F (d + (length (blocks nd) - k)) ∧
    same_geometry (mem w) m' ∧ num_free_blocks (mem w) ≤ num_free_blocks m').
Proof.
  intros HI Hnode Hroot Hk.
  pose proof (ei_tree _ _ _ _ _ HI) as HT.
  pose proof (truncate_tree _ _ _ _ _ HT Hnode Hroot Hk) as HT'.
  pose proof (truncate_handles _ _ _ _ _ HT Hnode Hroot Hk) as Hh.
  pose proof (ei_mem _ _ _ _ _ HI) as HM. rewrite Hh, <- (assoc_L (++)) in HM.
  eapply wp_mono; [apply (blocks_destroy_wp _ _ _ HM)|]. intros _ m' (HM'&Hg&Hfree).
  split; [|done].
  assert (∀ n, is_Some (truncate_map (nodes (cache w)) node nd k (cache_block_size (cache w)) !! n)
    ↔ is_Some (nodes (cache w) !! n)) as Hdom.
  { intros n. unfold truncate_map. rewrite lookup_insert. case_decide; [subst|done].
    split; intros _; by eexists. }
  split; simpl; try apply HI; try done.
  - intros n. rewrite Hdom. apply HI.
  - intros n. rewrite Hdom. apply HI.
  - rewrite (ei_num_blocks _ _ _ _ _ HI), Hh, length_app, length_drop. lia.
  - eapply TimeInv_ext; [|apply HI]. intros n Hn. unfold truncate_map.
    rewrite time_of_insert. case_decide; [subst|done]. unfold time_of. by rewrite Hnode.
  - rewrite (ei_bsz _ _ _ _ _ HI). by destruct Hg as [_ ->].
Qed.

(** The nodes to release: distinct leaves of the LRU list. *)
Definition leaves (ns : gmap positive Node) (dn E : list positive) : Prop :=
  NoDup E ∧ ∀ n, n ∈ E → n ∈ dn ∧ ∃ nd, ns !! n = Some nd ∧ children nd = [].

Definition total_blocks (ns : gmap positive Node) (E : list positive) : nat :=
  sum_list_with (λ n, length (blocks_of ns n)) E.

Lemma total_blocks_ext ns ns' E :
  (∀ n, n ∈ E → blocks_of ns' n = blocks_of ns n) → total_blocks ns' E = total_blocks ns E.
Proof.
  unfold total_blocks. induction E as [|n E IH]; intros H; [done|]. simpl.
  rewrite IH by set_solver. by rewrite (H n) by set_solver.
Qed.

Lemma total_blocks_snoc ns E n :
  total_blocks ns (E ++ [n]) = total_blocks ns E + length (blocks_of ns n).
Proof. unfold total_blocks. rewrite sum_list_with_app. simpl. lia. Qed.

(** The blocks of a leaf that nobody can take away from the cache's users. *)
Definition all_shared (w : World) (F : list Block) (nd : Node) : Prop :=
  Forall (shared (cache_handles (nodes (cache w)) ++ F)) (blocks nd).

Definition scan_post (w : World) (xs ys : list positive) (t : Z) (F : list Block)
    (n total : nat) (r : nat * list positive) (w' : World) : Prop :=
  (∃ d', EvictInv w' xs t F d' ∧ leaves (nodes (cache w')) xs r.2 ∧
     r.1 = d' + total_blocks (nodes (cache w')) r.2) ∧
  total ≤ r.1 ≤ n ∧ evict_frame w w' ∧
  (r.1 = total → w' = w ∧ (total < n → ∀ y nd, y ∈ ys → nodes (cache w) !! y = Some nd →
     children nd = [] → all_shared w F nd)).

(** What the loop has established so far carries over to the rest of the scan. *)
Lemma scan_post_trans w w1 xs y ys t F n total total1 r w2 :
  evict_frame w w1 → total ≤ total1 →
  (total1 = total → w1 = w ∧ ∀ nd, nodes (cache w) !! y = Some nd → children nd = [] →
     total < n → all_shared w F nd) →
  scan_post w1 xs ys t F n total1 r w2 → scan_post w xs (y :: ys) t F n total r w2.
Proof.
  intros Hf Hle Hsame (Hd&[??]&Hf'&Hsh). split_and!; [done|lia|lia|by etrans|].
  intros Heq. destruct Hsame as [-> Hy]; [lia|]. destruct Hsh as [-> Hsh]; [lia|].
  split; [done|]. intros Hlt z nd Hz Hnz Hleaf.
  apply elem_of_cons in Hz as [->|Hz]; [by apply Hy|]. eapply Hsh; eauto; lia.
Qed.

Lemma leaves_later ns dn dn' E : (∀ n, n ∈ dn → n ∈ dn') → leaves ns dn E → leaves ns dn' E.
Proof. intros Hsub [Hnd HE]. split; [done|]. intros m Hm. destruct (HE m Hm). eauto. Qed.

Lemma leaves_snoc ns dn E y nd :
  leaves ns dn E → y ∉ dn → ns !! y = Some nd → children nd = [] →
  leaves ns (dn ++ [y]) (E ++ [y]).
Proof.
  intros [Hnd HE] Hy Hn Hleaf. split.
  - apply NoDup_app. split_and!; [done| |apply NoDup_singleton].
    intros m Hm ->%list_elem_of_singleton. by destruct (HE _ Hm).
  - intros m [Hm| ->%list_elem_of_singleton]%elem_of_app; [|set_solver by eauto].
    destruct (HE m Hm). set_solver.
Qed.

Lemma evict_scan_wp ys : ∀ fuel w dn xs t F d E n total pre,
  EvictInv w xs t F d → xs = dn ++ ys → length ys < fuel →
  leaves (nodes (cache w)) dn E → total = d + total_blocks (nodes (cache w)) E → total ≤ n →
  (∀ y, y ∈ ys → (pre ≤ time_of (nodes (cache w)) y)%Z) →
  wp (evict_scan fuel n (cursor ys) total pre E) w (scan_post w xs ys t F n total).
Proof.
  induction ys as [|y ys IH]; intros fuel w dn xs t F d E n total pre HI Hxs Hfuel HE Htot Hle Hpre;
    (destruct fuel as [|fuel]; [simpl in Hfuel; lia|]); simpl.
  - rewrite decide_False by naive_solver. apply wp_ret. rewrite app_nil_r in Hxs. subst dn.
    unfold scan_post; simpl. split_and!; try done; [by exists d|]. intros _. split; [done|set_solver].
  - assert (y ∈ xs) as Hyx by (subst; set_solver).
    pose proof (ei_lru _ _ _ _ _ HI) as Hlru. pose proof (ei_time _ _ _ _ _ HI) as HT.
    destruct (proj1 (ei_xs _ _ _ _ _ HI y) Hyx) as [Hroot [nd Hnode]].
    subst xs. destruct (lru_next _ _ _ _ Hlru) as [Hnext Hback].
    assert (y ∉ dn) as Hydn.
    { destruct Hlru as [Hnd _]. apply NoDup_cons in Hnd as [_ Hnd].
      apply NoDup_app in Hnd as (Hnd&_&_). apply NoDup_app in Hnd as (_&Hnd&_). set_solver. }
    assert (∀ z, z ∈ ys → (last_access_time nd ≤ time_of (nodes (cache w)) z)%Z) as Htimes.
    { destruct HT as [Hs _]. apply StronglySorted_app in Hs as (_&_&Hs).
      apply StronglySorted_cons in Hs as [Hs _]. rewrite Forall_forall in Hs.
      intros z Hz. specialize (Hs z Hz). unfold time_of in Hs at 1. by rewrite Hnode in Hs. }
    assert (dn ++ y :: ys = (dn ++ [y]) ++ ys) as Happ by (by rewrite <- app_assoc).
    case_decide as Hc.
    2: { apply wp_ret. unfold scan_post; simpl. split_and!; try done;
           [|intros _; split; [done|naive_solver]].
         exists d. split_and!; [done| |done]. eapply leaves_later; [|done]. set_solver. }
    apply wp_bind. eapply get_node_wp; [done|]. wp_steps.
    { apply Z.leb_le. specialize (Hpre y ltac:(set_solver)). unfold time_of in Hpre.
      by rewrite Hnode in Hpre. }
    apply wp_zoom. apply load_wp; [by eapply nextof_dom|]. intros ln _ _ Hln. simpl.
    wp_steps; [by rewrite <- Hln|]. replace (set_cache _ w) with w by (by destruct w as [? []]).
    case_decide as Hleaf.
    2: { eapply wp_mono; [apply (IH fuel w (dn ++ [y]) (dn ++ y :: ys) t F d E n total); try done|].
         - simpl in Hfuel. lia.
         - eapply leaves_later; [|done]. set_solver.
         - intros r w2 Hr. eapply scan_post_trans, Hr; [done|done|naive_solver]. }
    wp_steps. apply wp_zoom. pose proof (ei_mem _ _ _ _ _ HI) as HM.
    eapply wp_mono; [apply (find_non_shared_wp (blocks nd) _ _ HM)|].
    { pose proof (cache_handles_elem _ _ _ Hnode). set_solver. }
    intros s m' (->&Hs&Hsh&_). replace (set_mem (mem w) w) with w by (by destruct w).
    destruct (ti_node _ _ (ei_tree _ _ _ _ _ HI) _ _ Hnode Hroot) as (Hlen&Hne&_).
    assert (0 < length (blocks nd)) by (destruct (blocks nd); [done|simpl; lia]).
    set (k := Nat.min (n - total) (length (blocks nd) - s)) in *.
    assert (k = 0 → total < n → all_shared w F nd) as Hall.
    { intros Hk0 Hlt. rewrite firstn_all2 in Hsh by lia. done. }
    case_decide as Hk; [|case_decide as Hk'].
    + (* the whole node goes *)
      eapply wp_mono; [apply (IH fuel w (dn ++ [y]) (dn ++ y :: ys) t F d (E ++ [y]) n (total + k)); try done|].
      * simpl in Hfuel. lia.
      * by eapply leaves_snoc.
      * rewrite total_blocks_snoc. unfold blocks_of. rewrite Hnode. simpl. lia.
      * lia.
      * intros r w2 Hr. eapply scan_post_trans, Hr; [done|lia|lia].
    + (* its tail goes *)
      wp_steps; [apply bool_decide_eq_true_2; lia|]. apply wp_zoom.
      eapply wp_mono; [apply (truncate_wp w _ t F d y nd (length (blocks nd) - k) HI Hnode Hroot); lia|].
      intros _ m1 (HI1&Hg1&Hf1). unfold put_node. wp_steps.
      rewrite resize_le by (rewrite Hlen; apply Nat.mul_le_mono_r; lia).
      set (w1 := set_cache _ _).
      assert (nodes (cache w1) = truncate_map (nodes (cache w)) y nd (length (blocks nd) - k)
        (cache_block_size (cache w))) as Hns1 by done.
      assert (∀ m, m ≠ y → nodes (cache w1) !! m = nodes (cache w) !! m) as Hoth.
      { intros m Hm. rewrite Hns1. unfold truncate_map. by rewrite lookup_insert_ne. }
      assert (∀ m, time_of (nodes (cache w1)) m = time_of (nodes (cache w)) m) as Htm.
      { intros m. rewrite Hns1. unfold truncate_map. rewrite time_of_insert.
        case_decide; [subst|done]. unfold time_of. by rewrite Hnode. }
      assert (∀ m, m ∈ E → m ≠ y) as HEy by (intros m Hm ->; by destruct HE as [_ HE]; destruct (HE y Hm)).
      eapply wp_mono; [apply (IH fuel w1 (dn ++ [y]) (dn ++ y :: ys) t F (d + (length (blocks nd) - (length (blocks nd) - k))) E n (total + k)); try done|].
      * simpl in Hfuel. lia.
      * destruct HE as [? HE]. split; [done|]. intros m Hm. rewrite Hoth by auto.
        destruct (HE m Hm). set_solver.
      * rewrite (total_blocks_ext (nodes (cache w))); [lia|]. intros m Hm.
        unfold blocks_of. by rewrite Hoth by auto.
      * lia.
      * intros z Hz. rewrite Htm. auto.
      * intros r w2 Hr. eapply scan_post_trans, Hr; [|lia|lia].
        split_and!; [done..|]. rewrite Hns1. apply truncate_shrinks; try done; [apply HI|lia].
    + (* every block is shared *)
      eapply wp_mono; [apply (IH fuel w (dn ++ [y]) (dn ++ y :: ys) t F d E n (total + k)); try done|].
      * simpl in Hfuel. lia.
      * eapply leaves_later; [|done]. set_solver.
      * lia.
      * lia.
      * intros r w2 Hr. eapply scan_post_trans, Hr; [done|lia|].
        intros _. split; [done|]. intros nd' Hnd' _ Hlt. simplify_eq. apply Hall; lia.
Qed.

(** ** The theorems *)

Lemma total_blocks_0 w xs t F d E :
  EvictInv w xs t F d → leaves (nodes (cache w)) xs E →
  total_blocks (nodes (cache w)) E = 0 → E = [].
Proof.
  intros HI [_ HE] H0. destruct E as [|n E]; [done|exfalso].
  destruct (HE n) as (Hx&nd&Hn&_); [set_solver|].
  destruct (proj1 (ei_xs _ _ _ _ _ HI n) Hx) as [Hroot _].
  destruct (ti_node _ _ (ei_tree _ _ _ _ _ HI) _ _ Hn Hroot) as (_&Hne&_).
  unfold total_blocks in H0. simpl in H0. unfold blocks_of in H0. rewrite Hn in H0. simpl in H0.
  destruct (blocks nd); [done|simpl in H0; lia].
Qed.

(** Every leaf of the cache is entirely held by someone else as well. *)
Definition nothing_to_evict (w : World) (F : list Block) : Prop :=
  ∀ n nd, n ≠ root_ → nodes (cache w) !! n = Some nd → children nd = [] → all_shared w F nd.

Lemma evict_helper_wp w t F n :
  world_ok w t F →
  wp (evict_helper n) w (λ r w', world_ok w' t F ∧ r ≤ n ∧ same_sizes w w' ∧
    shrinks (cache_block_size (cache w)) (nodes (cache w)) (nodes (cache w')) ∧
    num_free_blocks (mem w) ≤ num_free_blocks (mem w') ∧
    num_blocks_ (cache w) = num_blocks_ (cache w') + r ∧
    (r = 0 → 0 < n → nothing_to_evict w' F)).
Proof.
  intros [xs Hw]. pose proof (proj2 (EvictInv_world _ _ _ _) Hw) as HI.
  pose proof (ei_lru _ _ _ _ _ HI) as Hlru.
  unfold evict_helper. wp_steps. apply wp_zoom.
  apply load_wp; [eapply lru_repr_dom; [done|set_solver]|]. intros l _ _ Hl. cbn beta.
  rewrite (lru_first _ _ Hlru) in Hl.
  wp_steps; [by rewrite <- Hl|]. replace (set_cache _ w) with w by (by destruct w as [? []]).
  eapply wp_mono; [apply (evict_scan_wp xs _ w [] xs t F 0 [] n 0); try done|].
  - rewrite (ei_num_nodes _ _ _ _ _ HI). lia.
  - split; [constructor|set_solver].
  - lia.
  - intros y Hy. by apply (ei_time _ _ _ _ _ HI).
  - intros [r E] w1 ((d1&HI1&HE1&Hr)&[_ Hle]&Hf1&Hz). simpl in *. wp_steps.
    eapply wp_mono_ok.
    { apply (release_nodes_wp E w1 xs t F d1 HI1 (proj1 HE1)). apply HE1. }
    intros [] w2 Hrun ((xs2&HI2)&Hf2). fold (total_blocks (nodes (cache w1)) E) in HI2.
    rewrite <- Hr in HI2. pose proof (ei_num_blocks _ _ _ _ _ HI2) as Hnb.
    assert (evict_frame w w2) as (Hs&Hsame&Hfree&Hshr) by (by etrans).
    wp_steps; [lia|]. split_and!; simpl; [| |exact Hs|exact Hshr|lia|lia|].
    + exists xs2. apply EvictInv_world. destruct HI2. split; simpl; try done. lia.
    + done.
    + intros Hr0 Hn x nd Hx Hnd Hleaf. destruct Hz as [-> Hall]; [done|].
      assert (E = []) as -> by (eapply total_blocks_0; [exact HI1|exact HE1|lia]).
      simpl in Hrun. injection Hrun as <-. eapply (Hall Hn x nd); [|done..].
      apply (ei_xs _ _ _ _ _ HI). split; [done|by eexists].
Qed.

Lemma evict_loop_wp fuel : ∀ w t F n total,
  world_ok w t F → total ≤ n → n - total < fuel →
  wp (evict_loop fuel n total) w (λ r w', world_ok w' t F ∧ total ≤ r ≤ n ∧ same_sizes w w' ∧
    shrinks (cache_block_size (cache w)) (nodes (cache w)) (nodes (cache w')) ∧
    num_free_blocks (mem w) ≤ num_free_blocks (mem w') ∧
    num_blocks_ (cache w) + total = num_blocks_ (cache w') + r ∧
    (r < n → nothing_to_evict w' F)).
Proof.
  induction fuel as [|fuel IH]; intros w t F n total Hw Hle Hfuel; [lia|]. cbn [evict_loop].
  case_decide; [|apply wp_ret; split_and!; try done; lia].
  apply wp_bind. eapply wp_mono; [by apply evict_helper_wp|].
  intros r w1 (Hw1&Hr&Hs1&Hsh1&Hf1&Hn1&Hz). case_decide as Hr0.
  - apply wp_ret. split_and!; try done; try lia. intros _. apply Hz; lia.
  - eapply wp_mono; [apply (IH w1 t F n (total + r)); [done|lia|lia]|].
    intros r' w2 (Hw2&[??]&Hs2&Hsh2&Hf2&Hn2&Hz2). split_and!; try done; try lia; [by etrans|].
    destruct Hs1 as [Hs1 _]. rewrite Hs1 in Hsh2. by etrans.
Qed.

(** [evict] never fails: it keeps the cache and every handle of the rest of the
    program valid, evicts at most [n] blocks, and returns less than [n] only
    when no leaf has a block left that the cache alone holds. *)
Lemma evict_wp w t F n :
  world_ok w t F →
  wp (evict n) w (λ r w', world_ok w' t F ∧ r ≤ n ∧ same_sizes w w' ∧
    shrinks (cache_block_size (cache w)) (nodes (cache w)) (nodes (cache w')) ∧
    num_free_blocks (mem w) ≤ num_free_blocks (mem w') ∧
    num_blocks_ (cache w) = num_blocks_ (cache w') + r ∧
    (r < n → nothing_to_evict w' F)).
Proof.
  intros Hw. unfold evict. eapply wp_mono; [apply (evict_loop_wp (S n) w t F n 0); [done|lia|lia]|].
  intros r w' (?&[??]&?&?&?&?&?). split_and!; try done; lia.
Qed.

(** ** The prefix cache: [~PrefixCache]

    The destructor walks the LRU list, deletes every node and checks that it met
    as many as were created.  It always finds all of them, so the check never
    fails and every block the cache alone held is free afterwards. *)

Lemma chain_tail ls a l : chain ls (a :: l) → chain ls l.
Proof. destruct l as [|b l]; simpl; tauto. Qed.

Lemma chain_delete ls a l : a ∉ l → chain ls l → chain (delete a ls) l.
Proof.
  intros Ha. apply chain_mono; intros b c Hb _; unfold nextof, prevof;
    rewrite lookup_delete_ne by (intros <-; done); done.
Qed.

Lemma delete_node_wp w n nd F (Q : unit → World → Prop) :
  nodes (cache w) !! n = Some nd → mem_ok (mem w) (cache_handles (nodes (cache w)) ++ F) →
  (∀ m', mem_ok m' (cache_handles (delete n (nodes (cache w))) ++ F) → same_geometry (mem w) m' →
    Q tt (mkWorld m' (set_links (delete n (links (cache w)))
                        (set_nodes (delete n (nodes (cache w))) (cache w))))) →
  wp (delete_node n) w Q.
Proof.
  intros Hn HM HQ. unfold delete_node. wp_steps. eapply get_node_wp; [done|].
  wp_steps. apply wp_zoom. eapply wp_mono.
  - apply (blocks_destroy_wp _ _ (cache_handles (delete n (nodes (cache w))) ++ F)).
    by rewrite app_assoc, <- cache_handles_delete.
  - intros [] m' (HM'&Hg&_). wp_steps. by apply HQ.
Qed.

(** Reading the pointers of a node does not change the world. *)
Lemma load_link_wp w n l (Q : Link → World → Prop) :
  links (cache w) !! n = Some l → Q l w → wp (in_links (load n)) w Q.
Proof.
  intros Hl HQ. unfold in_links, load. apply wp_zoom. wp_steps; [exact Hl|].
  by destruct w as [m []].
Qed.

(** The nodes left are the root and those the rest of the list names. *)
Lemma destroy_loop_wp ys : ∀ fuel w node acc F,
  head (ys ++ [lru_back_]) = Some node → chain (links (cache w)) (ys ++ [lru_back_]) →
  NoDup (ys ++ [lru_back_]) → (∀ n, is_Some (nodes (cache w) !! n) ↔ n = root_ ∨ n ∈ ys) →
  root_ ∉ ys → from_option blocks [] (nodes (cache w) !! root_) = [] →
  mem_ok (mem w) (cache_handles (nodes (cache w)) ++ F) → length ys < fuel →
  wp (destroy_loop fuel node acc) w (λ r w', r = acc + length ys ∧ mem_ok (mem w') F ∧
    num_nodes_ (cache w') = num_nodes_ (cache w) ∧ same_geometry (mem w) (mem w')).
Proof.
  induction ys as [|y ys IH]; intros [|fuel] w node acc F Hhead Hch Hnd Hdom Hroot Hrb HM Hfuel;
    simpl in *; [lia| |lia|].
  - simplify_eq. rewrite decide_True by done. apply wp_ret. split_and!; try done.
    replace (cache_handles (nodes (cache w))) with (@nil Block) in HM; [done|].
    destruct (proj2 (Hdom root_) (or_introl eq_refl)) as [r Hr].
    assert (nodes (cache w) = {[root_ := r]}) as ->.
    { apply map_eq. intros n. destruct (decide (n = root_)) as [->|Hn]; [by rewrite lookup_singleton_eq|].
      rewrite lookup_singleton_ne by done. apply eq_None_not_Some. rewrite Hdom. set_solver. }
    rewrite Hr in Hrb. simpl in Hrb. unfold cache_handles. rewrite map_to_list_singleton. simpl. by rewrite Hrb.
  - injection Hhead as <-. apply NoDup_cons in Hnd as [Hy Hnd].
    rewrite decide_False by (intros ->; set_solver).
    destruct (proj2 (Hdom y) ltac:(set_solver)) as [nd Hn].
    assert (∃ nxt, nextof (links (cache w)) y = Some nxt ∧ head (ys ++ [lru_back_]) = Some nxt)
      as (nxt&Hnxt&Hh) by (destruct ys; simpl in *; naive_solver).
    unfold nextof in Hnxt. apply bind_Some in Hnxt as (l&Hl&Hnl).
    wp_steps. eapply load_link_wp; [exact Hl|].
    wp_steps; [exact Hnl|]. eapply delete_node_wp; [exact Hn|done|]. intros m' HM' Hg.
    eapply wp_mono; [apply (IH fuel _ nxt (S acc) F); simpl; try done|].
    + apply chain_delete; [done|by eapply chain_tail].
    + intros n. rewrite lookup_delete_is_Some, Hdom.
      split; [set_solver|]. intros [->|Hin]; split; [set_solver|by left|set_solver|set_solver].
    + set_solver.
    + rewrite lookup_delete_ne; [done|set_solver].
    + lia.
    + simpl. intros r w' (->&?&?&?). split_and!; [lia|done|done|by etrans].
Qed.

Lemma PrefixCache_destroy_wp w t F :
  world_ok w t F →
  wp PrefixCache_destroy w (λ _ w', mem_ok (mem w') F ∧ same_geometry (mem w) (mem w')).
Proof.
  intros (xs&[HC _ HM _]). pose proof (ci_lru _ _ HC) as [Hnd Hch].
  destruct (ti_root _ _ (ci_tree _ _ HC)) as (r&Hr&_&Hrb).
  apply NoDup_cons in Hnd as [_ Hnd].
  assert (∃ first, nextof (links (cache w)) lru_front_ = Some first ∧
    head (xs ++ [lru_back_]) = Some first) as (first&Hf&Hh) by (destruct xs; simpl in *; naive_solver).
  unfold nextof in Hf. apply bind_Some in Hf as (l&Hl&Hfl).
  unfold PrefixCache_destroy. wp_steps. eapply load_link_wp; [exact Hl|].
  wp_steps; [exact Hfl|].
  eapply wp_mono; [apply (destroy_loop_wp xs _ _ first 0 F); try done|].
  - by eapply chain_tail.
  - intros n. split; [|intros [->|Hn]; [by eexists|by apply (ci_xs _ _ HC)]].
    intros Hs. destruct (decide (n = root_)); [by left|right]. by apply (ci_xs _ _ HC).
  - intros Hin. by apply (ci_xs _ _ HC) in Hin as [? _].
  - simpl. by rewrite Hr.
  - simpl. rewrite (ci_num_nodes _ _ HC). lia.
  - intros n w' (->&HM'&Hnn&Hg). wp_steps; [|done].
    apply bool_decide_eq_true_2. rewrite Hnn. apply (ci_num_nodes _ _ HC).
Qed.
