(* ===== verification/PrefixCacheInsert.v ===== *)
(** * The prefix cache: [insert]

    [insert] makes every block-aligned prefix of the inserted tokens part of the
    content, adds nothing else and drops nothing; where the tokens were already
    cached it keeps the blocks the cache had.  The proof follows the loop down
    the tree with the path from the root to the current node. *)

From stdpp Require Import base tactics list gmap strings sorting.
From S2P Require Import Prelude Slice Block Lru PrefixCache PrefixCacheInv PrefixCacheSpec.

(** ** Paths *)

(** The nodes from below [m] down to [n] spell the tokens [t] with blocks [b]. *)
Inductive path (ns : gmap positive Node) (m : positive) : positive → list Z → list Block → Prop :=
  | path_refl : path ns m m [] []
  | path_snoc n nd c cd t b :
      path ns m n t b → ns !! n = Some nd → c ∈ children nd → ns !! c = Some cd →
      path ns m c (t ++ token_ids cd) (b ++ blocks cd).

Lemma path_cons ns m md c cd n t b :
  ns !! m = Some md → c ∈ children md → ns !! c = Some cd → path ns c n t b →
  path ns m n (token_ids cd ++ t) (blocks cd ++ b).
Proof.
  intros Hm Hc Hcd H. induction H as [|n nd c' cd' t b _ IH Hn Hc' Hcd'].
  - rewrite !app_nil_r. change (path ns m c ([] ++ token_ids cd) ([] ++ blocks cd)).
    eapply path_snoc; [constructor|done..].
  - rewrite !app_assoc. by eapply path_snoc.
Qed.

(** The path from the root is unique, because every node has one parent. *)
Lemma path_unique bs ns n t1 b1 t2 b2 :
  TreeInv bs ns → path ns root_ n t1 b1 → path ns root_ n t2 b2 → t1 = t2 ∧ b1 = b2.
Proof.
  intros HT H1. revert t2 b2. induction H1 as [|p pn c cd t b _ IH Hp Hc Hcd]; intros t2 b2 H2.
  - inversion H2 as [|p pn c cd t b _ Hp Hc Hcd]; subst; [done|].
    by destruct (ti_child _ _ HT _ _ _ Hp Hc) as [? _].
  - destruct (ti_child _ _ HT _ _ _ Hp Hc) as (Hr&cd'&Hcd'&Hpar).
    inversion H2 as [|p' pn' c' cd'' t' b' Hp2 Hp' Hc' Hcd'' Heq]; subst; [done|].
    destruct (ti_child _ _ HT _ _ _ Hp' Hc') as (_&cd3&Hcd3&Hpar3). simplify_eq.
    by destruct (IH _ _ Hp2) as [-> ->].
Qed.

Lemma path_descends bs ns m n t b t' b' :
  path ns m n t b → descends bs ns n t' b' → descends bs ns m (t ++ t') (b ++ b').
Proof.
  intros H. revert t' b'. induction H as [|n nd c cd t b _ IH Hn Hc Hcd]; intros t' b' Hd; [done|].
  rewrite <- !app_assoc. apply IH. by eapply descends_full.
Qed.

(** ** Growing trees *)

(** Every old node is still there with its content, and has at least its old
    children. *)
Definition tree_le (ns ns' : gmap positive Node) : Prop :=
  ∀ n nd, ns !! n = Some nd → ∃ nd', ns' !! n = Some nd' ∧
    token_ids nd' = token_ids nd ∧ blocks nd' = blocks nd ∧ children nd ⊆ children nd'.

Lemma strip_tree_le ns ns' : strip ns = strip ns' → tree_le ns ns'.
Proof.
  intros Heq n nd Hn. destruct (strip_lookup _ _ _ _ Heq Hn) as (nd'&?&?&?&Hc&_).
  exists nd'. by rewrite Hc.
Qed.

Lemma path_mono ns ns' m n t b : tree_le ns ns' → path ns m n t b → path ns' m n t b.
Proof.
  intros Hle H. induction H as [|n nd c cd t b _ IH Hn Hc Hcd]; [constructor|].
  destruct (Hle _ _ Hn) as (nd'&Hn'&_&_&Hsub). destruct (Hle _ _ Hcd) as (cd'&Hcd'&<-&<-&_).
  eapply path_snoc; [done..|by apply Hsub|done].
Qed.

Lemma descends_mono bs ns ns' n t b :
  tree_le ns ns' → descends bs ns n t b → descends bs ns' n t b.
Proof.
  intros Hle H. induction H as [n|n nd c cd k Hn Hc Hcd Hk|n nd c cd t b Hn Hc Hcd _ IH];
    [constructor|..]; destruct (Hle _ _ Hn) as (nd'&Hn'&_&_&Hsub); apply Hsub in Hc;
    destruct (Hle _ _ Hcd) as (cd'&Hcd'&Ht&Hb&_).
  - rewrite <- Ht, <- Hb in *. by eapply descends_part.
  - rewrite <- Ht, <- Hb. by eapply descends_full.
Qed.

(** ** The path survives a split below it *)

Lemma path_split bs ns node child nd k rank m n t b :
  0 < bs → TreeInv bs ns → ns !! node = Some nd → node ≠ root_ → ns !! child = None →
  0 < k < length (blocks nd) →
  (∀ n nd c, ns !! n = Some nd → c ∈ children nd → rank n < rank c) →
  rank n < rank node → path ns m n t b →
  path (split_map ns node child nd k bs) m n t b.
Proof.
  intros Hbs HT Hnode Hroot Hfresh Hk Hrank Hlt H.
  induction H as [|n x c cd t b _ IH Hn Hc Hcd]; [constructor|].
  pose proof (Hrank _ _ _ Hn Hc) as Hr.
  assert (n ≠ node) by (intros ->; lia). assert (c ≠ node) by (intros ->; lia).
  destruct (split_lookup_old bs ns node child nd k Hbs HT Hnode Hroot Hfresh Hk n x)
    as (x'&Hx'&_&_&Hcx&_); [done..|].
  destruct (split_lookup_old bs ns node child nd k Hbs HT Hnode Hroot Hfresh Hk c cd)
    as (cd'&Hcd'&<-&<-&_); [done..|].
  eapply path_snoc; [apply IH; lia|done|by rewrite Hcx|done].
Qed.

(** ** The content after a new leaf *)

Section create_descends.
Context (bs : nat) (ns : gmap positive Node) (node child : positive) (nd : Node)
  (tokens : list Z) (bl : list Block) (now : Z).
Context (HT : TreeInv bs ns) (Hnode : ns !! node = Some nd) (Hfresh : ns !! child = None)
  (Hlen : length tokens = length bl * bs) (Hne : tokens ≠ [])
  (Hsib : ∀ c cd, c ∈ children nd → ns !! c = Some cd →
    take bs tokens ≠ take bs (token_ids cd)).
Local Abbreviation ns' := (create_map ns node child nd tokens bl now).

Let Linv := create_lookup_inv bs ns node child nd tokens bl now HT Hnode Hfresh Hlen Hne Hsib.
Let Lold := create_lookup_old bs ns node child nd tokens bl now HT Hnode Hfresh Hlen Hne Hsib.

Lemma create_tree_le : tree_le ns ns'.
Proof using All.
  intros n y Hn. destruct (Lold n y Hn) as (x&?&?&?&_&Hc). exists x. rewrite Hc. set_solver.
Qed.

Lemma create_lookup_child : ns' !! child = Some (mkNode tokens bl [] (Some node) now).
Proof using All.
  unfold create_map. rewrite lookup_insert_ne by congruence. by rewrite lookup_insert_eq.
Qed.

(** The leaf itself spells prefixes of the new tokens only. *)
Lemma create_descends_leaf t b : descends bs ns' child t b → t = [] ∧ b = [].
Proof using All.
  intros H. inversion H as [|n x c cd k Hx Hc|n x c cd t' b' Hx Hc]; subst; [done|..];
    rewrite create_lookup_child in Hx; simplify_eq/=; set_solver.
Qed.

(** A child in the new tree is an old child or the leaf. *)
Lemma create_child_inv n x c cd : ns' !! n = Some x → c ∈ children x → ns' !! c = Some cd →
  (n = node ∧ c = child ∧ token_ids cd = tokens ∧ blocks cd = bl) ∨
  (∃ y cd0, ns !! n = Some y ∧ c ∈ children y ∧ ns !! c = Some cd0 ∧
     token_ids cd = token_ids cd0 ∧ blocks cd = blocks cd0).
Proof using All.
  intros Hx Hc Hcd. destruct (Linv n x Hx) as [[-> ->]|(_&y&Hy&_&_&_&Hcx)]; [simpl in *; set_solver|].
  rewrite Hcx in Hc. apply elem_of_app in Hc as [Hc|Hc].
  - right. destruct (ti_child _ _ HT _ _ _ Hy Hc) as (_&cd0&Hcd0&_).
    destruct (Lold c cd0 Hcd0) as (cd'&?&?&?&_). simplify_eq. by exists y, cd0.
  - left. case_decide; [|set_solver]. apply list_elem_of_singleton in Hc as ->.
    rewrite create_lookup_child in Hcd. by simplify_eq.
Qed.

Lemma create_descends_bwd m t b : descends bs ns' m t b →
  descends bs ns m t b ∨
  ∃ pt pb j, path ns m node pt pb ∧ j ≤ length bl ∧
    t = pt ++ take (j * bs) tokens ∧ b = pb ++ take j bl.
Proof using All.
  intros H. induction H as [m|m x c cd j Hm Hc Hcd Hj|m x c cd t b Hm Hc Hcd Hd IH];
    [left; constructor|..];
    destruct (create_child_inv m x c cd Hm Hc Hcd) as [(->&->&Ht&Hb)|(y&cd0&Hy&Hc0&Hcd0&Ht&Hb)];
    rewrite Ht, Hb in *.
  - right. exists [], [], j. split_and!; [constructor|lia|done..].
  - left. by eapply descends_part.
  - right. apply create_descends_leaf in Hd as [-> ->]. exists [], [], (length bl).
    rewrite !app_nil_r, <- Hlen, !take_ge by done. split_and!; [constructor|done..].
  - destruct IH as [IH|(pt&pb&j&Hp&Hj&->&->)]; [left; by eapply descends_full|].
    right. exists (token_ids cd0 ++ pt), (blocks cd0 ++ pb), j. rewrite !app_assoc.
    split_and!; [by eapply path_cons|done..].
Qed.

(** The content grows by the prefixes of the path extended with the new tokens. *)
Lemma create_descends_root pt pb t b : path ns root_ node pt pb →
  descends bs ns' root_ t b ↔ descends bs ns root_ t b ∨
  ∃ j, j ≤ length bl ∧ t = pt ++ take (j * bs) tokens ∧ b = pb ++ take j bl.
Proof using All.
  intros Hpath. split.
  - intros [H|(pt'&pb'&j&Hp&Hj&->&->)]%create_descends_bwd; [by left|right].
    destruct (path_unique _ _ _ _ _ _ _ HT Hpath Hp) as [<- <-]. eauto.
  - intros [H|(j&Hj&->&->)]; [by eapply descends_mono, H; apply create_tree_le|].
    eapply path_descends; [by eapply path_mono, Hpath; apply create_tree_le|].
    destruct (decide (j = 0)) as [->|]; [constructor|].
    destruct (Lold node nd Hnode) as (x&Hx&_&_&_&Hcx).
    rewrite decide_True in Hcx by done.
    eapply (descends_part _ _ _ x child (mkNode tokens bl [] (Some node) now) j Hx);
      [rewrite Hcx; set_solver|apply create_lookup_child|simpl; lia].
Qed.
End create_descends.

(** ** One level of the loop *)

(** What is known after the child [c], of which [k] blocks match, was touched
    and split if only a part of it matched. *)
Record entered (w : World) (c : positive) (cd : Node) (k : nat) (now : Z) (F : list Block)
    (w3 : World) : Prop := {
  en_ok : world_ok w3 now F;
  en_sizes : same_sizes w w3;
  en_node : is_Some (nodes (cache w3) !! c);
  en_path : ∀ n nd pt pb, nodes (cache w) !! n = Some nd → c ∈ children nd →
    path (nodes (cache w)) root_ n pt pb →
    path (nodes (cache w3)) root_ c (pt ++ take (k * cache_block_size (cache w)) (token_ids cd))
      (pb ++ take k (blocks cd));
  en_content : ∀ t b, cached (cache w3) t b ↔ cached (cache w) t b;
  en_handles : cache_handles (nodes (cache w3)) ≡ₚ cache_handles (nodes (cache w));
  en_full : k = length (blocks cd) → strip (nodes (cache w3)) = strip (nodes (cache w));
}.

Lemma entered_full w w1 c cd now F :
  let bs := cache_block_size (cache w) in
  length (token_ids cd) = length (blocks cd) * bs → nodes (cache w) !! c = Some cd →
  world_ok w1 now F → same_sizes w w1 → strip (nodes (cache w1)) = strip (nodes (cache w)) →
  entered w c cd (length (blocks cd)) now F w1.
Proof.
  intros bs Hlen Hcd Hw1 Hs Hst. split; try done.
  - by eapply strip_is_Some; [symmetry|eexists].
  - intros n nd pt pb Hn Hc Hp. fold bs. rewrite <- Hlen, !take_ge by done.
    eapply path_mono; [apply strip_tree_le; symmetry; exact Hst|]. by eapply path_snoc.
  - intros t b. unfold cached. destruct Hs as [-> _]. split; by apply descends_strip.
  - by rewrite (cache_handles_strip _ _ Hst).
Qed.

Lemma entered_split w w1 c cd cd1 child k now F w3 :
  let bs := cache_block_size (cache w) in
  0 < bs → TreeInv bs (nodes (cache w)) → c ≠ root_ → nodes (cache w) !! c = Some cd →
  0 < k < length (blocks cd) →
  strip (nodes (cache w1)) = strip (nodes (cache w)) →
  nodes (cache w1) !! c = Some cd1 → nodes (cache w1) !! child = None →
  nodes (cache w3) = split_map (nodes (cache w1)) c child cd1 k bs →
  world_ok w3 now F → same_sizes w w3 →
  entered w c cd k now F w3.
Proof.
  intros bs Hbs HT Hcr Hcd Hk Hst Hcd1 Hfresh Hns3 Hw3 Hs3.
  assert (TreeInv bs (nodes (cache w1))) as HT1 by (by eapply TreeInv_strip, HT).
  destruct (strip_lookup _ _ _ _ Hst Hcd1) as (cd'&Hcd'&Ht&Hb&_). simplify_eq. rewrite Hb in Hk.
  destruct (split_lookup_node bs (nodes (cache w1)) c child cd1 k Hbs HT1 Hcd1 Hcr Hfresh Hk)
    as (x&Hx&Htx&Hbx&_).
  split; try done.
  - rewrite Hns3. by eexists.
  - intros n nd pt pb Hn Hc Hp. fold bs. rewrite Ht, Hb, <- Htx, <- Hbx, Hns3.
    destruct (strip_lookup _ _ _ _ (eq_sym Hst) Hn) as (nd1&Hn1&_&_&Hc1&_). rewrite <- Hc1 in Hc.
    destruct (ti_rank _ _ HT1) as [rank Hrank]. pose proof (Hrank _ _ _ Hn1 Hc) as Hlt.
    assert (n ≠ c) by (intros ->; lia).
    destruct (split_lookup_old bs (nodes (cache w1)) c child cd1 k Hbs HT1 Hcd1 Hcr Hfresh Hk n nd1)
      as (y&Hy&_&_&Hcy&_); [done..|].
    eapply path_snoc; [|exact Hy|by rewrite Hcy|exact Hx].
    eapply path_split; [done..|]. eapply path_mono, Hp. apply strip_tree_le. by symmetry.
  - intros t b. unfold cached. destruct Hs3 as [-> _]. fold bs. rewrite Hns3.
    rewrite (split_descends_root bs (nodes (cache w1)) c child cd1 k Hbs HT1 Hcd1 Hcr Hfresh Hk).
    split; apply descends_strip; congruence.
  - rewrite Hns3, (split_handles bs (nodes (cache w1)) c child cd1 k Hbs HT1 Hcd1 Hcr Hfresh Hk).
    by rewrite (cache_handles_strip _ _ Hst).
  - rewrite Hb. lia.
Qed.

(** ** The loop *)

Definition insert_post (w : World) (curr : positive) (pt : list Z) (pb : list Block)
    (toks : list Z) (blks : list Block) (acc : nat) (now : Z) (F : list Block)
    (r : nat) (w' : World) : Prop :=
  let bs := cache_block_size (cache w) in
  ∃ fb m, length fb = length blks ∧ m ≤ length blks ∧ drop m fb = drop m blks ∧
    cached (cache w) (pt ++ take (m * bs) toks) (pb ++ take m fb) ∧
    (∀ t b, descends bs (nodes (cache w)) curr t b → t `prefix_of` toks → length b ≤ m) ∧
    r = acc + (length blks - m) * bs ∧
    world_ok w' now F ∧ same_sizes w w' ∧
    cache_handles (nodes (cache w')) ≡ₚ drop m blks ++ cache_handles (nodes (cache w)) ∧
    (∀ t b, cached (cache w') t b ↔ cached (cache w) t b ∨
       ∃ j, j ≤ length blks ∧ t = pt ++ take (j * bs) toks ∧ b = pb ++ take j fb).

Lemma insert_post_nil w curr pt pb acc t now F :
  path (nodes (cache w)) root_ curr pt pb → world_ok w t F → (t ≤ now)%Z →
  TreeInv (cache_block_size (cache w)) (nodes (cache w)) → 0 < cache_block_size (cache w) →
  insert_post w curr pt pb [] [] acc now F acc w.
Proof.
  intros Hp Hw Hle HT Hbs. exists [], 0. simpl.
  assert (cached (cache w) pt pb) as Hc.
  { rewrite <- (app_nil_r pt), <- (app_nil_r pb). eapply path_descends; [done|constructor]. }
  rewrite !app_nil_r. split_and!; try done; [|by eapply world_ok_later|].
  - intros t' b' Hd ->%prefix_nil_inv. apply (descends_length _ _ _ _ _ HT) in Hd. simpl in Hd. nia.
  - intros t' b'. split; [by left|]. intros [?|(j&_&->&->)]; [done|]. by rewrite !take_nil, !app_nil_r.
Qed.

Lemma insert_post_leaf w curr cn child pt pb toks blks acc now F w' :
  let bs := cache_block_size (cache w) in
  0 < bs → TreeInv bs (nodes (cache w)) → nodes (cache w) !! curr = Some cn →
  path (nodes (cache w)) root_ curr pt pb →
  nodes (cache w) !! child = None → length toks = length blks * bs → toks ≠ [] →
  (∀ c cd, c ∈ children cn → nodes (cache w) !! c = Some cd → ¬ matches bs toks cd) →
  (∀ c cd, c ∈ children cn → nodes (cache w) !! c = Some cd → take bs toks ≠ take bs (token_ids cd)) →
  nodes (cache w') = create_map (nodes (cache w)) curr child cn toks blks now →
  world_ok w' now F → same_sizes w w' →
  insert_post w curr pt pb toks blks acc now F (acc + length toks) w'.
Proof.
  intros bs Hbs HT Hn Hp Hfresh Hlen Hne Hno Hsib Hns' Hw' Hs. exists blks, 0. fold bs.
  simpl. rewrite !app_nil_r, Nat.sub_0_r. split_and!; try done; [lia| | |lia| |].
  - rewrite <- (app_nil_r pt), <- (app_nil_r pb). eapply path_descends; [done|constructor].
  - intros t b Hd Hpre. destruct (descends_step bs _ toks curr cn t b Hbs HT Hn Hd Hpre) as [->|H]; [done|].
    destruct H as (c&cd&Hc&Hcd&Hm&_). exfalso. by eapply Hno.
  - rewrite Hns'. by rewrite (create_handles bs).
  - intros t b. unfold cached. destruct Hs as [-> _]. fold bs. rewrite Hns'.
    by rewrite (create_descends_root bs (nodes (cache w)) curr child cn toks blks now HT Hn Hfresh
      Hlen Hne Hsib pt pb).
Qed.

Lemma insert_post_step w curr cn c cd k pt pb toks blks acc now F w3 r w' :
  let bs := cache_block_size (cache w) in
  0 < bs → TreeInv bs (nodes (cache w)) → nodes (cache w) !! curr = Some cn →
  path (nodes (cache w)) root_ curr pt pb →
  c ∈ children cn → nodes (cache w) !! c = Some cd → matches bs toks cd →
  0 < k ≤ length (blocks cd) → length toks = length blks * bs → k * bs ≤ length toks →
  take (k * bs) toks = take (k * bs) (token_ids cd) →
  length (token_ids cd) = length (blocks cd) * bs →
  (∀ j, j * bs ≤ common_prefix_length toks (token_ids cd) → j ≤ k) →
  entered w c cd k now F w3 →
  insert_post w3 c (pt ++ take (k * bs) toks) (pb ++ take k (blocks cd)) (drop (k * bs) toks)
    (drop k blks) acc now F r w' →
  insert_post w curr pt pb toks blks acc now F r w'.
Proof.
  intros bs Hbs HT Hn Hp Hc Hcd Hm Hk Hlt Hkt Htake Hlen Hmaxk [Hw3 Hs3 Hn3 _ Hcont Hh3 Hst]
    (fb&m&Hfb&Hmle&Hdrop&Hcm&Hmax&->&Hw'&Hs'&Hh'&Hc').
  assert (cache_block_size (cache w3) = bs) as Hbs3 by apply Hs3. rewrite Hbs3 in *.
  rewrite length_drop in *. assert (k ≤ length blks) as Hkb by nia.
  exists (take k (blocks cd) ++ fb), (k + m). fold bs. rewrite length_app, length_take.
  replace (take (k + m) (take k (blocks cd) ++ fb)) with (take k (blocks cd) ++ take m fb)
    by (rewrite take_app_ge by (rewrite length_take; lia); f_equal; f_equal; rewrite length_take; lia).
  split_and!; try done; [lia|lia|..].
  - rewrite drop_app_ge by (rewrite length_take; lia). rewrite length_take, Nat.min_l by lia.
    rewrite <- drop_drop, <- Hdrop. f_equal. lia.
  - apply Hcont in Hcm. rewrite <- !app_assoc, take_take_drop, <- Nat.mul_add_distr_r in Hcm. done.
  - intros t b Hd Hpre. destruct (descends_step bs _ toks curr cn t b Hbs HT Hn Hd Hpre) as [->|H].
    { simpl. lia. }
    destruct H as (c'&cd'&Hc''&Hcd'&Hm'&Hor).
    assert (c' = c) as -> by (eapply matches_unique; [exact HT|exact Hn|..]; done). simplify_eq.
    destruct Hor as [(j&->&Hj%Hmaxk)|(t'&b'&->&->&Hd'&Hj)]; [rewrite length_take; lia|].
    rewrite Hlen in Hj. apply Hmaxk in Hj. assert (k = length (blocks cd)) as -> by lia.
    rewrite length_app. apply Nat.add_le_mono_l, (Hmax t'); [by eapply descends_strip; [symmetry; apply Hst|]|].
    destruct Hpre as [rest ->]. rewrite <- app_assoc, <- Hlen, drop_app_length. by apply prefix_app_r.
  - f_equal. nia.
  - by etrans.
  - by rewrite Hh', Hh3, drop_drop.
  - intros t b. rewrite Hc', Hcont. split; (intros [?|(j&Hj&->&->)]; [by left|]).
    + right. exists (k + j). split; [lia|]. rewrite <- !app_assoc, take_take_drop, <- Nat.mul_add_distr_r.
      split; [done|]. rewrite take_app_ge by (rewrite length_take; lia). do 3 f_equal. rewrite length_take. lia.
    + destruct (decide (j < k)) as [Hjk|]; [left|right].
      * rewrite take_app_le by (rewrite length_take; lia). rewrite take_take_le by lia.
        eapply path_descends; [done|].
        rewrite <- (take_take_le toks (j * bs) (k * bs)), Htake, take_take_le by nia.
        destruct (decide (j = 0)) as [->|]; [constructor|].
        eapply descends_part; [done..|]. lia.
      * exists (j - k). split; [lia|]. rewrite <- !app_assoc, take_take_drop, <- Nat.mul_add_distr_r.
        split; [do 2 f_equal; nia|]. rewrite take_app_ge by (rewrite length_take; lia).
        do 3 f_equal. rewrite length_take. lia.
Qed.

(** No child shares the first block, in the form the new leaf needs it. *)
Lemma no_match_sibling bs tokens cd :
  bs ≤ length tokens → bs ≤ length (token_ids cd) → ¬ matches bs tokens cd →
  take bs tokens ≠ take bs (token_ids cd).
Proof. intros H1 H2 Hm Heq. apply Hm, cpl_spec. done. Qed.

Lemma insert_loop_wp fuel : ∀ w xs t F now curr cn pt pb toks blks acc,
  world_inv w xs t F → (t ≤ now)%Z → (0 ≤ now)%Z → nodes (cache w) !! curr = Some cn →
  path (nodes (cache w)) root_ curr pt pb → length toks = length blks * cache_block_size (cache w) →
  blks ⊆ F → length toks < fuel →
  wp (insert_loop fuel now curr toks blks acc) w (insert_post w curr pt pb toks blks acc now F).
Proof.
  induction fuel as [|fuel IH];
    intros w xs t F now curr cn pt pb toks blks acc Hw Hle Hnow Hcurr Hp Hlt Hsub Hfuel; [lia|].
  pose proof Hw as [HC _ _ _]. pose proof (ci_bs _ _ HC) as Hbs. pose proof (ci_tree _ _ HC) as HT.
  cbn [insert_loop]. destruct toks as [|tok toks'] eqn:Htoks.
  { assert (blks = []) as -> by (destruct blks; simpl in Hlt; [done|nia]).
    apply wp_ret. eapply (insert_post_nil w curr pt pb acc t); try done. by exists xs. }
  rewrite <- Htoks in *. assert (toks ≠ []) as Hne by congruence. clear tok toks' Htoks.
  apply wp_bind. eapply get_node_wp; [done|]. apply wp_bind. apply find_child_wp; [done| |intros Hno|].
  { intros c Hc. destruct (ti_child _ _ HT _ _ _ Hcurr Hc) as (_&cd&?&_). by eexists. }
  - (* a new leaf *)
    assert (0 < length toks) by (destruct toks; [done|simpl; lia]).
    assert (∀ c cd, c ∈ children cn → nodes (cache w) !! c = Some cd →
      take (cache_block_size (cache w)) toks ≠ take (cache_block_size (cache w)) (token_ids cd)) as Hsib.
    { intros c cd Hc Hcd. destruct (ti_child _ _ HT _ _ _ Hcurr Hc) as (Hcr&_).
      destruct (ti_node _ _ HT _ _ Hcd Hcr) as (Hl&Hb&_).
      apply no_match_sibling; [destruct blks; simpl in *; nia| |by eapply Hno]. destruct (blocks cd); [done|simpl in *; nia]. }
    apply wp_bind. eapply wp_mono; [by apply (create_child_wp w xs t F curr cn)|].
    intros _ w' ((xs'&Hw')&Hs&_&Hns'). apply wp_ret.
    eapply insert_post_leaf; try done; [apply (ci_fresh_node _ _ HC)|by exists xs'].
  - intros c cd Hc Hcd Hm.
    destruct (matched_facts _ _ _ _ _ _ _ Hbs HT Hcurr Hc Hcd Hm) as (k&->&Hk&Hkt&Htake&Hlen&Hmaxk).
    destruct (ti_child _ _ HT _ _ _ Hcurr Hc) as (Hcr&_).
    apply wp_bind. eapply wp_mono; [apply (touch_wp w xs t F c now Hw); [|done]|].
    { apply (ci_xs _ _ HC). split; [done|by eexists]. }
    intros _ w1 ((xs1&Hw1)&Hst&Hmem&Hbs1&Htime).
    assert (same_sizes w w1) as Hs1 by (split; [done|by rewrite Hmem]).
    destruct (strip_lookup _ (nodes (cache w1)) c cd (eq_sym Hst) Hcd) as (cd1&Hcd1&Ht1&Hb1&_&_).
    wp_steps; [apply bool_decide_eq_true_2; by rewrite Hbs1, Nat.Div0.mod_mul|].
    rewrite Hbs1, Nat.div_mul by lia. wp_steps. apply slice_from_wp; [done|].
    wp_steps. apply slice_from_wp; [nia|]. wp_steps. eapply get_node_wp; [done|]. rewrite Ht1.
    assert (wp (if decide (k * cache_block_size (cache w) < length (token_ids cd))
      then split_node c (k * cache_block_size (cache w)) else mret tt) w1
      (λ _ w3, entered w c cd k now F w3)) as Henter.
    { case_decide as Hpart.
      - rewrite <- Hbs1. eapply wp_mono; [apply (split_node_wp _ xs1 now F c cd1 k Hw1); [done|done|rewrite Hb1; nia|]|].
        + unfold time_of in Htime. by rewrite Hcd1 in Htime.
        + intros _ w3 ((xs3&Hw3)&Hs3&Hns3). rewrite Hbs1 in Hns3.
          eapply (entered_split w w1 c cd cd1); try done;
            [nia|apply (ci_fresh_node _ _ (wi_cache _ _ _ _ Hw1))|by exists xs3|by etrans].
      - apply wp_ret. assert (k = length (blocks cd)) as -> by nia.
        apply entered_full; try done. by exists xs1. }
    wp_steps. eapply wp_mono; [exact Henter|]. intros [] w3 Hen.
    destruct (en_ok _ _ _ _ _ _ _ Hen) as (xs3&Hw3). pose proof (en_sizes _ _ _ _ _ _ _ Hen) as Hs3.
    destruct (en_node _ _ _ _ _ _ _ Hen) as [cn3 Hn3]. pose proof (en_path _ _ _ _ _ _ _ Hen) as Hpath3.
    assert (cache_block_size (cache w3) = cache_block_size (cache w)) as Hbs3 by apply Hs3.
    eapply wp_mono; [eapply (IH w3 xs3 now F now c cn3 (pt ++ take (k * cache_block_size (cache w)) toks)
      (pb ++ take k (blocks cd))); try done|].
    + rewrite Htake. by apply (Hpath3 curr cn).
    + rewrite Hbs3, !length_drop. nia.
    + intros x Hx. apply Hsub. by eapply elem_of_sublist, sublist_drop.
    + rewrite length_drop. nia.
    + intros r w' Hpost. by eapply (insert_post_step w curr cn c cd k).
Qed.

(** ** insert *)

(** What [insert] promises: [n] whole blocks of the tokens become part of the
    content, the first [m] of them were there before (with the blocks [fb]
    shows), the others are the blocks handed in. *)
Definition insert_spec (w : World) (tokens : list Z) (bl : list Block) (now : Z)
    (F : list Block) (r : nat) (w' : World) : Prop :=
  let bs := cache_block_size (cache w) in
  let n := Nat.min (length tokens / bs) (length bl) in
  ∃ fb m, length fb = n ∧ m ≤ n ∧ drop m fb = drop m (take n bl) ∧
    cached (cache w) (take (m * bs) tokens) (take m fb) ∧
    (∀ t b, cached (cache w) t b → t `prefix_of` take (n * bs) tokens → length b ≤ m) ∧
    r = (n - m) * bs ∧
    world_ok w' now F ∧ same_sizes w w' ∧
    cache_handles (nodes (cache w')) ≡ₚ drop m fb ++ cache_handles (nodes (cache w)) ∧
    (∀ t b, cached (cache w') t b ↔ cached (cache w) t b ∨
       ∃ j, j ≤ n ∧ t = take (j * bs) tokens ∧ b = take j fb).

Lemma insert_wp w t F now tokens bl :
  world_ok w t F → (t ≤ now)%Z → (0 ≤ now)%Z → bl ⊆ F →
  wp (insert tokens bl now) w (insert_spec w tokens bl now F).
Proof.
  intros (xs&Hw) Hle Hnow Hsub. pose proof Hw as [HC _ _ _]. pose proof (ci_bs _ _ HC) as Hbs.
  destruct (ti_root _ _ (ci_tree _ _ HC)) as (rn&Hr&_).
  unfold insert, insert_spec. wp_steps. set (bs := cache_block_size (cache w)) in *.
  set (n := Nat.min (length tokens / bs) (length bl)).
  assert (n * bs ≤ length tokens) as Hn.
  { pose proof (Nat.Div0.mul_div_le (length tokens) bs). nia. }
  apply slice_wp; [lia|]. wp_steps. apply slice_wp; [lia|]. rewrite !Nat.sub_0_r, !drop_0.
  assert (length (take n bl) = n) as Hlb by (rewrite length_take; lia).
  assert (length (take (n * bs) tokens) = n * bs) as Hlt by (rewrite length_take; lia).
  eapply wp_mono; [eapply (insert_loop_wp _ w xs t F now root_ rn [] [])|]; try done.
  - constructor.
  - by rewrite Hlt, Hlb.
  - intros x Hx. apply Hsub. by eapply elem_of_sublist, sublist_take.
  - lia.
  - intros r w' (fb&m&Hfb&Hm&Hdrop&Hcm&Hmax&->&Hw'&Hs&Hh&Hc). rewrite Hlb in *. fold bs in Hcm, Hmax, Hc.
    exists fb, m. simpl in *. rewrite take_take_le in Hcm by nia.
    split_and!; try done; [by rewrite Hdrop|]. intros t' b'. rewrite Hc.
    split; (intros [?|(j&Hj&->&->)]; [by left|]); right; exists j; rewrite take_take_le by nia; done.
Qed.

(** Tokens that were inserted are found again. *)
Lemma insert_match_wp w t F now now' tokens bl :
  world_ok w t F → (t ≤ now)%Z → (0 ≤ now)%Z → (now ≤ now')%Z → bl ⊆ F →
  wp (_ ← insert tokens bl now; match_ tokens now') w (λ r w',
    Nat.min (length tokens / cache_block_size (cache w)) (length bl) ≤ length r ∧
    world_ok w' now' (r ++ F)).
Proof.
  intros Hw Hle Hnow Hle' Hsub. wp_steps. eapply wp_mono; [by eapply insert_wp|].
  intros a w1 (fb&m&Hfb&_&_&_&_&_&Hw1&Hs1&_&Hc1).
  eapply wp_mono; [by eapply match_wp|]. intros r w' (Hw'&_&_&_&Hmax&_&_).
  split; [|done]. set (n := Nat.min _ _) in *.
  assert (fb `prefix_of` r) as Hp.
  { eapply (Hmax (take (n * cache_block_size (cache w)) tokens)); [|apply prefix_take].
    apply Hc1. right. exists n. rewrite (take_ge fb) by lia. done. }
  apply prefix_length in Hp. lia.
Qed.
