(* ===== verification/Types.v ===== *)
(** * Shared data types

    [src/request/output.h], [src/request/status.h] and the sampling parameters of
    [src/sampling/parameters.h]: the enumerations and records that the requests,
    the batches and the responses are made of.  IEEE floating point is the
    Standard Library's executable [SpecFloat]. *)

From Stdlib Require Import SpecFloat Ascii.
From stdpp Require Import base tactics list strings.
From S2P Require Import Prelude.

(** ** Text *)

(** [std::string] and [std::string_view] of user text: a sequence of bytes.
    Fixed strings of the code stay literals of type [string]. *)
Abbreviation text := (list ascii) (only parsing).

(** ** Floating point *)

(** [float] and [double] values; the format is fixed by the operations. *)
Abbreviation float := spec_float (only parsing).

(** [double + double], [double / double], [size_t -> double]. *)
Definition double_add : float → float → float := SFadd 53 1024.
Definition double_div : float → float → float := SFdiv 53 1024.
Definition double_of_size (n : nat) : float := binary_normalize 53 1024 (Z.of_nat n) 0 false.

(** Conversions between the formats, rounding to nearest even. *)
Definition convert (prec emax : Z) (x : float) : float :=
  match x with
  | S754_finite s m e =>
      binary_normalize prec emax (if s then Zneg m else Zpos m) e s
  | _ => x
  end.
Definition double_of_float : float → float := convert 53 1024.
Definition float_of_double : float → float := convert 24 128.

(** Integer literals of the code, as [float]. *)
Definition float_of_Z (z : Z) : float := binary_normalize 24 128 z 0 false.

(** ** Enumerations *)

(** [enum class Priority]. *)
Inductive Priority := HIGH | NORMAL | LOW.
#[global] Instance Priority_eq_dec : EqDecision Priority.
Proof. solve_decision. Defined.

(** The value of the enumerator, which [<] and [>] compare. *)
Definition priority_value (p : Priority) : nat :=
  match p with HIGH => 0 | NORMAL => 1 | LOW => 2 end.

(** [enum class FinishReason]. *)
Inductive FinishReason := NONE | STOP | LENGTH | FUNCTION_CALL.
#[global] Instance FinishReason_eq_dec : EqDecision FinishReason.
Proof. solve_decision. Defined.

(** [to_string(FinishReason)]. *)
Definition to_string (reason : FinishReason) : option string :=
  match reason with
  | NONE => None
  | STOP => Some "stop"%string
  | LENGTH => Some "length"%string
  | FUNCTION_CALL => Some "function_call"%string
  end.

(** [enum class EngineType], without the enumerator [COUNT] that only counts. *)
Inductive EngineType := LLM | SSM.
#[global] Instance EngineType_eq_dec : EqDecision EngineType.
Proof. solve_decision. Defined.

(** [enum class StatusCode]. *)
Inductive StatusCode :=
  | OK | CANCELLED | UNKNOWN | INVALID_ARGUMENT | DEADLINE_EXCEEDED
  | RESOURCE_EXHAUSTED | UNAUTHENTICATED | UNAVAILABLE | UNIMPLEMENTED.
#[global] Instance StatusCode_eq_dec : EqDecision StatusCode.
Proof. solve_decision. Defined.

(** [class Status]. *)
Record Status := mkStatus { code_ : StatusCode; msg_ : string }.
Definition ok (s : Status) : bool := bool_decide (code_ s = OK).

(** ** Outputs *)

(** [struct Usage]. *)
Record Usage := mkUsage {
  usage_num_prompt_tokens : nat;
  usage_num_generated_tokens : nat;
  usage_num_total_tokens : nat;
}.

(** [struct LogProbData]. *)
Record LogProbData := mkLogProbData {
  lp_token : text;
  lp_token_id : Z;
  lp_logprob : float;
  lp_finished_token : bool;
}.

(** [struct LogProb : LogProbData]. *)
Record LogProb := mkLogProb {
  lp_data : LogProbData;
  lp_top_logprobs : option (list LogProbData);
}.

(** [struct SequenceOutput]. *)
Record SequenceOutput := mkSequenceOutput {
  so_index : nat;
  so_text : text;
  so_token_ids : list Z;
  so_finish_reason : option string;
  so_logprobs : option (list LogProb);
}.

(** [struct RequestOutput]. *)
Record RequestOutput := mkRequestOutput {
  ro_prompt : option text;
  ro_status : option Status;
  ro_outputs : list SequenceOutput;
  ro_usage : option Usage;
  ro_finished : bool;
}.
Definition RequestOutput_default : RequestOutput := mkRequestOutput None None [] None false.
(** [RequestOutput(Status&&)]. *)
Definition RequestOutput_of_status (s : Status) : RequestOutput :=
  mkRequestOutput None (Some s) [] None false.

(** ** Sampling *)

(** [struct SamplingParameter]. *)
Record SamplingParameter := mkSamplingParameter {
  frequency_penalty : float;
  presence_penalty : float;
  repetition_penalty : float;
  temperature : float;
  top_p : float;
  top_k : Z;
  sp_logprobs : bool;
  sp_top_logprobs : Z;
  do_sample : bool;
  seed : Z;
}.

(** The default member initialisers; 0.7 is rounded to [float]. *)
Definition SamplingParameter_default : SamplingParameter :=
  mkSamplingParameter (float_of_Z 0) (float_of_Z 0) (float_of_Z 1)
    (float_of_double (double_div (convert 53 1024 (float_of_Z 7)) (convert 53 1024 (float_of_Z 10))))
    (float_of_Z 1) (-1) false 0 false 0.
