(* ===== verification/StateDict.v ===== *)
(** * Checkpoints and the loading of weights

    [src/model_loader/state_dict.*] without the readers of files, and
    [src/layers/weight_utils.*].  A state dict maps names to tensors, is narrowed by
    prefixes and hands out the shard of a rank; a checkpoint is a sequence of state
    dicts, one per file, each of them offered to every layer. *)

From Stdlib Require Import Ascii.
From stdpp Require Import base tactics list gmap strings.
From S2P Require Import Prelude Types Tensor.

Section state_dict.
Context {A : Type}.

(** [class StateDict]; a transform may throw. *)
Record StateDict := mkStateDict {
  dict_ : gmap text (Tensor A);
  transform_func_ : option (text → Tensor A → result (Tensor A));
  prefix_ : text;
}.

Definition of_result {S B} (r : result B) : M S B :=
  match r with Ok b => mret b | Fail e => fail e end.

(** [StateDict::get_tensor]; [None] is the undefined tensor. *)
Definition get_tensor {S} (d : StateDict) (tensor_name : text) : M S (option (Tensor A)) :=
  match dict_ d !! tensor_name with
  | None => mret None
  | Some t =>
      match transform_func_ d with
      | Some f => t' ← of_result (f tensor_name t); mret (Some t')
      | None => mret (Some t)
      end
  end.

(** [StateDict::get_sharded_tensor]. *)
Definition get_sharded_tensor {S} (d : StateDict) (tensor_name : text) (dim rank world_size : nat) : M S (option (Tensor A)) :=
  _ ← check (bool_decide (dim = 0) || bool_decide (dim = 1)) "Only support 1D or 2D sharding";
  _ ← check (bool_decide (rank < world_size)) "Invalid rank";
  tensor ← get_tensor d tensor_name;
  match tensor with
  | None => mret None
  | Some tensor =>
      dim_size ← size_of tensor dim;
      if decide (dim_size < world_size)
      then (* too small to shard, return the whole tensor instead *) mret (Some tensor)
      else
        _ ← check (bool_decide (dim_size `mod` world_size = 0)) "can't devide tensor evenly";
        mret (Some (chunk world_size dim rank tensor))
  end.

(** [absl::StartsWith]. *)
Definition starts_with (name pre : text) : bool := bool_decide (take (length pre) name = pre).

(** [StateDict::select] and [StateDict::select_with_transform]. *)
Definition select (d : StateDict) (pre : text) : StateDict :=
  mkStateDict
    (list_to_map (omap (λ p : text * Tensor A,
       if starts_with p.1 pre then Some (drop (length pre) p.1, p.2) else None) (map_to_list (dict_ d))))
    None (prefix_ d ++ pre).
Definition select_with_transform (d : StateDict) (pre : text) (f : text → Tensor A → result (Tensor A)) : StateDict :=
  let selected := select d pre in mkStateDict (dict_ selected) (Some f) (prefix_ selected).

(** ** WeightUtils *)

(** The members that [DEFINE_WEIGHT] and [DEFINE_FUSED_WEIGHT] declare. *)
Record Weight := mkWeight {
  w_tensor : Tensor A;
  w_is_loaded : bool;
  w_list : list (option (Tensor A));
}.

(** [weight.copy_(tensor); weight_is_loaded = true], after the check of the sizes. *)
Definition store_weight (tensor : Tensor A) : M Weight unit :=
  w ← get;
  _ ← check (bool_decide (sizes (w_tensor w) = sizes tensor)) "weight size mismatch";
  put (mkWeight tensor true (w_list w)).

(** [WeightUtils::load_weight]. *)
Definition load_weight (d : StateDict) (name : text) : M Weight unit :=
  tensor ← get_tensor d name;
  match tensor with
  | None => mret tt
  | Some tensor =>
      w ← get;
      _ ← check (negb (w_is_loaded w)) "weight already loaded";
      store_weight tensor
  end.

(** [WeightUtils::load_sharded_weight]. *)
Definition load_sharded_weight (d : StateDict) (name : text) (dim rank world_size : nat) : M Weight unit :=
  tensor ← get_sharded_tensor d name dim rank world_size;
  match tensor with
  | None => mret tt
  | Some tensor => store_weight tensor
  end.

(** [WeightUtils::load_sharded_weight] with a transform. *)
Definition load_sharded_weight_with (d : StateDict) (name : text) (transform_func : Tensor A → result (Tensor A))
    (dim rank world_size : nat) : M Weight unit :=
  tensor ← get_sharded_tensor d name dim rank world_size;
  match tensor with
  | None => mret tt
  | Some tensor =>
      tensor ← of_result (transform_func tensor);
      w ← get;
      _ ← check (negb (w_is_loaded w)) "weight already loaded";
      store_weight tensor
  end.

(** The loop of [load_fused_weight] over the prefixes. *)
Fixpoint fused_tensors {S} (d : StateDict) (prefixes : list text) (name : text) (dim rank world_size : nat)
    (accumulated : list (option (Tensor A))) : M S (list (option (Tensor A))) :=
  match prefixes, accumulated with
  | p :: prefixes, a :: accumulated =>
      tensor ← get_sharded_tensor d (p ++ name) dim rank world_size;
      rest ← fused_tensors d prefixes name dim rank world_size accumulated;
      (* carry over the accumulated weight *)
      mret ((match tensor with Some t => Some t | None => a end) :: rest)
  | _, _ => mret []
  end.

(** [WeightUtils::load_fused_weight]. *)
Definition load_fused_weight (d : StateDict) (prefixes : list text) (name : text) (dim rank world_size : nat) : M Weight unit :=
  w ← get;
  if w_is_loaded w then mret tt
  else
    (* resize the accumulated weight list if needed *)
    let accumulated := w_list w ++ replicate (length prefixes - length (w_list w)) None in
    tensors ← fused_tensors d prefixes name dim rank world_size accumulated;
    match mapM id tensors with
    | None =>
        (* accumulate the weights for future merge *)
        put (mkWeight (w_tensor w) false (zip_with (λ a t, match a with Some _ => a | None => t end)
               accumulated (tensors ++ replicate (length accumulated - length tensors) None)))
    | Some ts =>
        merged_weight ← cat dim ts;
        _ ← check (bool_decide (sizes (w_tensor w) = sizes merged_weight)) "weight size mismatch";
        put (mkWeight merged_weight true [])
    end.
End state_dict.
Arguments StateDict : clear implicits.
Arguments Weight : clear implicits.
