(* ===== verification/Linear.v ===== *)
(** * The parallel layers

    [src/layers/linear_impl.*], [fused_linear.*], [qkv_linear.*] and [embedding.h],
    without the quantized layers.  [memory] is what a fresh tensor holds. *)

From Stdlib Require Import Ascii.
From stdpp Require Import base tactics list gmap strings.
From S2P Require Import Prelude Types Tensor StateDict.

Definition weight_name : text := String.list_ascii_of_string "weight".
Definition bias_name : text := String.list_ascii_of_string "bias".

Section linear.
Context {A : Type} `{Scalar A} (memory : nat → A).

(** [torch::empty]. *)
Definition empty_mat (r c : nat) : Tensor A := Mat c ((λ i, (λ j, memory (i * c + j)) <$> seq 0 c) <$> seq 0 r).
Definition empty_vec (n : nat) : Tensor A := Vec (memory <$> seq 0 n).
Definition fresh_weight (t : Tensor A) : Weight A := mkWeight t false [].

(** ** ColumnParallelLinearImpl and RowParallelLinearImpl *)

(** The two layers have the same members but for the flag: [gather_output_] or
    [input_is_parallelized_]. *)
Record ParallelLinear := mkLinear {
  weight_ : Weight A;
  bias_ : option (Weight A);
  flag_ : bool;
  rank_ : nat;
  world_size_ : nat;
}.

Definition set_weight (w : Weight A) (l : ParallelLinear) : ParallelLinear :=
  mkLinear w (bias_ l) (flag_ l) (rank_ l) (world_size_ l).
Definition set_bias (b : option (Weight A)) (l : ParallelLinear) : ParallelLinear :=
  mkLinear (weight_ l) b (flag_ l) (rank_ l) (world_size_ l).

(** The remainder of a division by the world size. *)
Definition divisible {S} (n world_size : nat) (msg : string) : M S unit :=
  _ ← (if decide (world_size = 0) then fail OutOfBounds else mret tt);
  check (bool_decide (n `mod` world_size = 0)) msg.

Definition ColumnParallelLinear_new {S} (in_features out_features : nat) (bias gather_output : bool) (rank world_size : nat) :
    M S ParallelLinear :=
  _ ← divisible out_features world_size "out_features not divisible by world_size";
  let out_features_per_partition := out_features / world_size in
  mret (mkLinear (fresh_weight (empty_mat out_features_per_partition in_features))
          (if bias then Some (fresh_weight (empty_vec out_features_per_partition)) else None)
          gather_output rank world_size).

Definition RowParallelLinear_new {S} (in_features out_features : nat) (bias input_is_parallelized : bool) (rank world_size : nat) :
    M S ParallelLinear :=
  _ ← divisible in_features world_size "in_features not divisible by world_size";
  mret (mkLinear (fresh_weight (empty_mat out_features (in_features / world_size)))
          (if bias then Some (fresh_weight (empty_vec out_features)) else None)
          input_is_parallelized rank world_size).

(** [forward]. *)
Definition bias_tensor (l : ParallelLinear) : option (Tensor A) := w_tensor <$> bias_ l.
Definition column_forward (l : ParallelLinear) (input : Tensor A) : Spmd A (Tensor A) :=
  output ← local (linear input (w_tensor (weight_ l)) (bias_tensor l));
  if decide (1 < world_size_ l) then
    if flag_ l then gather_from_model_parallel_region (world_size_ l) output else mret output
  else mret output.
Definition row_forward (l : ParallelLinear) (input : Tensor A) : Spmd A (Tensor A) :=
  input ← (if flag_ l then mret input else local (scatter_to_model_parallel_region (rank_ l) (world_size_ l) input));
  output ← local (linear input (w_tensor (weight_ l)) None);
  output ← (if decide (1 < world_size_ l) then reduce_from_model_parallel_region (world_size_ l) output else mret output);
  (* the bias is applied after the reduce *)
  match bias_tensor l with
  | Some b => local (add_bias output b)
  | None => mret output
  end.

(** Loading a member of a layer. *)
Definition on_weight (m : M (Weight A) unit) : M ParallelLinear unit := zoom weight_ set_weight m.
Definition on_bias (m : M (Weight A) unit) : M ParallelLinear unit :=
  l ← get;
  match bias_ l with
  | None => mret tt
  | Some b => zoom (λ _, b) (λ b', set_bias (Some b')) m
  end.

(** [ColumnParallelLinearImpl::load_state_dict], the three overloads. *)
Definition column_load_with (d : StateDict A) (transform_func : Tensor A → result (Tensor A)) : M ParallelLinear unit :=
  l ← get;
  _ ← on_weight (load_sharded_weight_with d weight_name transform_func 0 (rank_ l) (world_size_ l));
  on_bias (load_sharded_weight_with d bias_name transform_func 0 (rank_ l) (world_size_ l)).
Definition column_load (d : StateDict A) : M ParallelLinear unit := column_load_with d (λ t, Ok t).
Definition column_load_fused (d : StateDict A) (prefixes : list text) : M ParallelLinear unit :=
  l ← get;
  _ ← on_weight (load_fused_weight d prefixes weight_name 0 (rank_ l) (world_size_ l));
  on_bias (load_fused_weight d prefixes bias_name 0 (rank_ l) (world_size_ l)).

(** [RowParallelLinearImpl::load_state_dict]. *)
Definition row_load (d : StateDict A) : M ParallelLinear unit :=
  l ← get;
  _ ← on_weight (load_sharded_weight d weight_name 1 (rank_ l) (world_size_ l));
  on_bias (load_weight d bias_name).

(** [verify_loaded_weights]. *)
Definition verify_loaded_weights {S} (l : ParallelLinear) : M S unit :=
  _ ← check (w_is_loaded (weight_ l)) "weight is not loaded";
  check (match bias_ l with None => true | Some b => w_is_loaded b end) "bias is not loaded".

(** ** FusedColumnParallelLinearImpl *)

Record FusedLinear := mkFused {
  fused_ : bool;
  fused_linear_ : option ParallelLinear;
  parallel_linears_ : list ParallelLinear;
  split_sizes_ : list nat;
}.

Definition FusedLinear_new {S} (in_features : nat) (out_features_vec : list nat) (bias gather_output can_be_fused : bool)
    (rank world_size : nat) : M S FusedLinear :=
  if can_be_fused then
    l ← ColumnParallelLinear_new in_features (sum_list out_features_vec) bias gather_output rank world_size;
    split_sizes ← map_each (λ out_features,
      _ ← divisible out_features world_size "out_features not divisible by world_size";
      mret (out_features / world_size)) out_features_vec;
    mret (mkFused true (Some l) [] split_sizes)
  else
    ls ← map_each (λ out_features, ColumnParallelLinear_new in_features out_features bias gather_output rank world_size) out_features_vec;
    mret (mkFused false None ls []).

(** [split(split_sizes, 1)]: the sizes add up to the width. *)
Fixpoint split_row {B} (ns : list nat) (l : list B) : list (list B) :=
  match ns with [] => [] | n :: ns => take n l :: split_row ns (drop n l) end.
Definition split_cols {S} (ns : list nat) (t : Tensor A) : M S (list (Tensor A)) :=
  match t with
  | Mat c rows =>
      _ ← check (bool_decide (sum_list ns = c)) "split_with_sizes expects split_sizes to sum exactly to the size";
      mret (imap (λ i n, Mat n ((λ r, default [] (split_row ns r !! i)) <$> rows)) ns)
  | Vec _ => fail OutOfBounds
  end.

Fixpoint forward_each (ls : list ParallelLinear) (input : Tensor A) : Spmd A (list (Tensor A)) :=
  match ls with
  | [] => mret []
  | l :: ls => output ← column_forward l input; outputs ← forward_each ls input; mret (output :: outputs)
  end.
Definition fused_forward (f : FusedLinear) (input : Tensor A) : Spmd A (list (Tensor A)) :=
  match fused_linear_ f with
  | Some l => fused_output ← column_forward l input; local (split_cols (split_sizes_ f) fused_output)
  | None => forward_each (parallel_linears_ f) input
  end.

Fixpoint load_each (d : StateDict A) (prefixes : list text) (ls : list ParallelLinear) : result (list ParallelLinear) :=
  match prefixes, ls with
  | p :: prefixes, l :: ls =>
      match column_load (select d p) l with
      | Ok (_, l') => match load_each d prefixes ls with Ok ls' => Ok (l' :: ls') | Fail e => Fail e end
      | Fail e => Fail e
      end
  | _, _ => Ok []
  end.
Definition fused_load (d : StateDict A) (prefixes : list text) : M FusedLinear unit :=
  f ← get;
  match fused_linear_ f with
  | Some l =>
      zoom (λ _, l) (λ l', λ f, mkFused (fused_ f) (Some l') (parallel_linears_ f) (split_sizes_ f)) (column_load_fused d prefixes)
  | None =>
      _ ← check (bool_decide (length (parallel_linears_ f) = length prefixes)) "parallel_linears_.size() == prefixes.size()";
      ls ← of_result (load_each d prefixes (parallel_linears_ f));
      put (mkFused (fused_ f) None ls (split_sizes_ f))
  end.

(** [FusedColumnParallelLinearImpl::verify_loaded_weights]. *)
Definition fused_verify {S} (f : FusedLinear) : M S unit :=
  match fused_linear_ f with
  | Some l => verify_loaded_weights l
  | None => _ ← map_each verify_loaded_weights (parallel_linears_ f); mret tt
  end.

(** ** QKVColumnParallelLinearImpl *)

Record QKVLinear := mkQKV {
  n_kv_heads_ : nat;
  head_dim_ : nat;
  kv_replication_ratio_ : nat;
  parallel_linear_ : FusedLinear;
}.

Definition QKVLinear_new {S} (hidden_size n_heads n_kv_heads head_dim : nat) (bias gather_output can_be_fused : bool)
    (rank world_size : nat) : M S QKVLinear :=
  '(ratio, effective_kv_heads) ←
    (if decide (world_size ≤ n_kv_heads) then
       (* partition kv heads evenly across world_size for MHA *)
       _ ← divisible n_kv_heads world_size "kv_heads can't be partitioned evenly across world_size";
       mret (0, n_kv_heads)
     else
       (* replicate kv heads evenly across world_size for GQA/MQA *)
       _ ← divisible world_size n_kv_heads "kv heads can't be replicated evenly across world_size";
       mret (world_size / n_kv_heads, world_size));
  f ← FusedLinear_new hidden_size [n_heads * head_dim; effective_kv_heads * head_dim; effective_kv_heads * head_dim]
        bias gather_output can_be_fused rank world_size;
  mret (mkQKV n_kv_heads head_dim ratio f).

(** [repeat_interleave(n, 0)]. *)
Definition repeat_interleave {B} (n : nat) (l : list B) : list B := l ≫= replicate n.

(** The reshapes of the transform: to [n, head_dim, -1], repeated along the heads, to
    [n * ratio * head_dim, -1]; a vector becomes a matrix with one column. *)
Definition replicate_kv (n_kv_heads head_dim ratio : nat) (t : Tensor A) : result (Tensor A) :=
  let n := n_kv_heads * head_dim in
  let count := length (flatten t) in
  if decide (n = 0 ∨ count `mod` n ≠ 0) then Fail (CheckFailed "shape is invalid for input")
  else
    let c := count / n in
    let heads := unflatten (head_dim * c) n_kv_heads (flatten t) in
    Ok (Mat c (unflatten c (n_kv_heads * ratio * head_dim) (concat (repeat_interleave ratio heads)))).
Definition kv_transform (q : QKVLinear) (kv_prefixes : list text) (name : text) (t : Tensor A) : result (Tensor A) :=
  if existsb (starts_with name) kv_prefixes then replicate_kv (n_kv_heads_ q) (head_dim_ q) (kv_replication_ratio_ q) t
  else Ok t.

(** [QKVColumnParallelLinearImpl::load_state_dict]. *)
Definition qkv_load (d : StateDict A) (prefixes kv_prefixes : list text) : M QKVLinear unit :=
  q ← get;
  let d' := if decide (1 < kv_replication_ratio_ q) then select_with_transform d [] (kv_transform q kv_prefixes) else d in
  zoom parallel_linear_ (λ f q, mkQKV (n_kv_heads_ q) (head_dim_ q) (kv_replication_ratio_ q) f) (fused_load d' prefixes).

(** ** Embeddings *)

Record ParallelEmbedding := mkEmbedding {
  emb_weight_ : Tensor A;
  is_loaded_ : bool;
  emb_rank : nat;
  emb_world_size : nat;
  start_index_ : nat;
  end_index_ : nat;
}.

Definition Embedding_new (num_embeddings embedding_dim : nat) : ParallelEmbedding :=
  mkEmbedding (empty_mat num_embeddings embedding_dim) false 0 1 0 0.

Definition ParallelEmbedding_new {S} (num_embeddings embedding_dim rank world_size : nat) : M S ParallelEmbedding :=
  _ ← divisible embedding_dim world_size "out_features not divisible by world_size";
  mret (mkEmbedding (empty_mat num_embeddings (embedding_dim / world_size)) false rank world_size 0 0).

Definition VocabParallelEmbedding_new {S} (num_embeddings embedding_dim rank world_size : nat) : M S ParallelEmbedding :=
  _ ← (if decide (world_size = 0) then fail OutOfBounds else mret tt);
  let num_embeddings_per_partition := num_embeddings / world_size in
  let start_index := num_embeddings_per_partition * rank in
  mret (mkEmbedding (empty_mat num_embeddings_per_partition embedding_dim) false rank world_size
          start_index (start_index + num_embeddings_per_partition)).

(** [load_state_dict] of the three layers. *)
Definition store_embedding (t : option (Tensor A)) : M ParallelEmbedding unit :=
  match t with
  | None => mret tt
  | Some weight =>
      e ← get;
      _ ← check (bool_decide (sizes (emb_weight_ e) = sizes weight)) "weight size mismatch";
      put (mkEmbedding weight true (emb_rank e) (emb_world_size e) (start_index_ e) (end_index_ e))
  end.
Definition embedding_load (d : StateDict A) : M ParallelEmbedding unit :=
  t ← get_tensor d weight_name; store_embedding t.
Definition parallel_embedding_load (dim : nat) (d : StateDict A) : M ParallelEmbedding unit :=
  e ← get;
  t ← get_sharded_tensor d weight_name dim (emb_rank e) (emb_world_size e);
  store_embedding t.

Definition verify_embedding {S} (e : ParallelEmbedding) : M S unit := check (is_loaded_ e) "weight is not loaded".

(** [forward]. *)
Definition embedding_forward (e : ParallelEmbedding) (input : list nat) : Spmd A (Tensor A) :=
  local (embedding input (emb_weight_ e)).
Definition parallel_embedding_forward (e : ParallelEmbedding) (input : list nat) : Spmd A (Tensor A) :=
  output ← local (embedding input (emb_weight_ e));
  if decide (1 < emb_world_size e) then gather_from_model_parallel_region (emb_world_size e) output else mret output.

(** [masked_fill_] of the rows of the tokens that are not in the local vocabulary. *)
Definition mask_rows (mask : list bool) (t : Tensor A) : Tensor A :=
  match t with
  | Mat c rows => Mat c (zip_with (λ (m : bool) r, if m then replicate c s_zero else r) mask rows)
  | Vec v => Vec v
  end.
Definition vocab_embedding_forward (e : ParallelEmbedding) (input : list nat) : Spmd A (Tensor A) :=
  if decide (emb_world_size e = 1) then local (embedding input (emb_weight_ e))
  else
    let input_mask := (λ i, bool_decide (i < start_index_ e) || bool_decide (end_index_ e ≤ i)) <$> input in
    let masked_input := zip_with (λ (m : bool) i, if m then 0 else i - start_index_ e) input_mask input in
    output ← local (embedding masked_input (emb_weight_ e));
    reduce_from_model_parallel_region (emb_world_size e) (mask_rows input_mask output).
End linear.
Arguments ParallelLinear : clear implicits.
Arguments FusedLinear : clear implicits.
Arguments QKVLinear : clear implicits.
Arguments ParallelEmbedding : clear implicits.
