(* ===== verification/LinearInv.v ===== *)
(** * Cutting and joining tensors

    The pieces of a list and of a tensor, and the sums over them. *)

From Stdlib Require Import Ascii.
From stdpp Require Import base tactics list sets strings gmap.
From S2P Require Import Prelude Tensor Types StateDict Linear.

(** ** Pieces *)
Section pieces.
Context {B : Type}.
Implicit Types l : list B.

Definition pieces (n : nat) l : list (list B) := (λ i, piece n i l) <$> seq 0 n.

Lemma piece_length n i l : length l `mod` n = 0 → i < n → length (piece n i l) = length l / n.
Proof.
  intros Hd Hi. unfold piece. rewrite length_take, length_drop.
  pose proof (Nat.div_mod_eq (length l) n). nia.
Qed.

Lemma piece_one l : piece 1 0 l = l.
Proof. unfold piece. rewrite Nat.div_1_r, drop_0. by apply take_ge. Qed.

Lemma piece_nil n i : piece n i (@nil B) = [].
Proof. unfold piece. by rewrite drop_nil, take_nil. Qed.

Lemma piece_fmap {C} (f : B → C) n i l : piece n i (f <$> l) = f <$> piece n i l.
Proof. unfold piece. by rewrite length_fmap, fmap_take, fmap_drop. Qed.

Lemma take_piece n i l : length l `mod` n = 0 → i < n →
  take (i * (length l / n)) l ++ piece n i l = take (S i * (length l / n)) l.
Proof. intros Hd Hi. unfold piece. rewrite take_take_drop. f_equal. lia. Qed.

Lemma concat_pieces n l : n ≠ 0 → length l `mod` n = 0 → concat (pieces n l) = l.
Proof.
  intros Hn Hd. assert (∀ j, j ≤ n → concat ((λ i, piece n i l) <$> seq 0 j) = take (j * (length l / n)) l) as H.
  { induction j as [|j IH]; intros Hj; [done|]. rewrite seq_S, fmap_app, concat_app, IH by lia. simpl.
    rewrite app_nil_r. apply take_piece; [done|lia]. }
  unfold pieces. rewrite H by done. apply take_ge. pose proof (Nat.div_mod_eq (length l) n). nia.
Qed.

Lemma pieces_concat n k (ls : list (list B)) : length ls = n → Forall (λ l, length l = k) ls → ∀ i, i < n →
  piece n i (concat ls) = default [] (ls !! i).
Proof.
  intros Hn Hk i Hi. assert (length (concat ls) = n * k) as Hl.
  { subst n. clear Hi. induction Hk as [|l ls Hl _ IH]; [done|]. simpl. rewrite length_app, IH. lia. }
  unfold piece. rewrite Hl, Nat.mul_comm, Nat.div_mul by lia. subst n. clear Hl. revert i Hi.
  induction Hk as [|l ls Hl _ IH]; intros i Hi; simpl in *; [lia|]. destruct i as [|i]; simpl.
  - by rewrite drop_0, take_app_length'.
  - rewrite <-IH by lia. rewrite drop_app_ge by lia. do 2 f_equal. lia.
Qed.
End pieces.

Lemma piece_lookup {B} ws r i k (l : list B) : length l = ws * k → r < ws → i < k → piece ws r l !! i = l !! (r * k + i).
Proof.
  intros Hl Hr Hi. unfold piece. rewrite Hl, (Nat.mul_comm ws), Nat.div_mul by lia. by rewrite lookup_take_lt, lookup_drop by done.
Qed.
Lemma piece_lengths {B} ws r k (l : list B) : length l = ws * k → r < ws → length (piece ws r l) = k.
Proof. intros Hl Hr. rewrite piece_length; rewrite ?Hl; [by apply mul_div_l; lia|apply mul_mod_l|done]. Qed.


Lemma piece_zip_with {B C D} (f : B → C → D) n i l l' : length l = length l' →
  piece n i (zip_with f l l') = zip_with f (piece n i l) (piece n i l').
Proof.
  intros H. unfold piece. rewrite length_zip_with, H, Nat.min_id. by rewrite <-zip_with_take, <-zip_with_drop.
Qed.

(** ** Sums *)
Section sums.
Context {A : Type} `{ScalarLaws A}.
Implicit Types l x w : list A.

#[global] Instance s_zero_right : RightId (=) s_zero s_add.
Proof. intros a. rewrite (comm s_add). apply (left_id s_zero s_add). Qed.

Lemma sum_app l l' : sum (l ++ l') = s_add (sum l) (sum l').
Proof.
  unfold sum. induction l as [|a l IH]; simpl; [by rewrite (left_id s_zero s_add)|]. rewrite IH. apply (assoc s_add).
Qed.

Lemma dot_app x w x' w' : length x = length w → dot (x ++ x') (w ++ w') = s_add (dot x w) (dot x' w').
Proof. intros Hl. unfold dot. by rewrite zip_with_app, sum_app. Qed.

Lemma dot_concat (xs ws : list (list A)) : Forall2 (λ x w, length x = length w) xs ws →
  dot (concat xs) (concat ws) = sum (zip_with dot xs ws).
Proof.
  induction 1 as [|x w xs ws Hl _ IH]; [done|]. simpl. by rewrite dot_app, IH.
Qed.

(** A product of two vectors is the sum of the products of their pieces. *)
Lemma dot_pieces n x w : n ≠ 0 → length x = length w → length x `mod` n = 0 →
  dot x w = sum ((λ i, dot (piece n i x) (piece n i w)) <$> seq 0 n).
Proof.
  intros Hn Hl Hd. rewrite <-(concat_pieces n x), <-(concat_pieces n w) at 1 by congruence.
  rewrite dot_concat.
  - f_equal. unfold pieces. by rewrite zip_with_fmap_l, zip_with_fmap_r, zip_with_diag.
  - apply Forall2_fmap, Forall_Forall2_diag, Forall_forall. intros i Hi. apply elem_of_seq in Hi.
    rewrite !piece_length by (congruence || lia). congruence.
Qed.

Lemma foldl_sum a l : foldl s_add a l = s_add a (sum l).
Proof.
  revert a. induction l as [|b l IH]; intros a; simpl; [by rewrite (right_id s_zero s_add)|].
  rewrite IH. symmetry. apply (assoc s_add).
Qed.

(** The reduction of lists that are computed place by place. *)
Lemma reduce_fmap {P} (f : nat → P → A) (places : list P) ranks : ranks ≠ [] →
  reduce ((λ r, f r <$> places) <$> ranks) = (λ p, sum ((λ r, f r p) <$> ranks)) <$> places.
Proof.
  destruct ranks as [|r rs]; [done|]. intros _. simpl.
  assert (∀ g : P → A, foldl add_lists (g <$> places) ((λ r, f r <$> places) <$> rs) =
    (λ p, s_add (g p) (sum ((λ r, f r p) <$> rs))) <$> places) as Hf; [|by rewrite Hf].
  induction rs as [|r' rs IH]; intros g; simpl.
  - apply list_fmap_ext. intros i p _. symmetry. apply (right_id s_zero s_add).
  - unfold add_lists at 2. rewrite zip_with_fmap_l, zip_with_fmap_r, zip_with_diag, (IH (λ p, s_add (g p) (f r' p))).
    apply list_fmap_ext. intros i p _. unfold sum. simpl. symmetry. apply (assoc s_add).
Qed.
End sums.

(** ** Tensors *)
Section tensors.
Context {A : Type}.
Implicit Types t : Tensor A.

Lemma filter_all {X} (P : X → Prop) `{!∀ x, Decision (P x)} (l : list X) : Forall P l → filter P l = l.
Proof. induction 1 as [|x l Hx _ IH]; [done|]. rewrite filter_cons_True by done. by rewrite IH. Qed.

Lemma unflatten_concat c (rows : list (list A)) : Forall (λ r, length r = c) rows → unflatten c (length rows) (concat rows) = rows.
Proof.
  induction 1 as [|r rows Hr _ IH]; [done|]. simpl. by rewrite take_app_length', drop_app_length', IH.
Qed.

Lemma like_flatten t : tensor_ok t → like t (flatten t) = t.
Proof. destruct t as [v|c rows]; simpl; intros Hw; [done|]. by rewrite unflatten_concat. Qed.

Lemma chunk_ok n dim i t : tensor_ok t → i < n → (∀ c rows, t = Mat c rows → dim ≠ 0 → c `mod` n = 0) → tensor_ok (chunk n dim i t).
Proof.
  destruct t as [v|c rows]; simpl; intros Hw Hi Hd; [done|]. destruct dim as [|dim]; simpl.
  - unfold piece. by apply Forall_take, Forall_drop.
  - apply Forall_fmap. eapply Forall_impl; [exact Hw|]. simpl. intros r Hr.
    specialize (Hd _ _ eq_refl ltac:(lia)). rewrite piece_length; congruence.
Qed.

Lemma chunk_one t : chunk 1 1 0 t = t.
Proof.
  destruct t as [v|c rows]; cbn [chunk]; [by rewrite piece_one|]. rewrite Nat.div_1_r. f_equal.
  rewrite <-(list_fmap_id rows) at 2. apply list_fmap_ext. intros i r _. apply piece_one.
Qed.

(** The chunks of the columns, joined from the left. *)
Lemma cat_columns_from {St} n q (rows : list (list A)) (s : St) : 0 < n → Forall (λ r, length r = n * q) rows → ∀ k j, j + k = n →
  cat_from 1 (Mat (j * q) (take (j * q) <$> rows)) ((λ i, Mat q (piece n i <$> rows)) <$> seq j k) s = Ok (Mat (n * q) rows, s).
Proof.
  intros Hn Hw. induction k as [|k IH]; intros j Hj.
  - assert (j = n) as -> by lia. cbn. unfold mret, M_ret. do 3 f_equal. rewrite <-(list_fmap_id rows) at 2.
    apply list_fmap_ext. intros i r Hi. unfold id. apply take_ge. rewrite Forall_lookup in Hw. by rewrite (Hw _ _ Hi).
  - cbn [seq fmap list_fmap cat_from cat2]. unfold mbind, M_bind, check. rewrite bool_decide_true by by rewrite !length_fmap.
    cbn [mret M_ret]. rewrite zip_with_fmap_l, zip_with_fmap_r, zip_with_diag, <-(IH (S j)) by lia.
    replace (j * q + q) with (S j * q) by lia. do 2 f_equal. apply list_fmap_ext. intros i r Hi.
    rewrite Forall_lookup in Hw. pose proof (Hw _ _ Hi) as Hr. pose proof (take_piece n j r) as Ht.
    rewrite Hr, (Nat.mul_comm n), Nat.div_mul, Nat.Div0.mod_mul in Ht by lia. by rewrite Ht by lia.
Qed.

Lemma cat_columns {St} n c (rows : list (list A)) (s : St) : n ≠ 0 → c `mod` n = 0 → Forall (λ r, length r = c) rows →
  cat 1 ((λ i, chunk n 1 i (Mat c rows)) <$> seq 0 n) s = Ok (Mat c rows, s).
Proof.
  intros Hn Hd Hw. unfold cat. rewrite filter_all; [|apply Forall_fmap, Forall_true; by intros].
  assert (∃ q, c = n * q) as [q ->] by (exists (c / n); pose proof (Nat.div_mod_eq c n); lia).
  cbn [chunk]. rewrite (Nat.mul_comm n q), Nat.div_mul, (Nat.mul_comm q n) by done.
  rewrite <-(cat_columns_from n q rows s) with (k := n - 1) (j := 1) by (done || lia).
  destruct n as [|n]; [done|]. cbn [seq fmap list_fmap]. rewrite Nat.mul_1_l. simpl (S n - 1). rewrite Nat.sub_0_r.
  do 2 f_equal. apply list_fmap_ext. intros i r Hi. rewrite Forall_lookup in Hw. unfold piece.
  rewrite (Hw _ _ Hi), (Nat.mul_comm (S n)), Nat.div_mul by done. by rewrite Nat.mul_0_l, drop_0.
Qed.
End tensors.

(** The same value for every rank. *)
Lemma replicate_seq {X} n (x : X) : replicate n x = (λ _, x) <$> seq 0 n.
Proof. rewrite (const_fmap (λ _, x) _ x) by done. by rewrite length_seq. Qed.

(** ** Runs of the world *)
Section runs.
Context {A : Type} `{Scalar A} {B : Type}.
Implicit Types ranks : list nat.

Lemma mapM_all {X Y} (f : X → option Y) (g : nat → X) (h : nat → Y) ranks : (∀ r, r ∈ ranks → f (g r) = Some (h r)) →
  mapM f (g <$> ranks) = Some (h <$> ranks).
Proof.
  induction ranks as [|r ranks IH]; intros Hf; [done|]. cbn. rewrite Hf by set_solver. cbn.
  rewrite IH by set_solver. done.
Qed.

Lemma mapM_first {X Y} (f : X → option Y) (g : nat → X) ranks : ranks ≠ [] → (∀ r, r ∈ ranks → f (g r) = None) →
  mapM f (g <$> ranks) = None.
Proof. destruct ranks as [|r ranks]; [done|]. intros _ Hf. cbn. by rewrite Hf by set_solver. Qed.

Lemma run_returned fuel (b : nat → B) ranks (ps : nat → Spmd A B) : (∀ r, r ∈ ranks → ps r = Ret (b r)) →
  run_world fuel (ps <$> ranks) = Some (b <$> ranks).
Proof.
  intros Hp. assert (mapM returned (ps <$> ranks) = Some (b <$> ranks)) as Hm by (apply mapM_all; intros r Hr; by rewrite Hp).
  destruct fuel; simpl; by rewrite Hm.
Qed.

Lemma counts_equal n (l : nat → list A) ranks : (∀ r, r ∈ ranks → length (l r) = n) → same_count (l <$> ranks) = true.
Proof.
  destruct ranks as [|r ranks]; [done|]. intros Hl. simpl. apply forallb_forall. intros l' Hin.
  apply list_elem_of_In, list_elem_of_fmap in Hin as (r'&->&Hr'). apply bool_decide_eq_true. rewrite !Hl by set_solver. done.
Qed.

Lemma run_reduce fuel n ranks (ps : nat → Spmd A B) l k : ranks ≠ [] →
  (∀ r, r ∈ ranks → ps r = AllReduce (l r) (k r) ∧ length (l r) = n) →
  run_world (S fuel) (ps <$> ranks) = run_world fuel ((λ r, k r (reduce (l <$> ranks))) <$> ranks).
Proof.
  intros Hne Hp. cbn [run_world]. rewrite mapM_first; [|done|intros r Hr; by rewrite (proj1 (Hp r Hr))].
  unfold world_step. rewrite mapM_first; [|done|intros r Hr; by rewrite (proj1 (Hp r Hr))].
  rewrite (mapM_all _ _ (λ r, (l r, k r))) by (intros r Hr; by rewrite (proj1 (Hp r Hr))).
  rewrite <-list_fmap_compose. change (fst ∘ (λ r, (l r, k r))) with l.
  rewrite (counts_equal n) by (intros r Hr; by apply Hp). cbn. by rewrite <-list_fmap_compose.
Qed.

Lemma run_gather fuel n ranks (ps : nat → Spmd A B) l k : ranks ≠ [] →
  (∀ r, r ∈ ranks → ps r = AllGather (l r) (k r) ∧ length (l r) = n) →
  run_world (S fuel) (ps <$> ranks) = run_world fuel ((λ r, k r (concat (l <$> ranks))) <$> ranks).
Proof.
  intros Hne Hp. cbn [run_world]. rewrite mapM_first; [|done|intros r Hr; by rewrite (proj1 (Hp r Hr))].
  unfold world_step. rewrite (mapM_all _ _ (λ r, (l r, k r))) by (intros r Hr; by rewrite (proj1 (Hp r Hr))).
  rewrite <-list_fmap_compose. change (fst ∘ (λ r, (l r, k r))) with l.
  rewrite (counts_equal n) by (intros r Hr; by apply Hp). cbn. by rewrite <-list_fmap_compose.
Qed.
End runs.

(** A run of the world, rank by rank: program [p r] of rank [r] takes part in [n]
    collectives and returns [b r]. *)
Section ranks.
Context {A : Type} `{Scalar A} (ws : nat).

Inductive Runs {B} : nat → (nat → Spmd A B) → (nat → B) → Prop :=
  | Runs_ret p b : (∀ r, r < ws → p r = Ret (b r)) → Runs 0 p b
  | Runs_gather n c p l k b : (∀ r, r < ws → p r = AllGather (l r) (k r) ∧ length (l r) = c) →
      Runs n (λ r, k r (concat (l <$> seq 0 ws))) b → Runs (S n) p b
  | Runs_reduce n c p l k b : (∀ r, r < ws → p r = AllReduce (l r) (k r) ∧ length (l r) = c) →
      Runs n (λ r, k r (reduce (l <$> seq 0 ws))) b → Runs (S n) p b.

Lemma Runs_ext {B} n (p p' : nat → Spmd A B) b : (∀ r, r < ws → p' r = p r) → Runs n p b → Runs n p' b.
Proof.
  intros He Hr. destruct Hr as [p b Hp|n c p l k b Hp Hk|n c p l k b Hp Hk].
  - apply Runs_ret. intros r Hr. rewrite He by done. by apply Hp.
  - eapply Runs_gather; [|exact Hk]. intros r Hr. rewrite He by done. by apply Hp.
  - eapply Runs_reduce; [|exact Hk]. intros r Hr. rewrite He by done. by apply Hp.
Qed.

Lemma Runs_bind {B C} n m (p : nat → Spmd A B) b (f : nat → B → Spmd A C) c :
  Runs n p b → Runs m (λ r, f r (b r)) c → Runs (n + m) (λ r, p r ≫= f r) c.
Proof.
  intros Hp Hf. induction Hp as [p b Hp|n d p l k b Hp Hk IH|n d p l k b Hp Hk IH].
  - eapply Runs_ext; [|exact Hf]. intros r Hr. by rewrite Hp.
  - eapply (Runs_gather _ d _ l (λ r x, k r x ≫= f r)); [|by apply IH].
    intros r Hr. destruct (Hp r Hr) as [-> Hl]. split; [done|exact Hl].
  - eapply (Runs_reduce _ d _ l (λ r x, k r x ≫= f r)); [|by apply IH].
    intros r Hr. destruct (Hp r Hr) as [-> Hl]. split; [done|exact Hl].
Qed.

Lemma Runs_world {B} n (p : nat → Spmd A B) b : 0 < ws → Runs n p b → run_world n (p <$> seq 0 ws) = Some (b <$> seq 0 ws).
Proof.
  intros Hws. assert (seq 0 ws ≠ []) as Hne by (by destruct ws; [lia|]).
  assert (∀ r, r ∈ seq 0 ws → r < ws) as Hin by (intros r Hr; apply elem_of_seq in Hr; lia).
  induction 1 as [p b Hp|n c p l k b Hp Hk IH|n c p l k b Hp Hk IH].
  - apply run_returned. intros r Hr. by apply Hp, Hin.
  - rewrite (run_gather n c _ _ l k) by (done || (intros r Hr; by apply Hp, Hin)). exact IH.
  - rewrite (run_reduce n c _ _ l k) by (done || (intros r Hr; by apply Hp, Hin)). exact IH.
Qed.

(** Code without collectives. *)
Lemma Runs_local {B} (m : nat → M unit B) b : (∀ r, r < ws → m r () = Ok (b r, ())) → Runs 0 (λ r, local (m r)) b.
Proof. intros Hm. apply Runs_ret. intros r Hr. unfold local. by rewrite Hm. Qed.
End ranks.

(** ** Lemmas about the parallel layers

    What loading leaves in a layer, what a rank computes, and what the collectives
    make of it. *)

(** ** Loading *)
Section loading.
Context {A : Type}.
Implicit Types (d : StateDict A) (t : Tensor A).

(** A state dict that has a well-formed tensor under a name. *)
Definition holds d (name : text) (t : Tensor A) : Prop :=
  transform_func_ d = None ∧ dict_ d !! name = Some t ∧ tensor_ok t.

Lemma get_tensor_holds {S} d name t (s : S) : holds d name t → get_tensor d name s = Ok (Some t, s).
Proof. intros (Hf&Hd&_). unfold get_tensor. by rewrite Hd, Hf. Qed.

Lemma chunk_small n dim i t c : tensor_ok t → sizes t !! dim = Some c → c = 0 → dim ≤ 1 → chunk n dim i t = t.
Proof.
  destruct t as [v|w rows]; destruct dim as [|[|?]]; simpl; intros Ht Hc -> Hd; simplify_eq; try lia.
  - destruct v; [|done]. by rewrite piece_nil.
  - destruct rows; [|done]. by rewrite piece_nil.
  - rewrite Nat.Div0.div_0_l. f_equal. rewrite <-(list_fmap_id rows) at 2. apply list_fmap_ext. intros j r Hj.
    rewrite Forall_lookup in Ht. specialize (Ht _ _ Hj). simpl in Ht. destruct r; [|done]. apply piece_nil.
Qed.

Lemma get_sharded_holds {S} d name t dim rank ws c (s : S) : holds d name t → sizes t !! dim = Some c → dim ≤ 1 →
  c `mod` ws = 0 → rank < ws → get_sharded_tensor d name dim rank ws s = Ok (Some (chunk ws dim rank t), s).
Proof.
  intros Ht Hc Hd Hm Hr. pose proof Ht as (_&_&Hok). unfold get_sharded_tensor, mbind, M_bind, check.
  replace (bool_decide (dim = 0) || bool_decide (dim = 1)) with true by (destruct dim as [|[|?]]; (done || lia)).
  rewrite bool_decide_true by done. cbn [mret M_ret]. rewrite (get_tensor_holds d name t) by done.
  unfold size_of. rewrite Hc. cbn [from_option_or mret M_ret]. case_decide as Hlt.
  - rewrite (chunk_small _ _ _ _ c); try done. rewrite Nat.mod_small in Hm by done. done.
  - by rewrite bool_decide_true.
Qed.

Lemma store_weight_ok (t : Tensor A) w : sizes (w_tensor w) = sizes t → store_weight t w = Ok (tt, mkWeight t true (w_list w)).
Proof. intros Hs. unfold store_weight, mbind, M_bind, check. cbn. by rewrite bool_decide_true. Qed.

Lemma load_weight_holds d name t w : holds d name t → w_is_loaded w = false → sizes (w_tensor w) = sizes t →
  load_weight d name w = Ok (tt, mkWeight t true (w_list w)).
Proof.
  intros Ht Hl Hs. unfold load_weight, mbind, M_bind. rewrite (get_tensor_holds d name t) by done.
  cbn. rewrite Hl. cbn. by apply store_weight_ok.
Qed.

Lemma load_sharded_holds d name t dim rank ws c w : holds d name t → sizes t !! dim = Some c → dim ≤ 1 →
  c `mod` ws = 0 → rank < ws → sizes (w_tensor w) = sizes (chunk ws dim rank t) →
  load_sharded_weight d name dim rank ws w = Ok (tt, mkWeight (chunk ws dim rank t) true (w_list w)).
Proof.
  intros Ht Hc Hd Hm Hr Hs. unfold load_sharded_weight, mbind, M_bind. rewrite (get_sharded_holds d name t dim rank ws c) by done.
  by apply store_weight_ok.
Qed.

Lemma load_sharded_with_holds d name t dim rank ws c w : holds d name t → sizes t !! dim = Some c → dim ≤ 1 →
  c `mod` ws = 0 → rank < ws → w_is_loaded w = false → sizes (w_tensor w) = sizes (chunk ws dim rank t) →
  load_sharded_weight_with d name (λ t, Ok t) dim rank ws w = Ok (tt, mkWeight (chunk ws dim rank t) true (w_list w)).
Proof.
  intros Ht Hc Hd Hm Hr Hl Hs. unfold load_sharded_weight_with, mbind, M_bind. rewrite (get_sharded_holds d name t dim rank ws c) by done.
  cbn. rewrite Hl. cbn. by apply store_weight_ok.
Qed.
End loading.

(** ** Layers *)
Section layers.
Context {A : Type} `{ScalarLaws A} (memory : nat → A).
Implicit Types (d : StateDict A) (t : Tensor A).

(** A layer that is constructed, loaded and verified. *)
Definition build {L} (new : M unit L) (load : M L unit) (verify : L → M unit unit) : result L :=
  match new tt with
  | Ok (l, _) =>
      match load l with
      | Ok (_, l') => match verify l' tt with Ok _ => Ok l' | Fail e => Fail e end
      | Fail e => Fail e
      end
  | Fail e => Fail e
  end.

Lemma sizes_empty_mat r c : sizes (empty_mat memory r c) = [r; c].
Proof. simpl. by rewrite length_fmap, length_seq. Qed.
Lemma sizes_empty_vec n : sizes (empty_vec memory n) = [n].
Proof. simpl. by rewrite length_fmap, length_seq. Qed.

Lemma divisible_ok {S} n ws msg (s : S) : ws ≠ 0 → n `mod` ws = 0 → divisible n ws msg s = Ok (tt, s).
Proof. intros Hw Hn. unfold divisible, mbind, M_bind, check. rewrite decide_False by done. cbn. by rewrite bool_decide_true. Qed.

Lemma column_built d n h rows b gather rank ws : h `mod` ws = 0 → rank < ws → length rows = h → length b = h →
  holds d weight_name (Mat n rows) → holds d bias_name (Vec b) →
  build (ColumnParallelLinear_new memory n h true gather rank ws) (column_load d) verify_loaded_weights =
  Ok (mkLinear (mkWeight (Mat n (piece ws rank rows)) true []) (Some (mkWeight (Vec (piece ws rank b)) true [])) gather rank ws).
Proof.
  intros Hm Hr Hl Hb Hw Hv. unfold build, ColumnParallelLinear_new, mbind, M_bind.
  rewrite divisible_ok by (done || lia). cbn [mret M_ret]. unfold column_load, column_load_with, mbind, M_bind, get. cbn [rank_ world_size_].
  unfold on_weight, zoom. cbn [weight_ fresh_weight].
  rewrite (load_sharded_with_holds d weight_name (Mat n rows) 0 rank ws h);
    [|done|by rewrite <-Hl|lia|done|done|done|cbn [w_tensor fresh_weight]; rewrite sizes_empty_mat; simpl; rewrite piece_length; congruence].
  cbn [w_list]. unfold on_bias, mbind, M_bind, get. cbn [set_weight bias_ rank_ world_size_]. unfold zoom.
  rewrite (load_sharded_with_holds d bias_name (Vec b) 0 rank ws h);
    [done|done|by rewrite <-Hb|lia|done|done|done|cbn [w_tensor fresh_weight]; rewrite sizes_empty_vec; simpl; rewrite piece_length; congruence].
Qed.

Lemma row_built d h m rows b par rank ws : h `mod` ws = 0 → rank < ws → length rows = m → length b = m →
  holds d weight_name (Mat h rows) → holds d bias_name (Vec b) →
  build (RowParallelLinear_new memory h m true par rank ws) (row_load d) verify_loaded_weights =
  Ok (mkLinear (mkWeight (Mat (h / ws) (piece ws rank <$> rows)) true []) (Some (mkWeight (Vec b) true [])) par rank ws).
Proof.
  intros Hm Hr Hl Hb Hw Hv. unfold build, RowParallelLinear_new, mbind, M_bind.
  rewrite divisible_ok by (done || lia). cbn [mret M_ret]. unfold row_load, mbind, M_bind, get. cbn [rank_ world_size_].
  unfold on_weight, zoom. cbn [weight_ fresh_weight].
  rewrite (load_sharded_holds d weight_name (Mat h rows) 1 rank ws h);
    [|done|done|lia|done|done|cbn [w_tensor fresh_weight]; rewrite sizes_empty_mat; simpl; by rewrite length_fmap, Hl].
  cbn [w_list]. unfold on_bias, mbind, M_bind, get. cbn [set_weight bias_ rank_ world_size_]. unfold zoom.
  rewrite (load_weight_holds d bias_name (Vec b)); [done|done|done|cbn [w_tensor fresh_weight]; rewrite sizes_empty_vec; simpl; congruence].
Qed.
End layers.

(** ** Computing *)
Section forward.
Context {A : Type} `{ScalarLaws A}.
Implicit Types xs ys rows : list (list A).

Lemma linear_row_piece rows b x ws rank : length b = length rows →
  linear_row (piece ws rank rows) (Some (piece ws rank b)) x = piece ws rank (linear_row rows (Some b) x).
Proof. intros Hb. unfold linear_row. rewrite piece_zip_with by by rewrite length_fmap. by rewrite piece_fmap. Qed.

Lemma linear_row_length rows b x : length b = length rows → length (linear_row rows (Some b) x) = length rows.
Proof. intros Hb. unfold linear_row. rewrite length_zip_with, length_fmap. lia. Qed.

Lemma linear_ok {S} n xs rows b (s : S) : length b = length rows →
  linear (Mat n xs) (Mat n rows) (Some (Vec b)) s = Ok (Mat (length rows) (linear_row rows (Some b) <$> xs), s).
Proof. intros Hb. unfold linear, mbind, M_bind, check. by rewrite !bool_decide_true. Qed.

(** A rank of a column-parallel layer computes its chunk of the columns. *)
Lemma column_local rows b n xs gather rank ws loaded loaded' : length rows `mod` ws = 0 → rank < ws → length b = length rows →
  column_forward (mkLinear (mkWeight (Mat n (piece ws rank rows)) loaded []) (Some (mkWeight (Vec (piece ws rank b)) loaded' [])) gather rank ws) (Mat n xs) =
  let output := chunk ws 1 rank (Mat (length rows) (linear_row rows (Some b) <$> xs)) in
  if decide (1 < ws) then if gather then gather_from_model_parallel_region ws output else Ret output else Ret output.
Proof.
  intros Hm Hr Hb. unfold column_forward, local, linear. cbn [weight_ w_tensor bias_tensor bias_ fmap option_fmap option_map].
  unfold mbind, M_bind, check. rewrite !bool_decide_true by (done || rewrite !piece_length; congruence).
  cbn [mret M_ret Spmd_bind spmd_bind world_size_ flag_ chunk].
  rewrite piece_length, <-list_fmap_compose by done.
  assert ((linear_row (piece ws rank rows) (Some (piece ws rank b)) <$> xs) = (piece ws rank ∘ linear_row rows (Some b)) <$> xs) as ->; [|done].
  apply list_fmap_ext. intros i x _. by apply linear_row_piece.
Qed.

(** The products of all rows of the input with all rows of the weight. *)
Definition products (f : list A → list A → A) ys rows : list A := (λ p, f p.1 p.2) <$> (ys ≫= λ y, (λ w, (y, w)) <$> rows).

Lemma concat_products f ys rows : concat ((λ y, f y <$> rows) <$> ys) = products f ys rows.
Proof.
  unfold products. induction ys as [|y ys IH]; [done|]. cbn [fmap list_fmap concat mbind list_bind].
  rewrite fmap_app, IH. f_equal. by rewrite <-list_fmap_compose.
Qed.

Lemma products_ext f g ys rows : (∀ y w, y ∈ ys → w ∈ rows → f y w = g y w) → products f ys rows = products g ys rows.
Proof.
  intros He. rewrite <-!concat_products. f_equal. apply list_fmap_ext. intros i y Hi. apply list_fmap_ext. intros j w Hj.
  apply He; by eapply list_elem_of_lookup_2.
Qed.

(** A rank of a row-parallel layer on its chunk of the input. *)
Lemma row_local rows h ys rank ws : h `mod` ws = 0 → rank < ws →
  linear (chunk ws 1 rank (Mat h ys)) (Mat (h / ws) (piece ws rank <$> rows)) None tt =
  Ok (Mat (length rows) ((λ y, (λ w, dot (piece ws rank y) (piece ws rank w)) <$> rows) <$> ys), tt).
Proof.
  intros Hm Hr. cbn [chunk linear]. unfold mbind, M_bind, check. rewrite bool_decide_true by done. cbn [mret M_ret].
  rewrite length_fmap. unfold mret, M_ret. do 3 f_equal. unfold linear_row. rewrite <-list_fmap_compose.
  apply list_fmap_ext. intros i y _. cbn. by rewrite <-list_fmap_compose.
Qed.

(** The sum of what the ranks compute. *)
Lemma row_reduced rows h ys ws : ws ≠ 0 → h `mod` ws = 0 → Forall (λ y, length y = h) ys → Forall (λ w, length w = h) rows →
  reduce ((λ r, products (λ y w, dot (piece ws r y) (piece ws r w)) ys rows) <$> seq 0 ws) = products dot ys rows.
Proof.
  intros Hw Hm Hy Hr. unfold products. rewrite (reduce_fmap (λ r p, dot (piece ws r p.1) (piece ws r p.2))).
  2: by destruct ws.
  change ((λ p : list A * list A, sum ((λ r, dot (piece ws r p.1) (piece ws r p.2)) <$> seq 0 ws)) <$> (ys ≫= λ y, (λ w, (y, w)) <$> rows))
    with (products (λ y w, sum ((λ r, dot (piece ws r y) (piece ws r w)) <$> seq 0 ws)) ys rows).
  apply products_ext. intros y w Hy' Hw'. rewrite Forall_forall in Hy, Hr. specialize (Hy _ Hy'). specialize (Hr _ Hw').
  symmetry. apply dot_pieces; congruence.
Qed.

Lemma products_rows f ys rows : unflatten (length rows) (length ys) (products f ys rows) = (λ y, f y <$> rows) <$> ys.
Proof.
  rewrite <-concat_products. rewrite <-(unflatten_concat (length rows) ((λ y, f y <$> rows) <$> ys)) at 2.
  - by rewrite length_fmap.
  - apply Forall_fmap, Forall_true. intros y. apply length_fmap.
Qed.

Lemma products_length f ys rows : length (products f ys rows) = length ys * length rows.
Proof.
  rewrite <-concat_products. induction ys as [|y ys IH]; [done|]. cbn. rewrite length_app, IH, length_fmap. lia.
Qed.
End forward.

(** ** Gathering *)
Section gather.
Context {A : Type} `{ScalarLaws A}.
Implicit Types rows : list (list A).

Lemma flatten_chunk_length n c rows i : c `mod` n = 0 → i < n → Forall (λ r, length r = c) rows →
  length (flatten (chunk n 1 i (Mat c rows))) = length rows * (c / n).
Proof.
  intros Hm Hi. cbn [chunk flatten]. induction 1 as [|r rows Hr _ IH]; [done|]. cbn [fmap list_fmap concat length].
  rewrite length_app, IH, piece_length by congruence. rewrite Hr. lia.
Qed.

(** The ranks gather their chunks of the columns: every rank gets the matrix. *)
Lemma gather_columns_runs n c rows : 1 < n → c `mod` n = 0 → Forall (λ r, length r = c) rows →
  Runs n 1 (λ r, gather_from_model_parallel_region n (chunk n 1 r (Mat c rows))) (λ _, Mat c rows).
Proof.
  intros Hn Hm Hw. set (t := Mat c rows).
  apply (Runs_gather n 0 (length rows * (c / n))) with (l := λ r, flatten (chunk n 1 r t))
    (k := λ r flat, local (cat 1 ((λ i, like (chunk n 1 r t) (piece n i flat)) <$> seq 0 n))).
  - intros r Hr. split; [|apply flatten_chunk_length; [done|lia|done]].
    unfold gather_from_model_parallel_region. by rewrite decide_False by lia.
  - apply Runs_ret. intros r Hr.
    unfold local. rewrite (list_fmap_ext _ (λ i, chunk n 1 i t) (seq 0 n)).
    + unfold t. by rewrite (cat_columns n c rows) by (done || lia).
    + intros j i Hj. apply lookup_seq in Hj as [-> Hj]. rewrite Nat.add_0_l in *.
      rewrite (pieces_concat n (length rows * (c / n))); try done.
      * rewrite list_lookup_fmap, lookup_seq_lt by done. cbn [fmap option_fmap option_map from_option].
        assert (tensor_ok (chunk n 1 j t)) as Hok by (apply chunk_ok; [done|done|intros ? ? [= <- <-] _; done]).
        transitivity (like (chunk n 1 j t) (flatten (chunk n 1 j t))); [|by apply like_flatten].
        unfold t. cbn [chunk like]. by rewrite !length_fmap.
      * by rewrite length_fmap, length_seq.
      * apply Forall_fmap, Forall_forall. intros i Hi. apply elem_of_seq in Hi. by apply flatten_chunk_length; [|lia|].
Qed.

Lemma gather_columns n c rows : 1 < n → c `mod` n = 0 → Forall (λ r, length r = c) rows →
  run_world 1 ((λ r, gather_from_model_parallel_region n (chunk n 1 r (Mat c rows))) <$> seq 0 n) = Some (replicate n (Mat c rows)).
Proof. intros Hn Hm Hw. rewrite replicate_seq. apply (Runs_world n); [lia|by apply gather_columns_runs]. Qed.

(** ** Embeddings *)

Lemma store_embedding_ok (t : Tensor A) e : sizes (emb_weight_ e) = sizes t →
  store_embedding (Some t) e = Ok (tt, mkEmbedding t true (emb_rank e) (emb_world_size e) (start_index_ e) (end_index_ e)).
Proof. intros Hs. unfold store_embedding, mbind, M_bind, get, check. by rewrite bool_decide_true. Qed.

(** The rows of the tokens. *)
Definition rows_at {B} (rows : list (list B)) (input : list nat) : list (list B) := (λ i, default [] (rows !! i)) <$> input.

Lemma embedding_rows {S} c rows input (s : S) : Forall (λ i, i < length rows) input →
  embedding input (Mat c rows) s = Ok (Mat c (rows_at rows input), s).
Proof.
  intros Hi. unfold embedding, mbind, M_bind.
  assert (map_each (λ i, from_option_or OutOfBounds (rows !! i)) input s = Ok (rows_at rows input, s)) as ->; [|done].
  induction Hi as [|i input Hi _ IH]; [done|]. cbn [map_each]. unfold mbind, M_bind.
  destruct (lookup_lt_is_Some_2 rows i Hi) as [r Hr]. rewrite Hr. cbn [from_option_or mret M_ret]. rewrite IH.
  unfold rows_at. cbn. by rewrite Hr.
Qed.

Lemma rows_at_chunk n i rows input : rows_at (piece n i <$> rows) input = piece n i <$> rows_at rows input.
Proof.
  unfold rows_at. rewrite <-list_fmap_compose. apply list_fmap_ext. intros j k _. cbn. rewrite list_lookup_fmap.
  destruct (rows !! k); cbn; [done|]. by rewrite piece_nil.
Qed.

Lemma rows_at_width c rows input : Forall (λ r, length r = c) rows → Forall (λ i, i < length rows) input →
  Forall (λ r, length r = c) (rows_at rows input).
Proof.
  intros Hr Hi. apply Forall_fmap. eapply Forall_impl; [exact Hi|]. intros i Hlt. destruct (lookup_lt_is_Some_2 rows i Hlt) as [r Hlr].
  cbn. rewrite Hlr. by apply (Forall_lookup_1 _ _ _ _ Hr Hlr).
Qed.

(** The value of a row at a column, and the row that is made of its values. *)
Definition value_at (r : list A) (j : nat) : A := default s_zero (r !! j).
Lemma row_values c (r : list A) : length r = c → value_at r <$> seq 0 c = r.
Proof.
  intros Hc. apply list_eq. intros j. rewrite list_lookup_fmap. destruct (decide (j < c)) as [Hj|Hj].
  - rewrite lookup_seq_lt by done. cbn. unfold value_at. destruct (lookup_lt_is_Some_2 r j) as [a Ha]; [lia|]. by rewrite Ha.
  - rewrite lookup_seq_ge by lia. rewrite lookup_ge_None_2; [done|lia].
Qed.

(** Only one of the ranks has something to add. *)
Lemma sum_none (ranks : list nat) (r0 : nat) (a : A) : r0 ∉ ranks →
  sum ((λ r, if decide (r = r0) then a else s_zero) <$> ranks) = s_zero.
Proof.
  induction ranks as [|r ranks IH]; intros Hn; [done|]. cbn. rewrite decide_False by set_solver.
  rewrite (left_id s_zero s_add). apply IH. set_solver.
Qed.

Lemma sum_single (ranks : list nat) (r0 : nat) (a : A) : NoDup ranks → r0 ∈ ranks →
  sum ((λ r, if decide (r = r0) then a else s_zero) <$> ranks) = a.
Proof.
  intros Hnd. induction Hnd as [|r ranks Hr Hnd IH]; intros Hin; [by apply not_elem_of_nil in Hin|]. cbn.
  case_decide as Heq.
  - subst. pose proof (sum_none ranks r0 a Hr) as Hn. unfold sum in Hn. rewrite Hn. apply (right_id s_zero s_add).
  - rewrite (left_id s_zero s_add). apply IH. set_solver.
Qed.
End gather.
