(* ===== verification/Stopping.v ===== *)
(** * Stopping criteria

    [src/request/stopping_criteria.h] and [stopping_criteria.cpp]: when a
    sequence is finished, and why. *)

From stdpp Require Import base tactics list gmap strings.
From S2P Require Import Prelude Slice Types.

(** [struct StoppingCriteria]. *)
Record StoppingCriteria := mkStoppingCriteria {
  max_tokens : nat;
  eos_token_id : Z;
  ignore_eos : bool;
  stop_token_ids : gset Z;
  stop_sequences : list (list Z);
  max_context_len : nat;
}.

Definition StoppingCriteria_default : StoppingCriteria :=
  mkStoppingCriteria 16 0 false ∅ [] 0.

(** [sequence_end_withs]: [memcmp] of the last [suffix.size()] tokens. *)
Definition sequence_end_withs (sequence suffix : list Z) : bool :=
  match suffix with
  | [] => true
  | _ =>
      bool_decide (length suffix ≤ length sequence) &&
      bool_decide (drop (length sequence - length suffix) sequence = suffix)
  end.

(** The loop over [stop_sequences]: [back] of an empty stop sequence reads out of
    bounds. *)
Fixpoint stop_sequence_hit {S} (token_ids : list Z) (last_token_id : Z) (ss : list (list Z)) :
    M S bool :=
  match ss with
  | [] => mret false
  | stop_sequence :: ss' =>
      b ← back stop_sequence;
      if bool_decide (b = last_token_id) && sequence_end_withs token_ids stop_sequence
      then mret true
      else stop_sequence_hit token_ids last_token_id ss'
  end.

(** [StoppingCriteria::check_finished]. *)
Definition check_finished {S} (c : StoppingCriteria) (token_ids : list Z) (num_prompt_tokens : nat) :
    M S FinishReason :=
  _ ← check (bool_decide (token_ids ≠ [])) "!token_ids.empty()";
  last_token_id ← back token_ids;
  (* check against eos token id *)
  if negb (ignore_eos c) && bool_decide (last_token_id = eos_token_id c) then mret STOP
  (* check against stop tokens ids *)
  else if bool_decide (last_token_id ∈ stop_token_ids c) then mret STOP
  else
    (* check against stop sequences after adding the token *)
    hit ← stop_sequence_hit token_ids last_token_id (stop_sequences c);
    if (hit : bool) then mret STOP
    else
      (* check against max tokens and max context length *)
      let n_tokens := length token_ids in
      let max_context_len_reached :=
        bool_decide (0 < max_context_len c) && bool_decide (max_context_len c ≤ n_tokens) in
      _ ← check (bool_decide (num_prompt_tokens ≤ n_tokens)) "n_tokens >= num_prompt_tokens";
      let num_generated_tokens := n_tokens - num_prompt_tokens in
      let max_tokens_reached :=
        bool_decide (0 < max_tokens c) && bool_decide (max_tokens c ≤ num_generated_tokens) in
      mret (if max_context_len_reached || max_tokens_reached then LENGTH else NONE).

(** ** What the criteria mean *)

(** The last token ends the text. *)
Definition stops (c : StoppingCriteria) (token_ids : list Z) : Prop :=
  ∃ l t, token_ids = l ++ [t] ∧
    ((ignore_eos c = false ∧ t = eos_token_id c) ∨ t ∈ stop_token_ids c ∨
     ∃ s, s ∈ stop_sequences c ∧ s `suffix_of` token_ids).

(** A length limit is reached; a limit of 0 is no limit. *)
Definition length_reached (c : StoppingCriteria) (token_ids : list Z) (num_prompt_tokens : nat) : Prop :=
  (0 < max_context_len c ≤ length token_ids) ∨
  (0 < max_tokens c ≤ length token_ids - num_prompt_tokens).

(** The criteria are usable: no stop sequence is empty. *)
Definition criteria_ok (c : StoppingCriteria) : Prop := Forall (λ s, s ≠ []) (stop_sequences c).

#[global] Instance length_reached_dec c l n : Decision (length_reached c l n).
Proof. unfold length_reached. apply _. Defined.

Lemma sequence_end_withs_spec l s : sequence_end_withs l s = true ↔ s `suffix_of` l.
Proof.
  unfold sequence_end_withs. destruct s as [|x s].
  { split; [|done]. intros _. apply suffix_nil. }
  rewrite andb_true_iff, !bool_decide_eq_true. split.
  - intros [Hle Heq]. exists (take (length l - length (x :: s)) l).
    by rewrite <- Heq at 2; rewrite take_drop.
  - intros [k ->]. rewrite length_app. split; [lia|].
    replace (length k + length (x :: s) - length (x :: s)) with (length k) by lia.
    apply drop_app_length.
Qed.

Lemma stop_sequence_hit_wp {S} l t ss (s : S) :
  Forall (λ s, s ≠ []) ss →
  wp (stop_sequence_hit (l ++ [t]) t ss) s (λ r s', s' = s ∧
    (r = true ↔ ∃ q, q ∈ ss ∧ q `suffix_of` (l ++ [t]))).
Proof.
  induction ss as [|q ss IH]; intros Hne; simpl.
  { apply wp_ret. split; [done|]. split; [done|]. intros (q&Hq&_). by apply not_elem_of_nil in Hq. }
  apply Forall_cons in Hne as [Hq Hne]. destruct (exists_last Hq) as (q'&x&->).
  unfold back. wp_steps; [apply last_snoc|]. case_match eqn:Hb.
  - apply wp_ret. split; [done|]. split; [intros _|done].
    apply andb_true_iff in Hb as [_ Hb%sequence_end_withs_spec]. set_solver.
  - eapply wp_mono; [by apply IH|]. intros r s' [-> Hr]. split; [done|]. rewrite Hr. split.
    + set_solver.
    + intros (q&Hin&Hs). apply elem_of_cons in Hin as [->|Hin]; [|by eauto]. exfalso.
      apply andb_false_iff in Hb as [Hb|Hb].
      * apply bool_decide_eq_false in Hb. apply Hb. destruct Hs as [k Hk].
        rewrite app_assoc in Hk. by apply app_inj_tail in Hk as [_ ->].
      * by apply sequence_end_withs_spec in Hs; rewrite Hs in Hb.
Qed.

(** The function decides the specification. *)
Lemma check_finished_wp {S} c l n (s : S) :
  criteria_ok c → l ≠ [] → n ≤ length l →
  wp (check_finished c l n) s (λ r s', s' = s ∧
    match r with
    | STOP => stops c l
    | LENGTH => ¬ stops c l ∧ length_reached c l n
    | NONE => ¬ stops c l ∧ ¬ length_reached c l n
    | FUNCTION_CALL => False
    end).
Proof.
  intros Hok Hne Hn. destruct (exists_last Hne) as (k&t&->).
  assert (∀ P : Prop, (stops c (k ++ [t]) ↔ P) →
    (P ↔ (ignore_eos c = false ∧ t = eos_token_id c) ∨ t ∈ stop_token_ids c ∨
     ∃ s, s ∈ stop_sequences c ∧ s `suffix_of` (k ++ [t]))) as Hstops.
  { intros P <-. split; [|by exists k, t].
    intros (k'&t'&Heq&H). apply app_inj_tail in Heq as [<- <-]. done. }
  specialize (Hstops _ (iff_refl _)). unfold check_finished.
  wp_steps; [by apply bool_decide_eq_true_2|]. unfold back. wp_steps; [apply last_snoc|].
  case_match eqn:H1.
  { apply wp_ret. split; [done|]. apply Hstops. left. apply andb_true_iff in H1 as [H1 H2].
    apply negb_true_iff in H1. by apply bool_decide_eq_true in H2. }
  destruct (bool_decide (t ∈ stop_token_ids c)) eqn:H2;
    [apply bool_decide_eq_true in H2|apply bool_decide_eq_false in H2].
  { apply wp_ret. split; [done|]. apply Hstops. tauto. }
  wp_steps. eapply wp_mono; [by apply stop_sequence_hit_wp|]. intros hit s' [-> Hhit].
  destruct hit.
  { apply wp_ret. split; [done|]. apply Hstops. right. right. by apply Hhit. }
  assert (¬ stops c (k ++ [t])) as Hno.
  { rewrite Hstops. intros [[Hi Ht]|[Ht|H3]]; [|done|by apply Hhit in H3].
    by rewrite Hi, Ht, bool_decide_eq_true_2 in H1. }
  wp_steps; [by apply bool_decide_eq_true_2|]. split; [done|].
  unfold length_reached. repeat case_bool_decide; simpl; (split; [done|]); lia.
Qed.
