(* ===== verification/Decoder.v ===== *)
(** * Incremental detokenization

    [src/tokenizer/tokenizer.h], the interface every tokenizer implements, and
    [src/request/incremental_decoder.h] and [incremental_decoder.cpp], which
    turn a growing token sequence into text deltas, holding back the bytes of an
    unfinished UTF-8 character. *)

From Stdlib Require Import Ascii.
From stdpp Require Import base tactics list strings sorting.
From S2P Require Import Prelude Slice Types.

(** ** The tokenizer interface *)

(** [class Tokenizer]: the operations the request path uses. *)
Class Tokenizer := {
  tk_decode : list Z → bool → text;
  tk_id_to_token : Z → text;
}.

(** The UTF-8 encoding of U+FFFD, the replacement character. *)
Definition replacement : text := ascii_of_nat <$> [239; 191; 189].

(** [absl::EndsWith(s, "�")]. *)
Definition ends_with_replacement (s : text) : bool :=
  bool_decide (length replacement ≤ length s) &&
  bool_decide (drop (length s - length replacement) s = replacement).

(** What a tokenizer promises to the decoder: a text that ends in no unfinished
    character is final, and what follows is decoded on its own. *)
Class TokenizerLaws (tk : Tokenizer) : Prop := {
  decode_nil skip : tk_decode [] skip = [];
  decode_app a b skip : ends_with_replacement (tk_decode a skip) = false →
    tk_decode (a ++ b) skip = tk_decode a skip ++ tk_decode b skip;
  decode_ends a b skip : ends_with_replacement (tk_decode a skip) = false →
    tk_decode b skip ≠ [] →
    ends_with_replacement (tk_decode a skip ++ tk_decode b skip) =
    ends_with_replacement (tk_decode b skip);
}.

(** ** IncrementalDecoder *)

(** [class IncrementalDecoder]. *)
Record IncrementalDecoder := mkIncrementalDecoder {
  prompt_ : text;
  dec_num_prompt_tokens_ : nat;
  skip_special_tokens_ : bool;
  prefix_offset_ : nat;
  output_offset_ : nat;
}.

Definition set_offsets (p o : nat) (d : IncrementalDecoder) : IncrementalDecoder :=
  mkIncrementalDecoder (prompt_ d) (dec_num_prompt_tokens_ d) (skip_special_tokens_ d) p o.

(** [IncrementalDecoder::IncrementalDecoder]. *)
Definition IncrementalDecoder_new (prompt : text) (num_prompt_tokens : nat)
    (echo skip_special_tokens : bool) : IncrementalDecoder :=
  mkIncrementalDecoder prompt num_prompt_tokens skip_special_tokens
    (if echo then 0 else num_prompt_tokens) (if echo then 0 else num_prompt_tokens).

(** [IncrementalDecoder::decode]. *)
Definition decode {tk : Tokenizer} (token_ids : list Z) : M IncrementalDecoder text :=
  d0 ← get;
  (* return prompt directly if prompt string is not empty *)
  let emit_prompt := bool_decide (output_offset_ d0 < dec_num_prompt_tokens_ d0) &&
                     bool_decide (prompt_ d0 ≠ []) in
  _ ← (if (emit_prompt : bool) then
         (* leave 6 tokens for the prefix *)
         let n := dec_num_prompt_tokens_ d0 in
         put (set_offsets (if decide (n ≤ 6) then 0 else n - 6) n d0)
       else mret tt);
  d ← get;
  prefix_ids ← slice (prefix_offset_ d) (output_offset_ d) token_ids;
  let prefix_text := tk_decode prefix_ids (skip_special_tokens_ d) in
  new_ids ← slice_from (prefix_offset_ d) token_ids;
  let new_text := tk_decode new_ids (skip_special_tokens_ d) in
  let head := if (emit_prompt : bool) then prompt_ d else [] in
  if bool_decide (length prefix_text < length new_text) && negb (ends_with_replacement new_text) then
    _ ← put (set_offsets (output_offset_ d) (length token_ids) d);
    (* only print the delta text *)
    mret (head ++ drop (length prefix_text) new_text)
  else mret head.

(** A run of the decoder over growing prefixes of a token sequence: the sizes
    the prefix has at each call, and the concatenated deltas. *)
Fixpoint decode_all {tk : Tokenizer} (token_ids : list Z) (sizes : list nat) :
    M IncrementalDecoder text :=
  match sizes with
  | [] => mret []
  | n :: sizes' =>
      ids ← slice 0 n token_ids;
      t ← decode ids;
      ts ← decode_all token_ids sizes';
      mret (t ++ ts)
  end.

(** ** Correctness *)

(** The offsets are in order, and what lies between them is final text. *)
Record dec_ok {tk : Tokenizer} (d : IncrementalDecoder) (ids : list Z) : Prop := {
  do_order : prefix_offset_ d ≤ output_offset_ d;
  do_bound : output_offset_ d ≤ length ids;
  do_final : ends_with_replacement
    (tk_decode (take (output_offset_ d - prefix_offset_ d) (drop (prefix_offset_ d) ids))
       (skip_special_tokens_ d)) = false;
}.

(** No prompt text is left to emit. *)
Definition prompt_done (d : IncrementalDecoder) : Prop :=
  dec_num_prompt_tokens_ d ≤ output_offset_ d ∨ prompt_ d = [].

Lemma ends_with_nil : ends_with_replacement [] = false.
Proof. done. Qed.

Section decode.
Context {tk : Tokenizer} {laws : TokenizerLaws tk}.

(** One call once the prompt is out: either nothing is printed and nothing
    moves, or exactly the text of the tokens since [output_offset_] is. *)
Lemma decode_wp d ids :
  dec_ok d ids → prompt_done d →
  wp (decode ids) d (λ t d',
    dec_ok d' ids ∧ prompt_done d' ∧
    skip_special_tokens_ d' = skip_special_tokens_ d ∧ output_offset_ d ≤ output_offset_ d' ∧
    t = tk_decode (take (output_offset_ d' - output_offset_ d) (drop (output_offset_ d) ids))
          (skip_special_tokens_ d) ∧
    ends_with_replacement t = false ∧
    (ends_with_replacement (tk_decode (drop (output_offset_ d) ids) (skip_special_tokens_ d)) = false →
       t = tk_decode (drop (output_offset_ d) ids) (skip_special_tokens_ d))).
Proof using laws.
  intros [Ho Hb Hf] Hp. unfold decode. wp_steps.
  replace (bool_decide (output_offset_ d < dec_num_prompt_tokens_ d) && bool_decide (prompt_ d ≠ []))
    with false.
  2:{ symmetry. apply andb_false_iff. rewrite !bool_decide_eq_false. destruct Hp as [?| ->]; [left; lia|right]. tauto. }
  wp_steps. apply slice_wp; [lia|]. wp_steps. apply slice_from_wp; [lia|].
  set (pre := take (output_offset_ d - prefix_offset_ d) (drop (prefix_offset_ d) ids)) in *.
  assert (drop (prefix_offset_ d) ids = pre ++ drop (output_offset_ d) ids) as Hsplit.
  { unfold pre. rewrite <- (take_drop (output_offset_ d - prefix_offset_ d)) at 1.
    rewrite drop_drop. do 2 f_equal. lia. }
  rewrite Hsplit, decode_app by done. rewrite length_app, drop_app_length.
  case_match eqn:Hc; wp_steps.
  - (* the new text is printed *)
    apply andb_true_iff in Hc as [Hlt Hend%negb_true_iff]. apply bool_decide_eq_true in Hlt.
    assert (take (length ids - output_offset_ d) (drop (output_offset_ d) ids) =
      drop (output_offset_ d) ids) as Hall by (apply take_ge; rewrite length_drop; lia).
    assert (tk_decode (drop (output_offset_ d) ids) (skip_special_tokens_ d) ≠ []) as Hne.
    { intros Heq. rewrite Heq in Hlt. simpl in Hlt. lia. }
    rewrite decode_ends in Hend by done. unfold prompt_done.
    split_and!; simpl; try (by rewrite Hall); try done.
    + split; simpl; [done|done|by rewrite Hall].
    + destruct Hp; [left; lia|by right].
  - split_and!; try done; [by rewrite Nat.sub_diag, decode_nil|]. intros Hend.
    apply andb_false_iff in Hc as [Hc%bool_decide_eq_false|Hc%negb_false_iff].
    + destruct (tk_decode (drop (output_offset_ d) ids)); [done|simpl in *; lia].
    + destruct (decide (tk_decode (drop (output_offset_ d) ids) (skip_special_tokens_ d) = [])) as [->|Hne]; [done|].
      by rewrite decode_ends, Hend in Hc.
Qed.

(** Only the tokens before [output_offset_] matter. *)
Lemma dec_ok_prefix d ids ids' :
  ids `prefix_of` ids' → output_offset_ d ≤ length ids → dec_ok d ids ↔ dec_ok d ids'.
Proof.
  intros [k ->] Hle. assert (∀ n, n ≤ output_offset_ d →
    take (output_offset_ d - n) (drop n (ids ++ k)) = take (output_offset_ d - n) (drop n ids)) as Heq.
  { intros n Hn. rewrite drop_app_le by lia. by rewrite take_app_le by (rewrite length_drop; lia). }
  split; intros [Ho Hb Hf]; (split; [done|rewrite ?length_app; lia|]).
  - by rewrite Heq.
  - by rewrite <- Heq.
Qed.

(** The tokens between two offsets, cut at a third. *)
Lemma between_split (ids : list Z) a b c :
  a ≤ b ≤ c →
  take (c - a) (drop a ids) = take (b - a) (drop a ids) ++ take (c - b) (drop b ids).
Proof.
  intros [? ?]. replace (c - a) with ((b - a) + (c - b)) by lia.
  rewrite <- take_take_drop, drop_drop. do 3 f_equal. lia.
Qed.

(** The deltas of any run of calls on growing prefixes put together are the
    text of the tokens that were passed over. *)
Lemma decode_all_wp ids sizes : ∀ d,
  dec_ok d ids → prompt_done d → StronglySorted le (output_offset_ d :: sizes) →
  Forall (λ n, n ≤ length ids) sizes →
  wp (decode_all ids sizes) d (λ t d',
    dec_ok d' ids ∧ prompt_done d' ∧ skip_special_tokens_ d' = skip_special_tokens_ d ∧
    output_offset_ d ≤ output_offset_ d' ∧ ends_with_replacement t = false ∧
    t = tk_decode (take (output_offset_ d' - output_offset_ d) (drop (output_offset_ d) ids))
          (skip_special_tokens_ d)).
Proof using laws.
  induction sizes as [|n sizes IH]; intros d Hd Hp Hs Hle; simpl.
  { apply wp_ret. rewrite Nat.sub_diag. simpl. by rewrite decode_nil. }
  apply Forall_cons in Hle as [Hn Hle].
  apply StronglySorted_inv in Hs as [Hs Hd0]. apply Forall_cons in Hd0 as [Hdn Hd0].
  assert (take n ids `prefix_of` ids) as Hpre by apply prefix_take.
  assert (length (take n ids) = n) as Hln by (rewrite length_take; lia).
  wp_steps. apply slice_wp; [lia|]. rewrite Nat.sub_0_r, drop_0. wp_steps.
  eapply wp_mono; [apply decode_wp; [by apply (dec_ok_prefix _ _ ids Hpre); [rewrite Hln|]|done]|].
  intros t d' (Hd'&Hp'&Hsk&Hoo&Ht&Hfin&_). pose proof (do_bound _ _ Hd') as Hb. rewrite Hln in Hb.
  wp_steps. eapply wp_mono.
  - apply IH; [by apply (dec_ok_prefix _ _ ids Hpre); [rewrite Hln|]|done| |done].
    apply StronglySorted_inv in Hs as [Hs Hns].
    constructor; [done|]. eapply Forall_impl; [exact Hns|]. simpl. lia.
  - intros ts d'' (Hd''&Hp''&Hsk''&Hoo'&Hfin'&->). wp_steps. rewrite Hsk in *.
    assert (t = tk_decode (take (output_offset_ d' - output_offset_ d) (drop (output_offset_ d) ids))
      (skip_special_tokens_ d)) as ->.
    { rewrite Ht. f_equal. rewrite <- (take_drop n ids) at 2.
      rewrite drop_app_le by lia. by rewrite take_app_le by (rewrite length_drop; lia). }
    assert (output_offset_ d ≤ output_offset_ d' ≤ output_offset_ d'') as Hord by lia.
    rewrite (between_split ids _ _ _ Hord), decode_app by done.
    split_and!; try done; [lia|].
    set (b := take (output_offset_ d'' - _) _) in *.
    destruct (decide (tk_decode b (skip_special_tokens_ d) = [])) as [Heq|Hne].
    + by rewrite Heq, app_nil_r.
    + by rewrite decode_ends.
Qed.

Lemma decode_all_app ids s1 s2 d :
  decode_all ids (s1 ++ s2) d =
  (t1 ← decode_all ids s1; t2 ← decode_all ids s2; mret (t1 ++ t2)) d.
Proof.
  revert d. induction s1 as [|n s1 IH]; intros d; simpl.
  - unfold mbind, M_bind, mret, M_ret. simpl. destruct (decode_all ids s2 d) as [[]|]; done.
  - unfold mbind, M_bind, mret, M_ret in *. destruct (slice 0 n ids d) as [[p d1]|]; [|done].
    destruct (decode p d1) as [[t d2]|]; [|done]. rewrite IH.
    destruct (decode_all ids s1 d2) as [[t1 d3]|]; [|done].
    destruct (decode_all ids s2 d3) as [[t2 d4]|]; [|done]. by rewrite app_assoc.
Qed.

(** Once all tokens were shown to the decoder, everything is printed, unless
    the text ends in an unfinished character. *)
Lemma decode_all_complete ids sizes d :
  dec_ok d ids → prompt_done d → StronglySorted le (output_offset_ d :: sizes) →
  Forall (λ n, n ≤ length ids) sizes →
  let whole := tk_decode (drop (output_offset_ d) ids) (skip_special_tokens_ d) in
  ends_with_replacement whole = false →
  wp (decode_all ids (sizes ++ [length ids])) d (λ t _, t = whole).
Proof using laws.
  intros Hd Hp Hs Hle whole Hfin. unfold wp. rewrite decode_all_app. apply wp_bind.
  eapply wp_mono; [by apply decode_all_wp|]. intros t d' (Hd'&Hp'&Hsk&Hoo&Hft&Ht).
  pose proof (do_bound _ _ Hd') as Hb. simpl. wp_steps. apply slice_wp; [lia|].
  rewrite Nat.sub_0_r, drop_0, take_ge by done. wp_steps.
  eapply wp_mono; [by apply decode_wp|]. intros t2 d'' (_&_&_&_&_&_&Hlast). wp_steps.
  rewrite app_nil_r. rewrite Hsk in Hlast. unfold whole in *.
  assert (drop (output_offset_ d) ids = take (output_offset_ d' - output_offset_ d)
    (drop (output_offset_ d) ids) ++ drop (output_offset_ d') ids) as Hsplit.
  { rewrite <- (take_drop (output_offset_ d' - output_offset_ d)) at 1. f_equal.
    rewrite drop_drop. f_equal. lia. }
  subst t. rewrite Hsplit, decode_app in Hfin by done.
  replace (drop (output_offset_ d) ids) with (take (output_offset_ d' - output_offset_ d)
    (drop (output_offset_ d) ids) ++ drop (output_offset_ d') ids) at 2.
  rewrite decode_app by done. f_equal. apply Hlast.
  destruct (decide (tk_decode (drop (output_offset_ d') ids) (skip_special_tokens_ d) = [])) as [Heq|Hne].
  - by rewrite Heq.
  - by rewrite decode_ends in Hfin.
Qed.
End decode.
