(* ===== verification/Tiktoken.v ===== *)
(** * UTF-8

    The functions at the top of [src/tokenizer/tiktoken_tokenizer.cpp]: decoding
    one character and recognising text that ends inside one.  The decoder accepts
    exactly the encodings of the valid code points, each in its shortest form. *)

From Stdlib Require Import Ascii.
From stdpp Require Import base tactics list strings gmap.
From S2P Require Import Prelude Types Decoder.

(** ** Data *)

(** A byte as [unsigned char]. *)
Definition byte_val (c : ascii) : Z := Z.of_N (N_of_ascii c).

Definition kUnicodeError : Z := 0xFFFD.

(** ** Operations *)

(** [is_trail_byte]: the comparison of [signed char]. *)
Definition is_trail_byte (x : ascii) : bool :=
  let v := byte_val x in
  ((if v <? 128 then v else v - 256) <? -0x40)%Z.

(** [is_valid_codepoint]. *)
Definition is_valid_codepoint (c : Z) : bool :=
  ((c <? 0xD800) || ((0xE000 <=? c) && (c <=? 0x10FFFF)))%Z.

(** [decode_utf8]: the code point and the bytes consumed; [begin[0]] must exist. *)
Definition decode_utf8 (s : text) : option (Z * nat) :=
  match s with
  | [] => None
  | c0 :: s' =>
      let b0 := byte_val c0 in
      let invalid := Some (kUnicodeError, 1) in
      if (b0 <? 0x80)%Z then Some (b0, 1)
      else if (Z.land b0 0xE0 =? 0xC0)%Z && bool_decide (2 ≤ length s) then
        match s' with
        | c1 :: _ =>
            let cp := Z.lor (Z.shiftl (Z.land b0 0x1F) 6) (Z.land (byte_val c1) 0x3F) in
            if is_trail_byte c1 && (0x80 <=? cp)%Z && is_valid_codepoint cp then Some (cp, 2) else invalid
        | _ => invalid
        end
      else if (Z.land b0 0xF0 =? 0xE0)%Z && bool_decide (3 ≤ length s) then
        match s' with
        | c1 :: c2 :: _ =>
            let cp := Z.lor (Z.lor (Z.shiftl (Z.land b0 0x0F) 12) (Z.shiftl (Z.land (byte_val c1) 0x3F) 6))
                        (Z.land (byte_val c2) 0x3F) in
            if is_trail_byte c1 && is_trail_byte c2 && (0x800 <=? cp)%Z && is_valid_codepoint cp
            then Some (cp, 3) else invalid
        | _ => invalid
        end
      else if (Z.land b0 0xF8 =? 0xF0)%Z && bool_decide (4 ≤ length s) then
        match s' with
        | c1 :: c2 :: c3 :: _ =>
            let cp := Z.lor (Z.lor (Z.lor (Z.shiftl (Z.land b0 0x07) 18) (Z.shiftl (Z.land (byte_val c1) 0x3F) 12))
                        (Z.shiftl (Z.land (byte_val c2) 0x3F) 6)) (Z.land (byte_val c3) 0x3F) in
            if is_trail_byte c1 && is_trail_byte c2 && is_trail_byte c3 && (0x10000 <=? cp)%Z && is_valid_codepoint cp
            then Some (cp, 4) else invalid
        | _ => invalid
        end
      else invalid
  end.

(** [is_valid_decode_utf8]. *)
Definition is_valid_decode_utf8 (s : text) : option (bool * nat) :=
  match decode_utf8 s with
  | Some (c, mblen) => Some (negb (c =? kUnicodeError)%Z || bool_decide (mblen = 3), mblen)
  | None => None
  end.

(** ** The encoding *)

Definition byte_of (v : Z) : ascii := ascii_of_N (Z.to_N v).

(** The encoding of a code point by the standard. *)
Definition utf8 (cp : Z) : text :=
  if (cp <? 0x80)%Z then [byte_of cp]
  else if (cp <? 0x800)%Z then byte_of <$> [0xC0 + cp / 64; 0x80 + cp mod 64]%Z
  else if (cp <? 0x10000)%Z then
    byte_of <$> [0xE0 + cp / 4096; 0x80 + (cp / 64) mod 64; 0x80 + cp mod 64]%Z
  else byte_of <$> [0xF0 + cp / 262144; 0x80 + (cp / 4096) mod 64; 0x80 + (cp / 64) mod 64; 0x80 + cp mod 64]%Z.

Definition scalar (cp : Z) : Prop := (0 ≤ cp < 0xD800 ∨ 0xE000 ≤ cp ≤ 0x10FFFF)%Z.

(** ** Bytes *)

Lemma byte_val_range c : (0 ≤ byte_val c < 256)%Z.
Proof. unfold byte_val. pose proof (N_ascii_bounded c). lia. Qed.

Lemma byte_of_val c : byte_of (byte_val c) = c.
Proof. unfold byte_of, byte_val. rewrite N2Z.id. apply ascii_N_embedding. Qed.

Lemma byte_val_of v : (0 ≤ v < 256)%Z → byte_val (byte_of v) = v.
Proof. intros H. unfold byte_of, byte_val. rewrite N_ascii_embedding by lia. lia. Qed.

Lemma byte_eq c v : byte_val c = v → c = byte_of v.
Proof. intros <-. by rewrite byte_of_val. Qed.

Lemma is_trail_spec c : is_trail_byte c = true ↔ (128 ≤ byte_val c < 192)%Z.
Proof.
  unfold is_trail_byte. cbv zeta. pose proof (byte_val_range c). rewrite Z.ltb_lt.
  destruct (Z.ltb_spec (byte_val c) 128); lia.
Qed.

Lemma is_valid_spec cp : (0 ≤ cp)%Z → is_valid_codepoint cp = true ↔ scalar cp.
Proof.
  intros H. unfold is_valid_codepoint, scalar. rewrite orb_true_iff, andb_true_iff, Z.ltb_lt, !Z.leb_le. lia.
Qed.

(** The masks, as intervals and remainders. *)
Lemma masks c : let b := byte_val c in
  ((Z.land b 0xE0 =? 0xC0) = ((192 <=? b) && (b <? 224)) ∧
   (Z.land b 0xF0 =? 0xE0) = ((224 <=? b) && (b <? 240)) ∧
   (Z.land b 0xF8 =? 0xF0) = ((240 <=? b) && (b <? 248)) ∧
   Z.land b 0x3F = b mod 64 ∧ Z.land b 0x1F = b mod 32 ∧ Z.land b 0x0F = b mod 16 ∧ Z.land b 0x07 = b mod 8)%Z.
Proof. destruct c as [[] [] [] [] [] [] [] []]; vm_compute; repeat split. Qed.

(** Gluing bits. *)
Lemma glue a b n : (0 ≤ n)%Z → (0 ≤ a)%Z → (0 ≤ b < 2 ^ n)%Z → Z.lor (Z.shiftl a n) b = (a * 2 ^ n + b)%Z.
Proof.
  intros Hn Ha Hb. rewrite <-Z.shiftl_mul_pow2 by done. rewrite <-Z.add_lor_land.
  assert (Z.land (Z.shiftl a n) b = 0)%Z as ->; [|lia].
  apply Z.bits_inj'. intros i Hi. rewrite Z.land_spec, Z.bits_0, Z.shiftl_spec by done.
  destruct (decide (i < n)%Z) as [H|H].
  - by rewrite (Z.testbit_neg_r a) by lia.
  - assert (Z.testbit b i = false) as ->; [|by rewrite andb_false_r].
    destruct (decide (b = 0)%Z) as [->|Hb0]; [apply Z.bits_0|].
    apply Z.bits_above_log2; [lia|]. apply Z.log2_lt_pow2; [lia|].
    apply (Z.lt_le_trans _ (2 ^ n)); [lia|]. apply Z.pow_le_mono_r; lia.
Qed.

Lemma glue6 a b : (0 ≤ a)%Z → (0 ≤ b < 64)%Z → Z.lor (a * 64) b = (a * 64 + b)%Z.
Proof. intros Ha Hb. pose proof (glue a b 6 ltac:(lia) Ha Hb) as G. by rewrite Z.shiftl_mul_pow2 in G. Qed.

Lemma glue3 a b c : (0 ≤ a)%Z → (0 ≤ b < 64)%Z → (0 ≤ c < 64)%Z →
  Z.lor (Z.lor (Z.shiftl a 12) (Z.shiftl b 6)) c = (a * 4096 + b * 64 + c)%Z.
Proof.
  intros. rewrite (Z.shiftl_mul_pow2 b) by done. rewrite glue by lia.
  replace (a * 2 ^ 12 + b * 2 ^ 6)%Z with ((a * 64 + b) * 64)%Z by lia. rewrite glue6 by lia. lia.
Qed.

Lemma glue4 a b c d : (0 ≤ a)%Z → (0 ≤ b < 64)%Z → (0 ≤ c < 64)%Z → (0 ≤ d < 64)%Z →
  Z.lor (Z.lor (Z.lor (Z.shiftl a 18) (Z.shiftl b 12)) (Z.shiftl c 6)) d = (a * 262144 + b * 4096 + c * 64 + d)%Z.
Proof.
  intros. rewrite (Z.shiftl_mul_pow2 b), (Z.shiftl_mul_pow2 c) by done. rewrite (glue a) by lia.
  replace (a * 2 ^ 18 + b * 2 ^ 12)%Z with ((a * 64 + b) * 2 ^ 12)%Z by lia.
  rewrite <-Z.shiftl_mul_pow2, glue by lia.
  replace ((a * 64 + b) * 2 ^ 12 + c * 2 ^ 6)%Z with ((a * 4096 + b * 64 + c) * 64)%Z by lia.
  rewrite glue6 by lia. lia.
Qed.

(** ** Correctness *)

Lemma trail_mask c : is_trail_byte c = true → Z.land (byte_val c) 0x3F = (byte_val c - 128)%Z ∧ (128 ≤ byte_val c < 192)%Z.
Proof.
  intros H%is_trail_spec. destruct (masks c) as (_&_&_&->&_). Z.div_mod_to_equations. lia.
Qed.

(** The four lengths. *)
Lemma utf8_1 c : (byte_val c < 128)%Z → utf8 (byte_val c) = [c].
Proof. intros H. unfold utf8. rewrite (proj2 (Z.ltb_lt _ _)) by lia. by rewrite byte_of_val. Qed.

Lemma utf8_2 c0 c1 : let cp := ((byte_val c0 - 192) * 64 + (byte_val c1 - 128))%Z in
  (192 ≤ byte_val c0 < 224)%Z → (128 ≤ byte_val c1 < 192)%Z → (128 ≤ cp)%Z → utf8 cp = [c0; c1].
Proof.
  intros cp H0 H1 H. unfold utf8.
  rewrite (proj2 (Z.ltb_ge _ _)), (proj2 (Z.ltb_lt cp _)) by (unfold cp; lia). cbn.
  repeat f_equal; symmetry; apply byte_eq; unfold cp; Z.div_mod_to_equations; lia.
Qed.

Lemma utf8_3 c0 c1 c2 : let cp := ((byte_val c0 - 224) * 4096 + (byte_val c1 - 128) * 64 + (byte_val c2 - 128))%Z in
  (224 ≤ byte_val c0 < 240)%Z → (128 ≤ byte_val c1 < 192)%Z → (128 ≤ byte_val c2 < 192)%Z → (2048 ≤ cp)%Z →
  utf8 cp = [c0; c1; c2].
Proof.
  intros cp H0 H1 H2 H. unfold utf8.
  rewrite (proj2 (Z.ltb_ge _ _)), (proj2 (Z.ltb_ge cp 0x800)), (proj2 (Z.ltb_lt cp _)) by (unfold cp in *; lia). cbn.
  repeat f_equal; symmetry; apply byte_eq; unfold cp; Z.div_mod_to_equations; lia.
Qed.

Lemma utf8_4 c0 c1 c2 c3 : let cp := ((byte_val c0 - 240) * 262144 + (byte_val c1 - 128) * 4096 +
    (byte_val c2 - 128) * 64 + (byte_val c3 - 128))%Z in
  (240 ≤ byte_val c0 < 248)%Z → (128 ≤ byte_val c1 < 192)%Z → (128 ≤ byte_val c2 < 192)%Z →
  (128 ≤ byte_val c3 < 192)%Z → (65536 ≤ cp)%Z → utf8 cp = [c0; c1; c2; c3].
Proof.
  intros cp H0 H1 H2 H3 H. unfold utf8.
  rewrite (proj2 (Z.ltb_ge _ _)), (proj2 (Z.ltb_ge cp 0x800)), (proj2 (Z.ltb_ge cp 0x10000)) by (unfold cp in *; lia). cbn.
  repeat f_equal; symmetry; apply byte_eq; unfold cp; Z.div_mod_to_equations; lia.
Qed.

(** The code points that the masks and shifts compute. *)
Lemma cp2 b0 b1 : (192 ≤ b0 < 224)%Z → (128 ≤ b1 < 192)%Z →
  Z.lor (Z.shiftl (b0 mod 32) 6) (b1 - 128) = ((b0 - 192) * 64 + (b1 - 128))%Z.
Proof. intros. rewrite glue by (Z.div_mod_to_equations; lia). Z.div_mod_to_equations. lia. Qed.

Lemma cp3 b0 b1 b2 : (224 ≤ b0 < 240)%Z → (128 ≤ b1 < 192)%Z → (128 ≤ b2 < 192)%Z →
  Z.lor (Z.lor (Z.shiftl (b0 mod 16) 12) (Z.shiftl (b1 - 128) 6)) (b2 - 128) =
  ((b0 - 224) * 4096 + (b1 - 128) * 64 + (b2 - 128))%Z.
Proof. intros. rewrite glue3 by (Z.div_mod_to_equations; lia). Z.div_mod_to_equations. lia. Qed.

Lemma cp4 b0 b1 b2 b3 : (240 ≤ b0 < 248)%Z → (128 ≤ b1 < 192)%Z → (128 ≤ b2 < 192)%Z → (128 ≤ b3 < 192)%Z →
  Z.lor (Z.lor (Z.lor (Z.shiftl (b0 mod 8) 18) (Z.shiftl (b1 - 128) 12)) (Z.shiftl (b2 - 128) 6)) (b3 - 128) =
  ((b0 - 240) * 262144 + (b1 - 128) * 4096 + (b2 - 128) * 64 + (b3 - 128))%Z.
Proof. intros. rewrite glue4 by (Z.div_mod_to_equations; lia). Z.div_mod_to_equations. lia. Qed.

(** Splits the conjunctions of boolean tests. *)
Ltac split_tests := repeat match goal with
  | H : (_ && _)%bool = true |- _ => apply andb_true_iff in H as [? H]
  | H : (_ <=? _)%Z = true |- _ => apply Z.leb_le in H
  | H : (_ <? _)%Z = true |- _ => apply Z.ltb_lt in H
  | H : is_trail_byte _ = true |- _ => apply trail_mask in H as [? ?]
  | H : is_valid_codepoint _ = true |- _ => apply is_valid_spec in H; [|lia]
  end.

(** What a successful decoding has consumed. *)
Lemma decode_sound s cp n : decode_utf8 s = Some (cp, n) → (cp ≠ kUnicodeError ∨ n = 3) →
  scalar cp ∧ take n s = utf8 cp ∧ n = length (utf8 cp).
Proof.
  intros Hd Hv. destruct s as [|c0 s']; [done|]. pose proof (byte_val_range c0) as R0. unfold decode_utf8 in Hd.
  destruct (masks c0) as (E1&E2&E3&_&M1&M2&M3). rewrite E1, E2, E3, M1, M2, M3 in Hd. clear E1 E2 E3 M1 M2 M3.
  cbv zeta in Hd. repeat case_match; simplify_eq; try (destruct Hv; done); split_tests.
  - rewrite utf8_1 by lia. split_and!; [unfold scalar; lia|done|done].
  - repeat match goal with E : Z.land _ 63 = _ |- _ => rewrite E in *; clear E end.
    rewrite cp2 in * by lia. by rewrite utf8_2 by lia.
  - repeat match goal with E : Z.land _ 63 = _ |- _ => rewrite E in *; clear E end.
    rewrite cp3 in * by lia. by rewrite utf8_3 by lia.
  - repeat match goal with E : Z.land _ 63 = _ |- _ => rewrite E in *; clear E end.
    rewrite cp4 in * by lia. by rewrite utf8_4 by lia.
Qed.

(** The leading byte decides the branch. *)
Ltac lead c := let M := fresh in destruct (masks c) as (->&->&->&_&->&->&->);
  repeat match goal with
  | |- context [Z.ltb ?a ?b] => first [rewrite (proj2 (Z.ltb_lt a b)) by lia|rewrite (proj2 (Z.ltb_ge a b)) by lia]
  | |- context [Z.leb ?a ?b] => first [rewrite (proj2 (Z.leb_le a b)) by lia|rewrite (proj2 (Z.leb_gt a b)) by lia]
  end; cbn [andb]; rewrite ?bool_decide_true by (simpl; lia).

Ltac trail c := rewrite (proj2 (is_trail_spec c)) by lia;
  rewrite (proj1 (trail_mask c (proj2 (is_trail_spec c) ltac:(lia)))).

Lemma decode_1 c rest : (byte_val c < 128)%Z → decode_utf8 (c :: rest) = Some (byte_val c, 1).
Proof. intros H. unfold decode_utf8. by rewrite (proj2 (Z.ltb_lt _ _)) by lia. Qed.

Lemma decode_2 c0 c1 rest : let cp := ((byte_val c0 - 192) * 64 + (byte_val c1 - 128))%Z in
  (192 ≤ byte_val c0 < 224)%Z → (128 ≤ byte_val c1 < 192)%Z → (128 ≤ cp)%Z → scalar cp →
  decode_utf8 (c0 :: c1 :: rest) = Some (cp, 2).
Proof.
  intros cp H0 H1 H Hs. unfold decode_utf8. lead c0. trail c1. rewrite cp2 by lia. fold cp.
  by rewrite (proj2 (Z.leb_le _ _)), (proj2 (is_valid_spec cp ltac:(lia)) Hs).
Qed.

Lemma decode_3 c0 c1 c2 rest : let cp := ((byte_val c0 - 224) * 4096 + (byte_val c1 - 128) * 64 + (byte_val c2 - 128))%Z in
  (224 ≤ byte_val c0 < 240)%Z → (128 ≤ byte_val c1 < 192)%Z → (128 ≤ byte_val c2 < 192)%Z → (2048 ≤ cp)%Z → scalar cp →
  decode_utf8 (c0 :: c1 :: c2 :: rest) = Some (cp, 3).
Proof.
  intros cp H0 H1 H2 H Hs. unfold decode_utf8. lead c0. trail c1. trail c2. rewrite cp3 by lia. fold cp.
  by rewrite (proj2 (Z.leb_le _ _)), (proj2 (is_valid_spec cp ltac:(lia)) Hs).
Qed.

Lemma decode_4 c0 c1 c2 c3 rest : let cp := ((byte_val c0 - 240) * 262144 + (byte_val c1 - 128) * 4096 +
    (byte_val c2 - 128) * 64 + (byte_val c3 - 128))%Z in
  (240 ≤ byte_val c0 < 248)%Z → (128 ≤ byte_val c1 < 192)%Z → (128 ≤ byte_val c2 < 192)%Z →
  (128 ≤ byte_val c3 < 192)%Z → (65536 ≤ cp)%Z → scalar cp →
  decode_utf8 (c0 :: c1 :: c2 :: c3 :: rest) = Some (cp, 4).
Proof.
  intros cp H0 H1 H2 H3 H Hs. unfold decode_utf8. lead c0. trail c1. trail c2. trail c3. rewrite cp4 by lia. fold cp.
  by rewrite (proj2 (Z.leb_le _ _)), (proj2 (is_valid_spec cp ltac:(lia)) Hs).
Qed.

(** The encoding of a code point is decoded, whatever follows. *)
Lemma decode_utf8_encode cp rest : scalar cp → decode_utf8 (utf8 cp ++ rest) = Some (cp, length (utf8 cp)).
Proof.
  intros Hs. pose proof Hs as Hr. unfold scalar in Hr. unfold utf8.
  destruct (Z.ltb_spec cp 0x80); [|destruct (Z.ltb_spec cp 0x800); [|destruct (Z.ltb_spec cp 0x10000)]]; cbn [fmap list_fmap app length].
  - rewrite decode_1; rewrite byte_val_of by lia; [done|lia].
  - erewrite decode_2; rewrite ?byte_val_of by (Z.div_mod_to_equations; lia); try (Z.div_mod_to_equations; lia).
    all: replace (_ * 64 + _)%Z with cp by (Z.div_mod_to_equations; lia); done.
  - erewrite decode_3; rewrite ?byte_val_of by (Z.div_mod_to_equations; lia); try (Z.div_mod_to_equations; lia).
    all: replace (_ * 4096 + _ + _)%Z with cp by (Z.div_mod_to_equations; lia); done.
  - erewrite decode_4; rewrite ?byte_val_of by (Z.div_mod_to_equations; lia); try (Z.div_mod_to_equations; lia).
    all: replace (_ * 262144 + _ + _ + _)%Z with cp by (Z.div_mod_to_equations; lia); done.
Qed.

(** ** The tiktoken tokenizer

    [src/tokenizer/tiktoken_tokenizer.h] and [tiktoken_tokenizer.cpp]: a byte-pair
    encoding whose merges are ranked by the vocabulary.  The regular expressions
    are RE2's, and splitting a line and decoding base 64 are Abseil's: they are
    parameters.  The positions in a piece stay below [2 ^ 31]. *)

(** ** Libraries *)

(** A compiled expression: where the next match starts, and its length. *)
Definition Regex : Type := text → option (nat * nat).

Class Re2 := {
  re_compile : text → option Regex;
  re_quote : text → text;
}.

Class Absl := {
  str_split : text → list text;
  base64_unescape : text → option text;
  simple_atoi : text → option Z;
}.

(** ** Data *)

(** [struct TokenizerArgs], the fields that are used. *)
Record TokenizerArgs := mkTokenizerArgs {
  ta_special_tokens : list (text * Z);
  ta_pattern : text;
  ta_prefix_tokens : list text;
}.

(** [class TiktokenTokenizer]. *)
Record Tiktoken := mkTiktoken {
  encoder_ : gmap text Z;
  decoder_ : gmap Z text;
  regex_ : option Regex;
  special_token_encoder_ : gmap text Z;
  special_token_decoder_ : gmap Z text;
  special_token_regex_ : option Regex;
  prefix_token_ids_ : list Z;
  num_special_tokens : nat;
}.

(** [try_emplace]: an entry that exists is kept. *)
Definition try_emplace `{Countable K} {A} (k : K) (a : A) (m : gmap K A) : gmap K A :=
  match m !! k with Some _ => m | None => <[k:=a]> m end.

(** ** Loading *)

Section load.
Context {re : Re2} {ab : Absl}.

(** One line of the vocabulary; a line that cannot be parsed is skipped. *)
Definition load_line (p : gmap text Z * gmap Z text) (line : text) : gmap text Z * gmap Z text :=
  match str_split line with
  | [a; b] =>
      match base64_unescape a, simple_atoi b with
      | Some token, Some rank => (try_emplace token rank p.1, try_emplace rank token p.2)
      | _, _ => p
      end
  | _ => p
  end.

(** [load_vocab], on the lines of the file. *)
Definition load_vocab (lines : list text) : gmap text Z * gmap Z text :=
  foldl load_line (∅, ∅) (filter (λ l, l ≠ []) lines).

(** [absl::StrJoin]. *)
Fixpoint str_join (sep : text) (l : list text) : text :=
  match l with
  | [] => []
  | [t] => t
  | t :: l => t ++ sep ++ str_join sep l
  end.
Definition bar : text := ["|"%char].
Definition parens (t : text) : text := ["("%char] ++ t ++ [")"%char].

(** [load_special_tokens]: the two tables and the expression. *)
Definition load_special_tokens (l : list (text * Z)) : gmap text Z * gmap Z text * option Regex :=
  let l := filter (λ p : text * Z, p.1 ≠ []) l in
  (foldl (λ m p, try_emplace p.1 p.2 m) ∅ l, foldl (λ m p, try_emplace p.2 p.1 m) ∅ l,
   match l with
   | [] => None
   (* an expression that does not compile never matches *)
   | _ => Some (default (λ _, None) (re_compile (parens (str_join bar (re_quote <$> l.*1)))))
   end).

(** [token_to_id]. *)
Definition token_to_id (t : Tiktoken) (token : text) : option Z :=
  match special_token_encoder_ t !! token with
  | Some id => Some id
  | None => encoder_ t !! token
  end.

(** [id_to_token]. *)
Definition id_to_token (t : Tiktoken) (id : Z) : text :=
  match special_token_decoder_ t !! id with
  | Some token => token
  | None => default [] (decoder_ t !! id)
  end.

(** [TiktokenTokenizer::TiktokenTokenizer]; a pattern that does not compile is
    fatal, a prefix token that is not known is left out. *)
Definition TiktokenTokenizer_new (lines : list text) (args : TokenizerArgs) : result Tiktoken :=
  let '(enc, dec) := load_vocab lines in
  let '(senc, sdec, sre) :=
    match ta_special_tokens args with [] => (∅, ∅, None) | l => load_special_tokens l end in
  let make r :=
    let t := mkTiktoken enc dec r senc sdec sre [] (length (ta_special_tokens args)) in
    mkTiktoken enc dec r senc sdec sre
      (omap (λ token, if decide (token = []) then None else token_to_id t token) (ta_prefix_tokens args))
      (length (ta_special_tokens args)) in
  match ta_pattern args with
  | [] => Ok (make None)
  | pattern =>
      match re_compile (parens pattern) with
      | Some r => Ok (make (Some r))
      | None => Fail (CheckFailed "Failed to compile regex")
      end
  end.

(** [vocab_size]. *)
Definition vocab_size (t : Tiktoken) : nat := size (encoder_ t) + num_special_tokens t.
End load.

(** ** Byte-pair encoding *)

Definition kMaxRank : Z := 2 ^ 31 - 1.

(** An entry of [parts]: where a part starts, and the rank of the part together
    with the next one. *)
Abbreviation Part := (nat * Z)%type.

Section encode.
Context (t : Tiktoken).

(** [piece.substr(s, e - s)]. *)
Definition substr (piece : text) (s e : nat) : text := take (e - s) (drop s piece).

(** [get_rank]. *)
Definition get_rank (piece : text) (parts : list Part) (start skip : nat) : option Z :=
  if decide (start + skip + 2 < length parts) then
    match parts !! start, parts !! (start + skip + 2) with
    | Some s, Some e => encoder_ t !! substr piece s.1 e.1
    | _, _ => None
    end
  else None.

Definition set_rank (i : nat) (r : Z) (parts : list Part) : list Part := alter (λ p, (p.1, r)) i parts.

(** The ranks of all pairs, looked up once. *)
Fixpoint init_ranks {S} (piece : text) (is_ : list nat) (parts : list Part) : M S (list Part) :=
  match is_ with
  | [] => mret parts
  | i :: is_ =>
      match get_rank piece parts i 0 with
      | Some r =>
          _ ← check (negb (r =? kMaxRank)%Z) "Invalid rank";
          init_ranks piece is_ (set_rank i r parts)
      | None => init_ranks piece is_ parts
      end
  end.

(** The first part with the smallest rank; [i] is the place of the head. *)
Fixpoint find_min (i : nat) (parts : list Part) (best : Z * nat) : Z * nat :=
  match parts with
  | [] | [_] => best
  | p :: parts' => find_min (S i) parts' (if (p.2 <? best.1)%Z then (p.2, i) else best)
  end.

(** Removes entry [i]. *)
Definition erase (i : nat) (parts : list Part) : list Part := take i parts ++ drop (S i) parts.

(** The [while] loop: merges until no pair has a rank. *)
Fixpoint merge_loop {S} (fuel : nat) (piece : text) (parts : list Part) : M S (list Part) :=
  match fuel with
  | 0 => fail OutOfFuel
  | S fuel =>
      if decide (1 < length parts) then
        let '(min_rank, min_i) := find_min 0 parts (kMaxRank, 0) in
        if (min_rank =? kMaxRank)%Z then mret parts
        else
          (* remove parts[min_i + 1] *)
          let parts := set_rank min_i (default kMaxRank (get_rank piece parts min_i 1)) parts in
          let parts :=
            match min_i with
            | 0 => parts
            | Datatypes.S j => set_rank j (default kMaxRank (get_rank piece parts j 1)) parts
            end in
          merge_loop fuel piece (erase (min_i + 1) parts)
      else mret parts
  end.

(** The ids of the parts; one that is not in the vocabulary is left out. *)
Fixpoint part_ids (piece : text) (parts : list Part) : list Z :=
  match parts with
  | s :: (e :: _) as parts' =>
      match encoder_ t !! substr piece s.1 e.1 with
      | Some id => id :: part_ids piece parts'
      | None => part_ids piece parts'
      end
  | _ => []
  end.

(** [byte_pair_encode]. *)
Definition byte_pair_encode {S} (piece : text) (ids : list Z) : M S (list Z) :=
  match piece with
  | [] => mret ids
  | _ =>
      let parts := (λ i, (i, kMaxRank)) <$> seq 0 (length piece + 1) in
      parts ← init_ranks piece (seq 0 (length parts - 2)) parts;
      parts ← merge_loop (length parts) piece parts;
      mret (ids ++ part_ids piece parts)
  end.

(** ** Encoding *)

(** [FindAndConsume]: the text before the match, the match and the rest. *)
Definition find_and_consume (re : Regex) (input : text) : option (text * text * text) :=
  match re input with
  | Some (s, n) => Some (take s input, substr input s (s + n), drop (s + n) input)
  | None => None
  end.

(** The loop of [encode_internal]. *)
Fixpoint encode_pieces {S} (fuel : nat) (re : Regex) (input : text) (ids : list Z) : M S (list Z) :=
  match fuel with
  | 0 => fail OutOfFuel
  | S fuel =>
      match find_and_consume re input with
      | None => mret ids
      | Some (_, piece, rest) =>
          ids ← (match encoder_ t !! piece with
                 | Some id => mret (ids ++ [id])
                 | None => byte_pair_encode piece ids
                 end);
          encode_pieces fuel re rest ids
      end
  end.

(** [encode_internal]. *)
Definition encode_internal {S} (input : text) (ids : list Z) : M S (list Z) :=
  match regex_ t with
  | None => byte_pair_encode input ids
  | Some re => encode_pieces (length input + 1) re input ids
  end.

(** The loop of [encode], and the remaining text. *)
Fixpoint encode_specials {S} (fuel : nat) (re : Regex) (input : text) (ids : list Z) : M S (list Z) :=
  match fuel with
  | 0 => fail OutOfFuel
  | S fuel =>
      match find_and_consume re input with
      | None => encode_internal input ids
      | Some (sub_input, special, rest) =>
          (* encode text before special token if exists *)
          ids ← encode_internal sub_input ids;
          (* add special token id if exists *)
          let ids := match special_token_encoder_ t !! special with Some id => ids ++ [id] | None => ids end in
          encode_specials fuel re rest ids
      end
  end.

(** [TiktokenTokenizer::encode], which always succeeds; [ids] is the output vector. *)
Definition encode {S} (input : text) (ids : list Z) : M S (list Z) :=
  (* prepend prefix tokens if exists *)
  let ids := prefix_token_ids_ t ++ ids in
  match special_token_regex_ t with
  | None => encode_internal input ids
  | Some re => encode_specials (length input + 1) re input ids
  end.

(** ** Decoding *)

(** The bytes of the tokens; unknown ids are left out. *)
Definition token_bytes (skip_special_tokens : bool) (id : Z) : text :=
  match special_token_decoder_ t !! id with
  | Some token => if skip_special_tokens then [] else token
  | None => default [] (decoder_ t !! id)
  end.

(** The second loop of [decode]: unfinished UTF-8 is replaced. *)
Fixpoint sanitize (fuel : nat) (bytes : text) : text :=
  match fuel with
  | 0 => []
  | S fuel =>
      match is_valid_decode_utf8 bytes with
      | None => []
      | Some (true, consumed) => take consumed bytes ++ sanitize fuel (drop consumed bytes)
      | Some (false, _) => replacement
      end
  end.

(** [TiktokenTokenizer::decode]. *)
Definition tiktoken_decode (ids : list Z) (skip_special_tokens : bool) : text :=
  let bytes := concat (token_bytes skip_special_tokens <$> ids) in
  sanitize (length bytes) bytes.
End encode.

(** The tokenizer as the rest of the server sees it. *)
Definition tiktoken (t : Tiktoken) : Tokenizer := {|
  tk_decode := tiktoken_decode t;
  tk_id_to_token := id_to_token t;
|}.
