(* ===== verification/TiktokenInv.v ===== *)
(** * Correctness of the tiktoken tokenizer

    Decoding yields whole characters, and the merge loop computes the reference
    byte-pair encoding: repeatedly merge the leftmost adjacent pair of smallest
    rank. *)

From Stdlib Require Import Ascii.
From stdpp Require Import base tactics list gmap relations strings.
From S2P Require Import Prelude Types Tiktoken Decoder.

(** ** Characters *)

(** The text of some code points. *)
Definition chars (cps : list Z) : text := concat (utf8 <$> cps).

Lemma chars_app a b : chars (a ++ b) = chars a ++ chars b.
Proof. unfold chars. by rewrite fmap_app, concat_app. Qed.

Lemma chars_cons cp cps : chars (cp :: cps) = utf8 cp ++ chars cps.
Proof. done. Qed.

Lemma utf8_not_nil cp : utf8 cp ≠ [].
Proof. unfold utf8. repeat case_match; done. Qed.

Lemma utf8_pos cp : 0 < length (utf8 cp).
Proof. pose proof (utf8_not_nil cp). destruct (utf8 cp); simpl; [done|lia]. Qed.

(** Text that does not start with a whole character. *)
Definition broken (s : text) : Prop := ∃ n, is_valid_decode_utf8 s = Some (false, n).

Lemma valid_char s n : is_valid_decode_utf8 s = Some (true, n) →
  ∃ cp, scalar cp ∧ n = length (utf8 cp) ∧ s = utf8 cp ++ drop n s.
Proof.
  unfold is_valid_decode_utf8. destruct (decode_utf8 s) as [[cp m]|] eqn:Hd; [|done]. intros [= Hv <-].
  destruct (decode_sound _ _ _ Hd) as (Hs&Ht&Hn).
  { apply orb_true_iff in Hv as [Hv|Hv]; [left|right].
    - apply negb_true_iff, Z.eqb_neq in Hv. done.
    - by apply bool_decide_eq_true in Hv. }
  exists cp. split_and!; try done. by rewrite <-Ht, take_drop.
Qed.

Lemma valid_utf8 cp rest : scalar cp → is_valid_decode_utf8 (utf8 cp ++ rest) = Some (true, length (utf8 cp)).
Proof.
  intros Hs. unfold is_valid_decode_utf8. rewrite decode_utf8_encode by done. do 2 f_equal.
  destruct (Z.eqb_spec cp kUnicodeError) as [->|]; done.
Qed.

(** ** Decoding *)

(** The loop keeps whole characters and stops at the first broken one. *)
Lemma sanitize_chars cps : ∀ fuel rest, Forall scalar cps → length (chars cps ++ rest) ≤ fuel →
  sanitize fuel (chars cps ++ rest) = chars cps ++ sanitize (fuel - length cps) rest.
Proof.
  induction cps as [|cp cps IH]; intros fuel rest Hs Hf; [simpl; by rewrite Nat.sub_0_r|].
  apply Forall_cons in Hs as [Hc Hs]. pose proof (utf8_pos cp). rewrite chars_cons, <-app_assoc, length_app in *.
  destruct fuel as [|fuel]; [lia|]. simpl. rewrite valid_utf8, take_app_length, drop_app_length by done.
  by rewrite IH, app_assoc by (done || lia).
Qed.

Lemma chars_length cps : length cps ≤ length (chars cps).
Proof.
  induction cps as [|cp cps IH]; [done|]. rewrite chars_cons, length_app. pose proof (utf8_pos cp). simpl. lia.
Qed.

Lemma sanitize_broken fuel s : broken s → length s ≤ fuel → sanitize fuel s = replacement.
Proof.
  intros [n Hb] Hf. destruct fuel as [|fuel]; [destruct s; [discriminate Hb|simpl in Hf; lia]|]. simpl. by rewrite Hb.
Qed.

(** Every text is whole characters and a broken rest. *)
Lemma split_chars s : ∃ cps tail, Forall scalar cps ∧ s = chars cps ++ tail ∧ (tail = [] ∨ broken tail).
Proof.
  remember (length s) as n eqn:Hn. revert s Hn. induction (lt_wf n) as [n _ IH]. intros s ->.
  destruct (is_valid_decode_utf8 s) as [[[] m]|] eqn:Hv.
  - destruct (valid_char _ _ Hv) as (cp&Hc&->&Hs). set (rest := drop _ _) in *.
    destruct (IH (length rest)) with rest as (cps&tail&Hf&Heq&Ht); [|done|].
    { rewrite Hs, length_app. pose proof (utf8_pos cp). lia. }
    exists (cp :: cps), tail. rewrite Hs, Heq. unfold chars. simpl. by rewrite app_assoc, Forall_cons.
  - exists [], s. split_and!; [done|done|right; by exists m].
  - exists [], s. split_and!; [done|done|left]. destruct s; [done|]. unfold is_valid_decode_utf8 in Hv.
    unfold decode_utf8 in Hv. by repeat case_match.
Qed.

Lemma replacement_char : replacement = utf8 kUnicodeError ∧ scalar kUnicodeError.
Proof. split; [reflexivity|unfold scalar, kUnicodeError; lia]. Qed.

(** What decoding makes of some bytes. *)
Lemma sanitize_split cps tail fuel : Forall scalar cps → tail = [] ∨ broken tail → length (chars cps ++ tail) ≤ fuel →
  sanitize fuel (chars cps ++ tail) = chars cps ++ (if decide (tail = []) then [] else replacement).
Proof.
  intros Hs Ht Hf. rewrite sanitize_chars by done. f_equal. rewrite length_app in Hf. pose proof (chars_length cps).
  case_decide as Hd; [subst; by destruct (fuel - length cps)|].
  destruct Ht as [Ht|Ht]; [done|]. apply sanitize_broken; [done|lia].
Qed.

(** ** The last character *)

Lemma ends_with_app x y : length replacement ≤ length y → ends_with_replacement (x ++ y) = ends_with_replacement y.
Proof.
  intros Hl. unfold ends_with_replacement. change (length replacement) with 3 in *.
  rewrite length_app, !(bool_decide_true (3 ≤ _)) by lia. cbn [andb].
  rewrite drop_app_ge by lia. by replace (length x + length y - 3 - length x) with (length y - 3) by lia.
Qed.

Lemma ends_with_iff x : ends_with_replacement x = true ↔ ∃ l, x = l ++ replacement.
Proof.
  unfold ends_with_replacement. rewrite andb_true_iff, !bool_decide_eq_true. split.
  - intros [Hl Hd]. exists (take (length x - length replacement) x).
    rewrite <-(take_drop (length x - length replacement) x) at 1. by rewrite Hd.
  - intros [l ->]. rewrite length_app. split; [lia|].
    replace (length l + length replacement - length replacement) with (length l) by lia. by rewrite drop_app_length.
Qed.

(** The bytes of a character: a leading byte and trail bytes. *)
Lemma utf8_shape cp : scalar cp → ∃ c l, utf8 cp = c :: l ∧ is_trail_byte c = false ∧ Forall (λ c, is_trail_byte c = true) l.
Proof.
  intros Hs. unfold scalar in Hs.
  assert (∀ v, (128 ≤ v < 192)%Z → is_trail_byte (byte_of v) = true) as Ht.
  { intros v Hv. apply is_trail_spec. by rewrite byte_val_of by lia. }
  assert (∀ v, (0 ≤ v < 128 ∨ 192 ≤ v < 256)%Z → is_trail_byte (byte_of v) = false) as Hl.
  { intros v Hv. apply not_true_iff_false. rewrite is_trail_spec, byte_val_of by lia. lia. }
  unfold utf8. destruct (Z.ltb_spec cp 0x80), (Z.ltb_spec cp 0x800), (Z.ltb_spec cp 0x10000); try lia; cbn; eexists _, _; (split; [reflexivity|split]);
    try (apply Hl; Z.div_mod_to_equations; lia); repeat (constructor; [apply Ht; Z.div_mod_to_equations; lia|]); constructor.
Qed.

(** The last leading byte of a text starts its last character. *)
Lemma last_lead (x l : text) c c' tr tr' : x ++ c :: tr = l ++ c' :: tr' →
  is_trail_byte c = false → is_trail_byte c' = false →
  Forall (λ c, is_trail_byte c = true) tr → Forall (λ c, is_trail_byte c = true) tr' → c :: tr = c' :: tr'.
Proof.
  intros Heq Hc Hc' Ht Ht'. destruct (app_eq_inv _ _ _ _ Heq) as [(k&_&Hk)|(k&_&Hk)].
  all: destruct k as [|d k]; [done|]; injection Hk as <- ->.
  all: apply Forall_app in Ht' as [_ Ht'] || apply Forall_app in Ht as [_ Ht].
  all: apply Forall_cons in Ht' as [? _] || apply Forall_cons in Ht as [? _]; congruence.
Qed.

Lemma utf8_inj a b : scalar a → scalar b → utf8 a = utf8 b → a = b.
Proof.
  intros Ha Hb Heq. pose proof (decode_utf8_encode a [] Ha) as H. rewrite Heq, decode_utf8_encode in H by done. congruence.
Qed.

(** A character ends in the replacement character only if it is that one. *)
Lemma ends_char x cp : scalar cp → ends_with_replacement (x ++ utf8 cp) = bool_decide (cp = kUnicodeError).
Proof.
  intros Hs. destruct replacement_char as [Er Sr]. destruct (bool_decide (cp = kUnicodeError)) eqn:Hb.
  { apply bool_decide_eq_true in Hb as ->. apply ends_with_iff. exists x. by rewrite Er. }
  apply bool_decide_eq_false in Hb. apply not_true_iff_false. rewrite ends_with_iff. intros [l Heq].
  destruct Hb. apply utf8_inj; try done. rewrite Er in Heq.
  destruct (utf8_shape _ Hs) as (c&tr&Hc&?&?), (utf8_shape _ Sr) as (c'&tr'&Hc'&?&?).
  rewrite Hc, Hc' in *. by eapply last_lead.
Qed.

Lemma ends_chars x cps : Forall scalar cps → cps ≠ [] →
  ends_with_replacement (x ++ chars cps) = ends_with_replacement (chars cps).
Proof.
  intros Hs Hne. destruct (exists_last Hne) as (l&cp&->). apply Forall_app in Hs as [_ [Hs _]%Forall_cons].
  rewrite chars_app, app_assoc. unfold chars at 2 4. simpl. rewrite app_nil_r. by rewrite !ends_char.
Qed.

(** ** The laws of the decoder *)

(** Decoded text is whole characters. *)
Lemma decode_chars t ids skip : ∃ cps, Forall scalar cps ∧ tiktoken_decode t ids skip = chars cps.
Proof.
  unfold tiktoken_decode. set (bytes := concat _). destruct (split_chars bytes) as (cps&tail&Hs&Heq&Ht).
  rewrite Heq, sanitize_split by done. case_decide.
  - exists cps. by rewrite app_nil_r.
  - destruct replacement_char as [-> ?]. exists (cps ++ [kUnicodeError]). rewrite chars_app, Forall_app. split; [by repeat constructor|].
    done.
Qed.

(** What the tokenizer promises to the incremental decoder. *)
#[global] Instance tiktoken_laws t : TokenizerLaws (tiktoken t).
Proof.
  split; simpl.
  - done.
  - intros a b skip He. unfold tiktoken_decode in *. rewrite fmap_app, concat_app.
    set (A := concat (token_bytes t skip <$> a)) in *. set (B := concat (token_bytes t skip <$> b)) in *.
    destruct (split_chars A) as (cps&tail&Hs&Heq&Ht). rewrite Heq in *. rewrite sanitize_split in * by done.
    assert (tail = []) as ->.
    { case_decide; [done|]. destruct (ends_with_replacement _) eqn:E; [done|]. apply not_true_iff_false in E. destruct E.
      apply ends_with_iff. by eexists. }
    rewrite decide_True, !app_nil_r in * by done. rewrite sanitize_chars by done. f_equal.
    destruct (split_chars B) as (cps'&tail'&Hs'&HeqB&Ht'). rewrite HeqB. pose proof (chars_length cps).
    rewrite !sanitize_split; try done; rewrite !length_app in *; lia.
  - intros a b skip _ Hb. destruct (decode_chars t b skip) as (cps&Hs&Heq). rewrite Heq in *.
    apply ends_chars; [done|]. by intros ->.
Qed.

(** ** Byte-pair encoding *)

Section bpe.
Context (t : Tiktoken).

(** The rank of the tokens at places [i] and [i + 1] together. *)
Definition pair_rank (ts : list text) (i : nat) : Z :=
  match ts !! i, ts !! S i with
  | Some a, Some b => default kMaxRank (encoder_ t !! (a ++ b))
  | _, _ => kMaxRank
  end.

(** The leftmost pair of smallest rank. *)
Record best (ts : list text) (i : nat) : Prop := {
  best_ranked : (pair_rank ts i < kMaxRank)%Z;
  best_least : ∀ j, (pair_rank ts i ≤ pair_rank ts j)%Z;
  best_first : ∀ j, j < i → (pair_rank ts i < pair_rank ts j)%Z;
}.

(** The list with the tokens at places [i] and [i + 1] merged. *)
Definition merged (ts : list text) (i : nat) : list text :=
  take i ts ++ concat (take 2 (drop i ts)) :: drop (i + 2) ts.

(** The reference: one merge, and all of them. *)
Definition bpe_step (ts ts' : list text) : Prop := ∃ i, best ts i ∧ ts' = merged ts i.
Definition bpe (ts ts' : list text) : Prop := rtc bpe_step ts ts' ∧ nf bpe_step ts'.

(** Where the tokens start. *)
Definition start_of (ts : list text) (i : nat) : nat := length (concat (take i ts)).
Definition starts (ts : list text) : list nat := start_of ts <$> seq 0 (S (length ts)).
Definition parts_of (ts : list text) : list Part := (λ i, (start_of ts i, pair_rank ts i)) <$> seq 0 (S (length ts)).

Lemma parts_of_starts ts : (parts_of ts).*1 = starts ts.
Proof. unfold parts_of, starts. rewrite <-list_fmap_compose. done. Qed.

Lemma lookup_starts ts i n : starts ts !! i = Some n ↔ i ≤ length ts ∧ n = start_of ts i.
Proof. unfold starts. rewrite list_lookup_fmap_Some. setoid_rewrite lookup_seq. naive_solver lia. Qed.

Lemma concat_take_drop (ts : list text) i : concat ts = concat (take i ts) ++ concat (drop i ts).
Proof. by rewrite <-concat_app, take_drop. Qed.

Lemma start_add ts i k : start_of ts (i + k) = start_of ts i + length (concat (take k (drop i ts))).
Proof.
  unfold start_of. rewrite <-length_app, <-concat_app. do 2 f_equal.
  by rewrite take_take_drop.
Qed.

(** The bytes between two starts are the tokens between them. *)
Lemma substr_tokens ts i k : substr (concat ts) (start_of ts i) (start_of ts (i + k)) = concat (take k (drop i ts)).
Proof.
  rewrite start_add. unfold substr. rewrite (concat_take_drop ts i), (concat_take_drop (drop i ts) k).
  unfold start_of. rewrite drop_app_length. replace (_ + _ - _) with (length (concat (take k (drop i ts)))) by lia.
  by rewrite take_app_length.
Qed.

Lemma get_rank_spec ts parts i k : parts.*1 = starts ts →
  get_rank t (concat ts) parts i k =
  if decide (i + k + 2 ≤ length ts) then encoder_ t !! concat (take (k + 2) (drop i ts)) else None.
Proof.
  intros Hp. assert (length parts = S (length ts)) as Hl.
  { rewrite <-(length_fmap fst), Hp. unfold starts. by rewrite length_fmap, length_seq. }
  unfold get_rank. rewrite Hl. destruct (decide (i + k + 2 ≤ length ts)) as [H|H].
  - rewrite decide_True by lia.
    destruct (lookup_lt_is_Some_2 parts i) as [p Hp1]; [lia|].
    destruct (lookup_lt_is_Some_2 parts (i + k + 2)) as [q Hq1]; [lia|]. rewrite Hp1, Hq1.
    assert (p.1 = start_of ts i) as ->.
    { apply (lookup_starts ts i). rewrite <-Hp, list_lookup_fmap, Hp1. done. }
    assert (q.1 = start_of ts (i + (k + 2))) as ->.
    { rewrite Nat.add_assoc. apply (lookup_starts ts (i + k + 2)). rewrite <-Hp, list_lookup_fmap, Hq1. done. }
    by rewrite substr_tokens.
  - by rewrite decide_False by lia.
Qed.

Lemma set_rank_starts i r parts : (set_rank i r parts).*1 = parts.*1.
Proof.
  unfold set_rank. apply list_eq. intros j. rewrite !list_lookup_fmap.
  rewrite list_lookup_alter. case_decide; [subst|done]. by destruct (parts !! j).
Qed.

Lemma set_rank_length i r parts : length (set_rank i r parts) = length parts.
Proof. apply length_alter. Qed.

Lemma lookup_set_rank i r parts j : set_rank i r parts !! j =
  (λ p : Part, if decide (i = j) then (p.1, r) else p) <$> parts !! j.
Proof.
  unfold set_rank. rewrite list_lookup_alter. destruct (decide (i = j)) as [->|]; [done|]. by destruct (parts !! j).
Qed.

(** A list of parts is determined by its starts and ranks. *)
Lemma parts_eq ts parts : parts.*1 = starts ts → (∀ j p, parts !! j = Some p → p.2 = pair_rank ts j) → parts = parts_of ts.
Proof.
  intros H1 H2. apply list_eq. intros j. destruct (parts !! j) as [p|] eqn:Hp.
  - assert ((starts ts) !! j = Some p.1) as Hs by (by rewrite <-H1, list_lookup_fmap, Hp).
    apply lookup_starts in Hs as [Hj Hs]. unfold parts_of. rewrite list_lookup_fmap, lookup_seq_lt by lia. simpl.
    rewrite <-Hs, <-(H2 _ _ Hp). by destruct p.
  - symmetry. apply lookup_ge_None. apply lookup_ge_None in Hp. rewrite <-(length_fmap fst), H1 in Hp.
    unfold starts, parts_of in *. rewrite !length_fmap in *. done.
Qed.

(** ** The initial ranks *)

(** The bytes as tokens. *)
Definition bytes_of (piece : text) : list text := (λ c, [c]) <$> piece.

Lemma concat_bytes piece : concat (bytes_of piece) = piece.
Proof. induction piece as [|c piece IH]; [done|]. simpl. by rewrite IH. Qed.

Lemma bytes_starts piece : starts (bytes_of piece) = seq 0 (length piece + 1).
Proof.
  unfold starts, bytes_of. rewrite length_fmap, Nat.add_1_r. rewrite <-(list_fmap_id (seq 0 _)) at 2.
  apply list_fmap_ext. intros i x Hx%lookup_seq. unfold start_of.
  rewrite <-fmap_take. change ((λ c, [c]) <$> take x piece) with (bytes_of (take x piece)).
  rewrite concat_bytes, length_take. simpl. lia.
Qed.

Lemma pair_rank_get ts parts i : parts.*1 = starts ts →
  default kMaxRank (get_rank t (concat ts) parts i 0) = pair_rank ts i.
Proof.
  intros Hp. rewrite get_rank_spec by done. unfold pair_rank. case_decide as H.
  - destruct (lookup_lt_is_Some_2 ts i) as [a Ha]; [lia|]. destruct (lookup_lt_is_Some_2 ts (S i)) as [b Hb]; [lia|].
    rewrite Ha, Hb, (drop_S _ _ _ Ha), (drop_S _ _ _ Hb). simpl. by rewrite app_nil_r.
  - simpl. destruct (ts !! i); [|done]. by rewrite (lookup_ge_None_2 ts (S i)) by lia.
Qed.

(** The vocabulary has no rank that stands for none. *)
Definition ranks_ok : Prop := ∀ k r, encoder_ t !! k = Some r → (r < kMaxRank)%Z.

Lemma init_ranks_spec {S} ts (s : S) m : ∀ a parts, ranks_ok → parts.*1 = starts ts →
  (∀ j p, parts !! j = Some p → p.2 = if decide (j < a) then pair_rank ts j else kMaxRank) →
  ∃ parts', init_ranks t (concat ts) (seq a m) parts s = Ok (parts', s) ∧ parts'.*1 = starts ts ∧
    ∀ j p, parts' !! j = Some p → p.2 = if decide (j < a + m) then pair_rank ts j else kMaxRank.
Proof.
  induction m as [|m IH]; intros a parts Hr Hp Hj; simpl.
  { exists parts. split_and!; try done. by rewrite Nat.add_0_r. }
  rewrite <-Nat.add_succ_comm. pose proof (pair_rank_get ts parts a Hp) as Hg.
  destruct (get_rank t (concat ts) parts a 0) as [r|] eqn:E; simpl in Hg.
  - assert (r < kMaxRank)%Z as Hlt.
    { rewrite get_rank_spec in E by done. case_decide; [|done]. by eapply Hr. }
    unfold check. rewrite (proj2 (Z.eqb_neq _ _)) by lia. cbn [negb]. apply IH; [done|by rewrite set_rank_starts|].
    intros j p. rewrite lookup_set_rank. intros (q&Hq&->)%fmap_Some. destruct (decide (a = j)) as [->|Hn].
    + rewrite decide_True by lia. done.
    + rewrite (Hj _ _ Hq). by destruct (decide (j < a)), (decide (j < Datatypes.S a)); try lia.
  - apply IH; try done. intros j p Hq. rewrite (Hj _ _ Hq). destruct (decide (j < a)), (decide (j < Datatypes.S a)); try lia; try done.
    assert (j = a) as -> by lia. done.
Qed.

Lemma pair_rank_last ts j : length ts ≤ S j → pair_rank ts j = kMaxRank.
Proof. intros H. unfold pair_rank. destruct (ts !! j); [|done]. by rewrite (lookup_ge_None_2 ts (S j)) by lia. Qed.

(** The loop computes the parts of the single bytes. *)
Lemma init_parts {S} piece (s : S) : ranks_ok → piece ≠ [] →
  let parts := (λ i, (i, kMaxRank)) <$> seq 0 (length piece + 1) in
  init_ranks t piece (seq 0 (length parts - 2)) parts s = Ok (parts_of (bytes_of piece), s).
Proof.
  intros Hr Hne parts. destruct (init_ranks_spec (bytes_of piece) s (length parts - 2) 0 parts) as (parts'&Hi&H1&H2); [done| | |].
  - rewrite bytes_starts. unfold parts. rewrite <-list_fmap_compose. apply list_fmap_id.
  - intros j p Hj. unfold parts in Hj. rewrite list_lookup_fmap in Hj. apply fmap_Some in Hj as (i&_&->). by rewrite decide_False by lia.
  - rewrite concat_bytes in Hi. rewrite Hi. do 2 f_equal. apply parts_eq; [done|]. intros j p Hj. rewrite (H2 _ _ Hj).
    case_decide as Hd; [done|]. symmetry. apply pair_rank_last. unfold bytes_of. rewrite length_fmap.
    unfold parts in Hd. rewrite length_fmap, length_seq in Hd. lia.
Qed.

(** ** One merge *)

Lemma find_min_spec parts : ∀ i b, let r := find_min i parts b in
  (r = b ∧ ∀ j p, j < length parts - 1 → parts !! j = Some p → (b.1 ≤ p.2)%Z) ∨
  (∃ j p, j < length parts - 1 ∧ parts !! j = Some p ∧ r = (p.2, i + j) ∧ (p.2 < b.1)%Z ∧
    (∀ j' q, j' < length parts - 1 → parts !! j' = Some q → (p.2 ≤ q.2)%Z ∧ (j' < j → (p.2 < q.2)%Z))).
Proof.
  induction parts as [|p [|p' parts] IH]; intros i b; [left; split; [done|simpl; lia]..|].
  set (l := p' :: parts) in *. cbn [find_min]. fold l. replace (length (p :: l) - 1) with (S (length l - 1)) by (unfold l; simpl; lia).
  destruct (Z.ltb_spec p.2 b.1) as [Hlt|Hge].
  - destruct (IH (S i) (p.2, i)) as [[-> H]|(j&q&Hj&Hq&->&Hlt'&H)]; right.
    + exists 0, p. simpl. split_and!; [lia|done|by rewrite Nat.add_0_r|done|]. intros [|j'] q Hj' Hq; simplify_eq/=; [lia|].
      split; [eapply H; [|done]; lia|lia].
    + exists (S j), q. simpl in *. split_and!; [lia|done|f_equal; lia|lia|]. intros [|j'] q' Hj' Hq'; simplify_eq/=; [lia|].
      destruct (H j' q') as [? Hf]; [lia|done|]. split; [done|]. intros. apply Hf. lia.
  - destruct (IH (S i) b) as [[-> H]|(j&q&Hj&Hq&->&Hlt'&H)].
    + left. split; [done|]. intros [|j'] q Hj' Hq; simplify_eq/=; [lia|]. eapply H; [|done]; lia.
    + right. exists (S j), q. simpl in *. split_and!; [lia|done|f_equal; lia|done|]. intros [|j'] q' Hj' Hq'; simplify_eq/=; [lia|].
      destruct (H j' q') as [? Hf]; [lia|done|]. split; [done|]. intros. apply Hf. lia.
Qed.
Lemma lookup_erase k (l : list Part) j : k < length l → erase k l !! j = if decide (j < k) then l !! j else l !! S j.
Proof.
  intros Hk. unfold erase. case_decide.
  - by rewrite lookup_app_l, lookup_take_lt by (rewrite ?length_take; lia).
  - rewrite lookup_app_r, lookup_drop by (rewrite length_take; lia). f_equal. rewrite length_take. lia.
Qed.

Lemma lookup_merged ts i a b j : ts !! i = Some a → ts !! S i = Some b →
  merged ts i !! j = if decide (j < i) then ts !! j else if decide (j = i) then Some (a ++ b) else ts !! S j.
Proof.
  intros Ha Hb. unfold merged. rewrite (drop_S _ _ _ Ha), (drop_S _ _ _ Hb). simpl. rewrite app_nil_r.
  apply lookup_lt_Some in Hb. assert (length (take i ts) = i) as Hl by (rewrite length_take; lia).
  destruct (decide (j < i)); [by rewrite lookup_app_l, lookup_take_lt by lia|].
  rewrite lookup_app_r, Hl by lia. destruct (decide (j = i)) as [->|]; [by rewrite Nat.sub_diag|].
  replace (j - i) with (S (j - i - 1)) by lia. simpl. rewrite lookup_drop. f_equal. lia.
Qed.

Lemma length_merged ts i : i + 2 ≤ length ts → length (merged ts i) = length ts - 1.
Proof. intros H. unfold merged. rewrite length_app, length_take. simpl. rewrite length_drop. lia. Qed.

Lemma concat_merged ts i : concat (merged ts i) = concat ts.
Proof.
  unfold merged. rewrite concat_app. simpl. rewrite (concat_take_drop ts i), (concat_take_drop (drop i ts) 2), drop_drop.
  done.
Qed.

Lemma start_merged ts i j : i + 2 ≤ length ts →
  start_of (merged ts i) j = if decide (j ≤ i) then start_of ts j else start_of ts (S j).
Proof.
  intros H. unfold start_of, merged. assert (length (take i ts) = i) as Hl by (rewrite length_take; lia). case_decide.
  - by rewrite take_app_le, take_take, Nat.min_l by lia.
  - rewrite take_app_ge by lia. rewrite Hl. replace (j - i) with (S (j - i - 1)) by lia. simpl. rewrite !concat_app. simpl.
    replace (S j) with (i + (2 + (j - i - 1))) by lia. rewrite <-take_take_drop, concat_app, <-(take_take_drop (drop i ts) 2), concat_app.
    by rewrite drop_drop.
Qed.

Lemma triple_rank ts parts i : parts.*1 = starts ts → default kMaxRank (get_rank t (concat ts) parts i 1) =
  match ts !! i, ts !! S i, ts !! S (S i) with
  | Some a, Some b, Some c => default kMaxRank (encoder_ t !! (a ++ b ++ c))
  | _, _, _ => kMaxRank
  end.
Proof.
  intros Hp. rewrite get_rank_spec by done. case_decide as H.
  - destruct (lookup_lt_is_Some_2 ts i) as [a Ha]; [lia|]. destruct (lookup_lt_is_Some_2 ts (S i)) as [b Hb]; [lia|].
    destruct (lookup_lt_is_Some_2 ts (S (S i))) as [c Hc]; [lia|].
    rewrite Ha, Hb, Hc, (drop_S _ _ _ Ha), (drop_S _ _ _ Hb), (drop_S _ _ _ Hc). simpl. by rewrite app_nil_r.
  - simpl. destruct (ts !! i); [|done]. destruct (ts !! S i); [|done]. by rewrite (lookup_ge_None_2 ts (S (S i))) by lia.
Qed.

(** The parts after a merge at place [i]. *)
Definition merge_parts (piece : text) (parts : list Part) (i : nat) : list Part :=
  let parts := set_rank i (default kMaxRank (get_rank t piece parts i 1)) parts in
  let parts :=
    match i with
    | 0 => parts
    | S j => set_rank j (default kMaxRank (get_rank t piece parts j 1)) parts
    end in
  erase (i + 1) parts.

Lemma merge_parts_spec ts i a b : ts !! i = Some a → ts !! S i = Some b →
  merge_parts (concat ts) (parts_of ts) i = parts_of (merged ts i).
Proof.
  intros Ha Hb. pose proof (lookup_lt_Some _ _ _ Hb) as Hi. unfold merge_parts.
  set (r := default kMaxRank (get_rank t (concat ts) (parts_of ts) i 1)).
  set (P1 := set_rank i r (parts_of ts)). assert (P1.*1 = starts ts) as H1 by (by unfold P1; rewrite set_rank_starts, parts_of_starts).
  set (P2 := match i with 0 => P1 | S j => _ end).
  assert (P2.*1 = starts ts) as H2 by (unfold P2; destruct i; [done|by rewrite set_rank_starts]).
  assert (length P2 = S (length ts)) as Hl.
  { rewrite <-(length_fmap fst), H2. unfold starts. by rewrite length_fmap, length_seq. }
  assert (∀ j p, P2 !! j = Some p → p.2 = if decide (j = i) then r else
    if decide (S j = i) then default kMaxRank (get_rank t (concat ts) P1 j 1) else pair_rank ts j) as Hp.
  { intros j p Hj. assert (∀ j q, P1 !! j = Some q → q.2 = if decide (j = i) then r else pair_rank ts j) as HP1.
    { intros j' q. unfold P1. rewrite lookup_set_rank. intros (q'&Hq'&->)%fmap_Some.
      destruct (decide (i = j')) as [->|]; [by rewrite decide_True|]. rewrite decide_False by done.
      unfold parts_of in Hq'. apply list_lookup_fmap_Some in Hq' as (k&->&[-> _]%lookup_seq). done. }
    unfold P2 in Hj. destruct i as [|i']; [by apply HP1|]. rewrite lookup_set_rank in Hj. apply fmap_Some in Hj as (q&Hq&->).
    destruct (decide (i' = j)) as [->|Hn]; [by rewrite decide_False, decide_True by lia|].
    rewrite (HP1 _ _ Hq). destruct (decide (j = S i')); [done|]. by rewrite decide_False by lia. }
  apply parts_eq.
  - apply list_eq. intros j. rewrite list_lookup_fmap, lookup_erase by lia.
    assert (∀ k, fst <$> P2 !! k = starts ts !! k) as Hk by (intros k; by rewrite <-H2, list_lookup_fmap).
    replace (if decide (j < i + 1) then P2 !! j else P2 !! S j) with (P2 !! (if decide (j < i + 1) then j else S j)) by (by case_decide).
    rewrite Hk. unfold starts. rewrite !list_lookup_fmap, length_merged by lia.
    destruct (decide (j < i + 1)); destruct (decide (j < length ts)) as [Hj|Hj].
    1,3: rewrite !lookup_seq_lt by lia; simpl; rewrite start_merged by lia; by case_decide; try lia.
    + lia.
    + by rewrite !lookup_seq_ge by lia.
  - intros j p. rewrite lookup_erase by lia. unfold pair_rank at 1. rewrite !(lookup_merged _ _ _ _ _ Ha Hb).
    destruct (decide (j < i + 1)) as [Hj|Hj]; intros Hjp; rewrite (Hp _ _ Hjp).
    + destruct (decide (j = i)) as [->|]; [|destruct (decide (S j = i)) as [<-|]].
      * unfold r. rewrite triple_rank, Ha, Hb by apply parts_of_starts.
        repeat case_decide; try lia. destruct (ts !! S (S i)) as [c|]; [|done]. by rewrite (app_assoc a b c).
      * rewrite (triple_rank ts), Ha, Hb by done. by repeat case_decide; try lia.
      * unfold pair_rank. by repeat case_decide; try lia.
    + by repeat case_decide; try lia.
Qed.

(** ** The loop *)

Lemma lookup_parts_of ts j p : parts_of ts !! j = Some p ↔ j ≤ length ts ∧ p = (start_of ts j, pair_rank ts j).
Proof. unfold parts_of. rewrite list_lookup_fmap_Some. setoid_rewrite lookup_seq. naive_solver lia. Qed.

Lemma length_parts_of ts : length (parts_of ts) = S (length ts).
Proof. unfold parts_of. by rewrite length_fmap, length_seq. Qed.

Lemma pair_rank_Some ts i : (pair_rank ts i < kMaxRank)%Z → ∃ a b, ts !! i = Some a ∧ ts !! S i = Some b ∧ is_Some (encoder_ t !! (a ++ b)).
Proof.
  unfold pair_rank. intros H. destruct (ts !! i) as [a|] eqn:Ha; [|lia]. destruct (ts !! S i) as [b|] eqn:Hb; [|lia].
  exists a, b. split_and!; try done. destruct (encoder_ t !! (a ++ b)); simpl in H; [by eexists|lia].
Qed.

Lemma no_best ts : (∀ j p, j < length ts → parts_of ts !! j = Some p → (kMaxRank ≤ p.2)%Z) → nf bpe_step ts.
Proof.
  intros H (ts'&i&Hb&_). pose proof (best_ranked _ _ Hb) as Hr. destruct (pair_rank_Some _ _ Hr) as (a&b&Ha&_).
  apply lookup_lt_Some in Ha. specialize (H i (start_of ts i, pair_rank ts i) Ha). rewrite lookup_parts_of in H. simpl in H.
  specialize (H (conj (Nat.lt_le_incl _ _ Ha) eq_refl)). lia.
Qed.

(** The rank of a place beyond the list is that of none. *)
Lemma best_of_min ts j : j < length ts → (pair_rank ts j < kMaxRank)%Z →
  (∀ j' q, j' < length ts → parts_of ts !! j' = Some q → (pair_rank ts j ≤ q.2)%Z ∧ (j' < j → (pair_rank ts j < q.2)%Z)) → best ts j.
Proof.
  intros Hj Hr H. assert (∀ j', j' < length ts → (pair_rank ts j ≤ pair_rank ts j')%Z ∧ (j' < j → (pair_rank ts j < pair_rank ts j')%Z)) as H'.
  { intros j' Hj'. apply (H j' (start_of ts j', pair_rank ts j')); [done|]. apply lookup_parts_of. split; [lia|done]. }
  split; [done| |].
  - intros j'. destruct (decide (j' < length ts)) as [Hl|Hl]; [by apply H'|]. rewrite (pair_rank_last ts j') by lia. lia.
  - intros j' Hl. apply H'; lia.
Qed.

(** The loop ends in a normal form of the reference. *)
Lemma merge_loop_spec {S} (s : S) fuel : ∀ ts, length ts < fuel →
  ∃ ts', bpe ts ts' ∧ concat ts' = concat ts ∧ merge_loop t fuel (concat ts) (parts_of ts) s = Ok (parts_of ts', s).
Proof.
  induction fuel as [|fuel IH]; intros ts Hf; [lia|]. cbn [merge_loop]. rewrite length_parts_of.
  pose proof (find_min_spec (parts_of ts) 0 (kMaxRank, 0)) as Hm. cbv zeta in Hm.
  rewrite length_parts_of in Hm. replace (Datatypes.S (length ts) - 1) with (length ts) in Hm by lia.
  destruct (decide (1 < Datatypes.S (length ts))) as [Hlen|Hlen].
  2: { exists ts. split_and!; [split; [done|]|done|done]. apply no_best. lia. }
  destruct Hm as [[Hm H]|(j&p&Hj&Hp&Hm&Hlt&H)]; rewrite Hm.
  - exists ts. split_and!; [split; [done|]|done|done]. by apply no_best.
  - apply lookup_parts_of in Hp as [_ ->]. simpl in Hlt, H. rewrite (proj2 (Z.eqb_neq _ _)) by (simpl; lia). cbn [snd Nat.add].
    assert (best ts j) as Hb by (by apply best_of_min).
    destruct (pair_rank_Some _ _ Hlt) as (a&b&Ha&Hb'&_). pose proof (lookup_lt_Some _ _ _ Hb') as Hi.
    pose proof (merge_parts_spec ts j a b Ha Hb') as Hmp. unfold merge_parts in Hmp. rewrite Hmp.
    destruct (IH (merged ts j)) as (ts'&[Hr Hn]&Hc&Hl); [rewrite length_merged; lia|].
    rewrite concat_merged in *. exists ts'. split_and!; [split; [|done]|done|done]. eapply rtc_l; [|done]. by exists j.
Qed.

(** ** The ids *)

Lemma part_ids_cons piece s e l : part_ids t piece (s :: e :: l) =
  match encoder_ t !! substr piece s.1 e.1 with
  | Some id => id :: part_ids t piece (e :: l)
  | None => part_ids t piece (e :: l)
  end.
Proof. done. Qed.

Lemma part_ids_spec ts n : ∀ i, i + n = length ts →
  part_ids t (concat ts) (drop i (parts_of ts)) = omap (λ k, encoder_ t !! k) (drop i ts).
Proof.
  assert (∀ i, i ≤ length ts → parts_of ts !! i = Some (start_of ts i, pair_rank ts i)) as Hl by (intros; by apply lookup_parts_of).
  induction n as [|n IH]; intros i Hi.
  - rewrite (drop_S _ _ _ (Hl i ltac:(lia))), (drop_ge _ (S i)), (drop_ge ts) by (rewrite ?length_parts_of; lia). done.
  - destruct (lookup_lt_is_Some_2 ts i) as [a Ha]; [lia|]. rewrite (drop_S _ _ _ Ha). specialize (IH (S i) ltac:(lia)).
    rewrite (drop_S _ _ _ (Hl i ltac:(lia))), (drop_S _ _ _ (Hl (S i) ltac:(lia))) in *. rewrite part_ids_cons, IH. cbn [fst].
    replace (S i) with (i + 1) at 1 by lia. rewrite substr_tokens, (drop_S _ _ _ Ha). simpl. by rewrite app_nil_r.
Qed.

Lemma byte_pair_encode_spec {S} piece ids (s : S) : ranks_ok → ∃ ts, bpe (bytes_of piece) ts ∧ concat ts = piece ∧
  byte_pair_encode t piece ids s = Ok (ids ++ omap (λ k, encoder_ t !! k) ts, s).
Proof.
  intros Hr. destruct (decide (piece = [])) as [->|Hp].
  { exists []. split_and!; [split; [done|]|done|by rewrite app_nil_r]. apply no_best. simpl. lia. }
  unfold byte_pair_encode. assert (∀ A (x y : A), match piece with [] => x | _ => y end = y) as -> by (by destruct piece).
  cbv zeta. unfold mbind, M_bind. rewrite init_parts by done.
  destruct (merge_loop_spec s (length (parts_of (bytes_of piece))) (bytes_of piece)) as (ts&Hb&Hc&Hl); [rewrite length_parts_of; lia|].
  rewrite concat_bytes in *. rewrite Hl. exists ts. split_and!; try done. unfold mret, M_ret.
  pose proof (part_ids_spec ts (length ts) 0 eq_refl) as Hi. rewrite !drop_0, Hc in Hi. by rewrite Hi.
Qed.

(** Every byte has a rank. *)
Definition bytes_known : Prop := ∀ c, is_Some (encoder_ t !! [c]).

Lemma bpe_known piece ts : bytes_known → rtc bpe_step (bytes_of piece) ts → Forall (λ k, is_Some (encoder_ t !! k)) ts.
Proof.
  intros Hb Hr. assert (Forall (λ k, is_Some (encoder_ t !! k)) (bytes_of piece)) as H0.
  { apply Forall_fmap, Forall_true. intros c. apply Hb. }
  induction Hr as [|ts1 ts2 ts3 (i&Hbest&->) _ IH]; [done|]. apply IH. unfold merged.
  destruct (pair_rank_Some _ _ (best_ranked _ _ Hbest)) as (a&b&Ha&Hb'&Hk). rewrite (drop_S _ _ _ Ha), (drop_S _ _ _ Hb'). simpl.
  rewrite app_nil_r. apply Forall_app. split; [by apply Forall_take|]. constructor; [done|by apply Forall_drop].
Qed.
End bpe.

(** ** The round trip *)

(** What encoding relies on: every byte and every rank is in the tables, the
    tables are inverse to each other, the pattern matches any text from its start,
    and the special expression finds special tokens only. *)
Record tiktoken_ok (t : Tiktoken) : Prop := {
  to_ranks : ranks_ok t;
  to_bytes : bytes_known t;
  to_inverse : ∀ k r, encoder_ t !! k = Some r → decoder_ t !! r = Some k ∧ special_token_decoder_ t !! r = None;
  to_regex : ∀ re, regex_ t = Some re →
    ∀ input, match re input with
             | Some (s, n) => s = 0 ∧ 0 < n ≤ length input
             | None => input = []
             end;
  to_special : ∀ re, special_token_regex_ t = Some re →
    ∀ input s n, re input = Some (s, n) → 0 < n ∧ s + n ≤ length input ∧
      ∃ id, special_token_encoder_ t !! substr input s (s + n) = Some id ∧
            special_token_decoder_ t !! id = Some (substr input s (s + n));
}.

Section roundtrip.
Context (t : Tiktoken) (Ht : tiktoken_ok t) {S : Type} (s : S).

(** The bytes of the tokens, special tokens included. *)
Definition bytes_ids (ids : list Z) : text := concat (token_bytes t false <$> ids).

Lemma bytes_ids_app a b : bytes_ids (a ++ b) = bytes_ids a ++ bytes_ids b.
Proof using. unfold bytes_ids. by rewrite fmap_app, concat_app. Qed.

Lemma bytes_ids_cons id ids : bytes_ids (id :: ids) = token_bytes t false id ++ bytes_ids ids.
Proof using. done. Qed.

(** An encoder that appends ids with the bytes of its input. *)
Definition appends (m : M S (list Z)) (ids : list Z) (input : text) : Prop :=
  ∃ ids', m s = Ok (ids ++ ids', s) ∧ bytes_ids ids' = input.

Lemma appends_bind m k ids a b : appends m ids a → (∀ ids', appends (k ids') ids' b) → appends (m ≫= k) ids (a ++ b).
Proof using.
  intros (ids1&H1&B1) Hk. destruct (Hk (ids ++ ids1)) as (ids2&H2&B2). exists (ids1 ++ ids2).
  unfold mbind, M_bind. rewrite H1, H2, <-app_assoc, bytes_ids_app, B1, B2. done.
Qed.

Lemma appends_eq m ids a b : a = b → appends m ids a → appends m ids b.
Proof using. by intros <-. Qed.

Lemma token_bytes_known k r : encoder_ t !! k = Some r → token_bytes t false r = k.
Proof using Ht. intros [H1 H2]%(to_inverse _ Ht). unfold token_bytes. by rewrite H2, H1. Qed.

Lemma byte_pair_appends piece ids : appends (byte_pair_encode t piece ids) ids piece.
Proof using Ht.
  destruct (byte_pair_encode_spec t piece ids s (to_ranks _ Ht)) as (ts&[Hb _]&Hc&He).
  exists (omap (λ k, encoder_ t !! k) ts). split; [done|]. rewrite <-Hc.
  pose proof (bpe_known _ _ _ (to_bytes _ Ht) Hb) as Hk. clear -Hk Ht.
  induction Hk as [|k ts [r Hr] _ IH]; [done|]. cbn [omap list_omap concat]. rewrite Hr.
  by rewrite bytes_ids_cons, (token_bytes_known _ _ Hr), IH.
Qed.

Lemma substr_split input n m : n + m ≤ length input → input = take n input ++ substr input n (n + m) ++ drop (n + m) input.
Proof using.
  intros H. unfold substr. replace (n + m - n) with m by lia. rewrite app_assoc, take_take_drop. by rewrite take_drop.
Qed.

Lemma encode_pieces_appends re fuel : regex_ t = Some re → ∀ input ids, length input < fuel →
  appends (encode_pieces t fuel re input ids) ids input.
Proof using Ht.
  intros Hre. induction fuel as [|fuel IH]; intros input ids Hf; [lia|]. cbn [encode_pieces]. unfold find_and_consume.
  pose proof (to_regex _ Ht _ Hre input) as Hm. destruct (re input) as [[st n]|].
  - destruct Hm as [-> Hn]. eapply appends_eq; [symmetry; apply (substr_split input 0 n); lia|]. rewrite take_0, app_nil_l. apply appends_bind.
    + destruct (encoder_ t !! _) as [id|] eqn:He; [|apply byte_pair_appends].
      exists [id]. split; [done|]. unfold bytes_ids. simpl. by rewrite (token_bytes_known _ _ He), app_nil_r.
    + intros ids'. apply IH. rewrite length_drop. lia.
  - subst. exists []. by rewrite app_nil_r.
Qed.

Lemma encode_internal_appends input ids : appends (encode_internal t input ids) ids input.
Proof using Ht.
  unfold encode_internal. destruct (regex_ t) as [re|] eqn:Hre; [|apply byte_pair_appends].
  apply encode_pieces_appends; [done|lia].
Qed.

Lemma encode_specials_appends re fuel : special_token_regex_ t = Some re → ∀ input ids, length input < fuel →
  appends (encode_specials t fuel re input ids) ids input.
Proof using Ht.
  intros Hre. induction fuel as [|fuel IH]; intros input ids Hf; [lia|]. cbn [encode_specials]. unfold find_and_consume.
  pose proof (to_special _ Ht _ Hre input) as Hm. destruct (re input) as [[st n]|]; [|apply encode_internal_appends].
  destruct (Hm st n eq_refl) as (Hn&Hl&id&He&Hd).
  eapply appends_eq; [symmetry; apply (substr_split input st n Hl)|]. apply appends_bind; [apply encode_internal_appends|].
  intros ids'. rewrite He. destruct (IH (drop (st + n) input) (ids' ++ [id])) as (ids2&H2&B2); [rewrite length_drop; lia|].
  exists (id :: ids2). rewrite H2, <-app_assoc. split; [done|]. rewrite bytes_ids_cons, B2. unfold token_bytes. by rewrite Hd.
Qed.

(** Encoding never fails, and the bytes of the new ids are the text. *)
Lemma encode_bytes input ids : ∃ ids', encode t input ids s = Ok (prefix_token_ids_ t ++ ids ++ ids', s) ∧ bytes_ids ids' = input.
Proof using Ht.
  unfold encode.
  setoid_rewrite app_assoc. destruct (special_token_regex_ t) as [re|] eqn:Hre; [|apply encode_internal_appends].
  apply encode_specials_appends; [done|lia].
Qed.
End roundtrip.
