(* ===== verification/Sequence.v ===== *)
(** * Sequences: data and operations

    [src/request/sequence.h] and [sequence.cpp].  A sequence holds its tokens in
    buffers of a fixed capacity, of which the first [num_tokens_] are in use,
    the number of tokens whose keys and values are in the KV cache of each
    engine, and the handles of the blocks that hold them.  Times are
    nanoseconds.  The operations work on the state [Sequence]; those that create
    or destroy block handles work on the pair of the sequence and the heap of
    reference counts. *)

From Stdlib Require Import Ascii SpecFloat.
From stdpp Require Import base tactics list gmap strings.
From S2P Require Import Prelude Slice Block Types Stopping Decoder.

(** ** Data *)

(** [struct Token]. *)
Record Token := mkToken {
  id : Z;
  logprob_ : option float;
  tok_top_tokens : list Z;
  tok_top_logprobs : list float;
}.

(** [Token(int64_t id)]. *)
Definition Token_of_id (i : Z) : Token := mkToken i None [] [].

(** [struct Sequence::Options]. *)
Record SequenceOptions := mkSequenceOptions {
  sampling_param : SamplingParameter;
  stopping_criteria : StoppingCriteria;
  skip_special_tokens : bool;
  echo : bool;
  opt_logprobs : bool;
}.

(** The vector [num_kv_cache_tokens_], one entry per engine. *)
Record KvTokens := mkKvTokens { kv_llm : nat; kv_ssm : nat }.

Definition kv_get (e : EngineType) (k : KvTokens) : nat :=
  match e with LLM => kv_llm k | SSM => kv_ssm k end.
Definition kv_set (e : EngineType) (n : nat) (k : KvTokens) : KvTokens :=
  match e with LLM => mkKvTokens n (kv_ssm k) | SSM => mkKvTokens (kv_llm k) n end.

(** [class Sequence]. *)
Record Sequence := mkSequence {
  index_ : nat;
  last_token_time_ : Z;
  is_first_token_ : bool;
  options_ : SequenceOptions;
  incremental_decoder_ : IncrementalDecoder;
  token_ids_ : list Z;
  logprobs_ : list (option float);
  top_tokens_ : list (list Z);
  top_logprobs_ : list (list float);
  num_tokens_ : nat;
  token_to_count_map_ : gmap Z Z;
  num_prompt_tokens_ : nat;
  num_kv_cache_tokens_ : KvTokens;
  engine_type_ : EngineType;
  blocks_ : list Block;
  is_finished_ : bool;
  finish_status_invalidated_ : bool;
  finish_reason_ : FinishReason;
  closed_ : bool;
}.

Definition set_last_token_time (v : Z) (s : Sequence) : Sequence :=
  mkSequence (index_ s) v (is_first_token_ s) (options_ s) (incremental_decoder_ s) (token_ids_
    s) (logprobs_ s) (top_tokens_ s) (top_logprobs_ s) (num_tokens_ s) (token_to_count_map_ s)
    (num_prompt_tokens_ s) (num_kv_cache_tokens_ s) (engine_type_ s) (blocks_ s) (is_finished_
    s) (finish_status_invalidated_ s) (finish_reason_ s) (closed_ s).
Definition set_is_first_token (v : bool) (s : Sequence) : Sequence :=
  mkSequence (index_ s) (last_token_time_ s) v (options_ s) (incremental_decoder_ s) (token_ids_
    s) (logprobs_ s) (top_tokens_ s) (top_logprobs_ s) (num_tokens_ s) (token_to_count_map_ s)
    (num_prompt_tokens_ s) (num_kv_cache_tokens_ s) (engine_type_ s) (blocks_ s) (is_finished_
    s) (finish_status_invalidated_ s) (finish_reason_ s) (closed_ s).
Definition set_decoder (v : IncrementalDecoder) (s : Sequence) : Sequence :=
  mkSequence (index_ s) (last_token_time_ s) (is_first_token_ s) (options_ s) v (token_ids_ s)
    (logprobs_ s) (top_tokens_ s) (top_logprobs_ s) (num_tokens_ s) (token_to_count_map_ s)
    (num_prompt_tokens_ s) (num_kv_cache_tokens_ s) (engine_type_ s) (blocks_ s) (is_finished_
    s) (finish_status_invalidated_ s) (finish_reason_ s) (closed_ s).
Definition set_token_ids (v : list Z) (s : Sequence) : Sequence :=
  mkSequence (index_ s) (last_token_time_ s) (is_first_token_ s) (options_ s)
    (incremental_decoder_ s) v (logprobs_ s) (top_tokens_ s) (top_logprobs_ s) (num_tokens_ s)
    (token_to_count_map_ s) (num_prompt_tokens_ s) (num_kv_cache_tokens_ s) (engine_type_ s)
    (blocks_ s) (is_finished_ s) (finish_status_invalidated_ s) (finish_reason_ s) (closed_ s).
Definition set_logprobs (v : list (option float)) (s : Sequence) : Sequence :=
  mkSequence (index_ s) (last_token_time_ s) (is_first_token_ s) (options_ s)
    (incremental_decoder_ s) (token_ids_ s) v (top_tokens_ s) (top_logprobs_ s) (num_tokens_ s)
    (token_to_count_map_ s) (num_prompt_tokens_ s) (num_kv_cache_tokens_ s) (engine_type_ s)
    (blocks_ s) (is_finished_ s) (finish_status_invalidated_ s) (finish_reason_ s) (closed_ s).
Definition set_top_tokens (v : list (list Z)) (s : Sequence) : Sequence :=
  mkSequence (index_ s) (last_token_time_ s) (is_first_token_ s) (options_ s)
    (incremental_decoder_ s) (token_ids_ s) (logprobs_ s) v (top_logprobs_ s) (num_tokens_ s)
    (token_to_count_map_ s) (num_prompt_tokens_ s) (num_kv_cache_tokens_ s) (engine_type_ s)
    (blocks_ s) (is_finished_ s) (finish_status_invalidated_ s) (finish_reason_ s) (closed_ s).
Definition set_top_logprobs (v : list (list float)) (s : Sequence) : Sequence :=
  mkSequence (index_ s) (last_token_time_ s) (is_first_token_ s) (options_ s)
    (incremental_decoder_ s) (token_ids_ s) (logprobs_ s) (top_tokens_ s) v (num_tokens_ s)
    (token_to_count_map_ s) (num_prompt_tokens_ s) (num_kv_cache_tokens_ s) (engine_type_ s)
    (blocks_ s) (is_finished_ s) (finish_status_invalidated_ s) (finish_reason_ s) (closed_ s).
Definition set_num_tokens (v : nat) (s : Sequence) : Sequence :=
  mkSequence (index_ s) (last_token_time_ s) (is_first_token_ s) (options_ s)
    (incremental_decoder_ s) (token_ids_ s) (logprobs_ s) (top_tokens_ s) (top_logprobs_ s) v
    (token_to_count_map_ s) (num_prompt_tokens_ s) (num_kv_cache_tokens_ s) (engine_type_ s)
    (blocks_ s) (is_finished_ s) (finish_status_invalidated_ s) (finish_reason_ s) (closed_ s).
Definition set_token_to_count_map (v : gmap Z Z) (s : Sequence) : Sequence :=
  mkSequence (index_ s) (last_token_time_ s) (is_first_token_ s) (options_ s)
    (incremental_decoder_ s) (token_ids_ s) (logprobs_ s) (top_tokens_ s) (top_logprobs_ s)
    (num_tokens_ s) v (num_prompt_tokens_ s) (num_kv_cache_tokens_ s) (engine_type_ s) (blocks_
    s) (is_finished_ s) (finish_status_invalidated_ s) (finish_reason_ s) (closed_ s).
Definition set_kv_tokens (v : KvTokens) (s : Sequence) : Sequence :=
  mkSequence (index_ s) (last_token_time_ s) (is_first_token_ s) (options_ s)
    (incremental_decoder_ s) (token_ids_ s) (logprobs_ s) (top_tokens_ s) (top_logprobs_ s)
    (num_tokens_ s) (token_to_count_map_ s) (num_prompt_tokens_ s) v (engine_type_ s) (blocks_
    s) (is_finished_ s) (finish_status_invalidated_ s) (finish_reason_ s) (closed_ s).
Definition set_engine_type_field (v : EngineType) (s : Sequence) : Sequence :=
  mkSequence (index_ s) (last_token_time_ s) (is_first_token_ s) (options_ s)
    (incremental_decoder_ s) (token_ids_ s) (logprobs_ s) (top_tokens_ s) (top_logprobs_ s)
    (num_tokens_ s) (token_to_count_map_ s) (num_prompt_tokens_ s) (num_kv_cache_tokens_ s) v
    (blocks_ s) (is_finished_ s) (finish_status_invalidated_ s) (finish_reason_ s) (closed_ s).
Definition set_blocks (v : list Block) (s : Sequence) : Sequence :=
  mkSequence (index_ s) (last_token_time_ s) (is_first_token_ s) (options_ s)
    (incremental_decoder_ s) (token_ids_ s) (logprobs_ s) (top_tokens_ s) (top_logprobs_ s)
    (num_tokens_ s) (token_to_count_map_ s) (num_prompt_tokens_ s) (num_kv_cache_tokens_ s)
    (engine_type_ s) v (is_finished_ s) (finish_status_invalidated_ s) (finish_reason_ s)
    (closed_ s).
Definition set_is_finished (v : bool) (s : Sequence) : Sequence :=
  mkSequence (index_ s) (last_token_time_ s) (is_first_token_ s) (options_ s)
    (incremental_decoder_ s) (token_ids_ s) (logprobs_ s) (top_tokens_ s) (top_logprobs_ s)
    (num_tokens_ s) (token_to_count_map_ s) (num_prompt_tokens_ s) (num_kv_cache_tokens_ s)
    (engine_type_ s) (blocks_ s) v (finish_status_invalidated_ s) (finish_reason_ s) (closed_
    s).
Definition set_finish_status_invalidated (v : bool) (s : Sequence) : Sequence :=
  mkSequence (index_ s) (last_token_time_ s) (is_first_token_ s) (options_ s)
    (incremental_decoder_ s) (token_ids_ s) (logprobs_ s) (top_tokens_ s) (top_logprobs_ s)
    (num_tokens_ s) (token_to_count_map_ s) (num_prompt_tokens_ s) (num_kv_cache_tokens_ s)
    (engine_type_ s) (blocks_ s) (is_finished_ s) v (finish_reason_ s) (closed_ s).
Definition set_finish_reason (v : FinishReason) (s : Sequence) : Sequence :=
  mkSequence (index_ s) (last_token_time_ s) (is_first_token_ s) (options_ s)
    (incremental_decoder_ s) (token_ids_ s) (logprobs_ s) (top_tokens_ s) (top_logprobs_ s)
    (num_tokens_ s) (token_to_count_map_ s) (num_prompt_tokens_ s) (num_kv_cache_tokens_ s)
    (engine_type_ s) (blocks_ s) (is_finished_ s) (finish_status_invalidated_ s) v (closed_ s).
Definition set_closed (v : bool) (s : Sequence) : Sequence :=
  mkSequence (index_ s) (last_token_time_ s) (is_first_token_ s) (options_ s)
    (incremental_decoder_ s) (token_ids_ s) (logprobs_ s) (top_tokens_ s) (top_logprobs_ s)
    (num_tokens_ s) (token_to_count_map_ s) (num_prompt_tokens_ s) (num_kv_cache_tokens_ s)
    (engine_type_ s) (blocks_ s) (is_finished_ s) (finish_status_invalidated_ s) (finish_reason_
    s) v.

(** ** Helpers for the standard containers *)

(** [v[i] = x] on a vector: out of range is undefined behaviour. *)
Definition vec_set {S A} (i : nat) (x : A) (l : list A) : M S (list A) :=
  if decide (i < length l) then mret (<[i:=x]> l) else fail OutOfBounds.

(** [++m[k]] and [--m[k]] on an [unordered_map<int32_t, int32_t>]. *)
Definition count_add (k d : Z) (m : gmap Z Z) : gmap Z Z :=
  <[k := (default 0 (m !! k) + d)%Z]> m.

(** The two halves of a pair state. *)
Definition on_fst {S T A} (m : M S A) : M (S * T) A := zoom fst (λ s p, (s, p.2)) m.
Definition on_snd {S T A} (m : M T A) : M (S * T) A := zoom snd (λ t p, (p.1, t)) m.

(** ** Observers *)

Definition token_ids (s : Sequence) : list Z := take (num_tokens_ s) (token_ids_ s).
Definition num_generated_tokens (s : Sequence) : nat := num_tokens_ s - num_prompt_tokens_ s.
Definition num_kv_cache_tokens (s : Sequence) : nat := kv_get (engine_type_ s) (num_kv_cache_tokens_ s).
Definition num_tokens_to_process (s : Sequence) : nat := num_tokens_ s - num_kv_cache_tokens s.
Definition is_prefill_stage (s : Sequence) : bool :=
  bool_decide (num_kv_cache_tokens s < num_prompt_tokens_ s).
Definition num_blocks (s : Sequence) : nat := length (blocks_ s).
Definition has_pending_tokens (s : Sequence) : bool :=
  bool_decide (output_offset_ (incremental_decoder_ s) < num_tokens_ s).

(** [Sequence::kv_cache_capacity]. *)
Definition kv_cache_capacity (s : Sequence) : nat :=
  match blocks_ s with
  | [] => 0
  | b :: _ => length (blocks_ s) * size_ b
  end.

(** [Sequence::tokens_in_kv_cache]. *)
Definition tokens_in_kv_cache : M Sequence (list Z) :=
  s ← get;
  let ssm_kv_cache_size := kv_ssm (num_kv_cache_tokens_ s) in
  let llm_kv_cache_size := kv_llm (num_kv_cache_tokens_ s) in
  _ ← check (bool_decide (ssm_kv_cache_size ≤ llm_kv_cache_size)) "llm_kv_cache_size >= ssm_kv_cache_size";
  let diff := llm_kv_cache_size - ssm_kv_cache_size in
  (* at most one token difference between LLM and SSM for speculative decoding *)
  let kv_cache_size := if decide (diff ≤ 1) then ssm_kv_cache_size else llm_kv_cache_size in
  slice_of (token_ids_ s) kv_cache_size.

(** [Sequence::kv_cache_slots]: [i / block_size] and [i % block_size] are
    computed in [size_t]; the ids and the slots are [int32_t]. *)
Definition kv_cache_slots (pos_start pos_end : nat) : M Sequence (list Z) :=
  s ← get;
  _ ← check (bool_decide (blocks_ s ≠ [])) "no cache blocks available";
  b0 ← front (blocks_ s);
  let block_size := size_ b0 in
  map_each (λ i,
    b ← at_ (blocks_ s) (i / block_size);
    mret (i32 (id_ b * Z.of_nat block_size + Z.of_nat (i `mod` block_size))))
    (seq pos_start (pos_end - pos_start)).

(** ** Construction *)

(** The loop over the prompt tokens. *)
Definition add_prompt_token (t : Z) : M Sequence unit :=
  s ← get;
  ids ← vec_set (num_tokens_ s) t (token_ids_ s);
  put (set_token_to_count_map (count_add t 1 (token_to_count_map_ s))
         (set_num_tokens (S (num_tokens_ s)) (set_token_ids ids s))).

(** [Sequence::Sequence]. *)
Definition Sequence_new (index : nat) (prompt : text) (prompt_token_ids : list Z) (created_time : Z)
    (capacity : nat) (option_ : SequenceOptions) : result Sequence :=
  if decide (prompt_token_ids = []) then Fail (CheckFailed "empty prompt token ids")
  else if decide (capacity ≤ length prompt_token_ids) then Fail (CheckFailed "capacity too small")
  else
    let s := mkSequence index created_time false option_
      (IncrementalDecoder_new prompt (length prompt_token_ids) (echo option_) (skip_special_tokens option_))
      (replicate capacity 0%Z) (replicate capacity None) (replicate capacity []) (replicate capacity [])
      0 ∅ (length prompt_token_ids) (mkKvTokens 0 0) LLM [] false true NONE false in
    match for_each add_prompt_token prompt_token_ids s with
    | Ok (_, s') => Ok s'
    | Fail e => Fail e
    end.

(** ** Tokens *)

(** [Sequence::update_logprobs]. *)
Definition update_logprobs (index : nat) (token : Token) : M Sequence unit :=
  s ← get;
  lps ← vec_set index (logprob_ token) (logprobs_ s);
  _ ← put (set_logprobs lps s);
  let num_top_tokens := sp_top_logprobs (sampling_param (options_ s)) in
  if decide (0 < num_top_tokens)%Z then
    _ ← check (bool_decide (length (tok_top_tokens token) = length (tok_top_logprobs token)))
          "token.top_tokens.size() == token.top_logprobs.size()";
    if decide (num_top_tokens < Z.of_nat (length (tok_top_tokens token)))%Z then
      tts ← slice 0 (Z.to_nat num_top_tokens) (tok_top_tokens token);
      tls ← slice 0 (Z.to_nat num_top_tokens) (tok_top_logprobs token);
      s ← get;
      ttv ← vec_set index tts (top_tokens_ s);
      tlv ← vec_set index tls (top_logprobs_ s);
      put (set_top_logprobs tlv (set_top_tokens ttv s))
    else
      _ ← check (bool_decide (Z.of_nat (length (tok_top_tokens token)) = num_top_tokens))
            "token.top_tokens.size() == num_top_tokens";
      s ← get;
      ttv ← vec_set index (tok_top_tokens token) (top_tokens_ s);
      tlv ← vec_set index (tok_top_logprobs token) (top_logprobs_ s);
      put (set_top_logprobs tlv (set_top_tokens ttv s))
  else mret tt.

(** [Sequence::append_token]. *)
Definition append_token (token : Token) : M Sequence unit :=
  s ← get;
  _ ← check (bool_decide (num_tokens_ s < length (token_ids_ s)))
        "exceed the token capacity of the sequence";
  _ ← check (negb (is_finished_ s)) "cannot append token to a finished sequence";
  _ ← check (negb (is_prefill_stage s)) "cannot append token to a prefill sequence";
  (* check if the token is the first token after the prompt *)
  _ ← modify (set_is_first_token (bool_decide (num_tokens_ s = num_prompt_tokens_ s)));
  (* append the token id and update the token count *)
  let cur_idx := num_tokens_ s in
  let token_id := i32 (id token) in
  _ ← modify (set_num_tokens (S cur_idx));
  ids ← vec_set cur_idx token_id (token_ids_ s);
  _ ← modify (set_token_ids ids);
  _ ← modify (set_token_to_count_map (count_add token_id 1 (token_to_count_map_ s)));
  _ ← (if sp_logprobs (sampling_param (options_ s)) then update_logprobs cur_idx token else mret tt);
  (* invalidate the finish status once a new token is appended *)
  modify (set_finish_status_invalidated true).

(** The first loop of [Sequence::validate_tokens], from draft position [cur_idx];
    returns the number of accepted tokens. *)
Fixpoint validate_loop (tokens : list Token) (cur_idx : nat) (mismatch : bool) (num_accepted : nat) :
    M Sequence nat :=
  match tokens with
  | [] => mret num_accepted
  | token :: tokens' =>
      s ← get;
      draft_token_id ← at_ (token_ids_ s) cur_idx;
      let target_token_id := i32 (id token) in
      (* stop at first mismatch or rejected token *)
      if mismatch || bool_decide (target_token_id = -1)%Z then
        _ ← modify (set_num_tokens cur_idx);
        mret num_accepted
      else
        let num_accepted := S num_accepted in
        let mismatch := bool_decide (target_token_id ≠ draft_token_id) in
        _ ← (if (mismatch : bool) then
               (* overwrite the token id with the accepted token id *)
               ids ← vec_set cur_idx target_token_id (token_ids_ s);
               _ ← modify (set_token_ids ids);
               modify (λ s, set_token_to_count_map
                 (count_add target_token_id 1 (count_add draft_token_id (-1) (token_to_count_map_ s))) s)
             else mret tt);
        _ ← (if sp_logprobs (sampling_param (options_ s)) then update_logprobs cur_idx token else mret tt);
        (* check if sequence is finished *)
        s ← get;
        ids ← slice_of (token_ids_ s) (S cur_idx);
        finish_reason ← check_finished (stopping_criteria (options_ s)) ids (num_prompt_tokens_ s);
        if decide (finish_reason ≠ NONE) then
          _ ← modify (set_finish_reason finish_reason);
          _ ← modify (set_is_finished true);
          (* update num tokens, including current token *)
          _ ← modify (set_num_tokens (S cur_idx));
          mret num_accepted
        else validate_loop tokens' (S cur_idx) mismatch num_accepted
  end.

(** The second loop: drop the counts of the discarded tokens. *)
Definition discard_count (i : nat) : M Sequence unit :=
  s ← get;
  t ← at_ (token_ids_ s) i;
  put (set_token_to_count_map (count_add t (-1) (token_to_count_map_ s)) s).

(** [Sequence::validate_tokens]. *)
Definition validate_tokens (tokens : list Token) : M Sequence nat :=
  s ← get;
  let len := length tokens in
  _ ← check (bool_decide (0 < len)) "empty accepted token ids";
  _ ← check (bool_decide (len < num_tokens_ s)) "accepted tokens exceed the sequence length";
  bonus ← back tokens;
  last_id ← back (token_ids s);
  _ ← check (bool_decide (id bonus = -1)%Z || bool_decide (id bonus = last_id))
        "bonus token mismatch with the last token";
  let start_idx := num_tokens_ s - len in
  _ ← modify (set_is_first_token (bool_decide (start_idx = num_prompt_tokens_ s)));
  num_accepted ← validate_loop tokens start_idx false 0;
  (* adjust the token count for remaining discarded tokens *)
  _ ← for_each discard_count (seq (start_idx + num_accepted) (len - num_accepted));
  (* num_tokens must be at least one more than num_kv_cache_tokens *)
  s ← get;
  last ← sub_size (num_tokens_ s) 1;
  let k := num_kv_cache_tokens_ s in
  _ ← put (set_kv_tokens (mkKvTokens (Nat.min (kv_llm k) last) (Nat.min (kv_ssm k) last)) s);
  _ ← check (bool_decide (0 < num_accepted)) "no token accepted";
  (* the finish status is valid after the validation *)
  _ ← modify (set_finish_status_invalidated false);
  mret num_accepted.

(** [Sequence::validate_tokens(const std::vector<int64_t>&)]. *)
Definition validate_token_ids (ids : list Z) : M Sequence nat := validate_tokens (Token_of_id <$> ids).

(** [Sequence::is_finished]. *)
Definition is_finished : M Sequence bool :=
  s ← get;
  if negb (finish_status_invalidated_ s) then mret (is_finished_ s)
  else
    _ ← modify (set_finish_status_invalidated false);
    finish_reason ← check_finished (stopping_criteria (options_ s)) (token_ids s) (num_prompt_tokens_ s);
    if decide (finish_reason ≠ NONE) then
      _ ← modify (set_finish_reason finish_reason);
      _ ← modify (set_is_finished true);
      mret true
    else mret false.

(** ** Blocks *)

(** [Sequence::append_blocks]: the handles are copied into the vector. *)
Definition append_blocks (new_blocks : list Block) : M (Sequence * Mem) unit :=
  copied ← on_snd (blocks_copy new_blocks);
  on_fst (modify (λ s, set_blocks (blocks_ s ++ copied) s)).

(** [Sequence::set_shared_blocks]: the vector is moved in. *)
Definition set_shared_blocks (shared_blocks : list Block) : M Sequence unit :=
  s ← get;
  _ ← check (bool_decide (blocks_ s = [])) "shared blocks should be appended before any other blocks";
  match shared_blocks with
  | [] => mret tt
  | b0 :: _ =>
      _ ← modify (set_blocks shared_blocks);
      let num_shared_tokens := length shared_blocks * size_ b0 in
      (* the exact same prompt: step back one token so that the model can proceed *)
      num_shared_tokens ←
        (if decide (num_shared_tokens = num_tokens_ s) then sub_size num_shared_tokens 1
         else mret num_shared_tokens);
      _ ← check (bool_decide (num_shared_tokens < num_tokens_ s)) "num_shared_tokens < num_tokens_";
      modify (set_kv_tokens (mkKvTokens num_shared_tokens num_shared_tokens))
  end.

(** [Sequence::release_blocks]. *)
Definition release_blocks : M (Sequence * Mem) unit :=
  p ← get;
  _ ← on_fst (modify (set_kv_tokens (mkKvTokens 0 0)));
  _ ← on_snd (blocks_destroy (blocks_ p.1));
  on_fst (modify (set_blocks [])).

(** [Sequence::set_engine_type]. *)
Definition set_engine_type (e : EngineType) : M Sequence unit := modify (set_engine_type_field e).

(** [Sequence::commit_kv_cache]. *)
Definition commit_kv_cache (size : nat) : M Sequence unit :=
  s ← get;
  let n := num_kv_cache_tokens s in
  _ ← check (bool_decide (n + size ≤ kv_cache_capacity s)) "num_kv_cache_tokens + size <= kv_cache_capacity()";
  put (set_kv_tokens (kv_set (engine_type_ s) (n + size) (num_kv_cache_tokens_ s)) s).

(** ** Output *)

(** [Sequence::close], [Sequence::inter_token_latency] (in nanoseconds). *)
Definition close : M Sequence unit := modify (set_closed true).
Definition inter_token_latency (now : Z) : M Sequence Z :=
  s ← get;
  _ ← put (set_last_token_time now s);
  mret (now - last_token_time_ s)%Z.

(** [Sequence::logprob]: the sum is a [double], the result a [float]. *)
Definition logprob (s : Sequence) : float :=
  if decide (num_tokens_ s ≤ num_prompt_tokens_ s) then float_of_Z (-9999)
  else
    let sum := foldl (λ acc lp,
      match lp with
      | Some v => double_add acc (double_of_float v)
      | None => acc
      end) (S754_zero false)
      (take (num_tokens_ s - num_prompt_tokens_ s) (drop (num_prompt_tokens_ s) (logprobs_ s))) in
    float_of_double (double_div sum (double_of_size (num_tokens_ s - num_prompt_tokens_ s))).

Section output.
Context {tk : Tokenizer}.

Definition with_decoder {A} (m : M IncrementalDecoder A) : M Sequence A :=
  zoom incremental_decoder_ set_decoder m.

(** A token and its text, as the id when the text is unfinished. *)
Definition token_text (token_id : Z) (token : text) : text * bool :=
  if ends_with_replacement token then (tk_id_to_token token_id, false) else (token, true).

(** One entry of the top log probabilities. *)
Definition top_logprob_data (skip : bool) (p : Z * float) : LogProbData :=
  let top_token_id := i32 p.1 in
  let '(t, fin) := token_text top_token_id (tk_decode [top_token_id] skip) in
  mkLogProbData t top_token_id p.2 fin.

(** The body of the loop of [build_logprobs]. *)
Definition build_logprob (i : nat) : M Sequence (option LogProb) :=
  s ← get;
  lp ← at_ (logprobs_ s) i;
  match lp with
  | None => mret None
  | Some v =>
      token_id ← at_ (token_ids_ s) i;
      let skip := skip_special_tokens (options_ s) in
      let token := tk_decode [token_id] skip in
      (* skip empty token *)
      if decide (token = []) then mret None
      else
        let '(t, fin) := token_text token_id token in
        top_tokens ← at_ (top_tokens_ s) i;
        top_logprobs ← at_ (top_logprobs_ s) i;
        tops ← (if decide (top_tokens = []) then mret None
                else
                  _ ← check (bool_decide (length top_tokens = length top_logprobs))
                        "top_tokens.size() == top_logprobs.size()";
                  mret (Some (top_logprob_data skip <$> zip top_tokens top_logprobs)));
        mret (Some (mkLogProb (mkLogProbData t token_id v fin) tops))
  end.

(** [Sequence::build_logprobs]. *)
Definition build_logprobs (start_idx end_idx : nat) : M Sequence (list LogProb) :=
  s ← get;
  let start_idx := if decide (start_idx < num_prompt_tokens_ s) then num_prompt_tokens_ s else start_idx in
  r ← map_each build_logprob (seq start_idx (end_idx - start_idx));
  mret (omap (λ x, x) r).

(** The part that both builders share: finish reason, token ids and log
    probabilities of the tokens that the decoder passed over. *)
Definition finish_output (txt : text) (ids : list Z) (start : nat) (want_logprobs : nat → bool) :
    M Sequence SequenceOutput :=
  s ← get;
  let finish_reason :=
    if decide (finish_reason_ s ≠ NONE) then to_string (finish_reason_ s) else None in
  let end_ := output_offset_ (incremental_decoder_ s) in
  out_ids ← slice start end_ ids;
  lps ← (if want_logprobs end_
         then (l ← build_logprobs start end_; mret (if decide (l = []) then None else Some l))
         else mret None);
  mret (mkSequenceOutput (index_ s) txt out_ids finish_reason lps).

(** [Sequence::build_delta_output_until]. *)
Definition build_delta_output_until (size : nat) : M Sequence (option SequenceOutput) :=
  s ← get;
  _ ← check (bool_decide (size ≤ num_tokens_ s)) "size <= num_tokens_";
  ids ← slice_of (token_ids_ s) size;
  let start := output_offset_ (incremental_decoder_ s) in
  delta ← with_decoder (decode ids);
  if bool_decide (delta = []) && bool_decide (finish_reason_ s = NONE) then mret None
  else
    o ← finish_output delta ids start (λ end_, opt_logprobs (options_ s) && bool_decide (start < end_));
    mret (Some o).

(** [Sequence::build_output]. *)
Definition build_output : M Sequence SequenceOutput :=
  s ← get;
  let ids := token_ids s in
  let size := length ids in
  let start := output_offset_ (incremental_decoder_ s) in
  (* leave 6 tokens for potential unfinished byte sequence *)
  let incremental_start := if decide (size ≤ 6) then 0 else size - 6 in
  (* at least start from the first generated token *)
  let incremental_start :=
    if decide (incremental_start < num_prompt_tokens_ s) then num_prompt_tokens_ s
    else incremental_start in
  txt ← with_decoder (decode_all ids (seq incremental_start (S size - incremental_start)));
  finish_output txt ids start (λ _, opt_logprobs (options_ s)).
End output.
