(* ===== verification/SequenceInv.v ===== *)
(** * Sequences: invariant and behaviour of the operations

    The buffers keep their capacity, the token counts are the number of
    occurrences among the tokens in use, and the cached finish status agrees with
    the stopping criteria. *)

From Stdlib Require Import Ascii SpecFloat.
From stdpp Require Import base tactics list gmap strings.
From S2P Require Import Prelude Slice Block Types Stopping Decoder Sequence.

(** ** The invariant *)

Definition occurrences (t : Z) (l : list Z) : nat := length (filter (λ x, x = t) l).

(** The criteria say that the sequence is finished. *)
Definition done_ (s : Sequence) : Prop :=
  stops (stopping_criteria (options_ s)) (token_ids s) ∨
  length_reached (stopping_criteria (options_ s)) (token_ids s) (num_prompt_tokens_ s).

Definition counts_ok (m : gmap Z Z) (l : list Z) : Prop :=
  ∀ t, default 0%Z (m !! t) = Z.of_nat (occurrences t l).

Record seq_inv (s : Sequence) : Prop := {
  si_logprobs : length (logprobs_ s) = length (token_ids_ s);
  si_top_tokens : length (top_tokens_ s) = length (token_ids_ s);
  si_top_logprobs : length (top_logprobs_ s) = length (token_ids_ s);
  si_prompt : 0 < num_prompt_tokens_ s ≤ num_tokens_ s;
  si_capacity : num_tokens_ s ≤ length (token_ids_ s);
  si_counts : counts_ok (token_to_count_map_ s) (token_ids s);
  si_criteria : criteria_ok (stopping_criteria (options_ s));
  si_reason : is_finished_ s = bool_decide (finish_reason_ s ≠ NONE);
  si_pending : finish_status_invalidated_ s = true → is_finished_ s = false;
  si_status : finish_status_invalidated_ s = false → is_finished_ s = true ↔ done_ s;
  si_kv : kv_llm (num_kv_cache_tokens_ s) ≤ num_tokens_ s ∧
          kv_ssm (num_kv_cache_tokens_ s) ≤ num_tokens_ s;
}.

(** What no operation changes. *)
Definition same_config (s s' : Sequence) : Prop :=
  options_ s' = options_ s ∧ num_prompt_tokens_ s' = num_prompt_tokens_ s ∧
  length (token_ids_ s') = length (token_ids_ s) ∧ index_ s' = index_ s ∧
  take (num_prompt_tokens_ s) (token_ids_ s') = take (num_prompt_tokens_ s) (token_ids_ s).

#[global] Instance same_config_preorder : PreOrder same_config.
Proof.
  split; [by intros s|]. intros s1 s2 s3 (?&Hp&?&?&Ht) (?&Hp'&?&?&Ht').
  rewrite Hp in Ht'. repeat split; congruence.
Qed.

(** ** Counting tokens *)

Lemma occurrences_app t l1 l2 : occurrences t (l1 ++ l2) = occurrences t l1 + occurrences t l2.
Proof. unfold occurrences. by rewrite filter_app, length_app. Qed.

Lemma occurrences_singleton t x : occurrences t [x] = if decide (x = t) then 1 else 0.
Proof. unfold occurrences. rewrite filter_cons. by case_decide. Qed.

Lemma lookup_count_add k d m t :
  default 0%Z (count_add k d m !! t) =
  (default 0 (m !! t) + if decide (k = t) then d else 0)%Z.
Proof.
  unfold count_add. rewrite lookup_insert. case_decide; subst; simpl; lia.
Qed.

Lemma counts_snoc m l t : counts_ok m l → counts_ok (count_add t 1 m) (l ++ [t]).
Proof.
  intros H x. rewrite lookup_count_add, H, occurrences_app, occurrences_singleton.
  repeat case_decide; subst; try done; lia.
Qed.

Lemma counts_drop_last m l t : counts_ok m (l ++ [t]) → counts_ok (count_add t (-1) m) l.
Proof.
  intros H x. rewrite lookup_count_add, H, occurrences_app, occurrences_singleton.
  repeat case_decide; subst; try done; lia.
Qed.

#[global] Instance counts_ok_proper m : Proper ((≡ₚ) ==> iff) (counts_ok m).
Proof.
  intros l1 l2 Hp. unfold counts_ok, occurrences.
  split; intros H t; rewrite H; by rewrite Hp.
Qed.

Lemma vec_set_wp {S A} i (x : A) l (s : S) Q :
  i < length l → Q (<[i:=x]> l) s → wp (vec_set i x l) s Q.
Proof. intros. unfold vec_set. by rewrite decide_True. Qed.

(** ** Construction *)

Lemma add_prompt_tokens_wp l : ∀ s,
  num_tokens_ s + length l ≤ length (token_ids_ s) →
  counts_ok (token_to_count_map_ s) (token_ids s) →
  wp (for_each add_prompt_token l) s (λ _ s', ∃ ids m,
    s' = set_token_to_count_map m (set_num_tokens (num_tokens_ s + length l) (set_token_ids ids s)) ∧
    length ids = length (token_ids_ s) ∧ take (num_tokens_ s + length l) ids = token_ids s ++ l ∧
    counts_ok m (token_ids s ++ l)).
Proof.
  induction l as [|t l IH]; intros s Hlen Hc; simpl in *.
  { apply wp_ret. exists (token_ids_ s), (token_to_count_map_ s). rewrite Nat.add_0_r, app_nil_r.
    split_and!; try done. by destruct s. }
  apply wp_bind. unfold add_prompt_token at 1. wp_steps. apply vec_set_wp; [lia|]. wp_steps.
  eapply wp_mono; [apply IH|]; simpl.
  - rewrite length_insert. lia.
  - unfold token_ids. simpl. rewrite take_S_insert by lia. by apply counts_snoc.
  - intros _ s' (ids&m&->&Hl&Ht&Hm). unfold token_ids in *. simpl in *.
    rewrite take_S_insert, <- app_assoc in Ht, Hm by lia. rewrite length_insert in Hl.
    exists ids, m. rewrite Nat.add_succ_r. done.
Qed.

Lemma Sequence_new_ok index prompt ids t cap opt :
  ids ≠ [] → length ids < cap → criteria_ok (stopping_criteria opt) →
  ∃ s, Sequence_new index prompt ids t cap opt = Ok s ∧ seq_inv s ∧ token_ids s = ids ∧
    num_prompt_tokens_ s = length ids ∧ num_tokens_ s = length ids ∧
    num_kv_cache_tokens_ s = mkKvTokens 0 0 ∧ blocks_ s = [] ∧ options_ s = opt ∧
    index_ s = index ∧ length (token_ids_ s) = cap ∧ engine_type_ s = LLM ∧
    finish_status_invalidated_ s = true ∧
    incremental_decoder_ s = IncrementalDecoder_new prompt (length ids) (echo opt) (skip_special_tokens opt).
Proof.
  intros Hne Hcap Hok. unfold Sequence_new. rewrite decide_False by done. rewrite decide_False by lia.
  match goal with |- context [for_each add_prompt_token ids ?s0] =>
    destruct (wp_ok _ _ _ (add_prompt_tokens_wp ids s0 ltac:(simpl; rewrite length_replicate; lia)
      ltac:(intros x; done))) as (u&s'&Heq&ids'&m&->&Hl&Ht&Hm); rewrite Heq end.
  simpl in *. eexists. split; [done|]. rewrite length_replicate in Hl.
  assert (0 < length ids) by (destruct ids; [done|simpl; lia]).
  split_and!; try done; try (unfold token_ids; simpl; done).
  split; simpl; rewrite ?Hl, ?length_replicate; try done; try lia.
  unfold token_ids. simpl. by rewrite Ht.
Qed.

(** ** Appending a token *)

(** Only the log probability buffers may differ. *)
Definition same_but_logprobs (s s' : Sequence) : Prop := ∃ a b c,
  s' = set_top_logprobs c (set_top_tokens b (set_logprobs a s)) ∧
  length a = length (logprobs_ s) ∧ length b = length (top_tokens_ s) ∧
  length c = length (top_logprobs_ s).

(** The token carries as many top tokens as the request asks for. *)
Definition top_ok (s : Sequence) (token : Token) : Prop :=
  sp_logprobs (sampling_param (options_ s)) = true →
  (0 < sp_top_logprobs (sampling_param (options_ s)))%Z →
  length (tok_top_tokens token) = length (tok_top_logprobs token) ∧
  (sp_top_logprobs (sampling_param (options_ s)) ≤ Z.of_nat (length (tok_top_tokens token)))%Z.

Lemma same_but_logprobs_refl s : same_but_logprobs s s.
Proof. exists (logprobs_ s), (top_tokens_ s), (top_logprobs_ s). by destruct s. Qed.

Lemma update_logprobs_wp s i token :
  i < length (logprobs_ s) → i < length (top_tokens_ s) → i < length (top_logprobs_ s) →
  top_ok s token → sp_logprobs (sampling_param (options_ s)) = true →
  wp (update_logprobs i token) s (λ _ s', same_but_logprobs s s').
Proof.
  intros H1 H2 H3 Htop Hlp. unfold update_logprobs. wp_steps. apply vec_set_wp; [done|]. wp_steps.
  case_decide as Hpos.
  - destruct (Htop Hlp Hpos) as [Heq Hle]. wp_steps; [by apply bool_decide_eq_true_2|].
    case_decide as Hlt.
    + wp_steps. apply slice_wp; [lia|]. wp_steps. apply slice_wp; [lia|]. wp_steps.
      apply vec_set_wp; [done|]. wp_steps. apply vec_set_wp; [done|]. wp_steps.
      eexists _, _, _. split; [by destruct s|]. by rewrite !length_insert.
    + wp_steps; [apply bool_decide_eq_true_2; lia|]. wp_steps.
      apply vec_set_wp; [done|]. wp_steps. apply vec_set_wp; [done|]. wp_steps.
      eexists _, _, _. split; [by destruct s|]. by rewrite !length_insert.
  - apply wp_ret. exists (<[i:=logprob_ token]> (logprobs_ s)), (top_tokens_ s), (top_logprobs_ s).
    rewrite !length_insert. by destruct s.
Qed.

(** The conditional call, as both callers make it. *)
Lemma maybe_update_logprobs_wp s i token (o : SequenceOptions) :
  o = options_ s → i < length (logprobs_ s) → i < length (top_tokens_ s) → i < length (top_logprobs_ s) →
  top_ok s token →
  wp (if sp_logprobs (sampling_param o) then update_logprobs i token else mret tt) s
     (λ _ s', same_but_logprobs s s').
Proof.
  intros -> H1 H2 H3 Htop. destruct (sp_logprobs _) eqn:Hlp.
  - by apply update_logprobs_wp.
  - apply wp_ret, same_but_logprobs_refl.
Qed.

Lemma append_token_wp s token :
  seq_inv s → num_tokens_ s < length (token_ids_ s) → is_finished_ s = false →
  num_prompt_tokens_ s ≤ num_kv_cache_tokens s → top_ok s token →
  wp (append_token token) s (λ _ s',
    seq_inv s' ∧ same_config s s' ∧ token_ids s' = token_ids s ++ [i32 (id token)] ∧
    num_tokens_ s' = S (num_tokens_ s) ∧ finish_status_invalidated_ s' = true ∧
    num_kv_cache_tokens_ s' = num_kv_cache_tokens_ s ∧ engine_type_ s' = engine_type_ s ∧
    blocks_ s' = blocks_ s ∧ incremental_decoder_ s' = incremental_decoder_ s ∧
    is_first_token_ s' = bool_decide (num_tokens_ s = num_prompt_tokens_ s)).
Proof.
  intros HI Hlt Hfin Hpre Htop. unfold append_token.
  wp_steps; [by apply bool_decide_eq_true_2|by rewrite Hfin| |].
  { unfold is_prefill_stage. rewrite bool_decide_eq_false_2; [done|lia]. }
  apply vec_set_wp; [done|]. wp_steps.
  destruct HI as [L1 L2 L3 L4 L5 L6 L7 L8 L9 L10 L11].
  eapply wp_mono; [apply maybe_update_logprobs_wp; simpl; try done; lia|].
  intros _ s' (a&b&c&->&Ha&Hb&Hc). wp_steps. simpl in *.
  assert (token_ids (set_token_ids (<[num_tokens_ s:=i32 (id token)]> (token_ids_ s))
    (set_num_tokens (S (num_tokens_ s)) s)) = token_ids s ++ [i32 (id token)]) as Htok.
  { unfold token_ids. simpl. by apply take_S_insert. }
  split_and!; try done.
  - split; simpl; rewrite ?length_insert; try done; try lia.
    + unfold token_ids in *. simpl in *. rewrite Htok. by apply counts_snoc.
  - repeat split; simpl; [by rewrite length_insert|]. by rewrite take_insert_ge by lia.
Qed.

(** ** The finish status *)

Lemma is_finished_wp s :
  seq_inv s →
  wp is_finished s (λ r s', seq_inv s' ∧ finish_status_invalidated_ s' = false ∧ is_finished_ s' = r ∧
    (r = true ↔ done_ s) ∧
    s' = set_finish_status_invalidated false (set_is_finished (is_finished_ s')
           (set_finish_reason (finish_reason_ s') s))).
Proof.
  intros HI. unfold is_finished. wp_steps. destruct (finish_status_invalidated_ s) eqn:Hinv; simpl.
  - wp_steps. pose proof HI as [L1 L2 L3 L4 L5 L6 L7 L8 L9 L10 L11].
    specialize (L9 Hinv). assert (length (token_ids s) = num_tokens_ s) as Hlen
      by (unfold token_ids; rewrite length_take; lia).
    eapply wp_mono; [apply check_finished_wp; [done| |lia]|].
    { intros Heq. rewrite Heq in Hlen. simpl in Hlen. lia. }
    intros r s' [-> Hr]. destruct (decide (r ≠ NONE)) as [Hn|Hn]; wp_steps.
    + assert (done_ s) as Hd by (unfold done_; destruct r; [by destruct Hn|by left|right; by apply Hr|by destruct Hr]).
      split_and!; try done. split; simpl; try done. by rewrite bool_decide_eq_true_2.
    + assert (¬ done_ s) as Hd.
      { assert (r = NONE) as -> by (by destruct r; try (by destruct Hn)). unfold done_. tauto. }
      assert (finish_reason_ s = NONE) as Hr0 by (rewrite L9 in L8; symmetry in L8;
        by apply bool_decide_eq_false, dec_stable in L8).
      split_and!; simpl; [|done|done|by split|by destruct s].
      split; simpl; rewrite ?L9, ?Hr0; done.
  - apply wp_ret. pose proof (si_status _ HI Hinv). split_and!; try done.
    destruct s; simpl in *; by subst.
Qed.

(** ** Sequences: accepting draft tokens

    [Sequence::validate_tokens] replaces the draft tokens at the end of the
    sequence by the tokens the target model accepted.  The loop with its index
    arithmetic and its bookkeeping of counts is shown equal to the list function
    [accepted]. *)

(** ** The reference *)

(** The criteria are met after these tokens. *)
Definition finished_after (c : StoppingCriteria) (num_prompt : nat) (l : list Z) : bool :=
  match check_finished c l num_prompt tt with
  | Ok (r, _) => bool_decide (r ≠ NONE)
  | Fail _ => false
  end.

(** The tokens that are kept: up to the first rejection, finish or mismatch with
    the draft, the mismatching token included. *)
Fixpoint accepted (c : StoppingCriteria) (num_prompt : nat) (pre draft target : list Z) : list Z :=
  match draft, target with
  | d :: draft', t :: target' =>
      if decide (t = -1)%Z then []
      else if finished_after c num_prompt (pre ++ [t]) then [t]
      else if decide (t = d) then t :: accepted c num_prompt (pre ++ [t]) draft' target'
      else [t]
  | _, _ => []
  end.

(** Everything but the last accepted token agrees with the draft. *)
Lemma accepted_prefix c np draft : ∀ pre target,
  removelast (accepted c np pre draft target) `prefix_of` draft.
Proof.
  induction draft as [|d draft IH]; intros pre [|t target]; simpl; try apply prefix_nil.
  repeat case_decide; simpl; try apply prefix_nil; case_match; try apply prefix_nil.
  subst. specialize (IH (pre ++ [d]) target).
  destruct (accepted c np (pre ++ [d]) draft target) as [|x l] eqn:E; [apply prefix_nil|].
  change (removelast (d :: x :: l)) with (d :: removelast (x :: l)). by apply prefix_cons.
Qed.

Lemma accepted_length c np draft : ∀ pre target,
  length (accepted c np pre draft target) ≤ length target.
Proof.
  induction draft as [|d draft IH]; intros pre [|t target]; simpl; try lia.
  repeat case_decide; simpl; try lia; case_match; simpl; try lia.
  specialize (IH (pre ++ [t]) target). lia.
Qed.

(** ** The first loop *)

Definition set_at_done (s : Sequence) (l : list Z) : Prop :=
  stops (stopping_criteria (options_ s)) l ∨
  length_reached (stopping_criteria (options_ s)) l (num_prompt_tokens_ s).

(** What the loop does not touch. *)
Record val_frame (s s' : Sequence) : Prop := {
  vf_options : options_ s' = options_ s;
  vf_prompt : num_prompt_tokens_ s' = num_prompt_tokens_ s;
  vf_index : index_ s' = index_ s;
  vf_kv : num_kv_cache_tokens_ s' = num_kv_cache_tokens_ s;
  vf_engine : engine_type_ s' = engine_type_ s;
  vf_blocks : blocks_ s' = blocks_ s;
  vf_decoder : incremental_decoder_ s' = incremental_decoder_ s;
  vf_ids : length (token_ids_ s') = length (token_ids_ s);
  vf_logprobs : length (logprobs_ s') = length (logprobs_ s);
  vf_top_tokens : length (top_tokens_ s') = length (top_tokens_ s);
  vf_top_logprobs : length (top_logprobs_ s') = length (top_logprobs_ s);
  vf_inval : finish_status_invalidated_ s' = finish_status_invalidated_ s;
}.

#[global] Instance val_frame_preorder : PreOrder val_frame.
Proof.
  split; [by intros s; split|]. intros s1 s2 s3 [] []. split; congruence.
Qed.

Lemma val_frame_top_ok s s' t : val_frame s s' → top_ok s t → top_ok s' t.
Proof. intros H. unfold top_ok. by rewrite (vf_options _ _ H). Qed.

(** The state in the loop: [n] is the number of tokens before validation. *)
Record loop_inv (n : nat) (s : Sequence) : Prop := {
  lo_cap : n ≤ length (token_ids_ s);
  lo_num : num_tokens_ s = n;
  lo_l1 : length (logprobs_ s) = length (token_ids_ s);
  lo_l2 : length (top_tokens_ s) = length (token_ids_ s);
  lo_l3 : length (top_logprobs_ s) = length (token_ids_ s);
  lo_counts : counts_ok (token_to_count_map_ s) (take n (token_ids_ s));
  lo_crit : criteria_ok (stopping_criteria (options_ s));
  lo_fin : is_finished_ s = false ∧ finish_reason_ s = NONE;
}.

(** What the loop leaves when it starts at [cur] and accepts [acc]. *)
Definition loop_core (n cur : nat) (s : Sequence) (acc : list Z) (s' : Sequence) : Prop :=
  val_frame s s' ∧ num_tokens_ s' = cur + length acc ∧
  take (cur + length acc) (token_ids_ s') = take cur (token_ids_ s) ++ acc ∧
  counts_ok (token_to_count_map_ s') (take n (token_ids_ s')) ∧
  is_finished_ s' = bool_decide (finish_reason_ s' ≠ NONE) ∧
  (acc ≠ [] → is_finished_ s' = true ↔ set_at_done s (take cur (token_ids_ s) ++ acc)).

Definition loop_post (n cur : nat) (s : Sequence) (acc : list Z) (s' : Sequence) : Prop :=
  loop_core n cur s acc s' ∧ (acc = [] → is_finished_ s' = false).

(** The accepted token at [cur] is written, with its count and log
    probabilities. *)
Lemma write_target_wp n cur s token draft :
  loop_inv n s → cur < n → token_ids_ s !! cur = Some draft → top_ok s token →
  let target := i32 (id token) in
  wp (_ ← (if bool_decide (target ≠ draft) then
             ids ← vec_set cur target (token_ids_ s);
             _ ← modify (set_token_ids ids);
             modify (λ s, set_token_to_count_map
               (count_add target 1 (count_add draft (-1) (token_to_count_map_ s))) s)
           else mret tt);
      if sp_logprobs (sampling_param (options_ s)) then update_logprobs cur token else mret tt) s
    (λ _ s', loop_inv n s' ∧ val_frame s s' ∧ token_ids_ s' = <[cur:=target]> (token_ids_ s)).
Proof.
  intros HL Hcur Hd Htop target. apply wp_bind.
  set (s1 := if bool_decide (target ≠ draft) then set_token_to_count_map
     (count_add target 1 (count_add draft (-1) (token_to_count_map_ s)))
     (set_token_ids (<[cur:=target]> (token_ids_ s)) s) else s).
  assert (loop_inv n s1 ∧ val_frame s s1 ∧ token_ids_ s1 = <[cur:=target]> (token_ids_ s)) as (HL1&Hf1&Hi1).
  { unfold s1. case_bool_decide as Hne.
    - destruct HL as [L1 L2 L3 L4 L5 L6 L7 L8]. split_and!; [|split; simpl; by rewrite ?length_insert|done].
      split; simpl; rewrite ?length_insert; try done.
      rewrite (take_insert_lt _ _ _ _ Hcur).
      assert (take n (token_ids_ s) !! cur = Some draft) as Hd' by (by rewrite lookup_take_lt).
      assert (cur < length (take n (token_ids_ s))) as Hlt by (by eapply lookup_lt_Some).
      rewrite <- (take_drop_middle _ _ _ Hd') in L6.
      rewrite (insert_take_drop _ _ _ Hlt).
      assert (take cur (take n (token_ids_ s)) ++ target :: drop (S cur) (take n (token_ids_ s)) ≡ₚ
        (take cur (take n (token_ids_ s)) ++ drop (S cur) (take n (token_ids_ s))) ++ [target]) as ->
        by solve_Permutation.
      apply counts_snoc, counts_drop_last.
      assert ((take cur (take n (token_ids_ s)) ++ drop (S cur) (take n (token_ids_ s))) ++ [draft] ≡ₚ
        take cur (take n (token_ids_ s)) ++ draft :: drop (S cur) (take n (token_ids_ s))) as ->
        by solve_Permutation. done.
    - split_and!; try done. rewrite Hne. by rewrite list_insert_id. }
  eapply (wp_mono _ _ (λ _ s', s' = s1)).
  { unfold s1. case_bool_decide; [|by apply wp_ret]. wp_steps.
    apply vec_set_wp; [by eapply lookup_lt_Some|]. wp_steps. done. }
  intros _ ? ->. pose proof HL1 as [L1 L2 L3 L4 L5 L6 L7 L8].
  eapply wp_mono; [apply maybe_update_logprobs_wp; try lia|].
  - symmetry. apply (vf_options _ _ Hf1).
  - by eapply val_frame_top_ok.
  - intros _ s' (a&b&c&->&Ha&Hb&Hc). split_and!; simpl; [| |done].
    + split; simpl; try done; congruence.
    + etrans; [exact Hf1|]. split; simpl; done.
Qed.

Lemma check_finished_done {S} c l n (s : S) :
  criteria_ok c → l ≠ [] → n ≤ length l →
  wp (check_finished c l n) s (λ r s', s' = s ∧ bool_decide (r ≠ NONE) = finished_after c n l ∧
    (r ≠ NONE ↔ stops c l ∨ length_reached c l n)).
Proof.
  intros H1 H2 H3. pose proof (check_finished_wp c l n tt H1 H2 H3) as Hu.
  assert (∀ A B : Type, ∀ a b r1 r2 a' b', check_finished (S:=A) c l n a = Ok (r1, a') →
    check_finished (S:=B) c l n b = Ok (r2, b') → r1 = r2) as Hindep.
  { intros A B a b r1 r2 a' b' E1 E2.
    pose proof (check_finished_wp c l n a H1 H2 H3) as W1.
    pose proof (check_finished_wp c l n b H1 H2 H3) as W2.
    unfold wp in W1, W2. rewrite E1 in W1. rewrite E2 in W2.
    destruct r1, r2; naive_solver. }
  eapply wp_mono_ok; [by apply check_finished_wp|]. intros r s' Hrun [-> Hr]. split_and!; [done| |].
  - unfold finished_after. unfold wp in Hu.
    destruct (check_finished c l n tt) as [[r' ?]|] eqn:E; [|done].
    by rewrite (Hindep _ _ _ _ _ _ _ _ Hrun E).
  - destruct r; [split; [by intros []|tauto]|split; [by left|done]|split; [tauto|done]|done].
Qed.

Lemma loop_post_stop n cur s s' :
  loop_inv n s → s' = set_num_tokens cur s → loop_post n cur s [] s'.
Proof.
  intros [L1 L2 L3 L4 L5 L6 L7 [L8 L9]] ->. unfold loop_post, loop_core. simpl.
  rewrite Nat.add_0_r, app_nil_r, L8, L9. split_and!; try done.
Qed.

Lemma validate_loop_mismatch n tokens cur k s :
  loop_inv n s → cur + length tokens = n →
  wp (validate_loop tokens cur true k) s (λ r s', r = k ∧ loop_post n cur s [] s').
Proof.
  intros HL Hn. destruct tokens as [|token tokens]; simpl in *.
  - apply wp_ret. split; [done|]. eapply loop_post_stop; [done|]. rewrite Nat.add_0_r in Hn. subst.
    rewrite <- (lo_num _ _ HL). by destruct s.
  - pose proof (lo_cap _ _ HL). destruct (lookup_lt_is_Some_2 (token_ids_ s) cur) as [x Hx]; [lia|].
    unfold at_. wp_steps; [exact Hx|]. wp_steps. split; [done|]. by eapply loop_post_stop.
Qed.

(** One accepted token in front of what the rest of the loop accepts. *)
Lemma loop_post_cons n cur s s1 t acc s' :
  cur < length (token_ids_ s) → val_frame s s1 → token_ids_ s1 = <[cur:=t]> (token_ids_ s) →
  (acc = [] → is_finished_ s' = true ↔ set_at_done s (take cur (token_ids_ s) ++ [t])) →
  loop_core n (S cur) s1 acc s' → loop_post n cur s (t :: acc) s'.
Proof.
  intros Hcur Hf Hi Hnil (Hf'&Hn&Ht&Hc&Hr&Hd). split; [|done]. unfold loop_core. simpl.
  rewrite Hi, take_S_insert, <- app_assoc in Ht, Hd by done. simpl in *.
  rewrite Nat.add_succ_r. split_and!; try done; [by etrans|]. intros _.
  destruct acc as [|a acc]; [by apply Hnil|]. unfold set_at_done in *.
  rewrite (vf_options _ _ Hf), (vf_prompt _ _ Hf) in Hd. by apply Hd.
Qed.

Lemma validate_loop_wp n tokens : ∀ cur k s,
  loop_inv n s → cur + length tokens = n → num_prompt_tokens_ s ≤ cur →
  Forall (top_ok s) tokens →
  wp (validate_loop tokens cur false k) s (λ r s', ∃ acc,
    acc = accepted (stopping_criteria (options_ s)) (num_prompt_tokens_ s) (take cur (token_ids_ s))
      (drop cur (take n (token_ids_ s))) (i32 ∘ id <$> tokens) ∧
    r = k + length acc ∧ loop_post n cur s acc s').
Proof.
  induction tokens as [|token tokens IH]; intros cur k s HL Hn Hpre Htop.
  { apply wp_ret. exists []. simpl in Hn. rewrite Nat.add_0_r in *. split_and!; [|done|].
    - simpl. by destruct (drop _ _).
    - eapply loop_post_stop; [done|]. subst. rewrite <- (lo_num _ _ HL). by destruct s. }
  apply Forall_cons in Htop as [Htop Htops]. pose proof (lo_cap _ _ HL) as Hcap. simpl in Hn.
  destruct (lookup_lt_is_Some_2 (token_ids_ s) cur) as [d Hd]; [lia|].
  assert (drop cur (take n (token_ids_ s)) = d :: drop (S cur) (take n (token_ids_ s))) as Hdrop.
  { apply drop_S. by rewrite lookup_take_lt by lia. }
  cbn [validate_loop]. unfold at_. apply wp_bind, wp_get, wp_bind.
  eapply wp_from_option; [exact Hd|]. simpl orb. rewrite Hdrop. cbn [fmap list_fmap accepted].
  set (target := i32 (id token)). change ((i32 ∘ id) token) with target.
  case_bool_decide as Hrej.
  { rewrite decide_True by done. wp_steps. exists []. split_and!; [done|simpl; lia|].
    by eapply loop_post_stop. }
  rewrite decide_False by done.
  pose proof (write_target_wp n cur s token d HL ltac:(lia) Hd Htop) as Hw. fold target in Hw.
  apply wp_bind_inv in Hw. apply wp_bind. eapply wp_mono; [exact Hw|]. clear Hw. intros [] s0 Hw.
  apply wp_bind. eapply wp_mono; [exact Hw|]. clear Hw s0. intros [] s1 (HL1&Hf1&Hi1).
  wp_steps. apply slice_of_wp; [rewrite (vf_ids _ _ Hf1); lia|]. wp_steps.
  rewrite Hi1, take_S_insert by lia.
  eapply wp_mono; [apply check_finished_done; [apply HL1| |]|].
  { by destruct (take cur (token_ids_ s)). }
  { rewrite (vf_prompt _ _ Hf1), length_app, length_take. simpl. lia. }
  rewrite (vf_options _ _ Hf1), (vf_prompt _ _ Hf1). intros reason ? (->&Hfin&Hdone).
  rewrite <- Hfin. destruct (decide (reason ≠ NONE)) as [Hr|Hr].
  { rewrite bool_decide_eq_true_2 by done. wp_steps. exists [target]. split_and!; [done|simpl; lia|].
    eapply (loop_post_cons n cur s s1); [lia|done|done|..].
    - intros _. split; [intros _; by apply Hdone|done].
    - unfold loop_core. simpl. rewrite Nat.add_0_r, app_nil_r.
      split_and!; try done; [apply HL1|by rewrite bool_decide_eq_true_2]. }
  rewrite (bool_decide_eq_false_2 (reason ≠ NONE)) by done.
  assert (¬ set_at_done s (take cur (token_ids_ s) ++ [target])) as Hnd by (intros H; by apply Hr, Hdone).
  clear Hfin. case_bool_decide as Hmis.
  - rewrite decide_False by done. eapply wp_mono; [apply (validate_loop_mismatch n); [done|lia]|].
    intros r s' [-> [Hcore Hf]]. exists [target]. split_and!; [done|simpl; lia|].
    eapply (loop_post_cons n cur s s1); [lia|done|done| |done]. rewrite (Hf eq_refl). done.
  - rewrite decide_True by done.
    assert (token_ids_ s1 = token_ids_ s) as Hsame by (rewrite Hi1, Hmis; by apply list_insert_id).
    eapply wp_mono; [apply IH; [done|lia| |]|].
    + rewrite (vf_prompt _ _ Hf1). lia.
    + eapply Forall_impl; [exact Htops|]. intros x. by apply val_frame_top_ok.
    + intros r s' (acc&Hacc&->&[Hcore Hf]).
      rewrite (vf_options _ _ Hf1), (vf_prompt _ _ Hf1), Hsame in Hacc.
      rewrite (take_S_r _ _ d Hd) in Hacc. exists (target :: acc).
      rewrite <- Hmis in Hacc. rewrite <- Hacc. split_and!; [done|simpl; lia|].
      eapply (loop_post_cons n cur s s1); [lia|done|congruence| |done].
      intros Hnil. by rewrite (Hf Hnil).
Qed.

(** ** The second loop *)

Lemma discard_counts_wp k : ∀ i s l,
  i + k ≤ length (token_ids_ s) →
  counts_ok (token_to_count_map_ s) (l ++ take k (drop i (token_ids_ s))) →
  wp (for_each discard_count (seq i k)) s (λ _ s', ∃ m,
    s' = set_token_to_count_map m s ∧ counts_ok m l).
Proof.
  induction k as [|k IH]; intros i s l Hle Hc; simpl.
  { apply wp_ret. exists (token_to_count_map_ s). rewrite app_nil_r in Hc. by destruct s. }
  destruct (lookup_lt_is_Some_2 (token_ids_ s) i) as [x Hx]; [lia|].
  apply wp_bind. unfold discard_count at 1, at_. wp_steps; [exact Hx|]. wp_steps.
  eapply wp_mono; [apply (IH (S i) _ l); simpl; [lia|]|].
  - apply counts_drop_last. rewrite (drop_S _ _ _ Hx) in Hc.
    assert ((l ++ take k (drop (S i) (token_ids_ s))) ++ [x] ≡ₚ
      l ++ take (S k) (x :: drop (S i) (token_ids_ s))) as -> by (simpl; solve_Permutation). done.
  - intros _ s' (m&->&Hm). exists m. by destruct s.
Qed.

(** ** validate_tokens *)

Lemma seq_inv_loop s :
  seq_inv s → is_finished_ s = false → loop_inv (num_tokens_ s) s.
Proof.
  intros [L1 L2 L3 L4 L5 L6 L7 L8 L9 L10 L11] Hf. split; try done. split; [done|].
  rewrite Hf in L8. symmetry in L8. by apply bool_decide_eq_false, dec_stable in L8.
Qed.

(** The invariant after the validation of drafts that started at [start]. *)
Lemma validated_inv s start acc s1 m :
  seq_inv s → loop_core (num_tokens_ s) start s acc s1 → acc ≠ [] →
  num_prompt_tokens_ s ≤ start → start + length acc ≤ num_tokens_ s →
  counts_ok m (take start (token_ids_ s) ++ acc) →
  let last := start + length acc - 1 in
  let k := num_kv_cache_tokens_ s in
  let s' := set_finish_status_invalidated false (set_kv_tokens
    (mkKvTokens (Nat.min (kv_llm k) last) (Nat.min (kv_ssm k) last)) (set_token_to_count_map m s1)) in
  seq_inv s' ∧ token_ids s' = take start (token_ids_ s) ++ acc ∧ same_config s s'.
Proof.
  intros HI (Hf&Hn&Ht&_&Hr&Hd) Hne Hpre Hle Hm last k s'.
  assert (0 < length acc) by (destruct acc; [done|simpl; lia]).
  destruct HI as [L1 L2 L3 L4 L5 L6 L7 L8 L9 L10 L11]. destruct Hf as [F1 F2 F3 F4 F5 F6 F7 F8 F9 F10 F11 F12].
  assert (token_ids s' = take start (token_ids_ s) ++ acc) as Htok by (unfold token_ids; simpl; by rewrite Hn).
  split_and!; [|done|].
  - split; simpl; try congruence; try lia.
    intros _. rewrite (Hd Hne). change (set_at_done s (take start (token_ids_ s) ++ acc) ↔ done_ s').
    unfold done_. rewrite Htok. simpl. by rewrite F1, F2.
  - unfold same_config. simpl. split_and!; try congruence.
    rewrite <- (take_take_le (token_ids_ s1) _ (start + length acc)) by lia. rewrite Ht.
    rewrite take_app_le by (rewrite length_take; lia). by rewrite take_take_le by lia.
Qed.

Lemma validate_tokens_wp s tokens :
  seq_inv s → is_finished_ s = false → Forall (top_ok s) tokens →
  num_prompt_tokens_ s + length tokens ≤ num_tokens_ s →
  (∃ t, head (i32 ∘ id <$> tokens) = Some t ∧ t ≠ (-1)%Z) →
  (∃ b, last tokens = Some b ∧ (id b = (-1)%Z ∨ last (token_ids s) = Some (id b))) →
  let start := num_tokens_ s - length tokens in
  let acc := accepted (stopping_criteria (options_ s)) (num_prompt_tokens_ s)
    (take start (token_ids s)) (drop start (token_ids s)) (i32 ∘ id <$> tokens) in
  wp (validate_tokens tokens) s (λ r s', seq_inv s' ∧ same_config s s' ∧
    token_ids s' = take start (token_ids s) ++ acc ∧ r = length acc ∧ 0 < r ∧
    finish_status_invalidated_ s' = false ∧ blocks_ s' = blocks_ s ∧
    incremental_decoder_ s' = incremental_decoder_ s ∧ engine_type_ s' = engine_type_ s ∧
    kv_llm (num_kv_cache_tokens_ s') = Nat.min (kv_llm (num_kv_cache_tokens_ s)) (num_tokens_ s' - 1) ∧
    kv_ssm (num_kv_cache_tokens_ s') = Nat.min (kv_ssm (num_kv_cache_tokens_ s)) (num_tokens_ s' - 1)).
Proof.
  intros HI Hfin Htop Hle (t&Ht&Hrej) (b&Hb&Hbonus) start acc.
  pose proof (si_prompt _ HI) as Hp. pose proof (si_capacity _ HI) as Hcap.
  assert (length (token_ids s) = num_tokens_ s) as Hlen by (unfold token_ids; rewrite length_take; lia).
  assert (0 < length tokens) as Hpos by (destruct tokens; [done|simpl; lia]).
  destruct (last (token_ids s)) as [l|] eqn:Hl.
  2:{ apply last_None in Hl. rewrite Hl in Hlen. simpl in Hlen. lia. }
  unfold validate_tokens, back. wp_steps; [apply bool_decide_eq_true_2; lia..|exact Hb|exact Hl| |].
  { apply orb_true_iff. rewrite !bool_decide_eq_true. naive_solver. }
  fold start. set (s0 := set_is_first_token _ s).
  assert (token_ids s = take (num_tokens_ s) (token_ids_ s)) as Htok by done.
  eapply wp_mono; [apply (validate_loop_wp (num_tokens_ s) tokens start 0 s0); simpl; [|unfold start; lia|unfold start; lia|done]|].
  { destruct (seq_inv_loop s HI Hfin) as [M1 M2 M3 M4 M5 M6 M7 M8]. by split. }
  intros r s1 (acc'&Hacc&->&[Hcore _]). simpl in Hacc.
  rewrite <- Htok, <- (take_take_le _ start (num_tokens_ s)), <- Htok in Hacc by lia.
  fold acc in Hacc. subst acc'. simpl.
  assert (acc ≠ []) as Hne.
  { unfold acc. destruct (drop start (token_ids s)) as [|d ds] eqn:E.
    - apply (f_equal length) in E. rewrite length_drop in E. simpl in E. lia.
    - destruct (i32 ∘ id <$> tokens) as [|t' ts]; [done|]. simplify_eq/=.
      rewrite decide_False by done. repeat case_match; done. }
  assert (length acc ≤ length tokens) as Hal by (unfold acc; etrans; [apply accepted_length|by rewrite length_fmap]).
  pose proof Hcore as (Hf&Hn&Htk&Hc&_). pose proof (vf_ids _ _ Hf) as Hids. simpl in Hids, Htk.
  wp_steps. eapply wp_mono; [apply (discard_counts_wp _ _ s1 (take start (token_ids_ s) ++ acc)); [lia|]|].
  { rewrite <- Htk. replace (length tokens - length acc) with (num_tokens_ s - (start + length acc)) by lia.
    rewrite <- (take_drop (start + length acc) (take (num_tokens_ s) (token_ids_ s1))) in Hc.
    by rewrite take_take_le, skipn_firstn_comm in Hc by lia. }
  intros _ s2 (m&->&Hm). assert (0 < length acc) by (destruct acc; [done|simpl; lia]).
  wp_steps; [simpl; lia|by apply bool_decide_eq_true_2|]. simpl. rewrite Hn.
  destruct (validated_inv s start acc s1 m) as (HI'&Ht'&Hcfg); try done; try lia.
  { destruct Hcore as (Hf'&Hrest). split; [|exact Hrest]. destruct Hf'. split; simpl in *; done. }
  rewrite (vf_kv _ _ Hf). simpl.
  assert (take start (token_ids_ s) = take start (token_ids s)) as Hts
    by (rewrite Htok; by rewrite take_take_le by lia).
  rewrite Hts in Ht'. split_and!; try done; [apply (vf_blocks _ _ Hf)|apply (vf_decoder _ _ Hf)|apply (vf_engine _ _ Hf)].
Qed.

(** ** Sequences: the KV cache blocks

    Where the key and value of a token live: the slot of a position is unique
    within the blocks of a sequence and lies in the block that covers it.  The
    operations that move blocks in and out of a sequence. *)

(** ** Pair states *)

Lemma wp_on_fst {S T A} (m : M S A) (s : S) (t : T) Q :
  wp m s (λ a s', Q a (s', t)) → wp (on_fst m) (s, t) Q.
Proof. intros H. unfold on_fst. apply wp_zoom. exact H. Qed.

Lemma wp_on_snd {S T A} (m : M T A) (s : S) (t : T) Q :
  wp m t (λ a t', Q a (s, t')) → wp (on_snd m) (s, t) Q.
Proof. intros H. unfold on_snd. apply wp_zoom. exact H. Qed.

(** ** Slots *)

(** The slot of position [i], when the blocks have [bs] slots each. *)
Definition slot_of (bl : list Block) (bs : nat) (i : nat) : option Z :=
  b ← bl !! (i / bs); Some (id_ b * Z.of_nat bs + Z.of_nat (i `mod` bs))%Z.

(** The ids of the blocks are so small that slots fit in 32 bits. *)
Definition slots_fit (bl : list Block) (bs : nat) : Prop :=
  Forall (λ b, size_ b = bs ∧ 0 ≤ id_ b ∧ (id_ b + 1) * Z.of_nat bs ≤ 2 ^ 31)%Z bl.

Lemma kv_cache_slots_wp s bs i j :
  0 < bs → blocks_ s ≠ [] → slots_fit (blocks_ s) bs → j ≤ length (blocks_ s) * bs →
  wp (kv_cache_slots i j) s (λ r s', s' = s ∧ length r = j - i ∧
    ∀ p, i ≤ p < j → r !! (p - i) = slot_of (blocks_ s) bs p).
Proof.
  intros Hbs Hne Hfit Hj. unfold kv_cache_slots, front, at_.
  destruct (blocks_ s) as [|b0 bl] eqn:Hbl; [done|]. rewrite <- Hbl in *.
  assert (size_ b0 = bs) as Hb0 by (rewrite Hbl in Hfit; by apply Forall_cons in Hfit as [[? _] _]).
  wp_steps; [by apply bool_decide_eq_true_2|by rewrite Hbl|].
  rewrite Hb0. remember (j - i) as n eqn:Hn.
  assert (i + n ≤ length (blocks_ s) * bs ∨ n = 0) as Hin by lia. clear Hbl.
  assert (∀ n i, i + n ≤ length (blocks_ s) * bs ∨ n = 0 → wp (map_each (λ i0 : nat,
    from_option_or OutOfBounds (blocks_ s !! (i0 / bs)) ≫= λ b : Block,
    mret (i32 (id_ b * Z.of_nat bs + Z.of_nat (i0 `mod` bs)))) (seq i n)) s (λ r s', s' = s ∧ length r = n ∧
    ∀ p, i ≤ p < i + n → r !! (p - i) = slot_of (blocks_ s) bs p)) as Hgen.
  { clear Hin Hn n. intros n. induction n as [|n IH]; intros i0 Hle; simpl.
    { apply wp_ret. split_and!; [done|done|lia]. }
    destruct Hle as [Hle|]; [|done].
    destruct (lookup_lt_is_Some_2 (blocks_ s) (i0 / bs)) as [b Hb].
    { apply Nat.Div0.div_lt_upper_bound. lia. }
    wp_steps; [exact Hb|]. eapply wp_mono; [apply IH; left; lia|]. intros r s' (->&Hlen&Hr).
    apply wp_ret. split_and!; [done|simpl; lia|]. intros p Hp.
    destruct (decide (p = i0)) as [->|].
    - rewrite Nat.sub_diag. unfold slot_of. rewrite Hb. simpl. do 2 f_equal. apply i32_id.
      apply (Forall_lookup_1 _ _ _ _ Hfit) in Hb as (_&?&?).
      pose proof (Nat.mod_upper_bound i0 bs ltac:(lia)). nia.
    - replace (p - i0) with (S (p - S i0)) by lia. simpl. apply Hr. lia. }
  eapply wp_mono; [by apply Hgen|]. intros r s' (->&Hlen&Hr). split_and!; [done|done|].
  intros p Hp. apply Hr. lia.
Qed.

(** A slot determines its position, when no block occurs twice. *)
Lemma slot_of_inj bl bs p q x :
  0 < bs → NoDup (id_ <$> bl) → slot_of bl bs p = Some x → slot_of bl bs q = Some x → p = q.
Proof.
  intros Hbs Hnd Hp Hq. unfold slot_of in *.
  apply bind_Some in Hp as (b1&Hb1&Hp). apply bind_Some in Hq as (b2&Hb2&Hq). simplify_eq.
  pose proof (Nat.mod_upper_bound p bs ltac:(lia)). pose proof (Nat.mod_upper_bound q bs ltac:(lia)).
  assert (id_ b1 = id_ b2) as Hid by (destruct (Z.lt_trichotomy (id_ b1) (id_ b2)) as [|[|]]; nia).
  assert (p `mod` bs = q `mod` bs) as Hmod by (rewrite Hid in *; lia).
  assert (p / bs = q / bs) as Hdiv.
  { eapply (NoDup_lookup (id_ <$> bl)); [done|..]; rewrite list_lookup_fmap.
    - by rewrite Hb1.
    - by rewrite Hb2, Hid. }
  rewrite (Nat.div_mod_eq p bs), (Nat.div_mod_eq q bs). congruence.
Qed.

(** The slot lies in the block that covers the position. *)
Lemma slot_of_block bl bs p x :
  0 < bs → slot_of bl bs p = Some x →
  ∃ b, b ∈ bl ∧ (id_ b * Z.of_nat bs ≤ x < (id_ b + 1) * Z.of_nat bs)%Z.
Proof.
  intros Hbs H. apply bind_Some in H as (b&Hb&H). simplify_eq. exists b.
  split; [by eapply list_elem_of_lookup_2|].
  pose proof (Nat.mod_upper_bound p bs ltac:(lia)). nia.
Qed.

(** ** Moving blocks *)

Lemma append_blocks_wp s m hs nb :
  mem_ok m hs → (∀ b, b ∈ nb → b ∈ hs) →
  wp (append_blocks nb) (s, m) (λ _ p, p.1 = set_blocks (blocks_ s ++ nb) s ∧
    mem_ok p.2 (nb ++ hs) ∧ allocator p.2 = allocator m).
Proof.
  intros Hm Hin. unfold append_blocks. wp_steps. apply wp_on_snd.
  eapply wp_mono; [by apply (blocks_copy_wp _ _ _ Hm)|]. intros r m' (->&Hm'&Ha).
  apply wp_on_fst. wp_steps. done.
Qed.

Lemma release_blocks_wp s m hs :
  mem_ok m (blocks_ s ++ hs) →
  wp release_blocks (s, m) (λ _ p, p.1 = set_blocks [] (set_kv_tokens (mkKvTokens 0 0) s) ∧
    mem_ok p.2 hs ∧ same_geometry m p.2 ∧ num_free_blocks m ≤ num_free_blocks p.2).
Proof.
  intros Hm. unfold release_blocks. wp_steps. apply wp_on_fst. wp_steps. apply wp_on_snd.
  eapply wp_mono; [by apply (blocks_destroy_wp _ _ hs)|]. intros _ m' (Hm'&Hg&Hn).
  apply wp_on_fst. wp_steps. done.
Qed.

Lemma set_shared_blocks_wp s bl bs :
  seq_inv s → blocks_ s = [] → Forall (λ b, size_ b = bs) bl → 0 < bs →
  length bl * bs ≤ num_tokens_ s →
  wp (set_shared_blocks bl) s (λ _ s', s' = set_kv_tokens (num_kv_cache_tokens_ s') (set_blocks bl s) ∧
    (bl = [] → s' = s) ∧
    (bl ≠ [] → let k := if decide (length bl * bs = num_tokens_ s) then num_tokens_ s - 1 else length bl * bs in
       num_kv_cache_tokens_ s' = mkKvTokens k k ∧ k < num_tokens_ s)).
Proof.
  intros HI Hnil Hsz Hbs Hle. pose proof (si_prompt _ HI) as Hp. unfold set_shared_blocks.
  wp_steps; [by apply bool_decide_eq_true_2|]. destruct bl as [|b0 bl].
  { apply wp_ret. split_and!; [|done|done]. destruct s; simpl in *. by subst. }
  apply Forall_cons in Hsz as [Hb0 _]. rewrite Hb0. wp_steps.
  set (n := length (b0 :: bl) * bs) in *.
  eapply (wp_mono _ _ (λ k s', s' = set_blocks (b0 :: bl) s ∧
    k = (if decide (n = num_tokens_ s) then num_tokens_ s - 1 else n) ∧ k < num_tokens_ s)).
  { case_decide as Heq; [apply wp_sub_size; [lia|]|apply wp_ret]; split_and!; try done; lia. }
  intros k s' (->&->&Hlt). wp_steps; [by apply bool_decide_eq_true_2|]. simpl. done.
Qed.

Lemma commit_kv_cache_wp s n :
  num_kv_cache_tokens s + n ≤ kv_cache_capacity s →
  wp (commit_kv_cache n) s (λ _ s',
    s' = set_kv_tokens (kv_set (engine_type_ s) (num_kv_cache_tokens s + n) (num_kv_cache_tokens_ s)) s).
Proof. intros H. unfold commit_kv_cache. wp_steps; [by apply bool_decide_eq_true_2|done]. Qed.

(** How many tokens the two engines agree to have in the KV cache. *)
Definition kv_common (k : KvTokens) : nat :=
  if decide (kv_llm k - kv_ssm k ≤ 1) then kv_ssm k else kv_llm k.

Lemma tokens_in_kv_cache_wp s :
  kv_ssm (num_kv_cache_tokens_ s) ≤ kv_llm (num_kv_cache_tokens_ s) → seq_inv s →
  wp tokens_in_kv_cache s (λ r s', s' = s ∧ r = take (kv_common (num_kv_cache_tokens_ s)) (token_ids s)).
Proof.
  intros Hk HI. destruct (si_kv _ HI) as [H1 H2]. pose proof (si_capacity _ HI) as Hc.
  unfold tokens_in_kv_cache. wp_steps; [by apply bool_decide_eq_true_2|].
  assert (kv_common (num_kv_cache_tokens_ s) ≤ num_tokens_ s) as Hle by (unfold kv_common; case_decide; lia).
  fold (kv_common (num_kv_cache_tokens_ s)). apply slice_of_wp; [lia|]. split; [done|].
  unfold token_ids. by rewrite take_take_le.
Qed.
