(* ===== verification/BlockManager.v ===== *)
(** * The block manager: data and operations

    [src/memory/block_manager.h] and [block_manager.cpp]: the owner of the
    allocator and of the prefix cache.  An operation on a [Sequence*] works on
    the pair of the sequence and the manager.  Every read of the wall clock takes
    the next reading of [Now]. *)

From stdpp Require Import base tactics list gmap strings.
From S2P Require Import Prelude Slice Block Lru PrefixCache Types Stopping Decoder Sequence.

(** ** The clock *)

(** The successive results of [absl::Now()], in microseconds. *)
Class Clock := Now : nat → Z.

(** A clock that does not go backwards. *)
Class MonotoneClock (clk : Clock) : Prop := {
  clock_nonneg i : (0 ≤ Now i)%Z;
  clock_mono i j : i ≤ j → (Now i ≤ Now j)%Z;
}.

(** ** Data *)

(** [struct BlockManager::Options]. *)
Record BlockManagerOptions := mkBlockManagerOptions {
  opt_num_blocks : nat;
  opt_block_size : nat;
  enable_prefix_cache : bool;
}.

(** [class BlockManager], and how often the clock was read.
    [num_blocks_in_use_] is a [size_t], kept at its width. *)
Record BlockManager := mkBlockManager {
  bm_options_ : BlockManagerOptions;
  world : World;
  padding_block_ : Block;
  num_blocks_in_use_ : Z;
  clock_reads : nat;
}.

Definition set_world (w : World) (b : BlockManager) : BlockManager :=
  mkBlockManager (bm_options_ b) w (padding_block_ b) (num_blocks_in_use_ b) (clock_reads b).
Definition set_in_use (z : Z) (b : BlockManager) : BlockManager :=
  mkBlockManager (bm_options_ b) (world b) (padding_block_ b) z (clock_reads b).
Definition set_clock_reads (n : nat) (b : BlockManager) : BlockManager :=
  mkBlockManager (bm_options_ b) (world b) (padding_block_ b) (num_blocks_in_use_ b) n.

Definition in_world {A} (m : M World A) : M BlockManager A := zoom world set_world m.
Definition bm_mem (b : BlockManager) : Mem := mem (world b).
Definition set_bm_mem (m : Mem) (b : BlockManager) : BlockManager :=
  set_world (set_mem m (world b)) b.

(** An operation of the sequence that needs the reference counts. *)
Definition with_mem {A} (m : M (Sequence * Mem) A) : M (Sequence * BlockManager) A :=
  zoom (λ p, (p.1, bm_mem p.2)) (λ q p, (q.1, set_bm_mem q.2 p.2)) m.

(** [num_blocks_in_use_ += n], [++num_blocks_in_use_] and the decrements. *)
Definition add_in_use (d : Z) : M BlockManager unit :=
  modify (λ b, set_in_use (u64 (num_blocks_in_use_ b + d)) b).

Section operations.
Context {clk : Clock}.

(** [absl::Now()]. *)
Definition now : M BlockManager Z :=
  b ← get;
  _ ← put (set_clock_reads (S (clock_reads b)) b);
  mret (Now (clock_reads b)).

(** [BlockManager::BlockManager]. *)
Definition BlockManager_new (options : BlockManagerOptions) : result BlockManager :=
  match BlockAllocator_new (opt_num_blocks options) (opt_block_size options) with
  | Fail e => Fail e
  | Ok a =>
      match PrefixCache_new (opt_block_size options) with
      | Fail e => Fail e
      | Ok c =>
          (* reserve block 0 for padding *)
          match allocate_one (mkMem ∅ 1 a) with
          | Fail e => Fail e
          | Ok (b, m) =>
              if decide (id_ b = 0%Z) then Ok (mkBlockManager options (mkWorld m c) b 0 0)
              else Fail (CheckFailed "Padding block id should be 0")
          end
      end
  end.

(** [BlockManager::has_enough_blocks]. *)
Definition has_enough_blocks (num_blocks : nat) : M BlockManager bool :=
  b ← get;
  let free := num_free_blocks (bm_mem b) in
  (* still have enough blocks *)
  if decide (num_blocks ≤ free) then mret true
  (* prefix cache is disabled, no way to evict blocks *)
  else if negb (enable_prefix_cache (bm_options_ b)) then mret false
  else
    (* try to evict some blocks from the prefix cache *)
    let n_blocks_to_evict := u32 (num_blocks - free) in
    n_blocks_evicted ← in_world (evict n_blocks_to_evict);
    if decide (u32 n_blocks_evicted < n_blocks_to_evict) then mret false
    else
      b ← get;
      mret (bool_decide (num_blocks ≤ num_free_blocks (bm_mem b))).

(** The loops that keep [num_blocks_in_use_]: a block counts when at most one
    other handle than the cache's is on it. *)
Definition count_block (d : Z) (block : Block) : M BlockManager unit :=
  c ← in_world (in_mem (ref_count block));
  if decide (c ≤ 2) then add_in_use d else mret tt.

(** [BlockManager::allocate_shared_blocks_for]. *)
Definition allocate_shared_blocks_for : M (Sequence * BlockManager) unit :=
  p ← get;
  let '(s, b) := p in
  if enable_prefix_cache (bm_options_ b) then
    t ← on_snd now;
    shared_blocks ← on_snd (in_world (match_ (token_ids s) t));
    (* update effective block usage *)
    _ ← on_snd (for_each (count_block 1) shared_blocks);
    on_fst (set_shared_blocks shared_blocks)
  else mret tt.

(** [BlockManager::allocate_blocks_for(Sequence*, size_t)]. *)
Definition allocate_blocks_for (num_tokens : nat) : M (Sequence * BlockManager) bool :=
  p ← get;
  (* first try to allocate shared blocks *)
  _ ← (if decide (num_blocks p.1 = 0) then allocate_shared_blocks_for else mret tt);
  p ← get;
  let nblocks := num_blocks p.1 in
  (* round up to the nearest block number *)
  let block_size := opt_block_size (bm_options_ p.2) in
  let num_blocks_needed := (num_tokens + block_size - 1) / block_size in
  if decide (num_blocks_needed ≤ nblocks) then mret true
  else
    let num_additional_blocks := u32 (num_blocks_needed - nblocks) in
    enough ← on_snd (has_enough_blocks num_additional_blocks);
    if negb enough then mret false
    else
      block_ids ← on_snd (in_world (in_mem (allocate num_additional_blocks)));
      _ ← with_mem (append_blocks block_ids);
      _ ← on_snd (add_in_use (Z.of_nat num_additional_blocks));
      (* the local vector goes out of scope *)
      _ ← on_snd (in_world (in_mem (blocks_destroy block_ids)));
      mret true.

(** [BlockManager::allocate_blocks_for(Sequence* )]. *)
Definition allocate_blocks_for_all : M (Sequence * BlockManager) bool :=
  p ← get; allocate_blocks_for (num_tokens_ p.1).

(** [BlockManager::cache_blocks_for]. *)
Definition cache_blocks_for : M (Sequence * BlockManager) unit :=
  p ← get;
  if enable_prefix_cache (bm_options_ p.2) then
    (* only insert tokens in kv cache to the prefix cache *)
    tokens_ids ← on_fst tokens_in_kv_cache;
    t ← on_snd now;
    _ ← on_snd (in_world (insert tokens_ids (blocks_ p.1) t));
    (* update effective block usage *)
    on_snd (for_each (count_block (-1)) (blocks_ p.1))
  else on_snd (add_in_use (- Z.of_nat (num_blocks p.1))).

(** [BlockManager::release_blocks_for(Sequence* )]. *)
Definition release_blocks_for : M (Sequence * BlockManager) unit :=
  (* add blocks to the prefix cache *)
  _ ← cache_blocks_for;
  (* release the blocks after prefix cache insertion *)
  with_mem release_blocks.

(** An operation on one of several sequences. *)
Definition at_sequence {A} (i : nat) (m : M (Sequence * BlockManager) A) : M (list Sequence * BlockManager) A :=
  λ p, match p.1 !! i with
       | Some s =>
           match m (s, p.2) with
           | Ok (a, (s', b)) => Ok (a, (<[i:=s']> p.1, b))
           | Fail e => Fail e
           end
       | None => Fail NullPointer
       end.

(** [BlockManager::allocate_blocks_for(std::vector<Sequence*>&)]: stops at the
    first sequence that gets no blocks. *)
Fixpoint allocate_blocks_for_vector (is_ : list nat) : M (list Sequence * BlockManager) bool :=
  match is_ with
  | [] => mret true
  | i :: is_ =>
      b ← at_sequence i allocate_blocks_for_all;
      if (b : bool) then allocate_blocks_for_vector is_ else mret false
  end.

(** [BlockManager::release_blocks_for(std::vector<Sequence*>&)]. *)
Definition release_blocks_for_vector (is_ : list nat) : M (list Sequence * BlockManager) unit :=
  for_each (λ i, at_sequence i release_blocks_for) is_.
End operations.
