(* ===== verification/BlockManagerInv.v ===== *)
(** * The block manager: invariant and behaviour

    Whatever the order of the calls, every block is the padding block, free, or
    accounted for by the handles of the cache and of the sequences; no [CHECK]
    fails; an allocation that succeeds covers the tokens that were asked for, and
    shared blocks hold exactly the first tokens of the sequence. *)

From stdpp Require Import base tactics list gmap strings.
From S2P Require Import Prelude Slice Block Lru PrefixCache PrefixCacheInv PrefixCacheEvict.
From S2P Require Import PrefixCacheSpec PrefixCacheInsert Types Stopping Decoder Sequence SequenceInv.
From S2P Require Import BlockManager.

Section block_manager.
Context {clk : Clock} {mono : MonotoneClock clk}.

Definition bsz (b : BlockManager) : nat := opt_block_size (bm_options_ b).

(** The rest of the program holds the handles [F]. *)
Record bm_ok (b : BlockManager) (F : list Block) : Prop := {
  bo_world : ∃ t, world_ok (world b) t (padding_block_ b :: F) ∧ (t ≤ Now (clock_reads b))%Z;
  bo_size : cache_block_size (cache (world b)) = bsz b;
}.

(** What no operation changes. *)
Definition bm_same (b b' : BlockManager) : Prop :=
  bm_options_ b' = bm_options_ b ∧ padding_block_ b' = padding_block_ b ∧
  same_sizes (world b) (world b').

#[export] Instance bm_same_preorder : PreOrder bm_same.
Proof.
  split; [by intros b|]. intros b1 b2 b3 (?&?&?) (?&?&?). split_and!; [congruence..|by etrans].
Qed.

(** The abstract content of the cache and its handles. *)
Definition bm_cached (b : BlockManager) : list Z → list Block → Prop := cached (cache (world b)).
Definition bm_handles (b : BlockManager) : list Block := cache_handles (nodes (cache (world b))).

(** The cache only loses content. *)
Definition bm_loses (b b' : BlockManager) : Prop :=
  (∀ t bl, bm_cached b' t bl → bm_cached b t bl) ∧ (∀ x, x ∈ bm_handles b' → x ∈ bm_handles b).

#[export] Instance bm_loses_preorder : PreOrder bm_loses.
Proof. split; [by intros b|]. intros b1 b2 b3 [H1 H2] [H3 H4]. split; auto. Qed.

#[export] Instance bm_ok_proper b : Proper ((≡ₚ) ==> iff) (bm_ok b).
Proof.
  assert (∀ F1 F2, F1 ≡ₚ F2 → bm_ok b F1 → bm_ok b F2) as H.
  { intros F1 F2 Hp [(t&Hw&Ht) Hs]. split; [|done]. exists t. by rewrite <- Hp. }
  intros F1 F2 Hp. split; apply H; [done|by symmetry].
Qed.

Lemma bm_ok_pos b F : bm_ok b F → 0 < bsz b.
Proof. intros [(t&(xs&[HC _ _ _])&_) <-]. apply HC. Qed.

Lemma bm_ok_mem b F : bm_ok b F →
  mem_ok (bm_mem b) (cache_handles (nodes (cache (world b))) ++ padding_block_ b :: F).
Proof. intros [(t&(xs&[_ _ HM _])&_) _]. done. Qed.

Lemma bm_ok_alloc_size b F : bm_ok b F → block_size_ (allocator (bm_mem b)) = bsz b.
Proof. intros [(t&(xs&[_ _ _ HB])&_) <-]. done. Qed.

(** Every handle is a block of the right size and a valid id. *)
Lemma bm_ok_handle b F x : bm_ok b F → x ∈ F →
  size_ x = bsz b ∧ (0 ≤ id_ x < Z.of_nat (num_total_blocks (bm_mem b)))%Z.
Proof.
  intros Hb Hx. rewrite <- (bm_ok_alloc_size _ _ Hb).
  eapply mem_ok_handle; [by apply bm_ok_mem|]. set_solver.
Qed.

Lemma wp_in_world {A} (m : M World A) b Q :
  wp m (world b) (λ a w', Q a (set_world w' b)) → wp (in_world m) b Q.
Proof. intros H. unfold in_world. by apply wp_zoom. Qed.

(** Replacing the world by one with the same sizes. *)
Lemma bm_ok_set_world b F w t :
  bsz b = cache_block_size (cache (world b)) → same_sizes (world b) w →
  world_ok w t (padding_block_ b :: F) → (t ≤ Now (clock_reads b))%Z → bm_ok (set_world w b) F.
Proof.
  intros Hs [Hsz _] Hw Ht. split; [by exists t|]. simpl. unfold bsz in *. simpl. congruence.
Qed.

(** Reading the clock. *)
Lemma now_wp b F (Q : Z → BlockManager → Prop) :
  bm_ok b F →
  (∀ t, world_ok (world b) t (padding_block_ b :: F) → (t ≤ Now (clock_reads b))%Z →
    (0 ≤ Now (clock_reads b))%Z →
    (Now (clock_reads b) ≤ Now (S (clock_reads b)))%Z →
    Q (Now (clock_reads b)) (set_clock_reads (S (clock_reads b)) b)) →
  wp now b Q.
Proof using mono.
  intros [(t&Hw&Ht) _] HQ. unfold now. wp_steps. eapply HQ; [done|done|apply clock_nonneg|].
  apply clock_mono. lia.
Qed.

Lemma set_mem_id b : set_world (set_mem (bm_mem b) (world b)) b = b.
Proof. by destruct b as [? [] ? ? ?]. Qed.

(** ** Counting blocks in use *)

Lemma count_blocks_wp d bl : ∀ b F, bm_ok b F →
  (∀ x, x ∈ bl → x ∈ F) →
  wp (for_each (count_block d) bl) b (λ _ b', ∃ z, b' = set_in_use z b).
Proof using mono.
  induction bl as [|x bl IH]; intros b F Hb Hin; simpl.
  { apply wp_ret. exists (num_blocks_in_use_ b). by destruct b. }
  apply wp_bind. unfold count_block at 1. wp_steps. apply wp_in_world. apply wp_zoom.
  eapply wp_mono; [apply (ref_count_wp _ _ x (bm_ok_mem _ _ Hb))|].
  { apply elem_of_app. right. apply elem_of_cons. right. apply Hin. by left. }
  intros c m' [-> _]. rewrite set_mem_id.
  eapply (wp_mono _ _ (λ _ b', ∃ z, b' = set_in_use z b)).
  { case_decide; [unfold add_in_use; wp_steps; by eexists|].
    apply wp_ret. exists (num_blocks_in_use_ b). by destruct b. }
  intros _ b1 [z ->]. eapply wp_mono; [apply (IH _ F)|].
  - destruct Hb as [Hw Hs]. by split.
  - intros y Hy. apply Hin. set_solver.
  - intros _ b2 [z' ->]. exists z'. by destruct b.
Qed.

Lemma bm_ok_in_use b F z : bm_ok b F → bm_ok (set_in_use z b) F.
Proof. intros [Hw Hs]. by split. Qed.

Lemma bm_same_in_use b z : bm_same b (set_in_use z b).
Proof. by split. Qed.

(** ** has_enough_blocks *)

Lemma has_enough_blocks_wp b F n :
  bm_ok b F →
  wp (has_enough_blocks n) b (λ r b', bm_ok b' F ∧ bm_same b b' ∧ clock_reads b' = clock_reads b ∧
    bm_loses b b' ∧ (r = true → n ≤ num_free_blocks (bm_mem b'))).
Proof using mono.
  intros Hb. unfold has_enough_blocks. wp_steps. case_decide; [by apply wp_ret|].
  destruct (enable_prefix_cache _); simpl; [|by apply wp_ret].
  destruct Hb as [(t&Hw&Ht) Hs]. wp_steps. apply wp_in_world.
  eapply wp_mono; [by apply (evict_wp _ t _ _ Hw)|]. intros r w' (Hw'&_&Hsz&Hshr&_).
  assert (bm_ok (set_world w' b) F) as Hb' by (by eapply bm_ok_set_world).
  assert (bm_loses b (set_world w' b)) as Hlose.
  { split; [|intros x; by eapply shrinks_handles]. unfold bm_cached, cached. simpl. destruct Hsz as [-> _]. intros t' bl. by apply descends_shrinks. }
  case_decide; wp_steps; (split_and!; [done|by split|done|done|]); [done|].
  intros Hr. by apply bool_decide_eq_true in Hr.
Qed.

(** ** Shared blocks *)

(** The cache holds no block of these tokens. *)
Definition no_share (b : BlockManager) (toks : list Z) : Prop :=
  enable_prefix_cache (bm_options_ b) = true →
  ∀ t bl, cached (cache (world b)) t bl → t `prefix_of` toks → bl = [].

(** The KV position after [n] of the tokens were found in the cache. *)
Definition shared_kv (n num_tokens : nat) : KvTokens :=
  let k := if decide (n = num_tokens) then num_tokens - 1 else n in mkKvTokens k k.

Record shared_post (s : Sequence) (b : BlockManager) (F : list Block)
    (s' : Sequence) (b' : BlockManager) : Prop := {
  sh_seq : s' = set_kv_tokens (num_kv_cache_tokens_ s') (set_blocks (blocks_ s') s);
  sh_ok : bm_ok b' (blocks_ s' ++ F);
  sh_same : bm_same b b';
  sh_len : length (blocks_ s') * bsz b ≤ num_tokens_ s;
  sh_none : blocks_ s' = [] → s' = s ∧ no_share b' (token_ids s);
  sh_kv : blocks_ s' ≠ [] →
    num_kv_cache_tokens_ s' = shared_kv (length (blocks_ s') * bsz b) (num_tokens_ s);
  sh_content : blocks_ s' ≠ [] → enable_prefix_cache (bm_options_ b) = true ∧
    cached (cache (world b)) (take (length (blocks_ s') * bsz b) (token_ids s)) (blocks_ s');
  sh_cached : ∀ t bl, bm_cached b' t bl ↔ bm_cached b t bl;
  sh_handles : bm_handles b' ≡ₚ bm_handles b;
  sh_longest : enable_prefix_cache (bm_options_ b) = true →
    ∀ t bl, cached (cache (world b)) t bl → t `prefix_of` token_ids s → length bl ≤ length (blocks_ s');
}.

(** Without the cache nothing happens. *)
Lemma shared_post_none s b F :
  blocks_ s = [] → bm_ok b F → enable_prefix_cache (bm_options_ b) = false → shared_post s b F s b.
Proof.
  intros Hnil Hb He. split; rewrite ?Hnil; try done.
  - destruct s; simpl in *; by subst.
  - simpl. lia.
  - intros _. split; [done|]. intros He'. congruence.
  - congruence.
Qed.

Lemma allocate_shared_wp s b F :
  seq_inv s → blocks_ s = [] → bm_ok b F →
  wp allocate_shared_blocks_for (s, b) (λ _ p, shared_post s b F p.1 p.2).
Proof using mono.
  intros HI Hnil Hb. unfold allocate_shared_blocks_for. wp_steps.
  destruct (enable_prefix_cache (bm_options_ b)) eqn:He.
  2:{ apply wp_ret. by apply shared_post_none. }
  assert (length (token_ids s) = num_tokens_ s) as Hlen.
  { unfold token_ids. rewrite length_take. pose proof (si_capacity _ HI). lia. }
  wp_steps. apply wp_on_snd. eapply now_wp; [exact Hb|]. intros t Hw Ht H0 Hn.
  wp_steps. apply wp_on_snd, wp_in_world.
  eapply wp_mono; [apply (match_wp _ t _ _ (token_ids s) Hw Ht)|].
  intros bl w' (Hw'&Hsz&Hle&Hc&Hmax&Hcont&Hhan). pose proof (bo_size _ _ Hb) as Hbs.
  simpl in Hle, Hc. rewrite Hbs in Hle, Hc. rewrite Hlen in Hle.
  set (b1 := set_world w' _).
  assert (bm_ok b1 (bl ++ F)) as Hb1.
  { eapply bm_ok_set_world; [done|done| |exact Hn]. simpl.
    assert (padding_block_ b :: bl ++ F ≡ₚ bl ++ padding_block_ b :: F) as -> by solve_Permutation. done. }
  assert (bm_same b b1) as Hsame by (by split).
  wp_steps. apply wp_on_snd. eapply wp_mono; [apply (count_blocks_wp 1 bl b1 (bl ++ F) Hb1); set_solver|].
  intros _ b2 [z ->]. apply wp_on_fst.
  eapply wp_mono; [apply (set_shared_blocks_wp s bl (bsz b) HI Hnil)|].
  - apply Forall_forall. intros x Hx. change (bsz b) with (bsz b1).
    eapply bm_ok_handle; [exact Hb1|set_solver].
  - by eapply bm_ok_pos.
  - done.
  - intros _ s' (Hs'&Hnone&Hsome). simpl.
    assert (blocks_ s' = bl) as Hbl by (rewrite Hs'; done). split; rewrite ?Hbl; try done.
    + by apply bm_ok_in_use.
    + intros ->. split; [by apply Hnone|]. intros _ t' bl' Hc' Hp.
      apply prefix_nil_inv. eapply Hmax; [|exact Hp]. by apply Hcont.
    + intros Hne. by destruct (Hsome Hne) as [-> _].
    + intros _ t' bl' Hc' Hp. by eapply prefix_length, Hmax.
Qed.

(** ** Allocation *)

Record alloc_post (s : Sequence) (b : BlockManager) (F : list Block) (n : nat) (r : bool)
    (s' : Sequence) (b' : BlockManager) : Prop := {
  al_seq : s' = set_blocks (blocks_ s') s;
  al_prefix : blocks_ s `prefix_of` blocks_ s';
  al_ok : bm_ok b' (blocks_ s' ++ F);
  al_same : bm_same b b';
  al_loses : bm_loses b b';
  al_fresh : ∃ nb, blocks_ s' = blocks_ s ++ nb ∧ NoDup (id_ <$> nb) ∧
    ∀ x, x ∈ nb → id_ x ∉ (id_ <$> bm_handles b' ++ blocks_ s ++ F);
  al_enough : r = true → n ≤ length (blocks_ s') * bsz b;
  al_fail : r = false → blocks_ s' = blocks_ s;
}.

Lemma no_new_blocks (bl hs : list Block) : ∃ nb, bl = bl ++ nb ∧ NoDup (id_ <$> nb) ∧ ∀ x, x ∈ nb → id_ x ∉ (id_ <$> hs).
Proof. exists []. rewrite app_nil_r. split_and!; [done|constructor|by intros x ?%not_elem_of_nil]. Qed.

Lemma blocks_needed n bs : 0 < bs → n ≤ (n + bs - 1) / bs * bs.
Proof.
  intros Hbs. pose proof (Nat.div_mod_eq (n + bs - 1) bs).
  pose proof (Nat.mod_upper_bound (n + bs - 1) bs ltac:(lia)). nia.
Qed.

(** The part of [allocate_blocks_for] after the shared blocks. *)
Lemma allocate_more_wp s b F n (k : nat) :
  bm_ok b (blocks_ s ++ F) →
  wp (enough ← on_snd (has_enough_blocks k);
      if negb enough then mret false
      else
        block_ids ← on_snd (in_world (in_mem (allocate k)));
        _ ← with_mem (append_blocks block_ids);
        _ ← on_snd (add_in_use (Z.of_nat k));
        _ ← on_snd (in_world (in_mem (blocks_destroy block_ids)));
        mret true) (s, b)
     (λ r p, n ≤ (length (blocks_ s) + k) * bsz b → alloc_post s b F n r p.1 p.2).
Proof using mono.
  intros Hb. wp_steps. apply wp_on_snd. eapply wp_mono; [by apply has_enough_blocks_wp|].
  intros r b1 (Hb1&Hs1&_&Hlose&Hfree).
  destruct r; simpl; [|apply wp_ret; intros _; split; try done; [by destruct s|by apply no_new_blocks]].
  specialize (Hfree eq_refl). pose proof (bm_ok_mem _ _ Hb1) as HM.
  wp_steps. apply wp_on_snd, wp_in_world. apply wp_zoom.
  eapply wp_mono; [by apply (allocate_wp k _ _ HM)|]. intros nb m1 (Hlen&HM1&Hg1&_&Hnd&Hfresh).
  wp_steps. unfold with_mem. apply wp_zoom. simpl.
  eapply wp_mono; [apply (append_blocks_wp s _ _ nb HM1); set_solver|].
  intros _ [s2 m2] (->&HM2&Ha2). simpl in *. wp_steps. apply wp_on_snd. unfold add_in_use. wp_steps.
  apply wp_on_snd, wp_in_world. apply wp_zoom. simpl.
  eapply wp_mono; [apply (blocks_destroy_wp nb _ _ HM2)|]. intros _ m3 (HM3&Hg3&_). wp_steps. simpl.
  intros Hn. split; simpl; try done.
  - by apply prefix_app_r.
  - destruct Hb1 as [(t&(xs&[HC HT _ HB])&Ht) Hsz]. split; [|done]. exists t. split; [|done].
    exists xs. split; simpl; [done|done| |].
    + eapply mem_ok_proper; [|exact HM3]. simpl. solve_Permutation.
    + destruct Hg3 as [_ ->]. rewrite Ha2. destruct Hg1 as [_ ->]. done.
  - destruct Hs1 as (?&?&Hz&Hg). split_and!; [done..|]. split; [done|]. simpl.
    etrans; [exact Hg|]. etrans; [exact Hg1|]. etrans; [|exact Hg3].
    unfold same_geometry, num_total_blocks. by rewrite Ha2.
  - exists nb. split_and!; [done|done|]. intros x Hx Hin. apply (Hfresh x Hx). unfold bm_handles in Hin. simpl in Hin.
    rewrite !fmap_app in Hin |- *. rewrite fmap_cons, fmap_app. set_solver.
  - intros _. rewrite length_app. by rewrite Hlen.
Qed.

(** [allocate_blocks_for] first looks for shared blocks when there are none. *)
Lemma allocate_blocks_for_wp s b F n :
  seq_inv s → bm_ok b (blocks_ s ++ F) → (N.of_nat (n + bsz b) < 2 ^ 32)%N →
  wp (allocate_blocks_for n) (s, b) (λ r p, ∃ s1 b1,
    (blocks_ s = [] → shared_post s b F s1 b1) ∧ (blocks_ s ≠ [] → s1 = s ∧ b1 = b) ∧
    alloc_post s1 b1 F n r p.1 p.2).
Proof using mono.
  intros HI Hb Hn. unfold allocate_blocks_for. wp_steps. simpl.
  eapply (wp_mono _ _ (λ _ p, (blocks_ s = [] → shared_post s b F p.1 p.2) ∧ (blocks_ s ≠ [] → p = (s, b)))).
  { unfold num_blocks. destruct (blocks_ s) as [|x bl] eqn:Hbl; simpl.
    - eapply wp_mono; [by apply allocate_shared_wp|]. by intros _ [] ?.
    - by apply wp_ret. }
  intros _ [s1 b1] [Hnil Hcons]. simpl in *.
  assert (bm_ok b1 (blocks_ s1 ++ F) ∧ bm_same b b1) as [Hb1 Hs1].
  { destruct (decide (blocks_ s = [])) as [He|He].
    - destruct (Hnil He). done.
    - injection (Hcons He) as -> ->. done. }
  assert (bsz b1 = bsz b) as Hbs by (unfold bsz; by destruct Hs1 as (->&_)).
  assert (∀ r p, alloc_post s1 b1 F n r p.1 p.2 → ∃ s2 b2,
    (blocks_ s = [] → shared_post s b F s2 b2) ∧ (blocks_ s ≠ [] → s2 = s ∧ b2 = b) ∧
    alloc_post s2 b2 F n r p.1 p.2) as Hwrap.
  { intros r p Hp. exists s1, b1. split_and!; [done| |done]. intros He. by injection (Hcons He) as -> ->. }
  pose proof (bm_ok_pos _ _ Hb1) as Hpos. pose proof (blocks_needed n (bsz b1) Hpos) as Hneed.
  wp_steps. simpl. fold (bsz b1). case_decide as Henough.
  - apply wp_ret, Hwrap. split; simpl; try done; [by destruct s1|by apply no_new_blocks|]. intros _. unfold num_blocks in *. nia.
  - assert ((n + bsz b1 - 1) / bsz b1 ≤ n + bsz b1) as Hle.
    { etrans; [apply Nat.Div0.div_le_upper_bound with (q := n + bsz b1)|done]. nia. }
    rewrite u32_id by (unfold num_blocks; lia).
    eapply wp_mono; [by apply (allocate_more_wp s1 b1 F n)|]. intros r p Hp. apply Hwrap, Hp.
    unfold num_blocks in *. nia.
Qed.

(** When sharing was already tried, the KV position does not move. *)
Lemma allocate_blocks_for_tried s b F n :
  seq_inv s → bm_ok b (blocks_ s ++ F) → (N.of_nat (n + bsz b) < 2 ^ 32)%N →
  (blocks_ s = [] → no_share b (token_ids s)) →
  wp (allocate_blocks_for n) (s, b) (λ r p, alloc_post s b F n r p.1 p.2).
Proof using mono.
  intros HI Hb Hn Hno. eapply wp_mono; [by eapply allocate_blocks_for_wp|].
  intros r [s' b'] (s1&b1&Hnil&Hcons&Hp). simpl in *.
  destruct (decide (blocks_ s = [])) as [He|He]; [|by destruct (Hcons He) as [-> ->]].
  pose proof (Hnil He) as Hsh. destruct (decide (blocks_ s1 = [])) as [He1|He1].
  - destruct (sh_none _ _ _ _ _ Hsh He1) as [-> _]. destruct Hp as [P1 P2 P3 P4 P5 P6 P7 P8].
    pose proof (sh_same _ _ _ _ _ Hsh) as Hs. split; try done; [by etrans| |].
    { etrans; [|exact P5]. split; [intros t bl; apply (sh_cached _ _ _ _ _ Hsh)|]. intros x. by rewrite (sh_handles _ _ _ _ _ Hsh). }
    replace (bsz b) with (bsz b1); [done|]. unfold bsz. by destruct Hs as (->&_).
  - exfalso. destruct (sh_content _ _ _ _ _ Hsh He1) as [Hen Hc].
    apply He1. eapply (Hno He Hen); [exact Hc|apply prefix_take].
Qed.

(** ** Caching and releasing *)

(** What caching the blocks of [s] adds: its whole blocks in the KV cache, behind
    those that were cached before. *)
Definition bm_gains (s : Sequence) (b b' : BlockManager) : Prop :=
  let n := Nat.min (kv_common (num_kv_cache_tokens_ s) / bsz b) (length (blocks_ s)) in
  ∃ fb m, m ≤ length fb ≤ n ∧ drop m fb = drop m (take (length fb) (blocks_ s)) ∧
    bm_cached b (take (m * bsz b) (token_ids s)) (take m fb) ∧
    bm_handles b' ≡ₚ drop m fb ++ bm_handles b ∧
    (∀ t bl, bm_cached b' t bl ↔ bm_cached b t bl ∨
       ∃ j, j ≤ length fb ∧ t = take (j * bsz b) (token_ids s) ∧ bl = take j fb).

(** Nothing is cached. *)
Lemma bm_gains_nothing s b b' : (∀ t bl, bm_cached b' t bl ↔ bm_cached b t bl) → bm_handles b' = bm_handles b → bm_gains s b b'.
Proof.
  intros Hc Hh. exists [], 0. split_and!; [simpl; lia..|done|constructor|by rewrite Hh|]. intros t bl. rewrite Hc. split; [by left|].
  intros [?|(j&Hj&->&->)]; [done|]. simpl in Hj. replace j with 0 by lia. constructor.
Qed.

(** The whole blocks of the tokens of [s] in the KV cache can be found. *)
Definition kept (s : Sequence) (b : BlockManager) : Prop :=
  enable_prefix_cache (bm_options_ b) = true →
  ∃ fb, length fb = Nat.min (kv_common (num_kv_cache_tokens_ s) / bsz b) (length (blocks_ s)) ∧
    cached (cache (world b)) (take (length fb * bsz b) (token_ids s)) fb.

Lemma cache_blocks_for_wp s b F :
  seq_inv s → kv_ssm (num_kv_cache_tokens_ s) ≤ kv_llm (num_kv_cache_tokens_ s) →
  bm_ok b (blocks_ s ++ F) →
  wp cache_blocks_for (s, b) (λ _ p, p.1 = s ∧ bm_ok p.2 (blocks_ s ++ F) ∧ bm_same b p.2 ∧ kept s p.2 ∧ bm_gains s b p.2).
Proof using mono.
  intros HI Hkv Hb. unfold cache_blocks_for. wp_steps. simpl.
  destruct (enable_prefix_cache (bm_options_ b)) eqn:He.
  2:{ apply wp_on_snd. unfold add_in_use. wp_steps. simpl. split_and!; [done|by apply bm_ok_in_use|by split| |by apply bm_gains_nothing].
      intros ?. simpl in *. congruence. }
  wp_steps. apply wp_on_fst. eapply wp_mono; [by apply tokens_in_kv_cache_wp|]. intros toks s' [-> ->].
  wp_steps. apply wp_on_snd. eapply now_wp; [exact Hb|]. intros t Hw Ht H0 Hn.
  wp_steps. apply wp_on_snd, wp_in_world.
  eapply wp_mono; [apply (insert_wp _ t _ _ _ (blocks_ s) Hw Ht H0); set_solver|].
  intros r w' (fb&m&Hfb&Hm&Hdrop&Hcm&_&_&Hw'&Hsz&Hhan&Hc). set (b1 := set_world w' _).
  assert (bm_ok b1 (blocks_ s ++ F)) as Hb1.
  { eapply bm_ok_set_world; [symmetry; apply (bo_size _ _ Hb)|done|exact Hw'|exact Hn]. }
  apply wp_on_snd. eapply wp_mono; [apply (count_blocks_wp _ (blocks_ s) b1 _ Hb1); set_solver|].
  intros _ b2 [z ->]. simpl. unfold bsz in *. simpl in *. rewrite (bo_size _ _ Hb) in *. unfold bsz in *.
  set (bs := opt_block_size (bm_options_ b)) in *. set (k := kv_common (num_kv_cache_tokens_ s)) in *.
  assert (k ≤ length (token_ids s)) as Hkc.
  { pose proof (si_kv _ HI). pose proof (si_capacity _ HI). unfold k, kv_common, token_ids.
    rewrite length_take. case_decide; lia. }
  assert (length (take k (token_ids s)) = k) as Hl by (rewrite length_take; lia).
  rewrite Hl in *. pose proof (Nat.Div0.mul_div_le k bs) as Hdiv.
  assert (∀ j, j ≤ length fb → take (j * bs) (take k (token_ids s)) = take (j * bs) (token_ids s)) as Htake.
  { intros j Hj. apply take_take_le. nia. }
  split_and!; [done|by apply bm_ok_in_use|by split|..].
  - intros _. exists fb. split; [done|]. apply Hc. right. exists (length fb). split_and!; [lia|by rewrite Htake|by rewrite take_ge].
  - exists fb, m. rewrite Htake in Hcm by lia. unfold bsz. fold bs k. split_and!; [lia|lia|by rewrite Hfb|done|done|].
    intros t' bl. unfold bm_cached. simpl. rewrite Hc. rewrite Hfb. split; (intros [?|(j&Hj&->&->)]; [by left|]);
      (right; exists j; rewrite Htake by lia; done).
Qed.

Lemma release_blocks_for_wp s b F :
  seq_inv s → kv_ssm (num_kv_cache_tokens_ s) ≤ kv_llm (num_kv_cache_tokens_ s) →
  bm_ok b (blocks_ s ++ F) →
  wp release_blocks_for (s, b) (λ _ p,
    p.1 = set_blocks [] (set_kv_tokens (mkKvTokens 0 0) s) ∧ bm_ok p.2 F ∧ bm_same b p.2 ∧
    kept s p.2 ∧ bm_gains s b p.2).
Proof using mono.
  intros HI Hkv Hb. unfold release_blocks_for. wp_steps.
  eapply wp_mono; [by apply cache_blocks_for_wp|]. intros _ [s1 b1] (Heq&Hb1&Hs1&Hkept&Hgain). simpl in *. subst s1.
  unfold with_mem. apply wp_zoom. simpl. pose proof (bm_ok_mem _ _ Hb1) as HM.
  eapply wp_mono.
  { apply (release_blocks_wp s _ (cache_handles (nodes (cache (world b1))) ++ padding_block_ b1 :: F)).
    eapply mem_ok_proper; [|exact HM]. solve_Permutation. }
  intros _ [s2 m2] (Heq&HM2&Hg&_). simpl in *. subst s2. split_and!; [done| | |exact Hkept|exact Hgain].
  - destruct Hb1 as [(t&(xs&[HC HT _ HB])&Ht) Hsz]. split; [|done]. exists t. split; [|done].
    exists xs. split; simpl; [done|done|done|]. destruct Hg as [_ ->]. done.
  - destruct Hs1 as (?&?&Hz&Hg1). split_and!; [done..|]. split; [done|]. by etrans.
Qed.

(** ** Construction *)

Lemma BlockManager_new_ok o b :
  BlockManager_new o = Ok b →
  bm_ok b [] ∧ bm_options_ b = o ∧ id_ (padding_block_ b) = 0%Z ∧ num_blocks_in_use_ b = 0%Z ∧
  num_free_blocks (bm_mem b) + 1 = opt_num_blocks o ∧ num_total_blocks (bm_mem b) = opt_num_blocks o.
Proof using mono.
  unfold BlockManager_new. intros H.
  destruct (BlockAllocator_new _ _) as [a|] eqn:Ha; [|done].
  destruct (PrefixCache_new _) as [c|] eqn:Hc; [|done].
  destruct (BlockAllocator_new_ok _ _ _ Ha) as (HM&Hfree&Htot&Hsz).
  destruct (PrefixCache_new_inv _ _ Hc) as (HC&HT&Hh&Hbs).
  destruct (allocate_one _) as [[pb m]|] eqn:Hal; [|done]. case_decide as Hid; [|done]. simplify_eq/=.
  unfold BlockAllocator_new in Ha. destruct (decide (0 < opt_num_blocks o)) as [Hpos|]; [|done].
  assert (wp allocate_one (mkMem ∅ 1 a) (λ b m', mem_ok m' [b] ∧ same_geometry (mkMem ∅ 1 a) m' ∧
    S (num_free_blocks m') = num_free_blocks_ a)) as Hw.
  { assert (allocate_one (mkMem ∅ 1 a) = allocate_iter (mkMem ∅ 1 a)) as Heq.
    { unfold allocate_one, mbind, M_bind, get, check. simpl.
      rewrite bool_decide_eq_true_2; [done|]. unfold num_free_blocks. simpl. lia. }
    unfold wp. rewrite Heq. eapply wp_mono; [apply (allocate_iter_wp _ [] HM)|].
    - unfold num_free_blocks. simpl. lia.
    - intros b m' (Hm'&Hg&Hf&_). split_and!; [done..|]. rewrite Hf. unfold num_free_blocks. simpl. lia. }
  unfold wp in Hw. rewrite Hal in Hw. destruct Hw as (HM'&[Hg1 Hg2]&Hf).
  split_and!; try done; simpl.
  - split; [|done]. exists 0%Z. split; [|apply clock_nonneg]. exists []. simpl.
    split; simpl; [done|done|by rewrite Hh|rewrite Hg2; simpl; congruence].
  - unfold bm_mem. simpl. lia.
  - unfold bm_mem. simpl. rewrite Hg1. done.
Qed.
End block_manager.
