(* ===== verification/BlockStore.v ===== *)
(** * What the scheduler needs from the block manager

    The scheduler reaches the KV cache only through the four operations of
    [BlockStore] on a sequence.  [BlockStoreLaws] states what it relies on: the
    accounting invariant [store_ok st F], where [F] are the handles of all
    sequences, and that a successful allocation covers the tokens asked for
    without moving the KV position.  The block manager is an instance. *)

From stdpp Require Import base tactics list gmap strings.
From S2P Require Import Prelude Slice Block Types Stopping Decoder Sequence SequenceInv BlockManager.
From S2P Require Import BlockManagerInv.

(** ** The interface *)

Class BlockStore (St : Type) := {
  store_share : M (Sequence * St) unit;
  store_allocate : nat → M (Sequence * St) bool;
  store_cache : M (Sequence * St) unit;
  store_release : M (Sequence * St) unit;
  store_sharing : St → bool;
}.

(** The sequence as the scheduler sees it between steps: both engines agree on
    at most its tokens, one token at least is left to process, and the blocks
    cover what is in the KV cache. *)
Record sched_seq (bs : nat) (s : Sequence) : Prop := {
  sq_inv : seq_inv s;
  sq_engine : engine_type_ s = LLM;
  sq_order : kv_ssm (num_kv_cache_tokens_ s) ≤ kv_llm (num_kv_cache_tokens_ s);
  sq_left : kv_llm (num_kv_cache_tokens_ s) < num_tokens_ s;
  sq_cover : kv_llm (num_kv_cache_tokens_ s) ≤ length (blocks_ s) * bs;
}.

Class BlockStoreLaws (St : Type) {BS : BlockStore St} := {
  store_ok : St → list Block → Prop;
  store_size : St → nat;
  (** sharing was tried for these tokens, and nothing was found *)
  store_tried : St → list Z → Prop;
  (** how many blocks there are *)
  store_total : St → nat;
  store_ok_proper st :: Proper ((≡ₚ) ==> iff) (store_ok st);
  store_size_pos st F : store_ok st F → 0 < store_size st;
  store_handle st F x : store_ok st F → x ∈ F →
    size_ x = store_size st ∧ (0 ≤ id_ x < Z.of_nat (store_total st))%Z;
  store_share_wp s st F :
    sched_seq (store_size st) s → blocks_ s = [] → store_ok st F →
    wp store_share (s, st) (λ _ p,
      p.1 = set_kv_tokens (num_kv_cache_tokens_ p.1) (set_blocks (blocks_ p.1) s) ∧
      sched_seq (store_size st) p.1 ∧ store_ok p.2 (blocks_ p.1 ++ F) ∧
      store_size p.2 = store_size st ∧ store_total p.2 = store_total st ∧
      store_sharing p.2 = store_sharing st ∧
      (blocks_ p.1 = [] → store_tried p.2 (token_ids s)));
  store_allocate_wp s st F n :
    sched_seq (store_size st) s → store_ok st (blocks_ s ++ F) →
    (N.of_nat (n + store_size st) < 2 ^ 32)%N →
    (blocks_ s = [] → store_tried st (token_ids s)) →
    wp (store_allocate n) (s, st) (λ r p,
      p.1 = set_blocks (blocks_ p.1) s ∧ sched_seq (store_size st) p.1 ∧
      store_ok p.2 (blocks_ p.1 ++ F) ∧ store_size p.2 = store_size st ∧
      store_total p.2 = store_total st ∧ store_sharing p.2 = store_sharing st ∧
      length (blocks_ s) ≤ length (blocks_ p.1) ∧
      (r = true → n ≤ length (blocks_ p.1) * store_size st));
  store_cache_wp s st F :
    sched_seq (store_size st) s → store_ok st (blocks_ s ++ F) →
    wp store_cache (s, st) (λ _ p, p.1 = s ∧ store_ok p.2 (blocks_ s ++ F) ∧
      store_size p.2 = store_size st ∧ store_total p.2 = store_total st ∧
      store_sharing p.2 = store_sharing st);
  store_release_wp s st F :
    sched_seq (store_size st) s → store_ok st (blocks_ s ++ F) →
    wp store_release (s, st) (λ _ p,
      p.1 = set_blocks [] (set_kv_tokens (mkKvTokens 0 0) s) ∧ sched_seq (store_size st) p.1 ∧
      store_ok p.2 F ∧ store_size p.2 = store_size st ∧ store_total p.2 = store_total st ∧
      store_sharing p.2 = store_sharing st);
}.

(** ** Changing the blocks of a sequence *)

(** The invariant does not mention the blocks. *)
Lemma seq_inv_set_blocks s bl : seq_inv s → seq_inv (set_blocks bl s).
Proof. intros []. by split. Qed.

Lemma seq_inv_set_kv s a b : seq_inv s → a ≤ num_tokens_ s → b ≤ num_tokens_ s →
  seq_inv (set_kv_tokens (mkKvTokens a b) s).
Proof. intros []. by split. Qed.

Lemma sched_seq_released bs s : sched_seq bs s →
  sched_seq bs (set_blocks [] (set_kv_tokens (mkKvTokens 0 0) s)).
Proof.
  intros [HI HE _ Hl _]. split; simpl; [|done|lia|lia|lia].
  apply seq_inv_set_blocks, seq_inv_set_kv; [done|lia|lia].
Qed.

Lemma sched_seq_more_blocks bs s bl : sched_seq bs s → length (blocks_ s) ≤ length bl →
  sched_seq bs (set_blocks bl s).
Proof.
  intros [HI HE Ho Hl Hc] Hle. split; simpl; try done; [by apply seq_inv_set_blocks|nia].
Qed.

(** ** The block manager is such a store *)

Section instance.
Context {clk : Clock} {mono : MonotoneClock clk}.

#[export] Instance BlockManager_store : BlockStore BlockManager := {
  store_share := allocate_shared_blocks_for;
  store_allocate := allocate_blocks_for;
  store_cache := cache_blocks_for;
  store_release := release_blocks_for;
  store_sharing b := enable_prefix_cache (bm_options_ b);
}.

Lemma bm_same_facts b b' : bm_same b b' →
  bsz b' = bsz b ∧ num_total_blocks (bm_mem b') = num_total_blocks (bm_mem b) ∧
  enable_prefix_cache (bm_options_ b') = enable_prefix_cache (bm_options_ b).
Proof. intros (Ho&_&_&[Hg _]). unfold bsz. by rewrite Ho. Qed.

(** Shared blocks leave at least one token to process. *)
Lemma sched_seq_shared s b F s' b' :
  sched_seq (bsz b) s → shared_post s b F s' b' → 0 < bsz b → sched_seq (bsz b) s'.
Proof.
  intros Hs Hsh Hpos. destruct (decide (blocks_ s' = [])) as [Hn|Hn].
  { by destruct (sh_none _ _ _ _ _ Hsh Hn) as [-> _]. }
  pose proof (sh_len _ _ _ _ _ Hsh) as Hlen. pose proof (sh_kv _ _ _ _ _ Hsh Hn) as Hk.
  pose proof (sh_seq _ _ _ _ _ Hsh) as Heq. rewrite Hk in Heq. unfold shared_kv in *.
  destruct Hs as [HI HE _ Hl _].
  assert (0 < length (blocks_ s')) by (destruct (blocks_ s'); [done|simpl; lia]).
  set (k := if decide _ then _ else _) in *.
  assert (k < num_tokens_ s ∧ k ≤ length (blocks_ s') * bsz b) as [Hk1 Hk2] by (unfold k; case_decide; lia).
  clearbody k. split; rewrite ?Hk; simpl; [|by rewrite Heq|lia|by rewrite Heq|done].
  rewrite Heq. apply seq_inv_set_kv; [by apply seq_inv_set_blocks|simpl; lia..].
Qed.

#[export, refine] Instance BlockManager_store_laws : BlockStoreLaws BlockManager := {
  store_ok := bm_ok;
  store_size := bsz;
  store_tried := no_share;
  store_total b := num_total_blocks (bm_mem b);
}.
Proof.
  all: simpl.
  - intros b F. apply bm_ok_pos.
  - intros b F x. apply bm_ok_handle.
  - intros s b F Hs Hnil Hb. eapply wp_mono; [by apply allocate_shared_wp; [apply Hs|..]|].
    intros _ [s' b'] Hsh. simpl in *.
    destruct (bm_same_facts _ _ (sh_same _ _ _ _ _ Hsh)) as (?&?&?).
    split_and!; try done; [apply Hsh| |apply Hsh|].
    + eapply sched_seq_shared; [done..|]. by eapply bm_ok_pos.
    + intros Hn. by apply (sh_none _ _ _ _ _ Hsh Hn).
  - intros s b F n Hs Hb Hn Ht. eapply wp_mono; [by apply allocate_blocks_for_tried; [apply Hs|..]|].
    intros r [s' b'] Hal. simpl in *.
    destruct (bm_same_facts _ _ (al_same _ _ _ _ _ _ _ Hal)) as (?&?&?).
    pose proof (prefix_length _ _ (al_prefix _ _ _ _ _ _ _ Hal)) as Hle.
    split_and!; try done; [apply Hal| |apply Hal|apply Hal].
    rewrite (al_seq _ _ _ _ _ _ _ Hal). by apply sched_seq_more_blocks.
  - intros s b F Hs Hb. eapply wp_mono; [by apply cache_blocks_for_wp; [apply Hs|apply Hs|]|].
    intros _ [s' b'] (->&Hb'&Hsame&_). destruct (bm_same_facts _ _ Hsame) as (?&?&?). done.
  - intros s b F Hs Hb. eapply wp_mono; [by apply release_blocks_for_wp; [apply Hs|apply Hs|]|].
    intros _ [s' b'] (Heq&Hb'&Hsame&_). simpl in *. destruct (bm_same_facts _ _ Hsame) as (?&?&?).
    split_and!; try done. rewrite Heq. by apply sched_seq_released.
Defined.
End instance.
