(* ===== verification/Request.v ===== *)
(** * Requests

    [src/request/request.h] and [request.cpp]: a request owns the sequences that
    are generated for one prompt, expands to [best_of] of them, and builds the
    output.  [std::sort] may order equal log probabilities either way; the model
    keeps their index order. *)

From Stdlib Require Import Ascii SpecFloat.
From stdpp Require Import base tactics list gmap strings.
From S2P Require Import Prelude Slice Block Types Stopping Decoder Sequence SequenceInv.

(** ** Data *)

(** [struct Request]. *)
Record Request := mkRequest {
  created_time : Z;
  prompt : text;
  prompt_tokens : list Z;
  req_n : nat;
  best_of : nat;
  logprobs : bool;
  seq_capacity : nat;
  req_sampling_param : SamplingParameter;
  req_stopping_criteria : StoppingCriteria;
  stream : bool;
  req_echo : bool;
  priority : Priority;
  sequences : list Sequence;
  is_cancelled_ : bool;
}.

Definition set_sequences (l : list Sequence) (r : Request) : Request :=
  mkRequest (created_time r) (prompt r) (prompt_tokens r) (req_n r) (best_of r) (logprobs r)
    (seq_capacity r) (req_sampling_param r) (req_stopping_criteria r) (stream r) (req_echo r)
    (priority r) l (is_cancelled_ r).
Definition set_cancelled (b : bool) (r : Request) : Request :=
  mkRequest (created_time r) (prompt r) (prompt_tokens r) (req_n r) (best_of r) (logprobs r)
    (seq_capacity r) (req_sampling_param r) (req_stopping_criteria r) (stream r) (req_echo r)
    (priority r) (sequences r) b.

(** ** Order *)

(** [RequestPtrLess] and [RequestPtrGreater]. *)
Definition request_less (a b : Request) : bool :=
  if decide (priority a = priority b) then (created_time a <? created_time b)%Z
  else bool_decide (priority_value (priority a) < priority_value (priority b)).
Definition request_greater (a b : Request) : bool :=
  if decide (priority a = priority b) then (created_time a >? created_time b)%Z
  else bool_decide (priority_value (priority b) < priority_value (priority a)).

(** ** Operations *)

(** [Request::Request], before the fields that the handlers fill in. *)
Definition Request_new (now : Z) (prompt : text) (prompt_tokens : list Z) (seq_capacity n best_of : nat)
    (logprobs : bool) : result Request :=
  if decide (n ≤ best_of) then
    Ok (mkRequest now prompt prompt_tokens n best_of logprobs seq_capacity
          SamplingParameter_default StoppingCriteria_default false false NORMAL [] false)
  else Fail (CheckFailed "best_of >= n").

(** Running an operation of the [i]-th sequence. *)
Definition with_sequence {A} (i : nat) (m : M Sequence A) : M Request A :=
  r ← get;
  s ← from_option_or OutOfBounds (sequences r !! i);
  match m s with
  | Ok (a, s') => _ ← put (set_sequences (<[i:=s']> (sequences r)) r); mret a
  | Fail e => fail e
  end.

(** [Request::add_sequence]. *)
Definition add_sequence : M Request unit :=
  r ← get;
  let options := mkSequenceOptions (req_sampling_param r) (req_stopping_criteria r) true
                   (req_echo r) (logprobs r) in
  match Sequence_new (length (sequences r)) (prompt r) (prompt_tokens r) (created_time r)
          (seq_capacity r) options with
  | Ok s => put (set_sequences (sequences r ++ [s]) r)
  | Fail e => fail e
  end.

(** [std::all_of] over the sequences, stopping at the first unfinished one. *)
Fixpoint all_finished (idxs : list nat) : M Request bool :=
  match idxs with
  | [] => mret true
  | i :: idxs' =>
      b ← with_sequence i is_finished;
      if (b : bool) then all_finished idxs' else mret false
  end.

(** [Request::is_finished]. *)
Definition request_is_finished : M Request bool :=
  r ← get;
  (* still need to generate more sequences *)
  if decide (length (sequences r) < best_of r) then mret false
  else all_finished (seq 0 (length (sequences r))).

(** [Request::should_expand_sequences]. *)
Definition should_expand_sequences : M Request bool :=
  r ← get;
  if decide (length (sequences r) < best_of r) then
    match sequences r with
    | [] => fail (CheckFailed "!sequences.empty()")
    (* if all prompt tokens are in kv cache, then expand *)
    | s :: _ => mret (bool_decide (num_prompt_tokens_ s ≤ num_kv_cache_tokens s))
    end
  else mret false.

(** [Request::expand_sequences]: one iteration of the loop per missing sequence. *)
Definition expand_sequences : M Request unit :=
  r ← get;
  for_each (λ _, add_sequence) (seq 0 (best_of r - length (sequences r))).

Definition cancel : M Request unit := modify (set_cancelled true).

(** ** Output *)

(** Sorting by the log probability, highest first. *)
Fixpoint insert_desc (x : float * nat) (l : list (float * nat)) : list (float * nat) :=
  match l with
  | [] => [x]
  | y :: l' => if SFltb y.1 x.1 then x :: l else y :: insert_desc x l'
  end.
Definition sort_desc (l : list (float * nat)) : list (float * nat) := foldl (λ acc x, insert_desc x acc) [] l.

Section output.
Context {tk : Tokenizer}.

Definition set_output_index (i : nat) (o : SequenceOutput) : SequenceOutput :=
  mkSequenceOutput i (so_text o) (so_token_ids o) (so_finish_reason o) (so_logprobs o).

(** [Request::build_output]. *)
Definition request_build_output : M Request RequestOutput :=
  r ← get;
  let num_prompt := length (prompt_tokens r) in
  let num_generated := sum_list (num_generated_tokens <$> sequences r) in
  let usage := mkUsage num_prompt num_generated (num_prompt + num_generated) in
  finished ← request_is_finished;
  outputs ←
    (if stream r then mret []
     else if decide (req_n r < length (sequences r)) then
       (* sort sequences by logprob in descending order, select top n *)
       let ranked := sort_desc (zip (logprob <$> sequences r) (seq 0 (length (sequences r)))) in
       map_each (λ p,
         o ← with_sequence p.1 build_output;
         (* override index with the final rank *)
         mret (set_output_index p.2 o)) (zip (take (req_n r) ranked.*2) (seq 0 (req_n r)))
     else map_each (λ i, with_sequence i build_output) (seq 0 (length (sequences r))));
  mret (mkRequestOutput None (Some (mkStatus OK "")) outputs (Some usage) finished).
End output.
