(* ===== verification/Sampling.v ===== *)
(** * Sampling parameters of a batch

    [SamplingParameters::init] of [src/sampling/parameters.cpp], and
    [create_2d_tensor] of [src/common/tensor_helper.h].  A tensor that may be
    undefined is an option; a two-dimensional tensor is a list of rows of one
    length. *)

From Stdlib Require Import SpecFloat.
From stdpp Require Import base tactics list strings.
From S2P Require Import Prelude Slice Types.

(** [struct SamplingParameters]. *)
Record SamplingParameters := mkSamplingParameters {
  spp_selected_token_idxes : list Z;
  spp_frequency_penalties : option (list float);
  spp_presence_penalties : option (list float);
  spp_repetition_penalties : option (list float);
  spp_temperatures : option (list float);
  spp_top_p : option (list float);
  spp_top_k : option (list Z);
  spp_unique_token_ids : option (list (list Z));
  spp_unique_token_counts : option (list (list Z));
  spp_unique_token_ids_lens : option (list Z);
  spp_sample_idxes : list Z;
  spp_do_sample : list bool;
  spp_logprobs : bool;
  spp_max_top_logprobs : Z;
}.

(** [create_2d_tensor]: every row must be as long as the first. *)
Definition create_2d_tensor {S A} (vec : list (list A)) : M S (option (list (list A))) :=
  match vec with
  | [] => mret None
  | row :: _ =>
      _ ← check (forallb (λ r, bool_decide (length r = length row)) vec) "vec[i].size() == n_cols";
      mret (Some vec)
  end.

(** [t != 0.0] and [t != 1.0] on a [float], compared as [double]. *)
Definition not_zero (t : float) : bool := negb (SFeqb (double_of_float t) (S754_zero false)).
Definition not_one (t : float) : bool := negb (SFeqb (double_of_float t) (double_of_size 1)).

(** The tensor, if any element needs it. *)
Definition if_any {A} (p : A → bool) (l : list A) : option (list A) :=
  if existsb p l then Some l else None.

(** Whether the sequence is sampled rather than decoded greedily. *)
Definition needs_sample (p : SamplingParameter) : bool :=
  do_sample p || not_zero (temperature p) || not_one (top_p p) || (0 <? top_k p)%Z.

(** [SamplingParameters::init]. *)
Definition SamplingParameters_init {S} (params : list SamplingParameter)
    (selected_token_idxes sample_idxes : list Z) (unique_token_ids_vec unique_token_counts_vec : list (list Z))
    (unique_token_lens_vec : list Z) : M S SamplingParameters :=
  _ ← check (bool_decide (length params = length selected_token_idxes)) "selected_token_idxes.size()";
  _ ← check (bool_decide (length sample_idxes ≤ length params)) "sample_idxes.size()";
  _ ← check (bool_decide (length params = length unique_token_ids_vec)) "unique_token_ids_vec.size()";
  _ ← check (bool_decide (length params = length unique_token_counts_vec)) "unique_token_counts_vec.size()";
  _ ← check (bool_decide (length params = length unique_token_lens_vec)) "unique_token_lens_vec.size()";
  let frequency := if_any not_zero (frequency_penalty <$> params) in
  let presence := if_any not_zero (presence_penalty <$> params) in
  let repetition := if_any not_one (repetition_penalty <$> params) in
  let need_token_stats :=
    bool_decide (is_Some frequency) || bool_decide (is_Some presence) || bool_decide (is_Some repetition) in
  ids ← (if (need_token_stats : bool) then create_2d_tensor unique_token_ids_vec else mret None);
  counts ← (if (need_token_stats : bool) then create_2d_tensor unique_token_counts_vec else mret None);
  (* construct do sample tensor *)
  do_samples ← map_each (λ idx,
    p ← from_option_or OutOfBounds (params !! Z.to_nat idx);
    mret (needs_sample p)) sample_idxes;
  mret (mkSamplingParameters selected_token_idxes frequency presence repetition
    (if_any (λ t, not_zero t && not_one t) (temperature <$> params))
    (if_any not_one (top_p <$> params))
    (if_any (λ t, (0 <? t)%Z) (top_k <$> params))
    ids counts (if (need_token_stats : bool) then Some unique_token_lens_vec else None)
    sample_idxes do_samples
    (existsb sp_logprobs params)
    (foldl Z.max 0%Z (sp_top_logprobs <$> params))).

(** ** Correctness *)

Lemma create_2d_tensor_wp {S A} (vec : list (list A)) k (s : S) :
  Forall (λ r, length r = k) vec →
  wp (create_2d_tensor vec) s (λ r s', s' = s ∧ r = match vec with [] => None | _ => Some vec end).
Proof.
  intros H. unfold create_2d_tensor. destruct vec as [|row vec]; [by apply wp_ret|].
  assert (Forall (λ r, length r = length row) (row :: vec)) as Hrow.
  { apply Forall_cons in H as [<- H]. by constructor. }
  wp_steps; [|done]. apply forallb_forall. intros r Hr. apply bool_decide_eq_true_2.
  rewrite Forall_forall in Hrow. apply Hrow. by apply list_elem_of_In.
Qed.

Lemma map_each_pure_wp {S A B} (f : A → M S B) (g : A → B) l (s : S) :
  (∀ x, x ∈ l → f x s = Ok (g x, s)) → wp (map_each f l) s (λ r s', s' = s ∧ r = g <$> l).
Proof.
  induction l as [|x l IH]; intros H; simpl; [by apply wp_ret|].
  wp_steps. eapply wp_intro; [apply H; by left|]. wp_steps.
  eapply wp_mono; [apply IH; intros y Hy; apply H; by right|]. intros r s' [-> ->]. by apply wp_ret.
Qed.

Lemma if_any_none {A} (p : A → bool) l : Forall (λ x, p x = false) l → if_any p l = None.
Proof.
  intros H. unfold if_any. replace (existsb p l) with false; [done|]. symmetry.
  induction H as [|x l Hx _ IH]; [done|]. simpl. by rewrite Hx, IH.
Qed.

Lemma if_any_length {A} (p : A → bool) l l' : if_any p l = Some l' → l' = l.
Proof. unfold if_any. case_match; congruence. Qed.

(** The batch parameters of the rows [params]. *)
Record inits (params : list SamplingParameter) (sel smp : list Z) (r : SamplingParameters) : Prop := {
  in_selected : spp_selected_token_idxes r = sel;
  in_samples : spp_sample_idxes r = smp;
  in_do_sample : spp_do_sample r = (λ i, default false (needs_sample <$> params !! Z.to_nat i)) <$> smp;
  in_frequency : spp_frequency_penalties r = if_any not_zero (frequency_penalty <$> params);
  in_presence : spp_presence_penalties r = if_any not_zero (presence_penalty <$> params);
  in_repetition : spp_repetition_penalties r = if_any not_one (repetition_penalty <$> params);
  in_temperatures : spp_temperatures r = if_any (λ t, not_zero t && not_one t) (temperature <$> params);
  in_top_p : spp_top_p r = if_any not_one (top_p <$> params);
  in_top_k : spp_top_k r = if_any (λ t, (0 <? t)%Z) (top_k <$> params);
  in_logprobs : spp_logprobs r = existsb sp_logprobs params;
  in_max_top : spp_max_top_logprobs r = foldl Z.max 0%Z (sp_top_logprobs <$> params);
}.

(** [init] does not fail on vectors of matching shapes. *)
Lemma SamplingParameters_init_wp {S} params sel smp ids counts lens k1 k2 (s : S) :
  length params = length sel → length smp ≤ length params →
  length params = length ids → length params = length counts → length params = length lens →
  Forall (λ r, length r = k1) ids → Forall (λ r, length r = k2) counts →
  Forall (λ i, 0 ≤ i < Z.of_nat (length params))%Z smp →
  wp (SamplingParameters_init params sel smp ids counts lens) s (λ r s', s' = s ∧ inits params sel smp r).
Proof.
  intros H1 H2 H3 H4 H5 H6 H7 H8. unfold SamplingParameters_init.
  wp_steps; [by apply bool_decide_eq_true_2..|].
  set (need := _ || _).
  eapply (wp_mono _ _ (λ _ s', s' = s)).
  { destruct need; [|by apply wp_ret].
    eapply wp_mono; [by eapply create_2d_tensor_wp|]. by intros ? ? [-> _]. }
  intros r1 ? ->. wp_steps. eapply (wp_mono _ _ (λ _ s', s' = s)).
  { destruct need; [|by apply wp_ret].
    eapply wp_mono; [by eapply create_2d_tensor_wp|]. by intros ? ? [-> _]. }
  intros r2 ? ->. wp_steps.
  eapply wp_mono.
  { apply (map_each_pure_wp _ (λ idx, default false (needs_sample <$> params !! Z.to_nat idx))).
    intros i Hi. rewrite Forall_forall in H8. specialize (H8 i Hi).
    destruct (lookup_lt_is_Some_2 params (Z.to_nat i)) as [p Hp]; [lia|].
    unfold mbind, M_bind. by rewrite Hp. }
  intros r3 ? [-> ->]. by apply wp_ret.
Qed.

(** The largest number of top log probabilities bounds each. *)
Lemma foldl_max_ge l : ∀ a, (a ≤ foldl Z.max a l)%Z ∧ Forall (λ x, (x ≤ foldl Z.max a l)%Z) l.
Proof.
  induction l as [|x l IH]; intros a; simpl; [split; [lia|constructor]|].
  destruct (IH (Z.max a x)) as [H1 H2]. split; [lia|]. constructor; [lia|done].
Qed.

Lemma foldl_max_le l b : ∀ a, (a ≤ b)%Z → Forall (λ x, (x ≤ b)%Z) l → (foldl Z.max a l ≤ b)%Z.
Proof.
  induction l as [|x l IH]; intros a Ha Hl; simpl; [done|]. apply Forall_cons in Hl as [? ?].
  apply IH; [lia|done].
Qed.
