(* ===== verification/Logits.v ===== *)
(** * Logits processors: data and operations

    [src/sampling/logits_processor.h] and [logits_processor.cpp]: what happens to
    the scores of the model before a token is sampled.  A matrix is a list of
    rows; the processors work on the type [prec, emax] of the model (the penalties
    were converted to it), with the arithmetic of the Standard Library's
    [SpecFloat].  The CPU versions are modelled; libtorch is a parameter. *)

From Stdlib Require Import SpecFloat.
From stdpp Require Import base tactics list strings sorting.
From S2P Require Import Prelude Slice Types Sampling.

(** ** libtorch *)

(** The functions of libtorch that the sampling code calls, on one row. *)
Class Torch := {
  (** [softmax], [log_softmax], [cumsum] and [sum] *)
  th_softmax : list float → list float;
  th_log_softmax : list float → list float;
  th_cumsum : list float → list float;
  th_sum : list float → float;
  (** [argmax] *)
  th_argmax : list float → nat;
  (** the indices that [sort(descending=true)] and [topk(k)] return *)
  th_sort_desc : list float → list nat;
  th_topk : nat → list float → list nat;
  (** the order in which [scatter_] writes [n] elements *)
  th_scatter_order : nat → list nat;
}.

(** What its documentation says of them. *)
Class TorchLaws (th : Torch) : Prop := {
  softmax_length l : length (th_softmax l) = length l;
  log_softmax_length l : length (th_log_softmax l) = length l;
  cumsum_length l : length (th_cumsum l) = length l;
  cumsum_head x l : head (th_cumsum (x :: l)) = Some x;
  argmax_lt l : l ≠ [] → th_argmax l < length l;
  argmax_max l m : (∀ x, x ∈ l → x ≠ S754_nan) → l !! th_argmax l = Some m →
    ∀ j x, l !! j = Some x → SFltb m x = false;
  argmax_first l m : (∀ x, x ∈ l → x ≠ S754_nan) → l !! th_argmax l = Some m →
    ∀ j x, l !! j = Some x → j < th_argmax l → SFltb x m = true;
  sort_perm l : th_sort_desc l ≡ₚ seq 0 (length l);
  sort_desc_ge l i j a b x y : (∀ z, z ∈ l → z ≠ S754_nan) → i ≤ j →
    th_sort_desc l !! i = Some a → th_sort_desc l !! j = Some b →
    l !! a = Some x → l !! b = Some y → SFltb x y = false;
  topk_length k l : k ≤ length l → length (th_topk k l) = k;
  topk_lt k l i : i ∈ th_topk k l → i < length l;
  scatter_order_perm n : th_scatter_order n ≡ₚ seq 0 n;
}.

(** ** Rows *)

(** [row.gather(index)]. *)
Definition gather {S A} (r : list A) (index : list Z) : M S (list A) :=
  map_each (λ i, if decide (0 ≤ i)%Z then at_ r (Z.to_nat i) else fail OutOfBounds) index.

(** [row.scatter_(index, src)]; the writes happen in the given order. *)
Definition scatter {A} (order : list nat) (r : list A) (index : list Z) (src : list A) : list A :=
  foldl (λ r j, match index !! j, src !! j with
                | Some i, Some v => <[Z.to_nat i := v]> r
                | _, _ => r
                end) r order.

(** [argsort] of a permutation of indices: its inverse. *)
Definition index_of (i : nat) (l : list nat) : nat :=
  match list_find (λ x, x = i) l with Some (p, _) => p | None => 0 end.
Definition argsort (l : list nat) : list nat := (λ i, index_of i l) <$> seq 0 (length l).

Definition neg_infinity : float := S754_infinity true.

(** [masked_fill_(mask, -inf)]. *)
Definition masked_fill (mask : list bool) (r : list float) : list float :=
  zip_with (λ (m : bool) x, if m then neg_infinity else x) mask r.

Section processors.
Context {th : Torch} (prec emax : Z).

Definition f_sub : float → float → float := SFsub prec emax.
Definition f_mul : float → float → float := SFmul prec emax.
Definition f_div : float → float → float := SFdiv prec emax.
Definition f_of_Z (z : Z) : float := binary_normalize prec emax z 0 false.
Definition f_zero : float := S754_zero false.

(** [detail::apply_temperature_penalty], on a row. *)
Definition apply_temperature_penalty (t : float) (logits : list float) : list float :=
  (λ x, f_div x t) <$> logits.

(** [detail::apply_repetition_penalty], on a row. *)
Definition repeat_score (penalty x : float) : float :=
  if SFltb x f_zero then f_mul x penalty else f_div x penalty.
Definition apply_repetition_penalty {S} (penalty : float) (ids : list Z) (logits : list float) :
    M S (list float) :=
  score ← gather logits ids;
  mret (scatter (th_scatter_order (length ids)) logits ids (repeat_score penalty <$> score)).

(** [detail::apply_frequency_presence_penalty], on a row. *)
Definition frequency_score (frequency presence : float) (x : float) (count : Z) : float :=
  let x := f_sub x (f_mul (f_of_Z count) frequency) in
  f_sub x (f_mul (if (0 <? count)%Z then f_of_Z 1 else f_zero) presence).
Definition apply_frequency_presence_penalty {S} (frequency presence : float) (ids counts : list Z)
    (logits : list float) : M S (list float) :=
  score ← gather logits ids;
  mret (scatter (th_scatter_order (length ids)) logits ids
          (zip_with (frequency_score frequency presence) score counts)).

(** ** The processors *)

(** The classes derived from [LogitsProcessor]. *)
Inductive LogitsProcessor :=
  | FrequencyPresencePenalty (frequency presence : list float)
  | RepetitionPenalty (penalties : list float)
  | Temperature (temperatures : list float)
  | TopKTopP (top_k : option (list Z)) (top_p : option (list float)).

(** [TemperatureLogitsProcessor::TemperatureLogitsProcessor]: 0 becomes 1. *)
Definition no_zero (t : float) : float := if SFeqb t f_zero then f_of_Z 1 else t.

(** [LogitsProcessor::create]. *)
Definition create {S} (params : SamplingParameters) : M S (list LogitsProcessor) :=
  fp ← (match spp_frequency_penalties params with
        | Some f =>
            match spp_presence_penalties params with
            | Some p => mret [FrequencyPresencePenalty f p]
            | None => fail (CheckFailed "frequency_penalties.defined() && presence_penalties.defined()")
            end
        | None => mret []
        end);
  let rp := match spp_repetition_penalties params with Some p => [RepetitionPenalty p] | None => [] end in
  let tp := match spp_temperatures params with Some t => [Temperature (no_zero <$> t)] | None => [] end in
  let kp := match spp_top_k params, spp_top_p params with
            | None, None => []
            | k, p => [TopKTopP k p]
            end in
  mret (fp ++ rp ++ tp ++ kp).

(** The mask of [top_k]: the positions from [k] on; [k <= 0] is no limit. *)
Definition top_k_mask (k : Z) (n : nat) : list bool :=
  let k := if decide (k ≤ 0)%Z then (2 ^ 63 - 1)%Z else k in
  (λ j, bool_decide (k ≤ Z.of_nat j)%Z) <$> seq 0 n.
(** The mask of [top_p]: the positions before which more than [p] was seen. *)
Definition top_p_mask (p : float) (logits_sort : list float) : list bool :=
  let probs_sort := th_softmax logits_sort in
  zip_with (λ s x, SFltb p (f_sub s x)) (th_cumsum probs_sort) probs_sort.

(** [TopKTopPLogitsProcessor::forward], on a row. *)
Definition top_k_top_p (k : option Z) (p : option float) (logits : list float) : list float :=
  let logits_idx := th_sort_desc logits in
  let logits_sort := (λ i, default S754_nan (logits !! i)) <$> logits_idx in
  let logits_sort := match k with
    | Some k => masked_fill (top_k_mask k (length logits)) logits_sort
    | None => logits_sort
    end in
  let logits_sort := match p with
    | Some p => masked_fill (top_p_mask p logits_sort) logits_sort
    | None => logits_sort
    end in
  (λ i, default S754_nan (logits_sort !! i)) <$> argsort logits_idx.

(** Elements of an optional tensor of one value per row. *)
Definition per_row {S A} (t : option (list A)) (n : nat) (what : string) : M S (list (option A)) :=
  match t with
  | None => mret (replicate n None)
  | Some l => _ ← check (bool_decide (n = length l)) what; mret (Some <$> l)
  end.

(** [LogitsProcessor::forward] of each class. *)
Definition forward {S} (p : LogitsProcessor) (ids counts : option (list (list Z)))
    (logits : list (list float)) : M S (list (list float)) :=
  match p with
  | FrequencyPresencePenalty f pr =>
      _ ← check (bool_decide (length logits = length f)) "logits.size(0) == frequency_penalties_.size(0)";
      ids ← from_option_or NullPointer ids;
      counts ← from_option_or NullPointer counts;
      map_each (λ i,
        r ← at_ logits i; fi ← at_ f i; pi ← at_ pr i; id ← at_ ids i; c ← at_ counts i;
        apply_frequency_presence_penalty fi pi id c r) (seq 0 (length logits))
  | RepetitionPenalty pen =>
      _ ← check (bool_decide (length logits = length pen)) "logits.size(0) == penalties_.size(0)";
      ids ← from_option_or NullPointer ids;
      map_each (λ i, r ← at_ logits i; x ← at_ pen i; id ← at_ ids i; apply_repetition_penalty x id r)
        (seq 0 (length logits))
  | Temperature t =>
      _ ← check (bool_decide (length logits = length t)) "logits.size(0) == temperatures_.size(0)";
      mret (zip_with apply_temperature_penalty t logits)
  | TopKTopP k tp =>
      ks ← per_row k (length logits) "logits.size(0) == top_k_.size(0)";
      ps ← per_row tp (length logits) "logits.size(0) == top_p_.size(0)";
      mret (zip_with (λ (q : option Z * option float) r, top_k_top_p q.1 q.2 r) (zip ks ps) logits)
  end.

(** [LogitsProcessorList::forward]. *)
Fixpoint forward_all {S} (ps : list LogitsProcessor) (ids counts : option (list (list Z)))
    (logits : list (list float)) : M S (list (list float)) :=
  match ps with
  | [] => mret logits
  | p :: ps' => l ← forward p ids counts logits; forward_all ps' ids counts l
  end.
End processors.
