(* ===== verification/Kernels.v ===== *)
(** * The sampling and cache kernels

    [src/kernels/sampling/penalty_kernels.cu], [src/kernels/kv_cache_kernels.cu] and
    [src/memory/kv_cache.cpp].  A kernel is the list of the threads of its grid,
    each with the updates that its loop makes, on the flat array that the pointers
    give; the scalar type is [float].  The products of sizes stay below [2 ^ 31]. *)

From Stdlib Require Import SpecFloat PeanoNat.
From stdpp Require Import base tactics list relations strings.
From S2P Require Import Prelude Slice Types Sampling Logits Gpu.

(** An element of an array that a thread reads; the index is in range. *)
Definition read {A} (d : A) (l : list A) (i : nat) : A := default d (l !! i).

(** A grid in which block [bid] runs the loop
    [for (i = tid; i < len; i += blockDim.x)]. *)
Definition block_kernel {A} (grid block : nat) (len : nat → nat) (body : nat → nat → list (nat * (A → A))) :
    list (list (nat * (A → A))) :=
  concat ((λ bid, (λ tid, strided (S (len bid)) tid (len bid) block ≫= body bid) <$> seq 0 block) <$> seq 0 grid).

(** ** Penalties *)

Abbreviation f32_mul := (f_mul 24 128).
Abbreviation f32_div := (f_div 24 128).
Abbreviation f32_sub := (f_sub 24 128).
Abbreviation f32_of_Z := (f_of_Z 24 128).

(** [inv_temperatures] of a block: thread [i] fills in entry [i]; the others are
    what the shared memory held, [garbage]. *)
Definition inv_temperature (t : float) : float :=
  if SFeqb t f_zero then f32_of_Z 1 else f32_div (f32_of_Z 1) t.
Definition inv_temperatures (block batch_size : nat) (temperatures : list float) (garbage : nat → float) (i : nat) : float :=
  if decide (i < block ∧ i < batch_size) then inv_temperature (read f_zero temperatures i) else garbage i.

(** [apply_temperature_penalty]: the grid-stride loop over all elements. *)
Definition temperature_kernel (batch_size vocab_size : nat) (temperatures : list float) (garbage : nat → nat → float) :
    list (list (nat * (float → float))) :=
  let block := Nat.min vocab_size 1024 in
  let grid := Nat.min (batch_size * vocab_size / block) (N.to_nat 65536) in
  (λ g, let bid := g / block in
     (λ i, (i, λ x, f32_mul x (inv_temperatures block batch_size temperatures (garbage bid) (i / vocab_size)))) <$>
       strided (S (batch_size * vocab_size)) g (batch_size * vocab_size) (block * grid)) <$> seq 0 (block * grid).

(** [apply_repetition_penalty]: a block per row. *)
Definition repetition_kernel (batch_size vocab_size max_seq_len : nat) (token_ids token_ids_lens : list nat)
    (penalties : list float) : list (list (nat * (float → float))) :=
  block_kernel batch_size (Nat.min max_seq_len 1024) (read 0 token_ids_lens)
    (λ bid i, [(bid * vocab_size + read 0 token_ids (bid * max_seq_len + i),
                repeat_score 24 128 (read f_zero penalties bid))]).

(** [apply_frequency_presence_penalty]. *)
Definition frequency_kernel (batch_size vocab_size max_seq_len : nat) (token_ids : list nat) (token_counts : list Z)
    (token_ids_lens : list nat) (frequency_penalties presence_penalties : list float) : list (list (nat * (float → float))) :=
  block_kernel batch_size (Nat.min max_seq_len 1024) (read 0 token_ids_lens)
    (λ bid i,
       let idx := bid * max_seq_len + i in
       let token_count := read 0%Z token_counts idx in
       if (0 <? token_count)%Z then
         (* apply frequency then presence penalties *)
         [(bid * vocab_size + read 0 token_ids idx, λ logit,
             f32_sub (f32_sub logit (f32_mul (f32_of_Z token_count) (read f_zero frequency_penalties bid)))
               (read f_zero presence_penalties bid))]
       else []).

(** ** The KV cache *)

Section cache.
Context {A : Type} (d : A).

(** [class KVCache]: the two arrays of slots, [width] elements each. *)
Record KVCache := mkKVCache {
  kv_block_size_ : nat;
  kv_width : nat;
  key_cache_ : list A;
  value_cache_ : list A;
}.

(** The constructors; [memory] is what the two fresh tensors hold. *)
Definition KVCache_default : KVCache := mkKVCache 0 0 [] [].
Definition KVCache_new (n_blocks block_size n_kv_heads head_dim : nat) (memory : nat → A * A) : KVCache :=
  let n := n_blocks * block_size * (n_kv_heads * head_dim) in
  mkKVCache block_size (n_kv_heads * head_dim) (fst ∘ memory <$> seq 0 n) (snd ∘ memory <$> seq 0 n).

Definition kv_empty (c : KVCache) : bool := bool_decide (kv_block_size_ c = 0).

(** Row [slot] of a tensor, as torch indexes it: negative slots count from the
    end. *)
Definition torch_row {S} (width : nat) (l : list A) (slot : Z) : M S nat :=
  let n := Z.of_nat (length l / width) in
  if decide (0 ≤ slot < n)%Z then mret (Z.to_nat slot)
  else if decide (- n ≤ slot < 0)%Z then mret (Z.to_nat (slot + n))
  else fail OutOfBounds.

Definition set_row (width : nat) (r : nat) (row l : list A) : list A :=
  take (r * width) l ++ row ++ drop (r * width + width) l.
Definition get_row (width : nat) (r : nat) (l : list A) : list A := take width (drop (r * width) l).

(** [KVCache::set_kv_cache], the loop over the tokens; [keys] and [values] are the
    rows. *)
Fixpoint set_kv_cache (slot_ids : list Z) (keys values : list (list A)) : M KVCache unit :=
  match slot_ids, keys, values with
  | [], [], [] => mret tt
  | slot_id :: slot_ids, k :: keys, v :: values =>
      c ← get;
      r ← torch_row (kv_width c) (key_cache_ c) slot_id;
      r' ← torch_row (kv_width c) (value_cache_ c) slot_id;
      _ ← put (mkKVCache (kv_block_size_ c) (kv_width c) (set_row (kv_width c) r k (key_cache_ c)) (set_row (kv_width c) r' v (value_cache_ c)));
      set_kv_cache slot_ids keys values
  | _, _, _ => fail (CheckFailed "slot_ids.size() == n_tokens")
  end.

(** [KVCache::get_kv_cache]; [torch::stack] refuses an empty list. *)
Definition get_kv_cache (slot_ids : list Z) : M KVCache (list (list A) * list (list A)) :=
  c ← get;
  _ ← check (negb (bool_decide (slot_ids = []))) "stack expects a non-empty TensorList";
  keys ← map_each (λ slot_id, r ← torch_row (kv_width c) (key_cache_ c) slot_id; mret (get_row (kv_width c) r (key_cache_ c))) slot_ids;
  values ← map_each (λ slot_id, r ← torch_row (kv_width c) (value_cache_ c) slot_id; mret (get_row (kv_width c) r (value_cache_ c))) slot_ids;
  mret (keys, values).

(** [kernel::set_kv_cache]: block [bid] copies the row of token [bid].  The memory
    is [key_cache] followed by [value_cache]. *)
Definition set_kv_cache_kernel (n_tokens n_kv_heads head_dim k_stride v_stride value_base : nat) (slot_ids : list nat)
    (keys values : list A) : list (list (nat * (A → A))) :=
  let n := n_kv_heads * head_dim in
  block_kernel n_tokens (Nat.min n 1024) (λ _, n)
    (λ bid i,
       let head_base_idx := read 0 slot_ids bid * n_kv_heads * head_dim in
       let head_idx := i / head_dim in
       let head_offset := i `mod` head_dim in
       let dst_idx := head_base_idx + head_idx * head_dim + head_offset in
       [(dst_idx, λ _, read d keys (bid * k_stride + i));
        (value_base + dst_idx, λ _, read d values (bid * v_stride + i))]).
End cache.
Arguments mkKVCache {A} _ _ _ _.
Arguments kv_block_size_ {A} _.
Arguments kv_width {A} _.
Arguments key_cache_ {A} _.
Arguments value_cache_ {A} _.
