(* ===== verification/Rotary.v ===== *)
(** * Rotary positional embeddings

    [src/layers/pos_embedding.cpp] and [src/kernels/pos_embedding_kernels.cu].  The
    generic implementation computes on tensors of shape [tokens, heads, head_dim]; the
    CUDA implementation updates the query and the key in place, in the memory of the
    device, through the strides of the two views.  [F] is the type of the 32-bit floats
    in which the angles are computed and [A] that of the query and the key. *)

From Stdlib Require Import SpecFloat PeanoNat.
From stdpp Require Import base tactics list strings.
From S2P Require Import Prelude Types Tensor Gpu Kernels.

(** The arithmetic of the elements. *)
Class Arith (A : Type) := {
  r_zero : A;
  r_add : A → A → A;
  r_sub : A → A → A;
  r_mul : A → A → A;
  r_neg : A → A;
}.

(** The arithmetic of the angles, and the conversion to the element type. *)
Class Angles (F A : Type) := {
  a_of_nat : nat → F;
  a_mul : F → F → F;
  a_cos : F → F;
  a_sin : F → F;
  a_to : F → A;
}.

(** A tensor of shape [tokens, heads, dim]. *)
Record Heads (A : Type) := mkHeads { h_dim : nat; h_rows : list (list (list A)) }.
Arguments mkHeads {A} _ _.
Arguments h_dim {A} _.
Arguments h_rows {A} _.

(** ** Frequencies *)

(** [detail::compute_default_inv_freq]; [pow] is libtorch's. *)
Definition compute_default_inv_freq {S} (pow : float → float → float) (rotary_dim : nat) (theta : float) : M S (list float) :=
  _ ← check (rotary_dim mod 2 =? 0) "rotary_dim must be even";
  mret ((λ i, SFdiv 24 128 (float_of_Z 1) (pow theta (SFdiv 24 128 (float_of_Z (Z.of_nat (i * 2))) (float_of_Z (Z.of_nat rotary_dim)))))
    <$> seq 0 (rotary_dim / 2)).

(** [2 * M_PI]. *)
Definition two_pi : float := S754_finite false 7074237752028440 (-50).

(** [detail::apply_llama3_rope_scaling], on the elements of the tensor. *)
Definition llama3_freq {S} (factor low_freq_factor high_freq_factor : float) (old_context_len : Z) (freq : float) : M S float :=
  let low_freq_wavelen := SFdiv 24 128 (float_of_Z old_context_len) low_freq_factor in
  let high_freq_wavelen := SFdiv 24 128 (float_of_Z old_context_len) high_freq_factor in
  let wavelen := float_of_double (double_div two_pi (double_of_float freq)) in
  if SFltb wavelen high_freq_wavelen then mret freq
  else if SFltb low_freq_wavelen wavelen then mret (SFdiv 24 128 freq factor)
  else
    _ ← check (negb (SFeqb low_freq_wavelen high_freq_wavelen)) "low_freq_wavelen != high_freq_wavelen";
    let smooth := SFdiv 24 128 (SFsub 24 128 (SFdiv 24 128 (float_of_Z old_context_len) wavelen) low_freq_factor)
                    (SFsub 24 128 high_freq_factor low_freq_factor) in
    mret (SFadd 24 128 (SFdiv 24 128 (SFmul 24 128 (SFsub 24 128 (float_of_Z 1) smooth) freq) factor)
            (SFmul 24 128 smooth freq)).
Definition apply_llama3_rope_scaling {S} (inv_freq : list float) (factor low_freq_factor high_freq_factor : float)
    (old_context_len : Z) : M S (list float) :=
  map_each (llama3_freq factor low_freq_factor high_freq_factor old_context_len) inv_freq.

Section rotary.
Context {F A : Type} `{Arith A} `{Angles F A}.

(** ** The generic implementation *)

(** [x[::2]]. *)
Fixpoint every_other (x : list A) : list A :=
  match x with
  | a :: _ :: x => a :: every_other x
  | _ => x
  end.

(** [torch::stack({a, b}, -1).flatten(-2)]. *)
Fixpoint interleave (a b : list A) : list A :=
  match a, b with
  | x :: a, y :: b => x :: y :: interleave a b
  | _, _ => []
  end.

(** [rotate_every_two]: [1, 2, 3, 4] => [-2, 1, -4, 3]. *)
Definition rotate_every_two {S} (x : list A) : M S (list A) :=
  let x1 := every_other x in
  let x2 := every_other (tail x) in
  _ ← check (bool_decide (length x1 = length x2)) "stack expects each tensor to be equal size";
  mret (interleave (r_neg <$> x2) x1).

(** [x.chunk(2, -1)]; a size of one has no second chunk. *)
Definition chunk2 {S} (x : list A) : M S (list A * list A) :=
  let k := (length x + 1) / 2 in
  if decide (length x = 1) then fail OutOfBounds else mret (take k x, drop k x).

(** [rotate_half]: [1, 2, 3, 4] => [-3, -4, 1, 2]. *)
Definition rotate_half {S} (x : list A) : M S (list A) :=
  '(a, b) ← chunk2 x;
  mret ((r_neg <$> b) ++ a).

Definition mul_row {S} (x y : list A) : M S (list A) :=
  _ ← check (bool_decide (length x = length y)) "The size of tensor a must match the size of tensor b";
  mret (zip_with r_mul x y).

(** [apply_interleaved_rotary_pos_emb] and [apply_rotated_rotary_pos_emb], on one head. *)
Definition embed_row {S} (interleaved : bool) (cos sin x : list A) : M S (list A) :=
  a ← mul_row x cos;
  x' ← (if interleaved then rotate_every_two x else rotate_half x);
  b ← mul_row x' sin;
  mret (zip_with r_add a b).

(** On every head of every token; [cos_sin] has a row per token. *)
Definition embed_heads {S} (interleaved : bool) (x : list (list (list A))) (cos_sin : list (list A)) : M S (list (list (list A))) :=
  _ ← check (bool_decide (length x = length cos_sin)) "The size of tensor a must match the size of tensor b";
  map_each (λ p : list (list A) * list A,
    '(cos, sin) ← chunk2 p.2;
    map_each (embed_row interleaved cos sin) p.1) (zip x cos_sin).

(** [detail::apply_rotary_pos_emb]. *)
Definition apply_rotary_pos_emb {S} (q k : list (list (list A))) (cos_sin : list (list A)) (interleaved : bool) :
    M S (list (list (list A)) * list (list (list A))) :=
  q' ← embed_heads interleaved q cos_sin;
  k' ← embed_heads interleaved k cos_sin;
  mret (q', k').

(** [RotaryEmbeddingGeneric] and [RotaryEmbeddingKernel] have the same members. *)
Record RotaryEmbedding := mkRotaryEmbedding {
  cos_sin_cache_ : list (list A);
  rotary_dim_ : nat;
  interleaved_ : bool;
}.

(** [torch::einsum("i,j->ij", {t, inv_freq})], row [i]. *)
Definition freqs (inv_freq : list F) (i : nat) : list F := a_mul (a_of_nat i) <$> inv_freq.

(** [RotaryEmbeddingGeneric::RotaryEmbeddingGeneric]. *)
Definition RotaryEmbeddingGeneric_new (rotary_dim max_position_embeddings : nat) (inv_freq : list F) (interleaved : bool) : RotaryEmbedding :=
  let row i :=
    let f := freqs inv_freq i in
    let emd := if interleaved then f ≫= (λ x, [x; x]) else f ++ f in
    (a_cos <$> emd) ++ (a_sin <$> emd) in
  mkRotaryEmbedding ((λ i, a_to <$> row i) <$> seq 0 max_position_embeddings) rotary_dim interleaved.

(** [RotaryEmbeddingGeneric::forward]. *)
Definition generic_forward {S} (e : RotaryEmbedding) (query key : Heads A) (positions : list nat) : M S (Heads A * Heads A) :=
  _ ← check (rotary_dim_ e <=? h_dim query) "query.size(-1) >= rotary_dim_";
  let rotary (x : Heads A) := map (map (take (rotary_dim_ e))) (h_rows x) in
  let pass (x : Heads A) := map (map (drop (rotary_dim_ e))) (h_rows x) in
  cos_sin ← map_each (λ i, from_option_or OutOfBounds (cos_sin_cache_ e !! i)) positions;
  '(q, k) ← apply_rotary_pos_emb (rotary query) (rotary key) cos_sin (interleaved_ e);
  mret (mkHeads (h_dim query) (zip_with (zip_with app) q (pass query)),
        mkHeads (h_dim key) (zip_with (zip_with app) k (pass key))).

(** ** The CUDA implementation *)

(** A tensor in the memory of the device: its sizes and strides. *)
Record View := mkView {
  v_base : nat;
  v_sizes : nat * nat * nat;
  v_strides : nat * nat * nat;
}.
Definition v_tokens (v : View) : nat := (v_sizes v).1.1.
Definition v_heads (v : View) : nat := (v_sizes v).1.2.
Definition v_dim (v : View) : nat := (v_sizes v).2.
Definition v_stride (v : View) : nat := (v_strides v).1.1.

(** The elements of a view. *)
Definition view_rows (v : View) (m : list A) : Heads A :=
  let '(s0, s1, s2) := v_strides v in
  mkHeads (v_dim v)
    ((λ t, (λ h, (λ j, read r_zero m (v_base v + t * s0 + h * s1 + j * s2)) <$> seq 0 (v_dim v)) <$> seq 0 (v_heads v))
       <$> seq 0 (v_tokens v)).

(** [RotaryEmbedding<T>::apply]: [data], [cos] and [sin] are pointers. *)
Definition x_index (interleaved : bool) (idx : nat) : nat := if interleaved then 2 * idx else idx.
Definition y_index (interleaved : bool) (n idx : nat) : nat := if interleaved then 2 * idx + 1 else idx + n.
Definition rotary_apply (cos_sin : list A) (data cos sin idx n : nat) (interleaved : bool) : Prog A :=
  let x_idx := data + x_index interleaved idx in
  let y_idx := data + y_index interleaved n idx in
  Load x_idx (λ x, Load y_idx (λ y,
    let c := read r_zero cos_sin (cos + idx) in
    let s := read r_zero cos_sin (sin + idx) in
    Store x_idx (r_sub (r_mul x c) (r_mul y s))
      (Store y_idx (r_add (r_mul x s) (r_mul y c)) Done))).

(** [rotary_embedding_kernel]: the iterations of thread [tidx] of block [bidx]. *)
Definition rotary_embedding_kernel (querys keys : nat) (positions : list nat) (cos_sin : list A)
    (head_dim rotary_dim n_heads n_kv_heads q_stride k_stride : nat) (interleaved : bool) (block bidx tidx : nat) : list (Prog A) :=
  let n := rotary_dim / 2 in
  let cos := read 0 positions bidx * rotary_dim in
  let sin := cos + n in
  let loop base heads :=
    (λ i, rotary_apply cos_sin (base + i / n * head_dim) cos sin (i `mod` n) n interleaved) <$>
      strided (S (heads * n)) tidx (heads * n) block in
  loop (querys + bidx * q_stride) n_heads ++ loop (keys + bidx * k_stride) n_kv_heads.

(** [kernel::apply_rotary_pos_emb]: the threads of the grid that it launches. *)
Definition launch_rotary {S} (querys keys : View) (positions : list nat) (cos_sin : list A) (rotary_dim : nat) (interleaved : bool) :
    M S (list (list (Prog A))) :=
  let contiguous (v : View) := bool_decide (v_strides v = (v_stride v, v_dim v, 1)) in
  _ ← check (contiguous querys) "querys.stride(-1) == 1 && querys.stride(-2) == querys.size(-1)";
  _ ← check (contiguous keys) "keys.stride(-1) == 1 && keys.stride(-2) == keys.size(-1)";
  let block := Nat.min 1024 (v_heads querys * rotary_dim) / 2 in
  mret (concat ((λ bidx,
    rotary_embedding_kernel (v_base querys) (v_base keys) positions cos_sin (v_dim querys) rotary_dim
      (v_heads querys) (v_heads keys) (v_stride querys) (v_stride keys) interleaved block bidx <$> seq 0 block)
    <$> seq 0 (v_tokens querys))).

(** [RotaryEmbeddingKernel::RotaryEmbeddingKernel]. *)
Definition RotaryEmbeddingKernel_new (rotary_dim max_position_embeddings : nat) (inv_freq : list F) (interleaved : bool) : RotaryEmbedding :=
  let row i := let f := freqs inv_freq i in (a_cos <$> f) ++ (a_sin <$> f) in
  mkRotaryEmbedding ((λ i, a_to <$> row i) <$> seq 0 max_position_embeddings) rotary_dim interleaved.

(** [RotaryEmbeddingKernel::forward]: the kernel that it launches. *)
Definition kernel_forward {S} (e : RotaryEmbedding) (query key : View) (positions : list nat) : M S (list (list (Prog A))) :=
  _ ← check (rotary_dim_ e <=? v_dim query) "query.size(-1) >= rotary_dim_";
  launch_rotary query key positions (concat (cos_sin_cache_ e)) (rotary_dim_ e) (interleaved_ e).

(** [create]: the kernel for a CUDA device, unless the flag disables it. *)
Definition RotaryEmbedding_create (rotary_dim max_position_embeddings : nat) (inv_freq : list F)
    (interleaved is_cuda disable_custom_kernels : bool) : RotaryEmbedding + RotaryEmbedding :=
  if is_cuda && negb disable_custom_kernels
  then inr (RotaryEmbeddingKernel_new rotary_dim max_position_embeddings inv_freq interleaved)
  else inl (RotaryEmbeddingGeneric_new rotary_dim max_position_embeddings inv_freq interleaved).
End rotary.
Arguments RotaryEmbedding : clear implicits.
