(* ===== verification/LogitsInv.v ===== *)
(** * Logits processors: behaviour

    Which scores a processor changes, and to what; that the order in which
    [scatter_] writes does not matter where the indices are unique or the values
    agree; and which entries survive [top_k] and [top_p]. *)

From Stdlib Require Import SpecFloat.
From stdpp Require Import base tactics list sets strings sorting.
From S2P Require Import Prelude Slice Types Sampling Logits.

(** ** gather and scatter *)

(** All indices lie in a row of [n] entries. *)
Definition in_row (n : nat) (ids : list Z) : Prop := Forall (λ i, 0 ≤ i < Z.of_nat n)%Z ids.

Lemma gather_wp {S A} (r : list A) ids (s : S) :
  in_row (length r) ids →
  wp (gather r ids) s (λ g s', s' = s ∧ length g = length ids ∧
    ∀ j i x, ids !! j = Some i → g !! j = Some x → r !! Z.to_nat i = Some x).
Proof.
  intros Hin. destruct r as [|d r].
  { destruct ids as [|i ids]; [by apply wp_ret|]. apply Forall_cons in Hin as [Hi _]. simpl in Hi. lia. }
  eapply wp_mono.
  { apply (map_each_pure_wp _ (λ i, default d ((d :: r) !! Z.to_nat i))).
    intros i Hi. unfold in_row in Hin. rewrite Forall_forall in Hin. specialize (Hin i Hi).
    rewrite decide_True by lia. unfold at_.
    destruct (lookup_lt_is_Some_2 (d :: r) (Z.to_nat i)) as [x Hx]; [lia|]. by rewrite Hx. }
  intros g s' [-> ->]. rewrite length_fmap. split_and!; [done..|]. intros j i x Hj Hx.
  rewrite list_lookup_fmap, Hj in Hx. simpl in Hx. injection Hx as <-.
  unfold in_row in Hin. rewrite Forall_forall in Hin. specialize (Hin i (list_elem_of_lookup_2 _ _ _ Hj)).
  destruct (lookup_lt_is_Some_2 (d :: r) (Z.to_nat i)) as [x Hx]; [lia|]. by rewrite Hx.
Qed.

Section scatter.
Context {A : Type} (ids : list Z) (src : list A).

Lemma scatter_snoc order j (r : list A) :
  scatter (order ++ [j]) r ids src =
  match ids !! j, src !! j with
  | Some i, Some v => <[Z.to_nat i := v]> (scatter order r ids src)
  | _, _ => scatter order r ids src
  end.
Proof. unfold scatter. by rewrite foldl_app. Qed.

Lemma scatter_length order (r : list A) : length (scatter order r ids src) = length r.
Proof.
  induction order as [|j order IH] using rev_ind; [done|]. rewrite scatter_snoc.
  repeat case_match; rewrite ?length_insert; done.
Qed.

(** An entry that no write hits. *)
Lemma scatter_miss order (r : list A) i :
  (∀ j z, j ∈ order → ids !! j = Some z → Z.to_nat z ≠ i) → scatter order r ids src !! i = r !! i.
Proof.
  induction order as [|j order IH] using rev_ind; intros H; [done|]. rewrite scatter_snoc.
  assert (scatter order r ids src !! i = r !! i) as Heq by (apply IH; set_solver).
  destruct (ids !! j) as [z|] eqn:Hz; [|done]. destruct (src !! j); [|done].
  rewrite list_lookup_insert_ne; [done|]. apply (H j); [set_solver|done].
Qed.

(** An entry that is hit, always with the same value. *)
Lemma scatter_hit order (r : list A) i v :
  i < length r → (∃ j z, j ∈ order ∧ ids !! j = Some z ∧ Z.to_nat z = i) →
  (∀ j z, j ∈ order → ids !! j = Some z → Z.to_nat z = i → src !! j = Some v) →
  scatter order r ids src !! i = Some v.
Proof.
  intros Hi. induction order as [|j order IH] using rev_ind; intros Hhit Hval; [set_solver|].
  rewrite scatter_snoc. destruct (ids !! j) as [z|] eqn:Hz.
  - destruct (decide (Z.to_nat z = i)) as [Heq|Hne].
    + rewrite (Hval j z), Heq by set_solver. apply list_lookup_insert_eq. by rewrite scatter_length.
    + assert (scatter order r ids src !! i = Some v) as Hv by (apply IH; set_solver).
      destruct (src !! j); [|done]. by rewrite list_lookup_insert_ne.
  - apply IH; set_solver.
Qed.
End scatter.

(** ** Penalties *)

Section penalties.
Context {th : Torch} {laws : TorchLaws th} (prec emax : Z).

(** The token is scored exactly once, even where the padding repeats it. *)
Lemma repetition_wp {S} pen ids logits (s : S) :
  in_row (length logits) ids →
  wp (apply_repetition_penalty prec emax pen ids logits) s (λ r s', s' = s ∧ length r = length logits ∧
    ∀ i x, logits !! i = Some x →
      r !! i = Some (if decide (Z.of_nat i ∈ ids) then repeat_score prec emax pen x else x)).
Proof using laws.
  intros Hin. unfold apply_repetition_penalty. wp_steps. eapply wp_mono; [by apply gather_wp|].
  intros g s' (->&Hl&Hg). wp_steps. split_and!; [done|apply scatter_length|]. intros i x Hx.
  unfold in_row in Hin. rewrite Forall_forall in Hin. case_decide as Hi.
  - apply scatter_hit; [by eapply lookup_lt_Some|..].
    + apply list_elem_of_lookup in Hi as [j Hj]. exists j, (Z.of_nat i). split_and!; [|done|lia].
      rewrite scatter_order_perm. apply elem_of_seq. apply lookup_lt_Some in Hj. lia.
    + intros j z _ Hj Hz. rewrite list_lookup_fmap.
      destruct (lookup_lt_is_Some_2 g j) as [y Hy]; [rewrite Hl; by eapply lookup_lt_Some|].
      rewrite Hy. simpl. pose proof (Hg _ _ _ Hj Hy) as E. rewrite Hz, Hx in E. by injection E as ->.
  - rewrite scatter_miss; [done|]. intros j z _ Hj Hz. apply Hi.
    pose proof (Hin z (list_elem_of_lookup_2 _ _ _ Hj)). replace (Z.of_nat i) with z by lia.
    by eapply list_elem_of_lookup_2.
Qed.

(** When no token is listed twice, each is scored with its count. *)
Lemma frequency_wp {S} f p ids counts logits (s : S) :
  in_row (length logits) ids → NoDup ids → length counts = length ids →
  wp (apply_frequency_presence_penalty prec emax f p ids counts logits) s (λ r s', s' = s ∧
    length r = length logits ∧
    (∀ i x, logits !! i = Some x → Z.of_nat i ∉ ids → r !! i = Some x) ∧
    (∀ j i x c, ids !! j = Some (Z.of_nat i) → counts !! j = Some c → logits !! i = Some x →
       r !! i = Some (frequency_score prec emax f p x c))).
Proof using laws.
  intros Hin Hnd Hlc. unfold apply_frequency_presence_penalty. wp_steps. eapply wp_mono; [by apply gather_wp|].
  intros g s' (->&Hl&Hg). wp_steps. unfold in_row in Hin. rewrite Forall_forall in Hin.
  split_and!; [done|apply scatter_length|..].
  - intros i x Hx Hi. rewrite scatter_miss; [done|]. intros j z _ Hj Hz. apply Hi.
    pose proof (Hin z (list_elem_of_lookup_2 _ _ _ Hj)). replace (Z.of_nat i) with z by lia.
    by eapply list_elem_of_lookup_2.
  - intros j i x c Hj Hc Hx. apply scatter_hit; [by eapply lookup_lt_Some|..].
    + exists j, (Z.of_nat i). split_and!; [|done|lia]. rewrite scatter_order_perm. apply elem_of_seq.
      apply lookup_lt_Some in Hj. lia.
    + intros j' z _ Hj' Hz. pose proof (Hin z (list_elem_of_lookup_2 _ _ _ Hj')).
      assert (j' = j) as ->. { eapply NoDup_lookup; [exact Hnd|exact Hj'|]. rewrite Hj. f_equal. lia. }
      destruct (lookup_lt_is_Some_2 g j) as [y Hy]; [rewrite Hl; by eapply lookup_lt_Some|].
      pose proof (Hg _ _ _ Hj Hy) as E. rewrite Nat2Z.id, Hx in E. injection E as ->.
      by rewrite lookup_zip_with, Hy, Hc.
Qed.
End penalties.

(** ** top_k and top_p *)

Lemma index_of_lookup i l : i ∈ l → l !! index_of i l = Some i.
Proof.
  intros Hi. unfold index_of. destruct (list_find _ l) as [[p x]|] eqn:Hf.
  - by apply list_find_Some in Hf as (?&->&_).
  - apply list_find_None in Hf. rewrite Forall_forall in Hf. by destruct (Hf i Hi).
Qed.

(** A difference of equal numbers is zero, or NaN for infinities. *)
Lemma f_sub_self prec emax x : f_sub prec emax x x = S754_nan ∨ ∃ s, f_sub prec emax x x = S754_zero s.
Proof.
  unfold f_sub. destruct x as [[]|[]| |s m e]; simpl; eauto. right. rewrite Z.sub_diag. simpl. eauto.
Qed.

Lemma SFltb_sub_self prec emax p x : SFltb p f_zero = false → SFltb p (f_sub prec emax x x) = false.
Proof.
  intros Hp. destruct (f_sub_self prec emax x) as [->|[s ->]].
  - by destruct p as [[]|[]| |[]].
  - by destruct p as [[]|[]| |[]].
Qed.

Section top.
Context {th : Torch} {laws : TorchLaws th} (prec emax : Z).

(** The rank of entry [i]: 0 is the highest score. *)
Definition rank (logits : list float) (i : nat) : nat := index_of i (th_sort_desc logits).
Definition by_rank (logits : list float) : list float :=
  (λ i, default S754_nan (logits !! i)) <$> th_sort_desc logits.
(** Whether rank [j] is cut off by [top_k], and the scores that are left. *)
Definition cut_k (k : option Z) (j : nat) : bool :=
  match k with Some k => bool_decide (0 < k ≤ Z.of_nat j)%Z | None => false end.
Definition after_k (k : option Z) (logits : list float) : list float :=
  match k with
  | Some k => masked_fill (top_k_mask k (length logits)) (by_rank logits)
  | None => by_rank logits
  end.
Definition cut_p (k : option Z) (p : option float) (logits : list float) (j : nat) : bool :=
  match p with Some p => default false (top_p_mask prec emax p (after_k k logits) !! j) | None => false end.

Lemma sort_desc_length logits : length (th_sort_desc logits) = length logits.
Proof using laws. by rewrite (Permutation_length (sort_perm logits)), length_seq. Qed.

Lemma rank_lookup logits i : i < length logits → th_sort_desc logits !! rank logits i = Some i.
Proof using laws. intros Hi. apply index_of_lookup. rewrite sort_perm. apply elem_of_seq. lia. Qed.

Lemma rank_lt logits i : i < length logits → rank logits i < length logits.
Proof using laws.
  intros Hi. rewrite <- sort_desc_length. eapply lookup_lt_Some. by apply rank_lookup.
Qed.

Lemma by_rank_lookup logits i x : logits !! i = Some x → by_rank logits !! rank logits i = Some x.
Proof using laws.
  intros Hx. unfold by_rank. rewrite list_lookup_fmap, rank_lookup by (by eapply lookup_lt_Some).
  simpl. by rewrite Hx.
Qed.

Lemma masked_fill_lookup (mask : list bool) (r : list float) j (x : float) (b : bool) : r !! j = Some x → mask !! j = Some b →
  masked_fill mask r !! j = Some (if b then neg_infinity else x).
Proof using. intros Hx Hb. unfold masked_fill. by rewrite lookup_zip_with, Hb, Hx. Qed.

Lemma after_k_lookup k logits i x : (∀ k', k = Some k' → (k' < 2 ^ 63)%Z) → logits !! i = Some x →
  (Z.of_nat (length logits) < 2 ^ 63)%Z →
  after_k k logits !! rank logits i = Some (if cut_k k (rank logits i) then neg_infinity else x).
Proof using laws.
  intros Hk Hx Hn. pose proof (by_rank_lookup _ _ _ Hx) as Hb.
  pose proof (rank_lt logits i (lookup_lt_Some _ _ _ Hx)) as Hr.
  destruct k as [k|]; [|done]. simpl. erewrite masked_fill_lookup; [|exact Hb|].
  - done.
  - unfold top_k_mask. rewrite list_lookup_fmap, lookup_seq_lt by done. simpl. f_equal.
    apply bool_decide_ext. case_decide; lia.
Qed.

Lemma after_k_length k logits : length (after_k k logits) = length logits.
Proof using laws.
  assert (Hl : length (by_rank logits) = length logits)
    by (unfold by_rank; by rewrite length_fmap, sort_desc_length).
  destruct k as [k|]; [|done]. simpl. unfold masked_fill, top_k_mask.
  rewrite length_zip_with, length_fmap, length_seq. lia.
Qed.

Lemma top_p_mask_length p l : length (top_p_mask prec emax p l) = length l.
Proof using laws.
  unfold top_p_mask. rewrite length_zip_with, cumsum_length, softmax_length. lia.
Qed.

(** The highest probability is never cut off by [top_p]. *)
Lemma top_p_mask_head p l : l ≠ [] → SFltb p f_zero = false → top_p_mask prec emax p l !! 0 = Some false.
Proof using laws.
  intros Hl Hp. unfold top_p_mask. pose proof (softmax_length l) as Hlen.
  destruct (th_softmax l) as [|x q] eqn:Hs; [by destruct l|].
  pose proof (cumsum_head x q) as Hc. destruct (th_cumsum (x :: q)) as [|y c]; [done|].
  simpl in Hc. injection Hc as ->. simpl. f_equal. by apply SFltb_sub_self.
Qed.

(** Every entry keeps its score or is cut off by its rank. *)
Lemma top_k_top_p_lookup k p logits i x :
  (∀ k', k = Some k' → (k' < 2 ^ 63)%Z) → (Z.of_nat (length logits) < 2 ^ 63)%Z → logits !! i = Some x →
  top_k_top_p prec emax k p logits !! i =
    Some (if cut_p k p logits (rank logits i) || cut_k k (rank logits i) then neg_infinity else x).
Proof using laws.
  intros Hk Hn Hx. pose proof (lookup_lt_Some _ _ _ Hx) as Hi. pose proof (rank_lt _ _ Hi) as Hr.
  unfold top_k_top_p. fold (by_rank logits).
  rewrite list_lookup_fmap. unfold argsort. rewrite list_lookup_fmap, sort_desc_length, lookup_seq_lt by done.
  simpl. fold (rank logits i). pose proof (after_k_lookup k logits i x Hk Hx Hn) as Ha.
  change (match k with Some k0 => masked_fill (top_k_mask k0 (length logits)) (by_rank logits)
          | None => by_rank logits end) with (after_k k logits).
  f_equal. destruct p as [p|]; simpl; [|by rewrite Ha].
  destruct (lookup_lt_is_Some_2 (top_p_mask prec emax p (after_k k logits)) (rank logits i)) as [b Hb].
  { by rewrite top_p_mask_length, after_k_length. }
  rewrite (masked_fill_lookup _ _ _ _ _ Ha Hb), Hb. simpl. by destruct b.
Qed.

Lemma top_k_top_p_length k p logits : length (top_k_top_p prec emax k p logits) = length logits.
Proof using laws.
  unfold top_k_top_p, argsort. by rewrite !length_fmap, length_seq, sort_desc_length.
Qed.

(** A lower rank is no smaller a score. *)
Lemma rank_ge logits i j x y : (∀ z, z ∈ logits → z ≠ S754_nan) →
  logits !! i = Some x → logits !! j = Some y → rank logits i ≤ rank logits j → SFltb x y = false.
Proof using laws.
  intros Hn Hx Hy Hle. eapply sort_desc_ge; [exact Hn|exact Hle|..|exact Hx|exact Hy];
    apply rank_lookup; by eapply lookup_lt_Some.
Qed.
End top.

(** ** The order of floating-point numbers

    [SFltb] on numbers other than NaN is the lexicographic order of a key, hence
    a strict weak order; and a plain implementation of the libtorch functions
    that sort and search by it, which satisfies their documented laws. *)

(** ** Keys *)

(** Class, exponent and mantissa, with the sign. *)
Definition key (x : float) : Z * Z * Z :=
  match x with
  | S754_nan | S754_zero _ => (0, 0, 0)
  | S754_infinity s => (if s then -2 else 2, 0, 0)
  | S754_finite s m e => if s then (-1, - e, Zneg m) else (1, e, Zpos m)
  end%Z.

Definition key_lt (a b : Z * Z * Z) : Prop :=
  (a.1.1 < b.1.1 ∨ a.1.1 = b.1.1 ∧ (a.1.2 < b.1.2 ∨ a.1.2 = b.1.2 ∧ a.2 < b.2))%Z.

#[global] Instance key_lt_dec a b : Decision (key_lt a b).
Proof. unfold key_lt. apply _. Defined.

Lemma SFltb_key x y : x ≠ S754_nan → y ≠ S754_nan → SFltb x y = bool_decide (key_lt (key x) (key y)).
Proof.
  intros Hx Hy. unfold SFltb, key_lt, SFcompare, key.
  destruct x as [[]|[]| |[] m e], y as [[]|[]| |[] m' e']; try done; simpl;
    try (destruct (Z.compare_spec e e') as [->|He|He]);
    try change (Pos.compare_cont Eq m m') with (Pos.compare m m');
    try (destruct (Pos.compare_spec m m') as [->|Hm|Hm]); simpl;
    symmetry; (apply bool_decide_eq_true_2 || apply bool_decide_eq_false_2); lia.
Qed.

(** Numbers other than NaN are comparable. *)
Lemma SFltb_weak_trans x y z : x ≠ S754_nan → y ≠ S754_nan → z ≠ S754_nan →
  SFltb x y = false → SFltb y z = false → SFltb x z = false.
Proof.
  intros Hx Hy Hz. rewrite !SFltb_key by done. rewrite !bool_decide_eq_false. unfold key_lt. lia.
Qed.

(** ** Sorting and searching *)

(** Index [i] ranks no lower than index [j]. *)
Definition ranks (l : list float) (i j : nat) : Prop :=
  ¬ key_lt (key (default S754_nan (l !! i))) (key (default S754_nan (l !! j))).

#[global] Instance ranks_dec l i j : Decision (ranks l i j).
Proof. unfold ranks. apply _. Defined.
#[global] Instance ranks_trans l : Transitive (ranks l).
Proof. intros i j k. unfold ranks, key_lt. lia. Qed.
#[global] Instance ranks_total l : Total (ranks l).
Proof. intros i j. unfold ranks, key_lt. lia. Qed.

Definition sort_desc_plain (l : list float) : list nat := merge_sort (ranks l) (seq 0 (length l)).

(** The first index that ranks no lower than all others. *)
Definition argmax_plain (l : list float) : nat :=
  match list_find (λ i, Forall (ranks l i) (seq 0 (length l))) (seq 0 (length l)) with
  | Some (i, _) => i
  | None => 0
  end.

Lemma ranks_ge l i j x y : (∀ z, z ∈ l → z ≠ S754_nan) → l !! i = Some x → l !! j = Some y →
  ranks l i j ↔ SFltb x y = false.
Proof.
  intros Hl Hi Hj. unfold ranks. rewrite Hi, Hj. simpl.
  rewrite SFltb_key by (eapply Hl, list_elem_of_lookup_2; eauto). by rewrite bool_decide_eq_false.
Qed.

(** Some element of a nonempty list ranks highest. *)
Lemma best_exists l (js : list nat) : js ≠ [] → ∃ i, i ∈ js ∧ Forall (ranks l i) js.
Proof.
  induction js as [|i js IH]; [done|]. intros _. destruct (decide (js = [])) as [->|Hne].
  { exists i. split; [by left|]. repeat constructor. unfold ranks, key_lt. lia. }
  destruct (IH Hne) as (b&Hb&Hall). destruct (decide (ranks l b i)) as [Hr|Hr].
  - exists b. split; [by right|]. by constructor.
  - destruct (total (ranks l) i b) as [Hr'|Hr']; [|done]. exists i. split; [by left|].
    constructor; [unfold ranks, key_lt; lia|]. eapply Forall_impl; [exact Hall|]. intros j. by apply ranks_trans.
Qed.

Lemma argmax_plain_best l : l ≠ [] → argmax_plain l < length l ∧
  Forall (ranks l (argmax_plain l)) (seq 0 (length l)) ∧
  ∀ j, j < argmax_plain l → ¬ Forall (ranks l j) (seq 0 (length l)).
Proof.
  intros Hl. unfold argmax_plain. destruct (list_find _ _) as [[i x]|] eqn:Hf.
  - apply list_find_Some in Hf as (Hi&Hb&Hfirst). apply lookup_seq in Hi as [-> Hi]. simpl in *.
    split_and!; [done|done|]. intros j Hj. apply (Hfirst j j); [|done]. apply lookup_seq. lia.
  - apply list_find_None in Hf. destruct (best_exists l (seq 0 (length l))) as (i&Hi&Hb).
    { destruct l; [done|]. simpl. done. }
    rewrite Forall_forall in Hf. by destruct (Hf i Hi).
Qed.

(** ** A plain libtorch *)

Definition cumsum_plain (l : list float) : list float :=
  match l with
  | [] => []
  | x :: l' => (foldl (λ p y, let s := SFadd 24 128 p.2 y in (p.1 ++ [s], s)) ([x], x) l').1
  end.

Definition plain_torch : Torch := {|
  th_softmax l := (λ _, SFdiv 24 128 (float_of_Z 1) (float_of_Z (Z.of_nat (length l)))) <$> l;
  th_log_softmax l := (λ _, float_of_Z 0) <$> l;
  th_cumsum := cumsum_plain;
  th_sum l := foldl (SFadd 24 128) (S754_zero false) l;
  th_argmax := argmax_plain;
  th_sort_desc := sort_desc_plain;
  th_topk k l := take k (sort_desc_plain l);
  th_scatter_order n := seq 0 n;
|}.

Lemma cumsum_fold (l : list float) : ∀ acc s,
  let r := (foldl (λ p y, let s := SFadd 24 128 p.2 y in (p.1 ++ [s], s)) (acc, s) l).1 in
  acc `prefix_of` r ∧ length r = length acc + length l.
Proof.
  induction l as [|y l IH]; intros acc s; simpl; [split; [done|lia]|].
  destruct (IH (acc ++ [SFadd 24 128 s y]) (SFadd 24 128 s y)) as [Hp Hl]. split.
  - etrans; [|exact Hp]. by eexists.
  - etrans; [exact Hl|]. rewrite length_app. simpl. lia.
Qed.

Lemma sort_desc_perm l : sort_desc_plain l ≡ₚ seq 0 (length l).
Proof. apply merge_sort_Permutation. Qed.

#[export] Instance plain_torch_laws : TorchLaws plain_torch.
Proof.
  split; simpl.
  - intros l. apply length_fmap.
  - intros l. apply length_fmap.
  - intros [|x l]; [done|]. simpl. by destruct (cumsum_fold l [x] x) as [_ H].
  - intros x l. destruct (cumsum_fold l [x] x) as [[k H] _]. etrans; [by apply (f_equal head H)|done].
  - intros l Hl. by apply argmax_plain_best.
  - intros l m Hn Hm j x Hj. destruct (decide (l = [])) as [->|Hl]; [done|].
    destruct (argmax_plain_best l Hl) as (Hlt&Hb&_). eapply ranks_ge; [done|exact Hm|exact Hj|].
    rewrite Forall_forall in Hb. apply Hb, elem_of_seq. apply lookup_lt_Some in Hj. lia.
  - intros l m Hn Hm j x Hj Hlt. destruct (decide (l = [])) as [->|Hl]; [done|].
    destruct (argmax_plain_best l Hl) as (_&Hb&Hfirst). destruct (SFltb x m) eqn:Hx; [done|].
    destruct (Hfirst j Hlt). apply (ranks_ge l j _ x m Hn Hj Hm) in Hx.
    eapply Forall_impl; [exact Hb|]. intros k. by apply ranks_trans.
  - apply sort_desc_perm.
  - intros l i j a b x y Hn Hij Ha Hb Hx Hy. apply (ranks_ge l a b x y Hn Hx Hy).
    assert (StronglySorted (ranks l) (sort_desc_plain l)) as Hs by (apply StronglySorted_merge_sort; apply _).
    destruct (decide (i = j)) as [->|Hne]; [simplify_eq; unfold ranks, key_lt; lia|].
    rewrite <- (take_drop (S i) (sort_desc_plain l)) in Hs.
    eapply StronglySorted_app_1_elem_of; [exact Hs|..].
    + apply list_elem_of_lookup. exists i. by rewrite lookup_take_lt by lia.
    + apply list_elem_of_lookup. exists (j - S i). rewrite lookup_drop, <- Hb. f_equal. lia.
  - intros k l Hk. rewrite length_take, (Permutation_length (sort_desc_perm l)), length_seq. lia.
  - intros k l i Hi. assert (i ∈ sort_desc_plain l) as Hin by (by eapply elem_of_sublist, sublist_take).
    rewrite sort_desc_perm in Hin. apply elem_of_seq in Hin. lia.
  - done.
Qed.
