(* ===== verification/Batch.v ===== *)
(** * Batches: data and operations

    [src/engine/batch.h] and [batch.cpp]: a batch packs the tokens of its
    sequences into the flat tensors of the model input, and distributes the
    sampled tokens back to the sequences.  A [Sequence*] is a key into a heap of
    sequences, so that the same sequence may be reached from a batch and from
    its request.  Tensors are lists. *)

From Stdlib Require Import SpecFloat.
From stdpp Require Import base tactics list gmap strings.
From S2P Require Import Prelude Slice Block Types Stopping Decoder Sequence Sampling.

(** ** The heap of sequences *)

(** Reading and writing a sequence through a pointer. *)
Class SeqHeap (K St : Type) := {
  seq_lookup : K → St → option Sequence;
  seq_update : K → Sequence → St → St;
}.

Class SeqHeapLaws (K St : Type) `{SeqHeap K St} : Prop := {
  seq_lookup_update k s st : is_Some (seq_lookup k st) → seq_lookup k (seq_update k s st) = Some s;
  seq_update_same k s st : seq_lookup k st = Some s → seq_update k s st = st;
  seq_lookup_update_ne k k' s st : k ≠ k' → seq_lookup k' (seq_update k s st) = seq_lookup k' st;
}.

(** [sequence->op()]. *)
Definition with_seq {K St A} `{SeqHeap K St} (k : K) (m : M Sequence A) : M St A :=
  st ← get;
  s ← from_option_or UseAfterFree (seq_lookup k st);
  match m s with
  | Ok (a, s') => _ ← put (seq_update k s' st); mret a
  | Fail e => fail e
  end.

(** ** Data *)

(** [class Batch]. *)
Record Batch (K : Type) := mkBatch {
  sequences_ : list K;
  token_budgets_ : list nat;
  budget_used_ : list nat;
}.
Arguments mkBatch {K} _ _ _.
Arguments sequences_ {K} _.
Arguments token_budgets_ {K} _.
Arguments budget_used_ {K} _.

Definition Batch_empty {K} : Batch K := mkBatch [] [] [].

(** [struct InputParameters] and [struct ModelInput]. *)
Record ModelInput := mkModelInput {
  mi_token_ids : list Z;
  mi_positions : list Z;
  mi_num_sequences : nat;
  mi_kv_max_seq_len : nat;
  mi_q_max_seq_len : nat;
  mi_kv_cu_seq_lens : list Z;
  mi_q_cu_seq_lens : list Z;
  mi_new_cache_slots : list Z;
  mi_block_tables : list Z;
  mi_cu_block_lens : list Z;
  mi_sampling_params : option SamplingParameters;
}.

(** [struct SampleOutput] for one token per sequence: row [i] of each tensor. *)
Record SampleOutput := mkSampleOutput {
  next_tokens : option (list Z);
  out_probs : option (list (list float));
  out_logprobs : option (list float);
  out_top_tokens : option (list (list Z));
  out_top_logprobs : option (list (list float));
}.

(** [struct SampleOutput] of a validation: several tokens per sequence. *)
Record ValidateOutput := mkValidateOutput {
  val_next_tokens : option (list (list Z));
  val_logprobs : option (list (list float));
  val_top_tokens : option (list (list (list Z)));
  val_top_logprobs : option (list (list (list float)));
}.

(** ** Packing one sequence *)

(** The vectors that [prepare_model_input] fills. *)
Record Packed := mkPacked {
  flatten_tokens_vec : list Z;
  flatten_positions_vec : list Z;
  sampling_params : list SamplingParameter;
  selected_token_idxes : list Z;
  sample_idxes : list Z;
  unique_token_ids_vec : list (list Z);
  unique_token_counts_vec : list (list Z);
  unique_token_lens_vec : list Z;
  max_seq_len : nat;
  q_max_seq_len : nat;
  cu_seq_lens : list Z;
  q_cu_seq_lens : list Z;
  new_token_slot_ids : list Z;
  block_tables : list Z;
  cu_block_lens : list Z;
}.

Definition Packed_init : Packed := mkPacked [] [] [] [] [] [] [] [] 0 0 [0%Z] [0%Z] [] [] [0%Z].

(** [v.push_back(v.back() + n)] on a vector of [int32_t] that is never empty. *)
Definition push_cu (l : list Z) (n : nat) : list Z := l ++ [i32 (List.last l 0%Z + Z.of_nat n)].

(** The first inner loop: how often each token that is processed now, from the
    last prompt token on, occurs. *)
Definition adjusted_counts (token_ids : list Z) (n_prompt n_kv seq_len : nat) : gmap Z Z :=
  foldl (λ m j, if decide (S j < n_prompt) then m
                else count_add (default 0%Z (token_ids !! j)) 1 m) ∅ (seq n_kv (seq_len - n_kv)).

(** The unique tokens and their counts before the tokens still to come. *)
Definition unique_counts (seq_counts adjusted : gmap Z Z) : list (Z * Z) :=
  omap (λ p, let c := (p.2 - default 0 (adjusted !! p.1))%Z in
             if decide (default 0 (adjusted !! p.1) < p.2)%Z then Some (p.1, c) else None)
    (map_to_list seq_counts).

(** One iteration of the second inner loop. *)
Definition pack_token (s : Sequence) (n_prompt seq_len : nat) (p : Packed * gmap Z Z) (j : nat) :
    Packed * gmap Z Z :=
  let '(a, adj) := p in
  let t := default 0%Z (token_ids s !! j) in
  let a := mkPacked (flatten_tokens_vec a ++ [t]) (flatten_positions_vec a ++ [i32 (Z.of_nat j)])
    (sampling_params a) (selected_token_idxes a) (sample_idxes a) (unique_token_ids_vec a)
    (unique_token_counts_vec a) (unique_token_lens_vec a) (max_seq_len a) (q_max_seq_len a)
    (cu_seq_lens a) (q_cu_seq_lens a) (new_token_slot_ids a) (block_tables a) (cu_block_lens a) in
  (* skip prompt tokens except the last one *)
  if decide (S j < n_prompt) then (a, adj)
  else
    (* adjust token count for current token *)
    let adj := count_add t (-1) adj in
    let uniq := unique_counts (token_to_count_map_ s) adj in
    let selected := selected_token_idxes a ++ [Z.of_nat (length (flatten_tokens_vec a) - 1)] in
    (mkPacked (flatten_tokens_vec a) (flatten_positions_vec a)
       (sampling_params a ++ [sampling_param (options_ s)]) selected
       (* sample last token in the sequence *)
       (if decide (j = seq_len - 1) then sample_idxes a ++ [Z.of_nat (length selected - 1)]
        else sample_idxes a)
       (unique_token_ids_vec a ++ [uniq.*1]) (unique_token_counts_vec a ++ [uniq.*2])
       (unique_token_lens_vec a ++ [Z.of_nat (length uniq)]) (max_seq_len a) (q_max_seq_len a)
       (cu_seq_lens a) (q_cu_seq_lens a) (new_token_slot_ids a) (block_tables a) (cu_block_lens a), adj).

(** The body of the loop over the sequences, for one sequence with [remaining]
    token budget: how much of the budget is used, and the extended vectors. *)
Definition pack_sequence (remaining : nat) (a : Packed) : M Sequence (nat * Packed) :=
  s ← get;
  let n_tokens := u32 (length (token_ids s)) in
  let n_kv := u32 (num_kv_cache_tokens s) in
  if decide (remaining = 0) then
    (* no token budget left for the prefill sequence *)
    _ ← check (is_prefill_stage s) "sequence->is_prefill_stage()";
    mret (0, a)
  else
    to_process ← sub_size n_tokens n_kv;
    let q_seq_len := Nat.min to_process remaining in
    let seq_len := q_seq_len + n_kv in
    (* check if the sequence has enough cache slots *)
    _ ← check (bool_decide (seq_len ≤ kv_cache_capacity s)) "kv_cache_capacity() >= seq_len";
    (* at least one token to process otherwise the sequence should be finished *)
    _ ← check (bool_decide (0 < q_seq_len)) "at least one token should be processed";
    let n_prompt := u32 (num_prompt_tokens_ s) in
    let adj := adjusted_counts (token_ids s) n_prompt n_kv seq_len in
    let a := (foldl (pack_token s n_prompt seq_len) (a, adj) (seq n_kv q_seq_len)).1 in
    (* commit kv cache to advance kv_cache pos in sequence *)
    _ ← commit_kv_cache q_seq_len;
    (* assign slot ids for new tokens [n_tokens_in_kvcache, total_tokens) *)
    slot_ids ← kv_cache_slots n_kv seq_len;
    (* put first slot id of each block into block_table *)
    let tables := block_tables a ++ ((λ b, i32 (id_ b * Z.of_nat (size_ b))) <$> blocks_ s) in
    mret (q_seq_len, mkPacked (flatten_tokens_vec a) (flatten_positions_vec a) (sampling_params a)
      (selected_token_idxes a) (sample_idxes a) (unique_token_ids_vec a) (unique_token_counts_vec a)
      (unique_token_lens_vec a) (Nat.max (max_seq_len a) seq_len) (Nat.max (q_max_seq_len a) q_seq_len)
      (push_cu (cu_seq_lens a) seq_len) (push_cu (q_cu_seq_lens a) q_seq_len)
      (new_token_slot_ids a ++ slot_ids) tables (cu_block_lens a ++ [i32 (Z.of_nat (length tables))])).

(** [pad_2d_vector]. *)
Definition pad_2d_vector (vec : list (list Z)) (pad_value : Z) : list (list Z) :=
  let max_col_size := foldl (λ acc row, Nat.max acc (length row)) 0 vec in
  (λ row, resize max_col_size pad_value row) <$> vec.

(** Padding the batch to the minimum decoding batch size. *)
Definition pad_one (num_decoding_tokens : nat) (a : Packed) : Packed :=
  let zeros := replicate num_decoding_tokens 0%Z in
  mkPacked (flatten_tokens_vec a ++ zeros) (flatten_positions_vec a ++ zeros) (sampling_params a)
    (selected_token_idxes a) (sample_idxes a) (unique_token_ids_vec a) (unique_token_counts_vec a)
    (unique_token_lens_vec a) (max_seq_len a) (q_max_seq_len a)
    (push_cu (cu_seq_lens a) num_decoding_tokens) (push_cu (q_cu_seq_lens a) num_decoding_tokens)
    (new_token_slot_ids a ++ zeros) (block_tables a ++ zeros)
    (push_cu (cu_block_lens a) num_decoding_tokens).

Definition pad_batch (num_sequences num_decoding_tokens min_decoding_batch_size : nat) (a : Packed) : Packed :=
  if decide (num_sequences < min_decoding_batch_size) then
    let same_num_decoding_tokens :=
      bool_decide (q_max_seq_len a = num_decoding_tokens) &&
      bool_decide (length (flatten_tokens_vec a) = num_sequences * num_decoding_tokens) in
    if (same_num_decoding_tokens : bool)
    then Nat.iter (min_decoding_batch_size - num_sequences) (pad_one num_decoding_tokens) a
    else a
  else a.

(** ** Tokens of the sample output *)

(** [Batch::build_token]. *)
Definition build_token {S} (index : nat) (token_ids : list Z) (logprobs : option (list float))
    (top_tokens : option (list (list Z))) (top_logprobs : option (list (list float))) : M S Token :=
  t ← at_ token_ids index;
  match logprobs with
  | None => mret (Token_of_id t)
  | Some lps =>
      lp ← at_ lps index;
      match top_tokens, top_logprobs with
      | Some tts, Some tls =>
          tt ← at_ tts index;
          tl ← at_ tls index;
          mret (mkToken t (Some lp) tt tl)
      | _, _ => mret (mkToken t (Some lp) [] [])
      end
  end.

Section batch.
Context {K St : Type} `{SeqHeap K St}.

(** [Batch::add(Sequence*, uint32_t)]. *)
Definition add (k : K) (token_budget : nat) : M (Batch K * St) unit :=
  fin ← on_snd (with_seq k is_finished);
  _ ← check (negb fin) "!sequence->is_finished()";
  let token_budget := u32 token_budget in
  _ ← check (bool_decide (0 < token_budget)) "token_budget > 0";
  on_fst (modify (λ b, mkBatch (sequences_ b ++ [k]) (token_budgets_ b ++ [token_budget])
                         (budget_used_ b ++ [0]))).

(** [Batch::add(const std::vector<Sequence*>&)]: the default budget is the
    largest [uint32_t]. *)
Definition add_all (ks : list K) : M (Batch K * St) unit :=
  for_each (λ k, add k (N.to_nat (2 ^ 32 - 1)%N)) ks.

(** [Batch::clear] and [Batch::reset]. *)
Definition clear : M (Batch K * St) unit := on_fst (put Batch_empty).
Definition reset (ks : list K) : M (Batch K * St) unit := _ ← clear; add_all ks.

(** [Batch::set_engine_type]. *)
Definition batch_set_engine_type (e : EngineType) : M (Batch K * St) unit :=
  p ← get;
  _ ← on_snd (for_each (λ k, with_seq k (set_engine_type e)) (sequences_ p.1));
  on_fst (modify (λ b, mkBatch (sequences_ b) (token_budgets_ b) ((λ _, 0) <$> budget_used_ b))).

(** The loop of [prepare_model_input]: sequence [i] of the batch. *)
Definition pack_index (a : Packed) (i : nat) : M (Batch K * St) Packed :=
  p ← get;
  let b := p.1 in
  k ← at_ (sequences_ b) i;
  budget ← at_ (token_budgets_ b) i;
  used ← at_ (budget_used_ b) i;
  remaining ← sub_size budget used;
  r ← on_snd (with_seq k (pack_sequence remaining a));
  (* update budget used *)
  _ ← on_fst (put (mkBatch (sequences_ b) (token_budgets_ b) (<[i := used + r.1]> (budget_used_ b))));
  mret r.2.

Fixpoint pack_all (a : Packed) (idxs : list nat) : M (Batch K * St) Packed :=
  match idxs with
  | [] => mret a
  | i :: idxs' => a' ← pack_index a i; pack_all a' idxs'
  end.

(** [Batch::prepare_model_input]; [None] is the empty [ModelInput]. *)
Definition prepare_model_input (num_decoding_tokens min_decoding_batch_size : nat) :
    M (Batch K * St) (option ModelInput) :=
  p ← get;
  let num_sequences := length (sequences_ p.1) in
  a ← pack_all Packed_init (seq 0 num_sequences);
  match flatten_tokens_vec a with
  | [] => mret None
  | _ =>
      let a := pad_batch num_sequences num_decoding_tokens min_decoding_batch_size a in
      _ ← check (bool_decide (length (sampling_params a) = length (selected_token_idxes a)))
            "sampling_params.size() == selected_token_idxes.size()";
      sp ← (if decide (selected_token_idxes a = []) then mret None
            else
              r ← SamplingParameters_init (sampling_params a) (selected_token_idxes a) (sample_idxes a)
                (pad_2d_vector (unique_token_ids_vec a) 0) (pad_2d_vector (unique_token_counts_vec a) 0)
                (unique_token_lens_vec a);
              mret (Some r));
      mret (Some (mkModelInput (flatten_tokens_vec a) (flatten_positions_vec a) num_sequences
        (max_seq_len a) (q_max_seq_len a) (cu_seq_lens a) (q_cu_seq_lens a)
        (new_token_slot_ids a) (block_tables a) (cu_block_lens a) sp))
  end.

(** The loop of [process_sample_output]; returns [output_idx]. *)
Fixpoint append_tokens (o : SampleOutput) (tokens : list Z) (ks : list K) (output_idx : nat) :
    M St nat :=
  match ks with
  | [] => mret output_idx
  | k :: ks' =>
      prefill ← with_seq k (gets is_prefill_stage);
      (* no sampling for prefill sequences *)
      if (prefill : bool) then append_tokens o tokens ks' output_idx
      else
        _ ← check (bool_decide (output_idx < length tokens)) "output_idx < num_seqs";
        token ← build_token output_idx tokens (out_logprobs o) (out_top_tokens o) (out_top_logprobs o);
        (* add the next token to sequence *)
        _ ← with_seq k (append_token token);
        append_tokens o tokens ks' (S output_idx)
  end.

(** [Batch::process_sample_output]. *)
Definition process_sample_output (o : SampleOutput) : M (Batch K * St) unit :=
  p ← get;
  (* it is possible that the model output is empty for prefill sequences *)
  match next_tokens o with
  | None => mret tt
  | Some tokens =>
      idx ← on_snd (append_tokens o tokens (sequences_ p.1) 0);
      check (bool_decide (idx = length tokens)) "output_idx == num_seqs"
  end.

(** Row [i] of a tensor that may be undefined. *)
Definition row {S A} (t : option (list A)) (i : nat) : M S (option A) :=
  match t with
  | None => mret None
  | Some l => x ← at_ l i; mret (Some x)
  end.

(** The loop of [process_validate_output]. *)
Fixpoint validate_all (o : ValidateOutput) (tokens : list (list Z)) (ks : list K) (output_idx : nat) :
    M St nat :=
  match ks with
  | [] => mret output_idx
  | k :: ks' =>
      prefill ← with_seq k (gets is_prefill_stage);
      if (prefill : bool) then validate_all o tokens ks' output_idx
      else
        _ ← check (bool_decide (output_idx < length tokens)) "output_idx < num_seqs";
        curr_next_tokens ← at_ tokens output_idx;
        curr_logprobs ← row (val_logprobs o) output_idx;
        curr_top_tokens ← row (val_top_tokens o) output_idx;
        curr_top_logprobs ← row (val_top_logprobs o) output_idx;
        ts ← map_each (λ i, build_token i curr_next_tokens curr_logprobs curr_top_tokens curr_top_logprobs)
               (seq 0 (length curr_next_tokens));
        (* validate the draft tokens with accepted tokens *)
        _ ← with_seq k (validate_tokens ts);
        validate_all o tokens ks' (S output_idx)
  end.

(** [Batch::process_validate_output]. *)
Definition process_validate_output (o : ValidateOutput) : M (Batch K * St) unit :=
  p ← get;
  match val_next_tokens o with
  | None => mret tt
  | Some tokens =>
      idx ← on_snd (validate_all o tokens (sequences_ p.1) 0);
      check (bool_decide (idx = length tokens)) "output_idx == num_seqs"
  end.
End batch.
