(* ===== verification/BatchInv.v ===== *)
(** * Batches: what the model input contains

    [prepare_model_input] on sequences that the scheduler gave blocks to does not
    fail; its flat vectors are the concatenation, over the sequences, of the
    tokens that were not processed yet, with their positions and cache slots, and
    exactly the sequences that reach the end of their prompt are sampled. *)

From Stdlib Require Import SpecFloat.
From stdpp Require Import base tactics list gmap strings.
From S2P Require Import Prelude Slice Block Types Stopping Decoder Sequence SequenceInv Sampling.
From S2P Require Import Batch.

(** ** Pointers *)

Section heap.
Context {K St : Type} `{SeqHeap K St}.

Lemma with_seq_wp {A} k (m : M Sequence A) st s Q :
  seq_lookup k st = Some s →
  wp m s (λ a s', Q a (seq_update k s' st)) → wp (with_seq k m) st Q.
Proof.
  intros Hk Hm. unfold with_seq. wp_steps; [exact Hk|]. unfold wp in Hm |- *.
  destruct (m s) as [[a s']|]; [|done]. done.
Qed.
End heap.

(** ** One sequence *)

(** How many of the positions [j0 .. j0 + len) are selected: those from the last
    prompt token on. *)
Definition selected (np j0 len : nat) : nat := (j0 + len) - Nat.max j0 (np - 1).

(** What [pack_token] adds over the positions [j0 .. j0 + len). *)
Record packs_tokens (s : Sequence) (np sl j0 len : nat) (a a' : Packed) : Prop := {
  pt_tokens : flatten_tokens_vec a' = flatten_tokens_vec a ++ take len (drop j0 (token_ids s));
  pt_positions : flatten_positions_vec a' = flatten_positions_vec a ++ (Z.of_nat <$> seq j0 len);
  pt_params : sampling_params a' =
    sampling_params a ++ replicate (selected np j0 len) (sampling_param (options_ s));
  pt_selected : length (selected_token_idxes a') = length (selected_token_idxes a) + selected np j0 len;
  pt_ids : length (unique_token_ids_vec a') = length (unique_token_ids_vec a) + selected np j0 len;
  pt_counts : length (unique_token_counts_vec a') = length (unique_token_counts_vec a) + selected np j0 len;
  pt_lens : length (unique_token_lens_vec a') = length (unique_token_lens_vec a) + selected np j0 len;
  pt_samples : ∃ l, sample_idxes a' = sample_idxes a ++ l ∧
    length l = (if decide (j0 < sl ≤ j0 + len ∧ np ≤ sl) then 1 else 0) ∧
    Forall (λ i, 0 ≤ i < Z.of_nat (length (selected_token_idxes a')))%Z l;
  pt_rest : max_seq_len a' = max_seq_len a ∧ q_max_seq_len a' = q_max_seq_len a ∧
    cu_seq_lens a' = cu_seq_lens a ∧ q_cu_seq_lens a' = q_cu_seq_lens a ∧
    new_token_slot_ids a' = new_token_slot_ids a ∧ block_tables a' = block_tables a ∧
    cu_block_lens a' = cu_block_lens a;
}.

Lemma packs_tokens_nil s np sl j0 a : packs_tokens s np sl j0 0 a a.
Proof.
  assert (selected np j0 0 = 0) as Hs by (unfold selected; lia).
  split; rewrite ?Hs; simpl; rewrite ?app_nil_r, ?Nat.add_0_r; try done.
  exists []. rewrite app_nil_r, decide_False by lia. done.
Qed.

(** One more token in front. *)
Lemma pack_token_one s np sl j0 a adj :
  0 < np → j0 < length (token_ids s) → (Z.of_nat j0 < 2 ^ 31)%Z → j0 < sl →
  packs_tokens s np sl j0 1 a (pack_token s np sl (a, adj) j0).1.
Proof.
  intros Hnp Hj Hz Hsl. destruct (lookup_lt_is_Some_2 (token_ids s) j0 Hj) as [t Ht].
  assert (take 1 (drop j0 (token_ids s)) = [t]) as Htake by (by rewrite (drop_S _ _ _ Ht)).
  assert (i32 (Z.of_nat j0) = Z.of_nat j0) as Hi by (apply i32_id; lia).
  unfold pack_token. rewrite Ht. simpl. case_decide as Hp.
  - assert (selected np j0 1 = 0) as Hsel by (unfold selected; lia).
    split; simpl; rewrite ?Hsel, ?Htake, ?Hi, ?Nat.add_0_r; simpl; rewrite ?app_nil_r; try done.
    exists []. rewrite app_nil_r, decide_False by lia. done.
  - assert (selected np j0 1 = 1) as Hsel by (unfold selected; lia).
    split; simpl; rewrite ?Hsel, ?Htake, ?Hi, ?length_app; simpl; try done.
    destruct (decide (j0 = sl - 1)) as [->|Hne].
    + eexists. split; [done|]. rewrite decide_True by lia. split; [done|].
      apply Forall_singleton. lia.
    + exists []. rewrite app_nil_r, decide_False by lia. done.
Qed.

Lemma packs_tokens_trans s np sl j0 k1 k2 a a1 a2 :
  packs_tokens s np sl j0 k1 a a1 → packs_tokens s np sl (j0 + k1) k2 a1 a2 →
  packs_tokens s np sl j0 (k1 + k2) a a2.
Proof.
  intros [A1 A2 A3 A4 A5 A6 A7 (l1&A8&A9&A10) A11] [B1 B2 B3 B4 B5 B6 B7 (l2&B8&B9&B10) B11].
  assert (selected np j0 (k1 + k2) = selected np j0 k1 + selected np (j0 + k1) k2) as Hs
    by (unfold selected; lia).
  split; rewrite ?Hs; try lia.
  - rewrite B1, A1, <- app_assoc. f_equal. by rewrite <- drop_drop, take_take_drop.
  - rewrite B2, A2, <- app_assoc, seq_app, fmap_app. done.
  - rewrite B3, A3, <- app_assoc, replicate_add. done.
  - exists (l1 ++ l2). rewrite B8, A8, app_assoc, length_app, A9, B9. split_and!; [done| |].
    + repeat case_decide; lia.
    + apply Forall_app. split; [|done]. eapply Forall_impl; [exact A10|]. simpl. lia.
  - destruct A11 as (?&?&?&?&?&?&?), B11 as (?&?&?&?&?&?&?). split_and!; congruence.
Qed.

Lemma pack_tokens_fold s np sl len : ∀ j0 a adj,
  0 < np → j0 + len ≤ length (token_ids s) → (Z.of_nat (j0 + len) ≤ 2 ^ 31)%Z → j0 + len ≤ sl →
  packs_tokens s np sl j0 len a (foldl (pack_token s np sl) (a, adj) (seq j0 len)).1.
Proof.
  induction len as [|len IH]; intros j0 a adj Hnp Hj Hz Hsl; [apply packs_tokens_nil|].
  cbn [seq foldl]. destruct (pack_token s np sl (a, adj) j0) as [a1 adj1] eqn:E.
  pose proof (pack_token_one s np sl j0 a adj Hnp ltac:(lia) ltac:(lia) ltac:(lia)) as H1.
  rewrite E in H1. change (S len) with (1 + len).
  eapply packs_tokens_trans; [exact H1|]. rewrite Nat.add_1_r. apply IH; lia.
Qed.

(** ** The whole batch *)

(** The part of a sequence that one batch processes. *)
Record Chunk := mkChunk { ck_seq : Sequence; ck_len : nat }.

Definition ck_start (c : Chunk) : nat := num_kv_cache_tokens (ck_seq c).
Definition ck_end (c : Chunk) : nat := ck_start c + ck_len c.
Definition chunk_tokens (c : Chunk) : list Z := take (ck_len c) (drop (ck_start c) (token_ids (ck_seq c))).
Definition chunk_positions (c : Chunk) : list Z := Z.of_nat <$> seq (ck_start c) (ck_len c).
Definition chunk_slots (bs : nat) (c : Chunk) : list (option Z) :=
  slot_of (blocks_ (ck_seq c)) bs <$> seq (ck_start c) (ck_len c).
(** The sequence reaches the end of its prompt, so a token is sampled for it. *)
Definition sampled (c : Chunk) : Prop := num_prompt_tokens_ (ck_seq c) ≤ ck_end c.
#[global] Instance sampled_dec c : Decision (sampled c).
Proof. unfold sampled. apply _. Defined.

Fixpoint prefix_sums (acc : nat) (l : list nat) : list nat :=
  acc :: match l with [] => [] | x :: l' => prefix_sums (acc + x) l' end.

Lemma prefix_sums_snoc l : ∀ acc x,
  prefix_sums acc (l ++ [x]) = prefix_sums acc l ++ [acc + sum_list l + x].
Proof.
  induction l as [|y l IH]; intros acc x; simpl; [by rewrite Nat.add_0_r|].
  rewrite IH. simpl. do 3 f_equal. lia.
Qed.

Lemma last_prefix_sums l : ∀ acc,
  List.last (Z.of_nat <$> prefix_sums acc l) 0%Z = Z.of_nat (acc + sum_list l).
Proof.
  induction l as [|y l IH]; intros acc; [simpl; lia|].
  change (List.last (Z.of_nat <$> prefix_sums acc (y :: l)) 0%Z)
    with (List.last (Z.of_nat acc :: (Z.of_nat <$> prefix_sums (acc + y) l)) 0%Z).
  transitivity (List.last (Z.of_nat <$> prefix_sums (acc + y) l) 0%Z).
  - by destruct l.
  - rewrite IH. simpl. lia.
Qed.

Lemma push_cu_sums l x :
  (Z.of_nat (sum_list l + x) < 2 ^ 31)%Z →
  push_cu (Z.of_nat <$> prefix_sums 0 l) x = Z.of_nat <$> prefix_sums 0 (l ++ [x]).
Proof.
  intros Hb. unfold push_cu. rewrite last_prefix_sums, prefix_sums_snoc, fmap_app. simpl.
  do 2 f_equal. rewrite i32_id by lia. lia.
Qed.

Definition sum_selected (cs : list Chunk) : nat :=
  sum_list ((λ c, selected (num_prompt_tokens_ (ck_seq c)) (ck_start c) (ck_len c)) <$> cs).

(** The sampling parameters of the selected tokens. *)
Definition chunk_params (c : Chunk) : list SamplingParameter :=
  replicate (selected (num_prompt_tokens_ (ck_seq c)) (ck_start c) (ck_len c))
    (sampling_param (options_ (ck_seq c))).
Definition batch_params (cs : list Chunk) : list SamplingParameter := concat (chunk_params <$> cs).

Lemma batch_params_length cs : length (batch_params cs) = sum_selected cs.
Proof.
  induction cs as [|c cs IH]; [done|]. unfold batch_params in *. rewrite fmap_cons. simpl.
  rewrite length_app, IH. unfold chunk_params. by rewrite length_replicate.
Qed.

(** The vectors hold exactly these chunks. *)
Record packs (bs : nat) (cs : list Chunk) (a : Packed) : Prop := {
  pk_tokens : flatten_tokens_vec a = concat (chunk_tokens <$> cs);
  pk_positions : flatten_positions_vec a = concat (chunk_positions <$> cs);
  pk_slots : Some <$> new_token_slot_ids a = concat (chunk_slots bs <$> cs);
  pk_cu : cu_seq_lens a = Z.of_nat <$> prefix_sums 0 (ck_end <$> cs);
  pk_q_cu : q_cu_seq_lens a = Z.of_nat <$> prefix_sums 0 (ck_len <$> cs);
  pk_params : sampling_params a = batch_params cs;
  pk_selected : length (selected_token_idxes a) = sum_selected cs;
  pk_ids : length (unique_token_ids_vec a) = sum_selected cs;
  pk_counts : length (unique_token_counts_vec a) = sum_selected cs;
  pk_lens : length (unique_token_lens_vec a) = sum_selected cs;
  pk_samples : length (sample_idxes a) = length (filter sampled cs);
  pk_sample_bound : Forall (λ i, 0 ≤ i < Z.of_nat (sum_selected cs))%Z (sample_idxes a);
  pk_max : Forall (λ c, ck_end c ≤ max_seq_len a ∧ ck_len c ≤ q_max_seq_len a) cs;
}.

Lemma packs_init bs : packs bs [] Packed_init.
Proof. split; try done. Qed.

(** The sequence may run with a budget of [m] tokens. *)
Record ready (bs m : nat) (s : Sequence) : Prop := {
  rd_inv : seq_inv s;
  rd_kv : num_kv_cache_tokens s < num_tokens_ s;
  rd_cap : Nat.min (num_tokens_ s) (num_kv_cache_tokens s + m) ≤ length (blocks_ s) * bs;
  rd_fit : slots_fit (blocks_ s) bs;
  rd_small : (Z.of_nat (num_tokens_ s) < 2 ^ 31)%Z;
}.

Definition chunk_of (m : nat) (s : Sequence) : Chunk :=
  mkChunk s (Nat.min (num_tokens_ s - num_kv_cache_tokens s) m).

(** The sequence after its chunk was processed. *)
Definition advance (m : nat) (s : Sequence) : Sequence :=
  set_kv_tokens (kv_set (engine_type_ s) (ck_end (chunk_of m s)) (num_kv_cache_tokens_ s)) s.

Lemma packs_snoc bs cs c a a1 slots :
  packs bs cs a →
  packs_tokens (ck_seq c) (num_prompt_tokens_ (ck_seq c)) (ck_end c) (ck_start c) (ck_len c) a a1 →
  0 < ck_len c → Some <$> slots = chunk_slots bs c →
  (Z.of_nat (sum_list (ck_end <$> cs) + ck_end c) < 2 ^ 31)%Z →
  (Z.of_nat (sum_list (ck_len <$> cs) + ck_len c) < 2 ^ 31)%Z →
  ∀ bt cb, packs bs (cs ++ [c]) (mkPacked (flatten_tokens_vec a1) (flatten_positions_vec a1)
    (sampling_params a1) (selected_token_idxes a1) (sample_idxes a1) (unique_token_ids_vec a1)
    (unique_token_counts_vec a1) (unique_token_lens_vec a1) (Nat.max (max_seq_len a1) (ck_end c))
    (Nat.max (q_max_seq_len a1) (ck_len c)) (push_cu (cu_seq_lens a1) (ck_end c))
    (push_cu (q_cu_seq_lens a1) (ck_len c)) (new_token_slot_ids a1 ++ slots) bt cb).
Proof.
  intros [P1 P2 P3 P4 P5 P6 P7 P8 P9 P10 P11 P12 P13]
    [T1 T2 T3 T4 T5 T6 T7 (l&T8&T9&T10) (R1&R2&R3&R4&R5&R6&R7)] Hlen Hslots Hb1 Hb2 bt cb.
  assert (sum_selected (cs ++ [c]) = sum_selected cs +
    selected (num_prompt_tokens_ (ck_seq c)) (ck_start c) (ck_len c)) as Hsum.
  { unfold sum_selected. rewrite fmap_app, sum_list_with_app. simpl. lia. }
  split; simpl; rewrite ?fmap_app, ?concat_app, ?Hsum; simpl; rewrite ?app_nil_r.
  - by rewrite T1, P1.
  - by rewrite T2, P2.
  - by rewrite R5, P3, Hslots.
  - rewrite R3, P4. by rewrite push_cu_sums.
  - rewrite R4, P5. by rewrite push_cu_sums.
  - unfold batch_params in *. rewrite T3, P6, fmap_app, concat_app. simpl. by rewrite app_nil_r.
  - lia.
  - lia.
  - lia.
  - lia.
  - rewrite T8, length_app, T9, P11, filter_app, length_app, filter_cons.
    unfold ck_end in *. repeat case_decide; unfold sampled, ck_end in *; simpl in *; lia.
  - rewrite T8. apply Forall_app. split.
    + eapply Forall_impl; [exact P12|]. simpl. lia.
    + eapply Forall_impl; [exact T10|]. simpl. lia.
  - apply Forall_app. split.
    + eapply Forall_impl; [exact P13|]. simpl. lia.
    + apply Forall_singleton. lia.
Qed.

Lemma sum_len_le_end cs : sum_list (ck_len <$> cs) ≤ sum_list (ck_end <$> cs).
Proof.
  induction cs as [|x cs IH]; [done|]. assert (ck_len x ≤ ck_end x) by (unfold ck_end; lia).
  rewrite !fmap_cons. simpl in *. lia.
Qed.

Lemma pack_sequence_wp bs m s cs a :
  0 < bs → 0 < m → ready bs m s → packs bs cs a →
  let c := chunk_of m s in
  (Z.of_nat (sum_list (ck_end <$> cs) + ck_end c) < 2 ^ 31)%Z →
  wp (pack_sequence m a) s (λ r s', s' = advance m s ∧ r.1 = ck_len c ∧ packs bs (cs ++ [c]) r.2).
Proof.
  intros Hbs Hm [HI Hkv Hcap Hfit Hsmall] Hp c Hsum.
  pose proof (si_prompt _ HI) as Hprompt. pose proof (si_capacity _ HI) as Hc.
  assert (length (token_ids s) = num_tokens_ s) as Hlen by (unfold token_ids; rewrite length_take; lia).
  pose proof (sum_len_le_end cs) as Hle.
  assert (ck_len c ≤ ck_end c) as Hlc by (unfold ck_end; lia).
  assert (blocks_ s ≠ []) as Hne.
  { intros Heq. rewrite Heq in Hcap. simpl in Hcap. lia. }
  assert (kv_cache_capacity s = length (blocks_ s) * bs) as Hkc.
  { unfold kv_cache_capacity. destruct (blocks_ s) as [|b0 bl] eqn:Hbl; [done|].
    apply Forall_cons in Hfit as [[-> _] _]. done. }
  unfold pack_sequence. wp_steps. rewrite decide_False by lia.
  rewrite Hlen, !u32_id by lia. wp_steps; [lia|..].
  { apply bool_decide_eq_true_2. lia. }
  { apply bool_decide_eq_true_2. lia. }
  fold c. change (Nat.min (num_tokens_ s - num_kv_cache_tokens s) m) with (ck_len c).
  replace (ck_len c + num_kv_cache_tokens s) with (ck_end c) by (unfold ck_end, ck_start; simpl; lia).
  assert (ck_end c ≤ num_tokens_ s) as Hend by (unfold ck_end, ck_start; simpl; lia).
  eapply wp_mono; [apply commit_kv_cache_wp; rewrite Hkc; unfold ck_end, ck_start in *; simpl in *; lia|].
  intros _ s' ->. wp_steps.
  eapply wp_mono; [apply (kv_cache_slots_wp _ bs); [done|done|done|unfold ck_end, ck_start in *; simpl in *; lia]|].
  intros slots s' (->&Hsl&Hslots). wp_steps. split_and!; [done|done|]. simpl.
  set (a1 := foldl _ _ _).
  change (pack_token s (num_prompt_tokens_ s) (ck_end c)) with
    (pack_token (ck_seq c) (num_prompt_tokens_ (ck_seq c)) (ck_end c)) in a1.
  eapply packs_snoc; [done| | | |done|lia].
  - unfold a1. apply pack_tokens_fold; unfold ck_end, ck_start in *; simpl in *; lia.
  - simpl. lia.
  - apply list_eq. intros i. unfold chunk_slots. rewrite !list_lookup_fmap.
    destruct (decide (i < ck_len c)) as [Hi|Hi].
    + rewrite lookup_seq_lt by done. simpl.
      specialize (Hslots (ck_start c + i)). unfold ck_end, ck_start in *. simpl in *.
      rewrite <- Hslots by lia. replace (_ + i - _) with i by lia.
      destruct (lookup_lt_is_Some_2 slots i) as [x ->]; [lia|done].
    + rewrite lookup_seq_ge by lia. rewrite lookup_ge_None_2; [done|].
      rewrite Hsl. unfold ck_end, ck_start in *. simpl in *. lia.
Qed.

(** ** Padding *)

(** Every row gets the length of the longest. *)
Lemma pad_2d_vector_rows vec x :
  ∃ k, Forall (λ r, length r = k) (pad_2d_vector vec x) ∧ length (pad_2d_vector vec x) = length vec.
Proof.
  unfold pad_2d_vector. eexists. split; [|by rewrite length_fmap].
  apply Forall_fmap, Forall_true. intros r. simpl. by rewrite length_resize.
Qed.

(** Padding appends zeros to the token vectors and leaves the samples alone. *)
Record padded (k : nat) (a a' : Packed) : Prop := {
  pd_tokens : flatten_tokens_vec a' = flatten_tokens_vec a ++ replicate k 0%Z;
  pd_positions : flatten_positions_vec a' = flatten_positions_vec a ++ replicate k 0%Z;
  pd_slots : new_token_slot_ids a' = new_token_slot_ids a ++ replicate k 0%Z;
  pd_samples : sampling_params a' = sampling_params a ∧ selected_token_idxes a' = selected_token_idxes a ∧
    sample_idxes a' = sample_idxes a ∧ unique_token_ids_vec a' = unique_token_ids_vec a ∧
    unique_token_counts_vec a' = unique_token_counts_vec a ∧
    unique_token_lens_vec a' = unique_token_lens_vec a;
}.

Lemma padded_refl a : padded 0 a a.
Proof. split; simpl; by rewrite ?app_nil_r. Qed.

Lemma pad_batch_padded n d m a :
  ∃ k, padded k a (pad_batch n d m a) ∧ (m ≤ n → pad_batch n d m a = a) ∧
    (k = 0 ∨ (k = (m - n) * d ∧ length (flatten_tokens_vec a) = n * d)).
Proof.
  unfold pad_batch. case_decide as Hlt; [|exists 0; split_and!; [apply padded_refl|done|by left]].
  case_match eqn:Hc; [|exists 0; split_and!; [apply padded_refl|done|by left]].
  apply andb_true_iff in Hc as [_ Hlen%bool_decide_eq_true].
  exists ((m - n) * d). split_and!; [|lia|by right]. clear Hlt Hlen.
  induction (m - n) as [|i [I1 I2 I3 I4]]; [apply padded_refl|]. cbn [Nat.iter].
  rewrite Nat.mul_succ_l. split; simpl; rewrite ?replicate_add, ?app_assoc; congruence.
Qed.

(** ** The loop over the sequences *)

(** An entry of a batch: the pointer, the budget and the sequence behind it. *)
Record Job (K : Type) := mkJob { jb_key : K; jb_budget : nat; jb_seq : Sequence }.
Arguments mkJob {K} _ _ _.
Arguments jb_key {K} _.
Arguments jb_budget {K} _.
Arguments jb_seq {K} _.

Definition job_chunk {K} (j : Job K) : Chunk := chunk_of (jb_budget j) (jb_seq j).

Section prepare.
Context {K St : Type} `{HS : SeqHeap K St} {HL : SeqHeapLaws K St}.

(** The heap after every job's sequence advanced. *)
Definition advance_all (js : list (Job K)) (st : St) : St :=
  foldl (λ st j, seq_update (jb_key j) (advance (jb_budget j) (jb_seq j)) st) st js.

Definition jobs_ready (bs : nat) (js : list (Job K)) (st : St) : Prop :=
  Forall (λ j, seq_lookup (jb_key j) st = Some (jb_seq j) ∧ 0 < jb_budget j ∧
            ready bs (jb_budget j) (jb_seq j)) js.

Lemma jobs_ready_update bs k s js st :
  k ∉ (jb_key <$> js) → jobs_ready bs js st → jobs_ready bs js (seq_update k s st).
Proof using HL.
  unfold jobs_ready. rewrite !Forall_forall. intros Hk Hr j Hj. destruct (Hr j Hj) as (Hl&?&?).
  split_and!; [|done..]. rewrite seq_lookup_update_ne; [done|].
  intros ->. apply Hk. by apply list_elem_of_fmap_2.
Qed.

Lemma pack_all_wp bs js : ∀ ks ms us st cs a,
  0 < bs → length ms = length ks → length us = length ks →
  NoDup (jb_key <$> js) → jobs_ready bs js st → packs bs cs a →
  (Z.of_nat (sum_list (ck_end <$> cs) + sum_list (ck_end <$> (job_chunk <$> js))) < 2 ^ 31)%Z →
  wp (pack_all a (seq (length ks) (length js)))
    (mkBatch (ks ++ (jb_key <$> js)) (ms ++ (jb_budget <$> js)) (us ++ replicate (length js) 0), st)
    (λ a' p, packs bs (cs ++ (job_chunk <$> js)) a' ∧ p.2 = advance_all js st ∧
       p.1 = mkBatch (ks ++ (jb_key <$> js)) (ms ++ (jb_budget <$> js))
               (us ++ (ck_len ∘ job_chunk <$> js))).
Proof using HL.
  induction js as [|j js IH]; intros ks ms us st cs a Hbs Hms Hus Hnd Hr Hp Hsum.
  { apply wp_ret. simpl. by rewrite !app_nil_r. }
  apply NoDup_cons in Hnd as [Hj Hnd]. apply Forall_cons in Hr as [(Hl&Hm&Hrd) Hr].
  rewrite !fmap_cons in *. simpl in Hsum. change (length (j :: js)) with (S (length js)).
  cbn [seq pack_all replicate]. apply wp_bind. unfold pack_index, at_. wp_steps; simpl.
  { apply list_lookup_middle. done. }
  { apply list_lookup_middle. lia. }
  { apply list_lookup_middle. lia. }
  { lia. }
  rewrite Nat.sub_0_r. apply wp_on_snd. eapply with_seq_wp; [exact Hl|].
  eapply wp_mono; [apply (pack_sequence_wp bs (jb_budget j) (jb_seq j) cs a Hbs Hm Hrd Hp)|].
  { change (chunk_of (jb_budget j) (jb_seq j)) with (job_chunk j). lia. }
  intros [q a'] s' (->&Hq&Hp'). simpl in Hq, Hp'. subst q. wp_steps. apply wp_on_fst. wp_steps.
  change (chunk_of (jb_budget j) (jb_seq j)) with (job_chunk j) in *.
  replace (<[length ks:=ck_len (job_chunk j)]> (us ++ 0 :: replicate (length js) 0)) with
    ((us ++ [ck_len (job_chunk j)]) ++ replicate (length js) 0).
  2:{ rewrite <- Hus, insert_app_r_alt by lia. rewrite Nat.sub_diag. simpl. by rewrite <- app_assoc. }
  specialize (IH (ks ++ [jb_key j]) (ms ++ [jb_budget j]) (us ++ [ck_len (job_chunk j)])
    (seq_update (jb_key j) (advance (jb_budget j) (jb_seq j)) st) (cs ++ [job_chunk j]) a').
  rewrite !length_app in IH. simpl in IH. rewrite !Nat.add_1_r, <- !app_assoc in IH. simpl in IH.
  rewrite <- !app_assoc. simpl.
  eapply wp_mono; [apply IH|].
  - done.
  - by rewrite Hms.
  - by rewrite Hus.
  - done.
  - by apply jobs_ready_update.
  - done.
  - rewrite fmap_app, sum_list_with_app. simpl. lia.
  - intros a2 p (H1&H2&H3). split_and!; [|done|done]. done.
Qed.

(** The model input made of these chunks. *)
Record input_ok (bs : nat) (cs : list Chunk) (mi : ModelInput) : Prop := {
  io_tokens : ∃ k, mi_token_ids mi = concat (chunk_tokens <$> cs) ++ replicate k 0%Z ∧
    mi_positions mi = concat (chunk_positions <$> cs) ++ replicate k 0%Z ∧
    Some <$> mi_new_cache_slots mi = concat (chunk_slots bs <$> cs) ++ replicate k (Some 0%Z);
  io_num : mi_num_sequences mi = length cs;
  io_samples : match mi_sampling_params mi with
    | None => sum_selected cs = 0
    | Some sp => ∃ sel smp, inits (batch_params cs) sel smp sp ∧ length sel = sum_selected cs ∧
        length smp = length (filter sampled cs) ∧ Forall (λ i, 0 ≤ i < Z.of_nat (sum_selected cs))%Z smp
    end;
}.

Lemma filter_sampled_le cs : Forall (λ c, 0 < ck_len c) cs → length (filter sampled cs) ≤ sum_selected cs.
Proof.
  induction 1 as [|c cs Hc _ IH]; [done|]. rewrite filter_cons.
  change (sum_selected (c :: cs)) with
    (selected (num_prompt_tokens_ (ck_seq c)) (ck_start c) (ck_len c) + sum_selected cs).
  case_decide as Hs; simpl; [|lia]. unfold sampled, ck_end in Hs. unfold selected. lia.
Qed.

Lemma prepare_model_input_wp bs js st nd mb :
  0 < bs → js ≠ [] → NoDup (jb_key <$> js) → jobs_ready bs js st →
  (Z.of_nat (sum_list (ck_end <$> (job_chunk <$> js))) < 2 ^ 31)%Z →
  wp (prepare_model_input nd mb)
    (mkBatch (jb_key <$> js) (jb_budget <$> js) (replicate (length js) 0), st)
    (λ r p, (∃ mi, r = Some mi ∧ input_ok bs (job_chunk <$> js) mi) ∧ p.2 = advance_all js st ∧
       sequences_ p.1 = jb_key <$> js).
Proof using HL.
  intros Hbs Hne Hnd Hr Hsum. unfold prepare_model_input. wp_steps. simpl. rewrite length_fmap.
  eapply wp_mono; [apply (pack_all_wp bs js [] [] [] st [] Packed_init Hbs); try done; apply packs_init|].
  intros a p (Hp&Hst&Hb). simpl in Hp, Hb.
  assert (Forall (λ c, 0 < ck_len c) (job_chunk <$> js)) as Hpos.
  { apply Forall_fmap. eapply Forall_impl; [exact Hr|]. intros j (_&?&[]). simpl. lia. }
  assert (flatten_tokens_vec a ≠ []) as Hfl.
  { rewrite (pk_tokens _ _ _ Hp). destruct js as [|j js']; [done|].
    apply Forall_cons in Hr as [(_&Hm&[HI Hkv _ _ _]) _]. rewrite !fmap_cons. simpl.
    intros Heq%app_eq_nil. destruct Heq as [Heq _]. apply (f_equal length) in Heq.
    unfold chunk_tokens in Heq. rewrite length_take, length_drop in Heq.
    pose proof (si_capacity _ HI). unfold token_ids, ck_start in Heq.
    rewrite length_take in Heq. simpl in Heq. lia. }
  destruct (flatten_tokens_vec a) as [|t ts] eqn:Ht; [done|]. rewrite <- Ht in *. clear t ts Ht.
  destruct (pad_batch_padded (length js) nd mb a) as (k&[D1 D2 D3 (D4&D5&D6&D7&D8&D9)]&_).
  set (a' := pad_batch _ _ _ _) in *. destruct Hp as [P1 P2 P3 P4 P5 P6 P7 P8 P9 P10 P11 P12 P13].
  wp_steps; [apply bool_decide_eq_true_2; by rewrite D4, D5, P6, P7, batch_params_length|].
  eapply (wp_mono _ _ (λ r p', p' = p ∧ match r with
    | None => sum_selected (job_chunk <$> js) = 0
    | Some sp => ∃ sel smp, inits (batch_params (job_chunk <$> js)) sel smp sp ∧
        length sel = sum_selected (job_chunk <$> js) ∧
        length smp = length (filter sampled (job_chunk <$> js)) ∧
        Forall (λ i, 0 ≤ i < Z.of_nat (sum_selected (job_chunk <$> js)))%Z smp
    end)).
  { case_decide as Hsel.
    - apply wp_ret. split; [done|]. by rewrite <- P7, <- D5, Hsel.
    - wp_steps. destruct (pad_2d_vector_rows (unique_token_ids_vec a') 0) as (k1&Hr1&Hl1).
      destruct (pad_2d_vector_rows (unique_token_counts_vec a') 0) as (k2&Hr2&Hl2).
      pose proof (filter_sampled_le _ Hpos). rewrite D4, P6.
      eapply wp_mono; [apply (SamplingParameters_init_wp _ _ _ _ _ _ k1 k2)|]; try done;
        rewrite ?batch_params_length, ?D5, ?D6, ?D9, ?Hl1, ?Hl2, ?D7, ?D8, ?P7, ?P8, ?P9, ?P10, ?P11; try done.
      intros r ? (->&Hi). wp_steps. split; [done|]. exists (selected_token_idxes a), (sample_idxes a).
      by rewrite P7, P11. }
  intros sp ? [-> Hsp]. wp_steps. split_and!; [|done|by rewrite Hb]. eexists. split; [done|].
  split; simpl; [|by rewrite length_fmap|done]. exists k.
  rewrite D1, D2, D3, P1, P2, fmap_app, P3, fmap_replicate. done.
Qed.
End prepare.

(** ** Batches: distributing the sampled tokens

    [process_sample_output] gives the sampled tokens, in order, to the sequences
    of the batch that are past their prompt, one each, and leaves the others
    alone; it fails only if the number of tokens is wrong. *)

(** What [append_token] does to a sequence. *)
Record appended (s : Sequence) (t : Z) (s' : Sequence) : Prop := {
  ap_inv : seq_inv s';
  ap_config : same_config s s';
  ap_tokens : token_ids s' = token_ids s ++ [t];
  ap_num : num_tokens_ s' = S (num_tokens_ s);
  ap_pending : finish_status_invalidated_ s' = true;
  ap_kv : num_kv_cache_tokens_ s' = num_kv_cache_tokens_ s;
  ap_engine : engine_type_ s' = engine_type_ s;
  ap_blocks : blocks_ s' = blocks_ s;
  ap_decoder : incremental_decoder_ s' = incremental_decoder_ s;
}.

(** The sequence can take a token. *)
Record can_append (s : Sequence) : Prop := {
  ca_inv : seq_inv s;
  ca_room : num_tokens_ s < length (token_ids_ s);
  ca_unfinished : is_finished_ s = false;
}.

(** Token [i] of the output can be built, and carries enough top tokens for the
    sequence. *)
Definition token_at {S} (o : SampleOutput) (toks : list Z) (i : nat) : M S Token :=
  build_token i toks (out_logprobs o) (out_top_tokens o) (out_top_logprobs o).

Definition token_ok (o : SampleOutput) (toks : list Z) (s : Sequence) (i : nat) (t : Z) : Prop :=
  ∃ token, (∀ S (st : S), token_at o toks i st = Ok (token, st)) ∧ top_ok s token ∧ i32 (id token) = t.

(** The sequences after the output [toks], from index [i] on, was handed out. *)
Inductive handed_out (o : SampleOutput) (toks : list Z) : nat → list Sequence → list Sequence → nat → Prop :=
  | handed_nil i : handed_out o toks i [] [] i
  | handed_skip i s ss ss' j : is_prefill_stage s = true →
      handed_out o toks i ss ss' j → handed_out o toks i (s :: ss) (s :: ss') j
  | handed_token i s s' t ss ss' j : is_prefill_stage s = false → token_ok o toks s i t →
      appended s t s' → handed_out o toks (S i) ss ss' j →
      handed_out o toks i (s :: ss) (s' :: ss') j.

Section output.
Context {K St : Type} `{HS : SeqHeap K St} {HL : SeqHeapLaws K St}.

Definition update_all (ks : list K) (ss : list Sequence) (st : St) : St :=
  foldl (λ st p, seq_update p.1 p.2 st) st (zip ks ss).

Lemma lookups_update k s ks ss st :
  k ∉ ks → Forall2 (λ k s, seq_lookup k st = Some s) ks ss →
  Forall2 (λ k' s', seq_lookup k' (seq_update k s st) = Some s') ks ss.
Proof using HL.
  intros Hk H. induction H as [|k' s' ks ss Hl _ IH]; constructor.
  - rewrite seq_lookup_update_ne; [done|]. intros ->. apply Hk. by left.
  - apply IH. intros Hin. apply Hk. by right.
Qed.

(** The heap holds what was written. *)
Lemma update_all_other ks : ∀ ss st k, k ∉ ks → seq_lookup k (update_all ks ss st) = seq_lookup k st.
Proof using HL.
  induction ks as [|k' ks IH]; intros [|s ss] st k Hk; try done.
  apply not_elem_of_cons in Hk as [Hne Hk]. unfold update_all in *. cbn [zip_with foldl fst snd].
  rewrite IH by done. by apply seq_lookup_update_ne.
Qed.

Lemma update_all_lookup ks : ∀ ss st, NoDup ks → length ss = length ks →
  Forall (λ k, is_Some (seq_lookup k st)) ks →
  Forall2 (λ k s, seq_lookup k (update_all ks ss st) = Some s) ks ss.
Proof using HL.
  induction ks as [|k ks IH]; intros [|s ss] st Hnd Hl Hs; try done.
  apply NoDup_cons in Hnd as [Hk Hnd]. apply Forall_cons in Hs as [Hks Hs]. injection Hl as Hl.
  change (update_all (k :: ks) (s :: ss) st) with (update_all ks ss (seq_update k s st)). constructor.
  - rewrite update_all_other by done. by apply seq_lookup_update.
  - apply IH; [done|done|]. apply Forall_forall. intros k' Hk'. rewrite Forall_forall in Hs.
    rewrite seq_lookup_update_ne; [by apply Hs|]. congruence.
Qed.

Definition outputs_left (ss : list Sequence) : nat :=
  length (filter (λ s, is_prefill_stage s = false) ss).

Lemma append_tokens_wp o toks ks : ∀ ss st i,
  NoDup ks → Forall2 (λ k s, seq_lookup k st = Some s) ks ss →
  Forall (λ s, is_prefill_stage s = false → can_append s) ss →
  i + outputs_left ss ≤ length toks →
  (∀ s j, s ∈ ss → is_prefill_stage s = false → i ≤ j < length toks → ∃ t, token_ok o toks s j t) →
  wp (append_tokens o toks ks i) st (λ j st', j = i + outputs_left ss ∧
    ∃ ss', handed_out o toks i ss ss' j ∧ st' = update_all ks ss' st).
Proof using HL.
  induction ks as [|k ks IH]; intros ss st i Hnd Hl Hca Hlen Htok.
  { apply Forall2_nil_inv_l in Hl as ->. apply wp_ret. split; [unfold outputs_left; simpl; lia|].
    exists []. split; [constructor|done]. }
  apply Forall2_cons_inv_l in Hl as (s&ss1&Hk&Hl&->). apply NoDup_cons in Hnd as [Hnk Hnd].
  apply Forall_cons in Hca as [Hs Hca]. cbn [append_tokens]. wp_steps.
  eapply with_seq_wp; [exact Hk|]. wp_steps. rewrite (seq_update_same k s st Hk).
  unfold outputs_left in *. rewrite filter_cons in *.
  destruct (is_prefill_stage s) eqn:Hpre.
  - rewrite decide_False in * by done.
    eapply wp_mono; [apply (IH ss1); try done; intros s0 j Hs0; apply Htok; by right|].
    intros j st' (Hj&ss'&Hh&Hst). split; [done|]. exists (s :: ss').
    split; [by constructor|]. unfold update_all. simpl. by rewrite (seq_update_same k s st Hk).
  - rewrite decide_True in * by done. simpl in Hlen.
    wp_steps; [apply bool_decide_eq_true_2; lia|].
    destruct (Htok s i) as (t&token&Hrun&Htop&Hid); [by left|done|lia|].
    eapply wp_intro; [apply Hrun|]. wp_steps. eapply with_seq_wp; [exact Hk|].
    destruct (Hs eq_refl) as [HI Hroom Hfin].
    eapply wp_mono; [apply (append_token_wp s token HI Hroom Hfin)|]; [|done|].
    { unfold is_prefill_stage in Hpre. apply bool_decide_eq_false in Hpre. lia. }
    intros _ s' (A1&A2&A3&A4&A5&A6&A7&A8&A9&_).
    eapply wp_mono; [apply (IH ss1 _ (S i))|].
    + done.
    + by apply lookups_update.
    + done.
    + lia.
    + intros s0 j Hs0 Hp0 Hj. apply Htok; [by right|done|lia].
    + intros j st' (Hj&ss'&Hh&Hst). split; [simpl; lia|]. exists (s' :: ss'). split; [|done].
      econstructor; [done|by exists token|by split; rewrite <- ?Hid|done].
Qed.

Lemma process_sample_output_wp b o toks ss st :
  NoDup (sequences_ b) → Forall2 (λ k s, seq_lookup k st = Some s) (sequences_ b) ss →
  Forall (λ s, is_prefill_stage s = false → can_append s) ss →
  next_tokens o = Some toks → length toks = outputs_left ss →
  (∀ s j, s ∈ ss → is_prefill_stage s = false → j < length toks → ∃ t, token_ok o toks s j t) →
  wp (process_sample_output o) (b, st) (λ _ p, p.1 = b ∧
    ∃ ss', handed_out o toks 0 ss ss' (length toks) ∧ p.2 = update_all (sequences_ b) ss' st).
Proof using HL.
  intros Hnd Hl Hca Ho Hlen Htok. unfold process_sample_output. wp_steps. rewrite Ho. wp_steps.
  apply wp_on_snd. eapply wp_mono; [apply (append_tokens_wp o toks _ ss st 0); try done; [lia|]|].
  { intros s j Hs Hp [_ Hj]. by apply Htok. }
  intros j st' (->&ss'&Hh&->). simpl in *. rewrite <- Hlen in Hh.
  wp_steps; [by apply bool_decide_eq_true_2|]. simpl. by eauto.
Qed.
End output.
