(* ===== verification/Sampler.v ===== *)
(** * The sampler

    [src/sampling/sampler.h] and [sampler.cpp]: choosing the next token of each
    sequence from its scores, greedily or at random.  The exponential random
    numbers that [random_sample] draws are its argument [q]. *)

From Stdlib Require Import SpecFloat.
From stdpp Require Import base tactics list sets strings sorting.
From S2P Require Import Prelude Slice Block Types Stopping Decoder Sequence Sampling Batch Logits.

Section sampler.
Context {th : Torch}.

(** [Sampler::greedy_sample], on a row. *)
Definition greedy_sample (probs : list float) : Z := Z.of_nat (th_argmax probs).

(** [Sampler::random_sample], on a row. *)
Definition random_sample (probs q : list float) : Z :=
  Z.of_nat (th_argmax (zip_with (SFdiv 24 128) probs q)).

(** The samples of all rows: [all_random_sample_], [all_greedy_sample_] or the
    choice by [do_sample_]. *)
Definition choose_samples (do_sample : list bool) (probs q : list (list float)) : list Z :=
  if forallb Datatypes.id do_sample then zip_with random_sample probs q
  else if negb (existsb Datatypes.id do_sample) then greedy_sample <$> probs
  else zip_with (λ (d : bool) (p : Z * Z), if d then p.1 else p.2) do_sample
         (zip (zip_with random_sample probs q) (greedy_sample <$> probs)).

(** The entries of a row at the given indices. *)
Definition entries {S} (r : list float) (idxs : list nat) : M S (list float) := map_each (at_ r) idxs.

(** [Sampler::forward], with the constructor's arguments first. *)
Definition sampler_forward {S} (do_sample : list bool) (logprobs : bool) (max_top_logprobs : Z)
    (q logits : list (list float)) : M S SampleOutput :=
  _ ← check (bool_decide (length logits = length do_sample)) "logits.size(0) == do_sample_.size(0)";
  let probs := th_softmax <$> logits in
  let samples := choose_samples do_sample probs q in
  if logprobs then
    let lps := th_log_softmax <$> logits in
    selected ← map_each (λ p, at_ p.1 (Z.to_nat p.2)) (zip lps samples);
    if decide (0 < max_top_logprobs)%Z then
      let k := Z.to_nat max_top_logprobs in
      (* topk fails when k exceeds the size of the vocabulary *)
      tops ← map_each (λ r, if decide (k ≤ length r) then mret (th_topk k r) else fail OutOfBounds) lps;
      values ← map_each (λ p, entries p.1 p.2) (zip lps tops);
      mret (mkSampleOutput (Some samples) (Some probs) (Some selected)
              (Some ((λ t : list nat, Z.of_nat <$> t) <$> tops)) (Some values))
    else mret (mkSampleOutput (Some samples) (Some probs) (Some selected) None None)
  else mret (mkSampleOutput (Some samples) (Some probs) None None None).
End sampler.

(** ** Correctness *)

Section laws.
Context {th : Torch} {laws : TorchLaws th}.

(** All rows have the size of the vocabulary. *)
Definition rows (v : nat) (l : list (list float)) : Prop := Forall (λ r, length r = v) l.

(** A token of the vocabulary. *)
Definition in_vocab (v : nat) (t : Z) : Prop := (0 ≤ t < Z.of_nat v)%Z.

Lemma greedy_in_vocab v p : 0 < v → length p = v → in_vocab v (greedy_sample p).
Proof using laws.
  intros Hv Hl. unfold in_vocab, greedy_sample. pose proof (argmax_lt p) as H.
  destruct p; [simpl in Hl; lia|]. specialize (H ltac:(done)). lia.
Qed.

Lemma random_in_vocab v p q : 0 < v → length p = v → length q = v → in_vocab v (random_sample p q).
Proof using laws.
  intros Hv Hp Hq. unfold in_vocab, random_sample. set (z := zip_with _ _ _).
  assert (length z = v) as Hz by (unfold z; rewrite length_zip_with; lia).
  pose proof (argmax_lt z) as H. destruct z; [simpl in Hz; lia|]. specialize (H ltac:(done)). lia.
Qed.

Lemma random_all v (probs q : list (list float)) : 0 < v → rows v probs → rows v q → length q = length probs →
  Forall (in_vocab v) (zip_with random_sample probs q).
Proof using laws.
  intros Hv Hp Hq Hl. apply Forall_lookup_2. intros i x Hx. apply lookup_zip_with_Some in Hx as (a&b&->&Ha&Hb).
  apply random_in_vocab; [done|exact (Forall_lookup_1 _ _ _ _ Hp Ha)|exact (Forall_lookup_1 _ _ _ _ Hq Hb)].
Qed.

Lemma greedy_all v (probs : list (list float)) : 0 < v → rows v probs → Forall (in_vocab v) (greedy_sample <$> probs).
Proof using laws.
  intros Hv Hp. apply Forall_fmap. eapply Forall_impl; [exact Hp|]. intros p. by apply greedy_in_vocab.
Qed.

(** One token of the vocabulary per row. *)
Lemma choose_samples_ok v d (probs q : list (list float)) :
  0 < v → rows v probs → rows v q → length q = length probs → length d = length probs →
  Forall (in_vocab v) (choose_samples d probs q) ∧ length (choose_samples d probs q) = length probs.
Proof using laws.
  intros Hv Hp Hq Hlq Hld. pose proof (random_all v probs q Hv Hp Hq Hlq) as Hr.
  pose proof (greedy_all v probs Hv Hp) as Hg. unfold choose_samples.
  destruct (forallb _ d); [split; [done|rewrite length_zip_with; lia]|].
  destruct (negb _); [split; [done|apply length_fmap]|]. split.
  - apply Forall_lookup_2. intros i x Hx. apply lookup_zip_with_Some in Hx as (b&[x1 x2]&->&_&Hb).
    apply lookup_zip_with_Some in Hb as (?&?&[= -> ->]&H1&H2).
    destruct b; [by eapply (Forall_lookup_1 _ _ _ _ Hr)|by eapply (Forall_lookup_1 _ _ _ _ Hg)].
  - rewrite length_zip_with, length_zip_with, length_zip_with, length_fmap. lia.
Qed.

(** The output has one row per sequence, and as many top tokens as asked for. *)
Record sampled_output (v n : nat) (logprobs : bool) (k : Z) (o : SampleOutput) : Prop := {
  sm_tokens : ∃ toks, next_tokens o = Some toks ∧ length toks = n ∧ Forall (in_vocab v) toks;
  sm_logprobs : if logprobs then ∃ l, out_logprobs o = Some l ∧ length l = n else out_logprobs o = None;
  sm_top : logprobs = true → (0 < k)%Z → ∃ tt tl, out_top_tokens o = Some tt ∧ out_top_logprobs o = Some tl ∧
    length tt = n ∧ length tl = n ∧ Forall (λ r, length r = Z.to_nat k) tt ∧ Forall (λ r, length r = Z.to_nat k) tl;
  sm_no_top : (k ≤ 0)%Z → out_top_tokens o = None;
}.

Lemma map_each_wp {S A B} (f : A → M S B) (P : A → B → Prop) l (s : S) :
  (∀ x, x ∈ l → wp (f x) s (λ y s', s' = s ∧ P x y)) →
  wp (map_each f l) s (λ r s', s' = s ∧ Forall2 P l r).
Proof using.
  induction l as [|x l IH]; intros H; simpl; [by apply wp_ret|].
  wp_steps. eapply wp_mono; [apply H; by left|]. intros y ? [-> Hy]. wp_steps.
  eapply wp_mono; [apply IH; intros z Hz; apply H; by right|]. intros ys ? [-> Hys].
  wp_steps. split; [done|by constructor].
Qed.

Lemma entries_wp {S} (r : list float) (idxs : list nat) (s : S) :
  (∀ i, i ∈ idxs → i < length r) → wp (entries r idxs) s (λ l s', s' = s ∧ length l = length idxs).
Proof using.
  intros H. eapply wp_mono; [apply (map_each_wp _ (λ _ _, True))|].
  - intros i Hi. destruct (lookup_lt_is_Some_2 r i (H i Hi)) as [x Hx]. unfold at_. by wp_steps.
  - intros l ? [-> Hl]. split; [done|]. by rewrite (Forall2_length _ _ _ Hl).
Qed.

(** The top tokens of each row, and their values. *)
Lemma tops_wp {S} v k (lps : list (list float)) (s : S) : rows v lps → k ≤ v →
  wp (tops ← map_each (λ r, if decide (k ≤ length r) then mret (th_topk k r) else fail OutOfBounds) lps;
      values ← map_each (λ p, entries p.1 p.2) (zip lps tops);
      mret (tops, values)) s (λ p s', s' = s ∧ length p.1 = length lps ∧ length p.2 = length lps ∧
        Forall (λ r, length r = k) p.1 ∧ Forall (λ r, length r = k) p.2).
Proof using laws.
  intros Hr Hk. wp_steps. unfold rows in Hr.
  eapply wp_mono; [apply (map_each_wp _ (λ r t, length t = k ∧ ∀ i, i ∈ t → i < length r))|].
  - intros r Hin. rewrite Forall_forall in Hr. pose proof (Hr r Hin). rewrite decide_True by lia. wp_steps.
    split; [done|]. split; [apply topk_length; lia|]. intros i. apply topk_lt.
  - intros tops ? [-> Ht]. wp_steps.
    eapply wp_mono; [apply (map_each_wp _ (λ _ t, length t = k))|].
    + intros [r t] Hin. apply list_elem_of_lookup in Hin as [i Hi]. apply lookup_zip_with_Some in Hi as (?&?&[= -> ->]&H1&H2).
      destruct (Forall2_lookup_lr _ _ _ _ _ _ Ht H1 H2) as [Hlen Hlt].
      eapply wp_mono; [by apply entries_wp|]. intros l ? [-> Hl]. by rewrite Hl.
    + intros values ? [-> Hv]. wp_steps. pose proof (Forall2_length _ _ _ Ht) as Hl1.
      pose proof (Forall2_length _ _ _ Hv) as Hl2. rewrite length_zip_with in Hl2. simpl.
      split_and!; [done|lia|lia|..].
      * apply Forall_lookup_2. intros i t Hi. destruct (Forall2_lookup_r _ _ _ _ _ Ht Hi) as (?&_&?&_). done.
      * apply Forall_lookup_2. intros i t Hi. destruct (Forall2_lookup_r _ _ _ _ _ Hv Hi) as (?&_&?). done.
Qed.

Lemma sampler_forward_wp {S} v d lp k q logits (s : S) :
  0 < v → rows v logits → rows v q → length q = length logits → length d = length logits →
  (lp = true → Z.to_nat k ≤ v) →
  wp (sampler_forward d lp k q logits) s (λ o s', s' = s ∧ sampled_output v (length logits) lp k o).
Proof using laws.
  intros Hv Hr Hq Hlq Hld Hk. unfold sampler_forward. wp_steps; [by apply bool_decide_eq_true_2|].
  assert (rows v (th_softmax <$> logits)) as Hp.
  { apply Forall_fmap. eapply Forall_impl; [exact Hr|]. intros r <-. apply softmax_length. }
  assert (rows v (th_log_softmax <$> logits)) as Hl.
  { apply Forall_fmap. eapply Forall_impl; [exact Hr|]. intros r <-. apply log_softmax_length. }
  destruct (choose_samples_ok v d (th_softmax <$> logits) q) as [Hs Hsl]; rewrite ?length_fmap; try done.
  set (samples := choose_samples _ _ _) in *. rewrite length_fmap in Hsl.
  destruct lp; [|wp_steps; split; [done|split; [by exists samples|done|done|done]]].
  wp_steps. eapply wp_mono; [apply (map_each_wp _ (λ _ _, True))|].
  { intros [r t] Hin. apply list_elem_of_lookup in Hin as [i Hi]. apply lookup_zip_with_Some in Hi as (?&?&[= <- <-]&H1&H2).
    pose proof (Forall_lookup_1 _ _ _ _ Hl H1) as E1. pose proof (Forall_lookup_1 _ _ _ _ Hs H2) as E2.
    unfold in_vocab in E2. simpl in *. destruct (lookup_lt_is_Some_2 r (Z.to_nat t)) as [x Hx]; [lia|].
    unfold at_. by wp_steps. }
  intros sel ? [-> Hsel]. pose proof (Forall2_length _ _ _ Hsel) as Hlsel.
  rewrite length_zip_with, length_fmap, Hsl in Hlsel.
  case_decide as Hpos.
  - pose proof (tops_wp v (Z.to_nat k) (th_log_softmax <$> logits) s Hl (Hk eq_refl)) as Ht.
    apply wp_bind_inv in Ht. wp_steps. eapply wp_mono; [exact Ht|]. intros tops s1 Ht1. apply wp_bind_inv in Ht1.
    wp_steps. eapply wp_mono; [exact Ht1|]. intros values s2 Hp2. unfold wp, mret, M_ret in Hp2.
    destruct Hp2 as (->&Hl1&Hl2&Hf1&Hf2). simpl in *. rewrite length_fmap in *. wp_steps.
    split; [done|]. split.
    + by exists samples.
    + exists sel. split; [done|lia].
    + intros _ _. do 2 eexists. split_and!; [done|done|by rewrite length_fmap|done| |done].
      apply Forall_fmap. eapply Forall_impl; [exact Hf1|]. intros r <-. apply length_fmap.
    + lia.
  - wp_steps. split; [done|]. split; [by exists samples|exists sel; split; [done|lia]|done|done].
Qed.
End laws.
