(* ===== verification/Rejection.v ===== *)
(** * Rejection sampling

    [src/speculative/rejection_sampler.h] and [rejection_sampler.cpp]: which of
    the tokens that the draft model proposed for a sequence are accepted.  The
    tensors of a batch are lists of rows, one per sequence; the random numbers are
    arguments.  Greedy sampling accepts exactly what the target model would have
    decoded on its own. *)

From Stdlib Require Import SpecFloat.
From stdpp Require Import base tactics list sets strings sorting.
From S2P Require Import Prelude Slice Block Types Stopping Decoder Sequence Sampling Batch Logits Sampler.

Section rejection.
Context {th : Torch}.

(** [index_select_2d] on one sequence: entry [ids[j]] of row [j]. *)
Definition index_select_2d {S A} (rs : list (list A)) (ids : list Z) : M S (list A) :=
  map_each (λ p, if decide (0 ≤ p.2)%Z then at_ p.1 (Z.to_nat p.2) else fail OutOfBounds) (zip rs ids).

(** [RejectionSampler::build_accepted_mask], on one row: [argmax] finds the first
    rejected token, or the place of the bonus token. *)
Definition build_accepted_mask (accepted : list bool) : list bool :=
  let combined_mask := accepted ++ [false] in
  let first_rejected := th_argmax ((λ b : bool, float_of_Z (if b then 0 else 1)%Z) <$> combined_mask) in
  (λ j, bool_decide (j ≤ first_rejected)) <$> seq 0 (length accepted + 1).

(** [torch::where(mask, ids, -1)]. *)
Definition mask_out (mask : list bool) (ids : list Z) : list Z :=
  zip_with (λ (b : bool) i, if b then i else (-1)%Z) mask ids.

(** [RejectionSampler::greedy_sample], on one sequence: all the token ids, and
    those with the rejected ones masked out. *)
Definition rejection_greedy (draft_token_ids : list Z) (target_probs : list (list float)) (bonus : Z) :
    list Z * list Z :=
  let target_token_ids := greedy_sample <$> target_probs in
  let accepted_token_ids := target_token_ids ++ [bonus] in
  let accepted := zip_with (λ a b, bool_decide (a = b)) target_token_ids draft_token_ids in
  (accepted_token_ids, mask_out (build_accepted_mask accepted) accepted_token_ids).

(** [clamp_min_]. *)
Definition clamp_min (lo x : float) : float := if SFltb x lo then lo else x.
Definition epsilon : float := SFdiv 24 128 (float_of_Z 1) (float_of_Z 1000000).

(** The distribution that a rejected token is drawn from. *)
Definition recovered (target draft : list float) : list float :=
  let r := clamp_min (S754_zero false) <$> zip_with (SFsub 24 128) target draft in
  let sum := clamp_min epsilon (th_sum r) in
  (λ x, SFdiv 24 128 x sum) <$> r.

(** [RejectionSampler::random_sample], on one sequence; [q] are the random numbers
    of [Sampler::random_sample]. *)
Definition rejection_random {S} (draft_token_ids : list Z) (draft_probs target_probs : list (list float))
    (uniform_rand : list float) (q : list (list float)) (bonus : Z) : M S (list Z * list Z) :=
  selected_draft_probs ← index_select_2d draft_probs draft_token_ids;
  selected_target_probs ← index_select_2d target_probs draft_token_ids;
  let acceptance_probs := zip_with (SFdiv 24 128) selected_target_probs selected_draft_probs in
  let accepted := zip_with SFltb uniform_rand acceptance_probs in
  (* resample on the recovered probs *)
  let recovered_token_ids := zip_with random_sample (zip_with recovered target_probs draft_probs) q in
  let combined := zip_with (λ (b : bool) (p : Z * Z), if b then p.1 else p.2) accepted
                    (zip draft_token_ids recovered_token_ids) in
  let accepted_token_ids := combined ++ [bonus] in
  mret (accepted_token_ids, mask_out (build_accepted_mask accepted) accepted_token_ids).

(** The log probabilities of the accepted tokens of one sequence, and the best
    ones. *)
Definition top_of {S} (k : nat) (lps : list (list float)) : M S (list (list Z) * list (list float)) :=
  tops ← map_each (λ r, if decide (k ≤ length r) then mret (th_topk k r) else fail OutOfBounds) lps;
  values ← map_each (λ p, entries p.1 p.2) (zip lps tops);
  mret ((λ t : list nat, Z.of_nat <$> t) <$> tops, values).

(** One sequence of the batch. *)
Record Proposal := mkProposal {
  pr_do_sample : bool;
  pr_draft_ids : list Z;
  pr_draft_probs : list (list float);
  pr_target_logits : list (list float);
  pr_bonus : Z;
  pr_uniform : list float;
  pr_exponential : list (list float);
}.

(** Sampling one sequence either way; the probabilities of the bonus token are
    filtered out. *)
Definition greedy_row (p : Proposal) : list Z * list Z :=
  rejection_greedy (pr_draft_ids p) (removelast (th_softmax <$> pr_target_logits p)) (pr_bonus p).
Definition random_row {S} (p : Proposal) : M S (list Z * list Z) :=
  rejection_random (pr_draft_ids p) (pr_draft_probs p) (removelast (th_softmax <$> pr_target_logits p))
    (pr_uniform p) (pr_exponential p) (pr_bonus p).

(** The whole batch: [all_greedy_sample_], [all_random_sample_], or both ways and
    then the choice by [do_sample_]. *)
Definition rejection_rows {S} (ps : list Proposal) : M S (list (list Z * list Z)) :=
  if negb (existsb pr_do_sample ps) then mret (greedy_row <$> ps)
  else if forallb pr_do_sample ps then map_each random_row ps
  else
    random ← map_each random_row ps;
    mret (zip_with (λ p r, if pr_do_sample p then r else greedy_row p) ps random).

(** [RejectionSampler::forward], with the constructor's arguments first. *)
Definition rejection_forward {S} (logprobs : bool) (max_top_logprobs : Z) (ps : list Proposal)
    (mask_out_rejected_tokens : bool) : M S ValidateOutput :=
  _ ← check (forallb (λ p, bool_decide (length (pr_draft_ids p) = length (pr_draft_probs p))) ps)
        "draft_token_ids.size(1) == draft_probs.size(1)";
  rs ← rejection_rows ps;
  let next_tokens := (λ r : list Z * list Z, if mask_out_rejected_tokens then r.2 else r.1) <$> rs in
  if logprobs then
    selected ← map_each (λ x, index_select_2d (th_log_softmax <$> pr_target_logits x.1) x.2.1) (zip ps rs);
    if decide (0 < max_top_logprobs)%Z then
      tops ← map_each (λ p, top_of (Z.to_nat max_top_logprobs) (th_log_softmax <$> pr_target_logits p)) ps;
      mret (mkValidateOutput (Some next_tokens) (Some selected) (Some tops.*1) (Some tops.*2))
    else mret (mkValidateOutput (Some next_tokens) (Some selected) None None)
  else mret (mkValidateOutput (Some next_tokens) None None None).
End rejection.

(** ** Correctness *)

Section laws.
Context {th : Torch} {laws : TorchLaws th}.

(** Zeros and ones as floats. *)
Lemma flags_nan (l : list bool) x :
  x ∈ ((λ b : bool, float_of_Z (if b then 0 else 1)%Z) <$> l) → x ≠ S754_nan.
Proof using. intros (b&->&_)%list_elem_of_fmap. destruct b; vm_compute; discriminate. Qed.

(** [argmax] of the inverted flags is the first [false]. *)
Lemma first_rejected k l : th_argmax ((λ b : bool, float_of_Z (if b then 0 else 1)%Z) <$> replicate k true ++ false :: l) = k.
Proof using laws.
  set (fl := _ <$> _). assert (fl ≠ []) as Hne.
  { intros E%(f_equal length). unfold fl in E. rewrite length_fmap, length_app in E. simpl in E. lia. }
  pose proof (argmax_lt fl Hne) as Hlt. destruct (lookup_lt_is_Some_2 _ _ Hlt) as [m Hm].
  assert (∀ j, j < k → fl !! j = Some (float_of_Z 0)) as Hlow.
  { intros j Hj. unfold fl. rewrite list_lookup_fmap, lookup_app_l by (by rewrite length_replicate).
    by rewrite lookup_replicate_2. }
  assert (fl !! k = Some (float_of_Z 1)) as Hk.
  { unfold fl. rewrite list_lookup_fmap, lookup_app_r by (by rewrite length_replicate).
    by rewrite length_replicate, Nat.sub_diag. }
  pose proof (argmax_max fl m (flags_nan _) Hm k _ Hk) as Hmax.
  destruct (decide (th_argmax fl < k)) as [Hc|Hc].
  { rewrite (Hlow _ Hc) in Hm. injection Hm as <-. vm_compute in Hmax. discriminate. }
  destruct (decide (k < th_argmax fl)) as [Hc'|]; [|lia].
  pose proof (argmax_first fl m (flags_nan _) Hm k _ Hk Hc') as Hfst.
  assert (m = float_of_Z 0 ∨ m = float_of_Z 1) as [->| ->].
  { apply list_elem_of_lookup_2 in Hm. apply list_elem_of_fmap in Hm as ([]&->&_); auto. }
  all: vm_compute in Hfst; discriminate.
Qed.

(** The mask keeps everything up to the first rejected token, and that one. *)
Lemma build_accepted_mask_spec k l :
  build_accepted_mask (replicate k true ++ false :: l) = replicate (S k) true ++ replicate (S (length l)) false.
Proof using laws.
  unfold build_accepted_mask. rewrite <-app_assoc. simpl. rewrite first_rejected.
  apply list_eq. intros j. rewrite list_lookup_fmap, length_app, length_replicate.
  destruct (decide (j < k + length (false :: l) + 1)) as [Hj|Hj].
  - rewrite lookup_seq_lt by (simpl in *; lia). simpl. destruct (decide (j < S k)) as [Hk|Hk].
    + change (true :: replicate k true ++ _) with (replicate (S k) true ++ false :: replicate (length l) false).
      rewrite lookup_app_l by (by rewrite length_replicate). rewrite lookup_replicate_2 by done.
      by rewrite bool_decide_true by lia.
    + change (true :: replicate k true ++ _) with (replicate (S k) true ++ replicate (S (length l)) false).
      rewrite lookup_app_r by (rewrite length_replicate; lia). rewrite length_replicate, lookup_replicate_2 by (simpl in *; lia).
      by rewrite bool_decide_false by lia.
  - rewrite lookup_seq_ge by (simpl in *; lia). symmetry. apply lookup_ge_None.
    simpl. rewrite length_app. simpl. rewrite !length_replicate. simpl in Hj. lia.
Qed.

Lemma build_accepted_mask_all k : build_accepted_mask (replicate k true) = replicate (S k) true.
Proof using laws.
  unfold build_accepted_mask. rewrite first_rejected, length_replicate.
  replace (k + 1) with (S k) by lia. rewrite <-(length_seq (S k) 0) at 2. apply list_eq. intros j.
  rewrite list_lookup_fmap. destruct (decide (j < S k)) as [Hj|Hj].
  - rewrite lookup_seq_lt, lookup_replicate_2 by (rewrite ?length_seq; lia). simpl. by rewrite bool_decide_true by lia.
  - rewrite lookup_seq_ge by lia. symmetry. apply lookup_replicate_None. rewrite length_seq. lia.
Qed.

(** ** Greedy decoding *)

(** The target model: the probabilities of the next token after a context. *)
Context (probs : list Z → list float).

(** Decoding [n] tokens greedily with the target model alone. *)
Fixpoint greedy_decode (n : nat) (ctx : list Z) : list Z :=
  match n with
  | 0 => []
  | S n => let t := greedy_sample (probs ctx) in t :: greedy_decode n (ctx ++ [t])
  end.

(** The probabilities that the target model gives after each draft token. *)
Definition verified (ctx draft : list Z) : list (list float) :=
  (λ i, probs (ctx ++ take i draft)) <$> seq 0 (length draft).

Lemma verified_cons ctx t draft : verified ctx (t :: draft) = probs ctx :: verified (ctx ++ [t]) draft.
Proof using.
  unfold verified. simpl. rewrite app_nil_r. f_equal. rewrite <-fmap_S_seq, <-list_fmap_compose.
  apply list_fmap_ext. intros i x _. simpl. by rewrite <-app_assoc.
Qed.

Lemma greedy_decode_length n : ∀ ctx, length (greedy_decode n ctx) = n.
Proof using. induction n as [|n IH]; intros ctx; simpl; [done|]. by rewrite IH. Qed.

(** How many draft tokens the target model agrees with. *)
Fixpoint agreed (ctx draft : list Z) : nat :=
  match draft with
  | [] => 0
  | t :: draft' => if decide (greedy_sample (probs ctx) = t) then S (agreed (ctx ++ [t]) draft') else 0
  end.

Lemma agreed_le draft : ∀ ctx, agreed ctx draft ≤ length draft.
Proof using. induction draft as [|t draft IH]; intros ctx; simpl; [done|]. case_decide; [|lia]. specialize (IH (ctx ++ [t])). lia. Qed.

(** The flags: agreement, and then the first disagreement. *)
Lemma agreed_flags draft : ∀ ctx, ∃ l,
  zip_with (λ a b, bool_decide (a = b)) (greedy_sample <$> verified ctx draft) draft =
    replicate (agreed ctx draft) true ++ l ∧
  length l = length draft - agreed ctx draft ∧ (l = [] ∨ ∃ l', l = false :: l').
Proof using.
  induction draft as [|t draft IH]; intros ctx; [exists []; simpl; auto|].
  rewrite verified_cons, fmap_cons. simpl. case_decide as Ht.
  - destruct (IH (ctx ++ [t])) as (l&->&Hl&Hc). exists l. rewrite bool_decide_true by done. simpl. auto.
  - rewrite bool_decide_false by done. eexists. split_and!; [done| |by right; eexists]. simpl.
    rewrite length_zip_with, length_fmap. unfold verified. rewrite length_fmap, length_seq. lia.
Qed.

(** Up to the first disagreement, the target's choices along the draft are its
    greedy decoding. *)
Lemma agreed_decode draft : ∀ ctx,
  take (S (agreed ctx draft)) ((greedy_sample <$> verified ctx draft) ++ [greedy_sample (probs (ctx ++ draft))]) =
  greedy_decode (S (agreed ctx draft)) ctx.
Proof using.
  induction draft as [|t draft IH]; intros ctx; [simpl; by rewrite app_nil_r|].
  rewrite verified_cons, fmap_cons. cbn [agreed greedy_decode app take]. case_decide as Ht; [|done].
  f_equal. rewrite Ht. rewrite <-IH. simpl. rewrite <-app_assoc. done.
Qed.

Lemma mask_out_split n l ids : n ≤ length ids → length l = length ids - n → Forall (λ b, b = false) l →
  mask_out (replicate n true ++ l) ids = take n ids ++ replicate (length ids - n) (-1)%Z.
Proof using.
  revert ids. induction n as [|n IH]; intros ids Hn Hl Hf; simpl.
  - rewrite Nat.sub_0_r in *. revert ids Hl Hn. induction Hf as [|b l -> _ IHl]; intros [|i ids] Hl Hn; simpl in *; try done.
    f_equal. apply IHl; lia.
  - destruct ids as [|i ids]; [simpl in Hn; lia|]. simpl in *. unfold mask_out in *. simpl. f_equal. apply IH; [lia|done|done].
Qed.

(** Greedy rejection sampling is the target model's own greedy decoding. *)
Lemma rejection_greedy_spec ctx draft :
  (rejection_greedy draft (verified ctx draft) (greedy_sample (probs (ctx ++ draft)))).2 =
  greedy_decode (S (agreed ctx draft)) ctx ++ replicate (length draft - agreed ctx draft) (-1)%Z.
Proof using laws.
  unfold rejection_greedy. cbn [snd]. set (ids := (greedy_sample <$> _) ++ _). destruct (agreed_flags draft ctx) as (l&->&Hl&Hc).
  pose proof (agreed_le draft ctx) as Hle.
  assert (length ids = S (length draft)) as Hids.
  { unfold ids, verified. rewrite length_app, !length_fmap, length_seq. simpl. lia. }
  rewrite <-agreed_decode. fold ids. replace (length draft - agreed ctx draft) with (length ids - S (agreed ctx draft)) by lia.
  destruct Hc as [->|[l' ->]].
  - rewrite app_nil_r, build_accepted_mask_all, <-(app_nil_r (replicate _ true)).
    simpl in Hl. apply mask_out_split; [lia|simpl; lia|constructor].
  - rewrite build_accepted_mask_spec. simpl in Hl.
    apply mask_out_split; [lia|simpl; rewrite length_replicate; lia|]. by apply (Forall_replicate (λ b, b = false)).
Qed.
End laws.
