(* ===== verification/Engine.v ===== *)
(** * The engine: data and operations

    [src/engine/worker.cpp], [src/engine/llm_engine.h] and [llm_engine.cpp]: how
    much memory the KV cache gets, and one step of the model on a batch.  The
    network itself (the model runner, the models, the layers and the kernels) is
    the parameter [Model]: it reads the input and its KV cache, updates the KV
    cache, and gives the scores of the selected tokens.  The workers run the same
    input in parallel on their own state; the first is the driver. *)

From Stdlib Require Import SpecFloat.
From stdpp Require Import base tactics list gmap strings sorting.
From S2P Require Import Prelude Slice Block Types Stopping Decoder Sequence Sampling Batch Logits Sampler.
From S2P Require Import BlockManager.

(** ** The network and the random numbers *)

Class Model (KV Hidden : Type) := {
  (** [model_runner_->forward] *)
  md_forward : ModelInput → KV → Hidden * KV;
  (** [model_->logits] *)
  md_logits : Hidden → list Z → list (list float);
}.

(** One row of scores per selected token. *)
Class ModelLaws (KV Hidden : Type) `{Model KV Hidden} (vocab : nat) : Prop := {
  logits_length h sel : length (md_logits h sel) = length sel;
  logits_rows h sel : Forall (λ r, length r = vocab) (md_logits h sel);
}.

(** The [n]-th call of [exponential_] on a matrix of the given shape. *)
Class Rng := exponential : nat → nat → nat → list (list float).
Class RngLaws (rng : Rng) : Prop := {
  exponential_rows n r c : length (exponential n r c) = r;
  exponential_cols n r c : Forall (λ l, length l = c) (exponential n r c);
}.

(** ** Data *)

(** [struct ModelOutput]. *)
Record ModelOutput := mkModelOutput {
  mo_do_sample : option (list bool);
  mo_logprobs : bool;
  mo_max_top_logprobs : Z;
  mo_sample_output : SampleOutput;
  mo_logits : option (list (list float));
}.
Definition SampleOutput_empty : SampleOutput := mkSampleOutput None None None None None.
Definition ModelOutput_empty : ModelOutput := mkModelOutput None false 0 SampleOutput_empty None.

(** [class Worker], and how many random matrices it has drawn. *)
Record Worker (KV : Type) := mkWorker {
  driver_ : bool;
  kv_caches_ : KV;
  draws : nat;
}.
Arguments mkWorker {KV} _ _ _.
Arguments driver_ {KV} _.
Arguments kv_caches_ {KV} _.
Arguments draws {KV} _.

(** [struct LLMEngine::Options]. *)
Record EngineOptions := mkEngineOptions {
  eo_block_size : Z;
  eo_max_cache_size : Z;
  eo_max_memory_utilization : float;
  eo_enable_prefix_cache : bool;
  eo_num_decoding_tokens : nat;
  eo_enable_cuda_graph : bool;
  eo_cuda_graph_batch_sizes : option (list nat);
}.

(** [class LLMEngine]. *)
Record LLMEngine (KV : Type) := mkLLMEngine {
  eng_options_ : EngineOptions;
  batch_sizes_ : list nat;
  workers_ : list (Worker KV);
}.
Arguments mkLLMEngine {KV} _ _ _.
Arguments eng_options_ {KV} _.
Arguments batch_sizes_ {KV} _.
Arguments workers_ {KV} _.

(** [kDefaultBatchSizesForCudaGraph]. *)
Definition kDefaultBatchSizesForCudaGraph : list nat := [1; 2; 4; 8; 16; 24; 32; 48; 64].

(** [LLMEngine::LLMEngine]: the batch sizes are sorted, the first worker is the
    driver. *)
Definition LLMEngine_new {KV} (options : EngineOptions) (kvs : list KV) : result (LLMEngine KV) :=
  match kvs with
  | [] => Fail (CheckFailed "At least one device is required")
  | _ =>
      let sizes := if eo_enable_cuda_graph options
        then merge_sort le (default kDefaultBatchSizesForCudaGraph (eo_cuda_graph_batch_sizes options))
        else [] in
      Ok (mkLLMEngine options sizes
            (imap (λ i kv, mkWorker (bool_decide (i = 0)) kv 0) kvs))
  end.

(** ** Memory for the KV cache *)

(** [int64_t] arithmetic. *)
Definition i64 (z : Z) : Z := ((z + 2 ^ 63) `mod` 2 ^ 64 - 2 ^ 63)%Z.

(** [double -> int64_t]: toward zero. *)
Definition double_to_Z (x : float) : Z :=
  match x with
  | S754_finite s m e =>
      let v := if decide (0 ≤ e)%Z then (Zpos m * 2 ^ e)%Z else (Zpos m / 2 ^ (- e))%Z in
      if s then (- v)%Z else v
  | _ => 0%Z
  end.

(** The memory that is left to the cache on one device. *)
Definition usable_memory (o : EngineOptions) (available total : Z) : Z :=
  let one := double_of_size 1 in
  let available :=
    if SFltb (eo_max_memory_utilization o) one
    then (available - double_to_Z (SFmul 53 1024 (binary_normalize 53 1024 total 0 false)
                                     (SFsub 53 1024 one (eo_max_memory_utilization o))))%Z
    else available in
  if decide (0 < eo_max_cache_size o)%Z then Z.min available (eo_max_cache_size o) else available.

(** [LLMEngine::profile_memory_for_kv_cache], from the answers of the devices:
    available and total memory, or nothing. *)
Definition profile_memory_for_kv_cache (o : EngineOptions) (devices : list (option (Z * Z))) : Z :=
  let smallest := foldl (λ acc d,
    match d with
    | Some (available, total) => Z.min acc (usable_memory o available total)
    | None => acc
    end) (2 ^ 63 - 1)%Z devices in
  Z.max smallest 0.

(** [n_local_kv_heads_] of [LLMEngine::init_model]. *)
Definition n_local_kv_heads (n_heads : Z) (n_kv_heads : option Z) (world_size : Z) : Z :=
  Z.max 1 (Z.quot (default n_heads n_kv_heads) world_size).

(** [LLMEngine::kv_cache_slot_size_in_bytes]. *)
Definition kv_cache_slot_size_in_bytes (n_local_kv_heads head_dim n_layers dtype_size : Z) : Z :=
  i64 (i64 (i64 (2 * n_local_kv_heads) * head_dim) * n_layers * dtype_size).

(** [LLMEngine::calculate_kv_cache_blocks]; dividing by zero is undefined. *)
Definition calculate_kv_cache_blocks {S} (block_size slot_size cache_size_in_bytes : Z) : M S Z :=
  let block_size_in_bytes := i64 (block_size * slot_size) in
  if decide (block_size_in_bytes = 0)%Z then fail OutOfBounds
  else mret (Z.quot cache_size_in_bytes block_size_in_bytes).

(** The block manager that [LLMEngine::init_kv_cache] creates; [num_blocks] is a
    [uint32_t]. *)
Definition init_kv_cache (o : EngineOptions) (n_blocks : Z) : result BlockManager :=
  if decide (0 < n_blocks)%Z then
    BlockManager_new (mkBlockManagerOptions (u32 (Z.to_nat n_blocks)) (Z.to_nat (eo_block_size o))
      (eo_enable_prefix_cache o))
  else Fail (CheckFailed "no memory for kv cache").

(** ** One step of the model *)

Section execute.
Context {KV Hidden : Type} {md : Model KV Hidden} {th : Torch} {rng : Rng} (prec emax : Z).

(** The scores after the logits processors, and the sampled tokens. *)
Definition sample_logits {S} (params : SamplingParameters) (n : nat) (logits : list (list float)) :
    M S ModelOutput :=
  ps ← create prec emax params;
  logits ← forward_all prec emax ps (spp_unique_token_ids params) (spp_unique_token_counts params) logits;
  (* select sample logits *)
  rows ← map_each (λ i, at_ logits (Z.to_nat i)) (spp_sample_idxes params);
  let cols := default 0 (length <$> head logits) in
  o ← sampler_forward (spp_do_sample params) (spp_logprobs params) (spp_max_top_logprobs params)
        (exponential n (length rows) cols) rows;
  mret (mkModelOutput (Some (spp_do_sample params)) (spp_logprobs params) (spp_max_top_logprobs params)
          o (Some logits)).

(** [Worker::execute_model]. *)
Definition worker_execute (inputs : ModelInput) : M (Worker KV) (option ModelOutput) :=
  w ← get;
  let '(hidden, kv) := md_forward inputs (kv_caches_ w) in
  _ ← put (mkWorker (driver_ w) kv (draws w));
  if negb (driver_ w) then mret None
  else
    match mi_sampling_params inputs with
    | None => mret (Some ModelOutput_empty)
    | Some params =>
        let logits := md_logits hidden (spp_selected_token_idxes params) in
        o ← sample_logits params (draws w) logits;
        _ ← put (mkWorker (driver_ w) kv (S (draws w)));
        mret (Some o)
    end.

(** All workers, each on its own state. *)
Fixpoint run_workers (inputs : ModelInput) (ws : list (Worker KV)) :
    result (list (option ModelOutput) * list (Worker KV)) :=
  match ws with
  | [] => Ok ([], [])
  | w :: ws' =>
      match worker_execute inputs w with
      | Fail e => Fail e
      | Ok (o, w') =>
          match run_workers inputs ws' with
          | Fail e => Fail e
          | Ok (os, ws'') => Ok (o :: os, w' :: ws'')
          end
      end
  end.

(** [std::lower_bound] on the sorted batch sizes. *)
Definition lower_bound (n : nat) (l : list nat) : option nat :=
  snd <$> list_find (λ x, n ≤ x) l.

Context {K St : Type} `{SeqHeap K St}.

(** [LLMEngine::execute_model]. *)
Definition execute_model : M (LLMEngine KV * (Batch K * St)) ModelOutput :=
  p ← get;
  let e := p.1 in
  (* find the closest batch size in the captured graph *)
  let adjusted_batch_size :=
    if eo_enable_cuda_graph (eng_options_ e)
    then default 0 (lower_bound (length (sequences_ p.2.1)) (batch_sizes_ e))
    else 0 in
  inputs ← on_snd (prepare_model_input (eo_num_decoding_tokens (eng_options_ e)) adjusted_batch_size);
  match inputs with
  (* empty input, just return *)
  | None => mret ModelOutput_empty
  | Some inputs =>
      match run_workers inputs (workers_ e) with
      | Fail err => fail err
      | Ok (results, ws) =>
          _ ← on_fst (put (mkLLMEngine (eng_options_ e) (batch_sizes_ e) ws));
          (* return the result from the driver *)
          front ← from_option_or OutOfBounds (head results);
          match front with
          | None => fail (CheckFailed "Failed to execute model")
          | Some model_output =>
              _ ← on_snd (process_sample_output (mo_sample_output model_output));
              mret model_output
          end
      end
  end.
End execute.
