(* ===== verification/ModelRunner.v ===== *)
(** * The model runner

    [src/engine/model_runner.h] and [model_runner.cpp]: decoding batches of certain
    sizes are run by CUDA graphs that were captured once.  The graphs share their
    input buffers: each of them reads a view of the front of every buffer, and a replay
    runs the recorded kernels on what the views hold then, with the scalars of the
    capture.  The network is the parameter [Model] of the engine. *)

From stdpp Require Import base tactics list gmap strings.
From S2P Require Import Prelude Slice Types Sampling Batch Logits Sampler Engine.

(** [struct ModelRunner::Options], and whether the device is a GPU. *)
Record RunnerOptions := mkRunnerOptions {
  ro_cuda : bool;
  ro_num_decoding_tokens : nat;
  ro_block_size : nat;
  ro_cuda_graph_max_seq_len : nat;
  ro_cuda_graph_batch_sizes : list nat;
}.

(** The tensors that the graphs share. *)
Record GraphBuffers := mkBuffers {
  gb_token_ids : list Z;
  gb_positions : list Z;
  gb_q_cu_seq_lens : list Z;
  gb_kv_cu_seq_lens : list Z;
  gb_new_cache_slots : list Z;
  gb_block_tables : list Z;
  gb_cu_block_lens : list Z;
}.

(** [class CudaGraph]: the sizes of its views and the scalars of the capture. *)
Record CudaGraph := mkCudaGraph {
  cg_batch_size_ : nat;
  cg_num_tokens_ : nat;
  cg_q_max_seq_len : nat;
  cg_kv_max_seq_len : nat;
}.

(** [class ModelRunner]. *)
Record ModelRunner := mkRunner {
  mr_options_ : RunnerOptions;
  mr_max_batch_size_ : nat;
  mr_buffers : GraphBuffers;
  mr_graphs_ : gmap nat CudaGraph;
}.

Definition zeros (n : nat) : list Z := replicate n 0%Z.

(** [torch::range(0, end, step)]: the end is included. *)
Definition torch_range (end_ step : nat) : list Z := (λ i, Z.of_nat (i * step)) <$> seq 0 (end_ / step + 1).

(** [ModelRunner::ModelRunner]. *)
Definition ModelRunner_new (o : RunnerOptions) : ModelRunner :=
  match ro_cuda o, ro_cuda_graph_batch_sizes o with
  | true, (_ :: _) as sizes =>
      let max_batch_size := foldl Nat.max 0 sizes in
      let num_decoding_tokens := ro_num_decoding_tokens o in
      let max_num_tokens := num_decoding_tokens * max_batch_size in
      (* round up and add one additional block for speculative decoding *)
      let max_block_table_len := (ro_cuda_graph_max_seq_len o + ro_block_size o - 1) / ro_block_size o + 1 in
      mkRunner o max_batch_size
        (mkBuffers (zeros max_num_tokens) (zeros max_num_tokens)
           (torch_range (max_num_tokens + 1) num_decoding_tokens)
           (torch_range (max_num_tokens + 1) num_decoding_tokens)
           (zeros max_num_tokens) (zeros (max_batch_size * max_block_table_len)) (zeros (max_batch_size + 1))) ∅
  | _, _ => mkRunner o 0 (mkBuffers [] [] [] [] [] [] []) ∅
  end.

(** A graph reads the front of the buffers. *)
Definition graph_input (g : CudaGraph) (b : GraphBuffers) : ModelInput :=
  mkModelInput (take (cg_num_tokens_ g) (gb_token_ids b)) (take (cg_num_tokens_ g) (gb_positions b))
    (cg_batch_size_ g) (cg_kv_max_seq_len g) (cg_q_max_seq_len g)
    (take (cg_batch_size_ g + 1) (gb_kv_cu_seq_lens b)) (take (cg_batch_size_ g + 1) (gb_q_cu_seq_lens b))
    (take (cg_num_tokens_ g) (gb_new_cache_slots b)) (gb_block_tables b)
    (take (cg_batch_size_ g + 1) (gb_cu_block_lens b)) None.

(** [view.copy_(src)], where the view is the first [n] elements of a buffer: a source of
    one element is broadcast. *)
Definition copy_view {S} (n : nat) (src buffer : list Z) : M S (list Z) :=
  let view := take n buffer in
  if decide (length src = length view) then mret (src ++ drop (length view) buffer)
  else match src with
       | [x] => mret (replicate (length view) x ++ drop (length view) buffer)
       | _ => fail (CheckFailed "The size of tensor a must match the size of tensor b")
       end.

Section runner.
Context {KV Hidden : Type} `{Model KV Hidden}.

(** [ModelRunner::capture_cuda_graphs] and [CudaGraph::capture]: the warm-up runs the
    model, the capture itself only records it. *)
Definition capture_cuda_graphs (batch_size : nat) : M (ModelRunner * KV) unit :=
  p ← get;
  let r := p.1 in
  let o := mr_options_ r in
  if negb (ro_cuda o) || bool_decide (ro_cuda_graph_batch_sizes o = []) then mret tt
  else
    _ ← check (bool_decide (batch_size ≤ mr_max_batch_size_ r)) "batch size too big";
    let n_tokens := ro_num_decoding_tokens o * batch_size in
    let graph := mkCudaGraph batch_size (length (take n_tokens (gb_token_ids (mr_buffers r))))
                   (ro_num_decoding_tokens o) (ro_cuda_graph_max_seq_len o) in
    let kv := (md_forward (graph_input graph (mr_buffers r)) p.2).2 in
    put (mkRunner o (mr_max_batch_size_ r) (mr_buffers r) (<[batch_size := graph]> (mr_graphs_ r)), kv).

(** [CudaGraph::replay]. *)
Definition replay (g : CudaGraph) (input : ModelInput) : M (ModelRunner * KV) Hidden :=
  p ← get;
  let b := mr_buffers p.1 in
  let block_table_len := length (mi_block_tables input) in
  _ ← check (bool_decide (mi_num_sequences input = cg_batch_size_ g)) "batch size mismatch";
  _ ← check (bool_decide (length (mi_token_ids input) = cg_num_tokens_ g)) "num tokens mismatch";
  _ ← check (bool_decide (block_table_len ≤ length (gb_block_tables b))) "block table size mismatch";
  (* prepare input tensors *)
  tokens ← copy_view (cg_num_tokens_ g) (mi_token_ids input) (gb_token_ids b);
  positions ← copy_view (cg_num_tokens_ g) (mi_positions input) (gb_positions b);
  q_cu ← copy_view (cg_batch_size_ g + 1) (mi_q_cu_seq_lens input) (gb_q_cu_seq_lens b);
  kv_cu ← copy_view (cg_batch_size_ g + 1) (mi_kv_cu_seq_lens input) (gb_kv_cu_seq_lens b);
  slots ← copy_view (cg_num_tokens_ g) (mi_new_cache_slots input) (gb_new_cache_slots b);
  (* it is possible that the block table with different padding length *)
  blocks ← copy_view block_table_len (mi_block_tables input) (gb_block_tables b);
  cu_blocks ← copy_view (cg_batch_size_ g + 1) (mi_cu_block_lens input) (gb_cu_block_lens b);
  let b' := mkBuffers tokens positions q_cu kv_cu slots blocks cu_blocks in
  (* replay the graph *)
  let '(hidden_states, kv) := md_forward (graph_input g b') p.2 in
  _ ← put (mkRunner (mr_options_ p.1) (mr_max_batch_size_ p.1) b' (mr_graphs_ p.1), kv);
  mret hidden_states.

(** The graph that [forward] replays, if it does. *)
Definition graph_for (r : ModelRunner) (input : ModelInput) : option CudaGraph :=
  g ← mr_graphs_ r !! mi_num_sequences input;
  let o := mr_options_ r in
  let seq_len_supported := bool_decide (mi_kv_max_seq_len input ≤ ro_cuda_graph_max_seq_len o) in
  let same_num_decoding_tokens :=
    bool_decide (mi_q_max_seq_len input = ro_num_decoding_tokens o) &&
    bool_decide (length (mi_token_ids input) = mi_num_sequences input * ro_num_decoding_tokens o) in
  if seq_len_supported && same_num_decoding_tokens then Some g else None.

(** [ModelRunner::forward]. *)
Definition runner_forward (input : ModelInput) : M (ModelRunner * KV) Hidden :=
  p ← get;
  match graph_for p.1 input with
  | Some g => replay g input
  | None =>
      (* run model directly in eager mode *)
      let '(hidden_states, kv) := md_forward input p.2 in
      _ ← put (p.1, kv);
      mret hidden_states
  end.
End runner.
