(* ===== verification/Speculative.v ===== *)
(** * Speculative decoding

    [src/speculative/speculative_engine.h] and [speculative_engine.cpp]: a draft
    engine proposes tokens, the target engine scores all of them at once, and
    rejection sampling decides how many are kept.  The two networks are
    parameters, as in the engine. *)

From Stdlib Require Import SpecFloat.
From stdpp Require Import base tactics list gmap strings sorting.
From S2P Require Import Prelude Slice Block Types Stopping Decoder Sequence Sampling Batch Logits Sampler.
From S2P Require Import BlockManager Rejection Engine.

(** ** Data *)

(** [struct SpeculativeEngine::Options]; a device is its index. *)
Record SpeculativeOptions := mkSpeculativeOptions {
  so_devices : list nat;
  so_draft_devices : list nat;
  so_block_size : Z;
  so_max_cache_size : Z;
  so_max_memory_utilization : float;
  so_enable_prefix_cache : bool;
  so_num_speculative_tokens : Z;
  so_enable_cuda_graph : bool;
  so_cuda_graph_batch_sizes : option (list nat);
  so_draft_cuda_graph_batch_sizes : option (list nat);
}.

(** [class SpeculativeEngine], and how often it drew random numbers. *)
Record SpeculativeEngine (KVt KVd : Type) := mkSpeculativeEngine {
  spec_num_tokens : nat;
  spec_engine_ : LLMEngine KVt;
  draft_engine_ : LLMEngine KVd;
  share_device_ : bool;
  spec_draws : nat;
}.
Arguments mkSpeculativeEngine {KVt KVd} _ _ _ _ _.
Arguments spec_num_tokens {KVt KVd} _.
Arguments spec_engine_ {KVt KVd} _.
Arguments draft_engine_ {KVt KVd} _.
Arguments share_device_ {KVt KVd} _.
Arguments spec_draws {KVt KVd} _.

(** The options that an engine gets from those of the speculative engine. *)
Definition carry_options (o : SpeculativeOptions) (num_decoding_tokens : nat) (sizes : option (list nat)) : EngineOptions :=
  mkEngineOptions (so_block_size o) (so_max_cache_size o) (so_max_memory_utilization o) (so_enable_prefix_cache o)
    num_decoding_tokens (so_enable_cuda_graph o) sizes.

(** [SpeculativeEngine::SpeculativeEngine]; [kvt] and [kvd] are the KV caches of
    the devices. *)
Definition SpeculativeEngine_new {KVt KVd} (o : SpeculativeOptions) (kvt : list KVt) (kvd : list KVd) :
    result (SpeculativeEngine KVt KVd) :=
  if decide (0 < so_num_speculative_tokens o)%Z then
    let k := Z.to_nat (so_num_speculative_tokens o) in
    match LLMEngine_new (carry_options o (k + 1) (so_cuda_graph_batch_sizes o)) kvt with
    | Fail e => Fail e
    | Ok target =>
        match LLMEngine_new (carry_options o 1 (so_draft_cuda_graph_batch_sizes o)) kvd with
        | Fail e => Fail e
        | Ok draft =>
            (* check if llm and ssm are using the same device *)
            Ok (mkSpeculativeEngine k target draft
                  (existsb (λ t, existsb (λ d, bool_decide (t = d)) (so_draft_devices o)) (so_devices o)) 0)
        end
    end
  else Fail (CheckFailed "speculative tokens should not be zero").

(** ** Initialisation *)

(** The check of [init_model] on the two tokenizers, from their vocabulary sizes
    and what [encode] returns on the test text: success, and the tokens.  The
    second tokenizer is only asked when the first succeeds. *)
Definition tokenizers_compatible (draft_vocab target_vocab : nat) (draft target : bool * list Z) : bool :=
  if decide (draft_vocab ≠ target_vocab) then false
  else if negb draft.1 || negb target.1
  then bool_decide (draft.2 = if draft.1 then target.2 else [])
  else true.

(** The context length that [init_model] leaves. *)
Definition context_length (target draft : Z) : Z := Z.min target draft.

(** [SpeculativeEngine::calculate_kv_cache_blocks]. *)
Definition spec_kv_cache_blocks {S} (block_size target_slot_size draft_slot_size cache_size_in_bytes : Z) : M S Z :=
  _ ← check (bool_decide (0 < cache_size_in_bytes)%Z) "no memory for kv cache";
  let block_size_in_bytes := i64 (block_size * i64 (target_slot_size + draft_slot_size)) in
  if decide (block_size_in_bytes = 0)%Z then fail OutOfBounds
  else mret (Z.quot cache_size_in_bytes block_size_in_bytes).

(** [SpeculativeEngine::init_kv_cache]: the number of blocks, from the memory that
    each engine may use. *)
Definition spec_init_kv_cache {S} (share_device : bool) (block_size target_slot_size draft_slot_size : Z)
    (target_kv_cache_size draft_kv_cache_size : Z) : M S Z :=
  n_blocks ←
    (if share_device then
       (* on the same device, use the smaller kv cache size *)
       spec_kv_cache_blocks block_size target_slot_size draft_slot_size
         (Z.min target_kv_cache_size draft_kv_cache_size)
     else
       (* on different devices, use the smaller number of blocks *)
       target_blocks ← calculate_kv_cache_blocks block_size target_slot_size target_kv_cache_size;
       draft_blocks ← calculate_kv_cache_blocks block_size draft_slot_size draft_kv_cache_size;
       mret (Z.min target_blocks draft_blocks));
  _ ← check (bool_decide (0 < n_blocks)%Z) "no memory for kv cache";
  mret n_blocks.

(** ** One step *)

(** The random numbers of the [n]-th rejection sampling, for sequence [i]. *)
Class RejectionRng := {
  rr_uniform : nat → nat → nat → list float;
  rr_exponential : nat → nat → nat → nat → list (list float);
}.

Section execute.
Context {KVt Ht KVd Hd : Type} {mdt : Model KVt Ht} {mdd : Model KVd Hd}.
Context {th : Torch} {rng : Rng} {rr : RejectionRng} (prec emax : Z).
Context {K St : Type} `{SeqHeap K St}.

(** Row [i] of the tensors of the draft outputs. *)
Definition draft_tokens_of {S} (batch_size : nat) (drafts : list ModelOutput) (i : nat) : M S (list Z) :=
  map_each (λ d : ModelOutput,
    toks ← from_option_or NullPointer (next_tokens (mo_sample_output d));
    _ ← check (bool_decide (length toks = batch_size)) "next_tokens.view({batch_size, 1})";
    at_ toks i) drafts.
Definition draft_probs_of {S} (batch_size : nat) (drafts : list ModelOutput) (i : nat) : M S (list (list float)) :=
  map_each (λ d : ModelOutput,
    probs ← from_option_or NullPointer (out_probs (mo_sample_output d));
    _ ← check (bool_decide (length probs = batch_size)) "probs.view({batch_size, 1, vocab_size})";
    at_ probs i) drafts.

(** [SpeculativeEngine::validate]. *)
Definition validate (draws : nat) (drafts : list ModelOutput) (target : ModelOutput) : M (Batch K * St) unit :=
  match next_tokens (mo_sample_output target) with
  | None => mret tt (* a pure prefill batch, no sampling needed *)
  | Some bonus_token_ids =>
      let batch_size := length bonus_token_ids in
      let k := length drafts in
      logits ← from_option_or NullPointer (mo_logits target);
      let vocab_size := default 0 (length <$> head logits) in
      _ ← check (bool_decide (length logits = batch_size * (k + 1)))
            "logits.view({batch_size, num_speculative_tokens + 1, vocab_size})";
      let target_logits := reshape (replicate batch_size (k + 1)) logits in
      do_sample ← from_option_or NullPointer (mo_do_sample target);
      _ ← check (bool_decide (batch_size = length do_sample)) "batch size mismatch";
      ps ← map_each (λ i,
        d ← at_ do_sample i;
        ids ← draft_tokens_of batch_size drafts i;
        probs ← draft_probs_of batch_size drafts i;
        tl ← at_ target_logits i;
        bonus ← at_ bonus_token_ids i;
        mret (mkProposal d ids probs tl bonus (rr_uniform draws i k) (rr_exponential draws i k vocab_size)))
        (seq 0 batch_size);
      (* get the accepted tokens *)
      o ← rejection_forward (mo_logprobs target) (mo_max_top_logprobs target) ps true;
      (* update the batch with the accepted tokens *)
      process_validate_output o
  end.

(** The proposals of the draft engine. *)
Fixpoint run_drafts (n : nat) (acc : list ModelOutput) : M (LLMEngine KVd * (Batch K * St)) (list ModelOutput) :=
  match n with
  | 0 => mret acc
  | S n => o ← execute_model prec emax; run_drafts n (acc ++ [o])
  end.

Abbreviation Spec := (SpeculativeEngine KVt KVd * (Batch K * St))%type.

(** Running one of the two engines, or an operation of the batch. *)
Definition on_draft {A} (m : M (LLMEngine KVd * (Batch K * St)) A) : M Spec A :=
  zoom (λ p, (draft_engine_ p.1, p.2))
    (λ q p, (mkSpeculativeEngine (spec_num_tokens p.1) (spec_engine_ p.1) q.1 (share_device_ p.1) (spec_draws p.1), q.2)) m.
Definition on_target {A} (m : M (LLMEngine KVt * (Batch K * St)) A) : M Spec A :=
  zoom (λ p, (spec_engine_ p.1, p.2))
    (λ q p, (mkSpeculativeEngine (spec_num_tokens p.1) q.1 (draft_engine_ p.1) (share_device_ p.1) (spec_draws p.1), q.2)) m.

(** [SpeculativeEngine::execute_model]. *)
Definition spec_execute_model : M Spec ModelOutput :=
  p ← get;
  (* run the draft model to get proposals *)
  _ ← on_snd (batch_set_engine_type SSM);
  draft_outputs ← on_draft (run_drafts (spec_num_tokens p.1) []);
  (* run the target model to get the verification scores *)
  _ ← on_snd (batch_set_engine_type LLM);
  output ← on_target (execute_model prec emax);
  (* verify the proposals with target and update the batch *)
  p ← get;
  _ ← put (mkSpeculativeEngine (spec_num_tokens p.1) (spec_engine_ p.1) (draft_engine_ p.1) (share_device_ p.1)
             (S (spec_draws p.1)), p.2);
  _ ← on_snd (validate (spec_draws p.1) draft_outputs output);
  mret output.
End execute.
