(* ===== verification/EngineInv.v ===== *)
(** * The engine: behaviour of one step

    For requests without token penalties, one step of the engine on a batch of
    ready sequences does not fail: every sequence advances by its chunk, and those
    that reach the end of their prompt get one token of the vocabulary. *)

From Stdlib Require Import SpecFloat.
From stdpp Require Import base tactics list gmap strings.
From S2P Require Import Prelude Slice Block Types Stopping Decoder Sequence SequenceInv Sampling.
From S2P Require Import Logits LogitsInv Batch BatchInv Sampler Engine.

(** ** Logits processors without penalties *)

(** No penalty on repeated tokens, and at most [v] top log probabilities. *)
Record plain_sampling (v : nat) (p : SamplingParameter) : Prop := {
  ps_frequency : not_zero (frequency_penalty p) = false;
  ps_presence : not_zero (presence_penalty p) = false;
  ps_repetition : not_one (repetition_penalty p) = false;
  ps_top : (sp_top_logprobs p ≤ Z.of_nat v)%Z;
}.

(** The processor works on [n] rows, whatever their content. *)
Definition shape_ok (n : nat) (p : LogitsProcessor) : Prop :=
  match p with
  | FrequencyPresencePenalty _ _ | RepetitionPenalty _ => False
  | Temperature t => length t = n
  | TopKTopP k p => (∀ l, k = Some l → length l = n) ∧ (∀ l, p = Some l → length l = n)
  end.

Section logits.
Context {th : Torch} {laws : TorchLaws th} (prec emax : Z).

Lemma create_plain {S} v params sel smp r (s : S) :
  inits params sel smp r → Forall (plain_sampling v) params →
  wp (create prec emax r) s (λ ps s', s' = s ∧ Forall (shape_ok (length params)) ps).
Proof using.
  intros Hi Hp. unfold create. rewrite (in_frequency _ _ _ _ Hi), (in_repetition _ _ _ _ Hi).
  rewrite (if_any_none not_zero), (if_any_none not_one);
    [|apply Forall_fmap; eapply Forall_impl; [exact Hp|]; by intros ? []..].
  wp_steps. split; [done|]. simpl. apply Forall_app. split.
  - destruct (spp_temperatures r) as [t|] eqn:Ht; [|constructor]. rewrite (in_temperatures _ _ _ _ Hi) in Ht.
    apply if_any_length in Ht as ->. repeat constructor. simpl. by rewrite !length_fmap.
  - assert (∀ l, spp_top_k r = Some l → length l = length params) as Hk.
    { intros l Hl. rewrite (in_top_k _ _ _ _ Hi) in Hl. apply if_any_length in Hl as ->. apply length_fmap. }
    assert (∀ l, spp_top_p r = Some l → length l = length params) as Hq.
    { intros l Hl. rewrite (in_top_p _ _ _ _ Hi) in Hl. apply if_any_length in Hl as ->. apply length_fmap. }
    destruct (spp_top_k r), (spp_top_p r); repeat constructor; done.
Qed.

Lemma per_row_wp {S A} (t : option (list A)) n what (s : S) : (∀ l, t = Some l → length l = n) →
  wp (per_row t n what) s (λ l s', s' = s ∧ length l = n).
Proof using.
  intros H. destruct t as [l|]; simpl; wp_steps.
  - apply bool_decide_eq_true_2. symmetry. by apply H.
  - split; [done|]. rewrite length_fmap. by apply H.
  - by rewrite length_replicate.
Qed.

Lemma forward_shape {S} v p ids counts logits (s : S) : shape_ok (length logits) p → rows v logits →
  wp (forward prec emax p ids counts logits) s (λ l s', s' = s ∧ length l = length logits ∧ rows v l).
Proof using laws.
  intros Hp Hr. destruct p as [| |t|k q]; simpl in *; [done|done|..].
  - wp_steps; [by apply bool_decide_eq_true_2|]. rewrite length_zip_with. split_and!; [done|lia|].
    apply Forall_lookup_2. intros i x Hx. apply lookup_zip_with_Some in Hx as (a&b&->&_&Hb).
    unfold apply_temperature_penalty. rewrite length_fmap. exact (Forall_lookup_1 _ _ _ _ Hr Hb).
  - destruct Hp as [Hk Hq]. wp_steps. eapply wp_mono; [by apply per_row_wp|]. intros ks ? [-> Hlk].
    wp_steps. eapply wp_mono; [by apply per_row_wp|]. intros qs ? [-> Hlq].
    wp_steps. rewrite !length_zip_with. split_and!; [done|lia|].
    apply Forall_lookup_2. intros i x Hx. apply lookup_zip_with_Some in Hx as (a&b&->&_&Hb).
    rewrite top_k_top_p_length. exact (Forall_lookup_1 _ _ _ _ Hr Hb).
Qed.

Lemma forward_all_shape {S} v ps ids counts : ∀ logits (s : S),
  Forall (shape_ok (length logits)) ps → rows v logits →
  wp (forward_all prec emax ps ids counts logits) s (λ l s', s' = s ∧ length l = length logits ∧ rows v l).
Proof using laws.
  induction ps as [|p ps IH]; intros logits s Hps Hr; simpl; [by apply wp_ret|].
  apply Forall_cons in Hps as [Hp Hps]. wp_steps. eapply wp_mono; [by apply forward_shape|].
  intros l ? (->&Hl&Hrl). eapply wp_mono; [apply IH; [by rewrite Hl|done]|].
  intros l' ? (->&Hl'&Hr'). split_and!; [done|lia|done].
Qed.

Context {rng : Rng} {rlaws : RngLaws rng}.

Lemma sample_logits_wp {S} v params sel smp r n logits (s : S) :
  0 < v → inits params sel smp r → Forall (plain_sampling v) params →
  length logits = length params → rows v logits → (logits = [] → smp = []) →
  Forall (λ i, 0 ≤ i < Z.of_nat (length params))%Z smp →
  wp (sample_logits prec emax r n logits) s (λ o s', s' = s ∧
    sampled_output v (length smp) (existsb sp_logprobs params)
      (foldl Z.max 0%Z (sp_top_logprobs <$> params)) (mo_sample_output o)).
Proof using laws rlaws.
  intros Hv Hi Hp Hl Hr Hnil Hsmp. unfold sample_logits. wp_steps.
  eapply wp_mono; [by eapply create_plain|]. intros ps ? [-> Hps]. wp_steps.
  eapply wp_mono; [apply (forward_all_shape v); [by rewrite Hl|done]|]. intros l1 ? (->&Hl1&Hr1). wp_steps.
  rewrite (in_samples _ _ _ _ Hi), (in_do_sample _ _ _ _ Hi), (in_logprobs _ _ _ _ Hi), (in_max_top _ _ _ _ Hi).
  eapply wp_mono; [apply (map_each_wp _ (λ _ r, length r = v))|].
  { intros i Hin. rewrite Forall_forall in Hsmp. specialize (Hsmp i Hin).
    destruct (lookup_lt_is_Some_2 l1 (Z.to_nat i)) as [x Hx]; [lia|]. unfold at_. wp_steps; [done|].
    split; [done|]. exact (Forall_lookup_1 _ _ _ _ Hr1 Hx). }
  intros rs ? [-> Hrs]. pose proof (Forall2_length _ _ _ Hrs) as Hlen. wp_steps.
  assert (rows v rs) as Hrows.
  { apply Forall_lookup_2. intros i x Hx. by destruct (Forall2_lookup_r _ _ _ _ _ Hrs Hx) as (?&_&?). }
  assert (rs ≠ [] → default 0 (length <$> head l1) = v) as Hcols.
  { intros Hne. destruct l1 as [|x l1].
    - destruct rs as [|y rs']; [done|]. destruct logits; [|done]. rewrite Hnil in Hlen by done. done.
    - apply Forall_cons in Hr1 as [<- _]. done. }
  eapply wp_mono; [apply (sampler_forward_wp v)|].
  - done.
  - done.
  - destruct (decide (rs = [])) as [->|Hne].
    + pose proof (exponential_rows n 0 (default 0 (length <$> head l1))) as E. simpl.
      destruct (exponential n 0 _); [constructor|done].
    + rewrite Hcols by done. apply exponential_cols.
  - apply exponential_rows.
  - rewrite length_fmap. lia.
  - intros _. pose proof (foldl_max_le (sp_top_logprobs <$> params) (Z.of_nat v) 0) as Hm.
    specialize (Hm ltac:(lia)). rewrite Forall_fmap in Hm.
    assert (foldl Z.max 0 (sp_top_logprobs <$> params) ≤ Z.of_nat v)%Z; [|lia].
    apply Hm. eapply Forall_impl; [exact Hp|]. by intros ? [].
  - intros o ? [-> Ho]. wp_steps. simpl. rewrite Hlen. done.
Qed.
End logits.

(** ** The workers *)

(** The parameters of a sampled sequence are among those of the batch. *)
Lemma sampled_params cs c : c ∈ cs → 0 < ck_len c → sampled c →
  sampling_param (options_ (ck_seq c)) ∈ batch_params cs.
Proof.
  intros Hc Hl Hs. unfold batch_params. apply list_elem_of_In, in_concat.
  exists (chunk_params c). split; [apply list_elem_of_In; by apply list_elem_of_fmap_2|].
  apply list_elem_of_In. unfold chunk_params. apply elem_of_replicate. split; [done|].
  unfold selected, sampled, ck_end in *. lia.
Qed.

(** A token built from the output carries the sampled id. *)
Lemma token_at_id {S} o toks i (s : S) token s' : token_at o toks i s = Ok (token, s') → toks !! i = Some (id token).
Proof.
  unfold token_at, build_token, at_, from_option_or, mbind, M_bind, mret, M_ret.
  destruct (toks !! i); [|done]. repeat case_match; intros; simplify_eq; done.
Qed.

(** The tokens can be handed out to sequences whose parameters were in the
    batch. *)
Lemma sampled_token_ok v n params o toks s i :
  sampled_output v n (existsb sp_logprobs params) (foldl Z.max 0%Z (sp_top_logprobs <$> params)) o →
  next_tokens o = Some toks → sampling_param (options_ s) ∈ params → i < n → ∃ t, token_ok o toks s i t.
Proof.
  intros [(toks'&Ht&Hlt&_) Hlp Htop Hnotop] Ho Hin Hi. rewrite Ho in Ht. injection Ht as <-.
  destruct (lookup_lt_is_Some_2 toks i) as [t Hti]; [lia|].
  set (m := foldl _ _ _) in *. set (sp := sampling_param (options_ s)) in *.
  assert (sp_logprobs sp = true → existsb sp_logprobs params = true) as Hex.
  { intros E. apply existsb_exists. exists sp. split; [by apply list_elem_of_In|done]. }
  assert (sp_top_logprobs sp ≤ m)%Z as Hm.
  { destruct (foldl_max_ge (sp_top_logprobs <$> params) 0) as [_ Hf]. rewrite Forall_forall in Hf.
    apply Hf. by apply list_elem_of_fmap_2. }
  assert (∃ token, (∀ S (st : S), token_at o toks i st = Ok (token, st)) ∧
    (sp_logprobs sp = true → (0 < m)%Z → length (tok_top_tokens token) = Z.to_nat m ∧
       length (tok_top_logprobs token) = Z.to_nat m)) as (token&Hrun&Hlen).
  { unfold token_at, build_token, at_, from_option_or, mbind, M_bind, mret, M_ret. rewrite Hti.
    destruct (out_logprobs o) as [lps|] eqn:Hlps.
    - assert (existsb sp_logprobs params = true) as Hb by (by destruct (existsb sp_logprobs params)).
      rewrite Hb in *. destruct Hlp as (l&[= ->]&Hll).
      destruct (lookup_lt_is_Some_2 l i) as [lp Hlpi]; [lia|]. rewrite Hlpi.
      destruct (decide (0 < m)%Z) as [Hpos|Hneg].
      + destruct (Htop eq_refl Hpos) as (tt&tl&->&->&H1&H2&H3&H4).
        destruct (lookup_lt_is_Some_2 tt i) as [x Hx]; [lia|].
        destruct (lookup_lt_is_Some_2 tl i) as [y Hy]; [lia|]. rewrite Hx, Hy. eexists. split; [done|].
        intros _ _. split; [exact (Forall_lookup_1 _ _ _ _ H3 Hx)|exact (Forall_lookup_1 _ _ _ _ H4 Hy)].
      + rewrite Hnotop by lia. eexists. split; [done|lia].
    - eexists. split; [done|]. intros E _. rewrite (Hex E) in Hlp. by destruct Hlp as (?&?&_). }
  exists (i32 (id token)), token. split_and!; [done| |done].
  intros E Hpos. fold sp in E, Hpos |- *. destruct (Hlen E) as [-> ->]; [lia|]. split; [done|]. lia.
Qed.

(** What the driver returns for these chunks. *)
Definition output_for (v : nat) (cs : list Chunk) (o : SampleOutput) : Prop :=
  (sum_selected cs = 0 ∧ o = SampleOutput_empty) ∨
  sampled_output v (length (filter sampled cs)) (existsb sp_logprobs (batch_params cs))
    (foldl Z.max 0%Z (sp_top_logprobs <$> batch_params cs)) o.

Section execute.
Context {KV Hidden : Type} {md : Model KV Hidden} {v : nat} {mlaws : ModelLaws KV Hidden v}.
Context {th : Torch} {laws : TorchLaws th} {rng : Rng} {rlaws : RngLaws rng} (prec emax : Z).

Lemma worker_execute_wp bs cs inputs (w : Worker KV) :
  0 < v → input_ok bs cs inputs → Forall (plain_sampling v) (batch_params cs) →
  wp (worker_execute prec emax inputs) w (λ o w', driver_ w' = driver_ w ∧
    (driver_ w = true → ∃ mo, o = Some mo ∧ output_for v cs (mo_sample_output mo))).
Proof using laws mlaws rlaws.
  intros Hv Hio Hp. unfold worker_execute. wp_steps. destruct (md_forward inputs (kv_caches_ w)) as [h kv].
  wp_steps. destruct (driver_ w) eqn:Hd; simpl; [|by wp_steps].
  pose proof (io_samples _ _ _ Hio) as Hs. destruct (mi_sampling_params inputs) as [r|].
  2:{ wp_steps. split; [done|]. intros _. eexists. split; [done|]. by left. }
  destruct Hs as (sel&smp&Hi&Hsel&Hsmp&Hb). wp_steps. rewrite (in_selected _ _ _ _ Hi).
  assert (length (md_logits h sel) = length (batch_params cs)) as Hl
    by (rewrite logits_length, batch_params_length; done).
  eapply wp_mono; [apply (sample_logits_wp prec emax v (batch_params cs) sel smp)|]; try done.
  - apply logits_rows.
  - intros E. rewrite E in Hl. simpl in Hl. rewrite batch_params_length in Hl. rewrite <- Hl in Hb.
    destruct smp as [|i smp]; [done|]. apply Forall_cons in Hb as [? _]. lia.
  - by rewrite batch_params_length.
  - intros o ? [-> Ho]. wp_steps. split; [done|]. intros _. eexists. split; [done|]. right.
    by rewrite <- Hsmp.
Qed.

(** The first worker is the driver. *)
Definition engine_ok (e : LLMEngine KV) : Prop := ∃ w ws, workers_ e = w :: ws ∧ driver_ w = true.

Lemma LLMEngine_new_ok o (kvs : list KV) e : LLMEngine_new o kvs = Ok e → engine_ok e.
Proof using. destruct kvs as [|kv kvs]; [done|]. intros [= <-]. by eexists _, _. Qed.

Lemma run_workers_ok bs cs inputs (ws : list (Worker KV)) :
  0 < v → input_ok bs cs inputs → Forall (plain_sampling v) (batch_params cs) →
  ∃ os ws', run_workers prec emax inputs ws = Ok (os, ws') ∧ length os = length ws ∧
    driver_ <$> ws' = driver_ <$> ws ∧
    ∀ i w, ws !! i = Some w → driver_ w = true →
      ∃ mo, os !! i = Some (Some mo) ∧ output_for v cs (mo_sample_output mo).
Proof using laws mlaws rlaws.
  intros Hv Hio Hp. induction ws as [|w ws (os&ws'&Hrun&Hl&Hd&Hall)]; [by exists [], []|].
  destruct (wp_ok _ _ _ (worker_execute_wp bs cs inputs w Hv Hio Hp)) as (o&w'&Hw&Hdw&Ho).
  exists (o :: os), (w' :: ws'). cbn [run_workers]. rewrite Hw, Hrun. split_and!; [done|simpl; lia|by rewrite !fmap_cons, Hdw, Hd|].
  intros [|i] x Hx Hdx; [|by apply (Hall i x)]. injection Hx as ->.
  destruct (Ho Hdx) as (mo&->&?). by exists mo.
Qed.

(** ** The whole step *)

Context {K St : Type} `{HS : SeqHeap K St} {HL : SeqHeapLaws K St}.

(** What one step does to a sequence with a budget of [m] tokens. *)
Definition stepped (m : nat) (s s' : Sequence) : Prop :=
  if is_prefill_stage (advance m s) then s' = advance m s
  else ∃ t, in_vocab v t ∧ appended (advance m s) t s'.

Lemma advance_kv m s : num_kv_cache_tokens (advance m s) = ck_end (chunk_of m s).
Proof using. unfold advance, num_kv_cache_tokens. simpl. by destruct (engine_type_ s). Qed.

Lemma advance_prefill m s : is_prefill_stage (advance m s) = false ↔ sampled (chunk_of m s).
Proof using.
  unfold is_prefill_stage, sampled. rewrite advance_kv, bool_decide_eq_false. simpl.
  unfold advance. simpl. lia.
Qed.

Lemma advance_inv bs m s : ready bs m s → seq_inv (advance m s).
Proof using.
  intros [HI Hkv _ _ _]. assert (ck_end (chunk_of m s) ≤ num_tokens_ s) by (unfold ck_end, ck_start; simpl; lia).
  pose proof (si_kv _ HI) as [? ?]. destruct HI. split; try done. simpl.
  by destruct (engine_type_ s).
Qed.

(** The heap after every job advanced holds the advanced sequences. *)
Lemma advance_all_lookup bs js : ∀ st, NoDup (jb_key <$> js) → jobs_ready bs js st →
  Forall2 (λ k s, seq_lookup k (advance_all js st) = Some s) (jb_key <$> js)
    ((λ j, advance (jb_budget j) (jb_seq j)) <$> js).
Proof using HL.
  induction js as [|j js IH]; intros st Hnd Hr; [constructor|]. rewrite !fmap_cons.
  apply NoDup_cons in Hnd as [Hj Hnd]. apply Forall_cons in Hr as [(Hl&_&_) Hr].
  pose proof (jobs_ready_update bs (jb_key j) (advance (jb_budget j) (jb_seq j)) js st Hj Hr) as Hr'.
  constructor; [|by apply IH]. simpl.
  assert (∀ js st, jb_key j ∉ jb_key <$> js → seq_lookup (jb_key j) (advance_all js st) = seq_lookup (jb_key j) st) as Hout.
  { clear -HL. induction js as [|i js IH]; intros st Hn; [done|]. rewrite fmap_cons in Hn. apply not_elem_of_cons in Hn as [? ?].
    unfold advance_all in *. simpl. rewrite IH by done. by apply seq_lookup_update_ne. }
  unfold advance_all in *. simpl. rewrite Hout by done. apply seq_lookup_update. by eexists.
Qed.

Lemma handed_out_stepped o toks i ss ss' j : (Z.of_nat v ≤ 2 ^ 31)%Z →
  handed_out o toks i ss ss' j → Forall (in_vocab v) toks →
  Forall2 (λ s s', if is_prefill_stage s then s' = s else ∃ t, in_vocab v t ∧ appended s t s') ss ss'.
Proof using.
  intros Hsm Hh Hv. induction Hh as [|i s ss ss' j Hpre _ IH|i s s' t ss ss' j Hpre Ht Ha _ IH]; [constructor|..].
  - constructor; [by rewrite Hpre|done].
  - constructor; [|done]. rewrite Hpre. exists t. split; [|done]. destruct Ht as (token&Hrun&_&<-).
    pose proof (token_at_id _ _ _ tt _ _ (Hrun _ tt)) as Hid.
    pose proof (Forall_lookup_1 _ _ _ _ Hv Hid) as Hin. unfold in_vocab in *. rewrite i32_id; lia.
Qed.

Lemma outputs_left_sampled (js : list (Job K)) :
  outputs_left ((λ j, advance (jb_budget j) (jb_seq j)) <$> js) = length (filter sampled (job_chunk <$> js)).
Proof using.
  unfold outputs_left. induction js as [|j js IH]; [done|]. rewrite !fmap_cons, !filter_cons.
  pose proof (advance_prefill (jb_budget j) (jb_seq j)) as Ha.
  change (chunk_of (jb_budget j) (jb_seq j)) with (job_chunk j) in Ha.
  repeat case_decide; simpl; rewrite ?IH; tauto.
Qed.

(** The sequence of the job may take a token. *)
Record job_open (j : Job K) : Prop := {
  jp_unfinished : is_finished_ (jb_seq j) = false;
  jp_room : num_tokens_ (jb_seq j) < length (token_ids_ (jb_seq j));
  jp_plain : plain_sampling v (sampling_param (options_ (jb_seq j)));
}.

Lemma batch_params_plain js : Forall job_open js → Forall (plain_sampling v) (batch_params (job_chunk <$> js)).
Proof using.
  intros H. unfold batch_params. apply Forall_concat, Forall_fmap, Forall_fmap.
  eapply Forall_impl; [exact H|]. intros j Hj. simpl. apply Forall_replicate. apply Hj.
Qed.

Lemma update_all_same (ks : list K) : ∀ ss st, Forall2 (λ k s, seq_lookup k st = Some s) ks ss →
  update_all ks ss st = st.
Proof using HL.
  induction ks as [|k ks IH]; intros ss st Hl; [done|]. apply Forall2_cons_inv_l in Hl as (s&ss'&Hk&Hl&->).
  unfold update_all in *. simpl. rewrite (seq_update_same k s st Hk). by apply IH.
Qed.

(** Without selected tokens no sequence reached the end of its prompt. *)
Lemma none_sampled cs c : sum_selected cs = 0 → c ∈ cs → 0 < ck_len c → ¬ sampled c.
Proof using.
  intros H Hc Hl Hs. pose proof (sampled_params cs c Hc Hl Hs) as Hin.
  rewrite <- batch_params_length in H. by destruct (batch_params cs); [apply elem_of_nil in Hin|].
Qed.

Lemma job_chunk_pos bs js st j : jobs_ready bs js st → j ∈ js → 0 < ck_len (job_chunk j).
Proof using.
  intros Hr Hj. unfold jobs_ready in Hr. rewrite Forall_forall in Hr. destruct (Hr j Hj) as (_&?&[]). simpl. lia.
Qed.

Lemma execute_model_wp bs (e : LLMEngine KV) js st :
  0 < v → (Z.of_nat v ≤ 2 ^ 31)%Z → engine_ok e → 0 < bs → js ≠ [] → NoDup (jb_key <$> js) →
  jobs_ready bs js st → Forall job_open js →
  (Z.of_nat (sum_list (ck_end <$> (job_chunk <$> js))) < 2 ^ 31)%Z →
  wp (execute_model prec emax)
    (e, (mkBatch (jb_key <$> js) (jb_budget <$> js) (replicate (length js) 0), st))
    (λ _ p, engine_ok p.1 ∧ ∃ ss', Forall2 (λ j s', stepped (jb_budget j) (jb_seq j) s') js ss' ∧
       p.2.2 = update_all (jb_key <$> js) ss' (advance_all js st)).
Proof using HL laws mlaws rlaws.
  intros Hv Hsm He Hbs Hne Hnd Hr Hopen Hsum. unfold execute_model. wp_steps. simpl. apply wp_on_snd.
  eapply wp_mono; [by apply (prepare_model_input_wp bs js)|]. intros inputs [b' st'] ((mi&->&Hio)&Hst&Hseqs).
  simpl in Hst, Hseqs. subst st'.
  destruct (run_workers_ok bs _ mi (workers_ e) Hv Hio (batch_params_plain js Hopen)) as (os&ws'&Hrun&Hlos&Hdr&Hout).
  rewrite Hrun. destruct He as (w&ws&Hws&Hw). rewrite Hws in *.
  destruct (Hout 0 w eq_refl Hw) as (mo&Hmo&Hof). destruct os as [|o os]; [done|]. injection Hmo as ->.
  wp_steps. apply wp_on_fst. wp_steps; [reflexivity|]. wp_steps.
  assert (∃ w0 ws0, ws' = w0 :: ws0 ∧ driver_ w0 = true) as He'.
  { destruct ws' as [|w0 ws0]; [done|]. injection Hdr as Hd0 _. exists w0, ws0. split; [done|congruence]. }
  set (ss := (λ j, advance (jb_budget j) (jb_seq j)) <$> js).
  pose proof (advance_all_lookup bs js st Hnd Hr) as Hlk. fold ss in Hlk.
  pose proof (outputs_left_sampled js) as Hol. fold ss in Hol.
  assert (Forall (λ s, is_prefill_stage s = false → can_append s) ss) as Hca.
  { apply Forall_fmap, Forall_forall. intros j Hj _. unfold jobs_ready in Hr. rewrite Forall_forall in Hr, Hopen.
    destruct (Hr j Hj) as (_&_&Hrd), (Hopen j Hj). split; [by eapply advance_inv|done|done]. }
  apply wp_bind, wp_on_snd. eapply (wp_mono _ _ (λ _ p, ∃ ss', Forall2 (λ j s', stepped (jb_budget j) (jb_seq j) s') js ss' ∧
    p.2 = update_all (jb_key <$> js) ss' (advance_all js st))).
  2:{ intros ? p (ss'&H1&H2). wp_steps. simpl. split; [done|]. by exists ss'. }
  destruct Hof as [[Hsel Ho]|Ho].
  - rewrite Ho. unfold process_sample_output. wp_steps. simpl. wp_steps. exists ss. split; [|by rewrite update_all_same].
    apply Forall2_fmap_r, Forall_Forall2_diag, Forall_forall. intros j Hj. unfold stepped.
    destruct (is_prefill_stage _) eqn:Hpre; [done|]. apply advance_prefill in Hpre.
    destruct (none_sampled _ (job_chunk j) Hsel); [by apply list_elem_of_fmap_2|by eapply job_chunk_pos|done].
  - pose proof (sm_tokens _ _ _ _ _ Ho) as (toks&Htoks&Hlt&Hvt).
    eapply wp_mono; [apply (process_sample_output_wp b' _ toks ss)|].
    + by rewrite Hseqs.
    + by rewrite Hseqs.
    + done.
    + done.
    + lia.
    + intros s i Hs Hpre Hi. apply list_elem_of_fmap in Hs as (j&->&Hj). apply advance_prefill in Hpre.
      eapply (sampled_token_ok v _ _ _ _ _ _ Ho); [done| |lia].
      apply (sampled_params _ (job_chunk j)); [by apply list_elem_of_fmap_2|by eapply job_chunk_pos|done].
    + intros ? p (_&ss'&Hh&Hp). exists ss'. rewrite Hseqs in Hp. split; [|done].
      pose proof (handed_out_stepped _ _ _ _ _ _ Hsm Hh Hvt) as Hf. unfold ss in Hf.
      rewrite Forall2_fmap_l in Hf. exact Hf.
Qed.
End execute.
