(* ===== verification/ResponseHandler.v ===== *)
(** * The response handler

    [src/scheduler/response_handler.h] and [response_handler.cpp].  The handler
    queues closures for a single-threaded pool; a closure is a [Task], which holds
    a pointer to the request.  A finished request is owned by its task, and is
    deleted when the task is done.  The callback [on_output] of the client is the
    parameter [on_output]. *)

From Stdlib Require Import Ascii SpecFloat.
From stdpp Require Import base tactics list gmap strings.
From S2P Require Import Prelude Slice Block Types Stopping Decoder Sequence Request Sampling Batch.

(** ** The heap of requests *)

(** [Request*] is a key, [Sequence*] a key and an index. *)
Abbreviation Heap := (gmap positive Request) (only parsing).

Definition with_request {A} (rid : positive) (m : M Request A) : M Heap A :=
  h ← get;
  r ← from_option_or UseAfterFree (h !! rid);
  match m r with
  | Ok (a, r') => _ ← put (<[rid:=r']> h); mret a
  | Fail e => fail e
  end.

#[global] Instance Heap_seqs : SeqHeap (positive * nat) Heap := {
  seq_lookup k h := r ← h !! k.1; sequences r !! k.2;
  seq_update k s h := match h !! k.1 with
    | Some r => <[k.1 := set_sequences (<[k.2 := s]> (sequences r)) r]> h
    | None => h
    end;
}.

#[global] Instance Heap_seqs_laws : SeqHeapLaws (positive * nat) Heap.
Proof.
  split; unfold seq_lookup, seq_update, Heap_seqs.
  - intros [i j] s h [s0 Hs]. cbn [fst snd] in *. apply bind_Some in Hs as (r&Hr&Hj). rewrite Hr.
    rewrite lookup_insert_eq. cbn. apply list_lookup_insert_eq. by eapply lookup_lt_Some.
  - intros [i j] s h Hs. cbn [fst snd] in *. apply bind_Some in Hs as (r&Hr&Hj). rewrite Hr.
    apply insert_id. rewrite Hr. f_equal. rewrite (list_insert_id _ _ _ Hj). by destruct r.
  - intros [i j] [i' j'] s h Hne. cbn [fst snd]. destruct (h !! i) as [r|] eqn:Hr; [|done].
    destruct (decide (i = i')) as [->|].
    + rewrite lookup_insert_eq, Hr. cbn. apply list_lookup_insert_ne. congruence.
    + by rewrite lookup_insert_ne.
Qed.

(** ** Tasks *)

Inductive Task :=
  | Finish (rid : positive)
  | Stream (rid : positive) (indexes num_tokens : list nat).

(** What waits in the pool, and what was sent to the clients. *)
Record Responses := mkResponses {
  tasks : list Task;
  sent : list (positive * RequestOutput);
}.

Definition push_task (t : Task) (r : Responses) : Responses := mkResponses (tasks r ++ [t]) (sent r).

(** [ResponseHandler::on_request_finish]. *)
Definition on_request_finish (rid : positive) : M (Heap * Responses) unit :=
  on_snd (modify (push_task (Finish rid))).

(** The loop of [on_request_stream] over the sequences: the indexes and sizes to
    output. *)
Fixpoint stream_indexes (rid : positive) (idxs : list nat) (acc : list (nat * nat)) :
    M Heap (list (nat * nat)) :=
  match idxs with
  | [] => mret acc
  | i :: idxs' =>
      closed ← with_seq (rid, i) (gets closed_);
      if (closed : bool) then stream_indexes rid idxs' acc
      else
        (* check if the sequence has enough tokens to output *)
        pending ← with_seq (rid, i) (gets has_pending_tokens);
        out ← (if (pending : bool) then mret true else with_seq (rid, i) is_finished);
        size ← with_seq (rid, i) (gets num_tokens_);
        let acc := if (out : bool) then acc ++ [(i, size)] else acc in
        (* close the sequence after sending finish reason *)
        fin ← with_seq (rid, i) is_finished;
        _ ← (if (fin : bool) then with_seq (rid, i) close else mret tt);
        stream_indexes rid idxs' acc
  end.

(** [ResponseHandler::on_request_stream]. *)
Definition on_request_stream (rid : positive) : M (Heap * Responses) unit :=
  r ← on_fst (with_request rid get);
  _ ← check (stream r) "request is not a streaming request";
  acc ← on_fst (stream_indexes rid (seq 0 (length (sequences r))) []);
  on_snd (modify (push_task (Stream rid acc.*1 acc.*2))).

(** ** The pool *)

Section pool.
Context {tk : Tokenizer}.
Context (on_output : positive → RequestOutput → bool).

(** The outputs of a [Stream] task. *)
Fixpoint stream_outputs (rid : positive) (work : list (nat * nat)) : M Heap (list SequenceOutput) :=
  match work with
  | [] => mret []
  | (index, size) :: work' =>
      o ← with_seq (rid, index) (build_delta_output_until size);
      os ← stream_outputs rid work';
      mret (match o with Some o => o :: os | None => os end)
  end.

Definition send (rid : positive) (o : RequestOutput) : M (Heap * Responses) unit :=
  on_snd (modify (λ r, mkResponses (tasks r) (sent r ++ [(rid, o)]))).

(** The body of a task. *)
Definition run_task (t : Task) : M (Heap * Responses) unit :=
  match t with
  | Finish rid =>
      o ← on_fst (with_request rid request_build_output);
      _ ← send rid o;
      (* the task owns the request *)
      on_fst (modify (delete rid))
  | Stream rid indexes num_tokens =>
      os ← on_fst (stream_outputs rid (zip indexes num_tokens));
      let o := mkRequestOutput None None os None false in
      _ ← send rid o;
      if on_output rid o then mret tt
      else on_fst (with_request rid cancel)
  end.

(** The worker thread takes the oldest task. *)
Definition run_next : M (Heap * Responses) unit :=
  p ← get;
  match tasks p.2 with
  | [] => mret tt
  | t :: ts =>
      _ ← on_snd (modify (λ r, mkResponses ts (sent r)));
      run_task t
  end.

(** [ResponseHandler::wait_for_complete]. *)
Definition wait_for_complete : M (Heap * Responses) unit :=
  p ← get;
  for_each (λ _, run_next) (tasks p.2).
End pool.
