(* ===== verification/Scheduler.v ===== *)
(** * The continuous scheduler: data and operations

    [src/scheduler/continuous_scheduler.h] and [continuous_scheduler.cpp].  The
    priority queue is the list of its requests from the highest priority to the
    lowest; requests with equal priority and creation time keep the order in
    which they were pushed.  The request queue is filled by other threads
    between the steps.  Metrics are left out. *)

From stdpp Require Import base tactics list gmap strings.
From S2P Require Import Prelude Slice Block Types Stopping Decoder Sequence Request Sampling Batch.
From S2P Require Import ResponseHandler BlockStore.

(** ** Data *)

(** [struct ContinuousScheduler::Options]. *)
Record SchedulerOptions := mkSchedulerOptions {
  max_tokens_per_batch : nat;
  max_seqs_per_batch : nat;
  num_speculative_tokens : nat;
}.

(** [kRequestQueueSize]: the capacity of [request_queue_]. *)
Definition kRequestQueueSize : N := 100000.

(** [class ContinuousScheduler], with the heap of requests, the block manager and
    the response handler that it points to. *)
Record Sched (St : Type) := mkSched {
  sch_options_ : SchedulerOptions;
  block_manager_ : St;
  requests : Heap;
  responses : Responses;
  request_queue_ : list positive;
  priority_queue_ : list positive;
  running_requests_ : list positive;
  running_sequences_ : list (positive * nat);
  running_sequences_budgets_ : list nat;
  preemptable_requests_ : list positive;
  enable_prefix_cache_ : bool;
  pending_requests_ : nat;
}.
Arguments mkSched {St} _ _ _ _ _ _ _ _ _ _ _ _.
Arguments sch_options_ {St} _.
Arguments block_manager_ {St} _.
Arguments requests {St} _.
Arguments responses {St} _.
Arguments request_queue_ {St} _.
Arguments priority_queue_ {St} _.
Arguments running_requests_ {St} _.
Arguments running_sequences_ {St} _.
Arguments running_sequences_budgets_ {St} _.
Arguments preemptable_requests_ {St} _.
Arguments enable_prefix_cache_ {St} _.
Arguments pending_requests_ {St} _.

Section setters.
Context {St : Type}.
Definition set_block_manager (v : St) (s : Sched St) : Sched St :=
  mkSched (sch_options_ s) v (requests s) (responses s) (request_queue_ s) (priority_queue_ s)
    (running_requests_ s) (running_sequences_ s) (running_sequences_budgets_ s) (preemptable_requests_ s) (enable_prefix_cache_ s) (pending_requests_ s).
Definition set_requests (v : Heap) (s : Sched St) : Sched St :=
  mkSched (sch_options_ s) (block_manager_ s) v (responses s) (request_queue_ s) (priority_queue_ s)
    (running_requests_ s) (running_sequences_ s) (running_sequences_budgets_ s) (preemptable_requests_ s) (enable_prefix_cache_ s) (pending_requests_ s).
Definition set_responses (v : Responses) (s : Sched St) : Sched St :=
  mkSched (sch_options_ s) (block_manager_ s) (requests s) v (request_queue_ s) (priority_queue_ s)
    (running_requests_ s) (running_sequences_ s) (running_sequences_budgets_ s) (preemptable_requests_ s) (enable_prefix_cache_ s) (pending_requests_ s).
Definition set_request_queue (v : list positive) (s : Sched St) : Sched St :=
  mkSched (sch_options_ s) (block_manager_ s) (requests s) (responses s) v (priority_queue_ s)
    (running_requests_ s) (running_sequences_ s) (running_sequences_budgets_ s) (preemptable_requests_ s) (enable_prefix_cache_ s) (pending_requests_ s).
Definition set_priority_queue (v : list positive) (s : Sched St) : Sched St :=
  mkSched (sch_options_ s) (block_manager_ s) (requests s) (responses s) (request_queue_ s) v
    (running_requests_ s) (running_sequences_ s) (running_sequences_budgets_ s) (preemptable_requests_ s) (enable_prefix_cache_ s) (pending_requests_ s).
Definition set_running_requests (v : list positive) (s : Sched St) : Sched St :=
  mkSched (sch_options_ s) (block_manager_ s) (requests s) (responses s) (request_queue_ s) (priority_queue_ s)
    v (running_sequences_ s) (running_sequences_budgets_ s) (preemptable_requests_ s) (enable_prefix_cache_ s) (pending_requests_ s).
Definition set_running_sequences (v : list (positive * nat)) (s : Sched St) : Sched St :=
  mkSched (sch_options_ s) (block_manager_ s) (requests s) (responses s) (request_queue_ s) (priority_queue_ s)
    (running_requests_ s) v (running_sequences_budgets_ s) (preemptable_requests_ s) (enable_prefix_cache_ s) (pending_requests_ s).
Definition set_running_budgets (v : list nat) (s : Sched St) : Sched St :=
  mkSched (sch_options_ s) (block_manager_ s) (requests s) (responses s) (request_queue_ s) (priority_queue_ s)
    (running_requests_ s) (running_sequences_ s) v (preemptable_requests_ s) (enable_prefix_cache_ s) (pending_requests_ s).
Definition set_preemptable (v : list positive) (s : Sched St) : Sched St :=
  mkSched (sch_options_ s) (block_manager_ s) (requests s) (responses s) (request_queue_ s) (priority_queue_ s)
    (running_requests_ s) (running_sequences_ s) (running_sequences_budgets_ s) v (enable_prefix_cache_ s) (pending_requests_ s).
Definition set_pending (v : nat) (s : Sched St) : Sched St :=
  mkSched (sch_options_ s) (block_manager_ s) (requests s) (responses s) (request_queue_ s) (priority_queue_ s)
    (running_requests_ s) (running_sequences_ s) (running_sequences_budgets_ s) (preemptable_requests_ s) (enable_prefix_cache_ s) v.
End setters.

Section scheduler.
Context {St : Type} {BS : BlockStore St}.

(** ** Access to the parts *)

Definition on_heap {A} (m : M Heap A) : M (Sched St) A := zoom requests set_requests m.
Definition on_request {A} (rid : positive) (m : M Request A) : M (Sched St) A :=
  on_heap (with_request rid m).
Definition on_seq {A} (k : positive * nat) (m : M Sequence A) : M (Sched St) A := on_heap (with_seq k m).
Definition on_responses {A} (m : M (Heap * Responses) A) : M (Sched St) A :=
  zoom (λ s, (requests s, responses s)) (λ p s, set_responses p.2 (set_requests p.1 s)) m.

(** A call of the block manager with a [Sequence*]. *)
Definition on_store {A} (k : positive * nat) (m : M (Sequence * St) A) : M (Sched St) A :=
  st ← get;
  s ← from_option_or UseAfterFree (seq_lookup k (requests st));
  match m (s, block_manager_ st) with
  | Ok (a, (s', b')) =>
      _ ← put (set_block_manager b' (set_requests (seq_update k s' (requests st)) st)); mret a
  | Fail e => fail e
  end.

(** [BlockManager::release_blocks_for(Request* )]. *)
Definition release_request (rid : positive) : M (Sched St) unit :=
  r ← on_request rid get;
  for_each (λ i, on_store (rid, i) store_release) (seq 0 (length (sequences r))).

(** ** The priority queue *)

(** Before the first request that must be processed after [rid]. *)
Fixpoint pq_insert (h : Heap) (rid : positive) (q : list positive) : list positive :=
  match q with
  | [] => [rid]
  | x :: q' =>
      match h !! rid, h !! x with
      | Some r, Some y => if request_less r y then rid :: q else x :: pq_insert h rid q'
      | _, _ => x :: pq_insert h rid q'
      end
  end.

Definition pq_push (rid : positive) : M (Sched St) unit :=
  modify (λ s, set_priority_queue (pq_insert (requests s) rid (priority_queue_ s)) s).
Definition pq_pop : M (Sched St) unit :=
  modify (λ s, set_priority_queue (tail (priority_queue_ s)) s).

(** ** Scheduling a request *)

(** [ContinuousScheduler::schedule]: the request is handed over under the
    fresh key [rid]. *)
Definition schedule (rid : positive) (r : Request) : M (Sched St) bool :=
  _ ← check (bool_decide (sequences r ≠ [])) "!request->sequences.empty()";
  s ← get;
  if decide (N.of_nat (length (request_queue_ s)) < kRequestQueueSize)%N then
    _ ← put (set_request_queue (request_queue_ s ++ [rid]) (set_requests (<[rid:=r]> (requests s)) s));
    mret true
  else mret false.

(** [inc_pending_requests] and [dec_pending_requests]. *)
Definition inc_pending_requests (count : nat) : M (Sched St) unit :=
  modify (λ s, set_pending (pending_requests_ s + count) s).
Definition dec_pending_requests : M (Sched St) unit :=
  s ← get;
  _ ← check (bool_decide (0 < pending_requests_ s)) "pending requests underflow";
  put (set_pending (pending_requests_ s - 1) s).

(** ** Allocating blocks for a sequence *)

(** The number of tokens to have after the step. *)
Definition tokens_after (k : nat) (s : Sequence) (token_budget : nat) : nat :=
  let kv := num_kv_cache_tokens s in
  let num_tokens := Nat.min (kv + token_budget) (num_tokens_ s) in
  (* make sure sequence either in prefill or decode phase in one step *)
  if decide (0 < k ∧ num_prompt_tokens_ s ≤ num_tokens) then
    (* reach decode phase, try to allocate slots for speculative tokens *)
    let adjusted := num_tokens + k in
    if decide (kv + token_budget < adjusted)
    then num_prompt_tokens_ s - 1 (* over budget, force the sequence in prefill phase *)
    else adjusted
  else num_tokens.

(** [ContinuousScheduler::allocate_blocks_for]: whether it succeeds, and
    [actual_tokens]. *)
Definition allocate_for (k : positive * nat) (token_budget : nat) : M (Sched St) (bool * nat) :=
  st ← get;
  let spec := num_speculative_tokens (sch_options_ st) in
  (* token budget should be large enough for one speculative decoding step *)
  _ ← check (bool_decide (spec < token_budget)) "token_budget > num_speculative_tokens";
  s ← on_seq k get;
  _ ← (if decide (num_blocks s = 0) then on_store k store_share else mret tt);
  s ← on_seq k get;
  let kv := num_kv_cache_tokens s in
  let num_tokens := tokens_after spec s token_budget in
  (* make sure the sequence proceeds forward *)
  _ ← check (bool_decide (kv < num_tokens)) "num_tokens > num_kv_cache_tokens";
  r ← on_store k (store_allocate num_tokens);
  mret (r, num_tokens - kv).

(** ** The phases of [build_sequence_batch] *)

(** Propagate new requests to the priority queue. *)
Definition admit_request (rid : positive) : M (Sched St) unit :=
  s ← get;
  (* expand sequences to the target number if prefix cache is disabled *)
  _ ← (if negb (enable_prefix_cache_ s) then on_request rid expand_sequences else mret tt);
  pq_push rid.
Definition drain_queue : M (Sched St) unit :=
  s ← get;
  _ ← for_each admit_request (request_queue_ s);
  modify (set_request_queue []).

(** Release the blocks of a sequence that is finished. *)
Definition release_if_finished (k : positive * nat) : M (Sched St) unit :=
  fin ← on_seq k is_finished;
  if (fin : bool) then on_store k store_release else mret tt.

(** The request is over: release its blocks and hand it to the responder. *)
Definition finish_request (rid : positive) : M (Sched St) unit :=
  _ ← release_request rid;
  on_responses (on_request_finish rid).

(** Put a running request back into the queues. *)
Definition requeue (rid : positive) : M (Sched St) unit :=
  fin ← on_request rid request_is_finished;
  r ← on_request rid get;
  if (fin : bool) || is_cancelled_ r then finish_request rid
  else
    (* check if the request can be expanded *)
    expand ← on_request rid should_expand_sequences;
    _ ← (if (expand : bool) then
           (* cache the blocks to share among the sequences *)
           _ ← on_store (rid, 0) store_cache;
           (* expand sequences to the target number *)
           on_request rid expand_sequences
         else mret tt);
    (* release blocks for finished sequences here *)
    r ← on_request rid get;
    _ ← for_each (λ i, release_if_finished (rid, i)) (seq 0 (length (sequences r)));
    (* put it to the front of the preemptable queue as it has higher priority *)
    _ ← modify (λ s, set_preemptable (rid :: preemptable_requests_ s) s);
    (* push the request back to the priority queue *)
    pq_push rid.

(** The candidates of a request: the sequences that got blocks, with their
    tokens, and whether the blocks were enough. *)
Record Candidates := mkCandidates {
  cand_sequences : list (positive * nat);
  cand_budgets : list nat;
  cand_enough : bool;
}.
Definition allocated_tokens (c : Candidates) : nat := sum_list (cand_budgets c).
Definition allocated_seqs (c : Candidates) : nat := length (cand_sequences c).

(** The [for] loop over the sequences of a request. *)
Fixpoint candidates (rid : positive) (avg remaining_tokens remaining_seqs : nat) (idxs : list nat)
    (c : Candidates) : M (Sched St) Candidates :=
  match idxs with
  | [] => mret c
  | i :: idxs' =>
      st ← get;
      let spec := num_speculative_tokens (sch_options_ st) in
      (* skip finished sequence *)
      fin ← on_seq (rid, i) is_finished;
      if (fin : bool) then candidates rid avg remaining_tokens remaining_seqs idxs' c
      (* no budget left *)
      else if decide (remaining_tokens ≤ allocated_tokens c + spec ∨ remaining_seqs ≤ allocated_seqs c)
      then mret c
      else
        left ← sub_size remaining_tokens (allocated_tokens c);
        let token_budget := Nat.min avg left in
        r ← allocate_for (rid, i) token_budget;
        if negb r.1 then
          (* no blocks left *)
          mret (mkCandidates (cand_sequences c) (cand_budgets c) false)
        else
          candidates rid avg remaining_tokens remaining_seqs idxs'
            (mkCandidates (cand_sequences c ++ [(rid, i)]) (cand_budgets c ++ [r.2]) true)
  end.

(** Add the candidates of the request at the top of the queue to the batch. *)
Definition take_candidates (rid : positive) (c : Candidates) : M (Sched St) unit :=
  _ ← pq_pop;
  modify (λ s, set_running_budgets (running_sequences_budgets_ s ++ cand_budgets c)
    (set_running_sequences (running_sequences_ s ++ cand_sequences c)
       (set_running_requests (running_requests_ s ++ [rid]) s))).

(** The [while] loop; returns the remaining token budget.  Every iteration but
    the last removes a request from one of the two queues. *)
Fixpoint schedule_loop (fuel avg remaining_tokens remaining_seqs : nat) : M (Sched St) nat :=
  match fuel with
  | 0 => fail OutOfFuel
  | S fuel =>
      s ← get;
      let spec := num_speculative_tokens (sch_options_ s) in
      match priority_queue_ s with
      | [] => mret remaining_tokens
      | rid :: _ =>
          if decide (spec < remaining_tokens ∧ 0 < remaining_seqs) then
            r ← on_request rid get;
            c ← candidates rid avg remaining_tokens remaining_seqs (seq 0 (length (sequences r)))
                  (mkCandidates [] [] true);
            _ ← check (bool_decide (allocated_tokens c ≤ remaining_tokens))
                  "allocated_tokens <= remaining_token_budget";
            _ ← check (bool_decide (allocated_seqs c ≤ remaining_seqs))
                  "allocated_seqs <= remaining_seq_budget";
            if cand_enough c then
              (* schedule candidates in the request if there are enough blocks *)
              _ ← take_candidates rid c;
              (* the request has been scheduled and can't be preempted *)
              _ ← modify (λ s, match preemptable_requests_ s with
                               | x :: l => if decide (x = rid) then set_preemptable l s else s
                               | [] => s
                               end);
              schedule_loop fuel avg (remaining_tokens - allocated_tokens c)
                (remaining_seqs - allocated_seqs c)
            else
              s ← get;
              match last (preemptable_requests_ s) with
              | Some victim =>
                  (* otherwise, preempt lowest priority request and retry *)
                  _ ← put (set_preemptable (removelast (preemptable_requests_ s)) s);
                  (* avoid preempting the candidate itself *)
                  _ ← (if decide (victim ≠ rid) then release_request victim else mret tt);
                  schedule_loop fuel avg remaining_tokens remaining_seqs
              | None =>
                  (* no requests left to preempt, partially schedule the request *)
                  if decide (cand_sequences c ≠ []) then
                    _ ← take_candidates rid c;
                    mret (remaining_tokens - allocated_tokens c)
                  else mret remaining_tokens
              end
          else mret remaining_tokens
      end
  end.

(** Adjust the token number for each sequence if there is budget left. *)
Fixpoint adjust_loop (remaining : nat) (idxs : list nat) : M (Sched St) unit :=
  match idxs with
  | [] => mret tt
  | i :: idxs' =>
      s ← get;
      k ← at_ (running_sequences_ s) i;
      token_budget ← at_ (running_sequences_budgets_ s) i;
      (* add previous allocated tokens back *)
      let remaining := remaining + token_budget in
      r ← allocate_for k remaining;
      (* no memory left *)
      if negb r.1 then mret tt
      else
        (* update the allocated tokens for the sequence *)
        _ ← modify (λ s, set_running_budgets (<[i := r.2]> (running_sequences_budgets_ s)) s);
        _ ← check (bool_decide (r.2 ≤ remaining)) "remaining_token_budget >= actual_tokens";
        let remaining := remaining - r.2 in
        (* no budget left *)
        if decide (remaining = 0) then mret tt else adjust_loop remaining idxs'
  end.

(** Build the batch from the running sequences and their budgets. *)
Fixpoint fill_batch (b : Batch (positive * nat)) (l : list ((positive * nat) * nat)) :
    M (Sched St) (Batch (positive * nat)) :=
  match l with
  | [] => mret b
  | (k, budget) :: l' =>
      st ← get;
      match add k budget (b, requests st) with
      | Ok (_, (b', h')) => _ ← put (set_requests h' st); fill_batch b' l'
      | Fail e => fail e
      end
  end.

(** At least one sequence per batch; the average budget of a sequence; the
    budget of the batch. *)
Definition max_seqs (o : SchedulerOptions) : nat := Nat.max (max_seqs_per_batch o) 1.
Definition avg_budget (o : SchedulerOptions) : nat :=
  Nat.max (max_tokens_per_batch o / max_seqs o) (1 + num_speculative_tokens o).
Definition token_budget (o : SchedulerOptions) : nat :=
  Nat.max (max_tokens_per_batch o) (max_seqs o * avg_budget o).

(** Finish the first request when not a single sequence could be scheduled. *)
Definition finish_if_stuck : M (Sched St) unit :=
  s ← get;
  match running_sequences_ s, priority_queue_ s with
  | [], rid :: _ => _ ← pq_pop; finish_request rid
  | _, _ => mret tt
  end.

(** [ContinuousScheduler::build_sequence_batch]. *)
Definition build_sequence_batch : M (Sched St) (Batch (positive * nat)) :=
  _ ← drain_queue;
  s ← get;
  (* iterating from the lowest priority to the highest *)
  _ ← for_each requeue (rev (running_requests_ s));
  (* clear previous batch *)
  _ ← modify (λ s, set_running_budgets [] (set_running_sequences [] (set_running_requests [] s)));
  s ← get;
  let o := sch_options_ s in
  remaining ← schedule_loop (S (length (priority_queue_ s) + length (preemptable_requests_ s)))
                (avg_budget o) (token_budget o) (max_seqs o);
  s ← get;
  _ ← (if decide (0 < remaining) then adjust_loop remaining (seq 0 (length (running_sequences_ s)))
       else mret tt);
  _ ← finish_if_stuck;
  s ← get;
  fill_batch Batch_empty (zip (running_sequences_ s) (running_sequences_budgets_ s)).

(** [ContinuousScheduler::process_batch_output], at time [t]. *)
Definition process_batch_output (t : Z) : M (Sched St) unit :=
  s ← get;
  (* update token latency metrics *)
  _ ← for_each (λ k, _ ← on_seq k (inter_token_latency t); mret tt) (running_sequences_ s);
  (* process request output in batch *)
  for_each (λ rid,
    r ← on_request rid get;
    if stream r then on_responses (on_request_stream rid) else mret tt) (running_requests_ s).
End scheduler.
