(* ===== verification/RequestInv.v ===== *)
(** * The heap of requests: blocks and frames

    Which block handles the sequences of all requests hold, and how an update of
    one sequence changes that; what a well-formed request is; and the frame of an
    operation of the scheduler, which says which sequences it may touch. *)

From stdpp Require Import base tactics list gmap strings.
From S2P Require Import Prelude Slice Block Types Stopping Decoder Sequence SequenceInv Request.
From S2P Require Import Sampling Batch BlockStore ResponseHandler.

(** ** The handles of the sequences *)

Definition req_blocks (r : Request) : list Block := concat (blocks_ <$> sequences r).
Definition heap_blocks (h : Heap) : list Block := concat ((λ p, req_blocks p.2) <$> map_to_list h).

Lemma heap_blocks_insert h i r :
  heap_blocks (<[i:=r]> h) ≡ₚ req_blocks r ++ heap_blocks (delete i h).
Proof.
  unfold heap_blocks. rewrite <- insert_delete_eq, map_to_list_insert by apply lookup_delete_eq. done.
Qed.

Lemma heap_blocks_delete h i r : h !! i = Some r →
  heap_blocks h ≡ₚ req_blocks r ++ heap_blocks (delete i h).
Proof. intros Hi. rewrite <- heap_blocks_insert. by rewrite insert_id. Qed.

Lemma req_blocks_update (l : list Sequence) i s : l !! i = Some s → ∃ F,
  concat (blocks_ <$> l) ≡ₚ blocks_ s ++ F ∧
  ∀ s', concat (blocks_ <$> <[i:=s']> l) ≡ₚ blocks_ s' ++ F.
Proof.
  intros Hi. exists (concat (blocks_ <$> take i l) ++ concat (blocks_ <$> drop (S i) l)).
  assert (∀ s', concat (blocks_ <$> take i l ++ s' :: drop (S i) l) ≡ₚ
    blocks_ s' ++ concat (blocks_ <$> take i l) ++ concat (blocks_ <$> drop (S i) l)) as H.
  { intros s'. rewrite fmap_app, concat_app, fmap_cons. simpl. solve_Permutation. }
  split.
  - rewrite <- H. by rewrite take_drop_middle.
  - intros s'. rewrite insert_take_drop by (by eapply lookup_lt_Some). apply H.
Qed.

(** The handles of one sequence, and those of all the others. *)
Lemma heap_blocks_seq h k s : seq_lookup k h = Some s → ∃ F,
  heap_blocks h ≡ₚ blocks_ s ++ F ∧
  ∀ s', heap_blocks (seq_update k s' h) ≡ₚ blocks_ s' ++ F.
Proof.
  destruct k as [i j]. cbn. intros Hs. apply bind_Some in Hs as (r&Hr&Hj).
  destruct (req_blocks_update _ _ _ Hj) as (F&HF&HF').
  exists (F ++ heap_blocks (delete i h)). split.
  - rewrite (heap_blocks_delete _ _ _ Hr), app_assoc. unfold req_blocks at 1. by rewrite HF.
  - intros s'. rewrite Hr, heap_blocks_insert, app_assoc. unfold req_blocks at 1. simpl. by rewrite HF'.
Qed.

(** Sequences without blocks do not matter. *)
Lemma heap_blocks_same h h' i r r' :
  h !! i = Some r → h' = <[i:=r']> h → req_blocks r' ≡ₚ req_blocks r → heap_blocks h' ≡ₚ heap_blocks h.
Proof. intros Hi -> Hp. by rewrite heap_blocks_insert, (heap_blocks_delete _ _ _ Hi), Hp. Qed.

(** ** Well-formed requests *)

(** A limit stops the generation before the buffers are full. *)
Definition bounded_request (r : Request) : Prop :=
  let c := req_stopping_criteria r in
  (0 < max_context_len c ≤ seq_capacity r) ∨
  (0 < max_tokens c ∧ length (prompt_tokens r) + max_tokens c ≤ seq_capacity r).

(** A sequence of the request. *)
Record seq_ok (bs : nat) (r : Request) (s : Sequence) : Prop := {
  so_sched : sched_seq bs s;
  so_capacity : length (token_ids_ s) = seq_capacity r;
  so_criteria : stopping_criteria (options_ s) = req_stopping_criteria r;
  so_prompt : num_prompt_tokens_ s = length (prompt_tokens r);
  so_sampling : sampling_param (options_ s) = req_sampling_param r;
}.

(** What a server accepts: sequences of at most [lim_capacity] tokens, and
    sampling parameters that the engine can handle. *)
Record Limits := mkLimits {
  lim_capacity :> nat;
  lim_sampling : SamplingParameter → Prop;
}.

Record req_ok (bs : nat) (cap : Limits) (r : Request) : Prop := {
  ro_seqs : Forall (seq_ok bs r) (sequences r);
  ro_nonempty : sequences r ≠ [];
  ro_prompt : prompt_tokens r ≠ [];
  ro_room : length (prompt_tokens r) < seq_capacity r;
  ro_cap : seq_capacity r ≤ cap;
  ro_bounded : bounded_request r;
  ro_criteria : criteria_ok (req_stopping_criteria r);
  ro_sampling : lim_sampling cap (req_sampling_param r);
}.

(** A request without its sequences. *)
Definition bare (r : Request) : Request := set_sequences [] r.

Definition req_same (r r' : Request) : Prop :=
  bare r' = bare r ∧ length (sequences r) ≤ length (sequences r').

#[global] Instance req_same_preorder : PreOrder req_same.
Proof.
  split; [by intros r|]. intros r1 r2 r3 [? ?] [? ?]. split; [congruence|lia].
Qed.

Lemma bare_fields r r' : bare r' = bare r →
  seq_capacity r' = seq_capacity r ∧ prompt_tokens r' = prompt_tokens r ∧
  req_stopping_criteria r' = req_stopping_criteria r ∧ best_of r' = best_of r ∧
  priority r' = priority r ∧ created_time r' = created_time r ∧ stream r' = stream r ∧
  is_cancelled_ r' = is_cancelled_ r ∧ req_echo r' = req_echo r ∧
  req_sampling_param r' = req_sampling_param r ∧ logprobs r' = logprobs r ∧ req_n r' = req_n r.
Proof. destruct r, r'. unfold bare. simpl. intros H. by simplify_eq. Qed.

Lemma seq_ok_same bs r r' s : bare r' = bare r → seq_ok bs r s → seq_ok bs r' s.
Proof. intros (?&?&?&_&_&_&_&_&_&?&_)%bare_fields []. split; congruence. Qed.

Lemma req_ok_same bs cap r r' : bare r' = bare r → sequences r' ≠ [] →
  Forall (seq_ok bs r) (sequences r') → req_ok bs cap r → req_ok bs cap r'.
Proof.
  intros Hb Hne Hs [_ _ H1 H2 H3 H4 H5 H6]. pose proof (bare_fields _ _ Hb) as (E1&E2&E3&_&_&_&_&_&_&E4&_).
  split; unfold bounded_request in *; rewrite ?E1, ?E2, ?E3, ?E4 in *; try done.
  eapply Forall_impl; [exact Hs|]. intros s. by apply seq_ok_same.
Qed.

(** ** Requests in the heap *)

Lemma seq_lookup_req (h : Heap) k s : seq_lookup k h = Some s →
  ∃ r, h !! k.1 = Some r ∧ sequences r !! k.2 = Some s.
Proof. intros H. by apply bind_Some in H. Qed.

Lemma seq_lookup_some (h : Heap) i j r s : h !! i = Some r → sequences r !! j = Some s →
  seq_lookup (i, j) h = Some s.
Proof. intros Hi Hj. cbn. by rewrite Hi. Qed.

(** Updating a sequence updates its request. *)
Lemma seq_update_req (h : Heap) k s r : h !! k.1 = Some r →
  seq_update k s h = <[k.1 := set_sequences (<[k.2:=s]> (sequences r)) r]> h.
Proof. intros H. cbn. by rewrite H. Qed.

(** Updates of sequences overwrite and commute. *)
Lemma seq_update_twice (h : Heap) k s1 s2 : seq_update k s2 (seq_update k s1 h) = seq_update k s2 h.
Proof.
  destruct (h !! k.1) as [r|] eqn:Hr.
  - rewrite (seq_update_req h k s1 r Hr), (seq_update_req h k s2 r Hr).
    rewrite (seq_update_req _ k s2 (set_sequences (<[k.2:=s1]> (sequences r)) r)) by apply lookup_insert_eq.
    rewrite insert_insert_eq. f_equal. simpl. by rewrite list_insert_insert_eq.
  - assert (seq_update k s1 h = h) as E by (unfold seq_update, Heap_seqs; by rewrite Hr). by rewrite E.
Qed.

Lemma seq_update_comm (h : Heap) k k' s s' : k ≠ k' →
  seq_update k s (seq_update k' s' h) = seq_update k' s' (seq_update k s h).
Proof.
  intros Hne. destruct (decide (k.1 = k'.1)) as [He|He].
  - destruct (h !! k.1) as [r|] eqn:Hr.
    + assert (h !! k'.1 = Some r) as Hr' by congruence.
      rewrite (seq_update_req h k s r Hr), (seq_update_req h k' s' r Hr').
      rewrite (seq_update_req _ k s (set_sequences (<[k'.2:=s']> (sequences r)) r)) by (rewrite He; apply lookup_insert_eq).
      rewrite (seq_update_req _ k' s' (set_sequences (<[k.2:=s]> (sequences r)) r)) by (rewrite He; apply lookup_insert_eq).
      rewrite He, !insert_insert_eq. f_equal. simpl. rewrite list_insert_insert_ne; [done|].
      destruct k, k'. simpl in *. congruence.
    + assert (h !! k'.1 = None) as Hr' by congruence. unfold seq_update, Heap_seqs. by rewrite Hr, Hr', ?Hr, ?Hr'.
  - unfold seq_update, Heap_seqs. destruct (h !! k.1) as [r|] eqn:Hr, (h !! k'.1) as [r'|] eqn:Hr';
      rewrite ?lookup_insert_ne, ?Hr, ?Hr' by congruence; try done.
    by rewrite insert_insert_ne.
Qed.

(** ** Requests: behaviour of the operations

    [is_finished] decides whether all of the [best_of] sequences exist and are
    finished; [expand_sequences] adds the missing ones, fresh and without blocks. *)

(** ** The finish status of a sequence *)

(** [q'] is [q] after its finish status was computed as [r]. *)
Record checked (r : bool) (q q' : Sequence) : Prop := {
  ck_eq : q' = set_finish_status_invalidated false (set_is_finished r (set_finish_reason (finish_reason_ q') q));
  ck_inv : seq_inv q';
  ck_done : r = true ↔ done_ q;
}.

Lemma checked_sched bs r q q' : checked r q q' → sched_seq bs q → sched_seq bs q'.
Proof. intros [Heq HI _] []. split; [done|..]; rewrite Heq; done. Qed.

Lemma checked_ok bs rq r q q' : checked r q q' → seq_ok bs rq q → seq_ok bs rq q'.
Proof.
  intros Hc [Hs ? ? ?]. split; [by eapply checked_sched|..]; destruct Hc as [-> _ _]; done.
Qed.

Lemma is_finished_checked q : seq_inv q → wp is_finished q (λ r q', checked r q q').
Proof.
  intros HI. eapply wp_mono; [by apply is_finished_wp|]. intros r q' (HI'&_&<-&Hd&Heq). by split.
Qed.

(** A sequence that is not finished has room for a token. *)
Lemma unfinished_room r q : bounded_request r → seq_inv q → ¬ done_ q →
  length (token_ids_ q) = seq_capacity r → stopping_criteria (options_ q) = req_stopping_criteria r →
  num_prompt_tokens_ q = length (prompt_tokens r) → num_tokens_ q < length (token_ids_ q).
Proof.
  intros Hb HI Hd Hcap Hcr Hpr. destruct (decide (num_tokens_ q < length (token_ids_ q))) as [|Hge]; [done|].
  exfalso. apply Hd. right. pose proof (si_capacity _ HI) as Hc. pose proof (si_prompt _ HI) as Hp.
  assert (length (token_ids q) = num_tokens_ q) as Hlen by (unfold token_ids; rewrite length_take; lia).
  unfold length_reached. rewrite Hlen, Hcr, Hpr. destruct Hb as [?|[??]]; lia.
Qed.

(** ** Steps of a request that leave the blocks alone *)

Record req_step (bs : nat) (cap : Limits) (r r' : Request) : Prop := {
  rs_same : req_same r r';
  rs_ok : req_ok bs cap r';
  rs_blocks : req_blocks r' ≡ₚ req_blocks r;
}.

Lemma req_step_refl bs cap r : req_ok bs cap r → req_step bs cap r r.
Proof. intros Hr. by split. Qed.

Lemma req_step_trans bs cap r1 r2 r3 : req_step bs cap r1 r2 → req_step bs cap r2 r3 → req_step bs cap r1 r3.
Proof. intros [? _ ?] [? ? ?]. split; [by etrans|done|by etrans]. Qed.

(** Replacing one sequence by one with the same blocks. *)
Lemma req_step_seq bs cap r i q q' : req_ok bs cap r → sequences r !! i = Some q →
  seq_ok bs r q' → blocks_ q' = blocks_ q →
  req_step bs cap r (set_sequences (<[i:=q']> (sequences r)) r).
Proof.
  intros Hr Hi Hq Hb. split.
  - split; [by destruct r|]. simpl. by rewrite length_insert.
  - eapply (req_ok_same _ _ r); [by destruct r| |simpl; apply Forall_insert; [apply Hr|done]|done].
    simpl. intros Hn%(f_equal length). rewrite length_insert in Hn.
    apply (ro_nonempty _ _ _ Hr). by apply nil_length_inv.
  - destruct (req_blocks_update _ _ _ Hi) as (F&HF&HF'). unfold req_blocks. simpl. by rewrite HF', HF, Hb.
Qed.

Lemma with_sequence_wp {A} i q (m : M Sequence A) r Q :
  sequences r !! i = Some q →
  wp m q (λ a q', Q a (set_sequences (<[i:=q']> (sequences r)) r)) → wp (with_sequence i m) r Q.
Proof.
  intros Hi Hm. unfold with_sequence. wp_steps; [exact Hi|]. unfold wp in Hm |- *.
  destruct (m q) as [[a q']|]; done.
Qed.

(** ** is_finished *)

Lemma done_checked r q q' : checked r q q' → done_ q' ↔ done_ q.
Proof. intros [-> _ _]. done. Qed.

Lemma all_finished_wp bs cap n : ∀ r i, req_ok bs cap r → i + n = length (sequences r) →
  wp (all_finished (seq i n)) r (λ b r', req_step bs cap r r' ∧
    (b = true ↔ Forall done_ (drop i (sequences r)))).
Proof.
  induction n as [|n IH]; intros r i Hr Hn; simpl.
  { apply wp_ret. split; [by apply req_step_refl|]. rewrite drop_ge by lia. by split. }
  destruct (lookup_lt_is_Some_2 (sequences r) i) as [q Hq]; [lia|].
  pose proof (Forall_lookup_1 _ _ _ _ (ro_seqs _ _ _ Hr) Hq) as Hok.
  apply wp_bind. eapply with_sequence_wp; [exact Hq|].
  eapply wp_mono; [apply is_finished_checked, Hok|]. intros b q' Hck.
  pose proof (drop_S _ _ _ Hq) as Hdrop.
  assert (req_step bs cap r (set_sequences (<[i:=q']> (sequences r)) r)) as Hst.
  { eapply req_step_seq; [done|done|eapply checked_ok; [exact Hck|done]|]. by destruct Hck as [-> _ _]. }
  destruct b; [|apply wp_ret; split; [done|]; rewrite Hdrop, Forall_cons; destruct Hck as [_ _ Hd]; naive_solver].
  eapply wp_mono; [apply (IH _ (S i)); [apply Hst|simpl; rewrite length_insert; lia]|].
  intros b r' [Hst' Hb]. split; [by eapply req_step_trans|]. rewrite Hb. simpl.
  rewrite drop_insert_lt by lia. rewrite Hdrop, Forall_cons. destruct Hck as [_ _ Hd]. naive_solver.
Qed.

Lemma request_is_finished_wp bs cap r : req_ok bs cap r →
  wp request_is_finished r (λ b r', req_step bs cap r r' ∧
    (b = true ↔ best_of r ≤ length (sequences r) ∧ Forall done_ (sequences r))).
Proof.
  intros Hr. unfold request_is_finished. wp_steps. case_decide as Hlt.
  - apply wp_ret. split; [by apply req_step_refl|]. split; [done|lia].
  - eapply wp_mono; [by apply (all_finished_wp bs cap _ r 0)|]. intros b r' [? Hb].
    split; [done|]. rewrite Hb, drop_0. split; [intros; split; [lia|done]|tauto].
Qed.

Lemma should_expand_wp bs cap r : req_ok bs cap r →
  wp should_expand_sequences r (λ b r', r' = r ∧
    (b = true → length (sequences r) < best_of r)).
Proof.
  intros Hr. unfold should_expand_sequences. wp_steps. case_decide as Hlt; [|by apply wp_ret].
  pose proof (ro_nonempty _ _ _ Hr). destruct (sequences r) eqn:Hs; [done|]. by apply wp_ret.
Qed.

(** ** expand_sequences *)

(** What the fields of a request other than its sequences must satisfy. *)
Record fields_ok (cap : Limits) (r : Request) : Prop := {
  fo_prompt : prompt_tokens r ≠ [];
  fo_room : length (prompt_tokens r) < seq_capacity r;
  fo_cap : seq_capacity r ≤ cap;
  fo_bounded : bounded_request r;
  fo_criteria : criteria_ok (req_stopping_criteria r);
  fo_sampling : lim_sampling cap (req_sampling_param r);
}.

Lemma req_ok_fields bs cap r : req_ok bs cap r → fields_ok cap r.
Proof. by intros []. Qed.

(** A new sequence of the request. *)
Lemma add_sequence_new bs cap r : fields_ok cap r →
  wp add_sequence r (λ _ r', ∃ q, r' = set_sequences (sequences r ++ [q]) r ∧ seq_ok bs r q ∧
    blocks_ q = [] ∧ token_ids q = prompt_tokens r).
Proof.
  intros Hr. unfold add_sequence. wp_steps.
  set (o := mkSequenceOptions _ _ _ _ _).
  destruct (Sequence_new_ok (length (sequences r)) (prompt r) (prompt_tokens r) (created_time r)
    (seq_capacity r) o) as (q&->&HI&Htk&Hnp&Hnt&Hkv&Hbl&Ho&_&Hlen&He&_); [apply Hr|apply Hr|apply Hr|].
  wp_steps. exists q. split_and!; [done| |done|done].
  assert (0 < length (prompt_tokens r)).
  { pose proof (fo_prompt _ _ Hr). destruct (prompt_tokens r); [done|simpl; lia]. }
  split; [|done|by rewrite Ho|done|by rewrite Ho].
  split; [done|done|by rewrite Hkv|rewrite Hkv, Hnt; done|rewrite Hkv; simpl; lia].
Qed.

(** The first sequence makes a request well-formed. *)
Lemma add_first_sequence_wp bs cap r : fields_ok cap r → sequences r = [] →
  wp add_sequence r (λ _ r', req_ok bs cap r' ∧ req_blocks r' = [] ∧ bare r' = bare r ∧
    length (sequences r') = 1).
Proof.
  intros Hr Hnil. eapply wp_mono; [by apply (add_sequence_new bs cap)|].
  intros ? r' (q&->&Hq&Hbl&_). unfold req_blocks. simpl. rewrite Hnil. simpl. rewrite Hbl.
  split_and!; [|done..]. destruct Hr as [??????]. split; try done; simpl.
  apply Forall_singleton. by eapply seq_ok_same; [|exact Hq].
Qed.

Lemma add_sequence_wp bs cap r : req_ok bs cap r →
  wp add_sequence r (λ _ r', req_step bs cap r r' ∧
    ∃ q, sequences r' = sequences r ++ [q] ∧ blocks_ q = [] ∧ token_ids q = prompt_tokens r).
Proof.
  intros Hr. eapply wp_mono; [by eapply (add_sequence_new bs cap), req_ok_fields|].
  intros ? r' (q&->&Hq&Hbl&Htk). split; [|by exists q]. split.
  - split; [by destruct r|]. simpl. rewrite length_app. lia.
  - eapply (req_ok_same _ _ r); [by destruct r| | |done]; simpl.
    + intros []%app_eq_nil. done.
    + apply Forall_app. split; [apply Hr|by apply Forall_singleton].
  - unfold req_blocks. simpl. rewrite fmap_app, concat_app. simpl. by rewrite Hbl, !app_nil_r.
Qed.

Lemma add_sequences_wp bs cap (l : list nat) : ∀ r, req_ok bs cap r →
  wp (for_each (λ _, add_sequence) l) r (λ _ r', req_step bs cap r r' ∧
    ∃ qs, sequences r' = sequences r ++ qs ∧ length qs = length l ∧
      Forall (λ q, blocks_ q = [] ∧ token_ids q = prompt_tokens r) qs).
Proof.
  induction l as [|x l IH]; intros r Hr; simpl.
  { apply wp_ret. split; [by apply req_step_refl|]. exists []. by rewrite app_nil_r. }
  apply wp_bind. eapply wp_mono; [by apply add_sequence_wp|]. intros _ r1 (Hst&q&Hq&Hbl&Htk).
  eapply wp_mono; [apply IH, Hst|]. intros _ r2 (Hst2&qs&Hqs&Hlen&Hall).
  split; [by eapply req_step_trans|]. exists (q :: qs). split_and!.
  - by rewrite Hqs, Hq, <- app_assoc.
  - simpl. by rewrite Hlen.
  - constructor; [done|]. eapply Forall_impl; [exact Hall|]. intros q' [? Hq']. split; [done|].
    destruct Hst as [[Hb _] _ _]. apply bare_fields in Hb as (_&Hp&_). congruence.
Qed.

(** The request has [best_of] sequences afterwards; those that were there are
    unchanged, the new ones start with the prompt and no blocks. *)
Lemma expand_sequences_wp bs cap r : req_ok bs cap r →
  wp expand_sequences r (λ _ r', req_step bs cap r r' ∧
    length (sequences r') = Nat.max (best_of r) (length (sequences r)) ∧
    ∃ qs, sequences r' = sequences r ++ qs ∧
      Forall (λ q, blocks_ q = [] ∧ token_ids q = prompt_tokens r) qs).
Proof.
  intros Hr. unfold expand_sequences. wp_steps. eapply wp_mono; [by apply add_sequences_wp|].
  intros _ r' (Hst&qs&Hqs&Hlen&Hall). rewrite length_seq in Hlen. split_and!; [done| |by exists qs].
  rewrite Hqs, length_app. lia.
Qed.
