(* ===== verification/Handler.v ===== *)
(** * The request handler

    [src/handlers/llm_handler.h] and [llm_handler.cpp], with the parameters of
    [src/handlers/sampling_params.h]: the public interface of the server.  A call
    of [schedule_async] puts a job into the queue of the handling threads; a
    thread verifies the parameters, encodes the prompt, builds the request and
    hands it to the scheduler.  An error is reported through the callback of the
    client, as a [Status].  A job runs as one step; logging, counters and timers
    are left out. *)

From Stdlib Require Import Ascii SpecFloat.
From stdpp Require Import base tactics list gmap strings.
From S2P Require Import Prelude Slice Types Stopping Decoder Sequence Request Sampling.
From S2P Require Import BlockStore ResponseHandler Scheduler.

(** ** Data *)

(** [struct SamplingParams]. *)
Record SamplingParams := mkSamplingParams {
  prm_max_tokens : nat;
  prm_n : nat;
  prm_best_of : option nat;
  prm_echo : bool;
  prm_frequency_penalty : float;
  prm_presence_penalty : float;
  prm_repetition_penalty : float;
  prm_temperature : float;
  prm_top_p : float;
  prm_top_k : Z;
  prm_logprobs : bool;
  prm_top_logprobs : Z;
  prm_skip_special_tokens : bool;
  prm_ignore_eos : bool;
  prm_stop : option (list text);
  prm_stop_token_ids : option (list Z);
}.

Definition SamplingParams_default : SamplingParams :=
  mkSamplingParams 16 1 None false (float_of_Z 0) (float_of_Z 0) (float_of_Z 1) (float_of_Z 1) (float_of_Z 1)
    (-1) false 0 true false None None.

(** [struct Message]. *)
Record Message := mkMessage { role : text; content : text }.

(** The fields of [ModelArgs] that the handler reads. *)
Record ModelArgs := mkModelArgs {
  max_position_embeddings : Z;
  args_eos_token_id : Z;
  args_stop_token_ids : gset Z;
}.

(** The parts of [LLMHandler] that a job reads: [options_.num_speculative_tokens]
    (not negative), the arguments of the model and the chat template. *)
Record HandlerEnv := mkHandlerEnv {
  env_num_speculative_tokens : nat;
  model_args_ : ModelArgs;
  chat_template_ : option (list Message → option text);
}.

(** [Tokenizer::encode]. *)
Class Encoder := tk_encode : text → option (list Z).

(** Text that is not empty has at least one token. *)
Class EncoderLaws (en : Encoder) : Prop := {
  encode_some t ids : tk_encode t = Some ids → t ≠ [] → ids ≠ [];
}.

(** ** verify_params *)

(** [x < lo || x > hi], on a [float] that is compared as [double]. *)
Definition outside (lo hi : float) (x : float) : bool :=
  let x := double_of_float x in SFltb x lo || SFltb hi x.
Definition d_zero : float := S754_zero false.
Definition d_one : float := double_of_size 1.
Definition d_two : float := double_of_size 2.

Definition invalid (msg : string) : option Status := Some (mkStatus INVALID_ARGUMENT msg).

(** [verify_params]: the error that is reported, if any. *)
Definition verify_params (sp : SamplingParams) : option Status :=
  if decide (prm_n sp = 0) then invalid "n should be greater than 0"
  else if (match prm_best_of sp with Some b => bool_decide (b < prm_n sp) | None => false end)
  then invalid "n should be less than or equal to best_of"
  (* up to 4 stop sequences *)
  else if (match prm_stop sp with Some l => bool_decide (4 < length l) | None => false end)
  then invalid "stop size is too large"
  (* temperature between [0.0, 2.0] *)
  else if outside d_zero d_two (prm_temperature sp) then invalid "temperature must be between 0.0 and 2.0"
  (* top_p between [0.0, 1.0] *)
  else if outside d_zero d_one (prm_top_p sp) then invalid "top_p must be between 0.0 and 1.0"
  else if prm_logprobs sp && prm_echo sp then invalid "logprobs is not supported with echo"
  else if prm_logprobs sp && bool_decide (prm_top_logprobs sp < 0 ∨ 20 < prm_top_logprobs sp)%Z
  then invalid "logprobs must be between 0 and 20"
  (* presence_penalty between [-2.0, 2.0] *)
  else if outside (SFopp d_two) d_two (prm_presence_penalty sp)
  then invalid "presence_penalty must be between -2.0 and 2.0"
  (* frequency_penalty between [0.0, 2.0] *)
  else if outside d_zero d_two (prm_frequency_penalty sp)
  then invalid "frequency_penalty must be between 0.0 and 2.0"
  else None.

(** ** create_request *)

(** A conversion to [size_t]. *)
Definition size_of_Z (z : Z) : nat := Z.to_nat (z mod 2 ^ 64).

Definition kDefaultMaxTokens : nat := 16.
Definition max_tokens_of (sp : SamplingParams) : nat :=
  if decide (prm_max_tokens sp = 0) then kDefaultMaxTokens else prm_max_tokens sp.
Definition best_of_of (sp : SamplingParams) : nat := default (prm_n sp) (prm_best_of sp).

(** The sampling parameters of the request; [do_sample] and [seed] keep their
    initial values. *)
Definition sampling_of (sp : SamplingParams) : SamplingParameter :=
  mkSamplingParameter (prm_frequency_penalty sp) (prm_presence_penalty sp) (prm_repetition_penalty sp)
    (prm_temperature sp) (prm_top_p sp) (prm_top_k sp)
    (* enable logprobs for best_of to generate sequence logprob *)
    (if decide (prm_n sp < best_of_of sp) then true else prm_logprobs sp)
    (prm_top_logprobs sp) (do_sample SamplingParameter_default) (seed SamplingParameter_default).

(** The stopping criteria, with the encoded stop sequences. *)
Definition criteria_of (env : HandlerEnv) (sp : SamplingParams) (stops : list (list Z)) : StoppingCriteria :=
  let args := model_args_ env in
  mkStoppingCriteria (max_tokens_of sp) (args_eos_token_id args) (prm_ignore_eos sp)
    (match prm_stop_token_ids sp with
     | Some ids => list_to_set ids
     | None => args_stop_token_ids args (* otherwise use default stop token id from model args *)
     end)
    stops
    (size_of_Z (max_position_embeddings args - Z.of_nat (env_num_speculative_tokens env))).

(** The fields that the handler sets after the construction. *)
Definition fill_request (sp : SamplingParameter) (c : StoppingCriteria) (str ech : bool) (p : Priority) (r : Request) :
    Request :=
  mkRequest (created_time r) (prompt r) (prompt_tokens r) (req_n r) (best_of r) (logprobs r) (seq_capacity r)
    sp c str ech p (sequences r) (is_cancelled_ r).

Section handler.
Context {en : Encoder} (env : HandlerEnv).

(** The loop that encodes the stop sequences. *)
Fixpoint encode_stops (l : list text) : option (list (list Z)) :=
  match l with
  | [] => Some []
  | s :: l' =>
      match tk_encode s with
      | Some ids => (ids ::.) <$> encode_stops l'
      | None => None
      end
  end.

(** [LLMHandler::create_request] at time [now]: the error, or the request. *)
Definition create_request {S} (now : Z) (prompt : text) (sp : SamplingParams) (priority : Priority)
    (stream : bool) : M S (Status + Request) :=
  if decide (prompt = []) then mret (inl (mkStatus INVALID_ARGUMENT "Prompt is empty"))
  else
    (* encode the prompt *)
    match tk_encode prompt with
    | None => mret (inl (mkStatus INVALID_ARGUMENT "Failed to encode prompt"))
    | Some prompt_tokens =>
        if decide (size_of_Z (max_position_embeddings (model_args_ env)) ≤ length prompt_tokens)
        then mret (inl (mkStatus INVALID_ARGUMENT "Prompt is too long"))
        else
          (* allocate enough capacity for prompt tokens, max tokens, and speculative tokens *)
          let capacity := length prompt_tokens + max_tokens_of sp + env_num_speculative_tokens env + 1 in
          let best_of := best_of_of sp in
          match Request_new now prompt prompt_tokens capacity (prm_n sp) best_of (prm_logprobs sp) with
          | Fail e => fail e
          | Ok request =>
              match encode_stops (default [] (prm_stop sp)) with
              | None => mret (inl (mkStatus INVALID_ARGUMENT "Failed to encode stop sequence"))
              | Some stops =>
                  (* results cannot be streamed when best_of != n *)
                  let stream := if decide (best_of ≠ prm_n sp) then false else stream in
                  let request := fill_request (sampling_of sp) (criteria_of env sp stops) stream
                                   (prm_echo sp) priority request in
                  (* add one sequence, rest will be added by scheduler *)
                  match add_sequence request with
                  | Ok (_, request) => mret (inr request)
                  | Fail e => fail e
                  end
              end
          end
    end.

(** [LLMHandler::create_chat_request]. *)
Definition create_chat_request {S} (now : Z) (messages : list Message) (sp : SamplingParams) (priority : Priority)
    (stream : bool) : M S (Status + Request) :=
  (* construct prompt from dialog messages *)
  match chat_template_ env with
  | None => mret (inl (mkStatus INVALID_ARGUMENT
              "Chat template has not configured, please use /completion API"))
  | Some apply =>
      match apply messages with
      | None => mret (inl (mkStatus INVALID_ARGUMENT "Failed to construct prompt from messages"))
      | Some prompt => create_request now prompt sp priority stream
      end
  end.

(** ** Jobs *)

(** What a job is about. *)
Inductive Prompt := Completion (prompt : text) | Chat (messages : list Message).

(** The closure that [LLMHandler::schedule] pushes into [queue_]. *)
Record HandlerTask := mkHandlerTask {
  job_prompt : Prompt;
  job_sp : SamplingParams;
  job_priority : Priority;
  job_stream : bool;
}.

Definition create_for {S} (now : Z) (j : HandlerTask) : M S (Status + Request) :=
  match job_prompt j with
  | Completion p => create_request now p (job_sp j) (job_priority j) (job_stream j)
  | Chat ms => create_chat_request now ms (job_sp j) (job_priority j) (job_stream j)
  end.

Context {St : Type}.

(** The body of the closure: the value of the promise, and the error that the
    callback receives.  [rid] is the address of the new request. *)
Definition handle (rid : positive) (now : Z) (j : HandlerTask) : M (Sched St) (bool * option Status) :=
  res ←
    (match verify_params (job_sp j) with
     | Some err => mret (false, Some err)
     | None =>
         c ← create_for now j;
         match c with
         | inl err => mret (false, Some err)
         | inr request =>
             b ← schedule rid request;
             if (b : bool) then mret (true, None)
             else mret (false, Some (mkStatus RESOURCE_EXHAUSTED "No available resources to schedule request"))
         end
     end);
  (* remove the pending request after scheduling *)
  _ ← dec_pending_requests;
  mret res.

(** The handler beside the scheduler: [queue_], and the results of the jobs. *)
Record Handler := mkHandler {
  h_queue_ : list HandlerTask;
  h_results : list (bool * option Status);
  h_sched : Sched St;
}.

(** [schedule_async] and [schedule_chat_async]. *)
Definition schedule_async (j : HandlerTask) : M Handler unit :=
  modify (λ h, mkHandler (h_queue_ h ++ [j]) (h_results h) (set_pending (pending_requests_ (h_sched h) + 1) (h_sched h))).

(** The sampling parameters of the [i]-th request of a batch; they may be shared. *)
Definition batch_sp (sps : list SamplingParams) (i : nat) : option SamplingParams :=
  if decide (length sps = 1) then sps !! 0 else sps !! i.

(** [schedule_batch_async] and [schedule_chat_batch_async]. *)
Definition schedule_batch_async (prompts : list Prompt) (sps : list SamplingParams) (priority : Priority)
    (stream : bool) : M Handler unit :=
  _ ← check (bool_decide (length prompts = length sps ∨ length sps = 1))
        "Number of prompts and sampling parameters should be the same";
  _ ← modify (λ h, mkHandler (h_queue_ h) (h_results h)
                     (set_pending (pending_requests_ (h_sched h) + length prompts) (h_sched h)));
  for_each (λ p : nat * Prompt,
    sp ← from_option_or OutOfBounds (batch_sp sps p.1);
    modify (λ h, mkHandler (h_queue_ h ++ [mkHandlerTask p.2 sp priority stream]) (h_results h) (h_sched h)))
    (zip (seq 0 (length prompts)) prompts).

(** One iteration of [handling_loop], on the oldest job. *)
Definition handling_step (rid : positive) (now : Z) : M Handler unit :=
  h ← get;
  match h_queue_ h with
  | [] => mret tt
  | j :: q =>
      match handle rid now j (h_sched h) with
      | Ok (res, s) => put (mkHandler q (h_results h ++ [res]) s)
      | Fail e => fail e
      end
  end.
End handler.
Arguments Handler _ : clear implicits.
