(* ===== verification/ChatTemplate.v ===== *)
(** * The coded chat templates

    [src/chat_template/coded_chat_template.cpp] and [common_chat_template.cpp]: from
    the messages of a chat to the prompt of a model.  The comparison of roles is
    Boost's and the stripping of white space Abseil's: both are parameters. *)

From Stdlib Require Import Ascii PeanoNat.
From stdpp Require Import base tactics list gmap strings.
From S2P Require Import Prelude Slice Types Stopping Decoder Sequence Request Sampling Handler.

Class TemplateLib := {
  iequals : text → text → bool;
  strip_ascii_whitespace : text → text;
}.

Definition text_of (s : string) : text := String.list_ascii_of_string s.

Inductive Role := RUser | RAssistant | RSystem.
#[global] Instance Role_eq_dec : EqDecision Role.
Proof. solve_decision. Defined.

Section templates.
Context {tl : TemplateLib}.

(** The role of a message; the tests in the order of the code. *)
Definition role_of (m : Message) : option Role :=
  if iequals (role m) (text_of "system") then Some RSystem
  else if iequals (role m) (text_of "user") then Some RUser
  else if iequals (role m) (text_of "assistant") then Some RAssistant
  else None.

(** The loop of [CodedChatTemplate::apply]. *)
Fixpoint collect (last : Role) (system_message : text) (msgs : list text) (l : list Message) : option (text * list text) :=
  match l with
  | [] => Some (system_message, msgs)
  | m :: l =>
      match role_of m with
      | Some RSystem => collect RSystem (content m) msgs l
      | Some RUser =>
          (* an empty assistant message separates two user messages in a row *)
          collect RUser system_message
            (if decide (last = RUser) then msgs ++ [[]; content m] else msgs ++ [content m]) l
      | Some RAssistant =>
          collect RAssistant system_message
            (if decide (last = RAssistant) then msgs ++ [[]; content m] else msgs ++ [content m]) l
      | None => None
      end
  end.

(** [CodedChatTemplate::apply]. *)
Definition apply_template (get_prompt : text → list text → option text) (l : list Message) : option text :=
  match collect RSystem [] [] l with
  | Some (system_message, msgs) => get_prompt system_message msgs
  | None => None
  end.

(** [Llama2ChatTemplate::get_prompt]. *)
Definition llama2_message (i : nat) (m : text) : text :=
  if decide (i = 0) then m ++ text_of " "
  else (if Nat.even i then text_of "[INST] " else text_of "[/INST] ") ++ m ++
       (if Nat.even i then text_of " " else text_of " </s><s>").
Definition newline : text := [ascii_of_nat 10].
Definition llama2_prompt (system_message : text) (messages : list text) : option text :=
  if Nat.even (length messages) then None
  else Some (
    (if decide (system_message ≠ [])
     then text_of "[INST] <<SYS>>" ++ newline ++ system_message ++ newline ++ text_of "<</SYS>>" ++ newline ++ newline
     else text_of "[INST] ") ++
    concat (imap llama2_message messages) ++
    (* end with assistant message *)
    text_of "[/INST]").

(** [Llama3ChatTemplate::get_prompt]. *)
Definition llama3_header (r : text) : text :=
  text_of "<|start_header_id|>" ++ r ++ text_of "<|end_header_id|>" ++ newline ++ newline.
Definition llama3_message (m : text) : text := strip_ascii_whitespace m ++ text_of "<|eot_id|>".
Definition llama3_prompt (system_message : text) (messages : list text) : option text :=
  if Nat.even (length messages) then None
  else Some (
    text_of "<|begin_of_text|>" ++
    (if decide (system_message ≠ []) then llama3_header (text_of "system") ++ llama3_message system_message else []) ++
    concat (imap (λ i m, llama3_header (if Nat.even i then text_of "user" else text_of "assistant") ++ llama3_message m) messages) ++
    llama3_header (text_of "assistant")).

(** ** Who said what *)

(** The speaker that the templates give to message [i]. *)
Definition speaker_at (i : nat) : Role := if Nat.even i then RUser else RAssistant.
Definition spoken (msgs : list text) : list (Role * text) := imap (λ i c, (speaker_at i, c)) msgs.

(** The dialog, and what the templates read of it: the empty separators say nothing. *)
Definition said (l : list Message) : list (Role * text) := omap (λ m, (λ r, (r, content m)) <$> role_of m) l.
Definition read_back (msgs : list text) : list (Role * text) := filter (λ p, p.2 ≠ []) (spoken msgs).

Definition last_speaker (d : Role) (l : list Message) : Role := default d (last l ≫= role_of).

Lemma spoken_snoc msgs c : spoken (msgs ++ [c]) = spoken msgs ++ [(speaker_at (length msgs), c)].
Proof. unfold spoken. rewrite imap_app. cbn. by rewrite Nat.add_0_r. Qed.

Lemma read_back_snoc msgs c : c ≠ [] → read_back (msgs ++ [c]) = read_back msgs ++ [(speaker_at (length msgs), c)].
Proof. intros Hc. unfold read_back. rewrite spoken_snoc, filter_app. by rewrite (filter_cons_True _ _ []) by done. Qed.

Lemma read_back_skip msgs : read_back (msgs ++ [[]]) = read_back msgs.
Proof. unfold read_back. rewrite spoken_snoc, filter_app, filter_cons_False, app_nil_r; [done|]. simpl. naive_solver. Qed.

(** The system messages are read first: the last of them is kept. *)
Lemma collect_system sysl : ∀ s rest, Forall (λ m, role_of m = Some RSystem) sysl →
  collect RSystem s [] (sysl ++ rest) = collect RSystem (default s (content <$> last sysl)) [] rest.
Proof.
  induction sysl as [|m sysl IH]; intros s rest H; [done|]. inversion_clear H as [|? ? Hm H']. cbn [app collect]. rewrite Hm, IH by done.
  destruct sysl as [|m' sysl]; [done|]. rewrite last_cons_cons. destruct (last_is_Some (m' :: sysl)) as [_ [x Hx]]; [done|]. by rewrite Hx.
Qed.

(** The role of the last message tells the parity of the list. *)
Definition turn_ok (r : Role) (n : nat) : Prop := Nat.even n = negb (bool_decide (r = RUser)).

Lemma collect_turn r m s msgs rest : role_of m = Some r → r ≠ RSystem → content m ≠ [] →
  ∀ last, turn_ok last (length msgs) → (last = RSystem → r = RUser) →
  ∃ msgs', collect last s msgs (m :: rest) = collect r s msgs' rest ∧ turn_ok r (length msgs') ∧
    read_back msgs' = read_back msgs ++ [(r, content m)].
Proof.
  intros Hr Hs Hc last Ht Hl. unfold turn_ok in *. cbn [collect]. rewrite Hr.
  assert (∀ x, Nat.even (length (msgs ++ [x])) = negb (Nat.even (length msgs))) as Hev.
  { intros x. rewrite length_app, Nat.add_1_r, Nat.even_succ, <-Nat.negb_even. done. }
  assert (Nat.even (length (msgs ++ [[]; content m])) = Nat.even (length msgs)) as Hev2.
  { rewrite length_app. cbn. by rewrite Nat.add_comm. }
  pose proof (read_back_snoc msgs _ Hc) as H1. pose proof (read_back_snoc (msgs ++ [[]]) _ Hc) as H2.
  rewrite <-app_assoc, read_back_skip, length_app, Nat.add_1_r in H2. unfold speaker_at in *.
  rewrite Nat.even_succ, <-Nat.negb_even in H2. rewrite Ht in H1, H2, Hev2. setoid_rewrite Ht in Hev.
  destruct r; try done; destruct last; simpl in *; try (by specialize (Hl eq_refl)); eauto.
Qed.

Lemma collect_dialog rest : ∀ last s msgs, turn_ok last (length msgs) →
  Forall (λ m, content m ≠ [] ∧ (role_of m = Some RUser ∨ role_of m = Some RAssistant)) rest →
  (last = RSystem → ∀ m, head rest = Some m → role_of m = Some RUser) →
  ∃ msgs', collect last s msgs rest = Some (s, msgs') ∧ turn_ok (last_speaker last rest) (length msgs') ∧
    read_back msgs' = read_back msgs ++ said rest.
Proof.
  induction rest as [|m rest IH]; intros lst s msgs Ht H Hh.
  { exists msgs. rewrite app_nil_r. done. }
  inversion_clear H as [|? ? [Hc Hr] H'].
  assert (∃ r, role_of m = Some r ∧ r ≠ RSystem) as (r & Hm & Hs) by (destruct Hr; eauto).
  destruct (collect_turn r m s msgs rest Hm Hs Hc lst Ht) as (msgs1 & -> & Ht1 & Hb1).
  { intros ->. specialize (Hh eq_refl m eq_refl). congruence. }
  destruct (IH r s msgs1 Ht1 H') as (msgs' & -> & Ht' & Hb'); [done|]. exists msgs'. split; [done|]. split.
  - unfold last_speaker in *. destruct rest as [|m' rest]; [simpl in *; by rewrite Hm|].
    rewrite last_cons_cons. assert (is_Some (last (m' :: rest))) as [y Hx] by by apply last_is_Some.
    rewrite Hx in *. simpl in *. destruct (role_of y) eqn:Hx'; [done|]. exfalso.
    apply last_Some_elem_of, (proj1 (Forall_forall _ _) H') in Hx as [_ [|]]; congruence.
  - rewrite Hb', Hb1, <-app_assoc. f_equal. unfold said. cbn [omap list_omap]. by rewrite Hm.
Qed.
End templates.
