(* ===== verification/Activation.v ===== *)
(** * Activation functions

    [src/layers/activation.cpp] and [src/kernels/activation_kernels.cu].  The functions
    of libtorch and the device functions are parameters; the formulas are those of the
    code. *)

From Stdlib Require Import PeanoNat.
From stdpp Require Import base tactics list strings.
From S2P Require Import Prelude Types Tensor Gpu Kernels ChatTemplate.

(** The arithmetic of the elements, the constants of the code, and the functions of
    libtorch and of the device. *)
Class ActArith (A : Type) := {
  act_zero : A;
  act_half : A;
  act_one : A;
  act_root : A;       (* 0.7978845608028654f *)
  act_cubic : A;      (* 0.044715f *)
  act_add : A → A → A;
  act_mul : A → A → A;
  act_div : A → A → A;
  act_neg : A → A;
  torch_tanh : A → A;
  torch_pow3 : A → A;
  torch_gelu : A → A;
  torch_gelu_tanh : A → A;
  torch_relu : A → A;
  torch_silu : A → A;
  tanh_opt : A → A;
  expf : A → A;
}.

Declare Scope act_scope.
Delimit Scope act_scope with act.
Infix "+" := act_add : act_scope.
Infix "*" := act_mul : act_scope.
Infix "/" := act_div : act_scope.

Section activation.
Context {A : Type} `{ActArith A}.
Local Open Scope act_scope.

(** ** On one element *)

(** [GeluNewActivation], [GeluFastActivation] and [SiluActivation]. *)
Definition GeluNewActivation (val : A) : A :=
  let cdf := act_half * (act_one + tanh_opt (act_root * (val + act_cubic * val * val * val))) in
  val * cdf.
Definition GeluFastActivation (val : A) : A :=
  let cdf := act_half * (act_one + tanh_opt ((act_root * val) * (act_one + act_cubic * val * val))) in
  val * cdf.
Definition SiluActivation (val : A) : A := val / (act_one + expf (act_neg val)).

(** The formulas of [detail::gelu_fast] and [detail::gelu_new]. *)
Definition gelu_fast_element (x : A) : A :=
  act_half * x * (act_one + torch_tanh (act_root * x * (act_one + act_cubic * x * x))).
Definition gelu_new_element (x : A) : A :=
  act_half * x * (act_one + torch_tanh (act_root * (x + act_cubic * torch_pow3 x))).

(** ** On tensors *)

(** [detail::gelu] and the others: on every element. *)
Definition ActFunc (T : Type) := Tensor A → M T (Tensor A).
Definition elementwise {T} (f : A → A) : ActFunc T := λ x, mret (pointwise f x).

(** [detail::gelu_with_mul] and the others: [x.chunk(2, -1)], the activation of the
    first chunk times the second. *)
Definition with_mul {T} (f : A → A) : ActFunc T := λ x,
  match x with
  | Mat c rows =>
      let k := ((c + 1) / 2)%nat in
      _ ← check (bool_decide (c - k = k)) "The size of tensor a must match the size of tensor b";
      mret (Mat k ((λ r, zip_with act_mul (f <$> take k r) (drop k r)) <$> rows))
  | Vec v =>
      let k := ((length v + 1) / 2)%nat in
      _ ← check (bool_decide (length v - k = k)%nat) "The size of tensor a must match the size of tensor b";
      mret (Vec (zip_with act_mul (f <$> take k v) (drop k v)))
  end.

(** ** Kernels *)

(** [activation_kernel] and [launch_activation]: the grid that fills in the output from
    an input whose rows are [stride] elements apart. *)
Definition launch_activation (f : A → A) (size0 size1 stride0 : nat) (input : list A) : list (list (nat * (A → A))) :=
  let n := size1 in
  block_kernel size0 (Nat.min n 1024) (λ _, n) (λ bid i,
    [((bid * n + i)%nat, λ _, f (read act_zero input (bid * stride0 + i)))]).

(** [activation_and_mul_kernel] and [launch_activation_and_mul]. *)
Definition launch_activation_and_mul (f : A → A) (size0 size1 : nat) (input : list A) : list (list (nat * (A → A))) :=
  let n := (size1 / 2)%nat in
  block_kernel size0 (Nat.min n 1024) (λ _, n) (λ bid i,
    let base_idx := (bid * n)%nat in
    let i_idx := (2 * base_idx + i)%nat in
    [((base_idx + i)%nat, λ _, f (read act_zero input i_idx) * read act_zero input (i_idx + n))]).

(** [kernel::gelu_new] and the others on a matrix: the tensor that a run of the grid
    leaves in the new memory [out]. *)
Definition kernel_act (f : A → A) (stride0 : nat) (input : list A) (size0 size1 : nat) (out : list A) (y : Tensor A) : Prop :=
  ∃ m', runs (launch_activation f size0 size1 stride0 input) out m' ∧ y = Mat size1 (unflatten size1 size0 m').

(** [kernel::gelu_new_with_mul] and the others; the input is contiguous. *)
Definition kernel_act_with_mul (f : A → A) (x : Tensor A) (out : list A) (y : Tensor A) : Prop :=
  match x with
  | Mat c rows => ∃ m', runs (launch_activation_and_mul f (length rows) c (concat rows)) out m' ∧
      y = Mat (c / 2)%nat (unflatten (c / 2)%nat (length rows) m')
  | Vec _ => False
  end.

(** ** The choice of the implementation *)

(** What [Activation::get_act_func] and [Activation::get_act_with_mul_func] return: a
    function of [detail], a kernel, or [nullptr]. *)
Inductive ActChoice := Torch (f : A → A) | Custom (f : A → A) | Nullptr.

Context {tl : TemplateLib}.
Definition get_act_func {T} (name : text) (is_cuda disable_custom_kernels : bool) : M T ActChoice :=
  _ ← check (negb (bool_decide (name = []))) "Activation function name cannot be empty";
  let custom := is_cuda && negb disable_custom_kernels in
  mret (if iequals name (text_of "gelu") then Torch torch_gelu
        else if iequals name (text_of "gelu_fast") then (if custom then Custom GeluFastActivation else Torch gelu_fast_element)
        else if iequals name (text_of "gelu_new") then (if custom then Custom GeluNewActivation else Torch gelu_new_element)
        else if iequals name (text_of "gelu_pytorch_tanh") then Torch torch_gelu_tanh
        else if iequals name (text_of "relu") then Torch torch_relu
        else if iequals name (text_of "silu") then (if custom then Custom SiluActivation else Torch torch_silu)
        else Nullptr).
Definition get_act_with_mul_func {T} (name : text) (is_cuda disable_custom_kernels : bool) : M T ActChoice :=
  _ ← check (negb (bool_decide (name = []))) "Activation function name cannot be empty";
  let custom := is_cuda && negb disable_custom_kernels in
  mret (if iequals name (text_of "gelu") then Torch torch_gelu
        else if iequals name (text_of "gelu_fast") then (if custom then Custom GeluFastActivation else Torch gelu_fast_element)
        else if iequals name (text_of "gelu_new") then (if custom then Custom GeluNewActivation else Torch gelu_new_element)
        else if iequals name (text_of "gelu_pytorch_tanh") then Torch torch_gelu_tanh
        else if iequals name (text_of "relu") then Torch torch_relu
        else if iequals name (text_of "silu") then (if custom then Custom SiluActivation else Torch torch_silu)
        else Nullptr).

(** The result of a call of the function on a contiguous matrix, where [out] is what
    the new memory of a kernel holds. *)
Definition act_result (c : ActChoice) (x : Tensor A) (out : list A) (y : Tensor A) : Prop :=
  match c, x with
  | Torch f, _ => elementwise (T := unit) f x () = Ok (y, ())
  | Custom f, Mat c rows => kernel_act f c (concat rows) (length rows) c out y
  | _, _ => False
  end.
Definition act_with_mul_result (c : ActChoice) (x : Tensor A) (out : list A) (y : Tensor A) : Prop :=
  match c with
  | Torch f => with_mul (T := unit) f x () = Ok (y, ())
  | Custom f => kernel_act_with_mul f x out y
  | Nullptr => False
  end.
End activation.
Arguments ActChoice : clear implicits.
