(* ===== verification/Api.v ===== *)
(** * The gRPC handlers

    [src/handlers/completion_handler.cpp], [chat_handler.cpp] and [utils.cpp]: from
    a gRPC request to the parameters of a request, and from the outputs of a
    request to the messages of its call.  The identifier, the time and the model
    name of a call are the same in all its messages and are left out.  The call is
    the list of operations on it; an operation returns whether the client is still
    there. *)

From Stdlib Require Import Ascii SpecFloat.
From stdpp Require Import base tactics list gmap strings.
From S2P Require Import Prelude Slice Types Stopping Decoder Sequence Request Sampling Handler.

(** ** Messages *)

(** [enum proto::Priority], with the values that a newer client may send. *)
Inductive ProtoPriority := P_DEFAULT | P_HIGH | P_NORMAL | P_LOW | P_UNKNOWN (value : Z).

(** [to_priority]. *)
Definition to_priority (p : ProtoPriority) : Priority :=
  match p with
  | P_DEFAULT => NORMAL
  | P_LOW => LOW
  | P_NORMAL => NORMAL
  | P_HIGH => HIGH
  | P_UNKNOWN _ => NORMAL
  end.

(** [grpc::StatusCode]. *)
Inductive GrpcCode :=
  | GRPC_OK | GRPC_CANCELLED | GRPC_UNKNOWN | GRPC_INVALID_ARGUMENT | GRPC_DEADLINE_EXCEEDED
  | GRPC_RESOURCE_EXHAUSTED | GRPC_UNAUTHENTICATED | GRPC_UNAVAILABLE | GRPC_UNIMPLEMENTED | GRPC_NOT_FOUND.
#[global] Instance GrpcCode_eq_dec : EqDecision GrpcCode.
Proof. solve_decision. Defined.

(** [to_grpc_status_code]. *)
Definition to_grpc_status_code (c : StatusCode) : GrpcCode :=
  match c with
  | OK => GRPC_OK
  | CANCELLED => GRPC_CANCELLED
  | UNKNOWN => GRPC_UNKNOWN
  | INVALID_ARGUMENT => GRPC_INVALID_ARGUMENT
  | DEADLINE_EXCEEDED => GRPC_DEADLINE_EXCEEDED
  | RESOURCE_EXHAUSTED => GRPC_RESOURCE_EXHAUSTED
  | UNAUTHENTICATED => GRPC_UNAUTHENTICATED
  | UNAVAILABLE => GRPC_UNAVAILABLE
  | UNIMPLEMENTED => GRPC_UNIMPLEMENTED
  end.

(** The fields that the two kinds of requests share. *)
Record ProtoParams := mkProtoParams {
  pp_max_tokens : option nat;
  pp_n : option nat;
  pp_frequency_penalty : option float;
  pp_presence_penalty : option float;
  pp_repetition_penalty : option float;
  pp_temperature : option float;
  pp_top_p : option float;
  pp_top_k : option Z;
  pp_skip_special_tokens : option bool;
  pp_ignore_eos : option bool;
  pp_stop : list text;
  pp_stop_token_ids : list Z;
}.

(** [message CompletionRequest] and [message ChatRequest]. *)
Record CompletionRequest := mkCompletionRequest {
  cq_model : string;
  cq_prompt : text;
  cq_params : ProtoParams;
  cq_best_of : option nat;
  cq_logprobs : option nat;
  cq_echo : option bool;
  cq_stream : bool;
  cq_include_usage : bool;
  cq_priority : ProtoPriority;
}.
Record ChatRequest := mkChatRequest {
  hq_model : string;
  hq_messages : list Message;
  hq_params : ProtoParams;
  hq_logprobs : option bool;
  hq_top_logprobs : option Z;
  hq_stream : bool;
  hq_include_usage : bool;
  hq_priority : ProtoPriority;
}.

(** A repeated field that is set. *)
Definition if_set {A} (l : list A) (d : option (list A)) : option (list A) :=
  match l with [] => d | _ => Some l end.

(** [grpc_request_to_sampling_params(const proto::CompletionRequest&)]: every field
    that is present overrides the default. *)
Definition completion_params (q : CompletionRequest) : SamplingParams :=
  let d := SamplingParams_default in
  let p := cq_params q in
  mkSamplingParams (default (prm_max_tokens d) (pp_max_tokens p)) (default (prm_n d) (pp_n p))
    (match cq_best_of q with Some b => Some b | None => prm_best_of d end)
    (default (prm_echo d) (cq_echo q))
    (default (prm_frequency_penalty d) (pp_frequency_penalty p))
    (default (prm_presence_penalty d) (pp_presence_penalty p))
    (default (prm_repetition_penalty d) (pp_repetition_penalty p))
    (default (prm_temperature d) (pp_temperature p)) (default (prm_top_p d) (pp_top_p p))
    (default (prm_top_k d) (pp_top_k p))
    (match cq_logprobs q with Some _ => true | None => prm_logprobs d end)
    (match cq_logprobs q with Some k => Z.of_nat k | None => prm_top_logprobs d end)
    (default (prm_skip_special_tokens d) (pp_skip_special_tokens p))
    (default (prm_ignore_eos d) (pp_ignore_eos p))
    (if_set (pp_stop p) (prm_stop d)) (if_set (pp_stop_token_ids p) (prm_stop_token_ids d)).

(** [grpc_request_to_sampling_params(const proto::ChatRequest&)]. *)
Definition chat_params (q : ChatRequest) : SamplingParams :=
  let d := SamplingParams_default in
  let p := hq_params q in
  mkSamplingParams (default (prm_max_tokens d) (pp_max_tokens p)) (default (prm_n d) (pp_n p))
    (prm_best_of d) (prm_echo d)
    (default (prm_frequency_penalty d) (pp_frequency_penalty p))
    (default (prm_presence_penalty d) (pp_presence_penalty p))
    (default (prm_repetition_penalty d) (pp_repetition_penalty p))
    (default (prm_temperature d) (pp_temperature p)) (default (prm_top_p d) (pp_top_p p))
    (default (prm_top_k d) (pp_top_k p))
    (default (prm_logprobs d) (hq_logprobs q)) (default (prm_top_logprobs d) (hq_top_logprobs q))
    (default (prm_skip_special_tokens d) (pp_skip_special_tokens p))
    (default (prm_ignore_eos d) (pp_ignore_eos p))
    (if_set (pp_stop p) (prm_stop d)) (if_set (pp_stop_token_ids p) (prm_stop_token_ids d)).

(** [message Choice]: the log probabilities are three parallel lists. *)
Record Choice := mkChoice {
  ch_index : nat;
  ch_text : text;
  ch_logprobs : option (list (text * Z * float));
  ch_finish_reason : option string;
}.

(** [message ChatChoice]; [cc_delta] and [cc_message] are the role and content that
    are set. *)
Record ChatChoice := mkChatChoice {
  cc_index : nat;
  cc_delta : option (option string * option text);
  cc_message : option (option string * option text);
  cc_finish_reason : option string;
  cc_logprobs : option (list ((text * Z * float) * list (text * Z * float)));
}.

(** [message CompletionResponse] and [message ChatResponse]. *)
Record Response (C : Type) := mkResponse {
  rsp_object : string;
  rsp_choices : list C;
  rsp_usage : option (Z * Z * Z);
}.
Arguments mkResponse {C} _ _ _.
Arguments rsp_object {C} _.
Arguments rsp_choices {C} _.
Arguments rsp_usage {C} _.

(** The token counts as [int32_t]. *)
Definition proto_usage (u : Usage) : Z * Z * Z :=
  (i32 (Z.of_nat (usage_num_prompt_tokens u)), i32 (Z.of_nat (usage_num_generated_tokens u)),
   i32 (Z.of_nat (usage_num_total_tokens u))).

Definition token_of (d : LogProbData) : text * Z * float := (lp_token d, lp_token_id d, lp_logprob d).

(** [set_logprobs] of the two handlers: nothing is set for an empty vector. *)
Definition choice_logprobs (l : option (list LogProb)) : option (list (text * Z * float)) :=
  match l with
  | None | Some [] => None
  | Some l => Some ((λ x, token_of (lp_data x)) <$> l)
  end.
Definition chat_logprobs (l : option (list LogProb)) : option (list ((text * Z * float) * list (text * Z * float))) :=
  match l with
  | None | Some [] => None
  | Some l => Some ((λ x, (token_of (lp_data x), token_of <$> default [] (lp_top_logprobs x))) <$> l)
  end.

(** ** The call *)

(** The operations of [StreamCallData] on the client. *)
Inductive CallOp (R : Type) :=
  | Write (r : R)
  | WriteAndFinish (r : R) (code : GrpcCode) (msg : string)
  | FinishCall (code : GrpcCode) (msg : string).
Arguments Write {R} _.
Arguments WriteAndFinish {R} _ _ _.
Arguments FinishCall {R} _ _.

(** An operation that ends the call. *)
Definition ends_call {R} (o : CallOp R) : bool :=
  match o with Write _ => false | WriteAndFinish _ _ _ | FinishCall _ _ => true end.

(** The operations so far; from operation [call_gone] on the client is gone. *)
Record Call (R : Type) := mkCall {
  call_ops : list (CallOp R);
  call_gone : nat;
}.
Arguments mkCall {R} _ _.
Arguments call_ops {R} _.
Arguments call_gone {R} _.

(** [send_response]: whether the call is still open. *)
Definition call_do {R} (o : CallOp R) : M (Call R) bool :=
  c ← get;
  _ ← put (mkCall (call_ops c ++ [o]) (call_gone c));
  mret (bool_decide (length (call_ops c) < call_gone c)).

(** ** CompletionHandler *)

Abbreviation CompletionCall := (Call (Response Choice)).

Definition chunk_text (o : SequenceOutput) : Response Choice :=
  mkResponse "text_completion" [mkChoice (so_index o) (so_text o) (choice_logprobs (so_logprobs o)) None] None.
Definition chunk_finish (o : SequenceOutput) (reason : string) : Response Choice :=
  mkResponse "text_completion" [mkChoice (so_index o) [] None (Some reason)] None.

(** The loop of [send_delta_to_client]: [false] is the early return. *)
Fixpoint send_deltas (os : list SequenceOutput) : M CompletionCall bool :=
  match os with
  | [] => mret true
  | o :: os' =>
      (* send chunk with delta message *)
      b ← (if decide (so_text o ≠ []) then call_do (Write (chunk_text o)) else mret true);
      if negb b then mret false
      else
        (* send a separate chunk with finish reason *)
        b ← (match so_finish_reason o with
             | Some reason => call_do (Write (chunk_finish o reason))
             | None => mret true
             end);
        if negb b then mret false else send_deltas os'
  end.

(** The end of [send_delta_to_client]: the usage, and the end of the call. *)
Definition send_end {C} (object : string) (include_usage : bool) (output : RequestOutput) : M (Call (Response C)) bool :=
  b ← (match ro_usage output with
       | Some u => if include_usage then call_do (Write (mkResponse object [] (Some (proto_usage u)))) else mret true
       | None => mret true
       end);
  if negb b then mret false
  else if ro_finished output then call_do (FinishCall GRPC_OK "") else mret true.

(** [send_delta_to_client]. *)
Definition send_delta_to_client (include_usage : bool) (output : RequestOutput) : M CompletionCall bool :=
  b ← send_deltas (ro_outputs output);
  if negb b then mret false else send_end "text_completion" include_usage output.

(** [send_result_to_client]. *)
Definition send_result_to_client (output : RequestOutput) : M CompletionCall bool :=
  call_do (WriteAndFinish (mkResponse "text_completion"
    ((λ o, mkChoice (so_index o) (so_text o) (choice_logprobs (so_logprobs o)) (so_finish_reason o)) <$> ro_outputs output)
    (proto_usage <$> ro_usage output)) GRPC_OK "").

(** An error ends the call. *)
Definition error_of (output : RequestOutput) : option Status :=
  match ro_status output with
  | Some st => if ok st then None else Some st
  | None => None
  end.

(** The callback that [complete_async] passes to the scheduler. *)
Definition on_completion (stream include_usage : bool) (output : RequestOutput) : M CompletionCall bool :=
  match error_of output with
  | Some st => call_do (FinishCall (to_grpc_status_code (code_ st)) (msg_ st))
  | None => if stream then send_delta_to_client include_usage output else send_result_to_client output
  end.

(** [CompletionHandler::complete_async]: the job that is scheduled, and the flags
    of its callback. *)
Definition complete_async (models : gset string) (q : CompletionRequest) :
    M CompletionCall (option (HandlerTask * (bool * bool))) :=
  if decide (cq_model q ∈ models) then
    let sp := completion_params q in
    let best_of := default (prm_n sp) (prm_best_of sp) in
    (* results cannot be streamed when best_of != n *)
    let stream := cq_stream q && bool_decide (best_of = prm_n sp) in
    mret (Some (mkHandlerTask (Completion (cq_prompt q)) sp (to_priority (cq_priority q)) stream,
                (stream, cq_include_usage q)))
  else
    _ ← call_do (FinishCall GRPC_NOT_FOUND "Model not supported");
    mret None.

(** ** ChatHandler *)

Abbreviation ChatCall := (Call (Response ChatChoice)).

Definition chat_role (i : nat) : Response ChatChoice :=
  mkResponse "chat.completion.chunk"
    [mkChatChoice i (Some (Some "assistant"%string, Some [])) None None None] None.
Definition chat_text (o : SequenceOutput) : Response ChatChoice :=
  mkResponse "chat.completion.chunk"
    [mkChatChoice (so_index o) (Some (None, Some (so_text o))) None None (chat_logprobs (so_logprobs o))] None.
Definition chat_finish (o : SequenceOutput) (reason : string) : Response ChatChoice :=
  mkResponse "chat.completion.chunk"
    [mkChatChoice (so_index o) (Some (None, None)) None (Some reason) None] None.

(** The loop of [send_delta_to_client]; the state also has [first_message_sent]. *)
Fixpoint chat_deltas (os : list SequenceOutput) : M (gset nat * ChatCall) bool :=
  match os with
  | [] => mret true
  | o :: os' =>
      p ← get;
      (* send first chunk with role as assistant *)
      b ← (if decide (so_index o ∈ p.1) then mret true
           else
             _ ← on_fst (modify (λ s, {[so_index o]} ∪ s));
             on_snd (call_do (Write (chat_role (so_index o)))));
      if negb b then mret false
      else
        (* send chunk with delta message *)
        b ← (if decide (so_text o ≠ []) then on_snd (call_do (Write (chat_text o))) else mret true);
        if negb b then mret false
        else
          (* send a separate chunk with finish reason *)
          b ← (match so_finish_reason o with
               | Some reason => on_snd (call_do (Write (chat_finish o reason)))
               | None => mret true
               end);
          if negb b then mret false else chat_deltas os'
  end.

(** [send_delta_to_client] of the chat handler. *)
Definition chat_delta_to_client (include_usage : bool) (output : RequestOutput) : M (gset nat * ChatCall) bool :=
  b ← chat_deltas (ro_outputs output);
  if negb b then mret false else on_snd (send_end "chat.completion.chunk" include_usage output).

(** [send_result_to_client] of the chat handler. *)
Definition chat_result_to_client (output : RequestOutput) : M ChatCall bool :=
  call_do (WriteAndFinish (mkResponse "chat.completion"
    ((λ o, mkChatChoice (so_index o) None (Some (Some "assistant"%string, Some (so_text o))) (so_finish_reason o)
             (chat_logprobs (so_logprobs o))) <$> ro_outputs output)
    (proto_usage <$> ro_usage output)) GRPC_OK "").

(** The callback that [chat_async] passes to the scheduler. *)
Definition on_chat (stream include_usage : bool) (output : RequestOutput) : M (gset nat * ChatCall) bool :=
  match error_of output with
  | Some st => on_snd (call_do (FinishCall (to_grpc_status_code (code_ st)) (msg_ st)))
  | None => if stream then chat_delta_to_client include_usage output else on_snd (chat_result_to_client output)
  end.

(** [ChatHandler::chat_async]. *)
Definition chat_async (models : gset string) (q : ChatRequest) : M ChatCall (option (HandlerTask * (bool * bool))) :=
  if decide (hq_model q ∈ models) then
    mret (Some (mkHandlerTask (Chat (hq_messages q)) (chat_params q) (to_priority (hq_priority q)) (hq_stream q),
                (hq_stream q, hq_include_usage q)))
  else
    _ ← call_do (FinishCall GRPC_NOT_FOUND "Model not supported");
    mret None.
