(* ===== verification/SchedulerInv.v ===== *)
(** * The scheduler: invariant and frames

    [core_ok] ties the heap of requests to the block manager: every block handle
    outside the cache belongs to exactly one sequence, and every sequence is in a
    state from which it can make progress.  [frame D] says which sequences an
    operation may have touched.  Against the interface [BlockStoreLaws] only. *)

From stdpp Require Import base tactics list gmap strings sorting.
From S2P Require Import Prelude Slice Block Types Stopping Decoder Sequence SequenceInv Request.
From S2P Require Import Sampling Batch BatchInv BlockStore ResponseHandler RequestInv Scheduler.

Section core.
Context {St : Type} {BS : BlockStore St} {BL : BlockStoreLaws St} (cap : Limits).
Implicit Types s : Sched St.

(** ** The invariant of the heap and the block manager *)

Record core_ok s : Prop := {
  co_store : store_ok (block_manager_ s) (heap_blocks (requests s));
  co_reqs : map_Forall (λ _, req_ok (store_size (block_manager_ s)) cap) (requests s);
}.

(** The limits of the configuration: no speculative decoding, and the block ids,
    lengths and batches fit their integer types. *)
Record config_ok s : Prop := {
  cf_spec : num_speculative_tokens (sch_options_ s) = 0;
  cf_alloc : (N.of_nat (cap + store_size (block_manager_ s)) < 2 ^ 32)%N;
  cf_slots : (Z.of_nat (store_total (block_manager_ s) * store_size (block_manager_ s)) ≤ 2 ^ 31)%Z;
  cf_batch : (Z.of_nat (max_seqs (sch_options_ s) * cap) < 2 ^ 31)%Z;
}.

(** ** Frames *)

(** Only the sequences in [D] may have changed; requests keep their fields, and
    only the heap and the block manager change at all. *)
Record frame (D : positive * nat → Prop) s s' : Prop := {
  fr_state : s' = set_block_manager (block_manager_ s') (set_requests (requests s') s);
  fr_seq : ∀ k, ¬ D k → seq_lookup k (requests s') = seq_lookup k (requests s);
  fr_req : ∀ i r, requests s !! i = Some r → ∃ r', requests s' !! i = Some r' ∧ req_same r r';
  fr_dom : ∀ i, requests s !! i = None → requests s' !! i = None;
  fr_size : store_size (block_manager_ s') = store_size (block_manager_ s);
  fr_total : store_total (block_manager_ s') = store_total (block_manager_ s);
}.

#[export] Instance frame_refl D : Reflexive (frame D).
Proof. intros s. split; try done; [by destruct s|]. intros i r Hr. by exists r. Qed.

#[export] Instance frame_trans D : Transitive (frame D).
Proof.
  intros s1 s2 s3 [A1 A2 A3 A4 A5 A6] [B1 B2 B3 B4 B5 B6]. split; [|..|congruence|congruence].
  - rewrite B1, A1. done.
  - intros k Hk. by rewrite B2, A2.
  - intros i r Hr. destruct (A3 i r Hr) as (r'&Hr'&?). destruct (B3 i r' Hr') as (r''&?&?).
    exists r''. split; [done|]. by etrans.
  - intros i Hi. by apply B4, A4.
Qed.

Lemma frame_weaken D D' s s' : (∀ k, D k → D' k) → frame D s s' → frame D' s s'.
Proof. intros H []. split; try done. intros k Hk. auto. Qed.

Lemma frame_config D s s' : frame D s s' → config_ok s → config_ok s'.
Proof.
  intros [A1 _ _ _ A5 A6] []. assert (sch_options_ s' = sch_options_ s) as Ho by (by rewrite A1).
  split; rewrite ?A5, ?A6, ?Ho; done.
Qed.

(** The fields that are not framed. *)
Lemma frame_fields D s s' : frame D s s' →
  sch_options_ s' = sch_options_ s ∧ request_queue_ s' = request_queue_ s ∧
  priority_queue_ s' = priority_queue_ s ∧ running_requests_ s' = running_requests_ s ∧
  running_sequences_ s' = running_sequences_ s ∧
  running_sequences_budgets_ s' = running_sequences_budgets_ s ∧
  preemptable_requests_ s' = preemptable_requests_ s ∧
  enable_prefix_cache_ s' = enable_prefix_cache_ s ∧ responses s' = responses s ∧
  pending_requests_ s' = pending_requests_ s.
Proof. intros [-> _ _ _ _ _]. done. Qed.

(** A request that was there is still there, with the same fields. *)
Lemma frame_request D s s' i r : frame D s s' → requests s !! i = Some r →
  ∃ r', requests s' !! i = Some r' ∧ bare r' = bare r ∧ length (sequences r) ≤ length (sequences r').
Proof. intros Hf Hr. destruct (fr_req _ _ _ Hf i r Hr) as (r'&?&[? ?]). eauto. Qed.

(** A request none of whose sequences may be touched is the same. *)
Lemma frame_other D s s' i : frame D s s' → (∀ j, ¬ D (i, j)) → requests s' !! i = requests s !! i.
Proof.
  intros Hf Hi. destruct (requests s !! i) as [r|] eqn:Hr; [|by apply (fr_dom _ _ _ Hf)].
  destruct (fr_req _ _ _ Hf i r Hr) as (r'&Hr'&[Hb _]). rewrite Hr'. f_equal.
  assert (sequences r' = sequences r) as Hs.
  { apply list_eq. intros j. pose proof (fr_seq _ _ _ Hf (i, j) (Hi j)) as Hj. cbn in Hj.
    by rewrite Hr, Hr' in Hj. }
  destruct r, r'. unfold bare in Hb. simpl in *. by simplify_eq.
Qed.

(** ** Updating one sequence *)

(** The state after the sequence [k] and the block manager changed. *)
Definition upd (k : positive * nat) (q : Sequence) (b : St) s : Sched St :=
  set_block_manager b (set_requests (seq_update k q (requests s)) s).

Lemma on_seq_wp {A} k q (m : M Sequence A) s Q :
  seq_lookup k (requests s) = Some q →
  wp m q (λ a q', Q a (upd k q' (block_manager_ s) s)) → wp (on_seq k m) s Q.
Proof.
  intros Hk Hm. unfold on_seq, on_heap. wp_steps. eapply with_seq_wp; [exact Hk|].
  eapply wp_mono; [exact Hm|]. intros a q'. unfold upd. by destruct s.
Qed.

Lemma on_store_wp {A} k q (m : M (Sequence * St) A) s Q :
  seq_lookup k (requests s) = Some q →
  wp m (q, block_manager_ s) (λ a p, Q a (upd k p.1 p.2 s)) → wp (on_store k m) s Q.
Proof.
  intros Hk Hm. unfold on_store. wp_steps; [exact Hk|]. unfold wp in Hm |- *.
  destruct (m _) as [[a [q' b']]|]; done.
Qed.

Lemma upd_same k q s : seq_lookup k (requests s) = Some q → upd k q (block_manager_ s) s = s.
Proof. intros Hk. unfold upd. rewrite seq_update_same by done. by destruct s. Qed.

Lemma upd_lookup k q b s : is_Some (seq_lookup k (requests s)) →
  seq_lookup k (requests (upd k q b s)) = Some q.
Proof. intros Hk. unfold upd. cbn [requests set_block_manager set_requests]. by apply seq_lookup_update. Qed.

Lemma upd_upd k q q' b b' s : is_Some (seq_lookup k (requests s)) →
  upd k q' b' (upd k q b s) = upd k q' b' s.
Proof.
  intros [q0 Hk]. destruct (seq_lookup_req _ _ _ Hk) as (r&Hr&Hj). unfold upd. simpl.
  rewrite Hr. rewrite lookup_insert_eq, insert_insert_eq. simpl.
  rewrite list_insert_insert_eq. by destruct s, r.
Qed.

Lemma upd_frame k q q' b s : seq_lookup k (requests s) = Some q →
  store_size b = store_size (block_manager_ s) → store_total b = store_total (block_manager_ s) →
  frame (λ k', k' = k) s (upd k q' b s).
Proof.
  intros Hk Hsz Htot. destruct (seq_lookup_req _ _ _ Hk) as (r&Hr&Hj).
  split; try done; cbn [upd requests set_block_manager set_requests].
  - intros k' Hne. by apply seq_lookup_update_ne.
  - intros i r' Hi. rewrite (seq_update_req _ _ _ _ Hr), lookup_insert. case_decide as He.
    + subst i. simplify_eq. eexists. split; [done|]. split; [by destruct r|]. simpl. by rewrite length_insert.
    + by exists r'.
  - intros i Hi. rewrite (seq_update_req _ _ _ _ Hr), lookup_insert_ne; [done|congruence].
Qed.

(** The sequence behind a pointer. *)
Lemma core_seq s k q : core_ok s → seq_lookup k (requests s) = Some q →
  ∃ r, requests s !! k.1 = Some r ∧ seq_ok (store_size (block_manager_ s)) r q.
Proof.
  intros [_ HR] Hk. destruct (seq_lookup_req _ _ _ Hk) as (r&Hr&Hj). exists r. split; [done|].
  pose proof (ro_seqs _ _ _ (HR _ _ Hr)) as Hs. by eapply Forall_lookup_1.
Qed.

(** The sequence keeps what its request fixes. *)
Definition seq_same (q q' : Sequence) : Prop :=
  length (token_ids_ q') = length (token_ids_ q) ∧ options_ q' = options_ q ∧
  num_prompt_tokens_ q' = num_prompt_tokens_ q.

Lemma upd_core k q q' b s F : core_ok s → seq_lookup k (requests s) = Some q →
  heap_blocks (requests s) ≡ₚ blocks_ q ++ F → store_ok b (blocks_ q' ++ F) →
  store_size b = store_size (block_manager_ s) →
  sched_seq (store_size b) q' → seq_same q q' → core_ok (upd k q' b s).
Proof.
  intros [_ HR] Hk HF Hst Hsz Hq (E1&E2&E3). destruct (heap_blocks_seq _ _ _ Hk) as (F0&HF0&HF').
  assert (F0 ≡ₚ F) as Hp by (eapply Permutation_app_inv_l; etrans; [symmetry; exact HF0|exact HF]).
  destruct (seq_lookup_req _ _ _ Hk) as (r&Hr&Hj). split; cbn [upd block_manager_ requests set_block_manager set_requests].
  - by rewrite HF', Hp.
  - rewrite Hsz in *. rewrite (seq_update_req _ _ _ _ Hr). intros i r' Hi.
    apply lookup_insert_Some in Hi as [[<- <-]|[_ Hi]]; [|by eapply HR]. pose proof (HR _ _ Hr) as Hok.
    eapply (req_ok_same _ _ r); [by destruct r| | |done].
    + simpl. intros Hn%(f_equal length). rewrite length_insert in Hn.
      apply (ro_nonempty _ _ _ Hok). by apply nil_length_inv.
    + simpl. apply Forall_insert; [apply Hok|].
      pose proof (Forall_lookup_1 _ _ _ _ (ro_seqs _ _ _ Hok) Hj) as [? ? ? ?]. split; congruence.
Qed.
End core.

(** ** The scheduler: operations on one sequence or request

    Asking whether a sequence is finished, releasing, allocating, caching and
    expanding keep the invariant, do not fail, and touch only their own sequence
    or request. *)

Section ops.
Context {St : Type} {BS : BlockStore St} {BL : BlockStoreLaws St} (cap : Limits).
Implicit Types s : Sched St.

(** What an operation on sequence [k] leaves behind. *)
Record touched (k : positive * nat) (q' : Sequence) s s' : Prop := {
  tc_core : core_ok cap s';
  tc_frame : frame (λ k', k' = k) s s';
  tc_lookup : seq_lookup k (requests s') = Some q';
}.

Lemma upd_touched k q q' b s F : core_ok cap s → seq_lookup k (requests s) = Some q →
  heap_blocks (requests s) ≡ₚ blocks_ q ++ F → store_ok b (blocks_ q' ++ F) →
  store_size b = store_size (block_manager_ s) → store_total b = store_total (block_manager_ s) →
  sched_seq (store_size b) q' → seq_same q q' → touched k q' s (upd k q' b s).
Proof.
  intros Hc Hk HF Hst Hsz Htot Hq Hsame. split.
  - by eapply upd_core.
  - by eapply upd_frame.
  - apply upd_lookup. by eexists.
Qed.

Lemma touched_refl k q s : core_ok cap s → seq_lookup k (requests s) = Some q → touched k q s s.
Proof. intros Hc Hk. by split. Qed.

Lemma touched_trans k q1 q2 s s1 s2 : touched k q1 s s1 → touched k q2 s1 s2 → touched k q2 s s2.
Proof. intros [_ F1 _] [C2 F2 L2]. split; [done|by etrans|done]. Qed.

(** The handles of a sequence and of all the others. *)
Lemma core_split s k q : core_ok cap s → seq_lookup k (requests s) = Some q → ∃ F r,
  heap_blocks (requests s) ≡ₚ blocks_ q ++ F ∧ store_ok (block_manager_ s) (blocks_ q ++ F) ∧
  requests s !! k.1 = Some r ∧ seq_ok (store_size (block_manager_ s)) r q ∧
  req_ok (store_size (block_manager_ s)) cap r.
Proof.
  intros Hc Hk. destruct (core_seq _ _ _ _ Hc Hk) as (r&Hr&Hs).
  destruct (heap_blocks_seq _ _ _ Hk) as (F&HF&_). exists F, r. split_and!; try done.
  - rewrite <- HF. apply Hc.
  - by eapply (co_reqs _ _ Hc).
Qed.

(** ** Finish status *)

Lemma on_is_finished_wp k q s : core_ok cap s → seq_lookup k (requests s) = Some q →
  wp (on_seq k is_finished) s (λ r s', ∃ q', touched k q' s s' ∧ checked r q q').
Proof.
  intros Hc Hk. destruct (core_split _ _ _ Hc Hk) as (F&r&HF&HS&_&Hs&_).
  eapply on_seq_wp; [exact Hk|]. eapply wp_mono; [apply is_finished_checked, Hs|].
  intros fin q' Hq. exists q'. split; [|done]. assert (seq_same q q' ∧ blocks_ q' = blocks_ q) as [Hsame Hbl] by (destruct Hq as [-> _ _]; done).
  eapply (upd_touched k q q' _ s F); try done; [by rewrite Hbl|eapply checked_sched; [exact Hq|apply Hs]].
Qed.

(** ** Releasing *)

Definition released (q : Sequence) : Sequence := set_blocks [] (set_kv_tokens (mkKvTokens 0 0) q).

Lemma on_release_wp k q s : core_ok cap s → seq_lookup k (requests s) = Some q →
  wp (on_store k store_release) s (λ _ s', touched k (released q) s s').
Proof.
  intros Hc Hk. destruct (core_split _ _ _ Hc Hk) as (F&r&HF&HS&_&[Hs _ _ _]&_).
  eapply on_store_wp; [exact Hk|]. eapply wp_mono; [by apply (store_release_wp q _ F)|].
  intros _ [q' b'] (->&Hq&HS'&Hsz&Htot&_). cbn [fst snd] in *.
  eapply (upd_touched k q _ _ s F); try done. by rewrite Hsz.
Qed.

(** A loop over the sequences of a request, each step touching only its own
    sequence and establishing [P] of it. *)
Lemma for_seqs_wp (f : nat → M (Sched St) unit) (P : Sequence → Prop) rid s r :
  core_ok cap s → requests s !! rid = Some r →
  (∀ i q s1, core_ok cap s1 → seq_lookup (rid, i) (requests s1) = Some q →
    wp (f i) s1 (λ _ s2, ∃ q', touched (rid, i) q' s1 s2 ∧ P q')) →
  wp (for_each f (seq 0 (length (sequences r)))) s (λ _ s',
    core_ok cap s' ∧ frame (λ k, k.1 = rid) s s' ∧
    ∃ r', requests s' !! rid = Some r' ∧ Forall P (sequences r')).
Proof.
  intros Hc Hr Hf. set (D := λ k : positive * nat, k.1 = rid ∧ k.2 < length (sequences r)).
  apply (wp_for_each (λ dn s', core_ok cap s' ∧ frame D s s' ∧
    ∀ i, i ∈ dn → ∃ q, seq_lookup (rid, i) (requests s') = Some q ∧ P q)).
  - split_and!; [done|done|]. intros i Hi. by apply not_elem_of_nil in Hi.
  - intros dn i todo s1 Heq (C1&F1&H1).
    assert (i < length (sequences r) ∧ i ∉ dn) as [Hi Hni].
    { split; [assert (i ∈ seq 0 (length (sequences r))) as Hin by (rewrite Heq; set_solver);
        apply elem_of_seq in Hin; lia|].
      pose proof (NoDup_seq 0 (length (sequences r))) as Hnd. rewrite Heq in Hnd.
      apply NoDup_app in Hnd as (_&Hd&_). intros Hin. apply (Hd i Hin). by left. }
    destruct (frame_request _ _ _ _ _ F1 Hr) as (r1&Hr1&_&Hlen).
    destruct (lookup_lt_is_Some_2 (sequences r1) i) as [q Hq]; [lia|].
    eapply wp_mono; [eapply (Hf i q); [done|by eapply seq_lookup_some]|].
    intros _ s2 (q'&[C2 F2 L2]&HP). split_and!; [done| |].
    + etrans; [exact F1|]. eapply frame_weaken; [|exact F2]. by intros k ->.
    + intros j [Hj| ->%list_elem_of_singleton]%elem_of_app; [|by eauto].
      destruct (H1 j Hj) as (qj&Hqj&HPj). exists qj. split; [|done].
      rewrite (fr_seq _ _ _ F2); [done|]. intros ?. by simplify_eq.
  - intros s' (C'&F'&H'). split_and!; [done|eapply frame_weaken; [|exact F']; by intros k []|].
    destruct (frame_request _ _ _ _ _ F' Hr) as (r'&Hr'&_&Hlen). exists r'. split; [done|].
    apply Forall_lookup_2. intros j q Hq. destruct (decide (j < length (sequences r))) as [Hj|Hj].
    + destruct (H' j) as (q'&Hq'&HP); [apply elem_of_seq; lia|].
      cbn in Hq'. rewrite Hr' in Hq'. cbn in Hq'. by simplify_eq.
    + exfalso. pose proof (fr_seq _ _ _ F' (rid, j)) as Hs. cbn in Hs. rewrite Hr, Hr' in Hs.
      cbn in Hs. rewrite Hq in Hs. rewrite lookup_ge_None_2 in Hs by lia.
      assert (Some q = None); [apply Hs; unfold D; simpl; lia|done].
Qed.

Lemma on_request_get_wp rid s r (Q : Request → Sched St → Prop) :
  requests s !! rid = Some r → Q r s → wp (on_request rid get) s Q.
Proof.
  intros Hr HQ. unfold on_request, on_heap. wp_steps. unfold with_request. wp_steps; [exact Hr|].
  unfold get. wp_steps. rewrite insert_id by done. by destruct s.
Qed.

(** After the release of a request none of its sequences holds a block. *)
Lemma release_request_wp rid s r : core_ok cap s → requests s !! rid = Some r →
  wp (release_request rid) s (λ _ s', core_ok cap s' ∧ frame (λ k, k.1 = rid) s s' ∧
    ∃ r', requests s' !! rid = Some r' ∧ req_blocks r' = []).
Proof.
  intros Hc Hr. unfold release_request. wp_steps. eapply on_request_get_wp; [exact Hr|].
  eapply wp_mono; [apply (for_seqs_wp _ (λ q, blocks_ q = []) rid s r); [done|done|]|].
  - intros i q s1 Hc1 Hq. eapply wp_mono; [by apply on_release_wp|]. intros [] s2 Ht. by eexists.
  - intros _ s' (C'&F'&r'&Hr'&Hall). split_and!; [done|done|]. exists r'. split; [done|].
    unfold req_blocks. clear Hr'. induction Hall as [|q qs Hq _ IH]; [done|]. rewrite fmap_cons. simpl.
    by rewrite Hq, IH.
Qed.

Lemma release_if_finished_wp k q s : core_ok cap s → seq_lookup k (requests s) = Some q →
  wp (release_if_finished k) s (λ _ s', ∃ q', touched k q' s s' ∧ True).
Proof.
  intros Hc Hk. unfold release_if_finished. wp_steps.
  eapply wp_mono; [by apply on_is_finished_wp|]. intros fin s1 (q'&Ht&_). pose proof Ht as [C1 F1 L1].
  destruct fin; [|apply wp_ret; by eexists]. eapply wp_mono; [by apply on_release_wp|].
  intros [] s2 Ht2. eexists. split; [by eapply touched_trans|done].
Qed.

(** ** Operations of a request *)

Lemma on_request_wp {A} rid (m : M Request A) s r Q :
  requests s !! rid = Some r →
  wp m r (λ a r', Q a (set_requests (<[rid:=r']> (requests s)) s)) → wp (on_request rid m) s Q.
Proof.
  intros Hr Hm. unfold on_request, on_heap. wp_steps. unfold with_request. wp_steps; [exact Hr|].
  unfold wp in Hm |- *. by destruct (m r) as [[a r']|].
Qed.

Lemma on_request_step {A} rid (m : M Request A) s r (P : A → Request → Prop) :
  core_ok cap s → requests s !! rid = Some r →
  wp m r (λ a r', req_step (store_size (block_manager_ s)) cap r r' ∧ P a r') →
  wp (on_request rid m) s (λ a s', ∃ r', core_ok cap s' ∧ frame (λ k, k.1 = rid) s s' ∧
    requests s' !! rid = Some r' ∧ P a r').
Proof.
  intros [HS HR] Hr Hm. eapply on_request_wp; [exact Hr|]. eapply wp_mono; [exact Hm|].
  intros a r' [[Hsame Hok Hbl] HP]. exists r'. split_and!; [| |by cbn; rewrite lookup_insert_eq|done].
  - split; cbn.
    + by rewrite (heap_blocks_same _ _ rid r r' Hr eq_refl Hbl).
    + intros i x Hx. apply lookup_insert_Some in Hx as [[_ <-]|[_ Hx]]; [done|by eapply HR].
  - split; try done; cbn.
    + intros [i j] Hne. cbn. by rewrite lookup_insert_ne.
    + intros i x Hx. rewrite lookup_insert. case_decide as He; [|by exists x].
      subst i. simplify_eq. by exists r'.
    + intros i Hi. rewrite lookup_insert_ne; [done|]. intros ->. congruence.
Qed.

(** ** Allocating *)

(** [allocate_for] gave sequence [q], now [q'], blocks for [n] more tokens, if
    [ok]. *)
Record allotted (budget : nat) (bs : nat) (q q' : Sequence) (ok : bool) (n : nat) : Prop := {
  at_eq : q' = set_blocks (blocks_ q') (set_kv_tokens (num_kv_cache_tokens_ q') q);
  at_kept : blocks_ q ≠ [] → num_kv_cache_tokens_ q' = num_kv_cache_tokens_ q ∧
    length (blocks_ q) ≤ length (blocks_ q');
  at_tokens : n = Nat.min (num_kv_cache_tokens q' + budget) (num_tokens_ q) - num_kv_cache_tokens q';
  at_range : 0 < n ≤ budget ∧ num_kv_cache_tokens q' + n ≤ num_tokens_ q;
  at_blocks : ok = true → num_kv_cache_tokens q' + n ≤ length (blocks_ q') * bs;
}.

Lemma sched_kv bs q : sched_seq bs q →
  num_kv_cache_tokens q = kv_llm (num_kv_cache_tokens_ q) ∧ num_kv_cache_tokens q < num_tokens_ q ∧
  num_kv_cache_tokens q ≤ length (blocks_ q) * bs.
Proof. intros [_ He _ Hl Hc]. unfold num_kv_cache_tokens. by rewrite He. Qed.

(** Sharing blocks of the cache with a sequence that has none. *)
Lemma on_share_wp k q s : core_ok cap s → seq_lookup k (requests s) = Some q →
  wp (if decide (num_blocks q = 0) then on_store k store_share else mret tt) s (λ _ s', ∃ q',
    touched k q' s s' ∧ q' = set_blocks (blocks_ q') (set_kv_tokens (num_kv_cache_tokens_ q') q) ∧
    (blocks_ q ≠ [] → q' = q) ∧
    (blocks_ q' = [] → store_tried (block_manager_ s') (token_ids q'))).
Proof.
  intros Hc Hk. destruct (core_split _ _ _ Hc Hk) as (F&r&HF&HS&_&[Hs _ _ _]&_).
  unfold num_blocks. destruct (blocks_ q) as [|b0 bl] eqn:Hbl; simpl.
  - eapply on_store_wp; [exact Hk|]. eapply wp_mono; [by apply (store_share_wp q _ F)|].
    intros _ [q' b'] (Heq&Hq&HS'&Hsz&Htot&_&Htr). cbn [fst snd] in *. exists q'. split_and!.
    + eapply (upd_touched k q _ _ s F); try done; [by rewrite Hbl|by rewrite Hsz|by rewrite Heq].
    + rewrite Heq. by destruct q.
    + done.
    + intros Hn. cbn. unfold token_ids in *. rewrite Heq. by apply Htr.
  - apply wp_ret. exists q. split_and!; [by apply touched_refl|by destruct q|done|congruence].
Qed.

Lemma allocate_for_wp k q s budget : core_ok cap s → config_ok cap s →
  seq_lookup k (requests s) = Some q → 0 < budget →
  wp (allocate_for k budget) s (λ r s', ∃ q', touched k q' s s' ∧
    allotted budget (store_size (block_manager_ s)) q q' r.1 r.2).
Proof.
  intros Hc Hcf Hk Hbud. unfold allocate_for. wp_steps.
  { apply bool_decide_eq_true_2. rewrite (cf_spec _ _ Hcf). done. }
  eapply on_seq_wp; [exact Hk|]. wp_steps. rewrite upd_same by done.
  eapply wp_mono; [by apply on_share_wp|]. intros _ s1 (q1&[C1 F1 L1]&Heq1&Hkept&Htr).
  wp_steps. eapply on_seq_wp; [exact L1|]. apply wp_get. rewrite upd_same by done.
  destruct (core_split _ _ _ C1 L1) as (F&r&HF&HS&Hr&[Hs Hcap _ _]&Hok).
  destruct (sched_kv _ _ Hs) as (Hkv&Hlt&Hcov). pose proof (fr_size _ _ _ F1) as Hsz1.
  unfold tokens_after. rewrite (cf_spec _ _ Hcf). rewrite decide_False by lia.
  set (n := Nat.min _ _). assert (num_tokens_ q1 = num_tokens_ q) as Hnt by (by rewrite Heq1).
  wp_steps; [apply bool_decide_eq_true_2; lia|].
  eapply on_store_wp; [exact L1|]. eapply wp_mono; [apply (store_allocate_wp q1 _ F n); try done|].
  { pose proof (frame_config _ _ _ _ F1 Hcf) as Hcf1. pose proof (cf_alloc _ _ Hcf1).
    pose proof (si_capacity _ (sq_inv _ _ Hs)). pose proof (ro_cap _ _ _ Hok). lia. }
  intros ok [q2 b2] (Heq2&Hq2&HS2&Hsz&Htot&_&Hlen&Hen). cbn [fst snd] in *. wp_steps. exists q2.
  assert (num_kv_cache_tokens q2 = num_kv_cache_tokens q1 ∧ num_kv_cache_tokens_ q2 = num_kv_cache_tokens_ q1)
    as [Hk2 Hk2'] by (rewrite Heq2; done).
  split.
  - eapply touched_trans; [by split|]. eapply (upd_touched k q1 _ _ s1 F); try done; [by rewrite Hsz|by rewrite Heq2].
  - cbn [fst snd]. split.
    + rewrite Heq2, Heq1. done.
    + intros Hne. rewrite Hkept in * by done. done.
    + rewrite Hk2. unfold n. by rewrite Hnt.
    + rewrite Hk2. unfold n in *. lia.
    + intros ->. rewrite Hk2. rewrite <- Hsz1. specialize (Hen eq_refl). lia.
Qed.
End ops.

(** ** The scheduler: order of the requests

    The priority queue is sorted by priority and creation time, and stays so
    under [push] and [pop].  The order does not depend on the sequences of the
    requests. *)

(** ** The order on requests *)

(** [a] is processed before [b]. *)
Definition before (h : Heap) (a b : positive) : Prop :=
  ∃ ra rb, h !! a = Some ra ∧ h !! b = Some rb ∧ request_less ra rb = true.

(** No two requests have the same priority and creation time. *)
Definition distinct_times (h : Heap) : Prop := ∀ a b ra rb,
  h !! a = Some ra → h !! b = Some rb → priority ra = priority rb → created_time ra = created_time rb → a = b.

Lemma request_less_irrefl r : request_less r r = false.
Proof. unfold request_less. rewrite decide_True by done. apply Z.ltb_irrefl. Qed.

Lemma request_less_trans r1 r2 r3 :
  request_less r1 r2 = true → request_less r2 r3 = true → request_less r1 r3 = true.
Proof.
  unfold request_less. destruct (priority r1), (priority r2), (priority r3); simpl; try done;
    rewrite ?Z.ltb_lt; lia.
Qed.

Lemma request_less_total r1 r2 : (priority r1 = priority r2 → created_time r1 ≠ created_time r2) →
  request_less r1 r2 = false → request_less r2 r1 = true.
Proof.
  unfold request_less. destruct (priority r1), (priority r2); simpl; try done;
    rewrite ?Z.ltb_lt, ?Z.ltb_ge; intros H1 H2; specialize (H1 eq_refl); lia.
Qed.

(** The two comparison objects are converses. *)
Lemma request_greater_less r1 r2 : request_greater r1 r2 = request_less r2 r1.
Proof.
  unfold request_greater, request_less. destruct (priority r1), (priority r2); simpl; try done;
    by rewrite Z.gtb_ltb.
Qed.

Lemma before_irrefl h a : ¬ before h a a.
Proof. intros (r&r'&H1&H2&H). simplify_eq. by rewrite request_less_irrefl in H. Qed.

#[global] Instance before_trans h : Transitive (before h).
Proof.
  intros a b c (ra&rb&Ha&Hb&H1) (rb'&rc&Hb'&Hc&H2). simplify_eq. exists ra, rc. split_and!; try done.
  by eapply request_less_trans.
Qed.

Lemma before_asym h a b : before h a b → before h b a → False.
Proof. intros H1 H2. eapply before_irrefl. by etrans. Qed.

Lemma before_total h a b : distinct_times h → is_Some (h !! a) → is_Some (h !! b) → a ≠ b →
  ¬ before h a b → before h b a.
Proof.
  intros Hd [ra Ha] [rb Hb] Hne Hn. exists rb, ra. split_and!; try done. apply request_less_total.
  - intros Hp Ht. apply Hne. by eapply Hd.
  - destruct (request_less ra rb) eqn:Hl; [|done]. exfalso. apply Hn. by exists ra, rb.
Qed.

(** The order only reads the priority and the creation time. *)
Definition same_times (h h' : Heap) : Prop := ∀ i r, h !! i = Some r →
  ∃ r', h' !! i = Some r' ∧ priority r' = priority r ∧ created_time r' = created_time r.

Lemma before_same h h' a b : same_times h h' → before h a b → before h' a b.
Proof.
  intros H (ra&rb&Ha&Hb&Hl). destruct (H _ _ Ha) as (ra'&Ha'&Hp&Ht).
  destruct (H _ _ Hb) as (rb'&Hb'&Hp'&Ht'). exists ra', rb'. split_and!; try done.
  unfold request_less in *. by rewrite Hp, Hp', Ht, Ht'.
Qed.

(** ** Sorted queues *)

Abbreviation queue_sorted h := (StronglySorted (before h)).

Lemma queue_sorted_same h h' q : same_times h h' → queue_sorted h q → queue_sorted h' q.
Proof.
  intros H Hs. induction Hs as [|x q Hs IH Hx]; constructor; [done|].
  eapply Forall_impl; [exact Hx|]. intros y. by apply before_same.
Qed.

Lemma queue_sorted_nodup h q : queue_sorted h q → NoDup q.
Proof.
  induction 1 as [|x q Hs IH Hx]; constructor; [|done]. intros Hin.
  rewrite Forall_forall in Hx. by eapply before_irrefl, Hx.
Qed.

(** The first request of a sorted queue is the first of any sorted part. *)
Lemma queue_sorted_head h x q p : queue_sorted h (x :: q) → queue_sorted h p → p ⊆ x :: q →
  x ∈ p → ∃ p', p = x :: p'.
Proof.
  intros Hq Hp Hsub Hx. destruct p as [|y p]; [by apply not_elem_of_nil in Hx|].
  destruct (decide (y = x)) as [->|Hne]; [by eexists|exfalso].
  apply StronglySorted_cons in Hq as [Hq _]. apply StronglySorted_cons in Hp as [Hp _].
  rewrite Forall_forall in Hq, Hp.
  assert (x ∈ p) as Hxp by set_solver. assert (y ∈ q) as Hyq by (pose proof (Hsub y); set_solver).
  eapply before_asym; [by apply Hp|by apply Hq].
Qed.

Lemma queue_sorted_app h q1 q2 : queue_sorted h q1 → queue_sorted h q2 →
  (∀ a b, a ∈ q1 → b ∈ q2 → before h a b) → queue_sorted h (q1 ++ q2).
Proof. intros H1 H2 H. apply StronglySorted_app_2; [|done|done]. auto. Qed.

Lemma queue_sorted_removelast h q : queue_sorted h q → queue_sorted h (removelast q).
Proof.
  destruct q as [|x q _] using rev_ind; [done|]. rewrite removelast_last.
  intros H. by apply StronglySorted_app in H as (_&?&_).
Qed.

(** ** push *)

Lemma pq_insert_perm h rid q : pq_insert h rid q ≡ₚ rid :: q.
Proof.
  induction q as [|x q IH]; [done|]. simpl.
  repeat case_match; try done; rewrite IH; apply Permutation_swap.
Qed.

Lemma pq_insert_sorted h rid q : distinct_times h → is_Some (h !! rid) → rid ∉ q →
  (∀ x, x ∈ q → is_Some (h !! x)) → queue_sorted h q → queue_sorted h (pq_insert h rid q).
Proof.
  intros Hd [r Hr] Hni Hdom Hs. induction Hs as [|x q Hs IH Hx]; simpl; [by repeat constructor|].
  destruct (Hdom x) as [y Hy]; [by left|]. rewrite Hr, Hy. destruct (request_less r y) eqn:Hl.
  - assert (before h rid x) as Hb by (by exists r, y). constructor; [by constructor|].
    constructor; [done|]. eapply Forall_impl; [exact Hx|]. intros z. by etrans.
  - constructor; [apply IH; set_solver|]. rewrite pq_insert_perm. constructor; [|done].
    apply before_total; [done|by eexists|by eexists|set_solver|].
    intros (ra&rb&Ha&Hb&Hl'). simplify_eq. by rewrite Hl in Hl'.
Qed.
