(* ===== verification/SchedulerLoop.v ===== *)
(** * The scheduler: building the batch

    The loops of [build_sequence_batch] do not fail and terminate; every sequence
    that ends up in the batch has blocks for its tokens, is not finished, and
    occurs once; the budgets are respected; and a request that still holds blocks
    without running is waiting in both queues. *)

From stdpp Require Import base tactics list gmap strings sorting.
From S2P Require Import Prelude Slice Block Types Stopping Decoder Sequence SequenceInv Request.
From S2P Require Import Sampling Batch BatchInv BlockStore ResponseHandler RequestInv Scheduler.
From S2P Require Import SchedulerInv.

Section loop.
Context {St : Type} {BS : BlockStore St} {BL : BlockStoreLaws St} (cap : Limits).
Implicit Types s : Sched St.

(** ** Jobs *)

(** Sequence [k] can process [n] more tokens in this step. *)
Definition job_ok s (k : positive * nat) (n : nat) : Prop := ∃ q,
  seq_lookup k (requests s) = Some q ∧ 0 < n ∧ num_kv_cache_tokens q + n ≤ num_tokens_ q ∧
  num_kv_cache_tokens q + n ≤ length (blocks_ q) * store_size (block_manager_ s) ∧
  finish_status_invalidated_ q = false ∧ is_finished_ q = false.

Record jobs_ok s (ks : list (positive * nat)) (ns : list nat) : Prop := {
  jo_jobs : Forall2 (job_ok s) ks ns;
  jo_nodup : NoDup ks;
}.

Lemma job_ok_frame D s s' k n : frame D s s' → ¬ D k → job_ok s k n → job_ok s' k n.
Proof.
  intros Hf Hk (q&Hq&H). exists q. by rewrite (fr_seq _ _ _ Hf) by done; rewrite (fr_size _ _ _ Hf).
Qed.

Lemma jobs_ok_frame D s s' ks ns : frame D s s' → (∀ k, k ∈ ks → ¬ D k) → jobs_ok s ks ns → jobs_ok s' ks ns.
Proof.
  intros Hf Hk [Hj Hnd]. split; [|done]. clear Hnd. induction Hj as [|k n ks ns Hj _ IH]; constructor.
  - eapply job_ok_frame; [done|apply Hk; by left|done].
  - apply IH. intros k' Hk'. apply Hk. by right.
Qed.

Lemma jobs_ok_nil s : jobs_ok s [] [].
Proof. split; constructor. Qed.

Lemma jobs_ok_length s ks ns : jobs_ok s ks ns → length ks = length ns.
Proof. intros [H _]. by eapply Forall2_length. Qed.

Lemma jobs_ok_app s ks ns ks' ns' : jobs_ok s ks ns → jobs_ok s ks' ns' → (∀ k, k ∈ ks → k ∉ ks') →
  jobs_ok s (ks ++ ks') (ns ++ ns').
Proof. intros [H1 N1] [H2 N2] Hd. split; [by apply Forall2_app|]. by apply NoDup_app. Qed.

(** A job only depends on the heap and the block manager. *)
Lemma jobs_ok_state s s' ks ns : requests s' = requests s → block_manager_ s' = block_manager_ s →
  jobs_ok s ks ns → jobs_ok s' ks ns.
Proof.
  intros Hr Hb [H1 H2]. split; [|done]. eapply Forall2_impl; [exact H1|].
  intros k n (q&Hq&H). exists q. by rewrite Hr, Hb.
Qed.

(** A sequence that was checked unfinished and allotted tokens is a job. *)
Lemma allotted_job s k q q' q2 budget n : touched cap k q2 s s → checked false q q' →
  allotted budget (store_size (block_manager_ s)) q' q2 true n → job_ok s k n.
Proof.
  intros [_ _ Hl] Hck [Heq _ _ [Hn Hle] Hbl]. exists q2.
  assert (num_tokens_ q2 = num_tokens_ q' ∧ finish_status_invalidated_ q2 = finish_status_invalidated_ q' ∧
    is_finished_ q2 = is_finished_ q') as (E1&E2&E3) by (rewrite Heq; done).
  destruct Hck as [Hck _ _].
  assert (finish_status_invalidated_ q' = false ∧ is_finished_ q' = false) as [G1 G2] by (by rewrite Hck).
  rewrite E1, E2, E3. split_and!; try done; [lia|]. auto.
Qed.

(** ** The candidates of a request *)

Record cands_ok s (rid : positive) (rt rs : nat) (c : Candidates) : Prop := {
  cd_jobs : jobs_ok s (cand_sequences c) (cand_budgets c);
  cd_rid : Forall (λ k, k.1 = rid) (cand_sequences c);
  cd_tokens : allocated_tokens c ≤ rt;
  cd_seqs : allocated_seqs c ≤ rs;
}.

Lemma cands_ok_frame D s s' rid rt rs c : frame D s s' → (∀ k, k ∈ cand_sequences c → ¬ D k) →
  cands_ok s rid rt rs c → cands_ok s' rid rt rs c.
Proof. intros Hf Hd []. split; try done. by eapply jobs_ok_frame. Qed.

Lemma candidates_wp rid avg rt rs idxs : ∀ s r c,
  core_ok cap s → config_ok cap s → requests s !! rid = Some r → 0 < avg →
  Forall (λ i, i < length (sequences r)) idxs → NoDup idxs →
  (∀ i, i ∈ idxs → (rid, i) ∉ cand_sequences c) → cands_ok s rid rt rs c →
  wp (candidates rid avg rt rs idxs c) s (λ c' s',
    core_ok cap s' ∧ frame (λ k, k.1 = rid) s s' ∧ cands_ok s' rid rt rs c').
Proof.
  induction idxs as [|i idxs IH]; intros s r c Hc Hcf Hr Havg Hin Hnd Hni Hcd; simpl.
  { by apply wp_ret. }
  apply Forall_cons in Hin as [Hi Hin]. apply NoDup_cons in Hnd as [Hii Hnd].
  destruct (lookup_lt_is_Some_2 _ _ Hi) as [q Hq].
  pose proof (seq_lookup_some _ rid i _ _ Hr Hq) as Hk. wp_steps.
  eapply wp_mono; [by apply on_is_finished_wp|]. intros fin s1 (q1&[C1 F1 L1]&Hck).
  assert (frame (λ k, k.1 = rid) s s1) as F1' by (eapply frame_weaken; [|exact F1]; by intros k ->).
  destruct (frame_request _ _ _ _ _ F1 Hr) as (r1&Hr1&Hb1&Hlen1).
  assert (Forall (λ i, i < length (sequences r1)) idxs) as Hin1
    by (eapply Forall_impl; [exact Hin|]; simpl; lia).
  assert (cands_ok s1 rid rt rs c) as Hcd1.
  { eapply cands_ok_frame; [exact F1| |done]. intros k Hkc ->. apply (Hni i); [by left|done]. }
  pose proof (frame_config _ _ _ _ F1 Hcf) as Hcf1.
  destruct fin.
  { eapply wp_mono; [apply (IH s1 r1 c); try done; set_solver|]. intros c' s2 (?&?&?).
    split_and!; [done|by etrans|done]. }
  case_decide as Hno; [by apply wp_ret|]. rewrite (cf_spec _ _ Hcf) in Hno.
  wp_steps; [apply Hcd|].
  eapply wp_mono; [apply (allocate_for_wp cap (rid, i) q1 s1); [done..|lia]|].
  intros [ok n] s2 (q2&[C2 F2 L2]&Hal). cbn [fst snd] in *.
  assert (frame (λ k, k.1 = rid) s s2) as F2'.
  { etrans; [exact F1'|]. eapply frame_weaken; [|exact F2]. by intros k ->. }
  assert (cands_ok s2 rid rt rs c) as Hcd2.
  { eapply cands_ok_frame; [exact F2| |done]. intros k Hkc ->. apply (Hni i); [by left|done]. }
  destruct ok; simpl.
  2:{ apply wp_ret. split_and!; [done|done|]. destruct Hcd2. by split. }
  destruct (frame_request _ _ _ _ _ F2' Hr) as (r2&Hr2&_&Hlen2).
  pose proof (fr_size _ _ _ F2) as Hsz2.
  assert (job_ok s2 (rid, i) n) as Hj.
  { eapply (allotted_job s2 (rid, i) q q1 q2); [by split|done|]. rewrite Hsz2. exact Hal. }
  destruct Hal as [_ _ _ [Hn _] _]. destruct Hcd2 as [D1 D2 D3 D4].
  eapply wp_mono; [apply (IH s2 r2 (mkCandidates (cand_sequences c ++ [(rid, i)]) (cand_budgets c ++ [n]) true))|].
  - done.
  - by eapply frame_config.
  - done.
  - done.
  - eapply Forall_impl; [exact Hin|]. simpl. lia.
  - done.
  - intros j Hj'. cbn [cand_sequences]. intros [Hx|Hx%list_elem_of_singleton]%elem_of_app.
    + apply (Hni j); [by right|done].
    + by simplify_eq.
  - split; cbn [cand_sequences cand_budgets].
    + apply jobs_ok_app; [done|split; [by constructor|apply NoDup_singleton]|].
      intros k Hkc ->%list_elem_of_singleton. apply (Hni i); [by left|done].
    + apply Forall_app. split; [done|by apply Forall_singleton].
    + unfold allocated_tokens in *. cbn [cand_budgets]. rewrite sum_list_with_app. simpl. lia.
    + unfold allocated_seqs in *. cbn [cand_sequences]. rewrite length_app. simpl. lia.
  - intros c' s3 (?&?&?). split_and!; [done|by etrans|done].
Qed.

(** ** The loop over the priority queue *)

(** What the scheduling phases never change: the configuration, the queue of new
    requests, the responses, and the fields of the requests. *)
Record env_same s s' : Prop := {
  en_options : sch_options_ s' = sch_options_ s;
  en_queue : request_queue_ s' = request_queue_ s;
  en_responses : responses s' = responses s;
  en_sharing : enable_prefix_cache_ s' = enable_prefix_cache_ s;
  en_pending : pending_requests_ s' = pending_requests_ s;
  en_size : store_size (block_manager_ s') = store_size (block_manager_ s);
  en_total : store_total (block_manager_ s') = store_total (block_manager_ s);
  en_req : ∀ i r, requests s !! i = Some r → ∃ r', requests s' !! i = Some r' ∧ req_same r r';
  en_dom : ∀ i, requests s !! i = None → requests s' !! i = None;
}.

#[export] Instance env_same_preorder : PreOrder env_same.
Proof.
  split.
  - intros s. split; try done. intros i r Hr. by exists r.
  - intros s1 s2 s3 [A1 A2 A3 A4 A5 A6 A7 A8 A9] [B1 B2 B3 B4 B5 B6 B7 B8 B9]. split; try congruence.
    + intros i r Hr. destruct (A8 i r Hr) as (r'&Hr'&?). destruct (B8 i r' Hr') as (r''&?&?).
      exists r''. split; [done|by etrans].
    + intros i Hi. by apply B9, A9.
Qed.

Lemma frame_env D s s' : frame D s s' → env_same s s'.
Proof.
  intros Hf. pose proof (frame_fields _ _ _ Hf) as (?&?&_&_&_&_&_&?&?&?). destruct Hf. by split.
Qed.

Lemma env_times s s' : env_same s s' → same_times (requests s) (requests s').
Proof.
  intros He i r Hr. destruct (en_req _ _ He i r Hr) as (r'&Hr'&[Hb _]).
  apply bare_fields in Hb as (_&_&_&_&?&?&_). eauto.
Qed.

Lemma env_distinct s s' : env_same s s' → distinct_times (requests s) → distinct_times (requests s').
Proof.
  intros He Hd a b ra rb Ha Hb Hp Ht.
  destruct (requests s !! a) as [ra0|] eqn:Ha0; [|by rewrite (en_dom _ _ He a Ha0) in Ha].
  destruct (requests s !! b) as [rb0|] eqn:Hb0; [|by rewrite (en_dom _ _ He b Hb0) in Hb].
  destruct (env_times _ _ He _ _ Ha0) as (ra1&?&Hpa&Hta).
  destruct (env_times _ _ He _ _ Hb0) as (rb1&?&Hpb&Htb). simplify_eq.
  eapply Hd; [exact Ha0|exact Hb0|congruence|congruence].
Qed.

Lemma env_is_Some s s' i : env_same s s' → is_Some (requests s !! i) → is_Some (requests s' !! i).
Proof. intros He [r Hr]. destruct (en_req _ _ He i r Hr) as (r'&?&_). by eexists. Qed.

Lemma env_config s s' : env_same s s' → config_ok cap s → config_ok cap s'.
Proof. intros [E1 _ _ _ _ E6 E7 _ _] []. split; by rewrite ?E1, ?E6, ?E7. Qed.

Record loop_ok (T U : nat) s (rt rs : nat) : Prop := {
  lo_core : core_ok cap s;
  lo_config : config_ok cap s;
  lo_dom : ∀ x, x ∈ running_requests_ s ++ priority_queue_ s → is_Some (requests s !! x);
  lo_times : distinct_times (requests s);
  lo_sorted : queue_sorted (requests s) (running_requests_ s ++ priority_queue_ s);
  lo_preempt : queue_sorted (requests s) (preemptable_requests_ s);
  lo_waiting : preemptable_requests_ s ⊆ priority_queue_ s;
  lo_jobs : jobs_ok s (running_sequences_ s) (running_sequences_budgets_ s);
  lo_rids : Forall (λ k, k.1 ∈ running_requests_ s) (running_sequences_ s);
  lo_tokens : sum_list (running_sequences_budgets_ s) + rt = T;
  lo_seqs : length (running_sequences_ s) + rs = U;
}.

(** Touching a request that does not run keeps the invariant. *)
Lemma loop_ok_frame T U s s' rt rs rid : loop_ok T U s rt rs → frame (λ k, k.1 = rid) s s' →
  core_ok cap s' → rid ∉ running_requests_ s → loop_ok T U s' rt rs.
Proof.
  intros [L1 L2 L3 L4 L5 L6 L7 L8 L9 L10 L11] Hf Hc Hni.
  pose proof (frame_fields _ _ _ Hf) as (E1&_&E3&E4&E5&E6&E7&_). pose proof (frame_env _ _ _ Hf) as He.
  split; rewrite ?E3, ?E4, ?E5, ?E6, ?E7; try done.
  - by eapply env_config.
  - intros x Hx. eapply env_is_Some; [done|]. by apply L3.
  - by eapply env_distinct.
  - eapply queue_sorted_same; [by apply env_times|done].
  - eapply queue_sorted_same; [by apply env_times|done].
  - eapply jobs_ok_frame; [exact Hf| |done]. intros k Hk <-. rewrite Forall_forall in L9. by apply Hni, L9.
Qed.

(** The request at the front of the queue does not run. *)
Lemma loop_head T U s rt rs rid q : loop_ok T U s rt rs → priority_queue_ s = rid :: q →
  (rid ∉ running_requests_ s) ∧ (rid ∉ q) ∧ is_Some (requests s !! rid).
Proof.
  intros HL Hpq. pose proof (queue_sorted_nodup _ _ (lo_sorted _ _ _ _ _ HL)) as Hnd. rewrite Hpq in Hnd.
  apply NoDup_app in Hnd as (_&Hd&Hnd). apply NoDup_cons in Hnd as [? _]. split_and!; [|done|].
  - intros Hin. apply (Hd rid Hin). by left.
  - apply (lo_dom _ _ _ _ _ HL). rewrite Hpq. set_solver.
Qed.

(** Neither does any other request of the queue. *)
Lemma loop_waiting T U s rt rs x : loop_ok T U s rt rs → x ∈ priority_queue_ s →
  (x ∉ running_requests_ s) ∧ is_Some (requests s !! x).
Proof.
  intros HL Hx. pose proof (queue_sorted_nodup _ _ (lo_sorted _ _ _ _ _ HL)) as Hnd.
  apply NoDup_app in Hnd as (_&Hd&_). split; [intros Hin; by apply (Hd x)|].
  apply (lo_dom _ _ _ _ _ HL). set_solver.
Qed.

(** The candidates of the first request become part of the batch. *)
Definition taken (rid : positive) (c : Candidates) (pre : list positive) s : Sched St :=
  set_preemptable pre (set_running_budgets (running_sequences_budgets_ s ++ cand_budgets c)
    (set_running_sequences (running_sequences_ s ++ cand_sequences c)
      (set_running_requests (running_requests_ s ++ [rid]) (set_priority_queue (tail (priority_queue_ s)) s)))).

Lemma take_candidates_wp rid c s (Q : unit → Sched St → Prop) :
  Q tt (taken rid c (preemptable_requests_ s) s) → wp (take_candidates rid c) s Q.
Proof. intros HQ. unfold take_candidates, pq_pop. wp_steps. by destruct s. Qed.

(** Removing the request from the front of the preemptable requests. *)
Definition drop_front (rid : positive) (pre : list positive) : list positive :=
  match pre with x :: l => if decide (x = rid) then l else pre | [] => [] end.

Lemma drop_front_state rid c s :
  (match preemptable_requests_ (taken rid c (preemptable_requests_ s) s) with
   | x :: l => if decide (x = rid) then set_preemptable l (taken rid c (preemptable_requests_ s) s)
               else taken rid c (preemptable_requests_ s) s
   | [] => taken rid c (preemptable_requests_ s) s
   end) = taken rid c (drop_front rid (preemptable_requests_ s)) s.
Proof.
  cbn. unfold drop_front. destruct (preemptable_requests_ s) as [|x l] eqn:E; [done|]. by case_decide.
Qed.

(** Nothing but the front is lost, and the request itself is gone. *)
Lemma drop_front_ok h rid pq pre : queue_sorted h (rid :: pq) → queue_sorted h pre → pre ⊆ rid :: pq →
  queue_sorted h (drop_front rid pre) ∧ drop_front rid pre ⊆ pq ∧ length (drop_front rid pre) ≤ length pre.
Proof.
  intros Hq Hp Hsub. assert (rid ∉ pq) as Hni.
  { apply queue_sorted_nodup in Hq. by apply NoDup_cons in Hq as [? _]. }
  destruct pre as [|x l]; [split_and!; [constructor|set_solver|done]|]. simpl. case_decide as Hx.
  - subst x. apply StronglySorted_cons in Hp as [Hx Hp]. split_and!; [done| |lia].
    intros y Hy. assert (y ∈ rid :: pq) as Hy' by (apply Hsub; by right).
    apply elem_of_cons in Hy' as [->|]; [|done]. rewrite Forall_forall in Hx. by destruct (before_irrefl h rid); auto.
  - split_and!; [done| |simpl; lia]. intros y Hy. pose proof (Hsub y Hy) as Hy'.
    apply elem_of_cons in Hy' as [->|]; [|done]. exfalso.
    destruct (queue_sorted_head _ _ _ _ Hq Hp Hsub Hy) as (p'&?). simplify_eq.
Qed.

Lemma loop_ok_take T U s rt rs rid q c pre : loop_ok T U s rt rs → priority_queue_ s = rid :: q →
  cands_ok s rid rt rs c → queue_sorted (requests s) pre → pre ⊆ q →
  loop_ok T U (taken rid c pre s) (rt - allocated_tokens c) (rs - allocated_seqs c).
Proof.
  intros HL Hpq [D1 D2 D3 D4] Hpre Hsub. destruct (loop_head _ _ _ _ _ _ _ HL Hpq) as (Hnr&Hnq&_).
  destruct HL as [L1 L2 L3 L4 L5 L6 L7 L8 L9 L10 L11]. unfold taken. rewrite Hpq in *.
  split; cbn; try done.
  - by destruct L1.
  - by destruct L2.
  - intros x Hx. apply L3. rewrite <- app_assoc in Hx. done.
  - by rewrite <- app_assoc.
  - eapply (jobs_ok_state s); [done|done|]. apply jobs_ok_app; [done|done|].
    intros k Hk Hk'. rewrite Forall_forall in L9, D2. apply Hnr. rewrite <- (D2 k Hk'). by apply L9.
  - apply Forall_app. split.
    + eapply Forall_impl; [exact L9|]. intros k. set_solver.
    + eapply Forall_impl; [exact D2|]. intros k ->. set_solver.
  - rewrite sum_list_with_app. unfold allocated_tokens in *. lia.
  - rewrite length_app. unfold allocated_seqs in *. lia.
Qed.

Lemma loop_ok_preempt T U s rt rs pre : loop_ok T U s rt rs → queue_sorted (requests s) pre →
  pre ⊆ priority_queue_ s → loop_ok T U (set_preemptable pre s) rt rs.
Proof.
  intros [L1 L2 L3 L4 L5 L6 L7 L8 L9 L10 L11] Hpre Hsub. split; cbn; try done.
  - by destruct L1.
  - by destruct L2.
  - by eapply (jobs_ok_state s).
Qed.

(** How the loop ends: the batch respects the budgets, and if it is empty then
    nothing is left to schedule or to preempt. *)
Record loop_post (T U : nat) s s' (rt : nat) : Prop := {
  lp_loop : ∃ rs, loop_ok T U s' rt rs;
  lp_env : env_same s s';
  lp_perm : running_requests_ s' ++ priority_queue_ s' ≡ₚ running_requests_ s ++ priority_queue_ s;
  lp_other : ∀ x, x ∉ running_requests_ s ++ priority_queue_ s → requests s' !! x = requests s !! x;
  lp_stuck : running_sequences_ s' = [] → priority_queue_ s' = [] ∨ preemptable_requests_ s' = [];
}.

Lemma loop_post_env T U s s1 s' rt : env_same s s1 →
  running_requests_ s1 ++ priority_queue_ s1 ≡ₚ running_requests_ s ++ priority_queue_ s →
  (∀ x, x ∉ running_requests_ s ++ priority_queue_ s → requests s1 !! x = requests s !! x) →
  loop_post T U s1 s' rt → loop_post T U s s' rt.
Proof.
  intros He Hp Ho [? ? Hp' Ho' ?]. split; [done|by etrans|by rewrite Hp', Hp| |done].
  intros x Hx. rewrite Ho'; [by apply Ho|]. by rewrite Hp.
Qed.

Lemma taken_env rid c pre s : env_same s (taken rid c pre s).
Proof. split; try done. intros i r Hr. by exists r. Qed.

Lemma taken_perm rid c pre s pq : priority_queue_ s = rid :: pq →
  running_requests_ (taken rid c pre s) ++ priority_queue_ (taken rid c pre s) ≡ₚ
  running_requests_ s ++ priority_queue_ s.
Proof. intros Hpq. cbn. by rewrite Hpq, <- app_assoc. Qed.

Lemma preempt_env pre s : env_same s (set_preemptable pre s).
Proof. split; try done. intros i r Hr. by exists r. Qed.

Lemma last_removelast {A} (l : list A) x : last l = Some x → l = removelast l ++ [x].
Proof. intros (l'&->)%last_Some. by rewrite removelast_last. Qed.

Lemma schedule_loop_wp T U avg fuel : ∀ s rt rs,
  loop_ok T U s rt rs → 0 < avg → 0 < T → 0 < U →
  length (priority_queue_ s) + length (preemptable_requests_ s) < fuel →
  wp (schedule_loop fuel avg rt rs) s (λ rt' s', loop_post T U s s' rt').
Proof.
  induction fuel as [|fuel IH]; intros s rt rs HL Havg HT HU Hfuel; [lia|]. simpl. wp_steps.
  rewrite (cf_spec _ _ (lo_config _ _ _ _ _ HL)).
  destruct (priority_queue_ s) as [|rid pq] eqn:Hpq.
  { apply wp_ret. split; [by exists rs|done|done|done|by left]. }
  case_decide as Hgo.
  2:{ apply wp_ret. split; [by exists rs|done|by rewrite Hpq|done|]. intros Hn. exfalso.
      destruct HL as [_ _ _ _ _ _ _ [Hj _] _ HT' HU']. rewrite Hn in *.
      apply Forall2_nil_inv_l in Hj as Hb. rewrite Hb in HT'. simpl in *. lia. }
  destruct (loop_head _ _ _ _ _ _ _ HL Hpq) as (Hnr&Hnq&[r Hr]).
  wp_steps. eapply on_request_get_wp; [exact Hr|]. wp_steps.
  eapply wp_mono.
  { apply (candidates_wp rid avg rt rs _ s r (mkCandidates [] [] true)); try done.
    - apply HL.
    - apply HL.
    - apply Forall_forall. intros i Hi. apply elem_of_seq in Hi. lia.
    - apply NoDup_seq.
    - intros i _. apply not_elem_of_nil.
    - split; [apply jobs_ok_nil|constructor|unfold allocated_tokens; simpl; lia|unfold allocated_seqs; simpl; lia]. }
  intros c s1 (C1&F1&Hcd). pose proof (loop_ok_frame _ _ _ _ _ _ _ HL F1 C1 Hnr) as HL1.
  pose proof (frame_fields _ _ _ F1) as (_&_&E3&E4&_&_&E7&_). pose proof (frame_env _ _ _ F1) as He1.
  assert (running_requests_ s1 ++ priority_queue_ s1 ≡ₚ running_requests_ s ++ priority_queue_ s) as Hp1
    by (by rewrite E3, E4).
  assert (∀ x, x ∉ running_requests_ s ++ priority_queue_ s → requests s1 !! x = requests s !! x) as Ho1.
  { intros x Hx. eapply frame_other; [exact F1|]. intros j Hj. cbn in Hj. subst x. apply Hx. rewrite Hpq. set_solver. }
  rewrite Hpq in E3.
  wp_steps; [apply bool_decide_eq_true_2, Hcd|apply bool_decide_eq_true_2, Hcd|].
  pose proof (lo_preempt _ _ _ _ _ HL1) as Hpre. pose proof (lo_waiting _ _ _ _ _ HL1) as Hsub.
  pose proof (lo_sorted _ _ _ _ _ HL1) as Hsort. rewrite E3 in Hsub, Hsort.
  apply StronglySorted_app in Hsort as (_&_&Hsort).
  destruct (cand_enough c).
  - (* scheduled *)
    wp_steps. apply take_candidates_wp. wp_steps. rewrite drop_front_state.
    destruct (drop_front_ok _ _ _ _ Hsort Hpre Hsub) as (P1&P2&P3).
    eapply wp_mono; [apply IH; [by eapply loop_ok_take|done..|]|].
    + cbn. rewrite E3. cbn [tail]. cbn [length] in Hfuel. rewrite E7 in *. lia.
    + intros rt' s'. apply loop_post_env; [etrans; [exact He1|apply taken_env]|..].
      * by rewrite (taken_perm _ _ _ _ pq).
      * exact Ho1.
  - wp_steps. destruct (last (preemptable_requests_ s1)) as [victim|] eqn:Hlast.
    + (* preempt and retry *)
      wp_steps. pose proof (last_removelast _ _ Hlast) as Heq. set (pre' := removelast _) in *.
      assert (pre' ⊆ priority_queue_ s1) as Hsub'.
      { rewrite E3. etrans; [|exact Hsub]. rewrite Heq. set_solver. }
      assert (loop_ok T U (set_preemptable pre' s1) rt rs) as HL2.
      { apply loop_ok_preempt; [done| |done]. by apply queue_sorted_removelast. }
      assert (victim ∈ priority_queue_ s1) as Hv by (rewrite E3; apply Hsub; rewrite Heq; set_solver).
      assert (length (preemptable_requests_ s1) = S (length pre')) as Hlen
        by (rewrite Heq, length_app; simpl; lia).
      destruct (loop_waiting _ _ _ _ _ _ HL2 Hv) as [Hvr [vr Hvr']].
      eapply (wp_mono _ _ (λ _ s2, loop_ok T U s2 rt rs ∧ env_same (set_preemptable pre' s1) s2 ∧
        running_requests_ s2 = running_requests_ s1 ∧ priority_queue_ s2 = priority_queue_ s1 ∧
        preemptable_requests_ s2 = pre' ∧
        ∀ x, x ∉ running_requests_ s1 ++ priority_queue_ s1 → requests s2 !! x = requests s1 !! x)).
      { case_decide; [|by apply wp_ret]. eapply wp_mono; [eapply release_request_wp; [apply HL2|exact Hvr']|].
        intros _ s2 (C2&F2&_). pose proof (frame_fields _ _ _ F2) as (_&_&G3&G4&_&_&G7&_).
        split_and!; [by eapply loop_ok_frame|by eapply frame_env|done..|].
        intros x Hx. apply (frame_other _ _ _ x F2). intros j Hj. cbn in Hj. subst x. apply Hx. set_solver. }
      intros _ s2 (HL3&He3&G4&G3&G7&Ho2).
      eapply wp_mono; [apply IH; [exact HL3|done..|]|].
      * rewrite G3, G7, E3. rewrite E7 in Hlen. lia.
      * intros rt' s'. apply loop_post_env; [|by rewrite G3, G4|].
        -- etrans; [exact He1|]. etrans; [|exact He3]. apply preempt_env.
        -- intros x Hx. rewrite Ho2; [by apply Ho1|]. by rewrite Hp1.
    + (* partially schedule the request *)
      apply last_None in Hlast. case_decide as Hc.
      * wp_steps. apply take_candidates_wp. wp_steps. eapply loop_post_env; [exact He1|done|done|].
        split.
        -- eexists. eapply loop_ok_take; [done|done|done|done|]. rewrite Hlast. set_solver.
        -- apply taken_env.
        -- by eapply taken_perm.
        -- done.
        -- intros _. by right.
      * wp_steps. eapply loop_post_env; [exact He1|done|done|]. split; [by eexists|done|done|done|]. intros _. by right.
Qed.

(** ** Adjusting the budgets *)

Lemma sum_list_insert (l : list nat) i x y : l !! i = Some x →
  sum_list (<[i:=y]> l) + x = sum_list l + y.
Proof.
  revert i. induction l as [|z l IH]; intros [|i] Hi; simplify_eq/=; [lia|]. specialize (IH i Hi). lia.
Qed.

Lemma jobs_ok_touch s s' ks ns i k n : jobs_ok s ks ns → ks !! i = Some k →
  frame (λ k', k' = k) s s' → job_ok s' k n → jobs_ok s' ks (<[i:=n]> ns).
Proof.
  intros [Hj Hnd] Hi Hf Hk. split; [|done]. pose proof (Forall2_length _ _ _ Hj) as Hlen.
  apply Forall2_same_length_lookup_2; [by rewrite length_insert|]. intros j k' n' Hk' Hn'.
  destruct (decide (i = j)) as [<-|Hne].
  - rewrite list_lookup_insert_eq in Hn' by (apply lookup_lt_Some in Hi; lia). by simplify_eq.
  - rewrite list_lookup_insert_ne in Hn' by done. eapply job_ok_frame; [exact Hf| |by eapply Forall2_lookup_lr].
    intros ->. apply Hne. by eapply NoDup_lookup.
Qed.

Lemma loop_ok_adjust T U s s' rt rt' rs i k b n q : loop_ok T U s rt rs → touched cap k q s s' →
  running_sequences_ s !! i = Some k → running_sequences_budgets_ s !! i = Some b → job_ok s' k n →
  rt' + n = rt + b →
  loop_ok T U (set_running_budgets (<[i:=n]> (running_sequences_budgets_ s')) s') rt' rs.
Proof.
  intros [L1 L2 L3 L4 L5 L6 L7 L8 L9 L10 L11] [C' F' _] Hk Hb Hj Hrt.
  pose proof (frame_fields _ _ _ F') as (E1&_&E3&E4&E5&E6&E7&_). pose proof (frame_env _ _ _ F') as He.
  pose proof (env_times _ _ He) as Ht.
  split; cbn; rewrite ?E3, ?E4, ?E5, ?E6, ?E7; try done.
  - by destruct C'.
  - apply (env_config _ _ He) in L2. by destruct L2.
  - intros x Hx. eapply env_is_Some; [done|]. by apply L3.
  - by eapply env_distinct.
  - by eapply queue_sorted_same.
  - by eapply queue_sorted_same.
  - eapply (jobs_ok_state s'); [done|done|]. eapply jobs_ok_touch; [exact L8|exact Hk|done|done].
  - pose proof (sum_list_insert _ _ _ n Hb). lia.
Qed.

(** What adjusting keeps. *)
Record adjusted s s' : Prop := {
  aj_env : env_same s s';
  aj_running : running_requests_ s' = running_requests_ s;
  aj_queue : priority_queue_ s' = priority_queue_ s;
  aj_preempt : preemptable_requests_ s' = preemptable_requests_ s;
  aj_seqs : running_sequences_ s' = running_sequences_ s;
  aj_other : ∀ x, x ∉ running_requests_ s → requests s' !! x = requests s !! x;
}.

Lemma adjusted_trans s1 s2 s3 : adjusted s1 s2 → adjusted s2 s3 → adjusted s1 s3.
Proof.
  intros [A1 A2 A3 A4 A5 A6] [B1 B2 B3 B4 B5 B6]. split; [by etrans|congruence..|].
  intros x Hx. rewrite B6; [by apply A6|by rewrite A2].
Qed.

Lemma touched_adjusted k q s s' l : touched cap k q s s' → k.1 ∈ running_requests_ s →
  adjusted s (set_running_budgets l s').
Proof.
  intros [_ F _] Hr. pose proof (frame_fields _ _ _ F) as (E1&E2&E3&E4&E5&E6&E7&E8&E9&E10).
  split; cbn; try done.
  - destruct (frame_env _ _ _ F). by split.
  - intros x Hx. eapply frame_other; [exact F|]. by intros j <-.
Qed.

Lemma set_budgets_id s : set_running_budgets (running_sequences_budgets_ s) s = s.
Proof. by destruct s. Qed.

Lemma adjust_loop_wp T U n : ∀ s rt rs i, loop_ok T U s rt rs → i + n = length (running_sequences_ s) →
  wp (adjust_loop rt (seq i n)) s (λ _ s', adjusted s s' ∧ ∃ rt', loop_ok T U s' rt' rs).
Proof.
  induction n as [|n IH]; intros s rt rs i HL Hi; simpl.
  { apply wp_ret. split; [by split|by eexists]. }
  destruct (lookup_lt_is_Some_2 (running_sequences_ s) i) as [k Hk]; [lia|].
  pose proof (lo_jobs _ _ _ _ _ HL) as Hj. pose proof (jobs_ok_length _ _ _ Hj) as Hlen.
  destruct (lookup_lt_is_Some_2 (running_sequences_budgets_ s) i) as [b Hb]; [lia|].
  destruct (Forall2_lookup_lr _ _ _ _ _ _ (jo_jobs _ _ _ Hj) Hk Hb) as (q&Hq&Hb0&Hnt&Hcov&Hinv&Hfin).
  assert (k.1 ∈ running_requests_ s) as Hrun.
  { pose proof (lo_rids _ _ _ _ _ HL) as Hr. by apply (Forall_lookup_1 _ _ _ _ Hr Hk). }
  unfold at_. wp_steps; [exact Hk|exact Hb|].
  eapply wp_mono; [apply (allocate_for_wp cap k q s); [apply HL|apply HL|done|lia]|].
  intros [ok m] s1 (q1&Htc&Hal). cbn [fst snd] in *. pose proof Htc as [C1 F1 L1].
  assert (blocks_ q ≠ []) as Hne by (intros Hn; rewrite Hn in Hcov; simpl in Hcov; lia).
  destruct Hal as [Heq Hkept Htok [Hm1 Hm2] Hbl]. destruct (Hkept Hne) as [Hkv Hlb].
  assert (num_tokens_ q1 = num_tokens_ q ∧ num_kv_cache_tokens q1 = num_kv_cache_tokens q ∧
    finish_status_invalidated_ q1 = false ∧ is_finished_ q1 = false) as (E1&E2&E3&E4).
  { rewrite Heq. unfold num_kv_cache_tokens. cbn. by rewrite Hkv. }
  pose proof (fr_size _ _ _ F1) as Hsz.
  pose proof (frame_fields _ _ _ F1) as (_&_&_&_&_&G6&_).
  destruct ok; simpl.
  - assert (job_ok s1 k m) as Hjob.
    { exists q1. rewrite E1, E2, E3, E4, Hsz. rewrite E2 in *. split_and!; try done; [lia|auto]. }
    wp_steps; [apply bool_decide_eq_true_2; lia|].
    assert (loop_ok T U (set_running_budgets (<[i:=m]> (running_sequences_budgets_ s1)) s1) (rt + b - m) rs) as HL1.
    { eapply (loop_ok_adjust T U s s1 rt); try done. lia. }
    pose proof (touched_adjusted _ _ _ _ (<[i:=m]> (running_sequences_budgets_ s1)) Htc Hrun) as Ha.
    case_decide; [apply wp_ret; split; [done|by eexists]|].
    eapply wp_mono; [apply (IH _ _ rs (S i) HL1)|].
    + rewrite (aj_seqs _ _ Ha). lia.
    + intros _ s' [Ha' HL']. split; [by eapply adjusted_trans|done].
  - apply wp_ret. assert (job_ok s1 k b) as Hjob.
    { exists q1. rewrite E1, E2, E3, E4, Hsz. split_and!; try done. nia. }
    pose proof (loop_ok_adjust T U s s1 rt rt rs i k b b q1 HL Htc Hk Hb Hjob eq_refl) as HL1.
    pose proof (touched_adjusted _ _ _ _ (<[i:=b]> (running_sequences_budgets_ s1)) Htc Hrun) as Ha.
    rewrite G6, list_insert_id, <- G6, set_budgets_id in HL1, Ha by done.
    split; [done|by eexists].
Qed.
End loop.
