(* ===== verification/SchedulerBuild.v ===== *)
(** * The scheduler: one call of build_sequence_batch

    The invariant of the scheduler between steps, that moving requests between
    the queues keeps it, and the theorem that [build_sequence_batch] does not
    fail, keeps it, and returns a batch that the engine can run. *)

From stdpp Require Import base tactics list gmap strings sorting.
From S2P Require Import Prelude Slice Block Types Stopping Decoder Sequence SequenceInv Request.
From S2P Require Import Sampling Batch BatchInv BlockStore ResponseHandler RequestInv Scheduler.
From S2P Require Import SchedulerInv SchedulerLoop.

(** The requests whose final response is still to be sent. *)
Definition finishing (ts : list Task) : list positive :=
  omap (λ t, match t with Finish rid => Some rid | Stream _ _ _ => None end) ts.

Lemma finishing_push ts t : finishing (ts ++ [t]) =
  finishing ts ++ match t with Finish rid => [rid] | Stream _ _ _ => [] end.
Proof. unfold finishing. rewrite omap_app. by destruct t. Qed.

Section build.
Context {St : Type} {BS : BlockStore St} {BL : BlockStoreLaws St} (cap : Limits).
Implicit Types s : Sched St.

(** ** The invariant *)

(** New requests [rq] are not queued yet, the requests [pend] ran in the last
    step; every request is in one place; the queues are sorted; the requests that
    may be preempted wait in the priority queue, below those that ran; and a
    request that is being answered holds no blocks.  No request is anywhere else,
    but for those that are [lost] for the moment. *)
Record waiting_but (lost : list positive) s (rq pend : list positive) : Prop := {
  wo_core : core_ok cap s;
  wo_config : config_ok cap s;
  wo_times : distinct_times (requests s);
  wo_dom : ∀ x, x ∈ rq ++ pend ++ priority_queue_ s → is_Some (requests s !! x);
  wo_nodup : NoDup (rq ++ pend ++ priority_queue_ s ++ finishing (tasks (responses s)));
  wo_queue : queue_sorted (requests s) (priority_queue_ s);
  wo_pend : queue_sorted (requests s) pend;
  wo_preempt : queue_sorted (requests s) (preemptable_requests_ s);
  wo_waiting : preemptable_requests_ s ⊆ priority_queue_ s;
  wo_above : ∀ a b, a ∈ pend → b ∈ preemptable_requests_ s → before (requests s) a b;
  wo_finished : ∀ x, x ∈ finishing (tasks (responses s)) →
    ∃ r, requests s !! x = Some r ∧ req_blocks r = [];
  wo_all : ∀ x, is_Some (requests s !! x) →
    x ∈ rq ++ pend ++ priority_queue_ s ++ finishing (tasks (responses s)) ++ lost;
}.
Abbreviation waiting_ok := (waiting_but []).

Definition sched_ok s : Prop := waiting_ok s (request_queue_ s) (running_requests_ s).

(** Touching requests that are not being answered. *)
Lemma waiting_ok_frame' D lost s s' rq pend : waiting_but lost s rq pend → frame D s s' → core_ok cap s' →
  (∀ k, D k → k.1 ∉ finishing (tasks (responses s))) → waiting_but lost s' rq pend.
Proof.
  intros [W1 W2 W3 W4 W5 W6 W7 W8 W9 W10 W11 W12] Hf Hc Hni.
  pose proof (frame_fields _ _ _ Hf) as (_&_&E3&_&_&_&E7&_&E9&_). pose proof (frame_env _ _ _ Hf) as He.
  pose proof (env_times _ _ He) as Ht.
  split; rewrite ?E3, ?E7, ?E9; try done.
  - by eapply env_config.
  - by eapply env_distinct.
  - intros x Hx. eapply env_is_Some; [done|]. by apply W4.
  - by eapply queue_sorted_same.
  - by eapply queue_sorted_same.
  - by eapply queue_sorted_same.
  - intros a b Ha Hb. eapply before_same; [done|]. by apply W10.
  - intros x Hx. destruct (W11 x Hx) as (r&Hr&Hb). exists r. split; [|done].
    rewrite (frame_other _ _ _ x Hf); [done|]. intros j Hj. by apply (Hni _ Hj).
  - intros x Hx. apply W12. destruct (requests s !! x) eqn:Hr; [done|].
    rewrite (fr_dom _ _ _ Hf _ Hr) in Hx. by destruct Hx.
Qed.

Lemma waiting_ok_frame lost s s' rq pend rid : waiting_but lost s rq pend → frame (λ k, k.1 = rid) s s' →
  core_ok cap s' → rid ∉ finishing (tasks (responses s)) → waiting_but lost s' rq pend.
Proof. intros HW Hf Hc Hn. eapply waiting_ok_frame'; [done..|]. by intros k ->. Qed.

(** Everything that moving a request leaves alone. *)
Record lists_same s s' : Prop := {
  ls_options : sch_options_ s' = sch_options_ s;
  ls_queue : request_queue_ s' = request_queue_ s;
  ls_running : running_requests_ s' = running_requests_ s;
  ls_seqs : running_sequences_ s' = running_sequences_ s;
  ls_budgets : running_sequences_budgets_ s' = running_sequences_budgets_ s;
  ls_pending : pending_requests_ s' = pending_requests_ s;
}.

#[export] Instance lists_same_preorder : PreOrder lists_same.
Proof. split; [by intros s; split|]. intros s1 s2 s3 [] []. split; congruence. Qed.

Lemma frame_lists D s s' : frame D s s' → lists_same s s'.
Proof. intros Hf. pose proof (frame_fields _ _ _ Hf) as (?&?&?&?&?&?&?&?&?&?). by split. Qed.

(** ** New requests *)

Lemma waiting_push_new s rid rq pend : waiting_ok s (rid :: rq) pend →
  waiting_ok (set_priority_queue (pq_insert (requests s) rid (priority_queue_ s)) s) rq pend.
Proof.
  intros [W1 W2 W3 W4 W5 W6 W7 W8 W9 W10 W11 W12].
  pose proof (pq_insert_perm (requests s) rid (priority_queue_ s)) as Hp.
  split; cbn; try done.
  - by destruct W1.
  - by destruct W2.
  - intros x. rewrite Hp. intros Hx. apply W4. set_solver.
  - rewrite Hp. eapply NoDup_Permutation_proper; [|exact W5]. solve_Permutation.
  - apply pq_insert_sorted; [done|apply W4; set_solver| |intros x Hx; apply W4; set_solver|done].
    apply NoDup_cons in W5 as [Hni _]. set_solver.
  - rewrite Hp. set_solver.
  - intros x Hx. rewrite Hp. specialize (W12 x Hx). set_solver.
Qed.

Lemma admit_wp rid s rq pend : waiting_ok s (rid :: rq) pend →
  wp (admit_request rid) s (λ _ s', waiting_ok s' rq pend ∧ lists_same s s').
Proof.
  intros HW. unfold admit_request. wp_steps.
  assert (rid ∉ finishing (tasks (responses s))) as Hnf.
  { pose proof (wo_nodup _ _ _ _ HW) as Hnd. apply NoDup_cons in Hnd as [Hni _]. set_solver. }
  destruct (wo_dom _ _ _ _ HW rid) as [r Hr]; [set_solver|].
  eapply (wp_mono _ _ (λ _ s', core_ok cap s' ∧ frame (λ k, k.1 = rid) s s')).
  { destruct (enable_prefix_cache_ s); simpl; [apply wp_ret; split; [apply HW|done]|].
    eapply wp_mono; [eapply (on_request_step cap rid _ s r (λ _ _, True)); [apply HW|done|]|].
    - eapply wp_mono; [apply expand_sequences_wp, (co_reqs _ _ (wo_core _ _ _ _ HW) _ _ Hr)|]. by intros _ r' (?&_).
    - intros _ s' (r'&?&?&_). done. }
  intros _ s1 [C1 F1]. unfold pq_push. wp_steps.
  pose proof (waiting_ok_frame _ _ _ _ _ _ HW F1 C1 Hnf) as HW1.
  pose proof (frame_lists _ _ _ F1) as []. split; [by apply waiting_push_new|by split].
Qed.

Lemma drain_queue_wp s : sched_ok s →
  wp drain_queue s (λ _ s', waiting_ok s' [] (running_requests_ s') ∧
    request_queue_ s' = [] ∧ sch_options_ s' = sch_options_ s).
Proof.
  intros HW. unfold drain_queue. wp_steps.
  eapply (wp_for_each (λ dn s', ∃ rq, request_queue_ s = dn ++ rq ∧
    waiting_ok s' rq (running_requests_ s) ∧ lists_same s s')).
  - by exists (request_queue_ s).
  - intros dn x todo s1 Heq (rq&Heq'&HW1&Hl1). rewrite Heq in Heq'. apply app_inv_head in Heq'. subst rq.
    eapply wp_mono; [by apply admit_wp|]. intros _ s2 [HW2 Hl2]. exists todo.
    split_and!; [by rewrite Heq, <- app_assoc|done|by etrans].
  - intros s1 (rq&Heq&HW1&[Ho _ Hrun _ _ _]). wp_steps. assert (rq = []) as ->.
    { apply (f_equal length) in Heq. rewrite length_app in Heq. by destruct rq; [|simpl in Heq; lia]. }
    cbn. rewrite Hrun. split_and!; [|done|done].
    destruct HW1 as [W1 W2 W3 W4 W5 W6 W7 W8 W9 W10 W11 W12]. split; cbn; try done.
    + by destruct W1.
    + by destruct W2.
Qed.

(** ** Finishing a request *)

(** [rid] is nowhere any more. *)
Definition gone s (rq pend : list positive) (rid : positive) : Prop :=
  (rid ∉ rq ++ pend ++ priority_queue_ s ++ finishing (tasks (responses s))) ∧ is_Some (requests s !! rid).

Lemma waiting_drop_pend s rq p rid : waiting_ok s rq (p ++ [rid]) →
  waiting_but [rid] s rq p ∧ gone s rq p rid ∧
  (∀ b, b ∈ preemptable_requests_ s → before (requests s) rid b) ∧
  (∀ a, a ∈ p → before (requests s) a rid).
Proof.
  intros [W1 W2 W3 W4 W5 W6 W7 W8 W9 W10 W11 W12].
  assert (NoDup (rid :: rq ++ p ++ priority_queue_ s ++ finishing (tasks (responses s)))) as Hnd.
  { eapply NoDup_Permutation_proper; [|exact W5]. solve_Permutation. }
  apply NoDup_cons in Hnd as [Hni Hnd].
  apply StronglySorted_app in W7 as (Hab&W7&_).
  split_and!.
  - split; try done; [intros x Hx; apply W4; set_solver|intros a b Ha; apply W10; set_solver|].
    intros x Hx. specialize (W12 x Hx). set_solver.
  - split; [done|]. apply W4. set_solver.
  - intros b Hb. apply W10; [set_solver|done].
  - intros a Ha. apply Hab; [done|by left].
Qed.

Lemma waiting_finish s rq pend rid r : waiting_but [rid] s rq pend → gone s rq pend rid →
  requests s !! rid = Some r → req_blocks r = [] →
  waiting_ok (set_responses (push_task (Finish rid) (responses s)) s) rq pend.
Proof.
  intros [W1 W2 W3 W4 W5 W6 W7 W8 W9 W10 W11 W12] [Hni Hs] Hr Hb.
  split; cbn; try done; rewrite ?finishing_push.
  - by destruct W1.
  - by destruct W2.
  - assert (rq ++ pend ++ priority_queue_ s ++ finishing (tasks (responses s)) ++ [rid] ≡ₚ
      rid :: rq ++ pend ++ priority_queue_ s ++ finishing (tasks (responses s))) as -> by solve_Permutation.
    by constructor.
  - intros x [Hx| ->%list_elem_of_singleton]%elem_of_app; [by apply W11|by exists r].
  - intros x Hx. rewrite app_nil_r. apply (W12 x Hx).
Qed.

Lemma finish_request_wp s rq pend rid : waiting_but [rid] s rq pend → gone s rq pend rid →
  wp (finish_request rid) s (λ _ s', waiting_ok s' rq pend ∧ lists_same s s').
Proof.
  intros HW [Hni [r Hr]]. unfold finish_request. wp_steps.
  eapply wp_mono; [eapply release_request_wp; [apply HW|exact Hr]|]. intros _ s1 (C1&F1&r1&Hr1&Hb1).
  pose proof (frame_fields _ _ _ F1) as (_&_&E3&_&_&_&_&_&E9&_).
  assert (waiting_but [rid] s1 rq pend) as HW1 by (eapply waiting_ok_frame; [done|done|done|set_solver]).
  unfold on_responses, on_request_finish, on_snd. wp_steps. cbn.
  assert (set_requests (requests s1) s1 = s1) as -> by (by destruct s1). split.
  - eapply waiting_finish; [done|split; [by rewrite E3, E9|by eexists]|done|done].
  - etrans; [by eapply frame_lists|]. by split.
Qed.

(** ** Putting a running request back *)

Lemma waiting_push_run s rq p rid : waiting_ok s rq (p ++ [rid]) →
  let s1 := set_preemptable (rid :: preemptable_requests_ s) s in
  waiting_ok (set_priority_queue (pq_insert (requests s1) rid (priority_queue_ s1)) s1) rq p.
Proof.
  intros HW. pose proof (wo_nodup _ _ _ _ HW) as Hnd0.
  destruct (waiting_drop_pend _ _ _ _ HW) as ([W1 W2 W3 W4 W5 W6 W7 W8 W9 W10 W11 W12]&[Hni Hs]&Hpre&Hab).
  cbn zeta. pose proof (pq_insert_perm (requests s) rid (priority_queue_ s)) as Hp.
  split; cbn; try done.
  - by destruct W1.
  - by destruct W2.
  - intros x. rewrite Hp. intros Hx. destruct (decide (x = rid)) as [->|]; [done|]. apply W4. set_solver.
  - rewrite Hp. eapply NoDup_Permutation_proper; [|apply NoDup_cons; split; [exact Hni|exact W5]].
    solve_Permutation.
  - apply pq_insert_sorted; [done|done|set_solver|intros x Hx; apply W4; set_solver|done].
  - constructor; [done|]. by apply Forall_forall.
  - rewrite Hp. set_solver.
  - intros a b Ha [->|Hb]%elem_of_cons; [by apply Hab|by apply W10].
  - intros x Hx. rewrite Hp. specialize (W12 x Hx). set_solver.
Qed.

Lemma on_cache_wp k q s : core_ok cap s → seq_lookup k (requests s) = Some q →
  wp (on_store k store_cache) s (λ _ s', touched cap k q s s').
Proof.
  intros Hc Hk. destruct (core_split _ _ _ _ Hc Hk) as (F&r&HF&HS&_&[Hs _ _ _]&_).
  eapply on_store_wp; [exact Hk|]. eapply wp_mono; [by apply (store_cache_wp q _ F)|].
  intros _ [q' b'] (->&HS'&Hsz&Htot&_). cbn [fst snd] in *.
  eapply (upd_touched cap k q _ _ s F); try done. by rewrite Hsz.
Qed.

(** Expanding a request whose prompt was processed. *)
Lemma expand_wp rid s r (expand : bool) : core_ok cap s → requests s !! rid = Some r →
  wp (if expand then _ ← on_store (rid, 0) store_cache; on_request rid expand_sequences else mret tt) s
    (λ _ s', core_ok cap s' ∧ frame (λ k, k.1 = rid) s s').
Proof.
  intros Hc Hr. destruct expand; [|by apply wp_ret]. wp_steps.
  pose proof (co_reqs _ _ Hc _ _ Hr) as Hok. pose proof (ro_nonempty _ _ _ Hok) as Hne.
  destruct (sequences r) as [|q qs] eqn:Hq; [done|].
  eapply wp_mono; [apply (on_cache_wp (rid, 0) q); [done|by cbn; rewrite Hr; cbn; rewrite Hq]|].
  intros _ s1 [C1 F1 _].
  assert (frame (λ k, k.1 = rid) s s1) as F1' by (eapply frame_weaken; [|exact F1]; by intros k ->).
  destruct (frame_request _ _ _ _ _ F1 Hr) as (r1&Hr1&_).
  eapply wp_mono; [eapply (on_request_step cap rid _ s1 r1 (λ _ _, True)); [done|done|]|].
  - eapply wp_mono; [apply expand_sequences_wp, (co_reqs _ _ C1 _ _ Hr1)|]. by intros _ r' (?&_).
  - intros _ s2 (r2&C2&F2&_). split; [done|by etrans].
Qed.

Lemma requeue_wp s rq p rid : waiting_ok s rq (p ++ [rid]) →
  wp (requeue rid) s (λ _ s', waiting_ok s' rq p ∧ lists_same s s').
Proof.
  intros HW. destruct (waiting_drop_pend _ _ _ _ HW) as (_&[Hni [r Hr]]&_).
  assert (∀ s', core_ok cap s' → frame (λ k, k.1 = rid) s s' →
    waiting_ok s' rq (p ++ [rid]) ∧ lists_same s s' ∧ ∃ r', requests s' !! rid = Some r') as Hkeep.
  { intros s' Hc' Hf'. split_and!; [|by eapply frame_lists|].
    - eapply waiting_ok_frame; [done|done|done|set_solver].
    - destruct (frame_request _ _ _ _ _ Hf' Hr) as (r'&?&_). by eexists. }
  unfold requeue. wp_steps.
  eapply wp_mono; [eapply (on_request_step cap rid _ s r (λ _ _, True)); [apply HW|done|]|].
  { eapply wp_mono; [apply request_is_finished_wp, (co_reqs _ _ (wo_core _ _ _ _ HW) _ _ Hr)|].
    by intros b r' [? _]. }
  intros fin s1 (r1&C1&F1&Hr1&_). wp_steps. eapply on_request_get_wp; [exact Hr1|].
  destruct (Hkeep s1 C1 F1) as (HW1&Hl1&_).
  destruct (fin || is_cancelled_ r1).
  - destruct (waiting_drop_pend _ _ _ _ HW1) as (HW1'&Hg&_).
    eapply wp_mono; [by apply finish_request_wp|]. intros _ s2 [? ?]. split; [done|by etrans].
  - wp_steps. eapply on_request_wp; [exact Hr1|].
    eapply wp_mono; [eapply should_expand_wp, (co_reqs _ _ C1 _ _ Hr1)|]. intros expand r1' [-> _].
    rewrite insert_id by done. assert (set_requests (requests s1) s1 = s1) as -> by (by destruct s1).
    wp_steps. eapply wp_mono; [by apply (expand_wp rid s1 r1)|]. intros _ s2 [C2 F2].
    assert (frame (λ k, k.1 = rid) s s2) as F2' by (by etrans).
    destruct (Hkeep s2 C2 F2') as (HW2&Hl2&r2&Hr2).
    wp_steps. eapply on_request_get_wp; [exact Hr2|]. wp_steps.
    eapply wp_mono; [apply (for_seqs_wp cap _ (λ _, True) rid s2 r2 C2 Hr2)|].
    { intros i q s3 C3 Hq. by apply (release_if_finished_wp cap (rid, i) q). }
    intros _ s3 (C3&F3&_). assert (frame (λ k, k.1 = rid) s s3) as F3' by (by etrans).
    destruct (Hkeep s3 C3 F3') as (HW3&Hl3&_). unfold pq_push. wp_steps. split.
    + by apply waiting_push_run.
    + etrans; [exact Hl3|]. by split.
Qed.

Lemma requeue_all_wp l : ∀ s rq, waiting_ok s rq l →
  wp (for_each requeue (rev l)) s (λ _ s', waiting_ok s' rq [] ∧ lists_same s s').
Proof.
  induction l as [|x l IH] using rev_ind; intros s rq HW; [by apply wp_ret|].
  rewrite rev_unit. simpl. apply wp_bind. eapply wp_mono; [by apply requeue_wp|].
  intros _ s1 [HW1 Hl1]. eapply wp_mono; [by apply IH|]. intros _ s2 [? ?]. split; [done|by etrans].
Qed.

(** ** The batch *)

(** Adding a job to the batch leaves the heap alone. *)
Lemma fill_batch_wp ks ns : ∀ s b, Forall2 (job_ok s) ks ns → core_ok cap s → config_ok cap s →
  wp (fill_batch b (zip ks ns)) s (λ b' s', s' = s ∧
    b' = mkBatch (sequences_ b ++ ks) (token_budgets_ b ++ ns) (budget_used_ b ++ replicate (length ks) 0)).
Proof.
  intros s b Hj Hc Hcf. revert b. induction Hj as [|k n ks ns (q&Hq&Hn&Hnt&_&Hinv&Hfin) _ IH]; intros b.
  { apply wp_ret. split; [done|]. simpl. rewrite !app_nil_r. by destruct b. }
  cbn [zip fill_batch]. wp_steps.
  assert (add k n (b, requests s) =
    Ok (tt, (mkBatch (sequences_ b ++ [k]) (token_budgets_ b ++ [n]) (budget_used_ b ++ [0]), requests s))) as ->.
  { assert (u32 n = n) as Hu.
    { destruct (core_split _ _ _ _ Hc Hq) as (F&r&_&_&_&[Hs Hcap _ _]&Hok). apply u32_id.
      pose proof (si_capacity _ (sq_inv _ _ Hs)). pose proof (ro_cap _ _ _ Hok). pose proof (cf_alloc _ _ Hcf). lia. }
    unfold add, on_snd, on_fst, zoom, mbind, M_bind, with_seq, get, from_option_or, mbind, M_bind. cbn [fst snd].
    rewrite Hq. unfold is_finished, get, mbind, M_bind. cbn. rewrite Hinv. cbn. rewrite Hfin.
    pose proof (seq_update_same _ _ _ Hq) as Hsame. cbn in Hsame. rewrite Hsame.
    cbn. rewrite Hu. rewrite bool_decide_eq_true_2 by done. done. }
  wp_steps. assert (set_requests (requests s) s = s) as -> by (by destruct s).
  eapply wp_mono; [apply IH|]. intros b' s' [-> ->]. split; [done|]. cbn. by rewrite <- !app_assoc.
Qed.

(** From the queues to the loop, and back. *)
Definition cleared s : Sched St := set_running_budgets [] (set_running_sequences [] (set_running_requests [] s)).

Lemma loop_start s : waiting_ok s [] [] →
  loop_ok cap (token_budget (sch_options_ s)) (max_seqs (sch_options_ s)) (cleared s)
    (token_budget (sch_options_ s)) (max_seqs (sch_options_ s)).
Proof.
  intros [W1 W2 W3 W4 W5 W6 W7 W8 W9 W10 W11 W12]. split; cbn; try done; try lia.
  - by destruct W1.
  - by destruct W2.
  - apply jobs_ok_nil.
Qed.

Lemma loop_end s s' T U rt rs : waiting_ok s [] [] → loop_ok cap T U s' rt rs → env_same (cleared s) s' →
  running_requests_ s' ++ priority_queue_ s' ≡ₚ priority_queue_ s →
  (∀ x, x ∉ priority_queue_ s → requests s' !! x = requests s !! x) →
  waiting_ok s' [] (running_requests_ s').
Proof.
  intros [W1 W2 W3 W4 W5 W6 W7 W8 W9 W10 W11 W12] [L1 L2 L3 L4 L5 L6 L7 L8 L9 L10 L11] He Hp Ho.
  pose proof (en_responses _ _ He) as Hres. cbn in Hres. cbn in W5. apply NoDup_app in W5 as (N1&N2&N3).
  apply StronglySorted_app in L5 as (Hab&S1&S2).
  split; try done; rewrite ?Hres; cbn.
  - rewrite app_assoc, Hp. by apply NoDup_app.
  - intros a b Ha Hb. apply Hab; [done|]. by apply L7.
  - intros x Hx. destruct (W11 x Hx) as (r&Hr&Hb). exists r. split; [|done]. rewrite Ho; [done|].
    intros Hin. by apply (N2 x).
  - intros x Hx. rewrite app_assoc, Hp. apply (W12 x). destruct (requests s !! x) eqn:Hr; [done|].
    rewrite (en_dom _ _ He x Hr) in Hx. by destruct Hx.
Qed.

Lemma budgets_pos (o : SchedulerOptions) :
  0 < avg_budget o ∧ 0 < token_budget o ∧ 0 < max_seqs o.
Proof.
  assert (0 < max_seqs o) by (unfold max_seqs; lia).
  assert (0 < avg_budget o) by (unfold avg_budget; lia). unfold token_budget. split_and!; [done| |done]. nia.
Qed.

(** Finishing the first request when the batch is empty. *)
Lemma finish_if_stuck_wp s ks ns : waiting_ok s [] (running_requests_ s) →
  running_sequences_ s = ks → running_sequences_budgets_ s = ns → jobs_ok s ks ns →
  (ks = [] → priority_queue_ s = [] ∨ preemptable_requests_ s = []) →
  wp finish_if_stuck s (λ _ s', waiting_ok s' [] (running_requests_ s') ∧ lists_same s s' ∧ jobs_ok s' ks ns).
Proof.
  intros HW Hks Hns Hj Hst. unfold finish_if_stuck. wp_steps. rewrite Hks.
  destruct ks as [|k ks]; [|apply wp_ret; split_and!; try done; by split].
  destruct (priority_queue_ s) as [|rid q] eqn:Hpq; [apply wp_ret; split_and!; try done; by split|].
  destruct (Hst eq_refl) as [|Hpre]; [done|]. unfold pq_pop. wp_steps. rewrite Hpq. cbn [tail].
  destruct HW as [W1 W2 W3 W4 W5 W6 W7 W8 W9 W10 W11 W12]. rewrite Hpq in *.
  assert (NoDup (rid :: running_requests_ s ++ q ++ finishing (tasks (responses s)))) as Hnd.
  { eapply NoDup_Permutation_proper; [|exact W5]. cbn. solve_Permutation. }
  apply NoDup_cons in Hnd as [Hni Hnd]. apply StronglySorted_cons in W6 as [_ W6].
  assert (waiting_but [rid] (set_priority_queue q s) [] (running_requests_ s)) as HW'.
  { split; cbn; try done; [by destruct W1|by destruct W2|intros x Hx; apply W4; set_solver| |].
    - rewrite Hpre. set_solver.
    - intros x Hx. specialize (W12 x Hx). set_solver. }
  eapply wp_mono; [apply (finish_request_wp _ [] (running_requests_ s)); [done|]|].
  - split; [done|]. cbn. apply W4. set_solver.
  - intros _ s' [HW2 Hl]. pose proof Hl as [_ _ Hrun _ _ _]. cbn in Hrun. rewrite Hrun.
    split_and!; [done|by destruct Hl; split|]. destruct Hj as [Hj _]. apply Forall2_nil_inv_l in Hj as ->. apply jobs_ok_nil.
Qed.

(** The whole of [build_sequence_batch]. *)
Record built s (b : Batch (positive * nat)) s' : Prop := {
  bt_sched : sched_ok s';
  bt_queue : request_queue_ s' = [];
  bt_batch : b = mkBatch (running_sequences_ s') (running_sequences_budgets_ s')
    (replicate (length (running_sequences_ s')) 0);
  bt_jobs : jobs_ok s' (running_sequences_ s') (running_sequences_budgets_ s');
  bt_tokens : sum_list (running_sequences_budgets_ s') ≤ token_budget (sch_options_ s);
  bt_seqs : length (running_sequences_ s') ≤ max_seqs (sch_options_ s);
  bt_options : sch_options_ s' = sch_options_ s;
  bt_rids : Forall (λ k, k.1 ∈ running_requests_ s') (running_sequences_ s');
}.

Lemma build_sequence_batch_wp s : sched_ok s → wp build_sequence_batch s (λ b s', built s b s').
Proof.
  intros HW. unfold build_sequence_batch. wp_steps. eapply wp_mono; [by apply drain_queue_wp|].
  intros _ s1 (HW1&Hq1&Ho1). wp_steps. eapply wp_mono; [by apply requeue_all_wp|].
  intros _ s2 [HW2 [Ho2 Hq2 _ _ _ _]]. wp_steps. fold (cleared s2).
  destruct (budgets_pos (sch_options_ s2)) as (Havg&HT&HU).
  eapply wp_mono; [apply (schedule_loop_wp cap _ _ _ _ (cleared s2) _ _ (loop_start s2 HW2)); [done..|cbn; lia]|].
  intros rt s3 [[rs HL3] He3 Hp3 Hot3 Hst3]. cbn in Hp3, Hot3. wp_steps.
  eapply (wp_mono _ _ (λ _ s4, adjusted s3 s4 ∧ ∃ rt', loop_ok cap (token_budget (sch_options_ s2)) (max_seqs (sch_options_ s2)) s4 rt' rs)).
  { case_decide; [by apply adjust_loop_wp|]. apply wp_ret. split; [by split|by eexists]. }
  intros _ s4 [[He4 Hr4 Hq4 Hpre4 Hs4 Hot4] [rt' HL4]]. wp_steps.
  assert (waiting_ok s4 [] (running_requests_ s4)) as HW4.
  { eapply (loop_end s2); [done|exact HL4|by etrans|by rewrite Hr4, Hq4|].
    intros x Hx. rewrite Hot4; [by apply Hot3|]. intros Hin. apply Hx. rewrite <- Hp3. set_solver. }
  eapply wp_mono; [apply (finish_if_stuck_wp s4 _ _ HW4 eq_refl eq_refl (lo_jobs _ _ _ _ _ _ HL4))|].
  { rewrite Hs4, Hq4, Hpre4. apply Hst3. }
  intros _ s5 (HW5&[Ho5 Hq5 Hr5 Hs5 Hb5 _]&Hj5). wp_steps.
  eapply wp_mono; [apply fill_batch_wp; [|apply HW5|apply HW5]|].
  { rewrite Hs5, Hb5. apply Hj5. }
  intros b s6 [-> ->]. pose proof (en_options _ _ He3) as E3. pose proof (en_queue _ _ He3) as Q3.
  pose proof (en_options _ _ He4) as E4. pose proof (en_queue _ _ He4) as Q4. cbn in E3, Q3.
  destruct HL4 as [_ _ _ _ _ _ _ _ Hrid Ht Hu]. rewrite <- Hs5, <- Hb5 in *.
  assert (request_queue_ s5 = []) as Hq by congruence.
  split; cbn; try done.
  - unfold sched_ok. by rewrite Hq.
  - rewrite <- Ho1, <- Ho2. lia.
  - rewrite <- Ho1, <- Ho2. lia.
  - congruence.
  - by rewrite Hr5.
Qed.
End build.
Abbreviation waiting_ok cap := (waiting_but cap []).
