(* ===== verification/Step.v ===== *)
(** * A step of the server: definitions

    [ContinuousScheduler::wait_for_batch], [step] and [run_until_complete] of
    [src/scheduler/continuous_scheduler.cpp]: the scheduler drives the engine.
    The readings of the clock in the waiting loop are an argument; the requests
    that other threads schedule, and the tasks of the response pool, happen
    between the steps. *)

From stdpp Require Import base tactics list gmap strings sorting.
From S2P Require Import Prelude Slice Block Types Stopping Decoder Sequence Request Sampling Batch.
From S2P Require Import Logits Sampler Engine BlockStore ResponseHandler Scheduler SequenceInv.
From S2P Require Import BatchInv EngineInv RequestInv SchedulerInv SchedulerLoop SchedulerBuild.

Section step.
Context {KV Hidden : Type} {md : Model KV Hidden} {th : Torch} {rng : Rng} (prec emax : Z).
Context {St : Type} {BS : BlockStore St}.

(** [engine_->execute_model(batch)]: the batch points into the heap of the
    requests. *)
Definition execute_batch (b : Batch (positive * nat)) : M (LLMEngine KV * Sched St) unit :=
  p ← get;
  match execute_model prec emax (p.1, (b, requests p.2)) with
  | Ok (_, (e, (_, h))) => put (e, set_requests h p.2)
  | Fail err => fail err
  end.

(** [ContinuousScheduler::wait_for_batch]; [times] are the readings of the clock
    after each empty batch. *)
Fixpoint wait_for_batch (deadline : Z) (times : list Z) : M (Sched St) (Batch (positive * nat)) :=
  match times with
  | [] => fail OutOfFuel
  | now :: times' =>
      b ← build_sequence_batch;
      if decide (sequences_ b ≠ []) then mret b
      else if decide (deadline < now)%Z then mret Batch_empty
      else wait_for_batch deadline times'
  end.

(** [ContinuousScheduler::step]; [t] is the time when the output is processed. *)
Definition step (deadline : Z) (times : list Z) (t : Z) : M (LLMEngine KV * Sched St) unit :=
  (* get a new batch of requests *)
  b ← on_snd (wait_for_batch deadline times);
  if decide (sequences_ b = []) then mret tt
  else
    _ ← execute_batch b;
    (* process request output in batch *)
    on_snd (process_batch_output t).

(** [ContinuousScheduler::run_until_complete], without the final wait for the
    responses; [t i] is the time of the [i]-th iteration. *)
Fixpoint run_until_complete (t : nat → Z) (fuel : nat) : M (LLMEngine KV * Sched St) unit :=
  match fuel with
  | 0 => fail OutOfFuel
  | S fuel =>
      (* build a batch of requests/sequences *)
      b ← on_snd build_sequence_batch;
      if decide (sequences_ b = []) then
        p ← get;
        if decide (0 < pending_requests_ p.2)
        then run_until_complete t fuel (* wait for new requests to arrive *)
        else mret tt (* no more requests to process *)
      else
        (* run inference for the batch *)
        _ ← execute_batch b;
        (* process request output in batch *)
        _ ← on_snd (process_batch_output (t fuel));
        run_until_complete t fuel
  end.
End step.

(** ** A step of the server keeps the invariant

    From a batch that the scheduler built, the engine runs without failure, the
    sequences of the batch make progress, and the invariant of the scheduler
    holds again afterwards. *)

(** ** The heap after the engine *)

Lemma wp_bind_ret {S A} (m : M S A) s Q : wp (m ≫= mret) s Q → wp m s Q.
Proof. unfold wp, mbind, M_bind, mret, M_ret. by destruct (m s) as [[]|]. Qed.

(** Handing the results back overwrites the advanced sequences. *)
Lemma update_after_advance (js : list (Job (positive * nat))) : ∀ ss (h : Heap),
  NoDup (jb_key <$> js) → length ss = length js →
  update_all (jb_key <$> js) ss (advance_all js h) = update_all (jb_key <$> js) ss h.
Proof.
  assert (∀ js k s (h : Heap), k ∉ jb_key <$> js →
    seq_update k s (advance_all js h) = advance_all js (seq_update k s h)) as Hcomm.
  { clear. induction js as [|j js IH]; intros k s h Hk; [done|]. rewrite fmap_cons in Hk.
    apply not_elem_of_cons in Hk as [Hne Hk]. unfold advance_all in *. cbn [foldl]. rewrite IH by done.
    by rewrite seq_update_comm. }
  induction js as [|j js IH]; intros [|s ss] h Hnd Hl; try done.
  rewrite !fmap_cons in *. apply NoDup_cons in Hnd as [Hj Hnd]. injection Hl as Hl.
  unfold update_all in *. cbn [zip_with foldl]. cbn [fst snd].
  change (advance_all (j :: js) h) with
    (advance_all js (seq_update (jb_key j) (advance (jb_budget j) (jb_seq j)) h)).
  rewrite Hcomm, seq_update_twice by done. by apply IH.
Qed.

Section jobs.
Context {v : nat}.
Context {St : Type} {BS : BlockStore St} {BL : BlockStoreLaws St} (cap : Limits).
Implicit Types s : Sched St.

(** ** From the scheduled sequences to the jobs of the engine *)

(** A scheduled sequence is a job of the engine. *)
Lemma job_ok_ready s k n : core_ok cap s → config_ok cap s → job_ok s k n →
  (∀ p, lim_sampling cap p → plain_sampling v p) →
  ∃ q, seq_lookup k (requests s) = Some q ∧ 0 < n ∧ ready (store_size (block_manager_ s)) n q ∧
    job_open (v := v) (mkJob k n q) ∧ ck_end (chunk_of n q) ≤ cap ∧
    sched_seq (store_size (block_manager_ s)) q ∧
    ck_end (chunk_of n q) ≤ length (blocks_ q) * store_size (block_manager_ s).
Proof.
  intros Hc Hcf (q&Hq&Hn&Hle&Hcov&Hinv&Hfin) Hlim. exists q.
  destruct (core_split cap s k q Hc Hq) as (F&r&Hperm&Hst&Hr&Hok&Hro).
  pose proof (so_sched _ _ _ Hok) as Hsq. destruct (sched_kv _ _ Hsq) as (_&Hlt&_).
  pose proof (sq_inv _ _ Hsq) as HI. pose proof (si_capacity _ HI) as Hca.
  pose proof (so_capacity _ _ _ Hok) as Hcap. pose proof (ro_cap _ _ _ Hro) as Hcap'.
  assert (1 ≤ max_seqs (sch_options_ s)) as Hms by (unfold max_seqs; lia).
  pose proof (cf_batch _ _ Hcf) as Hcb.
  assert (ck_end (chunk_of n q) ≤ num_kv_cache_tokens q + n) by (unfold ck_end, ck_start; simpl; lia).
  assert (ck_end (chunk_of n q) ≤ num_tokens_ q) by (unfold ck_end, ck_start; simpl; lia).
  split_and!; [done|done| | |lia|done|lia].
  - split; [done|done|lia| |nia].
    apply Forall_forall. intros b Hb. destruct (store_handle _ _ b Hst) as [Hs Hid]; [set_solver|].
    pose proof (cf_slots _ _ Hcf). split_and!; [done|lia|]. nia.
  - split; simpl.
    + done.
    + eapply unfinished_room; [apply Hro|done| |done|apply Hok|apply Hok].
      rewrite <- (si_status _ HI Hinv). congruence.
    + apply Hlim. rewrite (so_sampling _ _ _ Hok). apply Hro.
Qed.

(** All of them. *)
Lemma jobs_of s ks ns : core_ok cap s → config_ok cap s → jobs_ok s ks ns →
  (∀ p, lim_sampling cap p → plain_sampling v p) →
  ∃ js, jb_key <$> js = ks ∧ jb_budget <$> js = ns ∧
    jobs_ready (store_size (block_manager_ s)) js (requests s) ∧ Forall (job_open (v := v)) js ∧
    sum_list (ck_end <$> (job_chunk <$> js)) ≤ length ks * cap ∧
    Forall (λ j, sched_seq (store_size (block_manager_ s)) (jb_seq j) ∧
      ck_end (job_chunk j) ≤ length (blocks_ (jb_seq j)) * store_size (block_manager_ s)) js.
Proof.
  intros Hc Hcf [Hj _] Hlim. induction Hj as [|k n ks ns Hk _ IH].
  { exists []. split_and!; try done; constructor. }
  destruct IH as (js&<-&<-&Hr&Ho&Hs&Hq). destruct (job_ok_ready s k n Hc Hcf Hk Hlim) as (q&H1&H2&H3&H4&H5&H6&H7).
  exists (mkJob k n q :: js). rewrite !fmap_cons. split_and!; try done.
  - by constructor.
  - by constructor.
  - cbn [length]. change (sum_list (ck_end (job_chunk (mkJob k n q)) :: (ck_end <$> (job_chunk <$> js))))
      with (ck_end (chunk_of n q) + sum_list (ck_end <$> (job_chunk <$> js))). nia.
  - by constructor.
Qed.

(** ** The sequences after the step *)

Lemma stepped_sched bs n q q' : sched_seq bs q → 0 < n → ck_end (chunk_of n q) ≤ length (blocks_ q) * bs →
  stepped (v := v) n q q' → sched_seq bs q' ∧ seq_same q q' ∧ blocks_ q' = blocks_ q.
Proof.
  intros [HI He Ho Hl Hc] Hn Hcov Hst. unfold stepped in Hst.
  assert (num_kv_cache_tokens q = kv_llm (num_kv_cache_tokens_ q)) as Hkv
    by (unfold num_kv_cache_tokens; by rewrite He).
  assert (kv_llm (num_kv_cache_tokens_ q) ≤ ck_end (chunk_of n q) ≤ num_tokens_ q) as Hend
    by (unfold ck_end, ck_start; simpl; lia).
  assert (num_kv_cache_tokens_ (advance n q) = mkKvTokens (ck_end (chunk_of n q)) (kv_ssm (num_kv_cache_tokens_ q))) as Hadv
    by (unfold advance; simpl; by rewrite He).
  assert (seq_inv (advance n q)) as HIa.
  { pose proof (si_kv _ HI). destruct HI. split; try done. rewrite Hadv. simpl. lia. }
  destruct (is_prefill_stage (advance n q)) eqn:Hpre.
  - subst q'. apply bool_decide_eq_true in Hpre. rewrite advance_kv in Hpre.
    pose proof (si_prompt _ HI). split_and!; [|done|done].
    split; rewrite ?Hadv; simpl; [done|done|lia| |done]. unfold advance in Hpre. simpl in Hpre. lia.
  - destruct Hst as (t&_&[A1 (A2&A3&A4&_) A5 A6 A7 A8 A9 A10 A11]). split_and!; [|by split_and!|done].
    split; rewrite ?A8, ?Hadv, ?A10; simpl; [done|by rewrite A9|lia| |done]. rewrite A6. simpl. lia.
Qed.

(** Replacing the sequences of the jobs keeps the heap and the blocks in order. *)
Lemma update_all_core js : ∀ s ss, core_ok cap s → NoDup (jb_key <$> js) →
  Forall (λ j, seq_lookup (jb_key j) (requests s) = Some (jb_seq j)) js →
  Forall2 (λ j q', sched_seq (store_size (block_manager_ s)) q' ∧ seq_same (jb_seq j) q' ∧
    blocks_ q' = blocks_ (jb_seq j)) js ss →
  let s' := set_requests (update_all (jb_key <$> js) ss (requests s)) s in
  core_ok cap s' ∧ frame (λ k, k ∈ jb_key <$> js) s s'.
Proof.
  induction js as [|j js IH]; intros s ss Hc Hnd Hl Hss s'.
  { apply Forall2_nil_inv_l in Hss as ->. unfold s', update_all. simpl. destruct s. split; [done|reflexivity]. }
  apply Forall2_cons_inv_l in Hss as (q'&ss'&(Hq&Hsame&Hb)&Hss&->). rewrite !fmap_cons in *.
  apply NoDup_cons in Hnd as [Hj Hnd]. apply Forall_cons in Hl as [Hlj Hl].
  destruct (core_split cap s _ _ Hc Hlj) as (F&r&Hperm&Hst&_).
  pose proof (upd_touched cap (jb_key j) (jb_seq j) q' (block_manager_ s) s F Hc Hlj Hperm) as Ht.
  rewrite Hb in Ht. specialize (Ht Hst eq_refl eq_refl Hq Hsame). destruct Ht as [Hc1 Hf1 _].
  set (s1 := upd (jb_key j) q' (block_manager_ s) s) in *.
  assert (s' = set_requests (update_all (jb_key <$> js) ss' (requests s1)) s1) as -> by (by destruct s).
  destruct (IH s1 ss') as [Hc2 Hf2]; try done.
  - apply Forall_forall. intros i Hi. rewrite Forall_forall in Hl. rewrite <- (Hl i Hi).
    apply (fr_seq _ _ _ Hf1). intros E. apply Hj. rewrite <- E. by apply list_elem_of_fmap_2.
  - split; [done|]. etrans; [eapply frame_weaken; [|exact Hf1]|eapply frame_weaken; [|exact Hf2]].
    + intros k ->. by left.
    + intros k Hk. by right.
Qed.

(** ** Processing the output *)

(** An operation on one sequence that keeps its blocks. *)
Lemma heap_seq_wp {A} k q (m : M Sequence A) s (P : A → Sequence → Prop) :
  core_ok cap s → seq_lookup k (requests s) = Some q →
  wp m q (λ a q', sched_seq (store_size (block_manager_ s)) q' ∧ seq_same q q' ∧ blocks_ q' = blocks_ q ∧ P a q') →
  wp (with_seq k m) (requests s) (λ a h', ∃ q', touched cap k q' s (set_requests h' s) ∧ P a q').
Proof.
  intros Hc Hq Hm. eapply with_seq_wp; [exact Hq|]. eapply wp_mono; [exact Hm|].
  intros a q' (Hs&Hsame&Hb&HP). exists q'. split; [|done].
  destruct (core_split cap s k q Hc Hq) as (F&r&Hperm&Hst&_).
  pose proof (upd_touched cap k q q' (block_manager_ s) s F Hc Hq Hperm) as Ht. rewrite Hb in Ht.
  specialize (Ht Hst eq_refl eq_refl Hs Hsame).
  assert (set_requests (seq_update k q' (requests s)) s = upd k q' (block_manager_ s) s) as -> by (by destruct s).
  done.
Qed.

Lemma seq_same_refl q : seq_same q q.
Proof. done. Qed.

(** The finish status of a sequence, as the response handler asks for it. *)
Lemma is_finished_keeps bs q : sched_seq bs q →
  wp is_finished q (λ _ q', sched_seq bs q' ∧ seq_same q q' ∧ blocks_ q' = blocks_ q ∧ True).
Proof.
  intros Hs. eapply wp_mono; [apply is_finished_checked, Hs|]. intros r q' Hq.
  split_and!; [eapply checked_sched; [exact Hq|done]|destruct Hq as [-> _ _]; done..|done].
Qed.

(** Fields that the scheduler does not read. *)
Lemma close_keeps bs q : sched_seq bs q →
  wp close q (λ _ q', sched_seq bs q' ∧ seq_same q q' ∧ blocks_ q' = blocks_ q ∧ True).
Proof.
  intros [[] ? ? ? ?]. unfold close. wp_steps. split_and!; [|done|done|done]. split; [by split|done..].
Qed.

Lemma latency_keeps bs t q : sched_seq bs q →
  wp (_ ← inter_token_latency t; mret tt) q
    (λ _ q', sched_seq bs q' ∧ seq_same q q' ∧ blocks_ q' = blocks_ q ∧ True).
Proof.
  intros [[] ? ? ? ?]. unfold inter_token_latency. wp_steps. split_and!; [|done|done|done]. split; [by split|done..].
Qed.

Lemma gets_keeps {A} bs (f : Sequence → A) q : sched_seq bs q →
  wp (gets f) q (λ a q', sched_seq bs q' ∧ seq_same q q' ∧ blocks_ q' = blocks_ q ∧ True).
Proof. intros Hs. by wp_steps. Qed.

(** A sequence of a request that is there. *)
Lemma heap_keeps {A} rid i (m : M Sequence A) s :
  core_ok cap s → is_Some (seq_lookup (rid, i) (requests s)) →
  (∀ q, sched_seq (store_size (block_manager_ s)) q →
    wp m q (λ _ q', sched_seq (store_size (block_manager_ s)) q' ∧ seq_same q q' ∧ blocks_ q' = blocks_ q ∧ True)) →
  wp (with_seq (rid, i) m) (requests s) (λ _ h', let s' := set_requests h' s in
    core_ok cap s' ∧ frame (λ k, k.1 = rid) s s' ∧ is_Some (seq_lookup (rid, i) h')).
Proof.
  intros Hc [q Hq] Hm. destruct (core_seq cap s _ _ Hc Hq) as (r&_&Hok).
  eapply wp_mono; [eapply (heap_seq_wp (rid, i) q m s (λ _ _, True) Hc Hq); apply Hm, Hok|].
  intros a h' (q'&[H1 H2 H3]&_). split_and!; [done| |by eexists].
  eapply frame_weaken; [|exact H2]. by intros k ->.
Qed.
(** Pointers to sequences stay valid. *)
Lemma frame_pointers D rid s h' idxs : frame D s (set_requests h' s) →
  Forall (λ i, is_Some (seq_lookup (rid, i) (requests s))) idxs →
  Forall (λ i, is_Some (seq_lookup (rid, i) h')) idxs.
Proof.
  intros Hf Hl. eapply Forall_impl; [exact Hl|]. intros i [q Hq].
  apply seq_lookup_req in Hq as (r&Hr&Hs). simpl in *.
  destruct (frame_request _ _ _ _ _ Hf Hr) as (r'&Hr'&_&Hle). simpl in Hr'. apply lookup_lt_Some in Hs.
  destruct (lookup_lt_is_Some_2 (sequences r') i) as [q' Hq']; [lia|]. exists q'. by eapply seq_lookup_some.
Qed.

(** The loop of [on_request_stream]. *)
Lemma stream_indexes_wp rid idxs : ∀ s acc, core_ok cap s →
  Forall (λ i, is_Some (seq_lookup (rid, i) (requests s))) idxs →
  wp (stream_indexes rid idxs acc) (requests s) (λ _ h', let s' := set_requests h' s in
    core_ok cap s' ∧ frame (λ k, k.1 = rid) s s').
Proof.
  induction idxs as [|i idxs IH]; intros s acc Hc Hl; cbn [stream_indexes].
  { apply wp_ret. destruct s. split; [done|reflexivity]. }
  (* one access to sequence [i], then the rest of the program *)
  set (R := λ h, core_ok cap (set_requests h s) ∧ frame (λ k, k.1 = rid) s (set_requests h s) ∧
    Forall (λ i, is_Some (seq_lookup (rid, i) h)) (i :: idxs)).
  assert (∀ A (m : M Sequence A) B (k : A → M Heap B) h (Q : B → Heap → Prop), R h →
    (∀ q, sched_seq (store_size (block_manager_ s)) q → wp m q (λ _ q',
       sched_seq (store_size (block_manager_ s)) q' ∧ seq_same q q' ∧ blocks_ q' = blocks_ q ∧ True)) →
    (∀ a h', R h' → wp (k a) h' Q) → wp (with_seq (rid, i) m ≫= k) h Q) as Hacc.
  { intros A m B k h Q (HR1&HR2&HR3) Hm Hk. apply wp_bind.
    eapply wp_mono; [apply (heap_keeps rid i m (set_requests h s)); [done|exact (Forall_inv HR3)|exact Hm]|].
    intros a h' (Hc'&Hf'&_). apply Hk. split_and!; [done| |].
    - etrans; [exact HR2|exact Hf'].
    - exact (frame_pointers _ _ (set_requests h s) h' _ Hf' HR3). }
  assert (R (requests s)) as HR0 by (unfold R; destruct s; split_and!; [done|reflexivity|done]).
  assert (∀ acc h, R h → wp (stream_indexes rid idxs acc) h (λ _ h', core_ok cap (set_requests h' s) ∧
    frame (λ k, k.1 = rid) s (set_requests h' s))) as Hrest.
  { intros acc' h (HR1&HR2&HR3). apply Forall_cons in HR3 as [_ HR3].
    eapply wp_mono; [apply (IH (set_requests h s) acc' HR1 HR3)|].
    intros ? h' [Hc' Hf']. split; [done|]. etrans; [exact HR2|exact Hf']. }
  apply Hacc; [done|intros; by apply gets_keeps|]. intros closed h1 HR1. destruct closed; [by apply Hrest|].
  apply Hacc; [done|intros; by apply gets_keeps|]. intros pending h2 HR2. apply wp_bind.
  eapply (wp_mono _ _ (λ _ h, R h)).
  { destruct pending; [by apply wp_ret|]. apply wp_bind_ret.
    apply Hacc; [done|intros; by apply is_finished_keeps|]. intros r h HR. by apply wp_ret. }
  intros out h3 HR3. apply Hacc; [done|intros; by apply gets_keeps|]. intros sz h4 HR4.
  apply Hacc; [done|intros; by apply is_finished_keeps|]. intros fin h5 HR5. apply wp_bind.
  eapply (wp_mono _ _ (λ _ h, R h)).
  { destruct fin; [|by apply wp_ret]. apply wp_bind_ret.
    apply Hacc; [done|intros; by apply close_keeps|]. intros r h HR. by apply wp_ret. }
  intros ? h6 HR6. by apply Hrest.
Qed.

Lemma set_responses_stream s rq pend t : waiting_ok cap s rq pend → (∀ rid, t ≠ Finish rid) →
  waiting_ok cap (set_responses (push_task t (responses s)) s) rq pend.
Proof.
  intros [W1 W2 W3 W4 W5 W6 W7 W8 W9 W10 W11 W12] Ht.
  assert (finishing (tasks (push_task t (responses s))) = finishing (tasks (responses s))) as Hfin.
  { unfold push_task. simpl. rewrite finishing_push. destruct t as [rid|]; [by destruct (Ht rid)|]. by rewrite app_nil_r. }
  destruct W1, W2. split; cbn [responses set_responses]; rewrite ?Hfin; done.
Qed.

Lemma on_request_stream_wp rid s rq pend : waiting_ok cap s rq pend → rid ∈ pend →
  (∃ r, requests s !! rid = Some r ∧ stream r = true) →
  wp (on_responses (on_request_stream rid)) s (λ _ s', waiting_ok cap s' rq pend ∧ lists_same s s' ∧
    ∀ x, is_Some (requests s !! x) → is_Some (requests s' !! x)).
Proof.
  intros HW Hin (r&Hr&Hst). unfold on_responses. apply wp_zoom. unfold on_request_stream. wp_steps.
  apply wp_on_fst. unfold with_request. wp_steps; [exact Hr|]. wp_steps. simpl. rewrite insert_id by done.
  wp_steps; [done|]. apply wp_on_fst.
  eapply wp_mono; [apply (stream_indexes_wp rid _ s [] (wo_core _ _ _ _ _ HW))|].
  { apply Forall_forall. intros i Hi. apply elem_of_seq in Hi.
    destruct (lookup_lt_is_Some_2 (sequences r) i) as [q Hq]; [lia|]. exists q. by eapply seq_lookup_some. }
  intros acc h' [Hc Hf]. apply wp_on_snd. wp_steps. cbn [fst snd].
  assert (rid ∉ finishing (tasks (responses s))) as Hni.
  { pose proof (wo_nodup _ _ _ _ _ HW) as Hnd. intros Hfin. apply NoDup_app in Hnd as (_&_&Hnd).
    apply NoDup_app in Hnd as (_&Hnd&_). apply (Hnd rid Hin). set_solver. }
  pose proof (waiting_ok_frame cap _ _ _ _ _ rid HW Hf Hc Hni) as HW'. split_and!.
  - apply (set_responses_stream (set_requests h' s)); done.
  - by destruct s.
  - intros x [rx Hx]. destruct (frame_request _ _ _ _ _ Hf Hx) as (r'&Hr'&_). by eexists.
Qed.

(** All pointers of the batch are valid and belong to running requests. *)
Definition batch_valid s (ks : list (positive * nat)) : Prop :=
  Forall (λ k, k.1 ∈ running_requests_ s ∧ is_Some (seq_lookup k (requests s))) ks.

Lemma sched_not_finishing s rid : sched_ok cap s → rid ∈ running_requests_ s →
  rid ∉ finishing (tasks (responses s)).
Proof.
  intros HW Hin Hfin. pose proof (wo_nodup _ _ _ _ _ HW) as Hnd. apply NoDup_app in Hnd as (_&_&Hnd).
  apply NoDup_app in Hnd as (_&Hnd&_). apply (Hnd rid Hin). set_solver.
Qed.

(** Touching the running requests. *)
Lemma sched_ok_frame D s s' : sched_ok cap s → frame D s s' → core_ok cap s' →
  (∀ k, D k → k.1 ∈ running_requests_ s) → sched_ok cap s' ∧ lists_same s s'.
Proof.
  intros HW Hf Hc HD. pose proof (frame_lists _ _ _ Hf) as [L1 L2 L3 L4 L5 L6]. split; [|by split].
  unfold sched_ok. rewrite L2, L3. eapply waiting_ok_frame'; [exact HW|done|done|].
  intros k Hk. apply sched_not_finishing; [done|]. by apply HD.
Qed.

Lemma latencies_wp t ks : ∀ s, sched_ok cap s → batch_valid s ks →
  wp (for_each (λ k, _ ← on_seq k (inter_token_latency t); mret tt) ks) s (λ _ s',
    sched_ok cap s' ∧ lists_same s s').
Proof.
  induction ks as [|k ks IH]; intros s HW Hv; simpl; [by apply wp_ret|].
  apply Forall_cons in Hv as [[Hk Hs] Hv]. wp_steps. unfold on_seq, on_heap. apply wp_zoom.
  destruct k as [rid i]. eapply wp_mono.
  { apply (heap_keeps rid i (inter_token_latency t) s (wo_core _ _ _ _ _ HW) Hs).
    intros q Hq. pose proof (latency_keeps _ t q Hq) as Hl. unfold inter_token_latency in *. wp_steps. done. }
  intros a h' (Hc&Hf&_). wp_steps.
  destruct (sched_ok_frame _ _ _ HW Hf Hc) as [HW' Hl']; [by intros k ->|].
  eapply wp_mono; [apply IH; [done|]|].
  - apply Forall_forall. intros k Hkin. rewrite Forall_forall in Hv. destruct (Hv k Hkin) as [H1 H2].
    rewrite (ls_running _ _ Hl'). split; [done|]. destruct k as [a' b'].
    assert (Forall (λ i, is_Some (seq_lookup (a', i) (requests s))) [b']) as Hp by (by constructor).
    pose proof (frame_pointers _ _ _ _ _ Hf Hp) as Hp'. by apply Forall_inv in Hp'.
  - intros ? s' [? ?]. split; [done|]. by etrans.
Qed.

Lemma streams_wp rids : ∀ s, sched_ok cap s → rids ⊆ running_requests_ s →
  wp (for_each (λ rid, r ← on_request rid get;
        if stream r then on_responses (on_request_stream rid) else mret tt) rids) s
    (λ _ s', sched_ok cap s' ∧ lists_same s s').
Proof.
  induction rids as [|rid rids IH]; intros s HW Hsub; simpl; [by apply wp_ret|].
  assert (rid ∈ running_requests_ s) as Hin by set_solver.
  destruct (wo_dom _ _ _ _ _ HW rid) as [r Hr]; [set_solver|].
  wp_steps. eapply on_request_get_wp; [exact Hr|].
  eapply (wp_mono _ _ (λ _ s', sched_ok cap s' ∧ lists_same s s')).
  - destruct (stream r) eqn:Hst; [|by wp_steps]. eapply wp_mono; [by apply (on_request_stream_wp rid s _ _ HW); [|eexists]|].
    intros ? s' (HW'&[L1 L2 L3 L4 L5 L6]&_). split; [|by split]. unfold sched_ok. by rewrite L2, L3.
  - intros ? s1 [HW1 Hl1]. eapply wp_mono; [apply IH; [done|rewrite (ls_running _ _ Hl1); set_solver]|].
    intros ? s2 [? ?]. split; [done|]. by etrans.
Qed.

Lemma process_batch_output_wp t s : sched_ok cap s → batch_valid s (running_sequences_ s) →
  wp (process_batch_output t) s (λ _ s', sched_ok cap s' ∧ lists_same s s').
Proof.
  intros HW Hv. unfold process_batch_output. wp_steps. eapply wp_mono; [by apply latencies_wp|].
  intros ? s1 [HW1 Hl1]. rewrite <- (ls_running _ _ Hl1).
  eapply wp_mono; [by apply streams_wp|]. intros ? s2 [? ?]. split; [done|]. by etrans.
Qed.
End jobs.

(** ** The step *)

Section step.
Context {KV Hidden : Type} {md : Model KV Hidden} {v : nat} {mlaws : ModelLaws KV Hidden v}.
Context {th : Torch} {laws : TorchLaws th} {rng : Rng} {rlaws : RngLaws rng} (prec emax : Z).
Context {St : Type} {BS : BlockStore St} {BL : BlockStoreLaws St} (cap : Limits).
Implicit Types s : Sched St.

(** The vocabulary fits the token type, and the server only accepts requests that
    the engine can sample. *)
Record engine_fits : Prop := {
  ef_vocab : 0 < v ∧ (Z.of_nat v ≤ 2 ^ 31)%Z;
  ef_sampling : ∀ p, lim_sampling cap p → plain_sampling v p;
}.

(** What one step does to the sequences of its batch. *)
Definition progress s s' (ks : list (positive * nat)) (ns : list nat) : Prop :=
  Forall2 (λ k n, ∃ q q', seq_lookup k (requests s) = Some q ∧ seq_lookup k (requests s') = Some q' ∧
    stepped (v := v) n q q') ks ns.

Lemma execute_batch_wp e s s0 b : engine_fits → engine_ok e → built cap s0 b s → sequences_ b ≠ [] →
  wp (execute_batch prec emax b) (e, s) (λ _ p, engine_ok p.1 ∧ sched_ok cap p.2 ∧ lists_same s p.2 ∧
    batch_valid p.2 (running_sequences_ p.2) ∧
    progress s p.2 (running_sequences_ s) (running_sequences_budgets_ s)).
Proof using laws mlaws rlaws.
  intros [[Hv Hsm] Hlim] He [HW _ -> Hj _ Hn Ho Hrid] Hne. simpl in Hne.
  pose proof (wo_core _ _ _ _ _ HW) as Hc. pose proof (wo_config _ _ _ _ _ HW) as Hcf.
  set (ks := running_sequences_ s) in *. set (ns := running_sequences_budgets_ s) in *.
  destruct (jobs_of cap s ks ns Hc Hcf Hj Hlim) as (js&Hk&Hb&Hr&Hopen&Hsum&Hq).
  pose proof (jo_nodup _ _ _ Hj) as Hnd. rewrite <- Hk in Hnd.
  assert (js ≠ []) as Hjs by (intros E; rewrite E in Hk; by rewrite <- Hk in Hne).
  assert (Z.of_nat (sum_list (ck_end <$> (job_chunk <$> js))) < 2 ^ 31)%Z as Hsmall.
  { pose proof (cf_batch _ _ Hcf). rewrite Ho in *. nia. }
  unfold execute_batch. wp_steps. simpl.
  replace (length ks) with (length js) by (by rewrite <- Hk, length_fmap). rewrite <- Hk, <- Hb.
  destruct (wp_ok _ _ _ (execute_model_wp prec emax (store_size (block_manager_ s)) e js (requests s) Hv Hsm He
    (store_size_pos _ _ (co_store _ _ Hc)) Hjs Hnd Hr Hopen Hsmall))
    as (o&[e' [b' h']]&Hrun&He'&ss'&Hss&Hh). simpl in *. rewrite Hrun. wp_steps. simpl.
  split; [done|]. rewrite update_after_advance in Hh; [|done|by rewrite (Forall2_length _ _ _ Hss)].
  assert (Forall2 (λ j q', sched_seq (store_size (block_manager_ s)) q' ∧ seq_same (jb_seq j) q' ∧
    blocks_ q' = blocks_ (jb_seq j)) js ss') as Hss'.
  { eapply Forall2_mono_in; [exact Hss|]. intros j q' Hin Hst.
    rewrite Forall_forall in Hq. destruct (Hq j Hin) as [Hsq Hcv].
    unfold jobs_ready in Hr. rewrite Forall_forall in Hr. destruct (Hr j Hin) as (_&Hpos&_).
    exact (stepped_sched _ _ _ _ Hsq Hpos Hcv Hst). }
  assert (Forall (λ j, seq_lookup (jb_key j) (requests s) = Some (jb_seq j)) js) as Hlk
    by (eapply Forall_impl; [exact Hr|]; by intros j [? _]).
  destruct (update_all_core cap js s ss' Hc Hnd Hlk Hss') as [Hc' Hf']. rewrite <- Hh in Hc', Hf'.
  destruct (sched_ok_frame cap _ _ _ HW Hf' Hc') as [HW' Hl'].
  { intros k Hkin. rewrite Hk in Hkin. rewrite Forall_forall in Hrid. by apply Hrid. }
  assert (Forall2 (λ j q', seq_lookup (jb_key j) h' = Some q') js ss') as Hlk'.
  { apply (Forall2_fmap_l jb_key (λ k q', seq_lookup k h' = Some q')). rewrite Hh. apply update_all_lookup; [done|..].
    - by rewrite length_fmap, (Forall2_length _ _ _ Hss).
    - apply Forall_fmap. eapply Forall_impl; [exact Hlk|]. intros j Hjl. eexists; exact Hjl. }
  split_and!; [done|done|..].
  - apply Forall_forall. intros k Hkin. change (k ∈ ks) in Hkin.
    rewrite Forall_forall in Hrid. split; [by apply Hrid|].
    rewrite <- Hk in Hkin. apply list_elem_of_fmap in Hkin as (j&->&Hjin).
    apply list_elem_of_lookup in Hjin as [i Hi]. destruct (Forall2_lookup_l _ _ _ _ _ Hlk' Hi) as (q'&_&Hq').
    by eexists.
  - unfold progress. apply Forall2_fmap, Forall_Forall2_diag, Forall_forall.
    intros j Hjin. apply list_elem_of_lookup in Hjin as [i Hi].
    destruct (Forall2_lookup_l _ _ _ _ _ Hlk' Hi) as (q'&Hi'&Hq').
    exists (jb_seq j), q'. split_and!; [exact (Forall_lookup_1 _ _ _ _ Hlk Hi)|exact Hq'|].
    exact (Forall2_lookup_lr _ _ _ _ _ _ Hss Hi Hi').
Qed.

(** Waiting for a batch, when the clock passes the deadline in the end. *)
Lemma wait_for_batch_wp deadline times : ∀ s, sched_ok cap s →
  (∃ t, last times = Some t ∧ (deadline < t)%Z) →
  wp (wait_for_batch deadline times) s (λ b s', sched_ok cap s' ∧
    (sequences_ b ≠ [] → ∃ s0, built cap s0 b s')).
Proof using.
  induction times as [|now times IH]; intros s HW (t&Ht&Hlt); [done|]. cbn [wait_for_batch]. wp_steps.
  eapply wp_mono; [by apply build_sequence_batch_wp|]. intros b s1 Hb. pose proof (bt_sched _ _ _ _ Hb) as HW1.
  case_decide; [wp_steps; split; [done|]; by eexists|].
  case_decide as Hd; [by wp_steps|]. apply IH; [done|]. exists t. split; [|done].
  destruct times; [simpl in Ht; congruence|done].
Qed.

(** One step of the server. *)
Lemma step_wp e s deadline times t : engine_fits → engine_ok e → sched_ok cap s →
  (∃ t', last times = Some t' ∧ (deadline < t')%Z) →
  wp (step prec emax deadline times t) (e, s) (λ _ p, engine_ok p.1 ∧ sched_ok cap p.2).
Proof using laws mlaws rlaws.
  intros Hfit He HW Ht. unfold step. wp_steps. apply wp_on_snd.
  eapply wp_mono; [by apply wait_for_batch_wp|]. intros b s1 [HW1 Hb].
  case_decide as Hnil; [by wp_steps|]. destruct (Hb Hnil) as [s0 Hbt]. wp_steps.
  eapply wp_mono; [by eapply execute_batch_wp|]. intros ? [e2 s2] (He2&HW2&_&Hv2&_). simpl in *.
  apply wp_on_snd. eapply wp_mono; [by apply process_batch_output_wp|]. by intros ? s3 [? _].
Qed.
End step.
