(* ===== verification/HandlerInv.v ===== *)
(** * The request handler: what it hands to the scheduler

    A request that the handler creates is well-formed, every job keeps the
    invariant of the scheduler, and the counter of pending requests counts the
    jobs that wait. *)

From Stdlib Require Import Ascii SpecFloat.
From stdpp Require Import base tactics list gmap strings sorting.
From S2P Require Import Prelude Slice Block Types Stopping Decoder Sequence SequenceInv Request.
From S2P Require Import Sampling Batch BlockStore ResponseHandler RequestInv Scheduler Handler.
From S2P Require Import SchedulerInv SchedulerLoop SchedulerBuild.

(** ** verify_params *)

Lemma verify_params_n sp : verify_params sp = None → 0 < prm_n sp ≤ best_of_of sp.
Proof.
  unfold verify_params, invalid, best_of_of. repeat (case_match || case_decide); try done; intros _;
    simpl; rewrite ?bool_decide_eq_false in *; lia.
Qed.

Lemma verify_params_stop sp l : verify_params sp = None → prm_stop sp = Some l → length l ≤ 4.
Proof.
  intros H Hl. unfold verify_params, invalid in H. rewrite Hl in H.
  repeat (case_match || case_decide); try done; simpl; rewrite ?bool_decide_eq_false in *; lia.
Qed.

(** ** create_request *)

Section create.
Context {en : Encoder} {laws : EncoderLaws en} (env : HandlerEnv) (cap : Limits).

(** A job whose request the engine can serve, if it is valid: the buffers fit, no
    stop string is empty, and the sampling parameters are supported. *)
Record servable (sp : SamplingParams) : Prop := {
  sv_room : size_of_Z (max_position_embeddings (model_args_ env)) + max_tokens_of sp +
    env_num_speculative_tokens env ≤ cap;
  sv_stop : Forall (λ t, t ≠ []) (default [] (prm_stop sp));
  sv_sampling : lim_sampling cap (sampling_of sp);
}.

Lemma encode_stops_some l ls : Forall (λ t, t ≠ []) l → encode_stops l = Some ls →
  Forall2 (λ t ids, tk_encode t = Some ids) l ls ∧ Forall (λ s, s ≠ []) ls.
Proof using laws.
  intros Hl. revert ls. induction Hl as [|t l Ht _ IH]; intros ls; simpl.
  - intros [= <-]. by split; constructor.
  - destruct (tk_encode t) as [ids|] eqn:He; [|done]. intros (ls'&Hls&->)%fmap_Some.
    destruct (IH _ Hls). split; constructor; try done. by eapply encode_some.
Qed.

(** Why a prompt is refused. *)
Definition refused (t : text) (sp : SamplingParams) : Prop :=
  t = [] ∨ tk_encode t = None ∨
  (∃ ids, tk_encode t = Some ids ∧ size_of_Z (max_position_embeddings (model_args_ env)) ≤ length ids) ∨
  Exists (λ s, tk_encode s = None) (default [] (prm_stop sp)).

Lemma encode_stops_none l : encode_stops l = None ↔ Exists (λ s, tk_encode s = None) l.
Proof using.
  induction l as [|t l IH]; simpl; [by rewrite Exists_nil|]. rewrite Exists_cons, <-IH.
  destruct (tk_encode t) as [ids|]; [|naive_solver]. rewrite fmap_None. naive_solver.
Qed.

Lemma max_tokens_pos sp : 0 < max_tokens_of sp.
Proof. unfold max_tokens_of, kDefaultMaxTokens. case_decide; lia. Qed.

(** The fields of the request that is built. *)
Record created (now : Z) (prompt : text) (sp : SamplingParams) (prio : Priority) (str : bool) (r : Request) : Prop := {
  cr_time : created_time r = now;
  cr_tokens : tk_encode prompt = Some (prompt_tokens r);
  cr_sampling : req_sampling_param r = sampling_of sp;
  cr_max : max_tokens (req_stopping_criteria r) = max_tokens_of sp;
  cr_stops : Forall2 (λ t ids, tk_encode t = Some ids) (default [] (prm_stop sp))
    (stop_sequences (req_stopping_criteria r));
  cr_best : best_of r = best_of_of sp ∧ req_n r = prm_n sp;
  cr_stream : stream r = str && bool_decide (best_of_of sp = prm_n sp);
  cr_priority : priority r = prio;
  cr_live : is_cancelled_ r = false;
  cr_one : length (sequences r) = 1;
}.

Lemma create_request_wp {S} bs now t sp prio str (s : S) :
  verify_params sp = None → servable sp →
  wp (create_request env now t sp prio str) s (λ c s', s' = s ∧
    match c with
    | inl err => code_ err = INVALID_ARGUMENT ∧ refused t sp
    | inr r => ¬ refused t sp ∧ created now t sp prio str r ∧ req_ok bs cap r ∧ req_blocks r = []
    end).
Proof using laws.
  intros Hv [Hroom Hstop Hsamp]. pose proof (verify_params_n _ Hv) as Hn. pose proof (max_tokens_pos sp) as Hm.
  unfold create_request, refused. case_decide as Hnil; [wp_steps; by auto|].
  destruct (tk_encode t) as [ids|] eqn:Hids; [|wp_steps; by auto].
  case_decide as Hlen; [wp_steps; naive_solver|]. unfold Request_new. rewrite decide_True by lia.
  destruct (encode_stops _) as [stops|] eqn:Hst; [|apply encode_stops_none in Hst; wp_steps; by auto 6].
  destruct (encode_stops_some _ _ Hstop Hst) as [H2 Hne].
  match goal with |- context [add_sequence ?r] => set (r0 := r) end.
  assert (fields_ok cap r0) as Hf.
  { split; simpl; try done; [by eapply encode_some|lia..|]. right. simpl. lia. }
  pose proof (add_first_sequence_wp bs cap r0 Hf eq_refl) as Hadd. unfold wp in Hadd.
  destruct (add_sequence r0) as [[[] r]|e]; [|done]. destruct Hadd as (Hok&Hb&Hbare&Hone).
  wp_steps. split; [done|]. split.
  { intros [?|[?|[(?&?&?)|?%encode_stops_none]]]; [done..| |]; [simplify_eq; lia|congruence]. }
  split; [|done]. pose proof (bare_fields _ _ Hbare) as (E1&E2&E3&E4&E5&E6&E7&E8&E9&E10&E11&E12).
  split; rewrite ?E2, ?E3, ?E4, ?E5, ?E6, ?E7, ?E8, ?E10, ?E12; simpl; try done.
  case_bool_decide as Hb1; case_decide; try lia; by destruct str.
Qed.

Lemma create_for_wp {S} bs now j (s : S) : verify_params (job_sp j) = None → servable (job_sp j) →
  wp (create_for env now j) s (λ c s', s' = s ∧
    match c with
    | inl err => code_ err = INVALID_ARGUMENT
    | inr r => (∃ t, created now t (job_sp j) (job_priority j) (job_stream j) r) ∧ req_ok bs cap r ∧ req_blocks r = []
    end).
Proof using laws.
  intros Hv Hs. unfold create_for, create_chat_request.
  assert (∀ t, wp (create_request env now t (job_sp j) (job_priority j) (job_stream j)) s (λ c s', s' = s ∧
    match c with
    | inl err => code_ err = INVALID_ARGUMENT
    | inr r => (∃ t, created now t (job_sp j) (job_priority j) (job_stream j) r) ∧ req_ok bs cap r ∧ req_blocks r = []
    end)) as H.
  { intros t. eapply wp_mono; [by apply (create_request_wp bs)|]. intros [err|r] s' [-> Hc]; [by destruct Hc|].
    destruct Hc as (_&?&?&?). split; [done|]. split; [by exists t|done]. }
  destruct (job_prompt j); [apply H|]. repeat case_match; [apply H|by wp_steps..].
Qed.
End create.

(** ** Jobs and the scheduler *)

Section arrival.
Context (cap : Limits) {St : Type} {BS : BlockStore St} {BL : BlockStoreLaws St}.
Implicit Types s : Sched St.

(** A new address, and a clock that moved since the requests in the heap were
    created. *)
Record fresh (rid : positive) (now : Z) s : Prop := {
  fs_rid : requests s !! rid = None;
  fs_time : map_Forall (λ _ r, created_time r ≠ now) (requests s);
}.

(** Everything of the scheduler but the heap, the queue of new requests and the
    counter of pending ones. *)
Record arrived s s' : Prop := {
  ar_options : sch_options_ s' = sch_options_ s;
  ar_store : block_manager_ s' = block_manager_ s;
  ar_responses : responses s' = responses s;
  ar_queue : priority_queue_ s' = priority_queue_ s;
  ar_running : running_requests_ s' = running_requests_ s;
  ar_old : requests s ⊆ requests s';
}.

#[export] Instance arrived_refl : Reflexive arrived.
Proof. by intros s; split. Qed.

Lemma schedule_wp rid r now s : sched_ok cap s → fresh rid now s → created_time r = now →
  req_ok (store_size (block_manager_ s)) cap r → req_blocks r = [] →
  wp (schedule rid r) s (λ b s', sched_ok cap s' ∧ arrived s s' ∧ pending_requests_ s' = pending_requests_ s ∧
    if b then requests s' !! rid = Some r ∧ request_queue_ s' = request_queue_ s ++ [rid] else s' = s).
Proof.
  intros HW [Hrid Htime] Hnow Hr Hb. unfold schedule. wp_steps; [by rewrite bool_decide_true by apply Hr|].
  case_decide; wp_steps; [|by split_and!].
  destruct HW as [[C1 C2] [] W3 W4 W5 W6 W7 W8 W9 W10 W11 W12].
  assert (same_times (requests s) (<[rid:=r]> (requests s))) as Ht.
  { intros i x Hx. exists x. rewrite lookup_insert_ne; [done|]. by intros ->; rewrite Hrid in Hx. }
  assert (∀ x, is_Some (requests s !! x) → x ≠ rid) as Hne by (intros x [? Hx] ->; congruence).
  split_and!; [split|split|done|apply lookup_insert_eq|done];
    cbn [requests set_requests request_queue_ set_request_queue priority_queue_ running_requests_ responses preemptable_requests_
         block_manager_ sch_options_]; try done.
  - split; cbn [requests set_requests set_request_queue block_manager_].
    + eapply store_ok_proper; [|exact C1]. rewrite heap_blocks_insert, Hb. by rewrite delete_id.
    + by apply map_Forall_insert_2.
  - intros a b ra rb Ha Hb'. rewrite !lookup_insert_Some in Ha, Hb'.
    destruct Ha as [[<- <-]|[? Ha]], Hb' as [[<- <-]|[? Hb']]; intros Hp Hc; [done|..|by eapply W3].
    + destruct (Htime _ _ Hb'). congruence.
    + destruct (Htime _ _ Ha). congruence.
  - intros x Hx. destruct (decide (x = rid)) as [->|]; [rewrite lookup_insert_eq; by eexists|].
    rewrite lookup_insert_ne by done. apply W4. set_solver.
  - rewrite <-app_assoc. simpl. rewrite <-Permutation_middle. apply NoDup_cons. split; [|done].
    intros Hin. rewrite !elem_of_app in Hin. destruct Hin as [Hin|[Hin|[Hin|Hin]]]; [apply (Hne rid); [apply W4; set_solver|done]..|].
    destruct (W11 _ Hin) as (x&Hx&_). congruence.
  - by eapply queue_sorted_same.
  - by eapply queue_sorted_same.
  - by eapply queue_sorted_same.
  - intros a b Ha Hb'. eapply before_same; [done|]. by apply W10.
  - intros x Hx. destruct (W11 _ Hx) as (y&Hy&Hby). exists y. rewrite lookup_insert_ne; [done|]. intros <-. congruence.
  - intros x. destruct (decide (x = rid)) as [->|]; [intros _; set_solver|].
    rewrite lookup_insert_ne by done. intros Hx. specialize (W12 x Hx). set_solver.
  - by apply insert_subseteq.
Qed.

Lemma dec_pending_wp s : 0 < pending_requests_ s →
  wp dec_pending_requests s (λ _ s', s' = set_pending (pending_requests_ s - 1) s).
Proof. intros Hp. unfold dec_pending_requests. wp_steps; [by rewrite bool_decide_true|]. done. Qed.

Lemma sched_ok_pending n s : sched_ok cap s → sched_ok cap (set_pending n s).
Proof. intros [[] [] ? ? ? ? ? ? ? ? ? ?]. by split. Qed.

End arrival.

Lemma verify_params_code sp err : verify_params sp = Some err → code_ err = INVALID_ARGUMENT.
Proof. unfold verify_params, invalid. repeat (case_match || case_decide); try done; by intros [= <-]. Qed.

Section jobs.
Context {en : Encoder} {laws : EncoderLaws en} (env : HandlerEnv) (cap : Limits).
Context {St : Type} {BS : BlockStore St} {BL : BlockStoreLaws St}.
Implicit Types s : Sched St.

(** What a job does: it is refused with an error, or its request waits in the
    queue. *)
Definition handled (rid : positive) (now : Z) (j : HandlerTask) s (res : bool * option Status) s' : Prop :=
  match res with
  | (true, None) => verify_params (job_sp j) = None ∧ request_queue_ s' = request_queue_ s ++ [rid] ∧
      ∃ r t, requests s' !! rid = Some r ∧ created now t (job_sp j) (job_priority j) (job_stream j) r
  | (false, Some err) => requests s' = requests s ∧ request_queue_ s' = request_queue_ s ∧
      (code_ err = INVALID_ARGUMENT ∨ code_ err = RESOURCE_EXHAUSTED)
  | _ => False
  end.

Lemma handle_wp rid now j s : sched_ok cap s → fresh rid now s → servable env cap (job_sp j) → 0 < pending_requests_ s →
  wp (handle env rid now j) s (λ res s', sched_ok cap s' ∧ arrived s s' ∧ handled rid now j s res s' ∧
    pending_requests_ s' = pending_requests_ s - 1).
Proof using laws.
  intros HW Hf Hsv Hp. unfold handle. wp_steps.
  eapply (wp_mono _ _ (λ res s', sched_ok cap s' ∧ arrived s s' ∧ handled rid now j s res s' ∧
    pending_requests_ s' = pending_requests_ s)).
  - unfold handled. destruct (verify_params (job_sp j)) as [err|] eqn:Hv.
    { wp_steps. split_and!; try done. left. by eapply verify_params_code. }
    wp_steps. eapply wp_mono; [by apply (create_for_wp env cap (store_size (block_manager_ s)))|].
    intros [err|r] s' [-> Hc]; [by wp_steps; split_and!; try done; left|].
    destruct Hc as ((t&Hcr)&Hok&Hb). wp_steps.
    eapply wp_mono; [eapply schedule_wp; try done; apply Hcr|].
    intros [|] s' (HW'&Har&Hpd&Hq); wp_steps; split_and!; try done.
    + by apply Hq.
    + exists r, t. split; [by apply Hq|done].
    + by rewrite Hq.
    + by rewrite Hq.
    + by right.
  - intros res s' (HW'&Har&Hh&Hpd). wp_steps. eapply wp_mono; [apply dec_pending_wp; lia|].
    intros ? s'' ->. wp_steps. split_and!; [by apply sched_ok_pending|by destruct Har|done|simpl; lia].
Qed.

(** ** The queue of jobs *)

(** Every pending request is counted, so the counter never drops below zero. *)
Record handler_ok (h : Handler St) : Prop := {
  ho_sched : sched_ok cap (h_sched h);
  ho_pending : pending_requests_ (h_sched h) = length (h_queue_ h);
  ho_jobs : Forall (λ j, servable env cap (job_sp j)) (h_queue_ h);
}.

Lemma schedule_async_wp j h : handler_ok h → servable env cap (job_sp j) →
  wp (schedule_async j) h (λ _ h', handler_ok h' ∧ h_queue_ h' = h_queue_ h ++ [j]).
Proof using.
  intros [H1 H2 H3] Hj. unfold schedule_async. wp_steps. split; [|done].
  split; simpl; [by apply sched_ok_pending|by rewrite length_app, H2|apply Forall_app_2; [done|by constructor]].
Qed.

(** The jobs of a batch, in order. *)
Lemma push_jobs_wp sps prio str : ∀ (l : list (nat * Prompt)) (h : Handler St),
  Forall (λ p : nat * Prompt, is_Some (batch_sp sps p.1)) l →
  wp (for_each (λ p : nat * Prompt,
    sp ← from_option_or OutOfBounds (batch_sp sps p.1);
    modify (λ h, mkHandler (h_queue_ h ++ [mkHandlerTask p.2 sp prio str]) (h_results h) (h_sched h))) l) h
    (λ _ h', ∃ js, h' = mkHandler (h_queue_ h ++ js) (h_results h) (h_sched h) ∧
      Forall2 (λ p j, batch_sp sps p.1 = Some (job_sp j) ∧ job_prompt j = p.2) l js).
Proof using.
  induction l as [|p l IH]; intros h Hl; simpl.
  { apply wp_ret. exists []. split; [|constructor]. rewrite app_nil_r. by destruct h. }
  apply Forall_cons in Hl as [[sp Hsp] Hl]. wp_steps; [exact Hsp|]. eapply wp_mono; [by apply IH|].
  intros ? h' (js&->&Hjs). exists (mkHandlerTask p.2 sp prio str :: js). simpl. rewrite <-app_assoc. split; [done|].
  by constructor.
Qed.

Lemma schedule_batch_wp ps sps prio str h : handler_ok h → Forall (servable env cap) sps →
  length ps = length sps ∨ length sps = 1 →
  wp (schedule_batch_async ps sps prio str) h (λ _ h', handler_ok h' ∧ ∃ js, h_queue_ h' = h_queue_ h ++ js ∧
    job_prompt <$> js = ps).
Proof using.
  intros [H1 H2 H3] Hsps Hlen. unfold schedule_batch_async. wp_steps; [by rewrite bool_decide_true|].
  eapply wp_mono; [apply push_jobs_wp|].
  - apply Forall_forall. intros [i p] Hin. apply elem_of_zip_l in Hin. rewrite elem_of_seq in Hin. simpl.
    unfold batch_sp. case_decide; apply lookup_lt_is_Some; lia.
  - intros ? h' (js&->&Hjs). pose proof (Forall2_length _ _ _ Hjs) as Hl. rewrite length_zip, length_seq in Hl.
    split; [|exists js; split; [done|]].
    + split; simpl; [by apply sched_ok_pending|rewrite length_app, H2; lia|]. apply Forall_app_2; [done|].
      apply Forall_forall. intros j Hj. apply list_elem_of_lookup in Hj as [i Hi].
      destruct (Forall2_lookup_r _ _ _ _ _ Hjs Hi) as (p&_&Hsp&_). unfold batch_sp in Hsp.
      rewrite Forall_forall in Hsps. apply Hsps. case_decide; by eapply list_elem_of_lookup_2.
    + transitivity ((zip (seq 0 (length ps)) ps).*2); [|by apply snd_zip; rewrite length_seq].
      clear -Hjs. induction Hjs as [|p j l js [_ Hj] _ IH]; [done|]. rewrite !fmap_cons. by rewrite IH, Hj.
Qed.

Lemma handling_step_wp rid now h : handler_ok h → fresh rid now (h_sched h) →
  wp (handling_step env rid now) h (λ _ h', handler_ok h' ∧ length (h_queue_ h') = pred (length (h_queue_ h))).
Proof using laws.
  intros [H1 H2 H3] Hf. unfold handling_step. wp_steps. destruct (h_queue_ h) as [|j q] eqn:Hq.
  { wp_steps. split; [|by rewrite Hq]. split; [done|by rewrite Hq, H2|by rewrite Hq]. }
  apply Forall_cons in H3 as [Hj H3]. assert (0 < pending_requests_ (h_sched h)) as Hp by (rewrite H2; simpl; lia).
  pose proof (handle_wp rid now j (h_sched h) H1 Hf Hj Hp) as Hh. unfold wp in Hh.
  destruct (handle _ _ _ _ _) as [[res s]|]; [|done]. destruct Hh as (HW&_&_&Hpd). wp_steps.
  split; [|done]. split; simpl; [done|rewrite Hpd, H2; simpl; lia|done].
Qed.
End jobs.
