(* ===== verification/Server.v ===== *)
(** * The server as a transition system

    Requests arrive, the scheduler steps, the response pool runs its tasks, in any
    order.  Every reachable state satisfies the invariant of the scheduler, and
    from every reachable state the next step runs without failure. *)

From Stdlib Require Import Ascii SpecFloat.
From stdpp Require Import base tactics list gmap strings sorting relations.
From S2P Require Import Prelude Slice Block Types Stopping Decoder Sequence SequenceInv Request.
From S2P Require Import Sampling Batch BatchInv Logits Sampler Engine EngineInv BlockStore.
From S2P Require Import ResponseHandler RequestInv Scheduler SchedulerInv SchedulerLoop.
From S2P Require Import SchedulerBuild Step Handler HandlerInv.

(** ** What a successful run changes *)

(** Every successful run of [m] relates its states by [R]. *)
Definition keeps {S A} (R : S → S → Prop) (m : M S A) : Prop :=
  ∀ s a s', m s = Ok (a, s') → R s s'.

Section keeps.
Context {S : Type} {R : S → S → Prop} `{!PreOrder R}.

Lemma keeps_ret {A} (a : A) : keeps R (mret a).
Proof. by intros s b s' [= _ <-]. Qed.
Lemma keeps_get : keeps R get.
Proof. by intros s b s' [= _ <-]. Qed.
Lemma keeps_gets {A} (f : S → A) : keeps R (gets f).
Proof. by intros s b s' [= _ <-]. Qed.
Lemma keeps_fail {A} e : keeps R (fail e : M S A).
Proof. by intros s b s'. Qed.
Lemma keeps_check b msg : keeps R (check b msg).
Proof. destruct b; [apply keeps_ret|apply keeps_fail]. Qed.
Lemma keeps_option {A} e (o : option A) : keeps R (from_option_or e o).
Proof. destruct o; [apply keeps_ret|apply keeps_fail]. Qed.
Lemma keeps_bind {A B} (m : M S A) (k : A → M S B) :
  keeps R m → (∀ a, keeps R (k a)) → keeps R (m ≫= k).
Proof. intros Hm Hk s b s' (a&s1&H1&H2)%bind_ok. etrans; [by eapply Hm|by eapply Hk]. Qed.
Lemma keeps_map_each {A B} (f : A → M S B) l : (∀ x, keeps R (f x)) → keeps R (map_each f l).
Proof.
  intros Hf. induction l as [|x l IH]; simpl; [apply keeps_ret|].
  apply keeps_bind; [apply Hf|]. intros y. apply keeps_bind; [apply IH|]. intros ys. apply keeps_ret.
Qed.
End keeps.

Create HintDb keeps.
#[export] Hint Resolve keeps_ret keeps_get keeps_gets keeps_fail keeps_check keeps_option : keeps.
Ltac keeps_step :=
  first [ apply keeps_bind; [|intros ?] | apply keeps_map_each; intros ? | apply keeps_ret | apply keeps_get
        | apply keeps_check | apply keeps_option | apply keeps_fail | case_match ].

(** ** The tasks of the pool *)

(** Only the text position changed. *)
Definition redecoded (q q' : Sequence) : Prop := ∃ d, q' = set_decoder d q.
#[global] Instance redecoded_preorder : PreOrder redecoded.
Proof.
  split.
  - intros q. exists (incremental_decoder_ q). by destruct q.
  - intros q1 q2 q3 [d ->] [d' ->]. by exists d'.
Qed.

Section output.
Context {tk : Tokenizer}.

Lemma with_decoder_keeps {A} (m : M IncrementalDecoder A) : keeps redecoded (with_decoder m).
Proof.
  intros q a q'. unfold with_decoder, zoom. destruct (m _) as [[x d]|]; intros [= _ <-]. by exists d.
Qed.

Lemma build_logprobs_keeps i j : keeps redecoded (build_logprobs i j).
Proof. unfold build_logprobs, build_logprob, at_. repeat keeps_step. Qed.

Lemma build_delta_keeps n : keeps redecoded (build_delta_output_until n).
Proof.
  unfold build_delta_output_until, finish_output, slice_of, slice, at_.
  repeat first [apply with_decoder_keeps | apply build_logprobs_keeps | keeps_step].
Qed.
End output.

(** Request [rid] may be cancelled and its text positions may move. *)
Definition pool_rel (rid : positive) (h h' : Heap) : Prop :=
  match h !! rid with
  | None => h' = h
  | Some r => ∃ r', h' = <[rid:=r']> h ∧ bare (set_cancelled false r') = bare (set_cancelled false r) ∧
      Forall2 redecoded (sequences r) (sequences r')
  end.

#[global] Instance pool_rel_preorder rid : PreOrder (pool_rel rid).
Proof.
  split; unfold pool_rel.
  - intros h. destruct (h !! rid) as [r|] eqn:Hr; [|done]. exists r. split_and!; [by rewrite insert_id|done|].
    apply Forall_Forall2_diag, Forall_true. intros q. reflexivity.
  - intros h1 h2 h3. destruct (h1 !! rid) as [r|] eqn:Hr; [|by intros ->; rewrite Hr].
    intros (r2&->&Hb2&Hs2). rewrite lookup_insert_eq. intros (r3&->&Hb3&Hs3).
    exists r3. split_and!; [by rewrite insert_insert_eq|congruence|]. by etrans.
Qed.

Lemma with_seq_pool {A} rid i (m : M Sequence A) : keeps redecoded m → keeps (pool_rel rid) (with_seq (rid, i) m).
Proof.
  intros Hm h a h' H. unfold with_seq in H. apply bind_ok in H as (h0&?&[= <- <-]&H).
  apply bind_ok in H as (q&?&Hq&H). unfold from_option_or in Hq.
  destruct (seq_lookup (rid, i) h) as [q0|] eqn:Hl; [|done]. injection Hq as <- <-.
  destruct (m q0) as [[x q']|] eqn:Hrun; [|done]. injection H as _ <-. unfold pool_rel.
  apply seq_lookup_req in Hl as (r&Hr&Hq0). cbn [fst snd] in *. rewrite Hr.
  eexists. split_and!; [done|by destruct r|]. simpl.
  apply Forall2_same_length_lookup. split; [by rewrite length_insert|]. intros j x1 x2 H1 H2.
  destruct (decide (i = j)) as [->|Hne].
  - rewrite list_lookup_insert_eq in H2 by (by eapply lookup_lt_Some). simplify_eq. by eapply Hm.
  - rewrite list_lookup_insert_ne in H2 by done. simplify_eq. reflexivity.
Qed.

Lemma stream_outputs_pool {tk : Tokenizer} rid work : keeps (pool_rel rid) (stream_outputs rid work).
Proof.
  induction work as [|[i n] work IH]; simpl; [apply keeps_ret|].
  apply keeps_bind; [apply with_seq_pool, build_delta_keeps|]. intros o.
  apply keeps_bind; [apply IH|]. intros os. apply keeps_ret.
Qed.

Lemma cancel_pool rid : keeps (pool_rel rid) (with_request rid cancel).
Proof.
  intros h a h' H. unfold with_request in H. apply bind_ok in H as (h0&?&[= <- <-]&H).
  destruct (h !! rid) as [r|] eqn:Hr; [|done]. injection H as _ <-. unfold pool_rel. rewrite Hr.
  eexists. split_and!; [done|by destruct r|].
  apply Forall_Forall2_diag, Forall_true. intros q. reflexivity.
Qed.

(** ** The invariant under the pool *)

Section pool.
Context {St : Type} {BS : BlockStore St} {BL : BlockStoreLaws St} (cap : Limits).
Implicit Types s : Sched St.

Lemma redecoded_seq_ok bs r r' q q' : bare (set_cancelled false r') = bare (set_cancelled false r) →
  redecoded q q' → seq_ok bs r q → seq_ok bs r' q'.
Proof.
  intros Hb [d ->] [[HI ? ? ? ?] ? ? ? ?]. apply bare_fields in Hb as (E1&E2&E3&_&_&_&_&_&_&E4&_). simpl in *.
  split; simpl; [|congruence..]. split; try done. by destruct HI.
Qed.

Lemma pool_req_ok bs r r' : bare (set_cancelled false r') = bare (set_cancelled false r) →
  Forall2 redecoded (sequences r) (sequences r') → req_ok bs cap r → req_ok bs cap r'.
Proof.
  intros Hb Hs [H1 H2 H3 H4 H5 H6 H7 H8]. pose proof (bare_fields _ _ Hb) as (E1&E2&E3&_&_&_&_&_&_&E4&_). simpl in *.
  split; unfold bounded_request in *; rewrite ?E1, ?E2, ?E3, ?E4; try done.
  - apply Forall_lookup_2. intros i q' Hq'. destruct (Forall2_lookup_r _ _ _ _ _ Hs Hq') as (q&Hq&Hrd).
    eapply redecoded_seq_ok; [done|done|]. exact (Forall_lookup_1 _ _ _ _ H1 Hq).
  - intros E. rewrite E in Hs. apply Forall2_nil_inv_r in Hs. done.
Qed.

Lemma pool_req_blocks r r' : Forall2 redecoded (sequences r) (sequences r') → req_blocks r' = req_blocks r.
Proof.
  unfold req_blocks. induction 1 as [|q q' l l' [d ->] _ IH]; [done|]. rewrite !fmap_cons. simpl. by rewrite IH.
Qed.

(** A change of the heap that keeps the order and the blocks. *)
Lemma pool_keeps_sched s rid h' : sched_ok cap s → pool_rel rid (requests s) h' →
  sched_ok cap (set_requests h' s).
Proof.
  intros HW Hp. unfold pool_rel in Hp. destruct (requests s !! rid) as [r|] eqn:Hr; [|by rewrite Hp; destruct s].
  destruct HW as [W1 W2 W3 W4 W5 W6 W7 W8 W9 W10 W11 W12]. destruct Hp as (r'&->&Hb&Hs).
  pose proof (bare_fields _ _ Hb) as (_&_&_&_&E5&E6&_). simpl in E5, E6.
  assert (same_times (requests s) (<[rid:=r']> (requests s))) as Ht.
  { intros i x Hx. destruct (decide (i = rid)) as [->|Hne].
    - exists r'. rewrite lookup_insert_eq. simplify_eq. done.
    - exists x. by rewrite lookup_insert_ne. }
  assert (same_times (<[rid:=r']> (requests s)) (requests s)) as Ht'.
  { intros i x. destruct (decide (i = rid)) as [->|Hne]; [rewrite lookup_insert_eq|rewrite lookup_insert_ne by done].
    - intros [= <-]. by exists r.
    - intros Hx. by exists x. }
  split; cbn [requests set_requests priority_queue_ responses preemptable_requests_ request_queue_ running_requests_]; try done.
  - destruct W1 as [C1 C2]. split; cbn [requests set_requests block_manager_].
    + eapply store_ok_proper; [|exact C1]. by eapply heap_blocks_same; [exact Hr|done|rewrite (pool_req_blocks _ _ Hs)].
    + apply map_Forall_insert_2; [|done]. eapply pool_req_ok; [exact Hb|done|]. by apply (C2 rid).
  - by destruct W2.
  - intros a b ra rb Ha Hb' Hpr Hcr. apply Ht' in Ha as (xa&Ha&?&?). apply Ht' in Hb' as (xb&Hb'&?&?).
    eapply W3; [exact Ha|exact Hb'|congruence|congruence].
  - intros x Hx. destruct (W4 x Hx) as [y Hy]. destruct (Ht x y Hy) as (z&Hz&_). by exists z.
  - by eapply queue_sorted_same.
  - by eapply queue_sorted_same.
  - by eapply queue_sorted_same.
  - intros a b Ha Hb'. eapply before_same; [done|]. by apply W10.
  - intros x Hx. destruct (W11 x Hx) as (y&Hy&Hby). destruct (decide (x = rid)) as [->|Hne].
    + exists r'. rewrite lookup_insert_eq. split; [done|]. simplify_eq. by rewrite (pool_req_blocks _ _ Hs).
    + exists y. by rewrite lookup_insert_ne.
  - intros x Hx. apply W12. destruct (decide (x = rid)) as [->|Hne]; [by eexists|]. by rewrite lookup_insert_ne in Hx.
Qed.

(** Taking a stream task, and sending its output. *)
Lemma pool_keeps_tasks s ts out : sched_ok cap s → finishing ts = finishing (tasks (responses s)) →
  sched_ok cap (set_responses (mkResponses ts out) s).
Proof.
  intros [W1 W2 W3 W4 W5 W6 W7 W8 W9 W10 W11 W12] Hf. destruct W1, W2.
  split; cbn [responses set_responses tasks]; rewrite ?Hf; done.
Qed.

(** A sorted queue does not depend on the requests outside of it. *)
Lemma queue_sorted_delete (h : Heap) x q : x ∉ q → queue_sorted h q → queue_sorted (delete x h) q.
Proof.
  intros Hx Hq. induction Hq as [|y q Hq IH Hy]; constructor; [set_solver|].
  apply Forall_forall. intros z Hz. rewrite Forall_forall in Hy. destruct (Hy z Hz) as (ry&rz&?&?&?).
  exists ry, rz. rewrite !lookup_delete_ne by set_solver. done.
Qed.

(** The answered request is deleted with its task. *)
Lemma pool_keeps_delete s rid ts out : sched_ok cap s → tasks (responses s) = Finish rid :: ts →
  sched_ok cap (set_responses (mkResponses ts out) (set_requests (delete rid (requests s)) s)).
Proof.
  intros [W1 W2 W3 W4 W5 W6 W7 W8 W9 W10 W11 W12] Ht. unfold sched_ok in *. rewrite Ht in W5, W11.
  change (finishing (Finish rid :: ts)) with (rid :: finishing ts) in *.
  assert (rid ∉ request_queue_ s ++ running_requests_ s ++ priority_queue_ s) as Hout.
  { rewrite !app_assoc, NoDup_app, <-!app_assoc in W5. destruct W5 as (_&Hd&_). intros Hin. apply (Hd _ Hin). left. }
  assert (∀ x, x ∈ finishing ts → x ≠ rid) as Hother.
  { rewrite !app_assoc, NoDup_app, NoDup_cons in W5. destruct W5 as (_&_&Hn&_). intros x Hx ->. done. }
  split; cbn [responses set_responses tasks requests set_requests request_queue_ running_requests_ priority_queue_ preemptable_requests_].
  - destruct W1 as [C1 C2]. split; cbn [requests set_requests block_manager_ set_responses].
    + destruct (W11 rid) as (r&Hr&Hb); [left|]. eapply store_ok_proper; [|exact C1].
      by rewrite (heap_blocks_delete _ _ _ Hr), Hb.
    + by apply map_Forall_delete.
  - by destruct W2.
  - intros a b ra rb [_ Ha]%lookup_delete_Some [_ Hb]%lookup_delete_Some. by apply W3.
  - intros x Hx. rewrite lookup_delete_ne; [by apply W4|]. by intros ->.
  - eapply NoDup_Permutation_proper in W5; [|by rewrite !app_assoc, <-Permutation_middle].
    apply NoDup_cons in W5 as [_ W5]. by rewrite !app_assoc.
  - apply queue_sorted_delete; [set_solver|done].
  - apply queue_sorted_delete; [set_solver|done].
  - apply queue_sorted_delete; [set_solver|done].
  - done.
  - intros a b Ha Hb. destruct (W10 a b Ha Hb) as (ra&rb&?&?&?). exists ra, rb.
    rewrite !lookup_delete_ne by set_solver. done.
  - intros x Hx. destruct (W11 x) as (r&Hr&Hb); [by right|]. exists r.
    rewrite lookup_delete_ne by (symmetry; by apply Hother). done.
  - intros x [r [Hne Hr]%lookup_delete_Some]. specialize (W12 x ltac:(by eexists)). rewrite Ht in W12.
    change (finishing (Finish rid :: ts)) with (rid :: finishing ts) in W12. set_solver.
Qed.

(** Running an operation on the heap, with the responses beside it. *)
Lemma on_fst_ok {A} (m : M Heap A) h (q : Responses) a p' :
  on_fst m (h, q) = Ok (a, p') → m h = Ok (a, p'.1) ∧ p'.2 = q.
Proof. unfold on_fst, zoom. simpl. destruct (m h) as [[x h']|]; intros [= -> <-]. done. Qed.

Section run.
Context {tk : Tokenizer} (on_output : positive → RequestOutput → bool).

(** A streaming task. *)
Lemma run_stream_keeps s rid is_ ns p' : sched_ok cap s →
  run_task on_output (Stream rid is_ ns) (requests s, responses s) = Ok (tt, p') →
  sched_ok cap (set_responses p'.2 (set_requests p'.1 s)) ∧ tasks p'.2 = tasks (responses s).
Proof.
  intros HW H. simpl in H. apply bind_ok in H as (os&[h1 q1]&H1&H). apply on_fst_ok in H1 as [H1 E1].
  cbn [fst snd] in *. subst q1. apply stream_outputs_pool in H1.
  apply bind_ok in H as ([]&[h2 q2]&H2&H). injection H2 as <- <-.
  assert (pool_rel rid (requests s) p'.1 ∧ tasks p'.2 = tasks (responses s)) as [Hp Ht].
  { destruct (on_output _ _); [by injection H as <-|].
    apply on_fst_ok in H as [H E]. rewrite E. split; [|done].
    etrans; [exact H1|]. by eapply cancel_pool. }
  split; [|done]. destruct p' as [h' [ts out]]. cbn [fst snd tasks] in *.
  apply pool_keeps_tasks; [by eapply pool_keeps_sched|]. by rewrite Ht.
Qed.

(** One task of the pool. *)
Lemma run_next_keeps s s' : sched_ok cap s →
  on_responses (run_next on_output) s = Ok (tt, s') → sched_ok cap s'.
Proof.
  intros HW H. unfold on_responses, zoom in H.
  destruct (run_next on_output _) as [[[] p']|] eqn:Hrun; [|done]. injection H as <-.
  unfold run_next in Hrun. apply bind_ok in Hrun as (p&?&[= <- <-]&Hrun). cbn [snd] in Hrun.
  destruct (tasks (responses s)) as [|t ts] eqn:Ht; [injection Hrun as <-; by destruct s|].
  apply bind_ok in Hrun as ([]&p1&Hp1&Hrun). injection Hp1 as <-. destruct t as [rid|rid is_ ns].
  - simpl in Hrun. apply bind_ok in Hrun as (o&p2&H2&Hrun). destruct p2 as [h2 q2].
    apply on_fst_ok in H2 as [H2 E2]. cbn [fst snd] in *. subst q2.
    apply bind_ok in Hrun as ([]&[h3 q3]&H3&Hrun). injection H3 as <- <-. injection Hrun as <-. cbn [fst snd tasks sent].
    unfold with_request in H2. apply bind_ok in H2 as (h0&?&[= <- <-]&H2).
    apply bind_ok in H2 as (r&?&Hr&H2). destruct (requests s !! rid) as [r0|]; [|done]. injection Hr as <- <-.
    destruct (request_build_output r0) as [[x r']|]; [|done]. injection H2 as _ <-.
    rewrite delete_insert_eq. by apply pool_keeps_delete.
  - apply (run_stream_keeps (set_responses (mkResponses ts (sent (responses s))) s)) in Hrun as [Hk _].
    + exact Hk.
    + apply pool_keeps_tasks; [done|]. by rewrite Ht.
Qed.
End run.
End pool.

(** ** The server as a transition system

    The clients call the handler, the handling threads turn jobs into requests,
    the scheduler thread steps, and the response pool runs its tasks: the four
    kinds of threads of [src/handlers/llm_handler.cpp] interleave in any order.
    [server_ok] is an invariant of every reachable state. *)

(** ** The counter of pending requests *)

(** The scheduler thread and the pool leave the counter alone. *)
Section pending.
Context {KV Hidden : Type} {md : Model KV Hidden} {th : Torch} {rng : Rng} (prec emax : Z).
Context {St : Type} {BS : BlockStore St} {tk : Tokenizer}.

Definition same_pending (s s' : Sched St) : Prop := pending_requests_ s' = pending_requests_ s.
#[export] Instance same_pending_preorder : PreOrder same_pending.
Proof. split; [by intros s|]. intros s1 s2 s3. unfold same_pending. congruence. Qed.

(** The same from one state. *)
Definition keeps_at {A} (m : M (Sched St) A) (s : Sched St) : Prop := ∀ a s', m s = Ok (a, s') → same_pending s s'.
Lemma keeps_get_bind {B} (k : Sched St → M (Sched St) B) :
  (∀ s, keeps_at (k s) s) → keeps same_pending (get ≫= k).
Proof. intros Hk s b s' H. by apply (Hk s b). Qed.
Lemma keeps_at_put {B} s s0 (k : unit → M (Sched St) B) : same_pending s s0 → keeps same_pending (k tt) →
  keeps_at (put s0 ≫= k) s.
Proof. intros H Hk a s' (?&?&[= <- <-]&Hr)%bind_ok. etrans; [exact H|]. by eapply Hk. Qed.
Lemma keeps_at_of {A} (m : M (Sched St) A) s : keeps same_pending m → keeps_at m s.
Proof. intros Hm a s' H. by eapply Hm. Qed.

Lemma keeps_modify (f : Sched St → Sched St) : (∀ s, pending_requests_ (f s) = pending_requests_ s) →
  keeps same_pending (modify f).
Proof. intros Hf s a s' [= _ <-]. apply Hf. Qed.
Lemma keeps_zoom {T A} (sel : Sched St → T) (upd : T → Sched St → Sched St) (m : M T A) :
  (∀ t s, pending_requests_ (upd t s) = pending_requests_ s) → keeps same_pending (zoom sel upd m).
Proof. intros Hu s a s'. unfold zoom. destruct (m (sel s)) as [[x t]|]; intros [= _ <-]. apply Hu. Qed.
Lemma keeps_on_store {A} k (m : M (Sequence * St) A) : keeps same_pending (on_store k m).
Proof.
  intros s a s'. unfold on_store. intros (st&?&[= <- <-]&H)%bind_ok.
  apply bind_ok in H as (q&?&Hq&H). destruct (seq_lookup k _); [|done]. injection Hq as <- <-.
  destruct (m _) as [[x [q' b']]|]; [|done]. by injection H as _ <-.
Qed.
Lemma keeps_for_each {A} (f : A → M (Sched St) unit) l : (∀ x, keeps same_pending (f x)) → keeps same_pending (for_each f l).
Proof.
  intros Hf. induction l as [|x l IH]; simpl; [apply keeps_ret|]. apply keeps_bind; [apply Hf|]. intros ?. apply IH.
Qed.

Ltac pending_step := match goal with
  | |- keeps _ (get ≫= _) => apply keeps_get_bind; intros ?
  | |- keeps _ (_ ≫= _) => apply keeps_bind; [|intros ?]
  | |- keeps _ (modify _) => apply keeps_modify; intros ?; repeat case_match; reflexivity
  | |- keeps _ (zoom _ _ _) => apply keeps_zoom; reflexivity
  | |- keeps _ (on_store _ _) => apply keeps_on_store
  | |- keeps _ (for_each _ _) => apply keeps_for_each; intros ?
  | |- keeps _ (mret _) => apply keeps_ret
  | |- keeps _ (fail _) => apply keeps_fail
  | |- keeps _ (check _ _) => apply keeps_check
  | |- keeps _ (from_option_or _ _) => apply keeps_option
  | |- keeps _ _ => case_match
  | |- keeps_at (put _ ≫= _) _ => apply keeps_at_put; [reflexivity|]
  | |- keeps_at (_ ≫= _) _ => apply keeps_at_of
  | |- keeps_at (mret _) _ => apply keeps_at_of
  | |- keeps_at _ _ => first [case_match | apply keeps_at_of]
  end.

Lemma allocate_for_pending k n : keeps same_pending (allocate_for k n).
Proof. unfold allocate_for, on_seq, on_heap. repeat pending_step. Qed.

Lemma candidates_pending rid avg rt rs idxs : ∀ c, keeps same_pending (candidates rid avg rt rs idxs c).
Proof.
  induction idxs as [|i idxs IH]; intros c; simpl; unfold on_seq, on_heap, sub_size;
    repeat first [apply IH | apply allocate_for_pending | pending_step].
Qed.

Lemma schedule_loop_pending avg fuel : ∀ rt rs, keeps same_pending (schedule_loop fuel avg rt rs).
Proof.
  induction fuel as [|fuel IH]; intros rt rs; simpl; unfold take_candidates, pq_pop, release_request, on_request, on_heap;
    repeat first [apply IH | apply candidates_pending | pending_step].
Qed.

Lemma adjust_loop_pending idxs : ∀ rt, keeps same_pending (adjust_loop rt idxs).
Proof.
  induction idxs as [|i idxs IH]; intros rt; simpl; unfold at_;
    repeat first [apply IH | apply allocate_for_pending | pending_step].
Qed.

Lemma fill_batch_pending l : ∀ b, keeps same_pending (fill_batch b l).
Proof.
  induction l as [|[k n] l IH]; intros b; simpl; repeat first [apply IH | pending_step].
Qed.

Lemma build_pending : keeps same_pending build_sequence_batch.
Proof.
  unfold build_sequence_batch, drain_queue, admit_request, requeue, finish_if_stuck, finish_request, release_request,
    release_if_finished, pq_push, pq_pop, on_request, on_seq, on_heap, on_responses.
  repeat first [apply schedule_loop_pending | apply adjust_loop_pending | apply fill_batch_pending | pending_step].
Qed.

Lemma wait_pending deadline times : keeps same_pending (wait_for_batch deadline times).
Proof.
  induction times as [|t times IH]; simpl; repeat first [apply IH | apply build_pending | pending_step].
Qed.

Lemma step_pending e s deadline times t e' s' :
  step prec emax deadline times t (e, s) = Ok (tt, (e', s')) → pending_requests_ s' = pending_requests_ s.
Proof.
  unfold step. intros (b&[e1 s1]&H1&H)%bind_ok.
  unfold on_snd, zoom in H1. simpl in H1. destruct (wait_for_batch _ _ s) as [[? s2]|] eqn:Hw; [|done].
  injection H1 as ? ? ?. subst. apply wait_pending in Hw. case_decide; [injection H as ? ?; by subst|].
  apply bind_ok in H as (?&[e3 s3]&H3&H). unfold execute_batch in H3. apply bind_ok in H3 as (?&?&[= <- <-]&H3).
  simpl in H3. destruct (execute_model _ _ _) as [[? [e4 [b4 h4]]]|]; [|done]. injection H3 as ? ? ?. subst.
  unfold on_snd, zoom in H. simpl in H. destruct (process_batch_output _ _) as [[? s5]|] eqn:Hp; [|done].
  injection H as ? ? ?. subst. transitivity (pending_requests_ (set_requests h4 s1)); [|exact Hw].
  revert Hp. cut (keeps same_pending (process_batch_output (St := St) t)); [intros Hk Hp; by apply Hk in Hp|].
  unfold process_batch_output, on_request, on_seq, on_heap, on_responses. repeat pending_step.
Qed.

Lemma pool_pending on_output (s s' : Sched St) :
  on_responses (run_next on_output) s = Ok (tt, s') → pending_requests_ s' = pending_requests_ s.
Proof. unfold on_responses. by apply keeps_zoom. Qed.
End pending.

(** The scheduler without requests. *)
Lemma empty_sched_ok {St} {BS : BlockStore St} {BL : BlockStoreLaws St} cap o (b : St) prefix : store_ok b [] →
  let s := mkSched o b ∅ (mkResponses [] []) [] [] [] [] [] [] prefix 0 in config_ok cap s → sched_ok cap s.
Proof.
  intros Hb s Hc. split; try done; try constructor; simpl; try done; try set_solver.
  intros x [r Hr]. by rewrite lookup_empty in Hr.
Qed.

Section server.
Context {KV Hidden : Type} {md : Model KV Hidden} {v : nat} {mlaws : ModelLaws KV Hidden v}.
Context {th : Torch} {laws : TorchLaws th} {rng : Rng} {rlaws : RngLaws rng} (prec emax : Z).
Context {St : Type} {BS : BlockStore St} {BL : BlockStoreLaws St}.
Context {tk : Tokenizer} {en : Encoder} {elaws : EncoderLaws en}.
Context (on_output : positive → RequestOutput → bool) (env : HandlerEnv) (cap : Limits).

Record Server := mkServer {
  srv_engine : LLMEngine KV;
  srv_handler : Handler St;
}.
Definition srv_sched (s : Server) : Sched St := h_sched (srv_handler s).
Definition with_sched (e : LLMEngine KV) (s : Sched St) (x : Server) : Server :=
  mkServer e (mkHandler (h_queue_ (srv_handler x)) (h_results (srv_handler x)) s).

(** The deadline of the step passes in the end. *)
Definition passes (deadline : Z) (times : list Z) : Prop := ∃ t, last times = Some t ∧ (deadline < t)%Z.

(** One move of one thread. *)
Inductive server_step : Server → Server → Prop :=
  | client_calls x j h : servable env cap (job_sp j) →
      schedule_async j (srv_handler x) = Ok (tt, h) → server_step x (mkServer (srv_engine x) h)
  | client_calls_batch x ps sps prio str h : Forall (servable env cap) sps →
      schedule_batch_async ps sps prio str (srv_handler x) = Ok (tt, h) → server_step x (mkServer (srv_engine x) h)
  | thread_handles x rid now h : fresh rid now (srv_sched x) →
      handling_step env rid now (srv_handler x) = Ok (tt, h) → server_step x (mkServer (srv_engine x) h)
  | scheduler_steps x deadline times t e s : passes deadline times →
      step prec emax deadline times t (srv_engine x, srv_sched x) = Ok (tt, (e, s)) →
      server_step x (with_sched e s x)
  | pool_runs x s : on_responses (run_next on_output) (srv_sched x) = Ok (tt, s) →
      server_step x (with_sched (srv_engine x) s x).

(** The server when it starts. *)
Definition server_init (e : LLMEngine KV) (o : SchedulerOptions) (b : St) (prefix : bool) : Server :=
  mkServer e (mkHandler [] [] (mkSched o b ∅ (mkResponses [] []) [] [] [] [] [] [] prefix 0)).

(** ** The invariant *)

Record server_ok (x : Server) : Prop := {
  srv_engine_ok : engine_ok (srv_engine x);
  srv_handler_ok : handler_ok env cap (srv_handler x);
}.

Lemma server_init_ok e o b prefix : engine_ok e → store_ok b [] →
  config_ok cap (srv_sched (server_init e o b prefix)) → server_ok (server_init e o b prefix).
Proof using. intros He Hb Hc. split; [done|]. split; simpl; [by apply empty_sched_ok|done|by constructor]. Qed.

(** Every move keeps the invariant. *)
Lemma server_step_ok x y : engine_fits cap (v := v) → server_ok x → server_step x y → server_ok y.
Proof.
  intros Hfit [He Hh] Hs. destruct Hs as [x j h Hj H|x ps sps prio str h Hsps H|x rid now h Hf H|x dl times t e s Hp H|x s H].
  - split; [done|]. by apply (wp_run _ _ _ _ _ (schedule_async_wp env cap j _ Hh Hj)) in H as [? _].
  - split; [done|].
    assert (length ps = length sps ∨ length sps = 1) as Hlen.
    { unfold schedule_batch_async in H. apply bind_ok in H as (?&?&Hc&_). unfold check in Hc.
      by case_bool_decide. }
    by apply (wp_run _ _ _ _ _ (schedule_batch_wp env cap ps sps prio str _ Hh Hsps Hlen)) in H as [? _].
  - split; [done|]. by apply (wp_run _ _ _ _ _ (handling_step_wp env cap rid now _ Hh Hf)) in H as [? _].
  - pose proof (step_pending prec emax _ _ _ _ _ _ _ H) as Hpd. destruct Hh as [H1 H2 H3].
    apply (wp_run _ _ _ _ _ (step_wp prec emax cap _ _ _ _ t Hfit He H1 Hp)) in H as [? ?].
    split; [done|]. split; simpl; [done|by rewrite Hpd|done].
  - pose proof (pool_pending _ _ _ H) as Hpd. destruct Hh as [H1 H2 H3].
    split; [done|]. split; simpl; [by eapply run_next_keeps|by rewrite Hpd|done].
Qed.
End server.
