(* ===== verification/MemoryProps.v ===== *)
(** * Properties of the KV-cache memory

    What the block allocator, the prefix cache and the block manager promise to
    the rest of the server, with an example for every hypothesis. *)

From stdpp Require Import base tactics list gmap strings.
From S2P Require Import Prelude Slice Block Lru PrefixCache PrefixCacheInv PrefixCacheEvict.
From S2P Require Import PrefixCacheSpec PrefixCacheInsert.

(** ** Programs over block handles *)

(** What the rest of the server may do with handles: ask for blocks, copy a
    handle it holds, destroy one. *)
Inductive handle_op :=
  | OpAllocate (n : nat)
  | OpCopy (i : nat)
  | OpDestroy (i : nat).

(** The state: the memory and the handles that are held. *)
Definition handle_step (o : handle_op) : M (Mem * list Block) unit :=
  p ← get;
  match o with
  | OpAllocate n =>
      if decide (n ≤ num_free_blocks p.1) then
        match allocate n p.1 with
        | Ok (bs, m') => put (m', bs ++ p.2)
        | Fail e => fail e
        end
      else mret tt
  | OpCopy i =>
      match p.2 !! i with
      | Some b =>
          match block_copy b p.1 with
          | Ok (b', m') => put (m', b' :: p.2)
          | Fail e => fail e
          end
      | None => mret tt
      end
  | OpDestroy i =>
      match p.2 !! i with
      | Some b =>
          match block_destroy b p.1 with
          | Ok (_, m') => put (m', delete i p.2)
          | Fail e => fail e
          end
      | None => mret tt
      end
  end.

(** ** The block allocator *)

Lemma handle_step_wp o m hs :
  mem_ok m hs → wp (handle_step o) (m, hs) (λ _ p, mem_ok p.1 p.2 ∧ same_geometry m p.1).
Proof.
  intros HM. unfold handle_step. wp_steps. destruct o as [n|i|i]; simpl.
  - case_decide as Hn; [|by apply wp_ret].
    destruct (wp_ok _ _ _ (allocate_wp n m hs HM Hn)) as (bs&m'&->&_&HM'&Hg&_). wp_steps. done.
  - destruct (hs !! i) as [b|] eqn:Hb; [|by apply wp_ret]. apply list_elem_of_lookup_2 in Hb.
    destruct (wp_ok _ _ _ (block_copy_wp b m hs HM Hb)) as (b'&m'&->&->&HM'&Ha). wp_steps.
    split; [done|]. unfold same_geometry, num_total_blocks. simpl. by rewrite Ha.
  - destruct (hs !! i) as [b|] eqn:Hb; [|by apply wp_ret].
    rewrite (delete_Permutation _ _ _ Hb) in HM.
    destruct (wp_ok _ _ _ (block_destroy_wp b m _ HM)) as (?&m'&->&HM'&Hg&_). wp_steps. done.
Qed.

Lemma handle_steps_wp ops : ∀ m hs,
  mem_ok m hs →
  wp (for_each handle_step ops) (m, hs) (λ _ p, mem_ok p.1 p.2 ∧ same_geometry m p.1).
Proof.
  induction ops as [|o ops IH]; intros m hs HM; simpl; [by apply wp_ret|].
  apply wp_bind. eapply wp_mono; [by apply handle_step_wp|]. intros _ [m' hs'] [HM' Hg].
  eapply wp_mono; [by apply IH|]. intros _ p [? ?]. split; [done|]. by etrans.
Qed.

(** C22. Whatever the rest of the server does with the handles of a new
    allocator, in any order, no check fails and no counter is used after it was
    deleted; every block id is either free or held by a live handle, never both,
    and the destructor's check that all blocks came back passes once no handle is
    left. *)
Theorem allocator_never_leaks total bs a ops :
  BlockAllocator_new total bs = Ok a →
  wp (for_each handle_step ops) (mkMem ∅ 1 a, []) (λ _ p,
    num_free_blocks p.1 + size (live_ids p.2) = total ∧
    Forall (λ b, size_ b = bs ∧ (0 ≤ id_ b < Z.of_nat total)%Z) p.2 ∧
    (p.2 = [] → BlockAllocator_destroy p.1 = Ok (tt, p.1))).
Proof.
  intros Ha. destruct (BlockAllocator_new_ok _ _ _ Ha) as (HM&_&Htot&Hsz).
  eapply wp_mono; [by apply handle_steps_wp|]. intros _ [m hs] [HM' [Hg1 Hg2]]. simpl in *.
  assert (num_total_blocks m = total) as Ht by (rewrite Hg1; done).
  pose proof (mem_ok_count _ _ HM') as Hc. rewrite Ht in Hc. split_and!; [done|..].
  - apply Forall_forall. intros b Hb. destruct (mem_ok_handle _ _ _ HM' Hb). rewrite Ht in *.
    split; congruence.
  - intros ->. unfold BlockAllocator_destroy, mbind, M_bind, get, check.
    rewrite bool_decide_eq_true_2; [done|]. rewrite Ht.
    assert (size (live_ids []) = 0) as H0 by reflexivity. lia.
Qed.

Definition alloc4 : BlockAllocator := mkBlockAllocator 4 2 [3; 2; 1; 0]%Z.

Lemma allocator_never_leaks_witness :
  BlockAllocator_new 4 2 = Ok alloc4 ∧
  wp (for_each handle_step [OpAllocate 3; OpCopy 1; OpDestroy 0; OpAllocate 9; OpDestroy 1])
    (mkMem ∅ 1 alloc4, []) (λ _ p, num_free_blocks p.1 + size (live_ids p.2) = 4).
Proof.
  split; [reflexivity|].
  eapply wp_mono; [apply (allocator_never_leaks 4 2 alloc4); reflexivity|].
  intros _ p (H&_). exact H.
Defined.

(** Allocating [n] blocks when that many are free gives [n] handles on
    pairwise different ids, none of which is held by a live handle, and takes
    exactly [n] ids from the pool. *)
Lemma allocate_fresh n m hs :
  mem_ok m hs → n ≤ num_free_blocks m →
  wp (allocate n) m (λ bs m', length bs = n ∧ NoDup (id_ <$> bs) ∧
    (∀ b, b ∈ bs → id_ b ∉ id_ <$> hs) ∧ num_free_blocks m' = num_free_blocks m - n ∧
    mem_ok m' (bs ++ hs)).
Proof.
  intros HM Hn. eapply wp_mono; [by apply allocate_wp|]. intros bs m' (?&?&_&?&?&?). done.
Qed.

Lemma allocate_fresh_example :
  wp (allocate 3) (mkMem ∅ 1 alloc4) (λ bs _, (id_ <$> bs) = [0; 1; 2]%Z ∧ NoDup (id_ <$> bs)).
Proof.
  assert (mem_ok (mkMem ∅ 1 alloc4) []) as HM by (by eapply (BlockAllocator_new_ok 4 2)).
  eapply wp_mono_ok; [apply (allocate_fresh 3 _ _ HM); vm_compute; lia|].
  intros bs m' Hrun (_&Hnd&_). split; [|exact Hnd]. vm_compute in Hrun. by simplify_eq.
Defined.

(** Destroying a handle returns its id to the pool exactly when it is the
    last handle on that block. *)
Lemma destroy_frees_last b m hs :
  mem_ok m (b :: hs) →
  wp (block_destroy b) m (λ _ m', mem_ok m' hs ∧
    num_free_blocks m' = num_free_blocks m + (if decide (id_ b ∈ id_ <$> hs) then 0 else 1)).
Proof.
  intros HM. eapply wp_mono; [by apply block_destroy_wp|]. intros _ m' (?&_&->). split; [done|].
  destruct (decide (Exists _ hs)) as [He|He], (decide (id_ b ∈ _)) as [Hi|Hi]; try done; exfalso.
  - apply Exists_exists in He as (x&Hx&Heq). apply Hi. rewrite <- Heq. by apply list_elem_of_fmap_2.
  - apply list_elem_of_fmap in Hi as (x&Heq&Hx). apply He, Exists_exists. by exists x.
Qed.

Lemma destroy_frees_last_example :
  let b := mkBlock 0 2 (Some 1%positive) true in
  wp (_ ← allocate 1; _ ← block_copy b; block_destroy b) (mkMem ∅ 1 alloc4)
    (λ _ m', num_free_blocks m' = 3).
Proof.
  intros b. assert (mem_ok (mkMem ∅ 1 alloc4) []) as HM by (by eapply (BlockAllocator_new_ok 4 2)).
  wp_steps. eapply wp_mono_ok; [apply (allocate_wp 1 _ _ HM); vm_compute; lia|].
  intros bs m1 Hrun (_&HM1&_). vm_compute in Hrun. simplify_eq. fold b in HM1.
  wp_steps. eapply wp_mono_ok; [apply (block_copy_wp b _ _ HM1); by left|].
  intros b' m2 Hrun (->&HM2&_). vm_compute in Hrun. simplify_eq.
  eapply wp_mono; [apply (destroy_frees_last b _ _ HM2)|]. intros _ m' [_ ->]. by vm_compute.
Defined.

(** ** The prefix cache *)

(** An example: a cache over four blocks of two tokens; the server holds two
    blocks, and cached the tokens 1, 2, 3, 4 with them at time 5. *)
Definition cache2 : PrefixCache := mkPrefixCache
  {[root_ := Node_default]}
  (<[lru_front_ := mkLink None (Some lru_back_)]> {[lru_back_ := mkLink (Some lru_front_) None]}) 4 2 0 0.
Definition world0 : World := mkWorld (mkMem ∅ 1 alloc4) cache2.
Definition held : list Block := [mkBlock 0 2 (Some 1%positive) true; mkBlock 1 2 (Some 2%positive) true].
Definition cache_four : M World unit :=
  bs ← in_mem (allocate 2); _ ← insert [1; 2; 3; 4]%Z bs 5; mret tt.
Definition world1 : World :=
  match cache_four world0 with Ok (_, w) => w | Fail _ => world0 end.

Lemma world0_ok : world_ok world0 0 [].
Proof.
  destruct (PrefixCache_new_inv 2 cache2 eq_refl) as (HC&HT&Hh&_).
  destruct (BlockAllocator_new_ok 4 2 alloc4 eq_refl) as (HM&_).
  exists []. split; [done|done| |done]. unfold world0. cbn [mem cache]. by rewrite Hh.
Qed.

Lemma world1_ok : world_ok world1 5 held.
Proof.
  assert (wp cache_four world0 (λ _ w, world_ok w 5 held)) as H.
  { unfold cache_four, in_mem. wp_steps. destruct world0_ok as (xs&[HC HT HM HB]).
    eapply wp_mono_ok; [apply (allocate_wp 2 _ _ HM); vm_compute; lia|].
    intros bs m Hrun (_&HM'&_). vm_compute in Hrun. simplify_eq. wp_steps.
    eapply wp_mono; [apply (insert_wp _ 0 held 5)|].
    - exists xs. split; simpl; [done|done| |done]. eapply mem_ok_proper; [|exact HM']. solve_Permutation.
    - lia.
    - lia.
    - done.
    - intros a w (fb&m&_&_&_&_&_&_&Hw&_). wp_steps. done. }
  unfold world1. unfold wp in H. by destruct (cache_four world0) as [[]|].
Qed.

(** C23. [match] returns the blocks of the longest cached prefix of the tokens:
    what it returns is cached for the first tokens, block by block; every cached
    prefix of the tokens is a prefix of it; it changes nothing of the content,
    and each returned block has one handle more. *)
Theorem match_longest_prefix w t F now tokens :
  world_ok w t F → (t ≤ now)%Z →
  wp (match_ tokens now) w (λ r w',
    let bs := cache_block_size (cache w) in
    length r * bs ≤ length tokens ∧
    cached (cache w) (take (length r * bs) tokens) r ∧
    (∀ t b, cached (cache w) t b → t `prefix_of` tokens → b `prefix_of` r) ∧
    (∀ t b, cached (cache w') t b ↔ cached (cache w) t b) ∧
    world_ok w' now (r ++ F)).
Proof.
  intros Hw Ht. eapply wp_mono; [by eapply match_wp|]. intros r w' (?&_&?&?&?&?&_). done.
Qed.

Lemma match_longest_prefix_witness :
  wp (match_ [1; 2; 9; 9; 9] 7)%Z world1 (λ r _, length r = 1 ∧ cached (cache world1) [1; 2]%Z r).
Proof.
  eapply wp_mono_ok; [apply (match_longest_prefix world1 5 held); [exact world1_ok|lia]|].
  intros r w' Hrun (_&Hc&_). vm_compute in Hrun. simplify_eq. split; [done|exact Hc].
Defined.

(** C24. [insert] caches the first [n] whole blocks of the tokens and nothing
    else: the [m] blocks that were already cached keep their old blocks, the
    others get the blocks of the sequence, and the result is the number of newly
    cached tokens. *)
Theorem insert_extends_cache w t F now tokens bl :
  world_ok w t F → (t ≤ now)%Z → (0 ≤ now)%Z → bl ⊆ F →
  wp (insert tokens bl now) w (λ r w',
    let bs := cache_block_size (cache w) in
    let n := Nat.min (length tokens / bs) (length bl) in
    world_ok w' now F ∧
    ∃ fb m, length fb = n ∧ m ≤ n ∧ drop m fb = drop m (take n bl) ∧
      cached (cache w) (take (m * bs) tokens) (take m fb) ∧
      (∀ t b, cached (cache w) t b → t `prefix_of` take (n * bs) tokens → length b ≤ m) ∧
      r = (n - m) * bs ∧
      (∀ t b, cached (cache w') t b ↔ cached (cache w) t b ∨
         ∃ j, j ≤ n ∧ t = take (j * bs) tokens ∧ b = take j fb)).
Proof.
  intros Hw Ht H0 Hs. eapply wp_mono; [by eapply insert_wp|].
  intros r w' (fb&m&?&?&?&?&?&?&?&_&_&?). split; [done|]. by exists fb, m.
Qed.

Lemma insert_extends_cache_witness :
  wp (insert [1; 2; 9; 9] held 7)%Z world1 (λ r w', r = 2 ∧
    ∃ fb, length fb = 2 ∧ cached (cache w') [1; 2; 9; 9]%Z fb).
Proof.
  eapply wp_mono_ok; [apply (insert_extends_cache world1 5 held); [exact world1_ok|lia|lia|done]|].
  intros r w' Hrun (_&fb&m&Hl&_&_&_&_&_&Hiff). split; [vm_compute in Hrun; by simplify_eq|].
  exists fb. split; [exact Hl|]. apply Hiff. right. exists 2. split; [vm_compute; lia|].
  split; [done|]. by rewrite take_ge by (rewrite Hl; vm_compute; lia).
Defined.

(** Round trip: after tokens were cached, [match] of the same tokens finds
    at least all the whole blocks that were handed in. *)
Lemma insert_then_match w t F now now' tokens bl :
  world_ok w t F → (t ≤ now)%Z → (0 ≤ now)%Z → (now ≤ now')%Z → bl ⊆ F →
  wp (_ ← insert tokens bl now; match_ tokens now') w (λ r w',
    Nat.min (length tokens / cache_block_size (cache w)) (length bl) ≤ length r ∧
    world_ok w' now' (r ++ F)).
Proof. apply insert_match_wp. Qed.

Lemma insert_then_match_example :
  wp (_ ← insert [7; 8; 9; 10] held 6; match_ [7; 8; 9; 10] 7)%Z world1 (λ r _, length r = 2).
Proof.
  eapply wp_mono_ok; [apply (insert_then_match world1 5 held); [exact world1_ok|lia|lia|lia|done]|].
  intros r w' Hrun _. vm_compute in Hrun. by simplify_eq.
Defined.


(** The server dropped its handles: the cache alone holds the blocks. *)
Definition world2 : World :=
  match in_mem (blocks_destroy held) world1 with Ok (_, w) => w | Fail _ => world1 end.

Lemma world2_ok : world_ok world2 5 [].
Proof.
  assert (wp (in_mem (blocks_destroy held)) world1 (λ _ w, world_ok w 5 [])) as H.
  { unfold in_mem. destruct world1_ok as (xs&[HC HT HM HB]). wp_steps. eapply wp_mono.
    { apply (blocks_destroy_wp held _ (cache_handles (nodes (cache world1)))).
      eapply mem_ok_proper; [|exact HM]. solve_Permutation. }
    intros _ m (HM'&[_ Hg]&_). exists xs. split; [done|done|by rewrite app_nil_r|].
    cbn [mem cache set_mem]. congruence. }
  unfold world2. unfold wp in H. by destruct (in_mem _ world1) as [[]|].
Qed.


(** Destroying the cache gives back every block it holds: its own checks
    pass, and only the handles of the rest of the server are left. *)
Lemma cache_destroy_releases w t F :
  world_ok w t F →
  wp PrefixCache_destroy w (λ _ w', mem_ok (mem w') F ∧
    num_free_blocks (mem w') + size (live_ids F) = num_total_blocks (mem w)).
Proof.
  intros Hw. eapply wp_mono; [by eapply PrefixCache_destroy_wp|]. intros _ w' [HM [<- _]].
  split; [done|]. by apply mem_ok_count.
Qed.

Lemma cache_destroy_releases_example :
  wp PrefixCache_destroy world2 (λ _ w', num_free_blocks (mem w') = 4).
Proof.
  eapply wp_mono; [apply (cache_destroy_releases world2 5 []); exact world2_ok|].
  intros _ w' [_ H]. assert (size (live_ids []) = 0) as E1 by reflexivity.
  assert (num_total_blocks (mem world2) = 4) as E2 by (vm_compute; reflexivity). lia.
Defined.

(** The order in which a hash set lists the children of a node does not
    matter: the search for a matching child gives the same child. *)
Lemma child_order_irrelevant w n nd tokens cs :
  0 < cache_block_size (cache w) → TreeInv (cache_block_size (cache w)) (nodes (cache w)) →
  nodes (cache w) !! n = Some nd → cs ≡ₚ children nd →
  find_child tokens cs w = find_child tokens (children nd) w.
Proof. apply find_child_order. Qed.

(** A cache whose root has two children. *)
Definition world3 : World :=
  match insert [9; 9; 8; 8]%Z held 6 world1 with Ok (_, w) => w | Fail _ => world1 end.

Lemma world3_ok : world_ok world3 6 held.
Proof.
  assert (wp (insert [9; 9; 8; 8]%Z held 6) world1 (λ _ w, world_ok w 6 held)) as H.
  { eapply wp_mono; [apply (insert_wp _ 5 held 6); [exact world1_ok|lia|lia|done]|].
    intros a w (fb&m&_&_&_&_&_&_&Hw&_). done. }
  unfold world3. unfold wp in H. by destruct (insert _ _ _ world1) as [[]|].
Qed.

Lemma child_order_irrelevant_example : ∃ nd, nodes (cache world3) !! root_ = Some nd ∧
  children nd ≠ rev (children nd) ∧
  find_child [9; 9]%Z (rev (children nd)) world3 = find_child [9; 9]%Z (children nd) world3.
Proof.
  destruct (nodes (cache world3) !! root_) as [nd|] eqn:Hn; [|by vm_compute in Hn].
  exists nd. split; [done|]. split; [vm_compute in Hn; by simplify_eq|].
  destruct world3_ok as (xs&[HC _ _ _]).
  apply (child_order_irrelevant world3 root_ nd); [apply HC|apply HC|exact Hn|].
  symmetry. apply Permutation_rev.
Defined.
