(* ===== verification/BlockManagerProps.v ===== *)
(** * Properties of the block manager

    What allocating, releasing and sharing the blocks of a sequence guarantee. *)

From stdpp Require Import base tactics list gmap strings.
From S2P Require Import Prelude Slice Block Lru PrefixCache PrefixCacheInv PrefixCacheSpec Types.
From S2P Require Import Stopping Decoder Sequence SequenceInv BlockManager BlockManagerInv BlockStore.

(** ** Examples: a clock, a manager of seven blocks of two tokens, a sequence *)

Definition ticks : Clock := Z.of_nat.
#[export] Instance ticks_monotone : MonotoneClock ticks.
Proof. split; unfold Now, ticks; lia. Qed.

Definition manager_options : BlockManagerOptions := mkBlockManagerOptions 8 2 true.
Definition manager1 : BlockManager := ok_value (BlockManager_new manager_options) eq_refl.

Lemma manager1_ok : bm_ok (clk := ticks) manager1 [].
Proof. apply (BlockManager_new_ok manager_options). apply ok_value_eq. Qed.

Definition seq_options : SequenceOptions :=
  mkSequenceOptions SamplingParameter_default (mkStoppingCriteria 4 2 false ∅ [] 0) true false false.
Definition new_sequence (ids : list Z) (H : is_ok (Sequence_new 0 [] ids 0 16 seq_options) = true) : Sequence :=
  ok_value _ H.
(** Five prompt tokens. *)
Definition seq_a : Sequence := new_sequence [1; 2; 3; 4; 5]%Z eq_refl.

Lemma new_sequence_inv ids H : ids ≠ [] → length ids < 16 → seq_inv (new_sequence ids H).
Proof.
  intros Hne Hl. destruct (Sequence_new_ok 0 [] ids 0 16 seq_options) as (s&Hs&Hinv&_); [done|done|by constructor|].
  unfold new_sequence. by rewrite (ok_value_of _ _ _ Hs).
Qed.

(** ** Allocation *)

(** C26. Allocating blocks for [n] tokens of a sequence never fails a check and
    keeps the account of all handles.  If it succeeds the blocks cover [n]
    tokens; the blocks the sequence had stay in place; a sequence that had none
    first gets the cached blocks of its longest cached prefix, and its KV position
    is moved to the end of that prefix, but always short of its last token. *)
Theorem allocate_covers {clk : Clock} `{!MonotoneClock clk} s b F n :
  seq_inv s → bm_ok b (blocks_ s ++ F) → (N.of_nat (n + bsz b) < 2 ^ 32)%N →
  wp (allocate_blocks_for n) (s, b) (λ r p,
    bm_ok p.2 (blocks_ p.1 ++ F) ∧ token_ids p.1 = token_ids s ∧
    blocks_ s `prefix_of` blocks_ p.1 ∧ (r = true → n ≤ length (blocks_ p.1) * bsz b) ∧
    (blocks_ s ≠ [] → num_kv_cache_tokens_ p.1 = num_kv_cache_tokens_ s) ∧
    (blocks_ s = [] → ∃ shared, shared `prefix_of` blocks_ p.1 ∧
       (shared ≠ [] → cached (cache (world b)) (take (length shared * bsz b) (token_ids s)) shared ∧
          num_kv_cache_tokens_ p.1 = shared_kv (length shared * bsz b) (num_tokens_ s)) ∧
       (enable_prefix_cache (bm_options_ b) = true → ∀ t bl, cached (cache (world b)) t bl →
          t `prefix_of` token_ids s → length bl ≤ length shared))).
Proof.
  intros Hs Hb Hn. eapply wp_mono; [by apply allocate_blocks_for_wp|].
  intros r [s' b'] (s1&b1&Hnil&Hsome&Hal). cbn [fst snd] in *.
  assert (bsz b1 = bsz b ∧ token_ids s1 = token_ids s ∧ blocks_ s `prefix_of` blocks_ s1 ∧
    (blocks_ s ≠ [] → num_kv_cache_tokens_ s1 = num_kv_cache_tokens_ s)) as (Hz&Ht&Hp&Hk).
  { destruct (decide (blocks_ s = [])) as [Hd|Hd]; [|by destruct (Hsome Hd) as [-> ->]].
    pose proof (Hnil Hd) as Hsh. rewrite (sh_seq _ _ _ _ _ Hsh), Hd.
    destruct (bm_same_facts _ _ (sh_same _ _ _ _ _ Hsh)) as (?&_). split_and!; try done. apply prefix_nil. }
  pose proof (al_seq _ _ _ _ _ _ _ Hal) as Heq. pose proof (al_prefix _ _ _ _ _ _ _ Hal) as Hp'.
  split_and!.
  - apply Hal.
  - rewrite Heq. exact Ht.
  - by etrans.
  - intros Hr. rewrite <- Hz. by apply Hal.
  - intros Hd. rewrite Heq. by apply Hk.
  - intros Hd. pose proof (Hnil Hd) as Hsh. exists (blocks_ s1). split_and!; [done|..].
    + intros Hne. split; [by apply Hsh|]. rewrite Heq. by apply Hsh.
    + apply Hsh.
Qed.

Lemma allocate_covers_witness :
  wp (allocate_blocks_for (clk := ticks) 5) (seq_a, manager1) (λ r p, r = true ∧ 5 ≤ length (blocks_ p.1) * 2).
Proof.
  eapply wp_mono_ok; [apply (allocate_covers (clk := ticks) seq_a manager1 [])|].
  - apply new_sequence_inv; [done|simpl; lia].
  - exact manager1_ok.
  - vm_compute. reflexivity.
  - intros r p Hrun (_&_&_&Hr&_). assert (r = true) as -> by (vm_compute in Hrun; by simplify_eq).
    split; [done|]. by apply Hr.
Defined.

(** ** Releasing and sharing again *)


(** The sequence after all of its prompt was processed. *)
Definition held_a : Sequence * BlockManager :=
  (ok_value ((_ ← allocate_blocks_for (clk := ticks) 5; on_fst (commit_kv_cache 5)) (seq_a, manager1)) eq_refl).2.

Lemma held_a_ok : seq_inv held_a.1 ∧ bm_ok (clk := ticks) held_a.2 (blocks_ held_a.1 ++ []).
Proof.
  unfold held_a. apply (wp_value _ _ (λ _ p, seq_inv p.1 ∧ bm_ok (clk := ticks) p.2 (blocks_ p.1 ++ []))).
  wp_steps. eapply wp_mono_ok; [apply (allocate_blocks_for_wp seq_a manager1 [])|].
  - apply new_sequence_inv; [done|simpl; lia].
  - exact manager1_ok.
  - vm_compute. reflexivity.
  - intros r [s b] Hrun (s1&b1&Hnil&_&Hal). pose proof (Hnil eq_refl) as Hsh. simpl in *.
    apply wp_on_fst. unfold commit_kv_cache. wp_steps; [vm_compute in Hrun; by simplify_eq|].
    split; [|apply Hal]. vm_compute in Hrun. simplify_eq.
    assert (seq_inv seq_a) as Hi by (apply new_sequence_inv; [done|simpl; lia]).
    simpl. split; apply Hi || (vm_compute; lia).
Qed.

