(* ===== verification/KvCoherence.v ===== *)
(** * The content of the KV cache

    The block manager decides which blocks a sequence shares, reuses and gives back;
    the network reads the keys and values of earlier tokens at the slots of the
    sequence and writes those of new tokens there.  This file puts the two together:
    the operations of [src/memory/block_manager.cpp] and [src/request/sequence.cpp] on
    several sequences, in any order, and a memory with one entry per slot. *)

From Stdlib Require Import PeanoNat.
From stdpp Require Import base tactics list gmap strings relations.
From S2P Require Import Prelude Slice Block Lru PrefixCache PrefixCacheInv PrefixCacheSpec Types.
From S2P Require Import Stopping Decoder Sequence SequenceInv BlockManager BlockManagerInv BlockStore.
From S2P Require Import BlockManagerProps.

(** ** The network *)

(** [net ctx tokens]: the entries of [tokens] behind the entries [ctx]. *)
Class Network (V : Type) := net : list V → list Z → list V.

(** Attention is causal: the entries of a text can be computed in chunks. *)
Class NetworkLaws (V : Type) `{Network V} := {
  net_length ctx tokens : length (net ctx tokens) = length tokens;
  net_chunks a b : net [] (a ++ b) = net [] a ++ net (net [] a) b;
}.

(** ** The system *)

Record KvSystem (V : Type) := mkKvSystem {
  ks_manager : BlockManager;
  ks_seqs : list Sequence;
  ks_memory : Z → V;
}.
Arguments mkKvSystem {V} _ _ _.
Arguments ks_manager {V} _.
Arguments ks_seqs {V} _.
Arguments ks_memory {V} _ _.

Section system.
Context {clk : Clock} {V : Type} `{Network V}.

(** The entries are written one after the other. *)
Fixpoint kv_write (slots : list Z) (vs : list V) (m : Z → V) : Z → V :=
  match slots, vs with
  | x :: slots, v :: vs => kv_write slots vs (λ y, if decide (y = x) then v else m y)
  | _, _ => m
  end.

(** The steps: a new sequence, the operations of the block manager on a sequence, a
    run of the network on the next [n] tokens of a sequence, a new token, and the
    end of a sequence without blocks. *)
Inductive kv_step : KvSystem V → KvSystem V → Prop :=
  | kv_new b ss m index prompt ids t cap opt s :
      ids ≠ [] → length ids < cap → criteria_ok (stopping_criteria opt) →
      Sequence_new index prompt ids t cap opt = Ok s →
      kv_step (mkKvSystem b ss m) (mkKvSystem b (ss ++ [s]) m)
  | kv_share b ss m i s s' b' :
      ss !! i = Some s → blocks_ s = [] → allocate_shared_blocks_for (s, b) = Ok (tt, (s', b')) →
      kv_step (mkKvSystem b ss m) (mkKvSystem b' (<[i:=s']> ss) m)
  | kv_allocate b ss m i s n r s' b' :
      ss !! i = Some s → (N.of_nat (n + bsz b) < 2 ^ 32)%N → allocate_blocks_for n (s, b) = Ok (r, (s', b')) →
      kv_step (mkKvSystem b ss m) (mkKvSystem b' (<[i:=s']> ss) m)
  | kv_run b ss m i s n old new s' :
      ss !! i = Some s → num_kv_cache_tokens s + n ≤ num_tokens_ s →
      kv_cache_slots 0 (num_kv_cache_tokens s) s = Ok (old, s) →
      kv_cache_slots (num_kv_cache_tokens s) (num_kv_cache_tokens s + n) s = Ok (new, s) →
      commit_kv_cache n s = Ok (tt, s') →
      kv_step (mkKvSystem b ss m)
        (mkKvSystem b (<[i:=s']> ss)
           (kv_write new (net (m <$> old) (take n (drop (num_kv_cache_tokens s) (token_ids s)))) m))
  | kv_append b ss m i s token s' :
      ss !! i = Some s → top_ok s token → append_token token s = Ok (tt, s') →
      kv_step (mkKvSystem b ss m) (mkKvSystem b (<[i:=s']> ss) m)
  | kv_cache b ss m i s s' b' :
      ss !! i = Some s → cache_blocks_for (s, b) = Ok (tt, (s', b')) →
      kv_step (mkKvSystem b ss m) (mkKvSystem b' (<[i:=s']> ss) m)
  | kv_release b ss m i s s' b' :
      ss !! i = Some s → release_blocks_for (s, b) = Ok (tt, (s', b')) →
      kv_step (mkKvSystem b ss m) (mkKvSystem b' (<[i:=s']> ss) m)
  | kv_drop b ss m i s :
      ss !! i = Some s → blocks_ s = [] → kv_step (mkKvSystem b ss m) (mkKvSystem b (delete i ss) m).

(** A new manager without sequences; the memory holds anything. *)
Definition kv_start (o : BlockManagerOptions) (st : KvSystem V) : Prop :=
  BlockManager_new o = Ok (ks_manager st) ∧ ks_seqs st = [] ∧
  (Z.of_nat (opt_num_blocks o) * Z.of_nat (opt_block_size o) ≤ 2 ^ 31)%Z.
End system.

(** ** Slots *)

Lemma slot_of_id bl bs p x : 0 < bs → slot_of bl bs p = Some x →
  ∃ y, bl !! (p / bs) = Some y ∧ id_ y = (x / Z.of_nat bs)%Z ∧ Z.of_nat (p `mod` bs) = (x `mod` Z.of_nat bs)%Z.
Proof.
  intros Hbs Hs. apply bind_Some in Hs as (y&Hy&E). injection E as <-. exists y.
  pose proof (Nat.mod_upper_bound p bs ltac:(lia)). split_and!; [done|..].
  - rewrite Z.div_add_l, Z.div_small; lia.
  - rewrite Z.add_comm, Z.mod_add, Z.mod_small; lia.
Qed.

Lemma slot_of_lt bl bs p x : 0 < bs → slot_of bl bs p = Some x → p < length bl * bs.
Proof.
  intros Hbs Hs. apply slot_of_id in Hs as (y&Hy&_); [|done]. apply lookup_lt_Some in Hy.
  pose proof (Nat.div_mod_eq p bs). pose proof (Nat.mod_upper_bound p bs ltac:(lia)). nia.
Qed.

Lemma slot_of_prefix bl bl' bs p x : slot_of bl bs p = Some x → slot_of (bl ++ bl') bs p = Some x.
Proof. unfold slot_of. intros (y&Hy&E)%bind_Some. by rewrite (lookup_app_l_Some _ _ _ _ Hy). Qed.

Lemma slot_of_same bl bl' bs p : bl !! (p / bs) = bl' !! (p / bs) → slot_of bl bs p = slot_of bl' bs p.
Proof. unfold slot_of. by intros ->. Qed.

(** A cached block is one of the cache's. *)
Lemma descends_handles bs ns n t b x : descends bs ns n t b → x ∈ b → x ∈ cache_handles ns.
Proof.
  intros Hd Hx. induction Hd as [n|n nd c cd k Hn Hc Hcd Hk|n nd c cd t b Hn Hc Hcd Hd IH].
  - by apply not_elem_of_nil in Hx.
  - eapply cache_handles_elem; [exact Hcd|]. by eapply elem_of_sublist, sublist_take.
  - apply elem_of_app in Hx as [Hx|Hx]; [by eapply cache_handles_elem|by apply IH].
Qed.

(** ** The invariant *)

Section coherence.
Context {clk : Clock} {mono : MonotoneClock clk} {V : Type} `{NetworkLaws V}.
Implicit Types (m : Z → V) (b : BlockManager) (s : Sequence) (ss : list Sequence) (st : KvSystem V).

Lemma net_take n tokens p : p < n → n ≤ length tokens → net [] (take n tokens) !! p = net [] tokens !! p.
Proof.
  intros Hp Hn. rewrite <-(take_drop n tokens) at 2. rewrite net_chunks, lookup_app_l; [done|].
  rewrite net_length, length_take. lia.
Qed.
Lemma net_take_all n tokens : n ≤ length tokens → net [] (take n tokens) = take n (net [] tokens).
Proof.
  intros Hn. rewrite <-(take_drop n tokens) at 2. rewrite net_chunks. rewrite take_app_length'; [done|].
  rewrite net_length, length_take. lia.
Qed.

(** The first [n] positions of the blocks hold the entries of the tokens. *)
Definition holds_rows m (bs : nat) (bl : list Block) (tokens : list Z) (n : nat) : Prop :=
  ∀ p x, p < n → slot_of bl bs p = Some x → net [] tokens !! p = Some (m x).

(** The first [f] blocks of a sequence may be shared; they are full, and all but the
    last of their tokens are behind the KV position. *)
Record seq_good m b s (f : nat) : Prop := {
  sg_inv : seq_inv s;
  sg_engine : engine_type_ s = LLM;
  sg_order : kv_ssm (num_kv_cache_tokens_ s) ≤ kv_llm (num_kv_cache_tokens_ s);
  sg_cover : kv_llm (num_kv_cache_tokens_ s) ≤ length (blocks_ s) * bsz b;
  sg_frozen : f ≤ length (blocks_ s);
  sg_full : f * bsz b ≤ num_tokens_ s;
  sg_kv : f * bsz b ≤ S (kv_llm (num_kv_cache_tokens_ s));
  sg_rows : holds_rows m (bsz b) (blocks_ s) (token_ids s) (Nat.max (kv_llm (num_kv_cache_tokens_ s)) (f * bsz b));
}.

(** The other blocks are its own. *)
Record exclusive b ss (i : nat) s (f : nat) : Prop := {
  ex_nodup : NoDup (id_ <$> drop f (blocks_ s));
  ex_cache : ∀ x, x ∈ drop f (blocks_ s) → id_ x ∉ (id_ <$> bm_handles b);
  ex_frozen : ∀ x, x ∈ drop f (blocks_ s) → id_ x ∉ (id_ <$> take f (blocks_ s));
  ex_others : ∀ x i' s' y, x ∈ drop f (blocks_ s) → i' ≠ i → ss !! i' = Some s' → y ∈ blocks_ s' → id_ y ≠ id_ x;
}.

Definition all_blocks ss : list Block := concat (blocks_ <$> ss).
Definition others ss (i : nat) : list Block := all_blocks (take i ss) ++ all_blocks (drop (S i) ss).

Record kv_inv st (fs : list nat) : Prop := {
  ki_ok : bm_ok (ks_manager st) (all_blocks (ks_seqs st));
  ki_fit : (Z.of_nat (num_total_blocks (bm_mem (ks_manager st))) * Z.of_nat (bsz (ks_manager st)) ≤ 2 ^ 31)%Z;
  ki_length : length fs = length (ks_seqs st);
  ki_seq : ∀ i s f, ks_seqs st !! i = Some s → fs !! i = Some f → seq_good (ks_memory st) (ks_manager st) s f;
  ki_excl : ∀ i s f, ks_seqs st !! i = Some s → fs !! i = Some f → exclusive (ks_manager st) (ks_seqs st) i s f;
  ki_cache : ∀ t bl, bm_cached (ks_manager st) t bl →
    holds_rows (ks_memory st) (bsz (ks_manager st)) bl t (length bl * bsz (ks_manager st));
}.

Lemma all_blocks_split ss i s s' : ss !! i = Some s → all_blocks ss ≡ₚ blocks_ s ++ others ss i ∧
  all_blocks (<[i:=s']> ss) ≡ₚ blocks_ s' ++ others ss i.
Proof.
  intros Hi. unfold others, all_blocks.
  assert (∀ x, concat (blocks_ <$> take i ss ++ x :: drop (S i) ss) ≡ₚ
    blocks_ x ++ concat (blocks_ <$> take i ss) ++ concat (blocks_ <$> drop (S i) ss)) as Hx.
  { intros x. rewrite fmap_app, concat_app, fmap_cons. simpl. apply Permutation_app_swap_app. }
  rewrite insert_take_drop by (by eapply lookup_lt_Some). rewrite <-!Hx. by rewrite (take_drop_middle ss i s Hi).
Qed.

Lemma elem_of_all_blocks ss y : y ∈ all_blocks ss ↔ ∃ s, s ∈ ss ∧ y ∈ blocks_ s.
Proof.
  unfold all_blocks. split.
  - intros Hy. apply list_elem_of_In, in_concat in Hy as (l&Hl&Hy). apply list_elem_of_In in Hl, Hy.
    apply list_elem_of_fmap in Hl as (s&->&Hs). by exists s.
  - intros (s&Hs&Hy). apply list_elem_of_In, in_concat. exists (blocks_ s). split; apply list_elem_of_In; [|done].
    by apply list_elem_of_fmap_2.
Qed.

Lemma elem_of_others ss i i' s' y : i' ≠ i → ss !! i' = Some s' → y ∈ blocks_ s' → y ∈ others ss i.
Proof.
  intros Hne Hs Hy. unfold others. rewrite elem_of_app, !elem_of_all_blocks. destruct (decide (i' < i)).
  - left. exists s'. split; [|done]. apply (list_elem_of_lookup_2 _ i'). by rewrite lookup_take_lt.
  - right. exists s'. split; [|done]. apply (list_elem_of_lookup_2 _ (i' - S i)). rewrite lookup_drop. rewrite <-Hs. f_equal. lia.
Qed.

Lemma others_elem ss i y : y ∈ others ss i → ∃ i' s', i' ≠ i ∧ ss !! i' = Some s' ∧ y ∈ blocks_ s'.
Proof.
  unfold others. rewrite elem_of_app, !elem_of_all_blocks. intros [(s'&(j&Hj)%list_elem_of_lookup&Hy)|(s'&(j&Hj)%list_elem_of_lookup&Hy)].
  - exists j, s'. pose proof (lookup_lt_Some _ _ _ Hj) as Hl. rewrite length_take in Hl. rewrite lookup_take_lt in Hj by lia. split_and!; [lia|done|done].
  - exists (S i + j), s'. rewrite lookup_drop in Hj. split_and!; [lia|done|done].
Qed.

(** ** Changing one sequence and the manager *)

(** The handles of the new cache and the blocks of the new sequence come from the old
    cache, the old sequence or the free blocks. *)
Record update_ok b ss (i : nat) s b' s' (f' : nat) : Prop := {
  up_size : bsz b' = bsz b;
  up_total : num_total_blocks (bm_mem b') = num_total_blocks (bm_mem b);
  up_handles : ∀ y, y ∈ bm_handles b' → id_ y ∈ (id_ <$> bm_handles b ++ blocks_ s);
  up_blocks : ∀ y, y ∈ blocks_ s' → id_ y ∈ (id_ <$> bm_handles b ++ blocks_ s) ∨ id_ y ∉ (id_ <$> others ss i);
  up_nodup : NoDup (id_ <$> drop f' (blocks_ s'));
  up_cache : ∀ x, x ∈ drop f' (blocks_ s') → id_ x ∉ (id_ <$> bm_handles b');
  up_frozen : ∀ x, x ∈ drop f' (blocks_ s') → id_ x ∉ (id_ <$> take f' (blocks_ s'));
  up_others : ∀ x, x ∈ drop f' (blocks_ s') → id_ x ∉ (id_ <$> others ss i);
}.

Lemma elem_of_ids (y : Block) (l : list Block) : y ∈ l → id_ y ∈ (id_ <$> l).
Proof. apply list_elem_of_fmap_2. Qed.

Lemma ids_elem k (l : list Block) : k ∈ (id_ <$> l) → ∃ y, y ∈ l ∧ id_ y = k.
Proof. intros (y&->&Hy)%list_elem_of_fmap. by exists y. Qed.

Lemma elem_of_take_le {B} a c (l : list B) y : a ≤ c → y ∈ take a l → y ∈ take c l.
Proof.
  intros Hac (j&Hj)%list_elem_of_lookup. pose proof (lookup_lt_Some _ _ _ Hj) as Hl. rewrite length_take in Hl.
  rewrite lookup_take_lt in Hj by lia. apply (list_elem_of_lookup_2 _ j). by rewrite lookup_take_lt by lia.
Qed.

Lemma drop_blocks f s x : x ∈ drop f (blocks_ s) → x ∈ blocks_ s.
Proof. intros Hx. by eapply elem_of_sublist, sublist_drop. Qed.

(** A block of another sequence that is its own stays so. *)
Lemma exclusive_update b ss fs i s b' s' f' i2 s2 f2 m : kv_inv (mkKvSystem b ss m) fs → ss !! i = Some s →
  update_ok b ss i s b' s' f' → i2 ≠ i → ss !! i2 = Some s2 → fs !! i2 = Some f2 → exclusive b' (<[i:=s']> ss) i2 s2 f2.
Proof.
  intros HI Hi Hup Hne Hi2 Hf2. destruct (ki_excl _ _ HI i2 s2 f2 Hi2 Hf2) as [N C Fz O]. simpl in *.
  assert (∀ x k, x ∈ drop f2 (blocks_ s2) → k ∈ (id_ <$> bm_handles b ++ blocks_ s) → k ≠ id_ x) as Hold.
  { intros x k Hx Hk ->. rewrite fmap_app in Hk. apply elem_of_app in Hk as [Hk|Hk]; [by eapply C|].
    apply ids_elem in Hk as (y&Hy&E). by eapply (O x i s y). }
  split; [done| |done|].
  - intros x Hx (y&Hy&E)%ids_elem. apply (up_handles _ _ _ _ _ _ _ Hup) in Hy. by eapply Hold.
  - intros x i' t y Hx Hi' Ht Hy. destruct (decide (i' = i)) as [->|Hn].
    + rewrite list_lookup_insert_eq in Ht by (by eapply lookup_lt_Some). injection Ht as <-.
      destruct (up_blocks _ _ _ _ _ _ _ Hup y Hy) as [Hk|Hk]; [by eapply Hold|]. intros E. rewrite E in Hk.
      apply Hk, elem_of_ids. eapply elem_of_others; [exact Hne|exact Hi2|]. by eapply drop_blocks.
    + rewrite list_lookup_insert_ne in Ht by done. by eapply O.
Qed.

Lemma kv_inv_update b ss fs i s f b' s' f' m : kv_inv (mkKvSystem b ss m) fs → ss !! i = Some s → fs !! i = Some f →
  update_ok b ss i s b' s' f' → bm_ok b' (blocks_ s' ++ others ss i) → seq_good m b' s' f' →
  (∀ t bl, bm_cached b' t bl → holds_rows m (bsz b') bl t (length bl * bsz b')) →
  kv_inv (mkKvSystem b' (<[i:=s']> ss) m) (<[i:=f']> fs).
Proof.
  intros HI Hi Hf Hup Hok Hg Hc. pose proof HI as [_ Hfit Hlen Hseq _ _]. simpl in *. split; simpl.
  - by rewrite (proj2 (all_blocks_split ss i s s' Hi)).
  - by rewrite (up_total _ _ _ _ _ _ _ Hup), (up_size _ _ _ _ _ _ _ Hup).
  - by rewrite !length_insert.
  - intros i2 s2 f2 H1 H2. destruct (decide (i2 = i)) as [->|Hne].
    + rewrite list_lookup_insert_eq in H1 by (by eapply lookup_lt_Some). rewrite list_lookup_insert_eq in H2 by (by eapply lookup_lt_Some).
      by simplify_eq.
    + rewrite list_lookup_insert_ne in H1 by done. rewrite list_lookup_insert_ne in H2 by done. destruct (Hseq _ _ _ H1 H2). rewrite <-(up_size _ _ _ _ _ _ _ Hup) in *. by split.
  - intros i2 s2 f2 H1 H2. destruct (decide (i2 = i)) as [->|Hne].
    + rewrite list_lookup_insert_eq in H1 by (by eapply lookup_lt_Some). rewrite list_lookup_insert_eq in H2 by (by eapply lookup_lt_Some).
      simplify_eq. destruct Hup as [_ _ _ _ U1 U2 U3 U4]. split; [done..|]. intros x i' t y Hx Hi' Ht Hy E.
      apply (U4 x Hx). rewrite <-E. apply elem_of_ids. rewrite list_lookup_insert_ne in Ht by done. by eapply elem_of_others.
    + rewrite list_lookup_insert_ne in H1 by done. rewrite list_lookup_insert_ne in H2 by done. by eapply exclusive_update.
  - done.
Qed.

(** ** The steps of the manager *)

Lemma sequence_at st fs i s : kv_inv st fs → ks_seqs st !! i = Some s → ∃ f, fs !! i = Some f ∧
  seq_good (ks_memory st) (ks_manager st) s f ∧ exclusive (ks_manager st) (ks_seqs st) i s f ∧
  bm_ok (ks_manager st) (blocks_ s ++ others (ks_seqs st) i).
Proof.
  intros HI Hi. destruct (lookup_lt_is_Some_2 fs i) as [f Hf].
  { rewrite (ki_length _ _ HI). by eapply lookup_lt_Some. }
  exists f. split_and!; [done|by eapply ki_seq|by eapply ki_excl|].
  rewrite <-(proj1 (all_blocks_split _ i s s Hi)). apply HI.
Qed.

Lemma exclusive_others b ss i s f x : exclusive b ss i s f → x ∈ drop f (blocks_ s) → id_ x ∉ (id_ <$> others ss i).
Proof. intros [_ _ _ O] Hx (y&Hy&E)%ids_elem. apply others_elem in Hy as (i'&s'&Hne&Hs&Hy). by eapply (O x i' s' y). Qed.

Lemma no_blocks_update b ss i s b' s' : bsz b' = bsz b → num_total_blocks (bm_mem b') = num_total_blocks (bm_mem b) →
  (∀ y, y ∈ bm_handles b' → id_ y ∈ (id_ <$> bm_handles b ++ blocks_ s)) →
  (∀ y, y ∈ blocks_ s' → id_ y ∈ (id_ <$> bm_handles b ++ blocks_ s)) → update_ok b ss i s b' s' (length (blocks_ s')).
Proof.
  intros Hz Ht Hh Hb. split; rewrite ?drop_all; try done; try (intros x Hx; by apply not_elem_of_nil in Hx).
  - intros y Hy. left. by apply Hb.
  - constructor.
Qed.

Lemma kv_share_inv b ss fs m i s s' b' : kv_inv (mkKvSystem b ss m) fs → ss !! i = Some s → blocks_ s = [] →
  shared_post s b (others ss i) s' b' → kv_inv (mkKvSystem b' (<[i:=s']> ss) m) (<[i:=length (blocks_ s')]> fs).
Proof.
  intros HI Hi Hnil Hsh. destruct (sequence_at _ _ i s HI Hi) as (f&Hf&[G1 G2 G3 G4 G5 G6 G7 G8]&_&Hb). cbn [ks_manager ks_seqs ks_memory] in *.
  destruct (bm_same_facts _ _ (sh_same _ _ _ _ _ Hsh)) as (Hz&Ht&_).
  pose proof (sh_seq _ _ _ _ _ Hsh) as Hs'. pose proof (sh_len _ _ _ _ _ Hsh) as Hlen. pose proof (sh_handles _ _ _ _ _ Hsh) as Hh.
  eapply kv_inv_update; [exact HI|exact Hi|exact Hf| |apply Hsh| |].
  - apply no_blocks_update; [done|done|..].
    + intros y Hy. rewrite Hh in Hy. rewrite fmap_app. apply elem_of_app. left. by apply elem_of_ids.
    + intros y Hy. rewrite fmap_app. apply elem_of_app. left. apply elem_of_ids.
      assert (blocks_ s' ≠ []) as Hne by (intros E; rewrite E in Hy; by apply not_elem_of_nil in Hy).
      destruct (sh_content _ _ _ _ _ Hsh Hne) as [_ Hc]. by eapply descends_handles.
  - destruct (decide (blocks_ s' = [])) as [Hn|Hn].
    { destruct (sh_none _ _ _ _ _ Hsh Hn) as [-> _]. rewrite Hn. split; rewrite ?Hz; try done; try (simpl; lia).
      intros p x Hp Hx. rewrite Hn in Hx. by apply bind_Some in Hx as (?&?&_). }
    pose proof (sh_kv _ _ _ _ _ Hsh Hn) as Hk. destruct (sh_content _ _ _ _ _ Hsh Hn) as [_ Hc].
    pose proof (ki_cache _ _ HI _ _ Hc) as Hrows. cbn [ks_manager ks_memory] in Hrows.
    assert (length (token_ids s) = num_tokens_ s) as Htok by (unfold token_ids; rewrite length_take; pose proof (si_capacity _ G1); lia).
    assert (0 < length (blocks_ s')) by (destruct (blocks_ s'); [done|simpl; lia]).
    pose proof (bm_ok_pos _ _ Hb) as Hpos. pose proof (si_prompt _ G1).
    assert (∃ k, num_kv_cache_tokens_ s' = mkKvTokens k k ∧ k ≤ length (blocks_ s') * bsz b ∧ k ≤ num_tokens_ s ∧ length (blocks_ s') * bsz b ≤ S k) as (k&Ek&K1&K2&K3).
    { rewrite Hk. unfold shared_kv. eexists. split; [done|]. case_decide; nia. }
    rewrite Ek in Hs'. split; rewrite ?Hz, ?Ek; simpl; try lia.
    + rewrite Hs'. apply seq_inv_set_kv; [by apply seq_inv_set_blocks|simpl; lia..].
    + by rewrite Hs'.
    + rewrite Hs'. simpl. lia.
    + intros p x Hp Hx. assert (token_ids s' = token_ids s) as -> by (rewrite Hs'; done).
      rewrite <-(net_take (length (blocks_ s') * bsz b)) by lia. apply Hrows; [lia|done].
  - intros t bl Hc. rewrite Hz. apply (ki_cache _ _ HI). by apply (sh_cached _ _ _ _ _ Hsh).
Qed.

Lemma kv_allocate_inv b ss fs m i s f n r s' b' : kv_inv (mkKvSystem b ss m) fs → ss !! i = Some s → fs !! i = Some f →
  alloc_post s b (others ss i) n r s' b' → kv_inv (mkKvSystem b' (<[i:=s']> ss) m) (<[i:=f]> fs).
Proof.
  intros HI Hi Hf Hal. destruct (sequence_at _ _ i s HI Hi) as (f0&Hf0&[G1 G2 G3 G4 G5 G6 G7 G8]&HE&Hb).
  simplify_eq. pose proof HE as [E1 E2 E3 E4].
  cbn [ks_manager ks_seqs ks_memory] in *. destruct (bm_same_facts _ _ (al_same _ _ _ _ _ _ _ Hal)) as (Hz&Ht&_).
  destruct (al_fresh _ _ _ _ _ _ _ Hal) as (nb&Hnb&Hnd&Hfresh). destruct (al_loses _ _ _ _ _ _ _ Hal) as [Hlc Hlh].
  pose proof (al_seq _ _ _ _ _ _ _ Hal) as Hs'.
  assert (drop f (blocks_ s') = drop f (blocks_ s) ++ nb) as Hdrop by (by rewrite Hnb, drop_app_le).
  assert (take f (blocks_ s') = take f (blocks_ s)) as Htake by (by rewrite Hnb, take_app_le).
  assert (∀ x, x ∈ nb → (id_ x ∉ (id_ <$> bm_handles b')) ∧ (id_ x ∉ (id_ <$> blocks_ s)) ∧ (id_ x ∉ (id_ <$> others ss i))) as Hfr.
  { intros x Hx. specialize (Hfresh x Hx). rewrite !fmap_app in Hfresh. set_solver. }
  eapply kv_inv_update; [exact HI|exact Hi|exact Hf| |apply Hal| |].
  - split; [done|done|..].
    + intros y Hy. apply elem_of_ids, elem_of_app. left. by apply Hlh.
    + intros y Hy. rewrite Hnb in Hy. apply elem_of_app in Hy as [Hy|Hy]; [left; apply elem_of_ids, elem_of_app; by right|right; by apply Hfr].
    + rewrite Hdrop, fmap_app. apply NoDup_app. split_and!; [done| |done].
      intros k (x&Hx&<-)%ids_elem (y&Hy&E)%ids_elem. destruct (Hfr y Hy) as (_&Hny&_). apply Hny. rewrite E. apply elem_of_ids.
      by eapply drop_blocks.
    + intros x Hx. rewrite Hdrop in Hx. apply elem_of_app in Hx as [Hx|Hx]; [|by apply Hfr].
      intros (y&Hy&E)%ids_elem. apply (E2 x Hx). rewrite <-E. apply elem_of_ids. by apply Hlh.
    + intros x Hx. rewrite Htake. rewrite Hdrop in Hx. apply elem_of_app in Hx as [Hx|Hx]; [by apply E3|].
      intros (y&Hy&E)%ids_elem. destruct (Hfr x Hx) as (_&Hny&_). apply Hny. rewrite <-E. apply elem_of_ids.
      by eapply elem_of_sublist, sublist_take.
    + intros x Hx. rewrite Hdrop in Hx. apply elem_of_app in Hx as [Hx|Hx]; [|by apply Hfr].
      by eapply exclusive_others.
  - assert (length (blocks_ s) ≤ length (blocks_ s')) as Hle by (rewrite Hnb, length_app; lia).
    assert (token_ids s' = token_ids s ∧ num_tokens_ s' = num_tokens_ s ∧ num_kv_cache_tokens_ s' = num_kv_cache_tokens_ s) as (Et&En&Ek)
      by (rewrite Hs'; done).
    split; rewrite ?Hz, ?Et, ?En, ?Ek; try done; try lia.
    + rewrite Hs'. by apply seq_inv_set_blocks.
    + by rewrite Hs'.
    + nia.
    + intros p x Hp Hx. apply G8; [done|]. rewrite <-Hx. symmetry. apply slot_of_same. rewrite Hnb, lookup_app_l; [done|].
      apply Nat.Div0.div_lt_upper_bound. nia.
  - intros t bl Hc. rewrite Hz. apply (ki_cache _ _ HI). by apply Hlc.
Qed.

(** Caching the blocks of a sequence; afterwards they are kept or released. *)
Lemma kv_gains_frozen s b b' f m : seq_good m b s f → bm_gains s b b' → ∃ f', f ≤ f' ≤ length (blocks_ s) ∧ seq_good m b s f' ∧
  ∀ y, y ∈ bm_handles b' → y ∈ bm_handles b ∨ y ∈ take f' (blocks_ s).
Proof.
  intros [G1 G2 G3 G4 G5 G6 G7 G8] (fb&k&[Hk Hfb]&Hdrop&_&Hh&_). pose proof (si_kv _ G1) as [Hkv _].
  assert (kv_common (num_kv_cache_tokens_ s) ≤ kv_llm (num_kv_cache_tokens_ s)) as Hc by (unfold kv_common; case_decide; lia).
  pose proof (Nat.Div0.mul_div_le (kv_common (num_kv_cache_tokens_ s)) (bsz b)) as Hd.
  assert (length fb * bsz b ≤ kv_llm (num_kv_cache_tokens_ s)) as Hl by nia.
  exists (Nat.max f (length fb)). split_and!; [lia|lia|split; try done; try nia|].
  - intros p x Hp Hx. apply G8; [nia|done].
  - intros y Hy. rewrite Hh in Hy. apply elem_of_app in Hy as [Hy|Hy]; [right|by left]. rewrite Hdrop in Hy.
    apply (elem_of_sublist _ (take (length fb) (blocks_ s))) in Hy; [|apply sublist_drop].
    eapply elem_of_take_le; [|exact Hy]. lia.
Qed.

(** What is cached afterwards is right. *)
Lemma kv_gains_cache b ss fs m i s f b' : kv_inv (mkKvSystem b ss m) fs → ss !! i = Some s → seq_good m b s f → bm_gains s b b' → bsz b' = bsz b →
  ∀ t bl, bm_cached b' t bl → holds_rows m (bsz b') bl t (length bl * bsz b').
Proof.
  intros HI Hi [G1 G2 G3 G4 G5 G6 G7 G8] (fb&k&[Hk Hfb]&Hdrop&Hck&_&Hc) Hz t bl Hbl. rewrite Hz.
  apply Hc in Hbl as [Hbl|(j&Hj&->&->)]; [by apply (ki_cache _ _ HI)|].
  pose proof (si_kv _ G1) as [Hkv _]. pose proof (si_capacity _ G1) as Hcap.
  assert (length (token_ids s) = num_tokens_ s) as Htok by (unfold token_ids; rewrite length_take; lia).
  assert (kv_common (num_kv_cache_tokens_ s) ≤ kv_llm (num_kv_cache_tokens_ s)) as Hcm by (unfold kv_common; case_decide; lia).
  pose proof (Nat.Div0.mul_div_le (kv_common (num_kv_cache_tokens_ s)) (bsz b)) as Hd.
  assert (length fb * bsz b ≤ kv_llm (num_kv_cache_tokens_ s)) as Hl by nia.
  intros p x Hp Hx. rewrite length_take in Hp. rewrite net_take by nia.
  assert (bsz b ≠ 0) as Hne by lia. assert (p / bsz b < j) as Hpj by (apply Nat.Div0.div_lt_upper_bound; nia).
  destruct (decide (p / bsz b < k)) as [Hpk|Hpk].
  - pose proof (ki_cache _ _ HI _ _ Hck) as Hold. cbn [ks_manager ks_memory] in Hold.
    assert (p < k * bsz b) as Hpk' by (pose proof (Nat.div_mod_eq p (bsz b)); pose proof (Nat.mod_upper_bound p (bsz b) Hne); nia).
    rewrite <-(net_take (k * bsz b)) by nia. apply Hold; [rewrite length_take; nia|].
    rewrite <-Hx. apply slot_of_same. by rewrite !lookup_take_lt by lia.
  - apply G8; [nia|]. rewrite <-Hx. apply slot_of_same. rewrite lookup_take_lt by lia.
    apply (f_equal (λ l, l !! (p / bsz b - k))) in Hdrop. rewrite !lookup_drop in Hdrop.
    replace (k + (p / bsz b - k)) with (p / bsz b) in Hdrop by lia. rewrite Hdrop, lookup_take_lt by lia. done.
Qed.

Lemma kv_cache_inv b ss fs m i s b' : kv_inv (mkKvSystem b ss m) fs → ss !! i = Some s → bm_same b b' →
  bm_ok b' (blocks_ s ++ others ss i) → bm_gains s b b' → ∃ f', kv_inv (mkKvSystem b' (<[i:=s]> ss) m) (<[i:=f']> fs).
Proof.
  intros HI Hi Hsame Hok Hg. destruct (sequence_at _ _ i s HI Hi) as (f&Hf&Hgood&HE&_). cbn [ks_manager ks_seqs ks_memory] in *.
  destruct (bm_same_facts _ _ Hsame) as (Hz&Ht&_). destruct (kv_gains_frozen s b b' f m Hgood Hg) as (f'&Hff&Hgood'&Hh).
  pose proof (kv_gains_cache b ss fs m i s f b' HI Hi Hgood Hg Hz) as Hc. exists f'. pose proof HE as [E1 E2 E3 E4].
  assert (drop f' (blocks_ s) = drop (f' - f) (drop f (blocks_ s))) as Hdrop by (rewrite drop_drop; f_equal; lia).
  assert (∀ x, x ∈ drop f' (blocks_ s) → x ∈ drop f (blocks_ s)) as Hsub.
  { intros x Hx. rewrite Hdrop in Hx. by eapply elem_of_sublist, sublist_drop. }
  assert (∀ x, x ∈ drop f' (blocks_ s) → id_ x ∉ (id_ <$> take f' (blocks_ s))) as Hfz.
  { intros x Hx (y&Hy&E)%ids_elem. rewrite <-(take_drop f (take f' (blocks_ s))), take_take, Nat.min_l in Hy by lia.
    apply elem_of_app in Hy as [Hy|Hy]; [apply (E3 x (Hsub x Hx)); rewrite <-E; by apply elem_of_ids|].
    rewrite <-(take_drop (f' - f) (drop f (blocks_ s))), <-Hdrop, fmap_app in E1. apply NoDup_app in E1 as (_&Hd&_).
    rewrite skipn_firstn_comm in Hy. apply (Hd (id_ y)); [by apply elem_of_ids|]. rewrite E. by apply elem_of_ids. }
  eapply kv_inv_update; [exact HI|exact Hi|exact Hf| |exact Hok| |exact Hc].
  - split; [done|done|..].
    + intros y Hy. apply elem_of_ids, elem_of_app. apply Hh in Hy as [Hy|Hy]; [by left|right]. by eapply elem_of_sublist, sublist_take.
    + intros y Hy. left. apply elem_of_ids, elem_of_app. by right.
    + rewrite Hdrop, fmap_drop. eapply sublist_NoDup; [exact E1|apply sublist_drop].
    + intros x Hx (y&Hy&E)%ids_elem. apply Hh in Hy as [Hy|Hy]; [apply (E2 x (Hsub x Hx))|apply (Hfz x Hx)]; rewrite <-E; by apply elem_of_ids.
    + done.
    + intros x Hx. eapply exclusive_others; [exact HE|by apply Hsub].
  - destruct Hgood' as [G1 G2 G3 G4 G5 G6 G7 G8]. split; rewrite ?Hz; done.
Qed.

Lemma kv_release_inv b ss fs m i s s' b' : kv_inv (mkKvSystem b ss m) fs → ss !! i = Some s → bm_same b b' →
  s' = set_blocks [] (set_kv_tokens (mkKvTokens 0 0) s) → bm_ok b' (others ss i) → bm_gains s b b' →
  kv_inv (mkKvSystem b' (<[i:=s']> ss) m) (<[i:=0]> fs).
Proof.
  intros HI Hi Hsame -> Hok Hg. destruct (sequence_at _ _ i s HI Hi) as (f&Hf&Hgood&_&_). cbn [ks_manager ks_seqs ks_memory] in *.
  destruct (bm_same_facts _ _ Hsame) as (Hz&Ht&_). destruct (kv_gains_frozen s b b' f m Hgood Hg) as (f'&_&_&Hh).
  eapply kv_inv_update; [exact HI|exact Hi|exact Hf| |exact Hok| |by eapply kv_gains_cache].
  - apply (no_blocks_update b ss i s b' (set_blocks [] _)); [done|done| |by intros y ?%not_elem_of_nil].
    intros y Hy. apply elem_of_ids, elem_of_app. apply Hh in Hy as [Hy|Hy]; [by left|right]. by eapply elem_of_sublist, sublist_take.
  - destruct Hgood as [G1 G2 G3 G4 G5 G6 G7 G8]. split; simpl; try done; try lia.
    apply seq_inv_set_blocks, seq_inv_set_kv; [done|lia..].
Qed.

(** ** The steps of a sequence *)

(** What a sequence does by itself keeps the invariant, if its blocks stay and its
    tokens only grow. *)
Lemma same_blocks_update b ss i s s' f : exclusive b ss i s f → blocks_ s' = blocks_ s → update_ok b ss i s b s' f.
Proof.
  intros HE Eb. pose proof HE as [E1 E2 E3 E4]. split; rewrite ?Eb; try done.
  - intros y Hy. apply elem_of_ids, elem_of_app. by left.
  - intros y Hy. left. apply elem_of_ids, elem_of_app. by right.
  - intros x Hx. by eapply exclusive_others.
Qed.

Lemma append_checks token s x : append_token token s = Ok x →
  num_tokens_ s < length (token_ids_ s) ∧ is_finished_ s = false ∧ num_prompt_tokens_ s ≤ num_kv_cache_tokens s.
Proof.
  unfold append_token, is_prefill_stage. unfold mbind, M_bind, get, check. simpl.
  destruct (bool_decide_reflect (num_tokens_ s < length (token_ids_ s))); [|done]. destruct (is_finished_ s); [done|]. simpl.
  destruct (bool_decide_reflect (num_kv_cache_tokens s < num_prompt_tokens_ s)); [done|]. intros _. split_and!; [done|done|lia].
Qed.

Lemma kv_append_inv b ss fs m i s s' token : kv_inv (mkKvSystem b ss m) fs → ss !! i = Some s → top_ok s token →
  append_token token s = Ok (tt, s') → ∃ f, kv_inv (mkKvSystem b (<[i:=s']> ss) m) (<[i:=f]> fs).
Proof.
  intros HI Hi Htop Hrun. destruct (sequence_at _ _ i s HI Hi) as (f&Hf&[G1 G2 G3 G4 G5 G6 G7 G8]&HE&Hok). cbn [ks_manager ks_seqs ks_memory] in *.
  destruct (append_checks _ _ _ Hrun) as (C1&C2&C3).
  destruct (wp_run _ _ _ _ _ (append_token_wp s token G1 C1 C2 C3 Htop) Hrun) as (I1&_&Et&En&_&Ek&Ee&Eb&_).
  exists f. eapply kv_inv_update; [exact HI|exact Hi|exact Hf|by apply same_blocks_update|by rewrite Eb| |apply HI].
  split; rewrite ?Ek, ?Eb, ?En, ?Ee; try done; try lia. intros p x Hp Hx.
  assert (length (token_ids s) = num_tokens_ s) as Htok by (unfold token_ids; rewrite length_take; pose proof (si_capacity _ G1); lia).
  pose proof (si_kv _ G1) as [Hkv _]. rewrite Et, net_chunks, lookup_app_l by (rewrite net_length; lia). by apply G8.
Qed.

Lemma kv_new_inv b ss fs m s : kv_inv (mkKvSystem b ss m) fs → seq_inv s → num_kv_cache_tokens_ s = mkKvTokens 0 0 → blocks_ s = [] →
  engine_type_ s = LLM → kv_inv (mkKvSystem b (ss ++ [s]) m) (fs ++ [0]).
Proof.
  intros [K1 K2 K3 K4 K5 K6] Hs Ek Eb Ee. cbn [ks_manager ks_seqs ks_memory] in *. split; cbn [ks_manager ks_seqs ks_memory].
  - unfold all_blocks. rewrite fmap_app, concat_app. simpl. by rewrite Eb, !app_nil_r.
  - done.
  - rewrite !length_app. simpl. lia.
  - intros i s2 f2 H1 H2. apply lookup_snoc_Some in H1 as [[Hlt H1]|[-> <-]].
    + rewrite lookup_app_l in H2 by lia. by eapply K4.
    + rewrite lookup_app_r, K3, Nat.sub_diag in H2 by lia. injection H2 as <-. split; rewrite ?Ek, ?Eb; simpl; try done; lia.
  - intros i s2 f2 H1 H2. apply lookup_snoc_Some in H1 as [[Hlt H1]|[-> <-]].
    + rewrite lookup_app_l in H2 by lia. destruct (K5 _ _ _ H1 H2) as [X1 X2 X3 X4]. split; [done..|].
      intros x i' s' y Hx Hi' Hs' Hy. apply lookup_snoc_Some in Hs' as [[_ Hs']|[-> <-]]; [by eapply X4|].
      rewrite Eb in Hy. by apply not_elem_of_nil in Hy.
    + rewrite lookup_app_r, K3, Nat.sub_diag in H2 by lia. injection H2 as <-.
      split; rewrite Eb; [constructor|..]; try (intros x Hx; by apply not_elem_of_nil in Hx).
      intros x i' s' y Hx. by apply not_elem_of_nil in Hx.
  - done.
Qed.

Lemma lookup_delete_some {B} (l : list B) i j x : delete i l !! j = Some x → ∃ j', l !! j' = Some x ∧ j' ≠ i ∧ j' = (if decide (j < i) then j else S j).
Proof.
  intros E. case_decide; eexists; (split; [|split; [|done]]); try lia.
  - by rewrite list_lookup_delete_lt in E.
  - rewrite list_lookup_delete_ge in E by lia. done.
Qed.

Lemma kv_drop_inv b ss fs m i s : kv_inv (mkKvSystem b ss m) fs → ss !! i = Some s → blocks_ s = [] →
  kv_inv (mkKvSystem b (delete i ss) m) (delete i fs).
Proof.
  intros [K1 K2 K3 K4 K5 K6] Hi Eb. cbn [ks_manager ks_seqs ks_memory] in *. pose proof (lookup_lt_Some _ _ _ Hi) as Hlt.
  split; cbn [ks_manager ks_seqs ks_memory].
  - assert (all_blocks (delete i ss) = others ss i) as ->.
    { unfold others, all_blocks. by rewrite delete_take_drop, fmap_app, concat_app. }
    destruct (all_blocks_split ss i s s Hi) as [Hp _]. rewrite Eb in Hp. by rewrite <-Hp.
  - done.
  - rewrite !length_delete; [lia|by eexists|]. apply lookup_lt_is_Some. lia.
  - intros j s2 f2 H1 H2. apply lookup_delete_some in H1 as (j1&H1&_&E1). apply lookup_delete_some in H2 as (j2&H2&_&E2).
    rewrite <-E1 in E2. subst j2. by eapply K4.
  - intros j s2 f2 H1 H2. apply lookup_delete_some in H1 as (j1&H1&_&E1). apply lookup_delete_some in H2 as (j2&H2&_&E2).
    rewrite <-E1 in E2. subst j2. destruct (K5 _ _ _ H1 H2) as [X1 X2 X3 X4]. split; [done..|].
    intros x i' s' y Hx Hi' Hs' Hy. apply lookup_delete_some in Hs' as (i2&Hs'&_&E2). eapply (X4 x i2 s' y); [done| |done|done].
    intros ->. apply Hi'. repeat case_decide; lia.
  - done.
Qed.

(** ** A run of the network *)

Lemma kv_write_other slots : ∀ vs m x, x ∉ slots → kv_write slots vs m x = m x.
Proof.
  induction slots as [|y slots IH]; intros [|v vs] m x Hx; simpl; try done. apply not_elem_of_cons in Hx as [Hn Hx].
  rewrite IH by done. by rewrite decide_False.
Qed.
Lemma kv_write_some slots : ∀ vs m x, length vs = length slots → x ∈ slots →
  ∃ k, slots !! k = Some x ∧ vs !! k = Some (kv_write slots vs m x).
Proof.
  induction slots as [|y slots IH]; intros [|v vs] m x Hl Hx; simpl in *; try done; [by apply not_elem_of_nil in Hx|].
  destruct (decide (x ∈ slots)) as [Hin|Hin].
  - destruct (IH vs (λ z, if decide (z = y) then v else m z) x) as (k&K1&K2); [lia|done|]. by exists (S k).
  - apply elem_of_cons in Hx as [->|Hx]; [|done]. exists 0. rewrite kv_write_other by done. by rewrite decide_True.
Qed.

Lemma blocks_fit b ss fs m i s : kv_inv (mkKvSystem b ss m) fs → ss !! i = Some s → slots_fit (blocks_ s) (bsz b).
Proof.
  intros HI Hi. destruct (sequence_at _ _ i s HI Hi) as (f&Hf&_&_&Hok). pose proof (ki_fit _ _ HI) as Hfit. cbn [ks_manager] in *.
  apply Forall_forall. intros y Hy. destruct (bm_ok_handle _ _ y Hok) as [Hz [H1 H2]]; [apply elem_of_app; by left|]. split_and!; [done|done|nia].
Qed.

Section run.
Context (b : BlockManager) (ss : list Sequence) (fs : list nat) (m : Z → V) (i : nat) (s : Sequence) (f : nat).
Context (HI : kv_inv (mkKvSystem b ss m) fs) (Hi : ss !! i = Some s) (Hf : fs !! i = Some f).
Abbreviation pos := (num_kv_cache_tokens s).
Abbreviation bs := (bsz b).

(** Positions behind the shared blocks have slots of their own. *)
Lemma own_slot p p' x : f * bs ≤ p → slot_of (blocks_ s) bs p = Some x → slot_of (blocks_ s) bs p' = Some x → p' = p.
Proof using HI Hi Hf.
  intros Hp Hx Hx'. destruct (sequence_at _ _ i s HI Hi) as (f0&Hf0&Hg&[E1 E2 E3 E4]&Hok). simplify_eq.
  pose proof (bm_ok_pos _ _ Hok) as Hbs. cbn [ks_manager ks_seqs ks_memory] in *.
  apply slot_of_id in Hx as (y&Hy&Hid&Hm); [|done]. apply slot_of_id in Hx' as (y'&Hy'&Hid'&Hm'); [|done].
  assert (f ≤ p / bs) as Hfp by (apply Nat.div_le_lower_bound; lia).
  assert (drop f (blocks_ s) !! (p / bs - f) = Some y) as Hd by (rewrite lookup_drop; rewrite <-Hy; f_equal; lia).
  assert (p' / bs = p / bs) as Hdiv.
  { destruct (decide (f ≤ p' / bs)) as [Hfp'|Hfp'].
    - assert (drop f (blocks_ s) !! (p' / bs - f) = Some y') as Hd' by (rewrite lookup_drop; rewrite <-Hy'; f_equal; lia).
      assert (p' / bs - f = p / bs - f); [|lia]. eapply (NoDup_lookup (id_ <$> drop f (blocks_ s))); [done|..]; rewrite list_lookup_fmap.
      + rewrite Hd'. simpl. by rewrite Hid', <-Hid.
      + by rewrite Hd.
    - exfalso. apply (E3 y); [by eapply list_elem_of_lookup_2|]. rewrite Hid, <-Hid'. apply elem_of_ids.
      apply (list_elem_of_lookup_2 _ (p' / bs)). by rewrite lookup_take_lt by lia. }
  rewrite (Nat.div_mod_eq p bs), (Nat.div_mod_eq p' bs). rewrite Hdiv. lia.
Qed.

(** Nobody else uses them. *)
Lemma foreign_slot p x bl p' : f * bs ≤ p → slot_of (blocks_ s) bs p = Some x → slot_of bl bs p' = Some x →
  (∀ y, y ∈ bl → y ∈ bm_handles b) ∨ (∃ i', i' ≠ i ∧ blocks_ <$> ss !! i' = Some bl) → False.
Proof using HI Hi Hf.
  intros Hp Hx Hx' Hbl. destruct (sequence_at _ _ i s HI Hi) as (f0&Hf0&Hg&[E1 E2 E3 E4]&Hok). simplify_eq.
  pose proof (bm_ok_pos _ _ Hok) as Hbs. cbn [ks_manager ks_seqs ks_memory] in *.
  apply slot_of_id in Hx as (y&Hy&Hid&_); [|done]. apply slot_of_id in Hx' as (y'&Hy'&Hid'&_); [|done].
  assert (f ≤ p / bs) as Hfp by (apply Nat.div_le_lower_bound; lia).
  assert (y ∈ drop f (blocks_ s)) as Hd.
  { apply (list_elem_of_lookup_2 _ (p / bs - f)). rewrite lookup_drop. rewrite <-Hy. f_equal. lia. }
  apply list_elem_of_lookup_2 in Hy'. destruct Hbl as [Hbl|(i'&Hne&Hbl)].
  - apply (E2 y Hd). rewrite Hid, <-Hid'. by apply elem_of_ids, Hbl.
  - apply fmap_Some in Hbl as (s'&Hs'&->). eapply (E4 y i' s' y'); [done..|congruence].
Qed.

Context (n : nat) (Hn : pos + n ≤ num_tokens_ s) (Hcap : pos + n ≤ length (blocks_ s) * bs).
Context (old new : list Z) (Hold : kv_cache_slots 0 pos s = Ok (old, s)) (Hnew : kv_cache_slots pos (pos + n) s = Ok (new, s)).
Abbreviation m' := (kv_write new (net (m <$> old) (take n (drop pos (token_ids s)))) m).

Lemma run_slots : length new = n ∧ (∀ k, k < n → new !! k = slot_of (blocks_ s) bs (pos + k)) ∧ m <$> old = net [] (take pos (token_ids s)).
Proof using All.
  destruct (sequence_at _ _ i s HI Hi) as (f0&Hf0&[G1 G2 G3 G4 G5 G6 G7 G8]&_&Hok). cbn [ks_manager ks_seqs ks_memory] in *.
  pose proof (bm_ok_pos _ _ Hok) as Hbs. pose proof (ki_fit _ _ HI) as Hfit. cbn [ks_manager] in Hfit.
  assert (blocks_ s ≠ []) as Hne.
  { intros E. unfold kv_cache_slots in Hnew. unfold mbind, M_bind, get, check in Hnew. simpl in Hnew. by rewrite E in Hnew. }
  pose proof (blocks_fit b ss fs m i s HI Hi) as Hsf.
  assert (pos = kv_llm (num_kv_cache_tokens_ s)) as Epos by (unfold num_kv_cache_tokens; by rewrite G2).
  destruct (wp_run _ _ _ _ _ (kv_cache_slots_wp s bs pos (pos + n) Hbs Hne Hsf Hcap) Hnew) as (_&Hl&Hs).
  destruct (wp_run _ _ _ _ _ (kv_cache_slots_wp s bs 0 pos Hbs Hne Hsf ltac:(lia)) Hold) as (_&Hl0&Hs0).
  assert (length (token_ids s) = num_tokens_ s) as Htok by (unfold token_ids; rewrite length_take; pose proof (si_capacity _ G1); lia).
  split_and!; [lia| |].
  - intros k Hk. rewrite <-Hs by lia. f_equal. lia.
  - rewrite net_take_all by lia. apply list_eq. intros p. rewrite list_lookup_fmap. destruct (decide (p < pos)) as [Hp|Hp].
    + rewrite lookup_take_lt by done. specialize (Hs0 p ltac:(lia)). rewrite Nat.sub_0_r in Hs0.
      destruct (lookup_lt_is_Some_2 old p) as [x Hx]; [lia|]. rewrite Hx. symmetry. apply G8; [lia|]. by rewrite <-Hs0.
    + rewrite lookup_take_ge by lia. by rewrite (lookup_ge_None_2 old) by lia.
Qed.

(** The entries of the new tokens. *)
Lemma run_values : net (m <$> old) (take n (drop pos (token_ids s))) = take n (drop pos (net [] (token_ids s))).
Proof using All.
  destruct run_slots as (_&_&->). destruct (sequence_at _ _ i s HI Hi) as (f0&Hf0&[G1 _ _ _ _ _ _ _]&_&_). cbn [ks_manager ks_seqs ks_memory] in *.
  assert (length (token_ids s) = num_tokens_ s) as Htok by (unfold token_ids; rewrite length_take; pose proof (si_capacity _ G1); lia).
  rewrite !firstn_skipn_comm, <-(net_take_all (pos + n)) by lia.
  assert (take (pos + n) (token_ids s) = take pos (token_ids s) ++ drop pos (take (pos + n) (token_ids s))) as E.
  { rewrite <-(take_drop pos (take (pos + n) (token_ids s))) at 1. by rewrite take_take, Nat.min_l by lia. }
  rewrite E at 2. rewrite net_chunks, drop_app_length' by (rewrite net_length, length_take; lia). done.
Qed.

Lemma run_written p x : pos ≤ p < pos + n → slot_of (blocks_ s) bs p = Some x → net [] (token_ids s) !! p = Some (m' x).
Proof using All.
  intros Hp Hx. destruct run_slots as (Hl&Hs&_). destruct (sequence_at _ _ i s HI Hi) as (f0&Hf0&[G1 G2 G3 G4 G5 G6 G7 G8]&_&_).
  rewrite Hf in Hf0. injection Hf0 as <-.
  cbn [ks_manager ks_seqs ks_memory] in *.
  assert (length (token_ids s) = num_tokens_ s) as Htok by (unfold token_ids; rewrite length_take; pose proof (si_capacity _ G1); lia).
  assert (pos = kv_llm (num_kv_cache_tokens_ s)) as Epos by (unfold num_kv_cache_tokens; by rewrite G2).
  assert (x ∈ new) as Hin. { apply (list_elem_of_lookup_2 _ (p - pos)). rewrite Hs by lia. rewrite <-Hx. f_equal. lia. }
  destruct (kv_write_some new (net (m <$> old) (take n (drop pos (token_ids s)))) m x) as (k&K1&K2); [|done|].
  { rewrite net_length, length_take, length_drop. lia. }
  assert (k < n) as Hk by (apply lookup_lt_Some in K1; lia). rewrite Hs in K1 by done.
  assert (pos + k = p) as Ek.
  { destruct (decide (f * bs ≤ p)); [by eapply own_slot|]. destruct (decide (f * bs ≤ pos + k)); [symmetry; by eapply own_slot|lia]. }
  rewrite <-K2, run_values, lookup_take_lt, lookup_drop, Ek by done. done.
Qed.

(** Nothing else changes. *)
Lemma run_frame x : (∃ p, f * bs ≤ p ∧ pos ≤ p < pos + n ∧ slot_of (blocks_ s) bs p = Some x) ∨ m' x = m x.
Proof using All.
  destruct (decide (x ∈ new)) as [Hin|Hin]; [|right; by apply kv_write_other].
  destruct run_slots as (Hl&Hs&_). apply list_elem_of_lookup in Hin as [k Hk]. assert (k < n) as Hkn by (apply lookup_lt_Some in Hk; lia).
  rewrite Hs in Hk by done. destruct (decide (f * bs ≤ pos + k)) as [Hle|Hle]; [left; exists (pos + k); split_and!; [done|lia|lia|done]|right].
  destruct (sequence_at _ _ i s HI Hi) as (f0&Hf0&[G1 G2 G3 G4 G5 G6 G7 G8]&_&_).
  rewrite Hf in Hf0. injection Hf0 as <-. cbn [ks_manager ks_seqs ks_memory] in *.
  pose proof (run_written (pos + k) x ltac:(lia) Hk) as Hw. rewrite (G8 (pos + k) x) in Hw by (done || lia). by injection Hw.
Qed.
End run.

Lemma kv_run_inv b ss fs m i s n old new s' : kv_inv (mkKvSystem b ss m) fs → ss !! i = Some s → num_kv_cache_tokens s + n ≤ num_tokens_ s →
  kv_cache_slots 0 (num_kv_cache_tokens s) s = Ok (old, s) →
  kv_cache_slots (num_kv_cache_tokens s) (num_kv_cache_tokens s + n) s = Ok (new, s) → commit_kv_cache n s = Ok (tt, s') →
  kv_inv (mkKvSystem b (<[i:=s']> ss) (kv_write new (net (m <$> old) (take n (drop (num_kv_cache_tokens s) (token_ids s)))) m)) fs.
Proof.
  intros HI Hi Hn Hold Hnew Hcommit. destruct (sequence_at _ _ i s HI Hi) as (f&Hf&[G1 G2 G3 G4 G5 G6 G7 G8]&HE&Hok).
  cbn [ks_manager ks_seqs ks_memory] in *. pose proof (bm_ok_pos _ _ Hok) as Hbs.
  assert (num_kv_cache_tokens s = kv_llm (num_kv_cache_tokens_ s)) as Epos by (unfold num_kv_cache_tokens; by rewrite G2).
  assert (num_kv_cache_tokens s + n ≤ length (blocks_ s) * bsz b ∧
    s' = set_kv_tokens (mkKvTokens (num_kv_cache_tokens s + n) (kv_ssm (num_kv_cache_tokens_ s))) s) as [Hcap Es'].
  { unfold commit_kv_cache in Hcommit. unfold mbind, M_bind, get, check in Hcommit. simpl in Hcommit.
    destruct (bool_decide_reflect (num_kv_cache_tokens s + n ≤ kv_cache_capacity s)) as [Hc|]; [|done]. rewrite G2 in Hcommit.
    injection Hcommit as <-. split; [|done]. unfold kv_cache_capacity in Hc. destruct (blocks_ s) as [|y bl] eqn:Eb; [simpl in *; lia|].
    destruct (bm_ok_handle _ _ y Hok) as [Ez _]; [apply elem_of_app; left; constructor|]. by rewrite Ez in Hc. }
  set (m' := kv_write _ _ _).
  pose proof (run_written b ss fs m i s f HI Hi Hf n Hn Hcap old new Hold Hnew) as Hw.
  pose proof (run_frame b ss fs m i s f HI Hi Hf n Hn Hcap old new Hold Hnew) as Hfr. fold m' in Hw, Hfr.
  pose proof (foreign_slot b ss fs m i s f HI Hi Hf) as Hfo. pose proof (own_slot b ss fs m i s f HI Hi Hf) as Hown.
  assert (∀ bl t k, holds_rows m (bsz b) bl t k → (∀ y, y ∈ bl → y ∈ bm_handles b) ∨ (∃ i', i' ≠ i ∧ blocks_ <$> ss !! i' = Some bl) →
    holds_rows m' (bsz b) bl t k) as Hkeep.
  { intros bl t k Hr Hbl p x Hp Hx. destruct (Hfr x) as [(p2&Hp2&_&Hx2)| ->]; [|by apply Hr]. exfalso. exact (Hfo p2 x bl p Hp2 Hx2 Hx Hbl). }
  pose proof HI as [K1 K2 K3 K4 K5 K6]. cbn [ks_manager ks_seqs ks_memory] in *. pose proof (lookup_lt_Some _ _ _ Hi) as Hlt.
  assert (blocks_ s' = blocks_ s ∧ token_ids s' = token_ids s ∧ num_tokens_ s' = num_tokens_ s) as (Eb&Et&En) by (rewrite Es'; done).
  assert (all_blocks (<[i:=s']> ss) = all_blocks ss) as Eall.
  { unfold all_blocks. rewrite list_fmap_insert, Eb, list_insert_id; [done|]. by rewrite list_lookup_fmap, Hi. }
  assert (∀ i2 s2, <[i:=s']> ss !! i2 = Some s2 → ∃ s3, ss !! i2 = Some s3 ∧ blocks_ s3 = blocks_ s2) as Hlook.
  { intros i2 s2 E. destruct (decide (i2 = i)) as [->|Hne]; [|rewrite list_lookup_insert_ne in E by done; by exists s2].
    rewrite list_lookup_insert_eq in E by done. injection E as <-. by exists s. }
  split; cbn [ks_manager ks_seqs ks_memory]; [by rewrite Eall|done|by rewrite length_insert| | |].
  - intros i2 s2 f2 H1 H2. destruct (decide (i2 = i)) as [->|Hne].
    + rewrite list_lookup_insert_eq in H1 by done. simplify_eq. split; rewrite ?Eb, ?Et; simpl; try done; try lia.
      * apply seq_inv_set_kv; [done|lia|]. apply G1.
      * intros p x Hp Hx. destruct (decide (num_kv_cache_tokens s ≤ p < num_kv_cache_tokens s + n)); [by apply Hw|].
        destruct (Hfr x) as [(p2&Hp2&Hr2&Hx2)| ->]; [|apply G8; [lia|done]].
        rewrite (Hown p2 p x Hp2 Hx2 Hx) in *. lia.
    + rewrite list_lookup_insert_ne in H1 by done. destruct (K4 _ _ _ H1 H2) as [X1 X2 X3 X4 X5 X6 X7 X8]. split; try done.
      apply Hkeep; [done|]. right. exists i2. split; [done|]. by rewrite H1.
  - intros i2 s2 f2 H1 H2. destruct (Hlook _ _ H1) as (s3&H3&E3). destruct (K5 _ _ _ H3 H2) as [X1 X2 X3 X4].
    rewrite E3 in *. split; [done..|]. intros x i' t y Hx Hi' Ht Hy. destruct (Hlook _ _ Ht) as (t3&Ht3&Et3). rewrite <-Et3 in Hy. by eapply X4.
  - intros t bl Hc. apply Hkeep; [by apply K6|]. left. intros y Hy. by eapply descends_handles.
Qed.
(** ** Every step keeps the invariant *)

Lemma others_insert ss i s : i < length ss → others (<[i:=s]> ss) i = others ss i.
Proof. intros Hi. unfold others. rewrite take_insert_ge by lia. by rewrite drop_insert_lt by lia. Qed.

Lemma kv_allocate_step b ss fs m i s n r s' b' : kv_inv (mkKvSystem b ss m) fs → ss !! i = Some s →
  (N.of_nat (n + bsz b) < 2 ^ 32)%N → allocate_blocks_for n (s, b) = Ok (r, (s', b')) →
  ∃ fs', kv_inv (mkKvSystem b' (<[i:=s']> ss) m) fs'.
Proof using All.
  intros HI Hi Hn Hrun. destruct (sequence_at _ _ i s HI Hi) as (f&Hf&Hg&_&Hok). cbn [ks_manager ks_seqs ks_memory] in *.
  destruct (wp_run _ _ _ _ _ (allocate_blocks_for_wp s b _ n (sg_inv _ _ _ _ Hg) Hok Hn) Hrun) as (s1&b1&Hnil&Hcons&Hal). simpl in Hal.
  destruct (decide (blocks_ s = [])) as [He|He].
  - pose proof (kv_share_inv b ss fs m i s s1 b1 HI Hi He (Hnil He)) as HI1.
    assert (i < length ss) as Hlt by (by eapply lookup_lt_Some). eexists.
    rewrite <-(list_insert_insert_eq ss i s' s1). eapply kv_allocate_inv; [exact HI1|..].
    + by rewrite list_lookup_insert_eq.
    + rewrite list_lookup_insert_eq; [done|]. by eapply lookup_lt_Some.
    + by rewrite others_insert.
  - destruct (Hcons He) as [-> ->]. eexists. by eapply kv_allocate_inv.
Qed.

Lemma kv_step_inv st st' fs : kv_inv st fs → kv_step st st' → ∃ fs', kv_inv st' fs'.
Proof using All.
  intros HI Hst. destruct Hst as
    [b ss m index prompt ids t cap opt s Hne Hcap Hcr Hs|b ss m i s s' b' Hi Hnil Hrun|b ss m i s n r s' b' Hi Hn Hrun
    |b ss m i s n old new s' Hi Hn Hold Hnew Hrun|b ss m i s token s' Hi Htop Hrun|b ss m i s s' b' Hi Hrun|b ss m i s s' b' Hi Hrun
    |b ss m i s Hi Hnil]; try (destruct (sequence_at _ _ i s HI Hi) as (f&Hf&Hg&_&Hok); cbn [ks_manager ks_seqs ks_memory] in * ).
  - destruct (Sequence_new_ok index prompt ids t cap opt Hne Hcap Hcr) as (s0&Hs0&HS&_&_&_&Ek&Eb&_&_&_&Ee&_).
    rewrite Hs in Hs0. injection Hs0 as <-. eexists. by apply kv_new_inv.
  - rewrite Hnil in Hok.
    pose proof (wp_run _ _ _ _ _ (allocate_shared_wp s b _ (sg_inv _ _ _ _ Hg) Hnil Hok) Hrun) as Hp. eexists. by eapply kv_share_inv.
  - by eapply kv_allocate_step.
  - eexists. by eapply kv_run_inv.
  - destruct (kv_append_inv b ss fs m i s s' token HI Hi Htop Hrun) as [f' HI']. by eexists.
  - destruct (wp_run _ _ _ _ _ (cache_blocks_for_wp s b _ (sg_inv _ _ _ _ Hg) (sg_order _ _ _ _ Hg) Hok) Hrun) as (E&Hok'&Hsame&_&Hgain).
    simpl in *. subst s'. destruct (kv_cache_inv b ss fs m i s b' HI Hi Hsame Hok' Hgain) as [f' HI']. by eexists.
  - destruct (wp_run _ _ _ _ _ (release_blocks_for_wp s b _ (sg_inv _ _ _ _ Hg) (sg_order _ _ _ _ Hg) Hok) Hrun) as (E&Hok'&Hsame&_&Hgain).
    simpl in *. eexists. by eapply kv_release_inv.
  - eexists. by eapply kv_drop_inv.
Qed.

Lemma kv_start_inv o st : kv_start o st → kv_inv st [].
Proof using All.
  intros (Hb&Hss&Hfit). destruct (BlockManager_new_ok o _ Hb) as (Hok&Ho&_&_&_&Ht).
  assert (bm_handles (ks_manager st) = []) as Hh.
  { unfold BlockManager_new in Hb. destruct (BlockAllocator_new _ _) as [a|]; [|done].
    destruct (PrefixCache_new _) as [c|] eqn:Hc; [|done]. destruct (allocate_one _) as [[pb mm]|]; [|done].
    case_decide; [|done]. injection Hb as Hb. rewrite <-Hb. by destruct (PrefixCache_new_inv _ _ Hc) as (_&_&?&_). }
  split; rewrite ?Hss; try done.
  - unfold bsz. by rewrite Ht, Ho.
  - intros t bl Hc p x Hp Hx. apply bind_Some in Hx as (y&Hy&_). apply list_elem_of_lookup_2 in Hy.
    pose proof (descends_handles _ _ _ _ _ y Hc Hy) as Hin. fold (bm_handles (ks_manager st)) in Hin. rewrite Hh in Hin.
    by apply not_elem_of_nil in Hin.
Qed.

Lemma kv_reachable_inv o st st' : kv_start o st → rtc kv_step st st' → ∃ fs, kv_inv st' fs.
Proof using All.
  intros Hs Hr. assert (∃ fs, kv_inv st fs) as Hst by (exists []; by eapply kv_start_inv). clear Hs.
  induction Hr as [st|st st1 st2 Hstep _ IH]; [done|]. apply IH. destruct Hst as [fs HI]. by eapply kv_step_inv.
Qed.

(** What the slots of a sequence hold. *)
Lemma kv_rows_at st fs s : kv_inv st fs → s ∈ ks_seqs st → 0 < num_kv_cache_tokens s → ∃ slots,
  kv_cache_slots 0 (num_kv_cache_tokens s) s = Ok (slots, s) ∧
  ks_memory st <$> slots = net [] (take (num_kv_cache_tokens s) (token_ids s)).
Proof using All.
  intros HI [i Hi]%list_elem_of_lookup Hp. destruct st as [b ss m]. destruct (sequence_at _ _ i s HI Hi) as (f&Hf&[G1 G2 G3 G4 G5 G6 G7 G8]&_&Hok).
  cbn [ks_manager ks_seqs ks_memory] in *. pose proof (bm_ok_pos _ _ Hok) as Hbs.
  assert (num_kv_cache_tokens s = kv_llm (num_kv_cache_tokens_ s)) as Epos by (unfold num_kv_cache_tokens; by rewrite G2).
  assert (blocks_ s ≠ []) as Hne by (intros E; rewrite E in G4; simpl in G4; lia).
  pose proof (blocks_fit b ss fs m i s HI Hi) as Hsf.
  destruct (wp_ok _ _ _ (kv_cache_slots_wp s (bsz b) 0 (num_kv_cache_tokens s) Hbs Hne Hsf ltac:(lia))) as (slots&s1&Hs&->&_).
  exists slots. split; [done|]. pose proof (si_kv _ G1) as [Hkv _].
  assert (kv_cache_slots (num_kv_cache_tokens s) (num_kv_cache_tokens s + 0) s = Ok ([], s)) as Hempty.
  { destruct (wp_ok _ _ _ (kv_cache_slots_wp s (bsz b) (num_kv_cache_tokens s) (num_kv_cache_tokens s + 0) Hbs Hne Hsf ltac:(lia)))
      as (sl&s1&Hs1&->&Hl&_). rewrite Hs1. by rewrite (nil_length_inv sl) by lia. }
  by destruct (run_slots b ss fs m i s f HI Hi Hf 0 ltac:(lia) ltac:(lia) slots [] Hs Hempty) as (_&_&?).
Qed.
End coherence.

(** ** The cache is invisible *)

(** C4. Prefix sharing, preemption and eviction are invisible to the network.  From a
    new manager and any content of the memory, after any sequence of steps on any
    number of sequences - blocks shared, allocated, cached, taken out of the cache and
    used again, released and found again -, the slots that a sequence reads for the
    tokens behind its KV position hold exactly the entries of its own text; so the
    next run gives what a run over the whole text without any cache gives. *)
Theorem prefix_cache_transparent {clk : Clock} `{!MonotoneClock clk} {V : Type} `{NetworkLaws V}
    (o : BlockManagerOptions) (st st' : KvSystem V) (s : Sequence) :
  kv_start o st → rtc kv_step st st' → s ∈ ks_seqs st' → 0 < num_kv_cache_tokens s →
  ∃ slots, kv_cache_slots 0 (num_kv_cache_tokens s) s = Ok (slots, s) ∧
    ks_memory st' <$> slots = net [] (take (num_kv_cache_tokens s) (token_ids s)) ∧
    ∀ tokens, net (ks_memory st' <$> slots) tokens =
      drop (num_kv_cache_tokens s) (net [] (take (num_kv_cache_tokens s) (token_ids s) ++ tokens)).
Proof.
  intros Hst Hr Hs Hp. destruct (kv_reachable_inv o st st' Hst Hr) as [fs HI].
  destruct (kv_rows_at st' fs s HI Hs Hp) as (slots&Hsl&Hm). exists slots. split_and!; [done..|].
  intros tokens. rewrite net_chunks, <-Hm, drop_app_length'; [done|]. rewrite Hm, net_length, length_take.
  apply list_elem_of_lookup in Hs as [i Hi]. destruct (sequence_at _ _ i s HI Hi) as (f&_&[G1 _ _ _ _ _ _ _]&_).
  assert (length (token_ids s) = num_tokens_ s) as -> by (unfold token_ids; rewrite length_take; pose proof (si_capacity _ G1); lia).
  pose proof (si_kv _ G1). unfold num_kv_cache_tokens. destruct (engine_type_ s); simpl; lia.
Qed.

(** A network whose entries depend on every token before them. *)
Fixpoint chain (h : Z) (tokens : list Z) : list Z :=
  match tokens with [] => [] | t :: tokens => (31 * h + t)%Z :: chain (31 * h + t)%Z tokens end.
#[local] Instance chain_net : Network Z := λ ctx tokens, chain (default 0%Z (last ctx)) tokens.
Lemma entries_length tokens : ∀ h, length (chain h tokens) = length tokens.
Proof. induction tokens as [|t tokens IH]; intros h; simpl; [done|by rewrite IH]. Qed.
Lemma entries_app a b : ∀ h, chain h (a ++ b) = chain h a ++ chain (default h (last (chain h a))) b.
Proof.
  induction a as [|t a IH]; intros h; [done|]. cbn [chain app]. rewrite IH. f_equal. f_equal.
  rewrite last_cons. by destruct (last (chain _ a)).
Qed.
#[local] Instance chain_laws : NetworkLaws Z.
Proof. split; intros; [apply entries_length|apply entries_app]. Qed.

(** A sequence of five tokens is processed and released; another one with the same first
    four tokens finds its blocks. *)
Definition seq_b : Sequence := new_sequence [1; 2; 3; 4; 9]%Z eq_refl.
Definition allocated_a : Sequence * BlockManager :=
  (ok_value (allocate_blocks_for (clk := ticks) 5 (seq_a, manager1)) eq_refl).2.
Definition processed_a : Sequence := (ok_value (commit_kv_cache 5 allocated_a.1) eq_refl).2.
Definition slots_a : list Z := (ok_value (kv_cache_slots 0 5 allocated_a.1) eq_refl).1.
Definition memory_a : Z → Z := kv_write slots_a (chain 0 [1; 2; 3; 4; 5]%Z) (λ _, 0%Z).
Definition released_a : Sequence * BlockManager :=
  (ok_value (release_blocks_for (clk := ticks) (processed_a, allocated_a.2)) eq_refl).2.
Definition allocated_b : Sequence * BlockManager :=
  (ok_value (allocate_blocks_for (clk := ticks) 5 (seq_b, released_a.2)) eq_refl).2.

Definition system_ab : KvSystem Z := mkKvSystem allocated_b.2 [released_a.1; allocated_b.1] memory_a.

Lemma run_a : kv_step (clk := ticks) (mkKvSystem allocated_a.2 [allocated_a.1] (λ _, 0%Z))
  (mkKvSystem allocated_a.2 [processed_a] memory_a).
Proof.
  assert (take 5 (drop (num_kv_cache_tokens allocated_a.1) (token_ids allocated_a.1)) = [1; 2; 3; 4; 5]%Z) as E
    by (vm_compute; reflexivity).
  pose proof (kv_run (clk := ticks) allocated_a.2 [allocated_a.1] (λ _, 0%Z) 0 allocated_a.1 5 [] slots_a processed_a) as Hrun.
  rewrite E in Hrun. apply Hrun; [done|vm_compute; lia|vm_compute; reflexivity..].
Qed.

Lemma system_ab_reachable : rtc (kv_step (clk := ticks)) (mkKvSystem manager1 [] (λ _, 0%Z)) system_ab.
Proof.
  apply (rtc_l _ _ (mkKvSystem manager1 [seq_a] (λ _, 0%Z))).
  { apply (kv_new (clk := ticks) manager1 [] _ 0 [] [1; 2; 3; 4; 5]%Z 0 16 seq_options seq_a);
      [done|simpl; lia|by constructor|vm_compute; reflexivity]. }
  apply (rtc_l _ _ (mkKvSystem allocated_a.2 [allocated_a.1] (λ _, 0%Z))).
  { apply (kv_allocate (clk := ticks) manager1 [seq_a] _ 0 seq_a 5 true); [done|vm_compute; reflexivity..]. }
  apply (rtc_l _ _ (mkKvSystem allocated_a.2 [processed_a] memory_a)); [apply run_a|].
  apply (rtc_l _ _ (mkKvSystem released_a.2 [released_a.1] memory_a)).
  { apply (kv_release (clk := ticks) allocated_a.2 [processed_a] _ 0 processed_a); [done|vm_compute; reflexivity]. }
  apply (rtc_l _ _ (mkKvSystem released_a.2 [released_a.1; seq_b] memory_a)).
  { apply (kv_new (clk := ticks) released_a.2 [released_a.1] _ 0 [] [1; 2; 3; 4; 9]%Z 0 16 seq_options seq_b);
      [done|simpl; lia|by constructor|vm_compute; reflexivity]. }
  apply rtc_once.
  apply (kv_allocate (clk := ticks) released_a.2 [released_a.1; seq_b] memory_a 1 seq_b 5 true); [done|vm_compute; reflexivity..].
Qed.

Lemma prefix_cache_transparent_witness : num_kv_cache_tokens allocated_b.1 = 4 ∧ ∃ slots,
  kv_cache_slots 0 4 allocated_b.1 = Ok (slots, allocated_b.1) ∧ memory_a <$> slots = chain 0 [1; 2; 3; 4]%Z.
Proof.
  split; [vm_compute; reflexivity|].
  destruct (prefix_cache_transparent (clk := ticks) manager_options (mkKvSystem manager1 [] (λ _, 0%Z)) system_ab allocated_b.1)
    as (slots&Hs&Hm&_).
  - split_and!; [apply ok_value_eq|done|vm_compute; done].
  - exact system_ab_reachable.
  - apply elem_of_cons. right. apply elem_of_cons. by left.
  - vm_compute. lia.
  - exists slots. split; [exact Hs|exact Hm].
Defined.
