(* ===== verification/RequestProps.v ===== *)
(** * Properties of requests and sequences

    What the stopping criteria, the incremental decoder, the sequences and the
    requests promise, with an example for every hypothesis. *)

From Stdlib Require Import Ascii SpecFloat.
From stdpp Require Import base tactics list gmap strings sorting.
From S2P Require Import Prelude Slice Block Types Stopping Decoder Sequence SequenceInv Request.
From S2P Require Import BlockStore RequestInv.

(** ** Stopping criteria *)

(** C30. The stopping check never fails on a usable criterion and decides it: it
    answers STOP exactly when the last token is an end token or the tokens end in
    a stop sequence, LENGTH exactly when that is not so and a limit is reached. *)
Theorem check_finished_decides c ids n :
  criteria_ok c → ids ≠ [] → n ≤ length ids →
  ∃ r, (∀ S (s : S), check_finished c ids n s = Ok (r, s)) ∧
    (r = STOP ↔ stops c ids) ∧ (r = LENGTH ↔ ¬ stops c ids ∧ length_reached c ids n) ∧
    r ≠ FUNCTION_CALL.
Proof.
  intros Hc Hne Hn. destruct (wp_ok _ _ _ (check_finished_wp c ids n tt Hc Hne Hn)) as (r&[]&Hr&_&Hspec).
  exists r. split.
  - intros S s. destruct (wp_ok _ _ _ (check_finished_wp c ids n s Hc Hne Hn)) as (r'&?&Hr'&->&Hspec').
    rewrite Hr'. repeat f_equal. destruct r, r'; naive_solver.
  - destruct r; naive_solver.
Qed.

Definition criteria1 : StoppingCriteria := mkStoppingCriteria 4 2 false {[9%Z]} [[5; 6]%Z] 8.

Lemma check_finished_decides_witness :
  ∃ r, check_finished criteria1 [1; 5; 6]%Z 1 tt = Ok (r, tt) ∧ (r = STOP ↔ stops criteria1 [1; 5; 6]%Z).
Proof.
  destruct (check_finished_decides criteria1 [1; 5; 6]%Z 1) as (r&Hr&Hs&_);
    [by repeat constructor|done|simpl; lia|]. by exists r.
Defined.

(** ** The incremental decoder *)

(** A tokenizer whose tokens are the ASCII characters. *)
Definition ascii_of_token (t : Z) : ascii := ascii_of_nat (Z.to_nat t `mod` 128).
Definition ascii_tokenizer : Tokenizer := {|
  tk_decode ids _ := ascii_of_token <$> ids;
  tk_id_to_token t := [ascii_of_token t];
|}.

Lemma ascii_final ids : ends_with_replacement (ascii_of_token <$> ids) = false.
Proof.
  unfold ends_with_replacement. apply andb_false_iff. right. apply bool_decide_eq_false. intros Heq.
  assert (ascii_of_nat 239 ∈ ascii_of_token <$> ids) as Hin.
  { rewrite <- (take_drop (length (ascii_of_token <$> ids) - length replacement) (ascii_of_token <$> ids)), Heq.
    set_solver. }
  apply list_elem_of_fmap in Hin as (t&Ht&_). unfold ascii_of_token in Ht.
  apply (f_equal nat_of_ascii) in Ht. pose proof (Nat.mod_upper_bound (Z.to_nat t) 128).
  rewrite !nat_ascii_embedding in Ht by lia. lia.
Qed.

#[local] Instance ascii_tokenizer_laws : TokenizerLaws ascii_tokenizer.
Proof.
  split; simpl.
  - done.
  - intros a b _ _. apply fmap_app.
  - intros a b _ _ _. by rewrite <- fmap_app, !ascii_final.
Qed.

(** C17. The deltas that a client receives from any run of the decoder on growing
    prefixes of the tokens, put together, are exactly the text of the tokens the
    decoder has passed over, and never end inside a character; and once the run
    has seen all tokens they are the whole text, unless that ends inside a
    character. *)
Theorem stream_is_the_text {tk : Tokenizer} `{!TokenizerLaws tk} ids sizes d :
  dec_ok d ids → prompt_done d → StronglySorted le (output_offset_ d :: sizes) →
  Forall (λ n, n ≤ length ids) sizes →
  let skip := skip_special_tokens_ d in
  let whole := tk_decode (drop (output_offset_ d) ids) skip in
  wp (decode_all ids sizes) d (λ t d', output_offset_ d ≤ output_offset_ d' ≤ length ids ∧
    ends_with_replacement t = false ∧
    t = tk_decode (take (output_offset_ d' - output_offset_ d) (drop (output_offset_ d) ids)) skip) ∧
  (ends_with_replacement whole = false →
   wp (decode_all ids (sizes ++ [length ids])) d (λ t _, t = whole)).
Proof.
  intros Hd Hp Hs Hle skip whole. split.
  - eapply wp_mono; [by apply decode_all_wp|]. intros t d' (Hd'&_&_&?&?&?).
    pose proof (do_bound _ _ Hd'). done.
  - intros. by apply decode_all_complete.
Qed.

(** The prompt has two tokens, the client asked for the generated text only. *)
Definition decoder1 : IncrementalDecoder := IncrementalDecoder_new [] 2 false true.

Lemma stream_is_the_text_witness :
  wp (decode_all (tk := ascii_tokenizer) [72; 101; 108; 108; 111]%Z [3; 4; 5]) decoder1
    (λ t _, t = ascii_of_nat <$> [108; 108; 111]).
Proof.
  assert (dec_ok (tk := ascii_tokenizer) decoder1 [72; 101; 108; 108; 111]%Z) as Hd
    by (split; vm_compute; [lia|lia|reflexivity]).
  destruct (stream_is_the_text (tk := ascii_tokenizer) [72; 101; 108; 108; 111]%Z [3; 4] decoder1 Hd) as [_ H].
  - left. vm_compute. lia.
  - vm_compute. repeat constructor.
  - repeat constructor.
  - apply H. vm_compute. reflexivity.
Defined.

(** ** Sequences *)

Definition options1 : SequenceOptions :=
  mkSequenceOptions SamplingParameter_default criteria1 true false false.

(** A sequence with the prompt 1, 2, 3 and room for eight tokens, whose prompt is
    in the KV cache. *)
Definition sequence1 : Sequence :=
  match Sequence_new 0 [] [1; 2; 3]%Z 0 8 options1 with
  | Ok s => set_kv_tokens (mkKvTokens 3 3) s
  | Fail _ => mkSequence 0 0 false options1 decoder1 [] [] [] [] 0 ∅ 0 (mkKvTokens 0 0) LLM [] false true NONE false
  end.

Lemma sequence1_inv : seq_inv sequence1.
Proof.
  destruct (Sequence_new_ok 0 [] [1; 2; 3]%Z 0 8 options1) as (s&Hs&Hinv&_&_&Hn&_); [done|simpl; lia|by repeat constructor|].
  unfold sequence1. rewrite Hs. apply seq_inv_set_kv; [done|simpl in Hn; lia..].
Qed.

(** Appending a sampled token to a sequence that is past its prompt, not
    finished and not full does not fail, adds exactly that token, keeps the
    occurrence counts, the buffers and the finish status consistent, and leaves
    the KV cache position, the blocks and the text stream alone. *)
Lemma append_token_extends s token :
  seq_inv s → num_tokens_ s < length (token_ids_ s) → is_finished_ s = false →
  num_prompt_tokens_ s ≤ num_kv_cache_tokens s → top_ok s token →
  wp (append_token token) s (λ _ s', seq_inv s' ∧ token_ids s' = token_ids s ++ [i32 (id token)] ∧
    finish_status_invalidated_ s' = true ∧ same_config s s' ∧
    num_kv_cache_tokens_ s' = num_kv_cache_tokens_ s ∧ blocks_ s' = blocks_ s ∧
    incremental_decoder_ s' = incremental_decoder_ s).
Proof.
  intros. eapply wp_mono; [by apply append_token_wp|]. intros ? s' H'. naive_solver.
Qed.

Lemma append_token_extends_example :
  wp (append_token (Token_of_id 7)) sequence1 (λ _ s', token_ids s' = [1; 2; 3; 7]%Z).
Proof.
  eapply wp_mono; [apply (append_token_extends sequence1 (Token_of_id 7))|].
  - apply sequence1_inv.
  - vm_compute. lia.
  - reflexivity.
  - vm_compute. lia.
  - intros H. vm_compute in H. discriminate H.
  - intros ? s' (_&Ht&_). rewrite Ht. reflexivity.
Defined.

(** A sequence with one more token, without log probabilities. *)
Definition extended (s : Sequence) (t : Z) : Sequence :=
  match append_token (Token_of_id t) s with Ok (_, s') => s' | Fail _ => s end.

Lemma extended_inv s t : seq_inv s → num_tokens_ s < length (token_ids_ s) → is_finished_ s = false →
  num_prompt_tokens_ s ≤ num_kv_cache_tokens s → sp_logprobs (sampling_param (options_ s)) = false →
  seq_inv (extended s t).
Proof.
  intros H1 H2 H3 H4 H5. assert (top_ok s (Token_of_id t)) as H6 by (intros ?; congruence).
  destruct (wp_ok _ _ _ (append_token_wp s (Token_of_id t) H1 H2 H3 H4 H6)) as ([]&s'&Hs'&Hinv&_).
  unfold extended. by rewrite Hs'.
Qed.

(** A sequence with the prompt 1, 2, 3, two draft tokens and the bonus token. *)
Definition sequence2 : Sequence := extended (extended (extended sequence1 4) 5) 7.

Lemma sequence2_inv : seq_inv sequence2.
Proof.
  unfold sequence2. repeat apply extended_inv; try reflexivity; try apply sequence1_inv; vm_compute; lia.
Qed.

(** C29. Validating the drafts at the end of a sequence keeps exactly the accepted
    tokens: up to the first rejection, finish or disagreement with the draft, the
    disagreeing token included.  At least one token is kept, the counts stay
    right, and no more tokens are in the KV cache than all but the last. *)
Theorem validate_keeps_accepted s tokens :
  seq_inv s → is_finished_ s = false → Forall (top_ok s) tokens →
  num_prompt_tokens_ s + length tokens ≤ num_tokens_ s →
  (∃ t, head (i32 ∘ id <$> tokens) = Some t ∧ t ≠ (-1)%Z) →
  (∃ b, last tokens = Some b ∧ (id b = (-1)%Z ∨ last (token_ids s) = Some (id b))) →
  let start := num_tokens_ s - length tokens in
  let draft := drop start (token_ids s) in
  let acc := accepted (stopping_criteria (options_ s)) (num_prompt_tokens_ s)
    (take start (token_ids s)) draft (i32 ∘ id <$> tokens) in
  removelast acc `prefix_of` draft ∧
  wp (validate_tokens tokens) s (λ r s', seq_inv s' ∧ token_ids s' = take start (token_ids s) ++ acc ∧
    r = length acc ∧ 0 < r ∧ finish_status_invalidated_ s' = false ∧
    kv_llm (num_kv_cache_tokens_ s') < num_tokens_ s' ∧ kv_ssm (num_kv_cache_tokens_ s') < num_tokens_ s').
Proof.
  intros H1 H2 H3 H4 H5 H6 start draft acc. split; [apply accepted_prefix|].
  eapply wp_mono; [by apply validate_tokens_wp|]. cbv zeta. fold start draft acc.
  intros r s' (Hinv&_&Ht&Hr&Hp&Hi&_&_&_&Hk1&Hk2). pose proof (si_prompt _ Hinv). split_and!; try done; lia.
Qed.

(** The first draft is right, the second is not; the bonus token is masked. *)
Lemma validate_keeps_accepted_witness :
  wp (validate_tokens (Token_of_id <$> [4; 6; -1]%Z)) sequence2 (λ r s', r = 2 ∧
    token_ids s' = [1; 2; 3; 4; 6]%Z).
Proof.
  destruct (validate_keeps_accepted sequence2 (Token_of_id <$> [4; 6; -1]%Z)) as [_ H].
  - apply sequence2_inv.
  - reflexivity.
  - apply Forall_forall. intros t _ H. vm_compute in H. discriminate H.
  - vm_compute. lia.
  - eexists. split; [reflexivity|]. vm_compute. discriminate.
  - eexists. split; [reflexivity|]. left. reflexivity.
  - eapply wp_mono; [exact H|]. intros r s' (_&Ht&Hr&_). split; [rewrite Hr; vm_compute; reflexivity|rewrite Ht; vm_compute; reflexivity].
Defined.

(** The slots that a sequence with enough blocks gets for the positions
    [i .. j) are one per position, pairwise different, never negative, and each
    lies in one of the blocks of the sequence. *)
Lemma kv_slots_distinct s bs i j :
  0 < bs → blocks_ s ≠ [] → NoDup (id_ <$> blocks_ s) → slots_fit (blocks_ s) bs →
  j ≤ length (blocks_ s) * bs →
  wp (kv_cache_slots i j) s (λ r s', s' = s ∧ length r = j - i ∧ NoDup r ∧
    Forall (λ x, ∃ b, b ∈ blocks_ s ∧ (id_ b * Z.of_nat bs ≤ x < (id_ b + 1) * Z.of_nat bs)%Z) r).
Proof.
  intros Hbs Hne Hnd Hfit Hj. eapply wp_mono; [by apply kv_cache_slots_wp|]. intros r s' (->&Hlen&Hr).
  assert (∀ n x, r !! n = Some x → slot_of (blocks_ s) bs (i + n) = Some x) as Hslot.
  { intros n x Hx. pose proof (lookup_lt_Some _ _ _ Hx). rewrite <- (Hr (i + n)) by lia.
    rewrite <- Hx. f_equal. lia. }
  split_and!; [done|done|..].
  - apply NoDup_alt. intros n m x Hn Hm. apply Hslot in Hn, Hm.
    pose proof (slot_of_inj _ _ _ _ _ Hbs Hnd Hn Hm). lia.
  - apply Forall_lookup_2. intros n x Hx. eapply slot_of_block; [done|by apply Hslot].
Qed.

Lemma kv_slots_distinct_example :
  wp (kv_cache_slots 3 7) (set_blocks [mkBlock 5 4 None false; mkBlock 2 4 None false] sequence1) (λ r _, NoDup r).
Proof.
  eapply wp_mono; [apply (kv_slots_distinct _ 4)|].
  - lia.
  - discriminate.
  - apply (bool_decide_unpack _). reflexivity.
  - repeat constructor; vm_compute; congruence.
  - vm_compute. lia.
  - intros r s' (_&_&H&_). exact H.
Defined.

(** ** Requests *)

(** A well-formed request is finished exactly when all of its [best_of]
    sequences exist and have met the stopping criteria; expanding it adds exactly
    the missing sequences, each starting from the prompt without blocks, and
    leaves the others alone. *)
Lemma request_lifecycle bs cap r :
  req_ok bs cap r →
  wp request_is_finished r (λ b r', req_ok bs cap r' ∧
    (b = true ↔ best_of r ≤ length (sequences r) ∧ Forall done_ (sequences r))) ∧
  wp expand_sequences r (λ _ r', req_ok bs cap r' ∧
    length (sequences r') = Nat.max (best_of r) (length (sequences r)) ∧
    ∃ qs, sequences r' = sequences r ++ qs ∧
      Forall (λ q, blocks_ q = [] ∧ token_ids q = prompt_tokens r) qs).
Proof.
  intros H. split.
  - eapply wp_mono; [by eapply request_is_finished_wp|]. intros b r' ([]&?). done.
  - eapply wp_mono; [by eapply expand_sequences_wp|]. intros ? r' ([]&?&?). done.
Qed.

(** A request for the best of three continuations. *)
Definition request0 : Request :=
  mkRequest 0 [] [1; 2; 3]%Z 1 3 false 8 SamplingParameter_default criteria1 false false NORMAL [] false.
Definition request1 : Request := match add_sequence request0 with Ok (_, r) => r | Fail _ => request0 end.

Lemma request1_ok bs : req_ok bs (mkLimits 8 (λ _, True)) request1.
Proof.
  assert (fields_ok (mkLimits 8 (λ _, True)) request0) as Hf.
  { split; [done|simpl; lia|done|left; simpl; lia|by repeat constructor|done]. }
  destruct (wp_ok _ _ _ (add_first_sequence_wp bs (mkLimits 8 (λ _, True)) request0 Hf eq_refl)) as ([]&r&Hr&Hok&_).
  unfold request1. by rewrite Hr.
Qed.

Lemma request_lifecycle_example :
  wp expand_sequences request1 (λ _ r', length (sequences r') = 3).
Proof.
  destruct (request_lifecycle 4 (mkLimits 8 (λ _, True)) request1 (request1_ok 4)) as [_ H].
  eapply wp_mono; [exact H|]. intros ? r' (_&Hl&_). exact Hl.
Defined.
