(* ===== verification/ServerProps.v ===== *)
(** * Properties of the server

    What holds in every state that the interleaved threads of the server can
    reach, with a small server that serves one request as the example. *)

From Stdlib Require Import Ascii SpecFloat.
From stdpp Require Import base tactics list gmap strings sorting relations.
From S2P Require Import Prelude Slice Block Types Stopping Decoder Sequence SequenceInv Lru.
From S2P Require Import PrefixCache PrefixCacheInv BlockManager BlockManagerInv BlockManagerProps.
From S2P Require Import RequestProps LogitsInv Request Sampling Batch BatchInv Logits Sampler Engine.
From S2P Require Import EngineInv BlockStore ResponseHandler RequestInv Scheduler Handler.
From S2P Require Import SchedulerInv SchedulerLoop SchedulerBuild Step Server HandlerInv.

(** ** A small server *)

(** A vocabulary of four tokens, of which the network always prefers the last. *)
Definition toy_model : Model unit unit := {|
  md_forward _ _ := (tt, tt);
  md_logits _ sel := (λ _, float_of_Z <$> [0; 1; 2; 3]%Z) <$> sel;
|}.
#[export] Instance toy_model_laws : @ModelLaws unit unit toy_model 4.
Proof.
  split; simpl; intros _ sel; [apply length_fmap|]. apply Forall_forall. intros r (x&->&_)%list_elem_of_fmap. done.
Qed.

Definition toy_rng : Rng := λ _ r c, replicate r (replicate c (float_of_Z 1)).
#[export] Instance toy_rng_laws : RngLaws toy_rng.
Proof.
  split; intros n r c; unfold exponential, toy_rng; [apply length_replicate|].
  apply Forall_replicate. apply length_replicate.
Qed.

Definition toy_encoder : Encoder := λ t, Some ((λ a, Z.of_nat (nat_of_ascii a)) <$> t).
#[export] Instance toy_encoder_laws : EncoderLaws toy_encoder.
Proof. split. intros t ids [= <-] Ht. by destruct t. Qed.

Definition toy_env : HandlerEnv := mkHandlerEnv 0 (mkModelArgs 8 0 ∅) None.
Definition toy_limits : Limits := mkLimits 64 (plain_sampling 4).
Definition toy_engine : LLMEngine unit :=
  ok_value (LLMEngine_new (mkEngineOptions 2 0 (float_of_Z 0) true 1 false None) [tt]) eq_refl.
Definition toy_server : Server (KV := unit) (St := BlockManager) :=
  server_init toy_engine (mkSchedulerOptions 8 2 0) manager1 true.

Lemma toy_fits : engine_fits (v := 4) toy_limits.
Proof. split; [split; lia|done]. Qed.

Lemma toy_server_ok : server_ok (BL := BlockManager_store_laws (clk := ticks)) toy_env toy_limits toy_server.
Proof.
  apply server_init_ok; [by apply (LLMEngine_new_ok _ _ _ (ok_value_eq _ _))|exact manager1_ok|].
  split; vm_compute; [reflexivity..|done|done].
Qed.

(** One request, with a temperature of 1 and two tokens to generate. *)
Definition toy_params : SamplingParams :=
  mkSamplingParams 2 1 None false (float_of_Z 0) (float_of_Z 0) (float_of_Z 1) (float_of_Z 1) (float_of_Z 1)
    (-1) false 0 true false None None.
Definition toy_job : HandlerTask :=
  mkHandlerTask (Completion (ascii_of_nat <$> [72; 105; 33])) toy_params NORMAL true.

Lemma toy_servable : servable toy_env toy_limits (job_sp toy_job).
Proof. split; [vm_compute; lia|by constructor|]. split; vm_compute; try reflexivity. done. Qed.

Abbreviation toy_step := (server_step (md := toy_model) (th := plain_torch) (rng := toy_rng)
  (BS := BlockManager_store (clk := ticks)) (tk := ascii_tokenizer) (en := toy_encoder) 24 128 (λ _ _, true) toy_env toy_limits).

(** The server after the client called, after the request was created, after a
    step of the scheduler, and after the response was sent. *)
Definition toy_called : Handler BlockManager :=
  (ok_value (schedule_async toy_job (srv_handler toy_server)) eq_refl).2.
Definition toy_server1 := mkServer (srv_engine toy_server) toy_called.
Definition toy_handled : Handler BlockManager :=
  (ok_value (handling_step (en := toy_encoder) toy_env 1 10 (srv_handler toy_server1)) eq_refl).2.
Definition toy_server2 := mkServer (srv_engine toy_server1) toy_handled.
Definition toy_stepped : LLMEngine unit * Sched BlockManager :=
  (ok_value (step (md := toy_model) (th := plain_torch) (rng := toy_rng) (BS := BlockManager_store (clk := ticks))
     24 128 0 [1]%Z 20 (srv_engine toy_server2, srv_sched toy_server2)) eq_refl).2.
Definition toy_server3 := with_sched toy_stepped.1 toy_stepped.2 toy_server2.
Definition toy_answered : Sched BlockManager :=
  (ok_value (on_responses (run_next (tk := ascii_tokenizer) (λ _ _, true)) (srv_sched toy_server3)) eq_refl).2.
Definition toy_server4 := with_sched (srv_engine toy_server3) toy_answered toy_server3.

Lemma toy_reach : rtc toy_step toy_server toy_server4.
Proof.
  refine (rtc_l _ _ toy_server1 _ (client_calls _ _ _ _ _ toy_server toy_job toy_called toy_servable (ok_value_run _ _ _)) _).
  refine (rtc_l _ _ toy_server2 _ (thread_handles _ _ _ _ _ toy_server1 1 10 toy_handled _ (ok_value_run _ _ _)) _).
  { split; [vm_compute; reflexivity|]. vm_compute. intros ? ? H. discriminate. }
  refine (rtc_l _ _ toy_server3 _ (scheduler_steps _ _ _ _ _ toy_server2 0 [1]%Z 20 toy_stepped.1 toy_stepped.2 _ _) _).
  { by exists 1%Z. }
  { rewrite <-surjective_pairing. apply ok_value_run. }
  refine (rtc_l _ _ toy_server4 _ (pool_runs _ _ _ _ _ toy_server3 toy_answered (ok_value_run _ _ _)) _).
  reflexivity.
Qed.

(** ** Safety of the whole server *)

Section claims.
Context {KV Hidden : Type} {md : Model KV Hidden} {v : nat} {mlaws : ModelLaws KV Hidden v}.
Context {th : Torch} {laws : TorchLaws th} {rng : Rng} {rlaws : RngLaws rng} (prec emax : Z).
Context {tk : Tokenizer} {en : Encoder} {elaws : EncoderLaws en}.
Context (on_output : positive → RequestOutput → bool) (env : HandlerEnv) (cap : Limits).
Context {clk : Clock} {mono : MonotoneClock clk}.

(** The states of a server with a paged block manager that started without
    requests. *)
Definition reachable (x : Server (KV := KV) (St := BlockManager)) : Prop :=
  ∃ e o b prefix, engine_ok e ∧ bm_ok b [] ∧ config_ok cap (srv_sched (server_init e o b prefix)) ∧
    rtc (server_step prec emax on_output env cap) (server_init e o b prefix) x.

Lemma reachable_ok x : engine_fits (v := v) cap → reachable x → server_ok env cap x.
Proof using mlaws laws rlaws elaws.
  intros Hfit (e&o&b&prefix&He&Hb&Hc&Hr). pose proof (server_init_ok env cap e o b prefix He Hb Hc) as Hok.
  clear He Hb Hc. induction Hr as [x|x y z Hxy _ IH]; [done|]. apply IH. by eapply server_step_ok.
Qed.


(** C2. No request is lost or duplicated: in every reachable state the requests
    that exist are exactly those in the queue of new requests, the batch that
    ran, the priority queue or the finishing tasks, each in one of these places
    once. *)
Theorem no_request_lost x : engine_fits (v := v) cap → reachable x →
  let s := srv_sched x in
  let places := request_queue_ s ++ running_requests_ s ++ priority_queue_ s ++ finishing (tasks (responses s)) in
  NoDup places ∧ ∀ rid, is_Some (requests s !! rid) ↔ rid ∈ places.
Proof using mlaws laws rlaws elaws.
  intros Hfit Hr s places. destruct (reachable_ok x Hfit Hr) as [_ [HW _ _]]. split; [apply HW|].
  intros rid. split.
  - intros Hs. pose proof (wo_all _ _ _ _ _ HW rid Hs) as Hin. by rewrite app_nil_r in Hin.
  - unfold places. rewrite !app_assoc, elem_of_app, <-app_assoc. intros [Hin|Hin].
    + by apply (wo_dom _ _ _ _ _ HW).
    + destruct (wo_finished _ _ _ _ _ HW rid Hin) as (r&E&_). by exists r.
Qed.

(** C3. No block is leaked or used twice: in every reachable state the free
    blocks and the blocks that the prefix cache, the sequences and the padding
    block of the manager hold are together all the blocks. *)
Theorem no_block_leaked x : engine_fits (v := v) cap → reachable x →
  let s := srv_sched x in
  let b := block_manager_ s in
  num_free_blocks (bm_mem b) +
    size (live_ids (cache_handles (nodes (cache (world b))) ++ padding_block_ b :: heap_blocks (requests s))) =
  num_total_blocks (bm_mem b).
Proof using mlaws laws rlaws elaws.
  intros Hfit Hr s b. destruct (reachable_ok x Hfit Hr) as [_ [HW _ _]].
  apply mem_ok_count. by apply bm_ok_mem, (co_store _ _ (wo_core _ _ _ _ _ HW)).
Qed.

(** The counter of pending requests is the number of jobs that wait, so
    [run_until_complete] does not stop while a request is on its way. *)
Lemma pending_counts_jobs x : engine_fits (v := v) cap → reachable x →
  pending_requests_ (srv_sched x) = length (h_queue_ (srv_handler x)).
Proof using mlaws laws rlaws elaws. intros Hfit Hr. by destruct (reachable_ok x Hfit Hr) as [_ []]. Qed.
End claims.

(** ** The small server *)

Abbreviation toy_reachable := (reachable (md := toy_model) (th := plain_torch) (rng := toy_rng) (tk := ascii_tokenizer)
  (en := toy_encoder) (clk := ticks) 24 128 (λ _ _, true) toy_env toy_limits).

Lemma toy_server4_reachable : toy_reachable toy_server4.
Proof.
  exists toy_engine, (mkSchedulerOptions 8 2 0), manager1, true. split_and!.
  - by apply (LLMEngine_new_ok _ _ _ (ok_value_eq _ _)).
  - exact manager1_ok.
  - split; vm_compute; [reflexivity..|done|done].
  - exact toy_reach.
Qed.


Lemma no_request_lost_witness : is_Some (requests (srv_sched toy_server4) !! 1%positive) ∧
  1%positive ∈ running_requests_ (srv_sched toy_server4).
Proof.
  destruct (no_request_lost (v := 4) (laws := plain_torch_laws) (en := toy_encoder) (clk := ticks) 24 128 (λ _ _, true) toy_env toy_limits
    toy_server4 toy_fits toy_server4_reachable) as [_ H].
  assert (1%positive ∈ running_requests_ (srv_sched toy_server4)) as Hin by (vm_compute; left).
  split; [|done]. apply H. set_solver.
Defined.

Lemma no_block_leaked_witness : let b := block_manager_ (srv_sched toy_server4) in
  num_free_blocks (bm_mem b) = 5 ∧ num_total_blocks (bm_mem b) = 8 ∧
  size (live_ids (cache_handles (nodes (cache (world b))) ++ padding_block_ b :: heap_blocks (requests (srv_sched toy_server4)))) = 3.
Proof.
  pose proof (no_block_leaked (v := 4) (laws := plain_torch_laws) (en := toy_encoder) (clk := ticks) 24 128 (λ _ _, true) toy_env toy_limits
    toy_server4 toy_fits toy_server4_reachable) as H.
  split_and!; [vm_compute; reflexivity..|]. cbv zeta in H.
  assert (num_free_blocks (bm_mem (block_manager_ (srv_sched toy_server4))) = 5) as E1 by (vm_compute; reflexivity).
  assert (num_total_blocks (bm_mem (block_manager_ (srv_sched toy_server4))) = 8) as E2 by (vm_compute; reflexivity).
  rewrite E1, E2 in H. lia.
Defined.

Lemma pending_counts_jobs_example : pending_requests_ (srv_sched toy_server4) = 0.
Proof.
  rewrite (pending_counts_jobs (v := 4) (laws := plain_torch_laws) (en := toy_encoder) (clk := ticks) 24 128 (λ _ _, true) toy_env toy_limits
    toy_server4 toy_fits toy_server4_reachable). vm_compute. reflexivity.
Defined.
