(* ===== verification/SchedulerProps.v ===== *)
(** * Properties of the scheduler

    What one round of the scheduler puts into a batch, that its loop ends, that
    the batch makes progress, and in which order requests are served. *)

From Stdlib Require Import Ascii SpecFloat.
From stdpp Require Import base tactics list gmap strings sorting relations.
From S2P Require Import Prelude Slice Block Types Stopping Decoder Sequence SequenceInv BlockManager.
From S2P Require Import BlockManagerInv BlockManagerProps RequestProps LogitsInv Request Sampling.
From S2P Require Import Batch BatchInv Logits Sampler Engine EngineInv BlockStore ResponseHandler.
From S2P Require Import RequestInv Scheduler Handler SchedulerInv SchedulerLoop SchedulerBuild Step.
From S2P Require Import Server HandlerInv ServerProps.

(** ** The batch *)

Section batch.
Context {St : Type} {BS : BlockStore St} {BL : BlockStoreLaws St} (cap : Limits).
Implicit Types s : Sched St.


(** ** The loop over the queue *)

(** [m'] succeeds wherever [m] does, with the same result. *)
Definition no_worse {S A} (m m' : M S A) : Prop := ∀ (x : S) r, m x = Ok r → m' x = Ok r.

#[local] Instance no_worse_refl {S A} : Reflexive (no_worse (S := S) (A := A)).
Proof. by intros m x r. Qed.

Lemma no_worse_bind {S A B} (m : M S A) (k k' : A → M S B) :
  (∀ a, no_worse (k a) (k' a)) → no_worse (m ≫= k) (m ≫= k').
Proof.
  intros Hk x r H. unfold mbind, M_bind in *. destruct (m x) as [[a s']|]; [|done]. by apply Hk.
Qed.

Lemma schedule_loop_more avg fuel : ∀ fuel' rt rs, fuel ≤ fuel' →
  no_worse (schedule_loop (St := St) fuel avg rt rs) (schedule_loop fuel' avg rt rs).
Proof.
  induction fuel as [|fuel IH]; intros [|fuel'] rt rs Hf; try done; [lia|]. simpl.
  apply no_worse_bind. intros s. destruct (priority_queue_ s) as [|rid q]; [reflexivity|].
  case_decide; [|reflexivity]. do 4 (apply no_worse_bind; intros ?). case_match.
  - do 2 (apply no_worse_bind; intros ?). apply IH. lia.
  - apply no_worse_bind. intros s'. destruct (last _); [|reflexivity].
    do 2 (apply no_worse_bind; intros ?). apply IH. lia.
Qed.

(** C28. The [while] loop of the scheduler ends: from a state in order it takes at
    most one iteration more than there are requests in the two queues, and more
    iterations do not change what it returns. *)
Theorem schedule_loop_ends T U avg s rt rs : loop_ok cap T U s rt rs → 0 < avg → 0 < T → 0 < U →
  ∃ r, ∀ fuel, length (priority_queue_ s) + length (preemptable_requests_ s) < fuel →
    schedule_loop fuel avg rt rs s = Ok r.
Proof.
  intros HL Ha HT HU. set (n := length _ + length _).
  destruct (wp_ok _ _ _ (schedule_loop_wp cap T U avg (S n) s rt rs HL Ha HT HU ltac:(lia))) as (a&s'&Hr&_).
  exists (a, s'). intros fuel Hf. eapply schedule_loop_more; [|exact Hr]. lia.
Qed.
End batch.

(** ** Progress *)

Section progress.
Context {KV Hidden : Type} {md : Model KV Hidden} {v : nat} {mlaws : ModelLaws KV Hidden v}.
Context {th : Torch} {laws : TorchLaws th} {rng : Rng} {rlaws : RngLaws rng} (prec emax : Z).
Context {St : Type} {BS : BlockStore St} {BL : BlockStoreLaws St} (cap : Limits).
Implicit Types s : Sched St.

(** What running a batch does to one of its sequences. *)
Definition moved (n : nat) (q q' : Sequence) : Prop :=
  num_kv_cache_tokens q' = num_kv_cache_tokens q + n ∧
  if decide (num_prompt_tokens_ q ≤ num_kv_cache_tokens q + n)
  then ∃ t, in_vocab v t ∧ token_ids q' = token_ids q ++ [t]
  else token_ids q' = token_ids q.

Lemma stepped_moved n q q' : num_kv_cache_tokens q + n ≤ num_tokens_ q → stepped (v := v) n q q' → moved n q q'.
Proof using.
  intros Hn Hs. assert (ck_end (chunk_of n q) = num_kv_cache_tokens q + n) as He.
  { unfold ck_end, ck_start. simpl. lia. }
  unfold stepped in Hs. unfold moved. destruct (is_prefill_stage (advance n q)) eqn:Hp.
  - assert (¬ sampled (chunk_of n q)) as Hns by (rewrite <-advance_prefill, Hp; done).
    unfold sampled in Hns. rewrite He in Hns. simpl in Hns. subst q'. rewrite advance_kv, He. split; [done|].
    rewrite decide_False by done. done.
  - apply advance_prefill in Hp. unfold sampled in Hp. rewrite He in Hp. simpl in Hp.
    destruct Hs as (t&Ht&Ha). rewrite decide_True by done. split.
    + transitivity (num_kv_cache_tokens (advance n q)); [|by rewrite advance_kv].
      unfold num_kv_cache_tokens. by rewrite (ap_kv _ _ _ Ha), (ap_engine _ _ _ Ha).
    + exists t. split; [done|]. by rewrite (ap_tokens _ _ _ Ha).
Qed.

(** C7. Every sequence of a batch makes progress when the batch runs: exactly the
    allotted tokens enter its KV cache, at least one; if that completes its prompt
    or is past it, one token of the vocabulary is appended, and otherwise its
    tokens are unchanged. *)
Theorem batch_makes_progress e s : engine_fits (v := v) cap → engine_ok e → sched_ok cap s →
  wp (on_snd build_sequence_batch) (e, s) (λ b p, sequences_ b ≠ [] →
    wp (execute_batch prec emax b) p (λ _ p',
      Forall2 (λ k n, 0 < n ∧ ∃ q q', seq_lookup k (requests p.2) = Some q ∧
        seq_lookup k (requests p'.2) = Some q' ∧ moved n q q') (sequences_ b) (token_budgets_ b))).
Proof using mlaws laws rlaws.
  intros Hfit He Hs. apply wp_on_snd. eapply wp_mono; [by apply build_sequence_batch_wp|].
  intros b s1 Hb Hne. simpl. eapply wp_mono; [by eapply execute_batch_wp|].
  intros _ p' (_&_&_&_&Hp). rewrite (bt_batch _ _ _ _ Hb). simpl. destruct (bt_jobs _ _ _ _ Hb) as [Hj _].
  unfold progress in Hp. apply Forall2_same_length_lookup. split; [by eapply Forall2_length|]. intros i k n Hk Hn.
  destruct (Forall2_lookup_lr _ _ _ _ _ _ Hj Hk Hn) as (q&Hq&Hpos&Hle&_).
  destruct (Forall2_lookup_lr _ _ _ _ _ _ Hp Hk Hn) as (q1&q'&Hq1&Hq'&Hst). split; [done|].
  assert (q1 = q) as -> by congruence. exists q, q'. split_and!; try done. by apply stepped_moved.
Qed.
End progress.

(** ** The order of service *)

(** The queue after pushing the requests one after the other. *)
Definition push_all (h : Heap) (l : list positive) : list positive := foldl (λ q x, pq_insert h x q) [] l.

Lemma push_all_snoc h l x : push_all h (l ++ [x]) = pq_insert h x (push_all h l).
Proof. unfold push_all. by rewrite foldl_app. Qed.

Lemma push_all_sorted h l : distinct_times h → NoDup l → Forall (λ x, is_Some (h !! x)) l →
  queue_sorted h (push_all h l) ∧ push_all h l ≡ₚ l.
Proof.
  intros Hd. induction l as [|x l IH] using rev_ind; intros Hn Hl; [by split; constructor|].
  apply NoDup_app in Hn as (Hn&Hx&_). apply Forall_app in Hl as [Hl Hsx]. apply Forall_cons in Hsx as [Hsx _].
  destruct (IH Hn Hl) as [Hs Hp]. rewrite push_all_snoc. rewrite Forall_forall in Hl. split.
  - apply pq_insert_sorted; [done|exact Hsx| | |done].
    + rewrite Hp. intros Hin. apply (Hx x Hin). by left.
    + intros y Hy. rewrite Hp in Hy. by apply Hl.
  - rewrite pq_insert_perm, Hp. by rewrite Permutation_app_comm.
Qed.

#[local] Instance before_antisymm h : AntiSymm (=) (before h).
Proof. intros x y Hxy Hyx. destruct (before_asym _ _ _ Hxy Hyx). Qed.

(** The order in which requests are pushed does not matter: the queue holds
    each request once, sorted by priority and then by creation time, so that the
    next request served is always one that no waiting request precedes. *)
Lemma queue_order_canonical h l l' : distinct_times h → NoDup l → Forall (λ x, is_Some (h !! x)) l → l ≡ₚ l' →
  push_all h l = push_all h l' ∧ push_all h l ≡ₚ l ∧
  (∀ x q, push_all h l = x :: q → ∀ y, y ∈ q → before h x y).
Proof.
  intros Hd Hn Hl Hp. destruct (push_all_sorted h l Hd Hn Hl) as [S1 P1].
  destruct (push_all_sorted h l' Hd) as [S2 P2]; [by rewrite <-Hp..|]. split_and!; [|done|].
  - apply (StronglySorted_unique (before h)); [done..|]. by rewrite P1, P2.
  - intros x q Hq y Hy. rewrite Hq in S1. apply StronglySorted_cons in S1 as [Hall _].
    rewrite Forall_forall in Hall. by apply Hall.
Qed.

(** ** The small server *)

Abbreviation toy_store := (BlockManager_store (clk := ticks)).
Abbreviation toy_laws := (BlockManager_store_laws (clk := ticks)).

(** The state with one request that waits to be scheduled for the first time. *)
Lemma toy_waiting_ok : sched_ok (BL := toy_laws) toy_limits (srv_sched toy_server2).
Proof.
  assert (handler_ok (BL := toy_laws) toy_env toy_limits toy_called) as Hc.
  { destruct toy_server_ok as [_ Hh]. exact (proj1 (wp_value _ _ _ _ (schedule_async_wp _ _ toy_job _ Hh toy_servable))). }
  assert (fresh 1 10 (h_sched toy_called)) as Hf.
  { split; [vm_compute; reflexivity|]. vm_compute. intros ? ? H. discriminate. }
  exact (ho_sched _ _ _ (proj1 (wp_value _ _ _ _ (handling_step_wp (en := toy_encoder) _ _ 1 10 _ Hc Hf)))).
Qed.


(** The same state after the queue of new requests was drained. *)
Definition toy_drained : Sched BlockManager :=
  (ok_value (drain_queue (St := BlockManager) (srv_sched toy_server2)) eq_refl).2.

Lemma toy_drained_ok : waiting_but (BL := toy_laws) toy_limits [] toy_drained [] [].
Proof. exact (proj1 (wp_value _ _ _ _ (drain_queue_wp (BL := toy_laws) toy_limits _ toy_waiting_ok))). Qed.

Lemma schedule_loop_ends_witness :
  ∃ r, ∀ fuel, 1 < fuel → schedule_loop (BS := toy_store) fuel 4 8 2 (cleared toy_drained) = Ok r.
Proof.
  exact (schedule_loop_ends (BL := toy_laws) toy_limits 8 2 4 (cleared toy_drained) 8 2
    (loop_start (BL := toy_laws) toy_limits toy_drained toy_drained_ok) ltac:(lia) ltac:(lia) ltac:(lia)).
Defined.

Lemma batch_makes_progress_witness :
  wp (on_snd (build_sequence_batch (BS := toy_store))) (toy_engine, srv_sched toy_server2) (λ b p, sequences_ b ≠ [] →
    wp (execute_batch (md := toy_model) (th := plain_torch) (rng := toy_rng) 24 128 b) p (λ _ p',
      Forall2 (λ k n, 0 < n ∧ ∃ q q', seq_lookup k (requests p.2) = Some q ∧
        seq_lookup k (requests p'.2) = Some q' ∧ moved (v := 4) n q q') (sequences_ b) (token_budgets_ b))).
Proof.
  exact (batch_makes_progress (BL := toy_laws) (laws := plain_torch_laws) 24 128 toy_limits toy_engine (srv_sched toy_server2) toy_fits
    (LLMEngine_new_ok _ _ _ (ok_value_eq _ _)) toy_waiting_ok).
Defined.

(** Two requests of the same priority, and one of a higher. *)
Definition request_at (t : Z) (p : Priority) : Request :=
  mkRequest t [] [] 1 1 false 0 SamplingParameter_default StoppingCriteria_default false false p [] false.
Definition three_requests : Heap :=
  <[1%positive := request_at 10 NORMAL]> (<[2%positive := request_at 20 HIGH]> (<[3%positive := request_at 5 NORMAL]> ∅)).

Lemma queue_order_canonical_example : push_all three_requests [1; 2; 3]%positive = [2; 3; 1]%positive ∧
  push_all three_requests [1; 2; 3]%positive = push_all three_requests [3; 1; 2]%positive.
Proof.
  split; [vm_compute; reflexivity|].
  destruct (queue_order_canonical three_requests [1; 2; 3]%positive [3; 1; 2]%positive) as [H _]; [| | | |exact H].
  - intros a b ra rb Ha Hb. unfold three_requests in Ha, Hb. rewrite !lookup_insert_Some, lookup_empty in Ha, Hb.
    intros Hp Hc. naive_solver.
  - repeat constructor; set_solver.
  - repeat constructor; eexists; vm_compute; reflexivity.
  - apply (Permutation_app_comm [1; 2]%positive [3]%positive).
Defined.
