(* ===== verification/HandlerProps.v ===== *)
(** * Properties of the request handler

    Which requests are refused, what an accepted request looks like, and an input
    that passes the checks but stops the server later. *)

From Stdlib Require Import Ascii SpecFloat.
From stdpp Require Import base tactics list gmap strings sorting relations.
From S2P Require Import Prelude Slice Block Types Stopping Decoder Sequence SequenceInv BlockManager.
From S2P Require Import BlockManagerInv BlockManagerProps RequestProps Request Sampling Batch.
From S2P Require Import BlockStore ResponseHandler RequestInv Scheduler Handler SchedulerInv.
From S2P Require Import SchedulerBuild EngineInv HandlerInv Server ServerProps SchedulerProps.

(** ** Creating a request *)

(** With verified parameters [create_request] never fails a check: it refuses
    with [INVALID_ARGUMENT] exactly the prompts that are empty, cannot be encoded,
    are as long as the context, or come with a stop string that cannot be
    encoded, and otherwise returns a well-formed request with one sequence, no
    blocks, and the fields the parameters ask for. *)
Lemma created_request_valid {en : Encoder} `{!EncoderLaws en} {S} env cap bs now t sp prio str (s : S) :
  verify_params sp = None → servable env cap sp →
  ∃ c, create_request env now t sp prio str s = Ok (c, s) ∧
    match c with
    | inl err => code_ err = INVALID_ARGUMENT ∧ refused env t sp
    | inr r => ¬ refused env t sp ∧ created now t sp prio str r ∧ req_ok bs cap r ∧ req_blocks r = []
    end.
Proof.
  intros Hv Hs. destruct (wp_ok _ _ _ (create_request_wp env cap bs now t sp prio str s Hv Hs)) as (c&?&Hc&->&H).
  by exists c.
Qed.

Lemma created_request_valid_example :
  ∃ r, create_request (en := toy_encoder) toy_env 10 (ascii_of_nat <$> [72; 105]) toy_params NORMAL true tt = Ok (inr r, tt) ∧
    prompt_tokens r = [72; 105]%Z ∧ stream r = true.
Proof.
  destruct (created_request_valid (en := toy_encoder) toy_env toy_limits 2 10 (ascii_of_nat <$> [72; 105]) toy_params NORMAL true tt
    eq_refl toy_servable) as (c&Hc&H).
  destruct c as [err|r]; [exfalso|].
  - destruct H as [_ [?|[?|[(ids&[= <-]&Hl)|Hx]]]]; [done|done| |by apply Exists_nil in Hx]. vm_compute in Hl. lia.
  - exists r. split; [exact Hc|]. destruct H as (_&Hcr&_). pose proof (cr_tokens _ _ _ _ _ _ Hcr) as Ht.
    pose proof (cr_stream _ _ _ _ _ _ Hcr) as Hst. split; [by injection Ht|exact Hst].
Defined.

(** ** Jobs *)

(** A job ends in one of two ways and the promise and the callback agree: it
    is refused with an error and the scheduler keeps its requests, or its request
    is created and waits at the end of the queue of new requests; in both cases
    one pending request is counted down and the invariant of the scheduler
    holds. *)
Lemma job_outcome {en : Encoder} `{!EncoderLaws en} env cap {St} {BS : BlockStore St} {BL : BlockStoreLaws St}
    rid now j (s : Sched St) :
  sched_ok cap s → fresh rid now s → servable env cap (job_sp j) → 0 < pending_requests_ s →
  ∃ res s', handle env rid now j s = Ok (res, s') ∧ sched_ok cap s' ∧
    pending_requests_ s' = pending_requests_ s - 1 ∧ handled rid now j s res s'.
Proof.
  intros H1 H2 H3 H4. destruct (wp_ok _ _ _ (handle_wp env cap rid now j s H1 H2 H3 H4)) as (res&s'&?&?&_&?&?). eauto 6.
Qed.

Lemma job_outcome_example : ∃ res s',
  handle (en := toy_encoder) toy_env 1 10 toy_job (srv_sched toy_server1) = Ok (res, s') ∧ res = (true, None) ∧
  request_queue_ s' = [1%positive].
Proof.
  assert (handler_ok (BL := toy_laws) toy_env toy_limits toy_called) as Hc.
  { destruct toy_server_ok as [_ Hh]. exact (proj1 (wp_value _ _ _ _ (schedule_async_wp _ _ toy_job _ Hh toy_servable))). }
  assert (fresh 1 10 (h_sched toy_called)) as Hf.
  { split; [vm_compute; reflexivity|]. vm_compute. intros ? ? H. discriminate. }
  destruct (job_outcome (en := toy_encoder) (BL := toy_laws) toy_env toy_limits 1 10 toy_job (srv_sched toy_server1)
    (ho_sched _ _ _ Hc) Hf toy_servable) as (res&s'&Hrun&_&_&Hh); [vm_compute; lia|].
  exists res, s'. split; [exact Hrun|].
  destruct res as [[] [err|]]; [done| |exfalso|done].
  - split; [done|]. destruct Hh as (_&Hq&_). rewrite Hq. vm_compute. reflexivity.
  - vm_compute in Hrun. discriminate.
Defined.

(** ** A stop string that is empty *)

(** Adding a sequence does not look at the stopping criteria. *)
Lemma add_sequence_runs r : prompt_tokens r ≠ [] → length (prompt_tokens r) < seq_capacity r →
  ∃ q, add_sequence r = Ok (tt, set_sequences (sequences r ++ [q]) r).
Proof.
  intros Hne Hl. unfold add_sequence, get, mbind, M_bind. unfold Sequence_new.
  rewrite decide_False by done. rewrite decide_False by lia.
  match goal with |- context [for_each add_prompt_token ?ids ?s0] =>
    destruct (wp_ok _ _ _ (add_prompt_tokens_wp ids s0 ltac:(simpl; rewrite length_replicate; lia)
      ltac:(intros x; done))) as (u&q&Heq&_); rewrite Heq end.
  by exists q.
Qed.

(** C36. The parameters are not checked for an empty stop string: with a tokenizer
    that encodes it to no tokens the request is accepted, and deciding whether one
    of its sequences is finished then reads the last token of an empty vector. *)
Theorem empty_stop_fails {en : Encoder} {S T} env now t sp prio str ids (s : S) (u : T) :
  verify_params sp = None → prm_stop sp = Some [[]] → tk_encode [] = Some [] →
  tk_encode t = Some ids → ids ≠ [] → t ≠ [] → length ids < size_of_Z (max_position_embeddings (model_args_ env)) →
  ∃ r, create_request env now t sp prio str s = Ok (inr r, s) ∧
    ∀ l x n, x ≠ eos_token_id (req_stopping_criteria r) → x ∉ stop_token_ids (req_stopping_criteria r) →
      check_finished (req_stopping_criteria r) (l ++ [x]) n u = Fail OutOfBounds.
Proof.
  intros Hv Hstop Hnil Hids Hne Ht Hlen. pose proof (verify_params_n _ Hv) as Hn.
  unfold create_request. rewrite decide_False by done. rewrite Hids, decide_False by lia.
  unfold Request_new. rewrite decide_True by lia. rewrite Hstop. simpl. rewrite Hnil. simpl.
  match goal with |- context [add_sequence ?r] => destruct (add_sequence_runs r) as [q Hq] end.
  - done.
  - simpl. lia.
  - rewrite Hq. eexists. split; [done|]. simpl. intros l x n He Hx. unfold check_finished. simpl.
    unfold mbind, M_bind, check, back. rewrite bool_decide_true by (by destruct l).
    rewrite last_snoc. simpl. rewrite (bool_decide_false (x = _)), andb_false_r, bool_decide_false by done. done.
Qed.

Definition empty_stop_params : SamplingParams :=
  mkSamplingParams 2 1 None false (float_of_Z 0) (float_of_Z 0) (float_of_Z 1) (float_of_Z 1) (float_of_Z 1)
    (-1) false 0 true false (Some [[]]) None.

Lemma empty_stop_fails_witness :
  ∃ r, create_request (en := toy_encoder) toy_env 10 (ascii_of_nat <$> [72; 105]) empty_stop_params NORMAL true tt = Ok (inr r, tt) ∧
    ∀ l x n, x ≠ eos_token_id (req_stopping_criteria r) → x ∉ stop_token_ids (req_stopping_criteria r) →
      check_finished (req_stopping_criteria r) (l ++ [x]) n tt = Fail OutOfBounds.
Proof.
  apply (empty_stop_fails (en := toy_encoder) toy_env 10 (ascii_of_nat <$> [72; 105]) empty_stop_params NORMAL true [72; 105]%Z tt tt).
  - vm_compute. reflexivity.
  - done.
  - done.
  - vm_compute. reflexivity.
  - done.
  - done.
  - apply (Nat.lt_le_trans _ 8); [simpl; lia|]. vm_compute. lia.
Defined.
