(* ===== verification/EngineProps.v ===== *)
(** * Properties of the engine

    The size of the KV cache, the choice of a captured graph, and what the model
    reads for a batch. *)

From Stdlib Require Import SpecFloat.
From stdpp Require Import base tactics list gmap strings sorting sets.
From S2P Require Import Prelude Slice Block Types Stopping Decoder Sequence SequenceInv BlockManager.
From S2P Require Import BlockManagerInv BlockManagerProps BlockStore RequestProps Request Sampling.
From S2P Require Import Batch BatchInv ResponseHandler Engine Logits LogitsInv Sampler Rejection.
From S2P Require Import Speculative.

(** ** The KV cache *)

Lemma smallest_le o devices : ∀ acc, let m := foldl (λ acc d, match d with
    | Some (available, total) => Z.min acc (usable_memory o available total)
    | None => acc end) acc devices in
  (m ≤ acc)%Z ∧ ∀ a t, Some (a, t) ∈ devices → (m ≤ usable_memory o a t)%Z.
Proof.
  induction devices as [|d devices IH]; intros acc m.
  { split; [done|]. by intros a t ?%elem_of_nil. }
  destruct (IH (match d with Some (a, t) => Z.min acc (usable_memory o a t) | None => acc end)) as [H1 H2].
  change (foldl _ _ devices) with m in H1, H2. split.
  - destruct d as [[a t]|]; lia.
  - intros a t [<-|Hin]%elem_of_cons; [lia|by apply H2].
Qed.

Lemma usable_memory_cap o a t : (0 < eo_max_cache_size o)%Z → (usable_memory o a t ≤ eo_max_cache_size o)%Z.
Proof. intros H. unfold usable_memory. rewrite (decide_True (P := (0 < _)%Z)) by done. lia. Qed.


(** One device with 1000 bytes free, and a limit of 100. *)
Definition small_options : EngineOptions := mkEngineOptions 2 100 (double_of_size 1) true 1 false None.


(** The captured graph that a batch runs in is the smallest one that holds
    it; without one the batch runs as it is. *)
Lemma graph_is_smallest n l : StronglySorted le l →
  match lower_bound n l with
  | Some m => m ∈ l ∧ n ≤ m ∧ ∀ x, x ∈ l → n ≤ x → m ≤ x
  | None => ∀ x, x ∈ l → x < n
  end.
Proof.
  intros Hl. unfold lower_bound. destruct (list_find _ l) as [[i m]|] eqn:Hf; simpl.
  - apply list_find_Some in Hf as (Hi&Hm&Hbefore). split_and!; [by eapply list_elem_of_lookup_2|done|].
    intros x [j Hj]%list_elem_of_lookup Hx. destruct (decide (j < i)) as [Hji|Hji]; [destruct (Hbefore j x Hj Hji Hx)|].
    destruct (decide (j = i)) as [->|Hne]; [simplify_eq; done|].
    rewrite <-(take_drop_middle l i m Hi) in Hl. apply StronglySorted_app in Hl as (_&_&Hl).
    apply StronglySorted_cons in Hl as [Hall _]. rewrite Forall_forall in Hall. apply Hall.
    apply list_elem_of_lookup. exists (j - S i). rewrite lookup_drop. by replace (S i + (j - S i)) with j by lia.
  - apply list_find_None in Hf. rewrite Forall_forall in Hf. intros x Hx. specialize (Hf x Hx). lia.
Qed.

Lemma default_graph_for_5 : lower_bound 5 kDefaultBatchSizesForCudaGraph = Some 8 ∧
  ∀ x, x ∈ kDefaultBatchSizesForCudaGraph → 5 ≤ x → 8 ≤ x.
Proof.
  assert (StronglySorted le kDefaultBatchSizesForCudaGraph) as Hs by (repeat constructor; lia).
  pose proof (graph_is_smallest 5 kDefaultBatchSizesForCudaGraph Hs) as H. vm_compute in H. split; [done|]. apply H.
Defined.

(** ** The input of the model *)

(** C8. The input that a batch prepares is the concatenation, in the order of the
    batch, of the unprocessed tokens that each budget allows, with their positions
    and their KV cache slots, followed by padding only; scores are selected from
    the last prompt token on, one sample is drawn for exactly the sequences that
    reach the end of their prompt, and each sequence's KV position moves to the
    end of its part. *)
Theorem input_is_concatenation {K St} `{HS : SeqHeap K St} {HL : SeqHeapLaws K St} bs js st nd mb :
  0 < bs → js ≠ [] → NoDup (jb_key <$> js) → jobs_ready bs js st →
  (Z.of_nat (sum_list (ck_end <$> (job_chunk <$> js))) < 2 ^ 31)%Z →
  wp (prepare_model_input nd mb) (mkBatch (jb_key <$> js) (jb_budget <$> js) (replicate (length js) 0), st)
    (λ r p, ∃ mi, r = Some mi ∧ input_ok bs (job_chunk <$> js) mi ∧ p.2 = advance_all js st).
Proof.
  intros Hbs Hne Hnd Hr Hs. eapply wp_mono; [by apply (prepare_model_input_wp bs js st nd mb)|].
  intros r p ((mi&->&Hi)&Hp&_). by exists mi.
Qed.

(** A sequence of five prompt tokens on three blocks, of which four tokens are
    processed. *)
Definition seq_b : Sequence := set_blocks [mkBlock 1 2 None false; mkBlock 3 2 None false; mkBlock 2 2 None false] seq_a.
Definition request_b : Request :=
  mkRequest 0 [] [1; 2; 3; 4; 5]%Z 1 1 false 16 SamplingParameter_default StoppingCriteria_default false false NORMAL [seq_b] false.
Definition job_b : Job (positive * nat) := mkJob (1%positive, 0) 4 seq_b.

Lemma job_b_ready : jobs_ready 2 [job_b] ({[1%positive := request_b]} : Heap).
Proof.
  constructor; [|constructor]. split_and!; [vm_compute; reflexivity|vm_compute; lia|].
  assert (seq_inv seq_a) as Hi by (apply new_sequence_inv; [done|simpl; lia]).
  split; [by apply seq_inv_set_blocks|vm_compute; lia|vm_compute; lia| |vm_compute; reflexivity].
  repeat constructor; vm_compute; first [reflexivity|discriminate].
Qed.

Lemma input_is_concatenation_witness :
  wp (prepare_model_input 1 0) (mkBatch [(1%positive, 0)] [4] [0], {[1%positive := request_b]} : Heap) (λ r p,
    ∃ mi, r = Some mi ∧ mi_token_ids mi = [1; 2; 3; 4]%Z ∧ mi_new_cache_slots mi = [2; 3; 6; 7]%Z).
Proof.
  eapply wp_mono_ok; [apply (input_is_concatenation 2 [job_b] ({[1%positive := request_b]} : Heap) 1 0)|].
  - lia.
  - done.
  - apply NoDup_singleton.
  - exact job_b_ready.
  - vm_compute. reflexivity.
  - intros r p Hrun (mi&->&_&_). exists mi. split; [done|]. vm_compute in Hrun. by simplify_eq.
Defined.

(** ** Properties of speculative decoding

    Which proposals are kept, that greedy decoding does not change, and a check of
    the initialisation that does not check. *)

(** ** The mask *)

(** The mask keeps the tokens up to the first rejected one, which the target
    model replaces, and nothing after it; when no token is rejected it keeps all
    of them and the bonus token. *)
Lemma mask_keeps_prefix {th : Torch} `{!TorchLaws th} accepted :
  ∃ k, build_accepted_mask accepted = replicate (S k) true ++ replicate (length accepted - k) false ∧
    Forall (λ b, b = true) (take k accepted) ∧ k ≤ length accepted ∧
    (k < length accepted → accepted !! k = Some false).
Proof.
  assert (∃ k l, accepted = replicate k true ++ l ∧ (l = [] ∨ ∃ l', l = false :: l')) as (k&l&->&Hl).
  { induction accepted as [|[] l (k&l'&->&Hl')]; [by exists 0, []; auto|by exists (S k), l'|].
    exists 0, (false :: replicate k true ++ l'). split; [done|]. right. by eexists. }
  exists k. assert (Forall (λ b, b = true) (take k (replicate k true ++ l))) as Ht.
  { rewrite take_app_length' by (by rewrite length_replicate). by apply Forall_replicate. }
  destruct Hl as [->|[l' ->]].
  - rewrite app_nil_r in *. rewrite length_replicate, Nat.sub_diag, build_accepted_mask_all, app_nil_r.
    split_and!; [done..|lia].
  - rewrite build_accepted_mask_spec, length_app, length_replicate. simpl.
    replace (k + S (length l') - k) with (S (length l')) by lia. split_and!; [done|done|lia|]. intros _.
    by rewrite lookup_app_r, length_replicate, Nat.sub_diag by (by rewrite length_replicate).
Qed.

Lemma mask_keeps_prefix_example :
  build_accepted_mask (th := plain_torch) [true; true; false; true] = [true; true; true; false; false] ∧
  ∃ k, build_accepted_mask (th := plain_torch) [true; true; false; true] =
    replicate (S k) true ++ replicate (4 - k) false.
Proof.
  split; [vm_compute; reflexivity|].
  destruct (mask_keeps_prefix (th := plain_torch) [true; true; false; true]) as (k&H&_). by exists k.
Defined.

(** ** Greedy decoding *)

(** C9. Speculation does not change greedy decoding: whatever the draft model
    proposes, the tokens that survive rejection sampling are the next tokens that
    the target model would decode greedily on its own, one more than the draft
    tokens it agrees with, so at least one; everything after them is masked. *)
Theorem speculation_lossless {th : Torch} `{!TorchLaws th} (probs : list Z → list float) ctx draft :
  let kept := agreed probs ctx draft in
  (rejection_greedy draft (verified probs ctx draft) (greedy_sample (probs (ctx ++ draft)))).2 =
    greedy_decode probs (S kept) ctx ++ replicate (length draft - kept) (-1)%Z ∧
  take kept draft = take kept (greedy_decode probs (S kept) ctx) ∧ kept ≤ length draft.
Proof.
  cbn zeta. split_and!; [apply rejection_greedy_spec| |apply agreed_le].
  revert ctx. induction draft as [|t draft IH]; intros ctx; [done|].
  cbn [agreed]. case_decide as Ht; [|done].
  change (greedy_decode probs (S (S (agreed probs (ctx ++ [t]) draft))) ctx) with
    (greedy_sample (probs ctx) :: greedy_decode probs (S (agreed probs (ctx ++ [t]) draft)) (ctx ++ [greedy_sample (probs ctx)])).
  rewrite !firstn_cons, Ht. f_equal. apply IH.
Qed.

(** A target model that counts up, with a draft that is right once. *)
Definition counting (ctx : list Z) : list float :=
  (λ i, float_of_Z (if decide (i = length ctx) then 1 else 0)) <$> seq 0 8.

Lemma speculation_lossless_witness :
  (rejection_greedy (th := plain_torch) [2; 7; 4]%Z (verified counting [0; 1]%Z [2; 7; 4]%Z)
    (greedy_sample (th := plain_torch) (counting ([0; 1] ++ [2; 7; 4])%Z))).2 = [2; 3; -1; -1]%Z.
Proof.
  destruct (speculation_lossless (th := plain_torch) counting [0; 1]%Z [2; 7; 4]%Z) as (H&_).
  etransitivity; [exact H|]. vm_compute. reflexivity.
Defined.

(** ** Tokenizers *)

(** Two tokenizers of the same size that both encode the test text are accepted,
    whatever they encode it to. *)
Lemma different_tokenizers_accepted n d t : tokenizers_compatible n n (true, d) (true, t) = true.
Proof. unfold tokenizers_compatible. by rewrite decide_False by (intros H; done). Qed.
