(* ===== verification/CallData.v ===== *)
(** * The state of a streaming call

    [src/handlers/call_data.h]: [StreamCallData] sends the messages of one call.
    The thread that produces the messages stores each in [response_], sets an alarm
    and reads [rpc_ok_]; the handler thread takes the alarms and the ends of the
    operations from the completion queue and runs [proceed].  The two interleave at
    the accesses of the atomic fields.  The completion queue is the list of the
    outstanding events of this call; gRPC may report any of them next, as done or
    as failed. *)

From stdpp Require Import base tactics list relations strings.
From S2P Require Import Prelude Api.

(** ** Data *)

(** [StreamCallData::Status]. *)
Inductive CallStatus := CREATE | WRITE | PENDING | FINISH.

(** [grpc::Status]. *)
Definition GrpcStatus : Type := GrpcCode * string.

(** [StreamCallData::ResponseWithState]. *)
Record ResponseWithState (R : Type) := mkRws {
  rs_response : option R;
  rs_grpc_status : option GrpcStatus;
}.
Arguments mkRws {R} _ _.
Arguments rs_response {R} _.
Arguments rs_grpc_status {R} _.

(** What an event of the queue is about; all carry the call as their tag. *)
Inductive Event := NewCall | AlarmSet | OpDone.
#[global] Instance Event_eq_dec : EqDecision Event.
Proof. solve_decision. Defined.

(** Where the producer is: before its next message, between storing it and setting
    the alarm, or before it reads [rpc_ok_]. *)
Inductive Phase := Ready | Stored | Notified.

(** A call: the fields of the object, the operations on its responder, the queue,
    whether the object is allocated, and the producer with the messages it has
    still to send. *)
Record CallState (R : Type) := mkCallState {
  cs_status : CallStatus;
  cs_response : option (ResponseWithState R);
  cs_rpc_ok : bool;
  cs_ops : list (CallOp R);
  cs_events : list Event;
  cs_spawned : nat;
  cs_started : bool;
  cs_alive : bool;
  cs_phase : Phase;
  cs_todo : list (CallOp R);
}.
Arguments mkCallState {R} _ _ _ _ _ _ _ _ _ _.
Arguments cs_status {R} _.
Arguments cs_response {R} _.
Arguments cs_rpc_ok {R} _.
Arguments cs_ops {R} _.
Arguments cs_events {R} _.
Arguments cs_spawned {R} _.
Arguments cs_started {R} _.
Arguments cs_alive {R} _.
Arguments cs_phase {R} _.
Arguments cs_todo {R} _.

Section call.
Context {R : Type}.
Implicit Types s : CallState R.

Definition set_status (x : CallStatus) s : CallState R :=
  mkCallState x (cs_response s) (cs_rpc_ok s) (cs_ops s) (cs_events s) (cs_spawned s) (cs_started s)
    (cs_alive s) (cs_phase s) (cs_todo s).
Definition set_response (x : option (ResponseWithState R)) s : CallState R :=
  mkCallState (cs_status s) x (cs_rpc_ok s) (cs_ops s) (cs_events s) (cs_spawned s) (cs_started s)
    (cs_alive s) (cs_phase s) (cs_todo s).
Definition set_rpc_ok (x : bool) s : CallState R :=
  mkCallState (cs_status s) (cs_response s) x (cs_ops s) (cs_events s) (cs_spawned s) (cs_started s)
    (cs_alive s) (cs_phase s) (cs_todo s).
Definition set_events (x : list Event) s : CallState R :=
  mkCallState (cs_status s) (cs_response s) (cs_rpc_ok s) (cs_ops s) x (cs_spawned s) (cs_started s)
    (cs_alive s) (cs_phase s) (cs_todo s).
Definition set_alive (x : bool) s : CallState R :=
  mkCallState (cs_status s) (cs_response s) (cs_rpc_ok s) (cs_ops s) (cs_events s) (cs_spawned s) (cs_started s)
    x (cs_phase s) (cs_todo s).
Definition set_producer (ph : Phase) (l : list (CallOp R)) s : CallState R :=
  mkCallState (cs_status s) (cs_response s) (cs_rpc_ok s) (cs_ops s) (cs_events s) (cs_spawned s) (cs_started s)
    (cs_alive s) ph l.

(** An operation on the responder, which puts its end on the queue. *)
Definition issue (o : CallOp R) s : CallState R :=
  mkCallState (cs_status s) (cs_response s) (cs_rpc_ok s) (cs_ops s ++ [o]) (cs_events s ++ [OpDone])
    (cs_spawned s) (cs_started s) (cs_alive s) (cs_phase s) (cs_todo s).

(** [new StreamCallData(cq_, on_register_, on_new_request_)]. *)
Definition spawn s : CallState R :=
  mkCallState (cs_status s) (cs_response s) (cs_rpc_ok s) (cs_ops s) (cs_events s)
    (S (cs_spawned s)) (cs_started s) (cs_alive s) (cs_phase s) (cs_todo s).

(** [on_new_request_(this)]: the producer may start. *)
Definition on_new_request s : CallState R :=
  mkCallState (cs_status s) (cs_response s) (cs_rpc_ok s) (cs_ops s) (cs_events s)
    (cs_spawned s) true (cs_alive s) (cs_phase s) (cs_todo s).

(** The constructor registers the call for one request. *)
Definition StreamCallData_new (msgs : list (CallOp R)) : CallState R :=
  mkCallState CREATE None true [] [NewCall] 0 false true Ready msgs.

(** ** The producer *)

(** [write], [write_and_finish] and [finish] pack the message. *)
Definition pack (o : CallOp R) : ResponseWithState R :=
  match o with
  | Write r => mkRws (Some r) None
  | WriteAndFinish r code msg => mkRws (Some r) (Some (code, msg))
  | FinishCall code msg => mkRws None (Some (code, msg))
  end.

(** [send_response], in its three atomic accesses: the compare-and-exchange that
    succeeds, the alarm, and the load of [rpc_ok_]. *)
Definition send_store (o : CallOp R) (l : list (CallOp R)) s : CallState R :=
  set_producer Stored l (set_response (Some (pack o)) s).
Definition send_alarm s : CallState R :=
  set_producer Notified (cs_todo s) (set_events (cs_events s ++ [AlarmSet]) s).
Definition send_load s : bool * CallState R :=
  (cs_rpc_ok s, set_producer Ready (cs_todo s) s).

(** ** The handler thread *)

(** [proceed]: whether the call goes on. *)
Definition proceed (rpc_ok : bool) : M (CallState R) bool :=
  (* record the rpc status *)
  _ ← (if rpc_ok then mret tt else modify (set_rpc_ok false));
  cd ← get;
  let rpc_ok := rpc_ok && cs_rpc_ok cd in
  match cs_status cd with
  | CREATE =>
      (* a new instance serves new clients *)
      _ ← modify spawn;
      if negb rpc_ok then mret false
      else
        _ ← modify (set_status WRITE);
        _ ← modify on_new_request;
        mret true
  | WRITE =>
      match cs_response cd with
      | None => mret true
      | Some rs =>
          match rs_response rs, rs_grpc_status rs with
          | Some r, Some (code, msg) =>
              if rpc_ok then
                _ ← modify (set_status FINISH);
                _ ← modify (issue (WriteAndFinish r code msg));
                mret true
              else mret false
          | Some r, None =>
              if rpc_ok then
                _ ← modify (set_status PENDING);
                _ ← modify (issue (Write r));
                mret true
              else
                (* wait for the finish alarm *)
                _ ← modify (set_response None);
                mret true
          | None, st =>
              if rpc_ok then
                _ ← modify (set_status FINISH);
                st ← from_option_or OutOfBounds st;
                _ ← modify (issue (FinishCall st.1 st.2));
                mret true
              else mret false
          end
      end
  | PENDING =>
      (* the write op has been finished, proceed to the next write op *)
      _ ← modify (set_status WRITE);
      _ ← modify (set_response None);
      mret true
  | FINISH => mret false
  end.

(** [GrpcServer::handle_rpcs]: an event of the call, which is deleted when it does
    not go on. *)
Definition handle_event (rpc_ok : bool) : M (CallState R) unit :=
  go ← proceed rpc_ok;
  if (go : bool) then mret tt else modify (set_alive false).

(** ** Steps *)

Inductive call_step : CallState R → CallState R → Prop :=
  | step_event s l1 e l2 rpc_ok s' :
      cs_events s = l1 ++ e :: l2 →
      handle_event rpc_ok (set_events (l1 ++ l2) s) = Ok (tt, s') →
      call_step s s'
  | step_store s o l :
      cs_started s = true → cs_phase s = Ready → cs_todo s = o :: l → cs_response s = None →
      call_step s (send_store o l s)
  | step_alarm s :
      cs_phase s = Stored → call_step s (send_alarm s)
  | step_load s :
      cs_phase s = Notified → call_step s (send_load s).2.

End call.
