(* ===== verification/ApiProps.v ===== *)
(** * Properties of the gRPC handlers

    What a client of a streaming chat call receives, and when its call ends. *)

From Stdlib Require Import Ascii SpecFloat.
From stdpp Require Import base tactics list gmap sets strings.
From S2P Require Import Prelude Slice Types Stopping Decoder Sequence Request Sampling Batch.
From S2P Require Import SequenceInv RequestInv Handler Api RequestProps.

(** ** The chunks of a chat call *)

Definition body (o : SequenceOutput) : list (CallOp (Response ChatChoice)) :=
  (if decide (so_text o ≠ []) then [Write (chat_text o)] else []) ++
  (match so_finish_reason o with Some reason => [Write (chat_finish o reason)] | None => [] end).

(** The reference: the role once, then the text and the finish reason of every
    output. *)
Fixpoint chat_chunks (seen : gset nat) (os : list SequenceOutput) : list (CallOp (Response ChatChoice)) :=
  match os with
  | [] => []
  | o :: os' =>
      (if decide (so_index o ∈ seen) then [] else [Write (chat_role (so_index o))]) ++
      body o ++ chat_chunks ({[so_index o]} ∪ seen) os'
  end.

(** Sending an operation. *)
Lemma call_do_wp {R} (o : CallOp R) c :
  wp (call_do o) c (λ b c', c' = mkCall (call_ops c ++ [o]) (call_gone c) ∧
    (b = false → call_gone c < length (call_ops c ++ [o]))).
Proof.
  unfold call_do. wp_steps. split; [done|]. rewrite bool_decide_eq_false, length_app. simpl. lia.
Qed.

(** [m] sends the operations [l] and the client is told so, unless it is gone. *)
Definition sends {R} (l : list (CallOp R)) (c : Call R) (b : bool) (c' : Call R) : Prop :=
  ∃ l', call_ops c' = call_ops c ++ l' ∧ call_gone c' = call_gone c ∧
    (b = false → call_gone c < length (call_ops c')) ∧ (b = true → l' = l).

Lemma sends_none {R} (c : Call R) : sends [] c true c.
Proof. exists []. by rewrite app_nil_r. Qed.

Lemma call_do_sends {R} (o : CallOp R) c : wp (call_do o) c (λ b c', sends [o] c b c').
Proof. eapply wp_mono; [apply call_do_wp|]. intros b c' [-> Hb]. by exists [o]. Qed.

Lemma sends_trans {R} (l1 l2 : list (CallOp R)) c c1 b c2 :
  sends l1 c true c1 → sends l2 c1 b c2 → sends (l1 ++ l2) c b c2.
Proof.
  intros (k1&E1&G1&_&T1) (k2&E2&G2&F2&T2). rewrite (T1 eq_refl) in E1.
  exists (l1 ++ k2). split_and!; [by rewrite E2, E1, app_assoc|congruence|by rewrite <-G1|]. intros Hb. by rewrite T2.
Qed.

Lemma sends_stop {R} (l1 l2 : list (CallOp R)) c c' : sends l1 c false c' → sends (l1 ++ l2) c false c'.
Proof. intros (k&E&G&F&_). by exists k. Qed.

(** Continuing only while the client is there. *)
Lemma sends_bind {T R} (m k : M (T * Call R) bool) t c (P : T → Prop) l1 l2 (Q : T → Prop) :
  wp m (t, c) (λ b p, sends l1 c b p.2 ∧ (b = true → P p.1)) →
  (∀ t' c', P t' → wp k (t', c') (λ b p, sends l2 c' b p.2 ∧ (b = true → Q p.1))) →
  wp (b ← m; if negb b then mret false else k) (t, c) (λ b p, sends (l1 ++ l2) c b p.2 ∧ (b = true → Q p.1)).
Proof.
  intros Hm Hk. wp_steps. eapply wp_mono; [exact Hm|]. intros [] [t' c'] [Hs HP]; simpl in *.
  - eapply wp_mono; [apply Hk, HP; done|]. intros b p [Hs' HQ]. split; [by eapply sends_trans|done].
  - wp_steps. split; [by apply sends_stop|done].
Qed.

Lemma wp_get_bind {S A} (k : S → M S A) s Q : wp (k s) s Q → wp (get ≫= k) s Q.
Proof. done. Qed.

Lemma chat_deltas_sends os : ∀ seen c,
  wp (chat_deltas os) (seen, c) (λ b p, sends (chat_chunks seen os) c b p.2 ∧
    (b = true → p.1 = list_to_set (so_index <$> os) ∪ seen)).
Proof.
  induction os as [|o os IH]; intros seen c; simpl.
  { apply wp_ret. split; [apply sends_none|]. intros _. simpl. set_solver. }
  apply wp_get_bind. cbn [fst]. unfold body. rewrite <-app_assoc.
  pose (Q := λ t : gset nat, t = (list_to_set (so_index <$> o :: os) ∪ seen : gset nat)).
  apply (sends_bind _ _ _ _ (λ t, t = {[so_index o]} ∪ seen) _ _ Q).
  { case_decide; [wp_steps; split; [apply sends_none|set_solver]|].
    wp_steps. apply wp_on_fst. wp_steps. apply wp_on_snd. eapply wp_mono; [apply call_do_sends|]. by intros b c'. }
  intros t' c1 ->. apply (sends_bind _ _ _ _ (λ t, t = {[so_index o]} ∪ seen) _ _ Q).
  { case_decide; [|wp_steps; split; [apply sends_none|done]].
    apply wp_on_snd. eapply wp_mono; [apply call_do_sends|]. by intros b c'. }
  intros t' c2 ->. apply (sends_bind _ _ _ _ (λ t, t = {[so_index o]} ∪ seen) _ _ Q).
  { destruct (so_finish_reason o); [|wp_steps; split; [apply sends_none|done]].
    apply wp_on_snd. eapply wp_mono; [apply call_do_sends|]. by intros b c'. }
  intros t' c3 ->. eapply wp_mono; [apply IH|]. intros b p [Hs Ht]. split; [done|]. intros Hb. unfold Q. rewrite (Ht Hb). set_solver.
Qed.

(** The end of an output. *)
Definition end_ops (iu : bool) (o : RequestOutput) : list (CallOp (Response ChatChoice)) :=
  (match ro_usage o with
   | Some u => if iu then [Write (mkResponse "chat.completion.chunk" [] (Some (proto_usage u)))] else []
   | None => []
   end) ++ (if ro_finished o then [FinishCall GRPC_OK ""] else []).

Lemma send_end_sends iu o (seen : gset nat) c :
  wp (on_snd (send_end "chat.completion.chunk" iu o)) (seen, c) (λ b p, sends (end_ops iu o) c b p.2 ∧ p.1 = seen).
Proof.
  apply wp_on_snd. unfold send_end, end_ops. wp_steps.
  eapply (wp_mono _ _ (λ b c', sends (match ro_usage o with
   | Some u => if iu then [Write (mkResponse "chat.completion.chunk" [] (Some (proto_usage u)))] else []
   | None => [] end) c b c')).
  { destruct (ro_usage o); [destruct iu|]; [apply call_do_sends|wp_steps; apply sends_none..]. }
  intros [] c1 H1; simpl; [|wp_steps; split; [by apply sends_stop|done]].
  destruct (ro_finished o).
  - eapply wp_mono; [apply call_do_sends|]. intros b c2 H2. split; [by eapply sends_trans|done].
  - wp_steps. split; [|done]. by rewrite app_nil_r.
Qed.

(** One output of the request. *)
Lemma on_chat_sends iu o seen c : error_of o = None →
  wp (on_chat true iu o) (seen, c) (λ b p, sends (chat_chunks seen (ro_outputs o) ++ end_ops iu o) c b p.2 ∧
    (b = true → p.1 = list_to_set (so_index <$> ro_outputs o) ∪ seen)).
Proof.
  intros He. unfold on_chat. rewrite He. unfold chat_delta_to_client.
  apply (sends_bind _ _ _ _ (λ t, t = list_to_set (so_index <$> ro_outputs o) ∪ seen) _ _ (λ t, t = list_to_set (so_index <$> ro_outputs o) ∪ seen)).
  - apply chat_deltas_sends.
  - intros t' c' ->. eapply wp_mono; [apply send_end_sends|]. intros b p [Hs Hp]. split; [done|]. by rewrite Hp.
Qed.

(** ** The whole call *)

(** All outputs of a request, one after the other. *)
Definition deliver (iu : bool) (outs : list RequestOutput) : M (gset nat * ChatCall) unit :=
  for_each (λ o, _ ← on_chat true iu o; mret tt) outs.

(** A delta: no error, no usage, not the last output. *)
Record delta_output (o : RequestOutput) : Prop := {
  do_status : error_of o = None;
  do_usage : ro_usage o = None;
  do_open : ro_finished o = false;
}.

Lemma chat_chunks_app os os' : ∀ seen,
  chat_chunks seen (os ++ os') = chat_chunks seen os ++ chat_chunks (list_to_set (so_index <$> os) ∪ seen) os'.
Proof.
  induction os as [|o os IH]; intros seen; simpl; [by replace (∅ ∪ seen) with seen by set_solver|].
  rewrite IH, <-!app_assoc. do 3 f_equal.
  assert (∀ a b c : gset nat, a ∪ b ∪ c = b ∪ (a ∪ c)) as -> by set_solver. done.
Qed.

(** What a run adds is never taken back. *)
Definition grows (c c' : ChatCall) : Prop := call_ops c `prefix_of` call_ops c' ∧ call_gone c' = call_gone c.
#[local] Instance grows_preorder : PreOrder grows.
Proof. split; [by intros c|]. intros c1 c2 c3 [? ?] [? ?]. split; [by etrans|congruence]. Qed.

Lemma sends_grows l c b c' : sends l c b c' → grows c c'.
Proof. intros (l'&E&G&_). split; [by exists l'|done]. Qed.

Lemma deliver_wp iu outs : ∀ seen c, Forall delta_output outs →
  wp (deliver iu outs) (seen, c) (λ _ p, grows c p.2 ∧
    (length (call_ops p.2) ≤ call_gone c →
     call_ops p.2 = call_ops c ++ chat_chunks seen (concat (ro_outputs <$> outs)) ∧
     p.1 = list_to_set (so_index <$> concat (ro_outputs <$> outs)) ∪ seen)).
Proof.
  induction outs as [|o outs IH]; intros seen c Hd; simpl.
  { apply wp_ret. split; [done|]. intros _. simpl. rewrite app_nil_r. split; [done|set_solver]. }
  apply Forall_cons in Hd as [[He Hu Ho] Hd]. unfold deliver. cbn [for_each]. wp_steps.
  eapply wp_mono; [by apply on_chat_sends|]. intros b [seen1 c1] [Hs Hb]. cbn [fst snd] in *.
  wp_steps. eapply wp_mono; [by apply IH|]. intros _ [seen2 c2] [Hg Hc]. cbn [fst snd] in *.
  pose proof (sends_grows _ _ _ _ Hs) as Hg1. split; [by etrans|]. intros Hlen.
  destruct Hs as (l'&E&G&F&T). destruct b.
  - rewrite (T eq_refl) in E. unfold end_ops in E. rewrite Hu, Ho, app_nil_r in E. rewrite (Hb eq_refl) in Hc.
    destruct Hc as [Hc Hseen]; [by rewrite G|]. rewrite fmap_app, Hc, E, chat_chunks_app, <-app_assoc, Hseen.
    split; [done|]. rewrite list_to_set_app_L. set_solver.
  - destruct Hg as [Hp _]. apply prefix_length in Hp. specialize (F eq_refl). lia.
Qed.

(** ** What the client reads *)

Definition choices_of (o : CallOp (Response ChatChoice)) : list ChatChoice :=
  match o with Write r | WriteAndFinish r _ _ => rsp_choices r | FinishCall _ _ => [] end.

Definition content_of (c : ChatChoice) : text :=
  match cc_delta c with Some (_, Some t) => t | _ => [] end.
Definition has_role (c : ChatChoice) : nat :=
  match cc_delta c with Some (Some _, _) => 1 | _ => 0 end.

(** The text of choice [i], and the number of its messages with a role. *)
Definition received (i : nat) (ops : list (CallOp (Response ChatChoice))) : text :=
  concat ((λ c, if decide (cc_index c = i) then content_of c else []) <$> concat (choices_of <$> ops)).
Definition roles (i : nat) (ops : list (CallOp (Response ChatChoice))) : nat :=
  sum_list ((λ c, if decide (cc_index c = i) then has_role c else 0) <$> concat (choices_of <$> ops)).

Definition text_of_index (i : nat) (os : list SequenceOutput) : text :=
  concat ((λ o, if decide (so_index o = i) then so_text o else []) <$> os).

Definition is_write {R} (o : CallOp R) : Prop := match o with Write _ => True | _ => False end.

Lemma received_app i l l' : received i (l ++ l') = received i l ++ received i l'.
Proof. unfold received. by rewrite fmap_app, !concat_app, fmap_app, concat_app. Qed.

Lemma roles_app i l l' : roles i (l ++ l') = roles i l + roles i l'.
Proof. unfold roles. by rewrite fmap_app, concat_app, fmap_app, sum_list_with_app. Qed.

Lemma received_body i o : received i (body o) = if decide (so_index o = i) then so_text o else [].
Proof.
  unfold body. rewrite received_app. unfold received.
  destruct (so_text o) as [|x t] eqn:E; destruct (so_finish_reason o); simpl; unfold content_of; simpl;
    rewrite ?E; repeat case_decide; simpl; rewrite ?app_nil_r; done.
Qed.

Lemma roles_body i o : roles i (body o) = 0.
Proof.
  unfold body. rewrite roles_app. unfold roles.
  destruct (so_text o) as [|x t]; destruct (so_finish_reason o); simpl; repeat case_decide; done.
Qed.

Lemma body_writes o : Forall is_write (body o).
Proof.
  unfold body. apply Forall_app. split; [case_decide|destruct (so_finish_reason o)]; repeat constructor.
Qed.

Lemma chunks_received i os : ∀ seen, received i (chat_chunks seen os) = text_of_index i os.
Proof.
  induction os as [|o os IH]; intros seen; [done|]. simpl.
  rewrite !received_app, received_body, IH. unfold text_of_index. simpl. 
  case_decide; [done|]. unfold received at 1. simpl. by destruct (decide (so_index o = i)).
Qed.

Lemma chunks_roles i os : ∀ seen,
  roles i (chat_chunks seen os) = if bool_decide (i ∈ so_index <$> os ∧ i ∉ seen) then 1 else 0.
Proof.
  induction os as [|o os IH]; intros seen; [rewrite bool_decide_eq_false_2; [done|set_solver]|].
  cbn [chat_chunks]. rewrite !roles_app, roles_body, IH, fmap_cons.
  rewrite (bool_decide_ext (i ∈ so_index o :: (so_index <$> os) ∧ i ∉ seen)
    ((i = so_index o ∨ i ∈ so_index <$> os) ∧ i ∉ seen)) by set_solver.
  destruct (decide (i = so_index o)) as [->|Hi].
  - rewrite (bool_decide_eq_false_2 (_ ∧ so_index o ∉ {[so_index o]} ∪ seen)) by set_solver.
    destruct (decide (so_index o ∈ seen)) as [Hs|Hs].
    + rewrite bool_decide_eq_false_2 by tauto. done.
    + rewrite bool_decide_eq_true_2 by tauto. unfold roles. simpl. by rewrite decide_True.
  - assert (roles i (if decide (so_index o ∈ seen) then [] else [Write (chat_role (so_index o))]) = 0) as ->.
    { destruct (decide _); [done|]. unfold roles. simpl. by rewrite decide_False. }
    simpl. by rewrite (bool_decide_ext _ ((i = so_index o ∨ i ∈ so_index <$> os) ∧ i ∉ seen)) by set_solver.
Qed.

Lemma chunks_writes os : ∀ seen, Forall is_write (chat_chunks seen os).
Proof.
  induction os as [|o os IH]; intros seen; simpl; [constructor|].
  apply Forall_app. split; [case_decide; repeat constructor|]. apply Forall_app. split; [apply body_writes|apply IH].
Qed.

Lemma wp_for_each_app {S A} (f : A → M S unit) l l' : ∀ s Q,
  wp (for_each f l) s (λ _ s', wp (for_each f l') s' Q) → wp (for_each f (l ++ l')) s Q.
Proof.
  induction l as [|x l IH]; intros s Q H; [exact H|]. cbn [for_each app] in *.
  unfold wp, mbind, M_bind in *. destruct (f x s) as [[a s']|e]; [|done]. by apply IH.
Qed.

(** The end of the last output: perhaps the usage, then the end of the call. *)
Lemma end_ops_ends iu o : ro_finished o = true → ∃ u, Forall is_write u ∧
  (∀ i, received i u = [] ∧ roles i u = 0) ∧ end_ops iu o = u ++ [FinishCall GRPC_OK ""].
Proof.
  intros Hf. unfold end_ops. rewrite Hf. eexists. split_and!; [| |done].
  - destruct (ro_usage o); [destruct iu|]; repeat constructor.
  - intros i. destruct (ro_usage o); [destruct iu|]; done.
Qed.

(** The chunks of all outputs, and the end. *)
Definition stream_ops (iu : bool) (outs : list RequestOutput) (last : RequestOutput) : list (CallOp (Response ChatChoice)) :=
  chat_chunks ∅ (concat (ro_outputs <$> outs ++ [last])) ++ end_ops iu last.

Lemma deliver_all_wp iu outs last gone : Forall delta_output outs → error_of last = None →
  wp (deliver iu (outs ++ [last])) (∅, mkCall [] gone) (λ _ p,
    length (call_ops p.2) ≤ gone → call_ops p.2 = stream_ops iu outs last).
Proof.
  intros Hd He. unfold deliver. apply wp_for_each_app. eapply wp_mono; [by apply deliver_wp|]. intros _ [seen c] [[_ Hg] Hc]. cbn [fst snd] in *.
  cbn [for_each]. wp_steps. eapply wp_mono; [by apply on_chat_sends|]. intros b [seen1 c1] [Hs _]. cbn [fst snd] in *.
  wp_steps. intros Hlen. destruct Hs as (l'&E&G&F&T). simpl in *.
  destruct b; [|specialize (F eq_refl); lia]. rewrite E, (T eq_refl).
  destruct Hc as [Hc Hseen]; [rewrite E, length_app in Hlen; lia|].
  unfold stream_ops. rewrite fmap_app, concat_app, chat_chunks_app, Hc, Hseen. simpl. by rewrite app_nil_r, <-!app_assoc.
Qed.

(** ** The claims *)

(** C18. A chat call whose client stays to the end: the texts of every choice add
    up to the deltas of its sequence, the role comes once per choice, every
    operation but the last is a message, and the last one ends the call with OK. *)
Theorem chat_stream_exact iu outs last gone :
  Forall delta_output outs → error_of last = None → ro_finished last = true →
  wp (deliver iu (outs ++ [last])) (∅, mkCall [] gone) (λ _ p,
    length (call_ops p.2) ≤ gone →
    let os := concat (ro_outputs <$> outs ++ [last]) in
    (∀ i, received i (call_ops p.2) = text_of_index i os) ∧
    (∀ i, roles i (call_ops p.2) = if bool_decide (i ∈ so_index <$> os) then 1 else 0) ∧
    ∃ l, call_ops p.2 = l ++ [FinishCall GRPC_OK ""] ∧ Forall is_write l).
Proof.
  intros Hd He Hf. eapply wp_mono; [by apply deliver_all_wp|]. intros _ [seen c] Hc Hlen. cbn [snd] in *.
  rewrite (Hc Hlen). unfold stream_ops. destruct (end_ops_ends iu last Hf) as (u&Hu&Hr&->). split_and!.
  - intros i. rewrite !received_app, chunks_received. destruct (Hr i) as [-> _]. by rewrite !app_nil_r.
  - intros i. rewrite !roles_app, chunks_roles. destruct (Hr i) as [_ ->]. 
    rewrite (bool_decide_ext _ (i ∈ so_index <$> concat (ro_outputs <$> outs ++ [last]))) by set_solver.
    by rewrite !Nat.add_0_r.
  - eexists (_ ++ u). rewrite <-app_assoc. split; [done|]. apply Forall_app. split; [apply chunks_writes|done].
Qed.

(** Two deltas of one choice and the last output. *)
Definition delta (t : text) : RequestOutput :=
  mkRequestOutput None None [mkSequenceOutput 0 t [] None None] None false.
Definition last_output : RequestOutput :=
  mkRequestOutput None (Some (mkStatus OK "")) [] (Some (mkUsage 3 2 5)) true.

Lemma chat_stream_exact_witness :
  wp (deliver true ([delta ["a"%char]; delta ["b"%char]] ++ [last_output])) (∅, mkCall [] 9) (λ _ p,
    length (call_ops p.2) ≤ 9 → received 0 (call_ops p.2) = ["a"; "b"]%char ∧ roles 0 (call_ops p.2) = 1).
Proof.
  eapply wp_mono; [apply (chat_stream_exact true [delta ["a"%char]; delta ["b"%char]] last_output 9)|].
  - repeat constructor.
  - reflexivity.
  - reflexivity.
  - intros ? p H Hl. destruct (H Hl) as (Ht&Hr&_). split; [exact (Ht 0)|exact (Hr 0)].
Defined.

Lemma writes_end {R} (l : list (CallOp R)) : Forall is_write l → existsb ends_call l = false.
Proof. induction 1 as [|[] l ? _ IH]; done. Qed.

Section last.
Context {tk : Tokenizer}.

(** When the scheduler lets go of a streaming request, its last output ends
    the call of a client that is still there exactly if all sequences of the
    request exist and are finished: a request that was given up earlier, for lack
    of memory, leaves its call open. *)
Lemma stream_ends_iff_finished bs cap r iu seen gone :
  req_ok bs cap r → stream r = true →
  wp request_build_output r (λ o _,
    wp (on_chat true iu o) (seen, mkCall [] gone) (λ _ p,
      length (call_ops p.2) ≤ gone →
      (existsb ends_call (call_ops p.2) = true ↔
       best_of r ≤ length (sequences r) ∧ Forall done_ (sequences r)))).
Proof.
  intros Hr Hs. unfold request_build_output. wp_steps.
  eapply wp_mono; [by eapply request_is_finished_wp|]. intros fin r' [_ Hfin]. rewrite Hs. wp_steps.
  eapply wp_mono; [by apply on_chat_sends|]. intros b [seen' c] [(l&E&G&F&T) _] Hlen. simpl in *.
  destruct b; [|specialize (F eq_refl); lia]. rewrite E, (T eq_refl), <-Hfin. unfold end_ops. simpl.
  destruct iu, fin; simpl; naive_solver.
Qed.
End last.

(** A streaming request that still has tokens to generate. *)
Definition stream_request0 : Request :=
  mkRequest 0 [] [1; 2; 3]%Z 1 1 false 8 SamplingParameter_default
    (mkStoppingCriteria 4 2 false ∅ [] 8) true false NORMAL [] false.
Definition stream_request1 : Request :=
  match add_sequence stream_request0 with Ok (_, r) => r | Fail _ => stream_request0 end.

Lemma stream_request1_ok : req_ok 4 (mkLimits 8 (λ _, True)) stream_request1.
Proof.
  assert (fields_ok (mkLimits 8 (λ _, True)) stream_request0) as Hf.
  { split; [done|simpl; lia|done|left; simpl; lia|by repeat constructor|done]. }
  destruct (wp_ok _ _ _ (add_first_sequence_wp 4 (mkLimits 8 (λ _, True)) stream_request0 Hf eq_refl)) as ([]&r&Hr&Hok&_).
  unfold stream_request1. by rewrite Hr.
Qed.

Lemma stream_request1_open : ¬ Forall done_ (sequences stream_request1).
Proof.
  destruct (sequences stream_request1) as [|q l] eqn:Hq; [vm_compute in Hq; discriminate|].
  apply (f_equal head) in Hq. vm_compute in Hq. injection Hq as <-.
  intros [[(l'&t&Heq&H)|H] _]%Forall_cons.
  - change (([1; 2] ++ [3])%Z = l' ++ [t]) in Heq. apply app_inj_tail in Heq as [_ <-]. simpl in H.
    destruct H as [[_ H]|[H|(s&H&_)]]; [done|by apply not_elem_of_empty in H|by apply not_elem_of_nil in H].
  - destruct H as [H|H]; vm_compute in H; lia.
Qed.

Lemma stream_ends_iff_finished_example :
  wp (request_build_output (tk := ascii_tokenizer)) stream_request1 (λ o _,
    wp (on_chat true true o) (∅, mkCall [] 9) (λ _ p,
      length (call_ops p.2) ≤ 9 → existsb ends_call (call_ops p.2) = false)).
Proof.
  eapply wp_mono; [apply (stream_ends_iff_finished 4 (mkLimits 8 (λ _, True)) stream_request1 true ∅ 9)|].
  - apply stream_request1_ok.
  - reflexivity.
  - intros o r' H. eapply wp_mono; [exact H|]. intros ? p Hp Hl. specialize (Hp Hl).
    destruct (existsb ends_call (call_ops p.2)); [|reflexivity].
    destruct Hp as [Hp _]. destruct (Hp eq_refl) as [_ Hd]. destruct (stream_request1_open Hd).
Defined.
