(* ===== verification/CallDataProps.v ===== *)
(** * Properties of a streaming call

    Every interleaving of the producer and the handler thread of one call: what
    the call can be doing, that all messages are delivered in order and that the
    call is deleted after its last message. *)

From stdpp Require Import base tactics list relations strings.
From S2P Require Import Prelude Api CallData.

Section call.
Context {R : Type}.
Implicit Types s : CallState R.
Implicit Types msgs sent : list (CallOp R).

(** Only the last message ends the call. *)
Definition ends_last msgs : Prop := ∀ l o l', msgs = l ++ o :: l' → ends_call o = true → l' = [].

(** The operations so far: the messages up to the first failure. *)
Definition tracks (ok : bool) (ops sent : list (CallOp R)) : Prop :=
  ops `prefix_of` sent ∧ (ok = true → ops = sent).

Lemma tracks_weaken ok ops sent : tracks ok ops sent → tracks false ops sent.
Proof. by intros [? _]. Qed.
Lemma tracks_more ok ops sent o : tracks ok ops sent → tracks false ops (sent ++ [o]).
Proof. intros [? _]. split; [by apply prefix_app_r|done]. Qed.
Lemma tracks_snoc ops sent o : tracks true ops sent → tracks true (ops ++ [o]) (sent ++ [o]).
Proof. intros [_ H]. by rewrite (H eq_refl). Qed.

(** What a call can be doing. *)
Inductive stage (msgs : list (CallOp R)) : CallState R → Prop :=
  | stage_new : stage msgs (StreamCallData_new msgs)
  | stage_refused : stage msgs (mkCallState CREATE None false [] [] 1 false false Ready msgs)
  | stage_idle sent todo ok ops ph :
      msgs = sent ++ todo → tracks ok ops sent → ph ≠ Stored → Forall (λ o, ends_call o = false) sent →
      stage msgs (mkCallState WRITE None ok ops [] 1 true true ph todo)
  | stage_stored sent o todo ok ops :
      msgs = sent ++ o :: todo → tracks ok ops sent → Forall (λ o, ends_call o = false) sent →
      stage msgs (mkCallState WRITE (Some (pack o)) ok ops [] 1 true true Stored todo)
  | stage_alarmed sent o todo ok ops ph :
      msgs = sent ++ o :: todo → tracks ok ops sent → ph ≠ Stored → Forall (λ o, ends_call o = false) sent →
      stage msgs (mkCallState WRITE (Some (pack o)) ok ops [AlarmSet] 1 true true ph todo)
  | stage_writing sent todo rs ok ops ph :
      msgs = sent ++ todo → tracks ok ops sent → ph ≠ Stored → Forall (λ o, ends_call o = false) sent →
      stage msgs (mkCallState PENDING (Some rs) ok ops [OpDone] 1 true true ph todo)
  | stage_finishing o rs ok ops ph :
      last msgs = Some o → ends_call o = true → tracks ok ops msgs → ph ≠ Stored →
      stage msgs (mkCallState FINISH (Some rs) ok ops [OpDone] 1 true true ph [])
  | stage_deleted o st rs ok ops ph :
      last msgs = Some o → ends_call o = true → tracks ok ops msgs → ph ≠ Stored →
      stage msgs (mkCallState st (Some rs) ok ops [] 1 true false ph []).

#[local] Hint Constructors stage : serving.
#[local] Hint Resolve tracks_weaken tracks_more tracks_snoc : serving.

(** One event of a call at some stage. *)
Lemma stage_event msgs s e rpc_ok : ends_last msgs → stage msgs s → cs_events s = [e] →
  wp (handle_event rpc_ok) (set_events [] s) (λ _ s', stage msgs s').
Proof.
  intros Hm Hs He. destruct Hs as [| | | |sent o todo ok ops ph Heq Ht Hph Hf|sent todo rs ok ops ph Heq Ht Hph Hf
    |o rs ok ops ph Hl Ho Ht Hph|]; try discriminate He; clear He.
  - destruct rpc_ok; [|apply stage_refused]. by apply (stage_idle msgs []).
  - assert (ends_call o = true → todo = []) as Hlast by (intros; by eapply Hm).
    destruct rpc_ok, ok, o; cbn;
      try (rewrite (Hlast eq_refl) in *; econstructor; [by rewrite Heq, last_snoc|..]; try done; rewrite Heq; eauto with serving).
    all: econstructor; [rewrite Heq; by rewrite (cons_middle _ sent), app_assoc|..]; eauto with serving.
    all: apply Forall_app; split; [done|by repeat constructor].
  - destruct rpc_ok; cbn; eapply stage_idle; eauto with serving.
  - destruct rpc_ok; cbn; eapply stage_deleted; eauto with serving.
Qed.

(** At most one event is outstanding. *)
Lemma stage_one_event msgs s l1 e l2 : stage msgs s → cs_events s = l1 ++ e :: l2 →
  cs_events s = [e] ∧ l1 ++ l2 = [].
Proof.
  intros Hs He. assert (length (cs_events s) ≤ 1) as Hl by (destruct Hs; simpl; lia).
  rewrite He in *. rewrite length_app in Hl. by destruct l1, l2; simpl in Hl; [|lia..].
Qed.

Lemma stage_step msgs s s' : ends_last msgs → stage msgs s → call_step s s' → stage msgs s'.
Proof.
  intros Hm Hs Hst. inversion Hst as [? l1 e l2 rpc_ok ? He Hok|? o l H1 H2 H3 H4|? Hph|? Hph]; subst.
  - destruct (stage_one_event _ _ _ _ _ Hs He) as [He' Hl].
    pose proof (stage_event _ _ _ rpc_ok Hm Hs He') as Hw. unfold wp in Hw. by rewrite <-Hl, Hok in Hw.
  - destruct Hs; simplify_eq/=. by eapply stage_stored.
  - destruct Hs; simplify_eq/=. by eapply stage_alarmed.
  - destruct Hs; simplify_eq/=; econstructor; eauto.
Qed.

Lemma stage_reachable msgs s : ends_last msgs → rtc call_step (StreamCallData_new msgs) s → stage msgs s.
Proof.
  intros Hm. revert s. apply rtc_ind_r; [apply stage_new|]. intros s1 s2 _ Hst Hs. by eapply stage_step.
Qed.

(** ** Termination *)

Definition event_weight (e : Event) : nat := match e with NewCall => 1 | AlarmSet => 2 | OpDone => 1 end.
Definition phase_weight (p : Phase) : nat := match p with Ready => 0 | Stored => 4 | Notified => 1 end.

(** The steps that are left: five per message. *)
Definition work s : nat :=
  5 * length (cs_todo s) + phase_weight (cs_phase s) + sum_list (event_weight <$> cs_events s).

Lemma stage_event_work msgs s e rpc_ok : stage msgs s → cs_events s = [e] →
  wp (handle_event rpc_ok) (set_events [] s) (λ _ s', work s' < work s).
Proof.
  intros Hs He. destruct Hs as [| | | |sent o todo ok ops ph| | |]; try discriminate He; clear He.
  2: destruct ok, o.
  all: destruct rpc_ok; cbv -[Nat.mul Nat.add length lt]; lia.
Qed.

Lemma stage_work msgs s s' : stage msgs s → call_step s s' → work s' < work s.
Proof.
  intros Hs Hst. inversion Hst as [? l1 e l2 rpc_ok ? He Hok|? o l H1 H2 H3 H4|? Hph|? Hph]; subst.
  - destruct (stage_one_event _ _ _ _ _ Hs He) as [He' Hl].
    pose proof (stage_event_work _ _ _ rpc_ok Hs He') as Hw. unfold wp in Hw. by rewrite <-Hl, Hok in Hw.
  - unfold work, send_store. simpl. rewrite H2, H3. simpl. lia.
  - unfold work, send_alarm. simpl. rewrite Hph, fmap_app, sum_list_with_app. simpl. lia.
  - unfold work, send_load. simpl. rewrite Hph. simpl. lia.
Qed.

Lemma work_bounds n : ∀ msgs s s', ends_last msgs → stage msgs s → nsteps call_step n s s' → n + work s' ≤ work s.
Proof.
  induction n as [|n IH]; intros msgs s s' Hm Hs Hn; inversion Hn as [|? ? s1 ? Hst Hn']; subst; [done|].
  assert (n + work s' ≤ work s1) by (by eapply IH; [|eapply stage_step|]).
  assert (work s1 < work s) by (by eapply stage_work). lia.
Qed.

(** ** Progress *)

Lemma stage_progress msgs s : ends_last msgs → stage msgs s → nf call_step s →
  cs_events s = [] ∧ cs_phase s = Ready ∧ (cs_started s = true → cs_alive s = true → cs_todo s = []).
Proof.
  intros Hm Hs Hnf.
  assert (cs_events s = []) as He.
  { destruct (cs_events s) as [|e l] eqn:He; [done|]. destruct (stage_one_event _ _ [] e l Hs He) as [He' _].
    destruct (wp_ok _ _ _ (stage_event msgs s e true Hm Hs He')) as ([]&s'&Hok&_).
    destruct Hnf. exists s'. by apply (step_event _ [] e [] true). }
  assert (cs_phase s = Ready) as Hp.
  { destruct (cs_phase s) eqn:Hp; [done|..]; destruct Hnf; eexists; [by apply step_alarm|by apply step_load]. }
  split_and!; [done..|]. intros Hst Ha. destruct (cs_todo s) as [|o l] eqn:Ht; [done|]. destruct Hnf.
  eexists. apply (step_store _ o l); try done. destruct Hs; simplify_eq/=; done.
Qed.

(** ** The claims *)

(** C15. In every interleaving of the two threads of a call, at most one event of
    the call is outstanding, so gRPC never has two operations of it at once; the
    operations are the first messages, in order, and all of them while nothing
    failed; one new call was registered for every call taken; and once the object
    is deleted no event refers to it and nothing is stored in it. *)
Theorem call_data_safe msgs s :
  ends_last msgs → rtc call_step (StreamCallData_new msgs) s →
  length (cs_events s) ≤ 1 ∧
  (∃ sent, msgs = sent ++ cs_todo s ∧ cs_ops s `prefix_of` sent ∧
     (cs_rpc_ok s = true → cs_response s = None → cs_ops s = sent)) ∧
  (cs_alive s = false → cs_events s = [] ∧ cs_phase s ≠ Stored ∧ (cs_started s = true → cs_todo s = [])) ∧
  cs_spawned s = (if decide (cs_events s = [NewCall]) then 0 else 1).
Proof.
  intros Hm Hr. pose proof (stage_reachable _ _ Hm Hr) as Hs. clear Hr.
  destruct Hs as [| |sent todo ok ops ph -> [Hp Hk]|sent o todo ok ops -> [Hp _]|sent o todo ok ops ph -> [Hp _]
    |sent todo rs ok ops ph -> [Hp _]|o rs ok ops ph Hl _ [Hp _]|o st rs ok ops ph Hl _ [Hp _]]; simpl;
    (split; [lia|split; [|done]]).
  - by exists [].
  - by exists [].
  - exists sent. naive_solver.
  - exists (sent ++ [o]). rewrite <-app_assoc. split_and!; [done|by apply prefix_app_r|done].
  - exists (sent ++ [o]). rewrite <-app_assoc. split_and!; [done|by apply prefix_app_r|done].
  - by exists sent.
  - exists msgs. by rewrite app_nil_r.
  - exists msgs. by rewrite app_nil_r.
Qed.

(** C16. A call makes at most five steps per message and one more.  When nothing
    is left to do, either gRPC gave no request to the call and it is deleted, or
    all messages were taken, the call is deleted exactly if the last one ends it,
    and if no operation failed all messages were sent. *)
Theorem call_delivers msgs s n :
  ends_last msgs → nsteps call_step n (StreamCallData_new msgs) s →
  n ≤ 5 * length msgs + 1 ∧
  (nf call_step s →
   (cs_started s = false ∧ cs_alive s = false ∧ cs_rpc_ok s = false) ∨
   (cs_todo s = [] ∧ (cs_alive s = false ↔ ∃ o, last msgs = Some o ∧ ends_call o = true) ∧
    (cs_rpc_ok s = true → cs_ops s = msgs))).
Proof.
  intros Hm Hn. split.
  { pose proof (work_bounds n msgs _ _ Hm (stage_new msgs) Hn) as H. unfold work in H at 2. simpl in H. lia. }
  intros Hnf. pose proof (stage_reachable _ _ Hm (rtc_nsteps_2 _ _ _ Hn)) as Hs.
  destruct (stage_progress _ _ Hm Hs Hnf) as (He&Hp&Ht). clear Hn Hnf.
  destruct Hs as [| |sent todo ok ops ph -> [_ Hk] _ Hf|sent o todo ok ops|sent o todo ok ops ph
    |sent todo rs ok ops ph|o rs ok ops ph|o st rs ok ops ph Hl Ho [_ Hk]]; simplify_eq/=.
  - by left.
  - right. rewrite (Ht eq_refl eq_refl) in *. rewrite app_nil_r. split_and!; [done| |done].
    split; [done|]. intros (o&Hl&Ho). apply last_Some in Hl as [l' ->].
    apply Forall_app in Hf as [_ [Hf _]%Forall_cons]. congruence.
  - right. split_and!; [done| |done]. split; [eauto|done].
Qed.

(** The object may be deleted between the alarm for the last message and the load
    of [rpc_ok_] at the end of [send_response], which then reads freed memory. *)
Lemma load_after_delete code msg : ∃ s,
  rtc call_step (StreamCallData_new [FinishCall code msg]) s ∧ cs_phase s = Notified ∧ cs_alive s = false.
Proof.
  eexists. split; [|split].
  - eapply rtc_l; [apply (step_event _ [] NewCall [] true); reflexivity|].
    eapply rtc_l; [apply step_store; reflexivity|].
    eapply rtc_l; [apply step_alarm; reflexivity|].
    eapply rtc_l; [apply (step_event _ [] AlarmSet [] false); reflexivity|]. apply rtc_refl.
  - reflexivity.
  - reflexivity.
Qed.
End call.

(** A message and the end. *)
Definition two_messages : list (CallOp nat) := [Write 7; FinishCall GRPC_OK ""].

Lemma two_messages_end : ends_last two_messages.
Proof.
  intros l o l' Heq Ho. unfold two_messages in Heq. destruct l as [|? [|? [|]]]; by simplify_eq/=.
Qed.

Lemma call_data_safe_witness :
  ∃ s, rtc call_step (StreamCallData_new two_messages) s ∧ cs_ops s = [Write 7] ∧ length (cs_events s) ≤ 1.
Proof.
  assert (∃ s, rtc call_step (StreamCallData_new two_messages) s ∧ cs_ops s = [Write 7]) as (s&Hr&Hs).
  { eexists. split.
    - eapply rtc_l; [apply (step_event _ [] NewCall [] true); reflexivity|].
      eapply rtc_l; [apply step_store; reflexivity|].
      eapply rtc_l; [apply step_alarm; reflexivity|].
      eapply rtc_l; [apply (step_event _ [] AlarmSet [] true); reflexivity|]. apply rtc_refl.
    - reflexivity. }
  exists s. split; [exact Hr|]. split; [exact Hs|].
  exact (proj1 (call_data_safe two_messages s two_messages_end Hr)).
Defined.

Lemma call_delivers_witness :
  ∃ s, nsteps call_step 3 (StreamCallData_new two_messages) s ∧ 3 ≤ 5 * length two_messages + 1.
Proof.
  assert (∃ s, nsteps call_step 3 (StreamCallData_new two_messages) s) as (s&Hr).
  { eexists. eapply nsteps_l; [apply (step_event _ [] NewCall [] true); reflexivity|].
    eapply nsteps_l; [apply step_store; reflexivity|].
    eapply nsteps_l; [apply step_alarm; reflexivity|]. apply nsteps_O. }
  exists s. split; [exact Hr|].
  exact (proj1 (call_delivers two_messages s 3 two_messages_end Hr)).
Defined.
