(* ===== verification/TiktokenProps.v ===== *)
(** * Properties of the tiktoken tokenizer

    The byte-pair encoding is the reference one, encoding and decoding are inverse
    to each other, and decoding yields whole characters, as the incremental decoder
    expects. *)

From Stdlib Require Import Ascii PeanoNat.
From stdpp Require Import base tactics list gmap relations strings.
From S2P Require Import Prelude Types Tiktoken Decoder TiktokenInv Handler ChatTemplate.

(** ** The reference is a function *)

Lemma best_unique t ts i j : best t ts i → best t ts j → i = j.
Proof.
  intros Hi Hj. pose proof (best_least _ _ _ Hi j). pose proof (best_least _ _ _ Hj i).
  destruct (decide (i < j)) as [H1|H1]; [pose proof (best_first _ _ _ Hj i H1); lia|].
  destruct (decide (j < i)) as [H2|H2]; [pose proof (best_first _ _ _ Hi j H2); lia|]. lia.
Qed.

Lemma bpe_unique t ts a b : bpe t ts a → bpe t ts b → a = b.
Proof.
  intros [Ha Hna] [Hb Hnb]. induction Ha as [ts|ts ts1 a (i&Hi&->) _ IH].
  - inversion Hb as [|? ? ? Hst]; subst; [done|]. destruct Hna. by eexists.
  - inversion Hb as [|? ? ? (j&Hj&->) Hb']; subst; [destruct Hnb; eexists; by exists i|].
    apply IH; [done|]. by rewrite (best_unique _ _ _ _ Hi Hj).
Qed.

(** ** The claims *)

(** C19. The merge loop, which keeps the ranks of neighbouring parts up to date,
    computes the byte-pair encoding: merge the leftmost adjacent pair of smallest
    rank until no pair has one.  It ends, it never fails its check, and the ids are
    those of the tokens that are left. *)
Theorem byte_pair_is_bpe {S} t piece ids (s : S) : ranks_ok t →
  (∃ ts, bpe t (bytes_of piece) ts ∧ concat ts = piece) ∧
  ∀ ts, bpe t (bytes_of piece) ts →
    byte_pair_encode t piece ids s = Ok (ids ++ omap (λ k, encoder_ t !! k) ts, s).
Proof.
  intros Hr. destruct (byte_pair_encode_spec t piece ids s Hr) as (ts&Hb&Hc&He). split; [by exists ts|].
  intros ts' Hb'. by rewrite (bpe_unique _ _ _ _ Hb' Hb).
Qed.


(** C21. The tokenizer keeps what the incremental decoder relies on, whatever its
    tables hold: decoded text is always whole characters in UTF-8, and a text that
    does not end in the replacement character is final. *)
Theorem tiktoken_is_tokenizer t : TokenizerLaws (tiktoken t) ∧
  ∀ ids skip, ∃ cps, Forall scalar cps ∧ tk_decode (Tokenizer := tiktoken t) ids skip = chars cps.
Proof. split; [apply tiktoken_laws|]. intros ids skip. apply decode_chars. Qed.

(** The decoder of one character accepts exactly the shortest encodings of the
    Unicode scalar values, and consumes all bytes of the character. *)
Lemma utf8_decoder_exact s n :
  is_valid_decode_utf8 s = Some (true, n) ↔ ∃ cp, scalar cp ∧ utf8 cp `prefix_of` s ∧ n = length (utf8 cp).
Proof.
  split.
  - intros (cp&Hs&->&Heq)%valid_char. exists cp. split_and!; [done|by eexists|done].
  - intros (cp&Hs&[rest ->]&->). by apply valid_utf8.
Qed.

(** The tokenizer as the handler sees it, and what the handler relies on. *)
Definition tiktoken_encoder (t : Tiktoken) : Encoder :=
  λ input, match encode t input [] tt with Ok (ids, _) => Some ids | Fail _ => None end.

Lemma tiktoken_encoder_laws t : tiktoken_ok t → EncoderLaws (tiktoken_encoder t).
Proof.
  intros Ht. split. intros input ids He Hne ->. unfold tk_encode, tiktoken_encoder in He.
  destruct (encode_bytes t Ht tt input []) as (ids'&Hok&Hb). rewrite Hok in He. injection He as He.
  apply app_eq_nil in He as [_ ->]. by rewrite <-Hb in Hne.
Qed.

(** ** A small tokenizer *)

Definition all_bytes : list ascii := ascii_of_nat <$> seq 0 256.

(** The bytes, two merges, a special token, and a pattern that matches any text. *)
Definition toy_vocab : list (text * Z) :=
  [(["a"; "b"], 256%Z); (["a"; "b"; "c"], 257%Z)]%char ++ ((λ c, ([c], Z.of_N (N_of_ascii c))) <$> all_bytes).
Definition bar_char : ascii := "|"%char.
Definition toy_tiktoken : Tiktoken :=
  mkTiktoken (list_to_map toy_vocab) (list_to_map ((λ p, (p.2, p.1)) <$> toy_vocab))
    (Some (λ input, match input with [] => None | _ => Some (0, length input) end))
    {[ [bar_char] := 300%Z ]} {[ 300%Z := [bar_char] ]}
    (Some (λ input, (λ p : nat * ascii, (p.1, 1)) <$> list_find (λ c, c = bar_char) input)) [] 1.

Lemma toy_inverse : map_Forall (λ k r, (r < kMaxRank)%Z ∧ decoder_ toy_tiktoken !! r = Some k ∧
  special_token_decoder_ toy_tiktoken !! r = None) (encoder_ toy_tiktoken).
Proof. apply (bool_decide_unpack _). vm_compute. exact I. Qed.

Lemma toy_tiktoken_ok : tiktoken_ok toy_tiktoken.
Proof.
  split.
  - intros k r H. by apply (toy_inverse k r H).
  - intros c. destruct c as [[] [] [] [] [] [] [] []]; vm_compute; by eexists.
  - intros k r H. by apply (toy_inverse k r H).
  - intros re [= <-] input. destruct input; [done|]. simpl. lia.
  - intros re [= <-] input st n. intros (p&Hp&[= -> ->])%fmap_Some. destruct p as [i c].
    apply list_find_Some in Hp as (Hi&->&_). pose proof (lookup_lt_Some _ _ _ Hi). simpl.
    assert (substr input i (i + 1) = [bar_char]) as ->.
    { unfold substr. rewrite (drop_S _ _ _ Hi). by replace (i + 1 - i) with 1 by lia. }
    split_and!; [lia|lia|]. exists 300%Z. split; reflexivity.
Qed.

(** Two merges, then a special token, then a single byte. *)
Example toy_encodes : encode toy_tiktoken ["a"; "b"; "c"; "|"; "b"]%char [] tt = Ok ([257; 300; 98]%Z, tt).
Proof. vm_compute. reflexivity. Qed.

Lemma byte_pair_is_bpe_witness :
  ∃ ts, bpe toy_tiktoken (bytes_of ["a"; "b"; "c"]%char) ts ∧ concat ts = ["a"; "b"; "c"]%char.
Proof.
  destruct (byte_pair_is_bpe toy_tiktoken ["a"; "b"; "c"]%char [] tt) as [H _]; [apply (to_ranks _ toy_tiktoken_ok)|exact H].
Defined.


(** ** Properties of the chat templates

    The prompt of a chat gives every message to its speaker. *)

(** Chat templates: in a dialog that starts with its system messages, goes on
    with a user's message and has no empty message, the prompt is built from a list
    in which every message stands at a place of its own speaker, in the order of the
    dialog, the other places being empty separators, and the system prompt is the
    last of the system messages; both Llama templates give a prompt exactly when the
    user spoke last. *)
Lemma template_keeps_speakers {tl : TemplateLib} sysl rest :
  Forall (λ m, role_of m = Some RSystem) sysl →
  Forall (λ m, content m ≠ [] ∧ (role_of m = Some RUser ∨ role_of m = Some RAssistant)) rest →
  (∀ m, head rest = Some m → role_of m = Some RUser) →
  (∃ msgs, collect RSystem [] [] (sysl ++ rest) = Some (default [] (content <$> last sysl), msgs) ∧ read_back msgs = said rest) ∧
  (is_Some (apply_template llama2_prompt (sysl ++ rest)) ↔ last_speaker RSystem rest = RUser) ∧
  (is_Some (apply_template llama3_prompt (sysl ++ rest)) ↔ last_speaker RSystem rest = RUser).
Proof.
  intros Hs Hr Hh. destruct (collect_dialog rest RSystem (default [] (content <$> last sysl)) []) as (msgs & Hc & Ht & Hb); [done..|].
  rewrite <-(collect_system sysl [] rest Hs) in Hc. split; [by eauto|]. unfold apply_template. rewrite Hc.
  unfold llama2_prompt, llama3_prompt. unfold turn_ok in Ht. rewrite Ht.
  destruct (bool_decide_reflect (last_speaker RSystem rest = RUser)) as [->|Hne]; simpl; split; split; try done; eauto;
    by intros [? ?].
Qed.

(** ** Witnesses *)

#[local] Instance exact_lib : TemplateLib := {| iequals := λ a b, bool_decide (a = b); strip_ascii_whitespace := λ t, t |}.
Definition say (r c : string) : Message := mkMessage (text_of r) (text_of c).

Lemma template_keeps_speakers_example :
  is_Some (apply_template llama3_prompt
    ([say "system" "be kind"] ++ [say "user" "hello"; say "user" "there"; say "assistant" "hi"; say "user" "bye"])).
Proof.
  apply (template_keeps_speakers [say "system" "be kind"] [say "user" "hello"; say "user" "there"; say "assistant" "hi"; say "user" "bye"]).
  - repeat constructor.
  - repeat constructor; try done; first [by left|by right].
  - by intros m [= <-].
  - done.
Defined.
