(* ===== verification/KernelProps.v ===== *)
(** * Properties of the logits processors, the sampler and the kernels

    What the penalties, the cut-offs and the choice of a token compute, row by row,
    and where the construction of the processors fails.  Whatever the interleaving of
    the threads of a grid, the kernels compute what the loops on the CPU compute. *)

From Stdlib Require Import SpecFloat PeanoNat.
From stdpp Require Import base tactics list sets relations sorting strings.
From S2P Require Import Prelude Slice Types Sampling Logits LogitsInv Sampler Gpu Kernels.

(** ** Cut-offs *)

(** [top_k] and [top_p] keep the score of an entry or replace it by minus
    infinity.  A positive [k] leaves at most the [k] best ranks; the best rank is
    always kept, whatever [k] is and for every [p] that is not negative; and a
    better rank never has a smaller score. *)
Lemma top_k_top_p_cuts {th : Torch} `{!TorchLaws th} prec emax k p logits :
  (∀ k', k = Some k' → (k' < 2 ^ 63)%Z) → (∀ p', p = Some p' → SFltb p' (S754_zero false) = false) →
  (Z.of_nat (length logits) < 2 ^ 63)%Z → (∀ z, z ∈ logits → z ≠ S754_nan) →
  let out := top_k_top_p prec emax k p logits in
  length out = length logits ∧
  (∀ i x, logits !! i = Some x → out !! i = Some x ∨ out !! i = Some neg_infinity) ∧
  (∀ i x, logits !! i = Some x → rank logits i = 0 → out !! i = Some x) ∧
  (∀ i x k', k = Some k' → (0 < k' ≤ Z.of_nat (rank logits i))%Z → logits !! i = Some x → out !! i = Some neg_infinity) ∧
  (∀ i j x y, logits !! i = Some x → logits !! j = Some y → rank logits i ≤ rank logits j → SFltb x y = false).
Proof.
  intros Hk Hp Hn Hnan out. split_and!.
  - apply top_k_top_p_length.
  - intros i x Hx. unfold out. rewrite (top_k_top_p_lookup _ _ k p logits i x) by done. case_match; auto.
  - intros i x Hx Hr. unfold out. rewrite (top_k_top_p_lookup _ _ k p logits i x) by done.
    assert (cut_k k (rank logits i) = false) as ->.
    { rewrite Hr. unfold cut_k. destruct k; [|done]. apply bool_decide_eq_false. lia. }
    assert (cut_p prec emax k p logits (rank logits i) = false) as ->; [|done].
    rewrite Hr. unfold cut_p. destruct p as [p'|]; [|done]. rewrite top_p_mask_head; [done| |by apply Hp].
    intros E%(f_equal length). rewrite after_k_length in E. simpl in E. apply lookup_lt_Some in Hx. lia.
  - intros i x k' -> Hr Hx. unfold out. rewrite (top_k_top_p_lookup _ _ _ p logits i x) by done.
    assert (cut_k (Some k') (rank logits i) = true) as -> by (apply bool_decide_eq_true; lia). by rewrite orb_true_r.
  - intros i j x y. by apply rank_ge.
Qed.

Definition scores : list float := float_of_Z <$> [1; 5; 3; 4]%Z.

Lemma top_k_top_p_cuts_example :
  top_k_top_p (th := plain_torch) 24 128 (Some 2%Z) (Some (float_of_Z 1)) scores !! 1 = Some (float_of_Z 5) ∧
  top_k_top_p (th := plain_torch) 24 128 (Some 2%Z) (Some (float_of_Z 1)) scores !! 2 = Some neg_infinity.
Proof.
  destruct (top_k_top_p_cuts (th := plain_torch) 24 128 (Some 2%Z) (Some (float_of_Z 1)) scores) as (_&_&H1&H2&_).
  - intros k' [= <-]. lia.
  - intros p' [= <-]. vm_compute. reflexivity.
  - vm_compute. reflexivity.
  - intros z (x&->&Hx)%list_elem_of_fmap. repeat (apply elem_of_cons in Hx as [->|Hx]; [vm_compute; discriminate|]). by apply elem_of_nil in Hx.
  - split.
    + apply H1; vm_compute; reflexivity.
    + apply (H2 2 (float_of_Z 3) 2%Z); [done|vm_compute; split; [done|discriminate]|vm_compute; reflexivity].
Defined.

(** ** Penalties *)

(** The reference: every listed token is rescored once. *)
Definition repetition_spec (prec emax : Z) (pen : float) (ids : list Z) (logits : list float) : list float :=
  imap (λ i x, if decide (Z.of_nat i ∈ ids) then repeat_score prec emax pen x else x) logits.

(** The gather and scatter of the repetition penalty compute the reference
    definition, in whatever order [scatter_] writes and however often the padding
    repeats a token. *)
Lemma repetition_is_spec {th : Torch} `{!TorchLaws th} {S} prec emax pen ids logits (s : S) :
  in_row (length logits) ids →
  apply_repetition_penalty prec emax pen ids logits s = Ok (repetition_spec prec emax pen ids logits, s).
Proof.
  intros Hin. destruct (wp_ok _ _ _ (repetition_wp prec emax pen ids logits s Hin)) as (r&s'&->&->&Hl&Hr).
  do 2 f_equal. apply list_eq_same_length with (length logits); [by unfold repetition_spec; rewrite length_imap|done|].
  intros i x y Hi Hx Hy. unfold repetition_spec in Hy. rewrite list_lookup_imap in Hy.
  apply fmap_Some in Hy as (z&Hz&->). rewrite (Hr i z Hz) in Hx. congruence.
Qed.

Lemma repetition_is_spec_example :
  apply_repetition_penalty (th := plain_torch) 24 128 (float_of_Z 2) [1; 3; 0; 0]%Z scores tt =
  Ok (repetition_spec 24 128 (float_of_Z 2) [1; 3; 0; 0]%Z scores, tt).
Proof. apply (repetition_is_spec (th := plain_torch)). repeat constructor; vm_compute; first [reflexivity|discriminate]. Defined.

(** A batch in which some sequence asks for a frequency penalty and none for a
    presence penalty stops the server: the construction of the processors fails
    its check. *)
Lemma frequency_alone_aborts {th : Torch} {S T} prec emax params sel smp ids counts lens r (s s' : S) (t : T) :
  SamplingParameters_init params sel smp ids counts lens s = Ok (r, s') →
  Exists (λ p, not_zero (frequency_penalty p) = true) params →
  Forall (λ p, not_zero (presence_penalty p) = false) params →
  create prec emax r t = Fail (CheckFailed "frequency_penalties.defined() && presence_penalties.defined()").
Proof.
  intros H Hf Hp. unfold SamplingParameters_init in H.
  repeat (apply bind_ok in H as (?&?&_&H)). injection H as <- _. unfold create. cbn.
  assert (if_any not_zero (frequency_penalty <$> params) = Some (frequency_penalty <$> params)) as ->.
  { unfold if_any. assert (existsb not_zero (frequency_penalty <$> params) = true) as ->; [|done].
    apply existsb_exists. apply Exists_exists in Hf as (p&Hin&Hp'). exists (frequency_penalty p). split; [|done].
    by apply list_elem_of_In, list_elem_of_fmap_2. }
  rewrite (if_any_none not_zero (presence_penalty <$> params)); [done|]. by apply Forall_fmap.
Qed.

Definition frequency_params : SamplingParameter :=
  mkSamplingParameter (float_of_Z 1) (float_of_Z 0) (float_of_Z 1) (float_of_Z 1) (float_of_Z 1) (-1) false 0 false 0.

Lemma frequency_alone_aborts_example : ∃ r,
  SamplingParameters_init [frequency_params] [0]%Z [0]%Z [[7]]%Z [[1]]%Z [1]%Z tt = Ok (r, tt) ∧
  create 24 128 r tt = Fail (CheckFailed "frequency_penalties.defined() && presence_penalties.defined()").
Proof.
  eexists. split; [vm_compute; reflexivity|].
  apply (frequency_alone_aborts (th := plain_torch) 24 128 [frequency_params] [0]%Z [0]%Z [[7]]%Z [[1]]%Z [1]%Z _ tt tt tt).
  - vm_compute. reflexivity.
  - left. vm_compute. reflexivity.
  - repeat constructor; vm_compute; reflexivity.
Defined.

(** ** Choosing the tokens *)

(** The three ways to sample a batch agree with choosing each row on its own:
    the token of a row depends on its own flag, scores and random numbers only,
    and not on what the other sequences of the batch ask for. *)
Lemma samples_row_by_row {th : Torch} d (probs q : list (list float)) :
  length d = length probs → length q = length probs →
  choose_samples d probs q =
  zip_with (λ (b : bool) (r : list float * list float), if b then random_sample r.1 r.2 else greedy_sample r.1) d (zip probs q).
Proof.
  intros Hd Hq. unfold choose_samples.
  destruct (forallb Datatypes.id d) eqn:Ha; [|destruct (existsb Datatypes.id d) eqn:He]; simpl.
  - revert d q Hd Hq Ha. induction probs as [|x probs IH]; intros [|b d] [|y q]; simpl; try done.
    intros [= Hd] [= Hq] [Hb Ha]%andb_true_iff. unfold Datatypes.id in Hb. subst b. f_equal. by apply IH.
  - clear. revert d q. induction probs as [|x probs IH]; intros [|b d] [|y q]; simpl; try done. by rewrite IH.
  - clear Ha. revert d q Hd Hq He. induction probs as [|x probs IH]; intros [|b d] [|y q]; simpl; try done.
    intros [= Hd] [= Hq] [Hb Ha]%orb_false_iff. unfold Datatypes.id in Hb. subst b. f_equal. by apply IH.
Qed.

Lemma samples_row_by_row_example :
  choose_samples (th := plain_torch) [true; false] [scores; scores] [[float_of_Z 9; float_of_Z 9; float_of_Z 1; float_of_Z 9]; scores] =
  [2; 1]%Z.
Proof. rewrite (samples_row_by_row (th := plain_torch)) by done. vm_compute. reflexivity. Defined.

(** ** Grids *)

Section grids.
Context {A : Type}.
Implicit Types m : list A.

Lemma bind_perm {B C} (f : B → list C) l l' : l ≡ₚ l' → l ≫= f ≡ₚ l' ≫= f.
Proof. by intros ->. Qed.

Lemma concat_bind {B C} (f : B → list C) (ls : list (list B)) : concat ((λ l, l ≫= f) <$> ls) = concat ls ≫= f.
Proof. induction ls as [|l ls IH]; [done|]. cbn [fmap list_fmap concat]. by rewrite bind_app, IH. Qed.

(** The updates of a grid of blocks are those of all rows. *)
Lemma block_kernel_ops grid block len (body : nat → nat → list (nat * (A → A))) : 0 < block →
  concat (block_kernel grid block len body) ≡ₚ seq 0 grid ≫= (λ bid, seq 0 (len bid) ≫= body bid).
Proof.
  intros Hb. unfold block_kernel. generalize (seq 0 grid) as bids. induction bids as [|bid bids IH]; [done|].
  cbn [fmap list_fmap concat mbind list_bind]. rewrite concat_app, IH. apply Permutation_app; [|done].
  transitivity (concat ((λ tid, strided (S (len bid)) tid (len bid) block) <$> seq 0 block) ≫= body bid).
  - rewrite <-concat_bind, <-list_fmap_compose. done.
  - apply bind_perm, strided_partition. lia.
Qed.

End grids.

(** ** Temperature *)

Lemma temperature_runs batch vocab temps garbage (m m' : list float) :
  0 < batch → batch ≤ Nat.min vocab 1024 →
  runs (temperature_kernel batch vocab temps garbage) m m' →
  m' = apply_updates ((λ i, (i, λ x, f32_mul x (inv_temperature (read f_zero temps (i / vocab))))) <$> seq 0 (batch * vocab)) m.
Proof.
  intros Hb Hle (ts&Hr&Hd). set (block := Nat.min vocab 1024) in *.
  set (grid := Nat.min (batch * vocab / block) (N.to_nat 65536)).
  assert (0 < block * grid) as Hg.
  { assert (1 ≤ batch * vocab / block) by (apply Nat.div_le_lower_bound; unfold block; nia).
    assert (0 < grid) by (unfold grid; lia). unfold block in *. nia. }
  set (f := λ i, (i, λ x, f32_mul x (inv_temperature (read f_zero temps (i / vocab))))).
  assert (concat (temperature_kernel batch vocab temps garbage) ≡ₚ f <$> seq 0 (batch * vocab)) as Hp.
  { unfold temperature_kernel. fold block. cbv zeta. fold grid.
    rewrite <-(strided_partition (batch * vocab) (block * grid) Hg).
    generalize (seq 0 (block * grid)) as gs. induction gs as [|g gs IH]; [done|]. cbn [fmap list_fmap concat].
    rewrite fmap_app, IH. apply Permutation_app; [|done]. apply reflexive_eq, list_fmap_ext. intros k i Hk.
    apply list_elem_of_lookup_2, elem_of_strided in Hk; [|lia|lia]. unfold f, inv_temperatures. rewrite decide_True; [done|].
    assert (i / vocab < batch) by (apply Nat.Div0.div_lt_upper_bound; lia). lia. }
  assert (NoDup (concat (temperature_kernel batch vocab temps garbage)).*1) as Hnd.
  { rewrite Hp, <-list_fmap_compose. rewrite (list_fmap_ext _ id) by done. rewrite list_fmap_id. apply NoDup_seq. }
  rewrite (grid_runs _ _ _ _ Hnd Hr Hd). by apply apply_perm.
Qed.

(** ** Rows *)

Lemma fmap_bind {B C D} (g : C → D) (f : B → list C) l : g <$> (l ≫= f) = l ≫= λ x, g <$> f x.
Proof. induction l as [|x l IH]; [done|]. cbn [mbind list_bind]. by rewrite fmap_app, IH. Qed.

Lemma concat_length {A} w (rows : list (list A)) : Forall (λ r, length r = w) rows → length (concat rows) = length rows * w.
Proof. induction 1 as [|r rows Hr _ IH]; [done|]. cbn [concat length]. rewrite length_app, IH. lia. Qed.

Lemma lookup_concat {A} w (rows : list (list A)) : Forall (λ r, length r = w) rows →
  ∀ b j, j < w → concat rows !! (b * w + j) = rows !! b ≫= λ r, r !! j.
Proof.
  induction 1 as [|r rows Hr _ IH]; intros b j Hj; [done|]. cbn [concat]. destruct b as [|b]; simpl.
  - by rewrite lookup_app_l by lia.
  - rewrite lookup_app_r by lia. rewrite <-IH by done. f_equal. lia.
Qed.

Lemma same_rows {A} w (rows : list (list A)) l : Forall (λ r, length r = w) rows → 0 < w →
  length l = length rows * w → (∀ b j r, rows !! b = Some r → j < w → l !! (b * w + j) = r !! j) → l = concat rows.
Proof.
  intros Hw Hpos Hl H. apply list_eq. intros i. destruct (decide (i < length l)) as [Hi|Hi].
  - rewrite (Nat.div_mod_eq i w), (Nat.mul_comm w). pose proof (Nat.mod_upper_bound i w).
    destruct (lookup_lt_is_Some_2 rows (i / w)) as [r Hr]; [apply Nat.Div0.div_lt_upper_bound; nia|].
    rewrite (lookup_concat w) by (done || lia). rewrite Hr. simpl. apply H; [done|lia].
  - rewrite !lookup_ge_None_2; [done|rewrite (concat_length w) by done; lia|lia].
Qed.

(** ** The repetition penalty *)

(** The updates of one row, and where they are. *)
Definition repetition_updates (vocab bid : nat) (pen : float) (ids : list nat) : list (nat * (float → float)) :=
  (λ id, (bid * vocab + id, repeat_score 24 128 pen)) <$> ids.

Lemma seq_bind_read {B} (f : nat → list B) (ids : list nat) (g : nat → nat) : (∀ i x, ids !! i = Some x → g i = x) →
  seq 0 (length ids) ≫= (λ i, f (g i)) = ids ≫= f.
Proof.
  revert g. induction ids as [|x ids IH]; intros g Hg; [done|]. cbn [length seq mbind list_bind].
  rewrite (Hg 0 x) by done. f_equal. rewrite <-fmap_S_seq, list_fmap_bind.
  apply (IH (g ∘ S)). intros i y Hi. by apply (Hg (S i)).
Qed.

Definition row_ids (lens : list nat) (idrows : list (list nat)) (b : nat) : list nat := take (read 0 lens b) (read [] idrows b).

Section repetition.
Context (rows : list (list float)) (idrows : list (list nat)) (lens : list nat) (pens : list float) (vocab max_len : nat).
Context (Hrows : Forall (λ r, length r = vocab) rows) (Hids : Forall (λ r, length r = max_len) idrows).
Context (Hlen : length idrows = length rows).
Context (Hok : ∀ b, b < length rows → read 0 lens b ≤ max_len ∧ NoDup (row_ids lens idrows b) ∧
  Forall (λ id, id < vocab) (row_ids lens idrows b)).

Lemma repetition_body b : b < length rows →
  seq 0 (read 0 lens b) ≫= (λ i, [(b * vocab + read 0 (concat idrows) (b * max_len + i), repeat_score 24 128 (read f_zero pens b))]) =
  repetition_updates vocab b (read f_zero pens b) (row_ids lens idrows b).
Proof using Hids Hrows Hlen Hok.
  intros Hb. destruct (lookup_lt_is_Some_2 idrows b) as [r Hr]; [lia|]. destruct (Hok b Hb) as (Hl&_&_).
  assert (length r = max_len) as Hlr by (by apply (Forall_lookup_1 _ _ _ _ Hids Hr)).
  assert (row_ids lens idrows b = take (read 0 lens b) r) as -> by (unfold row_ids, read; by rewrite Hr).
  replace (read 0 lens b) with (length (take (read 0 lens b) r)) at 1 by (rewrite length_take; lia).
  rewrite (seq_bind_read (λ id, [(b * vocab + id, repeat_score 24 128 (read f_zero pens b))])
             (take (read 0 lens b) r) (λ i, read 0 (concat idrows) (b * max_len + i))).
  - unfold repetition_updates. generalize (take (read 0 lens b) r) as l. induction l as [|x l IH]; [done|]. cbn. by rewrite IH.
  - intros i x Hi. apply lookup_take_Some in Hi as [Hi Hlt]. pose proof (lookup_lt_Some _ _ _ Hi).
    unfold read. rewrite (lookup_concat max_len), Hr by (done || lia). simpl. by rewrite Hi.
Qed.

Definition all_updates : list (nat * (float → float)) :=
  seq 0 (length rows) ≫= λ b, repetition_updates vocab b (read f_zero pens b) (row_ids lens idrows b).

Lemma all_updates_nodup : NoDup all_updates.*1.
Proof using Hids Hrows Hlen Hok.
  unfold all_updates. rewrite fmap_bind. unfold repetition_updates. apply NoDup_bind.
  - intros b b' x Hb Hb' Hx Hx'. apply elem_of_seq in Hb, Hb'. rewrite <-list_fmap_compose in Hx, Hx'.
    apply list_elem_of_fmap in Hx as (i&->&Hi), Hx' as (j&Heq&Hj). simpl in Heq.
    destruct (Hok b ltac:(lia)) as (_&_&F), (Hok b' ltac:(lia)) as (_&_&F').
    rewrite Forall_forall in F, F'. specialize (F _ Hi). specialize (F' _ Hj). nia.
  - intros b Hb. apply elem_of_seq in Hb. rewrite <-list_fmap_compose. destruct (Hok b ltac:(lia)) as (_&Hnd&_).
    assert (Inj eq eq (λ id, b * vocab + id)) by (intros x y ?; lia). by apply (NoDup_fmap_2 (λ id, b * vocab + id)).
  - apply NoDup_seq.
Qed.

Lemma all_updates_in b id f : (b * vocab + id, f) ∈ all_updates → id < vocab →
  b < length rows ∧ id ∈ row_ids lens idrows b ∧ f = repeat_score 24 128 (read f_zero pens b).
Proof using Hids Hrows Hlen Hok.
  intros Hin Hid. unfold all_updates, repetition_updates in Hin. apply list_elem_of_bind in Hin as (b'&Hin&Hb').
  apply elem_of_seq in Hb'. apply list_elem_of_fmap in Hin as (x&[= Heq ->]&Hx).
  destruct (Hok b' ltac:(lia)) as (_&_&F). rewrite Forall_forall in F. specialize (F _ Hx).
  assert (b = b') as <- by nia. assert (id = x) as <- by lia. split_and!; [lia|done|done].
Qed.

(** The rows after the penalty. *)
Definition penalised : list (list float) :=
  imap (λ b r, repetition_spec 24 128 (read f_zero pens b) (Z.of_nat <$> row_ids lens idrows b) r) rows.

Lemma penalised_rows : 0 < vocab → apply_updates all_updates (concat rows) = concat penalised.
Proof using Hids Hrows Hlen Hok.
  intros Hv. apply (same_rows vocab).
  - unfold penalised. apply Forall_lookup. intros b r Hb. rewrite list_lookup_imap in Hb. apply fmap_Some in Hb as (r0&Hr0&->).
    unfold repetition_spec. rewrite length_imap. by apply (Forall_lookup_1 _ _ _ _ Hrows Hr0).
  - done.
  - unfold penalised. by rewrite apply_updates_length, (concat_length vocab), length_imap.
  - intros b j r Hb Hj. unfold penalised in Hb. rewrite list_lookup_imap in Hb. apply fmap_Some in Hb as (r0&Hr0&->).
    pose proof (lookup_lt_Some _ _ _ Hr0) as Hbl. unfold repetition_spec. rewrite list_lookup_imap.
    assert (concat rows !! (b * vocab + j) = r0 !! j) as Hc by (rewrite (lookup_concat vocab), Hr0 by done; done).
    destruct (decide (j ∈ row_ids lens idrows b)) as [Hin|Hin].
    + rewrite (apply_own _ _ _ (repeat_score 24 128 (read f_zero pens b)) all_updates_nodup).
      * rewrite Hc. destruct (r0 !! j); [|done]. simpl. rewrite decide_True; [done|]. by apply list_elem_of_fmap_2.
      * unfold all_updates, repetition_updates. apply list_elem_of_bind. exists b. split; [|apply elem_of_seq; lia].
        apply list_elem_of_fmap. by exists j.
    + rewrite apply_other.
      * rewrite Hc. destruct (r0 !! j); [|done]. simpl. rewrite decide_False; [done|].
        intros (x&Hx&Hx')%list_elem_of_fmap. assert (j = x) as -> by lia. done.
      * intros ([k f]&Hk&Hkin)%list_elem_of_fmap. simpl in Hk. subst. apply all_updates_in in Hkin; naive_solver.
Qed.

Lemma repetition_ops : 0 < max_len →
  concat (repetition_kernel (length rows) vocab max_len (concat idrows) lens pens) ≡ₚ all_updates.
Proof using Hrows Hids Hlen Hok.
  intros Hm. unfold repetition_kernel. rewrite block_kernel_ops by lia. unfold all_updates. apply reflexive_eq.
  assert (∀ n, n ≤ length rows → seq 0 n ≫= (λ bid, seq 0 (read 0 lens bid) ≫= λ i,
      [(bid * vocab + read 0 (concat idrows) (bid * max_len + i), repeat_score 24 128 (read f_zero pens bid))]) =
    seq 0 n ≫= (λ b, repetition_updates vocab b (read f_zero pens b) (row_ids lens idrows b))) as H; [|by apply H].
  induction n as [|n IH]; intros Hn; [done|]. rewrite seq_S, !bind_app, IH by lia. f_equal. cbn [mbind list_bind].
  rewrite !app_nil_r. apply repetition_body. lia.
Qed.

Lemma repetition_completes : 0 < max_len →
  ∃ m', runs (repetition_kernel (length rows) vocab max_len (concat idrows) lens pens) (concat rows) m'.
Proof using Hrows Hids Hlen Hok.
  intros Hm. apply grid_completes. rewrite repetition_ops, (concat_length vocab) by done. apply Forall_forall. intros [x f] Hin.
  unfold all_updates, repetition_updates in Hin. apply list_elem_of_bind in Hin as (b&Hin&Hb%elem_of_seq).
  apply list_elem_of_fmap in Hin as (id&[= -> ->]&Hid). destruct (Hok b ltac:(lia)) as (_&_&F).
  rewrite Forall_forall in F. specialize (F _ Hid). simpl. nia.
Qed.

Lemma repetition_runs m' : 0 < max_len → 0 < vocab →
  runs (repetition_kernel (length rows) vocab max_len (concat idrows) lens pens) (concat rows) m' → m' = concat penalised.
Proof using Hrows Hids Hlen Hok.
  intros Hm Hv Hr. rewrite <-penalised_rows by done.
  destruct Hr as (ts&Hr&Hd). pose proof (repetition_ops Hm) as Hp.
  assert (NoDup (concat (repetition_kernel (length rows) vocab max_len (concat idrows) lens pens)).*1) as Hnd
    by (rewrite Hp; apply all_updates_nodup).
  rewrite (grid_runs _ _ _ _ Hnd Hr Hd). by apply apply_perm.
Qed.
End repetition.

(** ** The KV cache *)

Section cache.
Context {A : Type} (d : A).

Definition row_updates (w r : nat) (row : list A) : list (nat * (A → A)) := imap (λ j v, (r * w + j, λ _, v)) row.

Lemma row_updates_places w r row : (row_updates w r row).*1 = (λ j, r * w + j) <$> seq 0 (length row).
Proof.
  unfold row_updates. rewrite fmap_imap. apply list_eq. intros j. rewrite list_lookup_imap, list_lookup_fmap.
  destruct (row !! j) eqn:Hj; simpl.
  - by rewrite lookup_seq_lt by (by eapply lookup_lt_Some).
  - apply lookup_ge_None in Hj. by rewrite lookup_seq_ge.
Qed.

Lemma row_updates_nodup w r row : NoDup (row_updates w r row).*1.
Proof.
  rewrite row_updates_places. assert (Inj eq eq (λ j, r * w + j)) by (intros x y ?; lia). apply (NoDup_fmap_2 _), NoDup_seq.
Qed.

(** Writing a row element by element. *)
Lemma set_row_updates w r row l : length row = w → r * w + w ≤ length l → set_row w r row l = apply_updates (row_updates w r row) l.
Proof.
  intros Hw Hl. apply list_eq. intros i. unfold set_row.
  assert (length (take (r * w) l) = r * w) as Ht by (rewrite length_take; lia).
  destruct (decide (r * w ≤ i < r * w + w)) as [Hi|Hi].
  - destruct (lookup_lt_is_Some_2 row (i - r * w)) as [v Hv]; [lia|].
    rewrite (apply_own _ _ _ (λ _, v) (row_updates_nodup w r row)).
    + rewrite lookup_app_r, Ht, lookup_app_l, Hv by lia. by destruct (lookup_lt_is_Some_2 l i) as [? ->]; [lia|].
    + unfold row_updates. apply elem_of_lookup_imap. exists (i - r * w), v. split; [f_equal; lia|done].
  - rewrite apply_other.
    + destruct (decide (i < r * w)); [by rewrite lookup_app_l, lookup_take_lt by lia|].
      rewrite lookup_app_r, lookup_app_r, lookup_drop by lia. f_equal. lia.
    + rewrite row_updates_places. intros (j&->&Hj%elem_of_seq)%list_elem_of_fmap. lia.
Qed.

(** The rows that the loop on the CPU writes, one after the other. *)
Definition set_rows (w : nat) (slots : list nat) (rows : list (list A)) (l : list A) : list A :=
  foldl (λ l p, set_row w p.1 p.2 l) l (zip slots rows).

Definition rows_updates (w : nat) (slots : list nat) (rows : list (list A)) : list (nat * (A → A)) :=
  zip slots rows ≫= λ p, row_updates w p.1 p.2.

Lemma apply_updates_app (a b : list (nat * (A → A))) l : apply_updates (a ++ b) l = apply_updates a (apply_updates b l).
Proof. unfold apply_updates. by rewrite foldr_app. Qed.

Lemma rows_updates_places w slots rows x f : (x, f) ∈ rows_updates w slots rows → Forall (λ r, length r = w) rows →
  ∃ s j, s ∈ slots ∧ j < w ∧ x = s * w + j.
Proof.
  intros Hin Hw. apply list_elem_of_bind in Hin as ([s r]&Hin&Hp). simpl in *.
  assert (x ∈ (row_updates w s r).*1) as Hx by (apply list_elem_of_fmap; by exists (x, f)).
  rewrite row_updates_places in Hx. apply list_elem_of_fmap in Hx as (j&->&Hj%elem_of_seq).
  rewrite Forall_forall in Hw. specialize (Hw r (elem_of_zip_r _ _ _ _ Hp)).
  exists s, j. split_and!; [by eapply elem_of_zip_l|lia|done].
Qed.

Lemma rows_updates_nodup w slots rows : NoDup slots → length slots = length rows → Forall (λ r, length r = w) rows →
  NoDup (rows_updates w slots rows).*1.
Proof.
  revert rows. induction slots as [|s slots IH]; intros [|r rows] Hnd Hl Hw; try done; try (by constructor).
  apply NoDup_cons in Hnd as [Hs Hnd]. apply Forall_cons in Hw as [Hr Hw].
  unfold rows_updates. cbn [zip zip_with mbind list_bind]. fold (rows_updates w slots rows). rewrite fmap_app.
  apply NoDup_app. split_and!; [apply row_updates_nodup| |apply IH; [done|by injection Hl|done]].
  intros x Hx Hx'. cbn [fst snd] in Hx. rewrite row_updates_places in Hx. apply list_elem_of_fmap in Hx as (j&->&Hj%elem_of_seq).
  apply list_elem_of_fmap in Hx' as ([y f]&Hy&Hx'). simpl in Hy. subst y.
  apply rows_updates_places in Hx' as (s'&j'&Hs'&Hj'&Heq); [|done]. assert (s = s') as <- by nia. done.
Qed.

Lemma set_rows_updates w slots rows : ∀ l, NoDup slots → length slots = length rows → Forall (λ r, length r = w) rows →
  Forall (λ s, s * w + w ≤ length l) slots → set_rows w slots rows l = apply_updates (rows_updates w slots rows) l.
Proof.
  revert rows. induction slots as [|s slots IH]; intros [|r rows] l Hnd Hl Hw Hb; try done.
  pose proof (rows_updates_nodup w (s :: slots) (r :: rows) Hnd Hl Hw) as Hn.
  apply NoDup_cons in Hnd as [Hs Hnd]. apply Forall_cons in Hw as [Hr Hw]. apply Forall_cons in Hb as [Hb1 Hb].
  unfold set_rows. cbn [zip zip_with foldl fst snd]. fold (set_rows w slots rows).
  rewrite set_row_updates by done. unfold set_rows in IH. rewrite IH; [|done|by injection Hl|done|by rewrite apply_updates_length].
  rewrite <-apply_updates_app. symmetry. apply apply_perm; [done|]. unfold rows_updates. cbn [zip zip_with mbind list_bind].
  apply Permutation_app_comm.
Qed.

(** A cache of [n] slots. *)
Record cache_ok (n : nat) (c : KVCache (A := A)) : Prop := {
  ca_width : 0 < kv_width c;
  ca_keys : length (key_cache_ c) = n * kv_width c;
  ca_values : length (value_cache_ c) = n * kv_width c;
}.

Lemma torch_row_ok {S} w n (l : list A) s (x : S) : 0 < w → length l = n * w → s < n →
  torch_row w l (Z.of_nat s) x = Ok (s, x).
Proof.
  intros Hw Hl Hs. unfold torch_row. rewrite Hl, Nat.div_mul by lia. rewrite decide_True by lia. by rewrite Nat2Z.id.
Qed.

Lemma set_row_length w r (row l : list A) : length row = w → r * w + w ≤ length l → length (set_row w r row l) = length l.
Proof. intros. unfold set_row. rewrite !length_app, length_take, length_drop. lia. Qed.

(** The loop on the CPU. *)
Lemma set_kv_cache_rows n slots : ∀ keys values c, cache_ok n c → Forall (λ s, s < n) slots →
  length slots = length keys → length slots = length values →
  Forall (λ r, length r = kv_width c) keys → Forall (λ r, length r = kv_width c) values →
  set_kv_cache (Z.of_nat <$> slots) keys values c =
  Ok (tt, mkKVCache (kv_block_size_ c) (kv_width c) (set_rows (kv_width c) slots keys (key_cache_ c)) (set_rows (kv_width c) slots values (value_cache_ c))).
Proof.
  induction slots as [|s slots IH]; intros [|k keys] [|v values] c Hc Hs Hk Hv HK HV; try done; [by destruct c|].
  apply Forall_cons in Hs as [Hs1 Hs], HK as [HK1 HK], HV as [HV1 HV]. pose proof Hc as [Hw H1 H2].
  cbn [fmap list_fmap set_kv_cache]. unfold mbind at 1, M_bind at 1. cbn [get].
  unfold mbind at 1, M_bind at 1. rewrite (torch_row_ok _ n) by done.
  unfold mbind at 1, M_bind at 1. rewrite (torch_row_ok _ n) by done.
  unfold mbind at 1, M_bind at 1. cbn [put]. rewrite IH; try done; try (simpl in *; lia). 
  split; simpl; rewrite ?set_row_length; try done; nia.
Qed.

(** The kernel on the two arrays. *)
Lemma apply_cons p (l : list (nat * (A → A))) m : apply_updates (p :: l) m = alter p.2 p.1 (apply_updates l m).
Proof. done. Qed.

Lemma apply_shift (l : list (nat * (A → A))) (a b : list A) :
  apply_updates ((λ p, (length a + p.1, p.2)) <$> l) (a ++ b) = a ++ apply_updates l b.
Proof. induction l as [|p l IH]; [done|]. rewrite fmap_cons, !apply_cons, IH. apply alter_app_r. Qed.

Lemma apply_left (l : list (nat * (A → A))) (a b : list A) : Forall (λ p, p.1 < length a) l →
  apply_updates l (a ++ b) = apply_updates l a ++ b.
Proof. induction 1 as [|p l Hp _ IH]; [done|]. rewrite !apply_cons, IH, alter_app_l; [done|]. by rewrite apply_updates_length. Qed.

(** The row of a token, read with a stride. *)
Definition token_row (w stride : nat) (l : list A) (b : nat) : list A := (λ i, read d l (b * stride + i)) <$> seq 0 w.

Lemma bind_app_perm {B C} (f g : B → list C) l : l ≫= (λ x, f x ++ g x) ≡ₚ (l ≫= f) ++ (l ≫= g).
Proof.
  induction l as [|x l IH]; [done|]. cbn [mbind list_bind]. rewrite IH, <-!app_assoc. apply Permutation_app_head.
  rewrite !app_assoc. apply Permutation_app_tail, Permutation_app_comm.
Qed.

Lemma bind_single {B C} (f : B → C) l : l ≫= (λ x, [f x]) = f <$> l.
Proof. induction l as [|x l IH]; [done|]. cbn [mbind list_bind fmap list_fmap]. by rewrite IH. Qed.

Lemma row_updates_seq w r stride (l : list A) b :
  seq 0 w ≫= (λ i, [(r * w + i, λ _ : A, read d l (b * stride + i))]) = row_updates w r (token_row w stride l b).
Proof.
  rewrite bind_single. unfold row_updates, token_row. apply list_eq. intros j. rewrite list_lookup_imap, !list_lookup_fmap.
  destruct (decide (j < w)); [by rewrite lookup_seq_lt|by rewrite lookup_seq_ge by lia].
Qed.

(** The updates of the kernel are the rows of the keys and those of the values. *)
Lemma kernel_updates n heads dim ks vs base slots (keys values : list A) : let w := heads * dim in
  length slots = n → 0 < dim →
  seq 0 n ≫= (λ bid, seq 0 w ≫= λ i,
    let dst := read 0 slots bid * heads * dim + i / dim * dim + i `mod` dim in
    [(dst, λ _, read d keys (bid * ks + i)); (base + dst, λ _, read d values (bid * vs + i))]) ≡ₚ
  rows_updates w slots (token_row w ks keys <$> seq 0 n) ++
  ((λ p, (base + p.1, p.2)) <$> rows_updates w slots (token_row w vs values <$> seq 0 n)).
Proof.
  intros w Hn Hd.
  assert (∀ stride l, rows_updates w slots (token_row w stride l <$> seq 0 n) =
    seq 0 n ≫= λ bid, row_updates w (read 0 slots bid) (token_row w stride l bid)) as Hrow.
  { intros stride l. unfold rows_updates. assert (zip slots (token_row w stride l <$> seq 0 n) =
      (λ bid, (read 0 slots bid, token_row w stride l bid)) <$> seq 0 n) as ->.
    { apply list_eq. intros b. rewrite lookup_zip_with, !list_lookup_fmap. destruct (decide (b < n)) as [Hb|Hb].
      - destruct (lookup_lt_is_Some_2 slots b) as [s Hs]; [lia|]. rewrite lookup_seq_lt, Hs by done. simpl.
        do 2 f_equal. unfold read. by rewrite Hs.
      - rewrite lookup_seq_ge by lia. by destruct (slots !! b). }
    by rewrite list_fmap_bind. }
  rewrite !Hrow, fmap_bind, <-bind_app_perm. generalize (seq 0 n) as bids. induction bids as [|b bids IH]; [done|].
  cbn [mbind list_bind]. apply Permutation_app; [|done]. rewrite <-!row_updates_seq, fmap_bind, <-bind_app_perm.
  assert (∀ i, read 0 slots b * heads * dim + i / dim * dim + i `mod` dim = read 0 slots b * w + i) as E.
  { intros i. pose proof (Nat.div_mod_eq i dim). unfold w. nia. }
  apply reflexive_eq. generalize (seq 0 w) as is_. induction is_ as [|i is_ IHi]; [done|].
  cbn [mbind list_bind fmap list_fmap app fst snd]. rewrite E. cbn [mbind list_bind] in IHi. by rewrite IHi.
Qed.

Lemma token_rows_width w stride (l : list A) n : Forall (λ r, length r = w) (token_row w stride l <$> seq 0 n).
Proof. apply Forall_fmap, Forall_true. intros b. unfold token_row. simpl. by rewrite length_fmap, length_seq. Qed.

Section kernel.
Context (n_slots heads dim ks vs : nat) (slots : list nat) (keys values K V : list A).
Let w := heads * dim.
Let n := length slots.
Let krows := token_row w ks keys <$> seq 0 n.
Let vrows := token_row w vs values <$> seq 0 n.
Context (Hw : 0 < w) (HK : length K = n_slots * w) (HV : length V = n_slots * w).
Context (Hnd : NoDup slots) (Hs : Forall (λ s, s < n_slots) slots).

Definition kernel_ops : list (list (nat * (A → A))) := set_kv_cache_kernel d n heads dim ks vs (length K) slots keys values.

Lemma kernel_ops_perm : concat kernel_ops ≡ₚ
  rows_updates w slots krows ++ ((λ p, (length K + p.1, p.2)) <$> rows_updates w slots vrows).
Proof using Hw HK HV Hnd Hs.
  assert (0 < dim) as Hdim by (unfold w in *; nia). unfold kernel_ops, set_kv_cache_kernel. cbv zeta.
  rewrite block_kernel_ops by (fold w; lia). by apply kernel_updates.
Qed.

Lemma rows_in_range stride l : Forall (λ p, p.1 < n_slots * w) (rows_updates w slots (token_row w stride l <$> seq 0 n)).
Proof using Hw HK HV Hnd Hs.
  apply Forall_forall. intros [x f] Hin. apply rows_updates_places in Hin as (s&j&Hs'&Hj&->); [|apply token_rows_width].
  rewrite Forall_forall in Hs. specialize (Hs _ Hs'). simpl. nia.
Qed.

Lemma rows_nodup stride l : NoDup (rows_updates w slots (token_row w stride l <$> seq 0 n)).*1.
Proof using Hw HK HV Hnd Hs. apply rows_updates_nodup; [done|by rewrite length_fmap, length_seq|apply token_rows_width]. Qed.

Lemma kernel_nodup : NoDup (concat kernel_ops).*1.
Proof using Hw HK HV Hnd Hs.
  rewrite kernel_ops_perm, fmap_app. apply NoDup_app. split_and!; [apply rows_nodup| |].
  - intros x Hx Hx'. apply list_elem_of_fmap in Hx as (p&->&Hx). rewrite <-list_fmap_compose in Hx'.
    apply list_elem_of_fmap in Hx' as (q&Heq&_). simpl in Heq. pose proof (rows_in_range ks keys) as Hlt.
    rewrite Forall_forall in Hlt. specialize (Hlt _ Hx). simpl in Hlt. lia.
  - rewrite <-list_fmap_compose. assert (Inj eq eq (Nat.add (length K))) by (intros x y ?; lia).
    change (NoDup ((Nat.add (length K) ∘ fst) <$> rows_updates w slots vrows)).
    rewrite (list_fmap_compose fst (Nat.add (length K))). apply (NoDup_fmap_2 _), rows_nodup.
Qed.

Lemma kernel_completes : ∃ m', runs kernel_ops (K ++ V) m'.
Proof using Hw HK HV Hnd Hs.
  apply grid_completes. rewrite kernel_ops_perm, length_app. apply Forall_app. split.
  - eapply Forall_impl; [apply rows_in_range|]. simpl. lia.
  - apply Forall_fmap. eapply Forall_impl; [apply rows_in_range|]. simpl. lia.
Qed.

Lemma kernel_runs m' : runs kernel_ops (K ++ V) m' → m' = set_rows w slots krows K ++ set_rows w slots vrows V.
Proof using Hw HK HV Hnd Hs.
  intros (ts&Hr&Hd). rewrite (grid_runs _ _ _ _ kernel_nodup Hr Hd), (apply_perm _ _ _ kernel_nodup kernel_ops_perm).
  rewrite apply_updates_app, apply_shift, apply_left; [|rewrite HK; apply rows_in_range].
  rewrite !set_rows_updates; try done; try apply token_rows_width; try (unfold krows, vrows; by rewrite length_fmap, length_seq).
  all: eapply Forall_impl; [exact Hs|]; simpl; intros; nia.
Qed.
End kernel.

(** Reading back. *)
Lemma get_set_rows w n slots : ∀ rows (l : list A), NoDup slots → length slots = length rows → Forall (λ r, length r = w) rows →
  length l = n * w → Forall (λ s, s < n) slots →
  (λ s, get_row w s (set_rows w slots rows l)) <$> slots = rows.
Proof.
  intros rows l Hnd Hl Hw Hll Hs. apply list_eq. intros k. rewrite list_lookup_fmap.
  destruct (slots !! k) as [s|] eqn:Hk.
  2: { apply lookup_ge_None in Hk. symmetry. apply lookup_ge_None. lia. }
  destruct (lookup_lt_is_Some_2 rows k) as [r Hr]; [apply lookup_lt_Some in Hk; lia|]. simpl. rewrite Hr. f_equal.
  pose proof (Forall_lookup_1 _ _ _ _ Hs Hk) as Hsn. pose proof (Forall_lookup_1 _ _ _ _ Hw Hr) as Hrw. simpl in Hsn, Hrw.
  rewrite set_rows_updates; try done; [|eapply Forall_impl; [exact Hs|]; simpl; intros; nia].
  apply list_eq. intros j. unfold get_row. destruct (decide (j < w)) as [Hj|Hj].
  - rewrite lookup_take_lt, lookup_drop by done. destruct (lookup_lt_is_Some_2 r j) as [v Hv]; [lia|].
    rewrite (apply_own _ _ _ (λ _, v)); [|by apply rows_updates_nodup|].
    + rewrite Hv. destruct (lookup_lt_is_Some_2 l (s * w + j)) as [? ->]; [nia|done].
    + apply list_elem_of_bind. exists (s, r). split.
      * unfold row_updates. apply elem_of_lookup_imap. by exists j, v.
      * apply list_elem_of_lookup_2 with k. rewrite lookup_zip_with, Hk, Hr. done.
  - rewrite !lookup_ge_None_2; [done|lia|rewrite length_take; lia].
Qed.

Lemma set_rows_length w n slots : ∀ rows (l : list A), NoDup slots → length slots = length rows → Forall (λ r, length r = w) rows →
  length l = n * w → Forall (λ s, s < n) slots → length (set_rows w slots rows l) = length l.
Proof.
  intros rows l Hnd Hl Hw Hll Hs. rewrite set_rows_updates; try done; [apply apply_updates_length|].
  eapply Forall_impl; [exact Hs|]. simpl. intros. nia.
Qed.

Lemma map_each_rows {S} w n (l : list A) (x : S) slots : 0 < w → length l = n * w → Forall (λ s, s < n) slots →
  map_each (λ slot_id, r ← torch_row w l slot_id; mret (get_row w r l)) (Z.of_nat <$> slots) x =
  Ok ((λ s, get_row w s l) <$> slots, x).
Proof.
  intros Hw Hl. set (F := λ slot_id, r ← torch_row w l slot_id; mret (get_row w r l)).
  assert (∀ s, s < n → F (Z.of_nat s) x = Ok (get_row w s l, x)) as HF.
  { intros s Hs. unfold F, mbind, M_bind. by rewrite (torch_row_ok _ n). }
  clearbody F. induction 1 as [|s slots Hs _ IH]; [done|]. cbn [fmap list_fmap map_each].
  unfold mbind, M_bind. by rewrite HF, IH.
Qed.

(** What is written to the slots is read back from them. *)
Lemma set_get_kv_cache n c slots (krows vrows : list (list A)) : cache_ok n c → slots ≠ [] → NoDup slots → Forall (λ s, s < n) slots →
  length slots = length krows → length slots = length vrows →
  Forall (λ r, length r = kv_width c) krows → Forall (λ r, length r = kv_width c) vrows →
  ∃ c', set_kv_cache (Z.of_nat <$> slots) krows vrows c = Ok (tt, c') ∧
    get_kv_cache (Z.of_nat <$> slots) c' = Ok ((krows, vrows), c') ∧ cache_ok n c' ∧ kv_width c' = kv_width c ∧ kv_empty c' = kv_empty c.
Proof.
  intros Hc Hne Hnd Hs Lk Lv Wk Wv. pose proof Hc as [H0 HK HV].
  assert (∀ rows l, length slots = length rows → Forall (λ r, length r = kv_width c) rows → length l = n * kv_width c →
    length (set_rows (kv_width c) slots rows l) = n * kv_width c) as Hlen.
  { intros rows l Hr Hwr Hl. by rewrite (set_rows_length _ n). }
  rewrite (set_kv_cache_rows n) by done. eexists. split_and!; [done| |by split; [done|by apply Hlen..]|done|done].
  unfold get_kv_cache, mbind at 1, M_bind at 1. cbn [get key_cache_ value_cache_ kv_width].
  unfold mbind at 1, M_bind at 1, check. rewrite bool_decide_false by by destruct slots. cbn [negb mret M_ret].
  unfold mbind at 1, M_bind at 1. rewrite (map_each_rows _ n) by (done || by apply Hlen).
  unfold mbind at 1, M_bind at 1. rewrite (map_each_rows _ n) by (done || by apply Hlen).
  by rewrite !(get_set_rows _ n).
Qed.
End cache.

(** ** The claims *)

(** C40. The repetition kernel runs to its end, and however the threads of the grid
    interleave it leaves the rows that the reference definition gives: each token
    of a row is rescored once, and the padding behind the length of the row is
    ignored. *)
Theorem repetition_kernel_is_spec rows idrows lens pens vocab max_len :
  0 < max_len → 0 < vocab → length idrows = length rows →
  Forall (λ r, length r = vocab) rows → Forall (λ r, length r = max_len) idrows →
  (∀ b, b < length rows → read 0 lens b ≤ max_len ∧ NoDup (row_ids lens idrows b) ∧
     Forall (λ id, id < vocab) (row_ids lens idrows b)) →
  let grid := repetition_kernel (length rows) vocab max_len (concat idrows) lens pens in
  (∃ m', runs grid (concat rows) m') ∧
  ∀ m', runs grid (concat rows) m' →
    m' = concat (imap (λ b r, repetition_spec 24 128 (read f_zero pens b) (Z.of_nat <$> row_ids lens idrows b) r) rows).
Proof.
  intros Hm Hv Hl Hr Hi Hok. split.
  - by apply (repetition_completes rows idrows lens pens vocab max_len Hr Hi Hl Hok).
  - intros m'. by apply (repetition_runs rows idrows lens pens vocab max_len Hr Hi Hl Hok).
Qed.

(** The KV cache on the GPU and on the CPU: the kernel runs to its end and
    leaves the two arrays as the loop on the CPU does, which succeeds, and reading
    the slots afterwards gives the keys and the values back. *)
Lemma kv_cache_kernel_agrees {A} (d : A) n_slots heads dim ks vs slots (keys values : list A) c :
  let w := heads * dim in let n := length slots in
  kv_width c = w → cache_ok n_slots c → slots ≠ [] → NoDup slots → Forall (λ s, s < n_slots) slots →
  let krows := token_row d w ks keys <$> seq 0 n in
  let vrows := token_row d w vs values <$> seq 0 n in
  let grid := set_kv_cache_kernel d n heads dim ks vs (length (key_cache_ c)) slots keys values in
  ∃ c', set_kv_cache (Z.of_nat <$> slots) krows vrows c = Ok (tt, c') ∧
    (∃ m', runs grid (key_cache_ c ++ value_cache_ c) m') ∧
    (∀ m', runs grid (key_cache_ c ++ value_cache_ c) m' → m' = key_cache_ c' ++ value_cache_ c') ∧
    get_kv_cache (Z.of_nat <$> slots) c' = Ok ((krows, vrows), c').
Proof.
  intros w n Hw Hc Hne Hnd Hs krows vrows grid. pose proof Hc as [H0 HK HV].
  assert (∀ st l, length slots = length (token_row d w st l <$> seq 0 n)) as Hl by (intros; by rewrite length_fmap, length_seq).
  assert (∀ st l, Forall (λ r, length r = kv_width c) (token_row d w st l <$> seq 0 n)) as Hwd by (intros; rewrite Hw; apply token_rows_width).
  destruct (set_get_kv_cache n_slots c slots krows vrows) as (c'&Hset&Hget&_&_); [done..|apply Hl|apply Hl|apply Hwd|apply Hwd|].
  rewrite (set_kv_cache_rows n_slots) in Hset; [|done|done|apply Hl|apply Hl|apply Hwd|apply Hwd]. injection Hset as <-. rewrite Hw in *.
  rewrite (set_kv_cache_rows n_slots); rewrite ?Hw; [|done|done|apply Hl|apply Hl|apply Hwd|apply Hwd].
  eexists. split_and!; [done|by eapply (kernel_completes d n_slots)|intros m'; by eapply (kernel_runs d n_slots)|exact Hget].
Qed.

(** Two rows of three scores; the second row has one token and padding. *)
Definition two_rows : list (list float) := [[f32_of_Z 1; f32_of_Z (-2); f32_of_Z 4]; [f32_of_Z 8; f32_of_Z 6; f32_of_Z 3]]%Z.

Lemma repetition_kernel_is_spec_witness :
  ∃ m', runs (repetition_kernel 2 3 2 [0; 1; 2; 0] [2; 1] [f32_of_Z 2; f32_of_Z 3]) (concat two_rows) m' ∧
    m' = concat [[f32_div (f32_of_Z 1) (f32_of_Z 2); f32_mul (f32_of_Z (-2)) (f32_of_Z 2); f32_of_Z 4];
                 [f32_of_Z 8; f32_of_Z 6; f32_div (f32_of_Z 3) (f32_of_Z 3)]]%Z.
Proof.
  destruct (repetition_kernel_is_spec two_rows [[0; 1]; [2; 0]] [2; 1] [f32_of_Z 2; f32_of_Z 3] 3 2) as [[m' Hr] H].
  - lia.
  - lia.
  - reflexivity.
  - repeat constructor.
  - repeat constructor.
  - intros [|[|b]] Hb; [| |simpl in Hb; lia]; (split; [vm_compute; lia|split]); apply (bool_decide_unpack _); reflexivity.
  - exists m'. split; [exact Hr|]. rewrite (H m' Hr). vm_compute. reflexivity.
Defined.

(** Four slots of one head with two elements; two tokens go to slots 2 and 0. *)
Definition small_cache : KVCache (A := nat) := mkKVCache 2 2 (seq 0 8) (seq 100 8).

Lemma kv_cache_kernel_agrees_example :
  ∃ c', set_kv_cache [2; 0]%Z [[11; 12]; [13; 14]] [[21; 22]; [23; 24]] small_cache = Ok (tt, c') ∧
    get_kv_cache [2; 0]%Z c' = Ok (([[11; 12]; [13; 14]], [[21; 22]; [23; 24]]), c').
Proof.
  destruct (kv_cache_kernel_agrees 0 4 1 2 2 2 [2; 0] [11; 12; 13; 14] [21; 22; 23; 24] small_cache) as (c'&H1&_&_&H2).
  - reflexivity.
  - split; vm_compute; lia.
  - done.
  - apply (bool_decide_unpack _). reflexivity.
  - repeat constructor; lia.
  - exists c'. split; [exact H1|exact H2].
Defined.
