(* ===== verification/ThreadPool.v ===== *)
(** * The queue of tasks and the thread pool

    [src/common/concurrent_queue.h] and [src/common/threadpool.cpp].  Every operation
    of the queue holds the mutex from its first to its last line, so it is one step;
    an operation that has to wait is not enabled.  The threads of the pool, the
    callers of [schedule] and the destructor interleave in any order. *)

From stdpp Require Import base tactics list relations.
From S2P Require Import Prelude.

(** ** ConcurrentQueue *)
Section queue.
Context {T : Type}.

Record ConcurrentQueue := mkQueue { queue_ : list T; capacity_ : nat }.

(** [push] and [emplace]: [None] is a call that waits for room. *)
Definition push (q : ConcurrentQueue) (value : T) : option ConcurrentQueue :=
  if decide (0 < capacity_ q)
  then if decide (length (queue_ q) < capacity_ q) then Some (mkQueue (queue_ q ++ [value]) (capacity_ q)) else None
  else Some (mkQueue (queue_ q ++ [value]) (capacity_ q)).

(** [pop]: [None] is a call that waits for an element. *)
Definition pop (q : ConcurrentQueue) : option (T * ConcurrentQueue) :=
  match queue_ q with
  | [] => None
  | value :: rest => Some (value, mkQueue rest (capacity_ q))
  end.

Definition queue_size (q : ConcurrentQueue) : nat := length (queue_ q).
Definition queue_empty (q : ConcurrentQueue) : bool := match queue_ q with [] => true | _ => false end.
End queue.
Arguments ConcurrentQueue : clear implicits.

(** ** ThreadPool *)
Section pool.
Context {T : Type}.

(** A [Runnable] is an [option T]: [nullptr] is [None]. *)

(** A thread in [internal_loop]. *)
Inductive PoolThread := Popping | Running (t : T) | Exited.

(** Where the destructor is: not called, in the loop of [push(nullptr)], in the
    loop of [join], returned. *)
Inductive Shutdown := Live | Pushing (i : nat) | Joining (i : nat) | Gone.

(** The pool; [scheduled], [early], [started] and [finished] are the history: all the
    tasks of [schedule], those before the destructor was called, the tasks that were
    taken and the tasks that returned. *)
Record Pool := mkPool {
  tasks : ConcurrentQueue (option T);
  threads_ : list PoolThread;
  phase : Shutdown;
  scheduled : list T;
  early : list T;
  started : list T;
  finished : list T;
}.

(** [ThreadPool::ThreadPool]. *)
Definition new_pool (num_threads : nat) : Pool :=
  mkPool (mkQueue [] 0) (replicate num_threads Popping) Live [] [] [] [].

(** [ThreadPool::schedule]. *)
Definition pool_schedule (p : Pool) (runnable : option T) : option Pool :=
  match runnable with
  | None => Some p
  | Some t =>
      q ← push (tasks p) (Some t);
      Some (mkPool q (threads_ p) (phase p) (scheduled p ++ [t])
        (match phase p with Live => early p ++ [t] | _ => early p end) (started p) (finished p))
  end.

(** [ThreadPool::internal_loop], thread [i]: the pop, and the end of the task. *)
Definition worker_step (p : Pool) (i : nat) : option Pool :=
  match threads_ p !! i with
  | Some Popping =>
      '(runnable, q) ← pop (tasks p);
      Some (match runnable with
            | None => mkPool q (<[i := Exited]> (threads_ p)) (phase p) (scheduled p) (early p) (started p) (finished p)
            | Some t => mkPool q (<[i := Running t]> (threads_ p)) (phase p) (scheduled p) (early p) (started p ++ [t]) (finished p)
            end)
  | Some (Running t) =>
      Some (mkPool (tasks p) (<[i := Popping]> (threads_ p)) (phase p) (scheduled p) (early p) (started p) (finished p ++ [t]))
  | _ => None
  end.

Definition with_phase (p : Pool) (ph : Shutdown) : Pool :=
  mkPool (tasks p) (threads_ p) ph (scheduled p) (early p) (started p) (finished p).
Definition with_tasks (p : Pool) (q : ConcurrentQueue (option T)) : Pool :=
  mkPool q (threads_ p) (phase p) (scheduled p) (early p) (started p) (finished p).

(** [ThreadPool::~ThreadPool], one step of one of its two loops. *)
Definition destroy_step (p : Pool) : option Pool :=
  match phase p with
  | Live => None
  | Pushing i =>
      if decide (i < length (threads_ p))
      then q ← push (tasks p) None; Some (with_phase (with_tasks p q) (Pushing (S i)))
      else Some (with_phase p (Joining 0))
  | Joining i =>
      match threads_ p !! i with
      | Some Exited => Some (with_phase p (Joining (S i)))
      | Some _ => None
      | None => Some (with_phase p Gone)
      end
  | Gone => None
  end.

(** The steps of the pool itself: its threads and its destructor. *)
Inductive internal : Pool → Pool → Prop :=
  | internal_worker p i p' : worker_step p i = Some p' → internal p p'
  | internal_destroy p p' : destroy_step p = Some p' → internal p p'.

(** All the steps: a client or a task schedules, the owner destroys the pool. *)
Inductive pool_step : Pool → Pool → Prop :=
  | step_schedule p r p' : phase p ≠ Gone → pool_schedule p r = Some p' → pool_step p p'
  | step_destroy p : phase p = Live → pool_step p (with_phase p (Pushing 0))
  | step_internal p p' : internal p p' → pool_step p p'.

Definition pool_reachable (n : nat) (p : Pool) : Prop := rtc pool_step (new_pool n) p.
End pool.
Arguments PoolThread : clear implicits.
Arguments Pool : clear implicits.

(** ** Properties of the thread pool

    Every task is taken once and in the order of the calls, and the destructor
    returns after the last of them. *)

Section pool.
Context {T : Type}.
Implicit Types p : Pool T.

(** ** Counting *)

Definition is_null (r : option T) : nat := match r with Some _ => 0 | None => 1 end.
Definition is_exited (w : PoolThread T) : nat := match w with Exited => 1 | _ => 0 end.
Definition is_running (w : PoolThread T) : nat := match w with Running _ => 1 | _ => 0 end.
Definition task_of (w : PoolThread T) : option T := match w with Running t => Some t | _ => None end.

Definition nulls (q : list (option T)) : nat := sum_list_with is_null q.
Definition exited (ws : list (PoolThread T)) : nat := sum_list_with is_exited ws.
Definition busy (ws : list (PoolThread T)) : nat := sum_list_with is_running ws.

#[local] Arguments nulls : simpl never.
#[local] Arguments exited : simpl never.
#[local] Arguments busy : simpl never.

(** The tasks in front of the first [nullptr]. *)
Fixpoint before_null (q : list (option T)) : list T :=
  match q with Some t :: q => t :: before_null q | _ => [] end.

Lemma update_split {A} (l : list A) i x : l !! i = Some x →
  ∃ a b, l = a ++ x :: b ∧ ∀ y, <[i := y]> l = a ++ y :: b.
Proof.
  intros H. exists (take i l), (drop (S i) l). split; [by rewrite take_drop_middle|].
  intros y. apply insert_take_drop, (lookup_lt_Some _ _ _ H).
Qed.

Lemma nulls_app q q' : nulls (q ++ q') = nulls q + nulls q'.
Proof. apply sum_list_with_app. Qed.
Lemma exited_app q q' : exited (q ++ q') = exited q + exited q'.
Proof. apply sum_list_with_app. Qed.
Lemma busy_app q q' : busy (q ++ q') = busy q + busy q'.
Proof. apply sum_list_with_app. Qed.

Lemma nulls_cons r q : nulls (r :: q) = is_null r + nulls q.
Proof. done. Qed.
Lemma exited_cons w q : exited (w :: q) = is_exited w + exited q.
Proof. done. Qed.
Lemma busy_cons w q : busy (w :: q) = is_running w + busy q.
Proof. done. Qed.

Create Rewrite HintDb pool.
#[local] Hint Rewrite nulls_app exited_app busy_app nulls_cons exited_cons busy_cons @length_app @omap_app : pool.
Ltac count := autorewrite with pool in *; cbn in *.

Lemma exited_le ws : exited ws ≤ length ws.
Proof. unfold exited. induction ws as [|[| |] ws IH]; cbn in *; lia. Qed.

Lemma not_all_exited ws i w : ws !! i = Some w → w ≠ Exited → exited ws < length ws.
Proof.
  intros (a & b & -> & _)%update_split Hw. pose proof (exited_le a). pose proof (exited_le b). count.
  destruct w; cbn in *; [lia..|done].
Qed.

Lemma before_null_all q : nulls q = 0 → before_null q = omap id q.
Proof. unfold nulls. induction q as [|[t|] q IH]; cbn; intros H; [done|by rewrite IH|lia]. Qed.

Lemma before_null_app q q' : before_null q `prefix_of` before_null (q ++ q').
Proof. induction q as [|[t|] q IH]; cbn; [apply prefix_nil|by apply prefix_cons|done]. Qed.

(** ** The invariant *)

Definition phase_ok (n : nat) p : Prop :=
  let pushed := nulls (queue_ (tasks p)) + exited (threads_ p) in
  match phase p with
  | Live => pushed = 0 ∧ early p = scheduled p
  | Pushing i => i ≤ n ∧ pushed = i
  | Joining i => pushed = n ∧ ∀ j, j < i → threads_ p !! j = Some Exited
  | Gone => pushed = n ∧ exited (threads_ p) = n
  end.

Record pool_ok (n : nat) p : Prop := mkPoolOk {
  ok_threads : length (threads_ p) = n;
  ok_capacity : capacity_ (tasks p) = 0;
  ok_fifo : scheduled p = started p ++ omap id (queue_ (tasks p));
  ok_running : started p ≡ₚ finished p ++ omap task_of (threads_ p);
  ok_phase : phase_ok n p;
  ok_early : early p `prefix_of` started p ++ before_null (queue_ (tasks p));
  ok_drained : 0 < exited (threads_ p) → early p `prefix_of` started p;
}.

Lemma push_unbounded {A} (q : ConcurrentQueue A) x : capacity_ q = 0 → push q x = Some (mkQueue (queue_ q ++ [x]) 0).
Proof. intros Hc. unfold push. by rewrite decide_False, Hc by lia. Qed.

Lemma new_pool_ok n : pool_ok n (new_pool n).
Proof.
  assert (exited (replicate n (@Popping T)) = 0 ∧ omap task_of (replicate n (@Popping T)) = []) as [H0 H1].
  { unfold exited. induction n as [|n [IH1 IH2]]; cbn; [done|]. split; [done|]. apply IH2. }
  split; unfold phase_ok; cbn; rewrite ?H0, ?H1; try done. apply length_replicate.
Qed.

Lemma pool_schedule_ok n p r p' : pool_ok n p → pool_schedule p r = Some p' → pool_ok n p'.
Proof.
  intros [H1 H2 H3 H4 H5 H6 H7]. destruct r as [t|]; cbn; [|by intros [= <-]].
  rewrite push_unbounded by done. intros [= <-]. unfold phase_ok in H5.
  assert (phase p = Live → before_null (queue_ (tasks p) ++ [Some t]) = omap id (queue_ (tasks p)) ++ [t]) as Hl.
  { intros Hp. rewrite Hp in H5. rewrite before_null_all by (count; unfold nulls at 2; cbn; lia). by rewrite omap_app. }
  split; unfold phase_ok; cbn; try done.
  - by rewrite H3, omap_app, <-app_assoc.
  - rewrite nulls_app. change (nulls [Some t]) with 0. rewrite Nat.add_0_r. destruct (phase p); try done. destruct H5 as [? ->]. done.
  - destruct (phase p) eqn:Hp; try (etrans; [exact H6|]; apply prefix_app, before_null_app).
    rewrite Hl by done. destruct H5 as [_ ->]. by rewrite H3, <-app_assoc.
  - intros Hx. destruct (phase p); [destruct H5; lia|auto..].
Qed.

(** A thread that has not left its loop does not disturb the destructor. *)
Lemma phase_worker n p p' i w w' : phase_ok n p → length (threads_ p) = n → threads_ p !! i = Some w → w ≠ Exited →
  threads_ p' = <[i := w']> (threads_ p) → phase p' = phase p → early p' = early p → scheduled p' = scheduled p →
  nulls (queue_ (tasks p')) + exited (threads_ p') = nulls (queue_ (tasks p)) + exited (threads_ p) → phase_ok n p'.
Proof.
  unfold phase_ok. intros H Hn Hi Hw Ht Hp He Hs Hc. rewrite Hp, He, Hs, Hc. destruct (phase p); try done.
  - split; [apply H|]. intros j Hj. rewrite Ht. destruct (decide (j = i)) as [->|Hne].
    + by rewrite (proj2 H i Hj) in Hi; simplify_eq.
    + rewrite list_lookup_insert_ne by done. by apply H.
  - exfalso. pose proof (not_all_exited _ _ _ Hi Hw). lia.
Qed.

Lemma worker_ok n p i p' : pool_ok n p → worker_step p i = Some p' → pool_ok n p'.
Proof.
  intros [H1 H2 H3 H4 H5 H6 H7]. unfold worker_step in *.
  destruct (threads_ p !! i) as [[|t|]|] eqn:Hi; try done;
    destruct (update_split _ _ _ Hi) as (a & b & Ht & Hu).
  - unfold pop. destruct (queue_ (tasks p)) as [|[t|] q] eqn:Hq; cbn; intros [= <-];
      (split; [| | | |eapply phase_worker; [exact H5|done|exact Hi|done..|]| |]);
      cbn; rewrite ?Hu, ?Ht, ?Hq in *; count; try done.
    + by rewrite H3, <-app_assoc.
    + rewrite H4, <-!app_assoc. do 2 f_equiv. symmetry. apply Permutation_cons_append.
    + by rewrite <-app_assoc.
    + intros Hx. by apply prefix_app_r, H7.
    + lia.
    + rewrite app_nil_r in H6. by apply prefix_app_r.
    + by rewrite app_nil_r in H6.
  - intros [= <-]. split; [| | | |eapply phase_worker; [exact H5|done|exact Hi|done..|]| |];
      cbn; rewrite ?Hu, ?Ht in *; count; try done.
    rewrite H4, <-app_assoc. apply Permutation_app_head. symmetry. cbn [app]. apply Permutation_middle.
Qed.

Lemma destroy_ok n p p' : pool_ok n p → destroy_step p = Some p' → pool_ok n p'.
Proof.
  intros [H1 H2 H3 H4 H5 H6 H7]. unfold destroy_step, phase_ok in *. destruct (phase p) as [|i|i|] eqn:Hp; try done.
  - case_decide as Hi.
    + rewrite push_unbounded by done. intros [= <-]. split; unfold phase_ok; cbn; try done.
      * by rewrite omap_app, app_nil_r.
      * rewrite nulls_app. change (nulls [None]) with 1. lia.
      * etrans; [exact H6|]. apply prefix_app, before_null_app.
    + intros [= <-]. split; unfold phase_ok; cbn; try done. split; [lia|]. intros; lia.
  - destruct (threads_ p !! i) as [[| |]|] eqn:Hi; intros [= <-]; split; unfold phase_ok; cbn; try done.
    + split; [apply H5|]. intros j Hj. destruct (decide (j = i)) as [->|]; [done|]. apply H5. lia.
    + split; [apply H5|]. apply lookup_ge_None in Hi. rewrite H1 in Hi. destruct H5 as [_ H5].
      assert (∀ ws, (∀ j, j < length ws → ws !! j = Some Exited) → exited ws = length ws) as Hall.
      { induction ws as [|w ws IH]; intros H; [done|]. rewrite exited_cons. pose proof (H 0 ltac:(cbn; lia)) as [= ->].
        rewrite IH; [done|]. intros j Hj. apply (H (S j)). cbn. lia. }
      rewrite Hall; [done|]. intros j Hj. apply H5. lia.
Qed.

Lemma pool_step_ok n p p' : pool_ok n p → pool_step p p' → pool_ok n p'.
Proof.
  intros H Hs. destruct Hs as [p r p' _ Hs|p Hp|p p' [? ? ? Hs|? ? Hs]].
  - by eapply pool_schedule_ok.
  - destruct H as [H1 H2 H3 H4 H5 H6 H7]. unfold phase_ok in H5. rewrite Hp in H5. split; unfold phase_ok; cbn; try done. lia.
  - by eapply worker_ok.
  - by eapply destroy_ok.
Qed.

Lemma pool_reachable_ok n p : pool_reachable n p → pool_ok n p.
Proof. unfold pool_reachable. apply rtc_ind_r; [apply new_pool_ok|]. intros ? ? _ Hs H. by eapply pool_step_ok. Qed.

(** ** The destructor *)

(** The steps that are left to the destructor alone. *)
Definition phase_left (n : nat) (ph : Shutdown) : nat :=
  match ph with
  | Live => 0
  | Pushing i => 3 * (n - i) + n + 3
  | Joining i => n - i + 1
  | Gone => 0
  end.

(** What bounds the steps of the pool: two per element of the queue (the pop and the
    end of the task), one per running task, and the destructor's. *)
Definition work_left p : nat :=
  2 * length (queue_ (tasks p)) + busy (threads_ p) + phase_left (length (threads_ p)) (phase p).

Lemma internal_decreases n p p' : pool_ok n p → internal p p' → work_left p' < work_left p.
Proof.
  intros H Hs. unfold work_left. destruct Hs as [p i p' Hs|p p' Hs].
  - unfold worker_step in Hs. destruct (threads_ p !! i) as [[|t|]|] eqn:Hi; try done;
      destruct (update_split _ _ _ Hi) as (a & b & Ht & Hu).
    + unfold pop in Hs. destruct (queue_ (tasks p)) as [|[t|] q] eqn:Hq; cbn in Hs; simplify_eq; cbn;
        rewrite Hu, Ht; count; lia.
    + simplify_eq; cbn. rewrite Hu, Ht. count. lia.
  - unfold destroy_step in Hs. pose proof (ok_threads _ _ H) as Hn. destruct (phase p) as [|i|i|] eqn:Hp; try done.
    + case_decide as Hi; [|simplify_eq; cbn; lia].
      rewrite push_unbounded in Hs by apply H. cbn in Hs. simplify_eq. cbn. rewrite length_app. cbn. lia.
    + destruct (threads_ p !! i) as [[| |]|] eqn:Hi; simplify_eq; cbn; [|lia].
      apply lookup_lt_Some in Hi. lia.
Qed.

(** As long as the destructor has not returned, a thread or the destructor can go on. *)
Lemma internal_progress n p : pool_ok n p → phase p ≠ Live → phase p ≠ Gone → red internal p.
Proof.
  intros [H1 H2 _ _ H5 _ _] Hl Hg. unfold phase_ok in H5. destruct (phase p) as [|i|i|] eqn:Hp; try done.
  - destruct (destroy_step p) as [p'|] eqn:Hd; [eexists; by apply internal_destroy|]. exfalso.
    unfold destroy_step in Hd. rewrite Hp in Hd. case_decide; [|done]. by rewrite push_unbounded in Hd.
  - destruct (threads_ p !! i) as [[|t|]|] eqn:Hi.
    + pose proof (not_all_exited _ _ _ Hi ltac:(done)). destruct (queue_ (tasks p)) as [|r q] eqn:Hq; [unfold nulls in H5; cbn in H5; lia|].
      eexists. apply internal_worker with (i := i). unfold worker_step, pop. by rewrite Hi, Hq.
    + eexists. apply internal_worker with (i := i). unfold worker_step. by rewrite Hi.
    + eexists. apply internal_destroy. unfold destroy_step. by rewrite Hp, Hi.
    + eexists. apply internal_destroy. unfold destroy_step. by rewrite Hp, Hi.
Qed.

Lemma internal_frame p p' : internal p p' → early p' = early p ∧ (phase p ≠ Live → phase p' ≠ Live).
Proof.
  intros [q i q' Hs|q q' Hs].
  - unfold worker_step in Hs. destruct (_ !! i) as [[|t|]|]; try done; [|by simplify_eq].
    destruct (pop _) as [[[t|] q1]|]; cbn in Hs; by simplify_eq.
  - unfold destroy_step in Hs. destruct (phase q) eqn:Hq; try done.
    + case_decide; [|by simplify_eq]. destruct (push _ _); cbn in Hs; by simplify_eq.
    + destruct (_ !! _) as [[| |]|]; by simplify_eq.
Qed.

Lemma all_exited_idle ws : exited ws = length ws → omap task_of ws = [].
Proof.
  induction ws as [|w ws IH]; intros H; [done|]. rewrite exited_cons in H. pose proof (exited_le ws).
  destruct w; cbn in *; [lia..|]. apply IH. lia.
Qed.

Lemma phase_gone ph : ph = Gone ∨ ph ≠ Gone.
Proof. destruct ph; auto. Qed.

Lemma internal_ok n p p' : pool_ok n p → internal p p' → pool_ok n p'.
Proof. intros H Hs. eapply pool_step_ok; [done|by constructor]. Qed.

Lemma internal_terminates n p : pool_ok n p → sn internal p.
Proof.
  remember (work_left p) as k eqn:Hk. revert p Hk. induction (lt_wf k) as [k _ IH]. intros p -> H.
  constructor. intros p' Hs. eapply IH; [by eapply internal_decreases|done|by eapply internal_ok].
Qed.

(** C39. The order of the tasks: in every reachable state of the pool, whatever the
    threads, the callers and the destructor have done, the tasks were taken in the
    order in which they were scheduled, each of them once and none skipped, and a task
    that was taken has returned or is being run by exactly one thread. *)
Theorem pool_runs_in_order n p : pool_reachable n p →
  started p ++ omap id (queue_ (tasks p)) = scheduled p ∧ started p ≡ₚ finished p ++ omap task_of (threads_ p).
Proof. intros [_ _ -> H _ _ _]%pool_reachable_ok. done. Qed.

(** C38. Shutdown: once the destructor of a pool with at least one thread has been
    called, no run of its threads and of the destructor goes on for ever, and a run
    that can do nothing more is one in which the destructor has returned and every
    task that was scheduled before the call has been run to its end, in order. *)
Theorem pool_shutdown n p : 0 < n → pool_reachable n p → phase p ≠ Live →
  sn internal p ∧
  ∀ p', rtc internal p p' → nf internal p' →
    phase p' = Gone ∧ early p' = early p ∧ early p' `prefix_of` started p' ∧ finished p' ≡ₚ started p'.
Proof.
  intros Hn Hr Hl. apply pool_reachable_ok in Hr. split; [by eapply internal_terminates|].
  intros p' Hs Hf. assert (pool_ok n p' ∧ phase p' ≠ Live ∧ early p' = early p) as (Hok & Hl' & He).
  { clear Hf. induction Hs as [p|p p1 p' Hs1 Hs IH]; [done|].
    apply internal_frame in Hs1 as Hf1. destruct IH as (? & ? & ->); [by eapply internal_ok|by apply Hf1|]. by destruct Hf1. }
  destruct (phase_gone (phase p')) as [Hg|Hg]; [|by destruct Hf; eapply internal_progress].
  destruct Hok as [H1 _ _ H4 H5 _ H7]. unfold phase_ok in H5. rewrite Hg in H5. repeat split; try done.
  - apply H7. lia.
  - rewrite H4, (all_exited_idle (threads_ p')) by lia. by rewrite app_nil_r.
Qed.
End pool.

(** ** Witnesses *)

(** Two threads; task 7 is being run, task 8 waits, and the destructor has begun. *)
Definition demo_pool : Pool nat :=
  mkPool (mkQueue [Some 8] 0) [Popping; Running 7] (Pushing 0) [7; 8] [7; 8] [7] [].

Lemma demo_reachable : pool_reachable 2 demo_pool.
Proof.
  eapply rtc_l; [by apply (step_schedule _ (Some 7))|].
  eapply rtc_l; [by apply step_internal, internal_worker with (i := 1)|].
  eapply rtc_l; [by apply (step_schedule _ (Some 8))|].
  eapply rtc_l; [by apply step_destroy|]. reflexivity.
Qed.

Lemma pool_runs_in_order_witness : [7] ++ [8] = scheduled demo_pool ∧ [7] ≡ₚ [] ++ [7].
Proof. apply (pool_runs_in_order 2 demo_pool), demo_reachable. Defined.

Lemma pool_shutdown_witness : sn internal demo_pool.
Proof. apply (pool_shutdown 2 demo_pool); [lia|apply demo_reachable|done]. Defined.
