(* ===== verification/LinearProps.v ===== *)
(** * Properties of the parallel layers

    In exact arithmetic the ranks together compute what one device would compute, and
    every rank gets it. *)

From Stdlib Require Import Ascii.
From stdpp Require Import base tactics list gmap sets strings.
From S2P Require Import Prelude Types Tensor StateDict LinearInv Linear.

Section props.
Context {A : Type} `{ScalarLaws A} (memory : nat → A).
Implicit Types d : StateDict A.

(** ** A column-parallel layer followed by a row-parallel one *)

(** The code of one rank: both layers are built from their state dicts; [act] is
    the activation between them. *)
Definition mlp_rank (act : A → A) d1 d2 (n h m ws r : nat) (x : Tensor A) : Spmd A (Tensor A) :=
  match build (ColumnParallelLinear_new memory n h true false r ws) (column_load d1) verify_loaded_weights,
        build (RowParallelLinear_new memory h m true true r ws) (row_load d2) verify_loaded_weights with
  | Ok c, Ok w => y ← column_forward c x; row_forward w (pointwise act y)
  | Fail e, _ | _, Fail e => Abort e
  end.

(** The same on one device. *)
Definition mlp_reference (act : A → A) (w1 b1 w2 b2 x : Tensor A) : M unit (Tensor A) :=
  y ← linear x w1 (Some b1); linear (pointwise act y) w2 (Some b2).

Lemma pointwise_chunk act ws r c (rows : list (list A)) :
  pointwise act (chunk ws 1 r (Mat c rows)) = chunk ws 1 r (Mat c (map act <$> rows)).
Proof.
  simpl. f_equal. change (map (map act) (piece ws r <$> rows)) with (fmap act <$> (piece ws r <$> rows)).
  rewrite <-!list_fmap_compose. apply list_fmap_ext. intros i x _. simpl. symmetry. apply (piece_fmap act).
Qed.

Lemma mlp_rank_eq act d1 d2 n h m ws r xs w1 b1 w2 b2 :
  h `mod` ws = 0 → r < ws → length w1 = h → length b1 = h → length w2 = m → length b2 = m →
  holds d1 weight_name (Mat n w1) → holds d1 bias_name (Vec b1) →
  holds d2 weight_name (Mat h w2) → holds d2 bias_name (Vec b2) →
  let ys := map act <$> (linear_row w1 (Some b1) <$> xs) in
  let part := Mat m ((λ y, (λ w, dot (piece ws r y) (piece ws r w)) <$> w2) <$> ys) in
  mlp_rank act d1 d2 n h m ws r (Mat n xs) =
  if decide (1 < ws) then AllReduce (flatten part) (λ recvbuff, local (add_bias (like part recvbuff) (Vec b2)))
  else local (add_bias part (Vec b2)).
Proof.
  intros Hm Hr H1 H2 H3 H4 Hw1 Hb1 Hw2 Hb2 ys part. unfold mlp_rank.
  rewrite (column_built memory d1 n h w1 b1), (row_built memory d2 h m w2 b2) by done. subst h.
  rewrite column_local by done. replace (if decide (1 < ws) then _ else _) with
    (@Ret A _ (chunk ws 1 r (Mat (length w1) (linear_row w1 (Some b1) <$> xs)))) by (by case_decide).
  cbn [mbind Spmd_bind spmd_bind]. rewrite pointwise_chunk. fold ys. unfold row_forward. cbn [flag_].
  cbn [mbind Spmd_bind spmd_bind mret Spmd_ret weight_ w_tensor world_size_ bias_tensor bias_ fmap option_fmap option_map].
  assert (local (linear (chunk ws 1 r (Mat (length w1) ys)) (Mat (length w1 / ws) (piece ws r <$> w2)) None) = Ret part) as ->.
  { unfold local. rewrite row_local by done. subst m. done. }
  unfold mbind, Spmd_bind. cbn [spmd_bind]. case_decide; [|done].
  unfold reduce_from_model_parallel_region. rewrite decide_False by lia. done.
Qed.

(** Tensor parallelism: for every number of ranks that divides the inner size, the
    ranks that load their shards of a column-parallel and of a row-parallel layer
    from the checkpoint run to their end with one collective, and every rank gets the
    output that one device computes with the whole weights. *)
Lemma tensor_parallel_mlp act d1 d2 n h m ws xs w1 b1 w2 b2 :
  0 < ws → h `mod` ws = 0 → length w1 = h → length b1 = h → length w2 = m → length b2 = m →
  holds d1 weight_name (Mat n w1) → holds d1 bias_name (Vec b1) →
  holds d2 weight_name (Mat h w2) → holds d2 bias_name (Vec b2) →
  ∃ t, mlp_reference act (Mat n w1) (Vec b1) (Mat h w2) (Vec b2) (Mat n xs) tt = Ok (t, tt) ∧
    run_world 1 ((λ r, mlp_rank act d1 d2 n h m ws r (Mat n xs)) <$> seq 0 ws) = Some (replicate ws t).
Proof.
  intros Hws Hm H1 H2 H3 H4 Hw1 Hb1 Hw2 Hb2. set (ys := map act <$> (linear_row w1 (Some b1) <$> xs)).
  assert (Forall (λ y, length y = h) ys) as Hy.
  { apply Forall_fmap, Forall_fmap, Forall_true. intros x.
    change (length (map act (linear_row w1 (Some b1) x)) = h). rewrite length_map, linear_row_length; congruence. }
  pose proof Hw2 as (_&_&Hrows). cbn in Hrows.
  exists (Mat m ((λ r, zip_with s_add r b2) <$> ((λ y, dot y <$> w2) <$> ys))). split.
  { unfold mlp_reference, mbind, M_bind. rewrite linear_ok by congruence. cbn [pointwise]. rewrite H1.
    change (map (map act) (linear_row w1 (Some b1) <$> xs)) with ys. rewrite linear_ok by congruence.
    by rewrite H3, <-list_fmap_compose. }
  destruct (decide (1 < ws)) as [Hlt|Hlt].
  - rewrite (run_reduce 0 (length ys * length w2)) with
      (l := λ r, products (λ y w, dot (piece ws r y) (piece ws r w)) ys w2)
      (k := λ r recvbuff, local (add_bias (like (Mat m ((λ y, (λ w, dot (piece ws r y) (piece ws r w)) <$> w2) <$> ys)) recvbuff) (Vec b2))).
    + rewrite (row_reduced w2 h ys) by (done || lia). rewrite replicate_seq. apply run_returned. intros r _.
      cbn [like]. rewrite length_fmap, <-H3, products_rows. unfold local, add_bias, mbind, M_bind, check.
      rewrite bool_decide_true by congruence. done.
    + destruct ws; [lia|done].
    + intros r Hr. apply elem_of_seq in Hr. rewrite (mlp_rank_eq act d1 d2 n h m ws r xs w1 b1 w2 b2) by (done || lia).
      rewrite decide_True by done. fold ys. cbn [flatten]. rewrite concat_products, products_length. done.
  - rewrite replicate_seq. apply run_returned. intros r Hr. apply elem_of_seq in Hr. assert (ws = 1) as -> by lia. assert (r = 0) as -> by lia.
    rewrite (mlp_rank_eq act d1 d2 n h m 1 0 xs w1 b1 w2 b2) by (done || lia). rewrite decide_False by lia. fold ys.
    unfold local, add_bias, mbind, M_bind, check. rewrite bool_decide_true by done. cbn [mret M_ret].
    do 3 f_equal. apply list_fmap_ext. intros i y _. apply list_fmap_ext. intros j w _. by rewrite !piece_one.
Qed.

(** ** Embeddings *)

Definition embedding_rank d (v c ws r : nat) (input : list nat) : Spmd A (Tensor A) :=
  match build (ParallelEmbedding_new memory v c r ws) (parallel_embedding_load 1 d) verify_embedding with
  | Ok e => parallel_embedding_forward e input
  | Fail e => Abort e
  end.
Definition vocab_rank d (v c ws r : nat) (input : list nat) : Spmd A (Tensor A) :=
  match build (VocabParallelEmbedding_new memory v c r ws) (parallel_embedding_load 0 d) verify_embedding with
  | Ok e => vocab_embedding_forward e input
  | Fail e => Abort e
  end.

Lemma embedding_rank_eq d v c ws r rows input : c `mod` ws = 0 → r < ws → length rows = v → holds d weight_name (Mat c rows) →
  Forall (λ i, i < v) input →
  let output := chunk ws 1 r (Mat c (rows_at rows input)) in
  embedding_rank d v c ws r input = if decide (1 < ws) then gather_from_model_parallel_region ws output else Ret output.
Proof.
  intros Hm Hr Hv Hd Hi output. unfold embedding_rank, build, ParallelEmbedding_new, mbind, M_bind.
  rewrite divisible_ok by (done || lia). cbn [mret M_ret]. unfold parallel_embedding_load, mbind, M_bind, get. cbn [emb_rank emb_world_size].
  rewrite (get_sharded_holds d weight_name (Mat c rows) 1 r ws c) by (done || lia). 
  rewrite store_embedding_ok by (cbn [emb_weight_]; rewrite sizes_empty_mat; cbn; by rewrite length_fmap, Hv).
  cbn [is_loaded_ mret M_ret verify_embedding check]. unfold parallel_embedding_forward, local. cbn [emb_weight_ emb_world_size chunk]. rewrite embedding_rows by by rewrite length_fmap, Hv.
  unfold output. cbn [chunk]. by rewrite rows_at_chunk.
Qed.

(** The row of token [i] on rank [r]: the embedding, or zeros. *)
Definition vocab_part (rows : list (list A)) (c k r : nat) (p : nat * nat) : A :=
  if decide (r = p.1 / k) then value_at (default [] (rows !! p.1)) p.2 else s_zero.
Definition token_places (c : nat) (input : list nat) : list (nat * nat) := input ≫= λ i, (λ j, (i, j)) <$> seq 0 c.

Lemma vocab_rows_flat (g : nat → list A) c input (f : nat * nat → A) : (∀ i, i ∈ input → g i = (λ j, f (i, j)) <$> seq 0 c) →
  concat (g <$> input) = f <$> token_places c input.
Proof.
  intros Hg. unfold token_places. induction input as [|i input IH]; [done|]. cbn [fmap list_fmap concat mbind list_bind].
  rewrite fmap_app, IH by set_solver. rewrite Hg by set_solver. f_equal. by rewrite <-list_fmap_compose.
Qed.

(** What rank [r] looks up. *)
Lemma vocab_local rows c k ws r i : length rows = ws * k → 0 < k → r < ws → i < length rows → Forall (λ w, length w = c) rows →
  (if bool_decide (i < k * r) || bool_decide (k * r + k ≤ i) then replicate c s_zero
   else default [] (piece ws r rows !! (i - k * r))) = (λ j, vocab_part rows c k r (i, j)) <$> seq 0 c.
Proof.
  intros Hl Hk Hr Hi Hw. unfold vocab_part. cbn [fst snd]. destruct (lookup_lt_is_Some_2 rows i Hi) as [w Hlw].
  destruct (decide (r = i / k)) as [Heq|Hne].
  - pose proof (Nat.div_mod_eq i k). pose proof (Nat.mod_upper_bound i k). rewrite !bool_decide_false by nia. cbn [orb].
    unfold piece. rewrite Hl, (Nat.mul_comm ws k), Nat.div_mul by lia. rewrite lookup_take_lt, lookup_drop by nia.
    replace (r * k + (i - k * r)) with i by nia. rewrite Hlw. cbn. symmetry. apply row_values. by apply (Forall_lookup_1 _ _ _ _ Hw Hlw).
  - assert (bool_decide (i < k * r) || bool_decide (k * r + k ≤ i) = true) as ->.
    { apply orb_true_iff. rewrite !bool_decide_eq_true. destruct (decide (i < k * r)); [by left|right].
      apply Nat.nlt_ge. intros Hlt. apply Hne. apply (Nat.div_unique i k r (i - k * r)); nia. }
    rewrite replicate_seq. done.
Qed.

Lemma vocab_rank_eq d v c k ws r rows input : v = ws * k → r < ws → length rows = v → holds d weight_name (Mat c rows) →
  Forall (λ i, i < v) input → 1 < ws →
  let part := Mat c ((λ i, (λ j, vocab_part rows c k r (i, j)) <$> seq 0 c) <$> input) in
  vocab_rank d v c ws r input = AllReduce (flatten part) (λ recvbuff, Ret (like part recvbuff)).
Proof.
  intros Hvk Hr Hv Hd Hi Hws part. pose proof Hd as (_&_&Hw). cbn in Hw.
  assert (v / ws = k) as Hq by (rewrite Hvk, Nat.mul_comm; apply Nat.div_mul; lia).
  unfold vocab_rank, build, VocabParallelEmbedding_new, mbind, M_bind. rewrite decide_False by lia. cbn [mret M_ret].
  unfold parallel_embedding_load, mbind, M_bind, get. cbn [emb_rank emb_world_size].
  rewrite (get_sharded_holds d weight_name (Mat c rows) 0 r ws v);
    [|done|by rewrite <-Hv|lia|rewrite Hvk, Nat.mul_comm; apply Nat.Div0.mod_mul|done].
  rewrite store_embedding_ok by (cbn [emb_weight_]; rewrite sizes_empty_mat; cbn; rewrite piece_length; [by rewrite Hv|rewrite Hv, Hvk, Nat.mul_comm; apply Nat.Div0.mod_mul|done]).
  cbn [is_loaded_ mret M_ret verify_embedding check]. unfold vocab_embedding_forward. cbn [emb_weight_ emb_world_size start_index_ end_index_ emb_rank].
  rewrite decide_False by lia. rewrite Hq. unfold local. cbn [chunk].
  rewrite zip_with_fmap_l, zip_with_diag, embedding_rows.
  2: { apply Forall_fmap. eapply Forall_impl; [exact Hi|]. intros i Hlt. cbn. rewrite piece_length, Hv, Hq; [|rewrite Hv, Hvk, Nat.mul_comm; apply Nat.Div0.mod_mul|done].
       cbn in Hlt. assert (0 < k) by (destruct k; nia). repeat case_bool_decide; cbn; lia. }
  cbn [mbind Spmd_bind spmd_bind mask_rows]. unfold reduce_from_model_parallel_region. rewrite decide_False by lia.
  unfold allreduce. unfold rows_at. rewrite <-list_fmap_compose, zip_with_fmap_l, zip_with_fmap_r, zip_with_diag.
  rewrite (list_fmap_ext _ (λ i, (λ j, vocab_part rows c k r (i, j)) <$> seq 0 c) input); [done|].
  intros j i Hj. cbn. rewrite <-(vocab_local rows c k ws r i); try done; try congruence.
  - by destruct (_ || _).
  - rewrite Forall_lookup in Hi. specialize (Hi _ _ Hj). cbn in Hi. nia.
  - rewrite Forall_lookup in Hi. rewrite Hv. by eapply Hi.
Qed.

(** The sum over the ranks is the row of the token. *)
Lemma vocab_reduced rows c k ws v input : v = ws * k → ws ≠ 0 → length rows = v → Forall (λ w, length w = c) rows → Forall (λ i, i < v) input →
  reduce ((λ r, vocab_part rows c k r <$> token_places c input) <$> seq 0 ws) = concat (rows_at rows input).
Proof.
  intros Hk Hws Hv Hw Hi. rewrite reduce_fmap by (by destruct ws). unfold rows_at.
  rewrite (vocab_rows_flat _ c _ (λ p, value_at (default [] (rows !! p.1)) p.2)).
  - apply list_fmap_ext. intros n [i j] Hp. apply list_elem_of_lookup_2 in Hp. unfold token_places in Hp.
    apply list_elem_of_bind in Hp as (i'&Hp&Hin). apply list_elem_of_fmap in Hp as (j'&[= <- <-]&_).
    rewrite Forall_forall in Hi. specialize (Hi _ Hin). cbn in Hi. unfold vocab_part. cbn [fst snd].
    apply sum_single; [apply NoDup_seq|]. apply elem_of_seq. split; [lia|]. apply Nat.Div0.div_lt_upper_bound. lia.
  - intros i Hin. rewrite Forall_forall in Hi. specialize (Hi _ Hin). cbn [fst snd]. symmetry. apply row_values.
    destruct (lookup_lt_is_Some_2 rows i) as [w Hlw]; [by rewrite Hv|]. rewrite Hlw. by apply (Forall_lookup_1 _ _ _ _ Hw Hlw).
Qed.

(** C32. Parallel embeddings: sharded along the embedding dimension or along the
    vocabulary, the ranks load their shards, run to their end with one collective, and
    every rank gets the rows that one device looks up in the whole table. *)
Theorem parallel_embeddings_exact d v c ws rows input : 0 < ws → length rows = v → holds d weight_name (Mat c rows) →
  Forall (λ i, i < v) input →
  ∃ t, embedding input (Mat c rows) tt = Ok (t, tt) ∧
    (c `mod` ws = 0 → run_world 1 ((λ r, embedding_rank d v c ws r input) <$> seq 0 ws) = Some (replicate ws t)) ∧
    (v `mod` ws = 0 → run_world 1 ((λ r, vocab_rank d v c ws r input) <$> seq 0 ws) = Some (replicate ws t)).
Proof.
  intros Hws Hv Hd Hi. pose proof Hd as (_&_&Hw). cbn in Hw. exists (Mat c (rows_at rows input)).
  assert (Forall (λ r, length r = c) (rows_at rows input)) as Hwid by (apply rows_at_width; [done|by rewrite Hv]).
  split_and!.
  - apply embedding_rows. by rewrite Hv.
  - intros Hm. destruct (decide (1 < ws)) as [Hlt|Hlt].
    + rewrite <-(gather_columns ws c (rows_at rows input)) by done. f_equal. apply list_fmap_ext. intros j r Hj.
      apply lookup_seq in Hj as [-> Hj]. rewrite (embedding_rank_eq d v c ws _ rows) by (done || lia). by rewrite decide_True.
    + assert (ws = 1) as -> by lia. rewrite replicate_seq. apply run_returned. intros r Hr. apply elem_of_seq in Hr. assert (r = 0) as -> by lia.
      rewrite (embedding_rank_eq d v c 1 0 rows) by (done || lia). rewrite decide_False by lia. f_equal. by rewrite chunk_one.
  - intros Hm. set (k := v / ws). assert (v = ws * k) as Hk by (unfold k; pose proof (Nat.div_mod_eq v ws); lia).
    destruct (decide (1 < ws)) as [Hlt|Hlt].
    + rewrite (run_reduce 0 (length (token_places c input))) with (l := λ r, vocab_part rows c k r <$> token_places c input)
        (k := λ r recvbuff, Ret (like (Mat c ((λ i, (λ j, vocab_part rows c k r (i, j)) <$> seq 0 c) <$> input)) recvbuff)).
      * rewrite vocab_reduced with (ws := ws) (v := v) by (done || lia). rewrite replicate_seq. apply run_returned. intros r _. f_equal. cbn [like].
        rewrite length_fmap, <-(length_fmap (λ i, default [] (rows !! i))). f_equal. by apply unflatten_concat.
      * destruct ws; [lia|done].
      * intros r Hr. apply elem_of_seq in Hr. split; [|apply length_fmap].
        rewrite (vocab_rank_eq d v c k ws r rows input) by (done || lia). cbn [flatten]. f_equal.
        by apply vocab_rows_flat.
    + assert (ws = 1) as -> by lia. rewrite replicate_seq. apply run_returned. intros r Hr. apply elem_of_seq in Hr. assert (r = 0) as -> by lia.
      unfold vocab_rank, build, VocabParallelEmbedding_new, mbind, M_bind. rewrite decide_False by lia. cbn [mret M_ret].
      unfold parallel_embedding_load, mbind, M_bind, get. cbn [emb_rank emb_world_size].
      rewrite (get_sharded_holds d weight_name (Mat c rows) 0 0 1 v) by (done || lia || by rewrite <-Hv). cbn [chunk]. rewrite piece_one.
      rewrite store_embedding_ok by (cbn [emb_weight_]; rewrite sizes_empty_mat, Nat.div_1_r; cbn; by rewrite Hv).
      cbn [is_loaded_ mret M_ret verify_embedding check]. unfold vocab_embedding_forward. cbn [emb_world_size emb_weight_].
      rewrite decide_True by done. unfold local. by rewrite embedding_rows by by rewrite Hv.
Qed.
End props.

(** ** Witnesses *)

#[global] Instance nat_scalar : Scalar nat := {| s_zero := 0; s_add := Nat.add; s_mul := Nat.mul |}.
#[global] Instance nat_scalar_laws : ScalarLaws nat.
Proof. split; intros; cbn; try (intros ?); lia. Qed.

Definition layer_dict (w : Tensor nat) (b : list nat) : StateDict nat :=
  mkStateDict {[weight_name := w; bias_name := Vec b]} None [].

Lemma tensor_parallel_mlp_example :
  run_world 1 ((λ r, mlp_rank (λ _, 9) (λ a, 2 * a) (layer_dict (Mat 1 [[1]; [2]]) [0; 1]) (layer_dict (Mat 2 [[3; 4]]) [5]) 1 2 1 2 r (Mat 1 [[1]])) <$> seq 0 2) =
  Some [Mat 1 [[35]]; Mat 1 [[35]]].
Proof.
  destruct (tensor_parallel_mlp (λ _, 9) (λ a, 2 * a) (layer_dict (Mat 1 [[1]; [2]]) [0; 1]) (layer_dict (Mat 2 [[3; 4]]) [5]) 1 2 1 2 [[1]]
    [[1]; [2]] [0; 1] [[3; 4]] [5]) as (t&Ht&Hrun).
  11: { vm_compute in Ht. injection Ht as <-. exact Hrun. }
  all: try done; try lia. all: split_and!; [done|vm_compute; done|]; repeat constructor.
Defined.

Lemma parallel_embeddings_exact_witness :
  run_world 1 ((λ r, vocab_rank (λ _, 9) (layer_dict (Mat 2 [[1; 2]; [3; 4]; [5; 6]; [7; 8]]) []) 4 2 2 r [3; 0]) <$> seq 0 2) =
  Some [Mat 2 [[7; 8]; [1; 2]]; Mat 2 [[7; 8]; [1; 2]]].
Proof.
  destruct (parallel_embeddings_exact (λ _, 9) (layer_dict (Mat 2 [[1; 2]; [3; 4]; [5; 6]; [7; 8]]) []) 4 2 2 [[1; 2]; [3; 4]; [5; 6]; [7; 8]] [3; 0])
    as (t&Ht&_&Hrun).
  5: { vm_compute in Ht. injection Ht as <-. apply Hrun. done. }
  - lia.
  - done.
  - split_and!; [done|vm_compute; done|]. repeat constructor.
  - repeat (constructor; [lia|]). constructor.
Defined.
