(* ===== verification/FusedProps.v ===== *)
(** * Properties of the fused layers

    Weights that are fused from several tensors are the same however the tensors are
    spread over the files of a checkpoint, and every rank gets the key and value
    heads that its query heads use. *)

From Stdlib Require Import Ascii.
From stdpp Require Import base tactics list gmap sets strings.
From S2P Require Import Prelude Types Tensor StateDict LinearInv Linear.

(** ** Fused weights *)
Section fused.
Context {A : Type}.
Implicit Types (d : StateDict A) (t : Tensor A).

(** The tensors that have been seen. *)
Definition masked (have : list bool) (shards : list (Tensor A)) : list (option (Tensor A)) :=
  zip_with (λ (b : bool) t, if b then Some t else None) have shards.

Lemma masked_none shards : masked (replicate (length shards) false) shards = replicate (length shards) None.
Proof. induction shards as [|t shards IH]; [done|]. unfold masked in *. cbn. by rewrite IH. Qed.

Lemma masked_length have shards : length have = length shards → length (masked have shards) = length shards.
Proof. intros Hl. unfold masked. rewrite length_zip_with. lia. Qed.

Lemma masked_all have shards : length have = length shards →
  mapM id (masked have shards) = if forallb id have then Some shards else None.
Proof.
  revert shards. induction have as [|b have IH]; intros [|t shards] Hl; try done. cbn in Hl.
  unfold masked in *. cbn. destruct b; [|done]. cbn. rewrite IH by lia. by destruct (forallb id have).
Qed.

Lemma masked_merge have have' shards : length have = length shards → length have' = length shards →
  zip_with (λ a u, match a with Some _ => a | None => u end) (masked have shards) (masked have' shards) =
  masked (zip_with orb have have') shards.
Proof.
  revert have' shards. induction have as [|b have IH]; intros [|b' have'] [|t shards] H1 H2; try done.
  unfold masked in *. cbn in *. rewrite IH by lia. by destruct b, b'.
Qed.

(** What a state dict offers of the shards. *)
Definition offers {S} d (prefixes : list text) name dim rank ws (shards : list (Tensor A)) (offer : list bool) (s : S) : Prop :=
  length offer = length shards ∧
  ∀ i p (b : bool) t, prefixes !! i = Some p → offer !! i = Some b → shards !! i = Some t →
    get_sharded_tensor d (p ++ name) dim rank ws s = Ok ((if b then Some t else None), s).

Lemma fused_tensors_masked {St} d name dim rank ws (s : St) prefixes : ∀ shards offer have,
  length prefixes = length shards → length have = length shards → offers d prefixes name dim rank ws shards offer s →
  fused_tensors d prefixes name dim rank ws (masked have shards) s = Ok (masked (zip_with orb offer have) shards, s).
Proof.
  induction prefixes as [|p prefixes IH]; intros [|t shards] [|b offer] [|h have] Hp Hh [Ho Hg]; try done.
  cbn [masked zip_with fused_tensors]. unfold mbind, M_bind. rewrite (Hg 0 p b t) by done.
  change (zip_with (λ (b0 : bool) (t0 : Tensor A), if b0 then Some t0 else None) have shards) with (masked have shards).
  rewrite (IH shards offer have); [by destruct b, h|cbn in *; lia|cbn in *; lia|].
  split; [cbn in *; lia|]. intros i q c u H1 H2 H3. by apply (Hg (S i) q c u).
Qed.

(** One more state dict. *)
Lemma load_fused_step d prefixes name dim rank ws shards offer have merged w :
  length prefixes = length shards → length have = length shards → offers d prefixes name dim rank ws shards offer w →
  w_is_loaded w = false → w_list w ++ replicate (length prefixes - length (w_list w)) None = masked have shards →
  cat dim shards w = Ok (merged, w) → sizes (w_tensor w) = sizes merged →
  load_fused_weight d prefixes name dim rank ws w =
  Ok (tt, if forallb id (zip_with orb offer have) then mkWeight merged true []
          else mkWeight (w_tensor w) false (masked (zip_with orb offer have) shards)).
Proof.
  intros Hp Hh Ho Hl Hw Hc Hs. unfold load_fused_weight, mbind, M_bind, get. rewrite Hl, Hw.
  rewrite (fused_tensors_masked d name dim rank ws w prefixes shards offer have) by done. destruct Ho as [Hlo _].
  rewrite masked_all by (rewrite length_zip_with; lia). destruct (forallb id (zip_with orb offer have)) eqn:Ha.
  - rewrite Hc. unfold check. by rewrite bool_decide_true.
  - unfold put. do 3 f_equal. rewrite !masked_length, Nat.sub_diag, app_nil_r by (rewrite ?length_zip_with; lia).
    rewrite masked_merge by (rewrite ?length_zip_with; lia). f_equal. clear. revert offer.
    induction have as [|h have IH]; intros [|o offer]; try done. cbn. rewrite IH. by destruct h, o.
Qed.

(** The files of a checkpoint that agree with the whole tensors, one per prefix. *)
Definition agrees d (prefixes : list text) name (whole : list (Tensor A)) : Prop :=
  transform_func_ d = None ∧
  ∀ i p t, prefixes !! i = Some p → dict_ d !! (p ++ name) = Some t → whole !! i = Some t.
Definition in_file d (name p : text) : bool := bool_decide (is_Some (dict_ d !! (p ++ name))).

Lemma agrees_offers {St} d prefixes name rank ws whole (s : St) : agrees d prefixes name whole → rank < ws → length prefixes = length whole →
  Forall (λ t, tensor_ok t ∧ ∃ c, sizes t !! 0 = Some c ∧ c `mod` ws = 0) whole →
  offers d prefixes name 0 rank ws (chunk ws 0 rank <$> whole) (in_file d name <$> prefixes) s.
Proof.
  intros [Hf Ha] Hr Hl Hw. split; [by rewrite !length_fmap|]. intros i p b u Hp Hb Hu.
  rewrite list_lookup_fmap, Hp in Hb. rewrite list_lookup_fmap in Hu. destruct (whole !! i) as [t|] eqn:Ht; [|done]. cbn in Hb, Hu. simplify_eq.
  rewrite Forall_lookup in Hw. destruct (Hw _ _ Ht) as (Hok&c&Hc&Hm). unfold in_file.
  destruct (dict_ d !! (p ++ name)) as [t'|] eqn:Hd.
  - rewrite (Ha _ _ _ Hp Hd) in Ht. simplify_eq. rewrite bool_decide_true by done.
    apply (get_sharded_holds d (p ++ name) t 0 rank ws c); [by split_and!|done|lia|done|done].
  - rewrite bool_decide_false by (intros [? ?]; done). unfold get_sharded_tensor, get_tensor, mbind, M_bind, check.
    rewrite (bool_decide_true (rank < ws)) by done. cbn. by rewrite Hd.
Qed.

Lemma load_loaded ds prefixes name dim rank ws w : w_is_loaded w = true →
  for_each (λ d, load_fused_weight d prefixes name dim rank ws) ds w = Ok (tt, w).
Proof.
  intros Hl. induction ds as [|d ds IH]; [done|]. cbn [for_each]. unfold mbind, M_bind.
  unfold load_fused_weight at 1, mbind, M_bind, get. rewrite Hl. apply IH.
Qed.

Lemma load_files prefixes name dim rank ws shards merged ds : length prefixes = length shards →
  (∀ w : Weight A, cat dim shards w = Ok (merged, w)) →
  Forall (λ d, ∀ w : Weight A, offers d prefixes name dim rank ws shards (in_file d name <$> prefixes) w) ds →
  ∀ have w, length have = length shards → forallb id have = false →
  w_is_loaded w = false → w_list w ++ replicate (length prefixes - length (w_list w)) None = masked have shards →
  sizes (w_tensor w) = sizes merged →
  (∀ i p, prefixes !! i = Some p → have !! i = Some true ∨ Exists (λ d, is_Some (dict_ d !! (p ++ name))) ds) →
  for_each (λ d, load_fused_weight d prefixes name dim rank ws) ds w = Ok (tt, mkWeight merged true []).
Proof.
  intros Hl Hc. induction 1 as [|d ds Ha Hds IH]; intros have w Hh Hn Hlo Hli Hs Hcov.
  - exfalso. assert (forallb id have = true); [|congruence]. apply forallb_forall. intros b Hb.
    apply list_elem_of_In, list_elem_of_lookup_1 in Hb as [i Hi]. pose proof (lookup_lt_Some _ _ _ Hi) as Hlt.
    destruct (lookup_lt_is_Some_2 prefixes i) as [p Hp]; [lia|]. destruct (Hcov i p Hp) as [Ht|Hx]; [by simplify_eq|].
    by apply Exists_nil in Hx.
  - cbn [for_each]. unfold mbind, M_bind.
    rewrite (load_fused_step d prefixes name dim rank ws shards (in_file d name <$> prefixes) have merged) by done.
    destruct (forallb id (zip_with orb (in_file d name <$> prefixes) have)) eqn:Hall; [by apply load_loaded|].
    apply (IH (zip_with orb (in_file d name <$> prefixes) have)); cbn [w_is_loaded w_list w_tensor]; try done.
    + rewrite length_zip_with, length_fmap. lia.
    + rewrite masked_length, <-Hl, Nat.sub_diag, app_nil_r; [done|]. rewrite length_zip_with, !length_fmap. lia.
    + intros i p Hp. destruct (lookup_lt_is_Some_2 have i) as [h Hi]; [apply lookup_lt_Some in Hp; lia|].
      rewrite lookup_zip_with, list_lookup_fmap, Hp, Hi. cbn. unfold in_file.
      destruct (Hcov i p Hp) as [Ht|[Hx|Hx]%Exists_cons]; [left|left|by right].
      * simplify_eq. by rewrite orb_true_r.
      * by rewrite bool_decide_true.
Qed.

(** From a weight that holds nothing yet. *)
Lemma load_all_files prefixes name dim rank ws shards merged ds w : prefixes ≠ [] → length prefixes = length shards →
  (∀ w : Weight A, cat dim shards w = Ok (merged, w)) →
  Forall (λ d, ∀ w : Weight A, offers d prefixes name dim rank ws shards (in_file d name <$> prefixes) w) ds →
  Forall (λ p, Exists (λ d, is_Some (dict_ d !! (p ++ name))) ds) prefixes →
  w_is_loaded w = false → w_list w = [] → sizes (w_tensor w) = sizes merged →
  for_each (λ d, load_fused_weight d prefixes name dim rank ws) ds w = Ok (tt, mkWeight merged true []).
Proof.
  intros Hp Hl Hc Ha Hcov Hlo Hli Hs. apply (load_files prefixes name dim rank ws shards merged ds) with (have := replicate (length shards) false); try done.
  - by rewrite length_replicate.
  - destruct shards; [by destruct prefixes|done].
  - rewrite Hli, Hl, Nat.sub_0_r. by rewrite masked_none.
  - intros i p Hi. right. rewrite Forall_lookup in Hcov. by apply (Hcov i).
Qed.

(** C34. Fused weights: the files of a checkpoint are offered to a fused layer one by
    one; if they agree with the whole tensors and together hold all of them, the
    layer ends up with the shards of the rank joined in the order of the prefixes,
    in whatever order the files come and however they share out the tensors. *)
Theorem fused_weight_any_order prefixes name rank ws whole merged ds w :
  rank < ws → prefixes ≠ [] → length prefixes = length whole →
  Forall (λ t, tensor_ok t ∧ ∃ c, sizes t !! 0 = Some c ∧ c `mod` ws = 0) whole →
  (∀ w : Weight A, cat 0 (chunk ws 0 rank <$> whole) w = Ok (merged, w)) →
  Forall (λ d, agrees d prefixes name whole) ds →
  Forall (λ p, Exists (λ d, is_Some (dict_ d !! (p ++ name))) ds) prefixes →
  w_is_loaded w = false → w_list w = [] → sizes (w_tensor w) = sizes merged →
  for_each (λ d, load_fused_weight d prefixes name 0 rank ws) ds w = Ok (tt, mkWeight merged true []).
Proof.
  intros Hr Hp Hl Hw Hc Ha. apply (load_all_files _ _ _ _ _ (chunk ws 0 rank <$> whole)); [done|by rewrite length_fmap|done|].
  eapply Forall_impl; [exact Ha|]. intros d Hd w'. by apply agrees_offers.
Qed.
End fused.

(** ** Selecting by prefix *)
Section select.
Context {A : Type}.
Implicit Types d : StateDict A.

Definition strip_prefix (pre : text) (p : text * Tensor A) : option (text * Tensor A) :=
  if starts_with p.1 pre then Some (drop (length pre) p.1, p.2) else None.

Lemma strip_prefix_Some pre p q : strip_prefix pre p = Some q ↔ p = (pre ++ q.1, q.2).
Proof.
  unfold strip_prefix, starts_with. destruct p as [n t], q as [k u]. cbn. split.
  - case_bool_decide as Hp; [|done]. intros [= <- <-]. f_equal.
    transitivity (take (length pre) n ++ drop (length pre) n); [by rewrite take_drop|by rewrite Hp].
  - intros [= -> ->]. rewrite take_app_length, drop_app_length, bool_decide_true by done. done.
Qed.

Lemma strip_prefix_nodup pre (l : list (text * Tensor A)) : NoDup l.*1 → NoDup (omap (strip_prefix pre) l).*1.
Proof.
  induction l as [|p l IH]; [done|]. cbn [fmap list_fmap omap list_omap]. intros [Hn Hnd]%NoDup_cons.
  destruct (strip_prefix pre p) as [q|] eqn:Hq; [|by apply IH]. cbn [fmap list_fmap]. apply NoDup_cons. split; [|by apply IH].
  intros ([k t]&Hk&Hin)%list_elem_of_fmap. apply list_elem_of_omap in Hin as (p'&Hin&Hp'). apply Hn.
  apply strip_prefix_Some in Hq as ->, Hp' as ->. cbn in *. rewrite Hk. apply list_elem_of_fmap. by exists (pre ++ k, t).
Qed.

(** Selecting a prefix and reading a name is reading the joined name. *)
Lemma select_lookup d pre n : dict_ (select d pre) !! n = dict_ d !! (pre ++ n).
Proof.
  cbn [select dict_]. change (λ p : text * Tensor A, if starts_with p.1 pre then Some (drop (length pre) p.1, p.2) else None) with (strip_prefix pre).
  apply option_eq. intros t. rewrite <-elem_of_list_to_map by (apply strip_prefix_nodup, NoDup_fst_map_to_list).
  rewrite list_elem_of_omap, <-elem_of_map_to_list. split.
  - intros (p&Hin&Hp). apply strip_prefix_Some in Hp as ->. done.
  - intros Hin. exists (pre ++ n, t). split; [done|]. by apply strip_prefix_Some.
Qed.
End select.

(** ** Key and value heads *)
Section heads.
Context {A : Type} `{Scalar A} (memory : nat → A).
Implicit Types rows : list (list A).

Lemma repeat_interleave_lookup {B} n (l : list B) i : n ≠ 0 → repeat_interleave n l !! i = l !! (i / n).
Proof.
  intros Hn. unfold repeat_interleave. revert i. induction l as [|x l IH]; intros i; [done|]. cbn [mbind list_bind].
  destruct (decide (i < n)) as [Hi|Hi].
  - rewrite lookup_app_l by by rewrite length_replicate. rewrite Nat.div_small by done. by apply lookup_replicate_2.
  - rewrite lookup_app_r, length_replicate by (rewrite length_replicate; lia). rewrite IH.
    replace (i / n) with (S ((i - n) / n)); [done|]. replace i with (1 * n + (i - n)) at 2 by lia. by rewrite Nat.div_add_l.
Qed.

Lemma repeat_interleave_length {B} n (l : list B) : length (repeat_interleave n l) = length l * n.
Proof. unfold repeat_interleave. induction l as [|x l IH]; [done|]. cbn. rewrite length_app, length_replicate, IH. lia. Qed.

(** The heads of a matrix whose rows are grouped by head. *)
Definition head_rows (head_dim k : nat) rows : list (list A) := take head_dim (drop (k * head_dim) rows).
Definition heads_of (head_dim n : nat) rows : list (list (list A)) := (λ k, head_rows head_dim k rows) <$> seq 0 n.

Lemma heads_concat hd n rows : length rows = n * hd → concat (heads_of hd n rows) = rows.
Proof.
  intros Hl. destruct (decide (n = 0)) as [->|Hn]; [by destruct rows|].
  unfold heads_of. transitivity (concat (pieces n rows)).
  - unfold pieces. f_equal. apply list_fmap_ext. intros i k _. unfold piece, head_rows. rewrite Hl, (Nat.mul_comm n), Nat.div_mul by done. done.
  - apply concat_pieces; [done|]. rewrite Hl, Nat.mul_comm. apply Nat.Div0.mod_mul.
Qed.

Lemma head_rows_length hd n rows : length rows = n * hd → Forall (λ g, length g = hd) (heads_of hd n rows).
Proof.
  intros Hl. apply Forall_fmap, Forall_forall. intros k Hk. apply elem_of_seq in Hk. unfold head_rows. cbn.
  rewrite length_take, length_drop. nia.
Qed.

Lemma width_concat c rows : Forall (λ r, length r = c) rows → length (concat rows) = length rows * c.
Proof. induction 1 as [|r rows Hr _ IH]; [done|]. cbn [concat length]. rewrite length_app, IH. lia. Qed.

(** The memory of the matrix, cut into heads. *)
Lemma unflatten_heads c hd n rows : length rows = n * hd → Forall (λ r, length r = c) rows →
  unflatten (hd * c) n (concat rows) = @concat A <$> heads_of hd n rows.
Proof.
  intros Hl Hw. rewrite <-(heads_concat hd n rows Hl) at 1.
  assert (concat (concat (heads_of hd n rows)) = concat (@concat A <$> heads_of hd n rows)) as ->.
  { generalize (heads_of hd n rows) as l. induction l as [|x l IH]; [done|]. cbn. by rewrite concat_app, IH. }
  rewrite <-(unflatten_concat (hd * c) (@concat A <$> heads_of hd n rows)) at 2.
  - unfold heads_of. by rewrite !length_fmap, length_seq.
  - apply Forall_fmap. pose proof (head_rows_length hd n rows Hl) as Hh.
    assert (Forall (Forall (λ r, length r = c)) (heads_of hd n rows)) as Hc.
    { apply Forall_fmap, Forall_true. intros k. cbn. unfold head_rows. by apply Forall_take, Forall_drop. }
    rewrite Forall_forall in Hh, Hc |- *. intros g Hg. cbn. rewrite (width_concat c) by by apply Hc. by rewrite Hh.
Qed.

(** The replicated matrix: every head [ratio] times in a row. *)
Lemma replicate_kv_heads n hd ratio c rows : 0 < n → 0 < hd → length rows = n * hd → Forall (λ r, length r = c) rows →
  replicate_kv n hd ratio (Mat c rows) = Ok (Mat c (concat (repeat_interleave ratio (heads_of hd n rows)))).
Proof.
  intros Hn Hhd Hl Hw. unfold replicate_kv. cbn [flatten].
  assert (length (concat rows) = c * (n * hd)) as Hc by (rewrite (width_concat c), Hl by done; lia).
  assert (n * hd ≠ 0) by nia. rewrite decide_False.
  2: { intros [?|Hm]; [lia|]. apply Hm. rewrite Hc. apply Nat.Div0.mod_mul. }
  rewrite Hc, Nat.div_mul by done. do 2 f_equal. rewrite (unflatten_heads c hd n rows) by done.
  set (g := repeat_interleave ratio (heads_of hd n rows)).
  assert (concat (repeat_interleave ratio (@concat A <$> heads_of hd n rows)) = concat (concat g)) as ->.
  { unfold g, repeat_interleave. generalize (heads_of hd n rows) as l. induction l as [|x l IH]; [done|].
    cbn [fmap list_fmap mbind list_bind]. rewrite !concat_app, IH. f_equal. clear. induction ratio as [|k IH]; [done|].
    cbn. by rewrite concat_app, IH. }
  assert (Forall (λ y, length y = hd) g) as Hg.
  { unfold g, repeat_interleave. apply Forall_forall. intros y Hy. apply list_elem_of_bind in Hy as (x&Hy&Hx).
    apply elem_of_replicate in Hy as [-> _]. pose proof (head_rows_length hd n rows Hl) as Hh. rewrite Forall_forall in Hh. by apply Hh. }
  assert (length (concat g) = n * ratio * hd) as Hgl.
  { transitivity (length g * hd).
    - clear -Hg. induction Hg as [|y g Hy _ IH]; [done|]. cbn [concat length]. rewrite length_app, IH. lia.
    - unfold g. rewrite repeat_interleave_length. unfold heads_of. by rewrite length_fmap, length_seq. }
  rewrite <-Hgl. apply unflatten_concat. apply Forall_concat. apply Forall_forall. intros y Hy. unfold g, repeat_interleave in Hy.
  apply list_elem_of_bind in Hy as (x&Hy&Hx). apply elem_of_replicate in Hy as [-> _].
  apply list_elem_of_fmap in Hx as (k&->&_). unfold head_rows. by apply Forall_take, Forall_drop.
Qed.

Lemma qkv_new_ratio {St} hidden nh n hd bias gather fuse rank ws q (s s' : St) : n < ws →
  QKVLinear_new memory hidden nh n hd bias gather fuse rank ws s = Ok (q, s') →
  n ≠ 0 ∧ ws `mod` n = 0 ∧ n_kv_heads_ q = n ∧ head_dim_ q = hd ∧ kv_replication_ratio_ q = ws / n.
Proof.
  intros Hn. unfold QKVLinear_new, mbind, M_bind. rewrite decide_False by lia. unfold divisible at 1, mbind, M_bind, check.
  case_decide as H0; [done|]. case_bool_decide as Hm; [|done]. cbn [mret M_ret].
  destruct (FusedLinear_new _ _ _ _ _ _ _ _ _) as [[f s1]|e]; [|done]. intros [= <- <-]. done.
Qed.

(** The shard of a replicated tensor is one head. *)
Lemma sharded_kv_head {St} (d : StateDict A) name kv_prefixes q n hd ratio rank ws c rows (s : St) :
  n_kv_heads_ q = n → head_dim_ q = hd → kv_replication_ratio_ q = ratio → ws = n * ratio → 0 < n → 0 < ratio → 0 < hd → rank < ws →
  length rows = n * hd → Forall (λ r, length r = c) rows → dict_ d !! name = Some (Mat c rows) → existsb (starts_with name) kv_prefixes = true →
  get_sharded_tensor (select_with_transform d [] (kv_transform q kv_prefixes)) name 0 rank ws s = Ok (Some (Mat c (head_rows hd (rank / ratio) rows)), s).
Proof.
  intros E1 E2 E3 Hws Hn Hra Hhd Hr Hl Hw Hd Hkv. set (head := rank / ratio).
  assert (head < n) as Hh by (apply Nat.Div0.div_lt_upper_bound; lia).
  unfold get_sharded_tensor, mbind, M_bind, check. rewrite (bool_decide_true (rank < ws)) by done. cbn [bool_decide orb mret M_ret].
  unfold get_tensor. cbn [select_with_transform transform_func_]. rewrite (select_lookup d []). cbn [app]. rewrite Hd.
  unfold kv_transform. rewrite Hkv, E1, E2, E3. rewrite (replicate_kv_heads n hd ratio c rows) by (done || lia).
  unfold mbind, M_bind. cbn [of_result mret M_ret]. unfold size_of. cbn [sizes lookup list_lookup from_option_or mret M_ret].
  pose proof (head_rows_length hd n rows Hl) as Hlen. set (g := repeat_interleave ratio (heads_of hd n rows)).
  assert (length g = ws) as Hg by (unfold g; rewrite repeat_interleave_length; unfold heads_of; rewrite length_fmap, length_seq; lia).
  assert (Forall (λ y, length y = hd) g) as Hgf.
  { apply Forall_lookup. intros i y Hi. unfold g in Hi. rewrite repeat_interleave_lookup in Hi by lia. by apply (Forall_lookup_1 _ _ _ _ Hlen Hi). }
  assert (length (concat g) = ws * hd) as ->.
  { rewrite <-Hg. clear -Hgf. induction Hgf as [|y g Hy _ IH]; [done|]. cbn [concat length]. rewrite length_app, IH. lia. }
  rewrite decide_False by nia. rewrite (bool_decide_true ((ws * hd) `mod` ws = 0)) by (rewrite Nat.mul_comm; apply Nat.Div0.mod_mul). cbn [mret M_ret chunk].
  rewrite (pieces_concat ws hd) by done. unfold g. rewrite repeat_interleave_lookup by lia. unfold heads_of.
  rewrite list_lookup_fmap, lookup_seq_lt by done. done.
Qed.

(** The query heads of a rank attend to the head of the rank. *)
Lemma rank_head nh n ws rank ratio : n ≠ 0 → ws = n * ratio → 0 < ratio → nh `mod` ws = 0 →
  ∀ j, rank * (nh / ws) ≤ j < S rank * (nh / ws) → j / (nh / n) = rank / ratio.
Proof.
  intros Hn0 Hws Hra. set (head := rank / ratio).
  intros Hnh j Hj. assert (nh = ws * (nh / ws)) as Hq by (pose proof (Nat.div_mod_eq nh ws); lia).
  revert Hj Hq. generalize (nh / ws) as m. intros m Hj ->.
  replace (ws * m) with (m * ratio * n) by (rewrite Hws; lia). rewrite Nat.div_mul, <-Nat.Div0.div_div by done.
  unfold head. f_equal. symmetry. apply (Nat.div_unique j m rank (j - m * rank)); nia.
Qed.

(** Grouped-query attention across more ranks than key heads: the loader repeats
    the key and value heads so that the shard of a rank is exactly one of them, and
    it is the head that every query head of the rank attends to. *)
Lemma qkv_rank_gets_its_head {St} (d : StateDict A) name kv_prefixes hidden nh n hd bias rank ws c rows q (s s' : St) :
  n < ws → 0 < hd → rank < ws → length rows = n * hd → Forall (λ r, length r = c) rows → dict_ d !! name = Some (Mat c rows) →
  existsb (starts_with name) kv_prefixes = true →
  QKVLinear_new memory hidden nh n hd bias false true rank ws s = Ok (q, s') →
  let head := rank / (ws / n) in
  get_sharded_tensor (select_with_transform d [] (kv_transform q kv_prefixes)) name 0 rank ws s = Ok (Some (Mat c (head_rows hd head rows)), s) ∧
  (nh `mod` ws = 0 → ∀ j, rank * (nh / ws) ≤ j < S rank * (nh / ws) → j / (nh / n) = head).
Proof.
  intros Hn Hhd Hr Hl Hw Hd Hkv (Hn0&Hm&E1&E2&E3)%qkv_new_ratio head; [|done].
  assert (ws = n * (ws / n)) as Hws by (pose proof (Nat.div_mod_eq ws n); lia). assert (0 < ws / n) by nia. split.
  - apply (sharded_kv_head d name kv_prefixes q n hd (ws / n) rank ws c rows s); (done || lia).
  - by apply rank_head.
Qed.

(** The shards of the biases under the transform. *)
Lemma sharded_bias {St} (d : StateDict A) q kvp name b rank ws (s : St) : existsb (starts_with name) kvp = false → rank < ws → ws ≤ length b →
  length b `mod` ws = 0 → dict_ d !! name = Some (Vec b) →
  get_sharded_tensor (select_with_transform d [] (kv_transform q kvp)) name 0 rank ws s = Ok (Some (Vec (piece ws rank b)), s).
Proof.
  intros Hkv Hr Hb Hm Hd. unfold get_sharded_tensor, mbind, M_bind, check. rewrite (bool_decide_true (rank < ws)) by done.
  cbn [mret M_ret]. unfold get_tensor. cbn [select_with_transform transform_func_]. rewrite (select_lookup d []). cbn [app]. rewrite Hd.
  unfold kv_transform, mbind, M_bind. rewrite Hkv. cbn [of_result mret M_ret size_of sizes lookup list_lookup from_option_or].
  rewrite decide_False by lia. by rewrite (bool_decide_true (length b `mod` ws = 0)).
Qed.

Lemma sharded_kv_bias {St} (d : StateDict A) q kvp name n hd b rank ws (s : St) : existsb (starts_with name) kvp = true →
  n_kv_heads_ q = n → head_dim_ q = hd → ws = n * kv_replication_ratio_ q → 0 < n → 0 < hd → rank < ws → length b = n * hd → dict_ d !! name = Some (Vec b) →
  ∃ m, get_sharded_tensor (select_with_transform d [] (kv_transform q kvp)) name 0 rank ws s = Ok (Some (Mat 1 m), s).
Proof.
  intros Hkv E1 E2 Hws Hn Hhd Hr Hb Hd. unfold get_sharded_tensor, mbind, M_bind, check. rewrite (bool_decide_true (rank < ws)) by done.
  cbn [mret M_ret]. unfold get_tensor. cbn [select_with_transform transform_func_]. rewrite (select_lookup d []). cbn [app]. rewrite Hd.
  unfold kv_transform, mbind, M_bind. rewrite Hkv, E1, E2. unfold replicate_kv. cbn [flatten]. rewrite Hb.
  assert (n * hd ≠ 0) by nia. rewrite decide_False by (rewrite Nat.Div0.mod_same; intros [?|?]; lia). rewrite Nat.div_same by done.
  set (l := concat _). assert (∀ k (l : list A), length (unflatten 1 k l) = k) as Hu by (induction k; intros; cbn; auto).
  cbn [of_result mret M_ret size_of sizes lookup list_lookup from_option_or]. rewrite Hu, <-Hws.
  rewrite decide_False by nia. rewrite (bool_decide_true ((ws * hd) `mod` ws = 0)) by (rewrite Nat.mul_comm; apply Nat.Div0.mod_mul).
  cbn. by eexists.
Qed.

(** With a bias the same loading fails: the transform makes a matrix of one column
    of the vectors of the keys and values, which cannot be joined with the vector of
    the queries. *)
Lemma qkv_bias_fails d (pq pk pv : text) n hd ws rank bq bk bv q w :
  1 < kv_replication_ratio_ q → n_kv_heads_ q = n → head_dim_ q = hd → ws = n * kv_replication_ratio_ q → 0 < n → 0 < hd → rank < ws →
  ws ≤ length bq → length bq `mod` ws = 0 → length bk = n * hd → length bv = n * hd →
  dict_ d !! (pq ++ bias_name) = Some (Vec bq) → dict_ d !! (pk ++ bias_name) = Some (Vec bk) → dict_ d !! (pv ++ bias_name) = Some (Vec bv) →
  starts_with (pq ++ bias_name) pk = false → starts_with (pq ++ bias_name) pv = false → w_is_loaded w = false → w_list w = [] →
  load_fused_weight (select_with_transform d [] (kv_transform (A := A) q [pk; pv])) [pq; pk; pv] bias_name 0 rank ws w =
  Fail (CheckFailed "Tensors must have same number of dimensions").
Proof.
  intros Hra E1 E2 Hws Hn Hhd Hr Hq Hqm Hk Hv Dq Dk Dv Sk Sv Hlo Hli.
  assert (∀ p, starts_with (p ++ bias_name) p = true) as Hpre.
  { intros p. unfold starts_with. apply bool_decide_eq_true. by rewrite take_app_length. }
  unfold load_fused_weight, mbind, M_bind, get. rewrite Hlo, Hli. cbn [app length Nat.sub replicate].
  cbn [fused_tensors]. unfold mbind, M_bind.
  rewrite (sharded_bias d q [pk; pv] (pq ++ bias_name) bq rank ws w) by (done || (cbn [existsb]; by rewrite Sk, Sv)).
  destruct (sharded_kv_bias d q [pk; pv] (pk ++ bias_name) n hd bk rank ws w) as [mk ->]; try done.
  { cbn [existsb]. by rewrite Hpre. }
  destruct (sharded_kv_bias d q [pk; pv] (pv ++ bias_name) n hd bv rank ws w) as [mv ->]; try done.
  { cbn [existsb]. rewrite Hpre. by rewrite orb_true_r. }
  cbn. unfold cat. assert (length (piece ws rank bq) ≠ 0) as Hne.
  { rewrite piece_length by done. assert (0 < length bq / ws) by (apply Nat.div_str_pos; lia). lia. }
  destruct (piece ws rank bq) as [|x l]; [done|]. by rewrite !filter_cons_True.
Qed.
End heads.

(** ** Witnesses *)

#[local] Instance count_scalar : Scalar nat := {| s_zero := 0; s_add := Nat.add; s_mul := Nat.mul |}.

Definition named (s : string) : text := String.list_ascii_of_string s.
Definition file_of (l : list (text * Tensor nat)) : StateDict nat := mkStateDict (list_to_map l) None [].

(** The tensor of the second prefix is in the first file. *)
Lemma fused_weight_any_order_witness :
  for_each (λ d, load_fused_weight d [named "gate."; named "up."] weight_name 0 1 2)
    [file_of [(named "up.weight", Mat 1 [[3]; [4]])]; file_of [(named "gate.weight", Mat 1 [[1]; [2]])]]
    (mkWeight (Mat 1 [[0]; [0]]) false []) = Ok (tt, mkWeight (Mat 1 [[2]; [4]]) true []).
Proof.
  apply (fused_weight_any_order [named "gate."; named "up."] weight_name 1 2 [Mat 1 [[1]; [2]]; Mat 1 [[3]; [4]]]); try done; try lia.
  - repeat constructor; exists 2; split; done.
  - repeat constructor; intros [|[|i]] p t; cbn; intros Hp; simplify_eq; vm_compute; intros Ht; by simplify_eq.
  - constructor; [|constructor; [|constructor]].
    + right. left. vm_compute. eauto.
    + left. vm_compute. eauto.
Defined.

Definition qkv_example : QKVLinear nat :=
  mkQKV 2 1 2 (mkFused true (Some (mkLinear (mkWeight (empty_mat (λ _, 0) 3 1) false []) None false 3 4)) [] [1; 1; 1]).

(** Four ranks and two key heads: rank 3 gets head 1. *)
Lemma qkv_rank_gets_its_head_example :
  get_sharded_tensor (select_with_transform (file_of [(named "k.weight", Mat 1 [[5]; [6]])]) [] (kv_transform qkv_example [named "k."; named "v."]))
    (named "k.weight") 0 3 4 tt = Ok (Some (Mat 1 [[6]]), tt).
Proof.
  apply (qkv_rank_gets_its_head (λ _, 0) (file_of [(named "k.weight", Mat 1 [[5]; [6]])]) (named "k.weight") [named "k."; named "v."]
    1 4 2 1 false 3 4 1 [[5]; [6]] qkv_example tt tt); try done; try lia; repeat constructor.
Defined.

Lemma qkv_bias_fails_example :
  load_fused_weight (select_with_transform (file_of [(named "q.bias", Vec [1; 2; 3; 4]); (named "k.bias", Vec [5; 6]); (named "v.bias", Vec [7; 8])])
      [] (kv_transform qkv_example [named "k."; named "v."])) [named "q."; named "k."; named "v."] bias_name 0 0 4
    (mkWeight (empty_vec (λ _, 0) 3) false []) = Fail (CheckFailed "Tensors must have same number of dimensions").
Proof.
  apply (qkv_bias_fails (file_of [(named "q.bias", Vec [1; 2; 3; 4]); (named "k.bias", Vec [5; 6]); (named "v.bias", Vec [7; 8])])
    (named "q.") (named "k.") (named "v.") 2 1 4 0 [1; 2; 3; 4] [5; 6] [7; 8] qkv_example); try done; cbn; lia.
Defined.
