(* ===== verification/ModelRunnerProps.v ===== *)
(** * Properties of the model runner

    Replaying the graphs gives what the network gives on the inputs themselves; and
    which batches are replayed at all. *)

From stdpp Require Import base tactics list gmap strings.
From S2P Require Import Prelude Slice Types Stopping Decoder Sequence Sampling Batch BatchInv Logits Sampler Engine ModelRunner.
From S2P Require Import Block Request ResponseHandler EngineProps.

Section runner.
Context {KV Hidden : Type} `{Model KV Hidden}.

(** What the network does not look at: the longest length is a bound, the block tables
    end where [cu_block_lens] ends, and sampling comes later. *)
Definition widened (kv_max : nat) (extra : list Z) (i : ModelInput) : ModelInput :=
  mkModelInput (mi_token_ids i) (mi_positions i) (mi_num_sequences i) kv_max (mi_q_max_seq_len i)
    (mi_kv_cu_seq_lens i) (mi_q_cu_seq_lens i) (mi_new_cache_slots i) (mi_block_tables i ++ extra) (mi_cu_block_lens i) None.

Definition tables_end (i : ModelInput) : Prop := last (mi_cu_block_lens i) = Some (Z.of_nat (length (mi_block_tables i))).

Hypothesis forward_widened : ∀ i kv kv_max extra, tables_end i → mi_kv_max_seq_len i ≤ kv_max →
  md_forward (widened kv_max extra i) kv = md_forward i kv.

(** The inputs of the runner: one entry per token and per sequence, and block tables
    that fit the buffer. *)
Definition block_capacity (o : RunnerOptions) : nat :=
  foldl Nat.max 0 (ro_cuda_graph_batch_sizes o) * ((ro_cuda_graph_max_seq_len o + ro_block_size o - 1) / ro_block_size o + 1).
Record runner_input_ok (o : RunnerOptions) (i : ModelInput) : Prop := {
  ri_positions : length (mi_positions i) = length (mi_token_ids i);
  ri_slots : length (mi_new_cache_slots i) = length (mi_token_ids i);
  ri_q : length (mi_q_cu_seq_lens i) = mi_num_sequences i + 1;
  ri_kv : length (mi_kv_cu_seq_lens i) = mi_num_sequences i + 1;
  ri_cu : length (mi_cu_block_lens i) = mi_num_sequences i + 1;
  ri_blocks : length (mi_block_tables i) ≤ block_capacity o;
  ri_end : tables_end i;
}.

(** ** The invariant *)

Definition graph_of (o : RunnerOptions) (b : nat) : CudaGraph :=
  mkCudaGraph b (ro_num_decoding_tokens o * b) (ro_num_decoding_tokens o) (ro_cuda_graph_max_seq_len o).

Record buffers_ok (o : RunnerOptions) (max : nat) (b : GraphBuffers) : Prop := {
  bo_tokens : length (gb_token_ids b) = ro_num_decoding_tokens o * max;
  bo_positions : length (gb_positions b) = ro_num_decoding_tokens o * max;
  bo_slots : length (gb_new_cache_slots b) = ro_num_decoding_tokens o * max;
  bo_q : max + 1 ≤ length (gb_q_cu_seq_lens b);
  bo_kv : max + 1 ≤ length (gb_kv_cu_seq_lens b);
  bo_cu : max + 1 ≤ length (gb_cu_block_lens b);
  bo_blocks : length (gb_block_tables b) = block_capacity o;
}.

Record runner_ok (o : RunnerOptions) (r : ModelRunner) : Prop := {
  rk_options : mr_options_ r = o;
  rk_graphs b g : mr_graphs_ r !! b = Some g → g = graph_of o b ∧ b ≤ mr_max_batch_size_ r;
  rk_buffers : ro_cuda o = true → ro_cuda_graph_batch_sizes o ≠ [] →
    mr_max_batch_size_ r = foldl Nat.max 0 (ro_cuda_graph_batch_sizes o) ∧ buffers_ok o (mr_max_batch_size_ r) (mr_buffers r);
  rk_none : ro_cuda o = false ∨ ro_cuda_graph_batch_sizes o = [] → mr_graphs_ r = ∅;
}.

Lemma new_runner_ok o : 0 < ro_num_decoding_tokens o → runner_ok o (ModelRunner_new o).
Proof.
  intros Hn. unfold ModelRunner_new. destruct (ro_cuda o) eqn:Hc; [|by split; cbn; [|by intros|rewrite Hc|]].
  destruct (ro_cuda_graph_batch_sizes o) as [|b sizes] eqn:Hs; [by split; cbn; [|by intros|rewrite Hs|]|].
  assert (∀ m, m + 1 ≤ length (torch_range (ro_num_decoding_tokens o * m + 1) (ro_num_decoding_tokens o))) as Hr.
  { intros m. unfold torch_range. rewrite length_fmap, length_seq. assert (m ≤ (ro_num_decoding_tokens o * m + 1) / ro_num_decoding_tokens o); [|lia].
    apply Nat.div_le_lower_bound; lia. }
  split; cbn [mr_options_ mr_graphs_ mr_max_batch_size_ mr_buffers].
  - done.
  - by intros.
  - intros _ _. rewrite Hs. split; [done|]. split; cbn [gb_token_ids gb_positions gb_new_cache_slots gb_q_cu_seq_lens gb_kv_cu_seq_lens gb_cu_block_lens gb_block_tables];
      unfold zeros; rewrite ?length_replicate; try done; try apply Hr. unfold block_capacity. by rewrite Hs.
  - intros [?|?]; congruence.
Qed.

Lemma capture_ok o r kv b : runner_ok o r → b ≤ foldl Nat.max 0 (ro_cuda_graph_batch_sizes o) →
  ∃ r' kv', capture_cuda_graphs b (r, kv) = Ok (tt, (r', kv')) ∧ runner_ok o r'.
Proof.
  intros Hr Hb. pose proof Hr as [Ho Hg Hbuf Hnone]. unfold capture_cuda_graphs, mbind, M_bind, get. cbn [fst snd]. rewrite Ho.
  destruct (ro_cuda o) eqn:Hc; [|by eexists _, _]. cbn [negb orb]. case_bool_decide as Hs; [by eexists _, _|].
  destruct (Hbuf eq_refl Hs) as [Hm Hbo]. unfold check. rewrite bool_decide_true by lia. cbn [mret M_ret]. unfold put. eexists _, _. split; [done|].
  split; cbn [mr_options_ mr_graphs_ mr_max_batch_size_ mr_buffers]; try done.
  - intros b' g. destruct (decide (b' = b)) as [->|Hne].
    + rewrite lookup_insert_eq. intros [= <-]. split; [|lia]. unfold graph_of. f_equal. rewrite length_take, (bo_tokens _ _ _ Hbo). nia.
    + rewrite lookup_insert_ne by done. apply Hg.
  - intros [?|?]; congruence.
Qed.

Lemma copy_view_ok {S} n src buffer (s : S) : length src = n → n ≤ length buffer → copy_view n src buffer s = Ok (src ++ drop n buffer, s).
Proof. intros Hl Hn. unfold copy_view. rewrite length_take, decide_True by lia. by rewrite Nat.min_l by lia. Qed.

Lemma replay_eager o r kv i g : runner_ok o r → runner_input_ok o i → graph_for r i = Some g →
  ∃ r', replay g i (r, kv) = Ok ((md_forward i kv).1, (r', (md_forward i kv).2)) ∧ runner_ok o r'.
Proof using forward_widened.
  intros Hr [I1 I2 I3 I4 I5 I6 I7] Hgf. pose proof Hr as [Ho Hg Hbuf Hnone]. unfold graph_for in Hgf.
  destruct (mr_graphs_ r !! mi_num_sequences i) as [g'|] eqn:Hl; [|done]. cbn in Hgf. rewrite Ho in Hgf.
  destruct (bool_decide (mi_kv_max_seq_len i ≤ _)) eqn:B1; [|done]. destruct (bool_decide (mi_q_max_seq_len i = _)) eqn:B2; [|done].
  destruct (bool_decide (length (mi_token_ids i) = _)) eqn:B3; [|done]. cbn in Hgf. injection Hgf as ->.
  apply bool_decide_eq_true in B1, B2, B3. destruct (Hg _ _ Hl) as [-> Hb].
  assert (ro_cuda o = true ∧ ro_cuda_graph_batch_sizes o ≠ []) as [Hc Hs].
  { destruct (ro_cuda o) eqn:Hc; [|by rewrite Hnone in Hl by auto]. split; [done|]. intros Hs. by rewrite Hnone in Hl by auto. }
  destruct (Hbuf Hc Hs) as [Hm Hbo]. pose proof Hbo as [L1 L2 L3 L4 L5 L6 L7]. set (n := mi_num_sequences i) in *.
  assert (ro_num_decoding_tokens o * n ≤ ro_num_decoding_tokens o * mr_max_batch_size_ r) as Hle by (apply Nat.mul_le_mono_l; lia).
  unfold replay, mbind, M_bind, get, check. cbn [fst snd cg_batch_size_ cg_num_tokens_ graph_of].
  rewrite (bool_decide_true (mi_num_sequences i = _)) by done. rewrite bool_decide_true by lia. rewrite bool_decide_true by lia. cbn [mret M_ret].
  rewrite !copy_view_ok by lia. unfold put.
  set (b' := mkBuffers _ _ _ _ _ _ _).
  assert (graph_input (graph_of o n) b' = widened (ro_cuda_graph_max_seq_len o) (drop (length (mi_block_tables i)) (gb_block_tables (mr_buffers r))) i) as ->.
  { unfold graph_input, widened, graph_of, b'. cbn [cg_num_tokens_ cg_batch_size_ cg_q_max_seq_len cg_kv_max_seq_len gb_token_ids gb_positions gb_new_cache_slots gb_q_cu_seq_lens gb_kv_cu_seq_lens gb_cu_block_lens gb_block_tables].
    rewrite !take_app_length' by lia. by rewrite B2. }
  rewrite forward_widened by done. destruct (md_forward i kv) as [h kv']. eexists. split; [done|].
  split; cbn [mr_options_ mr_graphs_ mr_max_batch_size_ mr_buffers]; try done. intros _ _. split; [done|].
  split; cbn [b' gb_token_ids gb_positions gb_new_cache_slots gb_q_cu_seq_lens gb_kv_cu_seq_lens gb_cu_block_lens gb_block_tables]; rewrite length_app, length_drop; lia.
Qed.

(** The network on the inputs one after the other. *)
Fixpoint eager (ins : list ModelInput) (kv : KV) : list Hidden * KV :=
  match ins with
  | [] => ([], kv)
  | i :: ins => let '(h, kv) := md_forward i kv in let '(hs, kv) := eager ins kv in (h :: hs, kv)
  end.

Lemma forwards_eager o ins : ∀ r kv, runner_ok o r → Forall (runner_input_ok o) ins →
  ∃ r', map_each runner_forward ins (r, kv) = Ok ((eager ins kv).1, (r', (eager ins kv).2)).
Proof using forward_widened.
  induction ins as [|i ins IH]; intros r kv Hr Hi; [by exists r|]. inversion_clear Hi as [|? ? Hi1 Hi2]. cbn [map_each eager].
  assert (∃ r1, runner_forward i (r, kv) = Ok ((md_forward i kv).1, (r1, (md_forward i kv).2)) ∧ runner_ok o r1) as (r1&H1&Hr1).
  { unfold runner_forward, mbind, M_bind, get. cbn [fst snd]. destruct (graph_for r i) as [g|] eqn:Hg; [by eapply replay_eager|].
    exists r. destruct (md_forward i kv). done. }
  unfold mbind, M_bind. rewrite H1. destruct (IH r1 (md_forward i kv).2 Hr1 Hi2) as [r' Hr']. rewrite Hr'.
  exists r'. destruct (md_forward i kv) as [h kv1]. cbn [fst snd]. by destruct (eager ins kv1).
Qed.

(** C14. CUDA graphs: after capturing graphs for any batch sizes up to the largest
    configured one, a sequence of inputs run by the runner gives the hidden states and
    the KV cache that the network itself gives on them, though the graphs share one set
    of buffers, read only the views they were captured with, and keep what earlier and
    larger batches left behind them. *)
Theorem graph_replay_is_eager o sizes ins kv :
  0 < ro_num_decoding_tokens o → Forall (λ b, b ≤ foldl Nat.max 0 (ro_cuda_graph_batch_sizes o)) sizes →
  Forall (runner_input_ok o) ins →
  ∃ r kv0, for_each capture_cuda_graphs sizes (ModelRunner_new o, kv) = Ok (tt, (r, kv0)) ∧
  ∃ r', map_each runner_forward ins (r, kv0) = Ok ((eager ins kv0).1, (r', (eager ins kv0).2)).
Proof using forward_widened.
  intros Hn Hs Hi. pose proof (new_runner_ok o Hn) as Hr. revert Hr. generalize (ModelRunner_new o) as r. revert kv.
  induction Hs as [|b sizes Hb _ IH]; intros kv r Hr.
  - exists r, kv. split; [done|]. by apply (forwards_eager o).
  - destruct (capture_ok o r kv b Hr Hb) as (r1&kv1&H1&Hr1). destruct (IH kv1 r1 Hr1) as (r2&kv2&H2&H3). exists r2, kv2.
    split; [|done]. cbn [for_each]. unfold mbind, M_bind. by rewrite H1.
Qed.
End runner.

(** ** Which batches are replayed *)

Lemma pad_batch_tokens n d m a : 0 < d → n < m →
  q_max_seq_len (pad_batch n d m a) ≠ d ∨ length (flatten_tokens_vec (pad_batch n d m a)) ≠ n * d.
Proof.
  intros Hd Hn. destruct (pad_batch_padded n d m a) as (k&[Ht _ _ _]&_&Hk). rewrite Ht, length_app, length_replicate.
  destruct Hk as [->|[-> Hl]]; [|right; rewrite Hl; nia]. revert Ht. unfold pad_batch. rewrite decide_True by done.
  destruct (bool_decide (q_max_seq_len a = d)) eqn:B1; cbn [andb]; [|left; by apply bool_decide_eq_false in B1].
  destruct (bool_decide (length (flatten_tokens_vec a) = n * d)) eqn:B2; [|right; apply bool_decide_eq_false in B2; lia].
  apply bool_decide_eq_true in B2. intros Ht. exfalso. apply (f_equal length) in Ht.
  assert (∀ j, length (flatten_tokens_vec (Nat.iter j (pad_one d) a)) = length (flatten_tokens_vec a) + j * d) as Hi.
  { induction j as [|j IH]; [cbn; lia|].
    change (flatten_tokens_vec (Nat.iter (S j) (pad_one d) a)) with (flatten_tokens_vec (Nat.iter j (pad_one d) a) ++ replicate d 0%Z).
    rewrite length_app, IH, length_replicate. lia. }
  rewrite Hi, length_app in Ht. cbn in Ht. nia.
Qed.

(** Padding defeats its purpose: a decoding batch with fewer sequences than the size
    of the graph that it is padded to is never replayed, since the input still counts
    the sequences before the padding; it runs eagerly, padding included.  Only a batch
    whose size is a captured one uses its graph. *)
Lemma padded_batch_never_replays {K St} `{SeqHeap K St} (r : ModelRunner) m i (p p' : Batch K * St) :
  0 < ro_num_decoding_tokens (mr_options_ r) → length (sequences_ p.1) < m →
  prepare_model_input (ro_num_decoding_tokens (mr_options_ r)) m p = Ok (Some i, p') →
  graph_for r i = None.
Proof.
  intros Hd Hn Hp. unfold prepare_model_input in Hp. apply bind_ok in Hp as (q&p1&[= <- <-]&Hp).
  apply bind_ok in Hp as (a&p2&_&Hp). destruct (flatten_tokens_vec a) as [|t ts]; [done|].
  apply bind_ok in Hp as ([]&p3&_&Hp). apply bind_ok in Hp as (sp&p4&_&[= <- _]).
  unfold graph_for. cbn [mi_num_sequences mi_q_max_seq_len mi_token_ids mi_kv_max_seq_len].
  destruct (mr_graphs_ r !! length (sequences_ p.1)) as [g|]; [|done]. cbn.
  destruct (pad_batch_tokens (length (sequences_ p.1)) _ m a Hd Hn) as [Hq|Hl].
  - rewrite (bool_decide_false (q_max_seq_len _ = _)) by done. by rewrite andb_false_r.
  - rewrite (bool_decide_false (length (flatten_tokens_vec _) = _)) by done. by rewrite !andb_false_r.
Qed.

(** ** Witnesses *)

(** A network that shows its tokens and logs the slots. *)
#[local] Instance echo_model : Model (list Z) (list Z) :=
  {| md_forward := λ i kv, (mi_token_ids i, kv ++ mi_new_cache_slots i); md_logits := λ _ _, [] |}.

Definition small_runner : RunnerOptions := mkRunnerOptions true 1 4 16 [2; 1].
Definition decode_two (a b : Z) : ModelInput := mkModelInput [a; b] [3; 4]%Z 2 5 1 [0; 4; 9]%Z [0; 1; 2]%Z [7; 12]%Z [4; 8; 12]%Z [0; 1; 3]%Z None.
Definition decode_one (a : Z) : ModelInput := mkModelInput [a] [3]%Z 1 4 1 [0; 4]%Z [0; 1]%Z [7]%Z [4]%Z [0; 1]%Z None.

Lemma graph_replay_is_eager_witness :
  ∃ r kv0, for_each capture_cuda_graphs [2; 1] (ModelRunner_new small_runner, []) = Ok (tt, (r, kv0)) ∧
  ∃ r', map_each runner_forward [decode_two 5 6; decode_one 9] (r, kv0) = Ok ([[5; 6]; [9]]%Z, (r', kv0 ++ [7; 12; 7]%Z)).
Proof.
  destruct (graph_replay_is_eager (KV := list Z) (Hidden := list Z)) with (o := small_runner) (sizes := [2; 1]) (ins := [decode_two 5 6; decode_one 9]) (kv := @nil Z)
    as (r&kv0&H1&r'&H2).
  - done.
  - cbn. lia.
  - repeat (constructor; [cbn; lia|]). constructor.
  - repeat constructor; cbn; lia.
  - exists r, kv0. split; [exact H1|]. exists r'. rewrite H2. cbn. by rewrite <-app_assoc.
Defined.

(** One sequence whose four tokens make a decoding batch, padded to two. *)
Lemma padded_batch_never_replays_example :
  ∃ i p', prepare_model_input 4 2 (mkBatch [(1%positive, 0)] [4] [0], {[1%positive := request_b]} : Heap) = Ok (Some i, p') ∧
    length (mi_token_ids i) = 8 ∧
    graph_for (mkRunner (mkRunnerOptions true 4 2 16 [2; 1]) 2 (mkBuffers [] [] [] [] [] [] []) {[1 := mkCudaGraph 1 4 4 16; 2 := mkCudaGraph 2 8 4 16]}) i = None.
Proof.
  eexists _, _. split; [vm_compute; reflexivity|]. split; [reflexivity|].
  eapply (padded_batch_never_replays _ 2 _ (mkBatch [(1%positive, 0)] [4] [0], {[1%positive := request_b]} : Heap)); cbn; [lia|lia|].
  vm_compute. reflexivity.
Defined.
