(* ===== verification/RotaryProps.v ===== *)
(** * Lemmas on rotary embeddings *)

From Stdlib Require Import PeanoNat SpecFloat.
From stdpp Require Import base tactics list relations strings.
From S2P Require Import Prelude Types Tensor Gpu Kernels KernelProps Rotary.

(** What rounded arithmetic satisfies too. *)
Class ArithLaws (A : Type) `{Arith A} := {
  r_sub_neg (a b : A) : r_sub a b = r_add a (r_neg b);
  r_mul_neg (a b : A) : r_mul (r_neg a) b = r_neg (r_mul a b);
  r_add_comm (a b : A) : r_add a b = r_add b a;
}.

Lemma map_each_Forall2 {T B C} (f : B → M T C) (R : B → C → Prop) l (s : T) :
  (∀ x, x ∈ l → ∃ y, f x s = Ok (y, s) ∧ R x y) → ∃ ys, map_each f l s = Ok (ys, s) ∧ Forall2 R l ys.
Proof.
  induction l as [|x l IH]; intros Hf; [by exists []|]. cbn [map_each]. unfold mbind, M_bind.
  destruct (Hf x) as (y&->&Hy); [constructor|]. destruct IH as (ys&->&Hys); [intros z Hz; apply Hf; by constructor|].
  exists (y :: ys). split; [done|by constructor].
Qed.
Lemma map_each_compose {T B C D} (f : C → M T D) (g : B → C) l (s : T) : map_each f (g <$> l) s = map_each (λ x, f (g x)) l s.
Proof.
  revert s. induction l as [|x l IH]; intros s; [done|]. cbn [fmap list_fmap map_each]. unfold mbind, M_bind.
  destruct (f (g x) s) as [[y s']|]; [|done]. by rewrite <-IH.
Qed.

Lemma pairs_ind {B} (P : list B → Prop) : P [] → (∀ a, P [a]) → (∀ a b l, P l → P (a :: b :: l)) → ∀ l, P l.
Proof.
  intros H0 H1 H2. fix pairs_ind 1. intros [|a [|b l]]; [done|done|]. apply H2, pairs_ind.
Qed.

Lemma double_S (r : nat) : 2 * S r = S (S (2 * r)).
Proof. lia. Qed.

Section rotary.
Context {F A : Type} `{Arith A} `{Angles F A}.
Implicit Types x cos sin : list A.
Implicit Types il : bool.

(** ** One head *)

Lemma every_other_lookup x r : every_other x !! r = x !! (2 * r).
Proof.
  revert r. induction x as [|a|a b l IH] using pairs_ind; intros r; [done| |]; (destruct r as [|r]; [done|]); rewrite double_S.
  - done.
  - cbn [every_other]. apply IH.
Qed.
Lemma every_other_length x : length (every_other x) = (length x + 1) / 2.
Proof.
  induction x as [|a|a b l IH] using pairs_ind; [done|done|]. cbn [every_other length]. rewrite IH.
  replace (S (S (length l)) + 1) with (length l + 1 + 1 * 2) by lia. rewrite Nat.div_add by lia. lia.
Qed.
Lemma interleave_lookup x : ∀ y r, length x = length y →
  interleave x y !! (2 * r) = x !! r ∧ interleave x y !! (2 * r + 1) = y !! r.
Proof.
  induction x as [|a x IH]; intros [|b y] r Hl; try done. injection Hl as Hl. destruct r as [|r]; [done|].
  rewrite double_S. cbn [interleave]. destruct (IH y r Hl) as [E1 E2]. by split.
Qed.
Lemma interleave_length x : ∀ y, length x = length y → length (interleave x y) = 2 * length x.
Proof. induction x as [|a x IH]; intros [|b y] Hl; try done. injection Hl as Hl. cbn. rewrite IH by done. lia. Qed.

(** What the cache of the generic implementation holds for each frequency. *)
Definition expand {B} (il : bool) (l : list B) : list B := if il then l ≫= (λ v, [v; v]) else l ++ l.

Lemma twice_lookup {B} (l : list B) r : (l ≫= λ v, [v; v]) !! (2 * r) = l !! r ∧ (l ≫= λ v, [v; v]) !! (2 * r + 1) = l !! r.
Proof.
  revert r. induction l as [|v l IH]; intros r; [done|]. cbn [mbind list_bind]. destruct r as [|r]; [done|].
  rewrite double_S. apply IH.
Qed.
Lemma expand_lookup {B} il (l : list B) r : r < length l →
  expand il l !! x_index il r = l !! r ∧ expand il l !! y_index il (length l) r = l !! r.
Proof.
  intros Hr. unfold expand, x_index, y_index. destruct il; [apply twice_lookup|].
  rewrite lookup_app_l by done. rewrite Nat.add_comm, lookup_app_r, Nat.add_comm, Nat.add_sub by lia. done.
Qed.
Lemma expand_length {B} il (l : list B) : length (expand il l) = 2 * length l.
Proof.
  unfold expand. destruct il; [|rewrite length_app; lia].
  induction l as [|v l IH]; [done|]. cbn [mbind list_bind length app]. rewrite IH. lia.
Qed.
Lemma expand_fmap {B C} (f : B → C) il l : f <$> expand il l = expand il (f <$> l).
Proof.
  unfold expand. destruct il; [|by rewrite fmap_app]. induction l as [|v l IH]; [done|]. cbn. by rewrite <-IH.
Qed.

(** Every index below [2 n] is one of a pair. *)
Lemma index_cases il n j : j < 2 * n → ∃ r, r < n ∧ (j = x_index il r ∨ j = y_index il n r).
Proof.
  intros Hj. unfold x_index, y_index. destruct il.
  - exists (j / 2). pose proof (Nat.div_mod_eq j 2). pose proof (Nat.mod_upper_bound j 2). lia.
  - destruct (decide (j < n)); [exists j; lia|]. exists (j - n). lia.
Qed.
Lemma index_lt il n r : r < n → x_index il r < 2 * n ∧ y_index il n r < 2 * n.
Proof. intros Hr. unfold x_index, y_index. destruct il; lia. Qed.

(** The pairs after a rotation. *)
Definition rotated (il : bool) (n : nat) (c s x out : list A) : Prop :=
  length out = 2 * n ∧ ∀ r xv yv cv sv, r < n → x !! x_index il r = Some xv → x !! y_index il n r = Some yv →
    c !! r = Some cv → s !! r = Some sv →
    out !! x_index il r = Some (r_add (r_mul xv cv) (r_mul (r_neg yv) sv)) ∧
    out !! y_index il n r = Some (r_add (r_mul yv cv) (r_mul xv sv)).

Lemma half (n : nat) : (2 * n + 1) / 2 = n.
Proof. rewrite Nat.mul_comm, Nat.div_add_l by lia. simpl. lia. Qed.

Lemma chunk2_ok {T} n x (s : T) : length x = 2 * n → chunk2 x s = Ok ((take n x, drop n x), s).
Proof. intros Hl. unfold chunk2. rewrite decide_False by lia. by rewrite Hl, half. Qed.

(** The pairs of [rotate_every_two] and [rotate_half]. *)
Lemma rotate_ok {T} il n x (s : T) : length x = 2 * n → ∃ x' : list A,
  (if il then rotate_every_two x else rotate_half x) s = Ok (x', s) ∧ length x' = 2 * n ∧
  ∀ r, r < n → x' !! x_index il r = r_neg <$> x !! y_index il n r ∧ x' !! y_index il n r = x !! x_index il r.
Proof.
  intros Hl. destruct il; unfold x_index, y_index.
  - assert (length (every_other x) = n) as H1 by (by rewrite every_other_length, Hl, half).
    assert (length (every_other (tail x)) = n) as H2.
    { destruct x as [|a x]; simpl in *; [lia|]. rewrite every_other_length. replace (length x + 1) with (2 * n) by lia.
      rewrite Nat.mul_comm. by apply Nat.div_mul. }
    unfold rotate_every_two. unfold mbind, M_bind, check. rewrite bool_decide_true by lia.
    eexists. split_and!; [done|rewrite interleave_length; rewrite length_fmap; lia|]. intros r Hr.
    destruct (interleave_lookup (r_neg <$> every_other (tail x)) (every_other x) r) as [E1 E2]; [rewrite length_fmap; lia|].
    rewrite E1, E2, list_lookup_fmap, !every_other_lookup. split; [|done]. f_equal. rewrite lookup_tail. f_equal. lia.
  - unfold rotate_half. unfold mbind at 1, M_bind at 1. rewrite (chunk2_ok n) by done.
    eexists. split_and!; [done|rewrite length_app, length_fmap, length_take, length_drop; lia|]. intros r Hr. split.
    + rewrite lookup_app_l by (rewrite length_fmap, length_drop; lia). rewrite list_lookup_fmap, lookup_drop. do 2 f_equal. lia.
    + rewrite lookup_app_r by (rewrite length_fmap, length_drop; lia). rewrite length_fmap, length_drop.
      replace (r + n - (length x - n)) with r by lia. by rewrite lookup_take_lt by lia.
Qed.

Lemma embed_row_ok {T} il c sn x (s : T) : length sn = length c → length x = 2 * length c → ∃ out : list A,
  embed_row il (expand il c) (expand il sn) x s = Ok (out, s) ∧ rotated il (length c) c sn x out.
Proof.
  intros Hs Hx. set (n := length c) in *. destruct (rotate_ok il n x s Hx) as (x'&E&Hx'&Hp).
  unfold embed_row, mul_row. unfold mbind, M_bind, check. rewrite bool_decide_true by (by rewrite expand_length).
  cbn [mret M_ret]. rewrite E, bool_decide_true by (rewrite expand_length; lia). eexists. split; [done|].
  split; [rewrite !length_zip_with, !expand_length; lia|]. intros r xv yv cv sv Hr Ex Ey Ec Es.
  destruct (Hp r Hr) as [P1 P2]. destruct (expand_lookup il c r Hr) as [C1 C2].
  destruct (expand_lookup il sn r) as [S1 S2]; [lia|]. rewrite Hs in S2. fold n in C2, S2.
  rewrite !lookup_zip_with, P1, P2, C1, C2, S1, S2, Ex, Ey, Ec, Es. done.
Qed.

(** ** All heads *)

Lemma embed_heads_ok {T} il n (x : list (list (list A))) (cs sn : nat → list A) (positions : list nat) (s : T) :
  length x = length positions → (∀ p, length (cs p) = n) → (∀ p, length (sn p) = n) →
  Forall (Forall (λ row, length row = 2 * n)) x →
  ∃ ys, embed_heads il x ((λ p, expand il (cs p) ++ expand il (sn p)) <$> positions) s = Ok (ys, s) ∧
    Forall2 (λ q y, Forall2 (rotated il n (cs q.2) (sn q.2)) q.1 y) (zip x positions) ys.
Proof.
  intros Hl Hcs Hsn Hx. unfold embed_heads. unfold mbind at 1, M_bind at 1, check. rewrite length_fmap, bool_decide_true by done.
  rewrite zip_with_fmap_r. cbn [mret M_ret].
  replace (zip_with (λ a b, (a, expand il (cs b) ++ expand il (sn b))) x positions)
    with ((λ q : list (list A) * nat, (q.1, expand il (cs q.2) ++ expand il (sn q.2))) <$> zip x positions)
    by (clear; revert positions; induction x as [|a x IH]; intros [|b ps]; [done..|]; cbn; f_equal; apply IH).
  rewrite map_each_compose. apply map_each_Forall2. intros [xs p] Hin. cbn [fst snd].
  unfold mbind at 1, M_bind at 1. rewrite (chunk2_ok (2 * n)) by (rewrite length_app, !expand_length, Hcs, Hsn; lia).
  rewrite take_app_length', drop_app_length' by (by rewrite expand_length, Hcs).
  apply map_each_Forall2. intros row Hrow. destruct (embed_row_ok il (cs p) (sn p) row s) as (out&E&Hr).
  - by rewrite Hcs, Hsn.
  - apply elem_of_zip_l in Hin. rewrite Forall_forall in Hx. specialize (Hx _ Hin). rewrite Forall_forall in Hx.
    by rewrite (Hx _ Hrow), Hcs.
  - exists out. by rewrite Hcs in Hr.
Qed.

(** ** The generic implementation *)

(** The rows of the two caches. *)
Definition cos_row (inv_freq : list F) (p : nat) : list A := a_to <$> (a_cos <$> freqs inv_freq p).
Definition sin_row (inv_freq : list F) (p : nat) : list A := a_to <$> (a_sin <$> freqs inv_freq p).

Lemma cos_row_length inv_freq p : length (cos_row inv_freq p) = length inv_freq.
Proof. unfold cos_row, freqs. by rewrite !length_fmap. Qed.
Lemma sin_row_length inv_freq p : length (sin_row inv_freq p) = length inv_freq.
Proof. unfold sin_row, freqs. by rewrite !length_fmap. Qed.

Lemma generic_cache rd max_pos inv_freq il :
  cos_sin_cache_ (RotaryEmbeddingGeneric_new rd max_pos inv_freq il) =
  (λ p, expand il (cos_row inv_freq p) ++ expand il (sin_row inv_freq p)) <$> seq 0 max_pos.
Proof.
  unfold RotaryEmbeddingGeneric_new. cbn [cos_sin_cache_]. apply list_fmap_ext. intros _ p _. unfold cos_row, sin_row.
  rewrite fmap_app, <-!expand_fmap. done.
Qed.

Lemma cache_rows {T} (g : nat → list A) max_pos positions (s : T) : Forall (λ p, p < max_pos) positions →
  map_each (λ i, from_option_or OutOfBounds ((g <$> seq 0 max_pos) !! i)) positions s = Ok (g <$> positions, s).
Proof.
  induction 1 as [|p ps Hp _ IH]; [done|]. cbn [map_each]. unfold mbind, M_bind.
  rewrite list_lookup_fmap, lookup_seq_lt by done. cbn. rewrite IH. done.
Qed.

(** A tensor of [tokens] tokens whose heads have [dim] elements. *)
Definition heads_ok (tokens dim : nat) (x : list (list (list A))) : Prop :=
  length x = tokens ∧ Forall (Forall (λ row, length row = dim)) x.

(** The tensor after the rotation: the first [2 n] elements of a head are rotated,
    the others pass. *)
Definition embedded (il : bool) (n : nat) (inv_freq : list F) (positions : list nat) (x y : list (list (list A))) : Prop :=
  Forall2 (λ q, Forall2 (λ row out, ∃ o, out = o ++ drop (2 * n) row ∧
    rotated il n (cos_row inv_freq q.2) (sin_row inv_freq q.2) (take (2 * n) row) o) q.1) (zip x positions) y.

Lemma embed_pass {T} il n inv_freq positions dim (x : list (list (list A))) (s : T) : heads_ok (length positions) dim x → 2 * n ≤ dim → length inv_freq = n →
  ∃ ys, embed_heads il (map (map (take (2 * n))) x)
      ((λ p, expand il (cos_row inv_freq p) ++ expand il (sin_row inv_freq p)) <$> positions) s = Ok (ys, s) ∧
    embedded il n inv_freq positions x (zip_with (zip_with app) ys (map (map (drop (2 * n))) x)).
Proof.
  intros [Hl Hx] Hd Hn. destruct (embed_heads_ok il n (map (map (take (2 * n))) x) (cos_row inv_freq) (sin_row inv_freq) positions s)
    as (ys&E&Hys).
  - by rewrite length_map.
  - intros p. by rewrite cos_row_length.
  - intros p. by rewrite sin_row_length.
  - apply Forall_map. eapply Forall_impl; [exact Hx|]. intros rows Hr. apply Forall_map.
    eapply Forall_impl; [exact Hr|]. intros row Hw. cbv beta in *. rewrite length_take. lia.
  - exists ys. split; [done|]. unfold embedded. clear E Hl. revert positions ys Hys.
    induction Hx as [|rows x Hrows _ IH]; intros [|p ps] ys Hys; cbn [map zip_with] in Hys |- *;
      inversion Hys as [|? y ? ys' Hy Hys']; subst; cbn [zip_with]; try constructor; [|by apply IH].
    cbn [fst snd] in *. apply (Forall2_fmap_l (take (2 * length inv_freq))) in Hy.
    clear -Hy. induction Hy as [|row o rows y Ho _ IH]; cbn [map zip_with]; [constructor|]. constructor; [by exists o|done].
Qed.

Lemma generic_ok {T} il n max_pos inv_freq positions (query key : Heads A) (s : T) :
  length inv_freq = n → Forall (λ p, p < max_pos) positions → 2 * n ≤ h_dim query → 2 * n ≤ h_dim key →
  heads_ok (length positions) (h_dim query) (h_rows query) → heads_ok (length positions) (h_dim key) (h_rows key) →
  ∃ q k, generic_forward (RotaryEmbeddingGeneric_new (2 * n) max_pos inv_freq il) query key positions s =
      Ok ((mkHeads (h_dim query) q, mkHeads (h_dim key) k), s) ∧
    embedded il n inv_freq positions (h_rows query) q ∧ embedded il n inv_freq positions (h_rows key) k.
Proof.
  intros Hn Hp Hq Hk Hqo Hko. unfold generic_forward, apply_rotary_pos_emb. rewrite generic_cache.
  cbn [rotary_dim_ interleaved_ RotaryEmbeddingGeneric_new]. unfold mbind, M_bind, check.
  rewrite (proj2 (Nat.leb_le _ _) Hq). cbn [mret M_ret]. rewrite cache_rows by done.
  destruct (embed_pass il n inv_freq positions _ _ s Hqo Hq Hn) as (q&->&Eq).
  destruct (embed_pass il n inv_freq positions _ _ s Hko Hk Hn) as (k&->&Ek). by do 2 eexists.
Qed.
(** The rotation of a pair determines it. *)
Lemma rotated_unique il n c sn x o o' : length c = n → length sn = n → length x = 2 * n →
  rotated il n c sn x o → rotated il n c sn x o' → o = o'.
Proof.
  intros Hc Hs Hx [L1 R1] [L2 R2]. apply list_eq. intros j. destruct (decide (j < 2 * n)) as [Hj|Hj].
  2:{ rewrite !lookup_ge_None_2 by lia. done. }
  destruct (index_cases il n j Hj) as (r&Hr&Hc'). destruct (index_lt il n r Hr) as [Hxr Hyr].
  destruct (lookup_lt_is_Some_2 x (x_index il r)) as [xv Ex]; [lia|]. destruct (lookup_lt_is_Some_2 x (y_index il n r)) as [yv Ey]; [lia|].
  destruct (lookup_lt_is_Some_2 c r) as [cv Ec]; [lia|]. destruct (lookup_lt_is_Some_2 sn r) as [sv Es]; [lia|].
  destruct (R1 r xv yv cv sv Hr Ex Ey Ec Es) as [P1 P2], (R2 r xv yv cv sv Hr Ex Ey Ec Es) as [Q1 Q2].
  destruct Hc' as [->| ->]; congruence.
Qed.

(** One head at position [p]: what the generic implementation makes of it. *)
Definition rotary_head il (n : nat) (inv_freq : list F) (p : nat) x : list A :=
  match embed_row il (expand il (cos_row inv_freq p)) (expand il (sin_row inv_freq p)) (take (2 * n) x) () with
  | Ok (o, _) => o
  | Fail _ => []
  end ++ drop (2 * n) x.

Lemma rotary_head_ok il n inv_freq p x : length inv_freq = n → 2 * n ≤ length x → ∃ o,
  rotary_head il n inv_freq p x = o ++ drop (2 * n) x ∧ rotated il n (cos_row inv_freq p) (sin_row inv_freq p) (take (2 * n) x) o.
Proof.
  intros Hn Hx. destruct (embed_row_ok il (cos_row inv_freq p) (sin_row inv_freq p) (take (2 * n) x) ()) as (o&E&Ho).
  - by rewrite cos_row_length, sin_row_length.
  - rewrite cos_row_length, length_take. lia.
  - exists o. unfold rotary_head. rewrite E. split; [done|]. by rewrite cos_row_length, Hn in Ho.
Qed.
Lemma rotary_head_length il n inv_freq p x : length inv_freq = n → 2 * n ≤ length x → length (rotary_head il n inv_freq p x) = length x.
Proof.
  intros Hn Hx. destruct (rotary_head_ok il n inv_freq p x Hn Hx) as (o&->&Ho&_). rewrite length_app, length_drop, Ho. lia.
Qed.

(** The generic implementation treats every head by itself. *)
Lemma embedded_heads il n (inv_freq : list F) dim (positions : list nat) (x y : list (list (list A))) : length inv_freq = n → 2 * n ≤ dim → heads_ok (length positions) dim x →
  embedded il n inv_freq positions x y → y = zip_with (λ p row, rotary_head il n inv_freq p <$> row) positions x.
Proof.
  intros Hn Hd [Hl Hx] He. unfold embedded in He. revert positions y Hl He.
  induction Hx as [|rows x Hrows _ IH]; intros [|p ps] y Hl He; try done; cbn [zip zip_with] in He |- *; inversion He as [|? out ? y' Hy He']; subst; [done|].
  f_equal; [|apply IH; [by injection Hl|done]]. cbn [fst snd] in Hy. clear -Hd Hrows Hy. revert out Hy.
  induction Hrows as [|row rows Hw _ IH]; intros out Hy; inversion Hy as [|? v ? vs (o&->&Ho) Hvs]; subst; [done|].
  cbn [fmap list_fmap]. f_equal; [|by apply IH].
  destruct (rotary_head_ok il (length inv_freq) inv_freq p row eq_refl Hd) as (o'&->&Ho'). f_equal.
  eapply rotated_unique; [| | |exact Ho|exact Ho']; [by rewrite cos_row_length|by rewrite sin_row_length|rewrite length_take; lia].
Qed.
End rotary.

(** ** The CUDA rotary embedding computes what the generic one computes *)

(** ** Addresses *)

(** Column [c] of token [t]: the heads of a token are contiguous. *)
Definition cell (v : View) (t c : nat) : nat := v_base v + t * v_stride v + c.
Definition addresses (v : View) : list nat := seq 0 (v_tokens v) ≫= λ t, cell v t <$> seq 0 (v_heads v * v_dim v).

Lemma NoDup_fmap_inj {B C} (f : B → C) l x y : NoDup (f <$> l) → x ∈ l → y ∈ l → f x = f y → x = y.
Proof.
  induction l as [|z l IH]; intros Hnd Hx Hy E; [by apply not_elem_of_nil in Hx|].
  apply NoDup_cons in Hnd as [Hz Hnd]. apply elem_of_cons in Hx as [->|Hx], Hy as [->|Hy]; [done| | |by apply IH].
  - destruct Hz. rewrite E. by apply list_elem_of_fmap_2.
  - destruct Hz. rewrite <-E. by apply list_elem_of_fmap_2.
Qed.

Lemma NoDup_bind_inj {B C} (f : B → list C) l x y z : NoDup (l ≫= f) → x ∈ l → y ∈ l → z ∈ f x → z ∈ f y → x = y.
Proof.
  induction l as [|b l IH]; intros Hnd Hx Hy Hzx Hzy; [by apply not_elem_of_nil in Hx|].
  cbn [mbind list_bind] in Hnd. apply NoDup_app in Hnd as (_&Hd&Hnd).
  apply elem_of_cons in Hx as [->|Hx], Hy as [->|Hy]; [done| | |by apply IH].
  - destruct (Hd z); [done|]. apply list_elem_of_bind. by exists y.
  - destruct (Hd z); [done|]. apply list_elem_of_bind. by exists x.
Qed.

Lemma NoDup_bind_part {B C} (f : B → list C) l x : NoDup (l ≫= f) → x ∈ l → NoDup (f x).
Proof.
  induction l as [|b l IH]; intros Hnd Hx; [by apply not_elem_of_nil in Hx|].
  cbn [mbind list_bind] in Hnd. apply NoDup_app in Hnd as (Hb&_&Hnd). apply elem_of_cons in Hx as [->|Hx]; [done|by apply IH].
Qed.

Lemma elem_of_addresses v t c : t < v_tokens v → c < v_heads v * v_dim v → cell v t c ∈ addresses v.
Proof.
  intros Ht Hc. apply list_elem_of_bind. exists t. split; [|by apply elem_of_seq; lia]. apply list_elem_of_fmap_2, elem_of_seq. lia.
Qed.

(** Two cells of views without overlap are at the same address only if they are the
    same cell. *)
Lemma cell_inj v t c t' c' : NoDup (addresses v) → t < v_tokens v → t' < v_tokens v →
  c < v_heads v * v_dim v → c' < v_heads v * v_dim v → cell v t c = cell v t' c' → t = t' ∧ c = c'.
Proof.
  intros Hnd Ht Ht' Hc Hc' E. assert (t = t') as <-; [|split; [done|unfold cell in E; lia]].
  eapply (NoDup_bind_inj _ _ t t' (cell v t c) Hnd); [apply elem_of_seq; lia..| |].
  - apply list_elem_of_fmap_2, elem_of_seq. lia.
  - rewrite E. apply list_elem_of_fmap_2, elem_of_seq. lia.
Qed.

Lemma row_col_inj d a u b w : u < d → w < d → a * d + u = b * d + w → a = b ∧ u = w.
Proof. intros Hu Hw E. assert (a = b) by nia. split; [done|nia]. Qed.

Lemma index_inj il n r r' : r < n → r' < n →
  (x_index il r = x_index il r' → r = r') ∧ (y_index il n r = y_index il n r' → r = r') ∧ x_index il r ≠ y_index il n r'.
Proof. intros Hr Hr'. unfold x_index, y_index. destruct il; split_and!; lia. Qed.

(** ** The iterations of the grid *)

Section kernel.
Context {A : Type} `{Arith A}.
Context (q k : View) (positions : list nat) (cos_sin : list A) (il : bool) (n : nat).
Context (Hn : 0 < n) (Hdim : 2 * n ≤ v_dim q).

Definition x_col (i : nat) : nat := i / n * v_dim q + x_index il (i `mod` n).
Definition y_col (i : nat) : nat := i / n * v_dim q + y_index il n (i `mod` n).

(** Iteration [i] on token [t], with its addresses. *)
Definition iteration (v : View) (t i : nat) : Prog A * list nat :=
  (rotary_apply cos_sin (v_base v + t * v_stride v + i / n * v_dim q) (read 0 positions t * (2 * n))
     (read 0 positions t * (2 * n) + n) (i `mod` n) n il, [cell v t (x_col i); cell v t (y_col i)]).
Definition iterations (v : View) (t : nat) : list (Prog A * list nat) := iteration v t <$> seq 0 (v_heads v * n).

Definition annotated (block : nat) : list (list (Prog A * list nat)) :=
  concat ((λ t, (λ tid, (iteration q t <$> strided (S (v_heads q * n)) tid (v_heads q * n) block) ++
    (iteration k t <$> strided (S (v_heads k * n)) tid (v_heads k * n) block)) <$> seq 0 block) <$> seq 0 (v_tokens q)).

Lemma half_dim : (2 * n) / 2 = n.
Proof. rewrite Nat.mul_comm. by apply Nat.div_mul. Qed.

Lemma launch_annotated {T} (s : T) : v_strides q = (v_stride q, v_dim q, 1) → v_strides k = (v_stride k, v_dim k, 1) →
  launch_rotary q k positions cos_sin (2 * n) il s =
  Ok (erase (annotated (Nat.min 1024 (v_heads q * (2 * n)) / 2)), s).
Proof using.
  intros Hq Hk. unfold launch_rotary. unfold mbind, M_bind, check. rewrite !bool_decide_true by done. cbn [mret M_ret].
  unfold mret, M_ret. do 2 f_equal. unfold annotated. generalize (Nat.min 1024 (v_heads q * (2 * n)) / 2) as block. intros block.
  generalize (seq 0 (v_tokens q)) as ts. induction ts as [|t ts IH]; [done|].
  cbn [fmap list_fmap concat]. rewrite fmap_app. f_equal; [|apply IH].
  change (list_fmap ?X ?Y ?f ?l) with (f <$> l). rewrite <-list_fmap_compose. apply list_fmap_ext. intros _ tid _.
  unfold rotary_embedding_kernel. rewrite half_dim. cbn [compose]. rewrite fmap_app, <-!list_fmap_compose. done.
Qed.

Lemma annotated_perm block : 0 < block → concat (annotated block) ≡ₚ seq 0 (v_tokens q) ≫= λ t, iterations q t ++ iterations k t.
Proof using.
  intros Hb. unfold annotated. generalize (seq 0 (v_tokens q)) as ts. induction ts as [|t ts IH]; [done|].
  cbn [fmap list_fmap concat mbind list_bind]. rewrite concat_app, IH. apply Permutation_app_tail.
  change (list_fmap ?X ?Y ?f ?l) with (f <$> l). unfold iterations.
  rewrite <-(strided_partition (v_heads q * n) block Hb), <-(strided_partition (v_heads k * n) block Hb).
  generalize (seq 0 block) as tids. induction tids as [|tid tids IHt]; [done|].
  cbn [fmap list_fmap concat]. change (list_fmap ?X ?Y ?f ?l) with (f <$> l). rewrite IHt, !fmap_app.
  change (list_fmap ?X ?Y ?f ?l) with (f <$> l). solve_Permutation.
Qed.

Lemma x_col_lt v i : v_dim v = v_dim q → i < v_heads v * n → x_col i < v_heads v * v_dim v ∧ y_col i < v_heads v * v_dim v.
Proof using Hn Hdim.
  intros Hv Hi. unfold x_col, y_col. assert (i / n < v_heads v) by (apply Nat.Div0.div_lt_upper_bound; lia).
  pose proof (Nat.mod_upper_bound i n ltac:(lia)). destruct (index_lt il n (i `mod` n)); [done|]. rewrite Hv. nia.
Qed.

(** Different iterations touch different columns. *)
Lemma cols_inj i j : (x_col i = x_col j → i = j) ∧ (y_col i = y_col j → i = j) ∧ x_col i ≠ y_col j.
Proof using Hn Hdim.
  pose proof (Nat.mod_upper_bound i n ltac:(lia)) as Hi. pose proof (Nat.mod_upper_bound j n ltac:(lia)) as Hj.
  destruct (index_lt il n (i `mod` n) Hi), (index_lt il n (j `mod` n) Hj), (index_inj il n _ _ Hi Hj) as (I1&I2&I3).
  unfold x_col, y_col. pose proof (Nat.div_mod_eq i n). pose proof (Nat.div_mod_eq j n).
  split_and!; intros E; (apply row_col_inj in E as [E1 E2]; [|lia..]); [apply I1 in E2; congruence|apply I2 in E2; congruence|done].
Qed.

Lemma iteration_within v t i : within (iteration v t i).2 (iteration v t i).1.
Proof using.
  cbn [iteration fst snd within rotary_apply]. unfold cell, x_col, y_col. rewrite !Nat.add_assoc.
  split_and!; [constructor|]. intros x. split_and!; [do 2 constructor|]. intros y. cbn [within].
  split_and!; [constructor|do 2 constructor|done].
Qed.

(** The addresses of the iterations on one view. *)
Lemma iterations_cell v t a : v_dim v = v_dim q → a ∈ concat (iterations v t).*2 →
  ∃ c i, a = cell v t c ∧ c < v_heads v * v_dim v ∧ i < v_heads v * n ∧ (c = x_col i ∨ c = y_col i).
Proof using Hn Hdim.
  intros Hv Ha. apply list_elem_of_In, in_concat in Ha as (F&HF&Ha). apply list_elem_of_In in HF, Ha.
  apply list_elem_of_fmap in HF as (it&->&Hit). apply list_elem_of_fmap in Hit as (i&->&Hi). apply elem_of_seq in Hi.
  destruct (x_col_lt v i Hv) as [Hx Hy]; [lia|].
  apply elem_of_cons in Ha as [->|Ha%list_elem_of_singleton]; [exists (x_col i), i|exists (y_col i), i]; (split_and!; [done|done|lia|auto]).
Qed.

Lemma iterations_NoDup v t : v_dim v = v_dim q → NoDup (concat (iterations v t).*2).
Proof using Hn Hdim.
  intros Hv. unfold iterations. rewrite <-list_fmap_compose. change (snd ∘ iteration v t) with (λ i, [cell v t (x_col i); cell v t (y_col i)]).
  assert (∀ l, NoDup l → NoDup (concat ((λ i, [cell v t (x_col i); cell v t (y_col i)]) <$> l))) as Hl; [|apply Hl, NoDup_seq].
  induction 1 as [|i l Hi _ IH]; [constructor|]. cbn [fmap list_fmap concat app].
  destruct (cols_inj i i) as (_&_&Hxy).
  assert (∀ c, c ∈ concat ((λ i, [cell v t (x_col i); cell v t (y_col i)]) <$> l) → ∃ j, j ∈ l ∧ (c = cell v t (x_col j) ∨ c = cell v t (y_col j))) as Hin.
  { intros c Hc. apply list_elem_of_In, in_concat in Hc as (F&HF&Hc). apply list_elem_of_In in HF, Hc.
    apply list_elem_of_fmap in HF as (j&->&Hj). exists j. split; [done|].
    apply elem_of_cons in Hc as [->|Hc%list_elem_of_singleton]; auto. }
  assert (∀ j, j ∈ l → x_col i ≠ x_col j ∧ x_col i ≠ y_col j ∧ y_col i ≠ x_col j ∧ y_col i ≠ y_col j) as Hne.
  { intros j Hj. destruct (cols_inj i j) as (I1&I2&I3), (cols_inj j i) as (_&_&I4).
    split_and!; [intros ->%I1|done|intros E; by apply I4|intros ->%I2]; done. }
  apply NoDup_cons. split; [|apply NoDup_cons; split; [|done]].
  - intros [E|(j&Hj&E)%Hin]%elem_of_cons; [unfold cell in E; lia|]. destruct (Hne j Hj) as (?&?&?&?). unfold cell in E. lia.
  - intros (j&Hj&E)%Hin. destruct (Hne j Hj) as (?&?&?&?). unfold cell in E. lia.
Qed.

Context (Hkdim : v_dim k = v_dim q) (Htok : v_tokens k = v_tokens q).
Context (Hdisj : NoDup (addresses q ++ addresses k)).

Lemma views_NoDup : NoDup (addresses q) ∧ NoDup (addresses k) ∧ ∀ a, a ∈ addresses q → a ∉ addresses k.
Proof using Hdisj. apply NoDup_app in Hdisj as (?&Hd&?). split_and!; [done|done|]. intros a Ha. by apply Hd. Qed.

Lemma concat_items_in {B} (f : B → list (Prog A * list nat)) l a :
  a ∈ concat (l ≫= f).*2 ↔ ∃ x, x ∈ l ∧ a ∈ concat (f x).*2.
Proof using.
  rewrite fmap_bind. induction l as [|x l IH]; cbn [mbind list_bind concat].
  - split; [by intros ?%not_elem_of_nil|by intros (x&?%not_elem_of_nil&_)].
  - rewrite concat_app, elem_of_app. rewrite IH. split.
    + intros [Ha|(y&Hy&Ha)]; [exists x|exists y]; (split; [by constructor|done]).
    + intros (y&[->|Hy]%elem_of_cons&Ha); [by left|right; by exists y].
Qed.

Lemma other_token v w t t' c d : (v = q ∨ v = k) → (w = q ∨ w = k) → t < v_tokens q → t' < v_tokens q →
  c < v_heads v * v_dim v → d < v_heads w * v_dim w → cell v t c = cell w t' d → v = w ∧ t = t' ∧ c = d.
Proof using Hn Hdim Hkdim Htok Hdisj.
  destruct views_NoDup as (Hq&Hk&Hqk). intros Hv Hw Ht Ht' Hc Hd E.
  assert (v = w) as <-.
  { assert (cell v t c ∈ addresses v) as H1 by (apply elem_of_addresses; destruct Hv as [->| ->]; lia).
    assert (cell w t' d ∈ addresses w) as H2 by (apply elem_of_addresses; destruct Hw as [->| ->]; lia).
    rewrite E in H1. destruct Hv as [->| ->], Hw as [->| ->]; [done| | |done]; exfalso; by eapply Hqk. }
  split; [done|]. destruct Hv as [->| ->]; (eapply cell_inj; [|..|exact E]); first [done|lia].
Qed.

(** No two iterations of the grid share an address. *)
Lemma grid_separate : separate (seq 0 (v_tokens q) ≫= λ t, iterations q t ++ iterations k t).
Proof using Hn Hdim Hkdim Htok Hdisj.
  split.
  - apply Forall_forall. intros it (t&Hit&_)%list_elem_of_bind.
    apply elem_of_app in Hit as [Hit|Hit]; apply list_elem_of_fmap in Hit as (i&->&_); apply iteration_within.
  - assert (∀ l, NoDup l → Forall (λ t, t < v_tokens q) l → NoDup (concat (l ≫= λ t, iterations q t ++ iterations k t).*2)) as Hl.
    { induction 1 as [|t l Ht _ IH]; intros Hb; [constructor|]. apply Forall_cons in Hb as [Hb Hbl]. specialize (IH Hbl).
      cbn [mbind list_bind]. rewrite fmap_app, concat_app, fmap_app, concat_app. apply NoDup_app. split_and!; [| |done].
      - apply NoDup_app. split_and!; [by apply iterations_NoDup| |by apply iterations_NoDup].
        intros a (c&i&->&Hc&_)%iterations_cell (d&j&E&Hd&_)%iterations_cell; [|done..].
        apply other_token in E; auto. destruct E as (E&_). destruct views_NoDup as (_&_&Hqk). rewrite E in Hqk.
        destruct (Hqk (cell k t c)); apply elem_of_addresses; first [lia|by rewrite <-E].
      - intros a Ha Ha'. apply concat_items_in in Ha' as (t'&Ht'&Ha'). rewrite Forall_forall in Hbl. specialize (Hbl t' Ht').
        rewrite fmap_app, concat_app in Ha'. apply elem_of_app in Ha as [Ha|Ha], Ha' as [Ha'|Ha'];
          apply iterations_cell in Ha as (c&i&->&Hc&_); try done; apply iterations_cell in Ha' as (d&j&E&Hd&_); try done;
          apply other_token in E; auto; by destruct E as (_&->&_). }
    apply Hl; [apply NoDup_seq|]. apply Forall_forall. intros t ?%elem_of_seq. lia.
Qed.

(** ** The memory after the grid *)

Context (m m' : list A).
Context (Hm : m' = exec_all (seq 0 (v_tokens q) ≫= λ t, iterations q t ++ iterations k t).*1 m).

Lemma rotary_other a : a ∉ addresses q → a ∉ addresses k → m' !! a = m !! a.
Proof using Hn Hdim Hkdim Htok Hdisj Hm.
  intros Hq Hk. rewrite Hm. apply exec_all_other; [apply grid_separate|].
  intros (t&Ht&Ha)%concat_items_in. apply elem_of_seq in Ht. rewrite fmap_app, concat_app in Ha.
  apply elem_of_app in Ha as [Ha|Ha]; apply iterations_cell in Ha as (c&i&->&Hc&_); try done;
    [apply Hq|apply Hk]; apply elem_of_addresses; first [lia|done].
Qed.

(** The elements of a head beyond the rotary dimension. *)
Lemma rotary_pass v t h j : (v = q ∨ v = k) → t < v_tokens q → h < v_heads v → 2 * n ≤ j < v_dim q →
  m' !! cell v t (h * v_dim q + j) = m !! cell v t (h * v_dim q + j).
Proof using Hn Hdim Hkdim Htok Hdisj Hm.
  intros Hv Ht Hh Hj. rewrite Hm. apply exec_all_other; [apply grid_separate|].
  assert (v_dim v = v_dim q) as Hd by (by destruct Hv as [->| ->]).
  assert (h * v_dim q + j < v_heads v * v_dim v) as Hc by (rewrite Hd; nia).
  assert (∀ w t' a, (w = q ∨ w = k) → t' < v_tokens q → a ∈ concat (iterations w t').*2 → a ≠ cell v t (h * v_dim q + j)) as Hno.
  { intros w t' a Hw Ht' (c&i&->&Hcw&Hi&Hci)%iterations_cell E; [|by destruct Hw as [->| ->]].
    apply other_token in E as (->&->&->); auto. pose proof (Nat.mod_upper_bound i n ltac:(lia)) as Hr.
    destruct (index_lt il n _ Hr) as [Hx Hy].
    destruct Hci as [E|E]; unfold x_col, y_col in E; apply row_col_inj in E as [_ E]; lia. }
  intros (t'&Ht'&Ha)%concat_items_in. apply elem_of_seq in Ht'. rewrite fmap_app, concat_app in Ha.
  apply elem_of_app in Ha as [Ha|Ha]; eapply Hno in Ha; eauto; lia.
Qed.

(** One pair. *)
Lemma rotary_pair v t h r x y : (v = q ∨ v = k) → t < v_tokens q → h < v_heads v → r < n →
  m !! cell v t (h * v_dim q + x_index il r) = Some x → m !! cell v t (h * v_dim q + y_index il n r) = Some y →
  let c := read r_zero cos_sin (read 0 positions t * (2 * n) + r) in
  let s := read r_zero cos_sin (read 0 positions t * (2 * n) + n + r) in
  m' !! cell v t (h * v_dim q + x_index il r) = Some (r_sub (r_mul x c) (r_mul y s)) ∧
  m' !! cell v t (h * v_dim q + y_index il n r) = Some (r_add (r_mul x s) (r_mul y c)).
Proof using Hn Hdim Hkdim Htok Hdisj Hm.
  intros Hv Ht Hh Hr Ex Ey c s. set (i := h * n + r).
  assert (i / n = h) as Ediv by (unfold i; rewrite Nat.div_add_l, Nat.div_small; lia).
  assert (i `mod` n = r) as Emod by (unfold i; rewrite Nat.add_comm, Nat.Div0.mod_add; by apply Nat.mod_small).
  assert (iteration v t i ∈ (seq 0 (v_tokens q) ≫= λ t, iterations q t ++ iterations k t)) as Hin.
  { apply list_elem_of_bind. exists t. split; [|apply elem_of_seq; lia]. apply elem_of_app.
    destruct Hv as [->| ->]; [left|right]; apply list_elem_of_fmap_2, elem_of_seq; unfold i; nia. }
  assert (x_col i = h * v_dim q + x_index il r) as Exc by (unfold x_col; by rewrite Ediv, Emod).
  assert (y_col i = h * v_dim q + y_index il n r) as Eyc by (unfold y_col; by rewrite Ediv, Emod).
  rewrite <-Exc in Ex |- *. rewrite <-Eyc in Ey |- *. unfold iteration in Hin. pose proof grid_separate as Hs.
  rewrite Hm. split; (erewrite exec_all_own; [|exact Hs|exact Hin|]); [| do 1 constructor| |do 2 constructor].
  all: cbn [exec rotary_apply]; rewrite Ediv, Emod;
    replace (v_base v + t * v_stride v + h * v_dim q + x_index il r) with (cell v t (x_col i)) by (rewrite Exc; unfold cell; lia);
    replace (v_base v + t * v_stride v + h * v_dim q + y_index il n r) with (cell v t (y_col i)) by (rewrite Eyc; unfold cell; lia);
    rewrite Ex, Ey; cbn [exec].
  - rewrite list_lookup_insert_ne by (destruct (cols_inj i i) as (_&_&Hne); unfold cell; lia).
    by rewrite list_lookup_insert_eq by (by eapply lookup_lt_Some).
  - by rewrite list_lookup_insert_eq by (rewrite length_insert; by eapply lookup_lt_Some).
Qed.
End kernel.

(** ** Views *)

Lemma rows_match {B C} (f : nat → B) (g : nat → C) (R : B → C → Prop) N ys :
  Forall2 R (f <$> seq 0 N) ys → (∀ t y, t < N → R (f t) y → g t = y) → g <$> seq 0 N = ys.
Proof.
  intros Hys Hg. assert (∀ t, t ∈ seq 0 N → ∀ y, R (f t) y → g t = y) as Hg'.
  { intros t Ht%elem_of_seq y. apply Hg. lia. }
  clear Hg. revert ys Hys Hg'. induction (seq 0 N) as [|t ts IH]; intros ys Hys Hg; cbn in *; inversion Hys; subst; [done|].
  f_equal; [apply Hg; [constructor|done]|]. apply IH; [done|]. intros u Hu. apply Hg. by constructor.
Qed.

Lemma zip_read {B} (f : nat → B) positions : zip (f <$> seq 0 (length positions)) positions = (λ t, (f t, read 0 positions t)) <$> seq 0 (length positions).
Proof.
  apply list_eq. intros t. rewrite lookup_zip_with, !list_lookup_fmap. destruct (decide (t < length positions)) as [Ht|Ht].
  - rewrite lookup_seq_lt by done. destruct (lookup_lt_is_Some_2 positions t Ht) as [p Hp]. unfold read. cbn. by rewrite Hp.
  - by rewrite lookup_seq_ge by lia.
Qed.

Section views.
Context {F A : Type} `{ArithLaws A} `{Angles F A}.
Context (inv_freq : list F) (max_pos : nat) (q k : View) (positions : list nat) (il : bool).
Abbreviation n := (length inv_freq).
Abbreviation e := (RotaryEmbeddingKernel_new (2 * n) max_pos inv_freq il).

(** The cache of the kernel. *)
Lemma kernel_cache p r : p < max_pos → r < n →
  Some (read r_zero (concat (cos_sin_cache_ e)) (p * (2 * n) + r)) = cos_row inv_freq p !! r ∧
  Some (read r_zero (concat (cos_sin_cache_ e)) (p * (2 * n) + n + r)) = sin_row inv_freq p !! r.
Proof using.
  intros Hp Hr.
  assert (cos_sin_cache_ e = (λ p, cos_row inv_freq p ++ sin_row inv_freq p) <$> seq 0 max_pos) as ->.
  { unfold RotaryEmbeddingKernel_new. cbn [cos_sin_cache_]. apply list_fmap_ext. intros _ i _. apply fmap_app. }
  assert (Forall (λ r, length r = 2 * n) ((λ p, cos_row inv_freq p ++ sin_row inv_freq p) <$> seq 0 max_pos)) as Hw.
  { apply Forall_fmap, Forall_forall. intros i _. cbn [compose]. rewrite length_app, cos_row_length, sin_row_length. lia. }
  unfold read. rewrite <-Nat.add_assoc, !(lookup_concat (2 * n)) by (done || lia).
  rewrite list_lookup_fmap, lookup_seq_lt by done. cbn [fmap option_fmap option_map mbind option_bind].
  rewrite lookup_app_l by (by rewrite cos_row_length). rewrite lookup_app_r by (rewrite cos_row_length; lia).
  rewrite cos_row_length. replace (n + r - n) with r by lia. cbn [Nat.add].
  destruct (lookup_lt_is_Some_2 (cos_row inv_freq p) r) as [c ->]; [by rewrite cos_row_length|].
  destruct (lookup_lt_is_Some_2 (sin_row inv_freq p) r) as [s ->]; [by rewrite sin_row_length|]. done.
Qed.

Lemma view_rows_contiguous v (m : list A) : v_strides v = (v_stride v, v_dim v, 1) →
  h_rows (view_rows v m) =
  (λ t, (λ h, (λ j, read r_zero m (cell v t (h * v_dim v + j))) <$> seq 0 (v_dim v)) <$> seq 0 (v_heads v)) <$> seq 0 (v_tokens v).
Proof using.
  intros E. unfold view_rows. rewrite E. cbn [h_rows]. apply list_fmap_ext. intros _ t _. apply list_fmap_ext. intros _ h _.
  apply list_fmap_ext. intros _ j _. unfold cell. f_equal. lia.
Qed.
Lemma view_rows_ok v (m : list A) : heads_ok (v_tokens v) (v_dim v) (h_rows (view_rows v m)).
Proof using.
  unfold view_rows. destruct (v_strides v) as [[s0 s1] s2]. cbn [h_rows]. split; [by rewrite length_fmap, length_seq|].
  apply Forall_fmap, Forall_forall. intros t _. apply Forall_fmap, Forall_forall. intros h _. cbn [compose].
  by rewrite length_fmap, length_seq.
Qed.
(** The run turns the elements of a view into those that the generic implementation
    computes. *)
Lemma view_embedded v (m m' : list A) Y : (v = q ∨ v = k) → 0 < n → 2 * n ≤ v_dim q → v_dim k = v_dim q → v_tokens k = v_tokens q →
  NoDup (addresses q ++ addresses k) → Forall (λ a, a < length m) (addresses q ++ addresses k) →
  length positions = v_tokens q → Forall (λ p, p < max_pos) positions →
  v_strides v = (v_stride v, v_dim v, 1) →
  m' = exec_all (seq 0 (v_tokens q) ≫= λ t, iterations q positions (concat (cos_sin_cache_ e)) il n q t ++
    iterations q positions (concat (cos_sin_cache_ e)) il n k t).*1 m →
  embedded il n inv_freq positions (h_rows (view_rows v m)) Y → h_rows (view_rows v m') = Y.
Proof.
  intros Hv Hn Hd Hkd Hkt Hnd Hin Hpos Hmax Hst Hm HY.
  assert (v_dim v = v_dim q) as Hvd by (by destruct Hv as [->| ->]).
  assert (v_tokens v = v_tokens q) as Hvt by (by destruct Hv as [->| ->]).
  rewrite view_rows_contiguous in HY |- * by done. unfold embedded in HY. rewrite Hvt, <-Hpos, zip_read in HY.
  rewrite Hvt, <-Hpos. eapply rows_match; [exact HY|]. cbn beta. intros t y Ht Hy. cbn [fst snd] in Hy.
  eapply rows_match; [exact Hy|]. cbn beta. clear y HY Hy. intros h out Hh (o&->&Ho&Hp).
  assert (∀ j, j < v_dim q → ∃ x, m !! cell v t (h * v_dim q + j) = Some x) as Hx.
  { intros j Hj. apply lookup_lt_is_Some_2. rewrite Forall_forall in Hin. apply Hin, elem_of_app.
    assert (cell v t (h * v_dim q + j) ∈ addresses v) by (apply elem_of_addresses; nia). destruct Hv as [->| ->]; auto. }
  assert (read 0 positions t < max_pos) as Hpt.
  { unfold read. destruct (lookup_lt_is_Some_2 positions t Ht) as [p Ep]. rewrite Ep. cbn [default].
    rewrite Forall_forall in Hmax. apply Hmax. by eapply list_elem_of_lookup_2. }
  rewrite Hvd in *. set (row := (λ j, read r_zero m (cell v t (h * v_dim q + j))) <$> seq 0 (v_dim q)) in *.
  assert (∀ j x, j < 2 * n → m !! cell v t (h * v_dim q + j) = Some x → take (2 * n) row !! j = Some x) as Hrow.
  { intros j x Hj E. rewrite lookup_take_lt by done. unfold row. rewrite list_lookup_fmap, lookup_seq_lt by lia. cbn. unfold read. by rewrite E. }
  apply list_eq. intros j. rewrite list_lookup_fmap. destruct (decide (j < v_dim q)) as [Hj|Hj].
  2:{ rewrite lookup_seq_ge by lia. rewrite lookup_ge_None_2; [done|]. unfold row. rewrite length_app, length_drop, length_fmap, length_seq. lia. }
  rewrite lookup_seq_lt by done. cbn [fmap option_fmap option_map]. change (0 + j) with j.
  destruct (decide (j < 2 * n)) as [Hj2|Hj2].
  - rewrite lookup_app_l by lia. destruct (index_cases il n j Hj2) as (r&Hr&Hc). destruct (index_lt il n r Hr) as [Hxr Hyr].
    destruct (Hx (x_index il r)) as [x Ex]; [lia|]. destruct (Hx (y_index il n r)) as [y Ey]; [lia|].
    destruct (kernel_cache (read 0 positions t) r Hpt Hr) as [Ec Es]. rewrite Hpos in Ht.
    destruct (rotary_pair q k positions (concat (cos_sin_cache_ e)) il n Hn Hd Hkd Hkt Hnd m m' Hm v t h r x y Hv Ht Hh Hr Ex Ey) as [R1 R2].
    destruct (Hp r x y _ _ Hr (Hrow _ _ Hxr Ex) (Hrow _ _ Hyr Ey) (eq_sym Ec) (eq_sym Es)) as [P1 P2].
    destruct Hc as [->| ->]; unfold read at 1; [rewrite R1, P1|rewrite R2, P2]; cbn [default]; f_equal.
    + by rewrite r_sub_neg, r_mul_neg.
    + apply r_add_comm.
  - rewrite Hpos in Ht. rewrite lookup_app_r by lia. rewrite Ho, lookup_drop. replace (2 * n + (j - 2 * n)) with j by lia.
    unfold row. rewrite list_lookup_fmap, lookup_seq_lt by done. cbn. unfold read. do 2 f_equal.
    apply (rotary_pass q k positions (concat (cos_sin_cache_ e)) il n Hn Hd Hkd Hkt Hnd m m' Hm v t h j Hv Ht Hh). lia.
Qed.

Lemma rotary_within (m : list A) block : 0 < n → 2 * n ≤ v_dim q → v_dim k = v_dim q → v_tokens k = v_tokens q → 0 < block →
  Forall (λ a, a < length m) (addresses q ++ addresses k) →
  Forall (within (seq 0 (length m))) (concat (erase (annotated q k positions (concat (cos_sin_cache_ e)) il n block))).
Proof using.
  intros Hn Hd Hkd Hkt Hb Hin. rewrite erase_concat. rewrite (annotated_perm q k positions _ il n block Hb).
  apply Forall_fmap, Forall_forall. intros it (t&Hit&Ht%elem_of_seq)%list_elem_of_bind. cbn [compose].
  assert (∀ F G (p : Prog A), within F p → (∀ a, a ∈ F → a ∈ G) → within G p) as Hmono.
  { intros F0 G p. induction p as [|a c IH|a x p IH]; cbn [within]; [done| |].
    - intros [Ha Hw] HG. split; [by apply HG|]. intros x. by apply IH.
    - intros [Ha Hw] HG. split; [by apply HG|]. by apply IH. }
  rewrite Forall_forall in Hin. setoid_rewrite elem_of_app in Hin.
  apply elem_of_app in Hit as [Hit|Hit]; apply list_elem_of_fmap in Hit as (i&->&Hi%elem_of_seq);
    (eapply Hmono; [apply iteration_within|]); intros a Ha; apply elem_of_seq; (split; [lia|]); apply Hin;
    [left; destruct (x_col_lt q il n Hn Hd q i) as [Hx1 Hx2]; [done|lia|]|right; destruct (x_col_lt q il n Hn Hd k i) as [Hx1 Hx2]; [done|lia|]];
    apply elem_of_cons in Ha as [->| ->%list_elem_of_singleton]; apply elem_of_addresses; first [lia|done].
Qed.
End views.

(** ** Rounded arithmetic *)

(** The laws hold for IEEE numbers, so the two implementations agree bit by bit. *)
Definition float_arith (prec emax : Z) : Arith float := {|
  r_zero := S754_zero false;
  r_add := SFadd prec emax;
  r_sub := SFsub prec emax;
  r_mul := SFmul prec emax;
  r_neg := SFopp;
|}.

Lemma binary_round_aux_opp prec emax sx mx ex lx :
  binary_round_aux prec emax (negb sx) mx ex lx = SFopp (binary_round_aux prec emax sx mx ex lx).
Proof.
  unfold binary_round_aux. destruct (shr_fexp prec emax mx ex lx) as [r1 e1]. destruct (shr_fexp _ _ _ _ _) as [r2 e2].
  destruct (shr_m r2); [done| |done]. by destruct (e2 <=? _)%Z.
Qed.

#[global] Instance float_arith_laws prec emax : @ArithLaws float (float_arith prec emax).
Proof.
  split; cbn [r_sub r_add r_neg r_mul float_arith].
  - intros [s|s| |s m e] [s'|s'| |s' m' e']; try done; by destruct s, s'.
  - intros [s|s| |s m e] [s'|s'| |s' m' e']; try (by destruct s, s'); try done. cbn [SFopp SFmul].
    rewrite <-binary_round_aux_opp. f_equal. by destruct s, s'.
  - intros [s|s| |s m e] [s'|s'| |s' m' e']; try (by destruct s, s'); try done. cbn. by rewrite Z.min_comm, Z.add_comm.
Qed.

(** ** The two implementations *)

(** C10. The CUDA rotary embedding computes what the generic one computes: every execution of the grid that
    [RotaryEmbeddingKernel::forward] launches, whatever the interleaving of its
    threads, leaves in the memory of the query and of the key the tensors that
    [RotaryEmbeddingGeneric::forward] returns, for interleaved and for rotated
    embeddings, for heads larger than the rotary dimension and for views with any token
    stride, and changes nothing else; the grid can always finish. *)
Theorem rotary_kernel_is_generic {F A T : Type} `{ArithLaws A} `{Angles F A}
    (inv_freq : list F) (max_pos : nat) (il : bool) (q k : View) (positions : list nat) (m : list A) (s : T) :
  0 < length inv_freq →
  2 * length inv_freq ≤ v_dim q → v_dim k = v_dim q → 0 < v_heads q →
  v_tokens q = length positions → v_tokens k = length positions → Forall (λ p, p < max_pos) positions →
  v_strides q = (v_stride q, v_dim q, 1) → v_strides k = (v_stride k, v_dim k, 1) →
  NoDup (addresses q ++ addresses k) → Forall (λ a, a < length m) (addresses q ++ addresses k) →
  ∃ threads q' k',
    kernel_forward (RotaryEmbeddingKernel_new (2 * length inv_freq) max_pos inv_freq il) q k positions s = Ok (threads, s) ∧
    generic_forward (RotaryEmbeddingGeneric_new (2 * length inv_freq) max_pos inv_freq il)
      (view_rows q m) (view_rows k m) positions s = Ok ((q', k'), s) ∧
    (∃ m', simt_runs threads m m') ∧
    ∀ m', simt_runs threads m m' →
      view_rows q m' = q' ∧ view_rows k m' = k' ∧ ∀ a, a ∉ addresses q ++ addresses k → m' !! a = m !! a.
Proof.
  intros Hn Hd Hkd Hh Hqt Hkt Hp Hqs Hks Hnd Hin.
  assert (h_dim (view_rows q m) = v_dim q) as Ehq by (unfold view_rows; by destruct (v_strides q) as [[s0 s1] s2]).
  assert (h_dim (view_rows k m) = v_dim k) as Ehk by (unfold view_rows; by destruct (v_strides k) as [[s0 s1] s2]).
  destruct (generic_ok il _ max_pos inv_freq positions (view_rows q m) (view_rows k m) s eq_refl Hp) as (q'&k'&Eg&Gq&Gk).
  { lia. }
  { lia. }
  { rewrite Ehq, <-Hqt. apply view_rows_ok. }
  { rewrite Ehk, <-Hkt. apply view_rows_ok. }
  set (e := RotaryEmbeddingKernel_new (2 * length inv_freq) max_pos inv_freq il).
  set (block := Nat.min 1024 (v_heads q * (2 * length inv_freq)) / 2).
  assert (0 < block) as Hb by (unfold block; apply Nat.div_str_pos; nia).
  eexists _, _, _. split_and!; [| exact Eg | |].
  - unfold kernel_forward. unfold mbind, M_bind, check. rewrite (proj2 (Nat.leb_le (rotary_dim_ e) (v_dim q)) Hd). cbn [mret M_ret].
    by apply (launch_annotated q k positions (concat (cos_sin_cache_ e)) il).
  - apply simt_completes. apply rotary_within; [done|done|done|congruence|done|done].
  - intros m' Hr. assert (v_tokens k = v_tokens q) as Hkq by congruence.
    pose proof (grid_separate q k positions (concat (cos_sin_cache_ e)) il _ Hn Hd Hkd Hkq Hnd) as Hs.
    pose proof (annotated_perm q k positions (concat (cos_sin_cache_ e)) il (length inv_freq) block Hb) as Hperm.
    apply (simt_runs_exec (annotated q k positions (concat (cos_sin_cache_ e)) il (length inv_freq) block)) in Hr; [|by rewrite Hperm].
    rewrite (exec_all_perm _ _ m (proj2 (separate_proper _ _ Hperm) Hs) Hperm) in Hr.
    assert (∀ v d Y m', h_dim (view_rows v m') = d → h_rows (view_rows v m') = Y → view_rows v m' = mkHeads d Y) as Hmk.
    { intros v d Y m0 <- <-. by destruct (view_rows v m0). }
    split_and!.
    + apply Hmk; [rewrite Ehq; unfold view_rows; by destruct (v_strides q) as [[s0 s1] s2]|].
      eapply (view_embedded inv_freq max_pos q k positions il q m m'); eauto.
    + apply Hmk; [rewrite Ehk; unfold view_rows; by destruct (v_strides k) as [[s0 s1] s2]|].
      eapply (view_embedded inv_freq max_pos q k positions il k m m'); eauto.
    + intros a [Ha Hb']%not_elem_of_app. eapply (rotary_other q k positions (concat (cos_sin_cache_ e)) il (length inv_freq)); eauto.
Qed.

(** Two tokens of a fused projection: rows of eight numbers, one query head and one
    key head of three, and two that are neither. *)
Definition toy_query : View := mkView 0 (2, 1, 3) (8, 3, 1).
Definition toy_key : View := mkView 3 (2, 1, 3) (8, 3, 1).
#[local] Instance float32_arith : Arith float := float_arith 24 128.
#[local] Instance float32_laws : ArithLaws float := float_arith_laws 24 128.
#[local] Instance toy_angles : Angles Z float := {
  a_of_nat := Z.of_nat;
  a_mul := Z.mul;
  a_cos := λ x, (1 - x)%Z;
  a_sin := id;
  a_to := float_of_Z;
}.
Definition toy_memory : list float := float_of_Z <$> seqZ 1 16.

Example rotary_kernel_is_generic_witness :
  let e := RotaryEmbeddingKernel_new 2 9 [3%Z] true in
  ∃ threads q' k', kernel_forward e toy_query toy_key [0; 2] () = Ok (threads, ()) ∧
    generic_forward (RotaryEmbeddingGeneric_new 2 9 [3%Z] true) (view_rows toy_query toy_memory) (view_rows toy_key toy_memory) [0; 2] () =
      Ok ((q', k'), ()) ∧
    h_rows q' = [[float_of_Z <$> [1; 2; 3]]; [float_of_Z <$> [-105; 4; 11]]]%Z ∧ ∃ m', simt_runs threads toy_memory m'.
Proof.
  destruct (rotary_kernel_is_generic [3%Z] 9 true toy_query toy_key [0; 2] toy_memory ()) as (threads&q'&k'&E1&E2&Hr&_).
  - cbn. lia.
  - cbn. lia.
  - done.
  - cbn. lia.
  - done.
  - done.
  - repeat constructor; lia.
  - done.
  - done.
  - refine (bool_decide_eq_true_1 _ _). vm_compute. reflexivity.
  - refine (bool_decide_eq_true_1 _ _). vm_compute. reflexivity.
  - exists threads, q', k'. split_and!; [exact E1|exact E2| |exact Hr].
    cbn [length Nat.mul Nat.add] in E2.
    assert (Ok ((q', k'), ()) = generic_forward (RotaryEmbeddingGeneric_new 2 9 [3%Z] true) (view_rows toy_query toy_memory) (view_rows toy_key toy_memory) [0; 2] ()) as E by (by rewrite E2).
    vm_compute in E. injection E as -> _. vm_compute. done.
Defined.
