(* ===== verification/Attention.v ===== *)
(** * Attention

    [src/layers/attention/attention.cpp], [ref_handler.cpp] and [handler.cpp].  The
    kernels behind [ScaleAttnHandler] are not modelled; the handler of the other devices
    is the reference handler, which computes with libtorch.  [A] is the type of the
    elements and [F] that of the 32-bit floats of the scores. *)

From Stdlib Require Import SpecFloat PeanoNat.
From stdpp Require Import base tactics list strings.
From S2P Require Import Prelude Types Sequence Tensor StateDict ChatTemplate Kernels Batch Linear Rotary.

(** What the reference handler uses of libtorch: the contraction of [einsum], [softmax]
    over a row, and the arithmetic of the elements. *)
Class AttnOps (A F : Type) := {
  at_float : A → F;
  at_cast : F → A;
  at_of_nat : nat → A;
  f_null : F;
  f_neg_inf : F;
  f_plus : F → F → F;
  f_times : F → F → F;
  f_quot : F → F → F;
  f_tanh : F → F;
  f_positive : F → bool;
  f_dot : list F → list F → F;
  f_softmax : list F → list F;
}.

Section ref_handler.
Context {F A : Type} `{AttnOps A F}.

(** ** Shapes *)

(** [slice(0, start, end)]: negative bounds count from the end, all are clamped. *)
Definition clamp_index (n : nat) (i : Z) : nat :=
  Z.to_nat (Z.min (if decide (i < 0)%Z then Z.max 0 (i + Z.of_nat n) else i) (Z.of_nat n)).
Definition slice_rows {B} (start stop : Z) (l : list B) : list B :=
  let s := clamp_index (length l) start in
  take (clamp_index (length l) stop - s) (drop s l).

(** [output.index_put_({Slice(start, stop)}, rows)]. *)
Definition put_rows {S B} (start stop : Z) (rows l : list B) : M S (list B) :=
  let s := clamp_index (length l) start in
  let e := Nat.max s (clamp_index (length l) stop) in
  _ ← check (bool_decide (length rows = e - s)) "shape mismatch: value tensor cannot be broadcast to indexing result";
  mret (take s l ++ rows ++ drop e l).

(** Two operands whose sizes are equal, or one of which has size one. *)
Definition broadcast {S B C} (x : list B) (y : list C) : M S (list B * list C) :=
  if decide (length x = length y) then mret (x, y)
  else match x, y with
       | [a], _ => mret (replicate (length y) a, y)
       | _, [b] => mret (x, replicate (length x) b)
       | _, _ => fail (CheckFailed "The size of tensor a must match the size of tensor b")
       end.

(** ** masked_self_attention, for one query and one head *)

(** The score of a key: scaled, and capped if needed. *)
Definition score (sm_scale logits_soft_cap : F) (q k : list A) : F :=
  let s := f_times (f_dot (at_float <$> q) (at_float <$> k)) sm_scale in
  if f_positive logits_soft_cap then f_times (f_tanh (f_quot s logits_soft_cap)) logits_soft_cap else s.

(** [scores += alibi_biases], in place. *)
Definition add_alibi {S} (bias : option (list F)) (scores : list F) : M S (list F) :=
  match bias with
  | None => mret scores
  | Some b =>
      _ ← check (bool_decide (length b = length scores) || bool_decide (length b = 1))
            "output with shape doesn't match the broadcast shape";
      '(s, b) ← broadcast scores b;
      mret (zip_with f_plus s b)
  end.

(** Element [d] of the vectors, as floats. *)
Definition column (d : nat) (l : list (list A)) : list F := omap (λ v, at_float <$> v !! d) l.

Definition attend {S} (head_dim : nat) (sm_scale logits_soft_cap : F) (bias : option (list F)) (mask : list bool)
    (q : list A) (keys values : list (list A)) : M S (list A) :=
  scores ← add_alibi bias (score sm_scale logits_soft_cap q <$> keys);
  (* apply causal mask *)
  '(scores, mask) ← broadcast scores mask;
  let scores := f_softmax (zip_with (λ s (m : bool), if m then s else f_neg_inf) scores mask) in
  '(scores, values) ← broadcast scores values;
  mret ((λ d, at_cast (f_dot scores (column d values))) <$> seq 0 head_dim).

(** The vectors of head [h]. *)
Definition head_of {B} (h : nat) (rows : list (list (list B))) : list (list B) := (λ r, default [] (r !! h)) <$> rows.

(** ** varlen_masked_self_attention *)

(** [triu] keeps [j - i >= diagonal], [tril] keeps [j - i <= diagonal]. *)
Definition attn_mask (q_len kv_len sliding_window : Z) (i : nat) : list bool :=
  (λ j, (bool_decide (sliding_window < 0)%Z || bool_decide (kv_len - q_len - sliding_window ≤ Z.of_nat j - Z.of_nat i)%Z) &&
        bool_decide (Z.of_nat j - Z.of_nat i ≤ kv_len - q_len)%Z) <$> seq 0 (Z.to_nat kv_len).

(** The bias of a head: the distances times its slope. *)
Definition alibi_bias (kv_len : Z) (slope : F) : list F :=
  (λ j, f_times (at_float (at_of_nat j)) slope) <$> seq 0 (Z.to_nat kv_len).

Definition alibi_biases {S} (n_heads : nat) (kv_len : Z) (alibi_slopes : option (list F)) : M S (option (list (list F))) :=
  match alibi_slopes with
  | None => mret None
  | Some slopes =>
      _ ← check (bool_decide (length slopes = n_heads)) "slopes.size(0) == n_heads";
      mret (Some (alibi_bias kv_len <$> slopes))
  end.

(** Repeat the heads of the keys and of the values. *)
Definition repeat_heads {S} (n_heads n_kv_heads : nat) (x : list (list (list A))) : M S (list (list (list A))) :=
  if decide (n_heads = n_kv_heads) then mret x
  else
    _ ← divisible n_heads n_kv_heads "n_heads % n_kv_heads == 0";
    mret (repeat_interleave (n_heads / n_kv_heads) <$> x).

(** The body of the loop over the sequences. *)
Definition varlen_step (head_dim n_heads n_kv_heads : nat) (query key value : list (list (list A))) (q_cu_lens kv_cu_lens : list Z)
    (alibi_slopes : option (list F)) (sm_scale logits_soft_cap : F) (sliding_window : Z) (i : nat) : M (list (list (list A))) unit :=
  q_start ← from_option_or OutOfBounds (q_cu_lens !! i);
  q_end ← from_option_or OutOfBounds (q_cu_lens !! S i);
  kv_start ← from_option_or OutOfBounds (kv_cu_lens !! i);
  kv_end ← from_option_or OutOfBounds (kv_cu_lens !! S i);
  let q_len := (q_end - q_start)%Z in
  let kv_len := (kv_end - kv_start)%Z in
  let _query := slice_rows q_start q_end query in
  let _key := slice_rows kv_start kv_end key in
  let _value := slice_rows kv_start kv_end value in
  _ ← check (bool_decide (q_len ≤ kv_len)%Z) "kv_len >= q_len";
  _key ← repeat_heads n_heads n_kv_heads _key;
  _value ← repeat_heads n_heads n_kv_heads _value;
  _ ← check (bool_decide (0 ≤ q_len)%Z) "Trying to create tensor with negative dimension";
  _ ← check (bool_decide (Z.of_nat (length _query) = q_len) || bool_decide (q_len = 1)%Z) "The size of tensor a must match the size of tensor b";
  bias ← alibi_biases n_heads kv_len alibi_slopes;
  attn ← map_each (λ p : nat * list (list A),
    map_each (λ hq : nat * list A,
      attend head_dim sm_scale logits_soft_cap (bias ≫= λ b, b !! hq.1) (attn_mask q_len kv_len sliding_window p.1)
        hq.2 (head_of hq.1 _key) (head_of hq.1 _value)) (zip (seq 0 n_heads) p.2)) (zip (seq 0 (length _query)) _query);
  output ← get;
  output ← put_rows q_start q_end attn output;
  put output.

Definition varlen_masked_self_attention (head_dim n_heads n_kv_heads : nat) (query key value : list (list (list A)))
    (q_cu_seq_lens kv_cu_seq_lens : list Z) (alibi_slopes : option (list F)) (sm_scale logits_soft_cap : F) (sliding_window : Z) :
    M (list (list (list A))) unit :=
  _ ← check (bool_decide (length key = length value)) "key.size(0) == value.size(0)";
  n_seqs ← sub_size (length q_cu_seq_lens) 1;
  for_each (varlen_step head_dim n_heads n_kv_heads query key value q_cu_seq_lens kv_cu_seq_lens alibi_slopes
    sm_scale logits_soft_cap sliding_window) (seq 0 n_seqs).

(** ** RefHandler *)

(** A [RotaryEmbedding]: the object behind the pointer, by its [forward]. *)
Definition RotaryModule : Type := Heads A → Heads A → list nat → result (Heads A * Heads A).

Record RefHandler := mkRefHandler {
  sm_scale_ : F;
  logits_soft_cap_ : F;
  pos_emb_ : option RotaryModule;
  alibi_slopes_ : option (list F);
}.

(** [RefHandler::apply_pos_emb]; the positions may be undefined. *)
Definition apply_pos_emb {S} (h : RefHandler) (query key : Heads A) (positions : option (list nat)) : M S (Heads A * Heads A) :=
  match positions, pos_emb_ h with
  | Some positions, Some pos_emb => of_result (pos_emb query key positions)
  | _, _ => mret (query, key)
  end.

(** [RefHandler::append_kv_cache]. *)
Definition append_kv_cache (key value : Heads A) (new_cache_slots : list Z) : M (KVCache (A := A)) unit :=
  c ← get;
  if kv_empty c then mret tt
  else set_kv_cache new_cache_slots (@concat A <$> h_rows key) (@concat A <$> h_rows value).

(** [RefHandler::batch_decode]; the rows of the cache have [n_kv_heads] heads. *)
Definition batch_decode (h : RefHandler) (n_heads n_kv_heads : nat) (query : Heads A) (input_params : ModelInput) (sliding_window : Z) :
    M (list (list (list A)) * KVCache (A := A)) unit :=
  (* retrieval key and value from kv_cache *)
  '(key, value) ← on_snd (get_kv_cache (mi_new_cache_slots input_params));
  let heads := map (unflatten (h_dim query) n_kv_heads) in
  on_fst (varlen_masked_self_attention (h_dim query) n_heads n_kv_heads (h_rows query) (heads key) (heads value)
    (mi_q_cu_seq_lens input_params) (mi_kv_cu_seq_lens input_params) (alibi_slopes_ h) (sm_scale_ h) (logits_soft_cap_ h) sliding_window).

(** ** AttentionImpl *)

Record AttentionImpl := mkAttention {
  n_heads_ : nat;
  att_n_kv_heads_ : nat;
  att_head_dim_ : nat;
  handler_ : RefHandler;
  sliding_window_ : Z;
}.

Definition AttentionImpl_new {S} (n_heads n_kv_heads head_dim : nat) (handler : option RefHandler) (sliding_window : Z) : M S AttentionImpl :=
  h ← match handler with None => fail (CheckFailed "handler_ != nullptr") | Some h => mret h end;
  _ ← divisible n_heads n_kv_heads "n_heads not divisible by n_kv_heads";
  mret (mkAttention n_heads n_kv_heads head_dim h sliding_window).

(** [view({n_tokens, n_heads, head_dim})] of a matrix. *)
Definition view_heads {S} (n_heads head_dim : nat) (t : Tensor A) : M S (Heads A) :=
  match t with
  | Mat c rows =>
      _ ← check (bool_decide (c = n_heads * head_dim)) "shape is invalid for input";
      mret (mkHeads head_dim (unflatten head_dim n_heads <$> rows))
  | Vec _ => fail (CheckFailed "shape is invalid for input")
  end.

(** [AttentionImpl::forward]; [memory] is what the new output tensor holds. *)
Definition attention_forward (a : AttentionImpl) (memory : list (list (list A))) (query key value : Tensor A)
    (positions : option (list nat)) (input_params : ModelInput) : M (KVCache (A := A)) (Tensor A) :=
  q ← view_heads (n_heads_ a) (att_head_dim_ a) query;
  k ← view_heads (att_n_kv_heads_ a) (att_head_dim_ a) key;
  v ← view_heads (att_n_kv_heads_ a) (att_head_dim_ a) value;
  (* apply positional embedding *)
  '(q, k) ← apply_pos_emb (handler_ a) q k positions;
  (* append key and value to kv_cache *)
  _ ← append_kv_cache k v (mi_new_cache_slots input_params);
  c ← get;
  '(output, c) ← of_result (match batch_decode (handler_ a) (n_heads_ a) (att_n_kv_heads_ a) q input_params (sliding_window_ a) (memory, c) with
                            | Ok (_, s) => Ok s
                            | Fail e => Fail e
                            end);
  _ ← put c;
  (* reshape output to [n_tokens, n_heads * head_dim] *)
  mret (Mat (n_heads_ a * att_head_dim_ a) (@concat A <$> output)).
End ref_handler.
Arguments RefHandler : clear implicits.
Arguments AttentionImpl : clear implicits.

(** ** The choice of the handler *)

(** The members of [ModelArgs] that it uses. *)
Record AttentionArgs := mkAttentionArgs {
  hidden_size : nat;
  ma_n_heads : nat;
  ma_head_dim : nat;
  ma_rotary_dim : nat;
  rotary_pct : float;
  attn_scalar : option float;
  attn_logit_soft_cap : float;
  rope_theta : float;
  rope_scaling_rope_type : text;
  rope_scaling_factor : float;
  rope_scaling_low_freq_factor : float;
  rope_scaling_high_freq_factor : float;
  rope_scaling_original_max_position_embeddings : Z;
  ma_max_position_embeddings : nat;
}.

(** [RefHandler] or [ScaleAttnHandler], with the same arguments. *)
Inductive AttentionHandler (A : Type) :=
  | Reference (h : RefHandler float A)
  | ScaleAttn (h : RefHandler float A).
Arguments Reference {A} _.
Arguments ScaleAttn {A} _.

Section create.
Context {A : Type} `{Arith A} `{Angles float A} {tl : TemplateLib} (pow : float → float → float).
(** The module for CUDA devices. *)
Context (kernel_module : RotaryEmbedding A → RotaryModule (A := A)).

(** [compute_inv_freq]. *)
Definition compute_inv_freq {S} (rotary_dim : nat) (args : AttentionArgs) : M S (list float) :=
  inv_freq ← compute_default_inv_freq pow rotary_dim (rope_theta args);
  if iequals (rope_scaling_rope_type args) (text_of "llama3") then
    apply_llama3_rope_scaling inv_freq (rope_scaling_factor args) (rope_scaling_low_freq_factor args)
      (rope_scaling_high_freq_factor args) (rope_scaling_original_max_position_embeddings args)
  else
    _ ← check (bool_decide (rope_scaling_rope_type args = [])) "Unsupported rope scaling type";
    mret inv_freq.

(** [1.0f / std::sqrt(attn_scale)]. *)
Definition softmax_scale (args : AttentionArgs) (head_dim : nat) : float :=
  SFdiv 24 128 (float_of_Z 1) (SFsqrt 24 128 (default (float_of_Z (Z.of_nat head_dim)) (attn_scalar args))).

(** The flag, then the device. *)
Definition choose_handler {S} (attention_handler : text) (is_cuda : bool) (h : RefHandler float A) : M S (AttentionHandler A) :=
  if iequals attention_handler (text_of "pytorch") then mret (Reference h)
  else if iequals attention_handler (text_of "scale_attn") then
    _ ← check is_cuda "scale_attn only supports cuda device";
    mret (ScaleAttn h)
  else mret (if is_cuda then ScaleAttn h else Reference h).

(** [AttentionHandler::create_handler_with_alibi]. *)
Definition create_handler_with_alibi {S} (attention_handler : text) (is_cuda : bool) (args : AttentionArgs) (alibi_slopes : option (list float)) :
    M S (AttentionHandler A) :=
  _ ← (if decide (ma_n_heads args = 0) then fail OutOfBounds else mret tt);
  let head_dim := hidden_size args / ma_n_heads args in
  choose_handler attention_handler is_cuda
    (mkRefHandler (softmax_scale args head_dim) (attn_logit_soft_cap args) None alibi_slopes).

(** The conversion of a non-negative float to [int64_t]. *)
Definition float_to_nat {S} (f : float) : M S nat :=
  match f with
  | S754_zero _ => mret 0
  | S754_finite false m e => mret (Z.to_nat (Z.shiftl (Z.pos m) e))
  | _ => fail OutOfBounds
  end.

(** [AttentionHandler::create_handler_with_rope]. *)
Definition create_handler_with_rope {S} (attention_handler : text) (is_cuda disable_custom_kernels : bool) (args : AttentionArgs) (interleaved : bool) :
    M S (AttentionHandler A) :=
  let head_dim := ma_head_dim args in
  let rotary_dim := if decide (0 < ma_rotary_dim args) then ma_rotary_dim args else head_dim in
  rotary_dim ← float_to_nat (SFmul 24 128 (float_of_Z (Z.of_nat rotary_dim)) (rotary_pct args));
  inv_freq ← compute_inv_freq rotary_dim args;
  let pos_emb := match RotaryEmbedding_create rotary_dim (ma_max_position_embeddings args) inv_freq interleaved is_cuda disable_custom_kernels with
                 | inl e => λ q k p, match generic_forward e q k p tt with Ok (r, _) => Ok r | Fail e => Fail e end
                 | inr e => kernel_module e
                 end in
  choose_handler attention_handler is_cuda (mkRefHandler (softmax_scale args head_dim) (attn_logit_soft_cap args) (Some pos_emb) None).
End create.
