(* ===== verification/AttentionProps.v ===== *)
(** * Properties of the reference attention

    On whole prompts the reference handler computes causal attention over each sequence;
    when a sequence has tokens in the cache it does not read them. *)

From Stdlib Require Import PeanoNat.
From stdpp Require Import base tactics list strings.
From S2P Require Import Prelude Types Sequence Tensor StateDict Kernels Batch Linear LinearInv.
From S2P Require Import FusedProps KernelProps Rotary Attention.

(** A score of minus infinity gets the weight zero, and a weight of zero adds nothing. *)
Class AttnLaws (A F : Type) `{AttnOps A F} := {
  softmax_length l : length (f_softmax l) = length l;
  softmax_masked a b : a ++ b ≠ [] →
    f_softmax (a ++ f_neg_inf :: b) = take (length a) (f_softmax (a ++ b)) ++ f_null :: drop (length a) (f_softmax (a ++ b));
  dot_null a b c v d : length a = length c → f_dot (a ++ f_null :: b) (c ++ v :: d) = f_dot (a ++ b) (c ++ d);
}.

Section attention.
Context {F A : Type} `{AttnLaws A F}.
Implicit Types (keys values : list (list A)) (Q K V : list (list (list A))).

(** ** Specification *)

(** Attention of a query over the keys at [lo], ..., [lo + n - 1]. *)
Definition attention_at (head_dim : nat) (sm_scale cap : F) (slope : option F) (q : list A) keys values (lo n : nat) : list A :=
  let scores := imap (λ j k,
    let s := score sm_scale cap q k in
    match slope with
    | Some m => f_plus s (f_times (at_float (at_of_nat (lo + j))) m)
    | None => s
    end) (take n (drop lo keys)) in
  (λ d, at_cast (f_dot (f_softmax scores) (column d (take n (drop lo values))))) <$> seq 0 head_dim.

(** The first position that the token at position [p] may look at. *)
Definition window_start (sliding_window : Z) (p : nat) : nat :=
  if decide (sliding_window < 0)%Z then 0 else p - Z.to_nat sliding_window.

(** A sequence: every head of every token attends to itself and what comes before it. *)
Definition sequence_attention (head_dim n_heads n_kv_heads : nat) (slopes : option (list F)) (sm_scale cap : F) (window : Z) Q K V :
    list (list (list A)) :=
  imap (λ p, imap (λ h q,
    let lo := window_start window p in
    attention_at head_dim sm_scale cap (slopes ≫= λ l, l !! h) q
      (head_of (h / (n_heads / n_kv_heads)) K) (head_of (h / (n_heads / n_kv_heads)) V) lo (S p - lo))) Q.

(** A batch of whole prompts of the lengths [ls]. *)
Fixpoint batch_attention head_dim n_heads n_kv_heads slopes sm_scale cap window (ls : list nat) Q K V : list (list (list A)) :=
  match ls with
  | [] => []
  | n :: ls =>
      sequence_attention head_dim n_heads n_kv_heads slopes sm_scale cap window (take n Q) (take n K) (take n V) ++
      batch_attention head_dim n_heads n_kv_heads slopes sm_scale cap window ls (drop n Q) (drop n K) (drop n V)
  end.

(** [cu_seq_lens] of sequences of the lengths [ls]. *)
Fixpoint cu_lens (off : nat) (ls : list nat) : list Z :=
  Z.of_nat off :: match ls with [] => [] | n :: ls => cu_lens (off + n) ls end.

(** The vectors have [head_dim] elements. *)
Definition heads_ok (n_heads head_dim : nat) (x : list (list (list A))) : Prop :=
  Forall (λ r, length r = n_heads ∧ Forall (λ v, length v = head_dim) r) x.

(** ** One query *)

Lemma dot_window a b mid (x y z : list F) : mid ≠ [] → length x = a → length y = length mid → length z = b →
  f_dot (f_softmax (replicate a f_neg_inf ++ mid ++ replicate b f_neg_inf)) (x ++ y ++ z) = f_dot (f_softmax mid) y.
Proof using Type*.
  intros Hne <- Hy <-. induction x as [|v x IH]; cbn [app replicate length].
  - induction z as [|v z IH] using rev_ind; [by rewrite !app_nil_r|].
    rewrite length_app, Nat.add_1_r, replicate_S_end, app_assoc.
    rewrite (softmax_masked (mid ++ replicate (length z) f_neg_inf) []) by (rewrite app_nil_r; destruct mid; done).
    rewrite app_nil_r. rewrite take_ge by by rewrite softmax_length. rewrite drop_ge by by rewrite softmax_length.
    rewrite app_assoc, (dot_null _ [] _ v []) by (rewrite softmax_length, !length_app, length_replicate; lia).
    by rewrite !app_nil_r.
  - pose proof (softmax_masked [] (replicate (length x) f_neg_inf ++ mid ++ replicate (length z) f_neg_inf)) as E.
    cbn [length] in E. rewrite take_0, drop_0 in E. cbn [app] in E. rewrite E by (destruct x, mid; done).
    pose proof (dot_null [] (f_softmax (replicate (length x) f_neg_inf ++ mid ++ replicate (length z) f_neg_inf)) [] v (x ++ y ++ z)) as E'.
    cbn [app] in E'. by rewrite E'.
Qed.

Lemma column_length d l : Forall (λ v, d < length v) l → length (column (F := F) d l) = length l.
Proof using Type*.
  induction 1 as [|v l Hv _ IH]; [done|]. unfold column in *. cbn. destruct (lookup_lt_is_Some_2 v d Hv) as [x ->]. cbn. by rewrite IH.
Qed.
Lemma column_app d l l' : column (F := F) d (l ++ l') = column d l ++ column d l'.
Proof using Type*. apply omap_app. Qed.

Lemma broadcast_same {St B C} (x : list B) (y : list C) (s : St) : length x = length y → broadcast x y s = Ok ((x, y), s).
Proof. intros Hl. unfold broadcast. by rewrite decide_True. Qed.

(** The scores of all keys, with the bias. *)
Definition biased_score (sm_scale cap : F) (slope : option F) (q : list A) (j : nat) (k : list A) : F :=
  let s := score sm_scale cap q k in
  match slope with Some m => f_plus s (f_times (at_float (at_of_nat j)) m) | None => s end.

Lemma add_alibi_ok {St} sm_scale cap slope q keys (s : St) :
  add_alibi (alibi_bias (Z.of_nat (length keys)) <$> slope) (score sm_scale cap q <$> keys) s =
  Ok (imap (biased_score sm_scale cap slope q) keys, s).
Proof using Type*.
  destruct slope as [m|]; cbn [fmap option_fmap option_map add_alibi].
  - assert (length (alibi_bias (Z.of_nat (length keys)) m) = length (score sm_scale cap q <$> keys)) as Hl.
    { unfold alibi_bias. by rewrite !length_fmap, length_seq, Nat2Z.id. }
    unfold mbind, M_bind, check. rewrite (bool_decide_true (length (alibi_bias _ m) = _)) by done. cbn [orb mret M_ret].
    rewrite broadcast_same by done. unfold mret, M_ret. do 2 f_equal. apply list_eq. intros j.
    rewrite lookup_zip_with, list_lookup_fmap, list_lookup_imap. unfold alibi_bias. rewrite list_lookup_fmap, Nat2Z.id.
    destruct (keys !! j) as [k|] eqn:E; [|done]. cbn. apply lookup_lt_Some in E. by rewrite lookup_seq_lt.
  - unfold mret, M_ret. do 2 f_equal. apply list_eq. intros j. rewrite list_lookup_fmap, list_lookup_imap. done.
Qed.

Lemma take_drop_imap {B C} (f : nat → B → C) l lo n : take n (drop lo (imap f l)) = imap (λ j, f (lo + j)) (take n (drop lo l)).
Proof.
  apply list_eq. intros j. rewrite list_lookup_imap. destruct (decide (j < n)) as [Hj|Hj].
  - by rewrite !lookup_take_lt, !lookup_drop, list_lookup_imap by done.
  - by rewrite !lookup_take_ge by lia.
Qed.

(** The mask of the token at [p] leaves the window. *)
Lemma masked_window (l : list F) window p : p < length l → let lo := window_start window p in
  zip_with (λ s (m : bool), if m then s else f_neg_inf) l (attn_mask (Z.of_nat (length l)) (Z.of_nat (length l)) window p) =
  replicate lo f_neg_inf ++ take (S p - lo) (drop lo l) ++ replicate (length l - S p) f_neg_inf.
Proof.
  intros Hp lo. assert (lo ≤ p) as Hlo by (unfold lo, window_start; case_decide; lia).
  assert (length (take (S p - lo) (drop lo l)) = S p - lo) as Hmid by (rewrite length_take, length_drop; lia).
  apply list_eq. intros j. rewrite lookup_zip_with. unfold attn_mask. rewrite list_lookup_fmap, Nat2Z.id.
  destruct (decide (j < length l)) as [Hj|Hj].
  - destruct (lookup_lt_is_Some_2 l j Hj) as [x Hx]. rewrite Hx, lookup_seq_lt by done. cbn.
    assert ((bool_decide (window < 0)%Z || bool_decide (Z.of_nat (length l) - Z.of_nat (length l) - window ≤ Z.of_nat j - Z.of_nat p)%Z)
      && bool_decide (Z.of_nat j - Z.of_nat p ≤ Z.of_nat (length l) - Z.of_nat (length l))%Z = bool_decide (lo ≤ j ≤ p)) as ->.
    { unfold lo, window_start. apply eq_bool_prop_intro. rewrite !Is_true_true, andb_true_iff, orb_true_iff, !bool_decide_eq_true.
      case_decide; lia. }
    case_bool_decide as Hw.
    + rewrite lookup_app_r, length_replicate by (rewrite length_replicate; lia). rewrite lookup_app_l by lia.
      rewrite lookup_take_lt, lookup_drop by lia. replace (lo + (j - lo)) with j by lia. done.
    + destruct (decide (j < lo)) as [Hjl|Hjl].
      * rewrite lookup_app_l by (rewrite length_replicate; lia). by rewrite lookup_replicate_2.
      * rewrite lookup_app_r, length_replicate by (rewrite length_replicate; lia). rewrite lookup_app_r by lia.
        by rewrite lookup_replicate_2 by lia.
  - rewrite (lookup_ge_None_2 l) by lia. cbn. symmetry. apply lookup_ge_None_2. rewrite !length_app, !length_replicate. lia.
Qed.

Lemma attend_window {St} head_dim sm_scale cap slope window q keys values p n (s : St) : length keys = n → length values = n →
  p < n → Forall (λ v, length v = head_dim) values → let lo := window_start window p in
  attend head_dim sm_scale cap (alibi_bias (Z.of_nat n) <$> slope) (attn_mask (Z.of_nat n) (Z.of_nat n) window p) q keys values s =
  Ok (attention_at head_dim sm_scale cap slope q keys values lo (S p - lo), s).
Proof using Type*.
  intros <- Hv Hp Hd lo. assert (lo ≤ p) as Hlo by (unfold lo, window_start; case_decide; lia).
  unfold attend, mbind, M_bind. rewrite add_alibi_ok.
  assert (length (imap (biased_score sm_scale cap slope q) keys) = length keys) as Hl by apply length_imap.
  rewrite broadcast_same by (rewrite Hl; unfold attn_mask; by rewrite length_fmap, length_seq, Nat2Z.id).
  rewrite <-Hl at 1 2. rewrite masked_window by lia. fold lo.
  set (mid := take (S p - lo) (drop lo (imap (biased_score sm_scale cap slope q) keys))).
  assert (length mid = S p - lo) as Hmid by (unfold mid; rewrite length_take, length_drop; lia).
  rewrite broadcast_same by (rewrite softmax_length, !length_app, !length_replicate; lia).
  unfold mret, M_ret. do 2 f_equal. unfold attention_at. apply list_fmap_ext. intros i d Hi. apply lookup_seq in Hi as [-> Hi].
  rewrite Nat.add_0_l in *. f_equal.
  assert (∀ l, Forall (λ v, length v = head_dim) l → Forall (λ v : list A, i < length v) l) as Hdim.
  { intros l Hfl. eapply Forall_impl; [exact Hfl|]. cbn. lia. }
  assert (values = take lo values ++ take (S p - lo) (drop lo values) ++ drop (S p) values) as Esplit.
  { rewrite <-(take_drop lo values) at 1. f_equal. rewrite <-(take_drop (S p - lo) (drop lo values)) at 1. f_equal.
    rewrite drop_drop. f_equal. lia. }
  rewrite Esplit at 1. rewrite !column_app.
  rewrite dot_window.
  - unfold mid. rewrite take_drop_imap. done.
  - intros E. rewrite E in Hmid. cbn in Hmid. lia.
  - rewrite column_length by by apply Hdim, Forall_take. rewrite length_take. lia.
  - rewrite column_length by by apply Hdim, Forall_take, Forall_drop. rewrite length_take, length_drop. lia.
  - rewrite column_length by by apply Hdim, Forall_drop. rewrite length_drop. lia.
Qed.
(** ** One sequence of a batch *)

Lemma map_each_seq {St B C} (f : nat * B → M St C) (g : nat → B → C) (l : list B) n (s : St) : length l = n →
  (∀ i x, l !! i = Some x → f (i, x) s = Ok (g i x, s)) → map_each f (zip (seq 0 n) l) s = Ok (imap g l, s).
Proof.
  intros <-. assert (∀ off, (∀ i x, l !! i = Some x → f (off + i, x) s = Ok (g (off + i) x, s)) →
    map_each f (zip (seq off (length l)) l) s = Ok (imap (λ i, g (off + i)) l, s)) as Hoff; [|apply (Hoff 0)].
  induction l as [|x l IH]; intros off Hf; [done|]. cbn [length seq zip zip_with map_each]. unfold mbind, M_bind.
  pose proof (Hf 0 x eq_refl) as Hz. rewrite Nat.add_0_r in Hz. rewrite Hz. rewrite IH.
  - cbn [mret M_ret imap]. rewrite Nat.add_0_r. unfold mret, M_ret. do 3 f_equal. apply imap_ext. intros i y _. cbn. f_equal. lia.
  - intros i y Hi. pose proof (Hf (S i) y Hi) as Hnext. replace (off + S i) with (S off + i) in Hnext by lia. done.
Qed.

Lemma clamp_index_nat n i : clamp_index n (Z.of_nat i) = Nat.min i n.
Proof. unfold clamp_index. rewrite decide_False by lia. lia. Qed.

Lemma slice_mid {B} (x y z : list B) off n : length x = off → length y = n →
  slice_rows (Z.of_nat off) (Z.of_nat (off + n)) (x ++ y ++ z) = y.
Proof.
  intros <- <-. unfold slice_rows. rewrite !clamp_index_nat, !length_app, !Nat.min_l by lia.
  replace (length x + length y - length x) with (length y) by lia. by rewrite drop_app_length, take_app_length.
Qed.

Lemma put_mid {St B} (x y y' z : list B) off n (s : St) : length x = off → length y = n → length y' = n →
  put_rows (Z.of_nat off) (Z.of_nat (off + n)) y' (x ++ y ++ z) s = Ok (x ++ y' ++ z, s).
Proof.
  intros <- <- Hy'. unfold put_rows. rewrite !clamp_index_nat, !length_app, !Nat.min_l, Nat.max_r by lia.
  unfold mbind, M_bind, check. rewrite bool_decide_true by lia. cbn [mret M_ret].
  rewrite take_app_length. rewrite (app_assoc x y z) at 1. rewrite drop_app_length' by (rewrite length_app; lia). done.
Qed.

Lemma repeat_heads_ok {St} n_heads n_kv (x : list (list (list A))) (s : St) : n_kv ≠ 0 → n_heads `mod` n_kv = 0 →
  ∃ x', repeat_heads n_heads n_kv x s = Ok (x', s) ∧ length x' = length x ∧
    ∀ h, h < n_heads → head_of h x' = head_of (h / (n_heads / n_kv)) x.
Proof.
  intros Hz Hm. unfold repeat_heads. case_decide as He.
  - subst. exists x. split_and!; [done|done|]. intros h Hh. by rewrite Nat.div_same, Nat.div_1_r.
  - unfold mbind, M_bind. rewrite divisible_ok by done. eexists. split_and!; [done|by rewrite length_fmap|].
    intros h Hh. unfold head_of. rewrite <-list_fmap_compose. apply list_fmap_ext. intros i r _. cbn.
    rewrite repeat_interleave_lookup; [done|]. pose proof (Nat.div_mod_eq n_heads n_kv). intros E. rewrite E in *. lia.
Qed.

Lemma head_of_length {B} h (x : list (list (list B))) : length (head_of h x) = length x.
Proof. apply length_fmap. Qed.

Lemma head_of_dims n_kv head_dim (x : list (list (list A))) h : heads_ok n_kv head_dim x → h < n_kv →
  Forall (λ v, length v = head_dim) (head_of h x).
Proof.
  intros Hx Hh. apply Forall_fmap. eapply Forall_impl; [exact Hx|]. intros r [Hl Hv]. cbn.
  destruct (lookup_lt_is_Some_2 r h) as [v Hlv]; [lia|]. rewrite Hlv. by apply (Forall_lookup_1 _ _ _ _ Hv Hlv).
Qed.

Section step.
Context (head_dim n_heads n_kv : nat) (slopes : option (list F)) (sm_scale cap : F) (window : Z).
Context (Hkv : n_kv ≠ 0) (Hmod : n_heads `mod` n_kv = 0) (Hslopes : ∀ l, slopes = Some l → length l = n_heads).
Abbreviation spec := (sequence_attention head_dim n_heads n_kv slopes sm_scale cap window).

Lemma kv_head_lt h : h < n_heads → h / (n_heads / n_kv) < n_kv.
Proof using Hkv Hmod.
  intros Hh. pose proof (Nat.div_mod_eq n_heads n_kv). apply Nat.Div0.div_lt_upper_bound. nia.
Qed.

Lemma varlen_step_ok i off n q_cu kv_cu Q0 Qi Q1 K0 Ki K1 V0 Vi V1 O0 Oi O1 :
  q_cu !! i = Some (Z.of_nat off) → q_cu !! S i = Some (Z.of_nat (off + n)) →
  kv_cu !! i = Some (Z.of_nat off) → kv_cu !! S i = Some (Z.of_nat (off + n)) →
  length Q0 = off → length K0 = off → length V0 = off → length O0 = off →
  length Qi = n → length Ki = n → length Vi = n → length Oi = n →
  heads_ok n_heads head_dim Qi → heads_ok n_kv head_dim Vi →
  varlen_step head_dim n_heads n_kv (Q0 ++ Qi ++ Q1) (K0 ++ Ki ++ K1) (V0 ++ Vi ++ V1) q_cu kv_cu slopes sm_scale cap window i
    (O0 ++ Oi ++ O1) = Ok (tt, O0 ++ spec Qi Ki Vi ++ O1).
Proof using Type*.
  intros C1 C2 C3 C4 L1 L2 L3 L4 L5 L6 L7 L8 HQ HV. set (out := O0 ++ Oi ++ O1).
  unfold varlen_step. unfold mbind, M_bind. rewrite C1, C2, C3, C4. cbn [from_option_or mret M_ret].
  replace (Z.of_nat (off + n) - Z.of_nat off)%Z with (Z.of_nat n) by lia. unfold check.
  rewrite (bool_decide_true (Z.of_nat n ≤ Z.of_nat n)%Z) by done. rewrite !slice_mid by done.
  cbn [mret M_ret]. destruct (repeat_heads_ok n_heads n_kv Ki out Hkv Hmod) as (K'&->&LK&HK').
  destruct (repeat_heads_ok n_heads n_kv Vi out Hkv Hmod) as (V'&->&LV&HV').
  rewrite (bool_decide_true (0 ≤ Z.of_nat n)%Z) by lia. rewrite (bool_decide_true (Z.of_nat (length Qi) = _)) by lia. cbn [orb mret M_ret].
  assert (alibi_biases n_heads (Z.of_nat n) slopes out = Ok ((λ l, alibi_bias (Z.of_nat n) <$> l) <$> slopes, out)) as ->.
  { unfold alibi_biases. destruct slopes as [l|]; [|done]. unfold mbind, M_bind, check. by rewrite bool_decide_true by by apply Hslopes. }
  rewrite (map_each_seq _ (λ p, imap (λ h q, attention_at head_dim sm_scale cap (slopes ≫= λ l, l !! h) q
      (head_of (h / (n_heads / n_kv)) Ki) (head_of (h / (n_heads / n_kv)) Vi) (window_start window p) (S p - window_start window p)))); [|done|].
  - unfold get. fold (spec Qi Ki Vi). unfold out. rewrite put_mid; [done|done|done|]. unfold sequence_attention. by rewrite length_imap.
  - intros p r Hr. apply map_each_seq; [by apply (Forall_lookup_1 _ _ _ _ HQ Hr)|]. intros h q Hq. cbn [fst snd].
    pose proof (lookup_lt_Some _ _ _ Hr) as Hp. pose proof (lookup_lt_Some _ _ _ Hq) as Hh.
    assert (length r = n_heads) as Hlr by by apply (Forall_lookup_1 _ _ _ _ HQ Hr).
    rewrite HK', HV' by lia.
    match goal with |- attend _ _ _ ?b _ _ _ _ _ = _ => assert (b = alibi_bias (Z.of_nat n) <$> (slopes ≫= λ l, l !! h)) as -> end.
    { destruct slopes as [l|]; [|done]. cbn. by rewrite list_lookup_fmap. }
    apply attend_window; [by rewrite head_of_length|by rewrite head_of_length|lia|]. eapply head_of_dims; [exact HV|]. apply kv_head_lt. lia.
Qed.

Lemma drop_cu i off ls (cu : list Z) : drop i cu = cu_lens off ls → cu !! i = Some (Z.of_nat off) ∧
  ∀ n ls', ls = n :: ls' → cu !! S i = Some (Z.of_nat (off + n)) ∧ drop (S i) cu = cu_lens (off + n) ls'.
Proof.
  intros Hd. assert (∀ j, cu !! (i + j) = cu_lens off ls !! j) as Hl by (intros j; by rewrite <-Hd, lookup_drop).
  split; [rewrite <-(Nat.add_0_r i), Hl; by destruct ls|]. intros n ls' ->. split.
  - rewrite <-Nat.add_1_r, Hl. cbn. by destruct ls'.
  - replace (S i) with (i + 1) by lia. rewrite <-drop_drop, Hd. done.
Qed.

(** The loop over the sequences. *)
Lemma varlen_loop ls : ∀ i off cu Q0 Q1 K0 K1 V0 V1 O0 O1, drop i cu = cu_lens off ls →
  length Q0 = off → length K0 = off → length V0 = off → length O0 = off →
  length Q1 = sum_list ls → length K1 = sum_list ls → length V1 = sum_list ls → length O1 = sum_list ls →
  heads_ok n_heads head_dim Q1 → heads_ok n_kv head_dim V1 →
  for_each (varlen_step head_dim n_heads n_kv (Q0 ++ Q1) (K0 ++ K1) (V0 ++ V1) cu cu slopes sm_scale cap window) (seq i (length ls)) (O0 ++ O1) =
  Ok (tt, O0 ++ batch_attention head_dim n_heads n_kv slopes sm_scale cap window ls Q1 K1 V1).
Proof using Type*.
  induction ls as [|n ls IH]; intros i off cu Q0 Q1 K0 K1 V0 V1 O0 O1 Hd L1 L2 L3 L4 L5 L6 L7 L8 HQ HV.
  - cbn in *. destruct O1; [done|done].
  - destruct (drop_cu _ _ _ _ Hd) as [C1 C2]. destruct (C2 n ls eq_refl) as [C3 C4]. cbn [length seq for_each batch_attention].
    change (sum_list (n :: ls)) with (n + sum_list ls) in *.
    assert (∀ {B} (l : list B), length l = n + sum_list ls → length (take n l) = n ∧ length (drop n l) = sum_list ls) as Hlen.
    { intros B l Hl. rewrite length_take, length_drop. lia. }
    destruct (Hlen _ Q1 L5) as [T1 D1]. destruct (Hlen _ K1 L6) as [T2 D2]. destruct (Hlen _ V1 L7) as [T3 D3]. destruct (Hlen _ O1 L8) as [T4 D4].
    assert (∀ {B} (l0 l : list B), l0 ++ l = l0 ++ take n l ++ drop n l) as Hsplit by (intros B l0 l; by rewrite take_drop).
    unfold mbind, M_bind. rewrite (Hsplit _ Q0 Q1), (Hsplit _ K0 K1), (Hsplit _ V0 V1), (Hsplit _ O0 O1).
    rewrite (varlen_step_ok i off n) by (done || by apply Forall_take).
    rewrite !app_assoc. rewrite (IH (S i) (off + n)); rewrite ?length_app; try lia; try done; try by apply Forall_drop.
    + unfold sequence_attention. rewrite length_imap. lia.
Qed.
End step.

(** ** Through the cache *)

Lemma unflatten_heads_of n_heads head_dim (x : list (list (list A))) : heads_ok n_heads head_dim x →
  map (unflatten head_dim n_heads) (@concat A <$> x) = x.
Proof.
  induction 1 as [|r x [Hl Hv] _ IH]; [done|]. cbn [fmap list_fmap map]. f_equal; [|exact IH]. rewrite <-Hl. by apply unflatten_concat.
Qed.

Lemma concat_heads_width n_heads head_dim (x : list (list (list A))) : heads_ok n_heads head_dim x →
  Forall (λ r, length r = n_heads * head_dim) (@concat A <$> x).
Proof. intros Hx. apply Forall_fmap. eapply Forall_impl; [exact Hx|]. intros r [<- Hv]. cbn. by apply width_concat. Qed.

Lemma view_heads_ok {St} n_heads head_dim (t : Tensor A) (s s' : St) h : tensor_ok t → view_heads n_heads head_dim t s = Ok (h, s') →
  heads_ok n_heads head_dim (h_rows h) ∧ h_dim h = head_dim.
Proof.
  intros Ht. unfold view_heads. destruct t as [v|c rows]; [done|]. unfold mbind, M_bind, check. case_bool_decide as Hc; [|done].
  intros [= <- _]. split; [|done]. cbn in *. subst c. apply Forall_fmap. eapply Forall_impl; [exact Ht|]. intros r. cbn. clear.
  revert r. induction n_heads as [|n IH]; intros r Hr; cbn in *; [done|]. destruct (IH (drop head_dim r)) as [I1 I2]; [rewrite length_drop; lia|].
  split; [by rewrite I1|]. constructor; [rewrite length_take; lia|done].
Qed.

(** A batch of whole prompts of the lengths [ls], with a slot of its own for every token. *)
Record whole_prompts (input : ModelInput) (n_slots : nat) (slots ls : list nat) : Prop := {
  wp_slots : mi_new_cache_slots input = Z.of_nat <$> slots;
  wp_some : slots ≠ [];
  wp_nodup : NoDup slots;
  wp_range : Forall (λ x, x < n_slots) slots;
  wp_q_lens : mi_q_cu_seq_lens input = cu_lens 0 ls;
  wp_kv_lens : mi_kv_cu_seq_lens input = cu_lens 0 ls;
  wp_sum : sum_list ls = length slots;
}.

Lemma cu_lens_length off ls : length (cu_lens off ls) = S (length ls).
Proof. revert off. induction ls as [|n ls IH]; intros off; [done|]. cbn [cu_lens length]. by rewrite IH. Qed.

Lemma batch_decode_ok h n_heads n_kv head_dim (q : Heads A) K V input n_slots slots ls window memory c :
  n_kv ≠ 0 → n_heads `mod` n_kv = 0 → (∀ l, alibi_slopes_ h = Some l → length l = n_heads) → h_dim q = head_dim →
  heads_ok n_heads head_dim (h_rows q) → heads_ok n_kv head_dim K → heads_ok n_kv head_dim V → whole_prompts input n_slots slots ls →
  length (h_rows q) = length slots → length K = length slots → length V = length slots → length memory = length slots →
  get_kv_cache (Z.of_nat <$> slots) c = Ok ((@concat A <$> K, @concat A <$> V), c) →
  batch_decode h n_heads n_kv q input window (memory, c) =
  Ok (tt, (batch_attention head_dim n_heads n_kv (alibi_slopes_ h) (sm_scale_ h) (logits_soft_cap_ h) window ls (h_rows q) K V, c)).
Proof using Type*.
  intros H1 H2 H3 <- HQ HK HV [W1 W2 W3 W4 W5 W6 W7] LQ LK LV LM Hget. unfold batch_decode, mbind, M_bind, on_snd, zoom. cbn [snd].
  rewrite W1, Hget. cbn [fst snd]. rewrite (unflatten_heads_of n_kv (h_dim q) K HK), (unflatten_heads_of n_kv (h_dim q) V HV).
  unfold on_fst, zoom. cbn [fst]. rewrite W5, W6. unfold varlen_masked_self_attention, mbind, M_bind, check.
  rewrite bool_decide_true by congruence. cbn [mret M_ret]. unfold sub_size. rewrite cu_lens_length, decide_True by lia.
  cbn [mret M_ret]. replace (S (length ls) - 1) with (length ls) by lia.
  pose proof (varlen_loop (h_dim q) n_heads n_kv (alibi_slopes_ h) (sm_scale_ h) (logits_soft_cap_ h) window H1 H2 H3 ls 0 0 (cu_lens 0 ls)
    [] (h_rows q) [] K [] V [] memory eq_refl eq_refl eq_refl eq_refl eq_refl) as Hloop.
  cbn [app] in Hloop. by rewrite Hloop by congruence.
Qed.

(** ** Decoding *)

Lemma cu_lens_lookup ls : ∀ off i, i ≤ length ls → cu_lens off ls !! i = Some (Z.of_nat (off + sum_list (take i ls))).
Proof.
  induction ls as [|n ls IH]; intros off [|i] Hi; cbn [length] in Hi; [cbn; by rewrite Nat.add_0_r|lia|cbn; by rewrite Nat.add_0_r|].
  cbn [cu_lens take lookup list_lookup]. change (list_lookup i) with (lookup (M := list Z) i). rewrite IH by lia.
  change (sum_list (n :: take i ls)) with (n + sum_list (take i ls)). by rewrite Nat.add_assoc.
Qed.

Lemma sum_ones m i : i ≤ m → sum_list (take i (replicate m 1)) = i.
Proof. revert i. induction m as [|m IH]; intros [|i] Hi; [done|lia|done|]. cbn. f_equal. apply IH. lia. Qed.

Lemma sum_at_least l i : Forall (λ n, 2 ≤ n) l → i ≤ length l → 2 * i ≤ sum_list (take i l).
Proof.
  intros Hl. revert i. induction Hl as [|n l Hn _ IH]; intros [|i] Hi; cbn [length] in *; [cbn; lia|lia|cbn; lia|].
  change (sum_list (take (S i) (n :: l))) with (n + sum_list (take i l)). specialize (IH i). lia.
Qed.

Lemma for_each_fails {St B} (f : B → M St unit) l x : x ∈ l → (∀ s, ∃ e, f x s = Fail e) → ∀ s, ∃ e, for_each f l s = Fail e.
Proof.
  induction l as [|y l IH]; intros Hx Hf s; [by apply not_elem_of_nil in Hx|]. cbn [for_each]. unfold mbind, M_bind.
  apply elem_of_cons in Hx as [<-|Hx]; [destruct (Hf s) as [e ->]; by eexists|].
  destruct (f y s) as [[u s']|e]; [by apply IH|by eexists].
Qed.

Lemma slice_beyond {B} (l : list B) start stop : length l ≤ start → slice_rows (Z.of_nat start) stop l = [].
Proof. intros Hl. unfold slice_rows. rewrite clamp_index_nat, Nat.min_r by lia. rewrite drop_ge by lia. by rewrite take_nil. Qed.

Lemma attend_no_keys {St} head_dim sm_scale cap bias window q kv_len (s : St) : 2 ≤ kv_len →
  (∀ b, bias = Some b → length b = kv_len) →
  ∃ e, attend head_dim sm_scale cap bias (attn_mask 1 (Z.of_nat kv_len) window 0) q [] [] s = Fail e.
Proof using Type*.
  intros Hk Hb. unfold attend, mbind, M_bind. cbn [fmap list_fmap]. destruct bias as [b|]; cbn [add_alibi].
  - unfold mbind, M_bind, check. rewrite (Hb b eq_refl). rewrite !bool_decide_false by (cbn; lia). by eexists.
  - unfold mret, M_ret, broadcast. assert (length (attn_mask 1 (Z.of_nat kv_len) window 0) = kv_len) as Hm.
    { unfold attn_mask. by rewrite length_fmap, length_seq, Nat2Z.id. }
    rewrite decide_False by (rewrite Hm; cbn; lia). destruct (attn_mask 1 (Z.of_nat kv_len) window 0) as [|x [|y m]]; cbn in Hm; [lia|lia|].
    by eexists.
Qed.

Section decode.
Context (head_dim n_heads n_kv : nat) (slopes : option (list F)) (sm_scale cap : F) (window : Z) (kvs : list nat).
Context (Hkv : n_kv ≠ 0) (Hheads : 0 < n_heads) (Hmod : n_heads `mod` n_kv = 0) (Htwo : Forall (λ n, 2 ≤ n) kvs).
Abbreviation m := (length kvs).

Lemma last_step_fails Q K V : 2 ≤ m → length Q = m → length K = m → length V = m → heads_ok n_heads head_dim Q → ∀ s,
  ∃ e, varlen_step head_dim n_heads n_kv Q K V (cu_lens 0 (replicate m 1)) (cu_lens 0 kvs) slopes sm_scale cap window (m - 1) s = Fail e.
Proof using Type*.
  intros Hm LQ LK LV HQ s. unfold varlen_step. unfold mbind, M_bind.
  rewrite (cu_lens_lookup (replicate m 1) 0 (m - 1)) by (rewrite length_replicate; lia).
  rewrite (cu_lens_lookup (replicate m 1) 0 (S (m - 1))) by (rewrite length_replicate; lia).
  rewrite (cu_lens_lookup kvs 0 (m - 1)), (cu_lens_lookup kvs 0 (S (m - 1))) by lia. rewrite !sum_ones by lia. rewrite !Nat.add_0_l.
  pose proof (sum_at_least kvs (m - 1) Htwo ltac:(lia)) as Hsum.
  assert (∃ k, 2 ≤ k ∧ sum_list (take (S (m - 1)) kvs) = sum_list (take (m - 1) kvs) + k) as (k&Hk2&Hk).
  { destruct (lookup_lt_is_Some_2 kvs (m - 1)) as [k Hlk]; [lia|]. exists k. split; [by apply (Forall_lookup_1 _ _ _ _ Htwo Hlk)|].
    rewrite (take_S_r _ _ _ Hlk), sum_list_with_app. cbn. lia. }
  cbn [from_option_or mret M_ret]. rewrite Hk. set (start := sum_list (take (m - 1) kvs)) in *.
  replace (Z.of_nat (S (m - 1)) - Z.of_nat (m - 1))%Z with 1%Z by lia. replace (Z.of_nat (start + k) - Z.of_nat start)%Z with (Z.of_nat k) by lia.
  unfold check. rewrite (bool_decide_true (1 ≤ Z.of_nat k)%Z) by lia. rewrite !slice_beyond by lia. cbn [mret M_ret].
  destruct (repeat_heads_ok n_heads n_kv [] s Hkv Hmod) as (x'&->&Lx&_). destruct x'; [|done].
  destruct (repeat_heads_ok n_heads n_kv [] s Hkv Hmod) as (x'&->&Lx'&_). destruct x'; [|done].
  rewrite (bool_decide_true (0 ≤ 1)%Z) by done. rewrite (bool_decide_true (1 = 1)%Z) by done. rewrite orb_true_r. cbn [mret M_ret].
  destruct (alibi_biases n_heads (Z.of_nat k) slopes s) as [[bias s1]|e] eqn:Eb; [|by eexists].
  assert (∀ b h, (bias ≫= λ l, l !! h) = Some b → length b = k) as Hb.
  { intros b h Hbh. unfold alibi_biases in Eb. destruct slopes as [sl|]; [|injection Eb as <- <-; done].
    unfold mbind, M_bind, check in Eb. case_bool_decide; [|done]. injection Eb as <- <-. cbn in Hbh.
    rewrite list_lookup_fmap in Hbh. destruct (sl !! h); [|done]. injection Hbh as <-. unfold alibi_bias. by rewrite length_fmap, length_seq, Nat2Z.id. }
  destruct (lookup_lt_is_Some_2 Q (m - 1)) as [row Hrow]; [lia|].
  assert (slice_rows (Z.of_nat (m - 1)) (Z.of_nat (S (m - 1))) Q = [row]) as ->.
  { unfold slice_rows. rewrite !clamp_index_nat, !Nat.min_l by lia. replace (S (m - 1) - (m - 1)) with 1 by lia.
    rewrite (drop_S _ _ _ Hrow). done. }
  pose proof (Forall_lookup_1 _ _ _ _ HQ Hrow) as [Hlr _]. destruct row as [|qv row]; [cbn in Hlr; lia|].
  cbn [length seq zip zip_with map_each]. unfold mbind at 1, M_bind at 1. destruct n_heads as [|nh]; [lia|].
  cbn [seq zip_with map_each fst snd]. unfold mbind at 1, M_bind at 1. unfold head_of. cbn [fmap list_fmap].
  match goal with |- context [attend _ _ _ ?b _ _ _ _ _] => destruct (attend_no_keys head_dim sm_scale cap b window qv k s1 Hk2) as [e ->] end.
  - intros b. apply (Hb b 0).
  - by eexists.
Qed.
End decode.
End attention.

(** The layer on whole prompts. *)
Lemma attention_prefill {F A : Type} `{AttnLaws A F} (a : AttentionImpl F A) memory n_slots c slots ls input
    query key value positions q0 k0 (q k v : Heads A) :
  att_n_kv_heads_ a ≠ 0 → n_heads_ a `mod` att_n_kv_heads_ a = 0 →
  (∀ l, alibi_slopes_ (handler_ a) = Some l → length l = n_heads_ a) →
  cache_ok n_slots c → kv_empty c = false → kv_width c = att_n_kv_heads_ a * att_head_dim_ a → whole_prompts input n_slots slots ls →
  tensor_ok value → view_heads (n_heads_ a) (att_head_dim_ a) query c = Ok (q0, c) →
  view_heads (att_n_kv_heads_ a) (att_head_dim_ a) key c = Ok (k0, c) →
  view_heads (att_n_kv_heads_ a) (att_head_dim_ a) value c = Ok (v, c) →
  apply_pos_emb (handler_ a) q0 k0 positions c = Ok ((q, k), c) →
  h_dim q = att_head_dim_ a → heads_ok (n_heads_ a) (att_head_dim_ a) (h_rows q) →
  heads_ok (att_n_kv_heads_ a) (att_head_dim_ a) (h_rows k) →
  length (h_rows q) = length slots → length (h_rows k) = length slots → length (h_rows v) = length slots → length memory = length slots →
  ∃ c', attention_forward a memory query key value positions input c =
    Ok (Mat (n_heads_ a * att_head_dim_ a) (@concat A <$>
      batch_attention (att_head_dim_ a) (n_heads_ a) (att_n_kv_heads_ a) (alibi_slopes_ (handler_ a)) (sm_scale_ (handler_ a))
        (logits_soft_cap_ (handler_ a)) (sliding_window_ a) ls (h_rows q) (h_rows k) (h_rows v)), c') ∧
    get_kv_cache (Z.of_nat <$> slots) c' = Ok ((@concat A <$> h_rows k, @concat A <$> h_rows v), c') ∧
    cache_ok n_slots c' ∧ kv_empty c' = false ∧ kv_width c' = kv_width c.
Proof.
  intros H1 H2 H3 Hc He Hw HW Tv Vq Vk Vv Hpos Hd HQ HK LQ LK LV LM. pose proof HW as [W1 W2 W3 W4 W5 W6 W7].
  destruct (view_heads_ok _ _ _ _ _ _ Tv Vv) as [HV _].
  destruct (set_get_kv_cache n_slots c slots (@concat A <$> h_rows k) (@concat A <$> h_rows v)) as (c'&Hset&Hget&Hok&Hwid&Hemp); try done;
    [by rewrite length_fmap|by rewrite length_fmap|rewrite Hw; by apply concat_heads_width|rewrite Hw; by apply concat_heads_width|].
  exists c'. split; [|by rewrite Hemp]. unfold attention_forward, mbind, M_bind. rewrite Vq, Vk, Vv, Hpos.
  unfold append_kv_cache, mbind, M_bind, get. rewrite He, W1, Hset.
  rewrite (batch_decode_ok _ _ _ (att_head_dim_ a) q (h_rows k) (h_rows v) input n_slots slots ls) by done. done.
Qed.

(** C13. The reference attention on whole prompts: the tokens of every sequence attend to
    their own sequence up to themselves, within the sliding window if there is one, with
    the key head of their group; the output depends neither on the other sequences of the
    batch nor on what the cache held, and the keys and values are in the cache
    afterwards. *)
Theorem prefill_attention_exact {F A : Type} `{AttnLaws A F} (a : AttentionImpl F A) memory n_slots c slots ls input
    query key value positions q0 k0 (q k v : Heads A) :
  att_n_kv_heads_ a ≠ 0 → n_heads_ a `mod` att_n_kv_heads_ a = 0 →
  (∀ l, alibi_slopes_ (handler_ a) = Some l → length l = n_heads_ a) →
  cache_ok n_slots c → kv_empty c = false → kv_width c = att_n_kv_heads_ a * att_head_dim_ a → whole_prompts input n_slots slots ls →
  tensor_ok value → view_heads (n_heads_ a) (att_head_dim_ a) query c = Ok (q0, c) →
  view_heads (att_n_kv_heads_ a) (att_head_dim_ a) key c = Ok (k0, c) →
  view_heads (att_n_kv_heads_ a) (att_head_dim_ a) value c = Ok (v, c) →
  apply_pos_emb (handler_ a) q0 k0 positions c = Ok ((q, k), c) →
  h_dim q = att_head_dim_ a → heads_ok (n_heads_ a) (att_head_dim_ a) (h_rows q) →
  heads_ok (att_n_kv_heads_ a) (att_head_dim_ a) (h_rows k) →
  length (h_rows q) = length slots → length (h_rows k) = length slots → length (h_rows v) = length slots → length memory = length slots →
  ∃ c', attention_forward a memory query key value positions input c =
    Ok (Mat (n_heads_ a * att_head_dim_ a) (@concat A <$>
      batch_attention (att_head_dim_ a) (n_heads_ a) (att_n_kv_heads_ a) (alibi_slopes_ (handler_ a)) (sm_scale_ (handler_ a))
        (logits_soft_cap_ (handler_ a)) (sliding_window_ a) ls (h_rows q) (h_rows k) (h_rows v)), c') ∧
    get_kv_cache (Z.of_nat <$> slots) c' = Ok ((@concat A <$> h_rows k, @concat A <$> h_rows v), c').
Proof.
  intros. destruct (attention_prefill a memory n_slots c slots ls input query key value positions q0 k0 q k v) as (c'&Hf&Hg&_); [done..|]. by exists c'.
Qed.

(** What the reference handler computes for the only sequence of a decoding batch: the
    scores and the values are copies of those of the new token. *)
Definition own_token_only {F A : Type} `{AttnOps A F} (head_dim n_heads n_kv kv_len : nat) (sm_scale cap : F) (row key value : list (list A)) :
    list (list A) :=
  imap (λ h q, (λ d,
    at_cast (f_dot (f_softmax (replicate kv_len (score sm_scale cap q (default [] (key !! (h / (n_heads / n_kv)))))))
      (column d (replicate kv_len (default [] (value !! (h / (n_heads / n_kv)))))))) <$> seq 0 head_dim) row.

Section single.
Context {F A : Type} `{AttnLaws A F}.

Lemma attend_one_key {St} head_dim sm_scale cap window (q k v : list A) kv_len (s : St) : 2 ≤ kv_len → (window < 0)%Z →
  attend head_dim sm_scale cap None (attn_mask 1 (Z.of_nat kv_len) window 0) q [k] [v] s =
  Ok ((λ d, at_cast (f_dot (f_softmax (replicate kv_len (score sm_scale cap q k))) (column d (replicate kv_len v)))) <$> seq 0 head_dim, s).
Proof using Type*.
  intros Hk Hw. unfold attend, mbind, M_bind. cbn [fmap list_fmap add_alibi mret M_ret].
  assert (attn_mask 1 (Z.of_nat kv_len) window 0 = replicate kv_len true) as ->.
  { unfold attn_mask. rewrite Nat2Z.id, replicate_seq. apply list_fmap_ext. intros i j Hj. apply lookup_seq in Hj as [-> Hj].
    rewrite (bool_decide_true (window < 0)%Z) by done. cbn [orb andb]. apply bool_decide_true. lia. }
  unfold broadcast at 1. rewrite decide_False by (rewrite length_replicate; cbn; lia).
  rewrite length_replicate. unfold mret, M_ret. rewrite zip_with_replicate by done.
  unfold broadcast. assert (length (f_softmax (replicate kv_len (score sm_scale cap q k))) = kv_len) as Hl by by rewrite softmax_length, length_replicate.
  rewrite decide_False by (rewrite Hl; cbn; lia). rewrite Hl.
  destruct (f_softmax (replicate kv_len (score sm_scale cap q k))) as [|x [|y w]]; cbn in Hl; [lia|lia|done].
Qed.

Lemma decode_single head_dim n_heads n_kv sm_scale cap window kv_len (row key value m : list (list A)) : n_kv ≠ 0 → n_heads `mod` n_kv = 0 →
  length row = n_heads → 2 ≤ kv_len → (window < 0)%Z →
  varlen_step head_dim n_heads n_kv [row] [key] [value] [0; 1]%Z [0; Z.of_nat kv_len]%Z None sm_scale cap window 0 [m] =
  Ok (tt, [own_token_only head_dim n_heads n_kv kv_len sm_scale cap row key value]).
Proof using Type*.
  intros Hkv Hmod Hl Hk Hw. unfold varlen_step. unfold mbind, M_bind. cbn [lookup list_lookup from_option_or mret M_ret].
  rewrite !Z.sub_0_r. unfold check. rewrite (bool_decide_true (1 ≤ Z.of_nat kv_len)%Z) by lia.
  assert (slice_rows 0 (Z.of_nat kv_len) [key] = [key]) as ->.
  { unfold slice_rows. rewrite clamp_index_nat. cbn. by destruct kv_len as [|[|]]; [lia|lia|]. }
  assert (slice_rows 0 (Z.of_nat kv_len) [value] = [value]) as ->.
  { unfold slice_rows. rewrite clamp_index_nat. cbn. by destruct kv_len as [|[|]]; [lia|lia|]. }
  cbn [mret M_ret].
  destruct (repeat_heads_ok n_heads n_kv [key] [m] Hkv Hmod) as (K'&->&LK&HK).
  destruct (repeat_heads_ok n_heads n_kv [value] [m] Hkv Hmod) as (V'&->&LV&HV).
  rewrite (bool_decide_true (0 ≤ 1)%Z) by done. rewrite (bool_decide_true (1 = 1)%Z) by done. rewrite orb_true_r.
  cbn [mret M_ret alibi_biases]. change (slice_rows 0 1 [row]) with [row].
  rewrite (map_each_seq _ (λ _ r, own_token_only head_dim n_heads n_kv kv_len sm_scale cap r key value)); [done|done|].
  intros p r Hr. destruct p as [|p]; [|done]. injection Hr as <-. cbn [fst snd]. apply map_each_seq; [done|].
  intros h q Hq. cbn [fst snd]. apply lookup_lt_Some in Hq. rewrite HK, HV by lia. unfold head_of. cbn [fmap list_fmap].
  by apply attend_one_key.
Qed.
End single.

(** C37. The reference attention forgets the context: when it decodes one token of every
    sequence, with tokens of them in the cache, it reads only the slots of the new
    tokens.  For one sequence the output is made of copies of the key and the value of
    the new token, whatever the rest of the cache holds; for several sequences the
    sizes do not fit and the call fails. *)
Theorem ref_decode_ignores_cache {F A : Type} `{AttnLaws A F} (h : RefHandler F A) n_heads n_kv (q : Heads A) kvs krows vrows input window memory c :
  n_kv ≠ 0 → 0 < n_heads → n_heads `mod` n_kv = 0 → Forall (λ n, 2 ≤ n) kvs →
  mi_q_cu_seq_lens input = cu_lens 0 (replicate (length kvs) 1) → mi_kv_cu_seq_lens input = cu_lens 0 kvs →
  get_kv_cache (mi_new_cache_slots input) c = Ok ((krows, vrows), c) → length krows = length kvs → length vrows = length kvs →
  length (h_rows q) = length kvs → heads_ok n_heads (h_dim q) (h_rows q) →
  (∀ kv_len row kr vr m, kvs = [kv_len] → h_rows q = [row] → krows = [kr] → vrows = [vr] → memory = [m] →
     (window < 0)%Z → alibi_slopes_ h = None →
     batch_decode h n_heads n_kv q input window (memory, c) =
     Ok (tt, ([own_token_only (h_dim q) n_heads n_kv kv_len (sm_scale_ h) (logits_soft_cap_ h) row
                 (unflatten (h_dim q) n_kv kr) (unflatten (h_dim q) n_kv vr)], c))) ∧
  (2 ≤ length kvs → ∃ e, batch_decode h n_heads n_kv q input window (memory, c) = Fail e).
Proof.
  intros H1 H2 H3 Htwo Hq Hk Hget LK LV LQ HQ. unfold batch_decode, mbind, M_bind, on_snd, on_fst, zoom. cbn [snd]. rewrite Hget. cbn [fst snd].
  rewrite Hq, Hk. unfold varlen_masked_self_attention, mbind, M_bind, check. rewrite !length_map, (bool_decide_true (length krows = _)) by congruence.
  cbn [mret M_ret]. unfold sub_size. rewrite cu_lens_length, length_replicate, decide_True by lia. cbn [mret M_ret].
  replace (S (length kvs) - 1) with (length kvs) by lia. split.
  - intros kv_len row kr vr m -> Eq -> -> -> Hw Ha. rewrite Eq, Ha. rewrite Eq in HQ. apply Forall_cons in HQ as [[Hl _] _].
    apply Forall_cons in Htwo as [Hlen _]. cbn [length replicate seq for_each cu_lens map Nat.add Z.of_nat Pos.of_succ_nat].
    unfold mbind, M_bind. by rewrite decode_single.
  - intros Hm. destruct (for_each_fails (varlen_step (h_dim q) n_heads n_kv (h_rows q) (map (unflatten (h_dim q) n_kv) krows)
      (map (unflatten (h_dim q) n_kv) vrows) (cu_lens 0 (replicate (length kvs) 1)) (cu_lens 0 kvs) (alibi_slopes_ h) (sm_scale_ h)
      (logits_soft_cap_ h) window) (seq 0 (length kvs)) (length kvs - 1)) with (s := memory) as [e ->].
    + apply elem_of_seq. lia.
    + apply last_step_fails; try done; by rewrite length_map.
    + by eexists.
Qed.

(** ** Examples *)

(** Scores are integers or minus infinity; every score that is left has the weight one. *)
#[local] Instance count_ops : AttnOps Z (option Z) := {|
  at_float := Some;
  at_cast x := default 0%Z x;
  at_of_nat := Z.of_nat;
  f_null := Some 0%Z;
  f_neg_inf := None;
  f_plus x y := a ← x; b ← y; Some (a + b)%Z;
  f_times x y := a ← x; b ← y; Some (a * b)%Z;
  f_quot x y := a ← x; b ← y; Some (a / b)%Z;
  f_tanh x := x;
  f_positive x := bool_decide (0 < default 0 x)%Z;
  f_dot x y := Some (foldr Z.add 0%Z (zip_with (λ a b, (default 0 a * default 0 b)%Z) x y));
  f_softmax l := (λ x, match x with Some _ => Some 1%Z | None => Some 0%Z end) <$> l;
|}.

#[local] Instance count_laws : AttnLaws Z (option Z).
Proof.
  split; cbn.
  - intros l. apply length_fmap.
  - intros a b _. rewrite !fmap_app, fmap_cons, take_app_length', drop_app_length' by by rewrite length_fmap. done.
  - intros a b c v d Hl. f_equal. rewrite !zip_with_app by done. cbn. by rewrite !foldr_app.
Qed.

(** Two query heads, one key head, vectors of one element. *)
Definition small_attention : AttentionImpl (option Z) Z := mkAttention 2 1 1 (mkRefHandler (Some 1%Z) (Some 0%Z) None None) (-1).
Definition slots_of_four : KVCache (A := Z) := mkKVCache 2 1 [0; 0; 0; 0]%Z [0; 0; 0; 0]%Z.
Definition prompt_input (slots q kv : list Z) : ModelInput := mkModelInput [] [] 0 0 0 kv q slots [] [] None.

(** Prompts of two tokens and of one token. *)
Lemma prefill_attention_exact_witness :
  ∃ c', attention_forward small_attention [[]; []; []] (Mat 2 [[1; 2]; [3; 4]; [5; 6]]%Z) (Mat 1 [[1]; [2]; [3]]%Z) (Mat 1 [[10]; [20]; [40]]%Z)
    None (prompt_input [3; 0; 1] [0; 2; 3] [0; 2; 3])%Z slots_of_four = Ok (Mat 2 [[10; 10]; [30; 30]; [40; 40]]%Z, c') ∧
    get_kv_cache [3; 0; 1]%Z c' = Ok (([[1]; [2]; [3]], [[10]; [20]; [40]])%Z, c').
Proof.
  destruct (prefill_attention_exact small_attention [[]; []; []] 4 slots_of_four [3; 0; 1] [2; 1] (prompt_input [3; 0; 1] [0; 2; 3] [0; 2; 3])%Z
    (Mat 2 [[1; 2]; [3; 4]; [5; 6]]%Z) (Mat 1 [[1]; [2]; [3]]%Z) (Mat 1 [[10]; [20]; [40]]%Z) None
    (mkHeads 1 [[[1]; [2]]; [[3]; [4]]; [[5]; [6]]]%Z) (mkHeads 1 [[[1]]; [[2]]; [[3]]]%Z)
    (mkHeads 1 [[[1]; [2]]; [[3]; [4]]; [[5]; [6]]]%Z) (mkHeads 1 [[[1]]; [[2]]; [[3]]]%Z) (mkHeads 1 [[[10]]; [[20]]; [[40]]]%Z))
    as (c'&Hf&Hg); try done; try (by repeat constructor).
  - split; [done|done|apply (bool_decide_unpack _); reflexivity|repeat constructor; lia|done|done|done].
  - exists c'. split; [rewrite Hf; vm_compute; reflexivity|exact Hg].
Defined.

(** One sequence with five tokens: the value of the new token, five times. *)
Lemma ref_decode_ignores_cache_witness :
  batch_decode (handler_ small_attention) 2 1 (mkHeads 1 [[[1]; [2]]]%Z) (prompt_input [3] [0; 1] [0; 5])%Z (-1)
    ([[]], mkKVCache 2 1 [7; 8; 9; 1]%Z [4; 5; 6; 2]%Z) = Ok (tt, ([[[10]; [10]]]%Z, mkKVCache 2 1 [7; 8; 9; 1]%Z [4; 5; 6; 2]%Z)).
Proof.
  destruct (ref_decode_ignores_cache (handler_ small_attention) 2 1 (mkHeads 1 [[[1]; [2]]]%Z) [5] [[1]]%Z [[2]]%Z (prompt_input [3] [0; 1] [0; 5])%Z (-1)
    [[]] (mkKVCache 2 1 [7; 8; 9; 1]%Z [4; 5; 6; 2]%Z)) as [Hone _].
  12: { rewrite (Hone 5 [[1]; [2]]%Z [1]%Z [2]%Z [] eq_refl eq_refl eq_refl eq_refl eq_refl eq_refl eq_refl). vm_compute. reflexivity. }
  all: try done; try lia; repeat constructor; lia.
Defined.
