(* ===== verification/ActivationProps.v ===== *)
(** * The activation functions agree on all devices *)

From Stdlib Require Import PeanoNat.
From stdpp Require Import base tactics list relations strings.
From S2P Require Import Prelude Types Tensor LinearInv Gpu Kernels KernelProps ChatTemplate.
From S2P Require Import Activation.

(** Exact arithmetic. *)
Class ActLaws (A : Type) `{ActArith A} := {
  act_mul_assoc :: Assoc (=) act_mul;
  act_mul_comm :: Comm (=) act_mul;
  tanh_opt_exact x : tanh_opt x = torch_tanh x;
  torch_pow3_def x : torch_pow3 x = act_mul (act_mul x x) x;
  torch_silu_def x : torch_silu x = act_div x (act_add act_one (expf (act_neg x)));
}.

(** ** Kernels that fill in a matrix *)

Section fill.
Context {A : Type}.
Context (size0 n : nat) (f : nat → nat → A).
Abbreviation grid := (block_kernel size0 (Nat.min n 1024) (λ _, n) (λ bid i, [(bid * n + i, λ _ : A, f bid i)])).
Abbreviation fills := (seq 0 size0 ≫= λ bid, seq 0 n ≫= λ i, [(bid * n + i, λ _ : A, f bid i)]).

Lemma fills_in x g : (x, g) ∈ fills → ∃ b i, b < size0 ∧ i < n ∧ x = b * n + i ∧ g = λ _, f b i.
Proof.
  intros (b&(i&[= -> ->]%list_elem_of_singleton&Hi%elem_of_seq)%list_elem_of_bind&Hb%elem_of_seq)%list_elem_of_bind.
  exists b, i. split_and!; [lia|lia|done|done].
Qed.

Lemma fills_nodup : NoDup fills.*1.
Proof.
  rewrite fmap_bind. apply NoDup_bind.
  - intros b b' x _ _ (?&->&(i&[= ->]%list_elem_of_singleton&Hi%elem_of_seq)%list_elem_of_bind)%list_elem_of_fmap
      (?&E&(j&[= ->]%list_elem_of_singleton&Hj%elem_of_seq)%list_elem_of_bind)%list_elem_of_fmap. cbn [fst] in E. nia.
  - intros b _. rewrite fmap_bind. apply NoDup_bind; [|intros i _; apply NoDup_singleton|apply NoDup_seq].
    intros i j x _ _ Hi%list_elem_of_singleton Hj%list_elem_of_singleton. cbn [fst] in *. lia.
  - apply NoDup_seq.
Qed.

Lemma fill_runs m m' : 0 < n → length m = size0 * n → runs grid m m' → unflatten n size0 m' = (λ b, f b <$> seq 0 n) <$> seq 0 size0.
Proof.
  intros Hn Hl (ts&Hr&Hd). assert (concat grid ≡ₚ fills) as Hp by (apply block_kernel_ops; lia).
  assert (NoDup (concat grid).*1) as Hnd by (rewrite Hp; apply fills_nodup).
  apply (grid_runs _ _ _ _ Hnd) in Hr; [|done]. rewrite (apply_perm _ _ m Hnd Hp) in Hr.
  assert (∀ b i, b < size0 → i < n → m' !! (b * n + i) = Some (f b i)) as Hm.
  { intros b i Hb Hi. rewrite Hr, (apply_own _ _ _ (λ _, f b i) fills_nodup).
    - destruct (lookup_lt_is_Some_2 m (b * n + i)) as [v ->]; [nia|done].
    - apply list_elem_of_bind. exists b. split; [|apply elem_of_seq; lia]. apply list_elem_of_bind. exists i.
      split; [constructor|apply elem_of_seq; lia]. }
  assert (length m' = size0 * n) as Hl' by (by rewrite Hr, apply_updates_length).
  clear Hr Hd Hp Hl Hnd. revert f m' Hm Hl'. induction size0 as [|k IH]; intros g m' Hm Hl'; [done|].
  rewrite <-cons_seq, fmap_cons, <-fmap_S_seq, <-list_fmap_compose. cbn [unflatten]. f_equal.
  - apply list_eq. intros i. rewrite list_lookup_fmap. destruct (decide (i < n)) as [Hi|Hi].
    + rewrite lookup_take_lt, lookup_seq_lt by done. apply (Hm 0 i); lia.
    + rewrite lookup_take_ge, lookup_seq_ge by lia. done.
  - apply (IH (λ b, g (S b))); [|rewrite length_drop; lia]. intros b i Hb Hi. rewrite lookup_drop, <-Hm by lia. f_equal. lia.
Qed.

Lemma fill_completes m : 0 < n → length m = size0 * n → ∃ m', runs grid m m'.
Proof.
  intros Hn Hl. apply grid_completes. rewrite block_kernel_ops by lia. apply Forall_forall. intros [x g] Hin.
  apply fills_in in Hin as (b&i&Hb&Hi&->&_). cbn. nia.
Qed.
End fill.

(** ** The two kernels *)

Section kernels.
Context {A : Type} `{ActArith A}.
Implicit Types f : A → A.

Lemma read_rows {B} (d : B) c (rows : list (list B)) b i r : Forall (λ r, length r = c) rows → rows !! b = Some r → i < c →
  read d (concat rows) (b * c + i) = read d r i.
Proof. intros Hr Hb Hi. unfold read. by rewrite (lookup_concat c), Hb by done. Qed.

Lemma rows_by_index {B C} (g : nat → C) (h : B → C) (rows : list B) :
  (∀ b r, rows !! b = Some r → g b = h r) → g <$> seq 0 (length rows) = h <$> rows.
Proof.
  intros Hg. apply list_eq. intros b. rewrite !list_lookup_fmap. destruct (rows !! b) as [r|] eqn:Hb.
  - rewrite lookup_seq_lt by (by eapply lookup_lt_Some). cbn. f_equal. by apply Hg.
  - rewrite lookup_seq_ge; [done|]. by apply lookup_ge_None_1.
Qed.

Lemma kernel_act_correct f c rows out : 0 < c → Forall (λ r, length r = c) rows → length out = length rows * c →
  (∃ y, kernel_act f c (concat rows) (length rows) c out y) ∧
  ∀ y, kernel_act f c (concat rows) (length rows) c out y → y = pointwise f (Mat c rows).
Proof.
  intros Hc Hr Hl. unfold kernel_act, launch_activation. split.
  - destruct (fill_completes (length rows) c (λ b i, f (read act_zero (concat rows) (b * c + i))) out Hc Hl) as [m' Hm]. eauto.
  - intros y (m'&Hm&->). apply fill_runs in Hm; [|done|done]. rewrite Hm. cbn [pointwise]. f_equal.
    apply rows_by_index. intros b r Hb. assert (length r = c) as Hrl by (by eapply Forall_lookup_1 in Hr).
    rewrite <-Hrl at 1. apply rows_by_index. intros i x Hi. rewrite (read_rows _ _ _ _ _ r); [|done|done|].
    + unfold read. by rewrite Hi.
    + rewrite <-Hrl. by eapply lookup_lt_Some.
Qed.

Lemma kernel_act_with_mul_correct f n rows out : 0 < n → Forall (λ r, length r = 2 * n) rows → length out = length rows * n →
  (∃ y, kernel_act_with_mul f (Mat (2 * n) rows) out y) ∧
  ∀ y, kernel_act_with_mul f (Mat (2 * n) rows) out y → with_mul (T := unit) f (Mat (2 * n) rows) () = Ok (y, ()).
Proof.
  intros Hn Hr Hl. unfold kernel_act_with_mul, launch_activation_and_mul, with_mul.
  assert ((2 * n) / 2 = n) as -> by (rewrite Nat.mul_comm; by apply Nat.div_mul).
  assert ((2 * n + 1) / 2 = n) as -> by (rewrite Nat.mul_comm, Nat.div_add_l; simpl; lia).
  set (g := λ b i, act_mul (f (read act_zero (concat rows) (2 * (b * n) + i))) (read act_zero (concat rows) (2 * (b * n) + i + n))).
  split.
  - destruct (fill_completes (length rows) n g out Hn Hl) as [m' Hm]. eauto.
  - intros y (m'&Hm&->). apply (fill_runs _ _ g) in Hm; [|done|done]. rewrite Hm.
    unfold mbind, M_bind, check. rewrite bool_decide_true by lia. cbn [mret M_ret]. unfold mret, M_ret. do 3 f_equal. symmetry.
    apply rows_by_index. intros b r Hb. assert (length r = 2 * n) as Hrl by (by eapply Forall_lookup_1 in Hr).
    apply list_eq. intros i. rewrite list_lookup_fmap, lookup_zip_with, list_lookup_fmap, lookup_drop.
    destruct (decide (i < n)) as [Hi|Hi].
    + rewrite lookup_seq_lt, lookup_take_lt by done. cbn [fmap option_fmap option_map].
      destruct (lookup_lt_is_Some_2 r i) as [x Hx]; [lia|]. destruct (lookup_lt_is_Some_2 r (n + i)) as [z Hz]; [lia|].
      unfold g. replace (2 * (b * n) + (0 + i)) with (b * (2 * n) + i) by lia.
      replace (b * (2 * n) + i + n) with (b * (2 * n) + (n + i)) by lia.
      rewrite !(read_rows _ _ _ _ _ r) by (done || lia). unfold read. by rewrite Hx, Hz.
    + rewrite lookup_seq_ge, lookup_take_ge by lia. done.
Qed.
End kernels.

(** ** The choice *)

Section choice.
Context {A : Type} `{ActLaws A} {tl : TemplateLib}.

Lemma GeluFast_exact x : GeluFastActivation x = gelu_fast_element x.
Proof. unfold GeluFastActivation, gelu_fast_element. rewrite tanh_opt_exact. rewrite (assoc_L act_mul). f_equal. apply (comm_L act_mul). Qed.
Lemma GeluNew_exact x : GeluNewActivation x = gelu_new_element x.
Proof.
  unfold GeluNewActivation, gelu_new_element. rewrite tanh_opt_exact, torch_pow3_def, !(assoc_L act_mul). f_equal. apply (comm_L act_mul).
Qed.
Lemma Silu_exact x : SiluActivation x = torch_silu x.
Proof. by rewrite torch_silu_def. Qed.

Lemma pointwise_ext (f g : A → A) t : (∀ x, f x = g x) → pointwise f t = pointwise g t.
Proof. intros E. destruct t; cbn [pointwise]; f_equal; [by apply map_ext|]. apply map_ext. intros r. by apply map_ext. Qed.
Lemma with_mul_ext {T} (f g : A → A) x (s : T) : (∀ x, f x = g x) → with_mul f x s = with_mul g x s.
Proof.
  intros E. assert (∀ l, f <$> l = g <$> l) as El by (intros l; by apply list_fmap_ext).
  destruct x as [v|c rows]; cbn [with_mul]; [by rewrite El|]. unfold mbind, M_bind. destruct (check _ _ s) as [[]|]; [|done].
  unfold mret, M_ret. do 3 f_equal. apply list_fmap_ext. intros _ r _. by rewrite El.
Qed.

(** What the function of the CUDA device computes is what the other one computes. *)
Inductive same_choice : ActChoice A → ActChoice A → Prop :=
  | same_torch f : same_choice (Torch f) (Torch f)
  | same_custom f g : (∀ x, f x = g x) → same_choice (Custom f) (Torch g)
  | same_nullptr : same_choice Nullptr Nullptr.

Lemma choices_agree {T} (name : text) (d : bool) (s : T) : name ≠ [] → ∃ cuda cpu,
  get_act_func name true false s = Ok (cuda, s) ∧ get_act_func name false d s = Ok (cpu, s) ∧
  get_act_with_mul_func name true false s = Ok (cuda, s) ∧ get_act_with_mul_func name false d s = Ok (cpu, s) ∧ same_choice cuda cpu.
Proof.
  intros Hn. unfold get_act_func, get_act_with_mul_func. unfold mbind, M_bind, check. rewrite bool_decide_false by done. cbn [negb andb mret M_ret].
  unfold mret, M_ret. do 2 eexists. split_and!; [done..|].
  repeat (case_match; [by constructor; auto using GeluFast_exact, GeluNew_exact, Silu_exact|]). constructor.
Qed.

End choice.

(** Integers as elements, with functions that satisfy the laws. *)
#[local] Instance toy_act : ActArith Z := {|
  act_zero := 0; act_half := 2; act_one := 1; act_root := 3; act_cubic := 1;
  act_add := Z.add; act_mul := Z.mul; act_div := Z.div; act_neg := Z.opp;
  torch_tanh := λ x, x; torch_pow3 := λ x, x * x * x; torch_gelu := λ x, x; torch_gelu_tanh := λ x, x;
  torch_relu := Z.max 0; torch_silu := λ x, x / (1 + Z.abs (- x)); tanh_opt := λ x, x; expf := Z.abs;
|}%Z.
#[local] Instance toy_act_laws : ActLaws Z.
Proof. split; try done; [intros x y z; apply Z.mul_assoc|intros x y; apply Z.mul_comm]. Qed.
#[local] Instance exact_names : TemplateLib := {| iequals := λ a b, bool_decide (a = b); strip_ascii_whitespace := λ t, t |}.

