(* ===== verification/Norm.v ===== *)
(** * Normalization

    [src/layers/normalization.h], [src/kernels/layernorm_kernels.cu] and the reductions of
    [src/kernels/reduce_kernel_utils.cuh].  The kernels reduce over a block of threads with
    warp shuffles, shared memory and barriers: the model is a machine in which the
    threads of all blocks interleave at every access.  [A] is the type of the elements
    and [F] that of the 32-bit floats. *)

From Stdlib Require Import PeanoNat Ascii.
From stdpp Require Import base tactics list strings.
From S2P Require Import Prelude Types Tensor StateDict Linear Gpu Kernels.

(** ** Blocks of threads *)

(** The code of a thread.  [ShflXor v mask k] is [k(__shfl_xor_sync(FINAL_MASK, v, mask, 32))]. *)
Inductive Code (A F : Type) :=
  | Halt
  | LoadShared (c : nat) (k : F → Code A F)
  | StoreShared (c : nat) (v : F) (p : Code A F)
  | StoreGlobal (i : nat) (v : A) (p : Code A F)
  | Syncthreads (p : Code A F)
  | ShflXor (v : F) (mask : nat) (k : F → Code A F).
Arguments Halt {A F}.
Arguments LoadShared {A F} _ _.
Arguments StoreShared {A F} _ _ _.
Arguments StoreGlobal {A F} _ _ _.
Arguments Syncthreads {A F} _.
Arguments ShflXor {A F} _ _ _.

Record CudaBlock (A F : Type) := mkCudaBlock { b_threads : list (Code A F); b_shared : list F }.
Arguments mkCudaBlock {A F} _ _.
Arguments b_threads {A F} _.
Arguments b_shared {A F} _.

Section machine.
Context {A F : Type}.

(** The lane that thread [t] reads, as a thread of the block. *)
Definition partner (t mask : nat) : nat := 32 * (t / 32) + Nat.lxor (t `mod` 32) mask.

(** The threads of warp [w] exchange values; a lane that does not exist has any value. *)
Definition shuffled (w : nat) (ts ts' : list (Code A F)) : Prop :=
  length ts' = length ts ∧ 32 * w < length ts ∧
  ∀ t, t < length ts →
    if decide (t / 32 = w) then
      ∃ v mask k x, mask < 32 ∧ ts !! t = Some (ShflXor v mask k) ∧ ts' !! t = Some (k x) ∧
        ∀ v' mask' k', ts !! partner t mask = Some (ShflXor v' mask' k') → x = v'
    else ts' !! t = ts !! t.

(** A step of a block on the memory of the device: an access of one thread, a barrier
    that all threads have reached, a shuffle that all threads of a warp have reached. *)
Inductive block_step : CudaBlock A F * list A → CudaBlock A F * list A → Prop :=
  | step_load t c k v ts sh out :
      ts !! t = Some (LoadShared c k) → sh !! c = Some v →
      block_step (mkCudaBlock ts sh, out) (mkCudaBlock (<[t:=k v]> ts) sh, out)
  | step_store t c v p ts sh out :
      ts !! t = Some (StoreShared c v p) → c < length sh →
      block_step (mkCudaBlock ts sh, out) (mkCudaBlock (<[t:=p]> ts) (<[c:=v]> sh), out)
  | step_global t i v p ts sh out :
      ts !! t = Some (StoreGlobal i v p) → i < length out →
      block_step (mkCudaBlock ts sh, out) (mkCudaBlock (<[t:=p]> ts) sh, <[i:=v]> out)
  | step_sync p ps sh out :
      block_step (mkCudaBlock (Syncthreads <$> p :: ps) sh, out) (mkCudaBlock (p :: ps) sh, out)
  | step_shfl w ts ts' sh out :
      shuffled w ts ts' → block_step (mkCudaBlock ts sh, out) (mkCudaBlock ts' sh, out).

(** A step of any block of the grid. *)
Inductive cuda_step : list (CudaBlock A F) * list A → list (CudaBlock A F) * list A → Prop :=
  | cuda_block bs i b b' out out' :
      bs !! i = Some b → block_step (b, out) (b', out') → cuda_step (bs, out) (<[i:=b']> bs, out').

(** All threads have ended. *)
Definition halted (bs : list (CudaBlock A F)) : Prop := Forall (λ b, Forall (λ t, t = Halt) (b_threads b)) bs.
End machine.

(** ** Arithmetic *)

(** The conversions, the product of two elements, and the functions of libtorch and of
    the device. *)
Class NormOps (A F : Type) := {
  nf_float : A → F;
  nf_cast : F → A;
  nf_product : A → A → A;
  nf_of_nat : nat → F;
  nf_one : F;
  nf_sub : F → F → F;
  nf_div : F → F → F;
  nf_square : F → F;
  nf_sqrt : F → F;
  nf_rsqrt : F → F;
}.

Section norm.
Context {A F : Type} `{Scalar F} `{NormOps A F}.

(** ** Reductions *)

(** The masks of [for (int mask = 16; mask > 0; mask >>= 1)]. *)
Definition shuffle_masks : list nat := [16; 8; 4; 2; 1].

Fixpoint shuffle_sum (masks : list nat) (val : F) (k : F → Code A F) : Code A F :=
  match masks with
  | [] => k val
  | mask :: masks => ShflXor val mask (λ x, shuffle_sum masks (s_add val x) k)
  end.
Definition warp_reduce_sum (val : F) (k : F → Code A F) : Code A F := shuffle_sum shuffle_masks val k.

(** [block_reduce_sum]; [shared] is the cells 0 to 31. *)
Definition block_reduce_sum (blockDim threadIdx : nat) (val : F) (k : F → Code A F) : Code A F :=
  let lane := Nat.land threadIdx 31 in
  let wid := Nat.shiftr threadIdx 5 in
  warp_reduce_sum val (λ val,
    let rest := Syncthreads (if decide (32 * threadIdx < blockDim)
                             then LoadShared lane (λ x, warp_reduce_sum x k)
                             else warp_reduce_sum s_zero k) in
    if decide (lane = 0) then StoreShared wid val rest else rest).

(** The other cells of the shared memory. *)
Definition s_variance : nat := 32.
Definition s_mean : nat := 33.

(** [if (tidx == 0) cell = v; __syncthreads();] *)
Definition publish (threadIdx cell : nat) (v : F) (p : Code A F) : Code A F :=
  if decide (threadIdx = 0) then StoreShared cell v (Syncthreads p) else Syncthreads p.

(** ** Kernels *)

(** The elements of the row of the block. *)
Definition row_element (d : A) (input : list A) (n bidx i : nat) : F := nf_float (read d input (bidx * n + i)).

Definition sum_of_squares (d : A) (input : list A) (n bidx : nat) (idx : list nat) : F :=
  foldl (λ acc i, let x := row_element d input n bidx i in s_add acc (s_mul x x)) s_zero idx.

(** The last loop of [rms_norm_kernel] and [gemma_rms_norm_kernel]. *)
Fixpoint rms_loop (store : nat → F → A) (base : nat) (idx : list nat) : Code A F :=
  match idx with
  | [] => Halt
  | i :: idx => LoadShared s_variance (λ s, StoreGlobal (base + i) (store i s) (rms_loop store base idx))
  end.

Definition rms_kernel_with (store : nat → nat → F → A) (d : A) (input : list A) (epsilon : F) (n block bidx tidx : nat) : Code A F :=
  let idx := strided (S n) tidx n block in
  block_reduce_sum block tidx (sum_of_squares d input n bidx idx) (λ variance,
    publish tidx s_variance (nf_rsqrt (s_add (nf_div variance (nf_of_nat n)) epsilon))
      (rms_loop (store bidx) (bidx * n) idx)).

Definition rms_store (d : A) (input weight : list A) (n bidx i : nat) (s : F) : A :=
  nf_product (nf_cast (s_mul (row_element d input n bidx i) s)) (read d weight i).
Definition gemma_store (d : A) (input weight : list A) (n bidx i : nat) (s : F) : A :=
  nf_cast (s_mul (s_mul (row_element d input n bidx i) s) (s_add nf_one (nf_float (read d weight i)))).

Definition rms_norm_kernel (d : A) (input weight : list A) (epsilon : F) (n : nat) : nat → nat → nat → Code A F :=
  rms_kernel_with (rms_store d input weight n) d input epsilon n.
Definition gemma_rms_norm_kernel (d : A) (input weight : list A) (epsilon : F) (n : nat) : nat → nat → nat → Code A F :=
  rms_kernel_with (gemma_store d input weight n) d input epsilon n.

(** The second and the third loop of [layer_norm_kernel]. *)
Fixpoint variance_loop (d : A) (input : list A) (n bidx : nat) (idx : list nat) (variance : F) (k : F → Code A F) : Code A F :=
  match idx with
  | [] => k variance
  | i :: idx =>
      LoadShared s_mean (λ mean,
        let x := nf_sub (row_element d input n bidx i) mean in
        variance_loop d input n bidx idx (s_add variance (s_mul x x)) k)
  end.
Fixpoint layer_loop (store : nat → F → F → A) (base : nat) (idx : list nat) : Code A F :=
  match idx with
  | [] => Halt
  | i :: idx =>
      LoadShared s_mean (λ mean, LoadShared s_variance (λ s,
        StoreGlobal (base + i) (store i mean s) (layer_loop store base idx)))
  end.

Definition layer_store (d : A) (input weight : list A) (bias : option (list A)) (n bidx i : nat) (mean s : F) : A :=
  let local_out := s_mul (s_mul (nf_sub (row_element d input n bidx i) mean) s) (nf_float (read d weight i)) in
  nf_cast (match bias with Some b => s_add local_out (nf_float (read d b i)) | None => local_out end).

Definition layer_norm_kernel (d : A) (input weight : list A) (bias : option (list A)) (epsilon : F) (n block bidx tidx : nat) : Code A F :=
  let idx := strided (S n) tidx n block in
  block_reduce_sum block tidx (foldl (λ acc i, s_add acc (row_element d input n bidx i)) s_zero idx) (λ mean,
    publish tidx s_mean (nf_div mean (nf_of_nat n))
      (variance_loop d input n bidx idx s_zero (λ variance,
        block_reduce_sum block tidx variance (λ variance,
          publish tidx s_variance (nf_rsqrt (s_add (nf_div variance (nf_of_nat n)) epsilon))
            (layer_loop (layer_store d input weight bias n bidx) (bidx * n) idx))))).

(** [rms_norm], [gemma_rms_norm] and [layer_norm]: the grid that they launch on [rows]
    rows of [n] elements; [shared] is what the shared memory of a block holds. *)
Definition launch_norm (kernel : nat → nat → nat → Code A F) (shared : nat → list F) (rows n : nat) : list (CudaBlock A F) :=
  let block := Nat.min n 1024 in
  (λ bidx, mkCudaBlock (kernel block bidx <$> seq 0 block) (shared bidx)) <$> seq 0 rows.

(** ** The functions of [detail] *)

(** [norm] of a row. *)
Definition norm_row (eps : F) (x : list F) : list F :=
  let mean := nf_div (sum (nf_square <$> x)) (nf_of_nat (length x)) in
  (λ v, s_mul v (nf_rsqrt (s_add mean eps))) <$> x.

(** [rms_norm] and [gemma_rms_norm] of a row. *)
Definition rms_norm_row (weight : list A) (eps : F) (input : list A) : list A :=
  zip_with nf_product (nf_cast <$> norm_row eps (nf_float <$> input)) weight.
Definition gemma_rms_norm_row (weight : list A) (eps : F) (input : list A) : list A :=
  nf_cast <$> zip_with s_mul (norm_row eps (nf_float <$> input)) ((λ w, s_add nf_one (nf_float w)) <$> weight).

(** [rms_norm_residual] of a row: the output and the new residual. *)
Definition rms_norm_residual_row (weight : list A) (eps : F) (input residual : list A) : list A * list A :=
  let x := zip_with s_add (nf_float <$> input) (nf_float <$> residual) in
  (zip_with nf_product (nf_cast <$> norm_row eps x) weight, nf_cast <$> x).

(** [F::layer_norm] of a row, as documented: [(x - E[x]) / sqrt(Var[x] + eps) * w + b]
    with the biased variance. *)
Definition layer_norm_row (weight : list A) (bias : option (list A)) (eps : F) (input : list A) : list A :=
  let x := nf_float <$> input in
  let n := nf_of_nat (length x) in
  let mean := nf_div (sum x) n in
  let var := nf_div (sum ((λ v, let y := nf_sub v mean in s_mul y y) <$> x)) n in
  let y := zip_with s_mul ((λ v, nf_div (nf_sub v mean) (nf_sqrt (s_add var eps))) <$> x) (nf_float <$> weight) in
  nf_cast <$> match bias with Some b => zip_with s_add y (nf_float <$> b) | None => y end.
End norm.

(** ** The modules *)

(** The members of [LayerNormImpl], [RMSNormImpl], [GemmaRMSNormImpl] and
    [RMSNormResidualImpl]; only the first may have a bias. *)
Record NormImpl (A F : Type) := mkNorm {
  norm_weight_ : list A;
  norm_bias_ : option (list A);
  weight_is_loaded_ : bool;
  bias_is_loaded_ : bool;
  eps_ : F;
}.
Arguments mkNorm {A F} _ _ _ _ _.
Arguments norm_weight_ {A F} _.
Arguments norm_bias_ {A F} _.
Arguments weight_is_loaded_ {A F} _.
Arguments bias_is_loaded_ {A F} _.
Arguments eps_ {A F} _.

Section modules.
Context {A F : Type} `{Scalar F} `{NormOps A F}.

(** The constructors; [memory] is what the new weight holds, [zero] the new bias. *)
Definition NormImpl_new (memory : nat → A) (zero : A) (dim : nat) (eps : F) (bias : bool) : NormImpl A F :=
  mkNorm (memory <$> seq 0 dim) (if bias then Some (replicate dim zero) else None) false false eps.

(** [load_state_dict]. *)
Definition copy_vector {S} (t : Tensor A) (v : list A) : M S (list A) :=
  match t with
  | Vec w => _ ← check (bool_decide (length v = length w)) "size mismatch"; mret w
  | Mat _ _ => fail (CheckFailed "size mismatch")
  end.
Definition norm_load (d : StateDict A) : M (NormImpl A F) unit :=
  weight ← get_tensor d weight_name;
  _ ← match weight with
      | None => mret tt
      | Some t =>
          l ← get;
          w ← copy_vector t (norm_weight_ l);
          put (mkNorm w (norm_bias_ l) true (bias_is_loaded_ l) (eps_ l))
      end;
  l ← get;
  match norm_bias_ l with
  | None => mret tt
  | Some v =>
      bias ← get_tensor d bias_name;
      match bias with
      | None => mret tt
      | Some t => b ← copy_vector t v; put (mkNorm (norm_weight_ l) (Some b) (weight_is_loaded_ l) true (eps_ l))
      end
  end.

(** [verify_loaded_weights]. *)
Definition norm_verify {S} (l : NormImpl A F) : M S unit :=
  _ ← check (weight_is_loaded_ l) "weight is not loaded";
  check (negb (bool_decide (is_Some (norm_bias_ l))) || bias_is_loaded_ l) "bias is not loaded".
End modules.
