(* ===== verification/NormProps.v ===== *)
(** * Properties of the normalizations

    A small theory of blocks that synchronize, and the kernels of the normalizations:
    in every interleaving they compute what the functions on tensors compute. *)

From Stdlib Require Import PeanoNat.
From stdpp Require Import base tactics list relations strings.
From S2P Require Import Prelude Types Tensor StateDict Linear LinearInv Gpu Kernels KernelProps.
From S2P Require Import ActivationProps Norm.

(** ** Advancing a block

    [advances b q]: the block [b] does what the block [q] does once it has made some
    steps that do not matter to the others. *)

Section advance.
Context {A F : Type}.
Implicit Types (b q : CudaBlock A F) (out : list A) (ts : list (Code A F)) (sh : list F).

(** A step of [b] is none or the same step of [q]. *)
Definition simulates (R : CudaBlock A F → CudaBlock A F → Prop) : Prop :=
  ∀ b q b' out out', R b q → block_step (b, out) (b', out') →
    ∃ q', R b' q' ∧ ((q' = q ∧ out' = out) ∨ block_step (q, out) (q', out')).
Definition catches_up (R : CudaBlock A F → CudaBlock A F → Prop) : Prop :=
  ∀ b q out, R b q → rtc block_step (b, out) (q, out).
Definition advances b q : Prop := ∃ R, R b q ∧ simulates R ∧ catches_up R.

#[export] Instance advances_preorder : PreOrder advances.
Proof.
  split.
  - intros b. exists eq. split_and!; [done| |intros ? ? ? ->; done]. intros b1 q1 b1' out out' -> Hst. exists b1'. eauto.
  - intros b q r (R1&H1&S1&C1) (R2&H2&S2&C2). exists (λ x z, ∃ y, R1 x y ∧ R2 y z). split_and!; [eauto| |].
    + intros x z x' out out' (y&Hxy&Hyz) Hst. destruct (S1 _ _ _ _ _ Hxy Hst) as (y'&Hxy'&[[-> ->]|Hst']); [by eauto 10|].
      destruct (S2 _ _ _ _ _ Hyz Hst') as (z'&Hyz'&Hz). eauto 10.
    + intros x z out (y&Hxy&Hyz). etrans; [by apply C1|by apply C2].
Qed.

(** ** Grids *)

(** The first configuration can always go on to where the second one goes. *)
Definition syncs (c c' : list (CudaBlock A F) * list A) : Prop :=
  rtc cuda_step c c' ∧ ∀ d, rtc cuda_step c d → ∃ e, rtc cuda_step d e ∧ rtc cuda_step c' e.

#[export] Instance syncs_preorder : PreOrder syncs.
Proof.
  split.
  - intros c. split; [done|]. intros d Hd. by exists d.
  - intros c1 c2 c3 [H1 H2] [H3 H4]. split; [by etrans|]. intros d Hd. destruct (H2 d Hd) as (e&He&He').
    destruct (H4 e He') as (e'&Hee&He3). exists e'. split; [by etrans|done].
Qed.

Lemma block_run bs i b b' out out' : bs !! i = Some b → rtc block_step (b, out) (b', out') → rtc cuda_step (bs, out) (<[i:=b']> bs, out').
Proof.
  intros Hi Hr. remember (b, out) as x eqn:Ex. remember (b', out') as y eqn:Ey. revert bs b out b' out' Hi Ex Ey.
  induction Hr as [x|x z y Hst Hr IH]; intros bs b out b' out' Hi -> Ey.
  - injection Ey as <- <-. by rewrite list_insert_id.
  - destruct z as [b1 out1]. eapply rtc_l; [by eapply cuda_block|]. rewrite <-(list_insert_insert_eq bs i b' b1).
    eapply IH; [|done|done]. apply list_lookup_insert_eq. by eapply lookup_lt_Some.
Qed.

Lemma grid_catches_up bs qs out : Forall2 advances bs qs → rtc cuda_step (bs, out) (qs, out).
Proof.
  intros Hall. assert (∀ done bs', length done + length bs' = length bs → ∀ qs', Forall2 advances bs' qs' →
    rtc cuda_step (done ++ bs', out) (done ++ qs', out)) as H; [|by apply (H [] bs)].
  intros pre bs' _ qs' Hq. clear -Hq. revert pre. induction Hq as [|b q bs' qs' (R&HR&_&C) _ IH]; intros pre; [done|].
  etrans; [eapply (block_run (pre ++ b :: bs') (length pre) b q); [by apply list_lookup_middle|by apply C]|].
  rewrite insert_app_r_alt, Nat.sub_diag by lia. cbn [insert list_insert].
  specialize (IH (pre ++ [q])). by rewrite <-!app_assoc in IH.
Qed.

Lemma grid_simulates bs qs out d : Forall2 advances bs qs → rtc cuda_step (bs, out) d →
  ∃ es, rtc cuda_step (qs, out) (es, d.2) ∧ Forall2 advances d.1 es.
Proof.
  intros Hall Hr. remember (bs, out) as c eqn:Ec. revert bs qs out Hall Ec.
  induction Hr as [c|c c1 d Hst _ IH]; intros bs qs out Hall ->; [by exists qs|].
  inversion Hst as [? i b b' ? out' Hi Hb]; subst. destruct (Forall2_lookup_l _ _ _ _ _ Hall Hi) as (q&Hq&(R&HR&S&C)).
  destruct (S _ _ _ _ _ HR Hb) as (q'&HR'&Hstep).
  assert (Forall2 advances (<[i:=b']> bs) (<[i:=q']> qs)) as Hall' by (apply Forall2_insert; [done|by exists R]).
  destruct (IH _ _ _ Hall' eq_refl) as (es&Hes&Hd). exists es. split; [|done]. destruct Hstep as [[-> ->]|Hstep].
  - by rewrite list_insert_id in Hes.
  - eapply rtc_l; [|exact Hes]. by eapply cuda_block.
Qed.

Lemma advances_grid bs qs out : Forall2 advances bs qs → syncs (bs, out) (qs, out).
Proof.
  intros Hall. split; [by apply grid_catches_up|]. intros [ds out'] Hd.
  destruct (grid_simulates _ _ _ _ Hall Hd) as (es&Hes&Hds). exists (es, out'). split; [by apply grid_catches_up|done].
Qed.
End advance.

(** The lanes that exchange values are in the same warp. *)
Lemma lxor_lt a b : a < 32 → b < 32 → Nat.lxor a b < 32.
Proof.
  intros Ha Hb. assert (Forall (λ x, Forall (λ y, Nat.lxor x y < 32) (seq 0 32)) (seq 0 32)) as H.
  { apply (bool_decide_unpack _). vm_compute. done. }
  rewrite Forall_seq in H. specialize (H a ltac:(lia)). rewrite Forall_seq in H. apply H. lia.
Qed.
Lemma partner_warp t m : m < 32 → partner t m / 32 = t / 32.
Proof.
  intros Hm. unfold partner. pose proof (lxor_lt (t `mod` 32) m (Nat.mod_upper_bound t 32 ltac:(lia)) Hm).
  symmetry. apply (Nat.div_unique _ 32 _ (Nat.lxor (t `mod` 32) m)); lia.
Qed.

(** ** Loads of cells that nobody writes *)

Section loads.
Context {A F : Type}.
Implicit Types (b q : CudaBlock A F) (out : list A) (ts : list (Code A F)) (sh : list F) (p : Code A F).

(** Before its next barrier the thread does not write the cells. *)
Fixpoint quiet (C : list nat) p : Prop :=
  match p with
  | Halt | Syncthreads _ => True
  | LoadShared _ k | ShflXor _ _ k => ∀ x, quiet C (k x)
  | StoreShared c _ p => (c ∉ C) ∧ quiet C p
  | StoreGlobal _ _ p => quiet C p
  end.

(** The second code is the first one after some loads. *)
Inductive resolves (C : list nat) sh : Code A F → Code A F → Prop :=
  | resolves_same p : resolves C sh p p
  | resolves_load c k v p : c ∈ C → sh !! c = Some v → resolves C sh (k v) p → resolves C sh (LoadShared c k) p.

Definition loads_relation (C : list nat) sh0 b q : Prop :=
  b = q ∨ (b_shared b = b_shared q ∧ Forall2 (resolves C sh0) (b_threads b) (b_threads q) ∧
    Forall (quiet C) (b_threads q) ∧ ∀ c, c ∈ C → b_shared b !! c = sh0 !! c).

Lemma resolves_shfl C sh0 v m k p : resolves C sh0 (ShflXor v m k) p → p = ShflXor v m k.
Proof. by inversion 1. Qed.
Lemma resolves_sync C sh0 p0 p : resolves C sh0 (Syncthreads p0) p → p = Syncthreads p0.
Proof. by inversion 1. Qed.

Lemma resolves_syncs C sh0 (ps qs : list (Code A F)) : Forall2 (resolves C sh0) (Syncthreads <$> ps) qs → qs = Syncthreads <$> ps.
Proof.
  revert qs. induction ps as [|p ps IH]; intros qs Hq; cbn [fmap list_fmap] in *.
  - by apply Forall2_nil_inv_l in Hq.
  - apply Forall2_cons_inv_l in Hq as (y&qs'&Hy&Hqs&->). apply resolves_sync in Hy as ->. f_equal. by apply IH.
Qed.

Lemma loads_simulates C sh0 : simulates (loads_relation C sh0).
Proof.
  intros b q b' out out' HR Hst.
  destruct HR as [->|(E1&E2&E3&E4)]; [exists b'; split; [by left|by right]|]. destruct q as [qs qsh]. cbn in *. subst qsh.
  inversion Hst as [t c k v ts sh o Ht Hc|t c v p ts sh o Ht Hc|t i v p ts sh o Ht Hi|p ps sh o|w ts ts' sh o Hsh]; subst; cbn in *.
  - destruct (Forall2_lookup_l _ _ _ _ _ E2 Ht) as (q0&Hq0&Hr). inversion Hr as [|? ? v' ? HC Hv' Hr']; subst.
    + exists (mkCudaBlock (<[t:=k v]> qs) sh). split; [|right; by apply step_load with c]. right. cbn.
      pose proof (Forall_lookup_1 _ _ _ _ E3 Hq0) as Hqt. split_and!; [done|apply Forall2_insert; [done|constructor]| |done].
      apply Forall_insert; [done|by apply Hqt].
    + assert (v' = v) as -> by (rewrite <-E4 in Hv' by done; congruence).
      exists (mkCudaBlock qs sh). split; [|by left]. right. cbn. split_and!; [done| |done|done].
      rewrite <-(list_insert_id qs t q0) by done. by apply Forall2_insert.
  - destruct (Forall2_lookup_l _ _ _ _ _ E2 Ht) as (q0&Hq0&Hr). inversion Hr; subst.
    pose proof (Forall_lookup_1 _ _ _ _ E3 Hq0) as [HcC Hqp]. exists (mkCudaBlock (<[t:=p]> qs) (<[c:=v]> sh)).
    split; [|right; by apply step_store]. right. cbn. split_and!; [done|apply Forall2_insert; [done|constructor]|by apply Forall_insert|].
    intros c' Hc'. rewrite list_lookup_insert_ne by (by intros ->). by apply E4.
  - destruct (Forall2_lookup_l _ _ _ _ _ E2 Ht) as (q0&Hq0&Hr).
    inversion Hr; subst. pose proof (Forall_lookup_1 _ _ _ _ E3 Hq0) as Hqp. exists (mkCudaBlock (<[t:=p]> qs) sh).
    split; [|right; by apply step_global]. right. cbn. split_and!; [done|apply Forall2_insert; [done|constructor]|by apply Forall_insert|done].
  - assert (qs = Syncthreads <$> p :: ps) as ->.
    { apply (resolves_syncs C sh0 (p :: ps)). exact E2. }
    exists (mkCudaBlock (p :: ps) sh). split; [by left|right; apply step_sync].
  - destruct Hsh as (L&HW&Hsh). pose proof (Forall2_length _ _ _ E2) as L2.
    assert (∀ t, t / 32 = w → t < length ts → qs !! t = ts !! t) as Hsame.
    { intros t Hw Ht. specialize (Hsh t Ht). rewrite decide_True in Hsh by done. destruct Hsh as (v&m&k&x&_&H1&_).
      destruct (Forall2_lookup_l _ _ _ _ _ E2 H1) as (q0&Hq0&Hr). apply resolves_shfl in Hr as ->. by rewrite Hq0, H1. }
    set (qs' := imap (λ t p, if decide (t / 32 = w) then default p (ts' !! t) else p) qs).
    assert (∀ t, t < length ts → qs' !! t = if decide (t / 32 = w) then ts' !! t else qs !! t) as Hqs'.
    { intros t Ht. unfold qs'. rewrite list_lookup_imap. destruct (lookup_lt_is_Some_2 qs t) as [x Hx]; [lia|].
      rewrite Hx. cbn. case_decide; [|done]. destruct (lookup_lt_is_Some_2 ts' t) as [y Hy]; [lia|]. by rewrite Hy. }
    exists (mkCudaBlock qs' sh). split.
    + right. cbn. split_and!; [done| | |done].
      * apply Forall2_same_length_lookup. split; [unfold qs'; rewrite length_imap; lia|]. intros t x y Hx Hy.
        assert (t < length ts) as Ht by (apply lookup_lt_Some in Hx; lia). rewrite Hqs' in Hy by done. specialize (Hsh t Ht). case_decide.
        -- rewrite Hx in Hy. injection Hy as <-. constructor.
        -- rewrite Hsh in Hx. by apply (Forall2_lookup_lr _ _ _ _ _ _ E2 Hx Hy).
      * apply Forall_lookup. intros t x Hx. assert (t < length ts) as Ht by (apply lookup_lt_Some in Hx; unfold qs' in Hx; rewrite length_imap in Hx; lia).
        rewrite Hqs' in Hx by done. case_decide as Hw; [|by apply (Forall_lookup_1 _ _ _ _ E3 Hx)].
        specialize (Hsh t Ht). rewrite decide_True in Hsh by done. destruct Hsh as (v&m&k&z&_&H1&H2&_). rewrite H2 in Hx. injection Hx as <-.
        rewrite <-Hsame in H1 by done. apply (Forall_lookup_1 _ _ _ _ E3 H1).
    + right. apply step_shfl with w. split_and!; [unfold qs'; by rewrite length_imap|lia|]. intros t Ht. rewrite <-L2 in Ht. rewrite Hqs' by done.
      specialize (Hsh t Ht). case_decide as Hw; [|done]. destruct Hsh as (v&m&k&x&Hm&H1&H2&H3). exists v, m, k, x.
      split_and!; [done|by rewrite Hsame|done|]. intros v' m' k' Hp. eapply H3. rewrite <-Hsame; [exact Hp|by rewrite partner_warp|].
      apply lookup_lt_Some in Hp. lia.
Qed.

Lemma loads_one C sh0 ts sh t p p' out : resolves C sh0 p p' → (∀ c, c ∈ C → sh !! c = sh0 !! c) → ts !! t = Some p →
  rtc block_step (mkCudaBlock ts sh, out) (mkCudaBlock (<[t:=p']> ts) sh, out).
Proof.
  intros Hr Hsh. revert ts. induction Hr as [p|c k v p HC Hv _ IH]; intros ts Ht; [by rewrite list_insert_id|].
  eapply rtc_l; [eapply step_load; [exact Ht|by rewrite Hsh]|]. rewrite <-(list_insert_insert_eq ts t p (k v)).
  apply IH. apply list_lookup_insert_eq. by eapply lookup_lt_Some.
Qed.

Lemma loads_catches_up C sh0 : catches_up (loads_relation C sh0).
Proof.
  intros b q out [->|(E1&E2&_&E4)]; [done|]. destruct b as [ts sh], q as [qs qsh]. cbn in *. subst qsh.
  assert (∀ pre, rtc block_step (mkCudaBlock (pre ++ ts) sh, out) (mkCudaBlock (pre ++ qs) sh, out)) as H; [|apply (H [])].
  induction E2 as [|p p' ts qs Hp _ IH]; intros pre; [done|].
  etrans; [eapply (loads_one C sh0 _ _ (length pre) p p'); [done|done|by apply list_lookup_middle]|].
  rewrite insert_app_r_alt, Nat.sub_diag by lia. cbn [insert list_insert]. specialize (IH (pre ++ [p'])). by rewrite <-!app_assoc in IH.
Qed.

(** The loads of all threads, when the cells stay until the next barrier. *)
Lemma loads_advance C ts qs sh : Forall2 (resolves C sh) ts qs → Forall (quiet C) qs → advances (mkCudaBlock ts sh) (mkCudaBlock qs sh).
Proof.
  intros Hr Hq. exists (loads_relation C sh). split_and!; [|apply loads_simulates|apply loads_catches_up]. right. by split_and!.
Qed.
End loads.

(** ** Stores before a barrier *)

Section stores.
Context {A F : Type} (T : nat) (k : nat → Code A F) (HT : 0 < T).
Implicit Types (sh : list F) (pend : nat → option (nat * F)).

Definition store_code pend (t : nat) : Code A F :=
  match pend t with Some (c, v) => StoreShared c v (Syncthreads (k t)) | None => Syncthreads (k t) end.

(** The memory when all stores are made. *)
Definition stores_to pend sh sh' : Prop :=
  length sh' = length sh ∧ (∀ t c v, t < T → pend t = Some (c, v) → sh' !! c = Some v) ∧
  ∀ c, (∀ t v, t < T → pend t ≠ Some (c, v)) → sh' !! c = sh !! c.

Definition stores_relation sh' (b q : CudaBlock A F) : Prop :=
  b = q ∨ ∃ pend sh, b = mkCudaBlock (store_code pend <$> seq 0 T) sh ∧ stores_to pend sh sh' ∧ q = mkCudaBlock (k <$> seq 0 T) sh'.

Lemma store_made pend sh sh' t c v : t < T → pend t = Some (c, v) → stores_to pend sh sh' →
  let pend' := λ u, if decide (u = t) then None else pend u in
  stores_to pend' (<[c:=v]> sh) sh' ∧ <[t:=Syncthreads (k t)]> (store_code pend <$> seq 0 T) = store_code pend' <$> seq 0 T.
Proof.
  intros Ht Hp (S1&S2&S3) pend'. split; [split_and!|].
  - by rewrite length_insert.
  - intros u c' v' Hu. unfold pend'. case_decide; [done|]. by apply S2.
  - intros c' Hc'. pose proof (S2 _ _ _ Ht Hp) as Hv. destruct (decide (c' = c)) as [->|Hne].
    + rewrite Hv, list_lookup_insert_eq; [done|]. rewrite <-S1. by eapply lookup_lt_Some.
    + rewrite list_lookup_insert_ne by done. apply S3. intros u v' Hu. destruct (decide (u = t)) as [->|Hut]; [congruence|].
      specialize (Hc' u v' Hu). unfold pend' in Hc'. by rewrite decide_False in Hc'.
  - apply list_eq. intros u. destruct (decide (u = t)) as [->|Hut].
    + rewrite list_lookup_insert_eq by (by rewrite length_fmap, length_seq). rewrite list_lookup_fmap, lookup_seq_lt by done. cbn.
      unfold store_code, pend'. by rewrite decide_True.
    + rewrite list_lookup_insert_ne, !list_lookup_fmap by done. destruct (seq 0 T !! u) as [x|] eqn:Ex; [|done].
      apply lookup_seq in Ex as [-> _]. cbn. unfold store_code, pend'. by rewrite decide_False.
Qed.

Lemma stores_done pend sh sh' : (∀ t, t < T → pend t = None) → stores_to pend sh sh' →
  sh' = sh ∧ store_code pend <$> seq 0 T = Syncthreads <$> (k <$> seq 0 T).
Proof.
  intros Hn (S1&S2&S3). split.
  - apply list_eq. intros c. apply S3. intros t v Ht. by rewrite Hn.
  - rewrite <-list_fmap_compose. apply list_fmap_ext. intros i t Ht. apply lookup_seq in Ht as [-> Ht]. cbn. unfold store_code. by rewrite Hn.
Qed.

Lemma stores_thread pend t p : (store_code pend <$> seq 0 T) !! t = Some p → t < T ∧ p = store_code pend t.
Proof.
  rewrite list_lookup_fmap. intros (x&Hx&->)%fmap_Some. apply lookup_seq in Hx as [-> Hx]. done.
Qed.

Lemma stores_simulates sh' : simulates (stores_relation sh').
Proof.
  intros b q b' out out' [->|(pend&sh&->&Hs&->)] Hst; [exists b'; split; [by left|by right]|].
  exists (mkCudaBlock (k <$> seq 0 T) sh').
  inversion Hst as [t c k' v ts sh1 o Ht Hc|t c v p ts sh1 o Ht Hc|t i v p ts sh1 o Ht Hi|p ps sh1 o Hts|w ts ts' sh1 o Hsh]; subst.
  - apply stores_thread in Ht as [_ Ht]. unfold store_code in Ht. by destruct (pend t) as [[]|].
  - apply stores_thread in Ht as [Hlt Ht]. unfold store_code in Ht. destruct (pend t) as [[c' v']|] eqn:Hp; [|done].
    injection Ht as <- <- ->. destruct (store_made _ _ _ _ _ _ Hlt Hp Hs) as [Hs' ->]. split; [|by left]. right. by eexists _, _.
  - apply stores_thread in Ht as [_ Ht]. unfold store_code in Ht. by destruct (pend t) as [[]|].
  - change (Syncthreads <$> p :: ps = store_code pend <$> seq 0 T) in Hts.
    assert (∀ t, t < T → pend t = None) as Hn.
    { intros t Ht. assert ((store_code pend <$> seq 0 T) !! t = Some (store_code pend t)) as Hl by (by rewrite list_lookup_fmap, lookup_seq_lt).
      rewrite <-Hts in Hl. rewrite list_lookup_fmap in Hl. apply fmap_Some in Hl as (x&_&Hx). unfold store_code in Hx.
      by destruct (pend t) as [[]|]. }
    destruct (stores_done _ _ _ Hn Hs) as [-> Heq]. split; [|by left]. left. f_equal. rewrite Heq in Hts.
    assert (Inj (=) (=) (@Syncthreads A F)) by (by intros ? ? [= ->]). by apply (inj (fmap Syncthreads)) in Hts.
  - destruct Hsh as (_&HW&Hsh). specialize (Hsh (32 * w) HW). rewrite decide_True in Hsh by (rewrite Nat.mul_comm; by apply Nat.div_mul).
    destruct Hsh as (v&m&k'&x&_&Ht&_). apply stores_thread in Ht as [_ Ht]. unfold store_code in Ht. by destruct (pend (32 * w)) as [[]|].
Qed.

Lemma stores_catches_up sh' : catches_up (stores_relation sh').
Proof using HT.
  intros b q out [->|(pend&sh&->&Hs&->)]; [done|].
  assert (∀ n pend sh, n ≤ T → (∀ t, t < T → n ≤ t → pend t = None) → stores_to pend sh sh' →
    rtc block_step (mkCudaBlock (store_code pend <$> seq 0 T) sh, out) (mkCudaBlock (k <$> seq 0 T) sh', out)) as H.
  { clear pend sh Hs. induction n as [|n IH]; intros pend sh Hn Hp Hs.
    - destruct (stores_done pend sh sh') as [-> ->]; [intros t Ht; apply Hp; lia|done|]. apply rtc_once.
      destruct T as [|T']; [lia|]. cbn [seq]. apply step_sync.
    - destruct (pend n) as [[c v]|] eqn:Hpn.
      + pose proof Hs as (S1&S2&_). destruct (store_made _ _ _ _ _ _ Hn Hpn Hs) as [Hs' Heq].
        eapply rtc_l; [eapply (step_store n c v); [rewrite list_lookup_fmap, lookup_seq_lt by done; cbn; unfold store_code; by rewrite Hpn|]|].
        * rewrite <-S1. eapply lookup_lt_Some. by apply (S2 n c v).
        * rewrite Heq. apply IH; [lia| |done]. intros t Ht Hnt. case_decide; [done|]. apply Hp; lia.
      + apply IH; [lia| |done]. intros t Ht Hnt. destruct (decide (t = n)) as [->|]; [done|]. apply Hp; lia. }
  apply (H T); [done|lia|done].
Qed.

Lemma stores_advance pend sh sh' : stores_to pend sh sh' →
  advances (mkCudaBlock (store_code pend <$> seq 0 T) sh) (mkCudaBlock (k <$> seq 0 T) sh').
Proof using HT.
  intros Hs. exists (stores_relation sh'). split_and!; [|apply stores_simulates|apply stores_catches_up]. right. by eexists _, _.
Qed.
End stores.

(** ** Shuffles of full warps *)

Section shuffle.
Context {A F : Type} (W mask : nat) (Hmask : mask < 32) (v : nat → F) (k : nat → F → Code A F).
Abbreviation T := (32 * W).
Abbreviation before := (λ t, ShflXor (v t) mask (k t)).
Abbreviation after := (λ t, k t (v (partner t mask))).
Implicit Types (b q : CudaBlock A F) (ts qs : list (Code A F)).

Definition waiting (w : nat) ts qs : Prop := ∀ t, t < T → t / 32 = w → ts !! t = Some (before t) ∧ qs !! t = Some (after t).
Definition together (w : nat) ts qs : Prop := ∀ t, t < T → t / 32 = w → ts !! t = qs !! t.
Record shuffle_relation b q : Prop := {
  sr_shared : b_shared b = b_shared q;
  sr_left : length (b_threads b) = T;
  sr_right : length (b_threads q) = T;
  sr_warps : ∀ w, w < W → waiting w (b_threads b) (b_threads q) ∨ together w (b_threads b) (b_threads q);
}.

Lemma warp_lt t : t < T → t / 32 < W.
Proof. intros Ht. apply Nat.Div0.div_lt_upper_bound. lia. Qed.

(** A thread that is not at the shuffle is the same in both. *)
Lemma shuffle_moved b q t p : shuffle_relation b q → b_threads b !! t = Some p → p ≠ before t →
  t < T ∧ together (t / 32) (b_threads b) (b_threads q) ∧ b_threads q !! t = Some p.
Proof.
  intros [R1 R2 R3 R4] Hp Hne. assert (t < T) as Ht by (rewrite <-R2; by eapply lookup_lt_Some).
  destruct (R4 (t / 32) (warp_lt t Ht)) as [Hw|Hw]; [destruct (Hw t Ht eq_refl); congruence|].
  split_and!; [done|done|]. by rewrite <-(Hw t Ht eq_refl).
Qed.

Lemma shuffle_insert b q t p p' sh' : shuffle_relation b q → b_threads b !! t = Some p → p ≠ before t →
  shuffle_relation (mkCudaBlock (<[t:=p']> (b_threads b)) sh') (mkCudaBlock (<[t:=p']> (b_threads q)) sh').
Proof.
  intros HR Hp Hne. destruct (shuffle_moved b q t p HR Hp Hne) as (Ht&Htog&Hq). destruct HR as [R1 R2 R3 R4].
  split; cbn; [done|by rewrite length_insert|by rewrite length_insert|]. intros w Hw. destruct (decide (w = t / 32)) as [->|Hwt].
  - right. intros u Hu Huw. destruct (decide (u = t)) as [->|Hut]; [by rewrite !list_lookup_insert_eq by lia|].
    rewrite !list_lookup_insert_ne by done. by apply Htog.
  - destruct (R4 w Hw) as [Hx|Hx]; [left|right]; intros u Hu Huw; (assert (u ≠ t) by (intros ->; congruence));
      rewrite !list_lookup_insert_ne by done; by apply Hx.
Qed.

Lemma shuffle_simulates : 0 < W → simulates shuffle_relation.
Proof using Hmask.
  intros HW0 b q b' out out' HR Hst. pose proof HR as [R1 R2 R3 R4]. destruct q as [qs qsh]. cbn in R1. subst qsh.
  inversion Hst as [t c k' x ts sh o Ht Hc|t c x p ts sh o Ht Hc|t i x p ts sh o Ht Hi|p ps sh o Hts|w ts ts' sh o Hsh]; subst.
  - exists (mkCudaBlock (<[t:=k' x]> qs) sh). split; [exact (shuffle_insert _ _ t _ _ sh HR Ht ltac:(done))|]. right.
    apply (step_load t c); [|done]. by eapply (shuffle_moved _ _ t _ HR Ht).
  - exists (mkCudaBlock (<[t:=p]> qs) (<[c:=x]> sh)). split; [exact (shuffle_insert _ _ t _ _ (<[c:=x]> sh) HR Ht ltac:(done))|]. right.
    apply step_store; [|done]. by eapply (shuffle_moved _ _ t _ HR Ht).
  - exists (mkCudaBlock (<[t:=p]> qs) sh). split; [exact (shuffle_insert _ _ t _ _ sh HR Ht ltac:(done))|]. right.
    apply step_global; [|done]. by eapply (shuffle_moved _ _ t _ HR Ht).
  - assert (length (p :: ps) = T) as Lp by (rewrite <-(length_fmap Syncthreads (p :: ps)); exact R2).
    assert (qs = Syncthreads <$> p :: ps) as ->.
    { apply list_eq. intros t. destruct (decide (t < T)) as [Ht|Ht].
      - destruct (lookup_lt_is_Some_2 (p :: ps) t) as [x Hx]; [lia|].
        assert ((Syncthreads <$> p :: ps) !! t = Some (Syncthreads x)) as Hl by (by rewrite list_lookup_fmap, Hx).
        destruct (shuffle_moved _ _ t (Syncthreads x) HR Hl ltac:(done)) as (_&_&Hq). by rewrite Hl.
      - cbn [b_threads] in R3. by rewrite !lookup_ge_None_2 by (rewrite ?length_fmap; lia). }
    exists (mkCudaBlock (p :: ps) sh). split; [|right; apply step_sync].
    split; cbn [b_threads b_shared]; [done|lia|lia|]. intros w Hw. right. by intros t Ht Htw.
  - cbn [b_threads] in R2, R3. destruct Hsh as (L&HW&Hsh). assert (w < W) as Hw by lia. destruct (R4 w Hw) as [Hwait|Htog]; cbn [b_threads] in *.
    + exists (mkCudaBlock qs sh). split; [|by left]. split; cbn [b_threads b_shared]; [done|lia|done|]. intros w' Hw'. destruct (decide (w' = w)) as [->|Hne].
      * right. intros t Ht Htw. specialize (Hsh t ltac:(lia)). rewrite decide_True in Hsh by done. destruct Hsh as (v1&m1&k1&x&_&H1&H2&H3).
        destruct (Hwait t Ht Htw) as [E1 E2]. rewrite E1 in H1. injection H1 as <- <- <-. rewrite H2, E2. do 2 f_equal.
        assert (partner t mask / 32 = w) as Hp by (by rewrite partner_warp).
        assert (partner t mask < T) as Hpt.
        { unfold partner in *. pose proof (lxor_lt (t `mod` 32) mask (Nat.mod_upper_bound t 32 ltac:(lia)) Hmask). lia. }
        destruct (Hwait _ Hpt Hp) as [E3 _]. by eapply H3.
      * destruct (R4 w' Hw') as [Hx|Hx]; [left|right]; intros t Ht Htw; specialize (Hsh t ltac:(lia)); rewrite decide_False in Hsh by congruence;
          rewrite Hsh; by apply Hx.
    + set (qs' := imap (λ t p, if decide (t / 32 = w) then default p (ts' !! t) else p) qs).
      assert (∀ t, t < T → qs' !! t = if decide (t / 32 = w) then ts' !! t else qs !! t) as Hqs'.
      { intros t Ht. unfold qs'. rewrite list_lookup_imap. destruct (lookup_lt_is_Some_2 qs t) as [x Hx]; [lia|].
        rewrite Hx. cbn. case_decide; [|done]. destruct (lookup_lt_is_Some_2 ts' t) as [y Hy]; [lia|]. by rewrite Hy. }
      assert (length qs' = T) as Lq by (unfold qs'; rewrite length_imap; lia).
      exists (mkCudaBlock qs' sh). split.
      * split; cbn [b_threads b_shared]; [done|lia|done|]. intros w' Hw'. destruct (decide (w' = w)) as [->|Hne].
        -- right. intros t Ht Htw. by rewrite Hqs', decide_True.
        -- destruct (R4 w' Hw') as [Hx|Hx]; [left|right]; intros t Ht Htw; specialize (Hsh t ltac:(lia)); rewrite decide_False in Hsh by congruence;
             rewrite Hsh, Hqs', decide_False by (done || congruence); by apply Hx.
      * right. apply step_shfl with w. split_and!; [lia|lia|]. intros t Ht. rewrite R3 in Ht. rewrite Hqs' by done. specialize (Hsh t ltac:(lia)).
        case_decide as Htw; [|done]. destruct Hsh as (v1&m1&k1&x&Hm&H1&H2&H3). exists v1, m1, k1, x. split_and!; [done|by rewrite <-(Htog t)|done|].
        intros v' m' k' Hp. eapply H3. rewrite (Htog (partner t m1)); [exact Hp| |by rewrite partner_warp].
        apply lookup_lt_Some in Hp. lia.
Qed.

Lemma shuffle_catches_up : catches_up shuffle_relation.
Proof using Hmask.
  intros b q out HR. assert (∀ n b, n ≤ W → shuffle_relation b q → (∀ w, n ≤ w → w < W → together w (b_threads b) (b_threads q)) →
    rtc block_step (b, out) (q, out)) as H; [|apply (H W b); [done|done|lia]]. clear b HR.
  induction n as [|n IH]; intros b Hn HR Htog; pose proof HR as [R1 R2 R3 R4].
  - assert (b = q) as ->; [|done]. destruct b as [ts sh], q as [qs qsh]. cbn in *. f_equal; [|done]. apply list_eq. intros t.
    destruct (decide (t < T)) as [Ht|Ht]; [by apply (Htog (t / 32)); [lia|by apply warp_lt| |]|by rewrite !lookup_ge_None_2 by lia].
  - destruct (R4 n ltac:(lia)) as [Hwait|Hn']; [|apply IH; [lia|done|]; intros w Hw1 Hw2; destruct (decide (w = n)) as [->|]; [done|apply Htog; lia]].
    destruct b as [ts sh], q as [qs qsh]. cbn in *. subst qsh.
    set (ts' := imap (λ t p, if decide (t / 32 = n) then after t else p) ts).
    assert (∀ t, t < T → ts' !! t = if decide (t / 32 = n) then Some (after t) else ts !! t) as Hts'.
    { intros t Ht. unfold ts'. rewrite list_lookup_imap. destruct (lookup_lt_is_Some_2 ts t) as [x Hx]; [lia|]. rewrite Hx. cbn. by case_decide. }
    eapply rtc_l; [apply (step_shfl n _ ts')|apply IH].
    + split_and!; [unfold ts'; by rewrite length_imap|lia|]. intros t Ht. rewrite R2 in Ht. rewrite Hts' by done. case_decide as Htn; [|done].
      destruct (Hwait t Ht Htn) as [E1 _]. exists (v t), mask, (k t), (v (partner t mask)). split_and!; [done|done|done|].
      intros v' m' k' Hp. assert (partner t mask < T) as Hpt by (apply lookup_lt_Some in Hp; lia).
      destruct (Hwait (partner t mask) Hpt) as [E2 _]; [by rewrite partner_warp|]. rewrite E2 in Hp. by injection Hp.
    + lia.
    + split; cbn; [done|unfold ts'; rewrite length_imap; lia|done|]. intros w Hw. destruct (decide (w = n)) as [->|Hne].
      * right. intros t Ht Htn. rewrite Hts', decide_True by done. by destruct (Hwait t Ht Htn) as [_ ->].
      * destruct (R4 w Hw) as [Hx|Hx]; [left|right]; intros t Ht Htw; rewrite Hts', decide_False by (done || congruence); by apply Hx.
    + intros w Hw1 Hw2 t Ht Htw. cbn. destruct (decide (w = n)) as [->|Hne].
      * rewrite Hts', decide_True by done. by destruct (Hwait t Ht Htw) as [_ ->].
      * rewrite Hts', decide_False by (done || congruence). apply (Htog w); [lia|lia|done|done].
Qed.

Lemma shuffle_advance sh : 0 < W → advances (mkCudaBlock (before <$> seq 0 T) sh) (mkCudaBlock (after <$> seq 0 T) sh).
Proof using Hmask.
  intros HW. exists shuffle_relation. split_and!; [|by apply shuffle_simulates|apply shuffle_catches_up].
  split; cbn [b_shared b_threads]; [done|by rewrite length_fmap, length_seq|by rewrite length_fmap, length_seq|].
  intros w Hw. left. intros t Ht Htw. by rewrite !list_lookup_fmap, lookup_seq_lt.
Qed.
End shuffle.

(** ** Reductions *)

Section reduce.
Context {A F : Type} `{ScalarLaws F}.
Implicit Types (v : nat → F) (sh : list F).

(** What a thread has after the shuffles with the masks. *)
Fixpoint butterfly (masks : list nat) v (t : nat) : F :=
  match masks with
  | [] => v t
  | m :: masks => butterfly masks (λ u, s_add (v u) (v (partner u m))) t
  end.

Lemma shuffle_sum_advance W masks v (k : nat → F → Code A F) sh : 0 < W → Forall (λ m, m < 32) masks →
  advances (mkCudaBlock ((λ t, shuffle_sum masks (v t) (k t)) <$> seq 0 (32 * W)) sh)
    (mkCudaBlock ((λ t, k t (butterfly masks v t)) <$> seq 0 (32 * W)) sh).
Proof.
  intros HW Hm. revert v. induction Hm as [|m masks Hm _ IH]; intros v; [done|]. cbn [shuffle_sum butterfly].
  etrans; [apply (shuffle_advance W m Hm v (λ t x, shuffle_sum masks (s_add (v t) x) (k t)) sh HW)|]. apply IH.
Qed.

(** The lanes whose values it has added up. *)
Fixpoint lanes (masks : list nat) (t : nat) : list nat :=
  match masks with [] => [t] | m :: masks => lanes masks t ≫= λ u, [u; partner u m] end.

Lemma sum_bind_pair v (f : nat → nat) l : sum (v <$> (l ≫= λ u, [u; f u])) = sum ((λ u, s_add (v u) (v (f u))) <$> l).
Proof using Type*.
  induction l as [|u l IH]; [done|]. cbn [mbind list_bind fmap list_fmap app]. cbn [sum foldr]. unfold sum in IH. cbn [fmap list_fmap] in IH.
  change (list_fmap nat F v) with (fmap (M := list) v). rewrite IH. by rewrite (assoc s_add).
Qed.

Lemma butterfly_lanes masks t : ∀ v, butterfly masks v t = sum (v <$> lanes masks t).
Proof using Type*.
  induction masks as [|m masks IH]; intros v; cbn [butterfly lanes].
  - cbn. by rewrite (right_id s_zero s_add).
  - rewrite IH. symmetry. apply sum_bind_pair.
Qed.

Lemma sum_perm (l l' : list F) : l ≡ₚ l' → sum l = sum l'.
Proof using Type*.
  unfold sum. induction 1 as [|x l l' _ IH|x y l|l1 l2 l3 _ IH1 _ IH2]; cbn; [done|by rewrite IH| |by rewrite IH1].
  rewrite !(assoc s_add). by rewrite (comm s_add y x).
Qed.

Lemma lanes_lt masks t : t < 32 → Forall (λ m, m < 32) masks → Forall (λ u, u < 32) (lanes masks t).
Proof.
  intros Ht. induction 1 as [|m masks Hm _ IH]; [by apply Forall_singleton|]. cbn [lanes]. apply Forall_forall. intros u Hu.
  apply list_elem_of_bind in Hu as (x&Hu&Hx). rewrite Forall_forall in IH. specialize (IH x Hx).
  assert (partner x m < 32) by (unfold partner; rewrite Nat.div_small, Nat.mod_small by done; cbn [Nat.mul Nat.add]; by apply lxor_lt).
  apply elem_of_cons in Hu as [->|Hu]; [done|]. apply elem_of_cons in Hu as [->|Hu]; [done|by apply not_elem_of_nil in Hu].
Qed.

Lemma lanes_shift masks w t : t < 32 → Forall (λ m, m < 32) masks → lanes masks (32 * w + t) = (λ u, 32 * w + u) <$> lanes masks t.
Proof.
  intros Ht. induction 1 as [|m masks Hm Hms IH]; [done|]. cbn [lanes]. rewrite IH.
  pose proof (lanes_lt masks t Ht Hms) as Hlt. revert Hlt. generalize (lanes masks t) as l. induction 1 as [|u l Hu _ IHl]; [done|].
  cbn [fmap list_fmap mbind list_bind app] in *. rewrite IHl. do 2 f_equal. unfold partner. rewrite (Nat.div_small u), (Nat.mod_small u) by done.
  replace ((32 * w + u) / 32) with w by (apply (Nat.div_unique _ 32 _ u); lia).
  replace ((32 * w + u) `mod` 32) with u by (apply (Nat.mod_unique _ 32 w); lia). lia.
Qed.

Lemma shuffle_masks_lt : Forall (λ m, m < 32) shuffle_masks.
Proof. repeat constructor; lia. Qed.

Lemma all_lanes t : t < 32 → lanes shuffle_masks t ≡ₚ seq 0 32.
Proof.
  intros Ht. assert (Forall (λ t, length (lanes shuffle_masks t) = 32 ∧ Forall (λ x, x ∈ lanes shuffle_masks t) (seq 0 32)) (seq 0 32)) as Hall.
  { apply (bool_decide_unpack _). vm_compute. done. }
  rewrite Forall_seq in Hall. destruct (Hall t ltac:(lia)) as [Hl Hin]. symmetry. apply submseteq_length_Permutation.
  - apply NoDup_submseteq; [apply NoDup_seq|]. intros x Hx. rewrite Forall_forall in Hin. by apply Hin.
  - rewrite Hl, length_seq. lia.
Qed.

(** After the shuffles every thread has the sum of its warp. *)
Lemma butterfly_sum v t : butterfly shuffle_masks v t = sum (v <$> seq (32 * (t / 32)) 32).
Proof using Type*.
  rewrite butterfly_lanes. apply sum_perm. pose proof (Nat.mod_upper_bound t 32 ltac:(lia)) as Hm.
  rewrite (Nat.div_mod_eq t 32) at 1. rewrite lanes_shift by (done || apply shuffle_masks_lt).
  rewrite (all_lanes (t `mod` 32) Hm). rewrite fmap_add_seq. by rewrite Nat.add_0_r.
Qed.
End reduce.

Section block_reduce.
Context {A F : Type} `{ScalarLaws F} (W : nat) (HW : 0 < W ≤ 32).
Abbreviation T := (32 * W).
Implicit Types (v : nat → F) (sh : list F).

Lemma lane_mod t : Nat.land t 31 = t `mod` 32.
Proof. apply (Nat.land_ones t 5). Qed.
Lemma wid_div t : Nat.shiftr t 5 = t / 32.
Proof. apply (Nat.shiftr_div_pow2 t 5). Qed.

Definition warp_sum v (w : nat) : F := sum (v <$> seq (32 * w) 32).

(** The cells of the warps hold their sums. *)
Definition with_warp_sums v sh : list F := imap (λ c x, if decide (c < W) then warp_sum v c else x) sh.

Lemma warp_sums_stored v sh : 32 ≤ length sh →
  stores_to T (λ t, if decide (t `mod` 32 = 0) then Some (t / 32, warp_sum v (t / 32)) else None) sh (with_warp_sums v sh).
Proof using HW.
  intros Hl. split_and!; [apply length_imap| |].
  - intros t c x Ht. case_decide; [|done]. intros E. apply (inj Some), pair_eq in E as [<- <-]. unfold with_warp_sums. rewrite list_lookup_imap.
    assert (t / 32 < W) by (apply Nat.Div0.div_lt_upper_bound; lia).
    destruct (lookup_lt_is_Some_2 sh (t / 32)) as [y Hy]; [lia|]. rewrite Hy. cbn. by rewrite decide_True.
  - intros c Hc. unfold with_warp_sums. rewrite list_lookup_imap. destruct (sh !! c) as [x|]; [|done]. cbn. case_decide as Hcw; [|done].
    exfalso. apply (Hc (32 * c) (warp_sum v (32 * c / 32))); [lia|]. rewrite (Nat.mul_comm 32 c), Nat.Div0.mod_mul, decide_True by done.
    by rewrite Nat.div_mul.
Qed.

(** What the threads load afterwards. *)
Definition loaded_sum v (t : nat) : F := if decide (t < W) then warp_sum v t else s_zero.

Lemma sum_zeros {B} (l : list B) : sum ((λ _, s_zero) <$> l) = s_zero.
Proof using Type*. unfold sum. induction l as [|x l IH]; [done|]. cbn. rewrite IH. apply (left_id s_zero s_add). Qed.

Lemma sum_warps v n : sum (warp_sum v <$> seq 0 n) = sum (v <$> seq 0 (32 * n)).
Proof using Type*.
  clear HW W. induction n as [|n IH]; [done|]. rewrite seq_S, fmap_app, sum_app, IH.
  replace (32 * S n) with (32 * n + 32) by lia. rewrite seq_app, fmap_app, sum_app. f_equal. cbn [fmap list_fmap sum foldr].
  by rewrite (right_id s_zero s_add).
Qed.

(** The sum of all threads, in the first warp. *)
Lemma loaded_total v t : t < 32 → sum (loaded_sum v <$> seq (32 * (t / 32)) 32) = sum (v <$> seq 0 T).
Proof using Type*.
  intros Ht. rewrite Nat.div_small by done. rewrite <-sum_warps. replace 32 with (W + (32 - W)) at 2 by lia.
  rewrite seq_app, fmap_app, sum_app. cbn [Nat.mul Nat.add].
  assert (loaded_sum v <$> seq W (32 - W) = (λ _, s_zero) <$> seq W (32 - W)) as ->.
  { apply list_fmap_ext. intros i x Hx. apply lookup_seq in Hx as [-> _]. unfold loaded_sum. by rewrite decide_False by lia. }
  rewrite sum_zeros, (right_id s_zero s_add). f_equal. apply list_fmap_ext. intros i x Hx. apply lookup_seq in Hx as [-> Hx].
  unfold loaded_sum. by rewrite decide_True by lia.
Qed.

Lemma quiet_shuffle C masks val (k : F → Code A F) : (∀ x, quiet C (k x)) → quiet C (shuffle_sum masks val k).
Proof. intros Hk. revert val. induction masks as [|m masks IH]; intros val; cbn; [done|]. intros x. apply IH. Qed.

Lemma quiet_block_reduce C t val (k : F → Code A F) : (t / 32 ∉ C) → quiet C (block_reduce_sum T t val k).
Proof.
  intros HC. unfold block_reduce_sum. apply quiet_shuffle. intros x. rewrite wid_div. case_decide; [|done]. by split.
Qed.

(** [block_reduce_sum] in all threads of a block of full warps. *)
Lemma block_reduce_advance v (k : nat → F → Code A F) sh : 32 ≤ length sh → (∀ t x, quiet (seq 0 32) (k t x)) →
  ∃ S : nat → F, S 0 = sum (v <$> seq 0 T) ∧
    advances (mkCudaBlock ((λ t, block_reduce_sum T t (v t) (k t)) <$> seq 0 T) sh)
      (mkCudaBlock ((λ t, k t (S t)) <$> seq 0 T) (with_warp_sums v sh)).
Proof using Type*.
  intros Hl Hq. exists (butterfly shuffle_masks (loaded_sum v)). split; [rewrite butterfly_sum; apply loaded_total; lia|].
  set (second := λ t, if decide (32 * t < T) then LoadShared (Nat.land t 31) (λ x, warp_reduce_sum x (k t)) else warp_reduce_sum s_zero (k t)).
  etrans; [apply (shuffle_sum_advance W shuffle_masks v (λ t val,
    if decide (Nat.land t 31 = 0) then StoreShared (Nat.shiftr t 5) val (Syncthreads (second t)) else Syncthreads (second t)) sh); [lia|apply shuffle_masks_lt]|].
  set (pend := λ t, if decide (t `mod` 32 = 0) then Some (t / 32, warp_sum v (t / 32)) else None).
  assert ((λ t, if decide (Nat.land t 31 = 0) then StoreShared (Nat.shiftr t 5) (butterfly shuffle_masks v t) (Syncthreads (second t))
    else Syncthreads (second t)) <$> seq 0 T = store_code second pend <$> seq 0 T) as ->.
  { apply list_fmap_ext. intros i t _. unfold store_code, pend. rewrite butterfly_sum, lane_mod, wid_div. by case_decide. }
  etrans; [apply (stores_advance T second ltac:(lia) pend sh (with_warp_sums v sh)); by apply warp_sums_stored|].
  etrans; [apply (loads_advance (seq 0 32) _ ((λ t, warp_reduce_sum (loaded_sum v t) (k t)) <$> seq 0 T))|].
  - apply Forall2_fmap_2. apply Forall2_same_length_lookup. split; [done|]. intros i t t' Ht Ht'. rewrite Ht in Ht'. injection Ht' as <-.
    apply lookup_seq in Ht as [-> Hlt]. cbn [Nat.add]. unfold second, loaded_sum. destruct (decide (i < W)) as [Hi|Hi].
    + rewrite (decide_True (P := 32 * i < T)) by lia. rewrite lane_mod, Nat.mod_small by lia.
      eapply resolves_load; [apply elem_of_seq; lia| |constructor].
      unfold with_warp_sums. rewrite list_lookup_imap. destruct (lookup_lt_is_Some_2 sh i) as [y Hy]; [lia|]. rewrite Hy. cbn. by rewrite decide_True.
    + rewrite (decide_False (P := 32 * i < T)) by lia. constructor.
  - apply Forall_fmap, Forall_true. intros t. apply quiet_shuffle. apply Hq.
  - apply (shuffle_sum_advance W shuffle_masks (loaded_sum v) k); [lia|apply shuffle_masks_lt].
Qed.

(** The reduction whose result thread 0 publishes. *)
Lemma reduce_publish v cell (f : F → F) (p : nat → Code A F) sh : 32 ≤ cell → cell < length sh →
  advances (mkCudaBlock ((λ t, block_reduce_sum T t (v t) (λ s, publish t cell (f s) (p t))) <$> seq 0 T) sh)
    (mkCudaBlock (p <$> seq 0 T) (<[cell := f (sum (v <$> seq 0 T))]> (with_warp_sums v sh))).
Proof using Type*.
  intros Hc Hl. destruct (block_reduce_advance v (λ t s, publish t cell (f s) (p t)) sh) as (S&HS&Hadv); [lia| |].
  { intros t x. unfold publish. case_decide; [|done]. split; [|done]. rewrite elem_of_seq. lia. }
  etrans; [exact Hadv|]. rewrite <-HS. set (pend := λ t, if decide (t = 0) then Some (cell, f (S 0)) else None).
  assert ((λ t, publish t cell (f (S t)) (p t)) <$> seq 0 T = store_code p pend <$> seq 0 T) as ->.
  { apply list_fmap_ext. intros i t _. unfold publish, store_code, pend. case_decide; [by subst|done]. }
  apply (stores_advance T p ltac:(lia) pend). split_and!; [by rewrite length_insert| |].
  - intros t c x Ht. unfold pend. case_decide; [|done]. intros [= <- <-]. apply list_lookup_insert_eq. unfold with_warp_sums. by rewrite length_imap.
  - intros c Hn. apply list_lookup_insert_ne. intros <-. apply (Hn 0 (f (S 0))); [lia|]. unfold pend. by rewrite decide_True.
Qed.
End block_reduce.

(** ** The last loop *)

Section finish.
Context {A F : Type}.
Implicit Types (sh : list F) (out : list A) (l : list (nat * A)) (p : Code A F) (ts : list (Code A F)).

(** The code ends with the stores [l]. *)
Inductive finishes sh : Code A F → list (nat * A) → Prop :=
  | finishes_halt : finishes sh Halt []
  | finishes_load c k v l : sh !! c = Some v → finishes sh (k v) l → finishes sh (LoadShared c k) l
  | finishes_store i v p l : finishes sh p l → finishes sh (StoreGlobal i v p) ((i, v) :: l).

Definition block_finishes (b : CudaBlock A F) (ls : list (list (nat * A))) : Prop := Forall2 (finishes (b_shared b)) (b_threads b) ls.

Definition pending (lss : list (list (list (nat * A)))) (i : nat) (v : A) : Prop :=
  ∃ b ls t l, lss !! b = Some ls ∧ ls !! t = Some l ∧ (i, v) ∈ l.

(** What is in the memory and what is still to be stored make up [out']. *)
Record leaves out' (bs : list (CudaBlock A F)) out lss : Prop := {
  lv_blocks : Forall2 block_finishes bs lss;
  lv_length : length out = length out';
  lv_pending : ∀ i v, pending lss i v → out' !! i = Some v;
  lv_done : ∀ i, (∀ v, ¬ pending lss i v) → out' !! i = out !! i;
}.

Lemma pending_insert lss b ls t l l' i v : lss !! b = Some ls → ls !! t = Some l → (∀ x, x ∈ l' → x ∈ l) →
  pending (<[b:=<[t:=l']> ls]> lss) i v → pending lss i v.
Proof.
  intros Hb Ht Hl (b'&ls'&t'&l2&Hb'&Ht'&Hin). destruct (decide (b' = b)) as [->|Hne].
  - rewrite list_lookup_insert_eq in Hb' by (by eapply lookup_lt_Some). injection Hb' as <-. destruct (decide (t' = t)) as [->|Hnt].
    + rewrite list_lookup_insert_eq in Ht' by (by eapply lookup_lt_Some). injection Ht' as <-. exists b, ls, t, l. eauto.
    + rewrite list_lookup_insert_ne in Ht' by done. by exists b, ls, t', l2.
  - rewrite list_lookup_insert_ne in Hb' by done. by exists b', ls', t', l2.
Qed.

Lemma pending_keep lss b ls t l l' i v j w : lss !! b = Some ls → ls !! t = Some l → l = (j, w) :: l' → i ≠ j →
  pending lss i v → pending (<[b:=<[t:=l']> ls]> lss) i v.
Proof.
  intros Hb Ht -> Hij (b'&ls'&t'&l2&Hb'&Ht'&Hin). destruct (decide (b' = b)) as [->|Hne].
  - assert (ls' = ls) as -> by congruence. exists b, (<[t:=l']> ls). destruct (decide (t' = t)) as [->|Hnt].
    + assert (l2 = (j, w) :: l') as -> by congruence. exists t, l'. apply elem_of_cons in Hin as [[= -> ->]|Hin]; [done|].
      split_and!; [apply list_lookup_insert_eq; by eapply lookup_lt_Some|apply list_lookup_insert_eq; by eapply lookup_lt_Some|done].
    + exists t', l2. split_and!; [apply list_lookup_insert_eq; by eapply lookup_lt_Some|by rewrite list_lookup_insert_ne|done].
  - exists b', ls', t', l2. by rewrite list_lookup_insert_ne.
Qed.

Lemma leaves_step out' bs out lss bs1 out1 : leaves out' bs out lss → cuda_step (bs, out) (bs1, out1) → ∃ lss1, leaves out' bs1 out1 lss1.
Proof.
  intros [L1 L2 L3 L4] Hst. inversion Hst as [? i b b' ? ? Hi Hb]; subst. destruct (Forall2_lookup_l _ _ _ _ _ L1 Hi) as (ls&Hls&Hbf).
  unfold block_finishes in Hbf.
  inversion Hb as [t c k v ts sh o Ht Hc|t c v p ts sh o Ht Hc|t j v p ts sh o Ht Hj|p ps sh o Hts|w ts ts' sh o Hsh]; subst; cbn [b_threads b_shared] in Hbf.
  - destruct (Forall2_lookup_l _ _ _ _ _ Hbf Ht) as (l&Hl&Hf). inversion Hf as [|? ? v' ? Hv' Hf'|]; subst.
    assert (v' = v) as -> by congruence. exists lss. split; [|done|done|done]. rewrite <-(list_insert_id lss i ls) by done.
    apply Forall2_insert; [done|]. unfold block_finishes. cbn. rewrite <-(list_insert_id ls t l) by done. by apply Forall2_insert.
  - destruct (Forall2_lookup_l _ _ _ _ _ Hbf Ht) as (l&Hl&Hf). inversion Hf.
  - destruct (Forall2_lookup_l _ _ _ _ _ Hbf Ht) as (l&Hl&Hf). inversion Hf as [| |? ? ? l' Hf']; subst.
    exists (<[i:=<[t:=l']> ls]> lss). assert (out' !! j = Some v) as Hv by (apply L3; exists i, ls, t, ((j, v) :: l'); split_and!; [done|done|constructor]).
    split.
    + apply Forall2_insert; [done|]. by apply Forall2_insert.
    + by rewrite length_insert.
    + intros x y Hp. apply L3. eapply pending_insert; [exact Hls|exact Hl| |exact Hp]. intros z Hz. by right.
    + intros x Hx. destruct (decide (x = j)) as [->|Hne]; [by rewrite Hv, list_lookup_insert_eq|].
      rewrite list_lookup_insert_ne by done. apply L4. intros y Hy. apply (Hx y). by eapply pending_keep.
  - apply Forall2_cons_inv_l in Hbf as (l&ls'&Hf&_&_). inversion Hf.
  - destruct Hsh as (_&HW&Hsh). specialize (Hsh (32 * w) HW). rewrite decide_True in Hsh by (rewrite Nat.mul_comm; by apply Nat.div_mul).
    destruct Hsh as (v&m&k'&x&_&Ht&_). destruct (Forall2_lookup_l _ _ _ _ _ Hbf Ht) as (l&Hl&Hf). inversion Hf.
Qed.

Lemma leaves_run out' bs out lss d : leaves out' bs out lss → rtc cuda_step (bs, out) d → ∃ lss', leaves out' d.1 d.2 lss'.
Proof.
  intros HL Hr. remember (bs, out) as c eqn:Ec. revert bs out lss HL Ec. induction Hr as [c|c [bs1 out1] d Hst _ IH]; intros bs out lss HL ->; [by exists lss|].
  destruct (leaves_step _ _ _ _ _ _ HL Hst) as [lss1 HL1]. by eapply IH.
Qed.

Lemma leaves_halted out' bs out lss : leaves out' bs out lss → halted bs → out = out'.
Proof.
  intros [L1 L2 L3 L4] Hh. symmetry. apply list_eq. intros i. apply L4. intros v (b&ls&t&l&Hb&Ht&Hin).
  destruct (Forall2_lookup_r _ _ _ _ _ L1 Hb) as (blk&Hblk&Hbf). destruct (Forall2_lookup_r _ _ _ _ _ Hbf Ht) as (p&Hp&Hf).
  pose proof (Forall_lookup_1 _ _ _ _ Hh Hblk) as Hbh. pose proof (Forall_lookup_1 _ _ _ _ Hbh Hp) as ->. inversion Hf; subst.
  by apply not_elem_of_nil in Hin.
Qed.

(** Such a grid can always end. *)
Lemma finish_thread ts sh t p l : finishes sh p l → ∀ ts out, Forall (λ x, x.1 < length out) l → ts !! t = Some p →
  ∃ out1, length out1 = length out ∧ rtc block_step (mkCudaBlock ts sh, out) (mkCudaBlock (<[t:=Halt]> ts) sh, out1).
Proof.
  clear ts. induction 1 as [|c k v l Hv _ IH|i v p l _ IH]; intros ts out Hl Ht.
  - exists out. by rewrite list_insert_id.
  - destruct (IH (<[t:=k v]> ts) out Hl) as (out1&Ho&Hr); [apply list_lookup_insert_eq; by eapply lookup_lt_Some|].
    exists out1. split; [done|]. eapply rtc_l; [by eapply step_load|]. by rewrite list_insert_insert_eq in Hr.
  - apply Forall_cons in Hl as [Hi Hl]. destruct (IH (<[t:=p]> ts) (<[i:=v]> out)) as (out1&Ho&Hr);
      [by rewrite length_insert|apply list_lookup_insert_eq; by eapply lookup_lt_Some|].
    exists out1. rewrite length_insert in Ho. split; [done|]. eapply rtc_l; [by eapply step_global|]. by rewrite list_insert_insert_eq in Hr.
Qed.

Lemma finish_block sh ts ls : Forall2 (finishes sh) ts ls → ∀ pre out, Forall (Forall (λ x, x.1 < length out)) ls →
  ∃ out1, length out1 = length out ∧ rtc block_step (mkCudaBlock (pre ++ ts) sh, out) (mkCudaBlock (pre ++ replicate (length ts) Halt) sh, out1).
Proof.
  induction 1 as [|p l ts ls Hp _ IH]; intros pre out Hl; [by exists out|]. apply Forall_cons in Hl as [Hl1 Hl].
  destruct (finish_thread ts sh (length pre) p l Hp (pre ++ p :: ts) out Hl1) as (o1&Ho1&Hr1); [by apply list_lookup_middle|].
  rewrite insert_app_r_alt, Nat.sub_diag in Hr1 by lia. cbn [insert list_insert] in Hr1.
  destruct (IH (pre ++ [Halt]) o1) as (o2&Ho2&Hr2); [by rewrite Ho1|]. exists o2. split; [lia|]. etrans; [exact Hr1|].
  rewrite <-!app_assoc in Hr2. exact Hr2.
Qed.

Lemma finish_grid bs lss : Forall2 block_finishes bs lss → ∀ pre out, Forall (Forall (Forall (λ x, x.1 < length out))) lss → halted pre →
  ∃ bs' out1, length out1 = length out ∧ rtc cuda_step (pre ++ bs, out) (bs', out1) ∧ halted bs'.
Proof.
  induction 1 as [|b ls bs lss Hb _ IH]; intros pre out Hl Hpre; [exists pre, out; by rewrite app_nil_r|]. apply Forall_cons in Hl as [Hl1 Hl].
  destruct b as [ts sh]. destruct (finish_block sh ts ls Hb [] out Hl1) as (o1&Ho1&Hr1). cbn [app] in Hr1.
  set (b' := mkCudaBlock (replicate (length ts) Halt) sh) in *.
  destruct (IH (pre ++ [b']) o1) as (bs'&o2&Ho2&Hr2&Hh); [by rewrite Ho1| |].
  - apply Forall_app. split; [done|]. constructor; [|done]. cbn. apply Forall_replicate. done.
  - exists bs', o2. split_and!; [lia| |done]. etrans; [eapply (block_run _ (length pre)); [by apply list_lookup_middle|exact Hr1]|].
    rewrite insert_app_r_alt, Nat.sub_diag by lia. cbn [insert list_insert]. by rewrite <-app_assoc in Hr2.
Qed.

(** The end of a grid: every run can be completed, and ends with [out']. *)
Lemma grid_ends bs out lss out' : leaves out' bs out lss →
  (∀ d, rtc cuda_step (bs, out) d → ∃ bs', rtc cuda_step d (bs', out') ∧ halted bs').
Proof.
  intros HL d Hd. destruct (leaves_run _ _ _ _ _ HL Hd) as [lss1 HL1]. destruct d as [ds o]. cbn in HL1. pose proof HL1 as [L1 L2 L3 L4].
  destruct (finish_grid ds lss1 L1 [] o) as (bs'&o1&Ho1&Hr&Hh); [|constructor|].
  - apply Forall_lookup. intros b ls Hb. apply Forall_lookup. intros t l Ht. apply Forall_forall. intros [i v] Hin. cbn. rewrite L2.
    eapply lookup_lt_Some. apply (L3 i v). by exists b, ls, t, l.
  - exists bs'. destruct (leaves_run _ _ _ _ _ HL1 Hr) as [lss2 HL2]. cbn in HL2. by rewrite <-(leaves_halted _ _ _ _ HL2 Hh).
Qed.
End finish.

(** ** Results of a grid *)

Section results.
Context {A F : Type}.
Implicit Types (out : list A) (bs : list (CudaBlock A F)) (sh : list F).

(** Every execution can be completed, and every completed one has left [out']. *)
Definition always_leaves bs out out' : Prop :=
  (∀ d, rtc cuda_step (bs, out) d → ∃ bs', rtc cuda_step d (bs', out') ∧ halted bs') ∧
  ∀ bs' out1, rtc cuda_step (bs, out) (bs', out1) → halted bs' → out1 = out'.

Lemma halted_stuck bs out d : halted bs → cuda_step (bs, out) d → False.
Proof.
  intros Hh Hst. inversion Hst as [? i b b' ? out' Hi Hb]; subst. pose proof (Forall_lookup_1 _ _ _ _ Hh Hi) as Hbh.
  inversion Hb as [t c k v ts sh o Ht Hc|t c v p ts sh o Ht Hc|t j v p ts sh o Ht Hj|p ps sh o|w ts ts' sh o Hsh]; subst; cbn [b_threads] in Hbh.
  1-3: by pose proof (Forall_lookup_1 _ _ _ _ Hbh Ht).
  - cbn [fmap list_fmap] in Hbh. by inversion Hbh.
  - destruct Hsh as (_&HW&Hsh). specialize (Hsh (32 * w) HW). rewrite decide_True in Hsh by (rewrite Nat.mul_comm; by apply Nat.div_mul).
    destruct Hsh as (v&m&k'&x&_&Ht&_). by pose proof (Forall_lookup_1 _ _ _ _ Hbh Ht).
Qed.

Lemma syncs_always_leaves bs qs out out' lss : syncs (bs, out) (qs, out) → leaves out' qs out lss → always_leaves bs out out'.
Proof.
  intros [_ Hs] HL. assert (∀ d, rtc cuda_step (bs, out) d → ∃ bs', rtc cuda_step d (bs', out') ∧ halted bs') as Hend.
  { intros d Hd. destruct (Hs d Hd) as (e&He&Hq). destruct (grid_ends _ _ _ _ HL e Hq) as (bs'&Hb&Hh). exists bs'. split; [by etrans|done]. }
  split; [done|]. intros bs' out1 Hr Hh. destruct (Hend _ Hr) as (bs2&Hb&_). inversion Hb as [|? y ? Hst _]; subst; [done|].
  by apply halted_stuck in Hst.
Qed.

(** A grid that ends with one store per element. *)
Definition row_stores (g : nat → A) (base : nat) (idx : list nat) : list (nat * A) := (λ i, (base + i, g i)) <$> idx.

Lemma rows_left (kernel : nat → nat → nat → Code A F) shared rows n out (g : nat → nat → A) : 0 < n → length out = rows * n →
  (∀ b, b < rows → ∃ p sh, advances (mkCudaBlock (kernel (Nat.min n 1024) b <$> seq 0 (Nat.min n 1024)) (shared b))
      (mkCudaBlock (p <$> seq 0 (Nat.min n 1024)) sh) ∧
    ∀ t, finishes sh (p t) (row_stores (g b) (b * n) (strided (S n) t n (Nat.min n 1024)))) →
  always_leaves (launch_norm kernel shared rows n) out (concat ((λ b, g b <$> seq 0 n) <$> seq 0 rows)).
Proof.
  intros Hn Hl Hb. set (T := Nat.min n 1024) in *. assert (0 < T) as HT by (unfold T; lia).
  set (lss := (λ b, (λ t, row_stores (g b) (b * n) (strided (S n) t n T)) <$> seq 0 T) <$> seq 0 rows).
  assert (∃ qs, Forall2 advances (launch_norm kernel shared rows n) qs ∧ Forall2 block_finishes qs lss) as (qs&Hq1&Hq2).
  { unfold launch_norm, lss. fold T. assert (Forall (λ b, b < rows) (seq 0 rows)) as Hlt by (apply Forall_seq; lia). clear Hl lss.
    induction Hlt as [|b bs Hlt _ (qs&IH1&IH2)]; [by exists []|]. destruct (Hb b Hlt) as (p&sh&Hadv&Hfin).
    exists (mkCudaBlock (p <$> seq 0 T) sh :: qs). split; cbn [fmap list_fmap]; constructor; [done|done| |done].
    apply Forall2_fmap_2, Forall_Forall2_diag, Forall_true. apply Hfin. }
  assert (Forall (λ r : list A, length r = n) ((λ b, g b <$> seq 0 n) <$> seq 0 rows)) as Hrows
    by (apply Forall_fmap, Forall_true; intros b; cbn; by rewrite length_fmap, length_seq).
  assert (∀ b i, b < rows → i < n → concat ((λ b, g b <$> seq 0 n) <$> seq 0 rows) !! (b * n + i) = Some (g b i)) as Hout.
  { intros b i Hbr Hi. rewrite (lookup_concat n) by done. rewrite list_lookup_fmap, lookup_seq_lt by done. cbn [fmap option_fmap option_map mbind option_bind].
    by rewrite list_lookup_fmap, lookup_seq_lt. }
  assert (length (concat ((λ b, g b <$> seq 0 n) <$> seq 0 rows)) = rows * n) as Hlen by (rewrite (concat_length n) by done; by rewrite length_fmap, length_seq).
  apply (syncs_always_leaves _ qs _ _ lss); [by apply advances_grid|]. split; [done|lia| |].
  - intros i v (b&ls&t&l&H1&H2&H3). unfold lss in H1. apply list_lookup_fmap_Some in H1 as (b'&->&Hb'). apply lookup_seq in Hb' as [-> Hb'].
    apply list_lookup_fmap_Some in H2 as (t'&->&_). apply list_elem_of_fmap in H3 as (x&[= -> ->]&Hx).
    apply (elem_of_strided n T x HT (S n)) in Hx; [|lia]. apply Hout; lia.
  - intros i Hi. destruct (decide (i < rows * n)) as [Hlt|Hge]; [|by rewrite !lookup_ge_None_2 by lia]. exfalso.
    pose proof (Nat.mod_upper_bound i n ltac:(lia)) as Hm. assert (i / n < rows) as Hr by (apply Nat.Div0.div_lt_upper_bound; lia).
    apply (Hi (g (i / n) (i `mod` n))). assert (i `mod` n ∈ seq 0 n) as Hin by (apply elem_of_seq; lia).
    rewrite <-(strided_partition n T HT) in Hin. apply list_elem_of_In, in_concat in Hin as (l&Hll&Hin). apply list_elem_of_In in Hll, Hin.
    apply list_elem_of_fmap in Hll as (t&->&Ht). apply elem_of_seq in Ht.
    exists (i / n), ((λ t, row_stores (g (i / n)) (i / n * n) (strided (S n) t n T)) <$> seq 0 T), t, (row_stores (g (i / n)) (i / n * n) (strided (S n) t n T)).
    split_and!.
    + unfold lss. by rewrite list_lookup_fmap, lookup_seq_lt.
    + by rewrite list_lookup_fmap, lookup_seq_lt by lia.
    + apply list_elem_of_fmap. exists (i `mod` n). split; [|done]. f_equal. rewrite (Nat.div_mod_eq i n) at 1. lia.
Qed.
End results.

(** ** The kernels *)

(** Exact arithmetic. *)
Class NormLaws (A F : Type) `{Scalar F} `{NormOps A F} := {
  norm_square x : nf_square x = s_mul x x;
  norm_rsqrt x y : s_mul x (nf_rsqrt y) = nf_div x (nf_sqrt y);
}.

Section kernels.
Context {A F : Type} `{ScalarLaws F} `{!NormOps A F} `{!NormLaws A F}.
Implicit Types (sh : list F) (idx : list nat).

Lemma fold_indices (f : nat → F) idx a : foldl (λ acc i, s_add acc (f i)) a idx = s_add a (sum (f <$> idx)).
Proof using Type*.
  revert a. induction idx as [|i idx IH]; intros a; cbn [foldl fmap list_fmap]; [symmetry; apply (right_id s_zero s_add)|].
  rewrite IH. symmetry. apply (assoc s_add).
Qed.

(** What the threads of a block add up is the sum over the row. *)
Lemma strided_sum (f : nat → F) n T : 0 < T →
  sum ((λ t, foldl (λ acc i, s_add acc (f i)) s_zero (strided (S n) t n T)) <$> seq 0 T) = sum (f <$> seq 0 n).
Proof using Type*.
  intros HT. rewrite <-(sum_perm _ _ (fmap_Permutation f _ _ (strided_partition n T HT))). generalize (seq 0 T) as l. intros l.
  induction l as [|t l IH]; [done|]. cbn [fmap list_fmap concat]. rewrite fmap_app, sum_app.
  change (sum (?x :: ?y)) with (s_add x (sum y)). change (list_fmap nat F ?h l) with (h <$> l). rewrite IH.
  rewrite fold_indices, (left_id s_zero s_add). done.
Qed.

Lemma rms_loop_finishes (store : nat → F → A) base idx sh s : sh !! s_variance = Some s →
  finishes sh (rms_loop store base idx) (row_stores (λ i, store i s) base idx).
Proof. intros Hs. induction idx as [|i idx IH]; cbn; [constructor|]. eapply finishes_load; [done|]. by constructor. Qed.

Lemma layer_loop_finishes (store : nat → F → F → A) base idx sh mean s : sh !! s_mean = Some mean → sh !! s_variance = Some s →
  finishes sh (layer_loop store base idx) (row_stores (λ i, store i mean s) base idx).
Proof.
  intros Hm Hs. induction idx as [|i idx IH]; cbn; [constructor|]. eapply finishes_load; [done|]. eapply finishes_load; [done|]. by constructor.
Qed.

Lemma variance_loop_resolves d input n b idx sh mean (k : F → Code A F) : sh !! s_mean = Some mean → ∀ a,
  resolves [s_mean] sh (variance_loop d input n b idx a k)
    (k (foldl (λ acc i, s_add acc (let x := nf_sub (row_element d input n b i) mean in s_mul x x)) a idx)).
Proof.
  intros Hm. induction idx as [|i idx IH]; intros a; cbn [variance_loop foldl]; [constructor|].
  eapply resolves_load; [constructor|done|]. apply IH.
Qed.

(** The size of a row for which all warps are full. *)
Definition full_warps (n : nat) : Prop := 0 < n ∧ (n `mod` 32 = 0 ∨ 1024 ≤ n).
Lemma full_warps_block n : full_warps n → ∃ W, Nat.min n 1024 = 32 * W ∧ 0 < W ≤ 32.
Proof.
  intros [Hn [Hm|Hge]]; [|exists 32; lia]. apply Nat.Div0.mod_divides in Hm as [c ->].
  destruct (decide (c ≤ 32)); [exists c|exists 32]; lia.
Qed.

Section block.
Context (d : A) (input : list A) (eps : F) (n b : nat) (Hn : full_warps n).
Abbreviation block := (Nat.min n 1024).
Abbreviation element := (row_element d input n b).

Definition rms_factor : F := nf_rsqrt (s_add (nf_div (sum ((λ i, s_mul (element i) (element i)) <$> seq 0 n)) (nf_of_nat n)) eps).

Lemma rms_block store sh : 34 ≤ length sh → ∃ p sh', 
  advances (mkCudaBlock (rms_kernel_with store d input eps n block b <$> seq 0 block) sh) (mkCudaBlock (p <$> seq 0 block) sh') ∧
  ∀ t, finishes sh' (p t) (row_stores (λ i, store b i rms_factor) (b * n) (strided (S n) t n block)).
Proof using Type*.
  intros Hl. destruct (full_warps_block n Hn) as (W&HW&HW2).
  exists (λ t, rms_loop (store b) (b * n) (strided (S n) t n block)), 
    (<[s_variance:=rms_factor]> (with_warp_sums W (λ t, sum_of_squares d input n b (strided (S n) t n block)) sh)). split.
  - unfold rms_factor. rewrite <-(strided_sum (λ i, s_mul (element i) (element i)) n block) by lia. rewrite HW. unfold rms_kernel_with.
    apply (reduce_publish W HW2 (λ t, sum_of_squares d input n b (strided (S n) t n (32 * W))) s_variance
      (λ variance, nf_rsqrt (s_add (nf_div variance (nf_of_nat n)) eps))); unfold s_variance; lia.
  - intros t. apply rms_loop_finishes, list_lookup_insert_eq. unfold with_warp_sums. rewrite length_imap. unfold s_variance. lia.
Qed.

Definition layer_mean : F := nf_div (sum (element <$> seq 0 n)) (nf_of_nat n).
Definition layer_factor : F :=
  nf_rsqrt (s_add (nf_div (sum ((λ i, let x := nf_sub (element i) layer_mean in s_mul x x) <$> seq 0 n)) (nf_of_nat n)) eps).

Lemma layer_block weight bias sh : 34 ≤ length sh → ∃ p sh', 
  advances (mkCudaBlock (layer_norm_kernel d input weight bias eps n block b <$> seq 0 block) sh) (mkCudaBlock (p <$> seq 0 block) sh') ∧
  ∀ t, finishes sh' (p t) (row_stores (λ i, layer_store d input weight bias n b i layer_mean layer_factor) (b * n) (strided (S n) t n block)).
Proof using Type*.
  intros Hl. destruct (full_warps_block n Hn) as (W&HW&HW2). rewrite HW. clear HW.
  set (last := λ t, layer_loop (layer_store d input weight bias n b) (b * n) (strided (S n) t n (32 * W))).
  set (v1 := λ t, foldl (λ acc i, s_add acc (element i)) s_zero (strided (S n) t n (32 * W))).
  set (v2 := λ t, foldl (λ acc i, s_add acc (let x := nf_sub (element i) layer_mean in s_mul x x)) s_zero (strided (S n) t n (32 * W))).
  set (sh1 := <[s_mean:=layer_mean]> (with_warp_sums W v1 sh)). set (sh2 := <[s_variance:=layer_factor]> (with_warp_sums W v2 sh1)).
  assert (length sh1 = length sh) as L1 by (unfold sh1, with_warp_sums; by rewrite length_insert, length_imap).
  assert (sh1 !! s_mean = Some layer_mean) as Hm1 by (apply list_lookup_insert_eq; unfold with_warp_sums, s_mean; rewrite length_imap; lia).
  exists last, sh2. split; [|intros t; apply layer_loop_finishes].
  - unfold layer_norm_kernel. set (second := λ t variance, block_reduce_sum (A := A) (32 * W) t variance (λ variance,
      publish t s_variance (nf_rsqrt (s_add (nf_div variance (nf_of_nat n)) eps)) (last t))).
    trans (mkCudaBlock ((λ t, variance_loop d input n b (strided (S n) t n (32 * W)) s_zero (second t)) <$> seq 0 (32 * W)) sh1).
    + unfold sh1, layer_mean. rewrite <-(strided_sum element n (32 * W)) by lia. unfold v1, second.
      apply (reduce_publish W HW2 (λ t, foldl (λ acc i, s_add acc (element i)) s_zero (strided (S n) t n (32 * W))) s_mean
        (λ mean, nf_div mean (nf_of_nat n))); unfold s_mean; lia.
    + etrans; [apply (loads_advance [s_mean] _ ((λ t, second t (v2 t)) <$> seq 0 (32 * W)))|].
      * apply Forall2_fmap_2, Forall_Forall2_diag, Forall_true. intros t. by apply variance_loop_resolves.
      * apply Forall_fmap, Forall_forall. intros t Ht%elem_of_seq. unfold compose, second. apply (quiet_block_reduce W).
        assert (t / 32 < 32) by (apply Nat.Div0.div_lt_upper_bound; lia). rewrite list_elem_of_singleton. unfold s_mean. lia.
      * unfold sh2, layer_factor. rewrite <-(strided_sum (λ i, let x := nf_sub (element i) layer_mean in s_mul x x) n (32 * W)) by lia.
        unfold v2, second. apply (reduce_publish W HW2 _ s_variance (λ variance, nf_rsqrt (s_add (nf_div variance (nf_of_nat n)) eps)));
          unfold s_variance; lia.
  - unfold sh2. rewrite list_lookup_insert_ne by done. unfold with_warp_sums. rewrite list_lookup_imap, Hm1. cbn [fmap option_fmap option_map].
    by rewrite decide_False by (unfold s_mean; lia).
  - apply list_lookup_insert_eq. unfold with_warp_sums, s_variance. rewrite length_imap. lia.
Qed.
End block.

(** *** The rows of the functions *)

Section rows.
Context (d : A) (rows : list (list A)) (n b : nat) (r : list A).
Context (Hrows : Forall (λ r, length r = n) rows) (Hb : rows !! b = Some r).

Lemma row_length : length r = n.
Proof using Hrows Hb. exact (Forall_lookup_1 _ _ _ _ Hrows Hb). Qed.

Lemma row_element_at i x : r !! i = Some x → row_element d (concat rows) n b i = nf_float x.
Proof using Hrows Hb.
  intros Hi. unfold row_element. rewrite (read_rows d n rows b i r); [unfold read; by rewrite Hi|done|done|].
  rewrite <-row_length. by eapply lookup_lt_Some.
Qed.

(** A row that is filled in element by element. *)
Lemma fill_row {B} (g : nat → B) (l : list B) : length l = n → (∀ i x, l !! i = Some x → g i = x) → g <$> seq 0 n = l.
Proof.
  intros <- Hg. rewrite <-(list_fmap_id l) at 2. by apply rows_by_index.
Qed.

Lemma row_sum (h : F → F) : sum ((λ i, h (row_element d (concat rows) n b i)) <$> seq 0 n) = sum (h <$> (nf_float <$> r)).
Proof using Hrows Hb.
  f_equal. apply fill_row; [by rewrite !length_fmap, row_length|]. intros i x Hi. rewrite !list_lookup_fmap in Hi.
  destruct (r !! i) as [y|] eqn:Hy; [|done]. injection Hi as <-. by rewrite (row_element_at i y).
Qed.

Lemma rms_factor_row eps :
  rms_factor d (concat rows) eps n b = nf_rsqrt (s_add (nf_div (sum (nf_square <$> (nf_float <$> r))) (nf_of_nat (length (nf_float <$> r)))) eps).
Proof using Type*.
  unfold rms_factor. rewrite (row_sum (λ x, s_mul x x)), length_fmap, row_length. do 4 f_equal.
  apply list_fmap_ext. intros i x _. symmetry. apply norm_square.
Qed.

Lemma rms_row weight eps : length weight = n →
  (λ i, rms_store d (concat rows) weight n b i (rms_factor d (concat rows) eps n b)) <$> seq 0 n = rms_norm_row weight eps r.
Proof using Type*.
  intros Hw. apply fill_row.
  - unfold rms_norm_row, norm_row. rewrite length_zip_with, !length_fmap, row_length. lia.
  - intros i y Hy. unfold rms_norm_row, norm_row in Hy. apply lookup_zip_with_Some in Hy as (u&w&->&Hu&Hwi).
    rewrite !list_lookup_fmap in Hu. destruct (r !! i) as [x|] eqn:Hx; [|done]. injection Hu as <-.
    unfold rms_store. rewrite (row_element_at i x Hx), rms_factor_row. unfold read. by rewrite Hwi.
Qed.

Lemma gemma_row weight eps : length weight = n →
  (λ i, gemma_store d (concat rows) weight n b i (rms_factor d (concat rows) eps n b)) <$> seq 0 n = gemma_rms_norm_row weight eps r.
Proof using Type*.
  intros Hw. apply fill_row.
  - unfold gemma_rms_norm_row, norm_row. rewrite length_fmap, length_zip_with, !length_fmap, row_length. lia.
  - intros i y Hy. unfold gemma_rms_norm_row, norm_row in Hy. apply list_lookup_fmap_Some in Hy as (z&->&Hz).
    apply lookup_zip_with_Some in Hz as (u&w&->&Hu&Hwi). rewrite !list_lookup_fmap in Hu. rewrite list_lookup_fmap in Hwi.
    destruct (r !! i) as [x|] eqn:Hx; [|done]. destruct (weight !! i) as [wi|] eqn:Hwx; [|done]. injection Hu as <-. injection Hwi as <-.
    unfold gemma_store. rewrite (row_element_at i x Hx), rms_factor_row. unfold read. by rewrite Hwx.
Qed.

Lemma layer_mean_row : layer_mean d (concat rows) n b = nf_div (sum (nf_float <$> r)) (nf_of_nat (length (nf_float <$> r))).
Proof using Hrows Hb.
  unfold layer_mean. rewrite length_fmap, row_length. pose proof (row_sum id) as Hs. rewrite list_fmap_id in Hs. f_equal. exact Hs.
Qed.

Lemma layer_row weight bias eps : length weight = n → from_option (λ v, length v = n) True bias →
  (λ i, layer_store d (concat rows) weight bias n b i (layer_mean d (concat rows) n b) (layer_factor d (concat rows) eps n b)) <$> seq 0 n =
  layer_norm_row weight bias eps r.
Proof using Type*.
  intros Hw Hbias. unfold layer_factor. rewrite (row_sum (λ x, let y := nf_sub x (layer_mean d (concat rows) n b) in s_mul y y)), layer_mean_row.
  unfold layer_norm_row. rewrite length_fmap, row_length. set (mean := nf_div _ _). set (var := nf_div _ _).
  set (y := zip_with _ _ _).
  assert (length y = n) as Hy by (unfold y; rewrite length_zip_with, !length_fmap, row_length; lia).
  assert (∀ i z, y !! i = Some z → s_mul (s_mul (nf_sub (row_element d (concat rows) n b i) mean) (nf_rsqrt (s_add var eps)))
    (nf_float (read d weight i)) = z) as Hel.
  { intros i z Hz. unfold y in Hz. apply lookup_zip_with_Some in Hz as (u&w&->&Hu&Hwi). rewrite !list_lookup_fmap in Hu. rewrite list_lookup_fmap in Hwi.
    destruct (r !! i) as [x|] eqn:Hx; [|done]. destruct (weight !! i) as [wi|] eqn:Hwx; [|done]. injection Hu as <-. injection Hwi as <-.
    rewrite (row_element_at i x Hx), norm_rsqrt. unfold read. by rewrite Hwx. }
  destruct bias as [v|]; cbn [from_option] in Hbias; apply fill_row.
  - rewrite length_fmap, length_zip_with, length_fmap. lia.
  - intros i z Hz. apply list_lookup_fmap_Some in Hz as (s&->&Hs). apply lookup_zip_with_Some in Hs as (u&w&->&Hu&Hwi).
    apply list_lookup_fmap_Some in Hwi as (vi&->&Hvi). unfold layer_store. rewrite (Hel i u Hu). unfold read. by rewrite Hvi.
  - by rewrite length_fmap.
  - intros i z Hz. apply list_lookup_fmap_Some in Hz as (s&->&Hs). unfold layer_store. by rewrite (Hel i s Hs).
Qed.
End rows.

(** What the grid leaves, from what every block leaves. *)
Lemma norm_grid (kernel : nat → nat → nat → Code A F) shared rows n out (g : nat → nat → A) (h : list A → list A) :
  full_warps n → Forall (λ r, length r = n) rows → (∀ b, 34 ≤ length (shared b)) → length out = length rows * n →
  (∀ b sh, 34 ≤ length sh → ∃ p sh',
    advances (mkCudaBlock (kernel (Nat.min n 1024) b <$> seq 0 (Nat.min n 1024)) sh) (mkCudaBlock (p <$> seq 0 (Nat.min n 1024)) sh') ∧
    ∀ t, finishes sh' (p t) (row_stores (g b) (b * n) (strided (S n) t n (Nat.min n 1024)))) →
  (∀ b r, rows !! b = Some r → g b <$> seq 0 n = h r) →
  always_leaves (launch_norm kernel shared (length rows) n) out (concat (h <$> rows)).
Proof using.
  intros [Hn _] Hr Hsh Hl Hk Hg. rewrite <-(rows_by_index (λ b, g b <$> seq 0 n) h rows Hg). apply rows_left; [done|done|].
  intros b _. by apply Hk.
Qed.

(** C11. For rows of a multiple of 32 or of at least 1024 elements, the RMS, Gemma RMS
    and layer normalization kernels compute what the functions on tensors compute: in
    every interleaving of the threads between the barriers and shuffles, whatever
    the shared memory held, every execution can be completed, and every completed
    one has stored the normalized rows (in exact arithmetic). *)
Theorem norm_kernels_are_reference d rows weight bias eps n shared out :
  full_warps n → Forall (λ r, length r = n) rows → length weight = n → from_option (λ v, length v = n) True bias →
  (∀ b, 34 ≤ length (shared b)) → length out = length rows * n →
  always_leaves (launch_norm (rms_norm_kernel d (concat rows) weight eps n) shared (length rows) n) out
    (concat (rms_norm_row weight eps <$> rows)) ∧
  always_leaves (launch_norm (gemma_rms_norm_kernel d (concat rows) weight eps n) shared (length rows) n) out
    (concat (gemma_rms_norm_row weight eps <$> rows)) ∧
  always_leaves (launch_norm (layer_norm_kernel d (concat rows) weight bias eps n) shared (length rows) n) out
    (concat (layer_norm_row weight bias eps <$> rows)).
Proof using Type*.
  intros Hn Hr Hw Hbias Hsh Hl. split_and!; eapply norm_grid; try done.
  - intros b sh. apply (rms_block d (concat rows) eps n b Hn (rms_store d (concat rows) weight n)).
  - intros b r Hb. by apply rms_row.
  - intros b sh. apply (rms_block d (concat rows) eps n b Hn (gemma_store d (concat rows) weight n)).
  - intros b r Hb. by apply gemma_row.
  - intros b sh. by apply layer_block.
  - intros b r Hb. by apply layer_row.
Qed.
End kernels.

From Stdlib Require Import QArith Qcanon.
Local Close Scope Q_scope.
Local Open Scope nat_scope.

(** Rational numbers, with the square roots of squares. *)
Definition qc_sqrt (x : Qc) : Qc := Q2Qc (Qmake (Z.sqrt (Qnum (this x))) (Z.to_pos (Z.sqrt (Z.pos (Qden (this x)))))).
#[export] Instance qc_scalar : Scalar Qc := {| s_zero := 0%Qc; s_add := Qcplus; s_mul := Qcmult |}.
#[export] Instance qc_scalar_laws : ScalarLaws Qc.
Proof. split; [intros x y z; apply Qcplus_assoc|intros x y; apply Qcplus_comm|intros x; apply Qcplus_0_l]. Qed.
#[export] Instance qc_norm : NormOps Qc Qc := {|
  nf_float x := x; nf_cast x := x; nf_product := Qcmult; nf_of_nat n := Qc_of_Z (Z.of_nat n); nf_one := 1%Qc;
  nf_sub := Qcminus; nf_div := Qcdiv; nf_square x := Qcmult x x; nf_sqrt := qc_sqrt; nf_rsqrt x := Qcinv (qc_sqrt x) |}.
#[export] Instance qc_norm_laws : NormLaws Qc Qc.
Proof. by split. Qed.

Example norm_kernels_are_reference_witness :
  let q := Qc_of_Z in let row := replicate 16 (q 3%Z) ++ replicate 16 (q (-3)%Z) in let rows := [row; row] in let weight := replicate 32 (q 5%Z) in
  always_leaves (launch_norm (rms_norm_kernel (q 0%Z) (concat rows) weight (q 0%Z) 32) (λ _, replicate 34 (q 7%Z)) (length rows) 32) (replicate 64 (q 0%Z))
    (concat (rms_norm_row weight (q 0%Z) <$> rows)) ∧
  rms_norm_row weight (q 0%Z) row = replicate 16 (q 5%Z) ++ replicate 16 (q (-5)%Z).
Proof.
  intros q row rows weight. split.
  - eapply proj1, (norm_kernels_are_reference (q 0%Z) rows weight None (q 0%Z) 32 (λ _, replicate 34 (q 7%Z)) (replicate 64 (q 0%Z))).
    + split; [lia|by left].
    + by repeat constructor.
    + done.
    + done.
    + intros b. by vm_compute.
    + done.
  - apply (bool_decide_unpack _). by vm_compute.
Defined.
