(* ===== verification/Config.v ===== *)
(** * Configurations

    The arguments of the models and how they are found: [src/models/model_args.h],
    [src/quantization/quant_args.h], [src/tokenizer/tokenizer_args.h],
    [src/common/json_reader.*], the loaders that the models register
    ([REGISTER_MODEL_ARGS] and [REGISTER_TOKENIZER_ARGS] of [src/models/*.h]),
    [src/models/model_registry.*], [src/model_loader/args_overrider.cpp] and
    [HFModelLoader::load_model_args].  A JSON document is a value of [Json]; nlohmann's
    parser and the file system are parameters. *)

From Stdlib Require Import Ascii SpecFloat.
From stdpp Require Import base tactics list gmap strings pretty.
From coqutil Require Import Datatypes.RecordSetters.
From S2P Require Import Prelude Types Sampling Engine StateDict ChatTemplate.

(** [struct ModelArgs] and its initial values. *)
Module Args.
Record ModelArgs := mkModelArgs {
  model_type : text;
  dtype : text;
  hidden_size : Z;
  hidden_act : text;
  intermediate_size : Z;
  n_layers : Z;
  head_dim : Z;
  n_heads : Z;
  n_kv_heads : option Z;
  vocab_size : Z;
  use_rms_norm : bool;
  rms_norm_eps : float;
  layer_norm_eps : float;
  rotary_dim : Z;
  rope_theta : float;
  rope_scaling_rope_type : text;
  rope_scaling_factor : float;
  rope_scaling_low_freq_factor : float;
  rope_scaling_high_freq_factor : float;
  rope_scaling_original_max_position_embeddings : Z;
  rotary_pct : float;
  max_position_embeddings : Z;
  bos_token_id : Z;
  eos_token_id : Z;
  use_parallel_residual : bool;
  attn_qkv_clip : option float;
  attn_qk_ln : bool;
  attn_alibi : bool;
  attn_scalar : option float;
  attn_bias : bool;
  attn_logit_soft_cap : float;
  final_logit_soft_cap : float;
  alibi_bias_max : float;
  no_bias : bool;
  linear_bias : bool;
  qkv_bias : bool;
  residual_post_layernorm : bool;
  post_layernorm : bool;
  stop_token_ids : list Z;
  use_sliding_window : bool;
  sliding_window : Z;
  max_window_layers : Z;
}.
End Args.
Definition new_ModelArgs : Args.ModelArgs := Args.mkModelArgs [] [] 0 [] 0 0 0 0 None (-1) false (S754_zero false)
  (S754_zero false) 0 (float_of_Z 10000) [] (S754_zero false) (S754_zero false) (S754_zero false) 0 (float_of_Z 1) 0
  0 0 false None false false None false (S754_zero false) (S754_zero false) (S754_zero false) false false false
  false false [] false (-1) 0.

(** [struct QuantArgs]. *)
Module Quant.
Record QuantArgs := mkQuantArgs {
  quant_method : text;
  bits : Z;
  group_size : Z;
  desc_act : bool;
  is_sym : bool;
  zero_point : bool;
}.
End Quant.
Definition new_QuantArgs : Quant.QuantArgs := Quant.mkQuantArgs [] 0 0 false false false.

(** [struct TokenizerArgs]. *)
Module Tok.
Record TokenizerArgs := mkTokenizerArgs {
  tokenizer_type : text;
  vocab_file : text;
  special_tokens : list (text * Z);
  pattern : text;
  prefix_tokens : list text;
  chat_template : text;
}.
End Tok.
Definition new_TokenizerArgs : Tok.TokenizerArgs := Tok.mkTokenizerArgs (text_of "sentencepiece") (text_of
  "tokenizer.model") [] [] [] [].
(** ** JSON *)

(** A document, after parsing: integers fit 64 bits, the other numbers are doubles. *)
Inductive Json :=
  | JNull
  | JBool (b : bool)
  | JInt (z : Z)
  | JFloat (f : float)
  | JString (s : text)
  | JArray (l : list Json)
  | JObject (l : list (text * Json)).

(** [absl::StrSplit(key, '.')]. *)
Fixpoint split_at_dot (cur : text) (s : text) : list text :=
  match s with
  | [] => [cur]
  | c :: s => if decide (c = "."%char) then cur :: split_at_dot [] s else split_at_dot (cur ++ [c]) s
  end.
Definition key_path (key : string) : list text := split_at_dot [] (text_of key).

(** [contains(k)] and [data[k]]: only objects have keys. *)
Definition json_field (data : Json) (k : text) : option Json :=
  match data with
  | JObject l => match list_find (λ p : text * Json, p.1 = k) l with Some (_, (_, d)) => Some d | None => None end
  | _ => None
  end.
Fixpoint json_walk (data : Json) (keys : list text) : option Json :=
  match keys with
  | [] => Some data
  | k :: keys => json_field data k ≫= λ d, json_walk d keys
  end.

(** [JsonReader::contains]. *)
Definition json_contains (json : Json) (key : string) : bool := bool_decide (is_Some (json_walk json (key_path key))).

(** [get<T>()] for the types of the arguments; a value of another type throws. *)
Definition Reader (T : Type) := Json → result T.
Definition type_error {T} : result T := Fail (CheckFailed "type_error.302").
Definition truncated (f : float) : result Z :=
  match f with
  | S754_zero _ => Ok 0%Z
  | S754_finite s m e => Ok (if s then (- Z.shiftl (Z.pos m) e)%Z else Z.shiftl (Z.pos m) e)
  | _ => Fail OutOfBounds
  end.
Definition int64 : Reader Z := λ d,
  match d with
  | JInt z => Ok (i64 z)
  | JFloat f => match truncated f with Ok z => if decide (-2^63 ≤ z < 2^63)%Z then Ok z else Fail OutOfBounds | Fail e => Fail e end
  | _ => type_error
  end.
Definition int32 : Reader Z := λ d,
  match d with
  | JInt z => Ok (i32 z)
  | JFloat f => match truncated f with Ok z => if decide (-2^31 ≤ z < 2^31)%Z then Ok z else Fail OutOfBounds | Fail e => Fail e end
  | JBool b => Ok (if b then 1 else 0)%Z
  | _ => type_error
  end.
Definition float32 : Reader float := λ d,
  match d with
  | JInt z => Ok (float_of_Z z)
  | JFloat f => Ok (float_of_double f)
  | JBool b => Ok (float_of_Z (if b then 1 else 0))
  | _ => type_error
  end.
Definition boolean : Reader bool := λ d, match d with JBool b => Ok b | _ => type_error end.
Definition string_value : Reader text := λ d, match d with JString s => Ok s | _ => type_error end.

(** [JsonReader::value]: nothing for a missing key, null, an array or an object. *)
Definition json_value {S T} (get : Reader T) (json : Json) (key : string) : M S (option T) :=
  match json_walk json (key_path key) with
  | None | Some JNull | Some (JArray _) | Some (JObject _) => mret None
  | Some d => v ← of_result (get d); mret (Some v)
  end.
(** [JsonReader::value_or]. *)
Definition json_value_or {S T} (get : Reader T) (json : Json) (key : string) (default_value : T) : M S T :=
  v ← json_value get json key; mret (default default_value v).

(** ** Loading an argument *)

(** [args->arg() = v]. *)
Definition assign {R E} (arg : R → E) {set : Setter arg} (v : E) : R → R := set (λ _, v).

Section load.
Context {R : Type}.

(** [SET_ARG], [LOAD_ARG], [LOAD_ARG_OR] and [LOAD_ARG_OR_FUNC]. *)
Definition set_arg {T} (arg : R → T) {set : Setter arg} (v : T) : M R unit := modify (assign arg v).
Definition load_arg {T} (arg : R → T) {set : Setter arg} (get : Reader T) (json : Json) (key : string) : M R unit :=
  v ← json_value get json key;
  match v with Some v => set_arg arg v | None => mret tt end.
Definition load_arg_or_func {T} (arg : R → T) {set : Setter arg} (get : Reader T) (json : Json) (key : string) (f : M R T) : M R unit :=
  v ← json_value get json key;
  match v with Some v => set_arg arg v | None => v ← f; set_arg arg v end.
Definition load_arg_or {T} (arg : R → T) {set : Setter arg} (get : Reader T) (json : Json) (key : string) (default_value : T) : M R unit :=
  v ← json_value_or get json key default_value; set_arg arg v.

(** The same for arguments of type [std::optional]. *)
Definition load_opt_arg {T} (arg : R → option T) {set : Setter arg} (get : Reader T) (json : Json) (key : string) : M R unit :=
  v ← json_value get json key;
  match v with Some v => set_arg arg (Some v) | None => mret tt end.
Definition load_opt_arg_or {T} (arg : R → option T) {set : Setter arg} (get : Reader T) (json : Json) (key : string) (default_value : T) : M R unit :=
  v ← json_value_or get json key default_value; set_arg arg (Some v).
Definition load_opt_arg_or_func {T} (arg : R → option T) {set : Setter arg} (get : Reader T) (json : Json) (key : string) (f : M R (option T)) : M R unit :=
  v ← json_value get json key;
  match v with Some v => set_arg arg (Some v) | None => v ← f; set_arg arg v end.
End load.

(** The literal [m * 10^-e] of type [double], converted to [float]. *)
Definition decimal (m : Z) (e : nat) : float :=
  float_of_double (double_div (binary_normalize 53 1024 m 0 false) (binary_normalize 53 1024 (10 ^ Z.of_nat e) 0 false)).

(** [a / b] of two [int64_t]. *)
Definition div64 {S} (a b : Z) : M S Z := if decide (b = 0%Z) then fail OutOfBounds else mret (i64 (a ÷ b)).

(** [args->hidden_size() / args->n_heads()] and [args->hidden_size() * 4]. *)
Definition default_head_dim : M Args.ModelArgs Z := a ← get; div64 (Args.hidden_size a) (Args.n_heads a).
Definition four_times_hidden : M Args.ModelArgs Z := a ← get; mret (i64 (Args.hidden_size a * 4)).

(** ** The arguments of the models *)

(** [aquila.h]. *)
Definition aquila_args (json : Json) : M Args.ModelArgs unit :=
  _ ← load_arg_or Args.model_type string_value json "model_type" (text_of "aquila");
  _ ← load_arg_or Args.dtype string_value json "torch_dtype" [];
  _ ← load_arg_or Args.vocab_size int64 json "vocab_size" 100008%Z;
  _ ← load_arg_or Args.hidden_size int64 json "hidden_size" 4096%Z;
  _ ← load_arg_or Args.n_layers int64 json "num_hidden_layers" 32%Z;
  _ ← load_arg_or Args.n_heads int64 json "num_attention_heads" 32%Z;
  _ ← load_arg_or Args.intermediate_size int64 json "intermediate_size" 11008%Z;
  _ ← load_arg_or Args.hidden_act string_value json "hidden_act" (text_of "silu");
  _ ← load_arg_or Args.max_position_embeddings int64 json "max_position_embeddings" 2048%Z;
  _ ← load_arg_or Args.rms_norm_eps float32 json "rms_norm_eps" (decimal 1 5);
  _ ← load_arg_or Args.bos_token_id int32 json "bos_token_id" 1%Z;
  _ ← load_arg_or Args.eos_token_id int32 json "eos_token_id" 2%Z;
  _ ← load_arg_or Args.rope_theta float32 json "rope_theta" (float_of_Z 10000);
  load_arg_or_func Args.head_dim int64 json "head_dim" default_head_dim.

(** [baichuan.h]. *)
Definition baichuan_args (json : Json) : M Args.ModelArgs unit :=
  _ ← load_arg_or Args.model_type string_value json "model_type" (text_of "baichuan");
  _ ← load_arg_or Args.dtype string_value json "torch_dtype" [];
  _ ← load_arg_or Args.hidden_act string_value json "hidden_act" (text_of "silu");
  _ ← load_arg_or Args.bos_token_id int32 json "bos_token_id" 1%Z;
  _ ← load_arg_or Args.eos_token_id int32 json "eos_token_id" 2%Z;
  _ ← load_arg_or Args.hidden_size int64 json "hidden_size" 4096%Z;
  _ ← load_arg_or Args.intermediate_size int64 json "intermediate_size" 11008%Z;
  _ ← load_arg_or Args.max_position_embeddings int64 json "max_position_embeddings" 4096%Z;
  _ ← load_arg_or Args.n_heads int64 json "num_attention_heads" 32%Z;
  _ ← load_arg_or Args.n_layers int64 json "num_hidden_layers" 32%Z;
  _ ← load_arg_or Args.rms_norm_eps float32 json "rms_norm_eps" (decimal 1 6);
  _ ← load_arg_or Args.vocab_size int64 json "vocab_size" 125696%Z;
  _ ← load_arg_or Args.rope_theta float32 json "rope_theta" (float_of_Z 10000);
  load_arg_or_func Args.head_dim int64 json "head_dim" default_head_dim.

(** [bloom.h]. *)
Definition bloom_args (json : Json) : M Args.ModelArgs unit :=
  _ ← load_arg_or Args.model_type string_value json "model_type" (text_of "bloom");
  _ ← load_arg_or Args.dtype string_value json "torch_dtype" [];
  _ ← load_arg_or Args.vocab_size int64 json "vocab_size" 250880%Z;
  _ ← load_arg_or Args.hidden_size int64 json "n_embed" 14336%Z;
  _ ← load_arg_or Args.n_layers int64 json "n_layer" 70%Z;
  _ ← load_arg_or Args.n_heads int64 json "num_attention_heads" 112%Z;
  _ ← load_arg_or Args.layer_norm_eps float32 json "layer_norm_epsilon" (decimal 1 5);
  _ ← load_arg_or Args.bos_token_id int32 json "bos_token_id" 1%Z;
  _ ← load_arg_or Args.eos_token_id int32 json "eos_token_id" 2%Z;
  _ ← load_arg_or Args.residual_post_layernorm boolean json "apply_residual_connection_post_layernorm" false;
  _ ← load_arg_or_func Args.intermediate_size int64 json "intermediate_size" four_times_hidden;
  load_arg_or_func Args.head_dim int64 json "head_dim" default_head_dim.

(** [chatglm.h]. *)
Definition chatglm_args (json : Json) : M Args.ModelArgs unit :=
  _ ← load_arg_or Args.model_type string_value json "model_type" (text_of "chatglm");
  _ ← load_arg_or Args.dtype string_value json "torch_dtype" (text_of "float16");
  _ ← load_arg_or Args.vocab_size int64 json "padded_vocab_size" 65024%Z;
  a ← get;
  _ ← (if decide (Args.vocab_size a = 151552%Z) then
    _ ← set_arg Args.model_type (text_of "chatglm4");
    _ ← load_arg_or Args.eos_token_id int32 json "eos_token_id" 151329%Z;
    set_arg Args.stop_token_ids [151336; 151338]%Z
  else
    _ ← load_arg_or Args.eos_token_id int32 json "eos_token_id" 2%Z;
    set_arg Args.stop_token_ids [64795; 64796; 64797]%Z);
  _ ← load_arg_or Args.hidden_size int64 json "hidden_size" 4096%Z;
  _ ← load_arg_or Args.intermediate_size int64 json "ffn_hidden_size" 13696%Z;
  _ ← load_arg_or Args.n_layers int64 json "num_layers" 28%Z;
  _ ← load_arg_or Args.n_heads int64 json "num_attention_heads" 32%Z;
  _ ← load_arg_or Args.use_rms_norm boolean json "rmsnorm" true;
  _ ← load_arg_or Args.layer_norm_eps float32 json "layernorm_epsilon" (decimal 1 5);
  _ ← load_arg_or Args.residual_post_layernorm boolean json "apply_residual_connection_post_layernorm" true;
  _ ← load_arg_or Args.max_position_embeddings int64 json "seq_length" 8192%Z;
  _ ← load_arg_or Args.linear_bias boolean json "add_bias_linear" false;
  _ ← load_arg_or Args.qkv_bias boolean json "add_qkv_bias" false;
  _ ← load_arg_or Args.post_layernorm boolean json "post_layer_norm" true;
  _ ← load_opt_arg_or_func Args.n_kv_heads int64 json "num_kv_attention_heads" (use_mqa ← json_value_or boolean json "multi_query_attention" false;
    if (use_mqa : bool) then n ← json_value_or int64 json "multi_query_group_num" 1%Z; mret (Some n) else mret None);
  _ ← load_arg_or Args.rotary_pct float32 json "rotary_pct" (decimal 5 1);
  _ ← load_arg_or_func Args.rope_theta float32 json "rope_theta" (rope_ratio ← json_value_or float32 json "rope_ratio" (float_of_Z 1);
    mret (SFmul 24 128 rope_ratio (float_of_Z 10000)));
  _ ← load_arg_or_func Args.rotary_dim int64 json "rotary_dim" (kv_channels ← json_value int64 json "kv_channels";
    match kv_channels with
    | Some n => mret n
    | None =>
        hidden_size ← json_value_or int64 json "hidden_size" 4096%Z;
        n_heads ← json_value_or int64 json "num_attention_heads" 32%Z;
        div64 hidden_size n_heads
    end);
  load_arg_or_func Args.head_dim int64 json "head_dim" default_head_dim.

(** [gemma.h]. *)
Definition gemma_args (json : Json) : M Args.ModelArgs unit :=
  _ ← load_arg_or Args.model_type string_value json "model_type" (text_of "gemma");
  _ ← load_arg_or Args.bos_token_id int32 json "bos_token_id" 2%Z;
  _ ← load_arg_or Args.eos_token_id int32 json "eos_token_id" 1%Z;
  _ ← load_arg_or Args.hidden_size int64 json "hidden_size" 2048%Z;
  _ ← load_arg_or Args.intermediate_size int64 json "intermediate_size" 16384%Z;
  _ ← load_arg_or Args.max_position_embeddings int64 json "max_position_embeddings" 8192%Z;
  _ ← load_arg_or Args.n_heads int64 json "num_attention_heads" 8%Z;
  _ ← load_arg_or Args.n_layers int64 json "num_hidden_layers" 18%Z;
  _ ← load_opt_arg_or Args.n_kv_heads int64 json "num_key_value_heads" 1%Z;
  _ ← load_arg_or Args.rms_norm_eps float32 json "rms_norm_eps" (decimal 1 6);
  _ ← load_arg_or Args.rope_theta float32 json "rope_theta" (float_of_Z 10000);
  _ ← load_arg_or Args.dtype string_value json "torch_dtype" (text_of "bfloat16");
  _ ← load_arg_or Args.vocab_size int64 json "vocab_size" 256000%Z;
  _ ← load_arg_or_func Args.hidden_act string_value json "hidden_activation" (_ ← json_value string_value json "hidden_act"; mret (text_of "gelu_pytorch_tanh"));
  load_arg_or_func Args.head_dim int64 json "head_dim" default_head_dim.

(** [gemma2.h]. *)
Definition gemma2_args (json : Json) : M Args.ModelArgs unit :=
  _ ← load_arg_or Args.model_type string_value json "model_type" (text_of "gemma2");
  _ ← load_arg_or Args.bos_token_id int32 json "bos_token_id" 2%Z;
  _ ← load_arg_or Args.eos_token_id int32 json "eos_token_id" 1%Z;
  _ ← load_arg_or Args.hidden_size int64 json "hidden_size" 2048%Z;
  _ ← load_arg_or Args.intermediate_size int64 json "intermediate_size" 16384%Z;
  _ ← load_arg_or Args.max_position_embeddings int64 json "max_position_embeddings" 8192%Z;
  _ ← load_arg_or Args.n_heads int64 json "num_attention_heads" 8%Z;
  _ ← load_arg_or Args.n_layers int64 json "num_hidden_layers" 18%Z;
  _ ← load_opt_arg_or Args.n_kv_heads int64 json "num_key_value_heads" 1%Z;
  _ ← load_arg_or Args.rms_norm_eps float32 json "rms_norm_eps" (decimal 1 6);
  _ ← load_arg_or Args.rope_theta float32 json "rope_theta" (float_of_Z 10000);
  _ ← load_arg_or Args.dtype string_value json "torch_dtype" (text_of "bfloat16");
  _ ← load_arg_or Args.vocab_size int64 json "vocab_size" 256000%Z;
  _ ← load_arg_or Args.hidden_act string_value json "hidden_activation" (text_of "gelu_pytorch_tanh");
  _ ← load_opt_arg_or Args.attn_scalar float32 json "query_pre_attn_scalar" (float_of_Z 224);
  _ ← load_arg_or Args.attn_bias boolean json "attention_bias" false;
  _ ← load_arg_or Args.sliding_window int32 json "sliding_window" 4096%Z;
  _ ← load_arg_or Args.attn_logit_soft_cap float32 json "attn_logit_softcapping" (float_of_Z 50);
  _ ← load_arg_or Args.final_logit_soft_cap float32 json "final_logit_softcapping" (float_of_Z 30);
  load_arg_or_func Args.head_dim int64 json "head_dim" default_head_dim.

(** [gpt2.h]. *)
Definition gpt2_args (json : Json) : M Args.ModelArgs unit :=
  _ ← load_arg_or Args.model_type string_value json "model_type" (text_of "gpt2");
  _ ← load_arg_or Args.dtype string_value json "torch_dtype" [];
  _ ← load_arg_or Args.vocab_size int64 json "vocab_size" 50257%Z;
  _ ← load_arg_or Args.hidden_size int64 json "n_embd" 768%Z;
  _ ← load_arg_or Args.n_layers int64 json "n_layer" 12%Z;
  _ ← load_arg_or Args.n_heads int64 json "n_head" 12%Z;
  _ ← load_arg_or Args.hidden_act string_value json "activation_function" (text_of "gelu_new");
  _ ← load_arg_or Args.max_position_embeddings int64 json "n_positions" 1024%Z;
  _ ← load_arg_or Args.layer_norm_eps float32 json "layer_norm_epsilon" (decimal 1 5);
  _ ← load_arg_or Args.bos_token_id int32 json "bos_token_id" 50256%Z;
  _ ← load_arg_or Args.eos_token_id int32 json "eos_token_id" 50256%Z;
  _ ← load_arg_or_func Args.intermediate_size int64 json "n_inner" four_times_hidden;
  load_arg_or_func Args.head_dim int64 json "head_dim" default_head_dim.

(** [gpt_j.h]. *)
Definition gptj_args (json : Json) : M Args.ModelArgs unit :=
  _ ← load_arg_or Args.model_type string_value json "model_type" (text_of "gptj");
  _ ← load_arg_or Args.dtype string_value json "torch_dtype" [];
  _ ← load_arg_or Args.vocab_size int64 json "vocab_size" 50400%Z;
  _ ← load_arg_or Args.hidden_size int64 json "n_embd" 4096%Z;
  _ ← load_arg_or Args.n_layers int64 json "n_layer" 28%Z;
  _ ← load_arg_or Args.n_heads int64 json "n_head" 16%Z;
  _ ← load_arg_or Args.rotary_dim int64 json "rotary_dim" 64%Z;
  _ ← load_arg_or Args.hidden_act string_value json "activation_function" (text_of "gelu_new");
  _ ← load_arg_or Args.max_position_embeddings int64 json "n_positions" 2048%Z;
  _ ← load_arg_or Args.layer_norm_eps float32 json "layer_norm_epsilon" (decimal 1 5);
  _ ← load_arg_or Args.bos_token_id int32 json "bos_token_id" 50256%Z;
  _ ← load_arg_or Args.eos_token_id int32 json "eos_token_id" 50256%Z;
  _ ← load_arg_or_func Args.intermediate_size int64 json "n_inner" four_times_hidden;
  load_arg_or_func Args.head_dim int64 json "head_dim" default_head_dim.

(** [gpt_neox.h]. *)
Definition gpt_neox_args (json : Json) : M Args.ModelArgs unit :=
  _ ← load_arg_or Args.model_type string_value json "model_type" (text_of "gpt_neox");
  _ ← load_arg_or Args.dtype string_value json "torch_dtype" [];
  _ ← load_arg_or Args.vocab_size int64 json "vocab_size" 50432%Z;
  _ ← load_arg_or Args.hidden_size int64 json "hidden_size" 6144%Z;
  _ ← load_arg_or Args.n_layers int64 json "num_hidden_layers" 44%Z;
  _ ← load_arg_or Args.n_heads int64 json "num_attention_heads" 64%Z;
  _ ← load_arg_or Args.intermediate_size int64 json "intermediate_size" 24576%Z;
  _ ← load_arg_or Args.hidden_act string_value json "hidden_act" (text_of "gelu");
  _ ← load_arg_or Args.rotary_pct float32 json "rotary_pct" (decimal 25 2);
  _ ← load_arg_or Args.rope_theta float32 json "rotary_emb_base" (float_of_Z 10000);
  _ ← load_arg_or Args.max_position_embeddings int64 json "max_position_embeddings" 2048%Z;
  _ ← load_arg_or Args.layer_norm_eps float32 json "layer_norm_eps" (decimal 1 5);
  _ ← load_arg_or Args.bos_token_id int32 json "bos_token_id" 0%Z;
  _ ← load_arg_or Args.eos_token_id int32 json "eos_token_id" 2%Z;
  _ ← load_arg_or Args.use_parallel_residual boolean json "use_parallel_residual" true;
  load_arg_or_func Args.head_dim int64 json "head_dim" default_head_dim.

(** [internlm.h]. *)
Definition internlm_args (json : Json) : M Args.ModelArgs unit :=
  _ ← load_arg_or Args.model_type string_value json "model_type" (text_of "internlm");
  _ ← load_arg_or Args.dtype string_value json "torch_dtype" [];
  _ ← load_arg_or Args.vocab_size int64 json "vocab_size" 103168%Z;
  _ ← load_arg_or Args.hidden_size int64 json "hidden_size" 5120%Z;
  _ ← load_arg_or Args.n_layers int64 json "num_hidden_layers" 60%Z;
  _ ← load_arg_or Args.n_heads int64 json "num_attention_heads" 40%Z;
  _ ← load_opt_arg Args.n_kv_heads int64 json "num_key_value_heads";
  _ ← load_arg_or Args.intermediate_size int64 json "intermediate_size" 13824%Z;
  _ ← load_arg_or Args.max_position_embeddings int64 json "max_position_embeddings" 4096%Z;
  _ ← load_arg_or Args.rms_norm_eps float32 json "rms_norm_eps" (decimal 1 6);
  _ ← load_arg_or Args.bos_token_id int32 json "bos_token_id" 1%Z;
  _ ← load_arg_or Args.eos_token_id int32 json "eos_token_id" 2%Z;
  _ ← load_arg_or Args.hidden_act string_value json "hidden_act" (text_of "silu");
  _ ← load_arg_or Args.rope_theta float32 json "rope_theta" (float_of_Z 10000);
  _ ← load_arg_or_func Args.head_dim int64 json "head_dim" default_head_dim;
  set_arg Args.stop_token_ids [1; 103028]%Z.

(** [llama.h]. *)
Definition llama_args (json : Json) : M Args.ModelArgs unit :=
  _ ← load_arg_or Args.model_type string_value json "model_type" (text_of "llama");
  _ ← load_arg_or Args.dtype string_value json "torch_dtype" [];
  _ ← load_opt_arg Args.n_kv_heads int64 json "num_key_value_heads";
  _ ← load_arg_or Args.hidden_act string_value json "hidden_act" (text_of "silu");
  _ ← load_arg_or Args.vocab_size int64 json "vocab_size" 128256%Z;
  a ← get;
  _ ← (if decide (Args.vocab_size a = 128256%Z) then
    _ ← set_arg Args.model_type (text_of "llama3");
    _ ← load_arg_or Args.hidden_size int64 json "hidden_size" 8192%Z;
    _ ← load_arg_or Args.n_layers int64 json "num_hidden_layers" 80%Z;
    _ ← load_arg_or Args.n_heads int64 json "num_attention_heads" 64%Z;
    _ ← load_arg_or Args.intermediate_size int64 json "intermediate_size" 28672%Z;
    _ ← load_arg_or Args.max_position_embeddings int64 json "max_position_embeddings" 8192%Z;
    _ ← load_arg_or Args.rms_norm_eps float32 json "rms_norm_eps" (decimal 1 5);
    _ ← load_arg_or Args.bos_token_id int32 json "bos_token_id" 128000%Z;
    _ ← load_arg_or Args.eos_token_id int32 json "eos_token_id" 128001%Z;
    _ ← load_arg_or Args.rope_theta float32 json "rope_theta" (float_of_Z 500000);
    _ ← load_arg Args.rope_scaling_rope_type string_value json "rope_scaling.rope_type";
    _ ← load_arg Args.rope_scaling_factor float32 json "rope_scaling.factor";
    _ ← load_arg Args.rope_scaling_low_freq_factor float32 json "rope_scaling.low_freq_factor";
    _ ← load_arg Args.rope_scaling_high_freq_factor float32 json "rope_scaling.high_freq_factor";
    _ ← load_arg Args.rope_scaling_original_max_position_embeddings int64 json "rope_scaling.original_max_position_embeddings";
    set_arg Args.stop_token_ids [128008; 128009]%Z
  else if decide (Args.vocab_size a = 64000%Z) then
    _ ← set_arg Args.model_type (text_of "Yi");
    _ ← load_arg_or Args.hidden_size int64 json "hidden_size" 7168%Z;
    _ ← load_arg_or Args.n_layers int64 json "num_hidden_layers" 60%Z;
    _ ← load_arg_or Args.n_heads int64 json "num_attention_heads" 56%Z;
    _ ← load_arg_or Args.intermediate_size int64 json "intermediate_size" 20480%Z;
    _ ← load_arg_or Args.max_position_embeddings int64 json "max_position_embeddings" 4096%Z;
    _ ← load_arg_or Args.rms_norm_eps float32 json "rms_norm_eps" (decimal 1 5);
    _ ← load_arg_or Args.bos_token_id int32 json "bos_token_id" 1%Z;
    _ ← load_arg_or Args.eos_token_id int32 json "eos_token_id" 2%Z;
    _ ← load_arg_or Args.rope_theta float32 json "rope_theta" (float_of_Z 5000000);
    set_arg Args.stop_token_ids [6; 7; 8]%Z
  else
    _ ← load_arg_or Args.hidden_size int64 json "hidden_size" 4096%Z;
    _ ← load_arg_or Args.n_layers int64 json "num_hidden_layers" 32%Z;
    _ ← load_arg_or Args.n_heads int64 json "num_attention_heads" 32%Z;
    _ ← load_arg_or Args.intermediate_size int64 json "intermediate_size" 11008%Z;
    _ ← load_arg_or Args.max_position_embeddings int64 json "max_position_embeddings" 2048%Z;
    _ ← load_arg_or Args.rms_norm_eps float32 json "rms_norm_eps" (decimal 1 5);
    _ ← load_arg_or Args.bos_token_id int32 json "bos_token_id" 1%Z;
    _ ← load_arg_or Args.eos_token_id int32 json "eos_token_id" 2%Z;
    load_arg_or Args.rope_theta float32 json "rope_theta" (float_of_Z 10000));
  load_arg_or_func Args.head_dim int64 json "head_dim" default_head_dim.

(** [mistral.h]. *)
Definition mistral_args (json : Json) : M Args.ModelArgs unit :=
  _ ← load_arg_or Args.model_type string_value json "model_type" (text_of "mistral");
  _ ← load_arg_or Args.dtype string_value json "torch_dtype" [];
  _ ← load_arg_or Args.vocab_size int64 json "vocab_size" 32000%Z;
  _ ← load_arg_or Args.hidden_size int64 json "hidden_size" 4096%Z;
  _ ← load_arg_or Args.n_layers int64 json "num_hidden_layers" 32%Z;
  _ ← load_arg_or Args.n_heads int64 json "num_attention_heads" 32%Z;
  _ ← load_opt_arg Args.n_kv_heads int64 json "num_key_value_heads";
  _ ← load_arg_or Args.intermediate_size int64 json "intermediate_size" 14336%Z;
  _ ← load_arg_or Args.hidden_act string_value json "hidden_act" (text_of "silu");
  _ ← load_arg_or Args.max_position_embeddings int64 json "max_position_embeddings" (4096 * 32)%Z;
  _ ← load_arg_or Args.rms_norm_eps float32 json "rms_norm_eps" (decimal 1 5);
  _ ← load_arg_or Args.bos_token_id int32 json "bos_token_id" 1%Z;
  _ ← load_arg_or Args.eos_token_id int32 json "eos_token_id" 2%Z;
  _ ← load_arg_or Args.rope_theta float32 json "rope_theta" (float_of_Z 10000);
  load_arg_or_func Args.head_dim int64 json "head_dim" default_head_dim.

(** [mpt.h]. *)
Definition mpt_args (json : Json) : M Args.ModelArgs unit :=
  _ ← load_arg_or Args.model_type string_value json "model_type" (text_of "mpt");
  _ ← load_arg_or Args.dtype string_value json "torch_dtype" [];
  _ ← load_arg_or Args.vocab_size int64 json "vocab_size" 50368%Z;
  _ ← load_arg_or Args.hidden_size int64 json "d_model" 2048%Z;
  _ ← load_arg_or Args.n_layers int64 json "num_hidden_layers" 32%Z;
  _ ← load_arg_or Args.n_heads int64 json "num_attention_heads" 32%Z;
  _ ← load_arg_or Args.max_position_embeddings int64 json "max_seq_len" 2048%Z;
  _ ← load_arg_or Args.layer_norm_eps float32 json "layer_norm_eps" (decimal 1 5);
  _ ← load_arg_or Args.no_bias boolean json "no_bias" true;
  _ ← load_arg_or Args.eos_token_id int32 json "eos_token_id" 0%Z;
  _ ← load_opt_arg Args.attn_qkv_clip float32 json "attn_config.clip_qkv";
  _ ← load_arg_or Args.attn_qk_ln boolean json "attn_config.qk_ln" false;
  _ ← load_arg_or Args.attn_alibi boolean json "attn_config.alibi" false;
  _ ← load_arg_or Args.alibi_bias_max float32 json "attn_config.alibi_bias_max" (float_of_Z 0);
  _ ← load_arg_or_func Args.intermediate_size int64 json "intermediate_size" (expansion_ratio ← json_value_or int64 json "expansion_ratio" 4%Z;
    a ← get; mret (i64 (expansion_ratio * Args.hidden_size a)));
  _ ← load_arg_or_func Args.head_dim int64 json "head_dim" default_head_dim;
  set_arg Args.stop_token_ids [50278]%Z.

(** [phi.h]. *)
Definition phi_args (json : Json) : M Args.ModelArgs unit :=
  _ ← load_arg_or Args.model_type string_value json "model_type" (text_of "phi-msft");
  _ ← load_arg_or Args.dtype string_value json "torch_dtype" [];
  _ ← load_arg_or Args.vocab_size int64 json "vocab_size" 51200%Z;
  _ ← load_arg_or Args.hidden_size int64 json "n_embd" 2560%Z;
  _ ← load_arg_or Args.n_layers int64 json "n_layer" 32%Z;
  _ ← load_arg_or Args.n_heads int64 json "n_head" 32%Z;
  _ ← load_opt_arg Args.n_kv_heads int64 json "n_head_kv";
  _ ← load_arg_or Args.rotary_dim int64 json "rotary_dim" 32%Z;
  _ ← load_arg_or Args.hidden_act string_value json "activation_function" (text_of "gelu_new");
  _ ← load_arg_or Args.max_position_embeddings int64 json "n_positions" 2048%Z;
  _ ← load_arg_or Args.layer_norm_eps float32 json "layer_norm_epsilon" (decimal 1 5);
  _ ← load_arg_or Args.bos_token_id int32 json "bos_token_id" 50256%Z;
  _ ← load_arg_or Args.eos_token_id int32 json "eos_token_id" 50256%Z;
  _ ← load_arg_or_func Args.intermediate_size int64 json "n_inner" four_times_hidden;
  load_arg_or_func Args.head_dim int64 json "head_dim" default_head_dim.

(** [qwen.h]. *)
Definition qwen_args (json : Json) : M Args.ModelArgs unit :=
  _ ← load_arg_or Args.model_type string_value json "model_type" (text_of "qwen");
  _ ← load_arg_or Args.dtype string_value json "torch_dtype" [];
  _ ← load_arg_or Args.vocab_size int64 json "vocab_size" 151936%Z;
  _ ← load_arg_or Args.hidden_size int64 json "hidden_size" 4096%Z;
  _ ← load_arg_or Args.n_layers int64 json "num_hidden_layers" 32%Z;
  _ ← load_arg_or Args.n_heads int64 json "num_attention_heads" 32%Z;
  _ ← load_arg_or Args.no_bias boolean json "no_bias" true;
  _ ← load_arg_or Args.intermediate_size int64 json "intermediate_size" 22016%Z;
  _ ← load_arg_or Args.max_position_embeddings int64 json "max_position_embeddings" 32768%Z;
  _ ← load_arg_or Args.layer_norm_eps float32 json "layer_norm_epsilon" (decimal 1 6);
  _ ← load_arg_or Args.eos_token_id int32 json "eos_token_id" 151643%Z;
  _ ← load_arg_or Args.rope_theta float32 json "rope_theta" (float_of_Z 10000);
  _ ← load_arg_or_func Args.head_dim int64 json "head_dim" default_head_dim;
  set_arg Args.stop_token_ids [151644; 151645]%Z.

(** [qwen2.h]. *)
Definition qwen2_args (json : Json) : M Args.ModelArgs unit :=
  _ ← load_arg_or Args.model_type string_value json "model_type" (text_of "qwen2");
  _ ← load_arg_or Args.dtype string_value json "torch_dtype" [];
  _ ← load_arg_or Args.vocab_size int64 json "vocab_size" 152064%Z;
  _ ← load_arg_or Args.hidden_size int64 json "hidden_size" 3584%Z;
  _ ← load_arg_or Args.n_layers int64 json "num_hidden_layers" 28%Z;
  _ ← load_arg_or Args.n_heads int64 json "num_attention_heads" 28%Z;
  _ ← load_opt_arg Args.n_kv_heads int64 json "num_key_value_heads";
  _ ← load_arg_or Args.intermediate_size int64 json "intermediate_size" 18944%Z;
  _ ← load_arg_or Args.max_position_embeddings int64 json "max_position_embeddings" 32768%Z;
  _ ← load_arg_or Args.rms_norm_eps float32 json "rms_norm_eps" (decimal 1 6);
  _ ← load_arg_or Args.eos_token_id int32 json "eos_token_id" 151643%Z;
  _ ← load_arg_or Args.rope_theta float32 json "rope_theta" (float_of_Z 1000000);
  _ ← load_arg_or Args.use_sliding_window boolean json "use_sliding_window" false;
  _ ← load_arg_or Args.sliding_window int32 json "sliding_window" 4096%Z;
  _ ← load_arg_or Args.max_window_layers int32 json "max_window_layers" 28%Z;
  _ ← load_arg_or_func Args.head_dim int64 json "head_dim" default_head_dim;
  set_arg Args.stop_token_ids [151644; 151645]%Z.

(** ** The arguments of the tokenizers *)

(** [{"<unk>", 0}]. *)
Definition special (name : string) (id : Z) : text * Z := (text_of name, id).

(** [llama.h]. *)
Definition Yi_tokenizer_args (json : Json) : M Tok.TokenizerArgs unit :=
  _ ← set_arg Tok.tokenizer_type (text_of "sentencepiece");
  _ ← set_arg Tok.vocab_file (text_of "tokenizer.model");
  set_arg Tok.special_tokens [special "<unk>" 0; special "<|startoftext|>" 1; special "<|endoftext|>" 2;
    special "<|im_start|>" 6; special "<|im_end|>" 7; special "<|im_sep|>" 8].

(** [chatglm.h]. *)
Definition chatglm_tokenizer_args (json : Json) : M Tok.TokenizerArgs unit :=
  _ ← set_arg Tok.tokenizer_type (text_of "sentencepiece");
  _ ← set_arg Tok.vocab_file (text_of "tokenizer.model");
  _ ← set_arg Tok.special_tokens [special "[MASK]" 64789; special "[gMASK]" 64790; special "[sMASK]" 64791; special "sop" 64792;
    special "eop" 64793; special "<|system|>" 64794; special "<|user|>" 64795; special "<|assistant|>" 64796; special "<|observation|>" 64797];
  set_arg Tok.prefix_tokens [text_of "[gMASK]"; text_of "sop"].
Definition chatglm4_tokenizer_args (json : Json) : M Tok.TokenizerArgs unit :=
  _ ← set_arg Tok.tokenizer_type (text_of "tiktoken");
  _ ← set_arg Tok.vocab_file (text_of "tokenizer.model");
  _ ← set_arg Tok.special_tokens [special "<|endoftext|>" 151329; special "[MASK]" 151330; special "[gMASK]" 151331; special "[sMASK]" 151332;
    special "<sop>" 151333; special "<eop>" 151334; special "<|system|>" 151335; special "<|user|>" 151336; special "<|assistant|>" 151337;
    special "<|observation|>" 151338; special "<|begin_of_image|>" 151339; special "<|end_of_image|>" 151340; special "<|begin_of_video|>" 151341;
    special "<|end_of_video|>" 151342];
  _ ← set_arg Tok.prefix_tokens [text_of "[gMASK]"; text_of "<sop>"];
  set_arg Tok.pattern
    (text_of "(?i:'s|'t|'re|'ve|'m|'ll|'d)|[^\r\n\p{L}\p{N}]?\p{L}+|\p{N}{1,3}| ?[^\s\p{L}\p{N}]+[\r\n]*|\s*[\r\n]+|\s+[^\S]|\s+").

(** [qwen.h]: the loop numbers the extra tokens from 151646. *)
Definition qwen_extra (i : nat) : text * Z := (text_of "<|extra_" ++ text_of (pretty i) ++ text_of "|>", (151646 + Z.of_nat i)%Z).
Definition qwen_tokenizer_args (json : Json) : M Tok.TokenizerArgs unit :=
  _ ← set_arg Tok.tokenizer_type (text_of "tiktoken");
  _ ← set_arg Tok.vocab_file (text_of "qwen.tiktoken");
  _ ← set_arg Tok.special_tokens ([special "<|endoftext|>" 151643; special "<|im_start|>" 151644; special "<|im_end|>" 151645] ++
    (qwen_extra <$> seq 0 205));
  set_arg Tok.pattern
    (text_of "(?i:'s|'t|'re|'ve|'m|'ll|'d)|[^\r\n\p{L}\p{N}]?\p{L}+|\p{N}| ?[^\s\p{L}\p{N}]+[\r\n]*|\s*[\r\n]+|\s+[^\S]|\s+").

(** ** The registry *)

(** The classes of the models and of their chat templates. *)
Inductive CausalModel :=
  | AquilaForCausalLM | BaichuanForCausalLM | BloomForCausalLM | ChatGLMForCausalLM | GemmaForCausalLM | Gemma2ForCausalLM
  | GPT2ForCausalLM | GPTJForCausalLM | GPTNeoXForCausalLM | InternlmForCausalLM | LlamaForCausalLM | MistralForCausalLM
  | MPTForCausalLM | PhiForCausalLM | QWenForCausalLM | QWen2ForCausalLM.
Inductive TemplateClass :=
  | AquilaChatTemplate | BaichuanChatTemplate | ChatGLMChatTemplate | ChatGLM4ChatTemplate | GemmaChatTemplate | Gemma2ChatTemplate
  | InternlmDialog | Llama2ChatTemplate | Llama3ChatTemplate | YiChatTemplate | MistralChatTemplate | MPTChatTemplate
  | QwenChatTemplate | QWen2ChatTemplate.

Definition ModelArgsLoader : Type := Json → M Args.ModelArgs unit.
Definition TokenizerArgsLoader : Type := Json → M Tok.TokenizerArgs unit.

(** [struct ModelMeta]; no model registers a loader of quantization arguments. *)
Record ModelMeta := mkModelMeta {
  causal_lm_factory : option CausalModel;
  chat_template_factory : option TemplateClass;
  model_args_loader : option ModelArgsLoader;
  tokenizer_args_loader : option TokenizerArgsLoader;
}.
Definition ModelRegistry : Type := gmap text ModelMeta.
Definition meta_of (r : ModelRegistry) (name : text) : ModelMeta := default (mkModelMeta None None None None) (r !! name).

(** [register_causallm_factory] and the others: the first registration stays. *)
Definition register {E} (arg : ModelMeta → option E) {set : Setter arg} (name : string) (v : E) (r : ModelRegistry) : ModelRegistry :=
  let m := meta_of r (text_of name) in
  <[text_of name := match arg m with Some _ => m | None => assign arg (Some v) m end]> r.

(** The registrations of [models.h]. *)
Definition registrations : list (ModelRegistry → ModelRegistry) := [
  register causal_lm_factory "aquila" AquilaForCausalLM; register chat_template_factory "aquila" AquilaChatTemplate;
  register model_args_loader "aquila" aquila_args;
  register causal_lm_factory "baichuan" BaichuanForCausalLM; register chat_template_factory "baichuan" BaichuanChatTemplate;
  register model_args_loader "baichuan" baichuan_args;
  register causal_lm_factory "bloom" BloomForCausalLM; register model_args_loader "bloom" bloom_args;
  register causal_lm_factory "chatglm" ChatGLMForCausalLM; register causal_lm_factory "chatglm4" ChatGLMForCausalLM;
  register chat_template_factory "chatglm" ChatGLMChatTemplate; register chat_template_factory "chatglm4" ChatGLM4ChatTemplate;
  register model_args_loader "chatglm" chatglm_args; register tokenizer_args_loader "chatglm" chatglm_tokenizer_args;
  register tokenizer_args_loader "chatglm4" chatglm4_tokenizer_args;
  register causal_lm_factory "gemma" GemmaForCausalLM; register chat_template_factory "gemma" GemmaChatTemplate;
  register model_args_loader "gemma" gemma_args;
  register causal_lm_factory "gemma2" Gemma2ForCausalLM; register chat_template_factory "gemma2" Gemma2ChatTemplate;
  register model_args_loader "gemma2" gemma2_args;
  register causal_lm_factory "gpt2" GPT2ForCausalLM; register model_args_loader "gpt2" gpt2_args;
  register causal_lm_factory "gptj" GPTJForCausalLM; register model_args_loader "gptj" gptj_args;
  register causal_lm_factory "gpt_neox" GPTNeoXForCausalLM; register model_args_loader "gpt_neox" gpt_neox_args;
  register causal_lm_factory "internlm" InternlmForCausalLM; register chat_template_factory "internlm" InternlmDialog;
  register model_args_loader "internlm" internlm_args;
  register causal_lm_factory "llama" LlamaForCausalLM; register causal_lm_factory "llama3" LlamaForCausalLM;
  register causal_lm_factory "Yi" LlamaForCausalLM; register chat_template_factory "llama" Llama2ChatTemplate;
  register chat_template_factory "llama3" Llama3ChatTemplate; register chat_template_factory "Yi" YiChatTemplate;
  register model_args_loader "llama" llama_args; register tokenizer_args_loader "Yi" Yi_tokenizer_args;
  register causal_lm_factory "mistral" MistralForCausalLM; register chat_template_factory "mistral" MistralChatTemplate;
  register model_args_loader "mistral" mistral_args;
  register causal_lm_factory "mpt" MPTForCausalLM; register chat_template_factory "mpt" MPTChatTemplate;
  register model_args_loader "mpt" mpt_args;
  register causal_lm_factory "phi-msft" PhiForCausalLM; register model_args_loader "phi-msft" phi_args;
  register causal_lm_factory "qwen" QWenForCausalLM; register chat_template_factory "qwen" QwenChatTemplate;
  register model_args_loader "qwen" qwen_args; register tokenizer_args_loader "qwen" qwen_tokenizer_args;
  register causal_lm_factory "qwen2" QWen2ForCausalLM; register chat_template_factory "qwen2" QWen2ChatTemplate;
  register model_args_loader "qwen2" qwen2_args].
Definition model_registry : ModelRegistry := foldl (λ r f, f r) ∅ registrations.

(** ** Flags that override the arguments *)

(** The result of [std::stoi] and its like. *)
Inductive Parsed (T : Type) := ParsedAs (v : T) | InvalidArgument | OutOfRange.
Arguments ParsedAs {T} _.
Arguments InvalidArgument {T}.
Arguments OutOfRange {T}.

Definition is_space (c : ascii) : bool := let n := nat_of_ascii c in (n =? 32) || ((9 <=? n) && (n <=? 13)).
Definition digit_of (c : ascii) : option Z :=
  let n := nat_of_ascii c in if decide (48 ≤ n ≤ 57) then Some (Z.of_nat n - 48)%Z else None.
Fixpoint skip_spaces (s : text) : text := match s with c :: s' => if is_space c then skip_spaces s' else s | [] => [] end.
Fixpoint read_digits (acc : Z) (s : text) : Z :=
  match s with c :: s => match digit_of c with Some d => read_digits (acc * 10 + d) s | None => acc end | [] => acc end.

(** [std::stoi] and [std::stoll] for the range of the type: spaces, a sign, digits; what
    follows is ignored. *)
Definition parse_integer (lo hi : Z) (s : text) : Parsed Z :=
  let s := skip_spaces s in
  let '(neg, s) := match s with c :: s' => if decide (c = "-"%char) then (true, s') else if decide (c = "+"%char) then (false, s') else (false, s) | [] => (false, s) end in
  match s with
  | c :: _ =>
      match digit_of c with
      | None => InvalidArgument
      | Some _ => let v := (if (neg : bool) then - read_digits 0 s else read_digits 0 s)%Z in if decide (lo ≤ v ≤ hi)%Z then ParsedAs v else OutOfRange
      end
  | [] => InvalidArgument
  end.

(** [absl::StrSplit(str, ",;", absl::SkipWhitespace())]: the delimiter is the string of
    two characters. *)
Fixpoint split_delimiter (cur s : text) : list text :=
  match s with
  | [] => [cur]
  | c :: s' =>
      match s' with
      | c' :: s'' => if decide (c = ","%char ∧ c' = ";"%char) then cur :: split_delimiter [] s'' else split_delimiter (cur ++ [c]) s'
      | [] => [cur ++ [c]]
      end
  end.
Definition split_list (s : text) : list text := filter (λ p, Forall (λ c, is_space c = true) p → False) (split_delimiter [] s).

(** [convert_from_string]: an argument that is not valid gives nothing; [std::out_of_range]
    is not caught. *)
Definition Converter (T : Type) := text → result (option T).
Definition caught {T} (p : Parsed T) : result (option T) :=
  match p with ParsedAs v => Ok (Some v) | InvalidArgument => Ok None | OutOfRange => Fail (CheckFailed "std::out_of_range") end.
Definition to_text : Converter text := λ s, Ok (Some s).
Definition to_bool : Converter bool := λ s, Ok (Some (bool_decide (s ∈ [text_of "1"; text_of "true"; text_of "t"; text_of "y"; text_of "yes"]))).
Definition to_int32 : Converter Z := λ s, caught (parse_integer (-2^31) (2^31 - 1) s).
Definition to_int64 : Converter Z := λ s, caught (parse_integer (-2^63) (2^63 - 1) s).
Definition to_texts : Converter (list text) := λ s, Ok (Some (split_list s)).

Section flags.
(** The values of the flags and [std::stof]. *)
Context (FLAGS : string → text) (stof : text → Parsed float).
Definition to_float : Converter float := λ s, caught (stof s).

(** [OVERRIDE_ARG_FROM_GFLAG]. *)
Definition override_with {R E} (set : E → R → R) {T} (wrap : T → E) (conv : Converter T) (name : string) : M R unit :=
  if decide (FLAGS name = []) then mret tt
  else v ← of_result (conv (FLAGS name)); match v with Some v => modify (set (wrap v)) | None => mret tt end.
Definition override {R T} (arg : R → T) {set : Setter arg} (conv : Converter T) (name : string) : M R unit := override_with (assign arg) id conv name.
Definition override_opt {R T} (arg : R → option T) {set : Setter arg} (conv : Converter T) (name : string) : M R unit :=
  override_with (assign arg) Some conv name.

(** [override_args_from_gflag]. *)
Definition override_model_args : M Args.ModelArgs unit :=
  _ ← override Args.model_type to_text "model_type";
  _ ← override Args.dtype to_text "dtype";
  _ ← override Args.hidden_size to_int64 "hidden_size";
  _ ← override Args.hidden_act to_text "hidden_act";
  _ ← override Args.intermediate_size to_int64 "intermediate_size";
  _ ← override Args.n_layers to_int64 "n_layers";
  _ ← override Args.n_heads to_int64 "n_heads";
  _ ← override_opt Args.n_kv_heads to_int64 "n_kv_heads";
  _ ← override Args.vocab_size to_int64 "vocab_size";
  _ ← override Args.rms_norm_eps to_float "rms_norm_eps";
  _ ← override Args.layer_norm_eps to_float "layer_norm_eps";
  _ ← override Args.rotary_dim to_int64 "rotary_dim";
  _ ← override Args.rope_theta to_float "rope_theta";
  _ ← override Args.rotary_pct to_float "rotary_pct";
  _ ← override Args.max_position_embeddings to_int64 "max_position_embeddings";
  _ ← override Args.bos_token_id to_int32 "bos_token_id";
  _ ← override Args.eos_token_id to_int32 "eos_token_id";
  _ ← override Args.use_parallel_residual to_bool "use_parallel_residual";
  _ ← override_opt Args.attn_qkv_clip to_float "attn_qkv_clip";
  _ ← override Args.attn_qk_ln to_bool "attn_qk_ln";
  _ ← override Args.attn_alibi to_bool "attn_alibi";
  _ ← override Args.alibi_bias_max to_float "alibi_bias_max";
  _ ← override Args.no_bias to_bool "no_bias";
  override Args.residual_post_layernorm to_bool "residual_post_layernorm".
Definition override_quant_args : M Quant.QuantArgs unit :=
  _ ← override Quant.quant_method to_text "quant_method";
  _ ← override Quant.bits to_int64 "bits";
  _ ← override Quant.group_size to_int64 "group_size";
  _ ← override Quant.desc_act to_bool "desc_act";
  _ ← override Quant.is_sym to_bool "is_sym";
  override Quant.zero_point to_bool "zero_point".
Definition override_tokenizer_args : M Tok.TokenizerArgs unit :=
  _ ← override Tok.tokenizer_type to_text "tokenizer_type";
  _ ← override Tok.vocab_file to_text "vocab_file";
  _ ← override Tok.pattern to_text "pattern";
  _ ← override Tok.prefix_tokens to_texts "prefix_tokens";
  override Tok.chat_template to_text "chat_template".

(** ** HFModelLoader *)

Record HFModelLoader := mkLoader {
  args_ : Args.ModelArgs;
  quant_args_ : Quant.QuantArgs;
  tokenizer_args_ : Tok.TokenizerArgs;
}.
Definition on_args (m : M Args.ModelArgs unit) : M HFModelLoader unit := zoom args_ (λ a l, mkLoader a (quant_args_ l) (tokenizer_args_ l)) m.
Definition on_quant (m : M Quant.QuantArgs unit) : M HFModelLoader unit := zoom quant_args_ (λ q l, mkLoader (args_ l) q (tokenizer_args_ l)) m.
Definition on_tokenizer (m : M Tok.TokenizerArgs unit) : M HFModelLoader unit :=
  zoom tokenizer_args_ (λ t l, mkLoader (args_ l) (quant_args_ l) t) m.

(** [absl::StrReplaceAll] of one string. *)
Fixpoint replace_all (fuel : nat) (old new s : text) : text :=
  match fuel, s with
  | S fuel, c :: s' => if starts_with s old then new ++ replace_all fuel old new (drop (length old) s) else c :: replace_all fuel old new s'
  | _, _ => s
  end.
Definition fix_chat_template (t : text) : text :=
  replace_all (length t) (text_of "if not add_generation_prompt is defined") (text_of "if add_generation_prompt is undefined") t.

(** The quantization arguments in [config.json], [quant_config.json] and
    [quantize_config.json]. *)
Definition load_quantization_config (reader : Json) : M Quant.QuantArgs unit :=
  if json_contains reader "quantization_config" then
    _ ← load_arg Quant.quant_method string_value reader "quantization_config.quant_method";
    _ ← load_arg Quant.bits int64 reader "quantization_config.bits";
    _ ← load_arg Quant.group_size int64 reader "quantization_config.group_size";
    _ ← load_arg Quant.desc_act boolean reader "quantization_config.desc_act";
    _ ← load_arg Quant.is_sym boolean reader "quantization_config.sym";
    load_arg Quant.zero_point boolean reader "quantization_config.zero_point"
  else mret tt.
Definition load_awq_config (reader : Json) : M Quant.QuantArgs unit :=
  _ ← load_arg_or Quant.quant_method string_value reader "quant_method" (text_of "awq");
  _ ← load_arg Quant.bits int64 reader "w_bit";
  load_arg Quant.group_size int64 reader "q_group_size".
Definition load_gptq_config (reader : Json) : M Quant.QuantArgs unit :=
  _ ← load_arg_or Quant.quant_method string_value reader "quant_method" (text_of "gptq");
  _ ← load_arg Quant.bits int64 reader "bits";
  _ ← load_arg Quant.group_size int64 reader "group_size";
  _ ← load_arg Quant.desc_act boolean reader "desc_act";
  _ ← load_arg Quant.is_sym boolean reader "sym";
  load_arg Quant.zero_point boolean reader "zero_point".

(** [HFModelLoader::load_model_args]; [files] are the documents in the directory.  A
    reader whose file does not exist holds null. *)
Definition load_model_args (files : string → option Json) : M HFModelLoader bool :=
  match files "config.json" with
  | None => mret false
  | Some reader =>
      model_type ← json_value string_value reader "model_type";
      match model_type with
      | None => mret false
      | Some model_type =>
          match model_args_loader (meta_of model_registry model_type) with
          | None => mret false
          | Some args_loader =>
              _ ← on_args (args_loader reader);
              _ ← on_quant (load_quantization_config reader);
              _ ← match files "quant_config.json" with Some r => on_quant (load_awq_config r) | None => mret tt end;
              _ ← match files "quantize_config.json" with Some r => on_quant (load_gptq_config r) | None => mret tt end;
              let tokenizer_reader := files "tokenizer_config.json" in
              _ ← match tokenizer_reader with Some r => on_tokenizer (load_arg Tok.chat_template string_value r "chat_template") | None => mret tt end;
              l ← get;
              _ ← match tokenizer_args_loader (meta_of model_registry (Args.model_type (args_ l))) with
                  | Some loader => on_tokenizer (loader (default JNull tokenizer_reader))
                  | None => mret tt
                  end;
              _ ← on_args override_model_args;
              _ ← on_quant override_quant_args;
              _ ← on_tokenizer override_tokenizer_args;
              (* fix chat template *)
              _ ← on_tokenizer (t ← get;
                if decide (Tok.chat_template t = []) then mret tt else set_arg Tok.chat_template (fix_chat_template (Tok.chat_template t)));
              mret true
          end
      end
  end.
End flags.

(** ** Properties *)

(** What the entries of a configuration are expected to hold. *)
Inductive Kind := KString | KBool | KFloat | KInt | KToken | KSize.
#[global] Instance Kind_eq_dec : EqDecision Kind.
Proof. solve_decision. Defined.

Definition kind_holds (k : Kind) (d : Json) : Prop :=
  match k, d with
  | KString, JString _ | KBool, JBool _ | KFloat, JInt _ | KFloat, JFloat _ | KInt, JInt _ => True
  | KToken, JInt z => (0 ≤ z < 2 ^ 31)%Z
  | KSize, JInt z => (0 < z < 2 ^ 31)%Z
  | _, _ => False
  end.
Definition string_keys : list string :=
  ["model_type"; "torch_dtype"; "hidden_act"; "hidden_activation"; "activation_function"; "rope_scaling.rope_type";
   "quant_method"; "quantization_config.quant_method"; "chat_template"].
Definition bool_keys : list string :=
  ["apply_residual_connection_post_layernorm"; "rmsnorm"; "add_bias_linear"; "add_qkv_bias"; "post_layer_norm"; "multi_query_attention";
   "attention_bias"; "use_parallel_residual"; "no_bias"; "attn_config.qk_ln"; "attn_config.alibi"; "use_sliding_window";
   "desc_act"; "sym"; "zero_point"; "quantization_config.desc_act"; "quantization_config.sym"; "quantization_config.zero_point"].
Definition float_keys : list string :=
  ["rms_norm_eps"; "rope_theta"; "layer_norm_epsilon"; "layernorm_epsilon"; "layer_norm_eps"; "rotary_pct"; "rope_ratio"; "rotary_emb_base";
   "query_pre_attn_scalar"; "attn_logit_softcapping"; "final_logit_softcapping"; "rope_scaling.factor"; "rope_scaling.low_freq_factor";
   "rope_scaling.high_freq_factor"; "attn_config.clip_qkv"; "attn_config.alibi_bias_max"].
Definition int_keys : list string :=
  ["bits"; "group_size"; "w_bit"; "q_group_size"; "quantization_config.bits"; "quantization_config.group_size"].
Definition token_keys : list string := ["bos_token_id"; "eos_token_id"].
Definition key_kind (key : string) : Kind :=
  if decide (key ∈ string_keys) then KString else if decide (key ∈ bool_keys) then KBool
  else if decide (key ∈ float_keys) then KFloat else if decide (key ∈ int_keys) then KInt
  else if decide (key ∈ token_keys) then KToken else KSize.

(** The scalars of a configuration have the kinds of their keys. *)
Definition scalar (d : Json) : Prop := match d with JNull | JArray _ | JObject _ => False | _ => True end.
Definition config_ok (json : Json) : Prop := ∀ key d, json_walk json (key_path key) = Some d → scalar d → kind_holds (key_kind key) d.

(** What the readers make of them. *)
Class Reads {T} (get : Reader T) (k : Kind) (P : T → Prop) := reads d : kind_holds k d → ∃ v, get d = Ok v ∧ P v.
Arguments reads {T} get k P {_} d _.
#[global] Instance reads_string : Reads string_value KString (λ _, True).
Proof. intros [] H; try done. by eexists. Qed.
#[global] Instance reads_bool : Reads boolean KBool (λ _, True).
Proof. intros [] H; try done. by eexists. Qed.
#[global] Instance reads_float : Reads float32 KFloat (λ _, True).
Proof. intros [] H; try done; by eexists. Qed.
#[global] Instance reads_int : Reads int64 KInt (λ _, True).
Proof. intros [] H; try done. by eexists. Qed.
Lemma i64_small z : (0 ≤ z < 2 ^ 63)%Z → i64 z = z.
Proof. intros H. unfold i64. rewrite Z.mod_small by lia. lia. Qed.
#[global] Instance reads_token : Reads int32 KToken (λ z, (0 ≤ z < 2 ^ 31)%Z).
Proof. intros [] H; try done. cbn in *. eexists. split; [done|]. unfold i32. rewrite Z.mod_small by lia. lia. Qed.
#[global] Instance reads_size : Reads int64 KSize (λ z, (0 < z < 2 ^ 31)%Z).
Proof. intros [] H; try done. cbn in *. eexists. split; [done|]. rewrite i64_small by lia. lia. Qed.
#[global] Instance reads_size32 : Reads int32 KSize (λ z, (0 < z < 2 ^ 31)%Z).
Proof. intros [] H; try done. cbn in *. eexists. split; [done|]. unfold i32. rewrite Z.mod_small by lia. lia. Qed.

Section load_rules.
Context {R : Type} (json : Json) (Hjson : config_ok json).

Lemma wp_json_value {S T} (get : Reader T) k P `{!Reads get k P} key (s : S) (Q : option T → S → Prop) : key_kind key = k →
  Q None s → (∀ v, P v → Q (Some v) s) → wp (json_value get json key) s Q.
Proof using Hjson.
  intros Hk Hn Hs. unfold json_value. destruct (json_walk json (key_path key)) as [d|] eqn:Hd; [|done].
  assert (scalar d → ∃ v, get d = Ok v ∧ P v) as Hv by (intros Hsc; apply (reads get k P); rewrite <-Hk; by apply Hjson).
  destruct d; try done; destruct (Hv I) as (v&Hget&HP); unfold of_result; rewrite Hget; by apply Hs.
Qed.

Lemma wp_json_value_or {S T} (get : Reader T) k P `{!Reads get k P} key dflt (s : S) (Q : T → S → Prop) : key_kind key = k →
  P dflt → (∀ v, P v → Q v s) → wp (json_value_or get json key dflt) s Q.
Proof using Hjson.
  intros Hk Hd Hv. unfold json_value_or. apply wp_bind. eapply wp_json_value; [done|done| |]; cbn; [by apply Hv|]. intros v HP. by apply Hv.
Qed.

Lemma wp_load_arg_or {T} (arg : R → T) {set : Setter arg} get k P `{!Reads get k P} key dflt a (Q : unit → R → Prop) : key_kind key = k →
  P dflt → (∀ v, P v → Q tt (assign arg v a)) → wp (load_arg_or arg get json key dflt) a Q.
Proof using Hjson. intros Hk Hd Hv. unfold load_arg_or. apply wp_bind. by eapply wp_json_value_or. Qed.

Lemma wp_load_opt_arg_or {T} (arg : R → option T) {set : Setter arg} get k P `{!Reads get k P} key dflt a (Q : unit → R → Prop) : key_kind key = k →
  P dflt → (∀ v, P v → Q tt (assign arg (Some v) a)) → wp (load_opt_arg_or arg get json key dflt) a Q.
Proof using Hjson. intros Hk Hd Hv. unfold load_opt_arg_or. apply wp_bind. by eapply wp_json_value_or. Qed.

Lemma wp_load_arg {T} (arg : R → T) {set : Setter arg} get k P `{!Reads get k P} key a (Q : unit → R → Prop) : key_kind key = k →
  Q tt a → (∀ v, P v → Q tt (assign arg v a)) → wp (load_arg arg get json key) a Q.
Proof using Hjson. intros Hk Hd Hv. unfold load_arg. apply wp_bind. by eapply wp_json_value. Qed.

Lemma wp_load_opt_arg {T} (arg : R → option T) {set : Setter arg} get k P `{!Reads get k P} key a (Q : unit → R → Prop) : key_kind key = k →
  Q tt a → (∀ v, P v → Q tt (assign arg (Some v) a)) → wp (load_opt_arg arg get json key) a Q.
Proof using Hjson. intros Hk Hd Hv. unfold load_opt_arg. apply wp_bind. by eapply wp_json_value. Qed.

Lemma wp_load_arg_or_func {T} (arg : R → T) {set : Setter arg} get k P `{!Reads get k P} key f a (Q : unit → R → Prop) : key_kind key = k →
  wp f a (λ v a', a' = a ∧ Q tt (assign arg v a)) → (∀ v, P v → Q tt (assign arg v a)) → wp (load_arg_or_func arg get json key f) a Q.
Proof using Hjson.
  intros Hk Hf Hv. unfold load_arg_or_func. apply wp_bind. eapply wp_json_value; [done|done| |done]. apply wp_bind.
  eapply wp_mono; [exact Hf|]. intros v a' [-> HQ]. exact HQ.
Qed.

Lemma wp_load_opt_arg_or_func {T} (arg : R → option T) {set : Setter arg} get k P `{!Reads get k P} key f a (Q : unit → R → Prop) : key_kind key = k →
  wp f a (λ v a', a' = a ∧ Q tt (assign arg v a)) → (∀ v, P v → Q tt (assign arg (Some v) a)) → wp (load_opt_arg_or_func arg get json key f) a Q.
Proof using Hjson.
  intros Hk Hf Hv. unfold load_opt_arg_or_func. apply wp_bind. eapply wp_json_value; [done|done| |done]. apply wp_bind.
  eapply wp_mono; [exact Hf|]. intros v a' [-> HQ]. exact HQ.
Qed.

(** The type of the model is the one that chose the loader. *)
Lemma wp_load_model_type (arg : R → text) {set : Setter arg} name dflt a (Q : unit → R → Prop) :
  json_walk json (key_path "model_type") = Some (JString name) → Q tt (assign arg name a) →
  wp (load_arg_or arg string_value json "model_type" dflt) a Q.
Proof. intros Hm HQ. unfold load_arg_or, json_value_or, json_value. rewrite Hm. exact HQ. Qed.
End load_rules.

(** *** Loading the arguments of every model *)

Definition args_ok (a : Args.ModelArgs) : Prop :=
  (0 < Args.hidden_size a ∧ 0 < Args.intermediate_size a ∧ 0 < Args.n_layers a ∧ 0 < Args.n_heads a ∧ 0 < Args.vocab_size a ∧
   0 ≤ Args.head_dim a)%Z ∧ (∀ n, Args.n_kv_heads a = Some n → (0 < n)%Z).

Lemma wp_div64 {S} a b (s : S) (Q : Z → S → Prop) : (0 ≤ a < 2 ^ 31)%Z → (0 < b)%Z → (∀ v, (0 ≤ v ≤ a)%Z → Q v s) → wp (div64 a b) s Q.
Proof.
  intros Ha Hb HQ. unfold div64. rewrite decide_False by lia. apply HQ.
  rewrite Z.quot_div_nonneg by lia. pose proof (Z.div_pos a b ltac:(lia) Hb). pose proof (Z.div_le_upper_bound a b a Hb ltac:(nia)).
  rewrite i64_small; lia.
Qed.

Ltac value_intro := let H := fresh "Hv" in intros ? H; cbv beta in H.
Ltac load_step Hj Hm :=
  lazymatch goal with
  | |- wp (load_arg_or _ _ _ "model_type" _) _ _ => eapply (wp_load_model_type _ _ _ _ _ _ Hm)
  | |- wp (load_arg_or _ _ _ ?key _) _ _ => let kd := eval vm_compute in (key_kind key) in eapply (wp_load_arg_or _ Hj) with (k := kd); [apply _|vm_compute; reflexivity|try done; lia|value_intro]
  | |- wp (load_opt_arg_or _ _ _ ?key _) _ _ => let kd := eval vm_compute in (key_kind key) in eapply (wp_load_opt_arg_or _ Hj) with (k := kd); [apply _|vm_compute; reflexivity|try done; lia|value_intro]
  | |- wp (load_arg _ _ _ ?key) _ _ => let kd := eval vm_compute in (key_kind key) in eapply (wp_load_arg _ Hj) with (k := kd); [apply _|vm_compute; reflexivity| |value_intro]
  | |- wp (load_opt_arg _ _ _ ?key) _ _ => let kd := eval vm_compute in (key_kind key) in eapply (wp_load_opt_arg _ Hj) with (k := kd); [apply _|vm_compute; reflexivity| |value_intro]
  | |- wp (load_arg_or_func _ _ _ ?key _) _ _ => let kd := eval vm_compute in (key_kind key) in eapply (wp_load_arg_or_func _ Hj) with (k := kd); [apply _|vm_compute; reflexivity| |value_intro]
  | |- wp (load_opt_arg_or_func _ _ _ ?key _) _ _ => let kd := eval vm_compute in (key_kind key) in eapply (wp_load_opt_arg_or_func _ Hj) with (k := kd); [apply _|vm_compute; reflexivity| |value_intro]
  | |- wp (json_value_or _ _ ?key _) _ _ => let kd := eval vm_compute in (key_kind key) in eapply (wp_json_value_or _ Hj) with (k := kd); [apply _|vm_compute; reflexivity|try done; lia|value_intro]
  | |- wp (json_value _ _ ?key) _ _ => let kd := eval vm_compute in (key_kind key) in eapply (wp_json_value _ Hj) with (k := kd); [apply _|vm_compute; reflexivity| |value_intro]
  | |- wp (set_arg _ _) _ _ => apply wp_modify
  | |- wp (div64 _ _) _ _ => apply wp_div64; [lia|lia|value_intro]
  | |- wp (if decide ?P then _ else _) _ _ => destruct (decide P)
  | |- wp (if ?b then _ else _) _ _ => destruct b
  | |- wp default_head_dim _ _ => unfold default_head_dim
  | |- wp four_times_hidden _ _ => unfold four_times_hidden
  | |- wp _ _ _ => wp_step
  end; try (split; [reflexivity|]); cbv beta iota delta [assign];
  cbn [Args.model_type Args.hidden_size Args.n_heads Args.vocab_size].
Definition loaded name (a : Args.ModelArgs) : Prop :=
  args_ok a ∧ (Args.model_type a = name ∨ Args.model_type a ∈ [text_of "chatglm4"; text_of "llama3"; text_of "Yi"]).
Ltac args_done := unfold loaded, args_ok; cbn; split; [|by set_solver];
  split_and!; first [lia | intros ? [= <-]; lia | rewrite i64_small; nia | idtac].
Definition args_loaders : list (string * ModelArgsLoader) := [
  ("aquila", aquila_args); ("baichuan", baichuan_args); ("bloom", bloom_args); ("chatglm", chatglm_args); ("gemma", gemma_args);
  ("gemma2", gemma2_args); ("gpt2", gpt2_args); ("gptj", gptj_args); ("gpt_neox", gpt_neox_args); ("internlm", internlm_args);
  ("llama", llama_args); ("mistral", mistral_args); ("mpt", mpt_args); ("phi-msft", phi_args); ("qwen", qwen_args); ("qwen2", qwen2_args)].
Lemma args_loaders_ok json name : config_ok json → json_walk json (key_path "model_type") = Some (JString name) →
  Forall (λ p, wp (p.2 json) new_ModelArgs (λ _ a, loaded name a)) args_loaders.
Proof.
  intros Hj Hm. unfold args_loaders, new_ModelArgs. repeat constructor; cbn [snd];
  cbv delta [aquila_args baichuan_args bloom_args chatglm_args gemma_args gemma2_args gpt2_args gptj_args gpt_neox_args internlm_args
    llama_args mistral_args mpt_args phi_args qwen_args qwen2_args]; cbv beta; repeat load_step Hj Hm; args_done.
Qed.

(** The registry has these loaders, and a class for every type that they may set. *)
Lemma registered_loaders : Forall (λ p, model_args_loader (meta_of model_registry (text_of p.1)) = Some p.2) args_loaders.
Proof. repeat constructor. Qed.
Definition has_factory (name : text) : Prop := is_Some (causal_lm_factory (meta_of model_registry name)).
Lemma registered_factories : Forall (λ p, has_factory (text_of p.1)) args_loaders ∧
  Forall has_factory [text_of "chatglm4"; text_of "llama3"; text_of "Yi"].
Proof. split; repeat constructor; by eexists. Qed.

(** The quantization and tokenizer arguments. *)
Ltac quant_step Hj :=
  lazymatch goal with
  | |- wp (load_arg_or _ _ _ ?key _) _ _ => let kd := eval vm_compute in (key_kind key) in eapply (wp_load_arg_or _ Hj) with (k := kd); [apply _|vm_compute; reflexivity|done|value_intro]
  | |- wp (load_arg _ _ _ ?key) _ _ => let kd := eval vm_compute in (key_kind key) in eapply (wp_load_arg _ Hj) with (k := kd); [apply _|vm_compute; reflexivity| |value_intro]
  | |- wp (if ?b then _ else _) _ _ => destruct b
  | |- wp _ _ _ => wp_step
  end.
Lemma quant_loaders_ok json q : config_ok json →
  wp (load_quantization_config json) q (λ _ _, True) ∧ wp (load_awq_config json) q (λ _ _, True) ∧ wp (load_gptq_config json) q (λ _ _, True).
Proof.
  intros Hj. unfold load_quantization_config, load_awq_config, load_gptq_config. split_and!; repeat quant_step Hj; done.
Qed.
Lemma chat_template_ok json t : config_ok json → wp (load_arg Tok.chat_template string_value json "chat_template") t (λ _ _, True).
Proof. intros Hj. by repeat quant_step Hj. Qed.
Definition model_types : list text := (text_of ∘ fst <$> args_loaders) ++ [text_of "chatglm4"; text_of "llama3"; text_of "Yi"].
Definition tokenizer_loaders : list TokenizerArgsLoader :=
  [Yi_tokenizer_args; chatglm_tokenizer_args; chatglm4_tokenizer_args; qwen_tokenizer_args].
Lemma tokenizer_loaders_set : Forall (λ loader : TokenizerArgsLoader, ∀ json t, wp (loader json) t (λ _ _, True)) tokenizer_loaders.
Proof. repeat constructor. Qed.
Lemma registered_tokenizers : Forall (λ n, tokenizer_args_loader (meta_of model_registry n) = None ∨
  Exists (λ loader, tokenizer_args_loader (meta_of model_registry n) = Some loader) tokenizer_loaders) model_types.
Proof.
  repeat (apply Forall_cons_2; [first [left; reflexivity | right; left; reflexivity | right; right; left; reflexivity
    | right; right; right; left; reflexivity | right; right; right; right; left; reflexivity]|]). apply Forall_nil_2.
Qed.
Lemma tokenizer_loaders_ok name loader json t : name ∈ model_types → tokenizer_args_loader (meta_of model_registry name) = Some loader →
  wp (loader json) t (λ _ _, True).
Proof.
  intros Hn Hl. pose proof registered_tokenizers as Hr. rewrite Forall_forall in Hr. destruct (Hr _ Hn) as [E|E]; [congruence|].
  apply Exists_exists in E as (l&Hin&E). assert (l = loader) as -> by congruence.
  pose proof tokenizer_loaders_set as Hs. rewrite Forall_forall in Hs. by apply Hs.
Qed.
Lemma no_override {R E T} (FLAGS : string → text) (set : E → R → R) (wrap : T → E) conv name a Q : FLAGS name = [] → Q tt a →
  wp (override_with FLAGS set wrap conv name) a Q.
Proof. intros Hf HQ. unfold override_with. by rewrite decide_True. Qed.

Lemma no_overrides stof (a : Args.ModelArgs) (q : Quant.QuantArgs) (t : Tok.TokenizerArgs) :
  wp (override_model_args (λ _, []) stof) a (λ _ a', a' = a) ∧ wp (override_quant_args (λ _, [])) q (λ _ q', q' = q) ∧
  wp (override_tokenizer_args (λ _, [])) t (λ _ t', t' = t).
Proof. by vm_compute. Qed.


(** The smallest configuration: a document that only names the model. *)
Lemma split_at_dot_nonempty s : ∀ cur, split_at_dot cur s ≠ [].
Proof. induction s as [|c s IH]; intros cur; cbn; [done|]. case_decide; [done|apply IH]. Qed.
Lemma split_at_dot_single s : ∀ cur w ws, split_at_dot cur s = w :: ws → ws = [] → w = cur ++ s.
Proof.
  induction s as [|c s IH]; intros cur w ws; cbn; [intros [= -> _] _; by rewrite app_nil_r|].
  case_decide.
  - intros [= -> E] ->. by destruct (split_at_dot_nonempty _ _ E).
  - intros E Hw. rewrite (IH _ _ _ E Hw). by rewrite <-app_assoc.
Qed.
Lemma minimal_config_ok name : config_ok (JObject [(text_of "model_type", JString name)]).
Proof.
  intros key d. unfold key_path. destruct (split_at_dot [] (text_of key)) as [|k ks] eqn:E; [by destruct (split_at_dot_nonempty _ _ E)|].
  cbn [json_walk]. unfold json_field at 1. cbn [list_find]. destruct (decide _) as [Hk|]; [|done]. cbn in Hk |- *.
  destruct ks as [|k' ks]; [|done]. pose proof (split_at_dot_single _ _ _ _ E eq_refl) as Hkey. cbn [app] in Hkey.
  assert (key = "model_type") as ->; [|intros [= <-] _; done].
  apply (f_equal String.string_of_list_ascii) in Hk. rewrite Hkey in Hk. unfold text_of in Hk.
  by rewrite !String.string_of_list_ascii_of_string in Hk.
Qed.


(** *** Deviations *)

(** Qwen's loader fills [layer_norm_eps], while the RMSNorm of its layers takes
    [rms_norm_eps], which stays zero. *)
Lemma qwen_rms_norm_eps json name : config_ok json → json_walk json (key_path "model_type") = Some (JString name) →
  wp (qwen_args json) new_ModelArgs (λ _ a, Args.rms_norm_eps a = Args.rms_norm_eps new_ModelArgs).
Proof. intros Hj Hm. unfold new_ModelArgs. cbv delta [qwen_args]. cbv beta. repeat load_step Hj Hm; reflexivity. Qed.

(** A number out of range in a flag is not caught. *)
Lemma flag_out_of_range : to_int64 (text_of "99999999999999999999") = Fail (CheckFailed "std::out_of_range").
Proof. reflexivity. Qed.

(** The delimiter of a list is the string [",;"], not either character. *)
Lemma list_flag_delimiter : to_texts (text_of "a,b") = Ok (Some [text_of "a,b"]) ∧ to_texts (text_of "a,;b") = Ok (Some [text_of "a"; text_of "b"]).
Proof. split; vm_compute; reflexivity. Qed.
