(* ===== verification/Models.v ===== *)
(** * Models

    The networks of [src/models/]: [llama.h], [mistral.h], [aquila.h] and [internlm.h],
    as the code of one rank.  A module is a record of its submodules with the four
    operations of the classes: construction, [forward], [load_state_dict] and
    [verify_loaded_weights].  The four models differ in their attention modules only,
    which is what the class [AttentionModule] abstracts from. *)

From Stdlib Require Import Ascii.
From stdpp Require Import base tactics list gmap strings pretty.
From S2P Require Import Prelude Types Tensor StateDict Kernels Batch Linear Rotary ChatTemplate Activation Attention Norm Config.

(** ** What the modules use *)

Record ParallelArgs := mkParallelArgs { rank : nat; world_size : nat }.

Section tensors.
Context {A : Type}.

(** A size that is given as [int64_t]. *)
Definition nat_size {S} (z : Z) : M S nat := if decide (0 ≤ z)%Z then mret (Z.to_nat z) else fail (CheckFailed "Trying to create tensor with negative dimension").
Definition div_size {S} (a b : nat) : M S nat := if decide (b = 0) then fail OutOfBounds else mret (a / b).

(** The elements of a vector of tensors. *)
Definition tensor_at {S} (l : list (Tensor A)) (i : nat) : M S (Tensor A) := from_option_or OutOfBounds (l !! i).

(** An operation on two rows and on two matrices, broadcast to a common shape. *)
Definition zip_rows {S} (f : A → A → A) (p : list A * list A) : M S (list A) := '(u, v) ← broadcast p.1 p.2; mret (zip_with f u v).
Definition zip_tensors {S} (f : A → A → A) (x y : Tensor A) : M S (Tensor A) :=
  match x, y with
  | Mat c xs, Mat d ys =>
      '(xs, ys) ← broadcast xs ys;
      rows ← map_each (zip_rows f) (zip xs ys);
      mret (Mat (if decide (c = 1) then d else c) rows)
  | _, _ => fail (CheckFailed "The size of tensor a must match the size of tensor b")
  end.

(** [index_select(0, idx)]. *)
Definition index_select {S} (t : Tensor A) (idx : list nat) : M S (Tensor A) := embedding idx t.

(** Code of a rank that changes a state of its own. *)
Definition local_with {S B} (m : M S B) (s : S) : Spmd A (B * S) :=
  match m s with Ok r => Ret r | Fail e => Abort e end.
End tensors.

Section models.
Context {A F : Type} `{Scalar A} `{Scalar F} `{AttnOps A F} `{NormOps A F} `{ActArith A} {tl : TemplateLib}.
(** What a new tensor holds, the conversion of the epsilons, the device and the flag. *)
Context (memory : nat → A) (of_float : float → F) (is_cuda disable_custom_kernels : bool).
(** [AttentionHandler::create_handler_with_rope]. *)
Context (create_rope : Args.ModelArgs → bool → result (RefHandler F A)).

Abbreviation Cache := (KVCache (A := A)).

(** A call of an activation: a kernel computes the elements as the function does. *)
Definition call_act {S} (act : ActChoice A) (x : Tensor A) : M S (Tensor A) :=
  match act with
  | Torch f | Custom f => elementwise f x
  | Nullptr => fail (CheckFailed "nullptr")
  end.

(** [RMSNormImpl::forward]; a kernel computes the rows as the function does. *)
Definition rms_forward {S} (l : NormImpl A F) (x : Tensor A) : M S (Tensor A) :=
  match x with
  | Mat c rows =>
      _ ← check (bool_decide (length (norm_weight_ l) = c)) "The size of tensor a must match the size of tensor b";
      mret (Mat c (rms_norm_row (norm_weight_ l) (eps_ l) <$> rows))
  | Vec _ => fail (CheckFailed "The size of tensor a must match the size of tensor b")
  end.
Definition RMSNorm_new {S} (args : Args.ModelArgs) : M S (NormImpl A F) :=
  dim ← nat_size (Args.hidden_size args);
  mret (NormImpl_new memory (memory 0) dim (of_float (Args.rms_norm_eps args)) false).

(** ** The feed-forward block *)

Record LlamaMLP := mkLlamaMLP {
  gate_up_proj_ : FusedLinear A;
  down_proj_ : ParallelLinear A;
  act_func_ : ActChoice A;
}.

Definition LlamaMLP_new {S} (args : Args.ModelArgs) (p : ParallelArgs) : M S LlamaMLP :=
  act_func ← get_act_func (text_of "silu") is_cuda disable_custom_kernels;
  _ ← check (match act_func with Nullptr => false | _ => true end) "act_func_ != nullptr";
  hidden_size ← nat_size (Args.hidden_size args);
  intermediate_size ← nat_size (Args.intermediate_size args);
  gate_up_proj ← FusedLinear_new memory hidden_size [intermediate_size; intermediate_size] false false true (rank p) (world_size p);
  down_proj ← RowParallelLinear_new memory intermediate_size hidden_size false true (rank p) (world_size p);
  mret (mkLlamaMLP gate_up_proj down_proj act_func).

Definition LlamaMLP_forward (m : LlamaMLP) (x : Tensor A) : Spmd A (Tensor A) :=
  gate_up ← fused_forward (gate_up_proj_ m) x;
  y ← local (gate ← tensor_at gate_up 0; up ← tensor_at gate_up 1; a ← call_act (act_func_ m) gate; zip_tensors s_mul a up);
  row_forward (down_proj_ m) y.

Definition LlamaMLP_load (d : StateDict A) : M LlamaMLP unit :=
  _ ← zoom gate_up_proj_ (λ g m, mkLlamaMLP g (down_proj_ m) (act_func_ m)) (fused_load d [text_of "gate_proj."; text_of "up_proj."]);
  zoom down_proj_ (λ p m, mkLlamaMLP (gate_up_proj_ m) p (act_func_ m)) (row_load (select d (text_of "down_proj."))).

Definition LlamaMLP_verify {S} (m : LlamaMLP) : M S unit :=
  _ ← fused_verify (gate_up_proj_ m); verify_loaded_weights (down_proj_ m).

(** ** Attention *)

(** The operations of an attention module. *)
Class AttentionModule (T : Type) := {
  attn_new : Args.ModelArgs → ParallelArgs → RefHandler F A → M unit T;
  attn_forward : T → Tensor A → list nat → ModelInput → Cache → Spmd A (Tensor A * Cache);
  attn_load : StateDict A → M T unit;
  attn_verify : T → M unit unit;
}.

(** The new tensor that [AttentionImpl::forward] fills. *)
Definition empty_heads (t : Tensor A) (n_heads head_dim : nat) : list (list (list A)) :=
  match t with
  | Mat _ rows => (λ i, (λ h, (λ d, memory ((i * n_heads + h) * head_dim + d)) <$> seq 0 head_dim) <$> seq 0 n_heads) <$> seq 0 (length rows)
  | Vec _ => []
  end.
Definition call_attention (a : AttentionImpl F A) (qkv : list (Tensor A)) (positions : option (list nat)) (input_params : ModelInput) : M Cache (Tensor A) :=
  q ← tensor_at qkv 0; k ← tensor_at qkv 1; v ← tensor_at qkv 2;
  attention_forward a (empty_heads q (n_heads_ a) (att_head_dim_ a)) q k v positions input_params.

(** [LlamaAttentionImpl], and [MistralAttentionImpl] with the same code. *)
Record LlamaAttention := mkLlamaAttention {
  qkv_proj_ : QKVLinear A;
  o_proj_ : ParallelLinear A;
  atten_ : AttentionImpl F A;
}.

Definition LlamaAttention_new (args : Args.ModelArgs) (p : ParallelArgs) (handler : RefHandler F A) : M unit LlamaAttention :=
  hidden_size ← nat_size (Args.hidden_size args);
  n_heads ← nat_size (Args.n_heads args);
  n_kv_heads ← nat_size (default (Args.n_heads args) (Args.n_kv_heads args));
  head_dim ← nat_size (Args.head_dim args);
  n_local_heads ← div_size n_heads (world_size p);
  n_local_kv_heads ← div_size n_kv_heads (world_size p);
  let n_local_kv_heads := Nat.max 1 n_local_kv_heads in
  qkv_proj ← QKVLinear_new memory hidden_size n_heads n_kv_heads head_dim false false true (rank p) (world_size p);
  o_proj ← RowParallelLinear_new memory hidden_size hidden_size false true (rank p) (world_size p);
  atten ← AttentionImpl_new n_local_heads n_local_kv_heads head_dim (Some handler) (-1);
  mret (mkLlamaAttention qkv_proj o_proj atten).

Definition LlamaAttention_forward (a : LlamaAttention) (x : Tensor A) (positions : list nat) (input_params : ModelInput) (kv_cache : Cache) :
    Spmd A (Tensor A * Cache) :=
  qkv ← fused_forward (parallel_linear_ (qkv_proj_ a)) x;
  '(output, kv_cache) ← local_with (call_attention (atten_ a) qkv (Some positions) input_params) kv_cache;
  output ← row_forward (o_proj_ a) output;
  mret (output, kv_cache).

Definition LlamaAttention_load (d : StateDict A) : M LlamaAttention unit :=
  _ ← zoom qkv_proj_ (λ q a, mkLlamaAttention q (o_proj_ a) (atten_ a))
        (qkv_load d [text_of "q_proj."; text_of "k_proj."; text_of "v_proj."] [text_of "k_proj."; text_of "v_proj."]);
  zoom o_proj_ (λ o a, mkLlamaAttention (qkv_proj_ a) o (atten_ a)) (row_load (select d (text_of "o_proj."))).

Definition LlamaAttention_verify (a : LlamaAttention) : M unit unit :=
  _ ← fused_verify (parallel_linear_ (qkv_proj_ a)); verify_loaded_weights (o_proj_ a).

#[global] Instance LlamaAttention_module : AttentionModule LlamaAttention := {|
  attn_new := LlamaAttention_new;
  attn_forward := LlamaAttention_forward;
  attn_load := LlamaAttention_load;
  attn_verify := LlamaAttention_verify;
|}.

(** [AquilaAttentionImpl]: one column-parallel layer, whose output is split. *)
Record AquilaAttention := mkAquilaAttention {
  aq_qkv_proj_ : ParallelLinear A;
  aq_o_proj_ : ParallelLinear A;
  aq_atten_ : AttentionImpl F A;
  qkv_sizes_ : list nat;
}.

Definition AquilaAttention_new (args : Args.ModelArgs) (p : ParallelArgs) (handler : RefHandler F A) : M unit AquilaAttention :=
  hidden_size ← nat_size (Args.hidden_size args);
  n_heads ← nat_size (Args.n_heads args);
  n_kv_heads ← nat_size (default (Args.n_heads args) (Args.n_kv_heads args));
  head_dim ← nat_size (Args.head_dim args);
  n_local_heads ← div_size n_heads (world_size p);
  n_local_kv_heads ← div_size n_kv_heads (world_size p);
  let qkv_sizes := [n_local_heads * head_dim; n_local_kv_heads * head_dim; n_local_kv_heads * head_dim] in
  qkv_proj ← ColumnParallelLinear_new memory hidden_size ((n_heads + 2 * n_kv_heads) * head_dim) false false (rank p) (world_size p);
  o_proj ← RowParallelLinear_new memory hidden_size hidden_size false true (rank p) (world_size p);
  atten ← AttentionImpl_new n_local_heads n_local_kv_heads head_dim (Some handler) (-1);
  mret (mkAquilaAttention qkv_proj o_proj atten qkv_sizes).

Definition AquilaAttention_forward (a : AquilaAttention) (x : Tensor A) (positions : list nat) (input_params : ModelInput) (kv_cache : Cache) :
    Spmd A (Tensor A * Cache) :=
  qkv ← column_forward (aq_qkv_proj_ a) x;
  qkv ← local (split_cols (qkv_sizes_ a) qkv);
  '(output, kv_cache) ← local_with (call_attention (aq_atten_ a) qkv (Some positions) input_params) kv_cache;
  output ← row_forward (aq_o_proj_ a) output;
  mret (output, kv_cache).

Definition AquilaAttention_load (d : StateDict A) : M AquilaAttention unit :=
  _ ← zoom aq_qkv_proj_ (λ q a, mkAquilaAttention q (aq_o_proj_ a) (aq_atten_ a) (qkv_sizes_ a))
        (column_load_fused d [text_of "q_proj."; text_of "k_proj."; text_of "v_proj."]);
  zoom aq_o_proj_ (λ o a, mkAquilaAttention (aq_qkv_proj_ a) o (aq_atten_ a) (qkv_sizes_ a)) (row_load (select d (text_of "o_proj."))).

Definition AquilaAttention_verify (a : AquilaAttention) : M unit unit :=
  _ ← verify_loaded_weights (aq_qkv_proj_ a); verify_loaded_weights (aq_o_proj_ a).

#[global] Instance AquilaAttention_module : AttentionModule AquilaAttention := {|
  attn_new := AquilaAttention_new;
  attn_forward := AquilaAttention_forward;
  attn_load := AquilaAttention_load;
  attn_verify := AquilaAttention_verify;
|}.

(** [chunk(chunks, 1)]: chunks of the same size, of which the last may be smaller. *)
Definition chunk_sizes (chunks c : nat) : list nat :=
  let k := (c + chunks - 1) / chunks in
  if decide (c = 0) then replicate chunks 0 else (λ i, Nat.min k (c - i * k)) <$> seq 0 ((c + k - 1) / k).
Definition chunk_cols {S} (chunks : nat) (t : Tensor A) : M S (list (Tensor A)) :=
  match t with Mat c _ => split_cols (chunk_sizes chunks c) t | Vec _ => fail OutOfBounds end.

(** [InternlmAttentionImpl]: as many key heads as heads, in three chunks. *)
Record InternlmAttention := mkInternlmAttention {
  in_qkv_proj_ : ParallelLinear A;
  in_o_proj_ : ParallelLinear A;
  in_atten_ : AttentionImpl F A;
}.

Definition InternlmAttention_new (args : Args.ModelArgs) (p : ParallelArgs) (handler : RefHandler F A) : M unit InternlmAttention :=
  hidden_size ← nat_size (Args.hidden_size args);
  n_heads ← nat_size (Args.n_heads args);
  head_dim ← nat_size (Args.head_dim args);
  n_local_heads ← div_size n_heads (world_size p);
  qkv_proj ← ColumnParallelLinear_new memory hidden_size (3 * hidden_size) false false (rank p) (world_size p);
  o_proj ← RowParallelLinear_new memory hidden_size hidden_size false true (rank p) (world_size p);
  atten ← AttentionImpl_new n_local_heads n_local_heads head_dim (Some handler) (-1);
  mret (mkInternlmAttention qkv_proj o_proj atten).

Definition InternlmAttention_forward (a : InternlmAttention) (x : Tensor A) (positions : list nat) (input_params : ModelInput) (kv_cache : Cache) :
    Spmd A (Tensor A * Cache) :=
  qkv ← column_forward (in_qkv_proj_ a) x;
  qkv ← local (chunk_cols 3 qkv);
  '(output, kv_cache) ← local_with (call_attention (in_atten_ a) qkv (Some positions) input_params) kv_cache;
  output ← row_forward (in_o_proj_ a) output;
  mret (output, kv_cache).

Definition InternlmAttention_load (d : StateDict A) : M InternlmAttention unit :=
  _ ← zoom in_qkv_proj_ (λ q a, mkInternlmAttention q (in_o_proj_ a) (in_atten_ a))
        (column_load_fused d [text_of "q_proj."; text_of "k_proj."; text_of "v_proj."]);
  zoom in_o_proj_ (λ o a, mkInternlmAttention (in_qkv_proj_ a) o (in_atten_ a)) (row_load (select d (text_of "o_proj."))).

Definition InternlmAttention_verify (a : InternlmAttention) : M unit unit :=
  _ ← verify_loaded_weights (in_qkv_proj_ a); verify_loaded_weights (in_o_proj_ a).

#[global] Instance InternlmAttention_module : AttentionModule InternlmAttention := {|
  attn_new := InternlmAttention_new;
  attn_forward := InternlmAttention_forward;
  attn_load := InternlmAttention_load;
  attn_verify := InternlmAttention_verify;
|}.

(** ** The layers and the models, over an attention module *)
Section decoder.
Context (T : Type) `{AttentionModule T}.

(** [LlamaDecoderLayerImpl]. *)
Record DecoderLayer := mkDecoderLayer {
  self_attn_ : T;
  mlp_ : LlamaMLP;
  input_layernorm_ : NormImpl A F;
  post_attention_layernorm_ : NormImpl A F;
}.

Definition DecoderLayer_new (args : Args.ModelArgs) (p : ParallelArgs) (handler : RefHandler F A) : M unit DecoderLayer :=
  self_attn ← attn_new args p handler;
  mlp ← LlamaMLP_new args p;
  input_layernorm ← RMSNorm_new args;
  post_attention_layernorm ← RMSNorm_new args;
  mret (mkDecoderLayer self_attn mlp input_layernorm post_attention_layernorm).

Definition DecoderLayer_forward (l : DecoderLayer) (x : Tensor A) (positions : list nat) (input_params : ModelInput) (kv_cache : Cache) :
    Spmd A (Tensor A * Cache) :=
  y ← local (rms_forward (input_layernorm_ l) x);
  '(y, kv_cache) ← attn_forward (self_attn_ l) y positions input_params kv_cache;
  h ← local (zip_tensors s_add x y);
  y ← local (rms_forward (post_attention_layernorm_ l) h);
  y ← LlamaMLP_forward (mlp_ l) y;
  h ← local (zip_tensors s_add h y);
  mret (h, kv_cache).

Definition DecoderLayer_load (d : StateDict A) : M DecoderLayer unit :=
  _ ← zoom self_attn_ (λ a l, mkDecoderLayer a (mlp_ l) (input_layernorm_ l) (post_attention_layernorm_ l))
        (attn_load (select d (text_of "self_attn.")));
  _ ← zoom mlp_ (λ m l, mkDecoderLayer (self_attn_ l) m (input_layernorm_ l) (post_attention_layernorm_ l))
        (LlamaMLP_load (select d (text_of "mlp.")));
  _ ← zoom input_layernorm_ (λ n l, mkDecoderLayer (self_attn_ l) (mlp_ l) n (post_attention_layernorm_ l))
        (norm_load (select d (text_of "input_layernorm.")));
  zoom post_attention_layernorm_ (λ n l, mkDecoderLayer (self_attn_ l) (mlp_ l) (input_layernorm_ l) n)
    (norm_load (select d (text_of "post_attention_layernorm."))).

Definition DecoderLayer_verify (l : DecoderLayer) : M unit unit :=
  _ ← attn_verify (self_attn_ l);
  _ ← LlamaMLP_verify (mlp_ l);
  _ ← norm_verify (input_layernorm_ l);
  norm_verify (post_attention_layernorm_ l).

(** [LlamaModelImpl]. *)
Record DecoderModel := mkDecoderModel {
  embed_tokens_ : ParallelEmbedding A;
  layers_ : list DecoderLayer;
  norm_ : NormImpl A F;
}.

Definition DecoderModel_new (args : Args.ModelArgs) (p : ParallelArgs) : M unit DecoderModel :=
  vocab_size ← nat_size (Args.vocab_size args);
  hidden_size ← nat_size (Args.hidden_size args);
  embed_tokens ← ParallelEmbedding_new memory vocab_size hidden_size (rank p) (world_size p);
  handler ← of_result (create_rope args false);
  layers ← map_each (λ _, DecoderLayer_new args p handler) (seq 0 (Z.to_nat (Args.n_layers args)));
  norm ← RMSNorm_new args;
  mret (mkDecoderModel embed_tokens layers norm).

(** The loop over the layers; [kv_caches] has a cache per layer. *)
Fixpoint forward_layers (i : nat) (layers : list DecoderLayer) (h : Tensor A) (positions : list nat) (input_params : ModelInput)
    (kv_caches : list Cache) : Spmd A (Tensor A * list Cache) :=
  match layers with
  | [] => mret (h, kv_caches)
  | layer :: layers =>
      kv_cache ← local (from_option_or OutOfBounds (kv_caches !! i));
      '(h, kv_cache) ← DecoderLayer_forward layer h positions input_params kv_cache;
      forward_layers (S i) layers h positions input_params (<[i := kv_cache]> kv_caches)
  end.
Definition DecoderModel_forward (m : DecoderModel) (tokens positions : list nat) (input_params : ModelInput) (kv_caches : list Cache) :
    Spmd A (Tensor A * list Cache) :=
  h ← parallel_embedding_forward (embed_tokens_ m) tokens;
  '(h, kv_caches) ← forward_layers 0 (layers_ m) h positions input_params kv_caches;
  h ← local (rms_forward (norm_ m) h);
  mret (h, kv_caches).

Definition layer_prefix (i : nat) : text := text_of "layers." ++ text_of (pretty i) ++ text_of ".".
Fixpoint load_layers (d : StateDict A) (i : nat) (layers : list DecoderLayer) : result (list DecoderLayer) :=
  match layers with
  | [] => Ok []
  | layer :: layers =>
      match DecoderLayer_load (select d (layer_prefix i)) layer with
      | Ok (_, layer') => match load_layers d (S i) layers with Ok layers' => Ok (layer' :: layers') | Fail e => Fail e end
      | Fail e => Fail e
      end
  end.
Definition DecoderModel_load (d : StateDict A) : M DecoderModel unit :=
  _ ← zoom embed_tokens_ (λ e m, mkDecoderModel e (layers_ m) (norm_ m)) (parallel_embedding_load 1 (select d (text_of "embed_tokens.")));
  _ ← zoom layers_ (λ ls m, mkDecoderModel (embed_tokens_ m) ls (norm_ m)) (ls ← get; ls ← of_result (load_layers d 0 ls); put ls);
  zoom norm_ (λ n m, mkDecoderModel (embed_tokens_ m) (layers_ m) n) (norm_load (select d (text_of "norm."))).

Definition DecoderModel_verify (m : DecoderModel) : M unit unit :=
  _ ← verify_embedding (embed_tokens_ m);
  _ ← for_each DecoderLayer_verify (layers_ m);
  norm_verify (norm_ m).

(** [LlamaForCausalLMImpl]. *)
Record ForCausalLM := mkForCausalLM { model_ : DecoderModel; lm_head_ : ParallelLinear A }.

Definition ForCausalLM_new (args : Args.ModelArgs) (p : ParallelArgs) : M unit ForCausalLM :=
  model ← DecoderModel_new args p;
  hidden_size ← nat_size (Args.hidden_size args);
  vocab_size ← nat_size (Args.vocab_size args);
  lm_head ← ColumnParallelLinear_new memory hidden_size vocab_size false true (rank p) (world_size p);
  mret (mkForCausalLM model lm_head).

Definition ForCausalLM_forward (m : ForCausalLM) := DecoderModel_forward (model_ m).

Definition logits (m : ForCausalLM) (hidden_states : Tensor A) (seleted_idxes : option (list nat)) : Spmd A (Tensor A) :=
  (* select tokens if provided *)
  h ← (match seleted_idxes with Some idx => local (index_select hidden_states idx) | None => mret hidden_states end);
  column_forward (lm_head_ m) h.

Definition ForCausalLM_load (d : StateDict A) : M ForCausalLM unit :=
  _ ← zoom model_ (λ x m, mkForCausalLM x (lm_head_ m)) (DecoderModel_load (select d (text_of "model.")));
  zoom lm_head_ (λ l m, mkForCausalLM (model_ m) l) (column_load (select d (text_of "lm_head."))).

Definition ForCausalLM_verify (m : ForCausalLM) : M unit unit :=
  _ ← DecoderModel_verify (model_ m); verify_loaded_weights (lm_head_ m).

(** A rank of the engine: it makes its model, offers it every file of the checkpoint and
    verifies it ([LLMEngine::init_model]), runs it, and computes the logits. *)
Definition load_model (args : Args.ModelArgs) (p : ParallelArgs) (files : list (StateDict A)) : M unit ForCausalLM :=
  m ← ForCausalLM_new args p;
  m ← of_result (match for_each ForCausalLM_load files m with Ok (_, m) => Ok m | Fail e => Fail e end);
  _ ← ForCausalLM_verify m;
  mret m.
Definition run_model (args : Args.ModelArgs) (p : ParallelArgs) (files : list (StateDict A)) (tokens positions : list nat)
    (input_params : ModelInput) (selected : option (list nat)) (kv_caches : list Cache) : Spmd A (Tensor A * list Cache) :=
  m ← local (load_model args p files);
  '(h, kv_caches) ← ForCausalLM_forward m tokens positions input_params kv_caches;
  l ← logits m h selected;
  mret (l, kv_caches).
End decoder.
End models.
