(* ===== verification/ModelInv.v ===== *)
(** * Lemmas about the modules of the models

    What the modules without a bias compute on every rank, how attention splits over
    the heads, and what loading the files of a checkpoint leaves in a module. *)

From Stdlib Require Import Ascii PeanoNat.
From stdpp Require Import base tactics list gmap strings pretty.
From S2P Require Import Prelude Types Tensor StateDict Kernels Batch Linear LinearInv FusedProps KernelProps Rotary ChatTemplate Activation.
From S2P Require Import RotaryProps Attention AttentionProps Norm Config Models.

(** ** Layers without a bias *)
Section plain.
Context {A : Type} `{ScalarLaws A}.
Implicit Types w xs ys : list (list A).

(** A loaded layer. *)
Definition plain (n : nat) w (flag : bool) (r ws : nat) : ParallelLinear A := mkLinear (mkWeight (Mat n w) true []) None flag r ws.

(** Every row times every row of the weight. *)
Definition project w xs : list (list A) := linear_row w None <$> xs.

(** A collective, unless there is only one rank. *)
Definition collective (ws : nat) : nat := if decide (1 < ws) then 1 else 0.

Lemma project_width w xs : Forall (λ y, length y = length w) (project w xs).
Proof. apply Forall_fmap, Forall_true. intros x. apply length_fmap. Qed.
Lemma project_length w xs : length (project w xs) = length xs.
Proof. apply length_fmap. Qed.
Lemma project_piece ws r w xs : project (piece ws r w) xs = piece ws r <$> project w xs.
Proof.
  unfold project. rewrite <-list_fmap_compose. apply list_fmap_ext. intros i x _. cbn. symmetry. apply piece_fmap.
Qed.

Lemma column_plain n w xs r ws : column_forward (plain n w false r ws) (Mat n xs) = Ret (Mat (length w) (project w xs)).
Proof.
  unfold column_forward, local, linear. cbn [plain weight_ w_tensor bias_tensor bias_ fmap option_fmap option_map world_size_ flag_].
  unfold mbind, M_bind, check. rewrite bool_decide_true by done. cbn [mret M_ret Spmd_bind spmd_bind]. by case_decide.
Qed.

Lemma column_runs n w xs ws : 0 < ws → length w `mod` ws = 0 →
  Runs ws (collective ws) (λ r, column_forward (plain n (piece ws r w) true r ws) (Mat n xs)) (λ _, Mat (length w) (project w xs)).
Proof.
  intros Hws Hm. unfold collective. assert (∀ r, r < ws → column_forward (plain n (piece ws r w) true r ws) (Mat n xs) =
    if decide (1 < ws) then gather_from_model_parallel_region ws (chunk ws 1 r (Mat (length w) (project w xs)))
    else Ret (chunk ws 1 r (Mat (length w) (project w xs)))) as Hc.
  { intros r Hr. unfold column_forward, local, linear. cbn [plain weight_ w_tensor bias_tensor bias_ fmap option_fmap option_map world_size_ flag_].
    unfold mbind, M_bind, check. rewrite bool_decide_true by done. cbn [mret M_ret Spmd_bind spmd_bind].
    change (linear_row (piece ws r w) None <$> xs) with (project (piece ws r w) xs). rewrite project_piece, piece_length by done. done. }
  case_decide as Hlt.
  - eapply Runs_ext; [exact Hc|]. apply gather_columns_runs; [done|done|apply project_width].
  - apply Runs_ret. intros r Hr. rewrite Hc by done. assert (ws = 1) as -> by lia. assert (r = 0) as -> by lia. by rewrite chunk_one.
Qed.

Lemma row_runs h w ys ws : 0 < ws → h `mod` ws = 0 → Forall (λ y, length y = h) ys → Forall (λ v, length v = h) w →
  Runs ws (collective ws) (λ r, row_forward (plain (h / ws) (piece ws r <$> w) true r ws) (chunk ws 1 r (Mat h ys))) (λ _, Mat (length w) (project w ys)).
Proof.
  intros Hws Hm Hy Hw. unfold collective.
  assert (∀ r, r < ws → row_forward (plain (h / ws) (piece ws r <$> w) true r ws) (chunk ws 1 r (Mat h ys)) =
    let part := Mat (length w) ((λ y, (λ v, dot (piece ws r y) (piece ws r v)) <$> w) <$> ys) in
    if decide (1 < ws) then AllReduce (flatten part) (λ recvbuff, Ret (like part recvbuff)) else Ret part) as Hc.
  { intros r Hr. cbv zeta. set (part := Mat (length w) ((λ y, (λ v, dot (piece ws r y) (piece ws r v)) <$> w) <$> ys)). unfold row_forward. cbn [plain weight_ w_tensor bias_tensor bias_ fmap option_fmap option_map world_size_ flag_].
    assert (local (linear (chunk ws 1 r (Mat h ys)) (Mat (h / ws) (piece ws r <$> w)) None) = @Ret A _ part) as Hl
      by (unfold local; by rewrite row_local by done).
    unfold mbind, Spmd_bind, mret, Spmd_ret. cbn [spmd_bind]. rewrite Hl. cbn [spmd_bind].
    case_decide; [|done]. unfold reduce_from_model_parallel_region. rewrite decide_False by lia. done. }
  case_decide as Hlt.
  - apply (Runs_reduce _ 0 (length ys * length w)) with (l := λ r, products (λ y v, dot (piece ws r y) (piece ws r v)) ys w)
      (k := λ r recvbuff, Ret (like (Mat (length w) ((λ y, (λ v, dot (piece ws r y) (piece ws r v)) <$> w) <$> ys)) recvbuff)).
    + intros r Hr. rewrite Hc by done. cbv zeta. cbn [flatten]. by rewrite concat_products, products_length.
    + apply Runs_ret. intros r Hr. rewrite (row_reduced w h ys) by (done || lia). cbn [like]. by rewrite length_fmap, products_rows.
  - apply Runs_ret. intros r Hr. rewrite Hc by done. cbv zeta. assert (ws = 1) as -> by lia. assert (r = 0) as -> by lia.
    do 2 f_equal. apply list_fmap_ext. intros i y _. apply list_fmap_ext. intros j v _. by rewrite !piece_one.
Qed.

(** ** Fused outputs *)

Lemma split_row_concat {B} (parts : list (list B)) : split_row (length <$> parts) (concat parts) = parts.
Proof. induction parts as [|p parts IH]; [done|]. cbn. by rewrite take_app_length, drop_app_length, IH. Qed.

Lemma concat_lengths {B} (parts : list (list B)) : sum_list (length <$> parts) = length (concat parts).
Proof. induction parts as [|p parts IH]; [done|]. cbn. by rewrite length_app, IH. Qed.

Lemma split_projected {St} (parts : list (list (list A))) xs (s : St) :
  split_cols (length <$> parts) (Mat (length (concat parts)) (project (concat parts) xs)) s = Ok ((λ p, Mat (length p) (project p xs)) <$> parts, s).
Proof.
  unfold split_cols, mbind, M_bind, check. rewrite bool_decide_true by apply concat_lengths. unfold mret, M_ret. do 2 f_equal.
  apply list_eq. intros i. rewrite list_lookup_imap, !list_lookup_fmap. destruct (parts !! i) as [p|] eqn:Hp; [|done]. cbn. do 2 f_equal.
  unfold project. rewrite <-list_fmap_compose. apply list_fmap_ext. intros j x _. cbn.
  assert (dot x <$> concat parts = concat (map (map (dot x)) parts)) as ->.
  { clear. induction parts as [|p parts IH]; [done|]. cbn. rewrite fmap_app, IH. done. }
  assert (length <$> parts = length <$> (map (map (dot x)) parts)) as ->.
  { change (map (map (dot x)) parts) with (map (dot x) <$> parts). rewrite <-list_fmap_compose. apply list_fmap_ext. intros k q _. cbn. by rewrite length_map. }
  rewrite split_row_concat. change (map (map (dot x)) parts) with (map (dot x) <$> parts). by rewrite list_lookup_fmap, Hp.
Qed.

Lemma fused_plain n parts xs r ws : fused_forward (mkFused true (Some (plain n (concat parts) false r ws)) [] (length <$> parts)) (Mat n xs) =
  Ret ((λ p, Mat (length p) (project p xs)) <$> parts).
Proof.
  unfold fused_forward. cbn [fused_linear_ split_sizes_]. rewrite column_plain. unfold mbind, Spmd_bind. cbn [spmd_bind].
  unfold local. by rewrite split_projected.
Qed.

(** ** Sums and products of matrices *)

Lemma zip_tensors_ok {St} f c xs ys (s : St) : length xs = length ys → Forall (λ x, length x = c) xs → Forall (λ y, length y = c) ys →
  zip_tensors f (Mat c xs) (Mat c ys) s = Ok (Mat c (zip_with (zip_with f) xs ys), s).
Proof.
  intros Hl Hx Hy. unfold zip_tensors, mbind, M_bind. rewrite broadcast_same by done.
  assert (map_each (zip_rows f) (zip xs ys) s = Ok (zip_with (zip_with f) xs ys, s)) as ->.
  { clear -Hl Hx Hy. revert ys Hl Hy. induction Hx as [|x xs Hx _ IH]; intros [|y ys] Hl Hy; try done. apply Forall_cons in Hy as [Hy1 Hy2].
    assert (zip_rows f (x, y) s = Ok (zip_with f x y, s)) as Hz
      by (unfold zip_rows, mbind, M_bind; cbn [fst snd]; by rewrite broadcast_same by congruence).
    cbn [zip zip_with map_each]. unfold mbind, M_bind. rewrite Hz.
    rewrite IH by (done || cbn in Hl; lia). done. }
  cbn. by case_decide.
Qed.

Lemma zip_width (f : A → A → A) c xs ys : Forall (λ x, length x = c) xs → Forall (λ y, length y = c) ys →
  Forall (λ z, length z = c) (zip_with (zip_with f) xs ys).
Proof.
  intros Hx. revert ys. induction Hx as [|x xs Hx _ IH]; intros [|y ys] Hy; cbn; try done. apply Forall_cons in Hy as [Hy1 Hy2].
  constructor; [rewrite length_zip_with; lia|by apply IH].
Qed.
End plain.

(** ** Attention over a share of the heads *)

Lemma unflatten_lookup {B} c n : ∀ (l : list B) i, unflatten c n l !! i = if decide (i < n) then Some (take c (drop (i * c) l)) else None.
Proof.
  induction n as [|n IH]; intros l i; cbn [unflatten]; [by case_decide; [lia|]|]. destruct i as [|i]; cbn [lookup list_lookup].
  - by rewrite decide_True by lia.
  - change (unflatten c n (drop c l) !! i = if decide (S i < S n) then Some (take c (drop (S i * c) l)) else None). rewrite IH, drop_drop.
    replace (c + i * c) with (S i * c) by lia. by repeat case_decide; try lia.
Qed.

(** The elements from [start] on. *)
Definition window {B} (start n : nat) (l : list B) : list B := take n (drop start l).

Lemma window_fmap {B C} (f : B → C) start n l : window start n (f <$> l) = f <$> window start n l.
Proof. unfold window. by rewrite fmap_take, fmap_drop. Qed.
Lemma window_length {B} start n (l : list B) : start + n ≤ length l → length (window start n l) = n.
Proof. intros Hl. unfold window. rewrite length_take, length_drop. lia. Qed.
Lemma window_lookup {B} start n (l : list B) i : i < n → window start n l !! i = l !! (start + i).
Proof. intros Hi. unfold window. by rewrite lookup_take_lt, lookup_drop. Qed.
Lemma piece_window {B} ws r k (l : list B) : ws ≠ 0 → length l = ws * k → piece ws r l = window (r * k) k l.
Proof. intros Hw Hl. unfold piece, window. by rewrite Hl, (Nat.mul_comm ws), Nat.div_mul. Qed.

(** The heads of a window of a row are a window of its heads. *)
Lemma unflatten_window {B} hd m start n (l : list B) : start + n ≤ m →
  unflatten hd n (window (start * hd) (n * hd) l) = window start n (unflatten hd m l).
Proof.
  intros Hm. apply list_eq. intros i. rewrite unflatten_lookup. unfold window at 2. destruct (decide (i < n)) as [Hi|Hi].
  - rewrite lookup_take_lt, lookup_drop, unflatten_lookup, decide_True by lia. f_equal. unfold window.
    rewrite List.skipn_firstn_comm, take_take, drop_drop. f_equal; [nia|f_equal; lia].
  - by rewrite lookup_take_ge by lia.
Qed.
Lemma concat_window {B} hd m start n (x : list (list B)) : length x = m → start + n ≤ m → Forall (λ v, length v = hd) x →
  concat (window start n x) = window (start * hd) (n * hd) (concat x).
Proof.
  intros Hl Hn Hx. rewrite <-(unflatten_concat hd x Hx) at 1. rewrite <-unflatten_window by lia.
  assert (length (concat x) = m * hd) as Hc by (rewrite <-Hl; by apply width_concat).
  assert (length (window (start * hd) (n * hd) (concat x)) = n * hd) as Hw by (apply window_length; nia).
  revert Hw. generalize (window (start * hd) (n * hd) (concat x)) as l. clear. induction n as [|n IH]; intros l Hl.
  - by destruct l.
  - cbn [unflatten concat]. rewrite IH by (rewrite length_drop; lia). apply take_drop.
Qed.

(** A rank that has [nlh] of the heads from [r * nlh] on, and [nlkv] of the key heads
    from [start] on: its heads use the key heads that they use in the whole. *)
Record kv_share (nh n_kv nlh nlkv r start : nat) : Prop := {
  ks_start : start + nlkv ≤ n_kv;
  ks_heads : S r * nlh ≤ nh;
  ks_some : nlkv ≠ 0;
  ks_even : nlh `mod` nlkv = 0;
  ks_head : ∀ h, h < nlh → start + h / (nlh / nlkv) = (r * nlh + h) / (nh / n_kv);
}.

Section whole.
Context {F A : Type} `{AttnOps A F} (hd nh n_kv : nat) (slopes : option (list F)) (sm_scale cap : F) (win : Z).
Implicit Types (Q K V : list (list (list A))).

Lemma batch_heads ls : ∀ Q K V, Forall (λ q, length q = nh) Q → heads_ok nh hd (batch_attention hd nh n_kv slopes sm_scale cap win ls Q K V).
Proof.
  induction ls as [|n ls IH]; intros Q K V HQ; cbn [batch_attention]; [constructor|]. apply Forall_app. split; [|apply IH; by apply Forall_drop].
  unfold sequence_attention. apply Forall_lookup. intros p row. rewrite list_lookup_imap. destruct (take n Q !! p) as [q|] eqn:Hq; [|done].
  intros [= <-]. rewrite length_imap. split.
  - assert (Forall (λ q : list (list A), length q = nh) (take n Q)) as Ht by by apply Forall_take. by apply (Forall_lookup_1 _ _ _ _ Ht Hq).
  - apply Forall_lookup. intros h v. rewrite list_lookup_imap. destruct (q !! h); [|done]. intros [= <-]. unfold attention_at. by rewrite length_fmap, length_seq.
Qed.
Lemma batch_length ls : ∀ Q K V, sum_list ls = length Q → length (batch_attention hd nh n_kv slopes sm_scale cap win ls Q K V) = length Q.
Proof.
  induction ls as [|n ls IH]; intros Q K V Hs; cbn [batch_attention]; [cbn in Hs; by destruct Q|].
  change (sum_list (n :: ls)) with (n + sum_list ls) in Hs.
  rewrite length_app, IH by (rewrite length_drop; lia). unfold sequence_attention. rewrite length_imap, length_take, length_drop. lia.
Qed.
End whole.

Section share.
Context {F A : Type} `{AttnLaws A F}.
Context (hd nh n_kv nlh nlkv r start : nat) (Hshare : kv_share nh n_kv nlh nlkv r start).
Context (slopes : option (list F)) (sm_scale cap : F) (win : Z).
Implicit Types (Q K V : list (list (list A))).
Abbreviation q_share := (window (r * nlh) nlh).
Abbreviation kv_heads := (window start nlkv).

Lemma share_head h : h < nlh → h / (nlh / nlkv) < nlkv.
Proof using Hshare.
  intros Hh. destruct Hshare as [_ _ H1 H2 _]. pose proof (Nat.div_mod_eq nlh nlkv). apply Nat.Div0.div_lt_upper_bound. nia.
Qed.

Lemma head_of_share h (x : list (list (list A))) : h < nlh →
  head_of (h / (nlh / nlkv)) (kv_heads <$> x) = head_of ((r * nlh + h) / (nh / n_kv)) x.
Proof using Hshare.
  intros Hh. unfold head_of. rewrite <-list_fmap_compose. apply list_fmap_ext. intros i row _. cbn.
  rewrite window_lookup by by apply share_head. by rewrite (ks_head _ _ _ _ _ _ Hshare).
Qed.

Lemma sequence_share Q K V : Forall (λ q, length q = nh) Q →
  sequence_attention hd nlh nlkv (q_share <$> slopes) sm_scale cap win (q_share <$> Q) (kv_heads <$> K) (kv_heads <$> V) =
  q_share <$> sequence_attention hd nh n_kv slopes sm_scale cap win Q K V.
Proof using Type*.
  intros HQ. unfold sequence_attention. rewrite imap_fmap, fmap_imap. apply imap_ext. intros p q Hq. cbn.
  rewrite Forall_lookup in HQ. specialize (HQ _ _ Hq). pose proof (ks_heads _ _ _ _ _ _ Hshare) as Hn.
  apply list_eq. intros h. rewrite list_lookup_imap. destruct (decide (h < nlh)) as [Hh|Hh].
  - rewrite !window_lookup, list_lookup_imap by done. destruct (q !! (r * nlh + h)) as [v|]; [|done]. cbn. f_equal.
    rewrite !head_of_share by done. f_equal. destruct slopes as [l|]; [|done]. cbn. by rewrite window_lookup.
  - rewrite lookup_ge_None_2 by (rewrite window_length; lia). symmetry. apply lookup_ge_None_2. rewrite window_length; [lia|].
    rewrite length_imap. lia.
Qed.

Lemma batch_share ls : ∀ Q K V, Forall (λ q, length q = nh) Q →
  batch_attention hd nlh nlkv (q_share <$> slopes) sm_scale cap win ls (q_share <$> Q) (kv_heads <$> K) (kv_heads <$> V) =
  q_share <$> batch_attention hd nh n_kv slopes sm_scale cap win ls Q K V.
Proof using Type*.
  induction ls as [|n ls IH]; intros Q K V HQ; cbn [batch_attention]; [done|].
  rewrite fmap_app, <-!fmap_take, <-!fmap_drop, IH, sequence_share by (by apply Forall_take || by apply Forall_drop). done.
Qed.

End share.

(** ** The attention of a rank *)

(** A rotary module that treats every head by itself, on the positions of its cache. *)
Definition rotate {A} (rot : nat → list A → list A) (positions : list nat) (rows : list (list (list A))) : list (list (list A)) :=
  zip_with (λ p row, rot p <$> row) positions rows.
Class Headwise {A} (m : RotaryModule (A := A)) (dim : nat) (valid : nat → Prop) (rot : nat → list A → list A) := {
  headwise_apply n n' q k positions : Forall valid positions → h_dim q = dim → h_dim k = dim →
    length (h_rows q) = length positions → length (h_rows k) = length positions → heads_ok n dim (h_rows q) → heads_ok n' dim (h_rows k) →
    m q k positions = Ok (mkHeads dim (rotate rot positions (h_rows q)), mkHeads dim (rotate rot positions (h_rows k)));
  headwise_length p v : valid p → length v = dim → length (rot p v) = dim;
}.

(** The generic rotary embedding does, for heads of at least the rotary dimension and
    the positions of its cache. *)
Definition generic_module {F A} `{Arith A} `{Angles F A} (e : RotaryEmbedding A) : RotaryModule := λ q k positions,
  match generic_forward e q k positions () with Ok (r, _) => Ok r | Fail e => Fail e end.
#[export] Instance generic_headwise {F A} `{Arith A} `{Angles F A} (inv_freq : list F) max_pos il dim (Hd : 2 * length inv_freq ≤ dim) :
  Headwise (generic_module (RotaryEmbeddingGeneric_new (2 * length inv_freq) max_pos inv_freq il)) dim (λ p, p < max_pos)
    (rotary_head il (length inv_freq) inv_freq).
Proof.
  assert (∀ n t (x : list (list (list A))), length x = t → heads_ok n dim x → RotaryProps.heads_ok t dim x) as Hok.
  { intros n t x Hl Hx. split; [done|]. eapply Forall_impl; [exact Hx|]. by intros r [_ Hr]. }
  split.
  - intros n n' q k positions Hp Hq Hk Lq Lk Oq Ok'. destruct (generic_ok il _ max_pos inv_freq positions q k () eq_refl Hp) as (q'&k'&E&Eq&Ek).
    + by rewrite Hq.
    + by rewrite Hk.
    + rewrite Hq. by eapply Hok.
    + rewrite Hk. by eapply Hok.
    + unfold generic_module. rewrite E, Hq, Hk. unfold rotate.
      rewrite (embedded_heads il (length inv_freq) inv_freq dim positions (h_rows q) q'), (embedded_heads il (length inv_freq) inv_freq dim positions (h_rows k) k'); try done; by eapply Hok.
  - intros p v _ Hv. rewrite rotary_head_length; [done|done|lia].
Qed.

Section rank.
Context {F A : Type} `{AttnLaws A F} `{ScalarLaws A}.
Implicit Types (w xs : list (list A)).

Lemma heads_window n m hd start (x : list (list (list A))) : heads_ok m hd x → start + n ≤ m → heads_ok n hd (window start n <$> x).
Proof.
  intros Hx Hn. apply Forall_fmap. eapply Forall_impl; [exact Hx|]. intros row [Hl Hv]. cbn. split; [apply window_length; lia|].
  by apply Forall_take, Forall_drop.
Qed.

Lemma rotate_length rot positions (x : list (list (list A))) : length x = length positions → length (rotate rot positions x) = length x.
Proof. intros Hl. unfold rotate. rewrite length_zip_with. lia. Qed.
Lemma rotate_window rot positions start n (x : list (list (list A))) :
  rotate rot positions (window start n <$> x) = window start n <$> rotate rot positions x.
Proof.
  revert x. induction positions as [|p positions IH]; intros [|row x]; try done.
  unfold rotate in *. cbn [fmap list_fmap zip_with]. rewrite IH. f_equal. symmetry. apply (window_fmap (rot p)).
Qed.
Lemma rotate_heads m dim valid rot `{!Headwise m dim valid rot} positions n (x : list (list (list A))) : Forall valid positions →
  heads_ok n dim x → heads_ok n dim (rotate rot positions x).
Proof.
  intros Hp. revert x. induction Hp as [|p positions Hp _ IH]; intros [|row x]; cbn; intros Hx; try constructor.
  - apply Forall_cons in Hx as [[Hl Hv] _]. rewrite length_fmap. split; [done|]. apply Forall_fmap. eapply Forall_impl; [exact Hv|].
    intros v Hd. by apply (headwise_length p v).
  - apply IH. by apply Forall_cons in Hx as [_ Hx].
Qed.

(** What a handler does with the positions of a batch, if there are any: the same to
    every head. *)
Class Embeds (h : RefHandler F A) (positions : option (list nat)) (dim n_tokens : nat) (e : list (list (list A)) → list (list (list A))) := {
  embeds_apply {St} n n' q k (s : St) : heads_ok n dim q → heads_ok n' dim k → length q = n_tokens → length k = n_tokens →
    apply_pos_emb h (mkHeads dim q) (mkHeads dim k) positions s = Ok ((mkHeads dim (e q), mkHeads dim (e k)), s);
  embeds_length q : length q = n_tokens → length (e q) = n_tokens;
  embeds_heads n q : heads_ok n dim q → heads_ok n dim (e q);
  embeds_window start n q : e (window start n <$> q) = window start n <$> e q;
}.
#[export] Instance rotary_embeds handler m dim valid rot positions `{!Headwise m dim valid rot} (Hm : pos_emb_ handler = Some m) (Hp : Forall valid positions) :
  Embeds handler (Some positions) dim (length positions) (rotate rot positions).
Proof.
  split.
  - intros St n n' q k s Hq Hk Lq Lk. unfold apply_pos_emb. rewrite Hm. by rewrite (headwise_apply n n').
  - intros q Hq. by rewrite rotate_length.
  - intros n q. by apply (rotate_heads m dim valid).
  - intros start n q. apply rotate_window.
Qed.
#[export] Instance no_embedding handler positions dim n : positions = None ∨ pos_emb_ handler = None → Embeds handler positions dim n id.
Proof. intros Hn. split; try done. intros St n1 n2 q k s _ _ _ _. unfold apply_pos_emb. destruct Hn as [->| ->]; [done|]. by destruct positions. Qed.

(** Attention over whole rows, and with whole projections. *)
Definition attention_of (e : list (list (list A)) → list (list (list A))) (slopes : option (list F)) (sm_scale cap : F) (hd nh n_kv : nat) (ls : list nat)
    (Q K V : list (list A)) : list (list A) :=
  @concat A <$> batch_attention hd nh n_kv slopes sm_scale cap (-1) ls (e (unflatten hd nh <$> Q)) (e (unflatten hd n_kv <$> K)) (unflatten hd n_kv <$> V).
Definition attention_rows (rot : nat → list A → list A) (sm_scale cap : F) (hd nh n_kv : nat) (ls positions : list nat) wq wk wv xs : list (list A) :=
  attention_of (rotate rot positions) None sm_scale cap hd nh n_kv ls (project wq xs) (project wk xs) (project wv xs).

(** A batch of whole prompts with the slots in a cache. *)
Record prompts (input : ModelInput) (positions : list nat) (n_slots : nat) (slots ls : list nat) : Prop := {
  pr_whole : whole_prompts input n_slots slots ls;
  pr_positions : length positions = length slots;
}.
Definition cache_fits (n_slots width : nat) (c : KVCache (A := A)) : Prop := cache_ok n_slots c ∧ kv_empty c = false ∧ kv_width c = width.

Lemma unflatten_ok n hd (R : list (list A)) : Forall (λ x, length x = n * hd) R → heads_ok n hd (unflatten hd n <$> R).
Proof.
  intros HR. destruct (view_heads_ok n hd (Mat (n * hd) R) () () (mkHeads hd (unflatten hd n <$> R))) as [Hok _]; [done| |done].
  unfold view_heads, mbind, M_bind, check. by rewrite bool_decide_true.
Qed.
Lemma window_rows m start n hd (R : list (list A)) : start + n ≤ m → Forall (λ x, length x = m * hd) R →
  (unflatten hd n <$> (window (start * hd) (n * hd) <$> R)) = window start n <$> (unflatten hd m <$> R).
Proof.
  intros Hm HR. rewrite <-!list_fmap_compose. apply list_fmap_ext. intros i x _. cbn. by apply unflatten_window.
Qed.
Lemma attention_of_width e slopes sm_scale cap hd nh n_kv ls Q K V : (∀ n q, heads_ok n hd q → heads_ok n hd (e q)) →
  Forall (λ x, length x = nh * hd) Q → Forall (λ y, length y = nh * hd) (attention_of e slopes sm_scale cap hd nh n_kv ls Q K V).
Proof.
  intros He HQ. apply concat_heads_width, batch_heads. eapply Forall_impl; [apply He; by apply unflatten_ok|]. by intros q [Hq _].
Qed.
Lemma attention_of_length e slopes sm_scale cap hd nh n_kv ls Q K V : length (e (unflatten hd nh <$> Q)) = length Q → sum_list ls = length Q →
  length (attention_of e slopes sm_scale cap hd nh n_kv ls Q K V) = length Q.
Proof. intros He Hs. unfold attention_of. rewrite length_fmap, batch_length; congruence. Qed.

(** The attention of a rank over its share of the columns. *)
Lemma share_attention (memory : nat → A) (handler : RefHandler F A) positions hd e slopes nh n_kv nlh nlkv r start input n_slots slots ls Q K V c :
  Embeds handler positions hd (length slots) e → alibi_slopes_ handler = window (r * nlh) nlh <$> slopes → (∀ l, slopes = Some l → length l = nh) →
  kv_share nh n_kv nlh nlkv r start → whole_prompts input n_slots slots ls →
  Forall (λ x, length x = nh * hd) Q → Forall (λ x, length x = n_kv * hd) K → Forall (λ x, length x = n_kv * hd) V →
  length Q = length slots → length K = length slots → length V = length slots → cache_fits n_slots (nlkv * hd) c →
  ∃ c', call_attention memory (mkAttention nlh nlkv hd handler (-1))
      [Mat (nlh * hd) (window (r * nlh * hd) (nlh * hd) <$> Q); Mat (nlkv * hd) (window (start * hd) (nlkv * hd) <$> K);
       Mat (nlkv * hd) (window (start * hd) (nlkv * hd) <$> V)] positions input c =
    Ok (Mat (nlh * hd) (window (r * nlh * hd) (nlh * hd) <$>
      attention_of e slopes (sm_scale_ handler) (logits_soft_cap_ handler) hd nh n_kv ls Q K V), c') ∧ cache_fits n_slots (nlkv * hd) c'.
Proof using Type*.
  intros He Ha Hsl Hs HW WQ WK WV LQ LK LV (Hc&Hemp&Hw). pose proof Hs as [S1 S2 S3 S4 S5]. cbn in S2.
  assert (heads_ok nh hd (unflatten hd nh <$> Q) ∧ heads_ok n_kv hd (unflatten hd n_kv <$> K) ∧ heads_ok n_kv hd (unflatten hd n_kv <$> V)) as (OQ&OK&OV)
    by (split_and!; by apply unflatten_ok).
  assert (∀ {St} n m s (R : list (list A)) (st : St), s + n ≤ m → Forall (λ x, length x = m * hd) R →
    view_heads n hd (Mat (n * hd) (window (s * hd) (n * hd) <$> R)) st = Ok (mkHeads hd (window s n <$> (unflatten hd m <$> R)), st)) as Hv.
  { intros St n m s R st Hn HR. unfold view_heads, mbind, M_bind, check. rewrite bool_decide_true by done. cbn [mret M_ret]. by rewrite (window_rows m). }
  destruct (attention_prefill (mkAttention nlh nlkv hd handler (-1)) (empty_heads memory (Mat (nlh * hd) (window (r * nlh * hd) (nlh * hd) <$> Q)) nlh hd)
    n_slots c slots ls input (Mat (nlh * hd) (window (r * nlh * hd) (nlh * hd) <$> Q))
    (Mat (nlkv * hd) (window (start * hd) (nlkv * hd) <$> K)) (Mat (nlkv * hd) (window (start * hd) (nlkv * hd) <$> V)) positions
    (mkHeads hd (window (r * nlh) nlh <$> (unflatten hd nh <$> Q))) (mkHeads hd (window start nlkv <$> (unflatten hd n_kv <$> K)))
    (mkHeads hd (window (r * nlh) nlh <$> e (unflatten hd nh <$> Q))) (mkHeads hd (window start nlkv <$> e (unflatten hd n_kv <$> K)))
    (mkHeads hd (window start nlkv <$> (unflatten hd n_kv <$> V)))) as (c'&Hf&_&Hc'&He'&Hw');
    cbn [att_n_kv_heads_ n_heads_ handler_ att_head_dim_ sliding_window_ h_rows h_dim]; rewrite ?length_fmap; try done.
  - intros l. rewrite Ha. destruct slopes as [l'|]; [|done]. cbn. intros [= <-]. apply window_length. rewrite (Hsl l') by done. lia.
  - cbn [tensor_ok]. apply Forall_fmap. eapply Forall_impl; [exact WV|]. cbn. intros y Hy. apply window_length. rewrite Hy. nia.
  - apply Hv; [lia|done].
  - by apply Hv.
  - by apply Hv.
  - rewrite (embeds_apply nlh nlkv); rewrite ?length_fmap; try done.
    + by rewrite !embeds_window.
    + apply (heads_window _ nh); [done|lia].
    + by apply (heads_window _ n_kv).
  - apply (heads_window _ nh); [by apply embeds_heads|lia].
  - apply (heads_window _ n_kv); [by apply embeds_heads|lia].
  - apply embeds_length. by rewrite length_fmap.
  - apply embeds_length. by rewrite length_fmap.
  - unfold empty_heads. by rewrite length_fmap, length_seq, length_fmap.
  - exists c'. split; [|by rewrite <-Hw]. unfold call_attention, mbind, M_bind, tensor_at. cbn [lookup list_lookup from_option_or mret M_ret n_heads_ att_head_dim_].
    cbn [att_n_kv_heads_ n_heads_ handler_ att_head_dim_ sliding_window_ h_rows h_dim] in Hf. rewrite Hf, Ha. do 3 f_equal.
    rewrite (batch_share hd nh n_kv nlh nlkv r start Hs).
    + unfold attention_of. rewrite <-!list_fmap_compose. apply list_fmap_ext. intros i row Hi. cbn.
      assert (heads_ok nh hd (batch_attention hd nh n_kv slopes (sm_scale_ handler) (logits_soft_cap_ handler) (-1) ls (e (unflatten hd nh <$> Q))
        (e (unflatten hd n_kv <$> K)) (unflatten hd n_kv <$> V))) as Hok.
      { apply batch_heads. eapply Forall_impl; [by apply embeds_heads|]. by intros q [Hq _]. }
      destruct (Forall_lookup_1 _ _ _ _ Hok Hi) as [Hr Hd]. apply (concat_window hd nh); [done|lia|done].
    + eapply Forall_impl; [by apply embeds_heads|]. by intros q [Hq _].
Qed.

Lemma call_attention_share (memory : nat → A) (handler : RefHandler F A) m hd valid rot `{!Headwise m hd valid rot} nh n_kv nlh nlkv r start input positions n_slots slots ls
    wq wk wv xs c : pos_emb_ handler = Some m → alibi_slopes_ handler = None → kv_share nh n_kv nlh nlkv r start →
  prompts input positions n_slots slots ls → Forall valid positions → length xs = length slots →
  length wq = nh * hd → length wk = n_kv * hd → length wv = n_kv * hd → cache_fits n_slots (nlkv * hd) c →
  ∃ c', call_attention memory (mkAttention nlh nlkv hd handler (-1))
      [Mat (nlh * hd) (project (window (r * nlh * hd) (nlh * hd) wq) xs); Mat (nlkv * hd) (project (window (start * hd) (nlkv * hd) wk) xs);
       Mat (nlkv * hd) (project (window (start * hd) (nlkv * hd) wv) xs)] (Some positions) input c =
    Ok (Mat (nlh * hd) (window (r * nlh * hd) (nlh * hd) <$>
      attention_rows rot (sm_scale_ handler) (logits_soft_cap_ handler) hd nh n_kv ls positions wq wk wv xs), c') ∧ cache_fits n_slots (nlkv * hd) c'.
Proof using Type*.
  intros Hm Ha Hs [HW HP] Hpos Hxs Lq Lk Lv Hc.
  assert (∀ start n w, project (window start n w) xs = window start n <$> project w xs) as Hp.
  { intros s n w. unfold project. rewrite <-list_fmap_compose. apply list_fmap_ext. intros i x _. cbn. symmetry. apply window_fmap. }
  rewrite !Hp. apply (share_attention memory handler (Some positions) hd (rotate rot positions) None nh n_kv nlh nlkv r start input n_slots slots);
    rewrite ?project_length; try done; [|rewrite <-Lq; apply project_width|rewrite <-Lk; apply project_width|rewrite <-Lv; apply project_width].
  rewrite <-HP. by eapply rotary_embeds.
Qed.
End rank.

(** ** Loading the files of a checkpoint *)

Lemma for_each_fmap {St B C} (f : B → C) (g : C → M St unit) l (s : St) : for_each g (f <$> l) s = for_each (λ x, g (f x)) l s.
Proof. revert s. induction l as [|x l IH]; intros s; [done|]. cbn. unfold mbind, M_bind. destruct (g (f x) s) as [[[] s']|e]; [apply IH|done]. Qed.

(** A module of two parts that are loaded one after the other. *)
Lemma for_each_pair {X R B C} (mk : B → C → R) (load : X → M R unit) (lb : X → M B unit) (lc : X → M C unit) files b b' c c' :
  (∀ d b c b' c', lb d b = Ok (tt, b') → lc d c = Ok (tt, c') → load d (mk b c) = Ok (tt, mk b' c')) →
  for_each lb files b = Ok (tt, b') → for_each lc files c = Ok (tt, c') → for_each load files (mk b c) = Ok (tt, mk b' c').
Proof.
  intros Hl. revert b c. induction files as [|d files IH]; intros b c.
  - by intros [= <-] [= <-].
  - cbn. unfold mbind, M_bind. destruct (lb d b) as [[[] b1]|e] eqn:Hb; [|done]. destruct (lc d c) as [[[] c1]|e] eqn:Hc; [|done].
    intros H1 H2. rewrite (Hl d b c b1 c1) by done. by apply IH.
Qed.

Section checkpoint.
Context {A : Type}.
Implicit Types (files : list (StateDict A)) (t : Tensor A).

(** One of the files holds the tensor, the others do not know the name. *)
Definition lacks (name : text) (d : StateDict A) : Prop := transform_func_ d = None ∧ dict_ d !! name = None.
Definition provides files (name : text) t : Prop :=
  ∃ before d after, files = before ++ d :: after ∧ holds d name t ∧ Forall (lacks name) before ∧ Forall (lacks name) after.
Abbreviation selected pre files := ((λ d, select d pre) <$> files).

Lemma provides_select files pre name t : provides files (pre ++ name) t → provides (selected pre files) name t.
Proof.
  assert (∀ fs, Forall (lacks (pre ++ name)) fs → Forall (lacks name) (selected pre fs)) as Hl.
  { intros fs Hf. apply Forall_fmap. eapply Forall_impl; [exact Hf|]. intros d [_ Hd]. split; [done|]. by rewrite select_lookup. }
  intros (before&d&after&->&(_&Hd&Hok)&Hb&Ha). exists (selected pre before), (select d pre), (selected pre after). split_and!.
  - by rewrite fmap_app.
  - split_and!; [done|by rewrite select_lookup|done].
  - by apply Hl.
  - by apply Hl.
Qed.

Lemma load_provided {L} (ld : StateDict A → M L unit) files name t l l' : provides files name t →
  (∀ d, lacks name d → ld d l = Ok (tt, l) ∧ ld d l' = Ok (tt, l')) → (∀ d, holds d name t → ld d l = Ok (tt, l')) → for_each ld files l = Ok (tt, l').
Proof.
  intros (before&d&after&->&Hd&Hb&Ha) Hn Hld.
  assert (∀ fs, Forall (lacks name) fs → for_each ld fs l' = Ok (tt, l')) as Hskip.
  { intros fs Hf. induction Hf as [|d0 fs Hd0 _ IH]; [done|]. cbn. unfold mbind, M_bind. by rewrite (proj2 (Hn d0 Hd0)). }
  induction Hb as [|d0 before Hd0 _ IH]; cbn; unfold mbind, M_bind.
  - rewrite Hld by done. by apply Hskip.
  - rewrite (proj1 (Hn d0 Hd0)). exact IH.
Qed.

(** What a file of the checkpoint offers of a tensor. *)
Lemma provides_file files name t d : provides files name t → d ∈ files → transform_func_ d = None ∧ ∀ u, dict_ d !! name = Some u → u = t.
Proof.
  intros (before&d0&after&->&(Hf&Hd&_)&Hb&Ha) Hin. rewrite Forall_forall in Hb. rewrite Forall_forall in Ha.
  apply elem_of_app in Hin as [Hin|[->|Hin]%elem_of_cons].
  - destruct (Hb _ Hin) as [? Hn]. split; [done|]. intros u Hu. congruence.
  - split; [done|]. intros u Hu. congruence.
  - destruct (Ha _ Hin) as [? Hn]. split; [done|]. intros u Hu. congruence.
Qed.
Lemma provides_some files name t : provides files name t → Exists (λ d, is_Some (dict_ d !! name)) files.
Proof.
  intros (before&d&after&->&(_&Hd&_)&_). apply Exists_app. right. left. rewrite Hd. by eexists.
Qed.
Lemma provides_ok files name t : provides files name t → tensor_ok t.
Proof. by intros (?&?&?&_&(_&_&Hok)&_). Qed.
End checkpoint.
Abbreviation selected pre files := ((λ d, select d pre) <$> files).

Section loading.
Context {A : Type} `{ScalarLaws A} (memory : nat → A).
Implicit Types (files : list (StateDict A)) (w : list (list A)).

Lemma get_sharded_lacks {St} name dim r ws (d : StateDict A) (s : St) : dim ≤ 1 → r < ws → lacks name d → get_sharded_tensor d name dim r ws s = Ok (None, s).
Proof.
  intros Hd Hr [_ Hn]. unfold get_sharded_tensor, get_tensor, mbind, M_bind, check. rewrite (bool_decide_true (r < ws)) by done.
  replace (bool_decide (dim = 0) || bool_decide (dim = 1)) with true by (by destruct dim as [|[|?]]; [| |lia]). cbn. by rewrite Hn.
Qed.

(** A layer before it is loaded. *)
Definition fresh (rows cols : nat) (flag : bool) (r ws : nat) : ParallelLinear A := mkLinear (fresh_weight (empty_mat memory rows cols)) None flag r ws.

Lemma column_loads files n w flag r ws : provides files weight_name (Mat n w) → length w `mod` ws = 0 → r < ws →
  for_each column_load files (fresh (length w / ws) n flag r ws) = Ok (tt, plain n (piece ws r w) flag r ws).
Proof.
  intros Hp Hm Hr. eapply load_provided; [exact Hp| |].
  - intros d Hd. unfold column_load, column_load_with, on_weight, on_bias, zoom, load_sharded_weight_with, fresh, plain, mbind, M_bind, get.
    cbn [rank_ world_size_ weight_ bias_]. by rewrite !get_sharded_lacks by (done || lia).
  - intros d Hd. unfold column_load, column_load_with, on_weight, zoom, fresh, mbind at 1 2, M_bind at 1 2, get at 1. cbn [rank_ world_size_ weight_].
    rewrite (load_sharded_with_holds d weight_name (Mat n w) 0 r ws (length w)); try done; [lia|].
    cbn [w_tensor fresh_weight]. rewrite sizes_empty_mat. cbn. by rewrite piece_length.
Qed.

Lemma row_loads files h w flag r ws : provides files weight_name (Mat h w) → h `mod` ws = 0 → r < ws →
  for_each row_load files (fresh (length w) (h / ws) flag r ws) = Ok (tt, plain (h / ws) (piece ws r <$> w) flag r ws).
Proof.
  intros Hp Hm Hr. eapply load_provided; [exact Hp| |].
  - intros d Hd. unfold row_load, on_weight, on_bias, zoom, load_sharded_weight, fresh, plain, mbind, M_bind, get.
    cbn [rank_ world_size_ weight_ bias_]. by rewrite !get_sharded_lacks by (done || lia).
  - intros d Hd. unfold row_load, on_weight, zoom, fresh, mbind at 1 2, M_bind at 1 2, get at 1. cbn [rank_ world_size_ weight_].
    rewrite (load_sharded_holds d weight_name (Mat h w) 1 r ws h); try done.
    cbn [w_tensor fresh_weight]. rewrite sizes_empty_mat. cbn. by rewrite length_fmap.
Qed.

(** A fused weight, from the shards that the files offer. *)
Lemma cat_rows {St} n (parts : list (list (list A))) (s : St) : parts ≠ [] → cat 0 (Mat n <$> parts) s = Ok (Mat n (concat parts), s).
Proof.
  intros Hne. unfold cat. rewrite filter_all by (apply Forall_fmap, Forall_true; done). destruct parts as [|p parts]; [done|]. cbn [fmap list_fmap concat].
  clear Hne. revert p. induction parts as [|q parts IH]; intros p; cbn [fmap list_fmap cat_from concat]; [by rewrite app_nil_r|].
  unfold mbind, M_bind. cbn [cat2]. unfold mbind, M_bind, check. rewrite bool_decide_true by done. cbn [mret M_ret].
  fold (fmap (M := list) (@Mat A n)). rewrite IH. by rewrite app_assoc.
Qed.

Lemma fused_loads files prefixes shards n flag r ws : prefixes ≠ [] → length prefixes = length shards →
  Forall (λ d, ∀ w : Weight A, offers d prefixes weight_name 0 r ws (Mat n <$> shards) (in_file d weight_name <$> prefixes) w) files →
  Forall (λ p, Exists (λ d, is_Some (dict_ d !! (p ++ weight_name))) files) prefixes →
  for_each (λ d, column_load_fused d prefixes) files (fresh (length (concat shards)) n flag r ws) = Ok (tt, plain n (concat shards) flag r ws).
Proof.
  intros Hne Hl Ho Hx.
  assert (∀ w0 w1 : Weight A, for_each (λ d, load_fused_weight d prefixes weight_name 0 r ws) files w0 = Ok (tt, w1) →
    for_each (λ d, column_load_fused d prefixes) files (mkLinear w0 None flag r ws) = Ok (tt, mkLinear w1 None flag r ws)) as Hlift.
  { clear. induction files as [|d files IH]; intros w0 w1; cbn; [by intros [= <-]|]. unfold mbind, M_bind.
    unfold column_load_fused at 1, on_weight, on_bias, zoom, mbind, M_bind, get. cbn [rank_ world_size_ weight_ bias_].
    destruct (load_fused_weight _ _ _ _ _ _ w0) as [[[] w2]|e]; [|done]. cbn. apply IH. }
  unfold fresh, plain. apply Hlift. apply (load_all_files _ _ _ _ _ (Mat n <$> shards)); try done.
  - by rewrite length_fmap.
  - intros w. apply cat_rows. by destruct shards, prefixes.
  - cbn [w_tensor fresh_weight]. by rewrite sizes_empty_mat.
Qed.

(** Tensors that are cut into pieces. *)
Lemma pieces_offered files prefixes parts n r ws (d : StateDict A) (w : Weight A) : r < ws → d ∈ files → length prefixes = length parts →
  Forall2 (λ p part, provides files (p ++ weight_name) (Mat n part) ∧ length part `mod` ws = 0) prefixes parts →
  offers d prefixes weight_name 0 r ws (Mat n <$> (piece ws r <$> parts)) (in_file d weight_name <$> prefixes) w.
Proof.
  intros Hr Hd Hl Hp. destruct (decide (prefixes = [])) as [->|Hne]; [destruct parts; [|done]; split; [done|]; by intros [|i]|].
  assert (Mat n <$> (piece ws r <$> parts) = chunk ws 0 r <$> (Mat n <$> parts)) as -> by (by rewrite <-!list_fmap_compose).
  rewrite Forall2_lookup in Hp. apply agrees_offers; [|done|by rewrite length_fmap|].
  - split.
    + destruct prefixes as [|p prefixes]; [done|]. specialize (Hp 0). destruct parts as [|q parts]; [done|]. cbn in Hp. inversion Hp as [? ? [Hq _]|].
      by eapply provides_file.
    + intros i p t Hi Ht. specialize (Hp i). rewrite Hi in Hp. inversion Hp as [? part [Hq _] E1 E2|]. rewrite list_lookup_fmap, <-E2. cbn. f_equal. symmetry.
      by eapply (provides_file files).
  - apply Forall_fmap, Forall_lookup. intros i part Hi. specialize (Hp i). rewrite Hi in Hp. inversion Hp as [p ? [Hq Hm]|]. cbn.
    split; [by eapply (provides_ok files _ (Mat n part))|]. by eexists.
Qed.
End loading.

(** ** Members that may be undefined *)

Definition load_opt {A} (m : M (Weight A) unit) : M (option (Weight A)) unit :=
  o ← get; match o with None => mret tt | Some w => zoom (λ _, w) (λ w _, Some w) m end.
Lemma opt_loads {A X B} (files : list X) (load : X → M (Weight A) unit) (b : option B) w part :
  (∀ v, b = Some v → for_each load files w = Ok (tt, part v)) →
  for_each (λ d, load_opt (load d)) files (match b with Some _ => Some w | None => None end) = Ok (tt, part <$> b).
Proof.
  intros Hl. destruct b as [v|].
  - specialize (Hl v eq_refl). cbn [fmap option_fmap option_map]. revert w Hl.
    induction files as [|d files IH]; intros w; cbn [for_each]; [by intros [= ->]|]. unfold mbind, M_bind, load_opt at 1, mbind, M_bind, get, zoom.
    destruct (load d w) as [[[] w1]|]; [|done]. apply IH.
  - clear Hl. induction files as [|d files IH]; [done|]. cbn [for_each]. unfold mbind, M_bind, load_opt at 1, mbind, M_bind, get. exact IH.
Qed.
Lemma whole_load {A} (memory : nat → A) (files : list (StateDict A)) name l : provides files name (Vec l) →
  for_each (λ d, load_weight d name) files (fresh_weight (empty_vec memory (length l))) = Ok (tt, mkWeight (Vec l) true []).
Proof.
  intros Hp. eapply load_provided; [exact Hp| |].
  - intros d [Hd1 Hd2]. unfold load_weight, get_tensor, mbind, M_bind. by rewrite Hd2.
  - intros d Hd. rewrite (load_weight_holds d name (Vec l)); [done|done|done|]. cbn. by rewrite length_fmap, length_seq.
Qed.
