(* ===== verification/ModelProps.v ===== *)
(** * Properties of the models

    On any number of ranks a model computes what it computes on one device. *)

From Stdlib Require Import Ascii PeanoNat SpecFloat.
From stdpp Require Import base tactics list gmap strings pretty.
From S2P Require Import Prelude Types Sequence Tensor StateDict Kernels Batch Linear LinearInv FusedProps KernelProps Rotary RotaryProps ChatTemplate Activation.
From S2P Require Import Attention AttentionProps Norm Config Models ModelInv.

(** ** Sizes, weights and what one device computes *)

Record shape := mkShape {
  s_hidden : nat;
  s_inter : nat;
  s_vocab : nat;
  s_heads : nat;
  s_kv : nat;
  s_dim : nat;
}.
Record args_shape (args : Args.ModelArgs) (s : shape) : Prop := {
  as_hidden : Args.hidden_size args = Z.of_nat (s_hidden s);
  as_inter : Args.intermediate_size args = Z.of_nat (s_inter s);
  as_vocab : Args.vocab_size args = Z.of_nat (s_vocab s);
  as_heads : Args.n_heads args = Z.of_nat (s_heads s);
  as_kv : default (Args.n_heads args) (Args.n_kv_heads args) = Z.of_nat (s_kv s);
  as_dim : Args.head_dim args = Z.of_nat (s_dim s);
}.

Section weights.
Context {A : Type}.
Abbreviation matrix := (list (list A)).
Record attn_weights := mkAttnWeights { w_q : matrix; w_k : matrix; w_v : matrix; w_o : matrix }.
Record mlp_weights := mkMlpWeights { w_gate : matrix; w_up : matrix; w_down : matrix }.
Record layer_weights := mkLayerWeights { lw_attn : attn_weights; lw_mlp : mlp_weights; lw_in : list A; lw_post : list A }.
Record model_weights := mkModelWeights { mw_embed : matrix; mw_layers : list layer_weights; mw_norm : list A; mw_head : matrix }.
End weights.
Arguments attn_weights : clear implicits.
Arguments mlp_weights : clear implicits.
Arguments layer_weights : clear implicits.
Arguments model_weights : clear implicits.

Section reference.
Context {A F : Type} `{Scalar A} `{Scalar F} `{AttnOps A F} `{NormOps A F}.
Context (rot : nat → list A → list A) (act : A → A) (eps sm_scale cap : F) (s : shape).

Definition add_rows (xs ys : list (list A)) : list (list A) := zip_with (zip_with s_add) xs ys.
Definition rms_rows (weight : list A) (xs : list (list A)) : list (list A) := rms_norm_row weight eps <$> xs.
Definition mlp_rows (W : mlp_weights A) (xs : list (list A)) : list (list A) :=
  project (w_down W) (zip_with (zip_with s_mul) (map act <$> project (w_gate W) xs) (project (w_up W) xs)).
Definition layer_rows (W : layer_weights A) (ls positions : list nat) (xs : list (list A)) : list (list A) :=
  let a := lw_attn W in
  let h := add_rows xs (project (w_o a)
    (attention_rows rot sm_scale cap (s_dim s) (s_heads s) (s_kv s) ls positions (w_q a) (w_k a) (w_v a) (rms_rows (lw_in W) xs))) in
  add_rows h (mlp_rows (lw_mlp W) (rms_rows (lw_post W) h)).

(** The hidden states of the tokens, and the logits of the selected ones. *)
Definition hidden_rows (W : model_weights A) (ls tokens positions : list nat) : list (list A) :=
  rms_rows (mw_norm W) (foldl (λ h w, layer_rows w ls positions h) (rows_at (mw_embed W) tokens) (mw_layers W)).
Definition logit_rows (W : model_weights A) (ls tokens positions : list nat) (selected : option (list nat)) : list (list A) :=
  let h := hidden_rows W ls tokens positions in
  project (mw_head W) (match selected with Some idx => rows_at h idx | None => h end).
End reference.

(** ** The share of the key heads of a rank *)

Definition kv_count (n_kv ws : nat) : nat := Nat.max 1 (n_kv / ws).
Definition kv_start (n_kv ws r : nat) : nat := if decide (ws ≤ n_kv) then r * (n_kv / ws) else r / (ws / n_kv).

(** The heads can be spread over the ranks: the key heads evenly, or each on as many
    ranks. *)
Record spread (nh n_kv ws : nat) : Prop := {
  sp_ranks : ws ≠ 0;
  sp_some : n_kv ≠ 0;
  sp_heads : nh `mod` ws = 0;
  sp_groups : nh `mod` n_kv = 0;
  sp_kv : (ws ≤ n_kv → n_kv `mod` ws = 0) ∧ (n_kv < ws → ws `mod` n_kv = 0);
}.

Lemma kv_shares nh n_kv ws r : spread nh n_kv ws → r < ws → kv_share nh n_kv (nh / ws) (kv_count n_kv ws) r (kv_start n_kv ws r).
Proof.
  intros [Hw Hk Hh Hg [Heven Hrep]] Hr. unfold kv_count, kv_start.
  assert (nh = ws * (nh / ws)) as Eh by (pose proof (Nat.div_mod_eq nh ws); lia).
  destruct (decide (ws ≤ n_kv)) as [Hle|Hlt].
  - specialize (Heven Hle). assert (n_kv = ws * (n_kv / ws)) as Ek by (pose proof (Nat.div_mod_eq n_kv ws); lia).
    assert (nh = n_kv * (nh / n_kv)) as Eg by (pose proof (Nat.div_mod_eq nh n_kv); lia).
    revert Eh Ek Eg. generalize (nh / ws) as l, (n_kv / ws) as m, (nh / n_kv) as g. intros l m g Eh Ek Eg.
    assert (m ≠ 0) by (intros ->; lia). assert (l = m * g) as -> by nia. rewrite Nat.max_r by lia.
    assert ((m * g) / m = g) as Em by (rewrite Nat.mul_comm; by apply Nat.div_mul).
    split; rewrite ?Em; [nia|nia|done|rewrite Nat.mul_comm; apply Nat.Div0.mod_mul|].
    intros h Hgh. assert (g ≠ 0) by nia. replace (r * (m * g) + h) with ((r * m) * g + h) by lia. 
    assert (nh / n_kv = g) as -> by (rewrite Eg, Nat.mul_comm; by apply Nat.div_mul). symmetry. by apply Nat.div_add_l.
  - assert (n_kv < ws) as Hlt' by lia. specialize (Hrep Hlt'). rewrite (Nat.div_small n_kv ws) by done.
    assert (ws = n_kv * (ws / n_kv)) as Er by (pose proof (Nat.div_mod_eq ws n_kv); lia).
    assert (0 < ws / n_kv) as Hra by nia. assert (r / (ws / n_kv) < n_kv) by (apply Nat.Div0.div_lt_upper_bound; lia).
    change (Nat.max 1 0) with 1. split; rewrite ?Nat.div_1_r; [lia|nia|lia|apply Nat.mod_1_r|].
    intros h Hh'. rewrite (Nat.div_small h) by done. rewrite Nat.add_0_r. symmetry. apply (rank_head nh n_kv ws r); try done. nia.
Qed.

(** A choice for every rank. *)
Lemma rank_choice {B} (b0 : B) (P : nat → B → Prop) ws : (∀ r, r < ws → ∃ b, P r b) → ∃ f, ∀ r, r < ws → P r (f r).
Proof.
  induction ws as [|ws IH]; intros Hp; [by exists (λ _, b0); intros r Hr; lia|].
  destruct IH as [f Hf]; [intros r Hr; apply Hp; lia|]. destruct (Hp ws ltac:(lia)) as [b Hb].
  exists (λ r, if decide (r = ws) then b else f r). intros r Hr. case_decide; [by subst|apply Hf; lia].
Qed.

(** ** Modules that are built from a checkpoint *)
Section built.
Context {A : Type} `{ScalarLaws A} (memory : nat → A).
Implicit Types files : list (StateDict A).

(** Constructed, offered every file, and verified. *)
Definition Built {L} (new : M unit L) (load : StateDict A → M L unit) (verify : L → M unit unit) files (l : L) : Prop :=
  ∃ l0, new () = Ok (l0, ()) ∧ for_each load files l0 = Ok (tt, l) ∧ verify l () = Ok ((), ()).

Lemma nat_size_ok {St} z n (st : St) : z = Z.of_nat n → nat_size z st = Ok (n, st).
Proof. intros ->. unfold nat_size. rewrite decide_True by lia. by rewrite Nat2Z.id. Qed.
Lemma div_size_ok {St} a b (st : St) : b ≠ 0 → div_size a b st = Ok (a / b, st).
Proof. intros Hb. unfold div_size. by rewrite decide_False. Qed.
Lemma column_new {St} n outs flag r ws (st : St) : ws ≠ 0 → outs `mod` ws = 0 →
  ColumnParallelLinear_new memory n outs false flag r ws st = Ok (fresh memory (outs / ws) n flag r ws, st).
Proof. intros Hw Hm. unfold ColumnParallelLinear_new, mbind, M_bind. by rewrite divisible_ok. Qed.
Lemma row_new {St} n outs flag r ws (st : St) : ws ≠ 0 → n `mod` ws = 0 →
  RowParallelLinear_new memory n outs false flag r ws st = Ok (fresh memory outs (n / ws) flag r ws, st).
Proof. intros Hw Hm. unfold RowParallelLinear_new, mbind, M_bind. by rewrite divisible_ok. Qed.

Lemma sum_div ws outs : ws ≠ 0 → Forall (λ o, o `mod` ws = 0) outs →
  sum_list outs `mod` ws = 0 ∧ sum_list outs / ws = sum_list ((λ o, o / ws) <$> outs).
Proof.
  intros Hw. induction 1 as [|o outs Ho _ [IH1 IH2]]; [split; [apply Nat.Div0.mod_0_l|by apply Nat.Div0.div_0_l]|].
  change (sum_list (o :: outs)) with (o + sum_list outs). assert (o = ws * (o / ws)) as Eo by (pose proof (Nat.div_mod_eq o ws); lia).
  assert (sum_list outs = ws * (sum_list outs / ws)) as Es by (pose proof (Nat.div_mod_eq (sum_list outs) ws); lia).
  assert (o + sum_list outs = ws * (o / ws + sum_list outs / ws)) as -> by lia. split; [rewrite Nat.mul_comm; apply Nat.Div0.mod_mul|].
  rewrite Nat.mul_comm, Nat.div_mul by done. cbn. by rewrite IH2.
Qed.

Lemma fused_new {St} n outs r ws (st : St) : ws ≠ 0 → Forall (λ o, o `mod` ws = 0) outs →
  FusedLinear_new memory n outs false false true r ws st =
  Ok (mkFused true (Some (fresh memory (sum_list ((λ o, o / ws) <$> outs)) n false r ws)) [] ((λ o, o / ws) <$> outs), st).
Proof.
  intros Hw Ho. destruct (sum_div ws outs Hw Ho) as [H1 H2]. unfold FusedLinear_new, mbind, M_bind. rewrite column_new by done. rewrite H2.
  set (f := λ (o : nat) (s0 : St), _). assert (map_each f outs st = Ok ((λ o, o / ws) <$> outs, st)) as ->; [|done].
  unfold f. clear -Hw Ho. induction Ho as [|o outs Ho _ IH]; [done|]. cbn [map_each]. unfold mbind, M_bind. rewrite divisible_ok by done.
  cbn [mret M_ret]. by rewrite IH.
Qed.

Lemma fused_load_lift files prefixes l l' ns : for_each (λ d, column_load_fused d prefixes) files l = Ok (tt, l') →
  for_each (λ d, fused_load d prefixes) files (mkFused true (Some l) [] ns) = Ok (tt, mkFused true (Some l') [] ns).
Proof.
  revert l. induction files as [|d files IH]; intros l; cbn; [by intros [= <-]|]. unfold mbind, M_bind.
  unfold fused_load at 1, mbind, M_bind, get, zoom. cbn [fused_linear_].
  destruct (column_load_fused d prefixes l) as [[[] l1]|e]; [|done]. cbn. apply IH.
Qed.

(** A fused layer over the pieces of whole tensors. *)
Lemma pieces_loads files prefixes parts n r ws : r < ws → prefixes ≠ [] →
  Forall2 (λ p part, provides files (p ++ weight_name) (Mat n part) ∧ length part `mod` ws = 0) prefixes parts →
  for_each (λ d, column_load_fused d prefixes) files (fresh memory (length (concat (piece ws r <$> parts))) n false r ws) =
  Ok (tt, plain n (concat (piece ws r <$> parts)) false r ws).
Proof.
  intros Hr Hne Hp. pose proof (Forall2_length _ _ _ Hp) as Hl. apply fused_loads; [done|by rewrite length_fmap| |].
  - apply Forall_forall. intros d Hd w. by eapply pieces_offered.
  - apply Forall_lookup. intros i p Hi. destruct (Forall2_lookup_l _ _ _ _ _ Hp Hi) as (part&_&Hq&_). by eapply provides_some.
Qed.
End built.

(** ** The feed-forward block *)
Section mlp.
Context {A F : Type} `{ScalarLaws A} `{ActArith A} {tl : TemplateLib} (memory : nat → A) (is_cuda disable : bool).
Context (act : ActChoice A) (f : A → A) (Hact : get_act_func (text_of "silu") is_cuda disable () = Ok (act, ())) (Hf : act = Torch f ∨ act = Custom f).

Record mlp_files (s : shape) (W : mlp_weights A) (files : list (StateDict A)) : Prop := {
  mf_gate : provides files (text_of "gate_proj." ++ weight_name) (Mat (s_hidden s) (w_gate W));
  mf_up : provides files (text_of "up_proj." ++ weight_name) (Mat (s_hidden s) (w_up W));
  mf_down : provides files (text_of "down_proj." ++ weight_name) (Mat (s_inter s) (w_down W));
  mf_gate_rows : length (w_gate W) = s_inter s;
  mf_up_rows : length (w_up W) = s_inter s;
  mf_down_rows : length (w_down W) = s_hidden s;
}.
Definition mlp_parts (W : mlp_weights A) (r ws : nat) : list (list (list A)) := [piece ws r (w_gate W); piece ws r (w_up W)].
Definition mlp_loaded (s : shape) (W : mlp_weights A) (r ws : nat) : LlamaMLP :=
  mkLlamaMLP (mkFused true (Some (plain (s_hidden s) (concat (mlp_parts W r ws)) false r ws)) [] (length <$> mlp_parts W r ws))
    (plain (s_inter s / ws) (piece ws r <$> w_down W) true r ws) act.

Lemma mlp_built args s W files r ws : args_shape args s → r < ws → s_inter s `mod` ws = 0 → mlp_files s W files →
  Built (LlamaMLP_new memory is_cuda disable args (mkParallelArgs r ws)) LlamaMLP_load LlamaMLP_verify files (mlp_loaded s W r ws).
Proof using Hact Hf.
  intros [E1 E2 _ _ _ _] Hr Hm [G1 G2 G3 L1 L2 L3]. assert (ws ≠ 0) as Hw by lia.
  assert (length (piece ws r (w_gate W)) = s_inter s / ws ∧ length (piece ws r (w_up W)) = s_inter s / ws) as [P1 P2].
  { rewrite !piece_length by (done || lia || congruence). by rewrite L1, L2. }
  set (i := s_inter s) in *.
  eexists. split_and!.
  - unfold LlamaMLP_new, mbind, M_bind. rewrite Hact. unfold check. replace (match act with Nullptr => false | _ => true end) with true by (by destruct Hf as [->| ->]).
    cbn [mret M_ret]. rewrite (nat_size_ok _ _ _ E1), (nat_size_ok _ _ _ E2). cbn [rank world_size]. fold i.
    rewrite fused_new by (done || by repeat constructor). rewrite row_new by done. done.
  - apply (for_each_pair (λ g p, mkLlamaMLP g p act) _ (λ d, fused_load d [text_of "gate_proj."; text_of "up_proj."])
      (λ d, row_load (select d (text_of "down_proj.")))).
    + intros d g p g' p' H1' H2'. unfold LlamaMLP_load, zoom, mbind, M_bind. cbn [gate_up_proj_ down_proj_ act_func_]. rewrite H1'. cbn [gate_up_proj_ down_proj_ act_func_]. by rewrite H2'.
    + unfold mlp_parts. cbn [fmap list_fmap]. rewrite P1, P2. apply fused_load_lift.
      pose proof (pieces_loads memory files [text_of "gate_proj."; text_of "up_proj."] [w_gate W; w_up W] (s_hidden s) r ws) as Hl.
      cbn [fmap list_fmap] in Hl. replace (length (concat [piece ws r (w_gate W); piece ws r (w_up W)])) with (sum_list [i / ws; i / ws]) in Hl
        by (cbn; rewrite !length_app, P1, P2; done). apply Hl; [done|done|]. repeat constructor; try done; congruence.
    + rewrite <-(for_each_fmap (λ d, select d (text_of "down_proj.")) row_load). rewrite <-L3. apply row_loads; [by apply provides_select|done|done].
  - done.
Qed.

Lemma mlp_runs s W files ws xs : 0 < ws → s_inter s `mod` ws = 0 → mlp_files s W files →
  Runs ws (collective ws) (λ r, LlamaMLP_forward (mlp_loaded s W r ws) (Mat (s_hidden s) xs)) (λ _, Mat (s_hidden s) (mlp_rows f W xs)).
Proof using H0 Hf.
  clear Hact. intros Hw Hm [G1 G2 G3 L1 L2 L3]. set (g := project (w_gate W) xs). set (u := project (w_up W) xs).
  set (ys := zip_with (zip_with s_mul) (map f <$> g) u).
  assert (Forall (λ y, length y = s_inter s) (map f <$> g) ∧ Forall (λ y, length y = s_inter s) u) as [Wg Wu].
  { split; [|rewrite <-L2; apply project_width]. apply Forall_fmap. rewrite <-L1. eapply Forall_impl; [apply project_width|].
    intros y Hy. cbn. by rewrite length_map. }
  eapply Runs_ext; [|rewrite <-L3; apply (row_runs (s_inter s) (w_down W) ys ws Hw Hm); [by apply zip_width|exact (provides_ok _ _ _ G3)]].
  intros r Hr. unfold LlamaMLP_forward, mlp_loaded. cbn [gate_up_proj_ down_proj_ act_func_]. rewrite fused_plain.
  unfold mbind, Spmd_bind. cbn [spmd_bind]. unfold mlp_parts. cbn [fmap list_fmap].
  assert (length (piece ws r (w_gate W)) = s_inter s / ws ∧ length (piece ws r (w_up W)) = s_inter s / ws) as [P1 P2].
  { rewrite !piece_length by (done || lia || congruence). by rewrite L1, L2. }
  rewrite !project_piece, P1, P2. fold g u. unfold local, tensor_at, mbind, M_bind. cbn [lookup list_lookup from_option_or mret M_ret].
  assert (∀ st : (), call_act act (Mat (s_inter s / ws) (piece ws r <$> g)) st = Ok (Mat (s_inter s / ws) (piece ws r <$> (map f <$> g)), st)) as ->.
  { intros st. assert (map (map f) (piece ws r <$> g) = piece ws r <$> (map f <$> g)) as E.
    { change (map (map f) (piece ws r <$> g)) with (map f <$> (piece ws r <$> g)). rewrite <-!list_fmap_compose. apply list_fmap_ext.
      intros i y _. cbn. symmetry. apply (piece_fmap f). }
    destruct Hf as [->| ->]; unfold call_act, elementwise, pointwise; by rewrite E. }
  rewrite zip_tensors_ok.
  - cbn [spmd_bind]. f_equal. cbn [chunk]. f_equal. unfold ys. apply list_eq. intros i. rewrite list_lookup_fmap, !lookup_zip_with, !list_lookup_fmap.
    destruct (g !! i) as [a|] eqn:Ea; [|done]. destruct (u !! i) as [b|] eqn:Eb; [|done]. cbn. f_equal. symmetry. apply piece_zip_with.
    assert (length (map f a) = s_inter s) as Ha by (apply (Forall_lookup_1 _ _ i _ Wg); by rewrite list_lookup_fmap, Ea).
    pose proof (Forall_lookup_1 _ _ _ _ Wu Eb). cbn in *. congruence.
  - unfold g, u. by rewrite !length_fmap, !project_length.
  - apply Forall_fmap. eapply Forall_impl; [exact Wg|]. intros y Hy. cbn in *. rewrite piece_length by congruence. by rewrite Hy.
  - apply Forall_fmap. eapply Forall_impl; [exact Wu|]. intros y Hy. cbn in *. rewrite piece_length by congruence. by rewrite Hy.
Qed.
End mlp.

(** ** Attention modules *)
Section attention.
Context {A F : Type} `{AttnLaws A F} `{ScalarLaws A} (memory : nat → A).
Implicit Types (files : list (StateDict A)) (W : attn_weights A).

Record attn_files (s : shape) W files : Prop := {
  af_q : provides files (text_of "q_proj." ++ weight_name) (Mat (s_hidden s) (w_q W));
  af_k : provides files (text_of "k_proj." ++ weight_name) (Mat (s_hidden s) (w_k W));
  af_v : provides files (text_of "v_proj." ++ weight_name) (Mat (s_hidden s) (w_v W));
  af_o : provides files (text_of "o_proj." ++ weight_name) (Mat (s_hidden s) (w_o W));
  af_q_rows : length (w_q W) = s_heads s * s_dim s;
  af_k_rows : length (w_k W) = s_kv s * s_dim s;
  af_v_rows : length (w_v W) = s_kv s * s_dim s;
  af_o_rows : length (w_o W) = s_hidden s;
  af_hidden : s_hidden s = s_heads s * s_dim s;
}.

(** A handler with rotary embeddings, a batch of whole prompts, and the caches of the
    ranks. *)
Record serves (handler : RefHandler F A) (rot : nat → list A → list A) (s : shape) (input : ModelInput) (positions : list nat)
    (n_slots : nat) (slots ls : list nat) : Prop := {
  sv_rotary : ∃ m valid, pos_emb_ handler = Some m ∧ Headwise m (s_dim s) valid rot ∧ Forall valid positions;
  sv_alibi : alibi_slopes_ handler = None;
  sv_prompts : prompts input positions n_slots slots ls;
}.
Definition caches_fit (s : shape) (ws n_slots : nat) (kv : nat → KVCache (A := A)) : Prop :=
  ∀ r, r < ws → cache_fits n_slots (kv_count (s_kv s) ws * s_dim s) (kv r).

(** The result of the attention of a layer. *)
Definition attn_rows (handler : RefHandler F A) rot (s : shape) W (ls positions : list nat) xs : list (list A) :=
  project (w_o W) (attention_rows rot (sm_scale_ handler) (logits_soft_cap_ handler) (s_dim s) (s_heads s) (s_kv s) ls positions
    (w_q W) (w_k W) (w_v W) xs).

(** What a kind of attention module promises to the layers: which sizes it supports,
    what it is once it is loaded, that it can be loaded, and what it computes. *)
Class AttentionLaws (T : Type) `{!AttentionModule (F := F) (A := A) T} := {
  attn_supports : shape → nat → Prop;
  attn_loaded : shape → attn_weights A → RefHandler F A → nat → nat → T;
  attn_built args s W files r ws handler : args_shape args s → attn_supports s ws → attn_files s W files → r < ws →
    Built (attn_new args (mkParallelArgs r ws) handler) attn_load attn_verify files (attn_loaded s W handler r ws);
  attn_runs s W files ws handler rot input positions n_slots slots ls kv xs : attn_supports s ws → attn_files s W files → 0 < ws →
    serves handler rot s input positions n_slots slots ls → caches_fit s ws n_slots kv → length xs = length slots →
    ∃ kv', caches_fit s ws n_slots kv' ∧ Runs ws (collective ws) (λ r, attn_forward (attn_loaded s W handler r ws) (Mat (s_hidden s) xs) positions input (kv r))
      (λ r, (Mat (s_hidden s) (attn_rows handler rot s W ls positions xs), kv' r));
}.

(** The shares of a rank. *)
Definition attn_parts (s : shape) W (r ws : nat) : list (list (list A)) :=
  let nlh := s_heads s / ws in
  let nlkv := kv_count (s_kv s) ws in
  let start := kv_start (s_kv s) ws r in
  [window (r * nlh * s_dim s) (nlh * s_dim s) (w_q W);
   window (start * s_dim s) (nlkv * s_dim s) (w_k W); window (start * s_dim s) (nlkv * s_dim s) (w_v W)].
Definition attn_of (s : shape) (handler : RefHandler F A) (ws : nat) : AttentionImpl F A :=
  mkAttention (s_heads s / ws) (kv_count (s_kv s) ws) (s_dim s) handler (-1).

Lemma part_lengths s W files r ws : spread (s_heads s) (s_kv s) ws → attn_files s W files → r < ws →
  length <$> attn_parts s W r ws = [s_heads s / ws * s_dim s; kv_count (s_kv s) ws * s_dim s; kv_count (s_kv s) ws * s_dim s].
Proof using memory.
  clear -memory. intros Hs Hf Hr. destruct (kv_shares _ _ _ r Hs Hr) as [S1 S2 _ _ _]. cbn in S2. unfold attn_parts. cbn [fmap list_fmap].
  rewrite !window_length; rewrite ?(af_q_rows _ _ _ Hf), ?(af_k_rows _ _ _ Hf), ?(af_v_rows _ _ _ Hf); [done|nia|nia|nia].
Qed.

(** After the projections the three kinds of modules are the same. *)
Lemma attention_tail s W files ws handler rot input positions n_slots slots ls kv xs : spread (s_heads s) (s_kv s) ws → attn_files s W files → 0 < ws →
  serves handler rot s input positions n_slots slots ls → caches_fit s ws n_slots kv → length xs = length slots →
  ∃ kv', caches_fit s ws n_slots kv' ∧ Runs ws (collective ws) (λ r,
      '(output, c) ← local_with (call_attention memory (attn_of s handler ws) ((λ p, Mat (length p) (project p xs)) <$> attn_parts s W r ws)
         (Some positions) input) (kv r);
      output ← row_forward (plain (s_hidden s / ws) (piece ws r <$> w_o W) true r ws) output;
      mret (output, c))
    (λ r, (Mat (s_hidden s) (attn_rows handler rot s W ls positions xs), kv' r)).
Proof using H0 H2.
  intros Hs Hf Hw [(m&valid&Hm&Hrot&Hval) Ha Hp] Hkv Hxs. pose proof Hf as [G1 G2 G3 G4 L1 L2 L3 L4 L5]. pose proof Hs as [P1 P2 P3 P4 P5].
  set (rows := attention_rows rot (sm_scale_ handler) (logits_soft_cap_ handler) (s_dim s) (s_heads s) (s_kv s) ls positions (w_q W) (w_k W) (w_v W) xs).
  assert (s_heads s = ws * (s_heads s / ws)) as Eh by (pose proof (Nat.div_mod_eq (s_heads s) ws); lia).
  assert (Forall (λ y, length y = s_hidden s) rows) as Hrows.
  { unfold rows, attention_rows. rewrite L5. apply attention_of_width; [intros n q; by eapply rotate_heads|]. rewrite <-L1. apply project_width. }
  destruct (rank_choice (KVCache_default (A := A)) (λ r c', call_attention memory (attn_of s handler ws)
    ((λ p, Mat (length p) (project p xs)) <$> attn_parts s W r ws) (Some positions) input (kv r) =
    Ok (chunk ws 1 r (Mat (s_hidden s) rows), c') ∧ cache_fits n_slots (kv_count (s_kv s) ws * s_dim s) c') ws) as [kv' Hkv'].
  { intros r Hr. pose proof (kv_shares _ _ _ r Hs Hr) as Hks. pose proof (part_lengths s W files r ws Hs Hf Hr) as Hpl.
    unfold attn_parts in Hpl |- *. cbn [fmap list_fmap] in Hpl |- *. injection Hpl as -> -> ->. unfold attn_of.
    destruct (call_attention_share memory handler m (s_dim s) valid rot (s_heads s) (s_kv s) (s_heads s / ws) (kv_count (s_kv s) ws) r
      (kv_start (s_kv s) ws r) input positions n_slots slots ls (w_q W) (w_k W) (w_v W) xs (kv r)) as (c'&Hc&Hfit); try done; [by apply Hkv|].
    exists c'. split; [|done]. rewrite Hc. do 3 f_equal. cbn [chunk]. fold rows. f_equal.
    - assert (s_hidden s = s_heads s / ws * s_dim s * ws) as -> by (rewrite L5; nia). by rewrite Nat.div_mul.
    - apply list_fmap_ext. intros i y Hi. pose proof (Forall_lookup_1 _ _ _ _ Hrows Hi) as Hy. cbn in Hy.
      rewrite (piece_window ws r (s_heads s / ws * s_dim s)); [f_equal; lia|done|]. rewrite Hy, L5. nia. }
  exists kv'. split; [intros r Hr; by apply Hkv'|]. eapply Runs_ext; [intros r Hr; unfold local_with; rewrite (proj1 (Hkv' r Hr)); reflexivity|]. cbn [mbind Spmd_bind spmd_bind].
  rewrite <-(Nat.add_0_r (collective ws)). unfold attn_rows. fold rows. rewrite <-L4.
  refine (Runs_bind ws _ _ _ _ (λ r o, mret (o, kv' r)) _ (row_runs (length (w_o W)) (w_o W) rows ws Hw _ _ _) _).
  - rewrite L4, L5, Eh. rewrite <-Nat.mul_assoc, Nat.mul_comm. apply Nat.Div0.mod_mul.
  - by rewrite L4.
  - rewrite L4. exact (provides_ok _ _ _ G4).
  - by apply Runs_ret.
Qed.
End attention.

(** ** [llama.h] and [mistral.h] *)
Section llama.
Context {A F : Type} `{AttnLaws A F} `{ScalarLaws A} (memory : nat → A).
Implicit Types (files : list (StateDict A)) (W : attn_weights A).

Definition kv_ratio (n_kv ws : nat) : nat := if decide (ws ≤ n_kv) then 0 else ws / n_kv.

Lemma share_sizes nh n_kv hd ws : spread nh n_kv ws →
  (nh * hd) / ws = nh / ws * hd ∧ (nh * hd) `mod` ws = 0 ∧
  let m := if decide (ws ≤ n_kv) then n_kv else ws in (m * hd) / ws = kv_count n_kv ws * hd ∧ (m * hd) `mod` ws = 0.
Proof.
  intros [Hw Hk Hh Hg [Heven Hrep]]. unfold kv_count.
  assert (∀ n, n `mod` ws = 0 → (n * hd) / ws = n / ws * hd ∧ (n * hd) `mod` ws = 0) as Hd.
  { intros n Hn. assert (n = ws * (n / ws)) as E by (pose proof (Nat.div_mod_eq n ws); lia). revert E. generalize (n / ws) as k. intros k ->.
    replace (ws * k * hd) with (k * hd * ws) by lia. split; [by apply Nat.div_mul|apply Nat.Div0.mod_mul]. }
  destruct (Hd nh Hh) as [D1 D2]. split; [done|]. split; [done|]. cbv zeta. destruct (decide (ws ≤ n_kv)) as [Hle|Hlt].
  - destruct (Hd n_kv (Heven Hle)) as [D3 D4]. split; [|done]. rewrite D3. f_equal. rewrite Nat.max_r; [done|]. apply Nat.div_str_pos. lia.
  - rewrite (Nat.div_small n_kv) by lia. split; [rewrite Nat.mul_comm, Nat.div_mul by done; cbn; lia|rewrite Nat.mul_comm; apply Nat.Div0.mod_mul].
Qed.

Lemma qkv_new {St} hidden nh n_kv hd r ws (st : St) : spread nh n_kv ws →
  let ns := [nh / ws * hd; kv_count n_kv ws * hd; kv_count n_kv ws * hd] in
  QKVLinear_new memory hidden nh n_kv hd false false true r ws st =
  Ok (mkQKV n_kv hd (kv_ratio n_kv ws) (mkFused true (Some (fresh memory (sum_list ns) hidden false r ws)) [] ns), st).
Proof.
  intros Hs ns. pose proof (share_sizes nh n_kv hd ws Hs) as (D1&D2&D3&D4). destruct Hs as [Hw Hk Hh Hg [Heven Hrep]].
  unfold QKVLinear_new, kv_ratio, mbind, M_bind. destruct (decide (ws ≤ n_kv)) as [Hle|Hlt].
  - rewrite divisible_ok by auto. cbn [mret M_ret]. rewrite fused_new by (done || by repeat constructor).
    cbn [fmap list_fmap]. by rewrite D1, D3.
  - rewrite divisible_ok by (done || (apply Hrep; lia)). cbn [mret M_ret]. rewrite fused_new by (done || by repeat constructor).
    cbn [fmap list_fmap]. by rewrite D1, D3.
Qed.

(** The files as the module reads them. *)
Definition qkv_prefixes : list text := [text_of "q_proj."; text_of "k_proj."; text_of "v_proj."].
Definition kv_prefixes : list text := [text_of "k_proj."; text_of "v_proj."].
Definition transformed (n_kv hd ratio : nat) (d : StateDict A) : StateDict A :=
  if decide (1 < ratio) then select_with_transform d [] (kv_transform (mkQKV n_kv hd ratio (mkFused true None [] [])) kv_prefixes) else d.

Lemma qkv_load_lift n_kv hd ratio files f f' : for_each (λ d, fused_load d qkv_prefixes) (transformed n_kv hd ratio <$> files) f = Ok (tt, f') →
  for_each (λ d, qkv_load d qkv_prefixes kv_prefixes) files (mkQKV n_kv hd ratio f) = Ok (tt, mkQKV n_kv hd ratio f').
Proof.
  revert f. induction files as [|d files IH]; intros f; cbn; [by intros [= <-]|]. unfold mbind, M_bind.
  unfold qkv_load at 1, mbind, M_bind, get, zoom. cbn [parallel_linear_ kv_replication_ratio_ n_kv_heads_ head_dim_].
  change (if decide (1 < ratio) then select_with_transform d [] (kv_transform (mkQKV n_kv hd ratio f) kv_prefixes) else d) with (transformed n_kv hd ratio d).
  destruct (fused_load (transformed n_kv hd ratio d) qkv_prefixes f) as [[[] f1]|e]; [|done]. cbn. apply IH.
Qed.

Lemma transformed_lookup n_kv hd ratio d name : dict_ (transformed n_kv hd ratio d) !! name = dict_ d !! name.
Proof. unfold transformed. case_decide; [|done]. cbn [select_with_transform dict_]. by rewrite (select_lookup d []). Qed.

(** What a rank gets of the tensor of a prefix. *)
Lemma transformed_offers {St} s W r ws d i p (st : St) : spread (s_heads s) (s_kv s) ws → s_kv s < ws → 0 < s_dim s → r < ws →
  (∀ part, [w_q W; w_k W; w_v W] !! i = Some part → (dict_ d !! (p ++ weight_name) = None ∨ dict_ d !! (p ++ weight_name) = Some (Mat (s_hidden s) part)) ∧
     Forall (λ v, length v = s_hidden s) part) →
  length (w_q W) = s_heads s * s_dim s → length (w_k W) = s_kv s * s_dim s → length (w_v W) = s_kv s * s_dim s →
  qkv_prefixes !! i = Some p →
  get_sharded_tensor (transformed (s_kv s) (s_dim s) (kv_ratio (s_kv s) ws) d) (p ++ weight_name) 0 r ws st =
  Ok ((if in_file d weight_name p then Mat (s_hidden s) <$> (attn_parts s W r ws !! i) else None), st).
Proof.
  intros Hs Hkv Hhd Hr Hd Lq Lk Lv Hp. pose proof Hs as [Hw Hk Hh Hg [_ Hrep]]. specialize (Hrep Hkv).
  assert (s_kv s * (ws / s_kv s) = ws) as Er by (pose proof (Nat.div_mod_eq ws (s_kv s)); lia).
  assert (1 < ws / s_kv s) as Hra by nia. unfold kv_ratio. rewrite decide_False by lia. unfold transformed. rewrite decide_True by done.
  set (q := mkQKV (s_kv s) (s_dim s) (ws / s_kv s) (mkFused true None [] [])).
  destruct (lookup_lt_is_Some_2 [w_q W; w_k W; w_v W] i) as [part Hpart]; [by apply lookup_lt_Some in Hp|].
  destruct (Hd part Hpart) as [[Hno|Hyes] Hwid].
  - unfold in_file. rewrite bool_decide_false by (rewrite Hno; by intros [? ?]).
    unfold get_sharded_tensor, get_tensor, mbind, M_bind, check. rewrite (bool_decide_true (r < ws)) by done. cbn [mret M_ret].
    cbn [select_with_transform dict_]. rewrite (select_lookup d []). cbn [app]. by rewrite Hno.
  - unfold in_file. rewrite bool_decide_true by (rewrite Hyes; by eexists).
    assert (∀ rows name, rows = part → existsb (starts_with name) kv_prefixes = true → dict_ d !! name = Some (Mat (s_hidden s) part) → length rows = s_kv s * s_dim s →
      get_sharded_tensor (select_with_transform d [] (kv_transform q kv_prefixes)) name 0 r ws st =
      Ok (Some (Mat (s_hidden s) (window (kv_start (s_kv s) ws r * s_dim s) (kv_count (s_kv s) ws * s_dim s) rows)), st)) as Hhead.
    { intros rows name -> He Hn Hl. rewrite (sharded_kv_head d name kv_prefixes q (s_kv s) (s_dim s) (ws / s_kv s) r ws (s_hidden s) part) by (done || lia).
      unfold kv_start, kv_count. rewrite decide_False by lia. rewrite (Nat.div_small (s_kv s)) by done. unfold head_rows, window. cbn [Nat.max].
      by rewrite Nat.mul_1_l. }
    unfold qkv_prefixes in Hp. destruct i as [|[|[|i]]]; cbn [lookup list_lookup] in Hp, Hpart; simplify_eq; cbn [attn_parts lookup list_lookup fmap option_fmap option_map].
    + unfold get_sharded_tensor, get_tensor, mbind, M_bind, check. rewrite (bool_decide_true (r < ws)) by done. cbn [mret M_ret].
      cbn [select_with_transform dict_ transform_func_]. rewrite (select_lookup d []). cbn [app]. rewrite Hyes. unfold kv_transform.
      change (existsb (starts_with (text_of "q_proj." ++ weight_name)) kv_prefixes) with false. unfold mbind, M_bind. cbn [of_result mret M_ret size_of sizes lookup list_lookup from_option_or].
      assert (length (w_q W) = ws * (s_heads s / ws * s_dim s)) as Lq' by (rewrite Lq; pose proof (Nat.div_mod_eq (s_heads s) ws); nia).
      rewrite <-Nat.mul_assoc, <-(piece_window ws) by done. case_decide as Hsmall.
      * assert (length (w_q W) = 0) as L0 by (destruct (s_heads s / ws * s_dim s); lia). apply nil_length_inv in L0 as ->. by rewrite piece_nil.
      * by rewrite (bool_decide_true (length (w_q W) `mod` ws = 0)) by (rewrite Lq', Nat.mul_comm; apply Nat.Div0.mod_mul).
    + by apply Hhead.
    + by apply Hhead.
Qed.

Lemma qkv_files s W files : attn_files s W files →
  Forall2 (λ p part, provides files (p ++ weight_name) (Mat (s_hidden s) part)) qkv_prefixes [w_q W; w_k W; w_v W].
Proof. intros [G1 G2 G3 _ _ _ _ _ _]. by repeat constructor. Qed.

(** Even shares are pieces. *)
Lemma parts_pieces s W files r ws : spread (s_heads s) (s_kv s) ws → ws ≤ s_kv s → attn_files s W files → r < ws →
  attn_parts s W r ws = piece ws r <$> [w_q W; w_k W; w_v W].
Proof.
  intros Hs Hle Hf Hr. pose proof Hs as [Hw Hk Hh Hg [Heven _]]. specialize (Heven Hle). unfold attn_parts, kv_start, kv_count. rewrite decide_True by done.
  assert (s_heads s = ws * (s_heads s / ws)) as Eh by (pose proof (Nat.div_mod_eq (s_heads s) ws); lia).
  assert (s_kv s = ws * (s_kv s / ws)) as Ek by (pose proof (Nat.div_mod_eq (s_kv s) ws); lia).
  rewrite Nat.max_r by (destruct (s_kv s / ws); lia). cbn [fmap list_fmap].
  rewrite (piece_window ws r (s_heads s / ws * s_dim s) (w_q W)), (piece_window ws r (s_kv s / ws * s_dim s) (w_k W)),
    (piece_window ws r (s_kv s / ws * s_dim s) (w_v W)); rewrite ?(af_q_rows _ _ _ Hf), ?(af_k_rows _ _ _ Hf), ?(af_v_rows _ _ _ Hf); try done; try nia.
  by rewrite !Nat.mul_assoc.
Qed.

Lemma qkv_loads s W files r ws : spread (s_heads s) (s_kv s) ws → 0 < s_dim s → attn_files s W files → r < ws →
  for_each (λ d, column_load_fused d qkv_prefixes) (transformed (s_kv s) (s_dim s) (kv_ratio (s_kv s) ws) <$> files)
    (fresh memory (length (concat (attn_parts s W r ws))) (s_hidden s) false r ws) =
  Ok (tt, plain (s_hidden s) (concat (attn_parts s W r ws)) false r ws).
Proof using H2.
  intros Hs Hhd Hf Hr. pose proof (qkv_files _ _ _ Hf) as Hq. apply fused_loads; [done|done| |].
  - apply Forall_fmap, Forall_forall. intros d Hd w. cbv beta. destruct (decide (ws ≤ s_kv s)) as [Hle|Hlt].
    + unfold kv_ratio, transformed. rewrite (decide_True _ _ Hle), decide_False by lia. rewrite (parts_pieces s W files) by done.
      apply (pieces_offered files); [done|done|done|]. pose proof (share_sizes (s_heads s) (s_kv s) (s_dim s) ws Hs) as (_&D2&_&D4).
      rewrite decide_True in D4 by done. destruct Hf as [G1 G2 G3 _ L1 L2 L3 _ _]. repeat constructor; try done; congruence.
    + split; [done|]. intros i p b t Hp Hb Ht.
      assert (∀ part, [w_q W; w_k W; w_v W] !! i = Some part →
        (dict_ d !! (p ++ weight_name) = None ∨ dict_ d !! (p ++ weight_name) = Some (Mat (s_hidden s) part)) ∧ Forall (λ v, length v = s_hidden s) part) as Hparts.
      { intros part Hi. destruct (Forall2_lookup_r _ _ _ _ _ Hq Hi) as (p'&Hp'&Hpr). rewrite Hp in Hp'. injection Hp' as <-.
        split; [|exact (provides_ok _ _ _ Hpr)]. destruct (provides_file _ _ _ d Hpr Hd) as [_ Hu].
        destruct (dict_ d !! (p ++ weight_name)) as [u|] eqn:E; [right; by rewrite (Hu u)|by left]. }
      rewrite (transformed_offers s W r ws d i p) by (done || lia || apply (af_q_rows _ _ _ Hf) || apply (af_k_rows _ _ _ Hf) || apply (af_v_rows _ _ _ Hf)).
      rewrite list_lookup_fmap, Hp in Hb. cbn in Hb. unfold in_file in Hb. rewrite transformed_lookup in Hb. fold (in_file d weight_name p) in Hb.
      rewrite list_lookup_fmap in Ht. rewrite Ht. injection Hb as <-. done.
  - apply Forall_lookup. intros i p Hi. destruct (Forall2_lookup_l _ _ _ _ _ Hq Hi) as (part&_&Hpr).
    apply Exists_exists. destruct (proj1 (Exists_exists _ _) (provides_some _ _ _ Hpr)) as (d&Hd&Hx).
    exists (transformed (s_kv s) (s_dim s) (kv_ratio (s_kv s) ws) d). split; [by apply list_elem_of_fmap_2|]. by rewrite transformed_lookup.
Qed.

Definition llama_loaded (s : shape) W (handler : RefHandler F A) (r ws : nat) : LlamaAttention :=
  mkLlamaAttention (mkQKV (s_kv s) (s_dim s) (kv_ratio (s_kv s) ws)
      (mkFused true (Some (plain (s_hidden s) (concat (attn_parts s W r ws)) false r ws)) [] (length <$> attn_parts s W r ws)))
    (plain (s_hidden s / ws) (piece ws r <$> w_o W) true r ws) (attn_of s handler ws).

Lemma attention_new {St} s handler ws (st : St) : spread (s_heads s) (s_kv s) ws →
  AttentionImpl_new (s_heads s / ws) (kv_count (s_kv s) ws) (s_dim s) (Some handler) (-1) st = Ok (attn_of (F := F) (A := A) s handler ws, st).
Proof.
  intros Hs. destruct (kv_shares _ _ _ 0 Hs) as [_ _ H3 H4 _]; [destruct Hs; lia|]. unfold AttentionImpl_new, mbind, M_bind. cbn [mret M_ret].
  by rewrite divisible_ok.
Qed.

Lemma hidden_even s W files ws : spread (s_heads s) (s_kv s) ws → attn_files s W files → s_hidden s `mod` ws = 0.
Proof. intros Hs Hf. rewrite (af_hidden _ _ _ Hf). by apply (share_sizes _ (s_kv s)). Qed.

Lemma llama_built args s W files r ws handler : args_shape args s → spread (s_heads s) (s_kv s) ws ∧ 0 < s_dim s → attn_files s W files → r < ws →
  Built (LlamaAttention_new memory args (mkParallelArgs r ws) handler) LlamaAttention_load LlamaAttention_verify files (llama_loaded s W handler r ws).
Proof using H2.
  intros [E1 _ _ E4 E5 E6] [Hs Hhd] Hf Hr. pose proof (part_lengths memory s W files r ws Hs Hf Hr) as Hpl. pose proof (sp_ranks _ _ _ Hs) as Hw.
  pose proof (hidden_even s W files ws Hs Hf) as Hh. eexists. split_and!.
  - unfold LlamaAttention_new, mbind, M_bind. rewrite (nat_size_ok _ _ _ E1), (nat_size_ok _ _ _ E4), (nat_size_ok _ _ _ E5), (nat_size_ok _ _ _ E6).
    cbn [rank world_size]. rewrite !div_size_ok by done. fold (kv_count (s_kv s) ws). rewrite qkv_new by done.
    rewrite row_new by done. by rewrite attention_new.
  - apply (for_each_pair (λ q o, mkLlamaAttention q o (attn_of s handler ws)) _ (λ d, qkv_load d qkv_prefixes kv_prefixes)
      (λ d, row_load (select d (text_of "o_proj.")))).
    + intros d q o q' o' H1' H2'. unfold LlamaAttention_load, zoom, mbind, M_bind. cbn [qkv_proj_ o_proj_ atten_].
      fold qkv_prefixes kv_prefixes. rewrite H1'. cbn [qkv_proj_ o_proj_ atten_]. by rewrite H2'.
    + apply qkv_load_lift. rewrite <-Hpl, concat_lengths. apply fused_load_lift. by apply qkv_loads.
    + rewrite <-(for_each_fmap (λ d, select d (text_of "o_proj.")) row_load). rewrite <-(af_o_rows _ _ _ Hf) at 1.
      apply row_loads; [|done|done]. apply provides_select. apply (af_o _ _ _ Hf).
  - done.
Qed.

#[export] Instance LlamaAttention_laws : AttentionLaws LlamaAttention (AttentionModule0 := LlamaAttention_module memory).
Proof using H0 H2.
  refine {| attn_supports s ws := spread (s_heads s) (s_kv s) ws ∧ 0 < s_dim s; attn_loaded := llama_loaded |}.
  - intros. by apply llama_built.
  - intros s W files ws handler rot input positions n_slots slots ls kv xs [Hs _] Hf Hw Hsv Hkv Hxs.
    destruct (attention_tail memory s W files ws handler rot input positions n_slots slots ls kv xs) as (kv'&Hfit&Hr); try done.
    exists kv'. split; [done|]. eapply Runs_ext; [|exact Hr]. intros r Hrw. cbn [attn_forward LlamaAttention_module]. unfold LlamaAttention_forward, llama_loaded.
    cbn [qkv_proj_ parallel_linear_ o_proj_ atten_]. rewrite fused_plain. done.
Defined.

(** ** [aquila.h] and [internlm.h] *)

(** One layer for the three projections, for even shares. *)
Lemma packed_loads s W files r ws : spread (s_heads s) (s_kv s) ws → ws ≤ s_kv s → attn_files s W files → r < ws →
  for_each (λ d, column_load_fused d qkv_prefixes) files (fresh memory (length (concat (attn_parts s W r ws))) (s_hidden s) false r ws) =
  Ok (tt, plain (s_hidden s) (concat (attn_parts s W r ws)) false r ws).
Proof using H2.
  intros Hs Hle Hf Hr. rewrite (parts_pieces s W files) by done. apply pieces_loads; [done|done|].
  pose proof (share_sizes (s_heads s) (s_kv s) (s_dim s) ws Hs) as (_&D2&_&D4). rewrite decide_True in D4 by done.
  destruct Hf as [G1 G2 G3 _ L1 L2 L3 _ _]. repeat constructor; try done; congruence.
Qed.
Lemma packed_size s W files r ws : spread (s_heads s) (s_kv s) ws → ws ≤ s_kv s → attn_files s W files → r < ws →
  ((s_heads s + 2 * s_kv s) * s_dim s) `mod` ws = 0 ∧
  ((s_heads s + 2 * s_kv s) * s_dim s) / ws = length (concat (attn_parts s W r ws)) ∧ s_kv s / ws = kv_count (s_kv s) ws.
Proof using memory.
  intros Hs Hle Hf Hr. pose proof Hs as [Hw Hk Hh _ [Heven _]]. specialize (Heven Hle).
  rewrite <-concat_lengths, (part_lengths memory s W files r ws) by done. unfold kv_count.
  assert (s_heads s = ws * (s_heads s / ws)) as Eh by (pose proof (Nat.div_mod_eq (s_heads s) ws); lia).
  assert (s_kv s = ws * (s_kv s / ws)) as Ek by (pose proof (Nat.div_mod_eq (s_kv s) ws); lia).
  rewrite Nat.max_r by (destruct (s_kv s / ws); lia). cbn [sum_list sum_list_with].
  assert ((s_heads s + 2 * s_kv s) * s_dim s = (s_heads s / ws * s_dim s + (s_kv s / ws * s_dim s + s_kv s / ws * s_dim s)) * ws) as -> by nia.
  split_and!; [apply Nat.Div0.mod_mul|rewrite Nat.div_mul by done; cbn; lia|done].
Qed.

Definition aquila_loaded (s : shape) W (handler : RefHandler F A) (r ws : nat) : AquilaAttention :=
  mkAquilaAttention (plain (s_hidden s) (concat (attn_parts s W r ws)) false r ws) (plain (s_hidden s / ws) (piece ws r <$> w_o W) true r ws)
    (attn_of s handler ws) (length <$> attn_parts s W r ws).

Lemma aquila_built args s W files r ws handler : args_shape args s → spread (s_heads s) (s_kv s) ws ∧ ws ≤ s_kv s → attn_files s W files → r < ws →
  Built (AquilaAttention_new memory args (mkParallelArgs r ws) handler) AquilaAttention_load AquilaAttention_verify files (aquila_loaded s W handler r ws).
Proof using H2.
  intros [E1 _ _ E4 E5 E6] [Hs Hle] Hf Hr. destruct (packed_size s W files r ws Hs Hle Hf Hr) as (P1&P2&P3). pose proof (sp_ranks _ _ _ Hs) as Hw.
  pose proof (hidden_even s W files ws Hs Hf) as Hh. eexists. split_and!.
  - unfold AquilaAttention_new, mbind, M_bind. rewrite (nat_size_ok _ _ _ E1), (nat_size_ok _ _ _ E4), (nat_size_ok _ _ _ E5), (nat_size_ok _ _ _ E6).
    cbn [rank world_size]. rewrite !div_size_ok by done. rewrite column_new, P2, P3 by done. rewrite row_new by done. by rewrite attention_new.
  - rewrite <-(part_lengths memory s W files r ws) by done.
    apply (for_each_pair (λ q o, mkAquilaAttention q o (attn_of s handler ws) (length <$> attn_parts s W r ws)) _ (λ d, column_load_fused d qkv_prefixes)
      (λ d, row_load (select d (text_of "o_proj.")))).
    + intros d q o q' o' H1' H2'. unfold AquilaAttention_load, zoom, mbind, M_bind. cbn [aq_qkv_proj_ aq_o_proj_ aq_atten_ qkv_sizes_].
      fold qkv_prefixes. rewrite H1'. cbn [aq_qkv_proj_ aq_o_proj_ aq_atten_ qkv_sizes_]. by rewrite H2'.
    + by apply packed_loads.
    + rewrite <-(for_each_fmap (λ d, select d (text_of "o_proj.")) row_load). rewrite <-(af_o_rows _ _ _ Hf) at 1.
      apply row_loads; [|done|done]. apply provides_select. apply (af_o _ _ _ Hf).
  - done.
Qed.

#[export] Instance AquilaAttention_laws : AttentionLaws AquilaAttention (AttentionModule0 := AquilaAttention_module memory).
Proof using H0 H2.
  refine {| attn_supports s ws := spread (s_heads s) (s_kv s) ws ∧ ws ≤ s_kv s; attn_loaded := aquila_loaded |}.
  - intros. by apply aquila_built.
  - intros s W files ws handler rot input positions n_slots slots ls kv xs [Hs _] Hf Hw Hsv Hkv Hxs.
    destruct (attention_tail memory s W files ws handler rot input positions n_slots slots ls kv xs) as (kv'&Hfit&Hr); try done.
    exists kv'. split; [done|]. eapply Runs_ext; [|exact Hr]. intros r Hrw. cbn [attn_forward AquilaAttention_module]. unfold AquilaAttention_forward, aquila_loaded.
    cbn [aq_qkv_proj_ aq_o_proj_ aq_atten_ qkv_sizes_]. rewrite column_plain. cbn [mbind Spmd_bind spmd_bind]. unfold local. by rewrite split_projected.
Defined.

Lemma chunk_sizes_three k : chunk_sizes 3 (3 * k) = [k; k; k].
Proof.
  unfold chunk_sizes. replace (3 * k + 3 - 1) with (k * 3 + 2) by lia. rewrite Nat.div_add_l by lia. change (2 / 3) with 0. rewrite Nat.add_0_r.
  case_decide as Hk; [by assert (k = 0) as -> by lia|]. replace (3 * k + k - 1) with (3 * k + (k - 1)) by lia.
  rewrite Nat.div_add_l, (Nat.div_small (k - 1)) by lia. cbn [Nat.add seq fmap list_fmap]. repeat (f_equal; [lia|]). f_equal. lia.
Qed.

Definition internlm_loaded (s : shape) W (handler : RefHandler F A) (r ws : nat) : InternlmAttention :=
  mkInternlmAttention (plain (s_hidden s) (concat (attn_parts s W r ws)) false r ws) (plain (s_hidden s / ws) (piece ws r <$> w_o W) true r ws)
    (attn_of s handler ws).

Lemma internlm_built args s W files r ws handler : args_shape args s → spread (s_heads s) (s_kv s) ws ∧ ws ≤ s_kv s ∧ s_kv s = s_heads s →
  attn_files s W files → r < ws →
  Built (InternlmAttention_new memory args (mkParallelArgs r ws) handler) InternlmAttention_load InternlmAttention_verify files (internlm_loaded s W handler r ws).
Proof using H2.
  intros [E1 _ _ E4 _ E6] (Hs&Hle&Hkv) Hf Hr. destruct (packed_size s W files r ws Hs Hle Hf Hr) as (P1&P2&P3). pose proof (sp_ranks _ _ _ Hs) as Hw.
  pose proof (hidden_even s W files ws Hs Hf) as Hh.
  assert ((s_heads s + 2 * s_kv s) * s_dim s = 3 * s_hidden s) as E3 by (rewrite Hkv, (af_hidden _ _ _ Hf); lia). rewrite E3 in P1, P2.
  eexists. split_and!.
  - unfold InternlmAttention_new, mbind, M_bind. rewrite (nat_size_ok _ _ _ E1), (nat_size_ok _ _ _ E4), (nat_size_ok _ _ _ E6).
    cbn [rank world_size]. rewrite !div_size_ok by done. rewrite column_new, P2 by done. rewrite row_new by done.
    rewrite <-Hkv at 2. rewrite P3. by rewrite attention_new.
  - apply (for_each_pair (λ q o, mkInternlmAttention q o (attn_of s handler ws)) _ (λ d, column_load_fused d qkv_prefixes)
      (λ d, row_load (select d (text_of "o_proj.")))).
    + intros d q o q' o' H1' H2'. unfold InternlmAttention_load, zoom, mbind, M_bind. cbn [in_qkv_proj_ in_o_proj_ in_atten_].
      fold qkv_prefixes. rewrite H1'. cbn [in_qkv_proj_ in_o_proj_ in_atten_]. by rewrite H2'.
    + by apply packed_loads.
    + rewrite <-(for_each_fmap (λ d, select d (text_of "o_proj.")) row_load). rewrite <-(af_o_rows _ _ _ Hf) at 1.
      apply row_loads; [|done|done]. apply provides_select. apply (af_o _ _ _ Hf).
  - done.
Qed.

#[export] Instance InternlmAttention_laws : AttentionLaws InternlmAttention (AttentionModule0 := InternlmAttention_module memory).
Proof using H0 H2.
  refine {| attn_supports s ws := spread (s_heads s) (s_kv s) ws ∧ ws ≤ s_kv s ∧ s_kv s = s_heads s; attn_loaded := internlm_loaded |}.
  - intros. by apply internlm_built.
  - intros s W files ws handler rot input positions n_slots slots ls kv xs (Hs&Hle&Heq) Hf Hw Hsv Hkv Hxs.
    destruct (attention_tail memory s W files ws handler rot input positions n_slots slots ls kv xs) as (kv'&Hfit&Hr); try done.
    exists kv'. split; [done|]. eapply Runs_ext; [|exact Hr]. intros r Hrw. cbn [attn_forward InternlmAttention_module]. unfold InternlmAttention_forward, internlm_loaded.
    cbn [in_qkv_proj_ in_o_proj_ in_atten_]. rewrite column_plain. cbn [mbind Spmd_bind spmd_bind]. unfold local, chunk_cols.
    pose proof (part_lengths memory s W files r ws Hs Hf Hrw) as Hpl.
    assert (chunk_sizes 3 (length (concat (attn_parts s W r ws))) = length <$> attn_parts s W r ws) as ->; [|by rewrite split_projected].
    destruct (packed_size s W files r ws Hs Hle Hf Hrw) as (_&_&P3).
    rewrite <-concat_lengths, Hpl, <-P3, Heq. cbn [sum_list sum_list_with]. set (k := s_heads s / ws * s_dim s).
    rewrite <-(chunk_sizes_three k). f_equal.
Defined.
End llama.

(** ** Layers *)

(** Two members that are loaded one after the other. *)
Definition both {X B C} (lb : X → M B unit) (lc : X → M C unit) (d : X) : M (B * C) unit :=
  _ ← on_fst (lb d); on_snd (lc d).
Lemma for_each_both {X B C} (lb : X → M B unit) (lc : X → M C unit) files b b' c c' :
  for_each lb files b = Ok (tt, b') → for_each lc files c = Ok (tt, c') → for_each (both lb lc) files (b, c) = Ok (tt, (b', c')).
Proof.
  apply (for_each_pair pair). intros d b1 c1 b2 c2 Hb Hc. unfold both, on_fst, on_snd, zoom, mbind, M_bind. cbn [fst snd]. rewrite Hb. cbn [fst snd]. by rewrite Hc.
Qed.

Section layers.
Context {A F : Type} `{AttnLaws A F} `{ScalarLaws A} `{Scalar F} `{NormOps A F} `{ActArith A} {tl : TemplateLib}.
Context (memory : nat → A) (of_float : float → F) (is_cuda disable : bool).
Context (T : Type) {Tm : AttentionModule (F := F) (A := A) T} {Tl : AttentionLaws T}.
Context (act : ActChoice A) (f : A → A) (Hact : get_act_func (text_of "silu") is_cuda disable () = Ok (act, ())) (Hf : act = Torch f ∨ act = Custom f).
Context (args : Args.ModelArgs) (s : shape) (Hargs : args_shape args s) (ws : nat) (Hws : 0 < ws).
Context (Hsup : attn_supports s ws) (Hinter : s_inter s `mod` ws = 0).
Implicit Types (files : list (StateDict A)).
Abbreviation eps := (of_float (Args.rms_norm_eps args)).

(** *** Normalization *)

Definition norm_loaded (w : list A) : NormImpl A F := mkNorm w None true false eps.
Definition rms_new : M unit (NormImpl A F) := RMSNorm_new memory of_float args.

Lemma norm_built files w : provides files weight_name (Vec w) → length w = s_hidden s →
  Built rms_new norm_load norm_verify files (norm_loaded w).
Proof using All.
  intros Hp Hl. eexists. split_and!.
  - unfold rms_new, RMSNorm_new, mbind, M_bind. by rewrite (nat_size_ok _ _ _ (as_hidden _ _ Hargs)).
  - eapply load_provided; [exact Hp| |].
    + intros d [Hd1 Hd2]. unfold norm_load, get_tensor, mbind, M_bind. rewrite Hd2. done.
    + intros d Hd. unfold norm_load, mbind, M_bind. rewrite (get_tensor_holds d weight_name (Vec w)) by done.
      unfold get, copy_vector, NormImpl_new, mbind, M_bind, check. cbn [norm_weight_ norm_bias_ eps_ bias_is_loaded_].
      rewrite bool_decide_true by (by rewrite length_fmap, length_seq). done.
  - done.
Qed.

Lemma rms_width w xs : length w = s_hidden s → Forall (λ x, length x = s_hidden s) xs → Forall (λ x, length x = s_hidden s) (rms_rows eps w xs).
Proof using All.
  intros Hw Hx. apply Forall_fmap. eapply Forall_impl; [exact Hx|]. intros x Hl. cbv beta in Hl. change (length (rms_norm_row w eps x) = s_hidden s). unfold rms_norm_row, norm_row. cbv zeta.
  rewrite length_zip_with, !length_fmap. lia.
Qed.
Lemma rms_ok {St} w xs (st : St) : length w = s_hidden s →
  rms_forward (norm_loaded w) (Mat (s_hidden s) xs) st = Ok (Mat (s_hidden s) (rms_rows eps w xs), st).
Proof using All.
  intros Hw. unfold rms_forward, mbind, M_bind, check. by rewrite bool_decide_true.
Qed.

(** *** A layer *)

Record layer_files (W : layer_weights A) files : Prop := {
  lf_attn : attn_files s (lw_attn W) (selected (text_of "self_attn.") files);
  lf_mlp : mlp_files s (lw_mlp W) (selected (text_of "mlp.") files);
  lf_in : provides files (text_of "input_layernorm." ++ weight_name) (Vec (lw_in W));
  lf_post : provides files (text_of "post_attention_layernorm." ++ weight_name) (Vec (lw_post W));
  lf_in_size : length (lw_in W) = s_hidden s;
  lf_post_size : length (lw_post W) = s_hidden s;
}.
Definition layer_loaded (handler : RefHandler F A) (r : nat) (W : layer_weights A) : DecoderLayer (A := A) (F := F) T :=
  mkDecoderLayer T (attn_loaded s (lw_attn W) handler r ws) (mlp_loaded act s (lw_mlp W) r ws) (norm_loaded (lw_in W)) (norm_loaded (lw_post W)).

Lemma layer_built handler W files r : r < ws → layer_files W files →
  Built (DecoderLayer_new memory of_float is_cuda disable T args (mkParallelArgs r ws) handler) (DecoderLayer_load T) (DecoderLayer_verify T) files
    (layer_loaded handler r W).
Proof using All.
  intros Hr [F1 F2 F3 F4 L1 L2].
  destruct (attn_built args s (lw_attn W) _ r ws handler Hargs Hsup F1 Hr) as (a0&A1&A2&A3).
  destruct (mlp_built memory is_cuda disable act f Hact Hf args s (lw_mlp W) _ r ws Hargs Hr Hinter F2) as (m0&B1&B2&B3).
  destruct (norm_built (selected (text_of "input_layernorm.") files) (lw_in W)) as (n0&C1&C2&C3); [by apply provides_select|done|].
  destruct (norm_built (selected (text_of "post_attention_layernorm.") files) (lw_post W)) as (p0&D1&D2&D3); [by apply provides_select|done|].
  rewrite for_each_fmap in A2. rewrite for_each_fmap in B2. rewrite for_each_fmap in C2. rewrite for_each_fmap in D2. exists (mkDecoderLayer T a0 m0 n0 p0). split_and!.
  - unfold DecoderLayer_new, mbind, M_bind. rewrite A1, B1. fold rms_new. rewrite C1 in D1. injection D1 as <-. rewrite C1. cbv beta iota. by rewrite C1.
  - apply (for_each_pair (λ a x, mkDecoderLayer T a x.1 x.2.1 x.2.2) _ (λ d, attn_load (select d (text_of "self_attn.")))
      (both (λ d, LlamaMLP_load (select d (text_of "mlp."))) (both (λ d, norm_load (select d (text_of "input_layernorm.")))
        (λ d, norm_load (select d (text_of "post_attention_layernorm."))))) files a0 _ (m0, (n0, p0)) (_, (_, _))).
    + intros d a [m [n p]] a' [m' [n' p']] Ha Hb. unfold both, on_fst, on_snd, zoom, mbind, M_bind in Hb. cbn [fst snd] in Hb |- *.
      unfold DecoderLayer_load, zoom, mbind, M_bind. cbn [self_attn_ mlp_ input_layernorm_ post_attention_layernorm_]. rewrite Ha. cbn [self_attn_ mlp_ input_layernorm_ post_attention_layernorm_].
      destruct (LlamaMLP_load _ m) as [[[] m1]|e]; [|done]. cbn [self_attn_ mlp_ input_layernorm_ post_attention_layernorm_ fst snd] in Hb |- *.
      destruct (norm_load _ n) as [[[] n1]|e]; [|done]. cbn [self_attn_ mlp_ input_layernorm_ post_attention_layernorm_ fst snd] in Hb |- *.
      destruct (norm_load _ p) as [[[] p1]|e]; [|done]. cbn in Hb. by simplify_eq.
    + exact A2.
    + apply for_each_both; [exact B2|]. by apply for_each_both.
  - unfold DecoderLayer_verify, layer_loaded, mbind, M_bind. cbn [self_attn_ mlp_ input_layernorm_ post_attention_layernorm_].
    by rewrite A3, B3, C3, D3.
Qed.

(** The hidden states of a batch. *)
Definition states (n : nat) (xs : list (list A)) : Prop := length xs = n ∧ Forall (λ x, length x = s_hidden s) xs.

Section batch.
Context (handler : RefHandler F A) (rot : nat → list A → list A) (input : ModelInput) (positions : list nat) (n_slots : nat) (slots ls : list nat).
Context (Hserves : serves handler rot s input positions n_slots slots ls).
Abbreviation layer := (λ W, layer_rows rot f eps (sm_scale_ handler) (logits_soft_cap_ handler) s W ls positions).

Lemma attn_states W files xs : attn_files s W files → states (length slots) xs →
  states (length slots) (attn_rows handler rot s W ls positions xs).
Proof using All.
  intros Hfl [Hx _]. split; [|unfold attn_rows; rewrite <-(af_o_rows _ _ _ Hfl); apply project_width].
  unfold attn_rows, attention_rows. destruct Hserves as [_ _ [[_ _ _ _ _ _ Hsum] Hpos]].
  rewrite project_length, attention_of_length; rewrite project_length; [done|rewrite rotate_length; rewrite length_fmap, project_length; congruence|congruence].
Qed.

Lemma add_states n xs ys : states n xs → states n ys → states n (add_rows xs ys).
Proof using All.
  intros [H1' W1] [H2' W2]. split; [unfold add_rows; rewrite length_zip_with; lia|by apply zip_width].
Qed.

Lemma layer_runs W files kv xs : layer_files W files → caches_fit s ws n_slots kv → states (length slots) xs →
  states (length slots) (layer W xs) ∧
  ∃ kv', caches_fit s ws n_slots kv' ∧ Runs ws (2 * collective ws) (λ r, DecoderLayer_forward T (layer_loaded handler r W) (Mat (s_hidden s) xs) positions input (kv r))
    (λ r, (Mat (s_hidden s) (layer W xs), kv' r)).
Proof using All.
  intros [F1 F2 F3 F4 L1 L2] Hkv Hx. set (y := rms_rows eps (lw_in W) xs). set (a := attn_rows handler rot s (lw_attn W) ls positions y).
  assert (states (length slots) y) as Hy by (split; [unfold y, rms_rows; rewrite length_fmap; apply Hx|apply rms_width; [done|apply Hx]]).
  pose proof (attn_states _ _ y F1 Hy) as Ha. fold a in Ha. set (h := add_rows xs a). pose proof (add_states _ _ _ Hx Ha) as Hh. fold h in Hh.
  set (z := rms_rows eps (lw_post W) h). set (m := mlp_rows f (lw_mlp W) z).
  assert (states (length slots) m) as Hm.
  { split; [|unfold m, mlp_rows; rewrite <-(mf_down_rows _ _ _ F2); apply project_width]. unfold m, mlp_rows.
    rewrite project_length, length_zip_with, length_fmap, !project_length, Nat.min_id. unfold z, rms_rows. rewrite length_fmap. apply Hh. }
  assert (layer W xs = add_rows h m) as -> by done. split; [by apply add_states|].
  destruct (attn_runs s (lw_attn W) _ ws handler rot input positions n_slots slots ls kv y Hsup F1 Hws Hserves Hkv (proj1 Hy)) as (kv'&Hfit&Hr).
  exists kv'. split; [done|]. replace (2 * collective ws) with (0 + (collective ws + (0 + (0 + (collective ws + (0 + 0)))))) by lia. unfold DecoderLayer_forward.
  refine (Runs_bind ws 0 _ _ (λ _, Mat (s_hidden s) y) _ _ (Runs_local ws _ _ _) _); [intros r _; by apply rms_ok|].
  refine (Runs_bind ws _ _ _ _ _ _ Hr _). fold a. cbv beta iota.
  refine (Runs_bind ws 0 _ _ (λ _, Mat (s_hidden s) h) _ _ (Runs_local ws _ _ _) _).
  { intros r _. destruct Hx as [X1 X2], Ha as [Y1 Y2]. apply zip_tensors_ok; [congruence|done|done]. }
  refine (Runs_bind ws 0 _ _ (λ _, Mat (s_hidden s) z) _ _ (Runs_local ws _ _ _) _); [intros r _; by apply rms_ok|].
  refine (Runs_bind ws _ _ _ _ _ _ (mlp_runs act f Hf s (lw_mlp W) _ ws z Hws Hinter F2) _). fold m.
  refine (Runs_bind ws 0 _ _ (λ _, Mat (s_hidden s) (add_rows h m)) _ _ (Runs_local ws _ _ _) _).
  { intros r _. destruct Hh as [X1 X2], Hm as [Y1 Y2]. apply zip_tensors_ok; [congruence|done|done]. }
  by apply Runs_ret.
Qed.

(** *** The loop over the layers *)

(** Every rank has a cache that fits for each of [n] layers, from layer [i] on. *)
Definition all_fit (i n : nat) (kvs : nat → list (KVCache (A := A))) : Prop :=
  ∀ r j, r < ws → j < n → ∃ c, kvs r !! (i + j) = Some c ∧ cache_fits n_slots (kv_count (s_kv s) ws * s_dim s) c.
Abbreviation all_layers Ws xs := (foldl (λ h W, layer W h) xs Ws).

Lemma layers_run Ws : ∀ i kvs xs, (∀ j W, Ws !! j = Some W → ∃ files, layer_files W files) → all_fit i (length Ws) kvs → states (length slots) xs →
  states (length slots) (all_layers Ws xs) ∧
  ∃ kvs', (all_fit i (length Ws) kvs' ∧ ∀ r j, j < i → kvs' r !! j = kvs r !! j) ∧ Runs ws (2 * length Ws * collective ws)
    (λ r, forward_layers T i (layer_loaded handler r <$> Ws) (Mat (s_hidden s) xs) positions input (kvs r))
    (λ r, (Mat (s_hidden s) (all_layers Ws xs), kvs' r)).
Proof using All.
  induction Ws as [|W Ws IH]; intros i kvs xs Hfiles Hfit Hx.
  - split; [done|]. exists kvs. split; [done|]. by apply Runs_ret.
  - destruct (Hfiles 0 W eq_refl) as [files HW].
    destruct (rank_choice (KVCache_default (A := A)) (λ r c, kvs r !! i = Some c ∧ cache_fits n_slots (kv_count (s_kv s) ws * s_dim s) c) ws) as [kv Hkv].
    { intros r Hr. destruct (Hfit r 0 Hr) as (c&Hc&Hf'); [cbn; lia|]. rewrite Nat.add_0_r in Hc. by exists c. }
    destruct (layer_runs W files kv xs HW) as (Hst&kv'&Hkv'&Hr); [intros r Hr; by apply Hkv|done|].
    destruct (IH (S i) (λ r, <[i := kv' r]> (kvs r)) (layer W xs)) as (Hst'&kvs'&[Hfit' Hsame]&Hrs).
    + intros j V Hj. by apply (Hfiles (S j)).
    + intros r j Hrw Hj. destruct (Hfit r (S j) Hrw) as (c&Hc&Hf'); [cbn; lia|]. exists c. split; [|done].
      rewrite list_lookup_insert_ne by lia. by replace (S i + j) with (i + S j) by lia.
    + done.
    + split; [done|]. exists kvs'. split.
      { split; [|intros r j Hj; rewrite Hsame by lia; by rewrite list_lookup_insert_ne by lia].
        intros r [|j] Hrw Hj; [|rewrite <-Nat.add_succ_comm; apply Hfit'; [done|cbn in Hj; lia]].
        destruct (Hfit r 0 Hrw) as (c&Hc&_); [cbn; lia|]. exists (kv' r). split; [|by apply Hkv'].
        rewrite Nat.add_0_r in Hc |- *. rewrite Hsame by lia. apply list_lookup_insert_eq. by eapply lookup_lt_Some. }
      cbn [length fmap list_fmap forward_layers].
      replace (2 * S (length Ws) * collective ws) with (0 + (2 * collective ws + 2 * length Ws * collective ws)) by lia.
      refine (Runs_bind ws 0 _ _ kv _ _ (Runs_local ws _ _ _) _); [intros r Hrw; by rewrite (proj1 (Hkv r Hrw))|].
      refine (Runs_bind ws _ _ _ _ _ _ Hr _). exact Hrs.
Qed.
End batch.

(** *** The model *)

Record model_files (W : model_weights A) files : Prop := {
  mo_embed : provides files (text_of "model." ++ text_of "embed_tokens." ++ weight_name) (Mat (s_hidden s) (mw_embed W));
  mo_layers : ∀ i V, mw_layers W !! i = Some V → layer_files V (selected (layer_prefix i) (selected (text_of "model.") files));
  mo_norm : provides files (text_of "model." ++ text_of "norm." ++ weight_name) (Vec (mw_norm W));
  mo_head : provides files (text_of "lm_head." ++ weight_name) (Mat (s_hidden s) (mw_head W));
  mo_embed_rows : length (mw_embed W) = s_vocab s;
  mo_norm_size : length (mw_norm W) = s_hidden s;
  mo_head_rows : length (mw_head W) = s_vocab s;
}.

Definition load_all_layers (k : nat) (d : StateDict A) : M (list (DecoderLayer (A := A) (F := F) T)) unit :=
  ls ← get; ls ← of_result (load_layers T d k ls); put ls.
Lemma layers_built handler r files Ws : r < ws → ∀ k, (∀ i V, Ws !! i = Some V → layer_files V (selected (layer_prefix (k + i)) files)) →
  ∃ ls0, map_each (λ _ : nat, DecoderLayer_new memory of_float is_cuda disable T args (mkParallelArgs r ws) handler) (seq k (length Ws)) () = Ok (ls0, ()) ∧
    for_each (load_all_layers k) files ls0 = Ok (tt, layer_loaded handler r <$> Ws) ∧
    for_each (DecoderLayer_verify T) (layer_loaded handler r <$> Ws) () = Ok (tt, ()).
Proof using All.
  intros Hr. induction Ws as [|V Ws IH]; intros k Hfs.
  - exists []. split_and!; [done| |done]. cbn [fmap list_fmap]. clear. induction files as [|d files IH]; [done|].
    cbn. unfold mbind, M_bind, load_all_layers at 1, mbind, M_bind, get. cbn. exact IH.
  - destruct (IH (S k)) as (ls0&N1&N2&N3).
    { intros i U Hi. replace (S k + i) with (k + S i) by lia. by apply Hfs. }
    pose proof (Hfs 0 V eq_refl) as HV. rewrite Nat.add_0_r in HV.
    destruct (layer_built handler V _ r Hr HV) as (l0&B1&B2&B3). rewrite for_each_fmap in B2.
    exists (l0 :: ls0). cbn [length seq map_each fmap list_fmap for_each]. unfold mbind, M_bind. rewrite B1, N1, B3. split_and!; [done| |done].
    apply (for_each_pair cons _ (λ d, DecoderLayer_load T (select d (layer_prefix k))) (load_all_layers (S k))); [|done|done].
    intros d l ls l' ls' Hl Hls. unfold load_all_layers, mbind, M_bind, get in Hls |- *. cbn [load_layers]. rewrite Hl.
    destruct (load_layers T d (S k) ls) as [ls1|e]; [|done]. cbn in Hls |- *. injection Hls as ->. done.
Qed.

Definition embedding_of (W : model_weights A) (r : nat) : ParallelEmbedding A :=
  mkEmbedding (Mat (s_hidden s / ws) (piece ws r <$> mw_embed W)) true r ws 0 0.
Definition model_loaded (handler : RefHandler F A) (W : model_weights A) (r : nat) : ForCausalLM (A := A) (F := F) T :=
  mkForCausalLM T (mkDecoderModel T (embedding_of W r) (layer_loaded handler r <$> mw_layers W) (norm_loaded (mw_norm W)))
    (plain (s_hidden s) (piece ws r (mw_head W)) true r ws).

Lemma embedding_loads files W r : r < ws → s_hidden s `mod` ws = 0 → provides files weight_name (Mat (s_hidden s) (mw_embed W)) → length (mw_embed W) = s_vocab s →
  for_each (parallel_embedding_load 1) files (mkEmbedding (empty_mat memory (s_vocab s) (s_hidden s / ws)) false r ws 0 0) = Ok (tt, embedding_of W r).
Proof using All.
  intros Hr Hm Hp Hl. eapply load_provided; [exact Hp| |].
  - intros d Hd. unfold parallel_embedding_load, mbind, M_bind, get, embedding_of. cbn [emb_rank emb_world_size].
    by rewrite !get_sharded_lacks by (done || lia).
  - intros d Hd. unfold parallel_embedding_load, mbind, M_bind, get. cbn [emb_rank emb_world_size].
    rewrite (get_sharded_holds d weight_name (Mat (s_hidden s) (mw_embed W)) 1 r ws (s_hidden s)) by (done || lia).
    rewrite store_embedding_ok; [done|]. cbn [emb_weight_]. rewrite sizes_empty_mat. cbn. by rewrite length_fmap, Hl.
Qed.

Lemma embedding_runs files W tokens : s_hidden s `mod` ws = 0 → provides files weight_name (Mat (s_hidden s) (mw_embed W)) →
  Forall (λ i, i < length (mw_embed W)) tokens →
  Runs ws (collective ws) (λ r, parallel_embedding_forward (embedding_of W r) tokens) (λ _, Mat (s_hidden s) (rows_at (mw_embed W) tokens)).
Proof using All.
  intros Hm Hp Ht. pose proof (provides_ok _ _ _ Hp) as Hw. cbn in Hw. pose proof (rows_at_width _ _ _ Hw Ht) as Hwid.
  assert (∀ r, r < ws → parallel_embedding_forward (embedding_of W r) tokens =
    let out := chunk ws 1 r (Mat (s_hidden s) (rows_at (mw_embed W) tokens)) in
    if decide (1 < ws) then gather_from_model_parallel_region ws out else Ret out) as He.
  { intros r Hr. unfold parallel_embedding_forward, embedding_of, local. cbn [emb_weight_ emb_world_size].
    rewrite embedding_rows by by rewrite length_fmap. cbn [mbind Spmd_bind spmd_bind chunk]. by rewrite rows_at_chunk. }
  unfold collective. case_decide as Hlt.
  - eapply Runs_ext; [exact He|]. by apply gather_columns_runs.
  - apply Runs_ret. intros r Hr. rewrite He by done. cbv zeta. assert (ws = 1) as -> by lia. assert (r = 0) as -> by lia. by rewrite chunk_one.
Qed.

Context (create_rope : Args.ModelArgs → bool → result (RefHandler F A)).
Context (W : model_weights A) (Hlayers : Args.n_layers args = Z.of_nat (length (mw_layers W))).
Context (Hhidden : s_hidden s `mod` ws = 0) (Hvocab : s_vocab s `mod` ws = 0).

Lemma model_built handler files r : r < ws → model_files W files → create_rope args false = Ok handler →
  load_model memory of_float is_cuda disable create_rope T args (mkParallelArgs r ws) files () = Ok (model_loaded handler W r, ()).
Proof using All.
  intros Hr [G1 G2 G3 G4 L1 L2 L3] Hrope. pose proof Hargs as [E1 _ E3 _ _ _]. assert (ws ≠ 0) as Hw by lia.
  destruct (layers_built handler r (selected (text_of "model.") files) (mw_layers W) Hr 0) as (ls0&N1&N2&N3); [exact G2|].
  destruct (norm_built (selected (text_of "norm.") (selected (text_of "model.") files)) (mw_norm W)) as (n0&C1&C2&C3); [by do 2 apply provides_select|done|].
  pose proof (embedding_loads (selected (text_of "embed_tokens.") (selected (text_of "model.") files)) W r Hr Hhidden ltac:(by do 2 apply provides_select) L1) as Hemb.
  rewrite !for_each_fmap in C2. rewrite for_each_fmap in N2. rewrite !for_each_fmap in Hemb. cbv beta in C2, Hemb.
  assert (for_each (ForCausalLM_load T) files (mkForCausalLM T (mkDecoderModel T
      (mkEmbedding (empty_mat memory (s_vocab s) (s_hidden s / ws)) false r ws 0 0) ls0 n0) (fresh memory (s_vocab s / ws) (s_hidden s) true r ws)) =
    Ok (tt, model_loaded handler W r)) as Hload.
  { apply (for_each_pair (mkForCausalLM T) _ (λ d, DecoderModel_load T (select d (text_of "model."))) (λ d, column_load (select d (text_of "lm_head.")))).
    - intros d m l m' l' Hm Hl. unfold ForCausalLM_load, zoom, mbind, M_bind. cbn [model_ lm_head_]. rewrite Hm. cbn [model_ lm_head_]. by rewrite Hl.
    - apply (for_each_pair (λ e x, mkDecoderModel T e x.1 x.2) _ (λ d, parallel_embedding_load 1 (select (select d (text_of "model.")) (text_of "embed_tokens.")))
        (both (λ d, load_all_layers 0 (select d (text_of "model."))) (λ d, norm_load (select (select d (text_of "model.")) (text_of "norm.")))) files _ _ (ls0, n0) (_, _)).
      + intros d e [ls n] e' [ls' n'] He Hb. unfold both, on_fst, on_snd, zoom, mbind, M_bind in Hb. cbn [fst snd] in Hb |- *.
        unfold DecoderModel_load, zoom, mbind at 1 2, M_bind at 1 2. cbn [embed_tokens_ layers_ norm_]. rewrite He. cbn [embed_tokens_ layers_ norm_].
        fold (load_all_layers 0 (select d (text_of "model."))).
        destruct (load_all_layers 0 _ ls) as [[[] ls1]|x]; [|done]. cbn [embed_tokens_ layers_ norm_ fst snd] in Hb |- *.
        destruct (norm_load _ n) as [[[] n1]|x]; [|done]. cbn in Hb. by simplify_eq.
      + exact Hemb.
      + by apply for_each_both.
    - rewrite <-(for_each_fmap (λ d, select d (text_of "lm_head.")) column_load). rewrite <-L3 at 1. apply column_loads; [by apply provides_select|by rewrite L3|done]. }
  unfold load_model, mbind at 1, M_bind at 1. unfold ForCausalLM_new, DecoderModel_new, mbind, M_bind.
  rewrite (nat_size_ok _ _ _ E3), (nat_size_ok _ _ _ E1). cbn [rank world_size].
  unfold ParallelEmbedding_new, mbind, M_bind. rewrite divisible_ok by done. cbn [mret M_ret]. rewrite Hrope. cbn [of_result mret M_ret].
  rewrite Hlayers, Nat2Z.id, N1. fold rms_new. rewrite C1. cbn [mret M_ret].
  rewrite (nat_size_ok _ _ _ E1), (nat_size_ok _ _ _ E3). rewrite column_new by done. cbn [mret M_ret]. rewrite Hload. cbn [of_result mret M_ret].
  unfold ForCausalLM_verify, DecoderModel_verify, model_loaded, mbind, M_bind. cbn [model_ lm_head_ embed_tokens_ layers_ norm_].
  unfold verify_embedding, embedding_of, check. cbn [is_loaded_ mret M_ret]. rewrite N3, C3. done.
Qed.

Lemma model_runs handler rot input positions n_slots slots ls files tokens sel kvs : model_files W files → create_rope args false = Ok handler →
  serves handler rot s input positions n_slots slots ls → length tokens = length slots → Forall (λ i, i < s_vocab s) tokens →
  (∀ idx, sel = Some idx → Forall (λ i, i < length tokens) idx) → all_fit n_slots 0 (length (mw_layers W)) kvs →
  ∃ kvs', all_fit n_slots 0 (length (mw_layers W)) kvs' ∧ Runs ws (2 * (length (mw_layers W) + 1) * collective ws)
    (λ r, run_model memory of_float is_cuda disable create_rope T args (mkParallelArgs r ws) files tokens positions input sel (kvs r))
    (λ r, (Mat (s_vocab s) (logit_rows rot f eps (sm_scale_ handler) (logits_soft_cap_ handler) s W ls tokens positions sel), kvs' r)).
Proof using All.
  intros HW Hrope Hserves Ht Hv Hsel Hfit. pose proof HW as [G1 G2 G3 G4 L1 L2 L3]. set (xs := rows_at (mw_embed W) tokens).
  assert (provides (selected (text_of "embed_tokens.") (selected (text_of "model.") files)) weight_name (Mat (s_hidden s) (mw_embed W))) as Hemb by by do 2 apply provides_select.
  assert (states (length slots) xs) as Hx.
  { split; [unfold xs, rows_at; by rewrite length_fmap|]. apply rows_at_width; [exact (provides_ok _ _ _ Hemb)|by rewrite L1]. }
  destruct (layers_run handler rot input positions n_slots slots ls Hserves (mw_layers W) 0 kvs xs) as ([Y1 Y2]&kvs'&[Hfit' _]&Hr); [|done|done|].
  { intros j V Hj. eexists. by apply G2. }
  set (ys := foldl _ xs (mw_layers W)) in *. set (h := rms_rows eps (mw_norm W) ys).
  set (z := match sel with Some idx => rows_at h idx | None => h end).
  assert (length h = length tokens) as Lh by (unfold h, rms_rows; rewrite length_fmap; congruence).
  assert (Forall (λ x, length x = s_hidden s) h) as Wh by (by apply rms_width).
  exists kvs'. split; [done|]. replace (2 * (length (mw_layers W) + 1) * collective ws)
    with (0 + ((collective ws + (2 * length (mw_layers W) * collective ws + (0 + 0))) + (0 + collective ws + 0))) by lia.
  unfold run_model.
  refine (Runs_bind ws 0 _ _ (model_loaded handler W) _ _ (Runs_local ws _ _ _) _); [intros r Hrw; by apply model_built|].
  refine (Runs_bind ws _ _ _ (λ r, (Mat (s_hidden s) h, kvs' r)) _ _ _ _).
  { unfold ForCausalLM_forward, DecoderModel_forward, model_loaded. cbn [model_ embed_tokens_ layers_ norm_].
    refine (Runs_bind ws _ _ _ _ _ _ (embedding_runs _ W tokens Hhidden Hemb _) _); [by rewrite L1|]. fold xs.
    refine (Runs_bind ws _ _ _ _ _ _ Hr _). cbv beta iota. fold ys.
    refine (Runs_bind ws 0 _ _ (λ _, Mat (s_hidden s) h) _ _ (Runs_local ws _ _ _) _); [intros r _; by apply rms_ok|]. by apply Runs_ret. }
  cbv beta iota. unfold logit_rows. change (hidden_rows rot f eps (sm_scale_ handler) (logits_soft_cap_ handler) s W ls tokens positions) with h. fold z.
  refine (Runs_bind ws _ _ _ (λ _, Mat (s_vocab s) (project (mw_head W) z)) _ _ _ _); [|by apply Runs_ret].
  unfold logits. refine (Runs_bind ws 0 _ _ (λ _, Mat (s_hidden s) z) _ _ _ _).
  { unfold z. destruct sel as [idx|]; [|by apply Runs_ret]. apply Runs_local. intros r _. unfold index_select. rewrite embedding_rows; [done|].
    rewrite Lh. by apply Hsel. }
  rewrite <-L3. unfold model_loaded. cbn [lm_head_]. apply column_runs; [done|by rewrite L3].
Qed.
End layers.


(** ** Examples *)

(** Integers; a score is an integer or minus infinity, and every score that is left has
    the weight one. *)
#[local] Instance toy_scalar : Scalar Z := {| s_zero := 0%Z; s_add := Z.add; s_mul := Z.mul |}.
#[local] Instance toy_scalar_laws : ScalarLaws Z.
Proof. split; cbn; [intros x y z; lia|intros x y; lia|intros x; lia]. Qed.
#[local] Instance toy_float : Scalar (option Z) :=
  {| s_zero := Some 0%Z; s_add := λ x y, a ← x; b ← y; Some (a + b)%Z; s_mul := λ x y, a ← x; b ← y; Some (a * b)%Z |}.
#[local] Instance toy_attn : AttnOps Z (option Z) := {|
  at_float := Some; at_cast x := default 0%Z x; at_of_nat := Z.of_nat; f_null := Some 0%Z; f_neg_inf := None;
  f_plus := s_add; f_times := s_mul; f_quot x y := a ← x; b ← y; Some (a / b)%Z; f_tanh x := x;
  f_positive x := bool_decide (0 < default 0 x)%Z;
  f_dot x y := Some (foldr Z.add 0%Z (zip_with (λ a b, (default 0 a * default 0 b)%Z) x y));
  f_softmax l := (λ x, match x with Some _ => Some 1%Z | None => Some 0%Z end) <$> l;
|}.
#[local] Instance toy_attn_laws : AttnLaws Z (option Z).
Proof.
  split; cbn.
  - intros l. apply length_fmap.
  - intros a b _. rewrite !fmap_app, fmap_cons, take_app_length', drop_app_length' by by rewrite length_fmap. done.
  - intros a b c v d Hl. f_equal. rewrite !zip_with_app by done. cbn. by rewrite !foldr_app.
Qed.
#[local] Instance toy_norm : NormOps Z (option Z) := {|
  nf_float := Some; nf_cast x := default 0%Z x; nf_product := Z.mul; nf_of_nat n := Some (Z.of_nat n); nf_one := Some 1%Z;
  nf_sub x y := a ← x; b ← y; Some (a - b)%Z; nf_div x y := a ← x; b ← y; Some (a / b)%Z; nf_square x := a ← x; Some (a * a)%Z;
  nf_sqrt x := Z.sqrt <$> x; nf_rsqrt x := (λ a, 1 + 6 / (1 + Z.sqrt a))%Z <$> x;
|}.
#[local] Instance toy_act : ActArith Z := {|
  act_zero := 0; act_half := 2; act_one := 1; act_root := 3; act_cubic := 1; act_add := Z.add; act_mul := Z.mul; act_div := Z.div; act_neg := Z.opp;
  torch_tanh := λ x, x; torch_pow3 := λ x, x * x * x; torch_gelu := λ x, x; torch_gelu_tanh := λ x, x;
  torch_relu := Z.max 0; torch_silu := λ x, x / (1 + Z.abs (- x)); tanh_opt := λ x, x; expf := Z.abs;
|}%Z.
#[local] Instance exact_names : TemplateLib := {| iequals := λ a b, bool_decide (a = b); strip_ascii_whitespace := λ t, t |}.
#[local] Instance toy_arith : Arith Z := {| r_zero := 0%Z; r_add := Z.add; r_sub := Z.sub; r_mul := Z.mul; r_neg := Z.opp |}.
#[local] Instance toy_angles : Angles Z Z := {| a_of_nat := Z.of_nat; a_mul := Z.mul; a_cos x := (1 - x)%Z; a_sin x := x; a_to x := x |}.

(** One layer with two query heads and one key head, in two files; two ranks. *)
Definition toy_shape : shape := mkShape 4 2 2 2 1 2.
Definition toy_matrix (k : Z) (n m : nat) : list (list Z) :=
  (λ i : nat, (λ j : nat, ((Z.of_nat i * 3 + Z.of_nat j * k) mod 5 - 2)%Z) <$> seq 0 m) <$> seq 0 n.
Definition toy_weights : model_weights Z :=
  mkModelWeights (toy_matrix 2 2 4)
    [mkLayerWeights (mkAttnWeights (toy_matrix 1 4 4) (toy_matrix 3 2 4) (toy_matrix 4 2 4) (toy_matrix 2 4 4))
       (mkMlpWeights (toy_matrix 3 2 4) (toy_matrix 1 2 4) (toy_matrix 4 4 2)) [1; 2; 1; 1]%Z [2; 1; 1; 2]%Z]
    [1; 1; 3; 1]%Z (toy_matrix 1 2 4).
Definition toy_file (l : list (string * Tensor Z)) : StateDict Z := mkStateDict (list_to_map (prod_map text_of (λ t, t) <$> l)) None [].
Definition toy_files : list (StateDict Z) := [
  toy_file [("model.layers.0.self_attn.q_proj.weight", Mat 4 (toy_matrix 1 4 4)); ("model.layers.0.self_attn.v_proj.weight", Mat 4 (toy_matrix 4 2 4));
    ("model.layers.0.mlp.gate_proj.weight", Mat 4 (toy_matrix 3 2 4)); ("model.layers.0.mlp.down_proj.weight", Mat 2 (toy_matrix 4 4 2));
    ("model.layers.0.input_layernorm.weight", Vec [1; 2; 1; 1]%Z); ("model.norm.weight", Vec [1; 1; 3; 1]%Z)];
  toy_file [("model.layers.0.self_attn.k_proj.weight", Mat 4 (toy_matrix 3 2 4)); ("model.layers.0.self_attn.o_proj.weight", Mat 4 (toy_matrix 2 4 4));
    ("model.layers.0.mlp.up_proj.weight", Mat 4 (toy_matrix 1 2 4)); ("model.layers.0.post_attention_layernorm.weight", Vec [2; 1; 1; 2]%Z);
    ("model.embed_tokens.weight", Mat 4 (toy_matrix 2 2 4)); ("lm_head.weight", Mat 4 (toy_matrix 1 2 4))]].
Definition toy_args : Args.ModelArgs := Args.mkModelArgs (text_of "llama") [] 4 [] 2 1 2 2 (Some 1%Z) 2 false (S754_zero false)
  (S754_zero false) 0 (float_of_Z 10000) [] (S754_zero false) (S754_zero false) (S754_zero false) 0 (float_of_Z 1) 0
  0 0 false None false false None false (S754_zero false) (S754_zero false) (S754_zero false) false false false
  false false [] false (-1) 0.
Definition toy_handler : RefHandler (option Z) Z :=
  mkRefHandler (Some 1%Z) (Some 0%Z) (Some (generic_module (RotaryEmbeddingGeneric_new 2 4 [1%Z] false))) None.
Definition toy_input : ModelInput := mkModelInput [] [] 0 0 0 [0; 2; 3]%Z [0; 2; 3]%Z [3; 0; 1]%Z [] [] None.
Definition toy_caches (r : nat) : list (KVCache (A := Z)) := [mkKVCache 2 2 (replicate 8 0%Z) (replicate 8 0%Z)].

Lemma toy_provides name t : Exists (λ d, dict_ d !! name = Some t) toy_files → Exists (λ d, dict_ d !! name = None) toy_files → tensor_ok t → provides toy_files name t.
Proof.
  assert (∀ d, d ∈ toy_files → transform_func_ d = None) as Hf by (intros d [->|[->|[]%not_elem_of_nil]%elem_of_cons]%elem_of_cons; done).
  unfold toy_files in *. intros Hs Hn Ht.
  set (d1 := toy_file _) in *. set (d2 := toy_file (("model.layers.0.self_attn.k_proj.weight", _) :: _)) in *.
  assert (transform_func_ d1 = None ∧ transform_func_ d2 = None) as [F1 F2] by done. clearbody d1 d2.
  rewrite !Exists_cons, Exists_nil in Hs. rewrite !Exists_cons, Exists_nil in Hn.
  destruct Hs as [Hs|[Hs|[]]], Hn as [Hn|[Hn|[]]]; try congruence.
  - exists [], d1, [d2]. by repeat constructor.
  - exists [d1], d2, []. by repeat constructor.
Qed.
#[local] Instance toy_module : AttentionModule (A := Z) (F := option Z) LlamaAttention := LlamaAttention_module (λ _, 7%Z).

Ltac toy_offers := repeat apply provides_select; apply toy_provides;
  [first [left; vm_compute; reflexivity|right; left; vm_compute; reflexivity]
  |first [left; vm_compute; reflexivity|right; left; vm_compute; reflexivity]|repeat constructor].

Lemma toy_model_files : model_files toy_shape toy_weights toy_files.
Proof.
  split; try done; try by toy_offers.
  intros [|i] V HV; [injection HV as <-|done]. split; try done; [split; try done|split; try done| |]; toy_offers.
Qed.
Lemma toy_serves : serves toy_handler (rotary_head (F := Z) false 1 [1%Z]) toy_shape toy_input [0; 1; 0] 4 [3; 0; 1] [2; 1].
Proof.
  split; [|done|].
  - do 2 eexists. split_and!; [done| |]; [apply (generic_headwise (F := Z) [1%Z] 4 false); cbn; lia|]. repeat constructor; lia.
  - split; [|done]. split; try done; [|repeat constructor; lia]. apply (bool_decide_unpack _). reflexivity.
Qed.
Lemma toy_caches_fit : all_fit toy_shape 2 4 0 1 toy_caches.
Proof. intros r j Hr Hj. assert (j = 0) as -> by lia. eexists. split; [done|]. split; [split; cbn; [lia|done|done]|done]. Qed.

