(* ===== verification/Quantization.v ===== *)
(** * Quantized weights

    [src/quantization/pack_utils.cpp]: quantized weights of a few bits are packed
    into words of 32 bits; here a tensor is the list of its rows.
    [src/quantization/qlinear_impl.*]: the parallel layers over packed weights, with
    the product that the classes define themselves, and the choice of a class in
    [src/layers/linear.cpp].  The products of the subclasses are CUDA kernels.  What
    the packed weights stand for is proved here, what the layers of several ranks
    compute in [QuantProps]. *)

From Stdlib Require Import Ascii PeanoNat.
From stdpp Require Import base tactics list gmap strings.
From S2P Require Import Prelude Types Tensor StateDict Linear LinearInv KernelProps ChatTemplate Attention AttentionProps Config Models ModelInv ModelProps.

(** ** Packing *)

(** [(1 << num_bits) - 1]. *)
Definition bit_mask (num_bits : Z) : Z := i32 (i32 (Z.shiftl 1 num_bits) - 1).

Definition pack_factor (num_bits : Z) : nat := Z.to_nat (32 `quot` num_bits).

(** The innermost loop of [pack_cols]: [k] is the place of the head. *)
Fixpoint pack_word (num_bits : Z) (k : nat) (ws : list Z) (packed_val : Z) : Z :=
  match ws with
  | [] => packed_val
  | w :: ws =>
      pack_word num_bits (S k) ws
        (Z.lor packed_val (i32 (Z.shiftl (Z.land w (bit_mask num_bits)) (num_bits * Z.of_nat k))))
  end.

(** One row: the loop over [j]. *)
Fixpoint pack_row (num_bits : Z) (n : nat) (row : list Z) : list Z :=
  match n with
  | 0 => []
  | S n =>
      pack_word num_bits 0 (take (pack_factor num_bits) row) 0 ::
      pack_row num_bits n (drop (pack_factor num_bits) row)
  end.

(** [pack_cols]. *)
Definition pack_cols {S} (num_bits : Z) (size_n : nat) (qweight : list (list Z)) : M S (list (list Z)) :=
  _ ← check (forallb (λ r, bool_decide (length r = size_n)) qweight) "qweight.dim() == 2";
  (* a division by zero *)
  _ ← (if decide (pack_factor num_bits = 0) then fail OutOfBounds else mret tt);
  _ ← check (bool_decide (size_n `mod` pack_factor num_bits = 0)) "size_n % pack_factor == 0";
  mret (pack_row num_bits (size_n / pack_factor num_bits) <$> qweight).

(** [unpack_cols]: a word, a row and the tensor; the shift keeps the sign. *)
Definition unpack_word (num_bits : Z) (packed_val : Z) : list Z :=
  (λ k, Z.land (Z.shiftr packed_val (num_bits * Z.of_nat k)) (bit_mask num_bits)) <$> seq 0 (pack_factor num_bits).
Definition unpack_row (num_bits : Z) (row : list Z) : list Z := concat (unpack_word num_bits <$> row).
Definition unpack_cols (num_bits : Z) (packed : list (list Z)) : list (list Z) := unpack_row num_bits <$> packed.

(** ** Bits *)

Lemma i32_testbit z i : (0 ≤ i < 32)%Z → Z.testbit (i32 z) i = Z.testbit z i.
Proof.
  intros Hi. rewrite <-(Z.mod_pow2_bits_low z 32 i), <-(Z.mod_pow2_bits_low (i32 z) 32 i) by lia. f_equal.
  unfold i32. rewrite Zminus_mod, Z.mod_mod, <-Zminus_mod by lia. f_equal. lia.
Qed.

Section pack.
Context (b : Z) (Hb : (0 < b ≤ 30)%Z).

Lemma bit_mask_ones : bit_mask b = Z.ones b.
Proof.
  assert (0 < 2 ^ b ≤ 2 ^ 30)%Z as H by (split; [apply Z.pow_pos_nonneg; lia|apply Z.pow_le_mono_r; lia]).
  unfold bit_mask, i32. rewrite Z.shiftl_1_l, Z.ones_equiv. rewrite (Z.mod_small (2 ^ b + 2 ^ 31)) by lia.
  replace (2 ^ b + 2 ^ 31 - 2 ^ 31)%Z with (2 ^ b)%Z by lia. rewrite Z.mod_small; lia.
Qed.

(** A weight of [b] bits at place [k] of a word. *)
Lemma field_testbit w k i : (0 ≤ i < 32)%Z →
  Z.testbit (i32 (Z.shiftl (Z.land w (bit_mask b)) (b * Z.of_nat k))) i =
  (b * Z.of_nat k <=? i)%Z && (i <? b * Z.of_nat (S k))%Z && Z.testbit w (i - b * Z.of_nat k).
Proof.
  intros Hi. rewrite i32_testbit, Z.shiftl_spec, Z.land_spec, bit_mask_ones by lia.
  destruct (Z.leb_spec (b * Z.of_nat k) i) as [H|H]; [|by rewrite Z.testbit_neg_r by lia].
  destruct (Z.ltb_spec i (b * Z.of_nat (S k))) as [H'|H'].
  - rewrite Z.ones_spec_low by lia. by rewrite andb_true_r.
  - rewrite Z.ones_spec_high by lia. by rewrite andb_false_r.
Qed.

(** The loop writes field [k + j] from weight [j] and keeps the fields before. *)
Lemma pack_word_testbit ws : ∀ k v i, (0 ≤ i < 32)%Z → (∀ i', (b * Z.of_nat k ≤ i')%Z → (i' < 32)%Z → Z.testbit v i' = false) →
  ∀ j w, ws !! j = Some w → (b * Z.of_nat (k + j) ≤ i < b * Z.of_nat (S (k + j)))%Z →
  Z.testbit (pack_word b k ws v) i = Z.testbit w (i - b * Z.of_nat (k + j)).
Proof.
  assert (∀ ws k v i, (0 ≤ i < 32)%Z → (i < b * Z.of_nat k)%Z → Z.testbit (pack_word b k ws v) i = Z.testbit v i) as Hkeep.
  { clear ws. induction ws as [|w ws IH]; intros k v i Hi Hk; [done|]. cbn [pack_word]. rewrite IH by lia.
    rewrite Z.lor_spec, field_testbit by done. rewrite (proj2 (Z.leb_gt _ _)) by lia. by rewrite orb_false_r. }
  induction ws as [|w0 ws IH]; intros k v i Hi Hv [|j] w Hj Hr; simplify_eq/=.
  - rewrite Nat.add_0_r in *. rewrite Hkeep by lia. rewrite Z.lor_spec, field_testbit, Hv by lia.
    rewrite (proj2 (Z.leb_le _ _)), (proj2 (Z.ltb_lt _ _)) by lia. done.
  - rewrite <-Nat.add_succ_comm in *. apply IH; try done. intros i' Hi1 Hi2.
    rewrite Z.lor_spec, field_testbit, Hv by lia. rewrite (proj2 (Z.ltb_ge _ _)) by lia. by rewrite andb_false_r.
Qed.

Lemma factor_bits k : k < pack_factor b → (b * Z.of_nat (S k) ≤ 32)%Z.
Proof.
  unfold pack_factor. intros H. assert (Z.of_nat (S k) ≤ 32 `quot` b)%Z as H' by lia.
  pose proof (Z.mul_quot_le 32 b ltac:(lia) ltac:(lia)). nia.
Qed.

Lemma pack_factor_pos : pack_factor b ≠ 0.
Proof using Hb. unfold pack_factor. pose proof (Z.quot_le_mono 1 1 1). assert (1 ≤ 32 `quot` b)%Z by (apply Z.quot_le_lower_bound; lia). lia. Qed.

(** A word gives back its weights. *)
Lemma unpack_pack_word ws : length ws = pack_factor b → Forall (λ w, 0 ≤ w < 2 ^ b)%Z ws →
  unpack_word b (pack_word b 0 ws 0) = ws.
Proof.
  intros Hl Hw. apply list_eq. intros k. unfold unpack_word. rewrite list_lookup_fmap, <-Hl.
  destruct (ws !! k) as [w|] eqn:Hk.
  2: { apply lookup_ge_None in Hk. by rewrite lookup_seq_ge. }
  pose proof (lookup_lt_Some _ _ _ Hk) as Hlt. rewrite lookup_seq_lt by done. simpl. f_equal.
  pose proof (factor_bits k ltac:(lia)) as Hf. rewrite Forall_lookup in Hw. specialize (Hw _ _ Hk).
  apply Z.bits_inj'. intros r Hr. rewrite Z.land_spec, bit_mask_ones, Z.shiftr_spec by lia.
  destruct (decide (r < b)%Z) as [H|H].
  - rewrite Z.ones_spec_low, andb_true_r by lia. rewrite (pack_word_testbit ws 0 0) with (j := k) (w := w); try done; try lia.
    + f_equal. simpl. lia.
    + intros. apply Z.bits_0.
  - rewrite Z.ones_spec_high, andb_false_r by lia. symmetry. destruct (decide (w = 0)%Z) as [->|]; [apply Z.bits_0|].
    apply Z.bits_above_log2; [lia|]. apply Z.log2_lt_pow2; [lia|]. apply (Z.lt_le_trans _ (2 ^ b)); [lia|apply Z.pow_le_mono_r; lia].
Qed.

Lemma pack_row_length n : ∀ row, length (pack_row b n row) = n.
Proof. induction n as [|n IH]; intros row; cbn; [done|by rewrite IH]. Qed.

Lemma unpack_pack_row n : ∀ row, length row = n * pack_factor b → Forall (λ w, 0 ≤ w < 2 ^ b)%Z row →
  unpack_row b (pack_row b n row) = row.
Proof.
  induction n as [|n IH]; intros row Hl Hw; [by destruct row|]. unfold unpack_row in *. cbn [pack_row fmap list_fmap concat].
  simpl in Hl. rewrite unpack_pack_word; [|rewrite length_take; lia|by apply Forall_take].
  rewrite IH; [apply take_drop|rewrite length_drop; lia|by apply Forall_drop].
Qed.
End pack.

(** Packing and unpacking: for weights of at most 30 bits, a tensor whose rows
    hold a whole number of words and whose entries fit the width is packed without
    failing, and unpacking gives the tensor back, though the words are signed and the
    shift to the right copies the sign. *)
Lemma pack_then_unpack {S} (s : S) b n qweight : (0 < b ≤ 30)%Z → n `mod` pack_factor b = 0 →
  Forall (λ row, length row = n ∧ Forall (λ w, 0 ≤ w < 2 ^ b)%Z row) qweight →
  ∃ packed, pack_cols b n qweight s = Ok (packed, s) ∧ unpack_cols b packed = qweight ∧
    Forall (λ row, length row = n / pack_factor b) packed.
Proof.
  intros Hb Hn Hq. pose proof (pack_factor_pos b Hb) as Hf. eexists.
  assert (forallb (λ r, bool_decide (length r = n)) qweight = true) as Hrows.
  { apply forallb_forall. intros r Hr. rewrite Forall_forall in Hq. by apply bool_decide_eq_true, Hq, list_elem_of_In. }
  unfold pack_cols, check. rewrite Hrows, decide_False, bool_decide_true by done.
  split; [done|]. pose proof (Nat.div_mod_eq n (pack_factor b)) as Hd. split.
  - unfold unpack_cols. rewrite <-list_fmap_compose. rewrite <-(list_fmap_id qweight) at 2.
    apply list_fmap_ext. intros i row Hi. rewrite Forall_lookup in Hq. destruct (Hq _ _ Hi) as [Hl Hw].
    apply unpack_pack_row; [done|rewrite Hl, Hd at 1; rewrite Hn; lia|done].
  - apply Forall_fmap, Forall_true. intros. apply pack_row_length.
Qed.

Lemma pack_then_unpack_example :
  ∃ packed, pack_cols 4 8 [[15; 1; 2; 3; 4; 5; 6; 9]; [0; 0; 0; 0; 0; 0; 0; 8]]%Z tt = Ok (packed, tt) ∧
    unpack_cols 4 packed = [[15; 1; 2; 3; 4; 5; 6; 9]; [0; 0; 0; 0; 0; 0; 0; 8]]%Z ∧ Forall (λ row, length row = 1) packed.
Proof. apply (pack_then_unpack tt 4 8); [lia|done|]. repeat constructor; simpl; lia. Defined.

(** ** The layers *)

(** A tensor of 32-bit integers holds elements with an integer value; [of_int] is the
    conversion of a small integer to the type of the scales. *)
Class IntElem (A : Type) := { int_of : A → Z; of_int : Z → A }.

(** The conversions to [int8_t] and [int16_t]. *)
Definition i8 (z : Z) : Z := ((z + 2 ^ 7) `mod` 2 ^ 8 - 2 ^ 7)%Z.
Definition i16 (z : Z) : Z := ((z + 2 ^ 15) `mod` 2 ^ 16 - 2 ^ 15)%Z.

Section qlinear.
Context {A : Type} `{Scalar A} `{IntElem A} (memory : nat → A).

(** *** detail::construct_weights *)

Definition bits_supported (bits : Z) : bool := bool_decide (bits = 2)%Z || bool_decide (bits = 4)%Z || bool_decide (bits = 8)%Z.
Definition to_dtype (bits z : Z) : Z := if decide (bits = 8)%Z then i16 z else i8 z.
Definition bits_to_shift (bits : Z) : list Z := (λ k, bits * Z.of_nat k)%Z <$> seq 0 (pack_factor bits).
(** [bitwise_right_shift(...).to(dtype)] and [bitwise_and_(mask)]. *)
Definition shifted (bits : Z) (v : A) (shift : Z) : Z := Z.land (to_dtype bits (Z.shiftr (int_of v) shift)) (2 ^ bits - 1)%Z.

(** The rows of the zeros, and the rows of the weights. *)
Definition unpack_zeros (bits : Z) (qzeros : list (list A)) : list (list Z) :=
  (λ row : list A, row ≫= λ v, (λ s, to_dtype bits (shifted bits v s + 1)%Z) <$> bits_to_shift bits) <$> qzeros.
Definition unpack_weights (bits : Z) (qweights : list (list A)) : list (list Z) :=
  qweights ≫= λ row : list A, (λ s, (λ v, shifted bits v s) <$> row) <$> bits_to_shift bits.

(** [reshape] to [n] rows of [c] elements. *)
Definition reshape_rows {S B} (n c : nat) (rows : list (list B)) : M S (list (list B)) :=
  _ ← check (bool_decide (length (concat rows) = n * c)) "shape is invalid for input of size";
  mret (unflatten c n (concat rows)).

(** [scales * (weights - zeros)] on a row. *)
Definition scale_row (bits : Z) (scales : list A) (weights zeros : list Z) : list A :=
  zip_with (λ s p, s_mul s (of_int (to_dtype bits (p.1 - p.2)%Z))) scales (zip weights zeros).

(** With the groups in the order of the rows: the [int64_t] division gives the rows of
    a group, [-1] in the reshape. *)
Definition construct_weights {S} (qweights qzeros scales : Tensor A) (bits : Z) : M S (Tensor A) :=
  _ ← check (bits_supported bits) "Only 2,4,8 bits are supported";
  match qweights, qzeros, scales with
  | Mat _ qw, Mat _ qz, Mat c sc =>
      zeros ← reshape_rows (length sc) c (unpack_zeros bits qz);
      let weights := unpack_weights bits qw in
      group_size ← div_size (length (concat weights)) (length sc * c);
      weights ← reshape_rows (length sc * group_size) c weights;
      mret (Mat c (imap (λ i w, scale_row bits (default [] (sc !! (i / group_size))) w (default [] (zeros !! (i / group_size)))) weights))
  | _, _, _ => fail (CheckFailed "Dimension out of range")
  end.

(** An operation on two matrices, broadcast to a common shape. *)
Definition zip_matrices {S B} (f : B → B → B) (xs ys : list (list B)) : M S (list (list B)) :=
  '(xs, ys) ← broadcast xs ys;
  map_each (zip_rows f) (zip xs ys).
(** With the group of every row; [index] with a tensor checks its range. *)
Definition construct_weights_indexed {S} (qweights qzeros scales : Tensor A) (g_idx : list nat) (bits : Z) : M S (Tensor A) :=
  _ ← check (bits_supported bits) "Only 2,4,8 bits are supported";
  match qweights, qzeros, scales with
  | Mat d qw, Mat _ qz, Mat c sc =>
      zeros ← reshape_rows (length sc) c (unpack_zeros bits qz);
      let weights := unpack_weights bits qw in
      gathered_zeros ← map_each (λ g, from_option_or OutOfBounds (zeros !! g)) g_idx;
      differences ← zip_matrices (λ w z, to_dtype bits (w - z)%Z) weights gathered_zeros;
      gathered_scales ← map_each (λ g, from_option_or OutOfBounds (sc !! g)) g_idx;
      weights ← zip_matrices s_mul gathered_scales (map of_int <$> differences);
      mret (Mat (if decide (c = 1) then d else c) weights)
  | _, _, _ => fail (CheckFailed "Dimension out of range")
  end.

(** *** ColumnParallelQLinearImpl and RowParallelQLinearImpl *)

(** The two layers have the same members but for the flag: [gather_output_] or
    [input_is_parallelized_]. *)
Record QLinear := mkQLinear {
  qweight_ : Weight A;
  qzeros_ : Weight A;
  scales_ : Weight A;
  q_bias_ : option (Weight A);
  bits_ : Z;
  q_flag_ : bool;
  q_rank_ : nat;
  q_world_size_ : nat;
}.

(** [32 / bits]; for negative bits the sizes are negative. *)
Definition ints_per_word {S} (bits : Z) : M S nat := if decide (bits ≤ 0)%Z then fail OutOfBounds else mret (pack_factor bits).
Definition group_size_of (q : Quant.QuantArgs) (in_features : nat) : nat :=
  if decide (0 < Quant.group_size q)%Z then Z.to_nat (Quant.group_size q) else in_features.
(** [round_up]: the number of groups. *)
Definition round_up {S} (num multiple : nat) : M S nat := div_size (num + multiple - 1) multiple.

(** The tensors of a layer with weights of [in_features] rows and [out_features] columns. *)
Definition fresh_qlinear {S} (in_features out_features group_size : nat) (bias flag : bool) (bits : Z) (qweight_pack_dim rank world_size : nat) : M S QLinear :=
  pack_factor ← ints_per_word bits;
  qweight ← (if decide (qweight_pack_dim = 0)
             then n ← div_size in_features pack_factor; mret (empty_mat memory n out_features)
             else n ← div_size out_features pack_factor; mret (empty_mat memory in_features n));
  n_groups ← round_up in_features group_size;
  n ← div_size out_features pack_factor;
  mret (mkQLinear (fresh_weight qweight) (fresh_weight (empty_mat memory n_groups n)) (fresh_weight (empty_mat memory n_groups out_features))
          (if bias then Some (fresh_weight (empty_vec memory out_features)) else None) bits flag rank world_size).

Definition pack_dim_ok {S} (qweight_pack_dim : nat) : M S unit :=
  check (bool_decide (qweight_pack_dim = 0) || bool_decide (qweight_pack_dim = 1)) "qweight_pack_dim must be 0 or 1".
Definition ColumnParallelQLinear_new {S} (in_features out_features : nat) (bias : bool) (q : Quant.QuantArgs) (qweight_pack_dim : nat)
    (gather_output : bool) (p : ParallelArgs) : M S QLinear :=
  _ ← pack_dim_ok qweight_pack_dim;
  _ ← divisible out_features (world_size p) "out_features not divisible by world_size";
  fresh_qlinear in_features (out_features / world_size p) (group_size_of q in_features) bias gather_output (Quant.bits q) qweight_pack_dim
    (rank p) (world_size p).
Definition RowParallelQLinear_new {S} (in_features out_features : nat) (bias : bool) (q : Quant.QuantArgs) (qweight_pack_dim : nat)
    (input_is_parallelized : bool) (p : ParallelArgs) : M S QLinear :=
  _ ← pack_dim_ok qweight_pack_dim;
  _ ← divisible in_features (world_size p) "in_features not divisible by world_size";
  fresh_qlinear (in_features / world_size p) out_features (group_size_of q in_features) bias input_is_parallelized (Quant.bits q) qweight_pack_dim
    (rank p) (world_size p).

(** [torch::matmul(input, weights)]: [F::linear] with the transposed weights. *)
Definition transposed (c : nat) (rows : list (list A)) : list (list A) := (λ j, (λ row, default s_zero (row !! j)) <$> rows) <$> seq 0 c.
Definition matmul {S} (input weights : Tensor A) : M S (Tensor A) :=
  match weights with
  | Mat c rows => linear input (Mat (length rows) (transposed c rows)) None
  | Vec _ => fail (CheckFailed "matmul")
  end.
Definition quant_matmul {S} (l : QLinear) (input : Tensor A) : M S (Tensor A) :=
  weights ← construct_weights (w_tensor (qweight_ l)) (w_tensor (qzeros_ l)) (w_tensor (scales_ l)) (bits_ l);
  matmul input weights.

(** [forward]. *)
Definition q_add_bias {S} (l : QLinear) (output : Tensor A) : M S (Tensor A) :=
  match q_bias_ l with Some b => add_bias output (w_tensor b) | None => mret output end.
Definition column_q_forward (l : QLinear) (input : Tensor A) : Spmd A (Tensor A) :=
  output ← local (output ← quant_matmul l input; q_add_bias l output);
  if decide (1 < q_world_size_ l) then
    if q_flag_ l then gather_from_model_parallel_region (q_world_size_ l) output else mret output
  else mret output.
Definition row_q_forward (l : QLinear) (input : Tensor A) : Spmd A (Tensor A) :=
  input ← (if q_flag_ l then mret input else local (scatter_to_model_parallel_region (q_rank_ l) (q_world_size_ l) input));
  output ← local (quant_matmul l input);
  output ← (if decide (1 < q_world_size_ l) then reduce_from_model_parallel_region (q_world_size_ l) output else mret output);
  (* the bias is applied after the reduce *)
  local (q_add_bias l output).

(** Loading the members. *)
Definition qweight_name : text := text_of "qweight".
Definition qzeros_name : text := text_of "qzeros".
Definition scales_name : text := text_of "scales".
Definition on_qweight (m : M (Weight A) unit) : M QLinear unit :=
  zoom qweight_ (λ w l, mkQLinear w (qzeros_ l) (scales_ l) (q_bias_ l) (bits_ l) (q_flag_ l) (q_rank_ l) (q_world_size_ l)) m.
Definition on_qzeros (m : M (Weight A) unit) : M QLinear unit :=
  zoom qzeros_ (λ w l, mkQLinear (qweight_ l) w (scales_ l) (q_bias_ l) (bits_ l) (q_flag_ l) (q_rank_ l) (q_world_size_ l)) m.
Definition on_scales (m : M (Weight A) unit) : M QLinear unit :=
  zoom scales_ (λ w l, mkQLinear (qweight_ l) (qzeros_ l) w (q_bias_ l) (bits_ l) (q_flag_ l) (q_rank_ l) (q_world_size_ l)) m.
Definition on_q_bias (m : M (Weight A) unit) : M QLinear unit :=
  l ← get;
  match q_bias_ l with
  | None => mret tt
  | Some b => zoom (λ _, b) (λ b l, mkQLinear (qweight_ l) (qzeros_ l) (scales_ l) (Some b) (bits_ l) (q_flag_ l) (q_rank_ l) (q_world_size_ l)) m
  end.

(** [ColumnParallelQLinearImpl::load_state_dict], the two overloads. *)
Definition column_q_load (d : StateDict A) : M QLinear unit :=
  l ← get;
  _ ← on_qweight (load_sharded_weight d qweight_name 1 (q_rank_ l) (q_world_size_ l));
  _ ← on_qzeros (load_sharded_weight d qzeros_name 1 (q_rank_ l) (q_world_size_ l));
  _ ← on_scales (load_sharded_weight d scales_name 1 (q_rank_ l) (q_world_size_ l));
  on_q_bias (load_sharded_weight d bias_name 0 (q_rank_ l) (q_world_size_ l)).
Definition column_q_load_fused (d : StateDict A) (prefixes : list text) : M QLinear unit :=
  l ← get;
  _ ← on_qweight (load_fused_weight d prefixes qweight_name 1 (q_rank_ l) (q_world_size_ l));
  _ ← on_qzeros (load_fused_weight d prefixes qzeros_name 1 (q_rank_ l) (q_world_size_ l));
  _ ← on_scales (load_fused_weight d prefixes scales_name 1 (q_rank_ l) (q_world_size_ l));
  on_q_bias (load_fused_weight d prefixes bias_name 0 (q_rank_ l) (q_world_size_ l)).

(** [RowParallelQLinearImpl::load_state_dict]. *)
Definition row_q_load (d : StateDict A) : M QLinear unit :=
  l ← get;
  _ ← on_qweight (load_sharded_weight d qweight_name 0 (q_rank_ l) (q_world_size_ l));
  _ ← on_qzeros (load_sharded_weight d qzeros_name 0 (q_rank_ l) (q_world_size_ l));
  _ ← on_scales (load_sharded_weight d scales_name 0 (q_rank_ l) (q_world_size_ l));
  on_q_bias (load_weight d bias_name).

(** [verify_loaded_weights]. *)
Definition q_verify {S} (l : QLinear) : M S unit :=
  _ ← check (w_is_loaded (qweight_ l)) "qweight is not loaded";
  _ ← check (w_is_loaded (qzeros_ l)) "qzeros is not loaded";
  _ ← check (w_is_loaded (scales_ l)) "scales is not loaded";
  check (match q_bias_ l with None => true | Some b => w_is_loaded b end) "bias is not loaded".
End qlinear.
Arguments QLinear : clear implicits.

(** *** The choice of a class *)

Inductive QImpl := QLinearSlow | QLinearGPTQ | QLinearExllamav2 | QLinearGPTQMarlin | QLinearAWQMarlin.
#[global] Instance QImpl_eq_dec : EqDecision QImpl.
Proof. solve_decision. Defined.

Section choice.
Context {tl : TemplateLib}.

(** [create_column_parallel_qlinear_by_impl], the same for the rows. *)
Definition qlinear_by_impl (FLAGS_qlinear_gptq_impl : text) : option QImpl :=
  if iequals FLAGS_qlinear_gptq_impl (text_of "slow") then Some QLinearSlow
  else if iequals FLAGS_qlinear_gptq_impl (text_of "cuda") then Some QLinearGPTQ
  else if iequals FLAGS_qlinear_gptq_impl (text_of "exllamav2") then Some QLinearExllamav2
  else if iequals FLAGS_qlinear_gptq_impl (text_of "marlin") then Some QLinearGPTQMarlin
  else None.

(** [create_column_parallel_qlinear] and [create_column_parallel_linear], the same for
    the rows; [None] is the layer without quantization. *)
Definition choose_qlinear {S} (FLAGS_qlinear_gptq_impl : text) (q : Quant.QuantArgs) : M S QImpl :=
  match qlinear_by_impl FLAGS_qlinear_gptq_impl with
  | Some impl => mret impl
  | None =>
      if iequals (Quant.quant_method q) (text_of "gptq") then mret QLinearGPTQMarlin
      else if iequals (Quant.quant_method q) (text_of "awq") || iequals (Quant.quant_method q) (text_of "GEMM") then mret QLinearAWQMarlin
      else fail (CheckFailed "Unsupported quant method")
  end.
Definition choose_linear {S} (FLAGS_qlinear_gptq_impl : text) (q : Quant.QuantArgs) : M S (option QImpl) :=
  if decide (Quant.quant_method q ≠ []) then impl ← choose_qlinear FLAGS_qlinear_gptq_impl q; mret (Some impl) else mret None.
End choice.

(** ** What the layers compute *)

Lemma to_dtype_land bits z : bits_supported bits = true → Z.land (to_dtype bits z) (2 ^ bits - 1) = Z.land z (Z.ones bits).
Proof.
  assert (∀ w x i, (0 ≤ i < w)%Z → Z.testbit ((x + 2 ^ (w - 1)) `mod` 2 ^ w - 2 ^ (w - 1)) i = Z.testbit x i) as Hw.
  { intros w x i Hi. rewrite <-(Z.mod_pow2_bits_low _ w i), <-(Z.mod_pow2_bits_low x w i) by lia. f_equal.
    rewrite Zminus_mod, Z.mod_mod, <-Zminus_mod by lia. f_equal. lia. }
  intros Hb. assert (bits = 2 ∨ bits = 4 ∨ bits = 8)%Z as Hc.
  { unfold bits_supported in Hb. apply orb_true_iff in Hb as [[Hb|Hb]%orb_true_iff|Hb]; apply bool_decide_eq_true in Hb; auto. }
  replace (2 ^ bits - 1)%Z with (Z.ones bits) by (rewrite Z.ones_equiv; lia).
  apply Z.bits_inj'. intros i Hi. rewrite !Z.land_spec. destruct (decide (i < bits)%Z) as [Hlt|Hge].
  - f_equal. unfold to_dtype. case_decide as H8; [apply (Hw 16%Z); lia|apply (Hw 8%Z); lia].
  - rewrite Z.ones_spec_high by lia. by rewrite !andb_false_r.
Qed.

Lemma supported_bits bits : bits_supported bits = true → (0 < bits ≤ 8)%Z ∧ pack_factor bits ≠ 0.
Proof.
  intros Hb. unfold bits_supported in Hb. apply orb_true_iff in Hb as [[Hb|Hb]%orb_true_iff|Hb]; apply bool_decide_eq_true in Hb as ->; (split; [lia|done]).
Qed.
Lemma to_dtype_small bits z : bits_supported bits = true → (- 2 ^ bits ≤ z ≤ 2 ^ bits)%Z → to_dtype bits z = z.
Proof.
  intros Hb. unfold bits_supported in Hb. unfold to_dtype, i8, i16.
  apply orb_true_iff in Hb as [[Hb|Hb]%orb_true_iff|Hb]; apply bool_decide_eq_true in Hb as ->; cbn [decide]; intros Hz;
    case_decide; try done; rewrite Z.mod_small; lia.
Qed.

Section dequantize.
Context {A : Type} `{Scalar A} `{IntElem A} (bits : Z) (Hbits : bits_supported bits = true).
Implicit Types (qw qz sc w : list (list A)).
Abbreviation pf := (pack_factor bits).

(** Number [k] of a word, as [unpack_cols] reads it, and an element of a matrix. *)
Definition code (v : A) (k : nat) : Z := default 0%Z (unpack_word bits (int_of v) !! k).
Definition entry (rows : list (list A)) (i j : nat) : A := default s_zero (default [] (rows !! i) !! j).

Lemma code_range v k : (0 ≤ code v k < 2 ^ bits)%Z.
Proof using Hbits.
  destruct (supported_bits _ Hbits) as [Hb _]. unfold code, unpack_word. rewrite list_lookup_fmap.
  destruct (seq 0 _ !! k) as [j|]; cbn; [|lia]. rewrite bit_mask_ones by lia. rewrite Z.land_ones by lia. apply Z.mod_pos_bound. lia.
Qed.
Lemma shifted_code v k : k < pf → shifted bits v (bits * Z.of_nat k) = code v k.
Proof using Hbits.
  intros Hk. destruct (supported_bits _ Hbits) as [Hb _]. unfold code, unpack_word. rewrite list_lookup_fmap, lookup_seq_lt by done. cbn.
  unfold shifted. rewrite to_dtype_land by done. by rewrite bit_mask_ones by lia.
Qed.

(** The layout of a packed weight with [n] rows and [c] columns in [G] groups. *)
Record packed (n c G : nat) qw qz sc : Prop := {
  pk_words : length qw * pf = n;
  pk_qw : Forall (λ r, length r = c) qw;
  pk_groups : G ≠ 0 ∧ n `mod` G = 0;
  pk_zeros : length qz = G ∧ Forall (λ r, length r * pf = c) qz;
  pk_scales : length sc = G ∧ Forall (λ r, length r = c) sc;
}.

(** The weights: [scale * (q - (z + 1))] with the scale and the zero of the group. *)
Definition weight_at (n G : nat) qw qz sc (i j : nat) : A :=
  let g := i / (n / G) in
  s_mul (entry sc g j) (of_int (code (entry qw (i / pf) j) (i `mod` pf) - (code (entry qz g (j / pf)) (j `mod` pf) + 1))%Z).
Definition dequantized (n c G : nat) qw qz sc : list (list A) := (λ i, weight_at n G qw qz sc i <$> seq 0 c) <$> seq 0 n.
End dequantize.

Section construct.
Context {A : Type} `{Scalar A} `{IntElem A} (bits : Z) (Hbits : bits_supported bits = true).
Implicit Types (qw qz sc : list (list A)).
Abbreviation pf := (pack_factor bits).

Lemma reshape_rows_ok {S B} n c (rows : list (list B)) (s : S) : Forall (λ r, length r = c) rows → length rows = n →
  reshape_rows n c rows s = Ok (rows, s).
Proof.
  intros Hw <-. unfold reshape_rows, mbind, M_bind, check. rewrite (concat_length c) by done. rewrite bool_decide_true by done.
  cbn [mret M_ret]. by rewrite unflatten_concat.
Qed.

Lemma entry_lookup (rows : list (list A)) c i j : Forall (λ r, length r = c) rows → i < length rows → j < c →
  rows !! i ≫= (λ r, r !! j) = Some (entry rows i j).
Proof.
  intros Hw Hi Hj. unfold entry. destruct (lookup_lt_is_Some_2 rows i Hi) as [r Hr]. rewrite Hr. cbn.
  pose proof (Forall_lookup_1 _ _ _ _ Hw Hr) as Hl. cbn in Hl. destruct (lookup_lt_is_Some_2 r j) as [x Hx]; [lia|]. by rewrite Hx.
Qed.

Lemma div_mod_pf i : i = i / pf * pf + i `mod` pf ∧ i `mod` pf < pf.
Proof using Hbits. destruct (supported_bits _ Hbits) as [_ Hp]. pose proof (Nat.div_mod_eq i pf). pose proof (Nat.mod_upper_bound i pf Hp). lia. Qed.

Lemma zeros_rows n c G qw qz sc : packed bits n c G qw qz sc →
  unpack_zeros bits qz = (λ g, (λ j, code bits (entry qz g (j / pf)) (j `mod` pf) + 1)%Z <$> seq 0 c) <$> seq 0 G.
Proof using Hbits.
  intros [_ _ _ [HG Hz] _]. destruct (supported_bits _ Hbits) as [Hb Hp]. unfold unpack_zeros. apply list_eq. intros g.
  rewrite !list_lookup_fmap. destruct (decide (g < G)) as [Hg|Hg]; [|by rewrite lookup_seq_ge, lookup_ge_None_2 by lia].
  rewrite seq0_lookup by done. destruct (lookup_lt_is_Some_2 qz g) as [row Hrow]; [lia|]. rewrite Hrow. cbn [fmap option_fmap option_map]. f_equal.
  pose proof (Forall_lookup_1 _ _ _ _ Hz Hrow) as Hl. cbn in Hl.
  assert (∀ v : A, length ((λ s, to_dtype bits (shifted bits v s + 1)%Z) <$> bits_to_shift bits) = pf) as Hc
    by (intros v; unfold bits_to_shift; by rewrite !length_fmap, length_seq).
  apply list_eq. intros j. rewrite list_lookup_fmap. destruct (decide (j < c)) as [Hj|Hj].
  2:{ rewrite lookup_seq_ge by lia. apply lookup_ge_None_2. rewrite (bind_const_length pf) by done. nia. }
  rewrite seq0_lookup by done. destruct (div_mod_pf j) as [Ej Hm]. rewrite Ej at 1. rewrite (lookup_bind_const pf) by done.
  destruct (lookup_lt_is_Some_2 row (j / pf)) as [v Hv]; [apply Nat.Div0.div_lt_upper_bound; lia|]. rewrite Hv. cbn [mbind option_bind]. unfold bits_to_shift.
  rewrite !list_lookup_fmap, seq0_lookup by done. cbn [fmap option_fmap option_map]. f_equal. rewrite shifted_code by done.
  pose proof (code_range bits Hbits v (j `mod` pf)). rewrite to_dtype_small by (done || lia). unfold entry. rewrite Hrow. cbn [from_option id]. by rewrite Hv.
Qed.

Lemma weights_rows n c G qw qz sc : packed bits n c G qw qz sc →
  unpack_weights bits qw = (λ i, (λ j, code bits (entry qw (i / pf) j) (i `mod` pf)) <$> seq 0 c) <$> seq 0 n.
Proof using Hbits.
  intros [Hn Hw _ _ _]. destruct (supported_bits _ Hbits) as [Hb Hp]. unfold unpack_weights. apply list_eq. intros i.
  assert (∀ row : list A, length ((λ s, (λ v, shifted bits v s) <$> row) <$> bits_to_shift bits) = pf) as Hc
    by (intros row; unfold bits_to_shift; by rewrite !length_fmap, length_seq).
  rewrite list_lookup_fmap. destruct (decide (i < n)) as [Hi|Hi].
  2:{ rewrite lookup_seq_ge by lia. apply lookup_ge_None_2. rewrite (bind_const_length pf) by done. nia. }
  rewrite seq0_lookup by done. destruct (div_mod_pf i) as [Ei Hm]. rewrite Ei at 1. rewrite (lookup_bind_const pf) by done.
  destruct (lookup_lt_is_Some_2 qw (i / pf)) as [row Hrow]; [apply Nat.Div0.div_lt_upper_bound; lia|]. rewrite Hrow. cbn [mbind option_bind]. unfold bits_to_shift.
  rewrite !list_lookup_fmap, seq0_lookup by done. cbn [fmap option_fmap option_map]. f_equal.
  pose proof (Forall_lookup_1 _ _ _ _ Hw Hrow) as Hl. cbn in Hl. apply list_eq. intros j. rewrite !list_lookup_fmap.
  destruct (decide (j < c)) as [Hj|Hj]; [|by rewrite lookup_seq_ge, lookup_ge_None_2 by lia].
  rewrite seq0_lookup by done. destruct (lookup_lt_is_Some_2 row j) as [v Hv]; [lia|]. rewrite Hv. cbn. f_equal.
  rewrite shifted_code by done. unfold entry. rewrite Hrow. cbn [from_option id]. by rewrite Hv.
Qed.

(** A row of the weights in group [g]. *)
Lemma difference_small v v' k k' : to_dtype bits (code bits v k - (code bits v' k' + 1))%Z = (code bits v k - (code bits v' k' + 1))%Z.
Proof using Hbits. pose proof (code_range bits Hbits v k). pose proof (code_range bits Hbits v' k'). apply to_dtype_small; [done|lia]. Qed.

Lemma construct_weights_ok {S} n c G qw qz sc d d' (s : S) : 0 < c → packed bits n c G qw qz sc →
  construct_weights (Mat d qw) (Mat d' qz) (Mat c sc) bits s = Ok (Mat c (dequantized bits n c G qw qz sc), s).
Proof using Hbits.
  intros Hc Hpk. pose proof Hpk as [Hn Hw [HG Hm] [Hz1 Hz2] [Hs1 Hs2]]. unfold construct_weights, mbind, M_bind, check. rewrite Hbits. cbn [mret M_ret].
  rewrite (zeros_rows n c G qw qz sc), (weights_rows n c G qw qz sc) by done. rewrite Hs1.
  set (zs := (λ g, _) <$> seq 0 G). set (wt := (λ i, _) <$> seq 0 n).
  assert (Forall (λ r, length r = c) zs) as Wz by (apply Forall_fmap, Forall_true; intros g; cbn; by rewrite length_fmap, length_seq).
  assert (Forall (λ r, length r = c) wt) as Ww by (apply Forall_fmap, Forall_true; intros i; cbn; by rewrite length_fmap, length_seq).
  assert (length wt = n) as Lw by (unfold wt; by rewrite length_fmap, length_seq).
  rewrite reshape_rows_ok by (done || (unfold zs; by rewrite length_fmap, length_seq)).
  rewrite (concat_length c wt) by done. rewrite Lw. unfold div_size. rewrite decide_False by nia. cbn [mret M_ret].
  rewrite Nat.Div0.div_mul_cancel_r by lia.
  assert (n = G * (n / G)) as En by (pose proof (Nat.div_mod_eq n G); lia). rewrite reshape_rows_ok by (done || lia).
  unfold mret, M_ret. do 3 f_equal. unfold dequantized. apply list_eq. intros i. rewrite list_lookup_imap, list_lookup_fmap. unfold wt. rewrite list_lookup_fmap.
  destruct (decide (i < n)) as [Hi|Hi]; [|by rewrite lookup_seq_ge by lia]. rewrite seq0_lookup by done. cbn [fmap option_fmap option_map].
  assert (i / (n / G) < G) as Hg by (apply Nat.Div0.div_lt_upper_bound; lia). f_equal. set (g := i / (n / G)) in *.
  assert (zs !! g = Some ((λ j, code bits (entry qz g (j / pf)) (j `mod` pf) + 1)%Z <$> seq 0 c)) as Ez.
  { unfold zs. by rewrite list_lookup_fmap, seq0_lookup by done. }
  rewrite Ez. destruct (lookup_lt_is_Some_2 sc g) as [ss Hss]; [lia|]. rewrite Hss. cbn [from_option id].
  pose proof (Forall_lookup_1 _ _ _ _ Hs2 Hss) as Hl. cbn in Hl. unfold scale_row. apply list_eq. intros j.
  rewrite lookup_zip_with, list_lookup_fmap, lookup_zip_with, !list_lookup_fmap.
  destruct (decide (j < c)) as [Hj|Hj]; [|rewrite (lookup_ge_None_2 ss) by lia; by rewrite lookup_seq_ge by lia].
  rewrite seq0_lookup by done. destruct (lookup_lt_is_Some_2 ss j) as [x Hx]; [lia|]. rewrite Hx. cbn. unfold weight_at. fold g.
  unfold entry at 3. rewrite Hss. cbn [from_option id]. rewrite Hx. cbn. do 3 f_equal. by rewrite difference_small.
Qed.
End construct.

(** The group of every row given by an index: the same weights. *)
Section indexed.
Context {A : Type} `{Scalar A} `{IntElem A} (bits : Z) (Hbits : bits_supported bits = true).
Implicit Types (qw qz sc : list (list A)).

Lemma index_rows {S B} (rows : list (list B)) idx (s : S) : Forall (λ i, i < length rows) idx →
  map_each (λ i, from_option_or OutOfBounds (rows !! i)) idx s = Ok ((λ i, default [] (rows !! i)) <$> idx, s).
Proof.
  induction 1 as [|i idx Hi _ IH]; [done|]. cbn [map_each fmap list_fmap]. unfold mbind at 1, M_bind at 1.
  destruct (lookup_lt_is_Some_2 rows i Hi) as [r ->]. cbn [from_option_or mret M_ret from_option]. unfold mbind, M_bind. by rewrite IH.
Qed.

Lemma zip_matrices_ok {S B} (f : B → B → B) c xs ys (s : S) : length xs = length ys → Forall (λ x, length x = c) xs → Forall (λ y, length y = c) ys →
  zip_matrices f xs ys s = Ok (zip_with (zip_with f) xs ys, s).
Proof.
  intros Hl Hx Hy. unfold zip_matrices, mbind at 1, M_bind at 1. rewrite broadcast_same by done. revert ys Hl Hy.
  induction Hx as [|x xs Hx _ IH]; intros [|y ys] Hl Hy; try done. apply Forall_cons in Hy as [Hy1 Hy2].
  cbn [zip zip_with map_each]. unfold mbind at 1, M_bind at 1. unfold zip_rows at 1, mbind at 1, M_bind at 1. cbn [fst snd].
  rewrite broadcast_same by congruence. cbn [mret M_ret]. unfold mbind, M_bind. by rewrite IH by (done || by injection Hl).
Qed.

Lemma construct_indexed_ok {S} n c G qw qz sc d' (s : S) : 0 < c → packed bits n c G qw qz sc →
  construct_weights_indexed (Mat c qw) (Mat d' qz) (Mat c sc) ((λ i, i / (n / G)) <$> seq 0 n) bits s =
  Ok (Mat c (dequantized bits n c G qw qz sc), s).
Proof using Hbits.
  intros Hc Hpk. pose proof Hpk as [Hn Hw [HG Hm] [Hz1 Hz2] [Hs1 Hs2]]. unfold construct_weights_indexed, mbind, M_bind, check. rewrite Hbits. cbn [mret M_ret].
  rewrite (zeros_rows bits Hbits n c G qw qz sc), (weights_rows bits Hbits n c G qw qz sc) by done. rewrite Hs1.
  set (zs := (λ g, _) <$> seq 0 G). set (idx := (λ i, i / (n / G)) <$> seq 0 n). set (wt := (λ i, _) <$> seq 0 n).
  assert (Forall (λ r, length r = c) zs) as Wz by (apply Forall_fmap, Forall_true; intros g; cbn; by rewrite length_fmap, length_seq).
  assert (Forall (λ r, length r = c) wt) as Ww by (apply Forall_fmap, Forall_true; intros i; cbn; by rewrite length_fmap, length_seq).
  assert (length zs = G) as Lz by (unfold zs; by rewrite length_fmap, length_seq).
  assert (Forall (λ g, g < G) idx) as Hidx.
  { apply Forall_fmap, Forall_forall. intros i Hi%elem_of_seq. cbn. apply Nat.Div0.div_lt_upper_bound.
    pose proof (Nat.div_mod_eq n G). nia. }
  rewrite reshape_rows_ok by done. rewrite index_rows by (by rewrite Lz).
  assert (∀ {B} (rows : list (list B)), length rows = G → Forall (λ r, length r = c) rows → Forall (λ r, length r = c) ((λ g, default [] (rows !! g)) <$> idx)) as Hat.
  { intros B rows Hl Hr. apply Forall_fmap. eapply Forall_impl; [exact Hidx|]. intros g Hg. cbn in Hg |- *.
    destruct (lookup_lt_is_Some_2 rows g) as [row Hrow]; [lia|]. rewrite Hrow. apply (Forall_lookup_1 _ _ _ _ Hr Hrow). }
  rewrite (zip_matrices_ok _ c) by (done || (unfold wt, idx; by rewrite !length_fmap) || by apply Hat).
  rewrite index_rows by (by rewrite Hs1).
  rewrite (zip_matrices_ok _ c); [|unfold wt, idx; rewrite !length_fmap, length_zip_with, !length_fmap; lia|by apply Hat|].
  2:{ apply Forall_fmap, Forall_lookup. intros i r Hr. cbn. rewrite length_map. apply lookup_zip_with_Some in Hr as (x&y&->&Hx&Hy).
      rewrite length_zip_with, (Forall_lookup_1 _ _ _ _ Ww Hx). assert (length y = c) as -> by (eapply Forall_lookup_1 in Hy; [exact Hy|by apply Hat]). lia. }
  unfold mret, M_ret. f_equal. f_equal. assert ((if decide (c = 1) then c else c) = c) as -> by by case_decide. f_equal.
  unfold dequantized. apply list_eq. intros i. rewrite lookup_zip_with, list_lookup_fmap, lookup_zip_with. unfold wt, idx.
  rewrite !list_lookup_fmap. destruct (decide (i < n)) as [Hi|Hi]; [|by rewrite lookup_seq_ge by lia]. rewrite seq0_lookup by done.
  cbn [fmap option_fmap option_map mbind option_bind]. f_equal.
  assert (i / (n / G) < G) as Hg.
  { apply Nat.Div0.div_lt_upper_bound. pose proof (Nat.div_mod_eq n G). lia. }
  set (g := i / (n / G)) in *.
  assert (zs !! g = Some ((λ j, code bits (entry qz g (j / pack_factor bits)) (j `mod` pack_factor bits) + 1)%Z <$> seq 0 c)) as Ez.
  { unfold zs. by rewrite list_lookup_fmap, seq0_lookup by done. }
  rewrite Ez. destruct (lookup_lt_is_Some_2 sc g) as [ss Hss]; [lia|]. rewrite Hss. cbn [from_option id].
  pose proof (Forall_lookup_1 _ _ _ _ Hs2 Hss) as Hl. cbn in Hl. apply list_eq. intros j.
  rewrite lookup_zip_with, list_lookup_fmap. change (map (of_int (A := A))) with (fmap (M := list) (of_int (A := A))). rewrite list_lookup_fmap, lookup_zip_with, !list_lookup_fmap.
  destruct (decide (j < c)) as [Hj|Hj]; [|rewrite (lookup_ge_None_2 ss) by lia; by rewrite lookup_seq_ge by lia].
  rewrite seq0_lookup by done. destruct (lookup_lt_is_Some_2 ss j) as [x Hx]; [lia|]. rewrite Hx. cbn. unfold weight_at. fold g.
  unfold entry at 3. rewrite Hss. cbn [from_option id]. rewrite Hx. cbn. do 3 f_equal. by rewrite difference_small.
Qed.
End indexed.
