(* ===== verification/QuantProps.v ===== *)
(** * Quantized layers on several ranks

    The shards that the ranks load of a packed weight stand for the columns or the
    rows of the whole weight, so the layers of [Quantization] compute together the
    product with the whole weight. *)

From Stdlib Require Import Ascii PeanoNat.
From stdpp Require Import base tactics list gmap strings.
From S2P Require Import Prelude Types Tensor StateDict Linear LinearInv KernelProps ChatTemplate Attention AttentionProps Config Models ModelInv ModelProps Quantization.

(** ** The shards of the ranks *)
Section shards.
Context {A : Type} `{Scalar A} `{IntElem A} (bits : Z) (Hbits : bits_supported bits = true).
Implicit Types (qw qz sc rows : list (list A)).
Abbreviation pf := (pack_factor bits).

Lemma entry_piece_cols ws r k rows i j : Forall (λ row, length row = ws * k) rows → r < ws → j < k →
  entry (piece ws r <$> rows) i j = entry rows i (r * k + j).
Proof.
  intros Hw Hr Hj. unfold entry. rewrite list_lookup_fmap. destruct (rows !! i) as [row|] eqn:Hrow; [|done]. cbn.
  f_equal. apply piece_lookup; [|done|done]. apply (Forall_lookup_1 _ _ _ _ Hw Hrow).
Qed.
Lemma entry_piece_rows ws r k rows i j : length rows = ws * k → r < ws → i < k → entry (piece ws r rows) i j = entry rows (r * k + i) j.
Proof. intros Hl Hr Hi. unfold entry. by rewrite (piece_lookup ws r i k). Qed.

Lemma add_div_mod r per m j : per = m * pf → (r * per + j) / pf = r * m + j / pf ∧ (r * per + j) `mod` pf = j `mod` pf.
Proof using Hbits.
  destruct (supported_bits _ Hbits) as [_ Hp]. intros ->. rewrite Nat.mul_assoc. split; [by apply Nat.div_add_l|].
  rewrite Nat.add_comm. apply Nat.Div0.mod_add.
Qed.

(** *** By columns *)

Lemma packed_columns n G ws m r qw qz sc : packed bits n (ws * (m * pf)) G qw qz sc → r < ws →
  packed bits n (m * pf) G (piece ws r <$> qw) (piece ws r <$> qz) (piece ws r <$> sc).
Proof using Hbits.
  intros [Hn Hw Hg [Hz1 Hz2] [Hs1 Hs2]] Hr. destruct (supported_bits _ Hbits) as [_ Hp].
  split; rewrite ?length_fmap; try done; [|split; [done|]|split; [done|]]; apply Forall_fmap.
  - eapply Forall_impl; [exact Hw|]. intros row Hl. cbn in Hl |- *. by apply piece_lengths.
  - eapply Forall_impl; [exact Hz2|]. intros row Hl. cbn in Hl |- *. f_equal. apply piece_lengths; [nia|done].
  - eapply Forall_impl; [exact Hs2|]. intros row Hl. cbn in Hl |- *. by apply piece_lengths.
Qed.

Lemma dequantized_columns n G ws m r qw qz sc : packed bits n (ws * (m * pf)) G qw qz sc → r < ws →
  dequantized bits n (m * pf) G (piece ws r <$> qw) (piece ws r <$> qz) (piece ws r <$> sc) =
  piece ws r <$> dequantized bits n (ws * (m * pf)) G qw qz sc.
Proof using Hbits.
  intros [Hn Hw Hg [Hz1 Hz2] [Hs1 Hs2]] Hr. destruct (supported_bits _ Hbits) as [_ Hp].
  assert (Forall (λ row, length row = ws * m) qz) as Hz3 by (eapply Forall_impl; [exact Hz2|]; intros row Hl; cbn in Hl |- *; nia).
  unfold dequantized. rewrite <-list_fmap_compose. apply list_fmap_ext. intros _ i _. cbn. apply list_eq. intros j. rewrite list_lookup_fmap.
  destruct (decide (j < m * pf)) as [Hj|Hj].
  - rewrite (piece_lookup ws r j (m * pf)) by (done || by rewrite length_fmap, length_seq). rewrite list_lookup_fmap.
    rewrite !seq0_lookup by (done || nia). cbn. f_equal. unfold weight_at. destruct (add_div_mod r _ m j eq_refl) as [-> ->].
    rewrite !(entry_piece_cols ws r (m * pf)) by done. by rewrite !(entry_piece_cols ws r m) by (done || (apply Nat.Div0.div_lt_upper_bound; lia)).
  - rewrite lookup_seq_ge by lia. rewrite lookup_ge_None_2; [done|]. rewrite (piece_lengths ws r (m * pf)); [lia|by rewrite length_fmap, length_seq|done].
Qed.

(** *** By rows *)

(** What [get_sharded_tensor] gives a rank: one group is shared by all ranks. *)
Definition row_shard (ws r : nat) rows : list (list A) := if decide (length rows < ws) then rows else piece ws r rows.
Definition groups_split (G ws : nat) : Prop := G = 1 ∨ G `mod` ws = 0.

Definition local_groups (G ws : nat) : nat := if decide (G < ws) then G else G / ws.

Lemma group_shard G ws m (r : nat) rows gs : length rows = G → groups_split G ws → r < ws → G ≠ 0 → G * gs = ws * m → 0 < m →
  let G' := local_groups G ws in
  length (row_shard ws r rows) = G' ∧ G' ≠ 0 ∧ m `mod` G' = 0 ∧
    ∀ i j, i < m → entry (row_shard ws r rows) (i / (m / G')) j = entry rows ((r * m + i) / gs) j.
Proof.
  intros Hl Hgs Hr HG He Hm. unfold row_shard, local_groups. cbv zeta. destruct (decide (G < ws)) as [Hlt|Hge].
  - assert (G = 1) as ->.
    { destruct Hgs as [->|Hmod]; [done|]. rewrite Nat.mod_small in Hmod by done. lia. }
    rewrite decide_True by lia. split_and!; [done|done|apply Nat.mod_1_r|]. intros i j Hi. rewrite Nat.div_1_r.
    f_equal. rewrite (Nat.div_small i) by done. symmetry. apply Nat.div_small. nia.
  - rewrite decide_False by lia. assert (∃ k, G = ws * k) as [k ->].
    { destruct Hgs as [->|Hmod]; [exists 1; lia|]. exists (G / ws). pose proof (Nat.div_mod_eq G ws). lia. }
    assert (m = k * gs) as -> by nia. rewrite (Nat.mul_comm ws k), Nat.div_mul by lia. rewrite (piece_lengths ws r k) by (done || lia).
    assert (k ≠ 0) as Hk by lia. split_and!; [done|done|rewrite Nat.mul_comm; apply Nat.Div0.mod_mul|]. intros i j Hi.
    rewrite (Nat.mul_comm k gs), Nat.div_mul by done. assert (gs ≠ 0) by nia.
    rewrite (entry_piece_rows ws r k) by (lia || (apply Nat.Div0.div_lt_upper_bound; lia)). f_equal.
    replace (r * (gs * k) + i) with (r * k * gs + i) by lia. symmetry. by apply Nat.div_add_l.
Qed.

Lemma Forall_shard (P : list A → Prop) ws r rows : Forall P rows → Forall P (row_shard ws r rows).
Proof. intros Hp. unfold row_shard. case_decide; [done|]. by apply Forall_take, Forall_drop. Qed.

Lemma packed_rows c G ws k r qw qz sc : packed bits (ws * (k * pf)) c G qw qz sc → groups_split G ws → r < ws → 0 < k →
  packed bits (k * pf) c (local_groups G ws) (piece ws r qw) (row_shard ws r qz) (row_shard ws r sc).
Proof using H Hbits.
  intros [Hn Hw [HG Hm] [Hz1 Hz2] [Hs1 Hs2]] Hgs Hr Hk. destruct (supported_bits _ Hbits) as [_ Hp].
  assert (G * (ws * (k * pf) / G) = ws * (k * pf)) as He by (pose proof (Nat.div_mod_eq (ws * (k * pf)) G); lia).
  destruct (group_shard G ws (k * pf) r qz _ Hz1 Hgs Hr HG He) as (Z1&Z2&Z3&_); [nia|].
  destruct (group_shard G ws (k * pf) r sc _ Hs1 Hgs Hr HG He) as (S1&_); [nia|].
  split; [|by apply Forall_take, Forall_drop|done|split; [done|by apply Forall_shard]|split; [done|by apply Forall_shard]].
  f_equal. apply piece_lengths; [nia|done].
Qed.

Lemma dequantized_rows c G ws k r qw qz sc : packed bits (ws * (k * pf)) c G qw qz sc → groups_split G ws → r < ws → 0 < k →
  dequantized bits (k * pf) c (local_groups G ws) (piece ws r qw) (row_shard ws r qz) (row_shard ws r sc) =
  piece ws r (dequantized bits (ws * (k * pf)) c G qw qz sc).
Proof using Hbits.
  intros [Hn Hw [HG Hm] [Hz1 Hz2] [Hs1 Hs2]] Hgs Hr Hk. destruct (supported_bits _ Hbits) as [_ Hp].
  assert (length qw = ws * k) as Lq by nia.
  assert (G * (ws * (k * pf) / G) = ws * (k * pf)) as He by (pose proof (Nat.div_mod_eq (ws * (k * pf)) G); lia).
  destruct (group_shard G ws (k * pf) r qz _ Hz1 Hgs Hr HG He) as (_&_&_&Ez); [nia|].
  destruct (group_shard G ws (k * pf) r sc _ Hs1 Hgs Hr HG He) as (_&_&_&Es); [nia|].
  apply list_eq. intros i. unfold dequantized at 1. rewrite list_lookup_fmap. destruct (decide (i < k * pf)) as [Hi|Hi].
  - rewrite (piece_lookup ws r i (k * pf)) by (done || (unfold dequantized; by rewrite length_fmap, length_seq)).
    unfold dequantized. rewrite list_lookup_fmap, !seq0_lookup by (done || nia). cbn. f_equal. apply list_fmap_ext. intros _ j _.
    unfold weight_at. rewrite Ez, Es by done. destruct (add_div_mod r _ k i eq_refl) as [-> ->].
    by rewrite (entry_piece_rows ws r k) by (done || (apply Nat.Div0.div_lt_upper_bound; lia)).
  - rewrite lookup_seq_ge by lia. rewrite lookup_ge_None_2; [done|].
    rewrite (piece_lengths ws r (k * pf)); [lia|unfold dequantized; by rewrite length_fmap, length_seq|done].
Qed.
End shards.

(** ** The layers of the ranks *)
Section layers.
Context {A : Type} `{ScalarLaws A} `{IntElem A} (memory : nat → A) (q : Quant.QuantArgs).
Abbreviation bits := (Quant.bits q).
Abbreviation pf := (pack_factor bits).
Context (Hbits : bits_supported bits = true).
Implicit Types (qw qz sc rows xs : list (list A)) (b : option (list A)).

(** *** Products *)

Lemma transposed_columns ws r k rows : Forall (λ row, length row = ws * k) rows → r < ws →
  transposed k (piece ws r <$> rows) = piece ws r (transposed (ws * k) rows).
Proof using H.
  intros Hw Hr. apply list_eq. intros j. destruct (decide (j < k)) as [Hj|Hj].
  - rewrite (piece_lookup ws r j k) by (done || (unfold transposed; by rewrite length_fmap, length_seq)).
    unfold transposed. rewrite !list_lookup_fmap, !seq0_lookup by (done || nia). cbn. f_equal. rewrite <-list_fmap_compose.
    apply list_fmap_ext. intros i row Hrow. cbn. f_equal. apply piece_lookup; [|done|done]. apply (Forall_lookup_1 _ _ _ _ Hw Hrow).
  - rewrite !lookup_ge_None_2; [done|rewrite (piece_lengths ws r k)|unfold transposed; rewrite length_fmap, length_seq]; try lia.
    unfold transposed. by rewrite length_fmap, length_seq.
Qed.
Lemma transposed_rows ws r c rows : transposed c (piece ws r rows) = piece ws r <$> transposed c rows.
Proof using H. unfold transposed. rewrite <-list_fmap_compose. apply list_fmap_ext. intros _ j _. cbn. symmetry. apply piece_fmap. Qed.
Lemma transposed_width c rows : Forall (λ row, length row = length rows) (transposed c rows).
Proof using H. apply Forall_fmap, Forall_true. intros j. cbn. by rewrite length_fmap. Qed.
Lemma transposed_length c rows : length (transposed c rows) = c.
Proof using H. unfold transposed. by rewrite length_fmap, length_seq. Qed.

(** A layer with packed weights multiplies with the weights. *)
Definition q_loaded c qw qz sc b (flag : bool) (r ws : nat) : QLinear A :=
  mkQLinear (mkWeight (Mat c qw) true []) (mkWeight (Mat (c / pf) qz) true []) (mkWeight (Mat c sc) true [])
    ((λ v, mkWeight (Vec v) true []) <$> b) bits flag r ws.
Lemma quant_matmul_ok {S} n c G qw qz sc b flag r ws x (s : S) : 0 < c → packed bits n c G qw qz sc →
  quant_matmul (q_loaded c qw qz sc b flag r ws) x s = linear x (Mat n (transposed c (dequantized bits n c G qw qz sc))) None s.
Proof using Hbits.
  intros Hc Hpk. unfold quant_matmul, mbind, M_bind. cbn [qweight_ qzeros_ scales_ bits_ w_tensor q_loaded].
  rewrite (construct_weights_ok bits Hbits n c G) by done. unfold matmul. do 2 f_equal. unfold dequantized. by rewrite length_fmap, length_seq.
Qed.

(** The product with the weights, and the bias. *)
Definition q_rows (c : nat) (W : list (list A)) b xs : list (list A) := linear_row (transposed c W) b <$> xs.
Lemma q_rows_width c W b xs : (∀ v, b = Some v → length v = c) → Forall (λ y, length y = c) (q_rows c W b xs).
Proof using H.
  intros Hb. apply Forall_fmap, Forall_true. intros x. cbn. unfold linear_row. destruct b as [v|]; rewrite ?length_zip_with, ?length_fmap, ?transposed_length; [|done].
  rewrite (Hb v eq_refl). lia.
Qed.

(** What a rank has: the whole output, or its columns. *)
Definition rank_output (gather_output : bool) (ws r : nat) (y : Tensor A) : Tensor A := if gather_output then y else chunk ws 1 r y.
Lemma column_q_runs (flag : bool) n G ws m qw qz sc b xs : 0 < ws → 0 < m → packed bits n (ws * (m * pf)) G qw qz sc →
  (∀ v, b = Some v → length v = ws * (m * pf)) →
  Runs ws (if flag then collective ws else 0) (λ r, column_q_forward (q_loaded (m * pf) (piece ws r <$> qw) (piece ws r <$> qz) (piece ws r <$> sc) (piece ws r <$> b) flag r ws) (Mat n xs))
    (λ r, rank_output flag ws r (Mat (ws * (m * pf)) (q_rows (ws * (m * pf)) (dequantized bits n (ws * (m * pf)) G qw qz sc) b xs))).
Proof using All.
  intros Hws Hm Hpk Hb. destruct (supported_bits _ Hbits) as [_ Hp]. set (c := ws * (m * pf)) in *. set (W := dequantized bits n c G qw qz sc).
  assert (∀ r, r < ws → column_q_forward (q_loaded (m * pf) (piece ws r <$> qw) (piece ws r <$> qz) (piece ws r <$> sc) (piece ws r <$> b) flag r ws) (Mat n xs) =
    if decide (1 < ws) then if flag then gather_from_model_parallel_region ws (chunk ws 1 r (Mat c (q_rows c W b xs))) else Ret (chunk ws 1 r (Mat c (q_rows c W b xs))) else Ret (chunk ws 1 r (Mat c (q_rows c W b xs)))) as Hr.
  { intros r Hr. unfold column_q_forward. cbn [q_world_size_ q_flag_ q_loaded]. fold (q_loaded (m * pf) (piece ws r <$> qw) (piece ws r <$> qz) (piece ws r <$> sc) (piece ws r <$> b) flag r ws).
    assert (Forall (λ row, length row = ws * (m * pf)) W) as Ww by (apply Forall_fmap, Forall_true; intros i; cbn; by rewrite length_fmap, length_seq).
    assert (local (output ← quant_matmul (q_loaded (m * pf) (piece ws r <$> qw) (piece ws r <$> qz) (piece ws r <$> sc) (piece ws r <$> b) flag r ws) (Mat n xs);
      q_add_bias (q_loaded (m * pf) (piece ws r <$> qw) (piece ws r <$> qz) (piece ws r <$> sc) (piece ws r <$> b) flag r ws) output) =
      Ret (chunk ws 1 r (Mat c (q_rows c W b xs)))) as ->; [|done].
    unfold local, mbind, M_bind. rewrite (quant_matmul_ok n (m * pf) G) by (nia || by apply packed_columns).
    rewrite (dequantized_columns bits Hbits) by done. fold c W. rewrite (transposed_columns ws r (m * pf)) by done. fold c.
    unfold linear, mbind, M_bind, check. rewrite bool_decide_true by done. cbn [mret M_ret].
    assert (length (piece ws r (transposed c W)) = m * pf) as Lp by (apply piece_lengths; [by rewrite transposed_length|done]).
    assert (c / ws = m * pf) as Ec by (unfold c; rewrite Nat.mul_comm; apply Nat.div_mul; lia).
    unfold q_add_bias. cbn [q_bias_ q_loaded chunk]. rewrite Lp, Ec. unfold q_rows. destruct b as [v|]; cbn [fmap option_fmap option_map].
    - unfold add_bias, mbind, M_bind, check. cbn [w_tensor]. rewrite bool_decide_true by (rewrite (piece_lengths ws r (m * pf)); [done|by apply Hb|done]).
      cbn [mret M_ret]. do 2 f_equal. rewrite <-!list_fmap_compose. apply list_fmap_ext. intros i x _. cbn.
      rewrite piece_zip_with by (rewrite length_fmap, transposed_length; symmetry; by apply Hb). f_equal. symmetry. apply piece_fmap.
    - unfold mret, M_ret. do 2 f_equal. rewrite <-!list_fmap_compose. apply list_fmap_ext. intros i x _. cbn. symmetry. apply piece_fmap. }
  unfold rank_output. destruct flag.
  - unfold collective. case_decide as Hlt.
    + eapply Runs_ext; [exact Hr|]. apply gather_columns_runs; [done|unfold c; rewrite Nat.mul_comm; apply Nat.Div0.mod_mul|by apply q_rows_width].
    + apply Runs_ret. intros r Hrw. rewrite Hr by done. assert (ws = 1) as -> by lia. assert (r = 0) as -> by lia. by rewrite chunk_one.
  - apply Runs_ret. intros r Hrw. rewrite Hr by done. by case_decide.
Qed.


(** The input of a rank. *)
Lemma scatter_ok {S} n ws r xs (s : S) : n `mod` ws = 0 → r < ws → scatter_to_model_parallel_region r ws (Mat n xs) s = Ok (chunk ws 1 r (Mat n xs), s).
Proof using H.
  intros Hm Hr. unfold scatter_to_model_parallel_region. case_decide as Hw.
  - subst ws. assert (r = 0) as -> by lia. by rewrite chunk_one.
  - unfold mbind, M_bind, size_of, check. cbn [last_dim sizes length Nat.sub lookup list_lookup from_option_or mret M_ret]. by rewrite bool_decide_true.
Qed.
Definition rank_input (flag : bool) (ws r : nat) (x : Tensor A) : Tensor A := if flag then chunk ws 1 r x else x.

Lemma row_q_runs c G ws k qw qz sc b flag xs : 0 < ws → 0 < k → 0 < c → packed bits (ws * (k * pf)) c G qw qz sc → groups_split G ws →
  (∀ v, b = Some v → length v = c) → Forall (λ x, length x = ws * (k * pf)) xs →
  Runs ws (collective ws) (λ r, row_q_forward (q_loaded c (piece ws r qw) (row_shard ws r qz) (row_shard ws r sc) b flag r ws) (rank_input flag ws r (Mat (ws * (k * pf)) xs)))
    (λ _, Mat c (q_rows c (dequantized bits (ws * (k * pf)) c G qw qz sc) b xs)).
Proof using All.
  intros Hws Hk Hc Hpk Hgs Hb Hxs. destruct (supported_bits _ Hbits) as [_ Hp]. set (n := ws * (k * pf)) in *. set (W := dequantized bits n c G qw qz sc).
  assert (n `mod` ws = 0) as Hm by (unfold n; rewrite Nat.mul_comm; apply Nat.Div0.mod_mul).
  assert (n / ws = k * pf) as Hd by (unfold n; rewrite Nat.mul_comm; apply Nat.div_mul; lia).
  set (l := λ r, q_loaded c (piece ws r qw) (row_shard ws r qz) (row_shard ws r sc) b flag r ws).
  assert (length W = n) as LW by (unfold W, dequantized; by rewrite length_fmap, length_seq).
  assert (∀ r, r < ws → row_q_forward (l r) (rank_input flag ws r (Mat n xs)) =
    (row_forward (plain (n / ws) (piece ws r <$> transposed c W) true r ws) (chunk ws 1 r (Mat n xs)) ≫= λ o, local (q_add_bias (l r) o))) as Hr.
  { intros r Hr. unfold row_q_forward, row_forward. cbn [q_world_size_ q_flag_ q_rank_ l q_loaded plain flag_ world_size_ rank_ weight_ w_tensor bias_tensor bias_ fmap option_fmap option_map].
    fold (l r). assert ((if flag then mret (rank_input flag ws r (Mat n xs)) else local (scatter_to_model_parallel_region r ws (rank_input flag ws r (Mat n xs)))) =
      @Ret A _ (chunk ws 1 r (Mat n xs))) as ->.
    { unfold rank_input. destruct flag; [done|]. unfold local. by rewrite scatter_ok. }
    assert (local (A := A) (quant_matmul (l r) (chunk ws 1 r (Mat n xs))) = local (linear (chunk ws 1 r (Mat n xs)) (Mat (n / ws) (piece ws r <$> transposed c W)) None)) as Hl.
    { unfold local, l. rewrite (quant_matmul_ok (k * pf) c (local_groups G ws)) by (done || by apply packed_rows).
      rewrite (dequantized_rows bits Hbits) by done. fold n W. rewrite transposed_rows. by rewrite Hd. }
    unfold mbind, Spmd_bind, mret, Spmd_ret. cbn [spmd_bind]. rewrite Hl. unfold local at 1 3. destruct (linear _ _ None ()) as [[o []]|e]; [|done]. cbn [spmd_bind].
    case_decide; [|done]. unfold reduce_from_model_parallel_region. by rewrite decide_False by lia. }
  eapply Runs_ext; [exact Hr|]. replace (collective ws) with (collective ws + 0) by lia.
  refine (Runs_bind ws _ _ _ (λ _, Mat c (project (transposed c W) xs)) _ _ _ _).
  - pose proof (row_runs n (transposed c W) xs ws Hws Hm Hxs) as Hrun. rewrite transposed_length in Hrun. apply Hrun. rewrite <-LW. apply transposed_width.
  - apply Runs_local. intros r Hrw. unfold q_add_bias, l, q_loaded. cbn [q_bias_]. unfold q_rows. destruct b as [v|]; [|done].
    cbn [fmap option_fmap option_map]. unfold add_bias, mbind, M_bind, check. cbn [w_tensor]. rewrite bool_decide_true by by apply Hb. cbn [mret M_ret].
    unfold mret, M_ret, project. do 3 f_equal. by rewrite <-list_fmap_compose.
Qed.

(** *** Construction and loading *)

Lemma round_up_ok {S} G gs n (s : S) : 0 < gs → n ≤ G * gs → (G - 1) * gs < n → round_up n gs s = Ok (G, s).
Proof using.
  intros Hg Hn Hlt. unfold round_up, div_size. rewrite decide_False by lia. unfold mret, M_ret. do 2 f_equal.
  symmetry. apply (Nat.div_unique _ _ _ (n + gs - 1 - G * gs)); [|nia]. destruct G as [|G]; nia.
Qed.

(** A layer before it is loaded. *)
Definition q_fresh n c G (b : option (list A)) (flag : bool) (r ws : nat) : QLinear A :=
  mkQLinear (fresh_weight (empty_mat memory (n / pf) c)) (fresh_weight (empty_mat memory G (c / pf))) (fresh_weight (empty_mat memory G c))
    (match b with Some _ => Some (fresh_weight (empty_vec memory c)) | None => None end) bits flag r ws.

Lemma fresh_qlinear_ok {S} n c G gs b flag r ws (s : S) : 0 < gs → n ≤ G * gs → (G - 1) * gs < n →
  fresh_qlinear memory n c gs (bool_decide (is_Some b)) flag bits 0 r ws s = Ok (q_fresh n c G b flag r ws, s).
Proof using Hbits.
  intros Hg Hn Hlt. destruct (supported_bits _ Hbits) as [Hb Hp]. unfold fresh_qlinear, ints_per_word, mbind, M_bind. rewrite decide_False by lia.
  cbn [mret M_ret]. rewrite decide_True by done. unfold div_size. rewrite decide_False by done. cbn [mret M_ret].
  rewrite (round_up_ok G) by done. rewrite decide_False by done. unfold mret, M_ret, q_fresh. do 3 f_equal. by destruct b.
Qed.

(** A weight of which every rank takes a part. *)
Lemma sharded_loads (files : list (StateDict A)) name (t : Tensor A) dim r ws w : provides files name t → dim ≤ 1 → r < ws → sizes t !! dim ≠ None →
  (∀ n, sizes t !! dim = Some n → ws ≤ n → n `mod` ws = 0) →
  let part := match sizes t !! dim with Some n => if decide (n < ws) then t else chunk ws dim r t | None => t end in
  sizes (w_tensor w) = sizes part → for_each (λ d, load_sharded_weight d name dim r ws) files w = Ok (tt, mkWeight part true (w_list w)).
Proof using H.
  intros Hp Hd Hr Hs Hm part Hsz. eapply load_provided; [exact Hp| |].
  - intros d Hl. unfold load_sharded_weight, mbind, M_bind. by rewrite !get_sharded_lacks.
  - intros d Hh. unfold load_sharded_weight, get_sharded_tensor, mbind, M_bind, check. rewrite (bool_decide_true (r < ws)) by done.
    replace (bool_decide (dim = 0) || bool_decide (dim = 1)) with true by (by destruct dim as [|[|?]]; [| |lia]). cbn [mret M_ret].
    rewrite (get_tensor_holds d name t) by done. unfold size_of. unfold part in *. destruct (sizes t !! dim) as [n|] eqn:Hn; [|done]. cbn [from_option_or mret M_ret].
    case_decide; [by apply store_weight_ok|]. rewrite bool_decide_true by (apply Hm; [done|lia]). cbn [mret M_ret]. by apply store_weight_ok.
Qed.

(** The members of a layer are loaded one after the other. *)
Lemma layer_loads (files : list (StateDict A)) (load : StateDict A → M (QLinear A) unit) (l1 l2 l3 l4 : StateDict A → M (Weight A) unit) (flag : bool) r ws w1 w2 w3 w4 w1' w2' w3' w4' :
  (∀ d w1 w2 w3 w4, load d (mkQLinear w1 w2 w3 w4 bits flag r ws) =
     (_ ← on_qweight (l1 d); _ ← on_qzeros (l2 d); _ ← on_scales (l3 d); on_q_bias (l4 d)) (mkQLinear w1 w2 w3 w4 bits flag r ws)) →
  for_each l1 files w1 = Ok (tt, w1') → for_each l2 files w2 = Ok (tt, w2') → for_each l3 files w3 = Ok (tt, w3') →
  for_each (λ d, load_opt (l4 d)) files w4 = Ok (tt, w4') →
  for_each load files (mkQLinear w1 w2 w3 w4 bits flag r ws) = Ok (tt, mkQLinear w1' w2' w3' w4' bits flag r ws).
Proof using.
  intros Hld H1' H2' H3' H4'.
  apply (for_each_pair (λ w x, mkQLinear w x.1 x.2.1 x.2.2 bits flag r ws) load l1 (both l2 (both l3 (λ d, load_opt (l4 d)))) files w1 w1' (w2, (w3, w4)) (w2', (w3', w4'))).
  - intros d w [x [y z]] w' [x' [y' z']] Ha Hb. cbn [fst snd] in Hb |- *. rewrite Hld. unfold both, Sequence.on_fst, Sequence.on_snd, zoom, mbind, M_bind in Hb. cbn [fst snd] in Hb.
    unfold on_qweight, on_qzeros, on_scales, zoom, mbind, M_bind. cbn [qweight_ qzeros_ scales_ q_bias_ bits_ q_flag_ q_rank_ q_world_size_]. rewrite Ha.
    cbn [qweight_ qzeros_ scales_ q_bias_ bits_ q_flag_ q_rank_ q_world_size_]. destruct (l2 d x) as [[[] x1]|]; [|done].
    cbn [qweight_ qzeros_ scales_ q_bias_ bits_ q_flag_ q_rank_ q_world_size_ fst snd] in Hb |- *. destruct (l3 d y) as [[[] y1]|]; [|done].
    cbn [qweight_ qzeros_ scales_ q_bias_ bits_ q_flag_ q_rank_ q_world_size_ fst snd] in Hb |- *.
    unfold load_opt, mbind, M_bind, get in Hb. unfold on_q_bias, mbind, M_bind, get. cbn [q_bias_]. unfold zoom in Hb |- *.
    destruct z as [z|]; cbn in Hb |- *; [|by simplify_eq]. destruct (l4 d z) as [[[] z1]|]; [|done]. cbn in Hb |- *. by simplify_eq.
  - done.
  - apply for_each_both; [done|]. by apply for_each_both.
Qed.

(** A checkpoint with a packed weight. *)
Record q_files n c G qw qz sc b (files : list (StateDict A)) : Prop := {
  qf_packed : packed bits n c G qw qz sc;
  qf_weight : provides files qweight_name (Mat c qw);
  qf_zeros : provides files qzeros_name (Mat (c / pf) qz);
  qf_scales : provides files scales_name (Mat c sc);
  qf_bias : ∀ v, b = Some v → length v = c ∧ provides files bias_name (Vec v);
  qf_size : 0 < c ∧ 0 < n;
  qf_groups : G * group_size_of q n = n;
}.

Lemma pack_dim_zero {S} (s : S) : pack_dim_ok 0 s = Ok (tt, s).
Proof using. done. Qed.

(** A member of which a rank takes its columns, its rows, or its elements. *)
Lemma columns_load (files : list (StateDict A)) name d rows r ws w : provides files name (Mat d rows) → r < ws → ws ≤ d → d `mod` ws = 0 →
  sizes (w_tensor w) = [length rows; d / ws] →
  for_each (λ d, load_sharded_weight d name 1 r ws) files w = Ok (tt, mkWeight (Mat (d / ws) (piece ws r <$> rows)) true (w_list w)).
Proof using H.
  intros Hp Hr Hd Hm Hs. pose proof (sharded_loads files name _ 1 r ws w Hp) as Hl. cbn [sizes lookup list_lookup chunk] in Hl.
  rewrite decide_False in Hl by lia. apply Hl; [lia|done|done|by intros ? [= <-]|]. by rewrite Hs; cbn; rewrite length_fmap.
Qed.
Lemma rows_load (files : list (StateDict A)) name d rows r ws w : provides files name (Mat d rows) → r < ws → (ws ≤ length rows → length rows `mod` ws = 0) →
  sizes (w_tensor w) = [length (row_shard ws r rows); d] →
  for_each (λ d, load_sharded_weight d name 0 r ws) files w = Ok (tt, mkWeight (Mat d (row_shard ws r rows)) true (w_list w)).
Proof using H.
  intros Hp Hr Hm Hs. pose proof (sharded_loads files name _ 0 r ws w Hp) as Hl. cbn [sizes lookup list_lookup chunk] in Hl.
  unfold row_shard in *. case_decide; apply Hl; try done; try lia; by intros ? [= <-].
Qed.
Lemma elements_load (files : list (StateDict A)) name l r ws w : provides files name (Vec l) → r < ws → ws ≤ length l → length l `mod` ws = 0 →
  sizes (w_tensor w) = [length (piece ws r l)] →
  for_each (λ d, load_sharded_weight d name 0 r ws) files w = Ok (tt, mkWeight (Vec (piece ws r l)) true (w_list w)).
Proof using H.
  intros Hp Hr Hd Hm Hs. pose proof (sharded_loads files name _ 0 r ws w Hp) as Hl. cbn [sizes lookup list_lookup chunk] in Hl.
  rewrite decide_False in Hl by lia. apply Hl; [lia|done|done|by intros ? [= <-]|done].
Qed.

Lemma column_q_built (flag : bool) n c G ws m r qw qz sc b files : c = ws * (m * pf) → r < ws → q_files n c G qw qz sc b files →
  Built (ColumnParallelQLinear_new memory n c (bool_decide (is_Some b)) q 0 flag (mkParallelArgs r ws)) column_q_load q_verify files
    (q_loaded (m * pf) (piece ws r <$> qw) (piece ws r <$> qz) (piece ws r <$> sc) (piece ws r <$> b) flag r ws).
Proof using All.
  intros -> Hr [Hpk F1 F2 F3 F4 [Hc Hn] Hg]. pose proof Hpk as [Hq _ [HG _] [Hz _] [Hs _]]. destruct (supported_bits _ Hbits) as [_ Hp].
  assert (0 < m) by nia. assert (ws * (m * pf) / pf = ws * m) as Ez by (rewrite Nat.mul_assoc; by apply Nat.div_mul).
  exists (q_fresh n (m * pf) G b flag r ws). split_and!.
  - unfold ColumnParallelQLinear_new, mbind, M_bind. rewrite pack_dim_zero. cbn [world_size rank].
    rewrite divisible_ok by (lia || apply mul_mod_l). rewrite mul_div_l by lia. apply fresh_qlinear_ok; nia.
  - apply (layer_loads files column_q_load (λ d, load_sharded_weight d qweight_name 1 r ws) (λ d, load_sharded_weight d qzeros_name 1 r ws)
      (λ d, load_sharded_weight d scales_name 1 r ws) (λ d, load_sharded_weight d bias_name 0 r ws)); [done| | | |].
    + rewrite (columns_load _ _ _ _ _ _ _ F1); [by rewrite mul_div_l by lia|done|nia|apply mul_mod_l|].
      rewrite mul_div_l by lia. cbn. rewrite !length_fmap, !length_seq, <-Hq. by rewrite Nat.div_mul.
    + rewrite Ez in F2. rewrite (columns_load _ _ _ _ _ _ _ F2); [by rewrite mul_div_l, Nat.div_mul by lia|done|nia|apply mul_mod_l|].
      rewrite mul_div_l by lia. cbn. by rewrite !length_fmap, !length_seq, Hz, Nat.div_mul.
    + rewrite (columns_load _ _ _ _ _ _ _ F3); [by rewrite mul_div_l by lia|done|nia|apply mul_mod_l|].
      rewrite mul_div_l by lia. cbn. by rewrite !length_fmap, !length_seq, Hs.
    + rewrite (opt_loads files _ b _ (λ v, mkWeight (Vec (piece ws r v)) true [])); [by destruct b|]. intros v Hv. destruct (F4 v Hv) as [Hlv Hpv].
      apply elements_load; [done|done|nia|rewrite Hlv; apply mul_mod_l|]. cbn. rewrite length_fmap, length_seq. by rewrite (piece_lengths ws r (m * pf)).
  - unfold q_verify, mbind, M_bind, check. cbn. by destruct b.
Qed.

(** The groups that the constructor makes. *)
Lemma local_groups_bounds G gs ws m : groups_split G ws → 0 < ws → G * gs = ws * m → 0 < m →
  m ≤ local_groups G ws * gs ∧ (local_groups G ws - 1) * gs < m.
Proof using.
  intros Hgs Hws He Hm. unfold local_groups. destruct (decide (G < ws)) as [Hlt|Hge].
  - assert (G = 1) as -> by (destruct Hgs as [->|Hmod]; [done|rewrite Nat.mod_small in Hmod by done; nia]). nia.
  - destruct Hgs as [->|Hmod]; [assert (ws = 1) as -> by lia; rewrite Nat.div_1_r; nia|].
    pose proof (Nat.div_mod_eq G ws) as Hd. rewrite Hmod in Hd. assert (ws * (G / ws * gs) = ws * m) by nia. nia.
Qed.
Lemma row_shard_length ws r G rows : length rows = G → groups_split G ws → r < ws → length (row_shard ws r rows) = local_groups G ws ∧ (ws ≤ length rows → length rows `mod` ws = 0).
Proof using.
  intros Hl Hgs Hr. unfold row_shard, local_groups. rewrite Hl. destruct (decide (G < ws)) as [Hlt|Hge]; [split; [done|lia]|].
  assert (G `mod` ws = 0) as Hmod by (destruct Hgs as [->|Hmod]; [assert (ws = 1) as -> by lia; done|done]). split; [|done].
  apply piece_lengths; [|done]. rewrite Hl. pose proof (Nat.div_mod_eq G ws). lia.
Qed.

Lemma row_q_built flag n c G ws k r qw qz sc b files : n = ws * (k * pf) → r < ws → groups_split G ws → q_files n c G qw qz sc b files →
  Built (RowParallelQLinear_new memory n c (bool_decide (is_Some b)) q 0 flag (mkParallelArgs r ws)) row_q_load q_verify files
    (q_loaded c (piece ws r qw) (row_shard ws r qz) (row_shard ws r sc) b flag r ws).
Proof using All.
  intros -> Hr Hgs [Hpk F1 F2 F3 F4 [Hc Hn] Hg]. pose proof Hpk as [Hq _ [HG _] [Hz _] [Hs _]]. destruct (supported_bits _ Hbits) as [_ Hp].
  assert (0 < k) by nia. assert (length qw = ws * k) as Lq by nia. set (gs := group_size_of q (ws * (k * pf))) in *.
  destruct (local_groups_bounds G gs ws (k * pf)) as [B1 B2]; [done|lia|done|nia|].
  destruct (row_shard_length ws r G qz) as [Lz Mz]; [done..|]. destruct (row_shard_length ws r G sc) as [Ls Ms]; [done..|].
  exists (q_fresh (k * pf) c (local_groups G ws) b flag r ws). split_and!.
  - unfold RowParallelQLinear_new, mbind, M_bind. rewrite pack_dim_zero. cbn [world_size rank].
    rewrite divisible_ok by (lia || apply mul_mod_l). rewrite mul_div_l by lia. fold gs. apply fresh_qlinear_ok; nia.
  - apply (layer_loads files row_q_load (λ d, load_sharded_weight d qweight_name 0 r ws) (λ d, load_sharded_weight d qzeros_name 0 r ws)
      (λ d, load_sharded_weight d scales_name 0 r ws) (λ d, load_weight d bias_name)); [done| | | |].
    + assert (row_shard ws r qw = piece ws r qw) as Er by (unfold row_shard; rewrite decide_False by nia; done). rewrite <-Er.
      apply rows_load; [done|done|intros _; rewrite Lq; apply mul_mod_l|]. cbn. rewrite Er, (piece_lengths ws r k), length_fmap, length_seq, Nat.div_mul by done.
      by destruct k.
    + apply rows_load; [done|done|done|]. cbn. rewrite Lz, length_fmap, length_seq. done.
    + apply rows_load; [done|done|done|]. cbn. rewrite Ls, length_fmap, length_seq. done.
    + rewrite (opt_loads files _ b _ (λ v, mkWeight (Vec v) true [])); [by destruct b|]. intros v Hv. destruct (F4 v Hv) as [Hlv Hpv].
      rewrite <-Hlv. by apply whole_load.
  - unfold q_verify, mbind, M_bind, check. cbn. by destruct b.
Qed.
End layers.

(** Every rank makes a layer, loads it from the files of a checkpoint, verifies it
    and runs it. *)
Definition run_layer {A L} (new : M unit L) (load : StateDict A → M L unit) (verify : L → M unit unit) (files : list (StateDict A))
    (forward : L → Tensor A → Spmd A (Tensor A)) (x : Tensor A) : Spmd A (Tensor A) :=
  l ← local (l ← new; l ← of_result (match for_each load files l with Ok (_, l) => Ok l | Fail e => Fail e end); _ ← verify l; mret l);
  forward l x.

Section ranks.
Context {A : Type} `{ScalarLaws A} `{IntElem A} (memory : nat → A) (q : Quant.QuantArgs).
Abbreviation pf := (pack_factor (Quant.bits q)).

Lemma run_built {L} (new : M unit L) load verify files (l : L) forward (x : Tensor A) : Built new load verify files l →
  run_layer new load verify files forward x = forward l x.
Proof using. intros (l0&Hn&Hl&Hv). unfold run_layer, local, mbind, M_bind. rewrite Hn, Hl. cbn [of_result mret M_ret]. rewrite Hv. done. Qed.

(** The layer of a rank. *)
Definition run_column_q (n c : nat) (bias gather_output : bool) (files : list (StateDict A)) (x : Tensor A) (ws r : nat) : Spmd A (Tensor A) :=
  run_layer (ColumnParallelQLinear_new memory n c bias q 0 gather_output (mkParallelArgs r ws)) column_q_load q_verify files column_q_forward x.
Definition run_row_q (n c : nat) (bias input_is_parallelized : bool) (files : list (StateDict A)) (x : Tensor A) (ws r : nat) : Spmd A (Tensor A) :=
  run_layer (RowParallelQLinear_new memory n c bias q 0 input_is_parallelized (mkParallelArgs r ws)) row_q_load q_verify files row_q_forward x.
End ranks.

(** C12. Quantized layers ([qlinear_impl.cpp]): both functions that unpack the weights
    give [scale * (q - (z + 1))] with the scale and the zero of the row's group, without
    wrapping in the narrow types.  On every number of ranks that divides the packed
    words, every rank makes its layer, loads its part of the packed checkpoint - whichever
    file holds a tensor - passes the verification and computes the product with the
    whole unpacked matrix, plus the bias once: the layers that split the columns,
    whether they gather or keep their part, and those that split the rows, over a whole input or one that is already
    split, where the groups are divided among the ranks or there is a single one. *)
Theorem quantized_layers_exact {A} `{ScalarLaws A} `{IntElem A} (memory : nat → A) q ws n c G qw qz sc b (files : list (StateDict A)) xs :
  bits_supported (Quant.bits q) = true → 0 < ws → q_files q n c G qw qz sc b files → Forall (λ x, length x = n) xs →
  let W := dequantized (Quant.bits q) n c G qw qz sc in
  construct_weights (Mat c qw) (Mat (c / pack_factor (Quant.bits q)) qz) (Mat c sc) (Quant.bits q) () = Ok (Mat c W, ()) ∧
  construct_weights_indexed (Mat c qw) (Mat (c / pack_factor (Quant.bits q)) qz) (Mat c sc) ((λ i, i / (n / G)) <$> seq 0 n) (Quant.bits q) () = Ok (Mat c W, ()) ∧
  (c `mod` (ws * pack_factor (Quant.bits q)) = 0 → ∀ gather_output : bool,
   run_world (if gather_output then collective ws else 0) (run_column_q memory q n c (bool_decide (is_Some b)) gather_output files (Mat n xs) ws <$> seq 0 ws) =
     Some ((λ r, rank_output gather_output ws r (Mat c (q_rows c W b xs))) <$> seq 0 ws)) ∧
  (n `mod` (ws * pack_factor (Quant.bits q)) = 0 → groups_split G ws → ∀ input_is_parallelized,
   run_world (collective ws) ((λ r, run_row_q memory q n c (bool_decide (is_Some b)) input_is_parallelized files (rank_input input_is_parallelized ws r (Mat n xs)) ws r) <$> seq 0 ws) =
     Some ((λ _, Mat c (q_rows c W b xs)) <$> seq 0 ws)).
Proof.
  intros Hbits Hws Hf Hx W. destruct (supported_bits _ Hbits) as [_ Hp]. pose proof Hf as [Hpk _ _ _ Hb [Hc Hn] _].
  assert (∀ v, b = Some v → length v = c) as Hl by (intros v Hv; by apply Hb).
  assert (∀ k, 0 < k → k `mod` (ws * pack_factor (Quant.bits q)) = 0 → ∃ m, 0 < m ∧ k = ws * (m * pack_factor (Quant.bits q))) as Hdiv.
  { intros k Hk Hm. apply Nat.Lcm0.mod_divide in Hm as [m ->]. exists m. split; [|lia]. destruct m; lia. }
  split_and!.
  - by apply construct_weights_ok.
  - by apply construct_indexed_ok.
  - intros Hm flag. destruct (Hdiv c Hc Hm) as (m&Hm0&Ec). apply (Runs_world ws); [done|].
    eapply Runs_ext; [intros r Hr; unfold run_column_q; by rewrite (run_built _ _ _ _ _ _ _ (column_q_built memory q Hbits flag n c G ws m r qw qz sc b files Ec Hr Hf))|].
    subst c. by apply column_q_runs.
  - intros Hm Hgs flag. destruct (Hdiv n Hn Hm) as (k&Hk&En). apply (Runs_world ws); [done|].
    eapply Runs_ext; [intros r Hr; unfold run_row_q; by rewrite (run_built _ _ _ _ _ _ _ (row_q_built memory q Hbits flag n c G ws k r qw qz sc b files En Hr Hgs Hf))|].
    subst n. by apply row_q_runs.
Qed.

(** ** An example *)

#[local] Instance word_scalar : Scalar Z := {| s_zero := 0%Z; s_add := Z.add; s_mul := Z.mul |}.
#[local] Instance word_scalar_laws : ScalarLaws Z.
Proof. split; cbn; [intros x y z; lia|intros x y; lia|intros x; lia]. Qed.
#[local] Instance word_elem : IntElem Z := {| int_of := id; of_int := id |}.

(** Eight by eight weights of eight bits in two groups, in two files. *)
Definition word_quant : Quant.QuantArgs := Quant.mkQuantArgs (text_of "gptq") 8 4 false false false.
Definition word_qweight : list (list Z) := [[-1; 2; 3; 4; 1000; 70000; 7; 8]; [257; -5; 0; 1; -300; 90; 65536; 16777216]]%Z.
Definition word_qzeros : list (list Z) := [[0; 258]; [-2; 16909060]]%Z.
Definition word_scales : list (list Z) := [[1; 2; 1; 2; 1; 2; 1; 2]; [3; 1; 3; 1; 3; 1; 3; 1]]%Z.
Definition word_bias : list Z := [1; 2; 3; 4; 5; 6; 7; 8]%Z.
Definition word_file (l : list (string * Tensor Z)) : StateDict Z := mkStateDict (list_to_map (prod_map text_of (λ t, t) <$> l)) None [].
Definition word_files : list (StateDict Z) := [
  word_file [("scales", Mat 8 word_scales); ("qweight", Mat 8 word_qweight)]; word_file [("bias", Vec word_bias); ("qzeros", Mat 2 word_qzeros)]].

Lemma word_provides name t : Exists (λ d, dict_ d !! name = Some t) word_files → Exists (λ d, dict_ d !! name = None) word_files → tensor_ok t → provides word_files name t.
Proof.
  assert (∀ d, d ∈ word_files → transform_func_ d = None) as Hf by (intros d [->|[->|[]%not_elem_of_nil]%elem_of_cons]%elem_of_cons; done).
  unfold word_files in *. intros Hs Hn Ht. set (d1 := word_file _) in *. set (d2 := word_file (("bias", _) :: _)) in *.
  assert (transform_func_ d1 = None ∧ transform_func_ d2 = None) as [F1 F2] by done. clearbody d1 d2.
  rewrite !Exists_cons, Exists_nil in Hs. rewrite !Exists_cons, Exists_nil in Hn. destruct Hs as [Hs|[Hs|[]]], Hn as [Hn|[Hn|[]]]; try congruence.
  - exists [], d1, [d2]. by repeat constructor.
  - exists [d1], d2, []. by repeat constructor.
Qed.
Lemma word_packed : packed 8 8 8 2 word_qweight word_qzeros word_scales.
Proof.
  split; [done|by repeat constructor|by split|split; [done|by repeat constructor]|split; [done|by repeat constructor]].
Qed.
Lemma word_q_files : q_files word_quant 8 8 2 word_qweight word_qzeros word_scales (Some word_bias) word_files.
Proof.
  assert (∀ name t, Exists (λ d, dict_ d !! name = Some t) word_files ∧ Exists (λ d, dict_ d !! name = None) word_files ∧ tensor_ok t → provides word_files name t) as Hp
    by (intros name t (?&?&?); by apply word_provides).
  split; [exact word_packed| | | | |split; lia|done]; [..|intros v [= <-]; split; [done|]]; apply Hp.
  - split_and!; [left; vm_compute; reflexivity|right; left; vm_compute; reflexivity|repeat constructor].
  - split_and!; [right; left; vm_compute; reflexivity|left; vm_compute; reflexivity|repeat constructor].
  - split_and!; [left; vm_compute; reflexivity|right; left; vm_compute; reflexivity|repeat constructor].
  - split_and!; [right; left; vm_compute; reflexivity|left; vm_compute; reflexivity|repeat constructor].
Qed.

(** On two ranks: the columns are gathered, the rows are summed. *)
Lemma quantized_layers_exact_witness :
  run_world 1 (run_column_q (λ _, 7%Z) word_quant 8 8 true true word_files (Mat 8 [[1; 0; 0; 0; 0; 1; 0; 2]%Z]) 2 <$> seq 0 2) =
    Some (replicate 2 (Mat 8 [[-2037; 1; -2299; -758; 2481; 214; -14; 18]]%Z)) ∧
  run_world 1 ((λ r, run_row_q (λ _, 7%Z) word_quant 8 8 true false word_files (Mat 8 [[1; 0; 0; 0; 0; 1; 0; 2]%Z]) 2 r) <$> seq 0 2) =
    Some (replicate 2 (Mat 8 [[-2037; 1; -2299; -758; 2481; 214; -14; 18]]%Z)).
Proof.
  destruct (quantized_layers_exact (λ _, 7%Z) word_quant 2 8 8 2 word_qweight word_qzeros word_scales (Some word_bias) word_files [[1; 0; 0; 0; 0; 1; 0; 2]%Z]) as (_&_&Hc&Hr).
  - reflexivity.
  - lia.
  - exact word_q_files.
  - by repeat constructor.
  - assert (groups_split 2 2) as Hg by (by right). split.
    + etransitivity; [exact (Hc eq_refl true)|]. vm_compute. reflexivity.
    + etransitivity; [exact (Hr eq_refl Hg false)|]. vm_compute. reflexivity.
Defined.
